(* ===== verification/_CoqProject ===== *)
-Q . S2P
Prelude.v
Programs.v
Text.v
Nostr.v
CanonicalJson.v
Tenant.v
Redis.v
RedisClock.v
MeshWire.v
SessionDirectory.v
Tunnel.v
MeshGossip.v
MeshMembership.v
AudioRoom.v
NipOa.v
Auth.v
Topics.v
Protocol.v
Connections.v
Lifecycle.v
RateLimit.v
Bridge.v
AuditLog.v
GitManifest.v
GitStore.v
GitPublish.v
GitHistory.v
Filter.v
Subscription.v
ReadGate.v
EventQuery.v
ReadPath.v
Fanout.v
KubeObjects.v
KubeDeploy.v
KubeEnv.v
WorkflowSchema.v
WorkflowRun.v
WorkflowEngine.v
GitPerms.v
EventQueue.v
PairingCrypto.v
PairingSession.v
PairingQr.v
Conformance.v
GitPolicy.v
Imeta.v
IngestRules.v
IngestEnvelopes.v
IngestCalls.v
Ingest.v
