(* ===== verification/Prelude.v ===== *)
(** * A verification of the core of the Buzz relay and its agents

    The repository is a Nostr relay with channels, communities (tenants) and git
    hosting, a harness that runs agents against it, and the tools around them.
    This library models the parts whose logic is their own rather than that of a
    service they call, and proves what makes them correct.  Paths below are
    relative to [src/crates].

    ** The parts and where they are modelled

    - [Filter] -- [buzz-core/src/filter.rs], [event.rs]: which stored events a
      NIP-01 filter selects, and who may read a result-gated event.
    - [Subscription] -- [buzz-relay/src/subscription.rs]: the registry of live
      subscriptions.  The record [SubscriptionRegistry] has the source's table
      and its five inverted indexes (association maps to vectors) and the gauge;
      [register_scoped], [remove_subscription], [remove_connection],
      [remove_channel_subscriptions_scoped] and [fan_out_scoped] are the methods.
      It calls [Filter.filters_match] on every candidate.
    - [GitPerms] -- [buzz-core/src/git_perms.rs], [channel.rs]: ref patterns,
      protection tags, roles and the evaluation of a push.  Indexing that would
      panic is [None].
    - [GitPolicy] -- [buzz-relay/src/api/git/policy.rs], [binding.rs]: the
      endpoint the pre-receive hook calls.  It authenticates the callback,
      resolves repository, channel and role, and asks [GitPerms.evaluate_push].
    - [EventQueue] -- [buzz-acp/src/queue.rs]: the per-channel queue between
      relay events and agent prompts, with batching, retries, dead-lettering,
      cancelled batches and withheld steer events.
    - [PairingCrypto], [PairingSession], [PairingQr] -- [buzz-core/src/pairing]:
      device pairing.  The session is a state machine run by two devices; its
      methods are computations of a state-and-error monad [M].  The QR code
      carries the session's secret from one device to the other.
    - [Conformance] -- [buzz-conformance/src]: the schema of the traces the relay
      emits and the checker that replays them against the tenant fence.
    - [GitManifest], [GitStore], [GitPublish], [GitHistory] --
      [buzz-relay/src/api/git/manifest.rs], [store.rs], [cas_publish.rs], the
      loading half of [hydrate.rs] and the push path of [transport.rs]: git
      hosting on object storage.  A push is a program of S3 requests ([io]); any
      number of them are interleaved request by request.
    - [Redis], [SessionDirectory], [Tunnel] -- [buzz-relay/src/tunnel]: which relay
      owns a session, as leases with generations kept by Lua scripts in Redis,
      and the fenced reliable streams between relays that depend on it.
    - [MeshWire], [MeshGossip], [MeshMembership] -- [buzz-relay-mesh/src]: frames,
      scuttlebutt gossip with its failure detector, the attested registry and
      the membership table that admits peers.
    - [AudioRoom] -- [buzz-relay/src/audio/room.rs]: rooms of audio peers, index
      allocation, roster deltas and frame fan-out.
    - [CanonicalJson], [AuditLog] -- [buzz-audit/src]: the hash-chained audit log,
      with appends by concurrent database sessions.
    - [Tenant], [NipOa], [Auth] -- [buzz-core/src/tenant.rs], [verification.rs],
      [buzz-relay/src/tenant.rs], [buzz-auth/src], [buzz-sdk/src/nip_oa.rs]: which
      community a host is, scopes and channel access, signed-event authentication
      over WebSocket (NIP-42) and HTTP (NIP-98), owner attestations of agents.
    - [RedisClock], [RateLimit], [Bridge] -- [buzz-pubsub/src/rate_limiter.rs],
      [nip98_replay.rs], [buzz-relay/src/admission.rs], [api/bridge.rs] and the
      preludes of [api/invites.rs], [api/operator.rs]: Redis with keys that expire,
      the fixed-window limiter and the single use of an HTTP credential.
    - [Protocol], [Connections], [Lifecycle] -- [buzz-relay/src/protocol.rs],
      [state.rs], [connection.rs]: client and relay messages, the registries of
      connections with their bounded channels, and the life of a connection under
      archival, revalidation and drain.
    - [Topics] -- [buzz-pubsub/src]: topic names, reference-counted interest and the
      subscriber task that must keep Redis subscribed to it.
    - [ReadGate], [EventQuery], [ReadPath] -- [buzz-core/src/kind.rs],
      [buzz-db/src/event.rs], [buzz-relay/src/handlers/req.rs], [count.rs]: who may
      ask for and see which kinds, the event queries as functions of the stored rows,
      and the REQ, search and COUNT handlers that compose the two.
    - [Fanout] -- [buzz-relay/src/handlers/event.rs] and the caches of [state.rs]:
      live delivery of an event on the pod that stored it and on the others.  It calls
      [Subscription.fan_out_scoped] and [Connections] and applies the gates again.
    - [KubeObjects], [KubeDeploy], [KubeEnv] -- [buzz-backend-kubernetes/src]: running an
      agent as a pod.  [KubeObjects] has names, configuration, objects and their decoding
      ([naming.rs], [image.rs], [intent.rs], [pod.rs], [observe.rs], [classify.rs],
      [gc.rs]), [KubeDeploy] the state machine of [reconcile.rs] as a program of calls of
      the trait [Substrate], [KubeEnv] the request, its configuration and the
      environment of the agent ([main.rs], [wire.rs], [config.rs], [env.rs]).
    - [WorkflowSchema], [WorkflowRun], [WorkflowEngine] -- [buzz-workflow/src], with
      [buzz-core/src/network.rs], [nip10.rs] and the claims of [buzz-db/src/workflow.rs]:
      workflow definitions and templates, the execution of a run as a program of calls, and
      the two doors that start runs, events and the schedulers of all pods.
    - [Imeta], [IngestRules], [IngestEnvelopes], [IngestCalls], [Ingest] --
      [buzz-relay/src/handlers/ingest.rs], [imeta.rs], [conformance/mod.rs],
      [workflow_sink.rs], [buzz-core/src/nip10.rs], [kind.rs]: the path of every event a
      client sends.  [Ingest] cuts [ingest_event] into stages in its order ([preflight],
      [route], [restriction_gate], [resolve_channel], [membership_gate], [rules],
      [create_group], [push_lease], [media_rules], [thread_stage], [store]) with the guard
      on traces; [IngestCalls] has the lookups and the calls to database and handlers, the
      others the rules that look at the event alone.
    - [Programs] has programs as trees of calls with what every execution satisfies; the
      S3 requests of git hosting, the cluster calls of a deploy, the calls of a workflow
      run and those of the write path are four of them.
    - [Nostr] holds the Nostr data types the others share, [Text] Rust's text
      functions; this file holds results, hash-map iteration, strings, sorting,
      tactics and the [buzz] hint database.

    ** Modelling conventions

    State is passed explicitly; a method that changes its receiver returns the
    new one.  [Result] is [result], [Option] is [option], early return is the
    [let?] notation or the bind of [M]; a session method that fails keeps what it
    had already written.  A [HashMap] is a [gmap]; code that walks one is
    written against [MapIter], an enumeration in any order, so nothing proved
    depends on the order.  Clocks and randomness are arguments.  Integers that
    cannot overflow are [nat], [N] or [Z]; where a width matters it is written
    out ([parse_u32], [u64] decimal strings, the saturating backoff).  Strings
    are byte strings, as [str::len] counts them.  Every function is total and
    executable; most loops follow a list.  The row limits of queries, pages and
    subscriptions are the source's constants, and 64-bit casts wrap ([as_i64]).  Where there is fuel it is enough:
    twenty digits print any 64-bit number ([num_to_string_inj]), UTF-8 decoding
    and the splitting of a stream into frames use the length of their input, the
    index allocator probes the 255 indexes there are, template expansion and the words of a
    cron expression use the length of their text, a receive loop runs
    until the frames it was given are consumed, and the polls of a deploy take one unit
    each, so that more units than the nanoseconds of its deadline are enough when every
    look at the clock and every sleep takes time ([deploy_terminates]).

    A call to a service can fail before or after it took effect ([outcome], the
    [s3_wire] of a request): theorems hold for every choice.  Where several
    processes share a service, executions are step relations over its state --
    mesh nodes, lease holders, audit sessions, programs of S3 requests -- and the
    theorems quantify over all interleavings.  Hypotheses on executions are
    explicit: generations stay below 10^14, up to where the scripting engine
    prints integers exactly; an audit chain has at most 2^63-1 rows; the bodies
    uploaded in one execution do not collide under SHA-256.

    External crates are type classes with their documented laws: [NostrApi] and
    [NostrLaws] (tags, identifiers), [PairingApi] with [PairingLaws] and
    [IdBinding] (keys, ECDH, HKDF, NIP-44, serde, signing), [QrApi] with
    [QrLaws] (percent encoding, URLs), [PolicyApi] with [PolicyLaws] (HMAC, hex,
    UUID), [TraceDebug] (formatting), [RedisApi] with [RedisLaws], [HexApi],
    [Postcard], [UuidBytes], [RelayCrypto] (the mesh), [SerdeJson] and [AuditApi]
    (the audit log), [S3Api] with [S3Laws], [Sha256Hex], [ManifestJson] and
    [GitApi] with [GitLaws] (git hosting), [UrlApi], [OaApi], [AuthApi], [BridgeApi]
    and [WireApi] (URLs, JSON, base64, signatures), [KeyBytes], [F64Api], [UrlPartsApi],
    [DebugApi] and [EventIdHash] (bytes of keys, floats, parts of URLs and texts of the write path), [ClockApi] and [ReplayGuard]
    (expiring keys), [UuidParse], [ChronoApi] with [ChronoLaws] (timestamps a database
    column can hold), [TagLaws], [LetterLaws], [HexLenLaws] and [HexLowerLaws] (tag
    letters, printed keys), [NsecApi] and [TemplateDigest] (an agent's key, the digest of
    a pod template), [EvalApi], [TemplateApi], [WebhookApi] and [CronApi] (the evaluator of
    conditions, printing, URLs, schedules).  The rows of the event store are a list ([EventDb]) and its
    SQL clauses are functions on rows; the database of the push policy is the record
    [GitPolicy.PolicyDb].  Each class has an instance that satisfies its laws
    ([demo_api], [ToyCrypto.toy_api], ...), on which the examples and witnesses
    at the end of the files are evaluated.

    ** What is proved

    - Registry: after any sequence of operations, fan-out through the indexes is
      a scan of the subscription table ([fan_out_refines_scan]), the indexes hold
      exactly the live subscriptions ([registry_invariant]), and no delivery
      crosses a community or channel ([fan_out_never_leaks],
      [revoked_channel_not_delivered]).
    - Reading: whatever the database and the search index answer, a REQ sends only
      events its filters select, from channels the reader may access, that the reader
      may see ([req_delivers_authorized]); over a database that answers it sends all of
      them that no full page of rows comes before ([req_shows_history]); the number COUNT
      answers is the number of exactly those rows in reach ([count_answer_exact]).
    - Writing: an event is stored, handled, announced or traced only after everything it
      must have passed ([stored_only_if_admitted]); a request refused with an error stored no
      event, left at most an archived identity or a created channel, and its record is that
      error ([refused_not_stored]); an accepted answer was worked for
      ([accepted_was_done]); replies written by the relay thread like those of clients
      ([reply_tags_resolve_alike]); envelopes are checked exactly
      ([project_envelope_exact], [not_before_exact]) and shared heads are unambiguous to
      readers ([shared_heads_unambiguous]).
    - Live delivery: a stored event reaches exactly the entitled live subscriptions, on
      its own pod ([live_delivery_exact]); on the others the same ones without the fence for
      owner-only events ([pubsub_delivery_exact]); once ([echo_suppressed_once]).
    - Connections: a handler never outlives the archival of its community or a drain
      ([no_connection_outlives]), a slow client is cut at the limit
      ([slow_client_disconnect]), messages parse within their limits and are refused over them
      ([client_messages]), and while the connection to Redis holds every topic in use comes
      to be subscribed ([desired_topics_recover]).
    - Authentication: a signed request is accepted exactly under the stated conditions
      ([verify_nip98_exact]), for one tenant ([header_good_for_one_tenant]) and once
      ([nip98_single_use]); attestations parse exactly their grammar
      ([conditions_grammar]); every seam finds the same tenant
      ([tenant_seam_agrees]); a principal gets at most its quota per window and
      recovers ([rate_limit_bound], [limit_recovers]).
    - Git: patterns parse and match as specified, a ref update is allowed exactly
      when the built-in minimum and every matching rule allow it
      ([evaluate_ref_update_spec]), rules only restrict, pushes are atomic; the
      endpoint fails closed on every database error and malformed input
      ([hook_policy_fails_closed]) and its signed payload is unambiguous
      ([canonical_payload_injective]).
    - Git hosting: in every interleaving of pushes and reads the history of a
      pointer is one line of complete manifests without repetition
      ([pushes_never_fork]); a successful push is in it right after the manifest
      it was based on ([push_success_committed]); readers and losers see only
      published states ([observed_state_published]); the pointer is written last
      ([pointer_written_last]); a push ends ([push_ends]).
    - Deploys: whatever the cluster answers, a deploy deletes no running agent
      ([deploy_never_kills_running]), creates and drops Secrets only with their pods
      ([deploy_secret_hygiene]), succeeds only on a running agent
      ([deploy_success_means_started]) and ends ([deploy_terminates]); a pod gets the
      image and the environment of the request ([launched_as_requested]).
    - Workflows: validation accepts exactly the grammar of definitions ([validate_exact]),
      templates expand to exactly what their placeholders stand for ([template_expansion]); a run has effects only under the verified fence of its community
      and never on a private address ([side_effects_fenced]) and always records how it ended, with a true entry for every step
      ([run_always_recorded]); runs need the current authority of their owner
      ([event_runs_authorized]), and no schedule instant is run twice by any number of pods
      ([scheduled_fire_at_most_once]).
    - Sessions: at most one owner per generation ([one_owner_per_generation]), an
      owner that was replaced stays fenced ([stale_owner_fenced_forever]), the
      directory refines a map of leases ([directory_refines]); bytes cross a
      tunnel in order ([tunnel_delivers_bytes]) and only under a live lease
      ([delivery_needs_live_lease]).
    - Mesh: gossip converges ([gossip_converges]), membership refines it
      ([membership_refines_gossip]), admission is exact
      ([inbound_admission_exact]).
    - Audio: the room invariant ([room_invariant]), replay of roster deltas
      ([roster_replay]), admission on every branch ([admission_spec]).
    - Audit: the chain is intact under concurrent appends and failures
      ([audit_chain_integrity]), tampering with any column is evident ([tamper_evident]), what is
      logged reads back ([log_reads_back]).
    - Queue: a contract for [flush_next] on every branch ([flush_next_refines]),
      the invariant of every operation ([queue_invariant]), no loss or
      duplication of events by a flush or a steer ([flush_conserves],
      [steer_conserves]), one batch per channel in flight, exactly [MAX_RETRIES]
      retries, bounds of the backoff.
    - Pairing: the methods are equivalent to a step relation
      ([pair_exec_refines]); an honest exchange completes with equal codes and
      the payload delivered ([honest_pairing_completes]); no secret moves before
      the peer's proof and the user's approval ([secret_needs_confirmation]); no
      replays, one peer, final terminal states, refusal after expiry; the QR code
      round-trips.
    - Conformance: the checker decides its specification ([check_trace_decides]),
      accepted traces are non-interfering, a rejection names the first violation.

    ** What is not modelled

    Concurrency inside one process's registry, rooms and tables (each method is one
    step under its lock), network and database I/O, the rendering of prompts, the
    text of error messages beyond what callers can tell apart, secrecy of the
    cryptography (only its functional laws are used), content types, metrics and
    logging.  Of the components above: the status report and the connection tasks
    of the mesh runtime, the client construction and the startup probe of the git
    store, the HTTP client of the cluster and the self-description of the provider, the
    pack cache and the HTTP handlers of git hosting, the
    loops over a WebSocket, presence, the expiry of in-process caches (theorems hold
    for any content of them), deletion, threads and reactions in the event store.  Not
    at all: the handlers the write path calls for single kinds (commands, moderation, relay
    administration, reports, side effects), the approval of workflow steps, personas, the agent loop, the
    command line tools and the desktop application; the manifest gives a reason for
    each. *)

From stdpp Require Import base gmap strings list sorting.
From Stdlib Require Import Ascii.
From Stdlib.Strings Require Import Byte.

(** ** Rust's [Result] *)

Inductive result (E A : Type) : Type :=
| Ok (a : A)
| Err (e : E).
Arguments Ok {E A} a.
Arguments Err {E A} e.

Declare Scope buzz_scope.
Delimit Scope buzz_scope with buzz.

(** Early return with the question-mark operator: the continuation runs on
    [Ok], the error is returned as it is. *)
Notation "'let?' x := c 'in' k" :=
  (match c with Ok x => k | Err e => Err e end)
  (at level 10, x pattern, c at level 200, k at level 200) : buzz_scope.
Open Scope buzz_scope.

Definition is_ok {E A} (r : result E A) : bool :=
  match r with Ok _ => true | Err _ => false end.

Definition err {E A} (r : result E A) : option E :=
  match r with Ok _ => None | Err e => Some e end.

Definition map_err {E F A} (f : E → F) (r : result E A) : result F A :=
  match r with Ok a => Ok a | Err e => Err (f e) end.

(** ** Iteration over hash maps

    The order in which a [HashMap], [HashSet] or [DashMap] is walked is not
    specified.  Code that walks one is modelled against this interface: some
    enumeration that lists every binding exactly once. *)

Class MapIter (K : Type) `{Countable K} := {
  hiter : ∀ {V : Type}, gmap K V → list (K * V);
  hiter_perm : ∀ (V : Type) (m : gmap K V), hiter m ≡ₚ map_to_list m
}.

Instance map_iter_to_list `{Countable K} : MapIter K := {|
  hiter := λ V m, map_to_list m;
  hiter_perm := λ V m, reflexivity (map_to_list m)
|}.

(** ** The [seen.insert(x)] / [out.push(x)] loop

    Several functions keep a [HashSet] of what they have pushed beside the
    vector they build; [seen_push] is one round of that loop. *)

Definition seen_push {A} `{Countable A} (st : gset A * list A) (x : A) : gset A * list A :=
  if decide (x ∈ st.1) then st else ({[x]} ∪ st.1, st.2 ++ [x]).

Definition seen_push_all {A} `{Countable A} (st : gset A * list A) (xs : list A) :
    gset A * list A :=
  foldl seen_push st xs.

(** The two halves of the state agree. *)
Definition seen_ok {A} `{Countable A} (st : gset A * list A) : Prop :=
  NoDup st.2 ∧ ∀ x, x ∈ st.1 ↔ x ∈ st.2.

(** ** Calls to a service

    A command sent over a pooled connection: it runs, or the call fails, in
    which case the command may or may not have run. *)
Inductive outcome :=
| Delivered
| Failed (error : string) (applied : bool).

Definition call {R A} (o : outcome) (f : R → A * R) (r : R) : result string A * R :=
  match o with
  | Delivered => let '(a, r') := f r in (Ok a, r')
  | Failed e applied => (Err e, if applied then (f r).2 else r)
  end.

(** ** Bytes *)

(** [&[u8]], and [[u8; 32]] as a list of length 32. *)
Abbreviation bytes := (list byte) (only parsing).

#[global] Instance byte_eq_dec : EqDecision byte := Byte.byte_eq_dec.

#[global] Instance byte_countable : Countable byte.
Proof. refine (inj_countable Byte.to_N Byte.of_N _). intros b. apply Byte.of_to_N. Defined.

(** The low byte of a number, and [to_le_bytes] and [from_le_bytes] of [k] bytes. *)
Definition byte_of_N (n : N) : byte :=
  match Byte.of_N (n `mod` 256) with Some b => b | None => x00 end.

Fixpoint le_bytes (k : nat) (n : N) : bytes :=
  match k with 0 => [] | S k' => byte_of_N n :: le_bytes k' (n / 256) end.

Fixpoint le_value (b : bytes) : N :=
  match b with [] => 0 | x :: b' => Byte.to_N x + 256 * le_value b' end.

(** ** Strings *)

(** [str::split(c)]: the pieces between occurrences of [c]; never empty. *)
Fixpoint split_on (c : ascii) (s : string) : list string :=
  match s with
  | EmptyString => [EmptyString]
  | String a s' =>
      if decide (a = c) then EmptyString :: split_on c s'
      else match split_on c s' with
           | [] => [String a EmptyString]
           | p :: ps => String a p :: ps
           end
  end.

(** The inverse of [split_on]: the pieces with [c] between them. *)
Fixpoint join_with (c : ascii) (ps : list string) : string :=
  match ps with
  | [] => EmptyString
  | [p] => p
  | p :: ps' => p +:+ String c (join_with c ps')
  end.

(** [str::contains(c)] for a character. *)
Fixpoint str_contains (c : ascii) (s : string) : bool :=
  match s with
  | EmptyString => false
  | String a s' => bool_decide (a = c) || str_contains c s'
  end.

(** [str::strip_prefix(p)]. *)
Fixpoint strip_prefix (p s : string) {struct p} : option string :=
  match p, s with
  | EmptyString, _ => Some s
  | String a p', String b s' => if decide (a = b) then strip_prefix p' s' else None
  | String _ _, EmptyString => None
  end.

(** [str::starts_with(p)]. *)
Definition starts_with (p s : string) : bool :=
  match strip_prefix p s with Some _ => true | None => false end.

(** [s.chars().all(f)]. *)
Fixpoint str_all (f : ascii → bool) (s : string) : bool :=
  match s with
  | EmptyString => true
  | String a s' => f a && str_all f s'
  end.

(** [str::split_once(c)]. *)
Fixpoint split_once (c : ascii) (s : string) : option (string * string) :=
  match s with
  | EmptyString => None
  | String a s' =>
      if decide (a = c) then Some (EmptyString, s')
      else match split_once c s' with
           | Some (l, r) => Some (String a l, r)
           | None => None
           end
  end.

Arguments split_on c%_char s%_string.
Arguments join_with c%_char ps.
Arguments str_contains c%_char s%_string.
Arguments split_once c%_char s%_string.

Definition ascii_code (c : ascii) : N := N_of_ascii c.

(** A decimal digit, and the decimal digits of [n] ([fuel] digits suffice
    below [10 ^ fuel]). *)
Definition digit (n : N) : ascii := ascii_of_N (48 + n `mod` 10).

Fixpoint dec_string (fuel : nat) (n : N) (acc : string) : string :=
  match fuel with
  | 0 => acc
  | S fuel' =>
      let acc := String (digit n) acc in
      if (n <? 10)%N then acc else dec_string fuel' (n / 10) acc
  end.

(** [to_string] of an unsigned integer of at most 64 bits: twenty digits. *)
Definition num_to_string (n : N) : string := dec_string 20 n "".

(** [str::parse] of an unsigned integer type with largest value [max]: an
    optional plus sign, at least one digit, no overflow. *)
Fixpoint parse_uint_digits (max acc : N) (s : string) : option N :=
  match s with
  | EmptyString => Some acc
  | String c s' =>
      if ((48 <=? N_of_ascii c) && (N_of_ascii c <=? 57))%N then
        let v := (acc * 10 + (N_of_ascii c - 48))%N in
        if (v <=? max)%N then parse_uint_digits max v s' else None
      else None
  end.

Definition parse_uint (max : N) (s : string) : option N :=
  match s with
  | EmptyString => None
  | String "+" EmptyString => None
  | String "+" s' => parse_uint_digits max 0 s'
  | _ => parse_uint_digits max 0 s
  end.

Definition u64_max : N := 18446744073709551615.

(** The order of [String], byte by byte. *)
Definition str_leb (a b : string) : bool :=
  match String.compare a b with Gt => false | _ => true end.

(** ** Stable sorting

    [sort_by_key] and [sort]: insertion before the first element that is not
    smaller. *)

Fixpoint insert_by {A} (le : A → A → bool) (x : A) (l : list A) : list A :=
  match l with
  | [] => [x]
  | y :: l' => if le x y then x :: l else y :: insert_by le x l'
  end.

Definition sort_by {A} (le : A → A → bool) (l : list A) : list A :=
  foldr (insert_by le) [] l.

(** [char::is_ascii_digit], [char::is_ascii_alphanumeric]. *)
Definition is_ascii_digit (c : ascii) : bool :=
  ((48 <=? ascii_code c) && (ascii_code c <=? 57))%N.

Definition is_ascii_alphanumeric (c : ascii) : bool :=
  (is_ascii_digit c
   || ((65 <=? ascii_code c) && (ascii_code c <=? 90))
   || ((97 <=? ascii_code c) && (ascii_code c <=? 122)))%N.

(** [char::is_ascii_uppercase], [char::is_ascii_hexdigit]. *)
Definition is_ascii_uppercase (c : ascii) : bool :=
  ((65 <=? ascii_code c) && (ascii_code c <=? 90))%N.

Definition is_ascii_hexdigit (c : ascii) : bool :=
  (is_ascii_digit c
   || ((65 <=? ascii_code c) && (ascii_code c <=? 70))
   || ((97 <=? ascii_code c) && (ascii_code c <=? 102)))%N.

(** [str::contains(p)] and [str::strip_suffix(p)] for a string [p]. *)
Fixpoint contains_str (p s : string) : bool :=
  starts_with p s || match s with EmptyString => false | String _ s' => contains_str p s' end.

Fixpoint strip_suffix (p s : string) : option string :=
  if decide (s = p) then Some EmptyString
  else match s with
       | EmptyString => None
       | String a s' => String a <$> strip_suffix p s'
       end.

Definition ends_with (p s : string) : bool :=
  match strip_suffix p s with Some _ => true | None => false end.

(** ** Tactics *)

(** Case analysis on every [if]/[match] scrutinee of the goal, closing what
    follows by computation. *)
Ltac split_cases :=
  repeat (case_match || case_decide); simplify_eq/=; try done.

(** Reads boolean tests as propositions. *)
Ltac breflect :=
  repeat match goal with
  | H : bool_decide _ = true |- _ => apply bool_decide_eq_true_1 in H
  | H : bool_decide _ = false |- _ => apply bool_decide_eq_false_1 in H
  | H : (_ && _) = true |- _ => apply andb_true_iff in H; destruct H
  | H : (_ || _) = false |- _ => apply orb_false_iff in H; destruct H
  | H : negb _ = true |- _ => apply negb_true_iff in H
  | H : negb _ = false |- _ => apply negb_false_iff in H
  end.

Create HintDb buzz.

(** ** Lemmas on results *)

Lemma map_err_Ok {E F A} (f : E → F) (r : result E A) a :
  map_err f r = Ok a ↔ r = Ok a.
Proof. destruct r; naive_solver. Qed.

Lemma is_ok_Ok {E} (r : result E unit) : is_ok r = true ↔ r = Ok tt.
Proof. destruct r as [[]|]; naive_solver. Qed.

(** Whatever the outcome, the key space is the old one or the one the command
    leaves. *)
Lemma call_state {R A} o (f : R → A * R) r : (call o f r).2 = r ∨ (call o f r).2 = (f r).2.
Proof. destruct o as [|e []]; simpl; [|auto|auto]. destruct (f r); auto. Qed.

Lemma call_Ok {R A} o (f : R → A * R) r a r' : call o f r = (Ok a, r') → f r = (a, r').
Proof. destruct o; simpl; [|done]. destruct (f r). congruence. Qed.

Lemma err_None_is_ok {E A} (r : result E A) : err r = None ↔ is_ok r = true.
Proof. by destruct r. Qed.

(** ** Lemmas on map iteration *)

Section map_iter.
Context `{MapIter K} {V : Type}.
Implicit Types m : gmap K V.

Lemma elem_of_hiter m k v : (k, v) ∈ hiter m ↔ m !! k = Some v.
Proof. by rewrite hiter_perm, elem_of_map_to_list. Qed.

Lemma NoDup_hiter_fst m : NoDup (hiter m).*1.
Proof. rewrite hiter_perm. apply NoDup_fst_map_to_list. Qed.

Lemma hiter_empty : hiter (∅ : gmap K V) = [].
Proof. apply Permutation_nil_r. by rewrite hiter_perm, map_to_list_empty. Qed.

Lemma length_hiter m : length (hiter m) = size m.
Proof. by rewrite hiter_perm, length_map_to_list. Qed.

End map_iter.
#[export] Hint Rewrite @elem_of_hiter : buzz.

(** ** Lemmas on the seen/push loop *)

Section seen_push.
Context {A : Type} `{Countable A}.
Implicit Types (st : gset A * list A) (x : A) (xs : list A).

Lemma seen_push_ok st x : seen_ok st → seen_ok (seen_push st x).
Proof.
  intros [Hnd Heq]. unfold seen_push. case_decide as Hin; [done|].
  split; simpl; [|set_solver].
  apply NoDup_app. split; [done|]. split; [set_solver|apply NoDup_singleton].
Qed.

Lemma elem_of_seen_push st x y :
  seen_ok st → y ∈ (seen_push st x).2 ↔ y ∈ st.2 ∨ y = x.
Proof. intros [? ?]. unfold seen_push. case_decide; set_solver. Qed.

Lemma seen_push_all_ok xs st : seen_ok st → seen_ok (seen_push_all st xs).
Proof. revert st. induction xs; intros st Hst; simpl; auto using seen_push_ok. Qed.

Lemma elem_of_seen_push_all xs st y :
  seen_ok st → y ∈ (seen_push_all st xs).2 ↔ y ∈ st.2 ∨ y ∈ xs.
Proof.
  revert st. induction xs as [|x xs IH]; intros st Hst; simpl; [set_solver|].
  rewrite IH by auto using seen_push_ok. rewrite elem_of_seen_push by done.
  set_solver.
Qed.

Lemma seen_ok_empty : seen_ok (∅ : gset A, [] : list A).
Proof. split; [apply NoDup_nil_2|set_solver]. Qed.

Lemma seen_push_all_app xs ys st :
  seen_push_all st (xs ++ ys) = seen_push_all (seen_push_all st xs) ys.
Proof. unfold seen_push_all. apply foldl_app. Qed.

End seen_push.
#[export] Hint Resolve seen_push_ok seen_push_all_ok seen_ok_empty : buzz.

(** ** Lemmas on strings *)

Lemma append_cons a p r : String a p +:+ r = String a (p +:+ r).
Proof. done. Qed.

Lemma append_assoc (p q r : string) : (p +:+ q) +:+ r = p +:+ (q +:+ r).
Proof. induction p as [|a p IH]; [done|]. rewrite !append_cons. by rewrite IH. Qed.

Lemma length_append (p q : string) :
  String.length (p +:+ q) = String.length p + String.length q.
Proof. induction p as [|a p IH]; [done|]. rewrite append_cons. simpl. by rewrite IH. Qed.

Lemma split_on_cons c s : ∃ p ps, split_on c s = p :: ps.
Proof.
  destruct s; simpl; [eauto|]. case_decide; [eauto|]. case_match; eauto.
Qed.

Lemma split_on_nonempty c s : split_on c s ≠ [].
Proof. destruct (split_on_cons c s) as (?&?&->). done. Qed.

Lemma join_split c s : join_with c (split_on c s) = s.
Proof.
  induction s as [|a s IH]; simpl; [done|].
  destruct (split_on_cons c s) as (p & ps & E). rewrite E in IH |- *.
  case_decide as Hac; simpl in *.
  - by rewrite IH, Hac.
  - rewrite <-IH. by destruct ps.
Qed.

Lemma split_on_no_sep c s : str_contains c s = false → split_on c s = [s].
Proof.
  induction s as [|a s IH]; simpl; [done|]. intros ?; breflect.
  rewrite decide_False by done. by rewrite IH.
Qed.

Lemma split_on_app c p s :
  str_contains c p = false → split_on c (p +:+ String c s) = p :: split_on c s.
Proof.
  induction p as [|a p IH]; simpl; [intros _; by rewrite decide_True|].
  intros ?; breflect. rewrite decide_False by done. by rewrite IH.
Qed.

Lemma split_join c ps :
  ps ≠ [] → Forall (λ p, str_contains c p = false) ps →
  split_on c (join_with c ps) = ps.
Proof.
  induction ps as [|p ps IH]; [done|]. intros _ Hall. inversion_clear Hall.
  destruct ps as [|q ps]; [by apply split_on_no_sep|].
  change (join_with c (p :: q :: ps)) with (p +:+ String c (join_with c (q :: ps))).
  rewrite split_on_app by done. f_equal. by apply IH.
Qed.

Lemma split_on_pieces c s : Forall (λ p, str_contains c p = false) (split_on c s).
Proof.
  induction s as [|a s IH]; simpl; [by constructor|].
  destruct (split_on_cons c s) as (p & ps & E). rewrite E in IH |- *.
  case_decide; [by constructor|]. inversion_clear IH. constructor; [|done].
  simpl. rewrite bool_decide_eq_false_2 by done. done.
Qed.

Lemma strip_prefix_app p s : strip_prefix p (p +:+ s) = Some s.
Proof. induction p; simpl; [done|]. by rewrite decide_True. Qed.

Lemma strip_prefix_Some p s r : strip_prefix p s = Some r ↔ s = p +:+ r.
Proof.
  split; [|intros ->; apply strip_prefix_app].
  revert s. induction p as [|a p IH]; intros s; simpl; [by intros [= ->]|].
  destruct s as [|b s]; [done|]. case_decide as Hab; [subst b|done].
  intros Hs. rewrite append_cons. f_equal. by apply IH.
Qed.

Lemma starts_with_iff p s : starts_with p s = true ↔ ∃ r, s = p +:+ r.
Proof.
  unfold starts_with. destruct (strip_prefix p s) eqn:E.
  - apply strip_prefix_Some in E. naive_solver.
  - split; [done|]. intros [r ->]. by rewrite strip_prefix_app in E.
Qed.

Lemma str_app_nil (s : string) : s +:+ "" = s.
Proof. induction s as [|c s IH]; [done|]. by rewrite append_cons, IH. Qed.

Lemma starts_with_length_eq p s :
  String.length p = String.length s → starts_with p s = true → p = s.
Proof.
  intros Hlen [r ->]%starts_with_iff. rewrite length_append in Hlen.
  destruct r; simpl in Hlen; [|lia]. by rewrite str_app_nil.
Qed.

Lemma split_once_app c p s :
  str_contains c p = false → split_once c (p +:+ String c s) = Some (p, s).
Proof.
  induction p as [|a p IH]; simpl; [intros _; by rewrite decide_True|].
  intros ?; breflect. rewrite decide_False by done. by rewrite IH.
Qed.

Lemma str_all_contains f c s :
  str_all f s = true → f c = false → str_contains c s = false.
Proof.
  induction s as [|a s IH]; simpl; [done|]. intros ? Hc; breflect.
  rewrite IH by done. rewrite bool_decide_eq_false_2; [done|]. intros ->. congruence.
Qed.

Lemma str_all_app f s t : str_all f (s +:+ t) = str_all f s && str_all f t.
Proof. induction s as [|c s IH]; [done|]. rewrite append_cons. simpl. by rewrite IH, andb_assoc. Qed.

Lemma str_contains_app c s t :
  str_contains c (s +:+ t) = str_contains c s || str_contains c t.
Proof.
  induction s as [|a s IH]; [done|]. rewrite append_cons. simpl. rewrite IH.
  by destruct bool_decide.
Qed.

#[export] Hint Resolve split_on_nonempty split_on_pieces : buzz.
#[export] Hint Rewrite join_split strip_prefix_app : buzz.

(** ** Lemmas on lists *)

(** [retain] keeps exactly the entries the predicate accepts. *)
Lemma elem_of_filter_ne {A} `{EqDecision A} (x y : A) (l : list A) :
  y ∈ filter (λ z, z ≠ x) l ↔ y ∈ l ∧ y ≠ x.
Proof. rewrite list_elem_of_filter. naive_solver. Qed.

Lemma existsb_elem_of {A} (f : A → bool) (l : list A) :
  existsb f l = true ↔ ∃ x, x ∈ l ∧ f x = true.
Proof. rewrite existsb_exists. setoid_rewrite list_elem_of_In. done. Qed.

Lemma forallb_elem_of {A} (f : A → bool) (l : list A) :
  forallb f l = true ↔ ∀ x, x ∈ l → f x = true.
Proof. rewrite forallb_forall. setoid_rewrite list_elem_of_In. done. Qed.

(** ** Lemmas on sorting *)

Section sort_by.
Context {A : Type} (le : A → A → bool).

Lemma insert_by_perm x l : insert_by le x l ≡ₚ x :: l.
Proof.
  induction l as [|y l IH]; simpl; [done|]. case_match; [done|]. rewrite IH. apply Permutation_swap.
Qed.

Lemma sort_by_perm l : sort_by le l ≡ₚ l.
Proof. induction l as [|x l IH]; simpl; [done|]. by rewrite insert_by_perm, IH. Qed.

Lemma insert_by_sorted x l :
  (∀ a b, le a b = false → le b a = true) →
  (∀ a b c, le a b = true → le b c = true → le a c = true) →
  StronglySorted (λ a b, le a b = true) l → StronglySorted (λ a b, le a b = true) (insert_by le x l).
Proof.
  intros Htot Htr. induction l as [|y l IH]; intros Hs; simpl; [by repeat constructor|].
  inversion_clear Hs as [|? ? Hs' Hy]. destruct (le x y) eqn:E.
  - constructor; [by constructor|]. constructor; [done|].
    eapply Forall_impl; [exact Hy|]. simpl. eauto.
  - constructor; [by apply IH|]. rewrite insert_by_perm. constructor; [by apply Htot|done].
Qed.

Lemma sort_by_sorted l :
  (∀ a b, le a b = false → le b a = true) →
  (∀ a b c, le a b = true → le b c = true → le a c = true) →
  StronglySorted (λ a b, le a b = true) (sort_by le l).
Proof. intros. induction l; simpl; [constructor|by apply insert_by_sorted]. Qed.

(** Elements that compare equal keep their order. *)
Lemma insert_by_stable (f : A → bool) x l :
  (∀ a b, f a = true → f b = true → le a b = true) →
  List.filter f (insert_by le x l) = List.filter f (x :: l).
Proof.
  intros Hf. induction l as [|y l IH]; [done|]. simpl insert_by.
  destruct (le x y) eqn:E; [done|]. simpl in *. rewrite IH.
  destruct (f x) eqn:Ex; [|done]. destruct (f y) eqn:Ey; [|done].
  rewrite Hf in E; done.
Qed.

Lemma sort_by_stable (f : A → bool) l :
  (∀ a b, f a = true → f b = true → le a b = true) →
  List.filter f (sort_by le l) = List.filter f l.
Proof.
  intros Hf. induction l as [|x l IH]; [done|]. simpl sort_by. rewrite insert_by_stable by done.
  simpl. by rewrite IH.
Qed.

End sort_by.

(** A sorted list is determined by its elements. *)
Lemma sorted_perm_unique {A} (R : A → A → Prop) (l l' : list A) :
  StronglySorted R l → StronglySorted R l' → l ≡ₚ l' →
  (∀ a b, a ∈ l → b ∈ l → R a b → R b a → a = b) → l = l'.
Proof.
  revert l'. induction l as [|x l IH]; intros l' Hs Hs' Hp Hanti.
  { by apply Permutation_nil_l in Hp. }
  destruct l' as [|y l']; [by apply Permutation_nil_r in Hp|].
  inversion_clear Hs as [|? ? Hsl Hx]. inversion_clear Hs' as [|? ? Hsl' Hy].
  assert (x = y) as <-.
  { assert (x ∈ y :: l') as [<-|Hxl]%elem_of_cons by (rewrite <-Hp; left); [done|].
    assert (y ∈ x :: l) as [->|Hyl]%elem_of_cons by (rewrite Hp; left); [done|].
    rewrite Forall_forall in Hx, Hy. apply Hanti; [left|by right|by apply Hx|by apply Hy]. }
  f_equal. apply IH; [done|done|by apply Permutation_cons_inv in Hp|].
  intros a b Ha Hb. apply Hanti; by right.
Qed.

Lemma sort_by_unique {A} (le : A → A → bool) (l l' : list A) :
  (∀ a b, le a b = false → le b a = true) →
  (∀ a b c, le a b = true → le b c = true → le a c = true) →
  (∀ a b, a ∈ l → b ∈ l → le a b = true → le b a = true → a = b) →
  l ≡ₚ l' → sort_by le l = sort_by le l'.
Proof.
  intros Htot Htr Hanti Hp.
  apply (sorted_perm_unique (λ a b, le a b = true)); [by apply sort_by_sorted..| |].
  - by rewrite !sort_by_perm.
  - intros a b Ha Hb. rewrite sort_by_perm in Ha, Hb. by apply Hanti.
Qed.

(** ** The order of strings *)

Lemma str_leb_cons a s b t :
  str_leb (String a s) (String b t) =
    ((N_of_ascii a <? N_of_ascii b)%N || ((N_of_ascii a =? N_of_ascii b)%N && str_leb s t)).
Proof.
  unfold str_leb. cbn [String.compare]. unfold Ascii.compare.
  destruct (N.compare_spec (N_of_ascii a) (N_of_ascii b)) as [E|E|E].
  - rewrite E, N.ltb_irrefl, N.eqb_refl. done.
  - by rewrite (proj2 (N.ltb_lt _ _)).
  - rewrite (proj2 (N.ltb_ge _ _)) by lia. by rewrite (proj2 (N.eqb_neq _ _)) by lia.
Qed.

Lemma str_leb_total s t : str_leb s t = false → str_leb t s = true.
Proof.
  revert t. induction s as [|a s IH]; intros [|b t]; try done. rewrite !str_leb_cons.
  intros [H1 H2]%orb_false_iff. apply N.ltb_ge in H1. apply orb_true_iff.
  destruct (N.eqb_spec (N_of_ascii a) (N_of_ascii b)) as [E|E]; simpl in H2.
  - right. rewrite E, N.eqb_refl. by apply IH.
  - left. apply N.ltb_lt. lia.
Qed.

Lemma str_leb_trans s t u : str_leb s t = true → str_leb t u = true → str_leb s u = true.
Proof.
  revert t u. induction s as [|a s IH]; intros [|b t] [|c u]; try done. rewrite !str_leb_cons.
  rewrite !orb_true_iff, !andb_true_iff, !N.ltb_lt, !N.eqb_eq.
  intros [?|[E1 H1]] [?|[E2 H2]]; [left; lia..|]. right. split; [congruence|eauto].
Qed.

Lemma str_leb_antisym s t : str_leb s t = true → str_leb t s = true → s = t.
Proof.
  revert t. induction s as [|a s IH]; intros [|b t]; try done. rewrite !str_leb_cons.
  rewrite !orb_true_iff, !andb_true_iff, !N.ltb_lt, !N.eqb_eq.
  intros [?|[E1 H1]] [?|[E2 H2]]; [lia..|]. f_equal; [|by apply IH].
  by rewrite <-(ascii_N_embedding a), <-(ascii_N_embedding b), E1.
Qed.

(** ** Lemmas on decimal strings *)

(** The number a string of digits denotes, read after [acc]. *)
Fixpoint dec_value (acc : N) (s : string) : N :=
  match s with
  | EmptyString => acc
  | String c s' => dec_value (acc * 10 + (N_of_ascii c - 48)) s'
  end.

Lemma N_of_digit n : N_of_ascii (digit n) = (48 + n `mod` 10)%N.
Proof.
  unfold digit. pose proof (N.mod_lt n 10 ltac:(done)). apply N_ascii_embedding. lia.
Qed.

Lemma digit_is_digit n : is_ascii_digit (digit n) = true.
Proof.
  unfold is_ascii_digit, ascii_code. rewrite N_of_digit.
  pose proof (N.mod_lt n 10 ltac:(done)) as Hm. revert Hm. generalize (n `mod` 10)%N. intros m Hm.
  apply andb_true_iff. rewrite !N.leb_le. lia.
Qed.

Lemma dec_value_dec_string fuel n acc :
  (n < 10 ^ N.of_nat fuel)%N → dec_value 0 (dec_string fuel n acc) = dec_value n acc.
Proof.
  revert n acc. induction fuel as [|fuel IH]; intros n acc Hn.
  { change (10 ^ N.of_nat 0)%N with 1%N in Hn. by replace n with 0%N by lia. }
  rewrite Nat2N.inj_succ, N.pow_succ_r' in Hn. simpl. destruct (N.ltb_spec n 10) as [Hlt|Hge].
  - simpl. rewrite N_of_digit, (N.mod_small n) by done. f_equal. lia.
  - rewrite IH by (by apply N.Div0.div_lt_upper_bound). simpl. rewrite N_of_digit. f_equal.
    pose proof (N.div_mod n 10 ltac:(done)) as Hd. revert Hd.
    generalize (n `div` 10)%N (n `mod` 10)%N. intros q r. lia.
Qed.

Lemma num_to_string_inj n m :
  (n < 10 ^ 20)%N → (m < 10 ^ 20)%N → num_to_string n = num_to_string m → n = m.
Proof.
  intros Hn Hm E%(f_equal (dec_value 0)). unfold num_to_string in E.
  rewrite !dec_value_dec_string in E by done. done.
Qed.

Lemma num_to_string_digits n : str_all is_ascii_digit (num_to_string n) = true.
Proof.
  unfold num_to_string. assert (str_all is_ascii_digit "" = true) as Hs by done.
  revert n Hs. generalize "". generalize 20.
  induction n as [|fuel IH]; intros acc n Hacc; simpl; [done|].
  assert (str_all is_ascii_digit (String (digit n) acc) = true)
    by (simpl; by rewrite digit_is_digit, Hacc).
  case_match; [done|]. by apply IH.
Qed.

Lemma dec_value_ge s acc : (acc ≤ dec_value acc s)%N.
Proof.
  revert acc. induction s as [|c s IH]; intros acc; simpl; [lia|].
  etransitivity; [|apply IH]. lia.
Qed.

Lemma parse_uint_digits_value max s acc :
  str_all is_ascii_digit s = true → (dec_value acc s ≤ max)%N →
  parse_uint_digits max acc s = Some (dec_value acc s).
Proof.
  revert acc. induction s as [|c s IH]; intros acc; [done|]. intros Hc Hv.
  cbn [str_all] in Hc. apply andb_true_iff in Hc as [Hc Hs].
  cbn [parse_uint_digits dec_value] in *.
  unfold is_ascii_digit, ascii_code in Hc. rewrite Hc.
  pose proof (dec_value_ge s (acc * 10 + (N_of_ascii c - 48))).
  destruct (N.leb_spec (acc * 10 + (N_of_ascii c - 48)) max); [|lia]. by apply IH.
Qed.

Lemma dec_string_cons fuel n acc : fuel ≠ 0 → ∃ c s, dec_string fuel n acc = String c s.
Proof.
  assert (∀ fuel n c s, ∃ c' s', dec_string fuel n (String c s) = String c' s') as Hgen.
  { clear. induction fuel as [|fuel IH]; intros n c s; simpl; [eauto|].
    case_match; [eauto|]. apply IH. }
  destruct fuel as [|fuel]; [done|]. intros _. simpl. case_match; eauto.
Qed.

(** Printing and parsing an unsigned integer. *)
Lemma parse_uint_num max n :
  (n ≤ max)%N → (n < 10 ^ 20)%N → parse_uint max (num_to_string n) = Some n.
Proof.
  intros Hmax Hn. pose proof (num_to_string_digits n) as Hd.
  pose proof (dec_value_dec_string 20 n "" Hn) as Hv. fold (num_to_string n) in Hv.
  destruct (dec_string_cons 20 n "") as (c & s & Hs); [done|]. fold (num_to_string n) in Hs.
  rewrite Hs in *. assert (c ≠ "+"%char) as Hplus.
  { intros ->. cbn [str_all] in Hd. apply andb_true_iff in Hd as [Hd _]. done. }
  cbn [dec_value] in Hv.
  transitivity (parse_uint_digits max 0 (String c s)).
  - unfold parse_uint. destruct c as [[] [] [] [] [] [] [] []]; done.
  - rewrite parse_uint_digits_value; cbn [dec_value]; [by rewrite Hv|done|by rewrite Hv].
Qed.

Lemma num_to_string_nonempty n : num_to_string n ≠ "".
Proof. destruct (dec_string_cons 20 n "") as (c & s & Hs); [done|]. unfold num_to_string. by rewrite Hs. Qed.

(** ** Lemmas on map sizes *)

Lemma size_delete_Some `{Countable K} {V} (m : gmap K V) k v :
  m !! k = Some v → size m = S (size (delete k m)).
Proof.
  intros Hk. rewrite <-(insert_delete_id m k v Hk) at 1.
  apply map_size_insert_None, lookup_delete_eq.
Qed.

#[global] Arguments strip_prefix : simpl never.
#[global] Arguments starts_with : simpl never.

Lemma filter_none {A} (f : A → bool) (l : list A) : (∀ x, x ∈ l → f x = false) → List.filter f l = [].
Proof.
  induction l as [|x l IH]; intros Hf; simpl; [done|]. rewrite (Hf x) by left. apply IH. intros y Hy. apply Hf. by right.
Qed.

Lemma StronglySorted_lfilter {A} (R : A → A → Prop) (f : A → bool) (l : list A) :
  StronglySorted R l → StronglySorted R (List.filter f l).
Proof.
  induction 1 as [|x l _ IH Hx]; simpl; [constructor|]. destruct (f x); [|done]. constructor; [done|].
  apply Forall_forall. intros y Hy. rewrite list_elem_of_In, filter_In, <-list_elem_of_In in Hy.
  rewrite Forall_forall in Hx. apply Hx, Hy.
Qed.

Lemma NoDup_omap_fst {A B V} (f : A * V → option B) (l : list (A * V)) :
  NoDup l.*1 → (∀ x y b, f x = Some b → f y = Some b → x.1 = y.1) → NoDup (omap f l).
Proof.
  intros Hnd Hinj. induction l as [|x l IH]; simpl; [by apply NoDup_nil_2|].
  apply NoDup_cons in Hnd as [Hx Hnd]. destruct (f x) as [b|] eqn:E; [|auto].
  apply NoDup_cons. split; [|auto]. rewrite list_elem_of_omap. intros (y & Hy & Hfy).
  apply Hx. rewrite (Hinj x y b) by done. by apply list_elem_of_fmap_2.
Qed.

(** [n as i64] of an unsigned word. *)
Definition as_i64 (n : N) : Z :=
  if (n <? 9223372036854775808)%N then Z.of_N n else (Z.of_N n - 18446744073709551616)%Z.

(** ** Lemmas on bytes *)

Lemma byte_of_N_to_N n : Byte.to_N (byte_of_N n) = (n `mod` 256)%N.
Proof.
  unfold byte_of_N. destruct (Byte.of_N (n `mod` 256)) as [b|] eqn:E.
  - by apply Byte.to_of_N in E.
  - apply Byte.of_N_None_iff in E. pose proof (N.mod_lt n 256 ltac:(done)). lia.
Qed.

Lemma byte_of_N_inj a b : (a < 256)%N → (b < 256)%N → byte_of_N a = byte_of_N b → a = b.
Proof.
  intros Ha Hb E%(f_equal Byte.to_N). rewrite !byte_of_N_to_N, !N.mod_small in E by done. done.
Qed.

Lemma le_value_bytes k n : le_value (le_bytes k n) = (n `mod` 256 ^ N.of_nat k)%N.
Proof.
  revert n. induction k as [|k IH]; intros n; [by rewrite N.mod_1_r|].
  cbn [le_bytes le_value]. rewrite IH, byte_of_N_to_N, Nat2N.inj_succ, N.pow_succ_r'.
  by rewrite N.Div0.mod_mul_r.
Qed.

Lemma le_bytes_value b : le_bytes (length b) (le_value b) = b.
Proof.
  induction b as [|x b IH]; [done|]. cbn [length le_bytes le_value].
  pose proof (Byte.to_N_bounded x) as Hx.
  assert ((Byte.to_N x + 256 * le_value b) / 256 = le_value b)%N as ->.
  { rewrite (N.mul_comm 256), N.div_add by done. rewrite N.div_small; lia. }
  assert (byte_of_N (Byte.to_N x + 256 * le_value b) = x) as ->; [|by rewrite IH].
  unfold byte_of_N. rewrite (N.mul_comm 256), N.Div0.mod_add, N.mod_small by lia.
  by rewrite Byte.of_to_N.
Qed.

Lemma le_value_bound b : (le_value b < 256 ^ N.of_nat (length b))%N.
Proof.
  induction b as [|x b IH]; [done|]. cbn [le_value length].
  rewrite Nat2N.inj_succ, N.pow_succ_r'. pose proof (Byte.to_N_bounded x). lia.
Qed.

Lemma le_bytes_length k n : length (le_bytes k n) = k.
Proof. revert n. induction k as [|k IH]; intros n; simpl; [done|]. by rewrite IH. Qed.
