(* ===== verification/Programs.v ===== *)
(** * Programs that call a service

    Code that talks to a service is a tree of calls with a continuation on every reply,
    so that programs can be interleaved call by call and theorems hold for every reply:
    the object store of [GitStore] and the cluster of [KubeDeploy]. *)

From stdpp Require Import base list.
From S2P Require Import Prelude.

(** A call [c] is answered with an [R c]. *)
Inductive prog (C : Type) (R : C → Type) (A : Type) : Type :=
| Ret (a : A)
| Act (c : C) (k : R c → prog C R A).
Arguments Ret {C R A} a.
Arguments Act {C R A} c k.

Fixpoint prog_bind {C R A B} (f : A → prog C R B) (p : prog C R A) : prog C R B :=
  match p with
  | Ret a => f a
  | Act c k => Act c (λ r, prog_bind f (k r))
  end.

#[global] Instance prog_ret C R : MRet (prog C R) := @Ret C R.
#[global] Instance prog_mbind C R : MBind (prog C R) := @prog_bind C R.

(** The question-mark operator on an awaited result. *)
Notation "'let!' x := c 'in' k" :=
  (prog_bind (λ r, match r with Ok x => k | Err e => Ret (Err e) end) c)
  (at level 10, x pattern, c at level 200, k at level 200) : buzz_scope.

(** ** What every execution satisfies *)

Section programs.
Context {C : Type} {R : C → Type}.

(** Whatever the answers, the result satisfies [P]. *)
Fixpoint rets {A} (P : A → Prop) (p : prog C R A) : Prop :=
  match p with
  | Ret a => P a
  | Act c k => ∀ r, rets P (k r)
  end.

(** Every request of [p] satisfies [ok]. *)
Fixpoint only {A} (ok : C → Prop) (p : prog C R A) : Prop :=
  match p with
  | Ret _ => True
  | Act c k => ok c ∧ ∀ r, only ok (k r)
  end.

(** Whatever the answers, the requests sent and the result satisfy [P]. *)
Fixpoint logs {A} (P : list C → A → Prop) (log : list C) (p : prog C R A) : Prop :=
  match p with
  | Ret a => P log a
  | Act c k => ∀ r, logs P (log ++ [c]) (k r)
  end.

(** [p] sends at most [n] requests, whatever the answers. *)
Fixpoint bounded {A} (n : nat) (p : prog C R A) {struct p} : Prop :=
  match p with
  | Ret _ => True
  | Act c k => match n with 0 => False | S n => ∀ r, bounded n (k r) end
  end.

Lemma bounded_mono {A} n m (p : prog C R A) : n ≤ m → bounded n p → bounded m p.
Proof.
  revert n m. induction p as [a|c k IH]; intros n m Hnm; [done|].
  destruct n as [|n]; [done|]. destruct m as [|m]; [lia|]. simpl. intros Hk r. apply (IH r n); [lia|done].
Qed.

Lemma bounded_bind {A B} n m (f : A → prog C R B) (p : prog C R A) :
  bounded n p → (∀ a, bounded m (f a)) → bounded (n + m) (prog_bind f p).
Proof.
  intros Hp Hf. revert n Hp. induction p as [a|c k IH]; intros n Hp; simpl.
  - apply (bounded_mono m); [lia|done].
  - destruct n as [|n]; [done|]. simpl in *. auto.
Qed.

Lemma bounded_logs {A} n bound (p : prog C R A) log :
  bounded n p → length log + n ≤ bound → logs (λ l _, length l ≤ bound) log p.
Proof.
  revert n log. induction p as [a|c k IH]; intros n log Hp Hn; simpl; [lia|].
  destruct n as [|n]; [done|]. intros r. apply (IH r n); [apply Hp|]. rewrite length_app. simpl. lia.
Qed.

Lemma only_bind {A B} ok (f : A → prog C R B) (p : prog C R A) : only ok p → (∀ a, only ok (f a)) → only ok (prog_bind f p).
Proof. intros Hp Hf. induction p as [a|c k IH]; simpl in *; [done|]. split; [apply Hp|]. intros r. apply IH, Hp. Qed.

Lemma logs_bind {A B} (P : list C → B → Prop) ok (S : A → Prop) (f : A → prog C R B) (p : prog C R A) log :
  only ok p → rets S p → (∀ l a, Forall ok l → S a → logs P (log ++ l) (f a)) → logs P log (prog_bind f p).
Proof.
  intros Ho HS Hf. assert (∀ l, Forall ok l → logs P (log ++ l) (prog_bind f p)) as H; [|rewrite <-(app_nil_r log); by apply H].
  induction p as [a|c k IH]; intros l Hl; simpl in *; [by apply Hf|]. intros r. destruct Ho as [Hc Hk].
  rewrite <-app_assoc. apply IH; [done|done|]. apply Forall_app. by split; [|constructor].
Qed.

Lemma rets_bind {A B} (P : A → Prop) (Q : B → Prop) (f : A → prog C R B) (p : prog C R A) :
  rets P p → (∀ a, P a → rets Q (f a)) → rets Q (prog_bind f p).
Proof. intros Hp Hf. induction p as [a|c k IH]; simpl in *; auto. Qed.

Lemma rets_any {A} (p : prog C R A) : rets (λ _, True) p.
Proof. by induction p; simpl. Qed.

End programs.

(** ** Executions and their histories

    [ev] names a call with its answer; an execution of a program is the list of them. *)

Section executions.
Context {C : Type} {R : C → Type} {E : Type} (ev : ∀ c, R c → E) (call_of : E → C).
Hypothesis call_of_ev : ∀ c r, call_of (ev c r) = c.

Fixpoint exec {A} (p : prog C R A) (es : list E) (a : A) : Prop :=
  match p with
  | Ret b => es = [] ∧ b = a
  | Act c k => ∃ r es', es = ev c r :: es' ∧ exec (k r) es' a
  end.

Lemma exec_bind {A B} (f : A → prog C R B) (p : prog C R A) es b :
  exec (prog_bind f p) es b → ∃ es1 es2 a, es = es1 ++ es2 ∧ exec p es1 a ∧ exec (f a) es2 b.
Proof.
  revert es. induction p as [a|c k IH]; intros es; simpl; [by exists [], es, a|].
  intros (r & es' & -> & (es1 & es2 & a & -> & H1 & H2)%IH). exists (ev c r :: es1), es2, a. split; [done|]. by eauto.
Qed.

(** The execution against a service that answers by the history. *)
Fixpoint run {A} (answer : list E → ∀ c, R c) (p : prog C R A) (h : list E) : list E * A :=
  match p with
  | Ret a => (h, a)
  | Act c k => let r := answer h c in run answer (k r) (h ++ [ev c r])
  end.

Lemma run_exec {A} answer (p : prog C R A) h :
  ∃ es, (run answer p h).1 = h ++ es ∧ exec p es (run answer p h).2 ∧
    ∀ before e rest, es = before ++ e :: rest → ∃ c, e = ev c (answer (h ++ before) c).
Proof.
  revert h. induction p as [a|c k IH]; intros h; simpl.
  - exists []. rewrite app_nil_r. split_and!; [done..|]. by intros [|??] ? ? ?.
  - destruct (IH (answer h c) (h ++ [ev c (answer h c)])) as (es & He & Hx & Ha).
    exists (ev c (answer h c) :: es). rewrite <-app_assoc in He. split; [done|]. split; [by eexists _, es|].
    intros [|e0 before] e1 rest Heq; simplify_list_eq; [by exists c|].
    destruct (Ha before e1 rest eq_refl) as [c' ->]. exists c'. by rewrite <-app_assoc.
Qed.

(** What the environment promises of an answer after a history, and the program of a call. *)
Context (rely : list E → E → Prop) (guar : list E → C → Prop).

(** From history [h] on, whatever the answers that respect [rely], every call respects
    [guar] and the program ends in [Q]. *)
Fixpoint whatever {A} (p : prog C R A) (h : list E) (Q : list E → A → Prop) : Prop :=
  match p with
  | Ret a => Q h a
  | Act c k => guar h c ∧ ∀ r, rely h (ev c r) → whatever (k r) (h ++ [ev c r]) Q
  end.

Definition relied (es : list E) : Prop := ∀ h e rest, es = h ++ e :: rest → rely h e.

Lemma whatever_mono {A} (p : prog C R A) h (Q Q' : list E → A → Prop) :
  whatever p h Q → (∀ h' a, h `prefix_of` h' → Q h' a → Q' h' a) → whatever p h Q'.
Proof.
  revert h. induction p as [a|c k IH]; intros h; simpl; [intros ? HQ; by apply HQ|].
  intros [Hg Hk] HQ. split; [done|]. intros r Hr. apply (IH r); [by auto|].
  intros h' a Hp. apply HQ. etrans; [|exact Hp]. by eexists.
Qed.

Lemma whatever_bind {A B} (f : A → prog C R B) (p : prog C R A) h Q :
  whatever p h (λ h a, whatever (f a) h Q) → whatever (prog_bind f p) h Q.
Proof. revert h. induction p as [a|c k IH]; intros h; simpl; [done|]. intros [? Hk]. split; [done|]. auto. Qed.

Lemma whatever_and {A} (p : prog C R A) h (Q Q' : list E → A → Prop) :
  whatever p h Q → whatever p h Q' → whatever p h (λ h' a, Q h' a ∧ Q' h' a).
Proof. revert h. induction p as [a|c k IH]; intros h; simpl; [done|]. intros [? ?] [? ?]. split; [done|]. auto. Qed.

(** A program whose calls are all admissible extends the history by them. *)
Lemma whatever_only {A} (ok : C → Prop) (p : prog C R A) h :
  only ok p → (∀ h c, ok c → guar h c) →
  whatever p h (λ h' _, ∃ es, h' = h ++ es ∧ Forall (λ e, ok (call_of e)) es).
Proof using call_of_ev.
  intros Hp Hg. revert h. induction p as [a|c k IH]; intros h; simpl in *.
  - exists []. by rewrite app_nil_r.
  - destruct Hp as [Hc Hk]. split; [by auto|]. intros r _. eapply whatever_mono; [by apply IH|].
    intros h' a _ (es & -> & Hes). exists (ev c r :: es). rewrite <-app_assoc. split; [done|]. constructor; [by rewrite call_of_ev|done].
Qed.

Lemma whatever_exec {A} (p : prog C R A) h Q es a :
  whatever p h Q → exec p es a → (∀ before e rest, es = before ++ e :: rest → rely (h ++ before) e) →
  Q (h ++ es) a ∧ ∀ before e rest, es = before ++ e :: rest → guar (h ++ before) (call_of e).
Proof using call_of_ev.
  revert h es. induction p as [b|c k IH]; intros h es; simpl.
  - intros HQ [-> ->] _. rewrite app_nil_r. split; [done|]. by intros [|??] ? ? ?.
  - intros [Hg Hk] (r & es' & -> & He) Hr.
    assert (rely h (ev c r)) as Hr0 by (rewrite <-(app_nil_r h); by apply (Hr [] _ es')).
    destruct (IH r (h ++ [ev c r]) es') as [HQ Hgs]; [by auto|done| |].
    { intros before e rest ->. rewrite <-app_assoc. by apply (Hr (ev c r :: before) e rest). }
    rewrite <-app_assoc in HQ. split; [done|]. intros [|e0 before] e1 rest Heq; simplify_list_eq.
    + by rewrite call_of_ev.
    + specialize (Hgs before e1 rest eq_refl). by rewrite <-app_assoc in Hgs.
Qed.

(** From the empty history. *)
Lemma whatever_run {A} (p : prog C R A) Q es a :
  whatever p [] Q → exec p es a → relied es →
  Q es a ∧ ∀ before e rest, es = before ++ e :: rest → guar before (call_of e).
Proof using call_of_ev. intros Hp He Hr. by apply (whatever_exec p [] Q es a Hp He). Qed.

End executions.
