(* ===== verification/Text.v ===== *)
(** * Rust's text functions

    [str::from_utf8], [String::from_utf8_lossy], [str::trim] and [str::lines].  A
    [string] is the bytes of a Rust string, so decoding checks the bytes and keeps
    them.  The lemmas say what the functions do to ASCII text; blanks, words and numerals
    are also defined without the functions that read them ([worded], [numeral]), for the
    grammars of [WorkflowSchema]. *)

From stdpp Require Import base strings list.
From Stdlib Require Import Ascii.
From Stdlib.Strings Require Import Byte.
From S2P Require Import Prelude.

Abbreviation str_of_bytes := String.string_of_list_byte.
Abbreviation bytes_of_str := String.list_byte_of_string.

(** ** UTF-8 *)

Definition in_range (lo hi : N) (b : byte) : bool := ((lo <=? Byte.to_N b) && (Byte.to_N b <=? hi))%N.

Definition is_cont : byte → bool := in_range 128 191.

(** How many of the next [n] bytes are continuation bytes. *)
Fixpoint conts (n : nat) (l : bytes) : nat :=
  match n, l with
  | S n, b :: l => if is_cont b then S (conts n l) else 0
  | _, _ => 0
  end.

(** A lead byte, whose second byte must satisfy [second], of a sequence of
    [2 + n] bytes. *)
Definition utf8_tail (second : byte → bool) (n : nat) (l : bytes) : nat * bool :=
  match l with
  | b :: l => if second b then (2 + conts n l, bool_decide (conts n l = n)) else (1, false)
  | [] => (1, false)
  end.

(** The next character: its length and [true], or the length of the maximal
    invalid part and [false]. *)
Definition utf8_next (b : byte) (l : bytes) : nat * bool :=
  if in_range 0 127 b then (1, true)
  else if in_range 194 223 b then utf8_tail is_cont 0 l
  else if in_range 224 224 b then utf8_tail (in_range 160 191) 1 l
  else if in_range 225 236 b || in_range 238 239 b then utf8_tail is_cont 1 l
  else if in_range 237 237 b then utf8_tail (in_range 128 159) 1 l
  else if in_range 240 240 b then utf8_tail (in_range 144 191) 2 l
  else if in_range 241 243 b then utf8_tail is_cont 2 l
  else if in_range 244 244 b then utf8_tail (in_range 128 143) 2 l
  else (1, false).

Fixpoint utf8_valid_fuel (fuel : nat) (l : bytes) : bool :=
  match fuel, l with
  | S fuel, b :: r => let '(n, ok) := utf8_next b r in ok && utf8_valid_fuel fuel (drop n l)
  | _, _ => true
  end.

Definition from_utf8 (l : bytes) : option string :=
  if utf8_valid_fuel (length l) l then Some (str_of_bytes l) else None.

(** The replacement character U+FFFD. *)
Definition replacement : bytes := [xef; xbf; xbd].

Fixpoint utf8_lossy_fuel (fuel : nat) (l : bytes) : bytes :=
  match fuel, l with
  | S fuel, b :: r =>
      let '(n, ok) := utf8_next b r in
      (if ok then take n l else replacement) ++ utf8_lossy_fuel fuel (drop n l)
  | _, _ => []
  end.

Definition from_utf8_lossy (l : bytes) : string := str_of_bytes (utf8_lossy_fuel (length l) l).

(** ** Whitespace *)

Definition is_ascii_ws (b : byte) : bool := in_range 9 13 b || in_range 32 32 b.

(** The characters of the Unicode property White_Space outside ASCII. *)
Definition is_ws2 (a b : byte) : bool :=
  in_range 194 194 a && (in_range 133 133 b || in_range 160 160 b).
Definition is_ws3 (a b c : byte) : bool :=
  (in_range 225 225 a && in_range 154 154 b && in_range 128 128 c)
  || (in_range 226 226 a && in_range 128 128 b
      && (in_range 128 138 c || in_range 168 169 c || in_range 175 175 c))
  || (in_range 226 226 a && in_range 129 129 b && in_range 159 159 c)
  || (in_range 227 227 a && in_range 128 128 b && in_range 128 128 c).

Fixpoint trim_start (l : bytes) : bytes :=
  match l with
  | a :: r =>
      if is_ascii_ws a then trim_start r
      else match r with
           | b :: r' =>
               if is_ws2 a b then trim_start r'
               else match r' with
                    | c :: r'' => if is_ws3 a b c then trim_start r'' else l
                    | [] => l
                    end
           | [] => l
           end
  | [] => []
  end.

(** The same from the end, on the reversed bytes. *)
Fixpoint trim_start_rev (l : bytes) : bytes :=
  match l with
  | a :: r =>
      if is_ascii_ws a then trim_start_rev r
      else match r with
           | b :: r' =>
               if is_ws2 b a then trim_start_rev r'
               else match r' with
                    | c :: r'' => if is_ws3 c b a then trim_start_rev r'' else l
                    | [] => l
                    end
           | [] => l
           end
  | [] => []
  end.

Definition trim (s : string) : string :=
  str_of_bytes (reverse (trim_start_rev (reverse (trim_start (bytes_of_str s))))).

(** ** Lines *)

Definition newline : ascii := "010"%char.

(** The pieces between newlines; the piece after the last one only when it is not
    empty; a carriage return before a newline is dropped. *)
Fixpoint chomp_lines (ps : list string) : list string :=
  match ps with
  | [] => []
  | [p] => if decide (p = "") then [] else [p]
  | p :: ps => default p (strip_suffix (String "013"%char "") p) :: chomp_lines ps
  end.

Definition lines (s : string) : list string := chomp_lines (split_on newline s).

(** ** ASCII case and trailing characters *)

(** [char::to_ascii_lowercase]. *)
Definition ascii_lower (c : ascii) : ascii :=
  if is_ascii_uppercase c then ascii_of_N (ascii_code c + 32) else c.

(** [str::to_ascii_lowercase], [str::eq_ignore_ascii_case]. *)
Fixpoint to_ascii_lowercase (s : string) : string :=
  match s with
  | EmptyString => EmptyString
  | String c s' => String (ascii_lower c) (to_ascii_lowercase s')
  end.

Definition eq_ignore_ascii_case (s t : string) : bool :=
  bool_decide (to_ascii_lowercase s = to_ascii_lowercase t).

(** [str::trim_end_matches(c)] for a character. *)
Fixpoint trim_end_matches (c : ascii) (s : string) : string :=
  match s with
  | EmptyString => EmptyString
  | String a s' =>
      match trim_end_matches c s' with
      | EmptyString => if decide (a = c) then EmptyString else String a EmptyString
      | t => String a t
      end
  end.
Arguments trim_end_matches c%_char s%_string.

(** [str::trim_start]. *)
Definition trim_start_str (s : string) : string := str_of_bytes (trim_start (bytes_of_str s)).

(** ** ASCII text *)

Definition is_graphic : byte → bool := in_range 33 126.

Lemma in_range_iff lo hi b : in_range lo hi b = true ↔ (lo ≤ Byte.to_N b ≤ hi)%N.
Proof. unfold in_range. rewrite andb_true_iff, !N.leb_le. done. Qed.

Lemma in_range_disjoint lo hi lo' hi' b :
  in_range lo hi b = true → (hi < lo' ∨ hi' < lo)%N → in_range lo' hi' b = false.
Proof. rewrite in_range_iff. intros Hb Hd. apply not_true_iff_false. rewrite in_range_iff. lia. Qed.

Lemma graphic_not_ws a : is_graphic a = true → is_ascii_ws a = false.
Proof. intros Ha. unfold is_ascii_ws. by rewrite !(in_range_disjoint 33 126) by (done || lia). Qed.

Lemma graphic_not_ws2 a b : is_graphic a = true → is_ws2 a b = false.
Proof. intros Ha. unfold is_ws2. by rewrite (in_range_disjoint 33 126) by (done || lia). Qed.

Lemma graphic_not_ws3 a b c : is_graphic a = true → is_ws3 a b c = false.
Proof. intros Ha. unfold is_ws3. by rewrite !(in_range_disjoint 33 126 _ _ a) by (done || lia). Qed.

Lemma trim_start_graphic l : Forall (λ b, is_graphic b = true) l → trim_start l = l.
Proof.
  intros [|a r Ha Hr]; [done|]. simpl. rewrite graphic_not_ws by done.
  destruct Hr as [|b r Hb Hr]; [done|]. rewrite graphic_not_ws2 by done.
  destruct Hr as [|c r Hc Hr]; [done|]. by rewrite graphic_not_ws3.
Qed.

Lemma trim_start_rev_graphic l : Forall (λ b, is_graphic b = true) l → trim_start_rev l = l.
Proof.
  intros [|a r Ha Hr]; [done|]. simpl. rewrite graphic_not_ws by done.
  destruct Hr as [|b r Hb Hr]; [done|]. rewrite graphic_not_ws2 by done.
  destruct Hr as [|c r Hc Hr]; [done|]. by rewrite graphic_not_ws3.
Qed.

Lemma bytes_of_str_forall (f : ascii → bool) (g : byte → bool) s :
  (∀ c, f c = true → g (byte_of_ascii c) = true) → str_all f s = true → Forall (λ b, g b = true) (bytes_of_str s).
Proof.
  intros Hfg. induction s as [|c s IH]; simpl; [constructor|]. intros [Hc Hs]%andb_true_iff.
  constructor; [by apply Hfg|by apply IH].
Qed.

Lemma bytes_of_str_inj s t : bytes_of_str s = bytes_of_str t → s = t.
Proof. intros E%(f_equal str_of_bytes). by rewrite !String.string_of_list_byte_of_string in E. Qed.

Lemma trim_graphic s : Forall (λ b, is_graphic b = true) (bytes_of_str s) → trim s = s.
Proof.
  intros Hs. unfold trim. rewrite trim_start_graphic by done.
  rewrite trim_start_rev_graphic by (by apply Forall_reverse). rewrite reverse_involutive.
  apply String.string_of_list_byte_of_string.
Qed.

Lemma from_utf8_ascii s : Forall (λ b, in_range 0 127 b = true) (bytes_of_str s) → from_utf8 (bytes_of_str s) = Some s.
Proof.
  intros Hs. unfold from_utf8. assert (utf8_valid_fuel (length (bytes_of_str s)) (bytes_of_str s) = true) as ->.
  { induction Hs as [|b l Hb _ IH]; [done|]. simpl. unfold utf8_next. rewrite Hb. simpl. done. }
  by rewrite String.string_of_list_byte_of_string.
Qed.

(** Text written line by line is read back line by line. *)
Fixpoint unlines (ls : list string) : string :=
  match ls with [] => "" | l :: ls => l +:+ String newline (unlines ls) end.

Lemma split_on_unlines ls :
  Forall (λ l, str_contains newline l = false) ls → split_on newline (unlines ls) = ls ++ [""].
Proof. induction 1 as [|l ls Hl _ IH]; [done|]. simpl. by rewrite split_on_app, IH. Qed.

Lemma chomp_lines_cons l ls : ls ≠ [] →
  chomp_lines (l :: ls) = default l (strip_suffix (String "013"%char "") l) :: chomp_lines ls.
Proof. by destruct ls. Qed.

Lemma lines_unlines ls :
  Forall (λ l, str_contains newline l = false ∧ ends_with (String "013"%char "") l = false) ls →
  lines (unlines ls) = ls.
Proof.
  intros Hls. unfold lines. rewrite split_on_unlines by (eapply Forall_impl; [done|by intros l []]).
  induction Hls as [|l ls [_ Hl] _ IH]; [done|]. simpl app. rewrite chomp_lines_cons by (by destruct ls).
  rewrite IH. f_equal. unfold ends_with in Hl. by destruct (strip_suffix _ l).
Qed.

(** Text without control characters is safe to write as a line. *)
Lemma strip_suffix_contains c s r : strip_suffix (String c "") s = Some r → str_contains c s = true.
Proof.
  revert r. induction s as [|a s IH]; intros r; simpl; [done|]. case_decide as E.
  - injection E as -> ->. intros _. by rewrite bool_decide_eq_true_2.
  - destruct (strip_suffix _ s) as [r'|]; [|done]. intros _. rewrite (IH r') by done. apply orb_true_r.
Qed.

Lemma one_line (f : ascii → bool) s :
  f newline = false → f "013"%char = false → str_all f s = true →
  str_contains newline s = false ∧ ends_with (String "013"%char "") s = false.
Proof.
  intros Hn Hc Hs. split; [by eapply str_all_contains|].
  unfold ends_with. destruct (strip_suffix _ s) as [r|] eqn:E; [|done].
  apply strip_suffix_contains in E. by rewrite (str_all_contains f) in E.
Qed.

(** ** Canonical decimals

    A digit string without a leading zero is what printing its value gives. *)

Definition digits_value (l : list ascii) : N := foldl (λ a c, (a * 10 + (N_of_ascii c - 48))%N) 0%N l.

Lemma dec_value_list acc s :
  dec_value acc s = foldl (λ a c, (a * 10 + (N_of_ascii c - 48))%N) acc (String.list_ascii_of_string s).
Proof. revert acc. induction s as [|c s IH]; intros acc; simpl; auto. Qed.

Lemma digit_of_char c : is_ascii_digit c = true → digit (N_of_ascii c - 48) = c ∧ (N_of_ascii c - 48 < 10)%N.
Proof. destruct c as [[] [] [] [] [] [] [] []]; vm_compute; done. Qed.

Lemma digit_mod n m : (n < 10)%N → digit (m * 10 + n) = digit n.
Proof. intros Hn. unfold digit. do 2 f_equal. rewrite N.add_comm, N.Div0.mod_add. done. Qed.

Lemma digits_value_pos c l : is_ascii_digit c = true → c ≠ "0"%char → (0 < digits_value (c :: l))%N.
Proof.
  intros Hd Hc. unfold digits_value. simpl.
  assert (0 < N_of_ascii c - 48)%N as Hv.
  { destruct c as [[] [] [] [] [] [] [] []]; vm_compute in Hd |- *; done. }
  rewrite N.mul_0_l, N.add_0_l. revert Hv. generalize (N_of_ascii c - 48)%N.
  induction l as [|x l IH]; intros n Hn; simpl; [done|]. apply IH. revert Hn. generalize (N_of_ascii x - 48)%N. lia.
Qed.

Definition canonical_digits (l : list ascii) : Prop :=
  match l with [] => False | [_] => True | c :: _ => c ≠ "0"%char end.

Lemma string_of_list_app k m :
  String.string_of_list_ascii (k ++ m) = String.string_of_list_ascii k +:+ String.string_of_list_ascii m.
Proof. induction k as [|x k IH]; [done|]. simpl. by rewrite IH, append_cons. Qed.

Lemma dec_string_digits l fuel acc :
  Forall (λ c, is_ascii_digit c = true) l → canonical_digits l →
  (digits_value l < 10 ^ N.of_nat fuel)%N → fuel ≠ 0 →
  dec_string fuel (digits_value l) acc = String.string_of_list_ascii l +:+ acc.
Proof.
  revert fuel acc. induction l as [|d l IH] using rev_ind; intros fuel acc Hl Hc Hv Hf; [done|].
  apply Forall_app in Hl as [Hl Hd]. inversion_clear Hd as [|?? Hd' _].
  destruct (digit_of_char d Hd') as [Ed Hlt]. destruct fuel as [|fuel]; [done|].
  assert (digits_value (l ++ [d]) = digits_value l * 10 + (N_of_ascii d - 48))%N as Ev
    by (unfold digits_value; by rewrite foldl_app).
  rewrite Ev in Hv |- *. cbn [dec_string]. rewrite digit_mod, Ed by done.
  destruct l as [|c l].
  - change (digits_value []) with 0%N. rewrite N.mul_0_l, N.add_0_l.
    by rewrite (proj2 (N.ltb_lt _ _)).
  - assert (c ≠ "0"%char) as Hc0 by (by destruct l).
    inversion_clear Hl as [|?? Hcd Hl']. pose proof (digits_value_pos c l Hcd Hc0) as Hpos.
    set (v := digits_value (c :: l)) in *. destruct (N.ltb_spec (v * 10 + (N_of_ascii d - 48)) 10) as [Hx|_]; [lia|].
    assert ((v * 10 + (N_of_ascii d - 48)) / 10 = v)%N as ->
      by (rewrite N.div_add_l, (N.div_small (N_of_ascii d - 48)), N.add_0_r by done; done).
    rewrite Nat2N.inj_succ, N.pow_succ_r' in Hv.
    assert (String d acc = String.string_of_list_ascii [d] +:+ acc) as -> by done.
    rewrite IH; [|by constructor|by destruct l|lia|].
    + by rewrite string_of_list_app, append_assoc.
    + intros ->. change (10 ^ N.of_nat 0)%N with 1%N in Hv. lia.
Qed.

(** [starts_with('0')] on more than one byte. *)
Definition leading_zero (s : string) : bool := (1 <? String.length s)%nat && starts_with "0" s.

Lemma canonical_of_string s :
  s ≠ "" → leading_zero s = false → canonical_digits (String.list_ascii_of_string s).
Proof.
  intros Hn Hz. destruct s as [|c [|c' s]]; [done|done|]. simpl. intros ->. done.
Qed.

Lemma num_to_string_value s :
  str_all is_ascii_digit s = true → s ≠ "" → leading_zero s = false → (dec_value 0 s < 10 ^ 20)%N →
  num_to_string (dec_value 0 s) = s.
Proof.
  intros Hd Hn Hz Hv. rewrite dec_value_list in *. unfold num_to_string.
  change (dec_string 20 (digits_value (String.list_ascii_of_string s)) "" = s).
  rewrite dec_string_digits; [|..|by apply canonical_of_string|exact Hv|done].
  - rewrite str_app_nil.
    apply String.string_of_list_ascii_of_string.
  - clear -Hd. induction s as [|c s IH]; simpl in *; [constructor|].
    apply andb_true_iff in Hd as [? ?]. constructor; auto.
Qed.

(** Parsing digits computes their value. *)
Lemma parse_uint_value max s v :
  str_all is_ascii_digit s = true → parse_uint max s = Some v → dec_value 0 s = v ∧ (v ≤ max)%N.
Proof.
  intros Hd Hp. destruct s as [|c s]; [done|].
  assert (parse_uint max (String c s) = parse_uint_digits max 0 (String c s)) as E.
  { simpl in Hd. apply andb_true_iff in Hd as [Hc _]. unfold parse_uint.
    destruct c as [[] [] [] [] [] [] [] []]; vm_compute in Hc; try done; reflexivity. }
  rewrite E in Hp. assert (0 ≤ max)%N as H0 by lia. revert Hd Hp H0. clear E. generalize 0%N (String c s). clear.
  intros acc s. revert acc. induction s as [|c s IH]; intros acc; simpl; [intros _ [= <-] ?; done|].
  intros [Hc Hs]%andb_true_iff Hp _. unfold is_ascii_digit, ascii_code in Hc. rewrite Hc in Hp.
  destruct (acc * 10 + (N_of_ascii c - 48) <=? max)%N eqn:E; [|done].
  apply IH; [done..|]. by apply N.leb_le.
Qed.

Lemma parse_uint_canonical s v :
  str_all is_ascii_digit s = true → s ≠ "" → leading_zero s = false → parse_uint u64_max s = Some v → s = num_to_string v.
Proof.
  intros Hd Hn Hz [<- Hv]%parse_uint_value; [|done]. symmetry. apply num_to_string_value; [done..|].
  eapply N.le_lt_trans; [exact Hv|done].
Qed.

Lemma dec_string_head fuel n acc : (0 < n)%N → (n < 10 ^ N.of_nat fuel)%N →
  ∃ c s, dec_string fuel n acc = String c s ∧ c ≠ "0"%char.
Proof.
  revert n acc. induction fuel as [|fuel IH]; intros n acc H0 Hn.
  { change (10 ^ N.of_nat 0)%N with 1%N in Hn. lia. }
  cbn [dec_string]. destruct (N.ltb_spec n 10) as [Hlt|Hge].
  - eexists _, _. split; [reflexivity|]. intros E. apply (f_equal N_of_ascii) in E.
    rewrite N_of_digit, N.mod_small in E by done. change (N_of_ascii "0") with 48%N in E. lia.
  - apply IH; [apply N.div_str_pos; lia|].
    rewrite Nat2N.inj_succ, N.pow_succ_r' in Hn. by apply N.Div0.div_lt_upper_bound.
Qed.

Lemma num_to_string_no_leading n : (n < 10 ^ 20)%N → leading_zero (num_to_string n) = false.
Proof.
  intros Hn. destruct (decide (n = 0%N)) as [->|Hz]; [done|].
  destruct (dec_string_head 20 n "") as (c & s & E & Hc); [lia|done|]. unfold num_to_string. rewrite E.
  unfold leading_zero. destruct (starts_with "0" (String c s)) eqn:Es; [|apply andb_false_r].
  apply starts_with_iff in Es as [r Er]. injection Er as -> _. done.
Qed.

Lemma str_app_inj_r (r t p : string) : r +:+ p = t +:+ p → r = t.
Proof.
  revert t. induction r as [|c r IH]; intros t E.
  - change (p = t +:+ p) in E. apply (f_equal String.length) in E. rewrite length_append in E.
    destruct t; [done|simpl in E; lia].
  - destruct t as [|c' t]; [|rewrite !append_cons in E; injection E as -> E; f_equal; by apply IH].
    apply (f_equal String.length) in E. rewrite length_append in E. change ("" +:+ p) with p in E. simpl in E. lia.
Qed.

Lemma strip_suffix_Some p s r : strip_suffix p s = Some r ↔ s = r +:+ p.
Proof.
  revert r. induction s as [|a s IH]; intros r; simpl.
  - case_decide as E; [subst; split; [by intros [= <-]|by destruct r]|].
    split; [done|]. intros Er. by destruct r.
  - case_decide as E; [subst|].
    + split; [by intros [= <-]|]. intros Er. f_equal. apply (str_app_inj_r _ _ (String a s)). exact Er.
    + destruct (strip_suffix p s) as [r'|] eqn:E'; simpl.
      * pose proof (proj1 (IH r') eq_refl) as ->. split; [by intros [= <-]|].
        intros Er. destruct r as [|c r]; [by destruct (E Er)|].
        rewrite append_cons in Er. injection Er as -> Er. apply str_app_inj_r in Er. congruence.
      * split; [done|]. intros Er. destruct r as [|c r]; [by destruct (E Er)|].
        rewrite append_cons in Er. injection Er as -> Er. by apply IH in Er.
Qed.

Lemma strip_none p s : (∀ r, s ≠ r +:+ p) → strip_suffix p s = None.
Proof. intros Hs. destruct (strip_suffix p s) as [r|] eqn:E; [|done]. apply strip_suffix_Some in E. by destruct (Hs r). Qed.

Lemma append_empty t : "" +:+ t = t.
Proof. done. Qed.

(** ** What [trim], words and numbers are

    Written without the functions that compute them. *)

(** One white-space character, in UTF-8. *)
Inductive blank : bytes → Prop :=
| blank1 a : is_ascii_ws a = true → blank [a]
| blank2 a b : is_ws2 a b = true → blank [a; b]
| blank3 a b c : is_ws3 a b c = true → blank [a; b; c].

Definition starts_blank (l : bytes) : Prop := ∃ b r, blank b ∧ l = b ++ r.

(** [worded l n]: between its blanks, [l] has [n] words. *)
Inductive worded : bytes → nat → Prop :=
| worded_nil : worded [] 0
| worded_blank b l n : blank b → worded l n → worded (b ++ l) n
| worded_word w l n :
    w ≠ [] → (∀ x y, w = x ++ y → y ≠ [] → ¬ starts_blank (y ++ l)) → l = [] ∨ starts_blank l →
    worded l n → worded (w ++ l) (S n).

(** [numeral max s n]: the text is [n] in decimal, perhaps after a plus sign. *)
Definition numeral (max : N) (s : string) (n : N) : Prop :=
  ∃ ds, (s = ds ∨ s = "+" +:+ ds) ∧ ds ≠ "" ∧ str_all is_ascii_digit ds = true ∧ dec_value 0 ds = n ∧ (n ≤ max)%N.

Lemma ws_ascii_range a : is_ascii_ws a = true → (Byte.to_N a ≤ 32)%N.
Proof. unfold is_ascii_ws, in_range. intros [H|H]%orb_true_iff; apply andb_true_iff in H as [_ H]; apply N.leb_le in H; lia. Qed.

Lemma ws2_not_ascii a b : is_ws2 a b = true → is_ascii_ws a = false.
Proof. unfold is_ws2. intros [H _]%andb_true_iff. apply not_true_iff_false. intros Ha%ws_ascii_range. unfold in_range in H. apply andb_true_iff in H as [H _]. apply N.leb_le in H. lia. Qed.

Lemma ws3_facts a b c : is_ws3 a b c = true → is_ascii_ws a = false ∧ is_ws2 a b = false.
Proof.
  intros Hw. assert (225 ≤ Byte.to_N a)%N as Ha.
  { unfold is_ws3, in_range in Hw. rewrite !orb_true_iff, !andb_true_iff, !N.leb_le in Hw. lia. }
  split; apply not_true_iff_false.
  - intros H%ws_ascii_range. lia.
  - unfold is_ws2, in_range. rewrite !andb_true_iff, !N.leb_le. lia.
Qed.

(** [trim_start] on a blank, and on what starts with none. *)
Lemma trim_start_blank b l : blank b → trim_start (b ++ l) = trim_start l.
Proof.
  intros [a Ha|a c Hw|a c d Hw]; simpl.
  - by rewrite Ha.
  - by rewrite (ws2_not_ascii _ _ Hw), Hw.
  - destruct (ws3_facts _ _ _ Hw) as [-> ->]. by rewrite Hw.
Qed.

Lemma trim_start_cases l : (∃ b r, blank b ∧ l = b ++ r) ∨ (trim_start l = l ∧ ¬ starts_blank l).
Proof.
  destruct l as [|a r]; [right; split; [done|]; by intros (? & ? & [] & ?)|].
  destruct (is_ascii_ws a) eqn:Ha; [left; exists [a], r; split; [by constructor|done]|].
  destruct r as [|b r].
  { right. simpl. rewrite Ha. split; [done|]. intros (? & ? & [] & E); simplify_eq/=. congruence. }
  destruct (is_ws2 a b) eqn:H2; [left; exists [a; b], r; split; [by constructor|done]|].
  destruct r as [|c r].
  { right. simpl. rewrite Ha, H2. split; [done|]. intros (? & ? & [] & E); simplify_eq/=; congruence. }
  destruct (is_ws3 a b c) eqn:H3; [left; exists [a; b; c], r; split; [by constructor|done]|].
  right. simpl. rewrite Ha, H2, H3. split; [done|]. intros (? & ? & [] & E); simplify_eq/=; congruence.
Qed.

Lemma blank_nonempty b : blank b → b ≠ [].
Proof. by intros []. Qed.

Lemma starts_blank_trim l : starts_blank l → trim_start l ≠ l.
Proof. intros Hs. destruct (trim_start_cases l) as [(b & r & Hb & ->)|[_ ?]]; [|done]. rewrite trim_start_blank by done.
  intros E%(f_equal length). rewrite length_app in E. pose proof (blank_nonempty b Hb). destruct b; [done|]. simpl in E.
  assert (length (trim_start r) ≤ length r); [|lia]. clear.
  induction r as [r IH] using (induction_ltof1 _ length). unfold ltof in IH.
  destruct (trim_start_cases r) as [(b & r' & Hb & ->)|[-> _]]; [|done]. rewrite trim_start_blank by done.
  pose proof (blank_nonempty b Hb). destruct b; [done|]. rewrite length_app. simpl. etrans; [apply IH|]; [rewrite length_app; simpl; lia|lia].
Qed.

Lemma trim_start_idem l : trim_start (trim_start l) = trim_start l.
Proof.
  induction l as [l IH] using (induction_ltof1 _ length). unfold ltof in IH.
  destruct (trim_start_cases l) as [(b & r & Hb & ->)|[E _]]; [|by rewrite !E]. rewrite trim_start_blank by done.
  apply IH. rewrite length_app. pose proof (blank_nonempty b Hb). destruct b; [done|simpl; lia].
Qed.

Lemma trim_start_rev_cases l :
  trim_start_rev l = l ∨ ∃ b r, b ≠ [] ∧ l = b ++ r ∧ trim_start_rev l = trim_start_rev r.
Proof.
  destruct l as [|a r]; [by left|]. simpl. destruct (is_ascii_ws a); [right; by exists [a], r|].
  destruct r as [|b r]; [by left|]. destruct (is_ws2 b a); [right; by exists [a; b], r|].
  destruct r as [|c r]; [by left|]. destruct (is_ws3 c b a); [right; by exists [a; b; c], r|by left].
Qed.

Lemma trim_start_rev_spec l : trim_start_rev (trim_start_rev l) = trim_start_rev l ∧ ∃ b, l = b ++ trim_start_rev l.
Proof.
  induction l as [l IH] using (induction_ltof1 _ length). unfold ltof in IH.
  destruct (trim_start_rev_cases l) as [E|(b & r & Hb & -> & E)].
  - rewrite !E. split; [done|]. by exists [].
  - rewrite E. destruct (IH r) as (? & x & Hx); [rewrite length_app; destruct b; [done|simpl; lia]|]. split; [done|].
    exists (b ++ x). rewrite <-app_assoc. by rewrite <-Hx.
Qed.

(** Trimming once is enough. *)
Lemma trim_trim s : trim (trim s) = trim s.
Proof.
  unfold trim. assert (∀ l, bytes_of_str (str_of_bytes l) = l) as -> by (intros; apply String.list_byte_of_string_of_list_byte).
  set (l := trim_start (bytes_of_str s)). destruct (trim_start_rev_spec (reverse l)) as [Hidem [b Hb]].
  assert (trim_start (reverse (trim_start_rev (reverse l))) = reverse (trim_start_rev (reverse l))) as ->.
  { destruct (trim_start_cases (reverse (trim_start_rev (reverse l)))) as [(w & r & Hw & E)|[E _]]; [|done]. exfalso.
    apply (starts_blank_trim l); [|apply trim_start_idem]. exists w, (r ++ reverse b). split; [done|].
    rewrite app_assoc, <-E, <-reverse_app, <-Hb. by rewrite reverse_involutive. }
  by rewrite reverse_involutive, Hidem.
Qed.

(** [str::parse] reads numerals. *)
Lemma parse_uint_digits_numeral max s acc n :
  (acc ≤ max)%N → parse_uint_digits max acc s = Some n ↔ str_all is_ascii_digit s = true ∧ dec_value acc s = n ∧ (n ≤ max)%N.
Proof.
  intros Ha. split.
  - revert acc Ha. induction s as [|c s IH]; intros acc Ha; simpl; [by intros [= <-]|].
    unfold is_ascii_digit, ascii_code. destruct (_ && _); [|done]. destruct (N.leb_spec (acc * 10 + (N_of_ascii c - 48)) max); [|done].
    simpl. by apply IH.
  - intros (Hd & <- & Hn). by apply parse_uint_digits_value.
Qed.

Lemma parse_uint_numeral max s n : parse_uint max s = Some n ↔ numeral max s n.
Proof.
  assert (∀ s, s ≠ "" → parse_uint_digits max 0 s = Some n ↔
    s ≠ "" ∧ str_all is_ascii_digit s = true ∧ dec_value 0 s = n ∧ (n ≤ max)%N) as Hds.
  { intros ds Hne. rewrite parse_uint_digits_numeral by lia. tauto. }
  assert (str_all is_ascii_digit s = true → s ≠ "" → parse_uint max s = parse_uint_digits max 0 s) as Hplain.
  { destruct s as [|c s]; [done|]. intros Hd _. cbn [str_all] in Hd. apply andb_true_iff in Hd as [Hc _].
    unfold parse_uint. destruct c as [[] [] [] [] [] [] [] []]; vm_compute in Hc; try done; reflexivity. }
  split.
  - destruct s as [|c s]; [done|]. intros Hp. destruct (decide (c = "+"%char)) as [->|Hc].
    + destruct s as [|c s]; [done|]. exists (String c s). split; [by right|]. by apply Hds.
    + exists (String c s). split; [by left|]. apply Hds; [done|]. rewrite <-Hp. unfold parse_uint.
      destruct c as [[] [] [] [] [] [] [] []]; try done; by destruct Hc.
  - intros (ds & [->| ->] & Hne & Hd & Hv).
    + rewrite Hplain by done. by apply Hds.
    + destruct ds as [|c ds]; [done|]. change (parse_uint_digits max 0 (String c ds) = Some n). by apply Hds.
Qed.

Lemma length_bytes s : length (bytes_of_str s) = String.length s.
Proof. induction s as [|c s IH]; simpl; [done|]. by f_equal. Qed.

Lemma last_char_inj (n m : string) c c' : n +:+ String c "" = m +:+ String c' "" → n = m ∧ c = c'.
Proof.
  revert m. induction n as [|a n IH]; intros [|b m]; rewrite ?append_cons, ?append_empty; intros E.
  - by injection E as ->.
  - injection E as _ E. by destruct m.
  - injection E as _ E. by destruct n.
  - injection E as -> E. by destruct (IH m E) as [-> ->].
Qed.

Lemma strip_last c c' n : strip_suffix (String c "") (n +:+ String c' "") = if decide (c = c') then Some n else None.
Proof.
  case_decide as Hc; [subst; by apply strip_suffix_Some|]. apply strip_none. intros r [_ E]%last_char_inj. by destruct Hc.
Qed.

Lemma str_all_forall f s : str_all f s = true ↔ Forall (λ c, f c = true) (String.list_ascii_of_string s).
Proof. induction s as [|c s IH]; simpl; [by split|]. by rewrite Forall_cons, andb_true_iff, IH. Qed.

Lemma split_once_Some c s a b : split_once c s = Some (a, b) ↔ s = a +:+ String c b ∧ str_contains c a = false.
Proof.
  split; [|intros [-> ?]; by apply split_once_app].
  revert a. induction s as [|x s IH]; intros a; simpl; [done|]. case_decide as Hx.
  - intros [= <- <-]. by subst.
  - destruct (split_once c s) as [[a' b']|]; [|done]. intros [= <- ->]. destruct (IH a' eq_refl) as [-> Ha].
    rewrite append_cons. split; [done|]. simpl. by rewrite bool_decide_false, Ha.
Qed.

Lemma split_once_None c s : split_once c s = None ↔ str_contains c s = false.
Proof.
  induction s as [|x s IH]; simpl; [done|]. rewrite orb_false_iff, bool_decide_eq_false, <-IH. case_decide; [naive_solver|].
  destruct (split_once c s) as [[??]|]; naive_solver.
Qed.
