(* ===== verification/Nostr.v ===== *)
(** * Nostr data shared by the relay components

    The identifiers, events and filters the relay handles.  [uuid] and [nostr]
    are external crates: their values are modelled by the fields the relay
    reads, and the few accessors it calls on them are the fields of the class
    [NostrApi], so that every definition and theorem of the components below
    is stated for any implementation of them.  [NostrLaws] states the
    documented behaviour the relay relies on. *)

From stdpp Require Import base gmap strings list.
From Stdlib Require Import Ascii.
From Stdlib.Strings Require Import Byte.
From S2P Require Import Prelude.

(** A 128-bit UUID, and the newtypes over it. *)
Abbreviation Uuid := N (only parsing).
Abbreviation ConnId := N (only parsing).
Abbreviation CommunityId := N (only parsing).
Abbreviation SubId := string (only parsing).

(** 32-byte identifiers, compared for equality and printed as hex only. *)
Abbreviation EventId := N (only parsing).
Abbreviation PublicKey := N (only parsing).

(** [nostr::Kind] is a [u16], [nostr::Timestamp] a [u64]. *)
Abbreviation Kind := Z (only parsing).
Abbreviation Timestamp := Z (only parsing).

(** [nostr::Tag], as the vector of strings [as_slice] returns. *)
Abbreviation Tag := (list string) (only parsing).

(** [nostr::SingleLetterTag]: the letter and its case. *)
Record SingleLetterTag := mkSlt { character : ascii; uppercase : bool }.

#[global] Instance slt_eq_dec : EqDecision SingleLetterTag.
Proof. solve_decision. Defined.

Record NostrEvent := mkEvent {
  ev_id : EventId;
  ev_pubkey : PublicKey;
  ev_created_at : Timestamp;
  ev_kind : Kind;
  ev_tags : list Tag;
  ev_content : string
}.

(** [nostr::Filter]: the constraints the relay evaluates.  [generic_tags] is a
    [BTreeMap] and the sets are [BTreeSet]s: lists in key order. *)
Record NostrFilter := mkFilter {
  f_ids : option (list EventId);
  f_authors : option (list PublicKey);
  f_kinds : option (list Kind);
  f_since : option Timestamp;
  f_until : option Timestamp;
  f_generic_tags : list (SingleLetterTag * list string)
}.

(** The accessors of the external crates the relay calls:
    [tag.kind().to_string()], [tag.content()], [tags.filter(TagKind::SingleLetter(l))],
    [SingleLetterTag::to_string], [EventId::to_hex] and [PublicKey::to_hex],
    [Uuid::to_string]. *)
Class NostrApi := {
  tag_kind : Tag → string;
  tag_content : Tag → option string;
  tag_is_letter : SingleLetterTag → Tag → bool;
  slt_to_string : SingleLetterTag → string;
  id_to_hex : EventId → string;
  uuid_to_string : Uuid → string
}.

(** [SingleLetterTag::lowercase(Alphabet::P)], built in [subscription.rs] and
    [filter.rs]. *)
Definition p_tag : SingleLetterTag := mkSlt "P" false.

(** [BTreeMap::get]. *)
Fixpoint generic_tags_get (k : SingleLetterTag) (m : list (SingleLetterTag * list string)) :
    option (list string) :=
  match m with
  | [] => None
  | (k', v) :: m' => if decide (k = k') then Some v else generic_tags_get k m'
  end.

(** What the relay relies on: a lowercase single-letter tag prints as its
    letter, and looking tags up by that letter agrees with comparing their
    printed kinds. *)
Class NostrLaws (api : NostrApi) := {
  slt_p : slt_to_string p_tag = "p";
  tag_is_p : ∀ t, tag_is_letter p_tag t = bool_decide (tag_kind t = "p")
}.

(** UUIDs print in their hyphenated hexadecimal form: one text per UUID, no
    colon or bar in it. *)
Class UuidLaws (api : NostrApi) := {
  uuid_to_string_inj : ∀ u v, uuid_to_string u = uuid_to_string v → u = v;
  uuid_no_colon : ∀ u, str_contains ":" (uuid_to_string u) = false;
}.

(** Identifiers and keys print in hexadecimal: one text each, no colon in it. *)
Class IdHexLaws (api : NostrApi) := {
  id_to_hex_inj : ∀ a b, (a < 2 ^ 256)%N → (b < 2 ^ 256)%N → id_to_hex a = id_to_hex b → a = b;
  id_hex_no_colon : ∀ a, str_contains ":" (id_to_hex a) = false
}.

(** [Uuid::as_bytes] and [Uuid::from_bytes]. *)
Class UuidBytes := {
  uuid_as_bytes : Uuid → bytes;
  uuid_from_bytes : bytes → Uuid
}.

(** A UUID is 128 bits and its bytes determine it. *)
Definition uuid_ok (u : Uuid) : Prop := (u < 2 ^ 128)%N.

Class UuidBytesLaws (api : UuidBytes) := {
  uuid_bytes_length : ∀ u, length (uuid_as_bytes u) = 16;
  uuid_from_as : ∀ u, uuid_ok u → uuid_from_bytes (uuid_as_bytes u) = u;
  uuid_as_from : ∀ b, length b = 16 → uuid_as_bytes (uuid_from_bytes b) = b;
  uuid_from_ok : ∀ b, uuid_ok (uuid_from_bytes b)
}.

(** ** An instance *)

(** The tag name is the first string and the content the second; identifiers
    are printed in binary.  Used to evaluate the model on concrete inputs. *)
Fixpoint demo_pos_string (p : positive) : string :=
  match p with
  | xH => "1"
  | xO p' => demo_pos_string p' +:+ "0"
  | xI p' => demo_pos_string p' +:+ "1"
  end.

Definition demo_N_string (n : N) : string :=
  match n with N0 => "0" | Npos p => demo_pos_string p end.

Definition demo_tag_kind (t : Tag) : string :=
  match t with [] => "" | k :: _ => k end.

Definition demo_slt_to_string (l : SingleLetterTag) : string :=
  let code := ascii_code (character l) in
  String (if uppercase l then character l
          else if ((65 <=? code) && (code <=? 90))%N then ascii_of_N (code + 32)
          else character l) EmptyString.

#[global] Instance demo_api : NostrApi := {|
  tag_kind := demo_tag_kind;
  tag_content := λ t, t !! 1;
  tag_is_letter := λ l t, bool_decide (demo_tag_kind t = demo_slt_to_string l);
  slt_to_string := demo_slt_to_string;
  id_to_hex := demo_N_string;
  uuid_to_string := demo_N_string
|}.

#[global] Instance demo_laws : NostrLaws demo_api.
Proof. split; [reflexivity|]. intros t. reflexivity. Qed.

Lemma generic_tags_get_elem k m v :
  generic_tags_get k m = Some v → (k, v) ∈ m.
Proof.
  induction m as [|[k' v'] m IH]; simpl; [done|].
  case_decide; [intros [= ->]; subst; left|]. intros. right. auto.
Qed.

Lemma append_last_inj s t a b : s +:+ String a "" = t +:+ String b "" → s = t ∧ a = b.
Proof.
  revert t. induction s as [|x s IH]; intros [|y t] E; rewrite ?append_cons in E; simplify_eq; try done.
  - destruct t; rewrite ?append_cons in *; simplify_eq.
  - destruct s; rewrite ?append_cons in *; simplify_eq.
  - apply IH in H as [-> ->]. done.
Qed.

Lemma demo_pos_string_inj p q : demo_pos_string p = demo_pos_string q → p = q.
Proof.
  assert (∀ p, demo_pos_string p ≠ "") as Hne.
  { clear. intros []; simpl; [| |done]; destruct demo_pos_string; done. }
  revert q. induction p as [p IH|p IH|]; intros [q|q|] E; simpl in E; try done.
  all: try (apply append_last_inj in E as [E ?]; try done; f_equal; by apply IH).
  all: exfalso; try (apply (append_last_inj _ "") in E as [E _]; by apply Hne in E).
  all: symmetry in E; apply (append_last_inj _ "") in E as [E _]; by apply Hne in E.
Qed.

Lemma demo_pos_string_bits p c :
  c ≠ "0"%char → c ≠ "1"%char → str_contains c (demo_pos_string p) = false.
Proof.
  intros H0 H1. induction p as [p IH|p IH|]; simpl.
  1,2: rewrite str_contains_app, IH; simpl; rewrite bool_decide_eq_false_2; done.
  rewrite bool_decide_eq_false_2; done.
Qed.

Lemma demo_N_string_inj a b : demo_N_string a = demo_N_string b → a = b.
Proof.
  assert (∀ p, demo_pos_string p ≠ "0") as Hne.
  { intros p E. destruct p; simpl in E; [| |done].
    all: apply (append_last_inj _ "") in E as [E _]; destruct p; simpl in E; try done;
      destruct demo_pos_string; done. }
  destruct a as [|p], b as [|q]; intros E; simpl in E; try done; try (by f_equal; apply demo_pos_string_inj).
  - by destruct (Hne q).
  - by destruct (Hne p).
Qed.

Lemma demo_N_string_bits n c : c ≠ "0"%char → c ≠ "1"%char → str_contains c (demo_N_string n) = false.
Proof.
  intros H0 H1. destruct n as [|p]; simpl; [|by apply demo_pos_string_bits].
  rewrite bool_decide_eq_false_2 by done. done.
Qed.

(** Reading the texts above back. *)
Fixpoint parse_bits (s : string) (p : positive) : option positive :=
  match s with
  | "" => Some p
  | String c s => if decide (c = "0"%char) then parse_bits s (p~0)
                  else if decide (c = "1"%char) then parse_bits s (p~1) else None
  end.

Lemma parse_bits_app s t p : parse_bits (s +:+ t) p = (q ← parse_bits s p; parse_bits t q).
Proof.
  revert p. induction s as [|c s IH]; intros p; [done|]. rewrite append_cons. simpl.
  repeat case_decide; [apply IH..|done].
Qed.

Lemma parse_bits_pos p : ∃ s, demo_pos_string p = String "1" s ∧ parse_bits s 1 = Some p.
Proof.
  induction p as [p (s & E & IH)|p (s & E & IH)|]; simpl.
  - exists (s +:+ "1"). rewrite E. split; [done|]. rewrite parse_bits_app, IH. done.
  - exists (s +:+ "0"). rewrite E. split; [done|]. rewrite parse_bits_app, IH. done.
  - by exists "".
Qed.

(** Any countable data as a text of bits. *)
Definition demo_print {A} `{Countable A} (a : A) : string := demo_pos_string (encode a).

Definition demo_read {A} `{Countable A} (s : string) : option A :=
  match s with
  | String "1" s => p ← parse_bits s 1; decode p
  | _ => None
  end.

Lemma demo_read_print {A} `{Countable A} (a : A) : demo_read (demo_print a) = Some a.
Proof.
  unfold demo_read, demo_print. destruct (parse_bits_pos (encode a)) as (s & -> & E). rewrite E. simpl.
  apply decode_encode.
Qed.

#[global] Instance demo_uuid_laws : UuidLaws demo_api.
Proof. split; [exact demo_N_string_inj|]. intros u. by apply demo_N_string_bits. Qed.

#[global] Instance demo_id_hex_laws : IdHexLaws demo_api.
Proof. split; [intros a b _ _; apply demo_N_string_inj|]. intros a. by apply demo_N_string_bits. Qed.

(** UUID bytes, least significant first. *)
#[global] Instance demo_uuid_bytes : UuidBytes := {|
  uuid_as_bytes := le_bytes 16;
  uuid_from_bytes := λ b, (le_value b `mod` 2 ^ 128)%N |}.

#[global] Instance demo_uuid_bytes_laws : UuidBytesLaws demo_uuid_bytes.
Proof.
  split; cbn [uuid_as_bytes uuid_from_bytes demo_uuid_bytes].
  - done.
  - intros u Hu. rewrite le_value_bytes. change (256 ^ N.of_nat 16)%N with (2 ^ 128)%N.
    rewrite N.Div0.mod_mod. by apply N.mod_small.
  - intros b Hb. pose proof (le_value_bound b) as Hv. rewrite Hb in Hv.
    change (256 ^ N.of_nat 16)%N with (2 ^ 128)%N in Hv. rewrite N.mod_small by done.
    rewrite <-Hb. apply le_bytes_value.
  - intros b. by apply N.mod_lt.
Qed.

(** ** Hexadecimal identifiers *)

Definition nibble (n : N) : ascii := ascii_of_N (if (n <? 10)%N then 48 + n else 87 + n).

(** [k] digits, the least significant one first. *)
Fixpoint hex_digits (k : nat) (n : N) : string :=
  match k with 0 => "" | S k => String (nibble (n `mod` 16)) (hex_digits k (n / 16)) end.

Lemma small_nibble n : (n < 16)%N → n ∈ [0; 1; 2; 3; 4; 5; 6; 7; 8; 9; 10; 11; 12; 13; 14; 15]%N.
Proof.
  intros Hn. apply list_elem_of_lookup. exists (N.to_nat n).
  destruct n as [|p]; [done|]. do 4 (destruct p as [p|p|]; try done); lia.
Qed.

(** A property of the sixteen digits is a property of every digit. *)
Lemma nibble_all (P : ascii → bool) n :
  forallb P (nibble <$> [0; 1; 2; 3; 4; 5; 6; 7; 8; 9; 10; 11; 12; 13; 14; 15]%N) = true →
  (n < 16)%N → P (nibble n) = true.
Proof.
  intros Hall Hn%small_nibble. rewrite forallb_elem_of in Hall. apply Hall, list_elem_of_fmap. by exists n.
Qed.

Lemma hex_digits_length k n : String.length (hex_digits k n) = k.
Proof. revert n. induction k as [|k IH]; intros n; simpl; [done|]. by rewrite IH. Qed.

Lemma hex_digits_all (P : ascii → bool) k n :
  forallb P (nibble <$> [0; 1; 2; 3; 4; 5; 6; 7; 8; 9; 10; 11; 12; 13; 14; 15]%N) = true →
  str_all P (hex_digits k n) = true.
Proof.
  intros Hall. revert n. induction k as [|k IH]; intros n; [done|]. cbn [hex_digits str_all].
  rewrite IH, (nibble_all P); [done|done|by apply N.mod_lt].
Qed.

Lemma nibble_inj a b : (a < 16)%N → (b < 16)%N → nibble a = nibble b → a = b.
Proof.
  intros Ha Hb E. pose proof (f_equal ascii_code E) as E'.
  assert (∀ n, (n < 16)%N → ascii_code (nibble n) = if (n <? 10)%N then 48 + n else 87 + n)%N as H.
  { intros n Hn%small_nibble. repeat (apply elem_of_cons in Hn as [->|Hn]; [done|]). by apply not_elem_of_nil in Hn. }
  rewrite !H in E' by done. destruct (N.ltb_spec a 10), (N.ltb_spec b 10); lia.
Qed.

Lemma hex_digits_inj k a b :
  (a < 16 ^ N.of_nat k)%N → (b < 16 ^ N.of_nat k)%N → hex_digits k a = hex_digits k b → a = b.
Proof.
  revert a b. induction k as [|k IH]; intros a b Ha Hb E; [simpl in *; lia|].
  rewrite Nat2N.inj_succ, N.pow_succ_r' in Ha, Hb. cbn [hex_digits] in E. injection E as E1 E2.
  apply nibble_inj in E1; [|by apply N.mod_lt..].
  apply IH in E2; [|apply N.Div0.div_lt_upper_bound; lia..].
  rewrite (N.div_mod a 16), (N.div_mod b 16) by done. by rewrite E1, E2.
Qed.

(** [demo_api] with identifiers of 64 digits. *)
Definition hex_api : NostrApi := {|
  tag_kind := demo_tag_kind;
  tag_content := λ t, t !! 1;
  tag_is_letter := λ l t, bool_decide (demo_tag_kind t = demo_slt_to_string l);
  slt_to_string := demo_slt_to_string;
  id_to_hex := hex_digits 64;
  uuid_to_string := demo_N_string
|}.

Lemma hex_api_laws : NostrLaws hex_api.
Proof. split; [reflexivity|]. intros t. reflexivity. Qed.

Lemma hex_api_uuid_laws : UuidLaws hex_api.
Proof. split; [exact demo_N_string_inj|]. intros u. by apply demo_N_string_bits. Qed.

Lemma hex_api_id_laws : IdHexLaws hex_api.
Proof.
  split; cbn [id_to_hex hex_api].
  - intros a b Ha Hb. by apply hex_digits_inj.
  - intros a. by apply (str_all_contains is_ascii_hexdigit); [apply hex_digits_all|].
Qed.
