(* ===== verification/CanonicalJson.v ===== *)
(** * JSON values and their canonical text ([buzz-audit/src/hash.rs], [canonical_json])

    A [serde_json::Value] is a tree whose objects are lists of bindings in the
    order the map iterates them.  Numbers are [serde_json]'s own type and scalars
    and keys are printed by [serde_json::to_string]: both are parameters.  Two
    values are the same JSON when they differ only in the order of bindings
    ([json_equiv]); the canonical text does not see that order. *)

From stdpp Require Import base strings list sorting.
From Stdlib Require Import Ascii.
From S2P Require Import Prelude.

Section values.
Context (num : Type).

Inductive Json :=
| JNull
| JBool (b : bool)
| JNumber (n : num)
| JString (s : string)
| JArray (l : list Json)
| JObject (m : list (string * Json)).

End values.
Arguments JNull {num}.
Arguments JBool {num} b.
Arguments JNumber {num} n.
Arguments JString {num} s.
Arguments JArray {num} l.
Arguments JObject {num} m.

(** [Value::get] of an object. *)
Definition json_field {num} (v : Json num) (field : string) : option (Json num) :=
  match v with
  | JObject m => snd <$> head (List.filter (λ e, bool_decide (e.1 = field)) m)
  | _ => None
  end.

(** [serde_json::to_string] on scalars and on keys, which can fail. *)
Class SerdeJson (num : Type) := {
  serde_scalar : Json num → result string string;
  serde_key : string → result string string
}.

(** ** [BTreeMap] as a sorted list of bindings *)

Definition str_ltb (a b : string) : bool := negb (str_leb b a).

Fixpoint btree_insert {A} (k : string) (v : A) (m : list (string * A)) : list (string * A) :=
  match m with
  | [] => [(k, v)]
  | (k', v') :: m' =>
      if str_ltb k k' then (k, v) :: m
      else if decide (k = k') then (k, v) :: m'
      else (k', v') :: btree_insert k v m'
  end.

Definition btree_collect {A} (l : list (string * A)) : list (string * A) :=
  foldl (λ m e, btree_insert e.1 e.2 m) [] l.

(** ** [canonical_json] *)

Section canonical.
Context {num : Type} `{SerdeJson num}.

Definition comma (first : bool) : string := if first then "" else ",".

(** The loop over the sorted bindings, whose values are already printed. *)
Fixpoint object_loop (first : bool) (out : string) (l : list (string * result string string)) :
    result string string :=
  match l with
  | [] => Ok (out +:+ "}")
  | (k, v) :: l =>
      let? ks := serde_key k in
      let? vs := v in
      object_loop false (out +:+ comma first +:+ ks +:+ ":" +:+ vs) l
  end.

Fixpoint array_loop (first : bool) (out : string) (l : list (result string string)) :
    result string string :=
  match l with
  | [] => Ok (out +:+ "]")
  | v :: l => let? vs := v in array_loop false (out +:+ comma first +:+ vs) l
  end.

Fixpoint canonical_json (value : Json num) : result string string :=
  match value with
  | JObject m => object_loop true "{" (btree_collect (map (λ e, (e.1, canonical_json e.2)) m))
  | JArray l => array_loop true "[" (map canonical_json l)
  | other => serde_scalar other
  end.

End canonical.

(** ** Induction over nested values *)

Section induction.
Context {num : Type} (P : Json num → Prop).
Context (Hnull : P JNull) (Hbool : ∀ b, P (JBool b)) (Hnum : ∀ n, P (JNumber n)).
Context (Hstr : ∀ s, P (JString s)) (Harr : ∀ l, Forall P l → P (JArray l)).
Context (Hobj : ∀ m, Forall (λ e, P e.2) m → P (JObject m)).

Fixpoint json_ind' (v : Json num) : P v :=
  match v with
  | JNull => Hnull
  | JBool b => Hbool b
  | JNumber n => Hnum n
  | JString s => Hstr s
  | JArray l =>
      Harr l ((fix go l : Forall P l :=
                 match l with [] => Forall_nil_2 _ | x :: l => Forall_cons_2 _ _ _ (json_ind' x) (go l) end) l)
  | JObject m =>
      Hobj m ((fix go m : Forall (λ e, P e.2) m :=
                 match m with
                 | [] => Forall_nil_2 _
                 | e :: m => Forall_cons_2 _ _ _ (json_ind' e.2) (go m)
                 end) m)
  end.

End induction.

(** ** The same JSON *)

Section equivalence.
Context {num : Type}.

(** Objects have one binding per key. *)
Inductive json_equiv : Json num → Json num → Prop :=
| je_scalar v : (∀ l, v ≠ JArray l) → (∀ m, v ≠ JObject m) → json_equiv v v
| je_array l l' : Forall2 json_equiv l l' → json_equiv (JArray l) (JArray l')
| je_object m m1 m' :
    m.*1 = m1.*1 → Forall2 (λ e e', json_equiv e.2 e'.2) m m1 → m1 ≡ₚ m' → NoDup m'.*1 →
    json_equiv (JObject m) (JObject m').

End equivalence.

(** ** Lemmas *)

Section lemmas.
Context {A : Type}.
Implicit Types m : list (string * A).

Abbreviation key_sorted := (StronglySorted (λ a b : string * A, str_leb a.1 b.1 = true)) (only parsing).

Lemma btree_insert_fresh k v m :
  k ∉ m.*1 → btree_insert k v m ≡ₚ (k, v) :: m.
Proof.
  induction m as [|[k' v'] m IH]; simpl; [done|]. intros [Hk Hm]%not_elem_of_cons.
  destruct (str_ltb k k'); [done|]. rewrite decide_False by done. rewrite IH by done. apply perm_swap.
Qed.

Lemma btree_insert_sorted k v m :
  k ∉ m.*1 → key_sorted m → key_sorted (btree_insert k v m).
Proof.
  induction m as [|[k' v'] m IH]; simpl; intros Hk Hs; [by repeat constructor|].
  apply not_elem_of_cons in Hk as [Hk Hm]. apply StronglySorted_inv in Hs as [Hs Hall].
  unfold str_ltb. destruct (str_leb k' k) eqn:E; simpl.
  - rewrite decide_False by done. constructor; [by apply IH|]. rewrite btree_insert_fresh by done. by constructor.
  - apply str_leb_total in E. constructor; [by constructor|]. constructor; [done|].
    eapply Forall_impl; [exact Hall|]. intros [k2 v2] ?. simpl in *. by eapply str_leb_trans.
Qed.

Lemma btree_collect_spec l m :
  NoDup (l.*1 ++ m.*1) → key_sorted m →
  let r := foldl (λ m e, btree_insert e.1 e.2 m) m l in r ≡ₚ l ++ m ∧ key_sorted r.
Proof.
  revert m. induction l as [|[k v] l IH]; intros m Hnd Hs; simpl; [done|].
  simpl in Hnd. apply NoDup_cons in Hnd as [Hk Hnd]. apply not_elem_of_app in Hk as [Hkl Hkm].
  destruct (IH (btree_insert k v m)) as [Hp Hs'].
  - rewrite (btree_insert_fresh k v m) by done. simpl. apply NoDup_app in Hnd as (Hl & Hd & Hm).
    apply NoDup_app. split; [done|]. split; [|by constructor].
    intros x Hx [->|?]%elem_of_cons; [done|]. by eapply Hd.
  - by apply btree_insert_sorted.
  - split; [|done]. rewrite Hp, btree_insert_fresh by done. symmetry. apply Permutation_middle.
Qed.

Lemma btree_collect_perm (l l' : list (string * A)) :
  NoDup l.*1 → l ≡ₚ l' → btree_collect l = btree_collect l'.
Proof.
  intros Hnd Hp. assert (NoDup l'.*1) as Hnd' by (by rewrite <-Hp).
  destruct (btree_collect_spec l []) as [H1 S1]; [by rewrite app_nil_r|constructor|].
  destruct (btree_collect_spec l' []) as [H2 S2]; [by rewrite app_nil_r|constructor|].
  rewrite app_nil_r in H1, H2.
  apply (sorted_perm_unique _ _ _ S1 S2); [by rewrite H1, H2|].
  intros [k v] [k' v']. simpl. rewrite !H1. intros Hin Hin' ? ?.
  assert (k = k') as <- by (by apply str_leb_antisym).
  apply list_elem_of_lookup in Hin as [i Hi]. apply list_elem_of_lookup in Hin' as [j Hj].
  assert (i = j) as <-; [|congruence].
  eapply NoDup_lookup; [exact Hnd| |]; rewrite list_lookup_fmap; [by rewrite Hi|by rewrite Hj].
Qed.

End lemmas.

Section canonical_lemmas.
Context {num : Type} `{SerdeJson num}.

(** The canonical text depends only on the JSON value, not on the order in which
    the map iterates its bindings. *)
Lemma canonical_json_equiv v v' : json_equiv v v' → canonical_json v = canonical_json v'.
Proof.
  revert v'. induction v as [|b|n|t|l IH|m IH] using json_ind'; intros v' Hv; try by inversion Hv.
  - inversion Hv as [? Hna _|? l' Hf|]; subst; [by destruct (Hna l)|]. simpl. f_equal. clear Hv.
    induction Hf as [|x y l l' Hxy _ IHl]; simpl; [done|].
    apply Forall_cons in IH as [Hx IH]. by rewrite (Hx _ Hxy), IHl.
  - inversion Hv as [? _ Hno| |? m1 m' Hk Hf Hp Hnd]; subst; [by destruct (Hno m)|]. simpl. f_equal.
    assert (map (λ e, (e.1, canonical_json e.2)) m = map (λ e, (e.1, canonical_json e.2)) m1) as ->.
    { clear -IH Hk Hf. induction Hf as [|[k x] [k' y] m m1 Hxy _ IHm]; simpl; [done|].
      apply Forall_cons in IH as [Hx IH]. simpl in Hk. injection Hk as -> Hk. simpl in *.
      by rewrite (Hx _ Hxy), IHm. }
    assert (NoDup m1.*1) as Hnd1 by (by rewrite Hp). apply btree_collect_perm; [|by rewrite Hp].
    clear -Hnd1. by rewrite <-list_fmap_compose.
Qed.

#[global] Instance canonical_json_proper : Proper (json_equiv ==> eq) (@canonical_json num _).
Proof. intros v v'. apply canonical_json_equiv. Qed.

End canonical_lemmas.
