(* ===== verification/Tenant.v ===== *)
(** * Tenants: from a host to a community

    [buzz-core/src/tenant.rs], [buzz-relay/src/tenant.rs] and the expected URLs of
    [buzz-relay/src/api/bridge.rs].  A request belongs to the community its host
    resolves to; the relay's own URL goes through the same normalisation.  The
    [url] crate is the class [UrlApi], the host table an argument. *)

From stdpp Require Import base gmap strings list.
From Stdlib Require Import Ascii.
From Stdlib.Strings Require Import Byte.
From S2P Require Import Prelude Text Nostr.

Record TenantContext := mkTenant { community : CommunityId; host : string }.

(** ** [normalize_host] *)

Definition strip_default_port (h : string) : string :=
  match strip_suffix ":443" h with
  | Some s => s
  | None => default h (strip_suffix ":80" h)
  end.

Definition normalize_host (h : string) : string :=
  let h := to_ascii_lowercase (trim h) in
  let h := strip_default_port h in
  default h (strip_suffix "." h).

(** ** The [url] crate *)

(** [url::Host], with the text of an address. *)
Inductive Host := Domain (d : string) | Ipv4 (a : string) | Ipv6 (a : string).

#[global] Instance host_eq_dec : EqDecision Host.
Proof. solve_decision. Defined.

Definition host_text (h : Host) : string :=
  match h with Domain d => d | Ipv4 a => a | Ipv6 a => "[" +:+ a +:+ "]" end.

(** [url_port] is [None] for the default port of the scheme; a failing [set_host]
    leaves the URL as it is. *)
Class UrlApi := {
  Url : Type;
  url_parse : string → option Url;
  url_host : Url → option Host;
  url_host_str : Url → option string;
  url_port : Url → option N;
  url_path : Url → string;
  url_set_path : Url → string → Url;
  url_set_host : Url → string → Url;
  url_to_string : Url → string
}.

(** A host name no parser rewrites: labels of lower-case letters, digits and single
    inner hyphens that start with a letter. *)
Definition is_ascii_lowercase (c : ascii) : bool :=
  ((97 <=? ascii_code c) && (ascii_code c <=? 122))%N.

Definition is_label_char (c : ascii) : bool :=
  is_ascii_lowercase c || is_ascii_digit c || bool_decide (c = "-"%char).

Definition plain_label (l : string) : bool :=
  match l with
  | EmptyString => false
  | String c _ => is_ascii_lowercase c && str_all is_label_char l
                  && negb (contains_str "--" l) && negb (ends_with "-" l)
  end.

Definition plain_domain (d : string) : bool := forallb plain_label (split_on "." d).

(** A domain with an optional port that is the default of no scheme. *)
Definition plain_port (p : option N) : Prop :=
  match p with None => True | Some p => (p < 65536)%N ∧ p ≠ 80%N ∧ p ≠ 443%N end.

Definition authority_text (d : string) (p : option N) : string :=
  match p with None => d | Some p => d +:+ ":" +:+ num_to_string p end.

Definition http_path (p : string) : Prop := p = "" ∨ starts_with "/" p = true.

(** The documented behaviour the relay relies on: the bracketed text of IPv6 hosts,
    the accessors after a setter, that the text of a URL determines its host and
    port, and what plain authorities parse to. *)
Class UrlLaws (api : UrlApi) := {
  url_host_str_text : ∀ u, url_host_str u = host_text <$> url_host u;
  url_set_path_host : ∀ u p, url_host (url_set_path u p) = url_host u ∧
                             url_port (url_set_path u p) = url_port u;
  url_set_loopback : ∀ u h, url_host u = Some h →
    url_host (url_set_host u "127.0.0.1") = Some (Ipv4 "127.0.0.1") ∧
    url_port (url_set_host u "127.0.0.1") = url_port u;
  url_to_string_host : ∀ u v, url_to_string u = url_to_string v →
    url_host u = url_host v ∧ url_port u = url_port v;
  url_parse_plain : ∀ s d p path, s ∈ ["http"; "https"; "ws"; "wss"] →
    plain_domain d = true → plain_port p → http_path path →
    ∃ u, url_parse (s +:+ "://" +:+ authority_text d p +:+ path) = Some u ∧
         url_host u = Some (Domain d) ∧ url_port u = p
}.

(** ** [relay_url_authority] *)

Section authority.
Context `{UrlApi}.

Definition relay_url_authority (relay_url : string) : string :=
  match url_parse relay_url with
  | None => ""
  | Some url =>
      match url_host url with
      | None => ""
      | Some h =>
          normalize_host (match url_port url with
                          | Some port => host_text h +:+ ":" +:+ num_to_string port
                          | None => host_text h
                          end)
      end
  end.

(** ** Binding a request to a community *)

Inductive BindError (E : Type) := UnmappedHost | Lookup (e : E).
Arguments UnmappedHost {E}.
Arguments Lookup {E} e.

(** [resolver] is [HostResolver::resolve_host]: [Db::lookup_community_by_host]. *)
Definition bind_community {E} (resolver : string → result E (option CommunityId)) (raw_host : string) :
    result (BindError E) TenantContext :=
  let host := normalize_host raw_host in
  if decide (host = "") then Err UnmappedHost
  else match resolver host with
       | Ok (Some c) => Ok (mkTenant c host)
       | Ok None => Err UnmappedHost
       | Err e => Err (Lookup e)
       end.

Definition bind_deployment_community {E} (resolver : string → result E (option CommunityId))
    (relay_url : string) : result (BindError E) TenantContext :=
  bind_community resolver (relay_url_authority relay_url).

(** ** The URLs a signed request must name *)

Definition nip98_expected_url (config_relay_url : string) (tenant : TenantContext) (path : string) : string :=
  let scheme := if starts_with "wss://" (trim_start_str config_relay_url) then "https" else "http" in
  scheme +:+ "://" +:+ host tenant +:+ path.

Definition nip42_expected_relay_url (config_relay_url : string) (tenant : TenantContext) : string :=
  let scheme := if starts_with "wss://" (trim_start_str config_relay_url) then "wss" else "ws" in
  scheme +:+ "://" +:+ host tenant.

End authority.
Arguments UnmappedHost {E}.
Arguments Lookup {E} e.

(** ** Lemmas on text *)

Lemma split_on_app_gen c p s : split_on c (p +:+ String c s) = split_on c p ++ split_on c s.
Proof.
  induction p as [|a p IH]; simpl; [by rewrite decide_True|].
  change (String.append p (String c s)) with (p +:+ String c s). case_decide; [by rewrite IH|].
  rewrite IH. destruct (split_on_cons c p) as (q & qs & ->). done.
Qed.

Lemma last_split_on_app c p s : str_contains c s = false → last (split_on c (p +:+ String c s)) = Some s.
Proof. intros Hs. rewrite split_on_app_gen, (split_on_no_sep c s) by done. by rewrite last_snoc. Qed.

Lemma lower_app s t : to_ascii_lowercase (s +:+ t) = to_ascii_lowercase s +:+ to_ascii_lowercase t.
Proof. induction s as [|c s IH]; [done|]. rewrite append_cons. simpl. by rewrite IH. Qed.

Lemma bytes_of_str_app s t : bytes_of_str (s +:+ t) = bytes_of_str s ++ bytes_of_str t.
Proof.
  unfold String.list_byte_of_string. induction s as [|c s IH]; [done|]. rewrite append_cons. simpl. f_equal. exact IH.
Qed.

(** *** Trimming ASCII white space *)

Definition ascii_space (s : string) : Prop := Forall (λ b, is_ascii_ws b = true) (bytes_of_str s).

Lemma trim_start_ws l l' : Forall (λ b, is_ascii_ws b = true) l → trim_start (l ++ l') = trim_start l'.
Proof. induction 1 as [|b l Hb _ IH]; [done|]. simpl. by rewrite Hb. Qed.

Lemma trim_start_rev_ws l l' : Forall (λ b, is_ascii_ws b = true) l → trim_start_rev (l ++ l') = trim_start_rev l'.
Proof. induction 1 as [|b l Hb _ IH]; [done|]. simpl. by rewrite Hb. Qed.

Definition is_graphic_str (s : string) : Prop := Forall (λ b, is_graphic b = true) (bytes_of_str s).

Lemma graphic_low a : is_graphic a = true → (Byte.to_N a ≤ 126)%N.
Proof. by intros []%in_range_iff. Qed.

Lemma trim_start_graphic_head l l' :
  Forall (λ b, is_graphic b = true) l → l ≠ [] → trim_start (l ++ l') = l ++ l'.
Proof.
  intros Hl Hn. destruct l as [|a l]; [done|]. inversion_clear Hl as [|?? Ha Hl']. simpl.
  rewrite (graphic_not_ws a) by done. destruct (l ++ l') as [|b r]; [done|].
  rewrite (graphic_not_ws2 a) by done. destruct r; [done|]. by rewrite (graphic_not_ws3 a).
Qed.

Lemma trim_start_all_ws l : Forall (λ b, is_ascii_ws b = true) l → trim_start l = [].
Proof. intros Hl. rewrite <-(app_nil_r l). by rewrite trim_start_ws. Qed.

Lemma trim_space ws1 s ws2 :
  ascii_space ws1 → is_graphic_str s → ascii_space ws2 → s ≠ "" → trim (ws1 +:+ s +:+ ws2) = s.
Proof.
  intros H1 Hs H2 Hn. unfold trim. rewrite !bytes_of_str_app, trim_start_ws by done.
  rewrite trim_start_graphic_head; [|done|by destruct s].
  rewrite reverse_app, trim_start_rev_ws by (by apply Forall_reverse).
  rewrite trim_start_rev_graphic by (by apply Forall_reverse). rewrite reverse_involutive.
  apply String.string_of_list_byte_of_string.
Qed.

(** *** Characters of an authority *)

Definition is_authority_char (c : ascii) : bool :=
  is_label_char c || bool_decide (c = "."%char) || bool_decide (c = ":"%char).

Lemma authority_char_graphic c :
  is_authority_char (ascii_lower c) = true → is_graphic (byte_of_ascii c) = true.
Proof. destruct c as [[] [] [] [] [] [] [] []]; vm_compute; done. Qed.

Lemma authority_char_lower c : is_authority_char c = true → ascii_lower c = c.
Proof. destruct c as [[] [] [] [] [] [] [] []]; vm_compute; done. Qed.

Lemma str_all_weaken (f g : ascii → bool) s :
  (∀ c, f c = true → g c = true) → str_all f s = true → str_all g s = true.
Proof. intros Hfg. induction s as [|c s IH]; [done|]. simpl. intros [Hc ?]%andb_true_iff. by rewrite (Hfg c), IH. Qed.

Lemma str_all_lower_graphic s :
  str_all is_authority_char (to_ascii_lowercase s) = true → is_graphic_str s.
Proof.
  unfold is_graphic_str. induction s as [|c s IH]; simpl; [constructor|].
  intros [Hc ?]%andb_true_iff. constructor; [by apply authority_char_graphic|auto].
Qed.

Lemma lower_authority s : str_all is_authority_char s = true → to_ascii_lowercase s = s.
Proof.
  induction s as [|c s IH]; simpl; [done|]. intros [Hc ?]%andb_true_iff.
  by rewrite authority_char_lower, IH.
Qed.

Lemma plain_label_chars l : plain_label l = true → str_all is_label_char l = true ∧ l ≠ "".
Proof. destruct l; [done|]. unfold plain_label. rewrite !andb_true_iff. intuition done. Qed.

Lemma join_chars (f : ascii → bool) c ps :
  f c = true → Forall (λ p, str_all f p = true) ps → str_all f (join_with c ps) = true.
Proof.
  intros Hc. induction 1 as [|p ps Hp Hps IH]; [done|].
  destruct ps as [|q ps]; [done|].
  change (join_with c (p :: q :: ps)) with (p +:+ String c (join_with c (q :: ps))).
  rewrite str_all_app. simpl. by rewrite Hp, Hc.
Qed.

Definition is_domain_char (c : ascii) : bool := is_label_char c || bool_decide (c = "."%char).

Lemma plain_domain_chars d : plain_domain d = true → str_all is_domain_char d = true.
Proof.
  unfold plain_domain. rewrite forallb_elem_of. intros Hd. rewrite <-(join_split "." d).
  apply join_chars; [done|]. apply Forall_forall. intros l Hl.
  destruct (plain_label_chars l) as [Hc _]; [by apply Hd|].
  revert Hc. apply str_all_weaken. intros c. unfold is_domain_char. by intros ->.
Qed.

Lemma domain_no_colon d : plain_domain d = true → str_contains ":" d = false.
Proof. intros Hd%plain_domain_chars. by apply (str_all_contains is_domain_char). Qed.

Lemma domain_nonempty d : plain_domain d = true → d ≠ "".
Proof. intros Hd ->. done. Qed.

Lemma domain_no_dot_end d r : plain_domain d = true → d ≠ r +:+ ".".
Proof.
  unfold plain_domain. rewrite forallb_elem_of. intros Hd ->.
  assert (plain_label "" = true) as Hf; [|done]. apply Hd.
  change (r +:+ ".") with (r +:+ String "." ""). rewrite split_on_app_gen. simpl. set_solver.
Qed.

Lemma digits_not_colon n : str_contains ":" (num_to_string n) = false.
Proof. apply (str_all_contains is_ascii_digit); [apply num_to_string_digits|done]. Qed.

Lemma authority_chars d p :
  plain_domain d = true → str_all is_authority_char (authority_text d p) = true.
Proof.
  intros Hd. assert (str_all is_authority_char d = true) as Hd'.
  { eapply str_all_weaken; [|by apply plain_domain_chars]. intros c.
    unfold is_domain_char, is_authority_char. by intros ->. }
  destruct p as [n|]; simpl; [|done]. rewrite !str_all_app, Hd'. simpl.
  eapply str_all_weaken; [|apply num_to_string_digits]. intros c Hc.
  unfold is_authority_char, is_label_char. rewrite Hc. by destruct (is_ascii_lowercase c).
Qed.

Lemma authority_nonempty d p : plain_domain d = true → authority_text d p ≠ "".
Proof. intros Hd. destruct p, d; done. Qed.

(** The default-port suffixes of a plain authority. *)
Lemma authority_no_port d p n :
  plain_domain d = true → plain_port p → (n = 80 ∨ n = 443)%N → ∀ r,
  authority_text d p ≠ r +:+ ":" +:+ num_to_string n.
Proof.
  intros Hd Hp Hn r E. apply (f_equal (λ s, last (split_on ":" s))) in E.
  change (":" +:+ num_to_string n) with (String ":" (num_to_string n)) in E.
  rewrite last_split_on_app in E by apply digits_not_colon. destruct p as [m|]; cbn [authority_text] in E.
  - change (last (split_on ":" (d +:+ String ":" (num_to_string m))) = Some (num_to_string n)) in E.
    rewrite last_split_on_app in E by apply digits_not_colon. injection E as E.
    destruct Hp as (? & ? & ?). apply num_to_string_inj in E; [lia|..]; unfold u64_max; lia.
  - rewrite split_on_no_sep in E by (by apply domain_no_colon). injection E as E.
    rewrite E in Hd. destruct Hn as [-> | ->]; vm_compute in Hd; done.
Qed.

Lemma last_char_in s t r c : s +:+ t = r +:+ String c "" → t ≠ "" → str_contains c t = true.
Proof.
  revert r. induction s as [|a s IH]; intros r E Ht.
  - change (t = r +:+ String c "") in E. rewrite E, str_contains_app. simpl.
    rewrite bool_decide_eq_true_2 by done. apply orb_true_r.
  - destruct r as [|b r]; rewrite !append_cons in E; injection E as _ E; [by destruct s, t|eauto].
Qed.

Lemma authority_no_dot d p r : plain_domain d = true → authority_text d p ≠ r +:+ ".".
Proof.
  intros Hd. destruct p as [n|]; simpl; [|by apply domain_no_dot_end]. intros E.
  change ((d +:+ ":" +:+ num_to_string n) = r +:+ ".") in E. rewrite <-append_assoc in E.
  apply last_char_in in E; [|apply num_to_string_nonempty].
  rewrite (str_all_contains is_ascii_digit) in E; [done|apply num_to_string_digits|done].
Qed.

(** ** Normal forms *)

(** The spellings of an authority: any ASCII case, surrounding white space, and for
    a bare domain a trailing dot and a default port. *)
Inductive spelling (d : string) (p : option N) : string → Prop :=
| spelled ws1 h dot port ws2 :
    ascii_space ws1 → ascii_space ws2 →
    to_ascii_lowercase h = authority_text d p →
    (p = None ∧ dot ∈ [""; "."] ∧ port ∈ [""; ":80"; ":443"] ∨ dot = "" ∧ port = "") →
    spelling d p (ws1 +:+ (h +:+ dot +:+ port) +:+ ws2).

Section normal.
Context {d : string} {p : option N} (Hd : plain_domain d = true) (Hp : plain_port p).

Definition tail_ok (dot port : string) : Prop :=
  p = None ∧ dot ∈ [""; "."] ∧ port ∈ [""; ":80"; ":443"] ∨ dot = "" ∧ port = "".

Lemma tail_dot dot port : tail_ok dot port → dot = "" ∨ dot = ".".
Proof. intros [(_ & Hin & _)|[-> _]]; [set_solver|by left]. Qed.

Lemma tail_port dot port : tail_ok dot port → port = "" ∨ port = ":80" ∨ port = ":443".
Proof. intros [(_ & _ & Hin)|[_ ->]]; [set_solver|by left]. Qed.

Lemma strip_root_dot dot :
  dot = "" ∨ dot = "." →
  default (authority_text d p +:+ dot) (strip_suffix "." (authority_text d p +:+ dot)) = authority_text d p.
Proof using Hd.
  intros [-> | ->].
  - rewrite str_app_nil, strip_none; [done|]. intros r. by apply authority_no_dot.
  - by rewrite (proj2 (strip_suffix_Some "." _ (authority_text d p))).
Qed.

Lemma strip_port_none dot :
  dot = "" ∨ dot = "." → strip_default_port (authority_text d p +:+ dot) = authority_text d p +:+ dot.
Proof using Hd Hp.
  intros Hdot. assert (∀ n, (n = 80 ∨ n = 443)%N →
    strip_suffix (":" +:+ num_to_string n) (authority_text d p +:+ dot) = None) as Hn.
  { intros n Hn. apply strip_none. intros r. destruct Hdot as [-> | ->].
    - rewrite str_app_nil. by apply authority_no_port.
    - intros E. symmetry in E. rewrite <-append_assoc in E. apply last_char_in in E; [|apply num_to_string_nonempty].
      rewrite (str_all_contains is_ascii_digit) in E; [done|apply num_to_string_digits|done]. }
  unfold strip_default_port.
  by rewrite (Hn 443%N (or_intror eq_refl) : strip_suffix ":443" _ = None),
    (Hn 80%N (or_introl eq_refl) : strip_suffix ":80" _ = None).
Qed.

Lemma strip_port_some a port : port = ":80" ∨ port = ":443" → strip_default_port (a +:+ port) = a.
Proof using.
  unfold strip_default_port. intros [-> | ->]; [|by rewrite (proj2 (strip_suffix_Some ":443" _ a))].
  rewrite strip_none; [by rewrite (proj2 (strip_suffix_Some ":80" _ a))|].
  intros r E. apply (f_equal (λ s, last (split_on ":" s))) in E.
  change (last (split_on ":" (a +:+ String ":" "80")) = last (split_on ":" (r +:+ String ":" "443"))) in E.
  by rewrite !last_split_on_app in E.
Qed.

Lemma normalize_tail dot port :
  tail_ok dot port →
  let h := strip_default_port (authority_text d p +:+ dot +:+ port) in
  default h (strip_suffix "." h) = authority_text d p.
Proof using Hd Hp.
  intros Ht. pose proof (tail_dot _ _ Ht) as Hdot. cbv zeta.
  destruct (tail_port _ _ Ht) as [-> |Hport].
  - by rewrite str_app_nil, strip_port_none, strip_root_dot.
  - by rewrite <-append_assoc, strip_port_some, strip_root_dot.
Qed.

(** Every spelling normalises to the authority. *)
Lemma normalize_spelling raw : spelling d p raw → normalize_host raw = authority_text d p.
Proof using Hd Hp.
  intros [ws1 h dot port ws2 Hw1 Hw2 Hh Ht]. change (tail_ok dot port) in Ht.
  assert (to_ascii_lowercase (h +:+ dot +:+ port) = authority_text d p +:+ dot +:+ port) as El.
  { rewrite !lower_app, Hh. destruct (tail_dot _ _ Ht) as [-> | ->], (tail_port _ _ Ht) as [-> |[-> | ->]]; done. }
  unfold normalize_host. rewrite trim_space; [|done| |done|].
  - rewrite El. by apply normalize_tail.
  - apply str_all_lower_graphic. rewrite El, !str_all_app, authority_chars by done.
    destruct (tail_dot _ _ Ht) as [-> | ->], (tail_port _ _ Ht) as [-> |[-> | ->]]; done.
  - intros E. rewrite E in El. apply (f_equal String.length) in El. rewrite length_append in El.
    pose proof (authority_nonempty d p Hd). by destruct (authority_text d p).
Qed.

Lemma spelling_plain : spelling d p (authority_text d p).
Proof using Hd.
  pose proof (spelled d p "" (authority_text d p) "" "" "") as H.
  rewrite !str_app_nil in H. apply H; [constructor..| |by right].
  by apply lower_authority, authority_chars.
Qed.

End normal.
(** ** Both sides of the fence *)

Section fence.
Context {api : UrlApi} {L : UrlLaws api}.
Context {d : string} {p : option N} (Hd : plain_domain d = true) (Hp : plain_port p).

Lemma relay_url_authority_plain s path :
  s ∈ ["http"; "https"; "ws"; "wss"] → http_path path →
  relay_url_authority (s +:+ "://" +:+ authority_text d p +:+ path) = authority_text d p.
Proof using L Hd Hp.
  intros Hs Hpath. unfold relay_url_authority.
  destruct (url_parse_plain s d p path Hs Hd Hp Hpath) as (u & -> & -> & ->).
  transitivity (normalize_host (authority_text d p)); [by destruct p|].
  apply normalize_spelling; auto using spelling_plain.
Qed.

(** The deployment's own URL and every spelling of its host in a request resolve to
    the same community, or fail in the same way: the community stored under the
    authority, none for an unknown host, an error when the lookup fails. *)
Theorem tenant_seam_agrees {E} (resolver : string → result E (option CommunityId)) s path raw :
  s ∈ ["http"; "https"; "ws"; "wss"] → http_path path → spelling d p raw →
  bind_community resolver raw =
    match resolver (authority_text d p) with
    | Ok (Some c) => Ok (mkTenant c (authority_text d p))
    | Ok None => Err UnmappedHost
    | Err e => Err (Lookup e)
    end ∧
  bind_deployment_community resolver (s +:+ "://" +:+ authority_text d p +:+ path) =
    bind_community resolver raw.
Proof using L Hd Hp.
  intros Hs Hpath Hraw. unfold bind_deployment_community. rewrite relay_url_authority_plain by done.
  unfold bind_community. rewrite (normalize_spelling Hd Hp raw Hraw), (normalize_spelling Hd Hp _ (spelling_plain Hd)).
  by rewrite decide_False by (by apply authority_nonempty).
Qed.

End fence.

(** A bound tenant's host is in normal form and not empty. *)
Lemma bind_community_inv {E} (resolver : string → result E (option CommunityId)) raw t :
  bind_community resolver raw = Ok t →
  host t = normalize_host raw ∧ host t ≠ "" ∧ resolver (host t) = Ok (Some (community t)).
Proof.
  unfold bind_community. case_decide; [done|]. destruct (resolver _) as [[c|]|e] eqn:E'; try done.
  by intros [= <-].
Qed.

Lemma split_authority d p :
  str_contains ":" d = false →
  split_on ":" (authority_text d p) = d :: option_list (num_to_string <$> p).
Proof.
  intros Hd. destruct p as [n|]; cbn [authority_text]; [|by rewrite split_on_no_sep].
  change (":" +:+ num_to_string n) with (String ":" (num_to_string n)).
  by rewrite split_on_app, (split_on_no_sep _ (num_to_string n)) by (done || apply digits_not_colon).
Qed.

(** The authority text determines domain and port. *)
Lemma authority_text_inj d p d' p' :
  plain_domain d = true → plain_domain d' = true → plain_port p → plain_port p' →
  authority_text d p = authority_text d' p' → d = d' ∧ p = p'.
Proof.
  intros Hd Hd' Hp Hp' E. apply domain_no_colon in Hd, Hd'.
  apply (f_equal (split_on ":")) in E.
  rewrite !split_authority in E by done. injection E as -> E. split; [done|].
  destruct p as [n|], p' as [n'|]; try done. injection E as E. f_equal.
  destruct Hp as [? _], Hp' as [? _]. apply num_to_string_inj in E; [done|..]; unfold u64_max; lia.
Qed.

(** ** An instance *)

Module ToyUrl.

Record toy_url := mkToy { t_scheme : string; t_host : option Host; t_port : option N; t_path : string }.

Definition toy_default_port (s : string) : N := if decide (s ∈ ["http"; "ws"]) then 80 else 443.

Definition toy_host (a : string) : Host :=
  match strip_prefix "[" a with
  | Some r => Ipv6 (default r (strip_suffix "]" r))
  | None => if str_all (λ c, is_ascii_digit c || bool_decide (c = "."%char)) a then Ipv4 a else Domain a
  end.

Definition toy_port (s : string) (p : option N) : option N :=
  if decide (p = Some (toy_default_port s)) then None else p.

(** [scheme://host[:port]path]. *)
Definition toy_authority (s a path : string) : option toy_url :=
  match split_on ":" a with
  | [h] => Some (mkToy s (Some (toy_host h)) None path)
  | [h; n] => n ← parse_uint 65535 n; Some (mkToy s (Some (toy_host h)) (toy_port s (Some n)) path)
  | _ => Some (mkToy s (Some (toy_host a)) None path)
  end.

Fixpoint toy_split (s : string) : string * string :=
  match s with
  | EmptyString => ("", "")
  | String "/" _ => ("", s)
  | String c s' => let '(a, p) := toy_split s' in (String c a, p)
  end.

Definition toy_parse (raw : string) : option toy_url :=
  '(s, r) ← split_once ":" raw;
  rest ← strip_prefix "//" r;
  if decide (s ∈ ["http"; "https"; "ws"; "wss"]) then
    let '(a, p) := toy_split rest in toy_authority s a p
  else None.

(** Any injective text serves. *)
Definition toy_text (u : toy_url) : string :=
  demo_N_string (Npos (encode (t_scheme u, (λ h, match h with Domain d => (0%N, d) | Ipv4 a => (1%N, a) | Ipv6 a => (2%N, a) end) <$> t_host u,
                               t_port u, t_path u))).

#[global] Instance toy_url_api : UrlApi := {|
  Url := toy_url;
  url_parse := toy_parse;
  url_host := t_host;
  url_host_str := λ u, host_text <$> t_host u;
  url_port := t_port;
  url_path := t_path;
  url_set_path := λ u p, mkToy (t_scheme u) (t_host u) (t_port u) p;
  url_set_host := λ u h, mkToy (t_scheme u) (Some (toy_host h)) (t_port u) (t_path u);
  url_to_string := toy_text
|}.

Lemma toy_split_app a path :
  str_contains "/" a = false → http_path path → toy_split (a +:+ path) = (a, path).
Proof.
  intros Ha Hp. induction a as [|c a IH].
  - destruct Hp as [-> |Hp]; [done|]. change ("" +:+ path) with path. destruct path as [|c path]; [done|].
    apply starts_with_iff in Hp as [r E]. by injection E as -> ->.
  - simpl in Ha. apply orb_false_iff in Ha as [Hc Ha]. apply bool_decide_eq_false_1 in Hc.
    rewrite append_cons. simpl. change (String.append a path) with (a +:+ path). rewrite (IH Ha).
    by destruct c as [[] [] [] [] [] [] [] []].
Qed.

Lemma toy_host_plain d : plain_domain d = true → toy_host d = Domain d.
Proof.
  intros Hd. assert (∃ c r, d = String c r ∧ is_ascii_lowercase c = true) as (c & r & -> & Hc).
  { unfold plain_domain in Hd. rewrite <-(join_split "." d).
    destruct (split_on_cons "." d) as (l & ls & E). rewrite E in Hd |- *. simpl in Hd.
    apply andb_true_iff in Hd as [Hl _]. destruct l as [|c l]; [done|]. unfold plain_label in Hl.
    rewrite !andb_true_iff in Hl. destruct Hl as [[[Hc _] _] _].
    destruct ls as [|l' ls]; [by exists c, l|].
    exists c. eexists. split; [reflexivity|done]. }
  unfold toy_host. destruct c as [[] [] [] [] [] [] [] []]; vm_compute in Hc; try done; reflexivity.
Qed.

Lemma authority_no_slash d p : plain_domain d = true → str_contains "/" (authority_text d p) = false.
Proof. intros Hd. eapply (str_all_contains is_authority_char); [by apply authority_chars|done]. Qed.

#[global] Instance toy_url_laws : UrlLaws toy_url_api.
Proof.
  split.
  - done.
  - done.
  - done.
  - intros u v E. simpl in E. unfold toy_text, demo_N_string in E.
    apply demo_pos_string_inj, (inj encode) in E. injection E as _ Eh Ep _. split; [|done].
    simpl. destruct (t_host u) as [[]|], (t_host v) as [[]|]; simplify_eq/=; done.
  - intros s d p path Hs Hd Hp Hpath.
    exists (mkToy s (Some (Domain d)) p path). split; [|done].
    change (toy_parse (s +:+ "://" +:+ authority_text d p +:+ path) = Some (mkToy s (Some (Domain d)) p path)).
    assert (toy_parse (s +:+ "://" +:+ authority_text d p +:+ path) =
            let '(a, q) := toy_split (authority_text d p +:+ path) in toy_authority s a q) as ->.
    { repeat (apply elem_of_cons in Hs as [-> |Hs]; [reflexivity|]). by apply elem_of_nil in Hs. }
    rewrite toy_split_app by (done || by apply authority_no_slash).
    unfold toy_authority. rewrite split_authority by (by apply domain_no_colon).
    destruct p as [n|]; simpl; rewrite toy_host_plain by done; [|done].
    destruct Hp as (Hn & H80 & H443). rewrite parse_uint_num by (unfold u64_max; lia). simpl.
    unfold toy_port. rewrite decide_False; [done|]. unfold toy_default_port.
    case_decide; congruence.
Qed.

End ToyUrl.

Module TenantDemo.
Import ToyUrl.

Definition hosts (h : string) : result string (option CommunityId) :=
  Ok (if decide (h = "relay.example") then Some 7%N
      else if decide (h = "localhost:3000") then Some 8%N else None).

Example spellings :
  map normalize_host ["Relay.Example"; "relay.example."; "relay.example:443"; "Relay.Example.:443"; "  relay.example  "]
  = replicate 5 "relay.example".
Proof. reflexivity. Qed.

Example deployment :
  (map relay_url_authority ["ws://localhost:3000"; "wss://relay.example:443"; "ws://[::1]"; "nonsense"])
  = ["localhost:3000"; "relay.example"; "[::1]"; ""].
Proof. vm_compute. reflexivity. Qed.

Example empty_host_unmapped : bind_community hosts "   " = Err UnmappedHost.
Proof. reflexivity. Qed.

Lemma spelled_demo : spelling "relay.example" None " Relay.Example.:443".
Proof.
  apply (spelled "relay.example" None " " "Relay.Example" "." ":443" "").
  - by repeat constructor.
  - constructor.
  - reflexivity.
  - left. split; [done|]. set_solver.
Qed.

Lemma tenant_seam_agrees_witness :
  bind_community hosts " Relay.Example.:443" = Ok (mkTenant 7 "relay.example") ∧
  bind_deployment_community hosts "wss://relay.example/chat" = bind_community hosts " Relay.Example.:443".
Proof.
  apply (tenant_seam_agrees (d := "relay.example") (p := None) eq_refl I hosts "wss" "/chat").
  - set_solver.
  - by right.
  - apply spelled_demo.
Defined.

End TenantDemo.
