(* ===== verification/Redis.v ===== *)
(** * The Redis commands the relay issues

    Redis is a service: what the mesh components use of it is the interface
    [RedisApi] with the documented behaviour of the commands as [RedisLaws].
    Scripts run atomically, so a Lua script of the relay is a function on the
    key space ([SessionDirectory]).  A call over the network can fail before or
    after it took effect ([outcome] of [Prelude]).  The instance [toy_redis] is a finite map
    of strings with a flag for keys that have an expiry. *)

From stdpp Require Import base gmap strings list.
From Stdlib Require Import Ascii.
From S2P Require Import Prelude Nostr.

Class RedisApi := {
  redis : Type;
  redis_get : redis → string → option string;
  redis_set_px : redis → string → string → Z → redis;
  redis_incr : redis → string → result string (N * redis);
  redis_pexpire : redis → string → Z → redis;
  redis_del : redis → string → redis;
  (* the key has no expiry set (it may be absent) *)
  redis_persistent : redis → string → Prop;
  (* time passes: keys with an expiry may disappear *)
  redis_elapse : redis → redis → Prop;
  (* [tostring] of a number in the scripting engine *)
  lua_tostring : N → string
}.

(** The largest value [INCR] reaches, and the bound below which the scripting
    engine prints an integer with all its digits ([%.14g]). *)
Definition incr_max : N := 9223372036854775807.
Definition lua_exact : N := 100000000000000.

(** The number a counter key holds: a missing key counts as zero. *)
Definition counter_is (v : option string) (n : N) : Prop :=
  match v with
  | None => n = 0%N
  | Some s => s = num_to_string n
  end.

Class RedisLaws (api : RedisApi) := {
  redis_get_set : ∀ r k v ttl k', (0 < ttl)%Z →
    redis_get (redis_set_px r k v ttl) k' = if decide (k' = k) then Some v else redis_get r k';
  redis_get_incr : ∀ r k n, counter_is (redis_get r k) n → (n < incr_max)%N →
    ∃ r', redis_incr r k = Ok ((n + 1)%N, r') ∧
          (∀ k', redis_get r' k' =
             if decide (k' = k) then Some (num_to_string (n + 1)) else redis_get r k') ∧
          (∀ k', redis_persistent r k' → redis_persistent r' k');
  redis_get_pexpire : ∀ r k ttl k', (0 < ttl)%Z →
    redis_get (redis_pexpire r k ttl) k' = redis_get r k';
  redis_get_del : ∀ r k k',
    redis_get (redis_del r k) k' = if decide (k' = k) then None else redis_get r k';
  redis_persistent_set : ∀ r k v ttl k',
    k' ≠ k → redis_persistent r k' → redis_persistent (redis_set_px r k v ttl) k';
  redis_persistent_pexpire : ∀ r k ttl k',
    k' ≠ k → redis_persistent r k' → redis_persistent (redis_pexpire r k ttl) k';
  redis_persistent_del : ∀ r k k',
    redis_persistent r k' → redis_persistent (redis_del r k) k';
  redis_elapse_get : ∀ r r' k,
    redis_elapse r r' → redis_get r' k = redis_get r k ∨ redis_get r' k = None;
  redis_elapse_persistent : ∀ r r' k, redis_elapse r r' → redis_persistent r k →
    redis_get r' k = redis_get r k ∧ redis_persistent r' k;
  lua_tostring_exact : ∀ n, (n < lua_exact)%N → lua_tostring n = num_to_string n
}.

(** ** An instance *)

Module ToyRedis.

Abbreviation store := (gmap string (string * bool)) (only parsing).

Definition get (r : store) (k : string) : option string := fst <$> r !! k.

Definition incr (r : store) (k : string) : result string (N * store) :=
  let cur := match r !! k with
             | None => Some (0%N, false)
             | Some (s, vol) => n ← parse_uint incr_max s; Some (n, vol)
             end in
  match cur with
  | Some (n, vol) =>
      if (n <? incr_max)%N then Ok ((n + 1)%N, <[k := (num_to_string (n + 1), vol)]> r)
      else Err "ERR increment or decrement would overflow"
  | None => Err "ERR value is not an integer or out of range"
  end.

Definition pexpire (r : store) (k : string) : store :=
  match r !! k with Some (v, _) => <[k := (v, true)]> r | None => r end.

Definition persistent (r : store) (k : string) : Prop :=
  match r !! k with Some (_, vol) => vol = false | None => True end.

Definition elapse (r r' : store) : Prop :=
  ∀ k, r' !! k = r !! k ∨ (∃ v, r !! k = Some (v, true)) ∧ r' !! k = None.

#[global] Instance toy_redis : RedisApi := {|
  redis := store;
  redis_get := get;
  redis_set_px := λ r k v ttl, <[k := (v, true)]> r;
  redis_incr := incr;
  redis_pexpire := λ r k ttl, pexpire r k;
  redis_del := λ r k, delete k r;
  redis_persistent := persistent;
  redis_elapse := elapse;
  lua_tostring := num_to_string
|}.

Lemma counter_parse s n :
  (n < incr_max)%N → s = num_to_string n → parse_uint incr_max s = Some n.
Proof.
  intros Hn ->. apply parse_uint_num; [lia|]. etransitivity; [exact Hn|]. done.
Qed.

Lemma incr_ok r k n :
  counter_is (get r k) n → (n < incr_max)%N →
  ∃ vol, incr r k = Ok ((n + 1)%N, <[k := (num_to_string (n + 1), vol)]> r) ∧
         (persistent r k → vol = false).
Proof.
  unfold get, incr, counter_is, persistent. intros Hc Hn.
  destruct (r !! k) as [[s vol]|] eqn:E; simpl in Hc; cbv beta iota zeta.
  - rewrite (counter_parse s n) by done. cbv beta iota delta [mbind option_bind]. rewrite (proj2 (N.ltb_lt _ _)) by done. eauto.
  - subst n. cbv beta iota. exists false. done.
Qed.

#[global] Instance toy_redis_laws : RedisLaws toy_redis.
Proof.
  split; simpl; unfold get, persistent, pexpire, elapse.
  - intros r k v ttl k' _. rewrite lookup_insert. repeat case_decide; congruence || done.
  - intros r k n Hc Hn. destruct (incr_ok r k n Hc Hn) as (vol & -> & Hvol).
    eexists. split; [done|]. split; intros k'.
    + rewrite lookup_insert. repeat case_decide; congruence || done.
    + intros Hp. destruct (decide (k' = k)) as [->|]; [rewrite lookup_insert_eq|by rewrite lookup_insert_ne].
      by apply Hvol.
  - intros r k ttl k' _. destruct (r !! k) as [[v vol]|] eqn:E; [|done].
    destruct (decide (k' = k)) as [->|]; [by rewrite lookup_insert_eq, E|by rewrite lookup_insert_ne].
  - intros r k k'. rewrite lookup_delete. repeat case_decide; congruence || done.
  - intros r k v ttl k' Hne. by rewrite lookup_insert_ne.
  - intros r k ttl k' Hne. destruct (r !! k) as [[v vol]|]; [by rewrite lookup_insert_ne|done].
  - intros r k k'. rewrite lookup_delete. by case_decide.
  - intros r r' k He. destruct (He k) as [->|[_ ->]]; auto.
  - intros r r' k He Hp. destruct (He k) as [->|[[v E] _]]; [done|]. by rewrite E in Hp.
  - done.
Qed.

End ToyRedis.
