(* ===== verification/RedisClock.v ===== *)
(** * Redis commands with a clock

    What the replay guard and the rate limiter use of Redis: keys with an expiry
    time, on the server's clock in milliseconds.  [look] is the content a command at
    that time sees.  A command or a Lua script runs at one time; the reply or the
    whole call can be lost ([outcome] of [Prelude]).  Between commands of one client
    any others run. *)

From stdpp Require Import base gmap strings list.
From Stdlib Require Import Ascii.
From S2P Require Import Prelude Nostr Redis.

Class ClockApi := {
  credis : Type;
  (* the value and the expiry of a key a command at this time sees *)
  look : credis → Z → string → option (string * option Z);
  (* SET key value NX EX secs: the reply and the new state *)
  set_nx_ex : credis → Z → string → string → Z → option string * credis;
  cincr : credis → Z → string → result string N * credis;
  cexpire : credis → Z → string → Z → credis;
  cttl : credis → Z → string → Z
}.

(** What is visible of an entry later: it stays until its expiry and is gone after
    it; at the expiry itself either. *)
Definition later (now' : Z) (e e' : option (string * option Z)) : Prop :=
  e' = e ∧ (∀ v t, e = Some (v, Some t) → now' ≤ t)%Z ∨
  e' = None ∧ ∃ v t, e = Some (v, Some t) ∧ (t ≤ now')%Z.

Class ClockLaws (api : ClockApi) := {
  look_later : ∀ r now now' k, (now ≤ now')%Z →
    later now' (look r now k) (look r now' k);
  (* what is seen has not expired *)
  look_alive : ∀ r now k v t, look r now k = Some (v, Some t) → (now ≤ t)%Z;
  (* a key that is not seen is not seen later *)
  look_gone : ∀ r now now' k, (now ≤ now')%Z → look r now k = None → look r now' k = None;
  set_nx_some : ∀ r now k v secs e, look r now k = Some e → (0 < secs)%Z →
    (set_nx_ex r now k v secs).1 = None ∧
    ∀ k', look (set_nx_ex r now k v secs).2 now k' = look r now k';
  set_nx_none : ∀ r now k v secs, look r now k = None → (0 < secs)%Z →
    (set_nx_ex r now k v secs).1 = Some "OK" ∧
    ∀ k', look (set_nx_ex r now k v secs).2 now k' =
          if decide (k' = k) then Some (v, Some (now + 1000 * secs)%Z) else look r now k';
  incr_look : ∀ r now k n t,
    match look r now k with None => n = 0%N ∧ t = None | Some (v, t') => v = num_to_string n ∧ t = t' end →
    (n < incr_max)%N →
    (cincr r now k).1 = Ok (n + 1)%N ∧
    ∀ k', look (cincr r now k).2 now k' =
          if decide (k' = k) then Some (num_to_string (n + 1), t) else look r now k';
  incr_full : ∀ r now k t, look r now k = Some (num_to_string incr_max, t) →
    is_ok (cincr r now k).1 = false ∧ ∀ k', look (cincr r now k).2 now k' = look r now k';
  incr_frame : ∀ r now k k', k' ≠ k → look (cincr r now k).2 now k' = look r now k';
  expire_look : ∀ r now k secs k', (0 < secs)%Z →
    look (cexpire r now k secs) now k' =
    if decide (k' = k) then (λ e, (e.1, Some (now + 1000 * secs)%Z)) <$> look r now k else look r now k';
  expire_frame : ∀ r now k secs k', k' ≠ k → look (cexpire r now k secs) now k' = look r now k';
  ttl_spec : ∀ r now k,
    match look r now k with
    | None => cttl r now k = (-2)%Z
    | Some (_, None) => cttl r now k = (-1)%Z
    | Some (_, Some t) => (0 ≤ cttl r now k)%Z ∧ (1000 * cttl r now k ≤ t - now + 1000)%Z
    end
}.

Section clock.
Context {api : ClockApi} {L : ClockLaws api}.

Lemma look_persists r now now' k v t :
  (now ≤ now')%Z → look r now k = Some (v, Some t) → (now' < t)%Z → look r now' k = Some (v, Some t).
Proof using L.
  intros Hle Hl Ht. destruct (look_later r now now' k Hle) as [[E _]|(_ & v' & t' & E & Ht')]; [by rewrite E|].
  rewrite Hl in E. simplify_eq. lia.
Qed.

Lemma look_Some_back r now now' k e :
  (now ≤ now')%Z → look r now' k = Some e → look r now k = Some e.
Proof using L.
  intros Hle Hl. destruct (look_later r now now' k Hle) as [[E _]|(E & _)]; congruence.
Qed.

Lemma look_vanished r now now' k v t :
  (now ≤ now')%Z → look r now k = Some (v, Some t) → look r now' k = None → (t ≤ now')%Z.
Proof using L.
  intros Hle Hl Hn. destruct (look_later r now now' k Hle) as [[E _]|(_ & v' & t' & E & Ht')]; [congruence|].
  rewrite Hl in E. by simplify_eq.
Qed.

(** A key that has an expiry is gone after it. *)
Lemma look_expired r now now' k t :
  (∀ v e, look r now k = Some (v, e) → ∃ t', e = Some t' ∧ t' ≤ t)%Z →
  (now ≤ now')%Z → (t < now')%Z → look r now' k = None.
Proof using L.
  intros He Hle Ht. destruct (look_later r now now' k Hle) as [[E Hv]|[E _]]; [|done]. rewrite E.
  destruct (look r now k) as [[v e]|]; [|done]. destruct (He v e eq_refl) as (t' & -> & Ht').
  specialize (Hv v t' eq_refl). lia.
Qed.

End clock.

(** ** An instance: the Redis of the examples

    An entry is seen up to and including its expiry; [TTL] rounds as Redis does. *)

Module ToyClock.

Abbreviation store := (gmap string (string * option Z)) (only parsing).

Definition tlook (r : store) (now : Z) (k : string) : option (string * option Z) :=
  match r !! k with
  | Some (v, Some t) => if (now <=? t)%Z then Some (v, Some t) else None
  | e => e
  end.

Definition tset (r : store) (now : Z) (k v : string) (secs : Z) : option string * store :=
  match tlook r now k with
  | Some _ => (None, r)
  | None => (Some "OK", <[k := (v, Some (now + 1000 * secs)%Z)]> r)
  end.

Definition tincr (r : store) (now : Z) (k : string) : result string N * store :=
  let cur := match tlook r now k with
             | None => Some (0%N, None)
             | Some (v, t) => n ← parse_uint incr_max v; Some (n, t)
             end in
  match cur with
  | Some (n, t) =>
      if (n <? incr_max)%N then (Ok (n + 1)%N, <[k := (num_to_string (n + 1), t)]> r)
      else (Err "ERR increment or decrement would overflow", r)
  | None => (Err "ERR value is not an integer or out of range", r)
  end.

Definition texpire (r : store) (now : Z) (k : string) (secs : Z) : store :=
  match tlook r now k with
  | Some (v, _) => if (0 <? secs)%Z then <[k := (v, Some (now + 1000 * secs)%Z)]> r else delete k r
  | None => r
  end.

Definition tttl (r : store) (now : Z) (k : string) : Z :=
  match tlook r now k with
  | None => -2
  | Some (_, None) => -1
  | Some (_, Some t) => (t - now + 500) / 1000
  end.

#[global] Instance toy_clock : ClockApi := {|
  credis := store; look := tlook; set_nx_ex := tset; cincr := tincr; cexpire := texpire; cttl := tttl |}.

Lemma tlook_insert r now k k' v t :
  (∀ t', t = Some t' → now ≤ t')%Z →
  tlook (<[k := (v, t)]> r) now k' = if decide (k' = k) then Some (v, t) else tlook r now k'.
Proof.
  intros Ht. unfold tlook. case_decide as E; [subst; rewrite lookup_insert_eq|by rewrite lookup_insert_ne].
  destruct t as [t'|]; [|done]. by rewrite (proj2 (Z.leb_le _ _)) by auto.
Qed.

Lemma tlook_alive r now k v t : tlook r now k = Some (v, Some t) → (now ≤ t)%Z.
Proof.
  unfold tlook. destruct (r !! k) as [[v' [t'|]]|]; [|done..].
  destruct (now <=? t')%Z eqn:E; [|done]. intros [= -> ->]. by apply Z.leb_le.
Qed.

#[global] Instance toy_clock_laws : ClockLaws toy_clock.
Proof.
  split; cbn [credis look set_nx_ex cincr cexpire cttl toy_clock].
  - intros r now now' k Hle. unfold later, tlook. destruct (r !! k) as [[v [t|]]|]; [|left; split; [done|intros ?? [=]]|left; split; [done|intros ?? [=]]].
    destruct (Z.leb_spec now t), (Z.leb_spec now' t); [left|right|lia|left; split; [done|intros ?? [=]]].
    + split; [done|]. intros ?? [= <- <-]. done.
    + split; [done|]. exists v, t. split; [done|lia].
  - intros r now k v t. apply tlook_alive.
  - intros r now now' k Hle. unfold tlook. destruct (r !! k) as [[v [t|]]|]; [|done..].
    destruct (Z.leb_spec now t); [done|]. intros _. destruct (Z.leb_spec now' t); [lia|done].
  - intros r now k v secs e He _. unfold tset. by rewrite He.
  - intros r now k v secs He Hs. unfold tset. rewrite He. split; [done|]. intros k'.
    apply tlook_insert. intros t' [= <-]. lia.
  - intros r now k n t Hn Hmax. unfold tincr.
    assert (∀ t', t = Some t' → now ≤ t')%Z as Ht.
    { intros t' ->. destruct (tlook r now k) as [[v t'']|] eqn:E; [|by destruct Hn].
      destruct Hn as [-> <-]. by eapply tlook_alive. }
    assert (match tlook r now k with
             | None => Some (0%N, None)
             | Some (v, t) => n ← parse_uint incr_max v; Some (n, t)
             end = Some (n, t)) as ->.
    { destruct (tlook r now k) as [[v t'']|]; destruct Hn as [-> ->]; [|done].
      rewrite parse_uint_num; [done|lia|eapply N.lt_trans; [exact Hmax|done]]. }
    cbv beta iota zeta. rewrite (proj2 (N.ltb_lt _ _)) by done. split; [done|]. intros k'. by apply tlook_insert.
  - intros r now k t Hl. unfold tincr. rewrite Hl, parse_uint_num by (done || reflexivity). done.
  - intros r now k k' Hne. unfold tincr.
    destruct (match tlook r now k with None => _ | Some _ => _ end) as [[n t]|]; [|done].
    destruct (n <? incr_max)%N; [|done]. unfold tlook. simpl. by rewrite lookup_insert_ne.
  - intros r now k secs k' Hs. unfold texpire. rewrite (proj2 (Z.ltb_lt _ _)) by done.
    destruct (tlook r now k) as [[v t]|] eqn:E.
    + rewrite tlook_insert; [done|]. intros t' [= <-]. lia.
    + case_decide; [by subst|done].
  - intros r now k secs k' Hne. unfold texpire. destruct (tlook r now k) as [[v t]|]; [|done].
    destruct (0 <? secs)%Z; unfold tlook; [by rewrite lookup_insert_ne|by rewrite lookup_delete_ne].
  - intros r now k. unfold tttl. destruct (tlook r now k) as [[v [t|]]|] eqn:E; [|done..].
    apply tlook_alive in E. pose proof (Z.div_mod (t - now + 500) 1000 ltac:(done)).
    pose proof (Z.mod_pos_bound (t - now + 500) 1000 ltac:(done)).
    split; [apply Z.div_pos; lia|lia].
Qed.

End ToyClock.
