(* ===== verification/MeshWire.v ===== *)
(** * The mesh wire contract ([buzz-relay-mesh/src/wire.rs], [lib.rs], [peer.rs])

    The frames that cross the relay mesh, the version byte in front of every
    encoded frame, the size checks of datagrams, and the length-delimited framing
    of streams.  Postcard and hex are external crates: [Postcard] and [HexApi]
    are their interfaces, with the round trips the mesh relies on. *)

From stdpp Require Import base gmap strings list.
From Stdlib Require Import Ascii.
From Stdlib.Strings Require Import Byte.
From S2P Require Import Prelude Nostr.

(** ** External crates *)

(** [hex::encode] and [hex::decode]. *)
Class HexApi := {
  hex_encode : bytes → string;
  hex_decode : string → option bytes
}.

Definition is_hex_char (c : ascii) : bool :=
  is_ascii_digit c || ((97 <=? ascii_code c) && (ascii_code c <=? 102))%N.

Class HexLaws (api : HexApi) := {
  hex_decode_encode : ∀ b, hex_decode (hex_encode b) = Some b;
  hex_encode_chars : ∀ b, str_all is_hex_char (hex_encode b) = true;
  hex_encode_length : ∀ b, String.length (hex_encode b) = 2 * length b
}.

(** [postcard::to_extend] and [postcard::from_bytes] at one type. *)
Class Postcard (T : Type) := {
  postcard_to : T → result string bytes;
  postcard_from : bytes → result string T
}.

Class PostcardLaws (T : Type) `{Postcard T} :=
  postcard_roundtrip : ∀ t b, postcard_to t = Ok b → postcard_from b = Ok t.

(** ** [wire.rs]: the frames *)

Definition ALPN : string := "buzz/mesh/1".
Definition WIRE_VERSION : byte := x01.
Definition MAX_STREAM_FRAME : N := 16 * 1024 * 1024.

(** [RuntimeId([u8; 32])]: the bytes; [rid_ok] is the length the array type
    enforces. *)
Abbreviation RuntimeId := (list byte) (only parsing).
Definition rid_ok (r : RuntimeId) : Prop := length r = 32.

Definition to_hex `{HexApi} (r : RuntimeId) : string := hex_encode r.

Record FencedHeader := mkFenced {
  fh_session_id : Uuid;
  fh_generation : N;
  fh_owner_runtime_id : RuntimeId
}.

Inductive Profile := ReliableStream | RealtimeMedia | HuddleControl.

Record MeshDatagram := mkDatagram {
  dg_fenced : FencedHeader;
  dg_seq : N;
  dg_payload : bytes
}.

Inductive StreamRole :=
| Control
| Session (fenced : FencedHeader) (profile : Profile).

Record StreamHello := mkHello {
  hello_sender : RuntimeId;
  hello_role : StreamRole
}.

(** [GoodbyeReason::StaleGeneration] is [GoodbyeStale]: the error below has the
    name. *)
Inductive GoodbyeReason := SessionEnded | Draining | GoodbyeStale.

Inductive MeshStreamFrame :=
| Hello (h : StreamHello)
| Data (fenced : FencedHeader) (payload : bytes)
| Goodbye (fenced : FencedHeader) (reason : GoodbyeReason)
| Gossip (payload : bytes).

#[global] Instance fenced_eq_dec : EqDecision FencedHeader.
Proof. solve_decision. Defined.
#[global] Instance profile_eq_dec : EqDecision Profile.
Proof. solve_decision. Defined.
#[global] Instance goodbye_eq_dec : EqDecision GoodbyeReason.
Proof. solve_decision. Defined.

(** ** [lib.rs]: errors *)

Inductive MeshError :=
| EncodeErr (e : string)
| DecodeErr (e : string)
| UnknownWireVersion (v : byte)
| EmptyFrame
| FrameTooLarge (size max : N)
| DatagramTooLarge (size max : N)
| PeerNotConnected (r : RuntimeId)
| PeerDraining (r : RuntimeId)
| StaleGeneration (session_id : Uuid) (frame_generation known_generation : N)
| NoActiveLease (session_id : Uuid) (frame_generation known_generation : N)
    (frame_owner : RuntimeId)
| OwnerMismatch (session_id : Uuid) (generation : N) (frame_owner current_owner : RuntimeId)
| FutureGeneration (session_id : Uuid) (frame_generation known_generation : N)
| MeshDisabled
| Transport (e : string)
| RedisErr (e : string).

(** ** Encoding *)

Definition encode {T} `{Postcard T} (frame : T) : result MeshError bytes :=
  let? body := map_err EncodeErr (postcard_to frame) in Ok (WIRE_VERSION :: body).

Definition decode {T} `{Postcard T} (b : bytes) : result MeshError T :=
  match b with
  | v :: rest =>
      if decide (v = WIRE_VERSION) then map_err DecodeErr (postcard_from rest)
      else Err (UnknownWireVersion v)
  | [] => Err EmptyFrame
  end.

Definition blen (b : bytes) : N := N.of_nat (length b).

Definition encode_datagram_checked `{Postcard MeshDatagram} (dgram : MeshDatagram)
    (max_datagram_size : N) : result MeshError bytes :=
  let? b := encode dgram in
  if (max_datagram_size <? blen b)%N then Err (DatagramTooLarge (blen b) max_datagram_size)
  else Ok b.

(** ** [peer.rs]: length-delimited frames on a stream

    [to_le_bytes] and [from_le_bytes] of a [u32]. *)
Definition u32_to_le (n : N) : bytes :=
  [byte_of_N n; byte_of_N (n / 256); byte_of_N (n / 65536); byte_of_N (n / 16777216)].

Definition u32_from_le (b0 b1 b2 b3 : byte) : N :=
  Byte.to_N b0 + 256 * Byte.to_N b1 + 65536 * Byte.to_N b2 + 16777216 * Byte.to_N b3.

(** What [send_frame] writes. *)
Definition send_frame `{Postcard MeshStreamFrame} (frame : MeshStreamFrame) :
    result MeshError bytes :=
  let? b := encode frame in
  if (MAX_STREAM_FRAME <? blen b)%N then Err (FrameTooLarge (blen b) MAX_STREAM_FRAME)
  else Ok (u32_to_le (blen b) ++ b).

(** [recv_frame] on the bytes still to come of a finished stream: the frame (or
    the end of the stream) and the bytes left.  [read_exact] reports how many
    bytes arrived when the stream ends early. *)
Definition recv_frame `{Postcard MeshStreamFrame} (stream : bytes) :
    result MeshError (option MeshStreamFrame * bytes) :=
  match stream with
  | [] => Ok (None, [])
  | b0 :: b1 :: b2 :: b3 :: rest =>
      let len := u32_from_le b0 b1 b2 b3 in
      if (MAX_STREAM_FRAME <? len)%N then Err (FrameTooLarge len MAX_STREAM_FRAME)
      else if (blen rest <? len)%N then Err (Transport "stream finished early")
      else
        let? frame := decode (take (N.to_nat len) rest) in
        Ok (Some frame, drop (N.to_nat len) rest)
  | _ => Err (Transport "stream finished early")
  end.

(** Reading a stream to its end, at most [fuel] frames. *)
Fixpoint recv_all `{Postcard MeshStreamFrame} (fuel : nat) (stream : bytes) :
    result MeshError (list MeshStreamFrame) :=
  match fuel with
  | 0 => Ok []
  | S fuel' =>
      let? p := recv_frame stream in
      match p with
      | (None, _) => Ok []
      | (Some f, rest) => let? fs := recv_all fuel' rest in Ok (f :: fs)
      end
  end.

(** ** Lemmas *)

Lemma decode_encode {T} `{PostcardLaws T} (t : T) b : encode t = Ok b → decode b = Ok t.
Proof.
  unfold encode. destruct (postcard_to t) as [body|] eqn:E; simpl; [|done]. intros [= <-].
  unfold decode. destruct (decide (WIRE_VERSION = WIRE_VERSION)); [|done].
  by rewrite (postcard_roundtrip _ _ E).
Qed.

Lemma u32_le_roundtrip n :
  (n < 4294967296)%N →
  u32_from_le (byte_of_N n) (byte_of_N (n / 256)) (byte_of_N (n / 65536))
    (byte_of_N (n / 16777216)) = n.
Proof.
  intros Hn. unfold u32_from_le. rewrite !byte_of_N_to_N.
  change 65536%N with (256 * 256)%N. change 16777216%N with (256 * 256 * 256)%N.
  rewrite <-!N.Div0.div_div.
  pose proof (N.div_mod n 256 ltac:(done)) as H0.
  pose proof (N.div_mod (n / 256) 256 ltac:(done)) as H1.
  pose proof (N.div_mod (n / 256 / 256) 256 ltac:(done)) as H2.
  assert (n / 256 / 256 / 256 < 256)%N as H3.
  { rewrite !N.Div0.div_div. by apply N.Div0.div_lt_upper_bound. }
  rewrite (N.mod_small (n / 256 / 256 / 256)) by done.
  revert H0 H1 H2 H3.
  generalize (n `mod` 256)%N ((n / 256) `mod` 256)%N ((n / 256 / 256) `mod` 256)%N
    (n / 256)%N (n / 256 / 256)%N (n / 256 / 256 / 256)%N. intros. lia.
Qed.

Section framing.
Context `{PostcardLaws MeshStreamFrame}.

Lemma recv_send_frame f b rest :
  send_frame f = Ok b → recv_frame (b ++ rest) = Ok (Some f, rest).
Proof.
  unfold send_frame. destruct (encode f) as [body|] eqn:E; [|done].
  destruct (N.ltb_spec MAX_STREAM_FRAME (blen body)) as [|Hle]; [done|]. intros [= <-].
  assert (blen body < 4294967296)%N as Hlt by (unfold MAX_STREAM_FRAME in Hle; lia).
  unfold recv_frame. cbn [u32_to_le app].
  rewrite u32_le_roundtrip by done.
  destruct (N.ltb_spec MAX_STREAM_FRAME (blen body)); [lia|].
  assert (blen (body ++ rest) = blen body + blen rest)%N as Happ
    by (unfold blen; rewrite length_app; lia).
  destruct (N.ltb_spec (blen (body ++ rest)) (blen body)); [lia|].
  assert (N.to_nat (blen body) = length body) as -> by (unfold blen; lia).
  rewrite take_app_length, drop_app_length, (decode_encode _ _ E). done.
Qed.

(** The bytes of a sequence of frames, in the order they were sent. *)
Fixpoint send_all (fs : list MeshStreamFrame) : result MeshError bytes :=
  match fs with
  | [] => Ok []
  | f :: fs' => let? b := send_frame f in let? bs := send_all fs' in Ok (b ++ bs)
  end.

Lemma recv_all_send_all fs b fuel :
  send_all fs = Ok b → length fs < fuel → recv_all fuel b = Ok fs.
Proof.
  revert b fuel. induction fs as [|f fs IH]; simpl; intros b fuel E Hf;
    (destruct fuel as [|fuel]; [simpl in *; lia|]).
  { by injection E as <-. }
  destruct (send_frame f) as [b0|] eqn:E0; [|done].
  destruct (send_all fs) as [b1|] eqn:E1; [|done]. injection E as <-. simpl.
  rewrite (recv_send_frame _ _ _ E0). rewrite (IH b1) by (done || lia). done.
Qed.

(** Every frame read consumes at least its length prefix, so a stream is read
    to its end in finitely many frames. *)
Lemma recv_frame_consumes s f rest :
  recv_frame s = Ok (Some f, rest) → length rest < length s.
Proof.
  unfold recv_frame. destruct s as [|b0 [|b1 [|b2 [|b3 s]]]]; try done.
  case_match; [done|]. case_match; [done|]. case_match; [|done]. intros [= _ <-].
  rewrite length_drop. simpl. lia.
Qed.

Lemma recv_all_fuel fuel fuel' s :
  length s < fuel → length s < fuel' → recv_all fuel s = recv_all fuel' s.
Proof.
  revert fuel' s. induction fuel as [|fuel IH]; intros fuel' s H1 H2; [lia|].
  destruct fuel' as [|fuel']; [lia|]. simpl.
  destruct (recv_frame s) as [[[f|] rest]|] eqn:E; [|done|done].
  apply recv_frame_consumes in E. rewrite (IH fuel' rest) by lia. done.
Qed.

End framing.

(** A stream carries frames faithfully: the bytes written for any sequence of
    frames within the size limit are read back as exactly those frames, in
    order, and reading stops at the end of the stream (the fuel, one more than
    the bytes to read, is never exhausted: [recv_all_fuel]). *)
Theorem stream_roundtrip `{PostcardLaws MeshStreamFrame} fs b fuel :
  send_all fs = Ok b → length b < fuel → recv_all fuel b = Ok fs.
Proof.
  intros Hs Hf. rewrite (recv_all_fuel _ (S (length fs + length b))) by lia.
  apply recv_all_send_all; [done|lia].
Qed.

(** ** Instances *)

Module MeshWireDemo.

Definition hex_digit (n : N) : ascii :=
  if (n <? 10)%N then ascii_of_N (48 + n) else ascii_of_N (87 + n).

Definition hex_value (c : ascii) : option N :=
  let n := ascii_code c in
  if ((48 <=? n) && (n <=? 57))%N then Some (n - 48)%N
  else if ((97 <=? n) && (n <=? 102))%N then Some (n - 87)%N else None.

Fixpoint demo_hex_encode (b : bytes) : string :=
  match b with
  | [] => ""
  | x :: b' => String (hex_digit (Byte.to_N x / 16))
                 (String (hex_digit (Byte.to_N x `mod` 16)) (demo_hex_encode b'))
  end.

Fixpoint demo_hex_decode (s : string) : option bytes :=
  match s with
  | EmptyString => Some []
  | String h (String l s') =>
      match hex_value h, hex_value l, demo_hex_decode s' with
      | Some a, Some b, Some rest =>
          match Byte.of_N (16 * a + b) with Some x => Some (x :: rest) | None => None end
      | _, _, _ => None
      end
  | _ => None
  end.

#[global] Instance demo_hex : HexApi := {|
  hex_encode := demo_hex_encode; hex_decode := demo_hex_decode |}.

#[global] Instance demo_hex_laws : HexLaws demo_hex.
Proof.
  split; simpl.
  - intros b. induction b as [|x b IH]; [done|]. cbn [demo_hex_encode demo_hex_decode].
    rewrite IH. by destruct x.
  - intros b. induction b as [|x b IH]; [done|]. cbn [demo_hex_encode str_all].
    rewrite IH. by destruct x.
  - intros b. induction b as [|x b IH]; [done|]. cbn [demo_hex_encode String.length length].
    rewrite IH. lia.
Qed.

(** A codec that carries gossip frames only. *)
#[global] Instance demo_postcard : Postcard MeshStreamFrame := {|
  postcard_to := λ f, match f with Gossip p => Ok p | _ => Err "unsupported" end;
  postcard_from := λ b, Ok (Gossip b) |}.

#[global] Instance demo_postcard_laws : PostcardLaws MeshStreamFrame.
Proof. intros [] b; simpl; congruence. Qed.

Example bad_version : decode (T:=MeshStreamFrame) [x02; x00] = Err (UnknownWireVersion x02).
Proof. reflexivity. Qed.

Lemma stream_roundtrip_witness :
  recv_all 20 [x02; x00; x00; x00; x01; x07; x01; x00; x00; x00; x01]
    = Ok [Gossip [x07]; Gossip []].
Proof. apply (stream_roundtrip (H:=demo_postcard)); [reflexivity|simpl; lia]. Defined.

End MeshWireDemo.
