(* ===== verification/SessionDirectory.v ===== *)
(** * The fenced session directory ([buzz-relay/src/tunnel/directory.rs])

    Redis decides which relay runtime owns a tunnel session: a lease key with an
    expiry holds owner, generation and profile, a second key without expiry
    counts the generations.  The four Lua scripts are functions on the key space
    ([acquire_script], ...), the Rust methods around them parse their replies and
    go through the serving-write guard of the community; every call can fail
    before or after its script ran.  The abstract specification is one [slot] per
    session (last generation handed out, lease in force) with the transitions
    [slot_step]; the theorems are the fencing law: generations only grow, a
    generation has one owner, and a frame of a superseded generation is never
    accepted again. *)

From stdpp Require Import base gmap strings list.
From Stdlib Require Import Ascii.
From Stdlib.Strings Require Import Byte.
From S2P Require Import Prelude Nostr Redis MeshWire.

Definition DEFAULT_LEASE_TTL : N := 30000.

Record SessionLease := mkLease {
  sl_community_id : CommunityId;
  sl_session_id : Uuid;
  sl_owner_runtime_id : RuntimeId;
  sl_generation : N;
  sl_profile : Profile
}.

Inductive AcquireResult := Acquired (l : SessionLease) | Exists (l : SessionLease).

Inductive RenewResult :=
| Renewed (l : SessionLease)
| Lost (current : option SessionLease) (known_generation : option N).

Inductive ReleaseResult :=
| Released (l : SessionLease)
| NotOwner (current : option SessionLease) (known_generation : option N).

Inductive DirectoryError :=
| PoolErr (e : string)
| DirRedis (e : string)
| MalformedLease (community_id : CommunityId) (session_id : Uuid) (value : string)
| MalformedGeneration (community_id : CommunityId) (session_id : Uuid) (value : string)
| UnexpectedScriptStatus (status : string)
| InvalidLeaseTtl
| CommunityWriteFenced (e : string).

Definition fenced_header (l : SessionLease) : FencedHeader :=
  mkFenced (sl_session_id l) (sl_generation l) (sl_owner_runtime_id l).

Definition as_wire_str (p : Profile) : string :=
  match p with
  | ReliableStream => "reliable-stream"
  | RealtimeMedia => "realtime-media"
  | HuddleControl => "huddle-control"
  end.

Definition profile_from_wire (value : string) : option Profile :=
  if decide (value = "reliable-stream") then Some ReliableStream
  else if decide (value = "realtime-media") then Some RealtimeMedia
  else if decide (value = "huddle-control") then Some HuddleControl
  else None.

Definition i64_max : N := 9223372036854775807.

(** A TTL is given in milliseconds. *)
Definition ttl_ms (ttl : N) : result DirectoryError Z :=
  if ((ttl <=? i64_max) && (0 <? ttl))%N then Ok (Z.of_N ttl) else Err InvalidLeaseTtl.

(** ** The serving-write guard

    What the guard of [buzz-deletion] answered during one call: [begin] on
    acquisition, [verify_before] and [verify_after] around the protected
    operation, [lost] when the guard's heartbeat was lost while the operation was
    pending (with whether the operation reached Redis), [finish] on release. *)
Inductive ServingWrite :=
| NoDb
| WithDb (begin verify_before : result string unit) (lost : option bool)
    (verify_after finish : result string unit).

Record CallEnv := mkEnv {
  ce_serving : ServingWrite;
  ce_pool : result string unit;
  ce_redis : outcome
}.

Definition begin_serving_write (env : CallEnv) : result DirectoryError unit :=
  match ce_serving env with
  | NoDb => Ok tt
  | WithDb b _ _ _ _ => map_err CommunityWriteFenced b
  end.

Definition finish_serving_write (env : CallEnv) : result DirectoryError unit :=
  match ce_serving env with
  | NoDb => Ok tt
  | WithDb _ _ _ _ f => map_err CommunityWriteFenced f
  end.

Definition flatten {A} (res : result string (result string A)) : result DirectoryError A :=
  let? inner := map_err DirRedis res in map_err DirRedis inner.

(** The mutation, under [guard.protect] when there is a guard. *)
Definition run_mutation {R A} (env : CallEnv) (script : R → result string A * R) (r : R) :
    result DirectoryError A * R :=
  let op r := let '(res, r') := call (ce_redis env) script r in (flatten res, r') in
  match ce_serving env with
  | NoDb => op r
  | WithDb _ before lost after _ =>
      match before, lost with
      | Err e, _ => (Err (CommunityWriteFenced e), r)
      | Ok _, Some applied =>
          (Err (CommunityWriteFenced "serving write lease heartbeat was lost"),
           if applied then (op r).2 else r)
      | Ok _, None =>
          let '(res, r') := op r in
          match after with
          | Err e => (Err (CommunityWriteFenced e), r')
          | Ok _ => (res, r')
          end
      end
  end.

Section directory.
Context `{NostrApi} `{HexApi} `{RedisApi}.

(** ** Keys *)

Definition base_key (c : CommunityId) (s : Uuid) : string :=
  "buzz:" +:+ uuid_to_string c +:+ ":tunnel:" +:+ uuid_to_string s.
Definition lease_key (c : CommunityId) (s : Uuid) : string := base_key c s +:+ ":lease".
Definition generation_key (c : CommunityId) (s : Uuid) : string := base_key c s +:+ ":generation".

(** ** The Lua scripts *)

Abbreviation reply := (string * string * string)%type (only parsing).

(** A Lua script's value for a lease. *)
Definition lease_value (owner gen profile : string) : string :=
  owner +:+ "|" +:+ gen +:+ "|" +:+ profile.

(** [string.match(current, '^([^|]+)|([^|]+)|([^|]+)$')]. *)
Definition lua_match3 (s : string) : option (string * string * string) :=
  match split_on "|" s with
  | [a; b; c] =>
      if decide (a ≠ "" ∧ b ≠ "" ∧ c ≠ "") then Some (a, b, c) else None
  | _ => None
  end.

Definition acquire_script (lk gk owner profile : string) (ttl : Z) (r : redis) :
    result string reply * redis :=
  match redis_get r lk with
  | Some current => (Ok ("exists", current, default "" (redis_get r gk)), r)
  | None =>
      match redis_incr r gk with
      | Err e => (Err e, r)
      | Ok (g, r1) =>
          let value := lease_value owner (lua_tostring g) profile in
          (Ok ("acquired", value, lua_tostring g), redis_set_px r1 lk value ttl)
      end
  end.

Definition renew_script (lk gk owner gen : string) (ttl : Z) (r : redis) :
    result string reply * redis :=
  match redis_get r lk with
  | None => (Ok ("missing", "", default "" (redis_get r gk)), r)
  | Some current =>
      match lua_match3 current with
      | Some (o, g, _) =>
          if decide (o = owner ∧ g = gen) then
            let r' := redis_pexpire r lk ttl in
            (Ok ("renewed", current, default g (redis_get r' gk)), r')
          else (Ok ("lost", current, default g (redis_get r gk)), r)
      | None => (Ok ("lost", current, default "" (redis_get r gk)), r)
      end
  end.

Definition release_script (lk gk owner gen : string) (r : redis) : result string reply * redis :=
  match redis_get r lk with
  | None => (Ok ("missing", "", default "" (redis_get r gk)), r)
  | Some current =>
      match lua_match3 current with
      | Some (o, g, _) =>
          if decide (o = owner ∧ g = gen) then
            let r' := redis_del r lk in
            (Ok ("released", current, default g (redis_get r' gk)), r')
          else (Ok ("lost", current, default g (redis_get r gk)), r)
      | None => (Ok ("lost", current, default "" (redis_get r gk)), r)
      end
  end.

Definition validate_script (lk gk : string) (r : redis) : result string (string * string) * redis :=
  (Ok (default "" (redis_get r lk), default "" (redis_get r gk)), r).

(** ** Parsing replies *)

Definition parse_lease (c : CommunityId) (s : Uuid) (value : string) :
    result DirectoryError SessionLease :=
  let malformed := Err (MalformedLease c s value) in
  match split_on "|" value with
  | owner_hex :: gen :: rest =>
      match parse_uint u64_max gen with
      | None => malformed
      | Some generation =>
          if decide (generation = 0%N) then malformed
          else
            match rest with
            | [] => malformed
            | p :: rest' =>
                match profile_from_wire p with
                | None => malformed
                | Some profile =>
                    match rest' with
                    | _ :: _ => malformed
                    | [] =>
                        match hex_decode owner_hex with
                        | None => malformed
                        | Some owner =>
                            if decide (length owner = 32)
                            then Ok (mkLease c s owner generation profile)
                            else malformed
                        end
                    end
                end
            end
      end
  | _ => malformed
  end.

Definition parse_optional_lease (c : CommunityId) (s : Uuid) (value : string) :
    result DirectoryError (option SessionLease) :=
  if decide (value = "") then Ok None
  else let? l := parse_lease c s value in Ok (Some l).

Definition parse_optional_generation (c : CommunityId) (s : Uuid) (value : string) :
    result DirectoryError (option N) :=
  if decide (value = "") then Ok None
  else match parse_uint u64_max value with
       | None => Err (MalformedGeneration c s value)
       | Some g => if decide (g = 0%N) then Err (MalformedGeneration c s value) else Ok (Some g)
       end.

(** ** The methods *)

Definition acquire (ttl : N) (env : CallEnv) (c : CommunityId) (s : Uuid) (owner : RuntimeId)
    (profile : Profile) (r : redis) : result DirectoryError AcquireResult * redis :=
  match begin_serving_write env, ttl_ms ttl, ce_pool env with
  | Err e, _, _ => (Err e, r)
  | _, Err e, _ => (Err e, r)
  | _, _, Err e => (Err (PoolErr e), r)
  | Ok _, Ok ttl, Ok _ =>
      let '(res, r') :=
        run_mutation env (acquire_script (lease_key c s) (generation_key c s) (to_hex owner)
                            (as_wire_str profile) ttl) r in
      (let? p := res in
       let '(status, value, _) := p in
       let? lease := parse_lease c s value in
       let? _ := finish_serving_write env in
       if decide (status = "acquired") then Ok (Acquired lease)
       else if decide (status = "exists") then Ok (Exists lease)
       else Err (UnexpectedScriptStatus status), r')
  end.

Definition takeover (ttl : N) (env : CallEnv) (c : CommunityId) (s : Uuid) (owner : RuntimeId)
    (profile : Profile) (r : redis) : result DirectoryError AcquireResult * redis :=
  acquire ttl env c s owner profile r.

(** [current.expect(...)] on a reply without a lease would panic; the scripts
    return the lease with these statuses, so the branch is an error here. *)
Definition renew (ttl : N) (env : CallEnv) (lease : SessionLease) (r : redis) :
    result DirectoryError RenewResult * redis :=
  let c := sl_community_id lease in
  let s := sl_session_id lease in
  match begin_serving_write env, ttl_ms ttl, ce_pool env with
  | Err e, _, _ => (Err e, r)
  | _, Err e, _ => (Err e, r)
  | _, _, Err e => (Err (PoolErr e), r)
  | Ok _, Ok ttl, Ok _ =>
      let '(res, r') :=
        run_mutation env (renew_script (lease_key c s) (generation_key c s)
                            (to_hex (sl_owner_runtime_id lease))
                            (num_to_string (sl_generation lease)) ttl) r in
      (let? p := res in
       let '(status, value, known) := p in
       let? current := parse_optional_lease c s value in
       let? _ := finish_serving_write env in
       if decide (status = "renewed") then
         match current with
         | Some l => Ok (Renewed l)
         | None => Err (UnexpectedScriptStatus status)
         end
       else if decide (status = "missing" ∨ status = "lost") then
         let? known := parse_optional_generation c s known in Ok (Lost current known)
       else Err (UnexpectedScriptStatus status), r')
  end.

Definition release (env : CallEnv) (lease : SessionLease) (r : redis) :
    result DirectoryError ReleaseResult * redis :=
  let c := sl_community_id lease in
  let s := sl_session_id lease in
  match begin_serving_write env, ce_pool env with
  | Err e, _ => (Err e, r)
  | _, Err e => (Err (PoolErr e), r)
  | Ok _, Ok _ =>
      let '(res, r') :=
        run_mutation env (release_script (lease_key c s) (generation_key c s)
                            (to_hex (sl_owner_runtime_id lease))
                            (num_to_string (sl_generation lease))) r in
      (let? p := res in
       let '(status, value, known) := p in
       let? current := parse_optional_lease c s value in
       let? _ := finish_serving_write env in
       if decide (status = "released") then
         match current with
         | Some l => Ok (Released l)
         | None => Err (UnexpectedScriptStatus status)
         end
       else if decide (status = "missing" ∨ status = "lost") then
         let? known := parse_optional_generation c s known in Ok (NotOwner current known)
       else Err (UnexpectedScriptStatus status), r')
  end.

(** [GET] over a pooled connection. *)
Definition get_value (pool : result string unit) (o : outcome) (k : string) (r : redis) :
    result DirectoryError (option string) :=
  let? _ := map_err PoolErr pool in
  map_err DirRedis (call o (λ r, (redis_get r k, r)) r).1.

Definition lookup_lease (pool : result string unit) (o : outcome) (c : CommunityId) (s : Uuid)
    (r : redis) : result DirectoryError (option SessionLease) :=
  let? value := get_value pool o (lease_key c s) r in
  match value with
  | Some v => let? l := parse_lease c s v in Ok (Some l)
  | None => Ok None
  end.

Definition known_generation (pool : result string unit) (o : outcome) (c : CommunityId) (s : Uuid)
    (r : redis) : result DirectoryError (option N) :=
  let? value := get_value pool o (generation_key c s) r in
  match value with
  | Some v => parse_optional_generation c s v
  | None => Ok None
  end.

(** [validate_fenced_header]; [error_text] is the display of an error. *)
Definition validate_fenced_header (error_text : DirectoryError → string) (pool : result string unit)
    (o : outcome) (c : CommunityId) (fenced : FencedHeader) (r : redis) : result MeshError unit :=
  let s := fh_session_id fenced in
  let? _ := map_err (λ e, Transport ("redis pool: " +:+ e)) pool in
  let? res := map_err RedisErr (call o (validate_script (lease_key c s) (generation_key c s)) r).1 in
  let? p := map_err RedisErr res in
  let '(lease_value, known_gen) := p in
  let? from_counter := map_err (λ e, Transport (error_text e))
                         (parse_optional_generation c s known_gen) in
  let from_counter := default 0%N from_counter in
  let? current := map_err (λ e, Transport (error_text e)) (parse_optional_lease c s lease_value) in
  let known := N.max (match current with Some l => sl_generation l | None => from_counter end)
                 from_counter in
  if ((0 <? known) && (fh_generation fenced <? known))%N then
    Err (StaleGeneration s (fh_generation fenced) known)
  else
    match current with
    | None => Err (NoActiveLease s (fh_generation fenced) known (fh_owner_runtime_id fenced))
    | Some l =>
        if decide (fh_generation fenced ≠ sl_generation l) then
          Err (FutureGeneration s (fh_generation fenced) (sl_generation l))
        else if decide (fh_owner_runtime_id fenced ≠ sl_owner_runtime_id l) then
          Err (OwnerMismatch s (fh_generation fenced) (fh_owner_runtime_id fenced)
                 (sl_owner_runtime_id l))
        else Ok tt
    end.

(** ** The specification: one slot per session *)

Record slot := mkSlot {
  ctr : N;                                       (* last generation handed out *)
  held : option (RuntimeId * N * Profile)        (* the lease in force *)
}.

Definition spec_acquire (owner : RuntimeId) (p : Profile) (σ : slot) : slot :=
  match held σ with
  | Some _ => σ
  | None => mkSlot (ctr σ + 1) (Some (owner, (ctr σ + 1)%N, p))
  end.

Definition holds (σ : slot) (owner : RuntimeId) (g : N) : bool :=
  match held σ with
  | Some (o, g', _) => bool_decide (o = owner ∧ g' = g)
  | None => false
  end.

Definition spec_release (owner : RuntimeId) (g : N) (σ : slot) : slot :=
  if holds σ owner g then mkSlot (ctr σ) None else σ.

(** What can happen to one slot. *)
Inductive slot_step : slot → slot → Prop :=
| slot_same σ : slot_step σ σ
| slot_drop σ : slot_step σ (mkSlot (ctr σ) None)
| slot_new n o p : slot_step (mkSlot n None) (mkSlot (n + 1) (Some (o, (n + 1)%N, p))).

(** The keys of a session hold its slot. *)
Definition counter_val (n : N) : option string :=
  if decide (n = 0%N) then None else Some (num_to_string n).

Definition held_val (h : RuntimeId * N * Profile) : string :=
  lease_value (to_hex h.1.1) (num_to_string h.1.2) (as_wire_str h.2).

Definition slot_ok (σ : slot) : Prop :=
  ∀ o g p, held σ = Some (o, g, p) → rid_ok o ∧ ((1 ≤ g)%N ∧ g = ctr σ).

Record slot_at (r : redis) (c : CommunityId) (s : Uuid) (σ : slot) : Prop := {
  sa_counter : redis_get r (generation_key c s) = counter_val (ctr σ);
  sa_persistent : redis_persistent r (generation_key c s);
  sa_lease : redis_get r (lease_key c s) = held_val <$> held σ;
  sa_ok : slot_ok σ
}.

(** The lease a slot describes. *)
Definition slot_lease (c : CommunityId) (s : Uuid) (σ : slot) : option SessionLease :=
  (λ h, mkLease c s h.1.1 h.1.2 h.2) <$> held σ.

(** ** Executions

    Any number of relays call the directory, in any order and with any
    failures; leases expire; other keys change. *)

Inductive dir_event :=
| EAcquire (c : CommunityId) (s : Uuid) (owner : RuntimeId) (p : Profile)
    (res : result DirectoryError AcquireResult)
| ERenew (lease : SessionLease) (res : result DirectoryError RenewResult)
| ERelease (lease : SessionLease) (res : result DirectoryError ReleaseResult)
| EElapse
| EOther.

(** What the Rust types of a lease enforce. *)
Definition lease_wf (l : SessionLease) : Prop :=
  rid_ok (sl_owner_runtime_id l) ∧ (sl_generation l ≤ u64_max)%N.

Inductive dir_step : redis → dir_event → redis → Prop :=
| step_acquire ttl env c s owner p r res r' :
    rid_ok owner → acquire ttl env c s owner p r = (res, r') →
    dir_step r (EAcquire c s owner p res) r'
| step_renew ttl env lease r res r' :
    lease_wf lease → renew ttl env lease r = (res, r') → dir_step r (ERenew lease res) r'
| step_release env lease r res r' :
    lease_wf lease → release env lease r = (res, r') → dir_step r (ERelease lease res) r'
| step_elapse r r' : redis_elapse r r' → dir_step r EElapse r'
| step_other r r' :
    (∀ c s k, k = lease_key c s ∨ k = generation_key c s →
       redis_get r' k = redis_get r k ∧ (redis_persistent r k → redis_persistent r' k)) →
    dir_step r EOther r'.

Inductive dir_steps : redis → list dir_event → redis → Prop :=
| steps_nil r : dir_steps r [] r
| steps_cons r e r' l r'' :
    dir_step r e r' → dir_steps r' l r'' → dir_steps r (e :: l) r''.

End directory.

(** ** Lemmas on keys and values *)

Section keys.
Context `{NostrApi} `{HexApi} `{RedisApi}.
Context {UL : UuidLaws _} {HL : HexLaws _}.

Lemma split_base_key c s suffix :
  str_contains ":" suffix = false →
  split_on ":" (base_key c s +:+ String ":" suffix) =
    ["buzz"; uuid_to_string c; "tunnel"; uuid_to_string s; suffix].
Proof.
  intros Hs. unfold base_key. rewrite !append_assoc.
  change (split_on ":" ("buzz" +:+ String ":" (uuid_to_string c +:+ String ":"
    ("tunnel" +:+ String ":" (uuid_to_string s +:+ String ":" suffix)))) =
    ["buzz"; uuid_to_string c; "tunnel"; uuid_to_string s; suffix]).
  rewrite (split_on_app ":" "buzz") by done. f_equal.
  rewrite (split_on_app ":" (uuid_to_string c) _ (uuid_no_colon c)). f_equal.
  rewrite (split_on_app ":" "tunnel") by done. f_equal.
  rewrite (split_on_app ":" (uuid_to_string s) _ (uuid_no_colon s)). f_equal.
  by apply split_on_no_sep.
Qed.

Lemma base_key_inj c s x c' s' y :
  str_contains ":" x = false → str_contains ":" y = false →
  base_key c s +:+ String ":" x = base_key c' s' +:+ String ":" y → c = c' ∧ s = s' ∧ x = y.
Proof.
  intros Hx Hy E%(f_equal (split_on ":")). rewrite !split_base_key in E by done.
  injection E as E1 E2 E3. apply uuid_to_string_inj in E1, E2. done.
Qed.

Lemma lease_key_inj c s c' s' : lease_key c s = lease_key c' s' → c = c' ∧ s = s'.
Proof. intros (?&?&_)%base_key_inj; done. Qed.

Lemma generation_key_inj c s c' s' : generation_key c s = generation_key c' s' → c = c' ∧ s = s'.
Proof. intros (?&?&_)%base_key_inj; done. Qed.

Lemma lease_key_not_generation c s c' s' : lease_key c s ≠ generation_key c' s'.
Proof. intros (?&?&?)%base_key_inj; done. Qed.

Lemma owner_hex_no_bar b : str_contains "|" (to_hex b) = false.
Proof. eapply str_all_contains; [apply hex_encode_chars|done]. Qed.

Lemma num_no_bar n : str_contains "|" (num_to_string n) = false.
Proof. eapply str_all_contains; [apply num_to_string_digits|done]. Qed.

Lemma to_hex_nonempty o : rid_ok o → to_hex o ≠ "".
Proof.
  intros Ho E. pose proof (hex_encode_length o) as Hl. unfold to_hex in E. rewrite E in Hl.
  unfold rid_ok in Ho. simpl in Hl. lia.
Qed.

Lemma to_hex_inj a b : to_hex a = to_hex b → a = b.
Proof.
  intros E%(f_equal hex_decode). unfold to_hex in E. rewrite !hex_decode_encode in E. congruence.
Qed.

Lemma split_lease_value o g p :
  split_on "|" (lease_value (to_hex o) (num_to_string g) (as_wire_str p)) =
    [to_hex o; num_to_string g; as_wire_str p].
Proof.
  change (split_on "|" (to_hex o +:+ String "|" (num_to_string g +:+ String "|" (as_wire_str p))) =
    [to_hex o; num_to_string g; as_wire_str p]).
  rewrite (split_on_app "|" (to_hex o) _ (owner_hex_no_bar o)). f_equal.
  rewrite (split_on_app "|" (num_to_string g) _ (num_no_bar g)). f_equal.
  by destruct p.
Qed.

Lemma profile_roundtrip p : profile_from_wire (as_wire_str p) = Some p.
Proof. by destruct p. Qed.

Lemma u64_digits n : (n ≤ u64_max)%N → (n < 10 ^ 20)%N.
Proof. unfold u64_max. intros. assert (18446744073709551615 < 10 ^ 20)%N by done. lia. Qed.

Lemma parse_lease_value c s o g p :
  rid_ok o → (1 ≤ g ≤ u64_max)%N →
  parse_lease c s (held_val (o, g, p)) = Ok (mkLease c s o g p).
Proof.
  intros Ho Hg. unfold parse_lease, held_val. cbn [fst snd]. rewrite split_lease_value.
  rewrite parse_uint_num by (lia || apply u64_digits; lia).
  rewrite decide_False by lia. rewrite profile_roundtrip. unfold to_hex.
  rewrite hex_decode_encode, decide_True by done. done.
Qed.

Lemma held_val_nonempty h : held_val h ≠ "".
Proof.
  intros E%(f_equal String.length). unfold held_val, lease_value in E.
  rewrite !length_append in E. simpl in E. lia.
Qed.

Lemma parse_optional_lease_value c s o g p :
  rid_ok o → (1 ≤ g ≤ u64_max)%N →
  parse_optional_lease c s (held_val (o, g, p)) = Ok (Some (mkLease c s o g p)).
Proof.
  intros Ho Hg. unfold parse_optional_lease. rewrite decide_False by apply held_val_nonempty.
  by rewrite parse_lease_value.
Qed.

Lemma lua_match3_value o g p :
  rid_ok o →
  lua_match3 (held_val (o, g, p)) = Some (to_hex o, num_to_string g, as_wire_str p).
Proof.
  intros Ho. unfold lua_match3, held_val. cbn [fst snd]. rewrite split_lease_value.
  rewrite decide_True; [done|]. split; [by apply to_hex_nonempty|].
  split; [apply num_to_string_nonempty|by destruct p].
Qed.

Lemma parse_optional_generation_val c s n :
  (n ≤ u64_max)%N →
  parse_optional_generation c s (default "" (counter_val n)) =
    Ok (if decide (n = 0%N) then None else Some n).
Proof.
  intros Hn. unfold parse_optional_generation, counter_val.
  destruct (decide (n = 0%N)) as [->|Hn0]; [done|]. cbn [default from_option id].
  rewrite decide_False by apply num_to_string_nonempty.
  rewrite parse_uint_num by (done || by apply u64_digits).
  by rewrite decide_False.
Qed.

End keys.

(** ** The scripts implement the specification *)

Section refinement.
Context `{NostrApi} `{HexApi} `{RedisApi}.
Context {UL : UuidLaws _} {HL : HexLaws _} {RL : RedisLaws _}.
Implicit Types (r : redis) (c : CommunityId) (s : Uuid) (σ : slot).

(** Generations the scripting engine prints exactly. *)
Definition in_range (n : N) : Prop := (n < lua_exact)%N.

Lemma in_range_u64 n : in_range n → (n ≤ u64_max)%N.
Proof. unfold in_range, lua_exact, u64_max. lia. Qed.

(** A step that touches at most the keys of one session. *)
Definition frame c s r r' : Prop :=
  ∀ k, k ≠ lease_key c s → k ≠ generation_key c s →
    redis_get r' k = redis_get r k ∧ (redis_persistent r k → redis_persistent r' k).

Lemma frame_refl c s r : frame c s r r.
Proof. done. Qed.

Lemma frame_slot c s r r' c' s' σ :
  frame c s r r' → (c', s') ≠ (c, s) → slot_at r c' s' σ → slot_at r' c' s' σ.
Proof.
  intros Hf Hne [Hc Hp Hl Hok].
  destruct (Hf (generation_key c' s')) as [Eg Pg].
  { intros E. symmetry in E. by apply lease_key_not_generation in E. }
  { intros [-> ->]%generation_key_inj. done. }
  destruct (Hf (lease_key c' s')) as [El _].
  { intros [-> ->]%lease_key_inj. done. }
  { apply lease_key_not_generation. }
  split; rewrite ?Eg, ?El; auto.
Qed.

Lemma slot_counter r c s σ : slot_at r c s σ → counter_is (redis_get r (generation_key c s)) (ctr σ).
Proof. intros [-> _ _ _]. unfold counter_val. by case_decide. Qed.

Lemma counter_val_pos n : n ≠ 0%N → counter_val n = Some (num_to_string n).
Proof. intros. unfold counter_val. by rewrite decide_False. Qed.

Lemma acquire_script_none r c s n owner p ttl :
  slot_at r c s (mkSlot n None) → in_range (n + 1) → rid_ok owner → (0 < ttl)%Z →
  ∃ r', acquire_script (lease_key c s) (generation_key c s) (to_hex owner) (as_wire_str p) ttl r =
          (Ok ("acquired", held_val (owner, (n + 1)%N, p), num_to_string (n + 1)), r') ∧
        slot_at r' c s (mkSlot (n + 1) (Some (owner, (n + 1)%N, p))) ∧ frame c s r r'.
Proof.
  intros Hs Hr Ho Ht. unfold acquire_script.
  assert (redis_get r (lease_key c s) = None) as -> by apply Hs.
  destruct (redis_get_incr r (generation_key c s) n) as (r1 & -> & Hg & Hp).
  { apply (slot_counter _ _ _ _ Hs). }
  { unfold in_range, lua_exact in Hr. unfold incr_max. lia. }
  rewrite !lua_tostring_exact by done. eexists. split; [done|].
  fold (held_val (owner, (n + 1)%N, p)).
  assert (generation_key c s ≠ lease_key c s) as Hne.
  { intros E. symmetry in E. by apply lease_key_not_generation in E. }
  split; [split|].
  - rewrite redis_get_set by done. rewrite decide_False by done. rewrite Hg, decide_True by done.
    cbn [ctr]. rewrite counter_val_pos by lia. done.
  - apply redis_persistent_set; [done|]. apply Hp, Hs.
  - rewrite redis_get_set by done. by rewrite decide_True.
  - intros o g p' [= <- <- <-]. cbn. split; [done|lia].
  - intros k Hk1 Hk2. rewrite redis_get_set by done. rewrite decide_False by done.
    rewrite Hg, decide_False by done. split; [done|]. intros. apply redis_persistent_set; [done|].
    by apply Hp.
Qed.

(** The generation a lease script reports: the counter of the slot. *)
Lemma slot_known r c s σ g :
  slot_at r c s σ → held σ ≠ None → default g (redis_get r (generation_key c s)) = num_to_string (ctr σ).
Proof.
  intros [-> _ _ Hok] Hh. destruct (held σ) as [[[o g'] p]|] eqn:E; [|done].
  destruct (Hok _ _ _ E) as [_ ?]. rewrite counter_val_pos by lia. done.
Qed.

Definition acquire_reply (owner : RuntimeId) (p : Profile) σ : string * string * string :=
  match held σ with
  | Some h => ("exists", held_val h, num_to_string (ctr σ))
  | None => ("acquired", held_val (owner, (ctr σ + 1)%N, p), num_to_string (ctr σ + 1))
  end.

Lemma acquire_script_slot r c s σ owner p ttl :
  slot_at r c s σ → in_range (ctr σ + 1) → rid_ok owner → (0 < ttl)%Z →
  ∃ r', acquire_script (lease_key c s) (generation_key c s) (to_hex owner) (as_wire_str p) ttl r =
          (Ok (acquire_reply owner p σ), r') ∧
        slot_at r' c s (spec_acquire owner p σ) ∧ frame c s r r'.
Proof.
  intros Hs Hr Ho Ht. unfold acquire_reply, spec_acquire. destruct (held σ) as [h|] eqn:E.
  - unfold acquire_script. rewrite (sa_lease _ _ _ _ Hs), E. cbn [fmap option_fmap option_map].
    rewrite (slot_known r c s σ) by (done || by rewrite E). eexists. auto using frame_refl.
  - destruct σ as [n h]. simpl in *. subst h. by apply acquire_script_none.
Qed.

Lemma holds_iff σ o g : holds σ o g = true ↔ ∃ p, held σ = Some (o, g, p).
Proof.
  unfold holds. destruct (held σ) as [[[o' g'] p]|]; [|naive_solver].
  rewrite bool_decide_eq_true. naive_solver.
Qed.

(** The comparison the scripts make is the one of the specification. *)
Lemma script_match_holds o g owner gen :
  (g ≤ u64_max)%N → (gen ≤ u64_max)%N →
  (to_hex o = to_hex owner ∧ num_to_string g = num_to_string gen) ↔ (o = owner ∧ g = gen).
Proof.
  intros Hg Hgen. split; [|naive_solver]. intros [E1%to_hex_inj E2%num_to_string_inj];
    [done|by apply u64_digits|by apply u64_digits].
Qed.

Definition own_reply (done_status : string) (owner : RuntimeId) (g : N) σ :
    string * string * string :=
  match held σ with
  | None => ("missing", "", default "" (counter_val (ctr σ)))
  | Some h => (if holds σ owner g then done_status else "lost", held_val h, num_to_string (ctr σ))
  end.

Lemma release_script_slot r c s σ owner g :
  slot_at r c s σ → in_range (ctr σ) → rid_ok owner → (g ≤ u64_max)%N →
  ∃ r', release_script (lease_key c s) (generation_key c s) (to_hex owner) (num_to_string g) r =
          (Ok (own_reply "released" owner g σ), r') ∧
        slot_at r' c s (spec_release owner g σ) ∧ frame c s r r'.
Proof.
  intros Hs Hr Ho Hg. unfold own_reply, spec_release, release_script, holds.
  rewrite (sa_lease _ _ _ _ Hs). destruct (held σ) as [[[o g'] p]|] eqn:E;
    cbn [fmap option_fmap option_map].
  2:{ rewrite (sa_counter _ _ _ _ Hs). eexists. auto using frame_refl. }
  destruct (sa_ok _ _ _ _ Hs _ _ _ E) as [Ho' Hg'].
  assert (g' ≤ u64_max)%N by (apply in_range_u64 in Hr; lia).
  rewrite lua_match3_value by done.
  assert (generation_key c s ≠ lease_key c s) as Hne.
  { intros E'. symmetry in E'. by apply lease_key_not_generation in E'. }
  destruct (decide (o = owner ∧ g' = g)) as [[-> ->]|Hno].
  - rewrite decide_True, bool_decide_eq_true_2 by done. eexists. split; [|split; [split|]].
    + rewrite redis_get_del, decide_False by done. rewrite (slot_known r c s σ) by (done || by rewrite E).
      done.
    + rewrite redis_get_del, decide_False by done. apply Hs.
    + apply redis_persistent_del, Hs.
    + by rewrite redis_get_del, decide_True.
    + done.
    + intros k Hk _. rewrite redis_get_del, decide_False by done. split; [done|apply redis_persistent_del].
  - rewrite decide_False by (by rewrite script_match_holds).
    rewrite bool_decide_eq_false_2 by done.
    rewrite (slot_known r c s σ) by (done || by rewrite E). eexists. auto using frame_refl.
Qed.

Lemma renew_script_slot r c s σ owner g ttl :
  slot_at r c s σ → in_range (ctr σ) → rid_ok owner → (g ≤ u64_max)%N → (0 < ttl)%Z →
  ∃ r', renew_script (lease_key c s) (generation_key c s) (to_hex owner) (num_to_string g) ttl r =
          (Ok (own_reply "renewed" owner g σ), r') ∧ slot_at r' c s σ ∧ frame c s r r'.
Proof.
  intros Hs Hr Ho Hg Ht. unfold own_reply, renew_script, holds.
  rewrite (sa_lease _ _ _ _ Hs). destruct (held σ) as [[[o g'] p]|] eqn:E;
    cbn [fmap option_fmap option_map].
  2:{ rewrite (sa_counter _ _ _ _ Hs). eexists. auto using frame_refl. }
  destruct (sa_ok _ _ _ _ Hs _ _ _ E) as [Ho' Hg'].
  assert (g' ≤ u64_max)%N by (apply in_range_u64 in Hr; lia).
  rewrite lua_match3_value by done.
  assert (generation_key c s ≠ lease_key c s) as Hne.
  { intros E'. symmetry in E'. by apply lease_key_not_generation in E'. }
  destruct (decide (o = owner ∧ g' = g)) as [[-> ->]|Hno].
  - rewrite decide_True, bool_decide_eq_true_2 by done. eexists. split; [|split; [split|]].
    + rewrite redis_get_pexpire by done. by rewrite (slot_known r c s σ) by (done || by rewrite E).
    + rewrite redis_get_pexpire by done. apply Hs.
    + apply redis_persistent_pexpire; [done|apply Hs].
    + rewrite redis_get_pexpire by done. apply Hs.
    + apply Hs.
    + intros k Hk _. rewrite redis_get_pexpire by done. split; [done|].
      by apply redis_persistent_pexpire.
  - rewrite decide_False by (by rewrite script_match_holds).
    rewrite bool_decide_eq_false_2 by done.
    rewrite (slot_known r c s σ) by (done || by rewrite E). eexists. auto using frame_refl.
Qed.

(** ** The methods

    Whatever fails around the script, the key space afterwards is the old one or
    the one the script leaves, and an [Ok] means the script ran. *)

Lemma run_mutation_state {A} env (script : redis → result string A * redis) r :
  (run_mutation env script r).2 = r ∨ (run_mutation env script r).2 = (script r).2.
Proof.
  unfold run_mutation. pose proof (call_state (ce_redis env) script r) as Hc.
  destruct (call (ce_redis env) script r) as [res r'] eqn:E. simpl in Hc.
  destruct (ce_serving env) as [|b before lost after f]; [done|].
  destruct before; [|auto]. destruct lost as [[]|]; simpl; [done|auto|]. by destruct after.
Qed.

Lemma run_mutation_Ok {A} env (script : redis → result string A * redis) r a r' :
  run_mutation env script r = (Ok a, r') → script r = (Ok a, r').
Proof.
  unfold run_mutation.
  destruct (call (ce_redis env) script r) as [res r1] eqn:E.
  assert (∀ r2, (flatten res, r1) = (Ok a, r2) → script r = (Ok a, r2)) as Hcall.
  { intros r2 [= Hf <-]. unfold flatten in Hf. destruct res as [inner|]; [|done]. simpl in Hf.
    apply call_Ok in E. destruct inner; simpl in Hf; [congruence|done]. }
  destruct (ce_serving env) as [|b before lost after f]; [apply Hcall|].
  destruct before; [|done]. destruct lost as [[]|]; [done|done|]. destruct after; [apply Hcall|done].
Qed.

Lemma run_mutation_slot {A} env (script : redis → result string A * redis) r c s σ reply σ' res r' :
  slot_at r c s σ →
  (∃ r1, script r = (Ok reply, r1) ∧ slot_at r1 c s σ' ∧ frame c s r r1) →
  run_mutation env script r = (res, r') →
  (slot_at r' c s σ ∨ slot_at r' c s σ') ∧ frame c s r r' ∧
  (∀ a, res = Ok a → a = reply ∧ slot_at r' c s σ').
Proof.
  intros Hs (r1 & Hscript & Hs1 & Hf) Hrun.
  pose proof (run_mutation_state env script r) as Hst. rewrite Hrun, Hscript in Hst. simpl in Hst.
  split; [|split].
  - destruct Hst as [-> | ->]; auto.
  - destruct Hst as [-> | ->]; auto using frame_refl.
  - intros a ->. apply run_mutation_Ok in Hrun. rewrite Hscript in Hrun. by injection Hrun as -> ->.
Qed.

(** Decides the comparisons of a reply's status. *)
Ltac status_cases H :=
  repeat match type of H with
  | context [decide ?P] =>
      first [ rewrite (decide_True (P:=P)) in H by (done || (by left) || (by right))
            | rewrite (decide_False (P:=P)) in H by (done || (by intros [?|?])) ]
  end.

Lemma ttl_ms_pos ttl t : ttl_ms ttl = Ok t → (0 < t)%Z.
Proof.
  unfold ttl_ms. destruct (_ && _) eqn:E; [|done]. intros [= <-].
  apply andb_true_iff in E as [_ E%N.ltb_lt]. lia.
Qed.

Definition acquire_answer c s (owner : RuntimeId) (p : Profile) σ : AcquireResult :=
  match slot_lease c s σ with
  | Some l => Exists l
  | None => Acquired (mkLease c s owner (ctr σ + 1) p)
  end.

Lemma acquire_slot ttl env c s owner p r res r' σ :
  acquire ttl env c s owner p r = (res, r') →
  slot_at r c s σ → in_range (ctr σ + 1) → rid_ok owner →
  (slot_at r' c s σ ∨ slot_at r' c s (spec_acquire owner p σ)) ∧ frame c s r r' ∧
  (∀ a, res = Ok a → a = acquire_answer c s owner p σ ∧ slot_at r' c s (spec_acquire owner p σ)).
Proof.
  intros Hacq Hs Hr Ho. unfold acquire in Hacq.
  destruct (begin_serving_write env) as [[]|]; [|injection Hacq as <- <-; split_and!; [by auto|apply frame_refl|done]].
  destruct (ttl_ms ttl) as [t|] eqn:Et; [|injection Hacq as <- <-; split_and!; [by auto|apply frame_refl|done]].
  destruct (ce_pool env) as [[]|]; [|injection Hacq as <- <-; split_and!; [by auto|apply frame_refl|done]].
  destruct (run_mutation env _ r) as [res1 r1] eqn:Erun.
  eapply run_mutation_slot in Erun as (Hst & Hf & Hok);
    [|exact Hs|apply acquire_script_slot; eauto using ttl_ms_pos].
  injection Hacq as <- <-. split; [done|]. split; [done|]. intros a Ha.
  destruct res1 as [reply|]; [|done]. destruct (Hok _ eq_refl) as [-> Hs']. split; [|done].
  unfold acquire_reply, acquire_answer, slot_lease in *.
  destruct (held σ) as [[[o g] p']|] eqn:E; cbn [fmap option_fmap option_map].
  - destruct (sa_ok _ _ _ _ Hs _ _ _ E) as [? ?].
    rewrite parse_lease_value in Ha by (done || apply in_range_u64 in Hr; lia).
    destruct (finish_serving_write env) as [[]|]; [|done]. status_cases Ha. by injection Ha as <-.
  - rewrite parse_lease_value in Ha by (done || apply in_range_u64 in Hr; lia).
    destruct (finish_serving_write env) as [[]|]; [|done]. status_cases Ha. by injection Ha as <-.
Qed.

Definition known_of (n : N) : option N := if decide (n = 0%N) then None else Some n.

Definition renew_answer c s (owner : RuntimeId) (g : N) σ : RenewResult :=
  match slot_lease c s σ with
  | Some l => if holds σ owner g then Renewed l else Lost (Some l) (known_of (ctr σ))
  | None => Lost None (known_of (ctr σ))
  end.

Definition release_answer c s (owner : RuntimeId) (g : N) σ : ReleaseResult :=
  match slot_lease c s σ with
  | Some l => if holds σ owner g then Released l else NotOwner (Some l) (known_of (ctr σ))
  | None => NotOwner None (known_of (ctr σ))
  end.

(** The two replies of the ownership scripts, parsed. *)
Lemma parse_held c s r σ o g p :
  slot_at r c s σ → in_range (ctr σ) → held σ = Some (o, g, p) →
  parse_optional_lease c s (held_val (o, g, p)) = Ok (Some (mkLease c s o g p)) ∧
  parse_optional_generation c s (num_to_string (ctr σ)) = Ok (known_of (ctr σ)).
Proof.
  intros Hs Hr E. destruct (sa_ok _ _ _ _ Hs _ _ _ E) as [? ?].
  pose proof (in_range_u64 _ Hr). split; [apply parse_optional_lease_value; [done|lia]|].
  pose proof (parse_optional_generation_val c s (ctr σ) ltac:(done)) as Hp.
  by rewrite counter_val_pos in Hp by lia.
Qed.

Lemma renew_slot ttl env l r res r' σ :
  let c := sl_community_id l in let s := sl_session_id l in
  renew ttl env l r = (res, r') → lease_wf l →
  slot_at r c s σ → in_range (ctr σ) →
  slot_at r' c s σ ∧ frame c s r r' ∧
  (∀ a, res = Ok a → a = renew_answer c s (sl_owner_runtime_id l) (sl_generation l) σ).
Proof.
  intros c s Hren [Ho Hg] Hs Hr. unfold renew in Hren.
  destruct (begin_serving_write env) as [[]|]; [|injection Hren as <- <-; split_and!; [by auto|apply frame_refl|done]].
  destruct (ttl_ms ttl) as [t|] eqn:Et; [|injection Hren as <- <-; split_and!; [by auto|apply frame_refl|done]].
  destruct (ce_pool env) as [[]|]; [|injection Hren as <- <-; split_and!; [by auto|apply frame_refl|done]].
  destruct (run_mutation env _ r) as [res1 r1] eqn:Erun.
  eapply run_mutation_slot in Erun as (Hst & Hf & Hok);
    [|exact Hs|apply renew_script_slot; eauto using ttl_ms_pos].
  injection Hren as <- <-. split; [by destruct Hst|]. split; [done|]. intros a Ha.
  destruct res1 as [reply|]; [|done]. destruct (Hok _ eq_refl) as [-> _].
  unfold own_reply, renew_answer, slot_lease in *. fold c s in Ha.
  destruct (held σ) as [[[o g] p]|] eqn:E; cbn [fmap option_fmap option_map].
  - destruct (parse_held c s r σ o g p Hs Hr E) as [E1 E2]. rewrite E1 in Ha.
    destruct (finish_serving_write env) as [[]|]; [|done].
    destruct (holds σ _ _) eqn:Eh; status_cases Ha; [by injection Ha as <-|]. rewrite E2 in Ha. by injection Ha as <-.
  - unfold parse_optional_lease in Ha. status_cases Ha.
    destruct (finish_serving_write env) as [[]|]; [|done]. status_cases Ha.
    rewrite parse_optional_generation_val in Ha by (by apply in_range_u64). by injection Ha as <-.
Qed.

Lemma release_slot env l r res r' σ :
  let c := sl_community_id l in let s := sl_session_id l in
  let σ' := spec_release (sl_owner_runtime_id l) (sl_generation l) σ in
  release env l r = (res, r') → lease_wf l →
  slot_at r c s σ → in_range (ctr σ) →
  (slot_at r' c s σ ∨ slot_at r' c s σ') ∧ frame c s r r' ∧
  (∀ a, res = Ok a → a = release_answer c s (sl_owner_runtime_id l) (sl_generation l) σ ∧
                     slot_at r' c s σ').
Proof.
  intros c s σ' Hrel [Ho Hg] Hs Hr. unfold release in Hrel.
  destruct (begin_serving_write env) as [[]|]; [|injection Hrel as <- <-; split_and!; [by auto|apply frame_refl|done]].
  destruct (ce_pool env) as [[]|]; [|injection Hrel as <- <-; split_and!; [by auto|apply frame_refl|done]].
  destruct (run_mutation env _ r) as [res1 r1] eqn:Erun.
  eapply run_mutation_slot in Erun as (Hst & Hf & Hok);
    [|exact Hs|apply release_script_slot; eauto].
  injection Hrel as <- <-. split; [done|]. split; [done|]. intros a Ha.
  destruct res1 as [reply|]; [|done]. destruct (Hok _ eq_refl) as [-> Hs']. split; [|done].
  unfold own_reply, release_answer, slot_lease in *. fold c s in Ha.
  destruct (held σ) as [[[o g] p]|] eqn:E; cbn [fmap option_fmap option_map].
  - destruct (parse_held c s r σ o g p Hs Hr E) as [E1 E2]. rewrite E1 in Ha.
    destruct (finish_serving_write env) as [[]|]; [|done].
    destruct (holds σ _ _) eqn:Eh; status_cases Ha; [by injection Ha as <-|]. rewrite E2 in Ha. by injection Ha as <-.
  - unfold parse_optional_lease in Ha. status_cases Ha.
    destruct (finish_serving_write env) as [[]|]; [|done]. status_cases Ha.
    rewrite parse_optional_generation_val in Ha by (by apply in_range_u64). by injection Ha as <-.
Qed.

(** A release whose call reaches Redis always answers. *)
Lemma release_delivered l r σ :
  let c := sl_community_id l in let s := sl_session_id l in
  lease_wf l → slot_at r c s σ → in_range (ctr σ) →
  ∃ r', release (mkEnv NoDb (Ok tt) Delivered) l r =
          (Ok (release_answer c s (sl_owner_runtime_id l) (sl_generation l) σ), r') ∧
        slot_at r' c s (spec_release (sl_owner_runtime_id l) (sl_generation l) σ).
Proof.
  intros c s [Ho Hg] Hs Hr.
  destruct (release_script_slot r c s σ (sl_owner_runtime_id l) (sl_generation l) Hs Hr Ho Hg)
    as (r1 & Es & Hs' & _).
  exists r1. split; [|done]. unfold release, run_mutation, begin_serving_write, finish_serving_write.
  cbn [ce_serving ce_pool ce_redis call]. fold c s. rewrite Es. cbn [flatten map_err]. f_equal.
  unfold own_reply, release_answer, slot_lease.
  destruct (held σ) as [[[o g] p]|] eqn:E; cbn [fmap option_fmap option_map].
  - destruct (parse_held c s r σ o g p Hs Hr E) as [-> E2].
    destruct (holds σ _ _); [by rewrite decide_True|].
    rewrite decide_False, decide_True by auto. by rewrite E2.
  - unfold parse_optional_lease. rewrite decide_True by done.
    rewrite decide_False, decide_True by auto.
    by rewrite parse_optional_generation_val by (by apply in_range_u64).
Qed.

(** ** Validation *)

Definition spec_validate s (fenced : FencedHeader) σ : result MeshError unit :=
  let g := fh_generation fenced in
  if ((0 <? ctr σ) && (g <? ctr σ))%N then Err (StaleGeneration s g (ctr σ))
  else
    match held σ with
    | None => Err (NoActiveLease s g (ctr σ) (fh_owner_runtime_id fenced))
    | Some (o, g', _) =>
        if decide (g ≠ g') then Err (FutureGeneration s g g')
        else if decide (fh_owner_runtime_id fenced ≠ o) then
          Err (OwnerMismatch s g (fh_owner_runtime_id fenced) o)
        else Ok tt
    end.

Lemma validate_slot text c fenced r σ :
  let s := fh_session_id fenced in
  slot_at r c s σ → in_range (ctr σ) →
  validate_fenced_header text (Ok tt) Delivered c fenced r = spec_validate s fenced σ.
Proof.
  intros s Hs Hr. unfold validate_fenced_header, spec_validate.
  cbn [map_err call validate_script fst snd]. fold s.
  rewrite (sa_counter _ _ _ _ Hs), (sa_lease _ _ _ _ Hs).
  rewrite parse_optional_generation_val by (by apply in_range_u64).
  cbn [map_err]. assert (default 0%N (if decide (ctr σ = 0%N) then None else Some (ctr σ)) = ctr σ) as ->.
  { by destruct (decide (ctr σ = 0%N)) as [->|]. }
  destruct (held σ) as [[[o g] p]|] eqn:E; cbn [fmap option_fmap option_map].
  - destruct (sa_ok _ _ _ _ Hs _ _ _ E) as [Ho Hg]. change (default "" (Some (held_val (o, g, p))))
      with (held_val (o, g, p)).
    rewrite parse_optional_lease_value by (done || apply in_range_u64 in Hr; lia).
    cbn [map_err sl_generation sl_owner_runtime_id]. by rewrite N.max_r by lia.
  - unfold parse_optional_lease. rewrite decide_True by done. cbn [map_err]. by rewrite N.max_id.
Qed.

(** A header is accepted only at the last generation handed out, while the lease
    is in force, from its owner. *)
Lemma spec_validate_ok s fenced σ :
  slot_ok σ → spec_validate s fenced σ = Ok tt →
  fh_generation fenced = ctr σ ∧ ∃ p, held σ = Some (fh_owner_runtime_id fenced, ctr σ, p).
Proof.
  intros Hok. unfold spec_validate. destruct (_ && _) eqn:Est; [done|].
  destruct (held σ) as [[[o g] p]|] eqn:E; [|done].
  destruct (Hok _ _ _ E) as [_ Hg].
  destruct (decide (fh_generation fenced ≠ g)) as [|Hgen]; [done|].
  destruct (decide (fh_owner_runtime_id fenced ≠ o)) as [|Hown]; [done|]. intros _.
  apply dec_stable in Hgen, Hown. subst.
  apply andb_false_iff in Est. rewrite !N.ltb_ge in Est.
  assert (fh_generation fenced = ctr σ) as Heq by lia. rewrite <-Heq. eauto.
Qed.

(** ** One step of an execution *)

(** What an event says about the slot of session [(c, s)] before and after. *)
Definition event_spec c s σ (e : dir_event) σ' : Prop :=
  match e with
  | EAcquire c' s' owner p res =>
      if decide ((c', s') = (c, s)) then
        (σ' = σ ∨ σ' = spec_acquire owner p σ) ∧
        ∀ a, res = Ok a → a = acquire_answer c s owner p σ ∧ σ' = spec_acquire owner p σ
      else σ' = σ
  | ERenew l res =>
      σ' = σ ∧
      ((sl_community_id l, sl_session_id l) = (c, s) →
       ∀ a, res = Ok a → a = renew_answer c s (sl_owner_runtime_id l) (sl_generation l) σ)
  | ERelease l res =>
      if decide ((sl_community_id l, sl_session_id l) = (c, s)) then
        let σ1 := spec_release (sl_owner_runtime_id l) (sl_generation l) σ in
        (σ' = σ ∨ σ' = σ1) ∧
        ∀ a, res = Ok a →
          a = release_answer c s (sl_owner_runtime_id l) (sl_generation l) σ ∧ σ' = σ1
      else σ' = σ
  | EElapse => σ' = σ ∨ σ' = mkSlot (ctr σ) None
  | EOther => σ' = σ
  end.

Lemma spec_acquire_step owner p σ : slot_step σ (spec_acquire owner p σ).
Proof. destruct σ as [n [h|]]; [apply slot_same|apply slot_new]. Qed.

Lemma spec_release_step owner g σ : slot_step σ (spec_release owner g σ).
Proof. unfold spec_release. destruct (holds σ owner g); constructor. Qed.

Lemma event_spec_step c s σ e σ' : event_spec c s σ e σ' → slot_step σ σ'.
Proof.
  destruct e; simpl.
  - case_decide; [|intros ->; constructor]. intros [[-> | ->] _]; [constructor|apply spec_acquire_step].
  - intros [-> _]. constructor.
  - case_decide; [|intros ->; constructor]. intros [[-> | ->] _]; [constructor|apply spec_release_step].
  - intros [-> | ->]; constructor.
  - intros ->. constructor.
Qed.

(** The slot after a step that leaves one of two slots, with the right one when
    the call returned a value. *)
Lemma pick_slot {A} (res : result DirectoryError A) (Q : A → Prop) r c s σ σ' :
  slot_at r c s σ ∨ slot_at r c s σ' →
  (∀ a, res = Ok a → Q a ∧ slot_at r c s σ') →
  ∃ σ1, slot_at r c s σ1 ∧ (σ1 = σ ∨ σ1 = σ') ∧ ∀ a, res = Ok a → Q a ∧ σ1 = σ'.
Proof.
  intros Hst Hok. destruct res as [a|e].
  - destruct (Hok a eq_refl) as [HQ Hs]. exists σ'. split; [done|]. split; [by right|].
    by intros a' [= <-].
  - destruct Hst; [exists σ|exists σ']; split_and!; auto; done.
Qed.

Lemma elapse_slot r r' c s σ :
  redis_elapse r r' → slot_at r c s σ →
  ∃ σ', slot_at r' c s σ' ∧ (σ' = σ ∨ σ' = mkSlot (ctr σ) None).
Proof.
  intros He [Hc Hp Hl Hok]. destruct (redis_elapse_persistent _ _ _ He Hp) as [Eg Pg].
  destruct (redis_elapse_get _ _ (lease_key c s) He) as [El|El].
  - exists σ. split; [split; rewrite ?Eg, ?El; auto|by left].
  - exists (mkSlot (ctr σ) None). split; [split; cbn; rewrite ?Eg, ?El; auto; done|by right].
Qed.

(** Every session has a slot, with at most [b] generations handed out. *)
Definition dir_wf (b : N) r : Prop := ∀ c s, ∃ σ, slot_at r c s σ ∧ (ctr σ ≤ b)%N.

Lemma in_range_le n b : (n ≤ b)%N → in_range b → in_range n.
Proof. unfold in_range. lia. Qed.

Lemma step_slot b r e r' c s σ :
  dir_step r e r' → slot_at r c s σ → (ctr σ ≤ b)%N → dir_wf b r → in_range (b + 1) →
  ∃ σ', slot_at r' c s σ' ∧ event_spec c s σ e σ'.
Proof.
  intros Hstep Hs Hb Hall Hr.
  assert (in_range (ctr σ)) as Hr0 by (eapply in_range_le; [|exact Hr]; lia).
  assert (in_range (ctr σ + 1)) as Hr1 by (eapply in_range_le; [|exact Hr]; lia).
  destruct Hstep as
    [ttl env c' s' owner p r res r' Ho Hc|ttl env l r res r' Hl Hc|env l r res r' Hl Hc|r r' He|r r' Ho].
  - destruct (Hall c' s') as (σ0 & Hs0 & Hb0).
    destruct (acquire_slot _ _ _ _ _ _ _ _ _ _ Hc Hs0) as (Hst & Hf & Hok);
      [eapply in_range_le; [|exact Hr]; lia|done|].
    simpl. case_decide as Heq.
    + injection Heq as -> ->.
      destruct (acquire_slot _ _ _ _ _ _ _ _ _ _ Hc Hs Hr1 Ho) as (Hst' & _ & Hok').
      destruct (pick_slot _ _ _ _ _ _ _ Hst' Hok') as (σ1 & ? & ? & ?). eauto.
    + exists σ. split; [|done]. eapply frame_slot; eauto.
  - destruct (Hall (sl_community_id l) (sl_session_id l)) as (σ0 & Hs0 & Hb0).
    assert (in_range (ctr σ0)) by (eapply in_range_le; [|exact Hr]; lia).
    destruct (renew_slot _ _ _ _ _ _ _ Hc Hl Hs0) as (Hs' & Hf & Hok); [done|].
    destruct (decide ((c, s) = (sl_community_id l, sl_session_id l))) as [Heq|Hne].
    + injection Heq as -> ->.
      destruct (renew_slot _ _ _ _ _ _ _ Hc Hl Hs Hr0) as (Hs1 & _ & Hok').
      exists σ. split; [done|]. split; [done|]. auto.
    + exists σ. split; [by eapply frame_slot|]. split; [done|]. intros Heq. by rewrite Heq in Hne.
  - destruct (Hall (sl_community_id l) (sl_session_id l)) as (σ0 & Hs0 & Hb0).
    assert (in_range (ctr σ0)) by (eapply in_range_le; [|exact Hr]; lia).
    destruct (release_slot _ _ _ _ _ _ Hc Hl Hs0) as (_ & Hf & _); [done|].
    simpl. case_decide as Heq.
    + injection Heq as <- <-.
      destruct (release_slot _ _ _ _ _ _ Hc Hl Hs Hr0) as (Hst & _ & Hok).
      destruct (pick_slot _ _ _ _ _ _ _ Hst Hok) as (σ1 & ? & ? & ?). eauto.
    + exists σ. split; [eapply frame_slot; eauto|done].
  - by apply elapse_slot with (r := r).
  - exists σ. split; [|done]. destruct Hs as [Hc Hp Hl Hok].
    destruct (Ho c s (generation_key c s)) as [Eg Pg]; [by right|].
    destruct (Ho c s (lease_key c s)) as [El _]; [by left|].
    split; rewrite ?Eg, ?El; auto.
Qed.

(** ** Executions *)

Lemma slot_step_ctr σ σ' : slot_step σ σ' → (ctr σ ≤ ctr σ' ≤ ctr σ + 1)%N.
Proof. destruct 1; simpl; lia. Qed.

Lemma step_wf b r e r' : dir_step r e r' → dir_wf b r → in_range (b + 1) → dir_wf (b + 1) r'.
Proof.
  intros Hstep Hwf Hr c s. destruct (Hwf c s) as (σ & Hs & Hb).
  destruct (step_slot b r e r' c s σ) as (σ' & Hs' & He); try done.
  exists σ'. split; [done|]. apply event_spec_step, slot_step_ctr in He. lia.
Qed.

(** The bound after [n] more steps. *)
Definition room_for (b : N) (l : list dir_event) : Prop := in_range (b + N.of_nat (length l)).

Lemma room_for_cons b e l : room_for b (e :: l) → in_range (b + 1) ∧ room_for (b + 1) l.
Proof. unfold room_for, in_range. simpl. lia. Qed.

Lemma steps_slot b r l r' c s σ :
  dir_steps r l r' → slot_at r c s σ → (ctr σ ≤ b)%N → dir_wf b r → room_for b l →
  ∃ σ', slot_at r' c s σ' ∧ rtc slot_step σ σ' ∧ (ctr σ' ≤ b + N.of_nat (length l))%N.
Proof.
  intros Hsteps. revert b σ.
  induction Hsteps as [r|r e r1 l r2 Hstep Hsteps IH]; intros b σ Hs Hb Hwf Hr; cbn [length].
  { exists σ. split; [done|]. split; [done|]. lia. }
  apply room_for_cons in Hr as [Hr1 Hr].
  destruct (step_slot b _ _ _ _ _ _ Hstep Hs Hb Hwf Hr1) as (σ1 & Hs1 & He).
  apply event_spec_step in He. destruct (IH (b + 1)%N σ1) as (σ2 & ? & ? & ?); try done.
  - apply slot_step_ctr in He. lia.
  - by eapply step_wf.
  - exists σ2. split; [done|]. split; [by eapply rtc_l|lia].
Qed.

(** Generations only grow, and a lease in force is the old one or a newer
    generation. *)
Lemma slot_steps_mono σ σ' :
  rtc slot_step σ σ' →
  (ctr σ ≤ ctr σ')%N ∧ ∀ h, held σ' = Some h → held σ = Some h ∨ (ctr σ < h.1.2)%N.
Proof.
  induction 1 as [σ|σ σ1 σ2 Hstep _ [IHc IHh]]; [auto|].
  pose proof (slot_step_ctr _ _ Hstep). split; [lia|]. intros h Hh.
  destruct (IHh h Hh) as [Hh1|Hlt]; [|right; lia].
  destruct Hstep as [σ|σ|n o p]; simpl in *; [auto|done|]. injection Hh1 as <-. right. simpl. lia.
Qed.

(** An execution splits at any event. *)
Lemma steps_lookup r l r' i e :
  dir_steps r l r' → l !! i = Some e →
  ∃ r1 r2, dir_steps r (take i l) r1 ∧ dir_step r1 e r2 ∧ dir_steps r2 (drop (S i) l) r'.
Proof.
  intros Hsteps. revert i. induction Hsteps as [r|r e0 r1 l r2 Hstep Hsteps IH]; intros i Hi; [done|].
  destruct i as [|i]; simpl in *.
  - injection Hi as <-. eauto using dir_steps.
  - destruct (IH i Hi) as (ra & rb & ? & ? & ?). eauto 10 using dir_steps.
Qed.

Lemma steps_wf b r l r' :
  dir_steps r l r' → dir_wf b r → room_for b l → dir_wf (b + N.of_nat (length l)) r'.
Proof.
  intros Hsteps. revert b. induction Hsteps as [r|r e r1 l r2 Hstep _ IH]; intros b Hwf Hr; cbn [length].
  { intros c s. destruct (Hwf c s) as (σ & ? & ?). exists σ. split; [done|lia]. }
  apply room_for_cons in Hr as [Hr1 Hr].
  replace (b + N.of_nat (S (length l)))%N with (b + 1 + N.of_nat (length l))%N by lia.
  apply IH; [|done]. by eapply step_wf.
Qed.

Lemma room_for_take b l i : room_for b l → room_for b (take i l).
Proof. unfold room_for, in_range. rewrite length_take. lia. Qed.

Lemma room_for_drop b l i e :
  room_for b l → l !! i = Some e →
  in_range (b + N.of_nat (length (take i l)) + 1) ∧
  room_for (b + N.of_nat (length (take i l)) + 1) (drop (S i) l).
Proof.
  unfold room_for, in_range. intros Hr Hi%lookup_lt_Some.
  rewrite length_take, length_drop. lia.
Qed.

(** The slot right after a successful acquisition in an execution, and the rest
    of the execution from there. *)
Lemma steps_acquired b r l r' i c s owner p lease :
  dir_steps r l r' → dir_wf b r → room_for b l →
  l !! i = Some (EAcquire c s owner p (Ok (Acquired lease))) →
  ∃ r2 σ, dir_steps r2 (drop (S i) l) r' ∧ slot_at r2 c s σ ∧
          ctr σ = sl_generation lease ∧ sl_session_id lease = s ∧ sl_owner_runtime_id lease = owner ∧
          ∃ b', dir_wf b' r2 ∧ (ctr σ ≤ b')%N ∧ room_for b' (drop (S i) l).
Proof.
  intros Hsteps Hwf Hr Hi.
  destruct (steps_lookup _ _ _ _ _ Hsteps Hi) as (r1 & r2 & Hpre & Hstep & Hpost).
  pose proof (steps_wf _ _ _ _ Hpre Hwf (room_for_take _ _ _ Hr)) as Hwf1.
  destruct (room_for_drop _ _ _ _ Hr Hi) as [Hr1 Hr2].
  set (b1 := (b + N.of_nat (length (take i l)))%N) in *.
  destruct (Hwf1 c s) as (σ & Hs & Hb).
  destruct (step_slot b1 _ _ _ _ _ _ Hstep Hs Hb Hwf1 Hr1) as (σ1 & Hs1 & He).
  simpl in He. rewrite decide_True in He by done. destruct He as [_ He].
  destruct (He _ eq_refl) as [Hans ->]. unfold acquire_answer, slot_lease in Hans.
  destruct σ as [n [h|]]; simpl in Hans; [done|]. injection Hans as ->.
  exists r2, (spec_acquire owner p (mkSlot n None)). split; [done|]. split; [done|].
  split; [done|]. split; [done|]. split; [done|].
  exists (b1 + 1)%N. split; [by eapply step_wf|]. split; [simpl in *; lia|done].
Qed.


(** ** Properties *)

(** C37: The directory refines its specification.  In any state with fewer than
    10^14 generations handed out per session, every call of [acquire], [renew] or
    [release] by any runtime -- whatever fails around its script -- and every
    expiry moves each session's slot by a transition of the specification, and a
    call that returns a value returns the specified answer: [Acquired] with the
    next generation exactly when no lease was in force, the lease in force
    otherwise, renewal and release only for the exact owner and generation. *)
Theorem directory_refines b r e r' c s σ :
  dir_step r e r' → dir_wf b r → in_range (b + 1) → slot_at r c s σ → (ctr σ ≤ b)%N →
  ∃ σ', slot_at r' c s σ' ∧ slot_step σ σ' ∧ event_spec c s σ e σ'.
Proof.
  intros Hstep Hwf Hr Hs Hb. destruct (step_slot b r e r' c s σ) as (σ' & ? & ?); try done.
  eauto using event_spec_step.
Qed.

(** Fencing tokens strictly increase.  In any execution of the directory, two
    successful acquisitions of the same session return different generations,
    the later one the larger. *)
Theorem generations_increase b r l r' i j c s o1 p1 l1 o2 p2 l2 :
  dir_steps r l r' → dir_wf b r → room_for b l → i < j →
  l !! i = Some (EAcquire c s o1 p1 (Ok (Acquired l1))) →
  l !! j = Some (EAcquire c s o2 p2 (Ok (Acquired l2))) →
  (sl_generation l1 < sl_generation l2)%N.
Proof.
  intros Hsteps Hwf Hr Hij Hi Hj.
  destruct (steps_acquired b _ _ _ _ _ _ _ _ _ Hsteps Hwf Hr Hi)
    as (ra & σa & Hrest & Hsa & Hca & _ & _ & ba & Hwa & Hba & Hra).
  assert (drop (S i) l !! (j - S i) = Some (EAcquire c s o2 p2 (Ok (Acquired l2)))) as Hj'.
  { rewrite lookup_drop. by replace (S i + (j - S i)) with j by lia. }
  destruct (steps_lookup _ _ _ _ _ Hrest Hj') as (r1 & r2 & Hpre & Hstep & _).
  destruct (steps_slot ba _ _ _ _ _ _ Hpre Hsa Hba Hwa (room_for_take _ _ _ Hra))
    as (σ1 & Hs1 & Hrtc & Hb1).
  pose proof (steps_wf _ _ _ _ Hpre Hwa (room_for_take _ _ _ Hra)) as Hw1.
  destruct (room_for_drop _ _ _ _ Hra Hj') as [Hr1 _].
  destruct (step_slot _ _ _ _ c s σ1 Hstep Hs1 Hb1 Hw1 Hr1) as (σ2 & _ & He).
  simpl in He. rewrite decide_True in He by done. destruct He as [_ He].
  destruct (He _ eq_refl) as [Hans _]. unfold acquire_answer in Hans.
  destruct (slot_lease c s σ1); [done|]. injection Hans as ->. cbn [sl_generation].
  apply slot_steps_mono in Hrtc as [Hmono _]. lia.
Qed.

(** C34: A superseded owner stays fenced out.  Once some runtime acquired a session
    at generation [g], every later frame of that session that carries a smaller
    generation is rejected as stale, whatever happens to the lease in between. *)
Theorem stale_owner_fenced_forever b r l r' i c s owner p lease text fenced :
  dir_steps r l r' → dir_wf b r → room_for b l →
  l !! i = Some (EAcquire c s owner p (Ok (Acquired lease))) →
  fh_session_id fenced = s → (fh_generation fenced < sl_generation lease)%N →
  ∃ known, (sl_generation lease ≤ known)%N ∧
    validate_fenced_header text (Ok tt) Delivered c fenced r' =
      Err (StaleGeneration s (fh_generation fenced) known).
Proof.
  intros Hsteps Hwf Hr Hi <- Hlt.
  destruct (steps_acquired b _ _ _ _ _ _ _ _ _ Hsteps Hwf Hr Hi)
    as (ra & σa & Hrest & Hsa & Hca & _ & _ & ba & Hwa & Hba & Hra).
  destruct (steps_slot ba _ _ _ _ _ _ Hrest Hsa Hba Hwa Hra) as (σ1 & Hs1 & Hrtc & Hb1).
  apply slot_steps_mono in Hrtc as [Hmono _]. exists (ctr σ1). split; [lia|].
  rewrite (validate_slot _ _ _ _ σ1 Hs1) by (by eapply in_range_le).
  unfold spec_validate. rewrite (proj2 (N.ltb_lt 0 (ctr σ1))) by lia.
  by rewrite (proj2 (N.ltb_lt _ (ctr σ1))) by lia.
Qed.

(** C10: One owner per generation, and accepted generations never go back.  If a
    frame header is accepted in one state and another header of the same session
    in a later state, the later one carries a generation at least as large, and
    if the generations are equal the owner is the same. *)
Theorem one_owner_per_generation b r l r' c text h1 h2 :
  dir_steps r l r' → dir_wf b r → room_for b l →
  fh_session_id h1 = fh_session_id h2 →
  validate_fenced_header text (Ok tt) Delivered c h1 r = Ok tt →
  validate_fenced_header text (Ok tt) Delivered c h2 r' = Ok tt →
  (fh_generation h1 ≤ fh_generation h2)%N ∧
  (fh_generation h1 = fh_generation h2 → fh_owner_runtime_id h1 = fh_owner_runtime_id h2).
Proof.
  intros Hsteps Hwf Hr Heq V1 V2.
  destruct (Hwf c (fh_session_id h1)) as (σ & Hs & Hb).
  destruct (steps_slot b _ _ _ _ _ _ Hsteps Hs Hb Hwf Hr) as (σ' & Hs' & Hrtc & Hb').
  assert (in_range (ctr σ')) by (by eapply in_range_le).
  apply slot_steps_mono in Hrtc as [Hmono Hheld].
  rewrite (validate_slot _ _ _ _ σ) in V1; [|done|eapply in_range_le; [|done]; lia].
  rewrite Heq in Hs'. rewrite (validate_slot _ _ _ _ σ') in V2 by done.
  apply spec_validate_ok in V1 as [G1 [p1 E1]]; [|apply Hs].
  apply spec_validate_ok in V2 as [G2 [p2 E2]]; [|apply Hs'].
  split; [lia|]. intros Hg.
  destruct (Hheld _ E2) as [E|Hlt]; [congruence|]. simpl in Hlt. lia.
Qed.

(** A lease that was just acquired is in force: [lookup] returns it and a frame
    with its fence is accepted. *)
Theorem acquired_lease_in_force b ttl env c s owner p r lease r' text :
  acquire ttl env c s owner p r = (Ok (Acquired lease), r') →
  dir_wf b r → in_range (b + 1) → rid_ok owner →
  sl_owner_runtime_id lease = owner ∧
  lookup_lease (Ok tt) Delivered c s r' = Ok (Some lease) ∧
  known_generation (Ok tt) Delivered c s r' = Ok (Some (sl_generation lease)) ∧
  validate_fenced_header text (Ok tt) Delivered c (fenced_header lease) r' = Ok tt.
Proof.
  intros Hacq Hwf Hr Ho. destruct (Hwf c s) as (σ & Hs & Hb).
  assert (in_range (ctr σ + 1)) as Hr1 by (eapply in_range_le; [|exact Hr]; lia).
  destruct (acquire_slot _ _ _ _ _ _ _ _ _ _ Hacq Hs Hr1 Ho) as (_ & _ & Hok).
  destruct (Hok _ eq_refl) as [Hans Hs']. unfold acquire_answer, slot_lease in Hans.
  destruct σ as [n [h|]]; [done|]. simpl in Hans, Hr1. injection Hans as ->.
  unfold fenced_header. cbn [sl_owner_runtime_id sl_generation sl_session_id].
  assert (1 ≤ n + 1 ≤ u64_max)%N by (apply in_range_u64 in Hr1; lia).
  split; [done|]. split; [|split].
  - unfold lookup_lease, get_value. cbn [map_err call fst]. rewrite (sa_lease _ _ _ _ Hs').
    cbn. by rewrite parse_lease_value.
  - unfold known_generation, get_value. cbn [map_err call fst]. rewrite (sa_counter _ _ _ _ Hs').
    cbn [spec_acquire held ctr]. pose proof (parse_optional_generation_val c s (n + 1)) as Hp.
    rewrite counter_val_pos in * by lia. simpl in Hp. rewrite Hp by lia.
    by rewrite decide_False by lia.
  - rewrite (validate_slot text c (mkFenced s (n + 1) owner) r' _ Hs' Hr1). unfold spec_validate. cbn.
    rewrite N.ltb_irrefl, andb_false_r. rewrite !decide_False by auto. done.
Qed.

End refinement.

(** ** A run *)

Module SessionDirectoryDemo.
Import ToyRedis MeshWireDemo.

Definition rid_a : RuntimeId := replicate 32 x0a.
Definition rid_b : RuntimeId := replicate 32 x0b.
Definition ok_env : CallEnv := mkEnv NoDb (Ok tt) Delivered.
Definition text : DirectoryError → string := λ _, "".

Definition acq (c s : N) (o : RuntimeId) (r : gmap string (string * bool)) :=
  acquire 30000 ok_env c s o ReliableStream r.

Definition r0 : gmap string (string * bool) := ∅.
Definition r1 : gmap string (string * bool) := (acq 1 7 rid_a r0).2.
Definition lease_a : SessionLease := mkLease 1 7 rid_a 1 ReliableStream.
Definition lease_b : SessionLease := mkLease 1 7 rid_b 2 ReliableStream.

Example second_runtime_sees_owner : (acq 1 7 rid_b r1).1 = Ok (Exists lease_a).
Proof. vm_compute. reflexivity. Qed.

(** The lease of [a] expires; [b] takes over with the next generation. *)
Definition r2 : gmap string (string * bool) := delete (lease_key 1 7) r1.
Definition r3 : gmap string (string * bool) := (acq 1 7 rid_b r2).2.

Example takeover_bumps_generation : (acq 1 7 rid_b r2).1 = Ok (Acquired lease_b).
Proof. vm_compute. reflexivity. Qed.

(** A late renewal by [a] is refused and does not disturb [b]. *)
Example late_renewal :
  (renew 30000 ok_env lease_a r3).1 = Ok (Lost (Some lease_b) (Some 2%N)).
Proof. vm_compute. reflexivity. Qed.

Lemma empty_wf : dir_wf 0 r0.
Proof.
  intros c s. exists (mkSlot 0 None). split; [|done].
  split; simpl; [done| |done|by intros].
  unfold persistent. unfold r0. by rewrite lookup_empty.
Qed.

Lemma expired : redis_elapse (RedisApi:=toy_redis) r1 r2.
Proof.
  intros k. destruct (decide (k = lease_key 1 7)) as [->|Hne].
  - right. split; [|unfold r2; by rewrite lookup_delete_eq]. eexists. vm_compute. reflexivity.
  - left. unfold r2. by rewrite lookup_delete_ne.
Qed.

Definition trace : list dir_event :=
  [EAcquire 1 7 rid_a ReliableStream (Ok (Acquired lease_a)); EElapse;
   EAcquire 1 7 rid_b ReliableStream (Ok (Acquired lease_b))].

Lemma acq_eq c s o r res :
  (acq c s o r).1 = res →
  acquire 30000 ok_env c s o ReliableStream r = (res, (acq c s o r).2).
Proof. unfold acq. destruct acquire. simpl. congruence. Qed.

Lemma first_acquired : (acq 1 7 rid_a r0).1 = Ok (Acquired lease_a).
Proof. vm_compute. reflexivity. Qed.

Lemma step1 : dir_step (H1:=toy_redis) r0 (EAcquire 1 7 rid_a ReliableStream (Ok (Acquired lease_a))) r1.
Proof. apply (step_acquire 30000 ok_env); [reflexivity|]. apply acq_eq, first_acquired. Qed.

Lemma step3 : dir_step (H1:=toy_redis) r2 (EAcquire 1 7 rid_b ReliableStream (Ok (Acquired lease_b))) r3.
Proof. apply (step_acquire 30000 ok_env); [reflexivity|]. apply acq_eq, takeover_bumps_generation. Qed.

Lemma wf1 : dir_wf (H1:=toy_redis) 1 r1.
Proof. exact (step_wf (H1:=toy_redis) 0 r0 _ r1 step1 empty_wf eq_refl). Qed.

Lemma wf2 : dir_wf (H1:=toy_redis) 2 r2.
Proof. exact (step_wf (H1:=toy_redis) 1 r1 _ r2 (step_elapse _ _ expired) wf1 eq_refl). Qed.

Lemma valid_a : validate_fenced_header text (Ok tt) Delivered 1 (fenced_header lease_a) r1 = Ok tt.
Proof. vm_compute. reflexivity. Qed.

Lemma run : dir_steps (H1:=toy_redis) r0 trace r3.
Proof.
  eapply steps_cons; [exact step1|]. eapply steps_cons; [exact (step_elapse _ _ expired)|].
  eapply steps_cons; [exact step3|apply steps_nil].
Qed.

Lemma directory_refines_witness :
  ∃ σ', slot_at r1 1 7 σ' ∧ slot_step (mkSlot 0 None) σ' ∧
        event_spec 1 7 (mkSlot 0 None) (EAcquire 1 7 rid_a ReliableStream (Ok (Acquired lease_a))) σ'.
Proof.
  apply (directory_refines (H1:=toy_redis) 0 r0); [|exact empty_wf|reflexivity| |reflexivity].
  - exact step1.
  - split; [reflexivity| |reflexivity|intros ? ? ? [=]]. exact I.
Defined.

Lemma generations_increase_witness : (sl_generation lease_a < sl_generation lease_b)%N.
Proof.
  apply (generations_increase (H1:=toy_redis) 0 r0 trace r3 0 2 1 7 rid_a ReliableStream _ rid_b ReliableStream);
    [exact run|exact empty_wf|reflexivity|lia|reflexivity|reflexivity].
Defined.

Lemma stale_owner_fenced_forever_witness :
  ∃ known, (2 ≤ known)%N ∧
    validate_fenced_header text (Ok tt) Delivered 1 (fenced_header lease_a) r3 =
      Err (StaleGeneration 7 1 known).
Proof.
  apply (stale_owner_fenced_forever (H1:=toy_redis) 0 r0 trace r3 2 1 7 rid_b ReliableStream lease_b);
    [exact run|exact empty_wf|reflexivity|reflexivity|reflexivity|reflexivity].
Defined.

Lemma one_owner_per_generation_witness :
  (fh_generation (fenced_header lease_a) ≤ fh_generation (fenced_header lease_a))%N ∧
  (fh_generation (fenced_header lease_a) = fh_generation (fenced_header lease_a) →
   fh_owner_runtime_id (fenced_header lease_a) = fh_owner_runtime_id (fenced_header lease_a)).
Proof.
  apply (one_owner_per_generation (H1:=toy_redis) 1 r1 [] r1 1 text);
    [apply steps_nil|exact wf1|reflexivity|reflexivity|exact valid_a|exact valid_a].
Defined.

Lemma acquired_lease_in_force_witness :
  lookup_lease (Ok tt) Delivered 1 7 r3 = Ok (Some lease_b).
Proof.
  apply (acquired_lease_in_force (H1:=toy_redis) 2 30000 ok_env 1 7 rid_b ReliableStream r2 lease_b r3 text);
    [exact (acq_eq _ _ _ _ _ takeover_bumps_generation)|exact wf2|reflexivity|reflexivity].
Defined.

End SessionDirectoryDemo.
