(* ===== verification/Tunnel.v ===== *)
(** * Reliable tunnel streams ([buzz-relay/src/tunnel/reliable.rs])

    A client's join acquires the session's lease or opens a stream to the runtime
    that holds it ([join], [accept_inbound]); the stream carries chunks of bytes in
    frames that name their community ([ReliableWireFrame], [send_bytes]); every
    frame received is checked against the stream's fence, its community and the
    session directory before its payload is delivered ([recv_validated]); the
    owner's lease is renewed in the background and released at the end
    ([lease_renewer]).  The theorems compose the stream with
    [SessionDirectory]. *)

From stdpp Require Import base gmap strings list.
From Stdlib Require Import Ascii.
From Stdlib.Strings Require Import Byte.
From S2P Require Import Prelude Nostr Redis MeshWire SessionDirectory.

Definition MAX_RELIABLE_PAYLOAD_BYTES : N := 1024 * 1024.

Inductive ReliableStreamError :=
| DirectoryE (e : DirectoryError)
| MeshE (e : MeshError)
| ProfileMismatch (session_id : Uuid) (expected actual : Profile)
| SenderMismatch (peer hello_sender : RuntimeId)
| UnexpectedStreamRole
| OwnerIsNotLocal (session_id : Uuid) (owner_runtime_id local_runtime_id : RuntimeId)
| UnexpectedFrame (kind : string)
| FrameFenceMismatch (expected actual : FencedHeader)
| CommunityMismatch (expected actual : CommunityId)
| MalformedReliableFrame (what : string).

(** ** The frames inside the mesh frames *)

Inductive ReliableWireFrame :=
| WData (community_id : CommunityId) (payload : bytes)
| WGoodbye (community_id : CommunityId) (reason : GoodbyeReason).

Inductive ReliableFrame := RData (payload : bytes) | RGoodbye (reason : GoodbyeReason).

Definition wf_community_id (f : ReliableWireFrame) : CommunityId :=
  match f with WData c _ | WGoodbye c _ => c end.

Definition to_wire_byte (r : GoodbyeReason) : byte :=
  match r with SessionEnded => x01 | Draining => x02 | GoodbyeStale => x03 end.

Definition from_wire_byte (b : byte) : result ReliableStreamError GoodbyeReason :=
  match b with
  | x01 => Ok SessionEnded
  | x02 => Ok Draining
  | x03 => Ok GoodbyeStale
  | _ => Err (MalformedReliableFrame "unknown goodbye reason")
  end.

Definition FRAME_VERSION : byte := x01.
Definition FRAME_DATA : byte := x01.
Definition FRAME_GOODBYE : byte := x02.

Section frames.
Context `{UuidBytes}.

Definition encode_frame (f : ReliableWireFrame) : bytes :=
  match f with
  | WData c payload => FRAME_VERSION :: FRAME_DATA :: uuid_as_bytes c ++ payload
  | WGoodbye c reason => FRAME_VERSION :: FRAME_GOODBYE :: uuid_as_bytes c ++ [to_wire_byte reason]
  end.

Definition decode_frame (b : bytes) : result ReliableStreamError ReliableWireFrame :=
  if (length b <? 18)%nat then Err (MalformedReliableFrame "too short")
  else
    match b with
    | v :: kind :: rest =>
        if decide (v ≠ FRAME_VERSION) then Err (MalformedReliableFrame "unknown version")
        else
          let c := uuid_from_bytes (take 16 rest) in
          if decide (kind = FRAME_DATA) then Ok (WData c (drop 16 rest))
          else if decide (kind = FRAME_GOODBYE) then
            match drop 16 rest with
            | [r] => let? reason := from_wire_byte r in Ok (WGoodbye c reason)
            | _ => Err (MalformedReliableFrame "bad goodbye length")
            end
          else Err (MalformedReliableFrame "unknown kind")
    | _ => Err (MalformedReliableFrame "too short")
    end.

(** [slice::chunks(n)]. *)
Fixpoint chunks_fuel (fuel : nat) (n : nat) (b : bytes) : list bytes :=
  match fuel, b with
  | S fuel', _ :: _ => take n b :: chunks_fuel fuel' n (drop n b)
  | _, _ => []
  end.

Definition chunks (n : nat) (b : bytes) : list bytes := chunks_fuel (length b) n b.

End frames.

(** ** A stream pinned to one session

    [rs_sent] is what was handed to the transport, [rs_finished] whether the
    sending half was finished. *)
Record ReliableMeshStream := mkStream {
  rs_fenced : FencedHeader;
  rs_community : option CommunityId;
  rs_sent : list MeshStreamFrame;
  rs_finished : bool
}.

Definition stream_new (fenced : FencedHeader) : ReliableMeshStream :=
  mkStream fenced None [] false.

Definition new_inbound (fenced : FencedHeader) : ReliableMeshStream := stream_new fenced.

Definition with_community (c : CommunityId) (st : ReliableMeshStream) : ReliableMeshStream :=
  mkStream (rs_fenced st) (Some c) (rs_sent st) (rs_finished st).

Definition ensure_outbound_community (c : CommunityId) (st : ReliableMeshStream) :
    result ReliableStreamError ReliableMeshStream :=
  match rs_community st with
  | Some expected =>
      if decide (expected ≠ c) then Err (CommunityMismatch expected c) else Ok st
  | None => Ok (with_community c st)
  end.

Section stream.
Context `{UuidBytes} `{NostrApi} `{HexApi} `{RedisApi}.

(** The transport's answer to the [n]-th frame of the stream. *)
Variable send_fault : nat → option MeshError.
(** What [finish] of the sending half answers. *)
Variable finish_fault : option MeshError.

Definition stream_send (f : MeshStreamFrame) (st : ReliableMeshStream) :
    result ReliableStreamError unit * ReliableMeshStream :=
  match send_fault (length (rs_sent st)) with
  | Some e => (Err (MeshE e), st)
  | None => (Ok tt, mkStream (rs_fenced st) (rs_community st) (rs_sent st ++ [f]) (rs_finished st))
  end.

Definition stream_finish (st : ReliableMeshStream) :
    result ReliableStreamError unit * ReliableMeshStream :=
  match finish_fault with
  | Some e => (Err (MeshE e), st)
  | None => (Ok tt, mkStream (rs_fenced st) (rs_community st) (rs_sent st) true)
  end.

Fixpoint send_chunks (c : CommunityId) (parts : list bytes) (st : ReliableMeshStream) :
    result ReliableStreamError unit * ReliableMeshStream :=
  match parts with
  | [] => (Ok tt, st)
  | part :: parts' =>
      match stream_send (Data (rs_fenced st) (encode_frame (WData c part))) st with
      | (Err e, st') => (Err e, st')
      | (Ok _, st') => send_chunks c parts' st'
      end
  end.

Definition send_bytes (c : CommunityId) (b : bytes) (st : ReliableMeshStream) :
    result ReliableStreamError unit * ReliableMeshStream :=
  match ensure_outbound_community c st with
  | Err e => (Err e, st)
  | Ok st' => send_chunks c (chunks (N.to_nat MAX_RELIABLE_PAYLOAD_BYTES) b) st'
  end.

Definition send_goodbye (c : CommunityId) (reason : GoodbyeReason) (st : ReliableMeshStream) :
    result ReliableStreamError unit * ReliableMeshStream :=
  match ensure_outbound_community c st with
  | Err e => (Err e, st)
  | Ok st' =>
      match stream_send (Data (rs_fenced st') (encode_frame (WGoodbye c reason))) st' with
      | (Err e, st1) => (Err e, st1)
      | (Ok _, st1) => stream_finish st1
      end
  end.

(** ** Receiving

    [validate] is [directory.validate_fenced_header] at the time of the call. *)

Definition validate_frame_fence (validate : CommunityId → FencedHeader → result MeshError unit)
    (c : CommunityId) (fenced : FencedHeader) (st : ReliableMeshStream) :
    result ReliableStreamError ReliableMeshStream :=
  if decide (fenced ≠ rs_fenced st) then Err (FrameFenceMismatch (rs_fenced st) fenced)
  else
    let mismatch := match rs_community st with
                    | Some expected => bool_decide (expected ≠ c)
                    | None => false
                    end in
    if mismatch then Err (CommunityMismatch (default c (rs_community st)) c)
    else
      let? _ := map_err MeshE (validate c fenced) in
      Ok (match rs_community st with None => with_community c st | Some _ => st end).

(** [recv_validated] on what the transport's [recv_frame] answered. *)
Definition recv_validated (validate : CommunityId → FencedHeader → result MeshError unit)
    (received : result MeshError (option MeshStreamFrame)) (st : ReliableMeshStream) :
    result ReliableStreamError (option ReliableFrame) * ReliableMeshStream :=
  match received with
  | Err e => (Err (MeshE e), st)
  | Ok None => (Ok None, st)
  | Ok (Some (Data fenced payload)) =>
      match decode_frame payload with
      | Err e => (Err e, st)
      | Ok frame =>
          match validate_frame_fence validate (wf_community_id frame) fenced st with
          | Err e => (Err e, st)
          | Ok st' =>
              (Ok (Some (match frame with
                         | WData _ p => RData p
                         | WGoodbye _ reason => RGoodbye reason
                         end)), st')
          end
      end
  | Ok (Some (Goodbye _ _)) => (Err (UnexpectedFrame "goodbye"), st)
  | Ok (Some (Hello _)) => (Err (UnexpectedFrame "hello"), st)
  | Ok (Some (Gossip _)) => (Err (UnexpectedFrame "gossip"), st)
  end.

(** ** Joining *)

Inductive ReliableJoin :=
| Owned (lease : SessionLease)
| Forwarded (lease : SessionLease) (stream : ReliableMeshStream).

(** The [Hello] a non-owner sends to the owner. *)
Definition join_hello (local : RuntimeId) (lease : SessionLease) : StreamHello :=
  mkHello local (Session (fenced_header lease) ReliableStream).

(** [open_session_stream] is the transport's answer. *)
Definition join (ttl : N) (env : CallEnv) (local : RuntimeId)
    (open_session_stream : RuntimeId → StreamHello → result MeshError unit)
    (c : CommunityId) (s : Uuid) (r : redis) : result ReliableStreamError ReliableJoin * redis :=
  let '(res, r') := acquire ttl env c s local ReliableStream r in
  (let? a := map_err DirectoryE res in
   match a with
   | Acquired lease => Ok (Owned lease)
   | Exists lease =>
       if decide (sl_profile lease ≠ ReliableStream) then
         Err (ProfileMismatch s ReliableStream (sl_profile lease))
       else if decide (sl_owner_runtime_id lease = local) then Ok (Owned lease)
       else
         let? _ := map_err MeshE
                     (open_session_stream (sl_owner_runtime_id lease) (join_hello local lease)) in
         Ok (Forwarded lease (stream_new (fenced_header lease)))
   end, r').

Record ReliableInbound := mkInbound {
  in_fenced : FencedHeader;
  in_from : RuntimeId;
  in_stream : ReliableMeshStream
}.

Definition accept_inbound (local from : RuntimeId) (hello : StreamHello) :
    result ReliableStreamError ReliableInbound :=
  if decide (hello_sender hello ≠ from) then Err (SenderMismatch from (hello_sender hello))
  else
    match hello_role hello with
    | Control => Err UnexpectedStreamRole
    | Session fenced profile =>
        if decide (profile ≠ ReliableStream) then
          Err (ProfileMismatch (fh_session_id fenced) ReliableStream profile)
        else if decide (fh_owner_runtime_id fenced ≠ local) then
          Err (OwnerIsNotLocal (fh_session_id fenced) (fh_owner_runtime_id fenced) local)
        else Ok (mkInbound fenced from (new_inbound fenced))
    end.

(** ** The lease renewer

    What wakes the worker: the caller's cancellation, or a tick (with the
    conditions under which [renew] runs).  [renew_loop] returns [None] while the
    worker still waits, otherwise whether the caller cancelled, and whether the
    loss signal was raised. *)
Inductive Wake := Cancelled | Tick (env : CallEnv).

Fixpoint renew_loop (ttl : N) (lease : SessionLease) (wakes : list Wake) (r : redis) :
    option (bool * bool) * redis :=
  match wakes with
  | [] => (None, r)
  | Cancelled :: _ => (Some (true, false), r)
  | Tick env :: wakes' =>
      match renew ttl env lease r with
      | (Ok (Renewed _), r') => renew_loop ttl lease wakes' r'
      | (Ok (Lost _ _), r') => (Some (false, true), r')
      | (Err _, r') => (Some (false, true), r')
      end
  end.

(** The worker to its end: the loop, then the release; the result is the loss
    signal. *)
Definition lease_renewer (ttl : N) (lease : SessionLease) (wakes : list Wake) (release_env : CallEnv)
    (r : redis) : option bool * redis :=
  match renew_loop ttl lease wakes r with
  | (None, r') => (None, r')
  | (Some (caller_cancelled, lost), r') =>
      let '(res, r'') := release release_env lease r' in
      (Some (match res with
             | Ok (Released _) => lost
             | Ok (NotOwner _ _) => true
             | Err _ => if caller_cancelled then lost else true
             end), r'')
  end.

End stream.

(** ** Frames *)

Section frame_lemmas.
Context `{UuidBytes} {UB : UuidBytesLaws _}.

Lemma decode_encode_frame f : uuid_ok (wf_community_id f) → decode_frame (encode_frame f) = Ok f.
Proof.
  intros Hc. unfold decode_frame.
  assert (Nat.ltb (length (encode_frame f)) 18 = false) as ->.
  { apply Nat.ltb_ge. destruct f; simpl; rewrite length_app, uuid_bytes_length; simpl; lia. }
  destruct f as [c p|c reason]; simpl in Hc |- *.
  - rewrite take_app_length', drop_app_length' by (by rewrite uuid_bytes_length).
    by rewrite uuid_from_as.
  - rewrite take_app_length', drop_app_length' by (by rewrite uuid_bytes_length).
    rewrite uuid_from_as by done. by destruct reason.
Qed.

Lemma from_wire_byte_Ok b r : from_wire_byte b = Ok r → b = to_wire_byte r.
Proof. destruct b; simpl; try done; by intros [= <-]. Qed.

Lemma decode_frame_Ok b f :
  decode_frame b = Ok f → b = encode_frame f ∧ uuid_ok (wf_community_id f).
Proof.
  unfold decode_frame. destruct (Nat.ltb_spec (length b) 18) as [|Hlen]; [done|].
  destruct b as [|v [|kind rest]]; [done|done|]. simpl in Hlen.
  destruct (decide (v ≠ FRAME_VERSION)) as [|Hv]; [done|]. apply dec_stable in Hv as ->.
  assert (uuid_as_bytes (uuid_from_bytes (take 16 rest)) = take 16 rest) as Has.
  { apply uuid_as_from. rewrite length_take. lia. }
  destruct (decide (kind = FRAME_DATA)) as [->|].
  { intros [= <-]. simpl. rewrite Has, take_drop. split; [done|apply uuid_from_ok]. }
  destruct (decide (kind = FRAME_GOODBYE)) as [->|]; [|done].
  destruct (drop 16 rest) as [|x [|]] eqn:Ed; [done| |done].
  destruct (from_wire_byte x) as [reason|] eqn:Ex; [|done]. intros [= <-]. simpl.
  apply from_wire_byte_Ok in Ex as ->. rewrite Has, <-Ed, take_drop. split; [done|apply uuid_from_ok].
Qed.

(** The inner frame codec accepts exactly what it produces: a byte string
    decodes to a frame if and only if it is the encoding of that frame (with a
    16-byte community id), so truncated frames, unknown versions, kinds and
    goodbye reasons and trailing bytes after a goodbye are all rejected. *)
Theorem reliable_frame_codec b f :
  decode_frame b = Ok f ↔ b = encode_frame f ∧ uuid_ok (wf_community_id f).
Proof.
  split; [apply decode_frame_Ok|]. intros [-> Hc]. by apply decode_encode_frame.
Qed.

Lemma chunks_fuel_concat fuel n b :
  0 < n → length b ≤ fuel → concat (chunks_fuel fuel n b) = b.
Proof.
  intros Hn. revert b. induction fuel as [|fuel IH]; intros b Hb.
  { by destruct b; [|simpl in Hb; lia]. }
  destruct b as [|x b]; [done|]. cbn [chunks_fuel concat].
  rewrite IH; [by rewrite take_drop|]. rewrite length_drop. simpl in *. lia.
Qed.

Lemma chunks_fuel_length fuel n b : Forall (λ p, length p ≤ n) (chunks_fuel fuel n b).
Proof.
  revert b. induction fuel as [|fuel IH]; intros b; [constructor|].
  destruct b as [|x b]; [constructor|]. cbn [chunks_fuel]. constructor; [rewrite length_take; lia|done].
Qed.

End frame_lemmas.

(** ** Streams *)

Section stream_lemmas.
Context `{UuidBytes} `{NostrApi} `{HexApi} `{RedisApi}.
Context {UB : UuidBytesLaws _} {UL : UuidLaws _} {HL : HexLaws _} {RL : RedisLaws _}.

(** Without transport faults the chunks are appended as data frames. *)
Lemma send_chunks_ok fault c parts st st' :
  send_chunks fault c parts st = (Ok tt, st') →
  st' = mkStream (rs_fenced st) (rs_community st)
          (rs_sent st ++ map (λ p, Data (rs_fenced st) (encode_frame (WData c p))) parts)
          (rs_finished st).
Proof.
  revert st. induction parts as [|p parts IH]; intros st; simpl.
  { intros [= <-]. rewrite app_nil_r. by destruct st. }
  unfold stream_send. destruct (fault _) as [e|]; [done|]. intros Hs.
  rewrite (IH _ Hs). simpl. by rewrite <-app_assoc.
Qed.

Lemma ensure_outbound_ok c st st' :
  ensure_outbound_community c st = Ok st' →
  st' = with_community c st ∧ (rs_community st = None ∨ rs_community st = Some c).
Proof.
  unfold ensure_outbound_community, with_community. destruct st as [f [e|] out fin]; simpl.
  - destruct (decide (e ≠ c)) as [|Hec]; [done|]. apply dec_stable in Hec as ->. intros [= <-]. auto.
  - intros [= <-]. auto.
Qed.

(** The receiver's loop over the frames of a stream. *)
Fixpoint recv_frames validate (frames : list MeshStreamFrame) (st : ReliableMeshStream) :
    result ReliableStreamError (list ReliableFrame) * ReliableMeshStream :=
  match frames with
  | [] => (Ok [], st)
  | f :: frames' =>
      match recv_validated validate (Ok (Some f)) st with
      | (Err e, st') => (Err e, st')
      | (Ok None, st') => (Ok [], st')
      | (Ok (Some x), st') =>
          match recv_frames validate frames' st' with
          | (Ok xs, st'') => (Ok (x :: xs), st'')
          | (Err e, st'') => (Err e, st'')
          end
      end
  end.

Lemma recv_data_frame validate c p st :
  uuid_ok c → (rs_community st = None ∨ rs_community st = Some c) →
  validate c (rs_fenced st) = Ok tt →
  recv_validated validate (Ok (Some (Data (rs_fenced st) (encode_frame (WData c p))))) st =
    (Ok (Some (RData p)), with_community c st).
Proof.
  intros Hc Hcom Hv. unfold recv_validated. rewrite decode_encode_frame by done.
  cbn [wf_community_id]. unfold validate_frame_fence.
  rewrite decide_False by auto. destruct st as [f com out fin]; simpl in *.
  destruct Hcom as [-> | ->]; [by rewrite Hv|].
  rewrite bool_decide_eq_false_2 by auto. by rewrite Hv.
Qed.

Lemma recv_data_frames validate c parts st :
  uuid_ok c → (rs_community st = None ∨ rs_community st = Some c) →
  validate c (rs_fenced st) = Ok tt →
  (recv_frames validate (map (λ p, Data (rs_fenced st) (encode_frame (WData c p))) parts) st).1 =
    Ok (RData <$> parts).
Proof.
  intros Hc. revert st. induction parts as [|p parts IH]; intros st Hcom Hv; [done|].
  cbn [map recv_frames]. rewrite recv_data_frame by done.
  specialize (IH (with_community c st) (or_intror eq_refl) Hv). cbn [with_community rs_fenced] in IH.
  destruct (recv_frames _ _ _) as [res st'] eqn:E. simpl in IH. subst res. done.
Qed.

(** C40: A tunnel carries bytes end to end.  When [send_bytes] succeeds, the frames it
    handed to the transport are, at a receiver with the same fence whose lease
    the directory confirms, delivered as data chunks of at most one mebibyte
    whose concatenation is exactly the bytes sent. *)
Theorem tunnel_delivers_bytes fault validate c b st st' rcv :
  send_bytes fault c b st = (Ok tt, st') → uuid_ok c →
  rs_fenced rcv = rs_fenced st → (rs_community rcv = None ∨ rs_community rcv = Some c) →
  validate c (rs_fenced st) = Ok tt →
  ∃ parts, rs_sent st' = rs_sent st ++ map (λ p, Data (rs_fenced st) (encode_frame (WData c p))) parts ∧
    (recv_frames validate (drop (length (rs_sent st)) (rs_sent st')) rcv).1 = Ok (RData <$> parts) ∧
    concat parts = b ∧ Forall (λ p, length p ≤ N.to_nat MAX_RELIABLE_PAYLOAD_BYTES) parts.
Proof.
  intros Hsend Hc Hf Hcom Hv. unfold send_bytes in Hsend.
  destruct (ensure_outbound_community c st) as [st1|] eqn:E; [|done].
  apply ensure_outbound_ok in E as [-> _]. apply send_chunks_ok in Hsend.
  set (parts := chunks _ b) in *. exists parts. subst st'. cbn [rs_sent with_community rs_fenced].
  split; [done|]. rewrite drop_app_length. rewrite <-Hf in Hv |- *. split; [by apply recv_data_frames|].
  split; [|apply chunks_fuel_length].
  apply chunks_fuel_concat; [|done]. unfold MAX_RELIABLE_PAYLOAD_BYTES. lia.
Qed.

(** What a delivered frame says. *)
Lemma recv_validated_delivers validate received st f st' :
  recv_validated validate received st = (Ok (Some f), st') →
  ∃ w, received = Ok (Some (Data (rs_fenced st) (encode_frame w))) ∧
    f = match w with WData _ p => RData p | WGoodbye _ reason => RGoodbye reason end ∧
    validate (wf_community_id w) (rs_fenced st) = Ok tt ∧
    (rs_community st = None ∨ rs_community st = Some (wf_community_id w)) ∧
    st' = with_community (wf_community_id w) st.
Proof.
  unfold recv_validated. destruct received as [[[| fenced payload | |]|]|]; try done.
  destruct (decode_frame payload) as [w|] eqn:Ed; [|done].
  apply decode_frame_Ok in Ed as [-> _].
  unfold validate_frame_fence. destruct (decide (fenced ≠ rs_fenced st)) as [|Hf]; [done|].
  apply dec_stable in Hf as ->.
  destruct (match rs_community st with Some _ => _ | None => _ end) eqn:Em; [done|].
  destruct (validate (wf_community_id w) (rs_fenced st)) as [[]|] eqn:Ev; [|done]. simpl.
  intros [= <- <-]. exists w. split; [done|]. split; [done|]. split; [done|].
  destruct st as [fe [e|] out fin]; simpl in *; [|auto].
  apply bool_decide_eq_false_1, dec_stable in Em as ->. auto.
Qed.

(** Nothing is delivered on a superseded lease.  When a stream delivers a frame,
    the frame carried exactly the stream's fence and the stream's community (or
    fixes it, for the rest of the stream), and at that moment the directory held
    the lease of that community's session with the stream's owner and
    generation; no other community's session can make it deliver. *)
Theorem delivery_needs_live_lease b text r received st f st' :
  dir_wf b r → in_range b →
  recv_validated (λ c h, validate_fenced_header text (Ok tt) Delivered c h r) received st
    = (Ok (Some f), st') →
  ∃ w p, received = Ok (Some (Data (rs_fenced st) (encode_frame w))) ∧
    (rs_community st = None ∨ rs_community st = Some (wf_community_id w)) ∧
    st' = with_community (wf_community_id w) st ∧
    slot_at r (wf_community_id w) (fh_session_id (rs_fenced st))
      (mkSlot (fh_generation (rs_fenced st))
         (Some (fh_owner_runtime_id (rs_fenced st), fh_generation (rs_fenced st), p))).
Proof.
  intros Hwf Hr Hrecv. apply recv_validated_delivers in Hrecv as (w & -> & _ & Hv & Hcom & ->).
  destruct (Hwf (wf_community_id w) (fh_session_id (rs_fenced st))) as (σ & Hs & Hb).
  rewrite (validate_slot _ _ _ _ σ Hs) in Hv by (by eapply in_range_le).
  apply spec_validate_ok in Hv as [Hg [p Hh]]; [|apply Hs].
  exists w, p. split; [done|]. split; [done|]. split; [done|]. rewrite Hg, <-Hh. by destruct σ.
Qed.

(** ** Joins *)

Lemma slot_lease_Some c s σ l :
  slot_lease c s σ = Some l →
  held σ = Some (sl_owner_runtime_id l, sl_generation l, sl_profile l) ∧
  sl_community_id l = c ∧ sl_session_id l = s.
Proof.
  unfold slot_lease. destruct (held σ) as [[[o g] p]|]; [|done]. by intros [= <-].
Qed.

(** A join ends with a live lease or an error.  [Owned] means this runtime holds
    the lease in force; [Forwarded] means another runtime holds it, the transport
    accepted a stream to exactly that owner, whose [Hello] the owner's
    [accept_inbound] admits, and the stream is pinned to the owner's fence. *)
Theorem join_spec b ttl env local open c s r j r' :
  join ttl env local open c s r = (Ok j, r') → dir_wf b r → in_range (b + 1) → rid_ok local →
  ∃ lease, slot_at r' c s (mkSlot (sl_generation lease)
                             (Some (sl_owner_runtime_id lease, sl_generation lease, ReliableStream))) ∧
    match j with
    | Owned l => l = lease ∧ sl_owner_runtime_id lease = local
    | Forwarded l st =>
        l = lease ∧ sl_owner_runtime_id lease ≠ local ∧
        open (sl_owner_runtime_id lease) (join_hello local lease) = Ok tt ∧
        st = stream_new (fenced_header lease) ∧
        accept_inbound (sl_owner_runtime_id lease) local (join_hello local lease)
          = Ok (mkInbound (fenced_header lease) local (stream_new (fenced_header lease)))
    end.
Proof.
  intros Hj Hwf Hr Ho. unfold join in Hj.
  destruct (acquire ttl env c s local ReliableStream r) as [res r1] eqn:Ea.
  destruct (Hwf c s) as (σ & Hs & Hb).
  assert (in_range (ctr σ + 1)) as Hr1 by (eapply in_range_le; [|exact Hr]; lia).
  destruct (acquire_slot _ _ _ _ _ _ _ _ _ _ Ea Hs Hr1 Ho) as (_ & _ & Hok).
  injection Hj as Hj <-. destruct res as [a|]; [|done]. simpl in Hj.
  destruct (Hok _ eq_refl) as [Ha Hs']. unfold acquire_answer, spec_acquire in *.
  destruct (slot_lease c s σ) as [lease|] eqn:El; subst a.
  - pose proof (slot_lease_Some _ _ _ _ El) as (Hh & _ & _).
    rewrite Hh in Hs'. destruct (sa_ok _ _ _ _ Hs' _ _ _ Hh) as [_ [_ Hg]].
    destruct (decide (sl_profile lease ≠ ReliableStream)) as [|Hp]; [done|].
    apply dec_stable in Hp. exists lease. split.
    { rewrite Hp in Hh. rewrite <-Hh, Hg. by destruct σ. }
    destruct (decide (sl_owner_runtime_id lease = local)) as [Heq|Hne]; [by injection Hj as <-|].
    destruct (open _ _) as [[]|] eqn:Eo; [|done]. injection Hj as <-.
    split; [done|]. split; [done|]. split; [done|]. split; [done|].
    unfold accept_inbound, join_hello. cbn [hello_sender hello_role].
    rewrite !decide_False by auto. done.
  - injection Hj as <-. unfold slot_lease in El. destruct (held σ); [done|].
    exists (mkLease c s local (ctr σ + 1) ReliableStream). split; [exact Hs'|done].
Qed.

(** ** The renewer *)

Lemma renew_loop_slot ttl lease wakes r out r' b :
  renew_loop ttl lease wakes r = (out, r') → lease_wf lease → dir_wf b r → in_range b →
  dir_wf b r'.
Proof.
  intros Hrun Hl Hwf Hr. revert r Hrun Hwf.
  induction wakes as [|[|env] wakes IH]; intros r Hrun Hwf; simpl in Hrun; [by injection Hrun as _ <-..|].
  assert (∀ res r1, renew ttl env lease r = (res, r1) → dir_wf b r1) as Hstep.
  { intros res r1 Hren c s. destruct (Hwf (sl_community_id lease) (sl_session_id lease)) as (σ0 & Hs0 & Hb0).
    destruct (renew_slot _ _ _ _ _ _ _ Hren Hl Hs0) as (Hs0' & Hf & _); [by eapply in_range_le|].
    destruct (decide ((c, s) = (sl_community_id lease, sl_session_id lease))) as [[= -> ->]|Hne]; [eauto|].
    destruct (Hwf c s) as (σ & Hs & Hb). exists σ. split; [by eapply frame_slot|done]. }
  destruct (renew ttl env lease r) as [[[l|cur known]|e] r1] eqn:Ren.
  - eapply IH; eauto.
  - injection Hrun as _ <-. eauto.
  - injection Hrun as _ <-. eauto.
Qed.

(** Without a loss the loop ends only by cancellation. *)
Lemma renew_loop_lost ttl lease wakes r c r' :
  renew_loop ttl lease wakes r = (Some (c, false), r') → c = true.
Proof.
  revert r. induction wakes as [|[|env] wakes IH]; intros r; simpl; [done|congruence|].
  destruct (renew ttl env lease r) as [[[l|cur known]|e] r1]; [apply IH|done|done].
Qed.

(** A renewer that has ended leaves nothing behind.  When the background worker
    stops -- cancelled, lease lost or renewal failed -- and its release reached
    Redis, the session is no longer held by this owner at this generation, and
    the loss signal is raised whenever the lease was not this worker's to
    release. *)
Theorem renewer_releases b ttl lease wakes r lost r' :
  lease_renewer ttl lease wakes (mkEnv NoDb (Ok tt) Delivered) r = (Some lost, r') →
  lease_wf lease → dir_wf b r → in_range b →
  ∃ σ, slot_at r' (sl_community_id lease) (sl_session_id lease) σ ∧
    holds σ (sl_owner_runtime_id lease) (sl_generation lease) = false ∧
    (lost = false → ∃ r1 σ1, renew_loop ttl lease wakes r = (Some (true, false), r1) ∧
       slot_at r1 (sl_community_id lease) (sl_session_id lease) σ1 ∧
       holds σ1 (sl_owner_runtime_id lease) (sl_generation lease) = true).
Proof.
  intros Hrun Hl Hwf Hr. unfold lease_renewer in Hrun.
  destruct (renew_loop ttl lease wakes r) as [[[cancelled lost0]|] r1] eqn:Eloop; [|done].
  pose proof (renew_loop_slot _ _ _ _ _ _ _ Eloop Hl Hwf Hr) as Hwf1.
  destruct (Hwf1 (sl_community_id lease) (sl_session_id lease)) as (σ1 & Hs1 & Hb1).
  destruct (release_delivered lease r1 σ1 Hl Hs1) as (r2 & Erel & Hs2); [by eapply in_range_le|].
  rewrite Erel in Hrun. injection Hrun as Hlost <-.
  eexists. split; [exact Hs2|]. split.
  { unfold spec_release. by destruct (holds σ1 _ _) eqn:Eh. }
  intros ->. unfold release_answer in Hlost.
  destruct (slot_lease _ _ σ1) as [l|]; [|done].
  destruct (holds σ1 _ _) eqn:Eh; [|done]. subst lost0. exists r1, σ1.
  split; [|done]. by rewrite (renew_loop_lost _ _ _ _ _ _ Eloop).
Qed.

End stream_lemmas.

(** ** A run *)

Module TunnelDemo.
Import ToyRedis MeshWireDemo SessionDirectoryDemo.

Definition no_fault : nat → option MeshError := λ _, None.
Definition validate3 : CommunityId → FencedHeader → result MeshError unit :=
  λ c h, validate_fenced_header text (Ok tt) Delivered c h r3.
Definition out0 : ReliableMeshStream := stream_new (fenced_header lease_b).
Definition hi : bytes := [x68; x69].
Definition out1 : ReliableMeshStream :=
  mkStream (fenced_header lease_b) (Some 1%N)
    [Data (fenced_header lease_b) (encode_frame (WData 1 hi))] false.

Lemma sent_hi : send_bytes no_fault 1 hi out0 = (Ok tt, out1).
Proof. vm_compute. reflexivity. Qed.

Lemma valid_b : validate3 1 (fenced_header lease_b) = Ok tt.
Proof. vm_compute. reflexivity. Qed.

Example truncated_rejected :
  decode_frame [x01; x01; x00] = Err (MalformedReliableFrame "too short").
Proof. reflexivity. Qed.

(** A frame of the community the stream is not pinned to is refused. *)
Example other_community_refused :
  (recv_validated validate3 (Ok (Some (Data (fenced_header lease_b) (encode_frame (WData 2 hi)))))
     (with_community 1 out0)).1 = Err (CommunityMismatch 1 2).
Proof. vm_compute. reflexivity. Qed.

Lemma reliable_frame_codec_witness :
  decode_frame (encode_frame (WGoodbye 1 Draining)) = Ok (WGoodbye 1 Draining).
Proof. apply (reliable_frame_codec _ (WGoodbye 1 Draining)). split; reflexivity. Defined.

Lemma tunnel_delivers_bytes_witness :
  ∃ parts, rs_sent out1 = map (λ p, Data (fenced_header lease_b) (encode_frame (WData 1 p))) parts ∧
    (recv_frames validate3 (drop 0 (rs_sent out1)) out0).1 = Ok (RData <$> parts) ∧
    concat parts = hi ∧ Forall (λ p, length p ≤ N.to_nat MAX_RELIABLE_PAYLOAD_BYTES) parts.
Proof.
  apply (tunnel_delivers_bytes (H:=demo_uuid_bytes) no_fault validate3 1 hi out0 out1 out0);
    [exact sent_hi|reflexivity|reflexivity|left; reflexivity|exact valid_b].
Defined.

Lemma delivered_hi :
  recv_validated validate3 (Ok (Some (Data (fenced_header lease_b) (encode_frame (WData 1 hi))))) out0
    = (Ok (Some (RData hi)), with_community 1 out0).
Proof. apply (recv_data_frame validate3 1 hi out0); [done|by left|exact valid_b]. Qed.

Lemma wf3 : dir_wf (H1:=toy_redis) 3 r3.
Proof. exact (step_wf (H1:=toy_redis) 2 r2 _ r3 step3 wf2 eq_refl). Qed.

Lemma delivery_needs_live_lease_witness :
  ∃ w p, (Ok (Some (Data (fenced_header lease_b) (encode_frame (WData 1 hi)))) : result MeshError _) =
           Ok (Some (Data (rs_fenced out0) (encode_frame w))) ∧
    (rs_community out0 = None ∨ rs_community out0 = Some (wf_community_id w)) ∧
    with_community 1 out0 = with_community (wf_community_id w) out0 ∧
    slot_at r3 (wf_community_id w) 7 (mkSlot 2 (Some (rid_b, 2%N, p))).
Proof.
  apply (delivery_needs_live_lease (H2:=toy_redis) 3 text r3 _ out0 (RData hi));
    [exact wf3|reflexivity|exact delivered_hi].
Defined.

Definition accept_all : RuntimeId → StreamHello → result MeshError unit := λ _ _, Ok tt.

Definition rj : gmap string (string * bool) := (join 30000 ok_env rid_a accept_all 1 7 r3).2.

Lemma joined_b : join 30000 ok_env rid_a accept_all 1 7 r3 =
  (Ok (Forwarded lease_b (stream_new (fenced_header lease_b))), rj).
Proof.
  assert ((join 30000 ok_env rid_a accept_all 1 7 r3).1 =
    Ok (Forwarded lease_b (stream_new (fenced_header lease_b)))) as <- by (vm_compute; reflexivity).
  apply surjective_pairing.
Qed.

Lemma join_spec_witness :
  ∃ lease, slot_at rj 1 7 (mkSlot (sl_generation lease)
                             (Some (sl_owner_runtime_id lease, sl_generation lease, ReliableStream))) ∧
    lease_b = lease ∧ sl_owner_runtime_id lease ≠ rid_a ∧
    accept_all (sl_owner_runtime_id lease) (join_hello rid_a lease) = Ok tt ∧
    stream_new (fenced_header lease_b) = stream_new (fenced_header lease) ∧
    accept_inbound (sl_owner_runtime_id lease) rid_a (join_hello rid_a lease)
      = Ok (mkInbound (fenced_header lease) rid_a (stream_new (fenced_header lease))).
Proof.
  apply (join_spec (H2:=toy_redis) 3 30000 ok_env rid_a accept_all 1 7 r3
           (Forwarded lease_b (stream_new (fenced_header lease_b))) rj);
    [exact joined_b|exact wf3|reflexivity|reflexivity].
Defined.

(** [b] renews twice and is then cancelled. *)
Definition r4 : gmap string (string * bool) :=
  (lease_renewer 30000 lease_b [Tick ok_env; Tick ok_env; Cancelled] ok_env r3).2.

Lemma renewer_run :
  lease_renewer 30000 lease_b [Tick ok_env; Tick ok_env; Cancelled] ok_env r3 = (Some false, r4).
Proof.
  assert ((lease_renewer 30000 lease_b [Tick ok_env; Tick ok_env; Cancelled] ok_env r3).1 = Some false)
    as <- by (vm_compute; reflexivity).
  apply surjective_pairing.
Qed.

Lemma renewer_releases_witness :
  ∃ σ, slot_at r4 1 7 σ ∧ holds σ rid_b 2 = false ∧
    (false = false → ∃ r1 σ1,
       renew_loop 30000 lease_b [Tick ok_env; Tick ok_env; Cancelled] r3 = (Some (true, false), r1) ∧
       slot_at r1 1 7 σ1 ∧ holds σ1 rid_b 2 = true).
Proof.
  apply (renewer_releases (H2:=toy_redis) 3 30000 lease_b [Tick ok_env; Tick ok_env; Cancelled] r3);
    [exact renewer_run|split; [reflexivity|intros [=]]|exact wf3|reflexivity].
Defined.

End TunnelDemo.
