(* ===== verification/MeshGossip.v ===== *)
(** * Membership gossip ([buzz-relay-mesh/src/gossip.rs])

    Scuttlebutt over versioned records: a replica is a table with one record per
    runtime; a digest names the versions it has, a delta carries the records a
    digest is missing, and a record is applied when its version is newer.  The
    specification is a join semilattice of tables ([join]) and a network of
    replicas that create records, update their own and receive any records ever
    sent, delayed, duplicated and reordered ([net_step]).  [PhiAccrual] is the
    failure detector; its arithmetic is IEEE binary64, evaluated with the
    Standard Library's [SpecFloat]. *)

From stdpp Require Import base gmap strings list sorting.
From Stdlib Require Import Ascii SpecFloat.
From Stdlib.Strings Require Import Byte.
From S2P Require Import Prelude Nostr MeshWire.

(** ** Binary64 *)

Abbreviation F64 := spec_float (only parsing).

Definition f64_of_Z (z : Z) : F64 := binary_normalize 53 1024 z 0 false.
Definition f64_add (a b : F64) : F64 := SFadd 53 1024 a b.
Definition f64_div (a b : F64) : F64 := SFdiv 53 1024 a b.
Definition f64_leb (a b : F64) : bool := SFleb a b.

(** [f64::EPSILON] and [std::f64::consts::LN_10]. *)
Definition f64_epsilon : F64 := S754_finite false 4503599627370496 (-104).
Definition ln_10 : F64 := S754_finite false 5184960683398422 (-51).

(** [Duration::as_secs_f64] of a duration in nanoseconds. *)
Definition as_secs_f64 (d : Z) : F64 :=
  f64_add (f64_of_Z (d `div` 1000000000))
    (f64_div (f64_of_Z (d `mod` 1000000000)) (f64_of_Z 1000000000)).

(** ** Records and messages *)

Definition GOSSIP_PAYLOAD_VERSION : N := 1.

(** [load] is an [f32]: its bit pattern. *)
Record GossipRecord := mkRecord {
  gr_runtime_id : RuntimeId;
  gr_endpoint_addrs : list string;
  gr_proto_version : N;
  gr_load : N;
  gr_draining : bool;
  gr_capabilities : list string;
  gr_version : N;
  gr_heartbeat_millis : N
}.

#[global] Instance gossip_record_eq_dec : EqDecision GossipRecord.
Proof. solve_decision. Defined.

(** [GossipRecord::new]; [now] is [now_millis()]. *)
Definition record_new (now : N) (id : RuntimeId) (addrs : list string) (proto : N) : GossipRecord :=
  mkRecord id addrs proto 0 false [] 1 now.

Record GossipDigestEntry := mkEntry { de_runtime_id : RuntimeId; de_version : N }.

Inductive GossipMessage :=
| Digest (version : N) (entries : list GossipDigestEntry)
| Delta (version : N) (records : list GossipRecord).

Definition encode_message `{Postcard GossipMessage} (m : GossipMessage) : result MeshError bytes :=
  map_err EncodeErr (postcard_to m).

Definition decode_message `{Postcard GossipMessage} (b : bytes) : result MeshError GossipMessage :=
  let? m := map_err DecodeErr (postcard_from b) in
  let version := match m with Digest v _ | Delta v _ => v end in
  if decide (version ≠ GOSSIP_PAYLOAD_VERSION)
  then Err (Transport ("unknown gossip payload version " +:+ num_to_string version))
  else Ok m.

(** ** Replicas *)

Abbreviation GossipState := (gmap (list byte) GossipRecord) (only parsing).

Definition state_new (local : GossipRecord) : GossipState := {[gr_runtime_id local := local]}.

Definition saturating_succ (v : N) : N := N.min (v + 1) u64_max.

Definition bump (now : N) (r : GossipRecord) : GossipRecord :=
  mkRecord (gr_runtime_id r) (gr_endpoint_addrs r) (gr_proto_version r) (gr_load r) (gr_draining r)
    (gr_capabilities r) (saturating_succ (gr_version r)) now.

Definition update_local (now : N) (id : RuntimeId) (update : GossipRecord → GossipRecord)
    (g : GossipState) : option GossipRecord * GossipState :=
  match g !! id with
  | None => (None, g)
  | Some r => let r' := bump now (update r) in (Some r', <[id := r']> g)
  end.

Section gossip.
Context `{HexApi} {MI : MapIter (list byte)}.

Definition entry_of (r : GossipRecord) : GossipDigestEntry :=
  mkEntry (gr_runtime_id r) (gr_version r).

(** [sort_by_key(|x| x.runtime_id.to_hex())]. *)
Definition entry_le (a b : GossipDigestEntry) : bool :=
  str_leb (to_hex (de_runtime_id a)) (to_hex (de_runtime_id b)).
Definition record_le (a b : GossipRecord) : bool :=
  str_leb (to_hex (gr_runtime_id a)) (to_hex (gr_runtime_id b)).

Definition values (g : GossipState) : list GossipRecord := (hiter g).*2.

Definition digest_entries (records : list GossipRecord) : list GossipDigestEntry :=
  sort_by entry_le (entry_of <$> records).

Definition digest (g : GossipState) : GossipMessage :=
  Digest GOSSIP_PAYLOAD_VERSION (digest_entries (values g)).

(** The [HashMap] collected from a digest: a later entry replaces an earlier. *)
Definition remote_versions (d : list GossipDigestEntry) : gmap (list byte) N :=
  foldl (λ m e, <[de_runtime_id e := de_version e]> m) ∅ d.

Definition missing (d : list GossipDigestEntry) (r : GossipRecord) : bool :=
  match remote_versions d !! gr_runtime_id r with
  | None => true
  | Some v => (v <? gr_version r)%N
  end.

Definition delta_records (d : list GossipDigestEntry) (records : list GossipRecord) :
    list GossipRecord :=
  sort_by record_le (List.filter (missing d) records).

Definition delta_for (d : list GossipDigestEntry) (g : GossipState) : GossipMessage :=
  Delta GOSSIP_PAYLOAD_VERSION (delta_records d (values g)).

(** One round of [apply_delta]. *)
Definition apply_record (st : list RuntimeId * GossipState) (r : GossipRecord) :
    list RuntimeId * GossipState :=
  let should_apply := match st.2 !! gr_runtime_id r with
                      | None => true
                      | Some existing => (gr_version existing <? gr_version r)%N
                      end in
  if should_apply then (st.1 ++ [gr_runtime_id r], <[gr_runtime_id r := r]> st.2) else st.

Definition apply_delta (records : list GossipRecord) (g : GossipState) :
    list RuntimeId * GossipState :=
  foldl apply_record ([], g) records.

End gossip.

(** ** The failure detector *)

Record PhiAccrual := mkPhi {
  phi_samples : list Z;               (* intervals, in nanoseconds *)
  phi_last_heartbeat : option Z;      (* nanoseconds since the epoch *)
  phi_max_samples : nat
}.

Definition phi_new (max_samples : nat) : PhiAccrual := mkPhi [] None (Nat.max max_samples 1).
Definition phi_default : PhiAccrual := phi_new 100.

Definition observe (at_ : Z) (p : PhiAccrual) : PhiAccrual :=
  let samples :=
    match phi_last_heartbeat p with
    | Some prev =>
        if (prev <? at_)%Z then
          let samples := phi_samples p ++ [(at_ - prev)%Z] in
          if (phi_max_samples p <? length samples)%nat then tail samples else samples
        else phi_samples p
    | None => phi_samples p
    end in
  mkPhi samples (Some at_) (phi_max_samples p).

Definition mean_secs (p : PhiAccrual) : F64 :=
  f64_div (foldl f64_add (S754_zero true) (as_secs_f64 <$> phi_samples p))
    (f64_of_Z (Z.of_nat (length (phi_samples p)))).

Definition phi_at (now : Z) (p : PhiAccrual) : option F64 :=
  match phi_last_heartbeat p with
  | None => None
  | Some last =>
      match phi_samples p with
      | [] => None
      | _ =>
          if (now <? last)%Z then None
          else
            let elapsed := as_secs_f64 (now - last) in
            let mean := mean_secs p in
            if f64_leb mean f64_epsilon then None
            else Some (f64_div (f64_div elapsed mean) ln_10)
      end
  end.

(** [UNIX_EPOCH + Duration::from_millis(millis)]. *)
Definition system_time_from_millis (millis : N) : Z := Z.of_N millis * 1000000.

(** [now_millis()] at the clock reading [t] (nanoseconds since the epoch). *)
Definition now_millis (t : Z) : N := N.min (Z.to_N (Z.max t 0 `div` 1000000)) u64_max.

(** ** The specification: tables form a join semilattice *)

(** Of two records of one runtime, the newer; the first wins a tie. *)
Definition newer (a b : GossipRecord) : GossipRecord :=
  if (gr_version a <? gr_version b)%N then b else a.

Definition join (g h : GossipState) : GossipState := union_with (λ a b, Some (newer a b)) g h.

(** Records are filed under their own id. *)
Definition keyed (g : GossipState) : Prop := ∀ k r, g !! k = Some r → gr_runtime_id r = k.

(** Versions identify records: no two different records of one runtime with one
    version. *)
Definition coherent (P : GossipRecord → Prop) : Prop :=
  ∀ x y, P x → P y → gr_runtime_id x = gr_runtime_id y → gr_version x = gr_version y → x = y.

Definition in_state (g : GossipState) (r : GossipRecord) : Prop := g !! gr_runtime_id r = Some r.

(** The record of [k] after receiving [l] on top of [o]. *)
Definition best_step (k : RuntimeId) (o : option GossipRecord) (r : GossipRecord) :
    option GossipRecord :=
  if decide (gr_runtime_id r = k) then Some (from_option (λ e, newer e r) r o) else o.

Definition best (k : RuntimeId) (l : list GossipRecord) (o : option GossipRecord) :
    option GossipRecord := foldl (best_step k) o l.

(** ** A network of replicas

    [hist] lists every record its owner ever had; messages carry records of it,
    in any number, order and multiplicity, at any later time. *)
Record Net := mkNet { replicas : gmap (list byte) (gmap (list byte) GossipRecord);
                      hist : list GossipRecord }.

(** Update closures change neither the identity nor the version of a record. *)
Definition update_ok (f : GossipRecord → GossipRecord) : Prop :=
  ∀ r, gr_runtime_id (f r) = gr_runtime_id r ∧ gr_version (f r) = gr_version r.

Inductive net_step : Net → Net → Prop :=
| net_boot n r :
    (∀ r', r' ∈ hist n → gr_runtime_id r' ≠ gr_runtime_id r) →
    net_step n (mkNet (<[gr_runtime_id r := state_new r]> (replicas n)) (hist n ++ [r]))
| net_update n i g f now r g' :
    replicas n !! i = Some g → update_ok f → update_local now i f g = (Some r, g') →
    (∀ r0, g !! i = Some r0 → (gr_version r0 < u64_max)%N) →
    net_step n (mkNet (<[i := g']> (replicas n)) (hist n ++ [r]))
| net_deliver n i g l :
    replicas n !! i = Some g → (∀ r, r ∈ l → r ∈ hist n) →
    net_step n (mkNet (<[i := (apply_delta l g).2]> (replicas n)) (hist n)).

Definition net_empty : Net := mkNet ∅ [].

Definition reachable (n : Net) : Prop := rtc net_step net_empty n.

(** ** Lemmas on [best] *)

Lemma newer_id a b : gr_runtime_id a = gr_runtime_id b → gr_runtime_id (newer a b) = gr_runtime_id b.
Proof. unfold newer. by case_match. Qed.

Lemma newer_idem a b : newer (newer a b) b = newer a b.
Proof. unfold newer. destruct (N.ltb_spec (gr_version a) (gr_version b)); [by rewrite N.ltb_irrefl|].
  by rewrite (proj2 (N.ltb_ge _ _)). Qed.

Lemma apply_record_state st r :
  (apply_record st r).2 = <[gr_runtime_id r := from_option (λ e, newer e r) r (st.2 !! gr_runtime_id r)]> st.2.
Proof.
  unfold apply_record, newer. destruct (st.2 !! gr_runtime_id r) as [e|] eqn:E; simpl; [|done].
  destruct (gr_version e <? gr_version r)%N; [done|]. by rewrite insert_id.
Qed.

Lemma apply_record_lookup st r k : (apply_record st r).2 !! k = best_step k (st.2 !! k) r.
Proof.
  rewrite apply_record_state. unfold best_step. destruct (decide (gr_runtime_id r = k)) as [<-|Hne].
  - by rewrite lookup_insert_eq.
  - by rewrite lookup_insert_ne.
Qed.

Lemma apply_delta_lookup l g k : (apply_delta l g).2 !! k = best k l (g !! k).
Proof.
  unfold apply_delta, best. change g with (([] : list RuntimeId, g).2) at 2.
  generalize (([] : list RuntimeId, g)). induction l as [|r l IH]; intros st; simpl; [done|].
  by rewrite IH, apply_record_lookup.
Qed.

(** The candidates for the record of [k]. *)
Definition candidate (k : RuntimeId) (l : list GossipRecord) (o : option GossipRecord)
    (x : GossipRecord) : Prop := (x ∈ l ∧ gr_runtime_id x = k) ∨ o = Some x.

Lemma best_spec k l o :
  match best k l o with
  | None => o = None ∧ ∀ r, r ∈ l → gr_runtime_id r ≠ k
  | Some x => candidate k l o x ∧ ∀ y, candidate k l o y → (gr_version y ≤ gr_version x)%N
  end.
Proof.
  unfold candidate. revert o. induction l as [|r l IH]; intros o; simpl.
  { destruct o as [x|]; [|set_solver]. split; [by right|]. intros y [[? _]|[= ->]]; [set_solver|done]. }
  specialize (IH (best_step k o r)). unfold best_step in *.
  destruct (decide (gr_runtime_id r = k)) as [Hk|Hk].
  - destruct (best k l _) as [x|]; [|destruct IH as [? _]; done]. destruct IH as [Hin Hmax].
    assert (gr_version (from_option (λ e, newer e r) r o) ≤ gr_version x)%N as Hx.
    { apply Hmax. by right. }
    split.
    + destruct Hin as [[Hin Hid]|[= Hx']]; [left; set_solver|]. subst x.
      destruct o as [e|]; simpl in *; [|left; set_solver]. unfold newer. case_match; [left; set_solver|by right].
    + intros y [[[-> |Hy]%elem_of_cons Hid]|Ho].
      * destruct o as [e|]; simpl in Hx; [|done]. unfold newer in Hx.
        destruct (N.ltb_spec (gr_version e) (gr_version r)); [done|lia].
      * apply Hmax. auto.
      * subst o. simpl in Hx. unfold newer in Hx.
        destruct (N.ltb_spec (gr_version y) (gr_version r)); lia.
  - destruct (best k l o) as [x|].
    + destruct IH as [Hin Hmax]. split; [destruct Hin as [[? ?]|?]; [left; set_solver|by right]|].
      intros y [[[-> |Hy]%elem_of_cons Hid]|Ho]; [done| |]; apply Hmax; auto.
    + destruct IH as [-> Hno]. split; [done|]. set_solver.
Qed.

Lemma best_ext k l l' o :
  coherent (λ x, candidate k l o x ∨ candidate k l' o x) →
  (∀ x, candidate k l o x ↔ candidate k l' o x) → (∀ x, o = Some x → gr_runtime_id x = k) →
  best k l o = best k l' o.
Proof.
  intros Hcoh Heq Ho.
  assert (∀ l x, candidate k l o x → gr_runtime_id x = k) as Hid.
  { intros ? x [[_ ?]|?]; auto. }
  pose proof (best_spec k l o) as H1. pose proof (best_spec k l' o) as H2.
  destruct (best k l o) as [x|], (best k l' o) as [y|].
  - destruct H1 as [Hx Hxm], H2 as [Hy Hym]. f_equal. apply Hcoh; auto.
    + by rewrite (Hid _ _ Hx), (Hid _ _ Hy).
    + apply N.le_antisymm; [apply Hym, Heq, Hx|apply Hxm, Heq, Hy].
  - destruct H1 as [Hx _], H2 as [-> Hno]. apply Heq in Hx as [[Hx Hk]|?]; [by apply Hno in Hx|done].
  - destruct H2 as [Hy _], H1 as [-> Hno]. apply Heq in Hy as [[Hy Hk]|?]; [by apply Hno in Hy|done].
  - done.
Qed.

Lemma best_cons k r l o : best k (r :: l) o = best k l (best_step k o r).
Proof. done. Qed.

(** At most one record of [k] in the list. *)
Lemma best_single k l o b :
  b ∈ l → gr_runtime_id b = k → (∀ r, r ∈ l → gr_runtime_id r = k → r = b) →
  best k l o = Some (from_option (λ e, newer e b) b o).
Proof.
  intros Hin Hk. revert o Hin. induction l as [|r l IH]; intros o Hin Hu; [set_solver|]. rewrite best_cons.
  unfold best_step. destruct (decide (gr_runtime_id r = k)) as [Hr|Hr].
  - assert (r = b) as -> by (apply Hu; set_solver).
    destruct (decide (b ∈ l)) as [Hb|Hb].
    + rewrite IH by (done || set_solver). simpl. f_equal.
      destruct o; simpl; [apply newer_idem|unfold newer; by rewrite N.ltb_irrefl].
    + clear IH. assert (∀ r, r ∈ l → gr_runtime_id r ≠ k) as Hno.
      { intros r Hrl Hrk. apply Hb. rewrite <-(Hu r); [done|set_solver|done]. }
      clear Hu Hin Hb. generalize (Some (from_option (λ e, newer e b) b o)).
      induction l as [|r l IH]; intros o'; [done|].
      rewrite best_cons. unfold best_step. rewrite decide_False by (apply Hno; set_solver). apply IH. set_solver.
  - apply IH; set_solver.
Qed.

Lemma best_none k l o : (∀ r, r ∈ l → gr_runtime_id r ≠ k) → best k l o = o.
Proof.
  revert o. induction l as [|r l IH]; intros o Hno; [done|].
  rewrite best_cons. unfold best_step. rewrite decide_False by (apply Hno; set_solver). apply IH. set_solver.
Qed.

(** ** Digests and deltas *)

Section exchange.
Context `{HexApi} {MI : MapIter (list byte)}.
Implicit Types g h : GossipState.

Lemma elem_of_values g r : r ∈ values g ↔ ∃ k, g !! k = Some r.
Proof.
  unfold values. rewrite list_elem_of_fmap. split.
  - intros [[k r'] [-> Hin]]. exists k. by apply elem_of_hiter.
  - intros [k Hk]. exists (k, r). split; [done|]. by apply elem_of_hiter.
Qed.

Lemma elem_of_values_keyed g r : keyed g → r ∈ values g ↔ g !! gr_runtime_id r = Some r.
Proof.
  intros Hg. rewrite elem_of_values. split; [|eauto]. intros [k Hk]. by rewrite (Hg _ _ Hk).
Qed.

Lemma remote_versions_acc d m k :
  match foldl (λ m e, <[de_runtime_id e := de_version e]> m) m d !! k with
  | Some v => (∃ e, e ∈ d ∧ de_runtime_id e = k ∧ de_version e = v) ∨ (m : gmap (list byte) N) !! k = Some v
  | None => (∀ e, e ∈ d → de_runtime_id e ≠ k) ∧ m !! k = None
  end.
Proof.
  revert m. induction d as [|e d IH]; intros m; simpl.
  { destruct (m !! k); [by right|]. split; [set_solver|done]. }
  specialize (IH (<[de_runtime_id e := de_version e]> m)).
  destruct (foldl _ _ d !! k) as [v|].
  - destruct IH as [(e' & Hin & ?)|Hm]; [left; exists e'; set_solver|].
    destruct (decide (de_runtime_id e = k)) as [Hk|Hk].
    + rewrite Hk, lookup_insert_eq in Hm. injection Hm as <-. left. exists e. set_solver.
    + rewrite lookup_insert_ne in Hm by done. by right.
  - destruct IH as [Hno Hm]. destruct (decide (de_runtime_id e = k)) as [Hk|Hk].
    + by rewrite Hk, lookup_insert_eq in Hm.
    + rewrite lookup_insert_ne in Hm by done. split; [set_solver|done].
Qed.

Lemma digest_versions g k :
  keyed g → remote_versions (digest_entries (values g)) !! k = gr_version <$> g !! k.
Proof.
  intros Hg. pose proof (remote_versions_acc (digest_entries (values g)) ∅ k) as Hrv.
  fold (remote_versions (digest_entries (values g))) in Hrv.
  assert (∀ e, e ∈ digest_entries (values g) ↔
    ∃ r, e = entry_of r ∧ g !! gr_runtime_id r = Some r) as Hd.
  { intros e. unfold digest_entries. rewrite sort_by_perm, list_elem_of_fmap.
    setoid_rewrite elem_of_values_keyed; done. }
  destruct (remote_versions _ !! k) as [v|].
  - destruct Hrv as [(e & [r [-> Hr]]%Hd & Hk & Hv)|Hm]; [|by rewrite lookup_empty in Hm].
    simpl in *. subst. by rewrite Hr.
  - destruct Hrv as [Hno _]. destruct (g !! k) as [r|] eqn:E; [|done].
    exfalso. apply (Hno (entry_of r)); [|by apply Hg].
    apply Hd. exists r. split; [done|]. by rewrite (Hg _ _ E).
Qed.

Lemma missing_digest g r :
  keyed g →
  missing (digest_entries (values g)) r =
    match g !! gr_runtime_id r with None => true | Some a => (gr_version a <? gr_version r)%N end.
Proof. intros Hg. unfold missing. rewrite digest_versions by done. by destruct (g !! _). Qed.

Lemma elem_of_delta d g r :
  keyed g → r ∈ delta_records d (values g) ↔ g !! gr_runtime_id r = Some r ∧ missing d r = true.
Proof.
  intros Hg. unfold delta_records. rewrite sort_by_perm, list_elem_of_In, filter_In, <-list_elem_of_In.
  by rewrite elem_of_values_keyed.
Qed.

(** A delta answered to a digest brings the table up to the join. *)
Lemma exchange_join g h :
  keyed g → keyed h →
  (apply_delta (delta_records (digest_entries (values g)) (values h)) g).2 = join g h.
Proof.
  intros Hg Hh. apply map_eq. intros k. rewrite apply_delta_lookup.
  unfold join. rewrite lookup_union_with.
  set (l := delta_records _ _).
  assert (∀ r, r ∈ l ↔ h !! gr_runtime_id r = Some r ∧
    match g !! gr_runtime_id r with None => True | Some a => (gr_version a < gr_version r)%N end) as Hl.
  { intros r. unfold l. rewrite elem_of_delta by done. rewrite missing_digest by done.
    destruct (g !! _); [by rewrite N.ltb_lt|naive_solver]. }
  destruct (h !! k) as [b|] eqn:Eb.
  - pose proof (Hh _ _ Eb) as Hbk.
    destruct (decide (b ∈ l)) as [Hbl|Hbl].
    + rewrite (best_single k l _ b); [by destruct (g !! k)|done|done|].
      intros r [Hr _]%Hl Hrk. rewrite Hrk in Hr. congruence.
    + rewrite best_none.
      * rewrite Hl, Hbk, Eb in Hbl. destruct (g !! k) as [a|]; [|naive_solver]. simpl. unfold newer.
        rewrite (proj2 (N.ltb_ge _ _)); [done|]. apply N.nlt_ge. naive_solver.
      * intros r Hr Hrk. apply Hbl. pose proof Hr as [Hr' _]%Hl. rewrite Hrk, Eb in Hr'. congruence.
  - rewrite best_none; [by destruct (g !! k)|].
    intros r [Hr _]%Hl Hrk. rewrite Hrk in Hr. congruence.
Qed.

Lemma join_comm g h :
  keyed g → keyed h → coherent (λ r, in_state g r ∨ in_state h r) → join g h = join h g.
Proof.
  intros Hg Hh Hcoh. apply map_eq. intros k. unfold join. rewrite !lookup_union_with.
  destruct (g !! k) as [a|] eqn:Ea, (h !! k) as [b|] eqn:Eb; try done. simpl. f_equal. unfold newer.
  destruct (N.ltb_spec (gr_version a) (gr_version b)), (N.ltb_spec (gr_version b) (gr_version a)); try lia; try done.
  apply Hcoh; [left|right| |lia]; unfold in_state; rewrite ?(Hg _ _ Ea), ?(Hh _ _ Eb); done.
Qed.

End exchange.

(** ** The network *)

Record net_inv (n : Net) : Prop := {
  ni_in : ∀ i g k r, replicas n !! i = Some g → g !! k = Some r → r ∈ hist n ∧ gr_runtime_id r = k;
  ni_coh : coherent (λ r, r ∈ hist n);
  ni_own : ∀ i g, replicas n !! i = Some g →
    ∃ r, g !! i = Some r ∧
         ∀ r', r' ∈ hist n → gr_runtime_id r' = i → (gr_version r' ≤ gr_version r)%N
}.

Lemma net_inv_boot n r :
  net_inv n → (∀ r', r' ∈ hist n → gr_runtime_id r' ≠ gr_runtime_id r) →
  net_inv (mkNet (<[gr_runtime_id r := state_new r]> (replicas n)) (hist n ++ [r])).
Proof.
  intros [Hin Hcoh Hown] Hfresh. split; simpl.
  - intros i g k r0 Hi Hk. unfold state_new in Hi.
    destruct (decide (gr_runtime_id r = i)) as [<-|Hne].
    + rewrite lookup_insert_eq in Hi. injection Hi as <-.
      apply lookup_singleton_Some in Hk as [<- <-]. split; [set_solver|done].
    + rewrite lookup_insert_ne in Hi by done. destruct (Hin _ _ _ _ Hi Hk). split; [set_solver|done].
  - intros x y [Hx|Hx]%elem_of_app [Hy|Hy]%elem_of_app Hid Hv.
    + by apply Hcoh.
    + apply list_elem_of_singleton in Hy as ->. by destruct (Hfresh x).
    + apply list_elem_of_singleton in Hx as ->. by destruct (Hfresh y).
    + apply list_elem_of_singleton in Hx as ->. by apply list_elem_of_singleton in Hy as ->.
  - intros i g Hi. destruct (decide (gr_runtime_id r = i)) as [<-|Hne].
    + rewrite lookup_insert_eq in Hi. injection Hi as <-. exists r. unfold state_new.
      split; [by rewrite lookup_singleton_eq|].
      intros r' [Hr'| ->%list_elem_of_singleton]%elem_of_app Hid; [by destruct (Hfresh r')|done].
    + rewrite lookup_insert_ne in Hi by done. destruct (Hown _ _ Hi) as (r0 & ? & Hmax). exists r0.
      split; [done|]. intros r' [Hr'| ->%list_elem_of_singleton]%elem_of_app Hid; [by apply Hmax|done].
Qed.

Lemma net_inv_update n i g f now r g' :
  net_inv n → replicas n !! i = Some g → update_ok f → update_local now i f g = (Some r, g') →
  (∀ r0, g !! i = Some r0 → (gr_version r0 < u64_max)%N) →
  net_inv (mkNet (<[i := g']> (replicas n)) (hist n ++ [r])).
Proof.
  intros [Hin Hcoh Hown] Hi Hf Hup Hlt. unfold update_local in Hup.
  destruct (Hown _ _ Hi) as (r0 & Hr0 & Hmax). rewrite Hr0 in Hup. injection Hup as <- <-.
  set (r := bump now (f r0)). specialize (Hlt _ Hr0). destruct (Hf r0) as [Hfid Hfv].
  destruct (Hin _ _ _ _ Hi Hr0) as [Hr0h Hr0i].
  assert (gr_runtime_id r = i) as Hri by (unfold r; simpl; congruence).
  assert (gr_version r = gr_version r0 + 1)%N as Hrv.
  { unfold r, bump, saturating_succ. simpl. rewrite Hfv. lia. }
  split; simpl.
  - intros j h k x Hj Hk. destruct (decide (i = j)) as [<-|Hne].
    + rewrite lookup_insert_eq in Hj. injection Hj as <-.
      destruct (decide (i = k)) as [<-|Hne].
      * rewrite lookup_insert_eq in Hk. injection Hk as <-. split; [set_solver|done].
      * rewrite lookup_insert_ne in Hk by done. destruct (Hin _ _ _ _ Hi Hk). split; [set_solver|done].
    + rewrite lookup_insert_ne in Hj by done. destruct (Hin _ _ _ _ Hj Hk). split; [set_solver|done].
  - intros x y [Hx|Hx]%elem_of_app [Hy|Hy]%elem_of_app Hid Hv.
    + by apply Hcoh.
    + apply list_elem_of_singleton in Hy as ->. specialize (Hmax x Hx). rewrite Hri in Hid.
      specialize (Hmax Hid). lia.
    + apply list_elem_of_singleton in Hx as ->. specialize (Hmax y Hy). rewrite Hri in Hid.
      specialize (Hmax (eq_sym Hid)). lia.
    + apply list_elem_of_singleton in Hx as ->. by apply list_elem_of_singleton in Hy as ->.
  - intros j h Hj. destruct (decide (i = j)) as [<-|Hne].
    + rewrite lookup_insert_eq in Hj. injection Hj as <-. exists r. split; [by rewrite lookup_insert_eq|].
      intros r' [Hr'| ->%list_elem_of_singleton]%elem_of_app Hid; [|done].
      specialize (Hmax r' Hr' Hid). lia.
    + rewrite lookup_insert_ne in Hj by done. destruct (Hown _ _ Hj) as (x & ? & Hx). exists x.
      split; [done|]. intros r' [Hr'| ->%list_elem_of_singleton]%elem_of_app Hid; [by apply Hx|congruence].
Qed.

Lemma net_inv_deliver n i g l :
  net_inv n → replicas n !! i = Some g → (∀ r, r ∈ l → r ∈ hist n) →
  net_inv (mkNet (<[i := (apply_delta l g).2]> (replicas n)) (hist n)).
Proof.
  intros [Hin Hcoh Hown] Hi Hl. split; simpl; [|done|].
  - intros j h k x Hj Hk. destruct (decide (i = j)) as [<-|Hne].
    + rewrite lookup_insert_eq in Hj. injection Hj as <-. rewrite apply_delta_lookup in Hk.
      pose proof (best_spec k l (g !! k)) as Hb. rewrite Hk in Hb.
      destruct Hb as [[[Hx Hid]|Hx] _]; [auto|eauto].
    + rewrite lookup_insert_ne in Hj by done. eauto.
  - intros j h Hj. destruct (decide (i = j)) as [<-|Hne].
    + rewrite lookup_insert_eq in Hj. injection Hj as <-. destruct (Hown _ _ Hi) as (r & Hr & Hmax).
      rewrite apply_delta_lookup. pose proof (best_spec i l (g !! i)) as Hb.
      destruct (best i l (g !! i)) as [x|]; [|by rewrite Hr in Hb; destruct Hb].
      exists x. split; [done|]. intros r' Hr' Hid. specialize (Hmax _ Hr' Hid).
      destruct Hb as [_ Hb]. specialize (Hb r (or_intror Hr)). lia.
    + rewrite lookup_insert_ne in Hj by done. eauto.
Qed.

Lemma reachable_inv n : reachable n → net_inv n.
Proof.
  unfold reachable. intros Hr. remember net_empty as n0.
  assert (net_inv n0) as H0.
  { subst n0. split; simpl; [intros i g k r Hi; by rewrite lookup_empty in Hi|by intros x y ?%not_elem_of_nil|].
    intros i g Hi. by rewrite lookup_empty in Hi. }
  clear Heqn0. induction Hr as [n|n n1 n2 Hs _ IH]; [done|]. apply IH.
  destruct Hs; eauto using net_inv_boot, net_inv_update, net_inv_deliver.
Qed.

Lemma net_keyed n i g : net_inv n → replicas n !! i = Some g → keyed g.
Proof. intros Hn Hi k r Hk. by destruct (ni_in _ Hn _ _ _ _ Hi Hk). Qed.

Lemma net_coherent n i j g h :
  net_inv n → replicas n !! i = Some g → replicas n !! j = Some h →
  coherent (λ r, in_state g r ∨ in_state h r).
Proof.
  intros Hn Hi Hj x y Hx Hy Hid Hv.
  assert (∀ r, in_state g r ∨ in_state h r → r ∈ hist n) as Hh.
  { intros r [Hr|Hr]; [destruct (ni_in _ Hn _ _ _ _ Hi Hr)|destruct (ni_in _ Hn _ _ _ _ Hj Hr)]; done. }
  apply (ni_coh _ Hn); auto.
Qed.

(** ** Properties *)

(** C35: Gossip converges.  In any network of replicas, after any boots, local updates
    and deliveries of old, duplicated or reordered records, one exchange in each
    direction -- a digest answered by a delta that is applied -- leaves the two
    replicas equal, and equal to the join of what they had: every runtime's
    newest known record. *)
Theorem gossip_converges `{HexApi} {MI : MapIter (list byte)} n i j g h dg dh lg lh :
  reachable n → replicas n !! i = Some g → replicas n !! j = Some h →
  digest g = Digest GOSSIP_PAYLOAD_VERSION dg → delta_for dg h = Delta GOSSIP_PAYLOAD_VERSION lh →
  digest h = Digest GOSSIP_PAYLOAD_VERSION dh → delta_for dh g = Delta GOSSIP_PAYLOAD_VERSION lg →
  (apply_delta lh g).2 = (apply_delta lg h).2 ∧ (apply_delta lh g).2 = join g h.
Proof.
  intros Hn%reachable_inv Hi Hj [= <-] [= <-] [= <-] [= <-].
  pose proof (net_keyed _ _ _ Hn Hi). pose proof (net_keyed _ _ _ Hn Hj).
  rewrite !exchange_join by done. split; [|done]. apply join_comm; [done|done|].
  by eapply net_coherent.
Qed.

(** The order and multiplicity of gossip do not matter: two batches with the same
    records, in which versions identify records, leave the same table. *)
Theorem apply_delta_order_insensitive l l' g :
  keyed g → coherent (λ r, r ∈ l ∨ in_state g r) → (∀ r, r ∈ l ↔ r ∈ l') →
  (apply_delta l g).2 = (apply_delta l' g).2.
Proof.
  intros Hg Hcoh Hl. apply map_eq. intros k. rewrite !apply_delta_lookup.
  assert (∀ l0, (∀ r, r ∈ l0 → r ∈ l) → ∀ x, candidate k l0 (g !! k) x → x ∈ l ∨ in_state g x) as Hc.
  { intros l0 Hl0 x [[Hx _]|Hx]; [left; by apply Hl0|right]. unfold in_state. by rewrite (Hg _ _ Hx). }
  apply best_ext.
  - intros x y Hx Hy. apply Hcoh; [destruct Hx as [Hx|Hx]|destruct Hy as [Hy|Hy]];
      (eapply Hc; [|eassumption]); set_solver.
  - intros x. unfold candidate. by rewrite Hl.
  - intros x Hx. by apply Hg.
Qed.

(** Only the owner moves a record forward: in any reachable network no replica holds
    a version of a runtime's record newer than the runtime's own, nor a different
    record under the same version. *)
Theorem own_record_authoritative n i j g h r' :
  reachable n → replicas n !! i = Some g → replicas n !! j = Some h → h !! i = Some r' →
  ∃ r, g !! i = Some r ∧ (gr_version r' ≤ gr_version r)%N ∧
       (gr_version r' = gr_version r → r' = r).
Proof.
  intros Hn%reachable_inv Hi Hj Hr'. destruct (ni_own _ Hn _ _ Hi) as (r & Hr & Hmax).
  destruct (ni_in _ Hn _ _ _ _ Hj Hr') as [Hh Hid]. destruct (ni_in _ Hn _ _ _ _ Hi Hr) as [Hrh Hrid].
  exists r. split; [done|]. split; [by apply Hmax|]. intros Hv. apply (ni_coh _ Hn); congruence || done.
Qed.

(** The failure detector keeps at most its window of samples. *)
Lemma observe_window t p :
  1 ≤ phi_max_samples p → length (phi_samples p) ≤ phi_max_samples p →
  length (phi_samples (observe t p)) ≤ phi_max_samples (observe t p).
Proof.
  intros Hm Hl. unfold observe. simpl. destruct (phi_last_heartbeat p) as [prev|]; [|done].
  destruct (prev <? t)%Z; [|done]. rewrite length_app. simpl.
  destruct (Nat.ltb_spec (phi_max_samples p) (length (phi_samples p) + 1)); [|rewrite length_app; simpl; lia].
  destruct (phi_samples p); simpl in *; [lia|]. rewrite length_app. simpl. lia.
Qed.

(** ** A run *)

Module MeshGossipDemo.
Import MeshWireDemo.

Definition ra : RuntimeId := [x0a].
Definition rb : RuntimeId := [x0b].
Definition rec_a : GossipRecord := record_new 1000 ra ["10.0.0.1:1"] 1.
Definition rec_b : GossipRecord := record_new 1000 rb ["10.0.0.2:1"] 1.
Definition drain (r : GossipRecord) : GossipRecord :=
  mkRecord (gr_runtime_id r) (gr_endpoint_addrs r) (gr_proto_version r) (gr_load r) true
    (gr_capabilities r) (gr_version r) (gr_heartbeat_millis r).
Definition rec_a2 : GossipRecord := bump 2000 (drain rec_a).

Definition ga : GossipState := {[ra := rec_a2]}.
Definition gb : GossipState := {[rb := rec_b]}.

Definition net1 : Net :=
  mkNet (<[gr_runtime_id rec_a := state_new rec_a]> (replicas net_empty)) (hist net_empty ++ [rec_a]).
Definition net2 : Net :=
  mkNet (<[gr_runtime_id rec_b := state_new rec_b]> (replicas net1)) (hist net1 ++ [rec_b]).
Definition ga2 : GossipState := <[ra := rec_a2]> (state_new rec_a).
Definition net : Net := mkNet (<[ra := ga2]> (replicas net2)) (hist net2 ++ [rec_a2]).

Lemma net_reachable : reachable net.
Proof.
  apply (rtc_l _ _ net1); [apply (net_boot net_empty rec_a); set_solver|].
  apply (rtc_l _ _ net2); [apply (net_boot net1 rec_b)|].
  { intros r' Hr'. apply list_elem_of_singleton in Hr' as ->. done. }
  apply rtc_once. apply (net_update net2 ra (state_new rec_a) drain 2000 rec_a2 ga2); [done|done|done|].
  intros r0 Hr0. unfold state_new in Hr0. apply lookup_singleton_Some in Hr0 as [_ <-]. done.
Qed.

Lemma net_a : replicas net !! ra = Some ga2.
Proof. reflexivity. Qed.
Lemma net_b : replicas net !! rb = Some (state_new rec_b).
Proof. reflexivity. Qed.

Lemma gossip_converges_witness :
  let g := ga2 in
  let h := state_new rec_b in
  (apply_delta [rec_b] g).2 = (apply_delta [rec_a2] h).2 ∧ (apply_delta [rec_b] g).2 = join g h.
Proof.
  apply (gossip_converges net ra rb _ _ [entry_of rec_a2] [entry_of rec_b]);
    [exact net_reachable|exact net_a|exact net_b|reflexivity|reflexivity|reflexivity|reflexivity].
Defined.

Lemma apply_delta_order_insensitive_witness :
  (apply_delta [rec_a; rec_a2; rec_a] gb).2 = (apply_delta [rec_a2; rec_a] gb).2.
Proof.
  apply (apply_delta_order_insensitive [rec_a; rec_a2; rec_a] [rec_a2; rec_a] gb).
  - intros k r Hk. unfold gb in Hk. apply lookup_singleton_Some in Hk as [<- <-]. reflexivity.
  - assert (∀ r, r ∈ [rec_a; rec_a2; rec_a] ∨ in_state gb r → r = rec_a ∨ r = rec_a2 ∨ r = rec_b) as Hall.
    { intros r [Hr|Hr]; [set_solver|]. unfold in_state, gb in Hr.
      apply lookup_singleton_Some in Hr as [_ <-]. by right; right. }
    intros x y [-> |[-> | ->]]%Hall [-> |[-> | ->]]%Hall Hid Hv; try reflexivity; discriminate.
  - intros r. set_solver.
Defined.

Lemma own_record_authoritative_witness :
  ∃ r, ga2 !! ra = Some r ∧
       (gr_version rec_a2 ≤ gr_version r)%N ∧ (gr_version rec_a2 = gr_version r → rec_a2 = r).
Proof.
  apply (own_record_authoritative net ra ra _ ga2);
    [exact net_reachable|exact net_a|exact net_a|reflexivity].
Defined.

(** Two heartbeats a second apart: ten seconds of silence give a phi between 4
    and 5, twenty seconds one above the default threshold. *)
Definition phi2 : PhiAccrual := observe 1000000000 (observe 0 phi_default).

Example phi_quiet :
  (λ p, (f64_leb (f64_of_Z 4) p, f64_leb (f64_of_Z 5) p)) <$> phi_at 11000000000 phi2 = Some (true, false).
Proof. vm_compute. reflexivity. Qed.

Example phi_suspect : f64_leb (f64_of_Z 8) <$> phi_at 21000000000 phi2 = Some true.
Proof. vm_compute. reflexivity. Qed.

End MeshGossipDemo.
