(* ===== verification/MeshMembership.v ===== *)
(** * Mesh membership ([buzz-relay-mesh/src/membership.rs], [registry.rs], [status.rs],
      [runtime.rs])

    The table of peers a relay keeps, fed by attested seed records from Redis and
    by gossip; the records' attestation; the readiness heartbeat; and the
    admission, dialing and gossip decisions of the runtime.  The membership
    table with the local record is a gossip replica: [as_gossip] is the
    abstraction, and the theorems show that the table's operations implement the
    replica's ([MeshGossip]) while refusing foreign seeds and records about the
    local runtime. *)

From stdpp Require Import base gmap strings list sorting.
From Stdlib Require Import Ascii SpecFloat.
From Stdlib.Strings Require Import Byte.
From S2P Require Import Prelude Nostr Redis MeshWire MeshGossip.

(** ** [registry.rs]: attested seed records *)

Definition READY_KEY_PREFIX : string := "mesh:ready:".
Definition REGISTRY_EXPIRY_MULTIPLIER : N := 3.
Definition ATTESTATION_CONTEXT : string := "buzz-relay-mesh-ready-v1".

(** The relay key and SHA-256 ([nostr], [secp256k1], [sha2]), and the JSON of a
    seed record ([serde_json]). *)
Record ReadyRecord := mkReady {
  rr_runtime_id : RuntimeId;
  rr_runtime_pubkey : string;
  rr_relay_pubkey : string;
  rr_relay_sig : string;
  rr_endpoint_addrs : list string;
  rr_proto_version : N;
  rr_capabilities : list string
}.

Class RelayCrypto := {
  rc_public : Type;  rc_xonly : Type;  rc_sig : Type;  rc_keys : Type;
  rc_pk_from_hex : string → result string rc_public;
  rc_pk_to_hex : rc_public → string;
  rc_pk_xonly : rc_public → result string rc_xonly;
  rc_sig_from_str : string → result string rc_sig;
  rc_sig_to_string : rc_sig → string;
  rc_public_key : rc_keys → rc_public;
  rc_sha256 : string → bytes;
  rc_sign_schnorr : rc_keys → bytes → rc_sig;
  rc_verify_schnorr : rc_sig → bytes → rc_xonly → result string unit;
  ready_to_json : ReadyRecord → result string string;
  ready_from_json : string → option ReadyRecord
}.

Class RelayCryptoLaws (api : RelayCrypto) := {
  rc_pk_roundtrip : ∀ p, rc_pk_from_hex (rc_pk_to_hex p) = Ok p;
  rc_sig_roundtrip : ∀ s, rc_sig_from_str (rc_sig_to_string s) = Ok s;
  rc_keys_xonly : ∀ k, ∃ x, rc_pk_xonly (rc_public_key k) = Ok x;
  rc_sign_verifies : ∀ k m x, rc_pk_xonly (rc_public_key k) = Ok x →
    rc_verify_schnorr (rc_sign_schnorr k m) m x = Ok tt
}.

Section registry.
Context `{HexApi} `{RelayCrypto}.

Definition newline : string := String (ascii_of_N 10) "".

Definition attestation_preimage (id : RuntimeId) (relay_pubkey : string) : string :=
  ATTESTATION_CONTEXT +:+ newline +:+ "runtime_pubkey=" +:+ to_hex id
    +:+ newline +:+ "relay_pubkey=" +:+ relay_pubkey.

Definition attestation_message (id : RuntimeId) (relay_pubkey : string) : bytes :=
  rc_sha256 (attestation_preimage id relay_pubkey).

Definition verify_signature (id : RuntimeId) (relay_pubkey relay_sig : string) :
    result MeshError unit :=
  let? pk := map_err (λ e, Transport ("ready registry attestation invalid relay_pubkey: " +:+ e))
               (rc_pk_from_hex relay_pubkey) in
  let? xonly := map_err (λ e, Transport
                  ("ready registry attestation relay_pubkey xonly conversion failed: " +:+ e))
                  (rc_pk_xonly pk) in
  let? sig := map_err (λ e, Transport ("ready registry attestation invalid relay_sig: " +:+ e))
                (rc_sig_from_str relay_sig) in
  map_err (λ e, Transport ("ready registry attestation signature verification failed: " +:+ e))
    (rc_verify_schnorr sig (attestation_message id (rc_pk_to_hex pk)) xonly).

Definition verify_attestation (r : ReadyRecord) : result MeshError unit :=
  if decide (rr_runtime_pubkey r ≠ to_hex (rr_runtime_id r)) then
    Err (Transport ("ready registry runtime_id/runtime_pubkey mismatch: " +:+ to_hex (rr_runtime_id r)
                      +:+ " != " +:+ rr_runtime_pubkey r))
  else verify_signature (rr_runtime_id r) (rr_relay_pubkey r) (rr_relay_sig r).

(** [RuntimeAttestation::new] and [ReadyRecord::new]. *)
Definition attest (keys : rc_keys) (id : RuntimeId) : string * string :=
  let relay_pubkey := rc_pk_to_hex (rc_public_key keys) in
  (relay_pubkey, rc_sig_to_string (rc_sign_schnorr keys (attestation_message id relay_pubkey))).

Definition ready_new (id : RuntimeId) (keys : rc_keys) (addrs : list string) (proto : N)
    (caps : list string) : ReadyRecord :=
  let '(pk, sig) := attest keys id in mkReady id (to_hex id) pk sig addrs proto caps.

Definition ready_key (id : RuntimeId) : string := READY_KEY_PREFIX +:+ to_hex id.

(** [expiry_for] on whole seconds, saturating, and at least one second. *)
Definition expiry_for (refresh : N) : N := N.min (refresh * REGISTRY_EXPIRY_MULTIPLIER) u64_max.
Definition ttl_secs (refresh : N) : N := N.max (expiry_for refresh) 1.

(** ** The registry and its heartbeat *)

Context `{RedisApi}.

Definition publish_ready (conn : result string unit) (o : outcome) (refresh : N)
    (rec : ReadyRecord) (r : redis) : result MeshError unit * redis :=
  match verify_attestation rec, conn, ready_to_json rec with
  | Err e, _, _ => (Err e, r)
  | _, Err e, _ => (Err (Transport ("redis pool: " +:+ e)), r)
  | _, _, Err e => (Err (Transport ("ready registry encode: " +:+ e)), r)
  | Ok _, Ok _, Ok payload =>
      let '(res, r') := call o (λ r, (tt, redis_set_px r (ready_key (rr_runtime_id rec)) payload
                                        (Z.of_N (ttl_secs refresh) * 1000))) r in
      (map_err RedisErr res, r')
  end.

Definition clear_ready (conn : result string unit) (o : outcome) (id : RuntimeId) (r : redis) :
    result MeshError unit * redis :=
  match conn with
  | Err e => (Err (Transport ("redis pool: " +:+ e)), r)
  | Ok _ =>
      let '(res, r') := call o (λ r, (tt, redis_del r (ready_key id))) r in
      (map_err RedisErr res, r')
  end.

(** What [scan_ready] keeps of one key: records that decode, are stored under
    their own key and are attested. *)
Definition scan_key (r : redis) (key : string) : option ReadyRecord :=
  match redis_get r key with
  | None => None
  | Some raw =>
      match ready_from_json raw with
      | Some rec =>
          if decide (ready_key (rr_runtime_id rec) = key)
          then if is_ok (verify_attestation rec) then Some rec else None
          else None
      | None => None
      end
  end.

(** The keys of one page of [SCAN], each with the key space its [GET] reads, or the
    error of that call. *)
Fixpoint scan_keys (keys : list (string * result string redis)) :
    result MeshError (list ReadyRecord) :=
  match keys with
  | [] => Ok []
  | (key, got) :: keys =>
      let? r := map_err RedisErr got in
      let? out := scan_keys keys in
      Ok (option_list (scan_key r key) ++ out)
  end.

(** The pages until the cursor is zero again. *)
Fixpoint scan_pages (pages : list (result string (list (string * result string redis)))) :
    result MeshError (list ReadyRecord) :=
  match pages with
  | [] => Ok []
  | page :: pages =>
      let? keys := map_err RedisErr page in
      let? out := scan_keys keys in
      let? out' := scan_pages pages in
      Ok (out ++ out')
  end.

Definition scan_ready (conn : result string unit)
    (pages : list (result string (list (string * result string redis)))) :
    result MeshError (list ReadyRecord) :=
  match conn with
  | Err e => Err (Transport ("redis pool: " +:+ e))
  | Ok _ => scan_pages pages
  end.

Record ReadyHeartbeat := mkHeartbeat {
  hb_record : ReadyRecord;
  hb_published : bool
}.

Definition set_published (b : bool) (hb : ReadyHeartbeat) : ReadyHeartbeat :=
  mkHeartbeat (hb_record hb) b.

Definition tick (conn : result string unit) (o : outcome) (refresh : N) (ready : bool)
    (hb : ReadyHeartbeat) (r : redis) : result MeshError unit * (ReadyHeartbeat * redis) :=
  if ready then
    match publish_ready conn o refresh (hb_record hb) r with
    | (Ok _, r') => (Ok tt, (set_published true hb, r'))
    | (Err e, r') => (Err e, (hb, r'))
    end
  else if hb_published hb then
    match clear_ready conn o (rr_runtime_id (hb_record hb)) r with
    | (Ok _, r') => (Ok tt, (set_published false hb, r'))
    | (Err e, r') => (Err e, (hb, r'))
    end
  else (Ok tt, (hb, r)).

Definition hb_shutdown (conn : result string unit) (o : outcome) (hb : ReadyHeartbeat) (r : redis) :
    result MeshError unit * (ReadyHeartbeat * redis) :=
  if hb_published hb then
    match clear_ready conn o (rr_runtime_id (hb_record hb)) r with
    | (Ok _, r') => (Ok tt, (set_published false hb, r'))
    | (Err e, r') => (Err e, (hb, r'))
    end
  else (Ok tt, (hb, r)).

End registry.

(** ** [status.rs] and [membership.rs] *)

Inductive ConnectionState := Disconnected | Connecting | Connected | Suspect.

Record MeshPeerCounters := mkCounters {
  pc_runtime_id : string;
  pc_streams_opened : N;
  pc_streams_received : N;
  pc_datagrams_sent : N;
  pc_datagrams_received : N;
  pc_gossip_frames_sent : N;
  pc_gossip_frames_received : N;
  pc_stale_generation_rejections : N
}.

Record PeerState := mkPeer {
  ps_record : GossipRecord;
  ps_phi : PhiAccrual;
  ps_connection_state : ConnectionState;
  ps_counters : MeshPeerCounters
}.

Record MeshMembership := mkMembership {
  mm_local_runtime_id : RuntimeId;
  mm_local_record : GossipRecord;
  mm_peers : gmap (list byte) PeerState;
  mm_draining : bool;
  mm_stale_generation_rejections : N;
  mm_foreign_relay_rejections : N;
  mm_expected_relay_pubkey : option string;
  mm_phi_suspect_threshold : F64
}.

Record PeerInfo := mkPeerInfo {
  pi_runtime_id : RuntimeId;
  pi_draining : bool;
  pi_phi : option F64;
  pi_load : N
}.

Definition DEFAULT_PHI_SUSPECT_THRESHOLD : F64 := S754_finite false 4503599627370496 (-49).

Definition membership_new (local : GossipRecord) : MeshMembership :=
  mkMembership (gr_runtime_id local) local ∅ false 0 0 None DEFAULT_PHI_SUSPECT_THRESHOLD.

Definition with_expected_relay_pubkey (pk : string) (m : MeshMembership) : MeshMembership :=
  mkMembership (mm_local_runtime_id m) (mm_local_record m) (mm_peers m) (mm_draining m)
    (mm_stale_generation_rejections m) (mm_foreign_relay_rejections m) (Some pk)
    (mm_phi_suspect_threshold m).

Definition set_peers (peers : gmap (list byte) PeerState) (m : MeshMembership) : MeshMembership :=
  mkMembership (mm_local_runtime_id m) (mm_local_record m) peers (mm_draining m)
    (mm_stale_generation_rejections m) (mm_foreign_relay_rejections m) (mm_expected_relay_pubkey m)
    (mm_phi_suspect_threshold m).

Definition set_local (r : GossipRecord) (m : MeshMembership) : MeshMembership :=
  mkMembership (mm_local_runtime_id m) r (mm_peers m) (mm_draining m)
    (mm_stale_generation_rejections m) (mm_foreign_relay_rejections m) (mm_expected_relay_pubkey m)
    (mm_phi_suspect_threshold m).

(** [AtomicU64::fetch_add] wraps. *)
Definition wrapping_succ (n : N) : N := (n + 1) `mod` (u64_max + 1).

Definition reject_foreign (m : MeshMembership) : MeshMembership :=
  mkMembership (mm_local_runtime_id m) (mm_local_record m) (mm_peers m) (mm_draining m)
    (mm_stale_generation_rejections m) (wrapping_succ (mm_foreign_relay_rejections m))
    (mm_expected_relay_pubkey m) (mm_phi_suspect_threshold m).

Section membership.
Context `{HexApi} `{RelayCrypto}.
Context {MI : MapIter (list byte)}.

Definition counters_new (id : RuntimeId) : MeshPeerCounters := mkCounters (to_hex id) 0 0 0 0 0 0 0.

Definition apply_gossip_record (r : GossipRecord) (m : MeshMembership) : bool * MeshMembership :=
  if decide (gr_runtime_id r = mm_local_runtime_id m) then (false, m)
  else
    let heartbeat := system_time_from_millis (gr_heartbeat_millis r) in
    match mm_peers m !! gr_runtime_id r with
    | Some peer =>
        if (gr_version r <=? gr_version (ps_record peer))%N then (false, m)
        else
          (true, set_peers (<[gr_runtime_id r := mkPeer r (observe heartbeat (ps_phi peer)) Connected
                                                  (ps_counters peer)]> (mm_peers m)) m)
    | None =>
        (true, set_peers (<[gr_runtime_id r := mkPeer r (observe heartbeat phi_default) Connected
                                                (counters_new (gr_runtime_id r))]> (mm_peers m)) m)
    end.

(** The record a seed enters with. *)
Definition seed_record (now : N) (rec : ReadyRecord) : GossipRecord :=
  let r := record_new now (rr_runtime_id rec) (rr_endpoint_addrs rec) (rr_proto_version rec) in
  mkRecord (gr_runtime_id r) (gr_endpoint_addrs r) (gr_proto_version r) (gr_load r) (gr_draining r)
    (rr_capabilities rec) (gr_version r) (gr_heartbeat_millis r).

Definition anchored (m : MeshMembership) (rec : ReadyRecord) : bool :=
  match mm_expected_relay_pubkey m with
  | Some expected => bool_decide (rr_relay_pubkey rec = expected)
  | None => false
  end.

(** One round of [apply_ready_records], at clock [now]. *)
Definition apply_ready_record (m : MeshMembership) (e : N * ReadyRecord) : MeshMembership :=
  let '(now, rec) := e in
  if decide (rr_runtime_id rec = mm_local_runtime_id m) then m
  else if negb (anchored m rec) then reject_foreign m
  else if negb (is_ok (verify_attestation rec)) then m
  else (apply_gossip_record (seed_record now rec) m).2.

Definition apply_ready_records (records : list (N * ReadyRecord)) (m : MeshMembership) :
    MeshMembership := foldl apply_ready_record m records.

Definition update_peer (id : RuntimeId) (f : PeerState → PeerState) (m : MeshMembership) :
    MeshMembership :=
  match mm_peers m !! id with
  | Some peer => set_peers (<[id := f peer]> (mm_peers m)) m
  | None => m
  end.

Definition mark_connection_state (id : RuntimeId) (st : ConnectionState) (m : MeshMembership) :
    MeshMembership :=
  update_peer id (λ p, mkPeer (ps_record p) (ps_phi p) st (ps_counters p)) m.

Definition update_peer_counters (id : RuntimeId) (f : MeshPeerCounters → MeshPeerCounters)
    (m : MeshMembership) : MeshMembership :=
  update_peer id (λ p, mkPeer (ps_record p) (ps_phi p) (ps_connection_state p) (f (ps_counters p))) m.

Definition record_stream_opened (id : RuntimeId) : MeshMembership → MeshMembership :=
  update_peer_counters id (λ c, mkCounters (pc_runtime_id c) (saturating_succ (pc_streams_opened c))
    (pc_streams_received c) (pc_datagrams_sent c) (pc_datagrams_received c)
    (pc_gossip_frames_sent c) (pc_gossip_frames_received c) (pc_stale_generation_rejections c)).

Definition record_stream_received (id : RuntimeId) : MeshMembership → MeshMembership :=
  update_peer_counters id (λ c, mkCounters (pc_runtime_id c) (pc_streams_opened c)
    (saturating_succ (pc_streams_received c)) (pc_datagrams_sent c) (pc_datagrams_received c)
    (pc_gossip_frames_sent c) (pc_gossip_frames_received c) (pc_stale_generation_rejections c)).

Definition record_datagram_sent (id : RuntimeId) : MeshMembership → MeshMembership :=
  update_peer_counters id (λ c, mkCounters (pc_runtime_id c) (pc_streams_opened c)
    (pc_streams_received c) (saturating_succ (pc_datagrams_sent c)) (pc_datagrams_received c)
    (pc_gossip_frames_sent c) (pc_gossip_frames_received c) (pc_stale_generation_rejections c)).

Definition record_datagram_received (id : RuntimeId) : MeshMembership → MeshMembership :=
  update_peer_counters id (λ c, mkCounters (pc_runtime_id c) (pc_streams_opened c)
    (pc_streams_received c) (pc_datagrams_sent c) (saturating_succ (pc_datagrams_received c))
    (pc_gossip_frames_sent c) (pc_gossip_frames_received c) (pc_stale_generation_rejections c)).

Definition record_gossip_frame_sent (id : RuntimeId) : MeshMembership → MeshMembership :=
  update_peer_counters id (λ c, mkCounters (pc_runtime_id c) (pc_streams_opened c)
    (pc_streams_received c) (pc_datagrams_sent c) (pc_datagrams_received c)
    (saturating_succ (pc_gossip_frames_sent c)) (pc_gossip_frames_received c)
    (pc_stale_generation_rejections c)).

Definition record_gossip_frame_received (id : RuntimeId) : MeshMembership → MeshMembership :=
  update_peer_counters id (λ c, mkCounters (pc_runtime_id c) (pc_streams_opened c)
    (pc_streams_received c) (pc_datagrams_sent c) (pc_datagrams_received c)
    (pc_gossip_frames_sent c) (saturating_succ (pc_gossip_frames_received c))
    (pc_stale_generation_rejections c)).

Definition record_stale_generation_rejection (id : option RuntimeId) (m : MeshMembership) :
    MeshMembership :=
  let m := mkMembership (mm_local_runtime_id m) (mm_local_record m) (mm_peers m) (mm_draining m)
             (wrapping_succ (mm_stale_generation_rejections m)) (mm_foreign_relay_rejections m)
             (mm_expected_relay_pubkey m) (mm_phi_suspect_threshold m) in
  match id with
  | Some id =>
      update_peer_counters id (λ c, mkCounters (pc_runtime_id c) (pc_streams_opened c)
        (pc_streams_received c) (pc_datagrams_sent c) (pc_datagrams_received c)
        (pc_gossip_frames_sent c) (pc_gossip_frames_received c)
        (saturating_succ (pc_stale_generation_rejections c))) m
  | None => m
  end.

Definition update_local_record (now : N) (update : GossipRecord → GossipRecord)
    (m : MeshMembership) : MeshMembership :=
  set_local (bump now (update (mm_local_record m))) m.

Definition begin_drain (now : N) (m : MeshMembership) : MeshMembership :=
  update_local_record now
    (λ r, mkRecord (gr_runtime_id r) (gr_endpoint_addrs r) (gr_proto_version r) (gr_load r) true
            (gr_capabilities r) (gr_version r) (gr_heartbeat_millis r))
    (mkMembership (mm_local_runtime_id m) (mm_local_record m) (mm_peers m) true
       (mm_stale_generation_rejections m) (mm_foreign_relay_rejections m)
       (mm_expected_relay_pubkey m) (mm_phi_suspect_threshold m)).

Definition has_peer (id : RuntimeId) (m : MeshMembership) : bool :=
  bool_decide (is_Some (mm_peers m !! id)).

Definition records (m : MeshMembership) : list GossipRecord :=
  ((λ e, ps_record e.2) <$> hiter (mm_peers m)) ++ [mm_local_record m].

Definition membership_digest (m : MeshMembership) : GossipMessage :=
  Digest GOSSIP_PAYLOAD_VERSION (digest_entries (records m)).

Definition membership_delta_for (d : list GossipDigestEntry) (m : MeshMembership) : GossipMessage :=
  Delta GOSSIP_PAYLOAD_VERSION (delta_records d (records m)).

Definition suspect (m : MeshMembership) (now : Z) (p : PeerState) : bool :=
  match phi_at now (ps_phi p) with
  | Some phi => f64_leb (mm_phi_suspect_threshold m) phi
  | None => false
  end.

(** [RelayMeshMembership::peers]. *)
Definition peers (now : Z) (m : MeshMembership) : list PeerInfo :=
  omap (λ e, if suspect m now e.2 then None
             else Some (mkPeerInfo (gr_runtime_id (ps_record e.2)) (gr_draining (ps_record e.2))
                          (phi_at now (ps_phi e.2)) (gr_load (ps_record e.2))))
    (hiter (mm_peers m)).

(** ** [runtime.rs]: decisions *)

(** The order of byte arrays. *)
Fixpoint bytes_ltb (a b : bytes) : bool :=
  match a, b with
  | [], _ :: _ => true
  | _, [] => false
  | x :: a', y :: b' =>
      (Byte.to_N x <? Byte.to_N y)%N || (bool_decide (x = y) && bytes_ltb a' b')
  end.

Definition new_connection_wins (local remote : RuntimeId) (new_dialed_by_us : bool) : bool :=
  if bytes_ltb local remote then new_dialed_by_us else negb new_dialed_by_us.

(** [is_known_peer]: the answer of the rescan is [None] when there is no registry
    or it failed. *)
Definition is_known_peer (rescan : option (list (N * ReadyRecord))) (id : RuntimeId)
    (m : MeshMembership) : bool * MeshMembership :=
  if has_peer id m then (true, m)
  else
    let m' := match rescan with Some l => apply_ready_records l m | None => m end in
    (has_peer id m', m').

(** The records [reconcile_once] dials when not connected. *)
Definition dial_candidates (rescan : option (list (N * ReadyRecord))) (connected : gset (list byte))
    (m : MeshMembership) : list GossipRecord * MeshMembership :=
  let m' := match rescan with Some l => apply_ready_records l m | None => m end in
  (List.filter (λ r, bool_decide (gr_runtime_id r ∉ connected))
     (List.filter (λ r, negb (bool_decide (gr_runtime_id r = mm_local_runtime_id m')) &&
                        negb (gr_draining r)) (records m')), m').

(** [control_stream_exchange] on one frame: the membership afterwards and the
    frame to send back. *)
Definition control_frame `{Postcard GossipMessage} (remote : RuntimeId) (f : MeshStreamFrame)
    (m : MeshMembership) : option MeshStreamFrame * MeshMembership :=
  match f with
  | Gossip payload =>
      let m := record_gossip_frame_received remote m in
      match decode_message payload with
      | Ok (Digest _ entries) =>
          match encode_message (membership_delta_for entries m) with
          | Ok payload => (Some (Gossip payload), m)
          | Err _ => (None, m)
          end
      | Ok (Delta _ rs) => (None, foldl (λ m r, (apply_gossip_record r m).2) m rs)
      | Err _ => (None, m)
      end
  | _ => (None, m)
  end.

End membership.

(** ** The membership table as a gossip replica *)

Definition as_gossip (m : MeshMembership) : gmap (list byte) GossipRecord :=
  <[mm_local_runtime_id m := mm_local_record m]> (ps_record <$> mm_peers m).

(** The invariant of the table: the local runtime is not among the peers, every
    record is filed under its id, and every failure detector is within its
    window. *)
Record membership_ok (m : MeshMembership) : Prop := {
  mo_local : gr_runtime_id (mm_local_record m) = mm_local_runtime_id m;
  mo_self : mm_peers m !! mm_local_runtime_id m = None;
  mo_keyed : ∀ k p, mm_peers m !! k = Some p → gr_runtime_id (ps_record p) = k;
  mo_phi : ∀ k p, mm_peers m !! k = Some p →
    1 ≤ phi_max_samples (ps_phi p) ∧ length (phi_samples (ps_phi p)) ≤ phi_max_samples (ps_phi p)
}.

(** The operations of the membership view. *)
Inductive MOp :=
| MGossip (r : GossipRecord)
| MReady (l : list (N * ReadyRecord))
| MMark (id : RuntimeId) (st : ConnectionState)
| MCounters (id : RuntimeId) (f : MeshPeerCounters → MeshPeerCounters)
| MStale (id : option RuntimeId)
| MUpdateLocal (now : N) (f : GossipRecord → GossipRecord)
| MDrain (now : N).

Section membership_lemmas.
Context `{HexApi} `{RelayCrypto}.
Context {MI : MapIter (list byte)} {HL : HexLaws _}.
Implicit Types m : MeshMembership.

Definition mstep m (op : MOp) : MeshMembership :=
  match op with
  | MGossip r => (apply_gossip_record r m).2
  | MReady l => apply_ready_records l m
  | MMark id st => mark_connection_state id st m
  | MCounters id f => update_peer_counters id f m
  | MStale id => record_stale_generation_rejection id m
  | MUpdateLocal now f => update_local_record now f m
  | MDrain now => begin_drain now m
  end.

(** Update closures keep the record's identity (and its version). *)
Definition mop_ok (op : MOp) : Prop :=
  match op with MUpdateLocal _ f => update_ok f | _ => True end.

Lemma observe_phi_ok t p :
  1 ≤ phi_max_samples p ∧ length (phi_samples p) ≤ phi_max_samples p →
  1 ≤ phi_max_samples (observe t p) ∧ length (phi_samples (observe t p)) ≤ phi_max_samples (observe t p).
Proof. intros [? ?]. split; [done|by apply observe_window]. Qed.

(** Replacing one peer keeps the invariant when the new state is well-formed. *)
Lemma set_peer_ok m k p :
  membership_ok m → k ≠ mm_local_runtime_id m → gr_runtime_id (ps_record p) = k →
  1 ≤ phi_max_samples (ps_phi p) ∧ length (phi_samples (ps_phi p)) ≤ phi_max_samples (ps_phi p) →
  membership_ok (set_peers (<[k := p]> (mm_peers m)) m).
Proof.
  intros [H1 H2 H3 H4] Hne Hk Hp. split; simpl; [done| | |].
  - by rewrite lookup_insert_ne.
  - intros k' p'. destruct (decide (k = k')) as [<-|]; [rewrite lookup_insert_eq|rewrite lookup_insert_ne by done]; [congruence|eauto].
  - intros k' p'. destruct (decide (k = k')) as [<-|]; [rewrite lookup_insert_eq|rewrite lookup_insert_ne by done]; [congruence|eauto].
Qed.

Lemma apply_gossip_ok r m : membership_ok m → membership_ok (apply_gossip_record r m).2.
Proof.
  intros Hm. unfold apply_gossip_record.
  destruct (decide (gr_runtime_id r = mm_local_runtime_id m)) as [|Hne]; [done|].
  destruct (mm_peers m !! gr_runtime_id r) as [peer|] eqn:E.
  - destruct (_ <=? _)%N; [done|]. apply set_peer_ok; [done|done|done|].
    apply observe_phi_ok. by eapply mo_phi.
  - apply set_peer_ok; [done|done|done|]. apply observe_phi_ok. simpl. lia.
Qed.

Lemma apply_ready_record_ok m e : membership_ok m → membership_ok (apply_ready_record m e).
Proof.
  destruct e as [now rec]. intros Hm. unfold apply_ready_record.
  destruct (decide _); [done|]. destruct (negb (anchored m rec)); [by destruct Hm|].
  destruct (negb _); [done|]. by apply apply_gossip_ok.
Qed.

Lemma apply_ready_ok l m : membership_ok m → membership_ok (apply_ready_records l m).
Proof. unfold apply_ready_records. revert m. induction l; simpl; auto using apply_ready_record_ok. Qed.

Lemma update_peer_ok id f m :
  membership_ok m → (∀ p, ps_record (f p) = ps_record p ∧ ps_phi (f p) = ps_phi p) →
  membership_ok (update_peer id f m).
Proof.
  intros Hm Hf. unfold update_peer. destruct (mm_peers m !! id) as [p|] eqn:E; [|done].
  destruct (Hf p) as [Hr Hp]. apply set_peer_ok; [done| | |].
  - intros ->. rewrite (mo_self _ Hm) in E. done.
  - rewrite Hr. by eapply mo_keyed.
  - rewrite Hp. by eapply mo_phi.
Qed.

Lemma mstep_ok op m : membership_ok m → mop_ok op → membership_ok (mstep m op).
Proof.
  intros Hm Hop. destruct op as [r|l|id st|id f|id|now f|now]; simpl.
  - by apply apply_gossip_ok.
  - by apply apply_ready_ok.
  - by apply update_peer_ok.
  - by apply update_peer_ok.
  - unfold record_stale_generation_rejection.
    assert (membership_ok (mkMembership (mm_local_runtime_id m) (mm_local_record m) (mm_peers m)
      (mm_draining m) (wrapping_succ (mm_stale_generation_rejections m)) (mm_foreign_relay_rejections m)
      (mm_expected_relay_pubkey m) (mm_phi_suspect_threshold m))) by (by destruct Hm).
    destruct id; [by apply update_peer_ok|done].
  - destruct Hm as [H1 H2 H3 H4]. split; simpl; [|done|done|done]. destruct (Hop (mm_local_record m)). congruence.
  - by destruct Hm.
Qed.

(** The records of the table are those of the replica. *)
Lemma records_values m : membership_ok m → records m ≡ₚ values (as_gossip m).
Proof.
  intros Hm. unfold records, values, as_gossip.
  rewrite (hiter_perm _ (mm_peers m)), (hiter_perm _ (<[_ := _]> _)).
  rewrite map_to_list_insert by (by rewrite lookup_fmap, (mo_self _ Hm)).
  rewrite map_to_list_fmap, fmap_cons.
  rewrite <-Permutation_cons_append. simpl. f_equiv.
  rewrite <-list_fmap_compose. apply Permutation_refl'. apply list_fmap_ext. by intros ? [].
Qed.

Lemma as_gossip_keyed m : membership_ok m → keyed (as_gossip m).
Proof.
  intros Hm k r. unfold as_gossip. destruct (decide (mm_local_runtime_id m = k)) as [<-|Hne].
  - rewrite lookup_insert_eq. intros [= <-]. apply Hm.
  - rewrite lookup_insert_ne, lookup_fmap by done. destruct (mm_peers m !! k) as [p|] eqn:E; [|done].
    intros [= <-]. by eapply mo_keyed.
Qed.

Lemma values_ids_inj g a b :
  keyed g → a ∈ values g → b ∈ values g → gr_runtime_id a = gr_runtime_id b → a = b.
Proof.
  intros Hg Ha Hb E. apply elem_of_values_keyed in Ha, Hb; [|done..]. rewrite E in Ha. congruence.
Qed.

Lemma entry_le_total a b : entry_le a b = false → entry_le b a = true.
Proof. apply str_leb_total. Qed.
Lemma entry_le_trans a b c : entry_le a b = true → entry_le b c = true → entry_le a c = true.
Proof. apply str_leb_trans. Qed.
Lemma record_le_total a b : record_le a b = false → record_le b a = true.
Proof. apply str_leb_total. Qed.
Lemma record_le_trans a b c : record_le a b = true → record_le b c = true → record_le a c = true.
Proof. apply str_leb_trans. Qed.

Lemma hex_key_inj a b : str_leb (to_hex a) (to_hex b) = true → str_leb (to_hex b) (to_hex a) = true → a = b.
Proof.
  intros H1 H2. pose proof (str_leb_antisym _ _ H1 H2) as E%(f_equal hex_decode).
  unfold to_hex in E. rewrite !hex_decode_encode in E. congruence.
Qed.

Lemma digest_refines m : membership_ok m → membership_digest m = digest (as_gossip m).
Proof.
  intros Hm. unfold membership_digest, digest, digest_entries. f_equal.
  apply sort_by_unique; [apply entry_le_total|apply entry_le_trans| |by rewrite (records_values m Hm)].
  intros a b Ha Hb H1 H2. rewrite (records_values m Hm) in Ha, Hb.
  apply list_elem_of_fmap in Ha as (x & -> & Hx), Hb as (y & -> & Hy).
  f_equal. eapply values_ids_inj; [by apply as_gossip_keyed|done|done|]. by apply hex_key_inj.
Qed.

Lemma filter_perm_bool {A} (f : A → bool) (l l' : list A) : l ≡ₚ l' → List.filter f l ≡ₚ List.filter f l'.
Proof.
  induction 1 as [|x l l' _ IH|x y l|l1 l2 l3 _ IH1 _ IH2]; simpl; [done| | |by etrans].
  - destruct (f x); [by f_equiv|done].
  - destruct (f x), (f y); try done. apply Permutation_swap.
Qed.

Lemma delta_refines d m : membership_ok m → membership_delta_for d m = delta_for d (as_gossip m).
Proof.
  intros Hm. unfold membership_delta_for, delta_for, delta_records. f_equal.
  apply sort_by_unique; [apply record_le_total|apply record_le_trans| |].
  - intros a b Ha Hb H1 H2. apply list_elem_of_In, filter_In in Ha as [Ha%list_elem_of_In _].
    apply list_elem_of_In, filter_In in Hb as [Hb%list_elem_of_In _].
    rewrite (records_values m Hm) in Ha, Hb.
    eapply values_ids_inj; [by apply as_gossip_keyed|done|done|]. by apply hex_key_inj.
  - apply filter_perm_bool, records_values, Hm.
Qed.

Lemma as_gossip_set_peer m k p :
  k ≠ mm_local_runtime_id m →
  as_gossip (set_peers (<[k := p]> (mm_peers m)) m) = <[k := ps_record p]> (as_gossip m).
Proof.
  intros Hne. unfold as_gossip. simpl. rewrite fmap_insert. by rewrite insert_insert_ne.
Qed.

Lemma as_gossip_lookup m k :
  k ≠ mm_local_runtime_id m → as_gossip m !! k = ps_record <$> mm_peers m !! k.
Proof. intros Hne. unfold as_gossip. by rewrite lookup_insert_ne, lookup_fmap. Qed.

Lemma apply_gossip_refines r m :
  gr_runtime_id r ≠ mm_local_runtime_id m →
  as_gossip (apply_gossip_record r m).2 = (apply_delta [r] (as_gossip m)).2 ∧
  (apply_gossip_record r m).1 = bool_decide ((apply_delta [r] (as_gossip m)).1 ≠ []).
Proof.
  intros Hne. unfold apply_gossip_record, apply_delta. simpl. unfold apply_record. simpl.
  rewrite decide_False by done. rewrite as_gossip_lookup by done.
  destruct (mm_peers m !! gr_runtime_id r) as [peer|] eqn:E; simpl.
  - destruct (N.leb_spec (gr_version r) (gr_version (ps_record peer))) as [Hle|Hlt].
    + rewrite (proj2 (N.ltb_ge _ _)) by done. done.
    + rewrite (proj2 (N.ltb_lt _ _)) by done. simpl. by rewrite as_gossip_set_peer.
  - by rewrite as_gossip_set_peer.
Qed.

Lemma apply_gossip_local r m :
  mm_local_runtime_id (apply_gossip_record r m).2 = mm_local_runtime_id m ∧
  mm_expected_relay_pubkey (apply_gossip_record r m).2 = mm_expected_relay_pubkey m.
Proof.
  unfold apply_gossip_record. destruct (decide _); [done|].
  destruct (mm_peers m !! _); [|done]. by destruct (_ <=? _)%N.
Qed.

(** Applying a batch of gossip, the records about the local runtime left out. *)
Lemma apply_gossip_batch l m :
  as_gossip (foldl (λ m r, (apply_gossip_record r m).2) m l) =
    (apply_delta (List.filter (λ r, negb (bool_decide (gr_runtime_id r = mm_local_runtime_id m))) l)
       (as_gossip m)).2.
Proof.
  revert m. induction l as [|r l IH]; intros m; [done|]. cbn [foldl]. rewrite IH.
  rewrite (proj1 (apply_gossip_local r m)). cbn [List.filter].
  destruct (decide (gr_runtime_id r = mm_local_runtime_id m)) as [Heq|Hne].
  - rewrite bool_decide_eq_true_2 by done. simpl. unfold apply_gossip_record. by rewrite decide_True.
  - rewrite bool_decide_eq_false_2 by done. simpl.
    rewrite (proj1 (apply_gossip_refines r m Hne)). apply map_eq. intros k.
    by rewrite !apply_delta_lookup.
Qed.


(** ** Properties *)

(** Every operation of the membership view keeps its invariant: the local runtime
    never appears among its peers, records stay filed under their runtime id, and
    the failure detectors keep at most their window of samples. *)
Theorem membership_invariant local ops :
  Forall mop_ok ops → membership_ok (foldl mstep (membership_new local) ops).
Proof.
  intros Hops. assert (membership_ok (membership_new local)) as Hm.
  { split; simpl; [done|by rewrite lookup_empty| |]; intros k p Hk; by rewrite lookup_empty in Hk. }
  revert Hm. generalize (membership_new local).
  induction Hops as [|op ops Hop _ IH]; intros m Hm; simpl; [done|]. by apply IH, mstep_ok.
Qed.

(** The membership table refines a gossip replica.  Its digest and its answer to a
    digest are those of the replica [as_gossip], a gossiped record about another
    runtime is applied exactly when the replica applies it (and reports so), a
    record about the local runtime is ignored, and a local update is the
    replica's. *)
Theorem membership_refines_gossip m d r now f :
  membership_ok m → update_ok f →
  membership_digest m = digest (as_gossip m) ∧
  membership_delta_for d m = delta_for d (as_gossip m) ∧
  (gr_runtime_id r = mm_local_runtime_id m → apply_gossip_record r m = (false, m)) ∧
  (gr_runtime_id r ≠ mm_local_runtime_id m →
     as_gossip (apply_gossip_record r m).2 = (apply_delta [r] (as_gossip m)).2 ∧
     (apply_gossip_record r m).1 = bool_decide ((apply_delta [r] (as_gossip m)).1 ≠ [])) ∧
  as_gossip (update_local_record now f m) =
    (update_local now (mm_local_runtime_id m) f (as_gossip m)).2.
Proof.
  intros Hm Hf. split; [by apply digest_refines|]. split; [by apply delta_refines|].
  split; [intros E; unfold apply_gossip_record; by rewrite decide_True|].
  split; [apply apply_gossip_refines|].
  unfold update_local, as_gossip at 2. rewrite lookup_insert_eq.
  unfold update_local_record, as_gossip, set_local. simpl. by rewrite insert_insert_eq.
Qed.

(** Two relays that exchange digest and delta agree on everything but themselves:
    after [m1] applies the delta [m2] answers to [m1]'s digest, its table is the
    join of the two, provided [m2] has no version of [m1]'s own record newer than
    [m1]'s. *)
Theorem membership_sync m1 m2 d l :
  membership_ok m1 → membership_ok m2 →
  membership_digest m1 = Digest GOSSIP_PAYLOAD_VERSION d →
  membership_delta_for d m2 = Delta GOSSIP_PAYLOAD_VERSION l →
  (∀ r, as_gossip m2 !! mm_local_runtime_id m1 = Some r →
        (gr_version r ≤ gr_version (mm_local_record m1))%N) →
  as_gossip (foldl (λ m r, (apply_gossip_record r m).2) m1 l) = join (as_gossip m1) (as_gossip m2).
Proof.
  intros H1 H2 Hd Hl Hown. rewrite digest_refines in Hd by done. rewrite delta_refines in Hl by done.
  injection Hd as <-. injection Hl as <-. rewrite apply_gossip_batch.
  rewrite <-(exchange_join (as_gossip m1) (as_gossip m2)) by auto using as_gossip_keyed.
  set (l := delta_records _ _). apply map_eq. intros k. rewrite !apply_delta_lookup.
  assert (∀ r, r ∈ l → gr_runtime_id r ≠ mm_local_runtime_id m1) as Hno.
  { intros r Hr Heq. unfold l in Hr. rewrite elem_of_delta in Hr by auto using as_gossip_keyed.
    destruct Hr as [Hr Hmiss]. rewrite missing_digest in Hmiss by auto using as_gossip_keyed.
    rewrite Heq in *. unfold as_gossip at 1 in Hmiss. rewrite lookup_insert_eq in Hmiss.
    apply N.ltb_lt in Hmiss. specialize (Hown _ Hr). lia. }
  assert (List.filter (λ r, negb (bool_decide (gr_runtime_id r = mm_local_runtime_id m1))) l = l) as ->; [|done].
  clear -Hno. induction l as [|r l IH]; simpl; [done|].
  rewrite bool_decide_eq_false_2 by (apply Hno; left). simpl. f_equal. apply IH. intros r' ?. apply Hno. by right.
Qed.

Lemma apply_ready_fixed m e :
  mm_local_runtime_id (apply_ready_record m e) = mm_local_runtime_id m ∧
  mm_expected_relay_pubkey (apply_ready_record m e) = mm_expected_relay_pubkey m.
Proof.
  destruct e as [now rec]. unfold apply_ready_record.
  destruct (decide _); [done|]. destruct (negb (anchored m rec)); [done|].
  destruct (negb _); [done|]. apply apply_gossip_local.
Qed.

(** What one seed can change. *)
Lemma apply_ready_record_peer m now rec k :
  (mm_peers (apply_ready_record m (now, rec)) !! k = mm_peers m !! k) ∨
  (k = rr_runtime_id rec ∧ k ≠ mm_local_runtime_id m ∧
   mm_expected_relay_pubkey m = Some (rr_relay_pubkey rec) ∧ verify_attestation rec = Ok tt ∧
   match mm_peers m !! k with Some p => (gr_version (ps_record p) < 1)%N | None => True end).
Proof.
  unfold apply_ready_record. destruct (decide (rr_runtime_id rec = mm_local_runtime_id m)) as [|Hne]; [by left|].
  destruct (anchored m rec) eqn:Ha; simpl; [|by left].
  destruct (is_ok (verify_attestation rec)) eqn:Hv; simpl; [|by left].
  apply is_ok_Ok in Hv. unfold apply_gossip_record, seed_record. simpl. rewrite decide_False by done.
  unfold anchored in Ha. destruct (mm_expected_relay_pubkey m) as [e|] eqn:Ee; [|done].
  apply bool_decide_eq_true_1 in Ha.
  destruct (decide (k = rr_runtime_id rec)) as [->|Hk].
  - destruct (mm_peers m !! rr_runtime_id rec) as [p|] eqn:Ep.
    + destruct (N.leb_spec 1 (gr_version (ps_record p))); [by left|].
      right. split_and!; try done. congruence.
    + right. split_and!; try done. congruence.
  - left. destruct (mm_peers m !! rr_runtime_id rec) as [p|]; [destruct (_ <=? _)%N; [done|]|];
      simpl; by rewrite lookup_insert_ne.
Qed.

(** Seeds are admitted only when attested by our own relay key.  Whatever records
    the registry returns, a peer that appears or changes by applying them has a
    seed signed by the anchored relay identity for exactly that runtime id;
    without an anchor nothing is admitted; and a peer already known from gossip
    keeps its record. *)
Theorem ready_admission_sound l m k :
  (∀ p, mm_peers m !! k = Some p → (1 ≤ gr_version (ps_record p))%N) →
  mm_peers (apply_ready_records l m) !! k ≠ mm_peers m !! k →
  mm_peers m !! k = None ∧ k ≠ mm_local_runtime_id m ∧
  ∃ now rec, (now, rec) ∈ l ∧ rr_runtime_id rec = k ∧
    mm_expected_relay_pubkey m = Some (rr_relay_pubkey rec) ∧ verify_attestation rec = Ok tt.
Proof.
  unfold apply_ready_records. revert m. induction l as [|[now rec] l IH]; intros m Hv; simpl; [done|].
  intros Hne. destruct (apply_ready_fixed m (now, rec)) as [Hloc Hexp].
  destruct (apply_ready_record_peer m now rec k) as [Hsame|(-> & Hl & He & Hver & Hp)].
  - destruct (IH (apply_ready_record m (now, rec))) as (Hn & Hkl & now' & rec' & Hin & ?).
    + intros p. rewrite Hsame. apply Hv.
    + by rewrite Hsame.
    + rewrite Hsame, Hloc, Hexp in *. split; [done|]. split; [done|]. exists now', rec'. set_solver.
  - destruct (mm_peers m !! rr_runtime_id rec) as [p|] eqn:Ep.
    { specialize (Hv p eq_refl). lia. }
    split; [done|]. split; [done|]. exists now, rec. set_solver.
Qed.

(** [ReadyRecord::new] produces records whose attestation verifies. *)
Lemma own_attestation_verifies {CL : RelayCryptoLaws _} id keys addrs proto caps :
  verify_attestation (ready_new id keys addrs proto caps) = Ok tt.
Proof.
  unfold verify_attestation, ready_new, attest. simpl. rewrite decide_False by auto.
  unfold verify_signature. rewrite rc_pk_roundtrip. simpl.
  destruct (rc_keys_xonly keys) as [x Hx]. rewrite Hx. simpl. rewrite rc_sig_roundtrip. simpl.
  by rewrite (rc_sign_verifies _ _ _ Hx).
Qed.

Lemma bytes_ltb_antisym (a b : bytes) : a ≠ b → bytes_ltb b a = negb (bytes_ltb a b).
Proof.
  revert b. induction a as [|x a IH]; intros [|y b] Hne; try done. simpl.
  destruct (decide (x = y)) as [<-|Hxy].
  - rewrite N.ltb_irrefl, !bool_decide_eq_true_2 by done. simpl. apply IH. congruence.
  - rewrite !bool_decide_eq_false_2 by done. simpl. rewrite !orb_false_r.
    assert (Byte.to_N x ≠ Byte.to_N y) as Hn.
    { intros E%(f_equal Byte.of_N). rewrite !Byte.of_to_N in E. congruence. }
    destruct (N.ltb_spec (Byte.to_N x) (Byte.to_N y)), (N.ltb_spec (Byte.to_N y) (Byte.to_N x)); lia || done.
Qed.

(** Simultaneous dials converge: when two runtimes have dialed each other, both ends
    keep the same one of the two connections (the connection dialed by [a] is
    outbound at [a] and inbound at [b]), and exactly one of the two survives. *)
Theorem tie_break_agrees (a b : RuntimeId) :
  a ≠ b →
  new_connection_wins a b true = new_connection_wins b a false ∧
  new_connection_wins a b false = new_connection_wins b a true ∧
  new_connection_wins a b true = negb (new_connection_wins a b false).
Proof.
  intros Hne. unfold new_connection_wins. rewrite (bytes_ltb_antisym a b) by done.
  by destruct (bytes_ltb a b).
Qed.

End membership_lemmas.

(** ** The readiness heartbeat *)

Section heartbeat_lemmas.
Context `{HexApi} `{RelayCrypto} `{RedisApi} {RL : RedisLaws _}.

(** The wakeups of the heartbeat loop: a tick with the readiness of the relay, or
    the passing of time; [outcome]s are those of the Redis call. *)
Inductive Beat := BTick (ready : bool) | BElapse.

(** The registry key and the flag agree: a runtime that is not published has no
    key, and a published one has its record or nothing (after expiry). *)
Definition hb_inv (payload : string) (hb : ReadyHeartbeat) (r : redis) : Prop :=
  let v := redis_get r (ready_key (rr_runtime_id (hb_record hb))) in
  (hb_published hb = false → v = None) ∧ (v = None ∨ v = Some payload).

Inductive beat_step (refresh : N) : ReadyHeartbeat * redis → Beat → ReadyHeartbeat * redis → Prop :=
| beat_tick hb r ready res hb' r' :
    tick (Ok tt) Delivered refresh ready hb r = (res, (hb', r')) →
    beat_step refresh (hb, r) (BTick ready) (hb', r')
| beat_elapse hb r r' : redis_elapse r r' → beat_step refresh (hb, r) BElapse (hb, r').

Inductive beats (refresh : N) : ReadyHeartbeat * redis → list Beat → ReadyHeartbeat * redis → Prop :=
| beats_nil st : beats refresh st [] st
| beats_snoc st l st1 b st2 :
    beats refresh st l st1 → beat_step refresh st1 b st2 → beats refresh st (l ++ [b]) st2.

Lemma ttl_secs_pos refresh : (0 < Z.of_N (ttl_secs refresh) * 1000)%Z.
Proof. unfold ttl_secs. lia. Qed.

Lemma beat_step_spec payload refresh hb r b hb' r' :
  verify_attestation (hb_record hb) = Ok tt → ready_to_json (hb_record hb) = Ok payload →
  hb_inv payload hb r → beat_step refresh (hb, r) b (hb', r') →
  hb_record hb' = hb_record hb ∧ hb_inv payload hb' r' ∧
  match b with
  | BTick ready =>
      hb_published hb' = ready ∧
      (ready = true → redis_get r' (ready_key (rr_runtime_id (hb_record hb))) = Some payload)
  | BElapse => hb_published hb' = hb_published hb
  end.
Proof.
  intros Hv Hj [Hi1 Hi2] Hs. inversion Hs as [? ? ready res ? ? Ht|? ? ? He]; subst.
  - unfold tick, publish_ready, clear_ready in Ht. destruct ready.
    + rewrite Hv, Hj in Ht. simpl in Ht. injection Ht as _ <- <-. simpl. split; [done|].
      unfold hb_inv. simpl. rewrite redis_get_set by apply ttl_secs_pos. rewrite decide_True by done. naive_solver.
    + destruct (hb_published hb) eqn:Ep; simpl in Ht; injection Ht as _ <- <-.
      * simpl. split; [done|]. unfold hb_inv. simpl. rewrite redis_get_del, decide_True by done. naive_solver.
      * split; [done|]. split; [split; [intros _; by apply Hi1|done]|]. split; [done|discriminate].
  - split; [done|]. split; [|done]. unfold hb_inv in *.
    destruct (redis_elapse_get _ _ (ready_key (rr_runtime_id (hb_record hb'))) He) as [E|E]; rewrite E; auto.
Qed.

(** The registry follows readiness.  With a reachable Redis, after any sequence of
    heartbeat ticks and expiries from a clean start, the runtime's key holds
    nothing but its own record, is absent whenever the last tick found the relay
    not ready, and is present right after a tick that found it ready. *)
Theorem heartbeat_follows_readiness payload refresh rec r0 l b hb r :
  verify_attestation rec = Ok tt → ready_to_json rec = Ok payload →
  redis_get r0 (ready_key (rr_runtime_id rec)) = None →
  beats refresh (mkHeartbeat rec false, r0) (l ++ [BTick b]) (hb, r) →
  redis_get r (ready_key (rr_runtime_id rec)) = if b then Some payload else None.
Proof.
  intros Hv Hj Hr0 Hb.
  assert (∀ l st, beats refresh (mkHeartbeat rec false, r0) l st →
    hb_record st.1 = rec ∧ hb_inv payload st.1 st.2) as Hinv.
  { clear Hb. intros l0 st Hb. remember (mkHeartbeat rec false, r0) as s0 eqn:E0.
    induction Hb as [|st0 l1 [hb1 r1] b1 [hb2 r2] _ IH Hs]; subst; [by split; [|split; [|left]]|].
    destruct (IH eq_refl) as [Hrec Hi]. simpl in *. subst rec.
    destruct (beat_step_spec _ _ _ _ _ _ _ Hv Hj Hi Hs) as (-> & ? & _). done. }
  remember (l ++ [BTick b]) as l0 eqn:El. remember (hb, r) as st' eqn:Est.
  destruct Hb as [st|st l1 [hb1 r1] b1 st2 Hpre Hs]; [by destruct l|].
  apply app_inj_tail in El as [-> ->]. subst st2. destruct (Hinv _ _ Hpre) as [Hrec Hi]. simpl in *. subst rec.
  destruct (beat_step_spec _ _ _ _ _ _ _ Hv Hj Hi Hs) as (Hrec & [Hi1 _] & Hp & Hpub).
  destruct b; [by apply Hpub|]. rewrite <-Hrec. by apply Hi1.
Qed.

(** ** Discovery through the registry *)

Lemma scan_keys_elem keys out rec :
  scan_keys keys = Ok out → rec ∈ out ↔ ∃ key r, (key, Ok r) ∈ keys ∧ scan_key r key = Some rec.
Proof.
  revert out. induction keys as [|[key [r|e]] keys IH]; intros out; simpl; [|simpl|done].
  { intros [= <-]. set_solver. }
  destruct (scan_keys keys) as [out'|]; simpl; [|done]. intros [= <-].
  rewrite elem_of_app, (IH out') by done. destruct (scan_key r key) as [x|] eqn:E; simpl; set_solver.
Qed.

Lemma scan_pages_elem pages out rec :
  scan_pages pages = Ok out →
  rec ∈ out ↔ ∃ keys key r, Ok keys ∈ pages ∧ (key, Ok r) ∈ keys ∧ scan_key r key = Some rec.
Proof.
  revert out. induction pages as [|[keys|e] pages IH]; intros out; simpl; [|simpl|done].
  { intros [= <-]. set_solver. }
  destruct (scan_keys keys) as [o1|] eqn:E1; simpl; [|done].
  destruct (scan_pages pages) as [o2|]; simpl; [|done]. intros [= <-].
  rewrite elem_of_app, (IH o2), (scan_keys_elem _ _ _ E1) by done. set_solver.
Qed.

Lemma scan_key_sound r key rec :
  scan_key r key = Some rec → key = ready_key (rr_runtime_id rec) ∧ verify_attestation rec = Ok tt.
Proof.
  unfold scan_key. destruct (redis_get r key) as [raw|]; [|done].
  destruct (ready_from_json raw) as [x|]; [|done]. destruct (decide _) as [Hk|]; [|done].
  destruct (is_ok (verify_attestation x)) eqn:Hv; [|done]. intros [= <-].
  by apply is_ok_Ok in Hv.
Qed.

Lemma apply_gossip_has_peer r m k :
  has_peer k (apply_gossip_record r m).2 =
    has_peer k m || (bool_decide (k = gr_runtime_id r) && negb (bool_decide (k = mm_local_runtime_id m))).
Proof.
  unfold apply_gossip_record, has_peer. destruct (decide (gr_runtime_id r = mm_local_runtime_id m)) as [E|Hne].
  { simpl. rewrite E, andb_negb_r, orb_false_r. done. }
  destruct (decide (k = gr_runtime_id r)) as [->|Hk].
  - rewrite (bool_decide_eq_true_2 (gr_runtime_id r = _)), (bool_decide_eq_false_2 (_ = mm_local_runtime_id m)) by done.
    rewrite orb_true_r. destruct (mm_peers m !! gr_runtime_id r) as [p|] eqn:E; simpl; [|by rewrite lookup_insert_eq; eauto].
    destruct (_ <=? _)%N; simpl; [by rewrite E; eauto|]. rewrite lookup_insert_eq. eauto.
  - rewrite (bool_decide_eq_false_2 (k = gr_runtime_id r)), orb_false_r by done.
    destruct (mm_peers m !! gr_runtime_id r) as [p|]; [destruct (_ <=? _)%N; [done|]|]; simpl; by rewrite lookup_insert_ne.
Qed.

(** A seed that the anchored membership admits as peer [k]. *)
Definition admits_seed (m : MeshMembership) (k : RuntimeId) (e : N * ReadyRecord) : Prop :=
  rr_runtime_id e.2 = k ∧ k ≠ mm_local_runtime_id m ∧
  mm_expected_relay_pubkey m = Some (rr_relay_pubkey e.2) ∧ verify_attestation e.2 = Ok tt.

Lemma apply_ready_record_known m e k :
  has_peer k (apply_ready_record m e) = true ↔ has_peer k m = true ∨ admits_seed m k e.
Proof.
  destruct e as [now rec]. unfold apply_ready_record, admits_seed. simpl.
  destruct (decide (rr_runtime_id rec = mm_local_runtime_id m)) as [E|Hne]; [naive_solver|].
  unfold anchored. destruct (mm_expected_relay_pubkey m) as [pk|]; simpl; [|naive_solver].
  case_bool_decide as Hpk; simpl; [|naive_solver].
  destruct (verify_attestation rec) as [[]|] eqn:Hv; simpl; [|naive_solver].
  rewrite apply_gossip_has_peer, orb_true_iff, andb_true_iff, negb_true_iff. simpl.
  rewrite bool_decide_eq_true, bool_decide_eq_false. naive_solver.
Qed.

Lemma apply_ready_records_known l m k :
  has_peer k (apply_ready_records l m) = true ↔ has_peer k m = true ∨ ∃ e, e ∈ l ∧ admits_seed m k e.
Proof.
  unfold apply_ready_records. revert m. induction l as [|e l IH]; intros m; simpl; [set_solver|].
  rewrite IH, apply_ready_record_known. destruct (apply_ready_fixed m e) as [Hl He].
  assert (∀ e', admits_seed (apply_ready_record m e) k e' ↔ admits_seed m k e') as Hadm
    by (intros e'; unfold admits_seed; by rewrite Hl, He).
  setoid_rewrite Hadm. setoid_rewrite elem_of_cons. naive_solver.
Qed.

(** Who may connect.  When an inbound connection asks for admission and the
    registry was rescanned, the runtime is admitted exactly when it was already
    in the table or the scan read, under that runtime's own key, a record for it
    that the anchored relay identity has signed. *)
Theorem inbound_admission_exact conn pages stamped m k pk :
  scan_ready conn pages = Ok stamped.*2 →
  k ≠ mm_local_runtime_id m → mm_expected_relay_pubkey m = Some pk →
  (is_known_peer (Some stamped) k m).1 = true ↔
    has_peer k m = true ∨
    ∃ keys r raw rec, Ok keys ∈ pages ∧ (ready_key k, Ok r) ∈ keys ∧
      redis_get r (ready_key k) = Some raw ∧ ready_from_json raw = Some rec ∧
      rr_runtime_id rec = k ∧ rr_relay_pubkey rec = pk ∧ verify_attestation rec = Ok tt.
Proof.
  intros Hs Hk Hpk. unfold scan_ready in Hs. destruct conn as [[]|e]; [|done].
  unfold is_known_peer. destruct (has_peer k m) eqn:Hh; simpl; [by split; [left|]|].
  rewrite apply_ready_records_known, Hh. unfold admits_seed. split.
  - intros [?|([now rec] & Hin & Hid & _ & He & Hv)]; [done|]. simpl in *. right.
    assert (rec ∈ stamped.*2) as (keys & key & r & Hp & Hkey & Hsk)%(scan_pages_elem _ _ _ Hs)
      by (apply list_elem_of_fmap; by exists (now, rec)).
    pose proof (scan_key_sound _ _ _ Hsk) as [-> _]. rewrite Hid in *.
    unfold scan_key in Hsk. destruct (redis_get r (ready_key k)) as [raw|] eqn:Hg; [|done].
    destruct (ready_from_json raw) as [x|] eqn:Hj; [|done]. exists keys, r, raw, x.
    destruct (decide _); [|done]. destruct (is_ok _); [|done]. simplify_eq. naive_solver.
  - intros [?|(keys & r & raw & rec & Hp & Hkey & Hg & Hj & Hid & Hrpk & Hv)]; [done|]. right.
    assert (rec ∈ stamped.*2) as Hin.
    { apply (scan_pages_elem _ _ _ Hs). exists keys, (ready_key k), r. split; [done|]. split; [done|].
      unfold scan_key. rewrite Hg, Hj, Hid, decide_True, Hv by done. done. }
    apply list_elem_of_fmap in Hin as ([now x] & -> & Hin). exists (now, x). simpl in *. naive_solver.
Qed.

(** A ready relay is found.  A relay that publishes its record, signed with the
    relay identity, succeeds; and any relay anchored to that identity whose scan
    then reads the key admits it. *)
Theorem published_relay_is_admitted {CL : RelayCryptoLaws _} id keys addrs proto caps payload refresh r
    pages page stamped m :
  let rec := ready_new id keys addrs proto caps in
  ready_to_json rec = Ok payload → ready_from_json payload = Some rec →
  let '(res, r') := publish_ready (Ok tt) Delivered refresh rec r in
  res = Ok tt ∧
  (Ok page ∈ pages → (ready_key id, Ok r') ∈ page → scan_ready (Ok tt) pages = Ok stamped.*2 →
   id ≠ mm_local_runtime_id m →
   mm_expected_relay_pubkey m = Some (rc_pk_to_hex (rc_public_key keys)) →
   (is_known_peer (Some stamped) id m).1 = true).
Proof.
  intros rec Hto Hfrom. pose proof (own_attestation_verifies id keys addrs proto caps) as Hv. fold rec in Hv.
  unfold publish_ready. rewrite Hv, Hto. simpl. split; [done|]. intros Hpage Hkey Hs Hl Hpk.
  unfold is_known_peer. destruct (has_peer id m) eqn:Hh; [done|]. simpl.
  apply apply_ready_records_known. right.
  assert (rec ∈ stamped.*2) as Hin.
  { apply (scan_pages_elem _ _ _ Hs). eexists _, _, _. split; [exact Hpage|]. split; [exact Hkey|].
    unfold scan_key. rewrite redis_get_set, decide_True by auto using ttl_secs_pos.
    rewrite Hfrom, decide_True, Hv by done. done. }
  apply list_elem_of_fmap in Hin as ([now x] & Hx & Hin). exists (now, x). split; [done|].
  simpl in Hx. subst x. done.
Qed.

End heartbeat_lemmas.

(** ** A run *)

Module MeshMembershipDemo.
Import ToyRedis MeshWireDemo MeshGossipDemo.

(** A signature is the signer's key. *)
#[global] Instance demo_relay : RelayCrypto := {|
  rc_public := string; rc_xonly := string; rc_sig := string; rc_keys := string;
  rc_pk_from_hex := Ok; rc_pk_to_hex := id;
  rc_pk_xonly := Ok; rc_sig_from_str := Ok; rc_sig_to_string := id;
  rc_public_key := λ k, "k" +:+ k; rc_sha256 := λ _, [];
  rc_sign_schnorr := λ k _, "k" +:+ k;
  rc_verify_schnorr := λ s _ x, if decide (s = x) then Ok tt else Err "bad signature";
  ready_to_json := λ r, Ok (rr_runtime_pubkey r);
  ready_from_json := λ s, if decide (s = to_hex rb)
    then Some (mkReady rb (to_hex rb) "kours" "kours" ["10.0.0.2:1"] 1 ["media"]) else None |}.

Definition local_a : MeshMembership :=
  with_expected_relay_pubkey "kours" (membership_new rec_a).
Definition local_b : MeshMembership := membership_new rec_b.
Definition seed_b : ReadyRecord := ready_new rb "ours" ["10.0.0.2:1"] 1 ["media"].
Definition forged_b : ReadyRecord := ready_new rb "theirs" ["6.6.6.6:1"] 1 [].

Example forged_seed_rejected :
  let m := apply_ready_records [(5%N, forged_b)] local_a in
  mm_peers m = ∅ ∧ mm_foreign_relay_rejections m = 1%N.
Proof. split; reflexivity. Qed.

Lemma ok_a : membership_ok local_a.
Proof.
  split; simpl; [done|by rewrite lookup_empty| |]; intros k p Hk; by rewrite lookup_empty in Hk.
Qed.

Lemma ok_b : membership_ok local_b.
Proof.
  split; simpl; [done|by rewrite lookup_empty| |]; intros k p Hk; by rewrite lookup_empty in Hk.
Qed.

Lemma membership_invariant_witness :
  membership_ok (foldl mstep (membership_new rec_a) [MGossip rec_b; MDrain 7; MMark rb Connecting]).
Proof. apply membership_invariant. repeat constructor. Defined.

Lemma membership_refines_gossip_witness :
  membership_digest local_a = digest (as_gossip local_a).
Proof.
  apply (membership_refines_gossip local_a [] rec_b 9 id ok_a). intros r. split; reflexivity.
Defined.

Lemma membership_sync_witness :
  as_gossip (foldl (λ m r, (apply_gossip_record r m).2) local_a [rec_b]) =
    join (as_gossip local_a) (as_gossip local_b).
Proof.
  apply (membership_sync local_a local_b [entry_of rec_a] [rec_b]);
    [exact ok_a|exact ok_b|reflexivity|reflexivity|].
  intros r Hr. discriminate Hr.
Defined.

Lemma ready_admission_sound_witness :
  mm_peers local_a !! rb = None ∧ rb ≠ mm_local_runtime_id local_a ∧
  ∃ now rec, (now, rec) ∈ [(5%N, forged_b); (6%N, seed_b)] ∧ rr_runtime_id rec = rb ∧
    mm_expected_relay_pubkey local_a = Some (rr_relay_pubkey rec) ∧ verify_attestation rec = Ok tt.
Proof.
  apply (ready_admission_sound [(5%N, forged_b); (6%N, seed_b)] local_a rb).
  - intros p Hp. discriminate Hp.
  - vm_compute. discriminate.
Defined.

#[global] Instance demo_relay_laws : RelayCryptoLaws demo_relay.
Proof. split; simpl; [done|done|by eexists|]. intros k m x [= <-]. by rewrite decide_True. Qed.

Definition pages_b : list (result string (list (string * result string (redis (RedisApi:=toy_redis))))) :=
  [Ok [(ready_key rb, Ok (<[ready_key rb := (to_hex rb, true)]> (∅ : gmap string (string * bool))))]].

Lemma inbound_admission_exact_witness :
  (is_known_peer (Some [(7%N, seed_b)]) rb local_a).1 = true ↔
    has_peer rb local_a = true ∨
    ∃ keys r raw rec, Ok keys ∈ pages_b ∧ (ready_key rb, Ok r) ∈ keys ∧
      redis_get r (ready_key rb) = Some raw ∧ ready_from_json raw = Some rec ∧
      rr_runtime_id rec = rb ∧ rr_relay_pubkey rec = "kours" ∧ verify_attestation rec = Ok tt.
Proof.
  apply (inbound_admission_exact (H1:=toy_redis) (Ok tt) pages_b [(7%N, seed_b)] local_a rb "kours");
    [reflexivity|discriminate|reflexivity].
Defined.

Definition page_b : list (string * result string (redis (RedisApi:=toy_redis))) :=
  [(ready_key rb, Ok (publish_ready (H1:=toy_redis) (Ok tt) Delivered 15 seed_b
                        (∅ : gmap string (string * bool))).2)].

Lemma published_relay_is_admitted_witness : (is_known_peer (Some [(7%N, seed_b)]) rb local_a).1 = true.
Proof.
  pose proof (published_relay_is_admitted (H1:=toy_redis) rb "ours" ["10.0.0.2:1"] 1 ["media"] (to_hex rb) 15
                (∅ : gmap string (string * bool)) [Ok page_b] page_b [(7%N, seed_b)] local_a
                eq_refl eq_refl) as H.
  rewrite (surjective_pairing (publish_ready _ _ _ _ _)) in H. destruct H as [_ H].
  apply H; [left|left|reflexivity|discriminate|reflexivity].
Defined.

Lemma tie_break_agrees_witness :
  new_connection_wins ra rb true = new_connection_wins rb ra false ∧
  new_connection_wins ra rb false = new_connection_wins rb ra true ∧
  new_connection_wins ra rb true = negb (new_connection_wins ra rb false).
Proof. apply (tie_break_agrees ra rb). discriminate. Defined.

Definition s0 : gmap string (string * bool) := ∅.
Definition s1 : gmap string (string * bool) :=
  <[ready_key rb := (to_hex rb, true)]> s0.
Definition s2 : gmap string (string * bool) := delete (ready_key rb) s1.

Lemma heartbeat_follows_readiness_witness :
  redis_get (RedisApi:=toy_redis) s2 (ready_key rb) = None.
Proof.
  apply (heartbeat_follows_readiness (H1:=toy_redis) (to_hex rb) 15 seed_b s0 [BTick true] false
           (mkHeartbeat seed_b false) s2); [reflexivity|reflexivity|reflexivity|].
  apply (beats_snoc (H1:=toy_redis) _ _ [BTick true] (mkHeartbeat seed_b true, s1)).
  - apply (beats_snoc (H1:=toy_redis) _ _ [] (mkHeartbeat seed_b false, s0)); [apply beats_nil|].
    apply (beat_tick (H1:=toy_redis) _ _ _ true (Ok tt)). reflexivity.
  - apply (beat_tick (H1:=toy_redis) _ _ _ false (Ok tt)). reflexivity.
Defined.

End MeshMembershipDemo.
