(* ===== verification/AudioRoom.v ===== *)
(** * Audio rooms ([buzz-relay/src/audio/room.rs])

    The peers of a huddle, the admission gate that hands out routing indices and
    occupancy epochs, the roster with its revisions, and the fan-out of frames.
    A [Room] holds the peer map, the guarded state and the deltas published so
    far; every method runs under the guard's mutex, so it is one step.  The
    manager keeps references to rooms, which callers keep too: rooms live in a
    store and the manager's table maps keys to locations.  A [u8] is an [N] below
    256. *)

From stdpp Require Import base gmap strings list sorting.
From Stdlib Require Import Ascii.
From Stdlib.Strings Require Import Byte.
From S2P Require Import Prelude Nostr MeshWire.

(** ** Channels

    A bounded [mpsc] channel seen from its sender: what is queued, the capacity,
    and whether the receiver (or the sender this peer still holds) is alive. *)
Record Chan (A : Type) := mkChan { ch_queue : list A; ch_capacity : nat; ch_open : bool }.
Arguments mkChan {A} _ _ _.
Arguments ch_queue {A} _.
Arguments ch_capacity {A} _.
Arguments ch_open {A} _.

Definition chan_new {A} (cap : nat) : Chan A := mkChan [] cap true.

Definition try_send {A} (x : A) (c : Chan A) : bool * Chan A :=
  if ch_open c && (length (ch_queue c) <? ch_capacity c)
  then (true, mkChan (ch_queue c ++ [x]) (ch_capacity c) true)
  else (false, c).

(** ** Data *)

Inductive PeerCtrl := CtrlJson (json : string) | CtrlClose.

Record AudioPeer := mkAudioPeer {
  ap_pubkey : string;
  ap_audio_tx : Chan (list byte);
  ap_ctrl_tx : Chan PeerCtrl;
  ap_peer_index : N;
  ap_epoch : N;
  ap_protocol_version : N
}.

Definition AUDIO_CHANNEL_CAPACITY : nat := 8.
Definition CTRL_CHANNEL_CAPACITY : nat := 32.
Definition MAX_PEERS_PER_ROOM : nat := 25.

Record RosterPeer := mkRosterPeer { ro_pubkey : string; ro_peer_index : N; ro_epoch : N }.
Record RosterSnapshot := mkSnapshot { sn_revision : N; sn_peers : list RosterPeer }.
Record RosterDelta := mkDelta {
  rd_revision : N;
  rd_joined : option RosterPeer;
  rd_left : option RosterPeer
}.

#[global] Instance roster_peer_eq_dec : EqDecision RosterPeer.
Proof. solve_decision. Defined.

Inductive AdmissionError :=
| Ended
| Full
| VersionMismatch (pinned requested : N).

Record AdmissionGuard := mkGuard {
  next_candidate : N;
  active_indices : gset N;
  index_epochs : gmap N N;
  ended : bool;
  pinned_version : option N;
  roster_revision : N
}.

Definition guard_new : AdmissionGuard := mkGuard 0 ∅ ∅ false None 0.

(** ** The allocator *)

Definition next_epoch_for (idx : N) (g : AdmissionGuard) : N * AdmissionGuard :=
  let epoch := default 0%N (index_epochs g !! idx) in
  (epoch, mkGuard (next_candidate g) (active_indices g)
            (<[idx := ((epoch + 1) `mod` 256)%N]> (index_epochs g)) (ended g) (pinned_version g)
            (roster_revision g)).

Definition next_index (idx : N) : N := if decide (idx = 254%N) then 0%N else ((idx + 1) `mod` 256)%N.

Definition set_candidate (n : N) (g : AdmissionGuard) : AdmissionGuard :=
  mkGuard n (active_indices g) (index_epochs g) (ended g) (pinned_version g) (roster_revision g).

Definition activate (idx : N) (g : AdmissionGuard) : AdmissionGuard :=
  mkGuard (next_candidate g) ({[idx]} ∪ active_indices g) (index_epochs g) (ended g)
    (pinned_version g) (roster_revision g).

(** The probing loop, [fuel] rounds. *)
Fixpoint alloc_loop (fuel : nat) (g : AdmissionGuard) : option (N * N) * AdmissionGuard :=
  match fuel with
  | 0 => (None, g)
  | S fuel' =>
      let idx := next_candidate g in
      let g := set_candidate (next_index idx) g in
      if decide (idx ∈ active_indices g) then alloc_loop fuel' g
      else
        let '(epoch, g') := next_epoch_for idx (activate idx g) in
        (Some (idx, epoch), g')
  end.

Definition alloc (g : AdmissionGuard) : option (N * N) * AdmissionGuard := alloc_loop 255 g.

(** ** Rooms *)

Record Room := mkRoom {
  rm_community_id : CommunityId;
  rm_channel_id : Uuid;
  rm_peers : gmap Uuid AudioPeer;
  rm_guard : AdmissionGuard;
  rm_poisoned : bool;                  (* the guard's mutex is poisoned *)
  rm_published : list RosterDelta      (* what [roster_tx] sent *)
}.

Definition room_new (c : CommunityId) (ch : Uuid) : Room := mkRoom c ch ∅ guard_new false [].

Definition set_ended (b : bool) (g : AdmissionGuard) : AdmissionGuard :=
  mkGuard (next_candidate g) (active_indices g) (index_epochs g) b (pinned_version g)
    (roster_revision g).

Definition pin (v : N) (g : AdmissionGuard) : AdmissionGuard :=
  mkGuard (next_candidate g) (active_indices g) (index_epochs g) (ended g)
    (Some (default v (pinned_version g))) (roster_revision g).

Definition bump_revision (g : AdmissionGuard) : AdmissionGuard :=
  mkGuard (next_candidate g) (active_indices g) (index_epochs g) (ended g) (pinned_version g)
    ((roster_revision g + 1) `mod` (u64_max + 1))%N.

Definition deactivate (idx : N) (g : AdmissionGuard) : AdmissionGuard :=
  mkGuard (next_candidate g) (active_indices g ∖ {[idx]}) (index_epochs g) (ended g)
    (pinned_version g) (roster_revision g).

Definition with_guard (g : AdmissionGuard) (rm : Room) : Room :=
  mkRoom (rm_community_id rm) (rm_channel_id rm) (rm_peers rm) g (rm_poisoned rm) (rm_published rm).

Definition mark_ended (rm : Room) : bool * Room :=
  if rm_poisoned rm then (false, rm)
  else (bool_decide (rm_peers rm = ∅), with_guard (set_ended true (rm_guard rm)) rm).

Definition clear_ended (rm : Room) : Room :=
  if rm_poisoned rm then rm else with_guard (set_ended false (rm_guard rm)) rm.

Definition roster_peer (p : AudioPeer) : RosterPeer :=
  mkRosterPeer (ap_pubkey p) (ap_peer_index p) (ap_epoch p).

Definition new_peer (pubkey : string) (idx epoch version : N) : AudioPeer :=
  mkAudioPeer pubkey (chan_new AUDIO_CHANNEL_CAPACITY) (chan_new CTRL_CHANNEL_CAPACITY) idx epoch
    version.

(** The tail of both admissions: insert the peer, advance the revision, publish
    the join. *)
Definition seat (peer_id : Uuid) (p : AudioPeer) (g : AdmissionGuard) (rm : Room) : Room :=
  let g := bump_revision g in
  mkRoom (rm_community_id rm) (rm_channel_id rm) (<[peer_id := p]> (rm_peers rm)) g (rm_poisoned rm)
    (rm_published rm ++ [mkDelta (roster_revision g) (Some (roster_peer p)) None]).

(** A successful admission: the seat taken and the revision of the join. *)
Record Admission := mkAdmission {
  ad_peer_id : Uuid; ad_peer_index : N; ad_epoch : N; ad_revision : N }.

Definition version_mismatch (g : AdmissionGuard) (requested : N) : option N :=
  match pinned_version g with
  | Some pinned => if decide (pinned ≠ requested) then Some pinned else None
  | None => None
  end.

(** [peer_id] is the random UUID drawn for the peer. *)
Definition add_peer (peer_id : Uuid) (pubkey : string) (requested : N) (rm : Room) :
    result AdmissionError Admission * Room :=
  let g := rm_guard rm in
  if rm_poisoned rm || ended g then (Err Ended, rm)
  else if MAX_PEERS_PER_ROOM <=? size (rm_peers rm) then (Err Full, rm)
  else
    match version_mismatch g requested with
    | Some pinned => (Err (VersionMismatch pinned requested), rm)
    | None =>
        match alloc g with
        | (None, g') => (Err Full, with_guard g' rm)
        | (Some (idx, epoch), g') =>
            let rm' := seat peer_id (new_peer pubkey idx epoch requested) (pin requested g') rm in
            (Ok (mkAdmission peer_id idx epoch (roster_revision (rm_guard rm'))), rm')
        end
    end.

Definition add_peer_at_index (peer_id : Uuid) (pubkey : string) (requested peer_index : N) (rm : Room) :
    result AdmissionError Admission * Room :=
  let g := rm_guard rm in
  if rm_poisoned rm || ended g then (Err Ended, rm)
  else if (MAX_PEERS_PER_ROOM <=? size (rm_peers rm)) || bool_decide (peer_index ∈ active_indices g)
  then (Err Full, rm)
  else
    match version_mismatch g requested with
    | Some pinned => (Err (VersionMismatch pinned requested), rm)
    | None =>
        let '(epoch, g') := next_epoch_for peer_index (activate peer_index (pin requested g)) in
        let rm' := seat peer_id (new_peer pubkey peer_index epoch requested)
                     (set_candidate (next_index peer_index) g') rm in
        (Ok (mkAdmission peer_id peer_index epoch (roster_revision (rm_guard rm'))), rm')
    end.

(** Taking a peer out of its seat: the delta and the room. *)
Definition unseat (peer_id : Uuid) (p : AudioPeer) (rm : Room) : RosterDelta * Room :=
  let g := bump_revision (deactivate (ap_peer_index p) (rm_guard rm)) in
  let delta := mkDelta (roster_revision g) None (Some (roster_peer p)) in
  (delta, mkRoom (rm_community_id rm) (rm_channel_id rm) (delete peer_id (rm_peers rm)) g
            (rm_poisoned rm) (rm_published rm ++ [delta])).

Definition remove_peer (peer_id : Uuid) (rm : Room) : option RosterDelta * Room :=
  if rm_poisoned rm then (None, rm)
  else
    match rm_peers rm !! peer_id with
    | None => (None, rm)
    | Some p => let '(delta, rm') := unseat peer_id p rm in (Some delta, rm')
    end.

Definition remove_peer_and_check_ended (peer_id : Uuid) (rm : Room) :
    option (RosterDelta * bool) * Room :=
  if rm_poisoned rm then (None, rm)
  else
    match rm_peers rm !! peer_id with
    | None => (None, rm)
    | Some p =>
        let '(delta, rm') := unseat peer_id p rm in
        if negb (ended (rm_guard rm')) && bool_decide (rm_peers rm' = ∅)
        then (Some (delta, true), with_guard (set_ended true (rm_guard rm')) rm')
        else (Some (delta, false), rm')
    end.

(** ** Fan-out *)

Definition send_audio (frame : list byte) (p : AudioPeer) : AudioPeer :=
  mkAudioPeer (ap_pubkey p) (try_send frame (ap_audio_tx p)).2 (ap_ctrl_tx p) (ap_peer_index p)
    (ap_epoch p) (ap_protocol_version p).

Definition with_peers (ps : gmap Uuid AudioPeer) (rm : Room) : Room :=
  mkRoom (rm_community_id rm) (rm_channel_id rm) ps (rm_guard rm) (rm_poisoned rm) (rm_published rm).

Definition frame_prefix (p : AudioPeer) : list byte :=
  if (3 <=? ap_protocol_version p)%N
  then [byte_of_N (ap_peer_index p); byte_of_N (ap_epoch p)]
  else [byte_of_N (ap_peer_index p)].

Definition broadcast_frame (sender : Uuid) (frame : list byte) (rm : Room) : Room :=
  match rm_peers rm !! sender with
  | None => rm
  | Some p =>
      let prefixed := frame_prefix p ++ frame in
      with_peers (map_imap (λ k q, Some (if decide (k = sender) then q else send_audio prefixed q))
                    (rm_peers rm)) rm
  end.

Definition deliver_prefixed (author_index : N) (prefixed : list byte) (rm : Room) : Room :=
  with_peers ((λ q, if decide (ap_peer_index q = author_index) then q else send_audio prefixed q)
                <$> rm_peers rm) rm.

(** A control queue that is full is closed: its sender is replaced by one whose
    receiver is gone. *)
Definition send_ctrl (json : string) (p : AudioPeer) : AudioPeer :=
  let '(sent, c) := try_send (CtrlJson json) (ap_ctrl_tx p) in
  mkAudioPeer (ap_pubkey p) (ap_audio_tx p) (if sent then c else mkChan [] 1 false)
    (ap_peer_index p) (ap_epoch p) (ap_protocol_version p).

Definition broadcast_control (json : string) (rm : Room) : Room :=
  with_peers (send_ctrl json <$> rm_peers rm) rm.

Section roster.
Context {MI : MapIter N}.

Definition index_le (a b : RosterPeer) : bool := (ro_peer_index a <=? ro_peer_index b)%N.

Definition roster_snapshot (rm : Room) : RosterSnapshot :=
  mkSnapshot (roster_revision (rm_guard rm))
    (sort_by index_le ((λ e, roster_peer e.2) <$> hiter (rm_peers rm))).

Definition peer_pubkeys (rm : Room) : list (string * N) :=
  (λ e, (ap_pubkey e.2, ap_peer_index e.2)) <$> hiter (rm_peers rm).

End roster.

Definition room_is_empty (rm : Room) : bool := bool_decide (rm_peers rm = ∅).

(** ** The manager

    [Arc<Room>] is a location of the store; [mgr_next] is the next free one. *)
Record Manager := mkManager {
  mgr_store : gmap N Room;
  mgr_rooms : gmap (N * N) N;
  mgr_next : N
}.

Definition manager_new : Manager := mkManager ∅ ∅ 0.

Definition get_or_create (c : CommunityId) (ch : Uuid) (m : Manager) : N * Manager :=
  match mgr_rooms m !! (c, ch) with
  | Some loc => (loc, m)
  | None =>
      (mgr_next m,
       mkManager (<[mgr_next m := room_new c ch]> (mgr_store m))
         (<[(c, ch) := mgr_next m]> (mgr_rooms m)) (mgr_next m + 1))
  end.

Definition manager_get (c : CommunityId) (ch : Uuid) (m : Manager) : option N := mgr_rooms m !! (c, ch).

Section manager.
Context {MI : MapIter (N * N)}.

Definition get_unambiguous_by_channel (ch : Uuid) (m : Manager) : option N :=
  match List.filter (λ e : (N * N) * N, bool_decide (e.1.2 = ch)) (hiter (mgr_rooms m)) with
  | [e] => Some e.2
  | _ => None
  end.

End manager.

Definition cleanup_if_empty (c : CommunityId) (ch : Uuid) (m : Manager) : bool * Manager :=
  match mgr_rooms m !! (c, ch) with
  | Some loc =>
      match mgr_store m !! loc with
      | Some rm =>
          if room_is_empty rm
          then (true, mkManager (mgr_store m) (delete (c, ch) (mgr_rooms m)) (mgr_next m))
          else (false, m)
      | None => (false, m)
      end
  | None => (false, m)
  end.

(** A method of a room called through a reference. *)
Definition on_room {A} (loc : N) (f : Room → A * Room) (m : Manager) : option A * Manager :=
  match mgr_store m !! loc with
  | Some rm =>
      let '(a, rm') := f rm in
      (Some a, mkManager (<[loc := rm']> (mgr_store m)) (mgr_rooms m) (mgr_next m))
  | None => (None, m)
  end.

(** ** Operations and executions *)

Inductive ROp :=
| RAdd (peer_id : Uuid) (pubkey : string) (version : N)
| RAddAt (peer_id : Uuid) (pubkey : string) (version idx : N)
| RRemove (peer_id : Uuid)
| RRemoveCheck (peer_id : Uuid)
| RMark
| RClear
| RFrame (sender : Uuid) (frame : list byte)
| RDeliver (author : N) (frame : list byte)
| RControl (json : string)
| RReceive (f : AudioPeer → AudioPeer).   (* receivers drain or close their channels *)

Definition rstep (rm : Room) (op : ROp) : Room :=
  match op with
  | RAdd k pk v => (add_peer k pk v rm).2
  | RAddAt k pk v idx => (add_peer_at_index k pk v idx rm).2
  | RRemove k => (remove_peer k rm).2
  | RRemoveCheck k => (remove_peer_and_check_ended k rm).2
  | RMark => (mark_ended rm).2
  | RClear => clear_ended rm
  | RFrame k fr => broadcast_frame k fr rm
  | RDeliver a fr => deliver_prefixed a fr rm
  | RControl js => broadcast_control js rm
  | RReceive f => with_peers (f <$> rm_peers rm) rm
  end.

(** Who a peer is, apart from the state of its channels. *)
Definition ident (p : AudioPeer) : string * N * N * N :=
  (ap_pubkey p, ap_peer_index p, ap_epoch p, ap_protocol_version p).

(** What the callers guarantee: fresh random ids, indices of one byte, receivers
    that touch only their channels. *)
Definition rop_ok (rm : Room) (op : ROp) : Prop :=
  match op with
  | RAdd k _ _ => rm_peers rm !! k = None
  | RAddAt k _ _ idx => rm_peers rm !! k = None ∧ (idx < 256)%N
  | RReceive f => ∀ p, ident (f p) = ident p
  | _ => True
  end.

Inductive rsteps : Room → list ROp → Room → Prop :=
| rsteps_nil rm : rsteps rm [] rm
| rsteps_cons rm op ops rm' : rop_ok rm op → rsteps (rstep rm op) ops rm' → rsteps rm (op :: ops) rm'.

(** ** The specification of the roster: replaying the deltas *)

Definition replay_delta (m : gmap N RosterPeer) (d : RosterDelta) : gmap N RosterPeer :=
  let m := match rd_left d with Some p => delete (ro_peer_index p) m | None => m end in
  match rd_joined d with Some p => <[ro_peer_index p := p]> m | None => m end.

Definition replay (ds : list RosterDelta) : gmap N RosterPeer := foldl replay_delta ∅ ds.

Definition joins_at (idx : N) (d : RosterDelta) : bool :=
  match rd_joined d with Some p => bool_decide (ro_peer_index p = idx) | None => false end.

Definition occupants (idx : N) (ds : list RosterDelta) : N :=
  N.of_nat (length (List.filter (joins_at idx) ds)).

(** ** The invariant *)

Record room_ok (rm : Room) : Prop := {
  ok_active : ∀ idx, idx ∈ active_indices (rm_guard rm) ↔
                ∃ k p, rm_peers rm !! k = Some p ∧ ap_peer_index p = idx;
  ok_distinct : ∀ k k' p p', rm_peers rm !! k = Some p → rm_peers rm !! k' = Some p' →
                  ap_peer_index p = ap_peer_index p' → k = k';
  ok_cap : size (rm_peers rm) ≤ MAX_PEERS_PER_ROOM;
  ok_pinned : ∀ k p, rm_peers rm !! k = Some p →
                pinned_version (rm_guard rm) = Some (ap_protocol_version p);
  ok_cand : (next_candidate (rm_guard rm) ≤ 254)%N;
  ok_byte : ∀ k p, rm_peers rm !! k = Some p → (ap_peer_index p < 256)%N;
  ok_roster : ∀ idx x, replay (rm_published rm) !! idx = Some x ↔
                ∃ k p, rm_peers rm !! k = Some p ∧ ap_peer_index p = idx ∧ x = roster_peer p;
  ok_revision : roster_revision (rm_guard rm) =
                  (N.of_nat (length (rm_published rm)) `mod` (u64_max + 1))%N;
  ok_numbered : ∀ i d, rm_published rm !! i = Some d →
                  rd_revision d = (N.of_nat (S i) `mod` (u64_max + 1))%N;
  ok_epochs : ∀ idx, default 0%N (index_epochs (rm_guard rm) !! idx) =
                (occupants idx (rm_published rm) `mod` 256)%N;
  ok_stamped : ∀ i d p, rm_published rm !! i = Some d → rd_joined d = Some p →
                 ro_epoch p = (occupants (ro_peer_index p) (take i (rm_published rm)) `mod` 256)%N
}.

(** ** The allocator *)

Lemma next_index_le c : (c ≤ 254)%N → (next_index c ≤ 254)%N.
Proof. unfold next_index. intros. case_decide; [lia|]. rewrite N.mod_small; lia. Qed.

Lemma next_index_bound c : (c < 256)%N → (next_index c ≤ 254)%N.
Proof.
  unfold next_index. intros. case_decide; [lia|]. destruct (decide (c = 255%N)) as [->|]; [done|].
  rewrite N.mod_small; lia.
Qed.

(** The [i]-th candidate probed from [c]. *)
Fixpoint probe (i : nat) (c : N) : N :=
  match i with 0 => c | S i' => probe i' (next_index c) end.

Lemma probe_value i c :
  (c ≤ 254)%N → i ≤ 254 →
  probe i c = if (c + N.of_nat i <=? 254)%N then (c + N.of_nat i)%N else (c + N.of_nat i - 255)%N.
Proof.
  revert c. induction i as [|i IH]; intros c Hc Hi; cbn [probe].
  { destruct (N.leb_spec (c + N.of_nat 0) 254); lia. }
  rewrite IH by (lia || by apply next_index_le). unfold next_index. case_decide as Hd.
  - subst c. destruct (N.leb_spec (0 + N.of_nat i) 254), (N.leb_spec (254 + N.of_nat (S i)) 254); lia.
  - rewrite N.mod_small by lia.
    destruct (N.leb_spec (c + 1 + N.of_nat i) 254), (N.leb_spec (c + N.of_nat (S i)) 254); lia.
Qed.

Lemma probe_reaches c x : (c ≤ 254)%N → (x ≤ 254)%N → ∃ i, i < 255 ∧ probe i c = x.
Proof.
  intros Hc Hx. destruct (N.le_gt_cases c x).
  - exists (N.to_nat (x - c)). split; [lia|]. rewrite probe_value by lia.
    destruct (N.leb_spec (c + N.of_nat (N.to_nat (x - c))) 254); lia.
  - exists (N.to_nat (x + 255 - c)). split; [lia|]. rewrite probe_value by lia.
    destruct (N.leb_spec (c + N.of_nat (N.to_nat (x + 255 - c))) 254); lia.
Qed.

(** What an allocation of [idx] does to the guard. *)
Definition allocated (idx : N) (g : AdmissionGuard) : AdmissionGuard :=
  set_candidate (next_index idx) (next_epoch_for idx (activate idx g)).2.

Lemma alloc_loop_spec fuel g :
  match alloc_loop fuel g with
  | (Some (idx, epoch), g') =>
      (∃ i, i < fuel ∧ idx = probe i (next_candidate g) ∧
            ∀ j, j < i → probe j (next_candidate g) ∈ active_indices g) ∧
      idx ∉ active_indices g ∧ epoch = default 0%N (index_epochs g !! idx) ∧ g' = allocated idx g
  | (None, g') => ∀ j, j < fuel → probe j (next_candidate g) ∈ active_indices g
  end.
Proof.
  revert g. induction fuel as [|fuel IH]; intros g; cbn [alloc_loop]; [intros j; lia|].
  cbn [active_indices set_candidate]. destruct (decide (next_candidate g ∈ active_indices g)) as [Hin|Hout].
  - specialize (IH (set_candidate (next_index (next_candidate g)) g)).
    destruct (alloc_loop fuel _) as [[[idx epoch]|] g'].
    + destruct IH as ((i & Hi & -> & Hj) & Hout & -> & ->). split_and!; try done.
      exists (S i). split; [lia|]. split; [done|]. intros [|j] Hlt; [done|]. cbn [probe]. apply Hj. lia.
    + intros [|j] Hlt; [done|]. cbn [probe]. apply IH. lia.
  - cbn. split_and!; try done. exists 0. split; [lia|]. split; [done|]. intros j. lia.
Qed.

#[local] Opaque alloc_loop.

Lemma alloc_spec g :
  match alloc g with
  | (Some (idx, epoch), g') =>
      (∃ i, i < 255 ∧ idx = probe i (next_candidate g) ∧
            ∀ j, j < i → probe j (next_candidate g) ∈ active_indices g) ∧
      idx ∉ active_indices g ∧ epoch = default 0%N (index_epochs g !! idx) ∧ g' = allocated idx g
  | (None, g') => ∀ j, j < 255 → probe j (next_candidate g) ∈ active_indices g
  end.
Proof. exact (alloc_loop_spec 255 g). Qed.

#[local] Opaque alloc.

Lemma alloc_some g idx epoch g' :
  alloc g = (Some (idx, epoch), g') → (next_candidate g ≤ 254)%N →
  idx ∉ active_indices g ∧ (idx ≤ 254)%N ∧ epoch = default 0%N (index_epochs g !! idx) ∧
  g' = allocated idx g ∧
  ∃ i, i < 255 ∧ idx = probe i (next_candidate g) ∧
       ∀ j, j < i → probe j (next_candidate g) ∈ active_indices g.
Proof.
  intros Ha Hc. pose proof (alloc_spec g) as Hs. rewrite Ha in Hs.
  destruct Hs as ((i & Hi & Hp & Hj) & ? & ? & ?). split_and!; try done; [|eauto].
  rewrite Hp, probe_value by lia. destruct (N.leb_spec (next_candidate g + N.of_nat i) 254); lia.
Qed.

(** Below 255 active indices the allocator always finds one. *)
Lemma alloc_total g :
  (next_candidate g ≤ 254)%N → size (active_indices g) < 255 →
  ∃ idx epoch g', alloc g = (Some (idx, epoch), g').
Proof.
  intros Hc Hs. pose proof (alloc_spec g) as Hspec.
  destruct (alloc g) as [[[idx epoch]|] g']; [eauto|]. exfalso.
  assert (length (N.of_nat <$> seq 0 255) ≤ length (elements (active_indices g))) as Hle.
  { apply submseteq_length, NoDup_submseteq.
    - apply NoDup_fmap_2; [apply _|apply NoDup_seq].
    - intros x Hx. apply list_elem_of_fmap in Hx as (n & -> & Hn). apply elem_of_seq in Hn.
      apply elem_of_elements. destruct (probe_reaches (next_candidate g) (N.of_nat n)) as (i & Hi & <-);
        [done|lia|by apply Hspec]. }
  rewrite length_fmap, length_seq in Hle. unfold size, set_size in Hs. simpl in Hs. lia.
Qed.

(** ** Preservation *)

Lemma occupants_snoc idx ds d :
  occupants idx (ds ++ [d]) = (occupants idx ds + if joins_at idx d then 1 else 0)%N.
Proof.
  unfold occupants. rewrite List.filter_app, length_app. simpl. destruct (joins_at idx d); simpl; lia.
Qed.

Lemma replay_snoc ds d : replay (ds ++ [d]) = replay_delta (replay ds) d.
Proof. unfold replay. by rewrite foldl_app. Qed.

Lemma succ_mod (n m : N) : ((n `mod` m + 1) `mod` m = (n + 1) `mod` m)%N.
Proof. apply N.Div0.add_mod_idemp_l. Qed.

(** The revision counters after one more delta. *)
Lemma revision_snoc (ds : list RosterDelta) d :
  ((N.of_nat (length ds) `mod` (u64_max + 1) + 1) `mod` (u64_max + 1) =
   N.of_nat (length (ds ++ [d])) `mod` (u64_max + 1))%N.
Proof. rewrite succ_mod, length_app. f_equal. simpl. lia. Qed.

Lemma numbered_snoc (ds : list RosterDelta) d :
  (∀ i d, ds !! i = Some d → rd_revision d = (N.of_nat (S i) `mod` (u64_max + 1))%N) →
  rd_revision d = (N.of_nat (length (ds ++ [d])) `mod` (u64_max + 1))%N →
  ∀ i d', (ds ++ [d]) !! i = Some d' → rd_revision d' = (N.of_nat (S i) `mod` (u64_max + 1))%N.
Proof.
  intros Hn Hd i d' Hi. apply lookup_app_Some in Hi as [Hi|[Hge Hi]]; [by apply Hn|].
  destruct (i - length ds) eqn:E; [|done]. injection Hi as <-.
  rewrite Hd, length_app. repeat f_equal. simpl. lia.
Qed.

Lemma stamped_snoc (ds : list RosterDelta) d :
  (∀ i d p, ds !! i = Some d → rd_joined d = Some p →
     ro_epoch p = (occupants (ro_peer_index p) (take i ds) `mod` 256)%N) →
  (∀ p, rd_joined d = Some p → ro_epoch p = (occupants (ro_peer_index p) ds `mod` 256)%N) →
  ∀ i d' p, (ds ++ [d]) !! i = Some d' → rd_joined d' = Some p →
    ro_epoch p = (occupants (ro_peer_index p) (take i (ds ++ [d])) `mod` 256)%N.
Proof.
  intros Hs Hd i d' p Hi Hj. apply lookup_app_Some in Hi as [Hi|[Hge Hi]].
  - rewrite take_app_le by (apply lookup_lt_Some in Hi; lia). by eapply Hs.
  - destruct (i - length ds) eqn:E; [|done]. injection Hi as <-.
    replace i with (length ds) by lia. rewrite take_app_length. by apply Hd.
Qed.

(** The guard an admission leaves. *)
Record admits (g g1 : AdmissionGuard) (idx v : N) : Prop := {
  ad_active : active_indices g1 = {[idx]} ∪ active_indices g;
  ad_epochs : index_epochs g1 =
                <[idx := ((default 0%N (index_epochs g !! idx) + 1) `mod` 256)%N]> (index_epochs g);
  ad_pinned : pinned_version g1 = Some (default v (pinned_version g));
  ad_cand : (next_candidate g1 ≤ 254)%N;
  ad_rev : roster_revision g1 = roster_revision g;
  ad_byte : (idx < 256)%N
}.

(** A new entry beside the old ones. *)
Lemma insert_fresh {V} (m : gmap Uuid V) k q k' p :
  m !! k = None → <[k := q]> m !! k' = Some p ↔ k' = k ∧ p = q ∨ m !! k' = Some p.
Proof. intros Hk. rewrite lookup_insert_Some. split; [naive_solver|]. intros [[-> ->]|Hp]; [auto|]. right. split; congruence. Qed.

Lemma admitted_pin rm v :
  version_mismatch (rm_guard rm) v = None → Some (default v (pinned_version (rm_guard rm))) = Some v.
Proof.
  unfold version_mismatch. destruct (pinned_version (rm_guard rm)) as [w|]; [|done].
  destruct (decide (w ≠ v)) as [|Hw]; [done|]. by apply dec_stable in Hw as ->.
Qed.

(** The roster after a join is the roster of the peers with the new one. *)
Lemma seat_roster rm k q delta :
  room_ok rm → rm_peers rm !! k = None → (∀ k' p, rm_peers rm !! k' = Some p → ap_peer_index p ≠ ap_peer_index q) →
  rd_joined delta = Some (roster_peer q) → rd_left delta = None →
  ∀ i x, replay (rm_published rm ++ [delta]) !! i = Some x ↔
    ∃ k' p, <[k := q]> (rm_peers rm) !! k' = Some p ∧ ap_peer_index p = i ∧ x = roster_peer p.
Proof.
  intros Hok Hk Hfree Hj Hl i x. rewrite replay_snoc. unfold replay_delta. rewrite Hj, Hl. cbn [roster_peer ro_peer_index].
  setoid_rewrite (λ k' p, insert_fresh _ _ q k' p Hk). rewrite lookup_insert_Some, (ok_roster _ Hok).
  split; [naive_solver|]. intros (k' & p & [[-> ->]|Hp] & <- & ->); [auto|]. right. naive_solver.
Qed.

Lemma seat_ok rm k pk idx v g1 :
  room_ok rm → rm_peers rm !! k = None → size (rm_peers rm) < MAX_PEERS_PER_ROOM →
  idx ∉ active_indices (rm_guard rm) → version_mismatch (rm_guard rm) v = None →
  admits (rm_guard rm) g1 idx v →
  room_ok (seat k (new_peer pk idx (default 0%N (index_epochs (rm_guard rm) !! idx)) v) g1 rm).
Proof.
  intros Hok Hk Hsize Hidx Hv%admitted_pin Ha. set (e := default 0%N _).
  assert (∀ k' p, rm_peers rm !! k' = Some p → ap_peer_index p ≠ idx) as Hfree.
  { intros k' p Hp <-. apply Hidx, (ok_active _ Hok). eauto. }
  unfold seat. split; cbn [rm_peers rm_guard rm_published bump_revision active_indices pinned_version
    next_candidate roster_revision index_epochs].
  - intros i. setoid_rewrite (λ k' p, insert_fresh _ _ (new_peer pk idx e v) k' p Hk).
    rewrite (ad_active _ _ _ _ Ha), elem_of_union, elem_of_singleton, (ok_active _ Hok). naive_solver.
  - intros k1 k2 p1 p2 H1 H2 Hi. rewrite insert_fresh in H1, H2 by done.
    destruct H1 as [[-> ->]|H1], H2 as [[-> ->]|H2]; [done| | |by eapply ok_distinct].
    + by destruct (Hfree _ _ H2).
    + by destruct (Hfree _ _ H1).
  - rewrite map_size_insert_None by done. lia.
  - intros k' p [[_ ->]|Hp]%insert_fresh; [| |done]; rewrite (ad_pinned _ _ _ _ Ha); [done|].
    by rewrite (ok_pinned _ Hok _ _ Hp).
  - apply Ha.
  - intros k' p [[_ ->]|Hp]%insert_fresh; [apply Ha|by eapply ok_byte|done].
  - by apply seat_roster.
  - rewrite (ad_rev _ _ _ _ Ha), (ok_revision _ Hok). apply revision_snoc.
  - apply numbered_snoc; [apply Hok|]. cbn [rd_revision]. rewrite (ad_rev _ _ _ _ Ha), (ok_revision _ Hok).
    apply revision_snoc.
  - intros i. rewrite (ad_epochs _ _ _ _ Ha), occupants_snoc. unfold joins_at. simpl.
    pose proof (ok_epochs _ Hok i) as He. destruct (decide (idx = i)) as [<-|Hne].
    + rewrite lookup_insert_eq, bool_decide_eq_true_2 by done. simpl. rewrite He. apply succ_mod.
    + rewrite lookup_insert_ne, bool_decide_eq_false_2 by done. by rewrite N.add_0_r.
  - apply stamped_snoc; [apply Hok|]. intros p [= <-]. simpl. apply (ok_epochs _ Hok).
Qed.

Lemma unseat_ok rm k p :
  room_ok rm → rm_peers rm !! k = Some p → room_ok (unseat k p rm).2.
Proof.
  intros Hok Hk. unfold unseat. split; cbn [snd rm_peers rm_guard rm_published bump_revision deactivate
    active_indices pinned_version next_candidate roster_revision index_epochs].
  - intros i. rewrite elem_of_difference, elem_of_singleton, (ok_active _ Hok). split.
    + intros [(k' & q & Hq & <-) Hne]. exists k', q.
      rewrite lookup_delete_ne by (intros <-; congruence). done.
    + intros (k' & q & Hq & <-). apply lookup_delete_Some in Hq as [Hne Hq]. split; [eauto|].
      intros E. apply Hne. by eapply ok_distinct.
  - intros k1 k2 p1 p2 [_ H1]%lookup_delete_Some [_ H2]%lookup_delete_Some. by eapply ok_distinct.
  - pose proof (ok_cap _ Hok). rewrite (size_delete_Some _ _ _ Hk) in H. lia.
  - intros k' q [_ Hq]%lookup_delete_Some. by eapply ok_pinned.
  - apply Hok.
  - intros k' q [_ Hq]%lookup_delete_Some. by eapply ok_byte.
  - intros i x. rewrite replay_snoc. unfold replay_delta. simpl.
    rewrite lookup_delete_Some, (ok_roster _ Hok). split.
    + intros [Hne (k' & q & Hq & Hi & ->)]. exists k', q.
      rewrite lookup_delete_ne by (intros <-; congruence). done.
    + intros (k' & q & [Hne Hq]%lookup_delete_Some & Hi & ->). split; [|eauto].
      intros E. apply Hne. eapply ok_distinct; eauto. congruence.
  - rewrite (ok_revision _ Hok). apply revision_snoc.
  - apply numbered_snoc; [apply Hok|]. cbn [rd_revision]. rewrite (ok_revision _ Hok). apply revision_snoc.
  - intros i. rewrite occupants_snoc. unfold joins_at. simpl. rewrite N.add_0_r. apply (ok_epochs _ Hok).
  - apply stamped_snoc; [apply Hok|done].
Qed.

(** Changes of the channels only. *)
Lemma channels_ok rm ps :
  room_ok rm → (∀ k, ident <$> ps !! k = ident <$> rm_peers rm !! k) → room_ok (with_peers ps rm).
Proof.
  intros Hok Hid.
  assert (∀ k p, ps !! k = Some p → ∃ q, rm_peers rm !! k = Some q ∧ ident q = ident p) as H1.
  { intros k p Hp. specialize (Hid k). rewrite Hp in Hid. simpl in Hid.
    destruct (rm_peers rm !! k) as [q|]; [|done]. exists q. split; [done|]. simpl in Hid. congruence. }
  assert (∀ k q, rm_peers rm !! k = Some q → ∃ p, ps !! k = Some p ∧ ident p = ident q) as H2.
  { intros k q Hq. specialize (Hid k). rewrite Hq in Hid. simpl in Hid.
    destruct (ps !! k) as [p|]; [|done]. exists p. split; [done|]. simpl in Hid. congruence. }
  assert (size ps = size (rm_peers rm)) as Hsize.
  { rewrite <-(size_dom (D:=gset N) ps), <-(size_dom (D:=gset N) (rm_peers rm)). f_equal.
    apply set_eq. intros k. rewrite !elem_of_dom. specialize (Hid k).
    destruct (ps !! k), (rm_peers rm !! k); naive_solver. }
  unfold with_peers. split; cbn [rm_peers rm_guard rm_published].
  - intros i. rewrite (ok_active _ Hok). split.
    + intros (k & q & Hq & <-). destruct (H2 _ _ Hq) as (p & Hp & E). exists k, p.
      split; [done|]. unfold ident in E. congruence.
    + intros (k & p & Hp & <-). destruct (H1 _ _ Hp) as (q & Hq & E). exists k, q.
      split; [done|]. unfold ident in E. congruence.
  - intros k1 k2 p1 p2 E1 E2 Hi. destruct (H1 _ _ E1) as (q1 & Hq1 & I1), (H1 _ _ E2) as (q2 & Hq2 & I2).
    eapply (ok_distinct _ Hok); [exact Hq1|exact Hq2|]. unfold ident in *. congruence.
  - rewrite Hsize. apply Hok.
  - intros k p Hp. destruct (H1 _ _ Hp) as (q & Hq & E). rewrite (ok_pinned _ Hok _ _ Hq).
    unfold ident in E. congruence.
  - apply Hok.
  - intros k p Hp. destruct (H1 _ _ Hp) as (q & Hq & E). pose proof (ok_byte _ Hok _ _ Hq).
    unfold ident in E. congruence.
  - intros i x. rewrite (ok_roster _ Hok). unfold roster_peer. split.
    + intros (k & q & Hq & <- & ->). destruct (H2 _ _ Hq) as (p & Hp & E). unfold ident in E.
      exists k, p. split; [done|]. split; congruence.
    + intros (k & p & Hp & <- & ->). destruct (H1 _ _ Hp) as (q & Hq & E). unfold ident in E.
      exists k, q. split; [done|]. split; congruence.
  - apply Hok.
  - apply Hok.
  - apply Hok.
  - apply Hok.
Qed.

Lemma set_ended_ok b rm : room_ok rm → room_ok (with_guard (set_ended b (rm_guard rm)) rm).
Proof. intros Hok. by destruct Hok. Qed.

Lemma set_candidate_ok c rm :
  (c ≤ 254)%N → room_ok rm → room_ok (with_guard (set_candidate c (rm_guard rm)) rm).
Proof. intros Hc Hok. by destruct Hok. Qed.

Lemma active_size rm : room_ok rm → size (active_indices (rm_guard rm)) ≤ size (rm_peers rm).
Proof.
  intros Hok. unfold size at 1, set_size. simpl.
  rewrite <-length_map_to_list, <-(length_fmap (λ e, ap_peer_index e.2)).
  apply submseteq_length, NoDup_submseteq; [apply NoDup_elements|].
  intros i Hi. apply elem_of_elements, (ok_active _ Hok) in Hi as (k & p & Hp & <-).
  apply list_elem_of_fmap. exists (k, p). split; [done|]. by apply elem_of_map_to_list.
Qed.

Lemma alloc_admits g idx v : (idx < 256)%N → admits g (pin v (allocated idx g)) idx v.
Proof. intros Hi. split; cbn; try done. by apply next_index_bound. Qed.

Lemma at_index_admits g idx v :
  (idx < 256)%N →
  admits g (set_candidate (next_index idx) (next_epoch_for idx (activate idx (pin v g))).2) idx v.
Proof. intros Hi. split; cbn; try done. by apply next_index_bound. Qed.

(** What [add_peer] does on every branch. *)
Lemma add_peer_cases rm k pk v :
  room_ok rm →
  let g := rm_guard rm in
  (rm_poisoned rm || ended g = true ∧ add_peer k pk v rm = (Err Ended, rm)) ∨
  (rm_poisoned rm || ended g = false ∧ MAX_PEERS_PER_ROOM ≤ size (rm_peers rm) ∧
   add_peer k pk v rm = (Err Full, rm)) ∨
  (rm_poisoned rm || ended g = false ∧ size (rm_peers rm) < MAX_PEERS_PER_ROOM ∧
   ∃ w, version_mismatch g v = Some w ∧ add_peer k pk v rm = (Err (VersionMismatch w v), rm)) ∨
  (rm_poisoned rm || ended g = false ∧ size (rm_peers rm) < MAX_PEERS_PER_ROOM ∧
   version_mismatch g v = None ∧
   ∃ idx i, idx ∉ active_indices g ∧ (idx ≤ 254)%N ∧ i < 255 ∧ idx = probe i (next_candidate g) ∧
     (∀ j, j < i → probe j (next_candidate g) ∈ active_indices g) ∧
     let e := default 0%N (index_epochs g !! idx) in
     let rm' := seat k (new_peer pk idx e v) (pin v (allocated idx g)) rm in
     add_peer k pk v rm = (Ok (mkAdmission k idx e (roster_revision (rm_guard rm'))), rm')).
Proof.
  intros Hok g. unfold add_peer. fold g. destruct (rm_poisoned rm || ended g); [by left|right].
  destruct (Nat.leb_spec MAX_PEERS_PER_ROOM (size (rm_peers rm))) as [Hle|Hlt]; [by left|right].
  destruct (version_mismatch g v) as [w|]; [left; eauto|right]. split; [done|]. split; [done|].
  split; [done|].
  destruct (alloc_total g) as (idx & e & g' & Ha).
  { apply Hok. } { pose proof (active_size rm Hok). unfold MAX_PEERS_PER_ROOM in Hlt. unfold g. lia. }
  rewrite Ha. apply alloc_some in Ha as (Hout & Hidx & -> & -> & i & Hi & Hp & Hj); [|apply Hok].
  exists idx, i. done.
Qed.

Lemma add_peer_ok rm k pk v : room_ok rm → rm_peers rm !! k = None → room_ok (add_peer k pk v rm).2.
Proof.
  intros Hok Hk.
  destruct (add_peer_cases rm k pk v Hok) as [[_ ->]|[(_ & _ & ->)|[(_ & _ & w & _ & ->)|
    (_ & Hsz & Hv & idx & i & Hout & Hidx & _ & _ & _ & ->)]]]; [done|done|done|].
  apply seat_ok; try done. apply alloc_admits. lia.
Qed.

Lemma add_peer_at_index_ok rm k pk v idx :
  room_ok rm → rm_peers rm !! k = None → (idx < 256)%N → room_ok (add_peer_at_index k pk v idx rm).2.
Proof.
  intros Hok Hk Hidx. unfold add_peer_at_index.
  destruct (rm_poisoned rm || ended (rm_guard rm)); [done|].
  destruct (Nat.leb_spec MAX_PEERS_PER_ROOM (size (rm_peers rm))) as [|Hlt]; [done|].
  destruct (bool_decide (idx ∈ active_indices (rm_guard rm))) eqn:Hin; [done|]. simpl.
  apply bool_decide_eq_false_1 in Hin.
  destruct (version_mismatch (rm_guard rm) v) eqn:Hv; [done|].
  apply seat_ok; try done. by apply at_index_admits.
Qed.

Lemma remove_ok rm k : room_ok rm → room_ok (remove_peer k rm).2.
Proof.
  intros Hok. unfold remove_peer. destruct (rm_poisoned rm); [done|].
  destruct (rm_peers rm !! k) as [p|] eqn:Hp; [|done]. exact (unseat_ok _ _ _ Hok Hp).
Qed.

Lemma remove_check_ok rm k : room_ok rm → room_ok (remove_peer_and_check_ended k rm).2.
Proof.
  intros Hok. unfold remove_peer_and_check_ended. destruct (rm_poisoned rm); [done|].
  destruct (rm_peers rm !! k) as [p|] eqn:Hp; [|done]. pose proof (unseat_ok _ _ _ Hok Hp) as Hu.
  destruct (unseat k p rm) as [d rm']. simpl in Hu. destruct (_ && _); [|done]. by apply set_ended_ok.
Qed.

Lemma ident_send_audio fr p : ident (send_audio fr p) = ident p.
Proof. done. Qed.

Lemma ident_send_ctrl js p : ident (send_ctrl js p) = ident p.
Proof. unfold send_ctrl. by destruct (try_send _ _). Qed.

Lemma rstep_ok rm op : room_ok rm → rop_ok rm op → room_ok (rstep rm op).
Proof.
  intros Hok Hop. destruct op as [k pk v|k pk v idx|k|k| | |k fr|a fr|js|f]; simpl in *.
  - by apply add_peer_ok.
  - destruct Hop. by apply add_peer_at_index_ok.
  - by apply remove_ok.
  - by apply remove_check_ok.
  - unfold mark_ended. destruct (rm_poisoned rm); [done|]. by apply set_ended_ok.
  - unfold clear_ended. destruct (rm_poisoned rm); [done|]. by apply set_ended_ok.
  - unfold broadcast_frame. destruct (rm_peers rm !! k) as [p|]; [|done].
    apply channels_ok; [done|]. intros k'. rewrite map_lookup_imap.
    destruct (rm_peers rm !! k'); [|done]. simpl. by destruct (decide (k' = k)).
  - apply channels_ok; [done|]. intros k'. rewrite lookup_fmap. destruct (rm_peers rm !! k') as [q|]; [|done].
    simpl. by destruct (decide (ap_peer_index q = a)).
  - apply channels_ok; [done|]. intros k'. rewrite lookup_fmap. destruct (rm_peers rm !! k') as [q|]; [|done].
    simpl. by rewrite ident_send_ctrl.
  - apply channels_ok; [done|]. intros k'. rewrite lookup_fmap. destruct (rm_peers rm !! k') as [q|]; [|done].
    simpl. by rewrite Hop.
Qed.

Lemma room_new_ok c ch : room_ok (room_new c ch).
Proof.
  split; cbn.
  - intros i. split; [set_solver|]. intros (k & p & Hp & _). by rewrite lookup_empty in Hp.
  - intros k k' p p' Hp. by rewrite lookup_empty in Hp.
  - rewrite map_size_empty. lia.
  - intros k p Hp. by rewrite lookup_empty in Hp.
  - lia.
  - intros k p Hp. by rewrite lookup_empty in Hp.
  - intros i x. split; [by rewrite lookup_empty|]. intros (k & p & Hp & _). by rewrite lookup_empty in Hp.
  - done.
  - done.
  - intros i. rewrite lookup_empty. done.
  - done.
Qed.

Lemma rsteps_ok rm ops rm' : rsteps rm ops rm' → room_ok rm → room_ok rm'.
Proof. induction 1; auto using rstep_ok. Qed.

(** ** Properties *)

(** C11: The room invariant.  After any sequence of admissions (local or at an
    owner-assigned index), departures, endings and traffic, the active indices
    are exactly the indices of the seated peers, no two peers share one, at most
    25 are seated, all have the pinned version, and the allocator's cursor stays
    in the index space. *)
Theorem room_invariant c ch ops rm :
  rsteps (room_new c ch) ops rm →
  (∀ idx, idx ∈ active_indices (rm_guard rm) ↔ ∃ k p, rm_peers rm !! k = Some p ∧ ap_peer_index p = idx) ∧
  (∀ k k' p p', rm_peers rm !! k = Some p → rm_peers rm !! k' = Some p' →
     ap_peer_index p = ap_peer_index p' → k = k') ∧
  size (rm_peers rm) ≤ MAX_PEERS_PER_ROOM ∧
  (∀ k p, rm_peers rm !! k = Some p → pinned_version (rm_guard rm) = Some (ap_protocol_version p)) ∧
  (next_candidate (rm_guard rm) ≤ 254)%N.
Proof.
  intros Hs. pose proof (rsteps_ok _ _ _ Hs (room_new_ok c ch)) as Hok.
  split; [apply Hok|]. split; [apply (ok_distinct _ Hok)|]. split; [apply Hok|].
  split; [apply (ok_pinned _ Hok)|apply Hok].
Qed.

(** Replaying the roster deltas reproduces the room.  In any execution the
    published deltas are numbered consecutively from 1 (modulo 2^64), the
    snapshot carries the last number, and its peers are exactly the result of
    applying all deltas in order to an empty roster, sorted by index. *)
Theorem roster_replay {MI : MapIter N} c ch ops rm :
  rsteps (room_new c ch) ops rm →
  (∀ i d, rm_published rm !! i = Some d → rd_revision d = (N.of_nat (S i) `mod` (u64_max + 1))%N) ∧
  sn_revision (roster_snapshot rm) = (N.of_nat (length (rm_published rm)) `mod` (u64_max + 1))%N ∧
  (∀ x, x ∈ sn_peers (roster_snapshot rm) ↔ replay (rm_published rm) !! ro_peer_index x = Some x) ∧
  StronglySorted (λ a b, index_le a b = true) (sn_peers (roster_snapshot rm)).
Proof.
  intros Hs. pose proof (rsteps_ok _ _ _ Hs (room_new_ok c ch)) as Hok.
  split; [apply Hok|]. split; [apply Hok|]. split.
  - intros x. unfold roster_snapshot. cbn [sn_peers]. rewrite sort_by_perm, list_elem_of_fmap.
    rewrite (ok_roster _ Hok). split.
    + intros ([k p] & -> & Hin%elem_of_hiter). exists k, p. done.
    + intros (k & p & Hp & _ & ->). exists (k, p). split; [done|]. by apply elem_of_hiter.
  - apply sort_by_sorted; unfold index_le.
    + intros a b Hab%N.leb_gt. apply N.leb_le. lia.
    + intros a b d Hab%N.leb_le Hbd%N.leb_le. apply N.leb_le. lia.
Qed.

(** Epochs tell occupants of an index apart.  In any execution the epoch stamped on
    an occupant is the number of earlier occupants of its index modulo 256, so
    two occupants of one index share an epoch only if a multiple of 256
    occupants lie between them. *)
Theorem epochs_count_occupants c ch ops rm i d p :
  rsteps (room_new c ch) ops rm →
  rm_published rm !! i = Some d → rd_joined d = Some p →
  ro_epoch p = (occupants (ro_peer_index p) (take i (rm_published rm)) `mod` 256)%N.
Proof.
  intros Hs. pose proof (rsteps_ok _ _ _ Hs (room_new_ok c ch)) as Hok. apply (ok_stamped _ Hok).
Qed.

(** Admission decides as documented and never fails spuriously.  In any reachable
    room a join is refused with [Ended] when the room has ended, else with [Full]
    when 25 peers are seated, else with [VersionMismatch] when pinned to another
    version, and otherwise always admitted: the allocator finds the first free
    index at or after its cursor within its 255 probes, and the peer is seated
    with that index. *)
Theorem admission_spec c ch ops rm k pk v :
  rsteps (room_new c ch) ops rm → rm_peers rm !! k = None → rm_poisoned rm = false →
  let g := rm_guard rm in
  match (add_peer k pk v rm).1 with
  | Err Ended => ended g = true
  | Err Full => ended g = false ∧ size (rm_peers rm) = MAX_PEERS_PER_ROOM
  | Err (VersionMismatch w v') =>
      ended g = false ∧ size (rm_peers rm) < MAX_PEERS_PER_ROOM ∧ v' = v ∧
      pinned_version g = Some w ∧ w ≠ v
  | Ok a =>
      ended g = false ∧ size (rm_peers rm) < MAX_PEERS_PER_ROOM ∧
      (pinned_version g = None ∨ pinned_version g = Some v) ∧
      (∀ k' p, rm_peers rm !! k' = Some p → ap_peer_index p ≠ ad_peer_index a) ∧
      (∃ i, i < 255 ∧ ad_peer_index a = probe i (next_candidate g) ∧
            ∀ j, j < i → probe j (next_candidate g) ∈ active_indices g) ∧
      rm_peers (add_peer k pk v rm).2 =
        <[k := new_peer pk (ad_peer_index a) (ad_epoch a) v]> (rm_peers rm)
  end.
Proof.
  intros Hs Hk Hpo g. pose proof (rsteps_ok _ _ _ Hs (room_new_ok c ch)) as Hok.
  destruct (add_peer_cases rm k pk v Hok) as [[He ->]|[(He & Hsz & ->)|[(He & Hsz & w & Hv & ->)|
    (He & Hsz & Hv & idx & i & Hout & Hidx & Hi & Hp & Hj & ->)]]];
    rewrite Hpo in He; simpl in He; simpl.
  - done.
  - split; [done|]. pose proof (ok_cap _ Hok). lia.
  - unfold version_mismatch in Hv. fold g in Hv. destruct (pinned_version g) as [w'|]; [|done].
    destruct (decide (w' ≠ v)); [|done]. by injection Hv as <-.
  - split; [done|]. split; [done|]. split.
    { unfold version_mismatch in Hv. fold g in Hv. destruct (pinned_version g) as [w'|]; [|by left].
      destruct (decide (w' ≠ v)) as [|Hw]; [done|]. apply dec_stable in Hw as ->. by right. }
    split; [|split; [eauto|done]].
    intros k' p Hp' E. apply Hout, (ok_active _ Hok). eauto.
Qed.

(** ** Endings *)

Lemma ended_step rm op : ended (rm_guard rm) = true → op ≠ RClear → ended (rm_guard (rstep rm op)) = true.
Proof.
  intros He Hop. destruct op as [k pk v|k pk v idx|k|k| | |k fr|a fr|js|f]; simpl; try done.
  - unfold add_peer. rewrite He, orb_true_r. done.
  - unfold add_peer_at_index. rewrite He, orb_true_r. done.
  - unfold remove_peer. destruct (rm_poisoned rm); [done|]. by destruct (rm_peers rm !! k).
  - unfold remove_peer_and_check_ended. destruct (rm_poisoned rm); [done|].
    destruct (rm_peers rm !! k) as [p|]; [|done]. cbn. by rewrite He.
  - unfold mark_ended. by destruct (rm_poisoned rm).
  - unfold broadcast_frame. by destruct (rm_peers rm !! k).
Qed.

Lemma ended_steps rm ops rm' :
  rsteps rm ops rm' → Forall (λ op, op ≠ RClear) ops → ended (rm_guard rm) = true →
  ended (rm_guard rm') = true.
Proof.
  induction 1 as [|rm op ops rm' _ _ IH]; intros Hf He; [done|].
  inversion_clear Hf. apply IH; [done|by apply ended_step].
Qed.

(** A room ends once.  When the departure of the last peer reports that the room
    should end, the room is empty and was not ended before, and from then on --
    until the ending is explicitly undone -- every join is refused with [Ended]
    and no other departure reports an ending. *)
Theorem auto_end_once rm k d rm1 ops rm2 :
  remove_peer_and_check_ended k rm = (Some (d, true), rm1) →
  rsteps rm1 ops rm2 → Forall (λ op, op ≠ RClear) ops →
  rm_peers rm1 = ∅ ∧ ended (rm_guard rm) = false ∧
  (∀ k' pk v, (add_peer k' pk v rm2).1 = Err Ended) ∧
  (∀ k' pk v idx, (add_peer_at_index k' pk v idx rm2).1 = Err Ended) ∧
  (∀ k' d', (remove_peer_and_check_ended k' rm2).1 ≠ Some (d', true)).
Proof.
  intros Hr Hs Hf. unfold remove_peer_and_check_ended in Hr.
  destruct (rm_poisoned rm) eqn:Hpo; [done|]. destruct (rm_peers rm !! k) as [p|]; [|done].
  destruct (unseat k p rm) as [d0 rm0] eqn:Eu.
  destruct (negb (ended (rm_guard rm0)) && bool_decide (rm_peers rm0 = ∅)) eqn:Ec; [|done].
  injection Hr as <- <-. breflect.
  assert (ended (rm_guard rm0) = ended (rm_guard rm)) as Hen by (by injection Eu as <- <-).
  split; [done|]. split; [congruence|].
  pose proof (ended_steps _ _ _ Hs Hf eq_refl) as He2.
  split; [|split].
  - intros k' pk v. unfold add_peer. by rewrite He2, orb_true_r.
  - intros k' pk v idx. unfold add_peer_at_index. by rewrite He2, orb_true_r.
  - intros k' d'. unfold remove_peer_and_check_ended. destruct (rm_poisoned rm2); [done|].
    destruct (rm_peers rm2 !! k') as [q|]; [|done]. cbn. by rewrite He2.
Qed.

(** ** Fan-out *)

(** A frame reaches exactly the other peers.  In any reachable room, relaying a
    frame leaves the sender's queue and every full or closed queue as it was,
    appends the frame with its prefix once to every other peer's queue, and
    changes nothing else; and the prefix names the sender: no other seated peer
    has the same one. *)
Theorem broadcast_frame_spec c ch ops rm sender p frame k q :
  rsteps (room_new c ch) ops rm → rm_peers rm !! sender = Some p → rm_peers rm !! k = Some q →
  rm_guard (broadcast_frame sender frame rm) = rm_guard rm ∧
  (∃ q', rm_peers (broadcast_frame sender frame rm) !! k = Some q' ∧ ident q' = ident q ∧
     ap_ctrl_tx q' = ap_ctrl_tx q ∧
     ch_queue (ap_audio_tx q') =
       if decide (k = sender) then ch_queue (ap_audio_tx q)
       else if ch_open (ap_audio_tx q) && (length (ch_queue (ap_audio_tx q)) <? ch_capacity (ap_audio_tx q))
       then ch_queue (ap_audio_tx q) ++ [frame_prefix p ++ frame]
       else ch_queue (ap_audio_tx q)) ∧
  (frame_prefix q = frame_prefix p → k = sender).
Proof.
  intros Hs Hp Hq. pose proof (rsteps_ok _ _ _ Hs (room_new_ok c ch)) as Hok.
  unfold broadcast_frame. rewrite Hp. split; [done|]. split.
  - unfold with_peers. cbn [rm_peers]. rewrite map_lookup_imap, Hq. simpl.
    destruct (decide (k = sender)) as [->|Hne]; [by exists q|].
    exists (send_audio (frame_prefix p ++ frame) q). split_and!; try done.
    unfold send_audio, try_send. cbn [ap_audio_tx].
    by destruct (ch_open (ap_audio_tx q) && _).
  - intros E. eapply (ok_distinct _ Hok); [done|done|].
    apply byte_of_N_inj; [by eapply ok_byte|by eapply ok_byte|].
    unfold frame_prefix in E. destruct (3 <=? _)%N, (3 <=? _)%N; by injection E.
Qed.

(** ** The manager *)

Inductive MgrOp :=
| GOpen (c : CommunityId) (ch : Uuid)
| GRoom (loc : N) (op : ROp)
| GCleanup (c : CommunityId) (ch : Uuid).

Definition mgr_step (m : Manager) (op : MgrOp) : Manager :=
  match op with
  | GOpen c ch => (get_or_create c ch m).2
  | GRoom loc rop => (on_room loc (λ rm, (tt, rstep rm rop)) m).2
  | GCleanup c ch => (cleanup_if_empty c ch m).2
  end.

Record manager_ok (m : Manager) : Prop := {
  mk_live : ∀ c ch loc, mgr_rooms m !! (c, ch) = Some loc →
    ∃ rm, mgr_store m !! loc = Some rm ∧ rm_community_id rm = c ∧ rm_channel_id rm = ch;
  mk_next : ∀ loc rm, mgr_store m !! loc = Some rm → (loc < mgr_next m)%N
}.

Lemma rstep_ids rm op :
  rm_community_id (rstep rm op) = rm_community_id rm ∧ rm_channel_id (rstep rm op) = rm_channel_id rm.
Proof.
  destruct op as [k pk v|k pk v idx|k|k| | |k fr|a fr|js|f]; simpl; try done.
  - unfold add_peer. destruct (_ || _); [done|]. destruct (_ <=? _); [done|].
    destruct (version_mismatch _ _); [done|]. by destruct (alloc _) as [[[]|] ?].
  - unfold add_peer_at_index. destruct (_ || _); [done|]. destruct (_ || _); [done|].
    by destruct (version_mismatch _ _).
  - unfold remove_peer. destruct (rm_poisoned rm); [done|]. by destruct (rm_peers rm !! k).
  - unfold remove_peer_and_check_ended. destruct (rm_poisoned rm); [done|].
    destruct (rm_peers rm !! k); [|done]. cbn. by destruct (_ && _).
  - unfold mark_ended. by destruct (rm_poisoned rm).
  - unfold clear_ended. by destruct (rm_poisoned rm).
  - unfold broadcast_frame. by destruct (rm_peers rm !! k).
Qed.

Lemma mgr_step_ok m op : manager_ok m → manager_ok (mgr_step m op).
Proof.
  intros [Hl Hn]. destruct op as [c ch|loc rop|c ch]; simpl.
  - unfold get_or_create. destruct (mgr_rooms m !! (c, ch)) as [loc|] eqn:E; [by split|]. split; simpl.
    + intros c' ch' loc. destruct (decide ((c, ch) = (c', ch'))) as [[= <- <-]|Hne].
      * rewrite lookup_insert_eq. intros [= <-]. exists (room_new c ch). by rewrite lookup_insert_eq.
      * rewrite lookup_insert_ne by done. intros Hloc. destruct (Hl _ _ _ Hloc) as (rm & Hrm & ?).
        exists rm. rewrite lookup_insert_ne; [done|]. intros <-. apply Hn in Hrm. lia.
    + intros loc rm. destruct (decide (mgr_next m = loc)) as [<-|Hne].
      * rewrite lookup_insert_eq. lia.
      * rewrite lookup_insert_ne by done. intros Hrm%Hn. lia.
  - unfold on_room. destruct (mgr_store m !! loc) as [rm|] eqn:E; [|by split]. split; simpl.
    + intros c ch loc' Hloc. destruct (Hl _ _ _ Hloc) as (rm' & Hrm' & Hc & Hch).
      destruct (decide (loc = loc')) as [<-|Hne].
      * rewrite lookup_insert_eq. exists (rstep rm rop). destruct (rstep_ids rm rop). naive_solver.
      * exists rm'. by rewrite lookup_insert_ne.
    + intros loc' rm'. destruct (decide (loc = loc')) as [<-|Hne].
      * rewrite lookup_insert_eq. intros _. by eapply Hn.
      * rewrite lookup_insert_ne by done. apply Hn.
  - unfold cleanup_if_empty. destruct (mgr_rooms m !! (c, ch)) as [loc|] eqn:E; [|by split].
    destruct (mgr_store m !! loc) as [rm|]; [|by split]. destruct (room_is_empty rm); [|by split].
    split; simpl; [|done]. intros c' ch' loc' [_ Hloc]%lookup_delete_Some. by apply Hl.
Qed.

Lemma manager_reachable_ok ops : manager_ok (foldl mgr_step manager_new ops).
Proof.
  assert (manager_ok manager_new) as Hm.
  { split; simpl; [intros c ch loc Hloc; by rewrite lookup_empty in Hloc|].
    intros loc rm Hrm. by rewrite lookup_empty in Hrm. }
  revert Hm. generalize manager_new. induction ops; intros m Hm; simpl; auto using mgr_step_ok.
Qed.

(** Communities never share a room.  After any use of the manager, the rooms of
    different (community, channel) keys are different objects, so no operation
    on one changes the other; and the lookup by channel alone answers only when
    exactly one community has a room for it, and then with that room. *)
Theorem rooms_isolated {MI : MapIter (N * N)} ops c1 ch1 l1 c2 ch2 l2 rop :
  let m := foldl mgr_step manager_new ops in
  manager_get c1 ch1 m = Some l1 → manager_get c2 ch2 m = Some l2 → (c1, ch1) ≠ (c2, ch2) →
  l1 ≠ l2 ∧ mgr_store (mgr_step m (GRoom l1 rop)) !! l2 = mgr_store m !! l2 ∧
  (get_unambiguous_by_channel ch1 m = Some l1 ↔ ∀ c l, mgr_rooms m !! (c, ch1) = Some l → c = c1).
Proof.
  intros m H1 H2 Hne. pose proof (manager_reachable_ok ops) as Hm. fold m in Hm. unfold manager_get in *.
  assert (∀ c l, mgr_rooms m !! (c, ch1) = Some l → l = l1 → c = c1) as Huniq.
  { intros c l Hl ->. destruct (mk_live _ Hm _ _ _ Hl) as (rm & Hrm & ? & ?).
    destruct (mk_live _ Hm _ _ _ H1) as (rm' & Hrm' & ? & ?). congruence. }
  assert (l1 ≠ l2) as Hl.
  { intros <-. destruct (mk_live _ Hm _ _ _ H1) as (rm & Hrm & ? & ?).
    destruct (mk_live _ Hm _ _ _ H2) as (rm' & Hrm' & ? & ?). congruence. }
  split; [done|]. split.
  { simpl. unfold on_room. destruct (mgr_store m !! l1); [|done]. simpl. by rewrite lookup_insert_ne. }
  unfold get_unambiguous_by_channel.
  set (fl := List.filter _ _).
  assert (∀ e, e ∈ fl ↔ mgr_rooms m !! e.1 = Some e.2 ∧ e.1.2 = ch1) as Hfl.
  { intros [k l]. unfold fl. rewrite list_elem_of_In, filter_In, <-list_elem_of_In, elem_of_hiter.
    simpl. by rewrite bool_decide_eq_true. }
  assert (NoDup fl) as Hnd.
  { apply NoDup_ListNoDup, List.NoDup_filter, NoDup_ListNoDup. apply (NoDup_fmap_1 fst), NoDup_hiter_fst. }
  split.
  - destruct fl as [|e [|]] eqn:Ef; [done| |done]. intros [= He] c l Hc.
    assert (((c, ch1), l) ∈ [e]) as Hin by (by apply Hfl). apply list_elem_of_singleton in Hin.
    subst e. simpl in He. eauto.
  - intros Hall. assert (((c1, ch1), l1) ∈ fl) as Hin by (by apply Hfl).
    assert (∀ e, e ∈ fl → e = ((c1, ch1), l1)) as Hone.
    { intros [[c ch] l] [Hc Hch]%Hfl. simpl in *. subst ch. pose proof (Hall _ _ Hc) as ->.
      congruence. }
    destruct fl as [|e1 [|e2 fl']]; [set_solver|by rewrite (Hone e1) by left|].
    exfalso. apply NoDup_cons in Hnd as [Hnd _]. apply Hnd.
    rewrite (Hone e1), <-(Hone e2) by set_solver. left.
Qed.

(** ** Concrete executions *)
Module AudioRoomDemo.

(** Two local peers, one from another relay at index 7, and one departure. *)
Definition demo_ops : list ROp :=
  [RAdd 1 "alice" 3; RAdd 2 "bob" 3; RAddAt 3 "carol" 3 7; RRemove 1; RAdd 4 "dave" 3].

Definition demo_room : Room := foldl rstep (room_new 10 20) demo_ops.

Ltac run_ops :=
  repeat (apply rsteps_cons; [vm_compute; first [done|split; done|reflexivity]|]); apply rsteps_nil.

Lemma demo_run : rsteps (room_new 10 20) demo_ops demo_room.
Proof. run_ops. Qed.

Definition seat_of (k : N) (rm : Room) : option (N * N) :=
  (λ p, (ap_peer_index p, ap_epoch p)) <$> rm_peers rm !! k.

(** The cursor moves on: index 0 is free again but 8 is given out. *)
Example demo_seats :
  (λ k, seat_of k demo_room) <$> [1; 2; 3; 4]%N = [None; Some (1, 0); Some (7, 0); Some (8, 0)]%N.
Proof. vm_compute. reflexivity. Qed.

(** A seat taken a second time has the next epoch. *)
Example demo_reuse :
  (add_peer_at_index 5 "erin" 3 0 demo_room).1 = Ok (mkAdmission 5 0 1 6).
Proof. vm_compute. reflexivity. Qed.

Example demo_version : (add_peer 5 "erin" 2 demo_room).1 = Err (VersionMismatch 3 2).
Proof. vm_compute. reflexivity. Qed.

(** A queue of 8 frames takes no more. *)
Example demo_overflow :
  (λ p, length (ch_queue (ap_audio_tx p))) <$>
    rm_peers (foldl rstep demo_room (repeat (RFrame 2 [x41]) 9)) !! 3%N = Some 8.
Proof. vm_compute. reflexivity. Qed.

Lemma room_invariant_witness : size (rm_peers demo_room) ≤ MAX_PEERS_PER_ROOM.
Proof. apply (room_invariant 10 20 demo_ops demo_room demo_run). Defined.

Lemma roster_replay_witness :
  replay (rm_published demo_room) !! 7%N = Some (mkRosterPeer "carol" 7 0) ∧
  sn_revision (roster_snapshot demo_room) = 5%N.
Proof.
  destruct (roster_replay 10 20 demo_ops demo_room demo_run) as (_ & Hrev & Hpeers & _). split.
  - apply (Hpeers (mkRosterPeer "carol" 7 0)). apply list_elem_of_In. vm_compute. right. left. reflexivity.
  - rewrite Hrev. vm_compute. reflexivity.
Defined.

Lemma epochs_count_occupants_witness :
  0%N = (occupants 7 (take 2 (rm_published demo_room)) `mod` 256)%N.
Proof.
  apply (epochs_count_occupants 10 20 demo_ops demo_room 2 (mkDelta 3 (Some (mkRosterPeer "carol" 7 0)) None)
           (mkRosterPeer "carol" 7 0) demo_run); vm_compute; reflexivity.
Defined.

Lemma admission_spec_witness :
  match (add_peer 9 "erin" 3 demo_room).1 with
  | Err Ended => ended (rm_guard demo_room) = true
  | Err Full => ended (rm_guard demo_room) = false ∧ size (rm_peers demo_room) = MAX_PEERS_PER_ROOM
  | _ => True
  end.
Proof.
  pose proof (admission_spec 10 20 demo_ops demo_room 9 "erin" 3 demo_run
                ltac:(vm_compute; reflexivity) ltac:(vm_compute; reflexivity)) as H.
  cbv zeta in H. destruct (add_peer 9 "erin" 3 demo_room).1 as [a|[| |w v]]; [exact I|exact H|exact H|exact I].
Defined.

Definition last_room : Room := foldl rstep (room_new 10 20) [RAdd 1 "alice" 3].
Definition ended_room : Room := (remove_peer_and_check_ended 1 last_room).2.

Lemma auto_end_once_witness :
  rm_peers ended_room = ∅ ∧ ended (rm_guard last_room) = false ∧
  (∀ k' pk v, (add_peer k' pk v (rstep ended_room RMark)).1 = Err Ended).
Proof.
  destruct (auto_end_once last_room 1 (mkDelta 2 None (Some (mkRosterPeer "alice" 0 0))) ended_room
              [RMark] (rstep ended_room RMark)) as (H1 & H2 & H3 & _).
  - rewrite (surjective_pairing (remove_peer_and_check_ended 1 last_room)).
    apply (f_equal2 pair); [vm_compute; reflexivity|reflexivity].
  - apply rsteps_cons; [exact I|apply rsteps_nil].
  - constructor; [discriminate|constructor].
  - split; [exact H1|split; [exact H2|exact H3]].
Defined.

Definition bob : AudioPeer := new_peer "bob" 1 0 3.
Definition carol : AudioPeer := new_peer "carol" 7 0 3.

Lemma broadcast_frame_spec_witness :
  rm_guard (broadcast_frame 2 [x41] demo_room) = rm_guard demo_room.
Proof.
  apply (broadcast_frame_spec 10 20 demo_ops demo_room 2 bob [x41] 3 carol demo_run);
    vm_compute; reflexivity.
Defined.

Definition demo_manager_ops : list MgrOp := [GOpen 1 5; GOpen 2 5; GRoom 0 (RAdd 1 "alice" 3)].

Lemma rooms_isolated_witness :
  0%N ≠ 1%N ∧
  mgr_store (mgr_step (foldl mgr_step manager_new demo_manager_ops) (GRoom 0 RMark)) !! 1%N =
    mgr_store (foldl mgr_step manager_new demo_manager_ops) !! 1%N.
Proof.
  destruct (rooms_isolated demo_manager_ops 1 5 0 2 5 1 RMark) as (H1 & H2 & _);
    [vm_compute; reflexivity|vm_compute; reflexivity|discriminate|split; [exact H1|exact H2]].
Defined.

End AudioRoomDemo.
