(* ===== verification/NipOa.v ===== *)
(** * Owner attestation ([buzz-sdk/src/nip_oa.rs])

    An [auth] tag proves that an owner key authorised an agent key under some
    conditions.  Keys, signatures, SHA-256 and serde are the class [OaApi].
    [auth_conditions_apply] is the command line's reading of the conditions
    ([buzz-cli/src/commands/users.rs]). *)

From stdpp Require Import base gmap strings list.
From Stdlib Require Import Ascii.
From S2P Require Import Prelude Text Nostr CanonicalJson MeshWire.

Inductive SdkError := InvalidInput (msg : string).

(** ** Conditions *)

Definition is_ascii_whitespace (c : ascii) : bool :=
  bool_decide (ascii_code c ∈ [9; 10; 12; 13; 32])%N.

Definition validate_canonical_decimal (s : string) (min max : N) : result SdkError unit :=
  if decide (s = "") then Err (InvalidInput "value must not be empty")
  else if leading_zero s then Err (InvalidInput "value has leading zero")
  else if negb (str_all is_ascii_digit s) then Err (InvalidInput "value is not a valid decimal")
  else match parse_uint u64_max s with
       | None => Err (InvalidInput "value out of range")
       | Some value =>
           if ((value <? min) || (max <? value))%N then Err (InvalidInput "value out of range") else Ok tt
       end.

Definition validate_clause (clause : string) : result SdkError unit :=
  match strip_prefix "kind=" clause with
  | Some value => validate_canonical_decimal value 0 65535
  | None =>
      match strip_prefix "created_at<" clause with
      | Some value => validate_canonical_decimal value 0 4294967295
      | None =>
          match strip_prefix "created_at>" clause with
          | Some value => validate_canonical_decimal value 0 4294967295
          | None => Err (InvalidInput "unsupported clause")
          end
      end
  end.

(** The loop over the clauses. *)
Fixpoint validate_clauses (clauses : list string) : result SdkError unit :=
  match clauses with
  | [] => Ok tt
  | c :: cs =>
      if decide (c = "") then Err (InvalidInput "empty clause in conditions")
      else let? _ := validate_clause c in validate_clauses cs
  end.

Definition validate_conditions (conditions : string) : result SdkError unit :=
  if decide (conditions = "") then Ok tt
  else if negb (str_all (λ c, negb (is_ascii_whitespace c)) conditions)
  then Err (InvalidInput "conditions must not contain whitespace")
  else validate_clauses (split_on "&" conditions).

(** One clause of [auth_conditions_apply], for an event's kind and creation time. *)
Definition clause_applies (kind created_at : N) (clause : string) : bool :=
  match strip_prefix "kind=" clause with
  | Some value => bool_decide (parse_uint u64_max value = Some kind)
  | None =>
      match strip_prefix "created_at<" clause with
      | Some value => match parse_uint u64_max value with
                      | Some bound => (created_at <? bound)%N | None => false end
      | None =>
          match strip_prefix "created_at>" clause with
          | Some value => match parse_uint u64_max value with
                          | Some bound => (bound <? created_at)%N | None => false end
          | None => bool_decide (clause = "")
          end
      end
  end.

Definition auth_conditions_apply (kind created_at : N) (conditions : string) : bool :=
  forallb (clause_applies kind created_at) (split_on "&" conditions).

(** ** Tags *)

(** [nostr], [secp256k1], [serde_json]: [xonly] is the conversion of a public key,
    [sig_from_str] and [sig_to_string] the text of a signature. *)
Class OaApi (num : Type) := {
  oa_secret : Type;
  oa_public_key : oa_secret → PublicKey;
  oa_pk_to_hex : PublicKey → string;
  oa_pk_from_hex : string → option PublicKey;
  oa_xonly : Type;
  xonly : PublicKey → option oa_xonly;
  oa_sig : Type;
  sig_from_str : string → option oa_sig;
  sig_to_string : oa_sig → string;
  oa_digest : Type;
  oa_sha256 : string → oa_digest;
  sign_schnorr : oa_secret → oa_digest → oa_sig;
  verify_schnorr : oa_sig → oa_digest → oa_xonly → bool;
  oa_parse : string → option (Json num);
  oa_print : Json num → string
}.

(** Documented behaviour: text forms round-trip, public keys ([pk_ok]: 32 bytes) print as 64 and
    signatures as 128 lower-case hex digits, a signature verifies under its key. *)
Definition pk_ok (pk : PublicKey) : Prop := (pk < 2 ^ 256)%N.

Class OaLaws {num : Type} (api : OaApi num) := {
  oa_public_key_ok : ∀ sk, pk_ok (oa_public_key sk);
  oa_pk_roundtrip : ∀ pk, pk_ok pk → oa_pk_from_hex (oa_pk_to_hex pk) = Some pk;
  oa_pk_hex : ∀ pk, String.length (oa_pk_to_hex pk) = 64 ∧ str_all is_hex_char (oa_pk_to_hex pk) = true;
  oa_sig_roundtrip : ∀ sk m, sig_from_str (sig_to_string (sign_schnorr sk m)) = Some (sign_schnorr sk m);
  oa_sig_hex : ∀ s, String.length (sig_to_string s) = 128 ∧ str_all is_hex_char (sig_to_string s) = true;
  oa_sign_verify : ∀ sk m, ∃ x, xonly (oa_public_key sk) = Some x ∧ verify_schnorr (sign_schnorr sk m) m x = true;
  oa_json_strings : ∀ l, oa_parse (oa_print (JArray (map JString l))) = Some (JArray (map JString l))
}.

Section tags.
Context {num : Type} `{OaApi num}.

Definition build_preimage (agent_pubkey : PublicKey) (conditions : string) : string :=
  "nostr:agent-auth:" +:+ oa_pk_to_hex agent_pubkey +:+ ":" +:+ conditions.

Definition hash_preimage (preimage : string) : oa_digest := oa_sha256 preimage.

Definition parse_json_array (s : string) : result SdkError (list (Json num)) :=
  match oa_parse s with
  | None => Err (InvalidInput "invalid JSON")
  | Some (JArray arr) => Ok arr
  | Some _ => Err (InvalidInput "auth tag must be a JSON array")
  end.

Definition as_str (v : Json num) (err : string) : result SdkError string :=
  match v with JString s => Ok s | _ => Err (InvalidInput err) end.

Definition compute_auth_tag (owner_keys : oa_secret) (agent_pubkey : PublicKey) (conditions : string) :
    result SdkError string :=
  let owner_pubkey := oa_public_key owner_keys in
  if decide (owner_pubkey = agent_pubkey) then
    Err (InvalidInput "owner and agent pubkeys must differ (self-attestation rejected)")
  else
    let? _ := validate_conditions conditions in
    let preimage := build_preimage agent_pubkey conditions in
    let message := hash_preimage preimage in
    let sig := sign_schnorr owner_keys message in
    Ok (oa_print (JArray [JString "auth"; JString (oa_pk_to_hex owner_pubkey); JString conditions;
                          JString (sig_to_string sig)])).

Definition verify_auth_tag (auth_tag_json : string) (agent_pubkey : PublicKey) :
    result SdkError PublicKey :=
  let? arr := parse_json_array auth_tag_json in
  match arr with
  | [a0; a1; a2; a3] =>
      let? label := as_str a0 "element 0 must be a string" in
      if decide (label ≠ "auth") then Err (InvalidInput "first element must be auth") else
      let? owner_pubkey_hex := as_str a1 "element 1 (owner pubkey) must be a string" in
      let? conditions := as_str a2 "element 2 (conditions) must be a string" in
      let? sig_hex := as_str a3 "element 3 (signature) must be a string" in
      match oa_pk_from_hex owner_pubkey_hex with
      | None => Err (InvalidInput "invalid owner pubkey")
      | Some owner_pubkey =>
          let? _ := validate_conditions conditions in
          if decide (owner_pubkey = agent_pubkey) then
            Err (InvalidInput "owner and agent pubkeys must differ (self-attestation rejected)")
          else
            match sig_from_str sig_hex with
            | None => Err (InvalidInput "invalid signature hex")
            | Some sig =>
                let message := hash_preimage (build_preimage agent_pubkey conditions) in
                match xonly owner_pubkey with
                | None => Err (InvalidInput "owner pubkey xonly conversion failed")
                | Some x =>
                    if verify_schnorr sig message x then Ok owner_pubkey
                    else Err (InvalidInput "signature verification failed")
                end
            end
      end
  | _ => Err (InvalidInput "auth tag must have 4 elements")
  end.

(** The structural check without cryptography; the tag as its strings. *)
Definition parse_auth_tag (json_str : string) : result SdkError (list string) :=
  let? arr := parse_json_array json_str in
  match arr with
  | [a0; a1; a2; a3] =>
      let? label := as_str a0 "element 0 must be a string" in
      if decide (label ≠ "auth") then Err (InvalidInput "first element must be auth") else
      let? owner_pubkey_hex := as_str a1 "element 1 (owner pubkey) must be a string" in
      if negb (bool_decide (String.length owner_pubkey_hex = 64) && str_all is_hex_char owner_pubkey_hex)
      then Err (InvalidInput "owner pubkey must be 64 hex chars") else
      let? conditions := as_str a2 "element 2 (conditions) must be a string" in
      let? _ := validate_conditions conditions in
      let? sig_hex := as_str a3 "element 3 (signature) must be a string" in
      if negb (bool_decide (String.length sig_hex = 128) && str_all is_hex_char sig_hex)
      then Err (InvalidInput "signature must be 128 hex chars") else
      Ok ["auth"; owner_pubkey_hex; conditions; sig_hex]
  | _ => Err (InvalidInput "auth tag must have 4 elements")
  end.

End tags.

(** ** The grammar of conditions *)

Inductive Clause := CKind (n : N) | CBefore (n : N) | CAfter (n : N).

Definition clause_text (c : Clause) : string :=
  match c with
  | CKind n => "kind=" +:+ num_to_string n
  | CBefore n => "created_at<" +:+ num_to_string n
  | CAfter n => "created_at>" +:+ num_to_string n
  end.

Definition clause_ok (c : Clause) : Prop :=
  match c with CKind n => (n ≤ 65535)%N | CBefore n | CAfter n => (n ≤ 4294967295)%N end.

Definition clause_holds (kind created_at : N) (c : Clause) : bool :=
  match c with
  | CKind n => (n =? kind)%N
  | CBefore n => (created_at <? n)%N
  | CAfter n => (n <? created_at)%N
  end.

Definition conditions_text (cs : list Clause) : string := join_with "&" (map clause_text cs).

Lemma canonical_decimal_spec s max :
  (max ≤ u64_max)%N →
  validate_canonical_decimal s 0 max = Ok tt ↔ ∃ n, (n ≤ max)%N ∧ s = num_to_string n.
Proof.
  intros Hmax. unfold validate_canonical_decimal. split.
  - case_decide as Hn; [done|]. destruct (leading_zero s) eqn:Hz; [done|].
    destruct (str_all is_ascii_digit s) eqn:Hd; [|done]. cbn [negb].
    destruct (parse_uint u64_max s) as [v|] eqn:Hp; [|done].
    destruct (v <? 0)%N eqn:E0; [done|]. destruct (max <? v)%N eqn:E1; [done|]. intros _.
    apply N.ltb_ge in E1. exists v. split; [done|]. by apply parse_uint_canonical.
  - intros (n & Hn & ->). rewrite decide_False by apply num_to_string_nonempty.
    assert (n < 10 ^ 20)%N as Hlt by (eapply N.le_lt_trans; [etransitivity; [exact Hn|exact Hmax]|done]).
    rewrite num_to_string_no_leading by done. rewrite num_to_string_digits. cbn [negb].
    rewrite parse_uint_num by (done || lia).
    rewrite (proj2 (N.ltb_ge n 0)), (proj2 (N.ltb_ge max n)) by lia. done.
Qed.

Lemma clause_spec s : validate_clause s = Ok tt ↔ ∃ c, clause_ok c ∧ s = clause_text c.
Proof.
  unfold validate_clause. split.
  - destruct (strip_prefix "kind=" s) as [v|] eqn:E1.
    { apply strip_prefix_Some in E1 as ->. intros (n & ? & ->)%canonical_decimal_spec; [by exists (CKind n)|done]. }
    destruct (strip_prefix "created_at<" s) as [v|] eqn:E2.
    { apply strip_prefix_Some in E2 as ->. intros (n & ? & ->)%canonical_decimal_spec; [by exists (CBefore n)|done]. }
    destruct (strip_prefix "created_at>" s) as [v|] eqn:E3; [|done].
    apply strip_prefix_Some in E3 as ->. intros (n & ? & ->)%canonical_decimal_spec; [by exists (CAfter n)|done].
  - intros ([n|n|n] & Hok & ->); cbn [clause_text clause_ok] in *.
    + rewrite strip_prefix_app. apply canonical_decimal_spec; [done|eauto].
    + change (strip_prefix "kind=" ("created_at<" +:+ num_to_string n)) with (@None string).
      rewrite strip_prefix_app. apply canonical_decimal_spec; [done|eauto].
    + change (strip_prefix "kind=" ("created_at>" +:+ num_to_string n)) with (@None string).
      change (strip_prefix "created_at<" ("created_at>" +:+ num_to_string n)) with (@None string).
      rewrite strip_prefix_app. apply canonical_decimal_spec; [done|eauto].
Qed.

Definition is_clause_char (c : ascii) : bool :=
  is_ascii_digit c || bool_decide (c ∈ String.list_ascii_of_string "kind=created_at<>").

Lemma clause_text_chars c : str_all is_clause_char (clause_text c) = true.
Proof.
  assert (∀ n, str_all is_clause_char (num_to_string n) = true) as Hd.
  { intros n. pose proof (num_to_string_digits n) as Hs. revert Hs. generalize (num_to_string n).
    induction s as [|a s IH]; simpl; [done|]. intros [Ha Hs]%andb_true_iff.
    unfold is_clause_char at 1. by rewrite Ha, IH. }
  destruct c as [n|n|n]; exact (Hd n).
Qed.

Lemma clause_text_no_amp c : str_contains "&" (clause_text c) = false.
Proof. eapply str_all_contains; [apply clause_text_chars|]. vm_compute. done. Qed.

Lemma clause_text_nonempty c : clause_text c ≠ "".
Proof. by destruct c. Qed.

Lemma validate_clauses_spec l :
  validate_clauses l = Ok tt ↔ ∃ cs, Forall clause_ok cs ∧ l = map clause_text cs.
Proof.
  induction l as [|s l IH]; simpl.
  { split; [by exists []|done]. }
  split.
  - case_decide; [done|]. destruct (validate_clause s) as [[]|] eqn:E; [|done].
    apply clause_spec in E as (c & Hc & ->). intros (cs & Hcs & ->)%IH.
    exists (c :: cs). auto.
  - intros ([|c cs] & Hcs & E); [done|]. injection E as -> ->. inversion_clear Hcs.
    rewrite decide_False by apply clause_text_nonempty.
    rewrite (proj2 (clause_spec _)) by eauto. apply IH. eauto.
Qed.

Lemma split_conditions cs : cs ≠ [] → split_on "&" (conditions_text cs) = map clause_text cs.
Proof.
  intros Hn. unfold conditions_text. apply split_join; [by destruct cs|].
  apply Forall_map, Forall_true. intros c. apply clause_text_no_amp.
Qed.

Lemma conditions_no_space cs : str_all (λ c, negb (is_ascii_whitespace c)) (conditions_text cs) = true.
Proof.
  unfold conditions_text. induction cs as [|c cs IH]; [done|].
  assert (str_all (λ c, negb (is_ascii_whitespace c)) (clause_text c) = true) as Hc.
  { pose proof (clause_text_chars c) as Hs. revert Hs. generalize (clause_text c).
    induction s as [|a s IHs]; simpl; [done|]. intros [Ha Hs]%andb_true_iff. rewrite IHs by done.
    rewrite andb_true_r. destruct a as [[] [] [] [] [] [] [] []]; vm_compute in Ha |- *; done. }
  destruct cs as [|c' cs]; [done|].
  change (join_with "&" (map clause_text (c :: c' :: cs)))
    with (clause_text c +:+ String "&" (join_with "&" (map clause_text (c' :: cs)))).
  revert Hc. generalize (clause_text c). intros t. induction t as [|a t IHt]; [done|].
  rewrite append_cons. simpl. intros [-> Ht]%andb_true_iff. auto.
Qed.

Lemma conditions_text_nonempty cs : cs ≠ [] → conditions_text cs ≠ "".
Proof.
  intros Hn E. pose proof (split_conditions cs Hn) as Hs. rewrite E in Hs. destruct cs as [|c cs]; [done|].
  injection Hs as Hs _. by apply (clause_text_nonempty c).
Qed.

Lemma clause_applies_text kind created_at c :
  clause_ok c → clause_applies kind created_at (clause_text c) = clause_holds kind created_at c.
Proof.
  assert (∀ n, (n ≤ 4294967295)%N → parse_uint u64_max (num_to_string n) = Some n) as Hp.
  { intros n Hn. apply parse_uint_num; [etransitivity; [exact Hn|done]|eapply N.le_lt_trans; [exact Hn|done]]. }
  unfold clause_applies. destruct c as [n|n|n]; cbn [clause_text clause_ok clause_holds]; intros Hok.
  - rewrite strip_prefix_app, Hp by (etransitivity; [exact Hok|done]).
    destruct (N.eqb_spec n kind) as [->|]; [by apply bool_decide_eq_true_2|].
    apply bool_decide_eq_false_2. congruence.
  - change (strip_prefix "kind=" ("created_at<" +:+ num_to_string n)) with (@None string).
    by rewrite strip_prefix_app, Hp.
  - change (strip_prefix "kind=" ("created_at>" +:+ num_to_string n)) with (@None string).
    change (strip_prefix "created_at<" ("created_at>" +:+ num_to_string n)) with (@None string).
    by rewrite strip_prefix_app, Hp.
Qed.

(** The validator accepts exactly the texts of clause lists within bounds, and the
    command line evaluates such a text as the conjunction of its clauses. *)
Theorem conditions_grammar s :
  (validate_conditions s = Ok tt ↔ ∃ cs, Forall clause_ok cs ∧ s = conditions_text cs) ∧
  ∀ cs kind created_at, Forall clause_ok cs →
    auth_conditions_apply kind created_at (conditions_text cs) = forallb (clause_holds kind created_at) cs.
Proof.
  split.
  - unfold validate_conditions. split.
    + case_decide as Hn; [intros _; subst; by exists []|].
      destruct (str_all _ s) eqn:Hs; [|done]. cbn [negb].
      intros (cs & Hcs & E)%validate_clauses_spec. exists cs. split; [done|].
      unfold conditions_text. by rewrite <-E, join_split.
    + intros (cs & Hcs & ->). destruct cs as [|c cs]; [done|].
      rewrite decide_False by (by apply conditions_text_nonempty).
      rewrite conditions_no_space. cbn [negb]. rewrite split_conditions by done.
      apply validate_clauses_spec. eauto.
  - intros cs kind at_ Hcs. unfold auth_conditions_apply. destruct cs as [|c cs]; [done|].
    rewrite split_conditions by done. induction Hcs as [|c' cs' Hc Hcs IH]; [done|].
    cbn [map forallb]. by rewrite clause_applies_text, IH.
Qed.

(** ** Attestations *)

Section attest.
Context {num : Type} {api : OaApi num} {L : OaLaws api}.

(** What is signed determines the agent and the conditions. *)
Lemma preimage_injective agent conditions agent' conditions' :
  pk_ok agent → pk_ok agent' → build_preimage agent conditions = build_preimage agent' conditions' →
  agent = agent' ∧ conditions = conditions'.
Proof using L.
  unfold build_preimage. intros Ha Ha' E.
  change ((?p +:+ ?a) = (?p +:+ ?b)) with (String.append p a = String.append p b) in E.
  assert (∀ p a b, p +:+ a = p +:+ b → a = b) as Hinj.
  { clear. induction p as [|c p IH]; intros a b; [done|]. rewrite !append_cons. intros [= E]. by apply IH. }
  apply Hinj in E. apply (f_equal (split_once ":")) in E.
  assert (∀ pk c, split_once ":" (oa_pk_to_hex pk +:+ ":" +:+ c) = Some (oa_pk_to_hex pk, c)) as Hs.
  { intros pk c. change (":" +:+ c) with (String ":" c). apply split_once_app.
    eapply str_all_contains; [apply (oa_pk_hex pk)|done]. }
  rewrite !Hs in E. injection E as E ->. split; [|done].
  apply (f_equal oa_pk_from_hex) in E. rewrite !oa_pk_roundtrip in E by done. by injection E.
Qed.

(** The tag [compute_auth_tag] writes. *)
Definition tag_values (owner : PublicKey) (conditions : string) (sig : oa_sig) : list string :=
  ["auth"; oa_pk_to_hex owner; conditions; sig_to_string sig].

Lemma compute_auth_tag_ok owner agent conditions :
  oa_public_key owner ≠ agent → validate_conditions conditions = Ok tt →
  compute_auth_tag owner agent conditions =
    Ok (oa_print (JArray (map JString (tag_values (oa_public_key owner) conditions
      (sign_schnorr owner (hash_preimage (build_preimage agent conditions))))))).
Proof using.
  intros Hne Hc. unfold compute_auth_tag. rewrite decide_False by done. by rewrite Hc.
Qed.

(** An attestation an owner computes is accepted for that agent and names the owner,
    whatever valid conditions it carries; parsing it gives back its fields. *)
Theorem auth_tag_roundtrip owner agent conditions :
  oa_public_key owner ≠ agent → validate_conditions conditions = Ok tt →
  ∃ tag, compute_auth_tag owner agent conditions = Ok tag ∧
    verify_auth_tag tag agent = Ok (oa_public_key owner) ∧
    parse_auth_tag tag = Ok (tag_values (oa_public_key owner) conditions
      (sign_schnorr owner (hash_preimage (build_preimage agent conditions)))).
Proof using L.
  intros Hne Hc. eexists. split; [by apply compute_auth_tag_ok|].
  unfold verify_auth_tag, parse_auth_tag, parse_json_array. rewrite oa_json_strings.
  cbn [map tag_values as_str]. rewrite decide_False by (by intros []).
  rewrite oa_pk_roundtrip by apply oa_public_key_ok. rewrite Hc, oa_sig_roundtrip. rewrite decide_False by done. split.
  - destruct (oa_sign_verify owner (hash_preimage (build_preimage agent conditions))) as (x & -> & ->). done.
  - destruct (oa_pk_hex (oa_public_key owner)) as [Hl Hx].
    destruct (oa_sig_hex (sign_schnorr owner (hash_preimage (build_preimage agent conditions)))) as [Hl' Hx'].
    rewrite Hl, Hx, Hl', Hx'. done.
Qed.

(** Acceptance, exactly: four strings, the first [auth], well-formed conditions, an
    owner other than the agent, and a signature of the owner over this agent and these
    conditions. *)
Lemma verify_auth_tag_spec tag agent owner :
  verify_auth_tag tag agent = Ok owner ↔
  ∃ hex conditions sig_hex sig x,
    oa_parse tag = Some (JArray [JString "auth"; JString hex; JString conditions; JString sig_hex]) ∧
    oa_pk_from_hex hex = Some owner ∧ validate_conditions conditions = Ok tt ∧ owner ≠ agent ∧
    sig_from_str sig_hex = Some sig ∧ xonly owner = Some x ∧
    verify_schnorr sig (hash_preimage (build_preimage agent conditions)) x = true.
Proof using.
  unfold verify_auth_tag, parse_json_array. split.
  - destruct (oa_parse tag) as [[| | | |arr|]|]; try done.
    destruct arr as [|a0 [|a1 [|a2 [|a3 [|]]]]]; try done.
    destruct a0 as [| | |label| |]; try done. cbn [as_str]. destruct (decide (label ≠ "auth")) as [|Hl]; [done|].
    destruct a1 as [| | |hex| |]; try done. destruct a2 as [| | |c| |]; try done.
    destruct a3 as [| | |sh| |]; try done. cbn [as_str].
    destruct (oa_pk_from_hex hex) as [o|] eqn:Ho; [|done].
    destruct (validate_conditions c) as [[]|] eqn:Hc; [|done]. destruct (decide (o = agent)); [done|].
    destruct (sig_from_str sh) as [s|] eqn:Hs; [|done]. destruct (xonly o) as [x|] eqn:Hx; [|done].
    destruct (verify_schnorr s _ x) eqn:Hv; [|done]. intros [= <-].
    apply dec_stable in Hl as ->. eauto 15.
  - intros (hex & c & sh & s & x & -> & Ho & Hc & Hne & Hs & Hx & Hv). cbn [as_str].
    rewrite decide_False by (by intros []). rewrite Ho, Hc, Hs, Hx, Hv. by rewrite decide_False.
Qed.

End attest.

(** ** An instance *)

Module ToyOa.
Import MeshWireDemo.

(** A text for a list of strings: a plus sign before every character and a minus
    sign after every string. *)
Fixpoint enc_string (s r : string) : string :=
  match s with EmptyString => String "-" r | String c s => String "+" (String c (enc_string s r)) end.

Definition enc_strings (l : list string) : string := foldr enc_string "" l.

Fixpoint dec_strings (s : string) : option (list string) :=
  match s with
  | EmptyString => Some []
  | String "-" s => l ← dec_strings s; Some ("" :: l)
  | String "+" (String c s) =>
      match dec_strings s with Some (x :: l) => Some (String c x :: l) | _ => None end
  | _ => None
  end.

Lemma dec_enc_strings l : dec_strings (enc_strings l) = Some l.
Proof.
  induction l as [|s l IH]; [done|]. simpl. induction s as [|c s IHs]; simpl; [by rewrite IH|by rewrite IHs].
Qed.

Definition strings_of (l : list (Json unit)) : option (list string) :=
  mapM (λ v, match v with JString s => Some s | _ => None end) l.

Definition toy_print (v : Json unit) : string :=
  match v with
  | JArray l => match strings_of l with Some l => enc_strings l | None => "null" end
  | _ => "null"
  end.

Definition toy_parse (s : string) : option (Json unit) :=
  l ← dec_strings s; Some (JArray (map JString l)).

Definition pk256 (n : N) : N := (n `mod` 2 ^ 256)%N.

Definition toy_digest (s : string) : N :=
  foldl (λ h c, pk256 (h * 257 + ascii_code c)) 7%N (String.list_ascii_of_string s).

Definition toy_sign (pk m : N) : N := ((pk + m) `mod` 2 ^ 512)%N.

#[global] Instance toy_oa : OaApi unit := {|
  oa_secret := N;
  oa_public_key := pk256;
  oa_pk_to_hex := λ pk, hex_encode (le_bytes 32 pk);
  oa_pk_from_hex := λ s, b ← hex_decode s; if decide (length b = 32) then Some (le_value b) else None;
  oa_xonly := N;
  xonly := Some;
  oa_sig := N;
  sig_from_str := λ s, b ← hex_decode s; if decide (length b = 64) then Some (le_value b) else None;
  sig_to_string := λ s, hex_encode (le_bytes 64 s);
  oa_digest := N;
  oa_sha256 := toy_digest;
  sign_schnorr := λ sk m, toy_sign (pk256 sk) m;
  verify_schnorr := λ s m x, (s =? toy_sign x m)%N;
  oa_parse := toy_parse;
  oa_print := toy_print
|}.

Lemma pk256_ok n : pk_ok (pk256 n).
Proof. by apply N.mod_lt. Qed.

Lemma le_hex k n :
  (n < 256 ^ N.of_nat k)%N →
  (b ← hex_decode (hex_encode (le_bytes k n)); if decide (length b = k) then Some (le_value b) else None) = Some n.
Proof.
  intros Hn. rewrite hex_decode_encode. simpl. rewrite decide_True by apply le_bytes_length.
  rewrite le_value_bytes. by rewrite N.mod_small.
Qed.

Lemma hex_text_ok k n :
  String.length (hex_encode (le_bytes k n)) = 2 * k ∧ str_all is_hex_char (hex_encode (le_bytes k n)) = true.
Proof.
  rewrite (hex_encode_length (HexLaws:=demo_hex_laws)), le_bytes_length.
  split; [done|]. apply (hex_encode_chars (HexLaws:=demo_hex_laws)).
Qed.

Lemma toy_sign_ok pk m : (toy_sign pk m < 256 ^ N.of_nat 64)%N.
Proof. change (256 ^ N.of_nat 64)%N with (2 ^ 512)%N. by apply N.mod_lt. Qed.

Lemma strings_of_map l : strings_of (map JString l) = Some l.
Proof. unfold strings_of. induction l as [|s l IH]; [done|]. simpl. by rewrite IH. Qed.

#[global] Instance toy_oa_laws : OaLaws toy_oa.
Proof.
  split.
  - exact pk256_ok.
  - intros pk Hpk. apply (le_hex 32). change (256 ^ N.of_nat 32)%N with (2 ^ 256)%N. exact Hpk.
  - intros pk. exact (hex_text_ok 32 pk).
  - intros sk m. apply (le_hex 64), toy_sign_ok.
  - intros s. exact (hex_text_ok 64 s).
  - intros sk m. exists (pk256 sk). split; [done|]. apply N.eqb_refl.
  - intros l. change (toy_parse (toy_print (JArray (map JString l))) = Some (JArray (map JString l))).
    unfold toy_print, toy_parse. rewrite strings_of_map.
    by rewrite dec_enc_strings.
Qed.

End ToyOa.

Module NipOaDemo.
Import ToyOa.

Example spec_conditions : validate_conditions "kind=1&created_at<1713957000" = Ok tt.
Proof. vm_compute. reflexivity. Qed.

Example bad_conditions :
  map (λ s, is_ok (validate_conditions s)) ["kind=01"; "kind=65536"; "kind=1&"; "kind= 1"; "nonce=1"; "created_at<4294967295"]
  = [false; false; false; false; false; true].
Proof. vm_compute. reflexivity. Qed.

Lemma conditions_grammar_witness :
  validate_conditions "kind=1&created_at<1713957000" = Ok tt ∧
  auth_conditions_apply 1 1713957001 "kind=1&created_at<1713957000" = false.
Proof.
  pose proof (conditions_grammar "kind=1&created_at<1713957000") as [Hg Ha].
  split; [apply Hg|].
  - exists [CKind 1; CBefore 1713957000]. split; [repeat constructor; vm_compute; discriminate|vm_compute; reflexivity].
  - assert (conditions_text [CKind 1; CBefore 1713957000] = "kind=1&created_at<1713957000") as <- by (vm_compute; reflexivity).
    rewrite Ha; [reflexivity|]. repeat constructor; vm_compute; discriminate.
Defined.

(** The attestation of owner 5 for agent 9, restricted to events of the past, is
    accepted by a verifier that is given no event and no time. *)
Definition past_tag : string :=
  match compute_auth_tag (H:=toy_oa) 5%N 9%N "created_at<1000" with Ok t => t | Err _ => "" end.

Lemma auth_tag_roundtrip_witness :
  ∃ tag, compute_auth_tag (H:=toy_oa) 5%N 9%N "created_at<1000" = Ok tag ∧
    verify_auth_tag (H:=toy_oa) tag 9%N = Ok 5%N ∧
    parse_auth_tag (H:=toy_oa) tag = Ok (tag_values (api:=toy_oa) 5%N "created_at<1000"
      (sign_schnorr (OaApi:=toy_oa) (5%N : N) (hash_preimage (H:=toy_oa) (build_preimage (H:=toy_oa) 9%N "created_at<1000")))).
Proof.
  apply (auth_tag_roundtrip (api:=toy_oa) (5%N : N) 9%N "created_at<1000"); [vm_compute; discriminate|vm_compute; reflexivity].
Defined.

Example other_agent_refused : is_ok (verify_auth_tag (H:=toy_oa) past_tag 10%N) = false.
Proof. vm_compute. reflexivity. Qed.

End NipOaDemo.
