(* ===== verification/Auth.v ===== *)
(** * Authentication ([buzz-auth/src])

    Scopes and channel access ([scope.rs], [access.rs]), the verification of NIP-42
    and NIP-98 events ([nip42.rs], [nip98.rs]) and [AuthService] ([lib.rs]).  The
    signature check, SHA-256, hex, serde and the URL crate are parameters; the time
    of the check is an argument. *)

From stdpp Require Import base gmap strings list.
From Stdlib Require Import Ascii.
From Stdlib.Strings Require Import Byte.
From S2P Require Import Prelude Text Nostr Tenant MeshWire.

(** ** [scope.rs] *)

Inductive Scope :=
| MessagesRead | MessagesWrite | ChannelsRead | ChannelsWrite | AdminChannels
| UsersRead | UsersWrite | AdminUsers | JobsRead | JobsWrite
| SubscriptionsRead | SubscriptionsWrite | FilesRead | FilesWrite | ReposRead | ReposWrite
| Unknown (s : string).

#[global] Instance scope_eq_dec : EqDecision Scope.
Proof. solve_decision. Defined.

Definition all_known : list Scope :=
  [MessagesRead; MessagesWrite; ChannelsRead; ChannelsWrite; AdminChannels; UsersRead; UsersWrite;
   AdminUsers; JobsRead; JobsWrite; SubscriptionsRead; SubscriptionsWrite; FilesRead; FilesWrite;
   ReposRead; ReposWrite].

Definition all_non_admin : list Scope :=
  [MessagesRead; MessagesWrite; ChannelsRead; ChannelsWrite; UsersRead; UsersWrite; JobsRead; JobsWrite;
   SubscriptionsRead; SubscriptionsWrite; FilesRead; FilesWrite; ReposRead; ReposWrite].

Definition scope_as_str (s : Scope) : string :=
  match s with
  | MessagesRead => "messages:read" | MessagesWrite => "messages:write"
  | ChannelsRead => "channels:read" | ChannelsWrite => "channels:write"
  | AdminChannels => "admin:channels"
  | UsersRead => "users:read" | UsersWrite => "users:write" | AdminUsers => "admin:users"
  | JobsRead => "jobs:read" | JobsWrite => "jobs:write"
  | SubscriptionsRead => "subscriptions:read" | SubscriptionsWrite => "subscriptions:write"
  | FilesRead => "files:read" | FilesWrite => "files:write"
  | ReposRead => "repos:read" | ReposWrite => "repos:write"
  | Unknown s => s
  end.

(** [FromStr]: it cannot fail. *)
Definition scope_from_str (s : string) : Scope :=
  if decide (s = "messages:read") then MessagesRead
  else if decide (s = "messages:write") then MessagesWrite
  else if decide (s = "channels:read") then ChannelsRead
  else if decide (s = "channels:write") then ChannelsWrite
  else if decide (s = "admin:channels") then AdminChannels
  else if decide (s = "users:read") then UsersRead
  else if decide (s = "users:write") then UsersWrite
  else if decide (s = "admin:users") then AdminUsers
  else if decide (s = "jobs:read") then JobsRead
  else if decide (s = "jobs:write") then JobsWrite
  else if decide (s = "subscriptions:read") then SubscriptionsRead
  else if decide (s = "subscriptions:write") then SubscriptionsWrite
  else if decide (s = "files:read") then FilesRead
  else if decide (s = "files:write") then FilesWrite
  else if decide (s = "repos:read") then ReposRead
  else if decide (s = "repos:write") then ReposWrite
  else Unknown s.

Definition parse_scopes (raw : list string) : list Scope := map scope_from_str raw.

(** ** [error.rs] *)

Inductive AuthError :=
| InvalidSignature
| ChallengeMismatch
| RelayUrlMismatch
| EventExpired
| Nip98Invalid (msg : string)
| Nip98Replay
| PubkeyMismatch
| InsufficientScope (required : string) (have : list string)
| ChannelAccessDenied
| Internal (msg : string).

(** ** [access.rs] *)

(** [ChannelAccessChecker]: the channels of the tenant's community the key may
    access.  [can_access] is the provided method. *)
Record ChannelAccessChecker := mkChecker {
  accessible_channel_ids : TenantContext → PublicKey → result AuthError (gset Uuid)
}.

Definition can_access (checker : ChannelAccessChecker) (ctx : TenantContext) (pubkey : PublicKey)
    (channel_id : Uuid) : result AuthError bool :=
  let? ids := accessible_channel_ids checker ctx pubkey in
  Ok (bool_decide (channel_id ∈ ids)).

Definition require_scope (scopes : list Scope) (required : Scope) : result AuthError unit :=
  if decide (required ∈ scopes) then Ok tt
  else Err (InsufficientScope (scope_as_str required) (map scope_as_str scopes)).

Definition check_read_access (checker : ChannelAccessChecker) (ctx : TenantContext) (pubkey : PublicKey)
    (channel_id : Uuid) (scopes : list Scope) : result AuthError unit :=
  let? _ := require_scope scopes MessagesRead in
  let? ok := can_access checker ctx pubkey channel_id in
  if (ok : bool) then Ok tt else Err ChannelAccessDenied.

Definition check_write_access (checker : ChannelAccessChecker) (ctx : TenantContext) (pubkey : PublicKey)
    (channel_id : Uuid) (scopes : list Scope) : result AuthError unit :=
  let? _ := require_scope scopes MessagesWrite in
  let? ok := can_access checker ctx pubkey channel_id in
  if (ok : bool) then Ok tt else Err ChannelAccessDenied.

(** ** Signed events *)

(** [nostr::Event]: the fields and the signature. *)
Record Event := mkSignedEvent { ev : NostrEvent; ev_sig : string }.

(** [Event::verify_id], [Event::verify_signature], [serde_json::from_str::<Event>],
    [Sha256::digest], [str::to_lowercase]. *)
Class AuthApi := {
  verify_id : Event → bool;
  verify_signature : Event → bool;
  event_from_json : string → option Event;
  auth_sha256 : bytes → bytes;
  to_lowercase : string → string
}.

Definition KIND_AUTHENTICATION : Kind := 22242.
Definition KIND_HTTP_AUTH : Kind := 27235.
Definition TIMESTAMP_TOLERANCE_SECS : Z := 60.

(** [u64::abs_diff]. *)
Definition abs_diff (a b : Z) : Z := Z.abs (a - b).

Section auth.
Context `{NostrApi} `{UrlApi} `{AuthApi} `{HexApi}.

(** [buzz_core::verify_event]. *)
Definition verify_event (event : Event) : bool := verify_id event && verify_signature event.

(** [tags.find(kind).and_then(|t| t.content())]. *)
Definition find_tag (kind : string) (event : Event) : option string :=
  match List.find (λ t, bool_decide (tag_kind t = kind)) (ev_tags (ev event)) with
  | Some t => tag_content t
  | None => None
  end.

(** ** [nip42.rs] *)

Definition strip_path (parsed : Url) : string :=
  url_to_string (url_set_path parsed (trim_end_matches "/" (url_path parsed))).

Definition normalize_relay_url (raw : string) : string :=
  match url_parse raw with
  | None => raw
  | Some parsed =>
      strip_path (match url_host_str parsed with
                  | Some h => if decide (h = "localhost" ∨ h = "::1") then url_set_host parsed "127.0.0.1" else parsed
                  | None => parsed
                  end)
  end.

(** [generate_challenge], from the 32 random bytes. *)
Definition generate_challenge (random : bytes) : string := hex_encode random.

Definition verify_nip42_event (now : Z) (event : Event) (expected_challenge relay_url : string) :
    result AuthError unit :=
  if decide (ev_kind (ev event) ≠ KIND_AUTHENTICATION) then Err InvalidSignature
  else if negb (verify_event event) then Err InvalidSignature
  else
    let? challenge := match find_tag "challenge" event with Some c => Ok c | None => Err ChallengeMismatch end in
    if decide (challenge ≠ expected_challenge) then Err ChallengeMismatch
    else
      let? relay := match find_tag "relay" event with Some r => Ok r | None => Err RelayUrlMismatch end in
      if decide (normalize_relay_url relay ≠ normalize_relay_url relay_url) then Err RelayUrlMismatch
      else if (TIMESTAMP_TOLERANCE_SECS <? abs_diff now (ev_created_at (ev event)))%Z then Err EventExpired
      else Ok tt.

(** ** [nip98.rs] *)

Definition normalize_url (raw : string) : string :=
  match url_parse raw with
  | None => to_lowercase raw
  | Some parsed => strip_path parsed
  end.

(** The last check: with a payload tag and a body, the hash of the body. *)
Definition payload_matches (payload_tag : option string) (body : option bytes) : bool :=
  match payload_tag, body with
  | Some payload_hex, Some body_bytes => bool_decide (hex_encode (auth_sha256 body_bytes) = payload_hex)
  | _, _ => true
  end.

Definition verify_nip98_event (now : Z) (event_json expected_url expected_method : string)
    (body : option bytes) : result AuthError PublicKey :=
  match event_from_json event_json with
  | None => Err (Nip98Invalid "event JSON parse error")
  | Some event =>
      if decide (ev_kind (ev event) ≠ KIND_HTTP_AUTH) then Err (Nip98Invalid "expected kind 27235")
      else if negb (verify_event event) then Err (Nip98Invalid "invalid Schnorr signature")
      else if (TIMESTAMP_TOLERANCE_SECS <? abs_diff now (ev_created_at (ev event)))%Z
      then Err (Nip98Invalid "event timestamp outside window")
      else
        let? u_tag := match find_tag "u" event with
                      | Some u => Ok u | None => Err (Nip98Invalid "missing `u` tag") end in
        if decide (normalize_url u_tag ≠ normalize_url expected_url) then Err (Nip98Invalid "URL mismatch")
        else
          let? method_tag := match find_tag "method" event with
                             | Some m => Ok m | None => Err (Nip98Invalid "missing `method` tag") end in
          if negb (eq_ignore_ascii_case method_tag expected_method) then Err (Nip98Invalid "method mismatch")
          else if negb (payload_matches (find_tag "payload" event) body)
          then Err (Nip98Invalid "payload tag SHA-256 mismatch")
          else Ok (ev_pubkey (ev event))
  end.

(** ** [lib.rs] *)

Inductive AuthMethod := Nip42 | Nip98.

Record AuthContext := mkAuthContext {
  ac_pubkey : PublicKey;
  ac_scopes : list Scope;
  ac_channel_ids : option (list Uuid);
  ac_auth_method : AuthMethod;
  ac_agent_owner_pubkey : option PublicKey
}.

Definition has_scope (ctx : AuthContext) (s : Scope) : bool := bool_decide (s ∈ ac_scopes ctx).

(** [panicked]: the blocking task did not return. *)
Definition verify_auth_event (panicked : bool) (now : Z) (auth_event : Event)
    (expected_challenge relay_url : string) : result AuthError AuthContext :=
  if panicked then Err (Internal "spawn_blocking panicked")
  else
    let? _ := verify_nip42_event now auth_event expected_challenge relay_url in
    Ok (mkAuthContext (ev_pubkey (ev auth_event)) all_known None Nip42 None).

End auth.

(** ** Scopes *)

(** A scope that is not a known one kept as [Unknown]. *)
Definition scope_ok (s : Scope) : Prop :=
  match s with Unknown x => x ∉ map scope_as_str all_known | _ => True end.

(** Parsing and printing a scope lose nothing: every text is printed back, every
    scope a parse produces is well formed, and a well-formed scope is parsed back. *)
Theorem scope_roundtrip :
  (∀ s, scope_as_str (scope_from_str s) = s ∧ scope_ok (scope_from_str s)) ∧
  (∀ sc, scope_ok sc → scope_from_str (scope_as_str sc) = sc).
Proof.
  split.
  - intros s. unfold scope_from_str. repeat (case_decide; [by subst|]). split; [done|].
    simpl. rewrite !not_elem_of_cons. repeat split; try done. apply not_elem_of_nil.
  - intros [] Hok; try reflexivity. simpl in Hok. rewrite !not_elem_of_cons in Hok. destruct_and? Hok.
    unfold scope_from_str, scope_as_str. by rewrite !decide_False.
Qed.

Lemma non_admin_scopes s : s ∈ all_non_admin ↔ s ∈ all_known ∧ s ≠ AdminChannels ∧ s ≠ AdminUsers.
Proof. unfold all_non_admin, all_known. set_solver. Qed.

(** Access needs both the scope and the membership, for reading and for writing. *)
Lemma check_access_spec checker ctx pubkey ch scopes :
  (check_read_access checker ctx pubkey ch scopes = Ok tt ↔
     MessagesRead ∈ scopes ∧ ∃ ids, accessible_channel_ids checker ctx pubkey = Ok ids ∧ ch ∈ ids) ∧
  (check_write_access checker ctx pubkey ch scopes = Ok tt ↔
     MessagesWrite ∈ scopes ∧ ∃ ids, accessible_channel_ids checker ctx pubkey = Ok ids ∧ ch ∈ ids).
Proof.
  unfold check_read_access, check_write_access, require_scope, can_access.
  destruct (accessible_channel_ids checker ctx pubkey) as [ids|e].
  - split; case_decide; try naive_solver; destruct (bool_decide (ch ∈ ids)) eqn:E; breflect; naive_solver.
  - split; case_decide; naive_solver.
Qed.

(** ** What the verifiers accept *)

Section verify.
Context {napi : NostrApi} {uapi : UrlApi} {aapi : AuthApi} {hapi : HexApi}.

(** The time of the check and the event differ by at most a minute. *)
Definition timely (now : Z) (event : Event) : Prop := (abs_diff now (ev_created_at (ev event)) ≤ 60)%Z.

(** A NIP-98 event that authorises this request. *)
Record nip98_ok (now : Z) (event : Event) (url method : string) (body : option bytes) : Prop := {
  n98_kind : ev_kind (ev event) = KIND_HTTP_AUTH;
  n98_signed : verify_event event = true;
  n98_timely : timely now event;
  n98_url : ∃ u, find_tag "u" event = Some u ∧ normalize_url u = normalize_url url;
  n98_method : ∃ m, find_tag "method" event = Some m ∧ to_ascii_lowercase m = to_ascii_lowercase method;
  n98_payload : ∀ h b, find_tag "payload" event = Some h → body = Some b → h = hex_encode (auth_sha256 b)
}.

Lemma timely_test now event :
  (TIMESTAMP_TOLERANCE_SECS <? abs_diff now (ev_created_at (ev event)))%Z = false ↔ timely now event.
Proof. unfold timely, TIMESTAMP_TOLERANCE_SECS. rewrite Z.ltb_ge. done. Qed.

Lemma payload_matches_spec t body :
  payload_matches t body = true ↔ ∀ h b, t = Some h → body = Some b → h = hex_encode (auth_sha256 b).
Proof.
  unfold payload_matches. destruct t as [h|], body as [b|]; try (split; naive_solver).
  rewrite bool_decide_eq_true. split; [naive_solver|intros Ht; symmetry; by apply Ht].
Qed.

(** The HTTP verifier accepts exactly the events that are of kind 27235, signed, no
    more than sixty seconds from the clock, for this URL and method, and whose payload
    tag, when it has a value and the body is known, is the hash of the body; it returns
    the author. *)
Theorem verify_nip98_exact now json url method body pk :
  verify_nip98_event now json url method body = Ok pk ↔
  ∃ event, event_from_json json = Some event ∧ nip98_ok now event url method body ∧ pk = ev_pubkey (ev event).
Proof.
  unfold verify_nip98_event. split.
  - destruct (event_from_json json) as [e|]; [|done].
    destruct (decide (ev_kind (ev e) ≠ KIND_HTTP_AUTH)) as [|Hk]; [done|].
    destruct (verify_event e) eqn:Hv; [|done]. cbn [negb].
    destruct (TIMESTAMP_TOLERANCE_SECS <? _)%Z eqn:Ht; [done|]. apply timely_test in Ht.
    destruct (find_tag "u" e) as [u|] eqn:Hu; [|done].
    destruct (decide (normalize_url u ≠ normalize_url url)) as [|Hn]; [done|].
    destruct (find_tag "method" e) as [m|] eqn:Hm; [|done].
    unfold eq_ignore_ascii_case. destruct (bool_decide _) eqn:Hmm; [|done]. cbn [negb].
    destruct (payload_matches _ body) eqn:Hp; [|done]. intros [= <-].
    exists e. split; [done|]. split; [|done]. apply bool_decide_eq_true_1 in Hmm.
    apply dec_stable in Hk, Hn. split; eauto. by apply payload_matches_spec.
  - intros (e & -> & [Hk Hv Ht (u & Hu & Hn) (m & Hm & Hmm) Hp] & ->).
    rewrite decide_False by auto. rewrite Hv. cbn [negb].
    rewrite (proj2 (timely_test now e) Ht), Hu, decide_False by auto. rewrite Hm.
    unfold eq_ignore_ascii_case. rewrite bool_decide_eq_true_2 by done. cbn [negb].
    by rewrite (proj2 (payload_matches_spec _ _) Hp).
Qed.

(** A NIP-42 event that answers this challenge for this relay. *)
Record nip42_ok (now : Z) (event : Event) (challenge relay_url : string) : Prop := {
  n42_kind : ev_kind (ev event) = KIND_AUTHENTICATION;
  n42_signed : verify_event event = true;
  n42_challenge : find_tag "challenge" event = Some challenge;
  n42_relay : ∃ r, find_tag "relay" event = Some r ∧ normalize_relay_url r = normalize_relay_url relay_url;
  n42_timely : timely now event
}.

Lemma verify_nip42_exact now event challenge relay_url :
  verify_nip42_event now event challenge relay_url = Ok tt ↔ nip42_ok now event challenge relay_url.
Proof.
  unfold verify_nip42_event. split.
  - destruct (decide (ev_kind (ev event) ≠ KIND_AUTHENTICATION)) as [|Hk]; [done|].
    destruct (verify_event event) eqn:Hv; [|done]. cbn [negb].
    destruct (find_tag "challenge" event) as [c|] eqn:Hc; [|done].
    destruct (decide (c ≠ challenge)) as [|Hcc]; [done|].
    destruct (find_tag "relay" event) as [r|] eqn:Hr; [|done].
    destruct (decide (normalize_relay_url r ≠ normalize_relay_url relay_url)) as [|Hn]; [done|].
    destruct (TIMESTAMP_TOLERANCE_SECS <? _)%Z eqn:Ht; [done|]. apply timely_test in Ht. intros _.
    apply dec_stable in Hk, Hcc, Hn. subst c. split; eauto.
  - intros [Hk Hv Hc (r & Hr & Hn) Ht]. rewrite decide_False by auto. rewrite Hv. cbn [negb].
    rewrite Hc, decide_False by auto. rewrite Hr, decide_False by auto.
    by rewrite (proj2 (timely_test now event) Ht).
Qed.

Lemma verify_auth_event_Ok panicked now event challenge relay_url ctx :
  verify_auth_event panicked now event challenge relay_url = Ok ctx ↔
  panicked = false ∧ nip42_ok now event challenge relay_url ∧
  ctx = mkAuthContext (ev_pubkey (ev event)) all_known None Nip42 None.
Proof.
  unfold verify_auth_event. destruct panicked; [naive_solver|]. rewrite <-verify_nip42_exact.
  destruct (verify_nip42_event _ _ _ _) as [[]|e]; [|naive_solver]. split; [by intros [= <-]|].
  by intros (_ & _ & ->).
Qed.

End verify.

(** ** Signed events are bound to one tenant *)

(** A tenant whose host is a plain authority. *)
Definition plain_tenant (t : TenantContext) : Prop :=
  ∃ d p, plain_domain d = true ∧ plain_port p ∧ host t = authority_text d p.

Section tenant.
Context {napi : NostrApi} {uapi : UrlApi} {UL : UrlLaws uapi} {aapi : AuthApi} {hapi : HexApi}.

Lemma strip_path_host u v :
  strip_path u = strip_path v → url_host u = url_host v ∧ url_port u = url_port v.
Proof using UL.
  unfold strip_path. intros E%url_to_string_host.
  destruct (url_set_path_host u (trim_end_matches "/" (url_path u))) as [Hu Hu'].
  destruct (url_set_path_host v (trim_end_matches "/" (url_path v))) as [Hv Hv'].
  rewrite Hu, Hu', Hv, Hv' in E. done.
Qed.

Lemma expected_url_parse cfg d p path t :
  plain_domain d = true → plain_port p → http_path path → host t = authority_text d p →
  ∃ u, url_parse (nip98_expected_url cfg t path) = Some u ∧ url_host u = Some (Domain d) ∧ url_port u = p.
Proof using UL.
  intros Hd Hp Hpath Ht. unfold nip98_expected_url. rewrite Ht.
  apply url_parse_plain; [|done..]. case_match; set_solver.
Qed.

(** Expected URLs that normalise alike name the same host. *)
Lemma normalize_url_host cfg1 cfg2 t1 t2 p1 p2 :
  plain_tenant t1 → plain_tenant t2 → http_path p1 → http_path p2 →
  normalize_url (nip98_expected_url cfg1 t1 p1) = normalize_url (nip98_expected_url cfg2 t2 p2) →
  host t1 = host t2.
Proof using UL.
  intros (d1 & q1 & Hd1 & Hq1 & E1) (d2 & q2 & Hd2 & Hq2 & E2) Hp1 Hp2. unfold normalize_url.
  destruct (expected_url_parse cfg1 d1 q1 p1 t1) as (u1 & -> & Hh1 & Hport1); [done..|].
  destruct (expected_url_parse cfg2 d2 q2 p2 t2) as (u2 & -> & Hh2 & Hport2); [done..|].
  intros [Eh Ep]%strip_path_host. rewrite E1, E2. congruence.
Qed.

(** A signed HTTP event is good for one tenant: if it is accepted for requests to two
    tenants, at any times, paths, methods and bodies, their hosts are equal. *)
Theorem nip98_binds_tenant now1 now2 json cfg1 cfg2 t1 t2 p1 p2 m1 m2 b1 b2 pk1 pk2 :
  plain_tenant t1 → plain_tenant t2 → http_path p1 → http_path p2 →
  verify_nip98_event now1 json (nip98_expected_url cfg1 t1 p1) m1 b1 = Ok pk1 →
  verify_nip98_event now2 json (nip98_expected_url cfg2 t2 p2) m2 b2 = Ok pk2 →
  host t1 = host t2.
Proof using UL.
  rewrite !verify_nip98_exact. intros Ht1 Ht2 Hp1 Hp2 (e & He & H1 & _) (e' & He' & H2 & _).
  rewrite He in He'. injection He' as <-.
  destruct (n98_url _ _ _ _ _ H1) as (u & Hu & En). destruct (n98_url _ _ _ _ _ H2) as (u' & Hu' & En').
  rewrite Hu in Hu'. injection Hu' as <-. apply (normalize_url_host cfg1 cfg2 t1 t2 p1 p2); congruence.
Qed.

(** The loopback alias of the WebSocket verifier. *)
Definition relay_host (d : string) : Host := if decide (d = "localhost") then Ipv4 "127.0.0.1" else Domain d.

Lemma relay_host_inj d1 d2 : relay_host d1 = relay_host d2 → d1 = d2.
Proof using. unfold relay_host. repeat case_decide; congruence. Qed.

Lemma normalize_relay_host cfg t d p :
  plain_domain d = true → plain_port p → host t = authority_text d p →
  ∃ u, normalize_relay_url (nip42_expected_relay_url cfg t) = strip_path u ∧
       url_host u = Some (relay_host d) ∧ url_port u = p.
Proof using UL.
  intros Hd Hp Ht. unfold normalize_relay_url, nip42_expected_relay_url. rewrite Ht.
  set (s := if starts_with _ _ then "wss" else "ws").
  destruct (url_parse_plain s d p "") as (u & Eu & Hh & Hport); [subst s; case_match; set_solver|done|done|by left|].
  rewrite str_app_nil in Eu. rewrite Eu, url_host_str_text, Hh. simpl. unfold relay_host.
  case_decide as Hc.
  - exists (url_set_host u "127.0.0.1"). split; [done|].
    destruct (url_set_loopback u _ Hh) as [Hset ->]. split; [|done].
    destruct Hc as [-> | ->]; [by rewrite decide_True|done].
  - exists u. split; [done|]. rewrite decide_False by tauto. done.
Qed.

(** The same for the WebSocket: an AUTH event accepted on connections of two tenants
    was signed for one host. *)
Lemma nip42_binds_tenant now1 now2 event cfg1 cfg2 t1 t2 c1 c2 :
  plain_tenant t1 → plain_tenant t2 →
  verify_nip42_event now1 event c1 (nip42_expected_relay_url cfg1 t1) = Ok tt →
  verify_nip42_event now2 event c2 (nip42_expected_relay_url cfg2 t2) = Ok tt →
  host t1 = host t2 ∧ c1 = c2.
Proof using UL.
  rewrite !verify_nip42_exact. intros (d1 & q1 & Hd1 & Hq1 & E1) (d2 & q2 & Hd2 & Hq2 & E2) H1 H2.
  split; [|pose proof (n42_challenge _ _ _ _ H1); pose proof (n42_challenge _ _ _ _ H2); congruence].
  destruct (n42_relay _ _ _ _ H1) as (r & Hr & En). destruct (n42_relay _ _ _ _ H2) as (r' & Hr' & En').
  rewrite Hr in Hr'. injection Hr' as <-. rewrite En in En'.
  destruct (normalize_relay_host cfg1 t1 d1 q1) as (u1 & Eu1 & Hh1 & Hp1); [done..|].
  destruct (normalize_relay_host cfg2 t2 d2 q2) as (u2 & Eu2 & Hh2 & Hp2); [done..|].
  rewrite Eu1, Eu2 in En'. apply strip_path_host in En' as [Eh Ep].
  rewrite Hh1, Hh2 in Eh. injection Eh as Eh%relay_host_inj. rewrite E1, E2. congruence.
Qed.

(** An IPv6 loopback host is not aliased: its text has brackets. *)
Lemma ipv6_loopback_not_aliased raw u :
  url_parse raw = Some u → url_host u = Some (Ipv6 "::1") → normalize_relay_url raw = strip_path u.
Proof using UL.
  intros Hp Hh. unfold normalize_relay_url. by rewrite Hp, url_host_str_text, Hh.
Qed.

End tenant.

(** ** An instance *)

Module AuthDemo.
Import ToyUrl MeshWireDemo.

(** An event of key 5 whose payload tag has no value. *)
Definition http_event : Event :=
  mkSignedEvent (mkEvent 77 5 1000 KIND_HTTP_AUTH
    [["u"; "https://relay.example/events"]; ["method"; "post"]; ["payload"]] "") "sig".

Definition auth_event : Event :=
  mkSignedEvent (mkEvent 78 5 1000 KIND_AUTHENTICATION
    [["challenge"; "c0ffee"]; ["relay"; "wss://relay.example"]] "") "sig".

#[global] Instance toy_auth : AuthApi := {|
  verify_id := λ _, true;
  verify_signature := λ e, bool_decide (ev_sig e = "sig");
  event_from_json := λ s, if decide (s = "http_event") then Some http_event
                          else if decide (s = "auth_event") then Some auth_event else None;
  auth_sha256 := λ b, b;
  to_lowercase := to_ascii_lowercase
|}.

Definition tenant : TenantContext := mkTenant 7 "relay.example".

Lemma tenant_plain : plain_tenant tenant.
Proof. by exists "relay.example", None. Qed.

Lemma nip98_binds_tenant_witness : host tenant = host (mkTenant 7 "relay.example").
Proof.
  apply (nip98_binds_tenant (napi:=demo_api) (uapi:=toy_url_api) (aapi:=toy_auth) (hapi:=demo_hex)
           1000 1060 "http_event" "wss://a" "wss://b" tenant (mkTenant 7 "relay.example")
           "/events" "/events/" "POST" "Post" None (Some [x01]) 5%N 5%N).
  - apply tenant_plain.
  - by exists "relay.example", None.
  - by right.
  - by right.
  - vm_compute. reflexivity.
  - vm_compute. reflexivity.
Defined.

Example other_path_refused :
  is_ok (verify_nip98_event 1000 "http_event" (nip98_expected_url "wss://a" tenant "/query") "POST" None) = false.
Proof. vm_compute. reflexivity. Qed.

Example websocket_accepts :
  verify_nip42_event 940 auth_event "c0ffee" (nip42_expected_relay_url "wss://a" tenant) = Ok tt.
Proof. vm_compute. reflexivity. Qed.

Example too_late : verify_nip42_event 1061 auth_event "c0ffee" "wss://relay.example" = Err EventExpired.
Proof. vm_compute. reflexivity. Qed.

End AuthDemo.
