(* ===== verification/Topics.v ===== *)
(** * Community-scoped event topics ([buzz-pubsub/src/topic.rs], [lib.rs], [subscriber.rs])

    A relay process keeps a reference count per event topic ([desired_topics]) and one
    task that holds the Redis subscriptions.  [retain_topic] and [release_topic] change
    the counts and send commands to the task; the task subscribes, unsubscribes, and
    after a lost connection starts again from the counts.  The counts' mutex, the
    command channel and the Redis connection are shared: the file models their steps and
    any interleaving of them ([topic_run]).

    [uuid] parsing, JSON of events and the Redis server are outside the code: parsing is
    the class [UuidParse], an event's JSON the class [AuthApi], and the server is the
    set of channels subscribed on the current connection ([wire]). *)

From stdpp Require Import base gmap strings list relations.
From Stdlib Require Import Ascii.
From S2P Require Import Prelude Nostr Tenant Auth.

(** [Uuid::parse_str]: the text a UUID prints as is parsed back. *)
Class UuidParse := parse_uuid : string → option Uuid.
Class UuidParseLaws (napi : NostrApi) (api : UuidParse) :=
  parse_uuid_to_string : ∀ u, parse_uuid (uuid_to_string u) = Some u.

Definition BUZZ_PREFIX : string := "buzz".

(** ** [topic.rs] *)

Inductive EventTopic := Channel (id : Uuid) | Global.

Record EventTopicKey := mkTopicKey { tk_community : CommunityId; tk_topic : EventTopic }.

#[global] Instance event_topic_eq_dec : EqDecision EventTopic.
Proof. solve_decision. Defined.
#[global] Instance event_topic_countable : Countable EventTopic.
Proof.
  refine (inj_countable' (λ t, match t with Channel id => Some id | Global => None end)
                         (λ o, match o with Some id => Channel id | None => Global end) _).
  by intros [].
Defined.
#[global] Instance topic_key_eq_dec : EqDecision EventTopicKey.
Proof. solve_decision. Defined.
#[global] Instance topic_key_countable : Countable EventTopicKey.
Proof.
  refine (inj_countable' (λ k, (tk_community k, tk_topic k)) (λ p, mkTopicKey p.1 p.2) _).
  by intros [].
Defined.

Inductive PubSubError := InvalidChannelKey (channel : string).

Section keys.
Context `{NostrApi} `{UuidParse}.

Definition from_context (ctx : TenantContext) (topic : EventTopic) : EventTopicKey :=
  mkTopicKey (community ctx) topic.

Definition redis_channel (k : EventTopicKey) : string :=
  match tk_topic k with
  | Channel id => BUZZ_PREFIX +:+ ":" +:+ uuid_to_string (tk_community k) +:+ ":channel:" +:+ uuid_to_string id
  | Global => BUZZ_PREFIX +:+ ":" +:+ uuid_to_string (tk_community k) +:+ ":global"
  end.

(** The scope and what follows it, as the remaining pieces. *)
Definition parse_scope (scope : string) (rest : list string) : option EventTopic :=
  if decide (scope = "global") then match rest with [] => Some Global | _ => None end
  else if decide (scope = "channel") then
    match rest with
    | [channel_id] => Channel <$> parse_uuid channel_id
    | _ => None
    end
  else None.

Definition parse_redis_channel (channel : string) : result PubSubError EventTopicKey :=
  let invalid := Err (InvalidChannelKey channel) in
  match split_on ":" channel with
  | prefix :: parts =>
      if decide (prefix ≠ BUZZ_PREFIX) then invalid
      else match parts with
           | comm :: parts =>
               match parse_uuid comm with
               | None => invalid
               | Some community_id =>
                   match parts with
                   | scope :: rest =>
                       match parse_scope scope rest with
                       | Some topic => Ok (mkTopicKey community_id topic)
                       | None => invalid
                       end
                   | [] => invalid
                   end
               end
           | [] => invalid
           end
  | [] => invalid
  end.

Definition channel_key (ctx : TenantContext) (channel_id : Uuid) : string :=
  redis_channel (from_context ctx (Channel channel_id)).
Definition global_key (ctx : TenantContext) : string := redis_channel (from_context ctx Global).

(** [conn_control.rs], [cache_invalidation.rs]: one channel of each per community. *)
Definition CONN_CONTROL_SUFFIX : string := "conn-control".
Definition CACHE_INVALIDATION_SUFFIX : string := "cache-invalidate".

Definition conn_control_channel (ctx : TenantContext) : string :=
  BUZZ_PREFIX +:+ ":" +:+ uuid_to_string (community ctx) +:+ ":" +:+ CONN_CONTROL_SUFFIX.
Definition cache_invalidation_channel (ctx : TenantContext) : string :=
  BUZZ_PREFIX +:+ ":" +:+ uuid_to_string (community ctx) +:+ ":" +:+ CACHE_INVALIDATION_SUFFIX.

Definition parse_suffix_channel (suffix channel : string) : option CommunityId :=
  match split_on ":" channel with
  | [prefix; comm; s] =>
      if decide (prefix ≠ BUZZ_PREFIX) then None
      else match parse_uuid comm with
           | Some community_id => if decide (s ≠ suffix) then None else Some community_id
           | None => None
           end
  | _ => None
  end.

Definition parse_conn_control_channel : string → option CommunityId :=
  parse_suffix_channel CONN_CONTROL_SUFFIX.
Definition parse_cache_invalidation_channel : string → option CommunityId :=
  parse_suffix_channel CACHE_INVALIDATION_SUFFIX.

End keys.

(** ** Reference counts ([lib.rs])

    The count of a topic changes under the mutex; the reply says whether the caller has
    to send a command. *)

Abbreviation DesiredTopics := (gmap EventTopicKey N) (only parsing).

Definition retain_topic (k : EventTopicKey) (desired : DesiredTopics) : bool * DesiredTopics :=
  let count := default 0%N (desired !! k) in
  ((count =? 0)%N, <[k := (count + 1)%N]> desired).

(** Releasing a topic that is not retained is logged and does nothing. *)
Definition release_topic (k : EventTopicKey) (desired : DesiredTopics) : bool * DesiredTopics :=
  match desired !! k with
  | None => (false, desired)
  | Some count =>
      let count := (count - 1)%N in
      if (count =? 0)%N then (true, delete k desired) else (false, <[k := count]> desired)
  end.

Definition desired_refcount (desired : DesiredTopics) (k : EventTopicKey) : N :=
  default 0%N (desired !! k).

(** ** The subscriber task ([subscriber.rs]) *)

Definition BACKOFF_INITIAL_SECS : N := 1.
Definition BACKOFF_MAX_SECS : N := 30.

Inductive SubscriptionCommand :=
| Subscribe (k : EventTopicKey)
| UnsubscribeIfIdle (k : EventTopicKey).

(** A command of the task to Redis, awaited. *)
Inductive SinkCall := SinkSubscribe (channel : string) | SinkUnsubscribe (channel : string).

Record ChannelEvent := mkChannelEvent { ce_community : CommunityId; ce_topic : EventTopic; ce_event : Event }.

Section subscriber.
Context `{NostrApi} `{UuidParse} `{AuthApi} `{!MapIter EventTopicKey}.

(** One turn of [run_subscriber]: the seconds slept after a connection that ended
    cleanly or in an error, and the next value of the backoff. *)
Definition reconnect_delay (clean : bool) (backoff_secs : N) : N * N :=
  let backoff_secs := if clean then BACKOFF_INITIAL_SECS else backoff_secs in
  (backoff_secs, N.min (backoff_secs * 2) BACKOFF_MAX_SECS).

(** The topics to subscribe on a new connection. *)
Definition initial_topics (desired : DesiredTopics) : list EventTopicKey :=
  omap (λ e, if (0 <? e.2)%N then Some e.1 else None) (hiter desired).

(** The task's answer to a command: the set of active channels and what to ask Redis. *)
Definition handle_command (desired : DesiredTopics) (active_topics : gset string)
    (command : SubscriptionCommand) : gset string * option SinkCall :=
  match command with
  | Subscribe topic =>
      let channel := redis_channel topic in
      if decide (channel ∈ active_topics) then (active_topics, None)
      else ({[channel]} ∪ active_topics, Some (SinkSubscribe channel))
  | UnsubscribeIfIdle topic =>
      if (desired_refcount desired topic =? 0)%N then
        let channel := redis_channel topic in
        if decide (channel ∈ active_topics)
        then (active_topics ∖ {[channel]}, Some (SinkUnsubscribe channel))
        else (active_topics, None)
      else (active_topics, None)
  end.

(** A message of the stream: what is broadcast to the local connections, if anything.
    [payload] is [None] when it is not text. *)
Definition forward_message (channel_name : string) (payload : option string) : option ChannelEvent :=
  match payload with
  | None => None
  | Some payload =>
      match parse_redis_channel channel_name with
      | Err _ => None
      | Ok topic_key =>
          match event_from_json payload with
          | None => None
          | Some event => Some (mkChannelEvent (tk_community topic_key) (tk_topic topic_key) event)
          end
      end
  end.

End subscriber.

(** ** Interleaving

    [sending] are the commands of retains and of woken debounce timers that are not yet
    in the channel, [sleeping] the timers, [queue] the channel of 4096 commands. *)

Inductive Link :=
| Down
| Connecting (todo : list EventTopicKey) (active_topics : gset string)
| Serving (active_topics : gset string)
| Calling (call : SinkCall) (active_topics : gset string).

Record TopicWorld := mkTopics {
  desired : DesiredTopics;
  sending : list SubscriptionCommand;
  sleeping : list EventTopicKey;
  queue : list SubscriptionCommand;
  link : Link;
  wire : gset string
}.

Definition COMMAND_CAPACITY : nat := 4096.

Definition topics_init : TopicWorld := mkTopics ∅ [] [] [] Down ∅.

Definition do_retain (k : EventTopicKey) (w : TopicWorld) : TopicWorld :=
  let '(should_subscribe, d) := retain_topic k (desired w) in
  mkTopics d (if should_subscribe then Subscribe k :: sending w else sending w)
    (sleeping w) (queue w) (link w) (wire w).

Definition do_release (k : EventTopicKey) (w : TopicWorld) : TopicWorld :=
  let '(became_zero, d) := release_topic k (desired w) in
  mkTopics d (sending w) (if became_zero then k :: sleeping w else sleeping w)
    (queue w) (link w) (wire w).

(** The set of subscribed channels after Redis confirmed a call. *)
Definition confirm (call : SinkCall) (wire : gset string) : gset string :=
  match call with SinkSubscribe c => {[c]} ∪ wire | SinkUnsubscribe c => wire ∖ {[c]} end.

Section steps.
Context `{NostrApi} `{UuidParse} `{!MapIter EventTopicKey}.

(** What the timers, the channel and the task do by themselves while Redis answers. *)
Inductive topic_internal : TopicWorld → TopicWorld → Prop :=
| ti_wake d s sl1 k sl2 q l w :
    topic_internal (mkTopics d s (sl1 ++ k :: sl2) q l w)
                   (mkTopics d (UnsubscribeIfIdle k :: s) (sl1 ++ sl2) q l w)
| ti_send d s1 c s2 sl q l w : length q < COMMAND_CAPACITY →
    topic_internal (mkTopics d (s1 ++ c :: s2) sl q l w)
                   (mkTopics d (s1 ++ s2) sl (q ++ [c]) l w)
| ti_connect d s sl q w :
    topic_internal (mkTopics d s sl q Down w) (mkTopics d s sl q (Connecting (initial_topics d) ∅) ∅)
| ti_connecting d s sl q k ks a w :
    topic_internal (mkTopics d s sl q (Connecting (k :: ks) a) w)
                   (mkTopics d s sl q (Connecting ks ({[redis_channel k]} ∪ a)) (confirm (SinkSubscribe (redis_channel k)) w))
| ti_connected d s sl q a w :
    topic_internal (mkTopics d s sl q (Connecting [] a) w) (mkTopics d s sl q (Serving a) w)
| ti_command d s sl c q a a' call w : handle_command d a c = (a', call) →
    topic_internal (mkTopics d s sl (c :: q) (Serving a) w)
                   (mkTopics d s sl q (match call with Some x => Calling x a' | None => Serving a' end) w)
| ti_confirmed d s sl q call a w :
    topic_internal (mkTopics d s sl q (Calling call a) w) (mkTopics d s sl q (Serving a) (confirm call w)).

(** The connection fails, at any moment. *)
Definition do_lose (w : TopicWorld) : TopicWorld := mkTopics (desired w) (sending w) (sleeping w) (queue w) Down ∅.

(** What the relay asks for, and the worlds it may be in after that. *)
Inductive TopicOp := Retain (k : EventTopicKey) | Release (k : EventTopicKey).

Inductive topic_run : list TopicOp → TopicWorld → Prop :=
| topic_start : topic_run [] topics_init
| topic_retain ops w k : topic_run ops w → topic_run (ops ++ [Retain k]) (do_retain k w)
| topic_release ops w k : topic_run ops w → topic_run (ops ++ [Release k]) (do_release k w)
| topic_int ops w w' : topic_run ops w → topic_internal w w' → topic_run ops w'
| topic_lost ops w : topic_run ops w → topic_run ops (do_lose w).

(** How often a topic is held: retained and not yet released.  A release of a topic that
    is not held does nothing. *)
Definition held_step (k : EventTopicKey) (n : N) (op : TopicOp) : N :=
  match op with
  | Retain j => if decide (k = j) then n + 1 else n
  | Release j => if decide (k = j) then n - 1 else n
  end.
Definition held (ops : list TopicOp) (k : EventTopicKey) : N := foldl (held_step k) 0%N ops.

End steps.

(** ** Channel names *)

Section names.
Context {napi : NostrApi} {UL : UuidLaws napi} {papi : UuidParse} {PL : UuidParseLaws napi papi}.

Lemma split_prefix c comm tail :
  split_on ":" (BUZZ_PREFIX +:+ String ":" (uuid_to_string comm +:+ String ":" (c +:+ tail))) =
  BUZZ_PREFIX :: uuid_to_string comm :: split_on ":" (c +:+ tail).
Proof using UL.
  rewrite split_on_app by reflexivity. f_equal. rewrite split_on_app by apply uuid_no_colon. done.
Qed.

(** The pieces of a topic's channel name. *)
Lemma split_redis_channel k :
  split_on ":" (redis_channel k) =
    BUZZ_PREFIX :: uuid_to_string (tk_community k) ::
      match tk_topic k with Channel id => ["channel"; uuid_to_string id] | Global => ["global"] end.
Proof using UL.
  destruct k as [comm [id|]].
  - transitivity (split_on ":" (BUZZ_PREFIX +:+ String ":" (uuid_to_string comm +:+
      String ":" ("channel" +:+ String ":" (uuid_to_string id))))); [reflexivity|].
    rewrite split_prefix, split_on_app by reflexivity.
    by rewrite (split_on_no_sep _ (uuid_to_string id)) by apply uuid_no_colon.
  - transitivity (split_on ":" (BUZZ_PREFIX +:+ String ":" (uuid_to_string comm +:+
      String ":" ("global" +:+ "")))); [reflexivity|]. by rewrite split_prefix.
Qed.

Lemma parse_channel_ok k : parse_redis_channel (redis_channel k) = Ok k.
Proof using UL PL.
  unfold parse_redis_channel. rewrite split_redis_channel, decide_False by (by intros []).
  rewrite parse_uuid_to_string. destruct k as [comm [id|]]; [|reflexivity].
  unfold parse_scope. simpl tk_topic. cbv beta iota. rewrite decide_False, decide_True by done.
  by rewrite parse_uuid_to_string.
Qed.

Lemma redis_channel_inj k k' : redis_channel k = redis_channel k' → k = k'.
Proof using UL PL.
  intros E. pose proof (parse_channel_ok k) as H1. rewrite E, parse_channel_ok in H1. by injection H1.
Qed.

(** The three families of channels of a process do not overlap, and each name gives
    back its community. *)
Lemma control_channels ctx :
  parse_conn_control_channel (conn_control_channel ctx) = Some (community ctx) ∧
  parse_cache_invalidation_channel (cache_invalidation_channel ctx) = Some (community ctx) ∧
  parse_conn_control_channel (cache_invalidation_channel ctx) = None ∧
  parse_cache_invalidation_channel (conn_control_channel ctx) = None ∧
  ∀ k, parse_conn_control_channel (redis_channel k) = None ∧
       parse_cache_invalidation_channel (redis_channel k) = None.
Proof using UL PL.
  assert (∀ p s, str_contains ":" s = false →
    parse_suffix_channel p (BUZZ_PREFIX +:+ ":" +:+ uuid_to_string (community ctx) +:+ ":" +:+ s) =
      if decide (s ≠ p) then None else Some (community ctx)) as Hp.
  { intros p s Hc. unfold parse_suffix_channel.
    pose proof (split_prefix s (community ctx) "") as E. rewrite str_app_nil, (split_on_no_sep _ s) in E by done.
    change (":" +:+ uuid_to_string (community ctx) +:+ ":" +:+ s)
      with (String ":" (uuid_to_string (community ctx) +:+ String ":" s)).
    rewrite E, decide_False by (by intros []). by rewrite parse_uuid_to_string. }
  assert (∀ k p, p ≠ "global" → parse_suffix_channel p (redis_channel k) = None) as Hk.
  { intros k p Hne. unfold parse_suffix_channel. rewrite split_redis_channel. destruct k as [comm [id|]]; cbn [tk_topic tk_community]; [done|].
    rewrite decide_False by (by intros []). rewrite parse_uuid_to_string, decide_True by done. done. }
  unfold parse_conn_control_channel, parse_cache_invalidation_channel.
  unfold conn_control_channel, cache_invalidation_channel. rewrite !Hp by reflexivity.
  split_and!; [by rewrite decide_False by (intros []; done)..|by rewrite decide_True by done|by rewrite decide_True by done|].
  intros k. split; by apply Hk.
Qed.

End names.

(** ** No desired topic is missed *)

Section cover.
Context {napi : NostrApi} {UL : UuidLaws napi} {papi : UuidParse} {PL : UuidParseLaws napi papi}.
Context {MI : MapIter EventTopicKey}.

(** The subscription of [k] exists on the task's side. *)
Definition linked (l : Link) (k : EventTopicKey) : Prop :=
  match l with
  | Down => True
  | Connecting todo active => k ∈ todo ∨ redis_channel k ∈ active
  | Serving active | Calling _ active => redis_channel k ∈ active
  end.

(** Or the command for it is on its way. *)
Definition announced (w : TopicWorld) (k : EventTopicKey) : Prop :=
  Subscribe k ∈ queue w ∨ Subscribe k ∈ sending w.

(** What the task believes is subscribed is, up to the call it waits for. *)
Definition wire_ok (l : Link) (wire : gset string) : Prop :=
  match l with
  | Down => wire = ∅
  | Connecting _ active | Serving active => wire = active
  | Calling (SinkSubscribe c) active => c ∈ active ∧ wire = active ∖ {[c]}
  | Calling (SinkUnsubscribe c) active => c ∉ active ∧ wire = {[c]} ∪ active
  end.

Record topics_ok (w : TopicWorld) : Prop := {
  tok_positive : map_Forall (λ _ n, 0 < n)%N (desired w);
  tok_cover : ∀ k n, desired w !! k = Some n → linked (link w) k ∨ announced w k;
  tok_wire : wire_ok (link w) (wire w)
}.

Lemma retain_topic_spec k d :
  retain_topic k d = (bool_decide (desired_refcount d k = 0%N), <[k := (desired_refcount d k + 1)%N]> d).
Proof. unfold retain_topic, desired_refcount. by case_bool_decide as E; rewrite ?E; [|apply N.eqb_neq in E as ->]. Qed.

Lemma refcount_retain k k' d :
  desired_refcount (retain_topic k d).2 k' = (desired_refcount d k' + if decide (k' = k) then 1 else 0)%N.
Proof.
  unfold retain_topic, desired_refcount. simpl. destruct (decide (k' = k)) as [->|Hne].
  - by rewrite lookup_insert_eq.
  - rewrite lookup_insert_ne by done. lia.
Qed.

(** A release of a topic that is not retained is lost. *)
Lemma refcount_release k k' d :
  desired_refcount (release_topic k d).2 k' = (desired_refcount d k' - if decide (k' = k) then 1 else 0)%N.
Proof.
  unfold release_topic, desired_refcount. destruct (d !! k) as [n|] eqn:E; simpl.
  - destruct (N.eqb_spec (n - 1) 0) as [E0|E0]; simpl; destruct (decide (k' = k)) as [->|Hne];
      rewrite ?lookup_delete_eq, ?lookup_delete_ne, ?lookup_insert_eq, ?lookup_insert_ne, ?E by done; simpl; lia.
  - destruct (decide (k' = k)) as [->|Hne]; rewrite ?E; simpl; lia.
Qed.

Lemma initial_topics_covers d k n : map_Forall (λ _ n, 0 < n)%N d → d !! k = Some n → k ∈ initial_topics d.
Proof.
  intros Hpos Hk. unfold initial_topics. apply list_elem_of_omap. exists (k, n). split; [by apply elem_of_hiter|].
  simpl. specialize (Hpos _ _ Hk). simpl in Hpos. by rewrite (proj2 (N.ltb_lt 0 n) Hpos).
Qed.

Lemma topics_ok_init : topics_ok topics_init.
Proof. split; [done| |done]. intros k n Hk. simpl in Hk. by rewrite lookup_empty in Hk. Qed.

Lemma topics_ok_retain k w : topics_ok w → topics_ok (do_retain k w).
Proof.
  intros [Hp Hc Hw]. unfold do_retain. rewrite retain_topic_spec. split; simpl; [|..|done].
  - apply map_Forall_insert_2; [lia|done].
  - intros k' n. destruct (decide (k' = k)) as [->|Hne].
    + intros _. unfold announced. simpl. case_bool_decide as E; [right; right; set_solver|].
      unfold desired_refcount in E. destruct (desired w !! k) as [m|] eqn:Em; [|done]. by apply (Hc k m).
    + rewrite lookup_insert_ne by done. intros Hk. destruct (Hc _ _ Hk) as [|[|]]; [by left|right; by left|].
      right. right. simpl. case_bool_decide; set_solver.
Qed.

Lemma topics_ok_release k w : topics_ok w → topics_ok (do_release k w).
Proof.
  intros [Hp Hc Hw]. unfold do_release, release_topic. destruct (desired w !! k) as [m|] eqn:Em; [|by split].
  pose proof (Hp _ _ Em) as Hm. simpl in Hm.
  destruct (N.eqb_spec (m - 1) 0) as [E0|E0]; split; simpl; try done.
  - by apply map_Forall_delete.
  - intros k' n [_ Hk]%lookup_delete_Some. by apply (Hc k' n).
  - apply map_Forall_insert_2; [lia|done].
  - intros k' n [[<- _]|[_ Hk]]%lookup_insert_Some; [by apply (Hc k m)|by apply (Hc k' n)].
Qed.

Lemma handle_command_ok d a c a' call k n :
  handle_command d a c = (a', call) → d !! k = Some n → (0 < n)%N →
  redis_channel k ∈ a ∨ c = Subscribe k → redis_channel k ∈ a'.
Proof using UL PL.
  intros Hh Hk Hn Hor. destruct c as [j|j]; simpl in Hh.
  - case_decide; simplify_eq; destruct Hor as [?|[= ->]]; set_solver.
  - destruct Hor as [Ha|]; [|done]. destruct (N.eqb_spec (desired_refcount d j) 0) as [E|E]; [|by simplify_eq].
    case_decide; simplify_eq; [|done]. apply elem_of_difference. split; [done|].
    intros ->%elem_of_singleton%redis_channel_inj. unfold desired_refcount in E. rewrite Hk in E. simpl in E. lia.
Qed.

Lemma handle_command_wire d a c a' call :
  handle_command d a c = (a', call) →
  wire_ok (match call with Some x => Calling x a' | None => Serving a' end) a.
Proof.
  destruct c as [j|j]; simpl; repeat case_decide; try destruct (_ =? _)%N; repeat case_decide; intros; simplify_eq; simpl; try done.
  - split; [set_solver|]. set_solver.
  - split; [set_solver|]. rewrite <-union_difference_singleton_L; done.
Qed.

Lemma topics_ok_internal w w' : topic_internal w w' → topics_ok w → topics_ok w'.
Proof using UL PL.
  intros Hs [Hp Hc Hw]. unfold announced in *. destruct Hs; simpl in *; split; simpl; try done.
  - intros k' n Hk. destruct (Hc _ _ Hk) as [|[|]]; [by left|right; by left|right; right; set_solver].
  - intros k' n Hk. unfold announced. simpl. destruct (Hc _ _ Hk) as [|[|]]; set_solver.
  - intros k' n Hk. left. left. by eapply initial_topics_covers.
  - intros k' n Hk. destruct (Hc _ _ Hk) as [[Ht|Ha]|]; [|left; right; set_solver|by right].
    apply elem_of_cons in Ht as [->|Ht]; left; [right|left]; set_solver.
  - by rewrite Hw.
  - intros k' n Hk. destruct (Hc _ _ Hk) as [[?%not_elem_of_nil|]|]; [done|by left|by right].
  - intros k' n Hk. pose proof (Hp _ _ Hk) as Hn.
    assert (redis_channel k' ∈ a ∨ c = Subscribe k' ∨ Subscribe k' ∈ q ∨ Subscribe k' ∈ s) as Hor.
    { destruct (Hc _ _ Hk) as [|[[->|]%elem_of_cons|]]; auto. }
    assert (redis_channel k' ∈ a' ∨ Subscribe k' ∈ q ∨ Subscribe k' ∈ s) as [Ha|Hq].
    { destruct Hor as [?|[?|?]]; [left|left|by right]; eapply handle_command_ok; eauto. }
    + left. by destruct call.
    + right. done.
  - rewrite Hw. by eapply handle_command_wire.
  - destruct call as [c|c]; simpl in *; destruct Hw as [Hin ->].
    + by rewrite <-union_difference_singleton_L.
    + set_solver.
Qed.

Lemma topics_ok_lose w : topics_ok w → topics_ok (do_lose w).
Proof. intros [Hp _ _]. split; [done| |done]. intros k n _. by left. Qed.

Lemma internal_desired w w' : topic_internal w w' → desired w' = desired w.
Proof. by destruct 1. Qed.

Lemma run_ok ops w : topic_run ops w → topics_ok w ∧ ∀ k, desired_refcount (desired w) k = held ops k.
Proof using UL PL.
  assert (∀ ops k op, held (ops ++ [op]) k = held_step k (held ops k) op) as Hsnoc by (intros; unfold held; by rewrite foldl_app).
  induction 1 as [|ops w j _ [Hok IH]|ops w j _ [Hok IH]|ops w w' _ [Hok IH] Hs|ops w _ [Hok IH]].
  - split; [apply topics_ok_init|]. intros k. unfold desired_refcount. simpl. by rewrite lookup_empty.
  - split; [by apply topics_ok_retain|]. intros k. rewrite Hsnoc, <-IH. unfold do_retain.
    pose proof (refcount_retain j k (desired w)) as E. destruct (retain_topic j (desired w)). simpl in *. rewrite E. case_decide; lia.
  - split; [by apply topics_ok_release|]. intros k. rewrite Hsnoc, <-IH. unfold do_release.
    pose proof (refcount_release j k (desired w)) as E. destruct (release_topic j (desired w)). simpl in *. rewrite E. case_decide; lia.
  - split; [by eapply topics_ok_internal|]. intros k. by rewrite (internal_desired w w').
  - split; [by apply topics_ok_lose|done].
Qed.

(** When the task is serving and no subscribe command is under way, every desired
    topic is subscribed at Redis. *)
Lemma served w a k n :
  topics_ok w → link w = Serving a → ¬ announced w k → desired w !! k = Some n → redis_channel k ∈ wire w.
Proof.
  intros [Hp Hc Hw] El Hna Hk. rewrite El in Hw. simpl in Hw. rewrite Hw.
  destruct (Hc _ _ Hk) as [Hl|]; [|done]. by rewrite El in Hl.
Qed.

(** ** The task catches up *)

(** What is left to do. *)
Definition link_weight (d : DesiredTopics) (l : Link) : nat :=
  match l with
  | Down => length (initial_topics d) + 3
  | Connecting todo _ => length todo + 2
  | Serving _ => 0
  | Calling _ _ => 1
  end.
Definition weight (w : TopicWorld) : nat :=
  4 * length (sleeping w) + 3 * length (sending w) + 2 * length (queue w) + link_weight (desired w) (link w).

Lemma internal_weight w w' : topic_internal w w' → S (weight w') ≤ weight w.
Proof.
  destruct 1; unfold weight; simpl; rewrite ?length_app; simpl; try lia. destruct call; simpl; lia.
Qed.

Lemma internals_weight n w w' : nsteps topic_internal n w w' → n + weight w' ≤ weight w.
Proof. induction 1 as [|n w1 w2 w3 Hs _ IH]; [done|]. apply internal_weight in Hs. lia. Qed.

(** Something moves until everything is done. *)
Lemma internal_or_done w : red topic_internal w ∨ ∃ d a wi, w = mkTopics d [] [] [] (Serving a) wi.
Proof.
  destruct w as [d s sl q l wi]. destruct l as [|[|k todo] a|a|call a]; try (left; eexists; by constructor).
  destruct q as [|c q].
  2: { left. destruct (handle_command d a c) as [a' call] eqn:E. eexists. by apply ti_command. }
  destruct s as [|c s].
  2: { left. eexists. apply (ti_send d [] c s). unfold COMMAND_CAPACITY. simpl. lia. }
  destruct sl as [|k sl]; [right; by exists d, a, wi|left]. eexists. apply (ti_wake d _ [] k sl).
Qed.

Lemma internals_finish w : ∃ w', rtc topic_internal w w' ∧ nf topic_internal w'.
Proof.
  induction w as [w IH] using (induction_ltof1 _ weight). unfold ltof in IH.
  destruct (internal_or_done w) as [[w1 Hs]|(d & a & wi & ->)].
  - pose proof (internal_weight _ _ Hs). destruct (IH w1) as (w' & Hr & Hn); [lia|]. exists w'. split; [by eapply rtc_l|done].
  - eexists. split; [done|]. intros [w' Hs]. inversion Hs; subst; by destruct sl1 || destruct s1.
Qed.

Lemma internals_run ops w w' : rtc topic_internal w w' → topic_run ops w → topic_run ops w'.
Proof. induction 1; eauto using topic_int. Qed.

(** C33: Whatever happened before -- retains, releases, lost connections, a full command
    channel -- once Redis answers and no more is asked, the timers, the channel and the
    task come to rest, within [weight w] steps whatever their order, without the
    connection being set up again unless it was down; and when they rest, the count of
    every topic is how often it is held, and the channel of every topic that is held is
    subscribed. *)
Theorem desired_topics_recover ops w :
  topic_run ops w →
  (∀ n w', nsteps topic_internal n w w' → n ≤ weight w) ∧
  (∃ w', rtc topic_internal w w' ∧ nf topic_internal w') ∧
  ∀ w', rtc topic_internal w w' → nf topic_internal w' →
    ∀ k, desired_refcount (desired w') k = held ops k ∧ ((0 < held ops k)%N → redis_channel k ∈ wire w').
Proof using UL PL.
  intros Hr. split_and!; [intros n w' Hn%internals_weight; lia|apply internals_finish|].
  intros w' Hi Hn k. pose proof (internals_run _ _ _ Hi Hr) as [Hok Hc]%run_ok. split; [done|]. rewrite <-Hc. intros Hk.
  destruct (internal_or_done w') as [|(d & a & wi & ->)]; [done|]. unfold desired_refcount in Hk.
  destruct (desired _ !! k) as [n|] eqn:E; [|done]. apply (served _ a k n Hok); [done| |done].
  unfold announced. simpl. intros [?%not_elem_of_nil|?%not_elem_of_nil]; done.
Qed.

End cover.

(** ** Examples *)

Module TopicsDemo.

Definition demo_parse_uuid : UuidParse := λ s,
  match s with
  | "" => None
  | String c s =>
      if decide (c = "1"%char) then Npos <$> parse_bits s 1
      else if decide (String c s = "0") then Some 0%N else None
  end.

#[global] Instance demo_parse_laws : UuidParseLaws demo_api demo_parse_uuid.
Proof.
  intros [|p]; [reflexivity|]. cbn [uuid_to_string demo_api demo_N_string].
  destruct (parse_bits_pos p) as (s & -> & E). unfold parse_uuid, demo_parse_uuid. simpl. by rewrite E.
Qed.

Definition k1 : EventTopicKey := mkTopicKey 1 (Channel 5).

(** Connected, and a topic is retained whose command is not yet sent. *)
Definition waiting : TopicWorld := do_retain k1 (mkTopics ∅ [] [] [] (Serving ∅) ∅).

Lemma desired_topics_recover_witness :
  ∃ w', rtc (topic_internal (H:=demo_api)) waiting w' ∧ redis_channel (H:=demo_api) k1 ∈ wire w'.
Proof.
  destruct (desired_topics_recover (napi:=demo_api) (papi:=demo_parse_uuid) [Retain k1] waiting) as (_ & (w' & Hr & Hn) & Hw).
  - apply (topic_retain [] (mkTopics ∅ [] [] [] (Serving ∅) ∅) k1).
    eapply topic_int; [eapply topic_int; [constructor|apply ti_connect]|]. unfold initial_topics. rewrite hiter_empty. apply ti_connected.
  - exists w'. split; [exact Hr|]. by apply Hw.
Defined.

End TopicsDemo.
