(* ===== verification/Protocol.v ===== *)
(** * Client and relay messages ([buzz-relay/src/protocol.rs])

    The text frames of NIP-01: parsing of what a client sends, with the limits the
    relay advertises, and the arrays the relay answers with.  [serde_json] and the
    conversions between JSON and [nostr] values are the class [WireApi]. *)

From stdpp Require Import base gmap strings list.
From Stdlib Require Import Ascii.
From S2P Require Import Prelude Nostr CanonicalJson Tenant Auth.

(** [nostr::Filter] with the two fields that are not constraints on one event. *)
Record ReqFilter := mkReqFilter {
  rf_filter : NostrFilter;
  rf_search : option string;
  rf_limit : option N
}.

(** [serde_json::from_str], [to_string], [from_value] and [to_value]; [json_of_u64] is a
    number. *)
Class WireApi (num : Type) := {
  json_parse : string → option (Json num);
  json_print : Json num → string;
  json_of_u64 : N → Json num;
  event_from_value : Json num → option Event;
  event_to_value : Event → Json num;
  filter_from_value : Json num → option ReqFilter;
  filter_to_value : ReqFilter → Json num
}.

(** Printed values parse back, and so do values made of an event or a filter. *)
Class WireLaws {num : Type} (api : WireApi num) := {
  json_roundtrip : ∀ v, json_parse (json_print v) = Some v;
  event_value_roundtrip : ∀ e, event_from_value (event_to_value e) = Some e;
  filter_value_roundtrip : ∀ f, filter_from_value (filter_to_value f) = Some f
}.

Definition MAX_SUB_ID_LENGTH : nat := 256.
Definition MAX_FILTERS_PER_REQ : nat := 10.

Inductive ClientMessage :=
| CEvent (e : Event)
| CReq (sub_id : string) (filters : list ReqFilter)
| CClose (sub_id : string)
| CCount (sub_id : string) (filters : list ReqFilter)
| CAuth (e : Event).

Inductive RelayError := InvalidMessage (msg : string).

(** [iter().map(f).collect::<Result<Vec<_>>>()]: the first error ends it. *)
Fixpoint collect_results {A B E} (f : A → result E B) (l : list A) : result E (list B) :=
  match l with
  | [] => Ok []
  | a :: l =>
      let? b := f a in
      let? bs := collect_results f l in
      Ok (b :: bs)
  end.

Section protocol.
Context {num : Type} `{WireApi num}.

Definition parse_filter (v : Json num) : result RelayError ReqFilter :=
  match filter_from_value v with
  | Some f => Ok f
  | None => Err (InvalidMessage "invalid filter")
  end.

(** The common part of REQ and COUNT. *)
Definition parse_subscription (name : string) (arr : list (Json num)) :
    result RelayError (string * list ReqFilter) :=
  match arr with
  | _ :: id :: filter_values =>
      match id with
      | JString sub_id =>
          if decide (sub_id = "") then Err (InvalidMessage (name +:+ " sub_id must not be empty"))
          else if decide (MAX_SUB_ID_LENGTH < String.length sub_id)
          then Err (InvalidMessage (name +:+ " sub_id exceeds maximum length of 256 bytes"))
          else if decide (MAX_FILTERS_PER_REQ < length filter_values)
          then Err (InvalidMessage (name +:+ " contains " +:+ num_to_string (N.of_nat (length filter_values)) +:+ " filters, maximum is 10"))
          else
            let? filters := collect_results parse_filter filter_values in
            Ok (sub_id, filters)
      | _ => Err (InvalidMessage (name +:+ " sub_id must be a string"))
      end
  | _ => Err (InvalidMessage (name +:+ " requires sub_id"))
  end.

Definition parse_event_arg (name err : string) (arr : list (Json num)) : result RelayError Event :=
  match arr with
  | _ :: v :: _ =>
      match event_from_value v with Some e => Ok e | None => Err (InvalidMessage err) end
  | _ => Err (InvalidMessage (name +:+ " requires event object"))
  end.

(** [ClientMessage::parse]. *)
Definition parse_message (raw : string) : result RelayError ClientMessage :=
  match json_parse raw with
  | None => Err (InvalidMessage "JSON parse error")
  | Some (JArray arr) =>
      match arr with
      | [] => Err (InvalidMessage "empty array")
      | JString msg_type :: _ =>
          if decide (msg_type = "EVENT") then
            let? e := parse_event_arg "EVENT" "invalid event" arr in Ok (CEvent e)
          else if decide (msg_type = "REQ") then
            let? r := parse_subscription "REQ" arr in Ok (CReq r.1 r.2)
          else if decide (msg_type = "COUNT") then
            let? r := parse_subscription "COUNT" arr in Ok (CCount r.1 r.2)
          else if decide (msg_type = "CLOSE") then
            match arr with
            | _ :: JString sub_id :: _ => Ok (CClose sub_id)
            | _ :: _ :: _ => Err (InvalidMessage "CLOSE sub_id must be a string")
            | _ => Err (InvalidMessage "CLOSE requires sub_id")
            end
          else if decide (msg_type = "AUTH") then
            let? e := parse_event_arg "AUTH" "invalid auth event" arr in Ok (CAuth e)
          else Err (InvalidMessage ("unknown message type: " +:+ msg_type))
      | _ => Err (InvalidMessage "first element must be a string")
      end
  | Some _ => Err (InvalidMessage "expected JSON array")
  end.

(** [RelayMessage]. *)
Definition msg_auth_challenge (challenge : string) : string :=
  json_print (JArray [JString "AUTH"; JString challenge]).
Definition msg_event (sub_id : string) (e : Event) : string :=
  json_print (JArray [JString "EVENT"; JString sub_id; event_to_value e]).
Definition msg_notice (message : string) : string :=
  json_print (JArray [JString "NOTICE"; JString message]).
Definition msg_eose (sub_id : string) : string :=
  json_print (JArray [JString "EOSE"; JString sub_id]).
Definition msg_ok (event_id : string) (accepted : bool) (message : string) : string :=
  json_print (JArray [JString "OK"; JString event_id; JBool accepted; JString message]).
Definition msg_closed (sub_id message : string) : string :=
  json_print (JArray [JString "CLOSED"; JString sub_id; JString message]).
Definition msg_count (sub_id : string) (count : N) : string :=
  json_print (JArray [JString "COUNT"; JString sub_id; JObject [("count", json_of_u64 count)]]).

End protocol.

(** ** What parsing guarantees *)

Section parsing.
Context {num : Type} {api : WireApi num}.

(** The array a client sends for a message. *)
Definition client_array (m : ClientMessage) : list (Json num) :=
  match m with
  | CEvent e => [JString "EVENT"; event_to_value e]
  | CReq s fs => JString "REQ" :: JString s :: map filter_to_value fs
  | CClose s => [JString "CLOSE"; JString s]
  | CCount s fs => JString "COUNT" :: JString s :: map filter_to_value fs
  | CAuth e => [JString "AUTH"; event_to_value e]
  end.

(** The advertised limits, on the messages that open work. *)
Definition within_limits (m : ClientMessage) : Prop :=
  match m with
  | CReq s fs | CCount s fs =>
      s ≠ "" ∧ String.length s ≤ MAX_SUB_ID_LENGTH ∧ length fs ≤ MAX_FILTERS_PER_REQ
  | _ => True
  end.

(** Why a message over the limits is refused. *)
Definition over_limit (name s : string) (fs : list ReqFilter) (why : string) : Prop :=
  (s = "" ∧ why = name +:+ " sub_id must not be empty") ∨
  (MAX_SUB_ID_LENGTH < String.length s ∧ why = name +:+ " sub_id exceeds maximum length of 256 bytes") ∨
  (MAX_FILTERS_PER_REQ < length fs ∧
     why = name +:+ " contains " +:+ num_to_string (N.of_nat (length fs)) +:+ " filters, maximum is 10").

Definition refused (m : ClientMessage) (why : string) : Prop :=
  match m with
  | CReq s fs => over_limit "REQ" s fs why
  | CCount s fs => over_limit "COUNT" s fs why
  | _ => False
  end.

Lemma collect_results_ok {A B E} (f : A → result E B) l bs :
  collect_results f l = Ok bs → Forall2 (λ a b, f a = Ok b) l bs.
Proof.
  revert bs. induction l as [|a l IH]; intros bs; simpl; [by intros [= <-]|].
  destruct (f a) as [b|e] eqn:Ef; simpl; try done.
  destruct (collect_results f l) as [bs'|e] eqn:Ec; simpl; try done.
  intros [= <-]. constructor; [done|]. by apply IH.
Qed.

Lemma collect_results_map {A B E} (f : A → result E B) (g : B → A) bs :
  (∀ b, f (g b) = Ok b) → collect_results f (map g bs) = Ok bs.
Proof. intros Hf. induction bs as [|b bs IH]; simpl; [done|]. by rewrite Hf, IH. Qed.

Lemma parse_subscription_Ok name arr s fs :
  parse_subscription name arr = Ok (s, fs) →
  s ≠ "" ∧ String.length s ≤ MAX_SUB_ID_LENGTH ∧ length fs ≤ MAX_FILTERS_PER_REQ ∧
  ∃ h vs, arr = h :: JString s :: vs ∧ Forall2 (λ v f, filter_from_value v = Some f) vs fs.
Proof.
  unfold parse_subscription. destruct arr as [|h [|id vs]]; [done..|]. destruct id; try done.
  repeat case_decide; try done. destruct (collect_results parse_filter vs) as [l|e] eqn:Ec; simpl; [|done].
  intros [= <- <-]. apply collect_results_ok in Ec. pose proof (Forall2_length _ _ _ Ec).
  split_and!; [done|lia|lia|]. exists h, vs. split; [done|]. eapply Forall2_impl; [exact Ec|].
  intros v f. unfold parse_filter. destruct (filter_from_value v); naive_solver.
Qed.

Lemma parse_subscription_array name h s fs {L : WireLaws api} :
  s ≠ "" → String.length s ≤ MAX_SUB_ID_LENGTH → length fs ≤ MAX_FILTERS_PER_REQ →
  parse_subscription name (h :: JString s :: map filter_to_value fs) = Ok (s, fs).
Proof.
  intros Hs Hl Hf. unfold parse_subscription. rewrite length_map, !decide_False by (done || lia).
  rewrite (collect_results_map parse_filter filter_to_value); [done|].
  intros f. unfold parse_filter. by rewrite filter_value_roundtrip.
Qed.

Lemma parse_subscription_over name t s fs :
  ¬ (s ≠ "" ∧ String.length s ≤ MAX_SUB_ID_LENGTH ∧ length fs ≤ MAX_FILTERS_PER_REQ) →
  ∃ why, over_limit name s fs why ∧
    parse_subscription name (t :: JString s :: map filter_to_value fs) = Err (InvalidMessage why).
Proof.
  intros Hn. unfold parse_subscription, over_limit. rewrite length_map.
  case_decide as Hs; [eexists; split; [by left|done]|].
  case_decide as Hl; [eexists; split; [by right; left|done]|].
  case_decide as Hf; [eexists; split; [by right; right|done]|]. destruct Hn. split; [done|lia].
Qed.

Lemma parse_within raw m : parse_message raw = Ok m → within_limits m.
Proof.
  unfold parse_message. destruct (json_parse raw) as [[]|]; try done.
  destruct l as [|[] arr]; try done. repeat case_decide.
  1,5: destruct (parse_event_arg _ _ _); naive_solver.
  1,2: destruct (parse_subscription _ _) as [[s' fs]|] eqn:Es; simpl; [|done]; intros [= <-];
    apply parse_subscription_Ok in Es; naive_solver.
  - destruct arr as [|[]]; naive_solver.
  - done.
Qed.

(** C36: A message within the limits is parsed back, complete, from the frame a client sends
    for it; the frame of a message over them is refused, with the limit it is over as the
    reason; and whatever the frame, only messages within the limits are ever produced. *)
Theorem client_messages {L : WireLaws api} m :
  (within_limits m → parse_message (json_print (JArray (client_array m))) = Ok m) ∧
  (¬ within_limits m → ∃ why, refused m why ∧
     parse_message (json_print (JArray (client_array m))) = Err (InvalidMessage why)) ∧
  ∀ raw m', parse_message raw = Ok m' → within_limits m'.
Proof.
  split_and!; [| |apply parse_within]; intros Hm; unfold parse_message; rewrite json_roundtrip;
    destruct m as [e|s fs|s|s fs|e]; cbn [client_array within_limits refused] in *; cbv beta iota; try done.
  - by simpl; rewrite event_value_roundtrip.
  - destruct Hm as (? & ? & ?). rewrite decide_False, decide_True by done.
    by rewrite (parse_subscription_array "REQ" (JString "REQ") s fs).
  - destruct Hm as (? & ? & ?). rewrite !decide_False, decide_True by done.
    by rewrite (parse_subscription_array "COUNT" (JString "COUNT") s fs).
  - by simpl; rewrite event_value_roundtrip.
  - destruct (parse_subscription_over "REQ" (JString "REQ") s fs Hm) as (why & Ho & E). exists why. split; [done|].
    rewrite decide_False, decide_True by done. by rewrite E.
  - destruct (parse_subscription_over "COUNT" (JString "COUNT") s fs Hm) as (why & Ho & E). exists why. split; [done|].
    rewrite !decide_False, decide_True by done. by rewrite E.
Qed.

End parsing.

(** ** An instance

    Every value is printed as the bits of its encoding. *)

Module ToyWire.
Section tree.
Context {num : Type} `{Countable num}.

Abbreviation tree := (gen_tree (bool + num + string)) (only parsing).

Fixpoint to_tree (v : Json num) : tree :=
  match v with
  | JNull => GenNode 0 []
  | JBool b => GenLeaf (inl (inl b))
  | JNumber n => GenLeaf (inl (inr n))
  | JString s => GenLeaf (inr s)
  | JArray l => GenNode 1 (map to_tree l)
  | JObject m => GenNode 2 (map (λ e, GenNode 3 [GenLeaf (inr e.1); to_tree e.2]) m)
  end.

Fixpoint of_tree (t : tree) : Json num :=
  match t with
  | GenLeaf (inl (inl b)) => JBool b
  | GenLeaf (inl (inr n)) => JNumber n
  | GenLeaf (inr s) => JString s
  | GenNode 1 l => JArray (map of_tree l)
  | GenNode 2 l => JObject (map (λ t, match t with GenNode 3 [GenLeaf (inr k); v] => (k, of_tree v) | _ => ("", JNull) end) l)
  | GenNode _ _ => JNull
  end.

Lemma of_to_tree v : of_tree (to_tree v) = v.
Proof.
  induction v as [|b|n|s|l IH|m IH] using json_ind'; simpl; try done; f_equal.
  - rewrite map_map. induction IH as [|v l Hv _ IH]; simpl; [done|]. by rewrite Hv, IH.
  - rewrite map_map. induction IH as [|[k v] m Hv _ IH]; simpl; [done|]. simpl in Hv. by rewrite Hv, IH.
Qed.

#[global] Instance json_eq_dec : EqDecision (Json num).
Proof.
  intros v w. destruct (decide (to_tree v = to_tree w)) as [E|E]; [left|right].
  - by rewrite <-(of_to_tree v), E, of_to_tree.
  - by intros ->.
Defined.

#[global] Instance json_countable : Countable (Json num) := inj_countable' to_tree of_tree of_to_tree.

End tree.

#[global] Instance nostr_event_eq_dec : EqDecision NostrEvent.
Proof. solve_decision. Defined.
#[global] Instance event_eq_dec : EqDecision Event.
Proof. solve_decision. Defined.
#[global] Instance nostr_event_countable : Countable NostrEvent.
Proof.
  refine (inj_countable' (λ e, (ev_id e, ev_pubkey e, ev_created_at e, ev_kind e, ev_tags e, ev_content e))
    (λ p, let '(a, b, c, d, e, f) := p in mkEvent a b c d e f) _). by intros [].
Defined.
#[global] Instance event_countable : Countable Event.
Proof. refine (inj_countable' (λ e, (ev e, ev_sig e)) (λ p, mkSignedEvent p.1 p.2) _). by intros []. Defined.

#[global] Instance slt_countable : Countable SingleLetterTag.
Proof. refine (inj_countable' (λ t, (character t, uppercase t)) (λ p, mkSlt p.1 p.2) _). by intros []. Defined.
#[global] Instance filter_eq_dec : EqDecision NostrFilter.
Proof. solve_decision. Defined.
#[global] Instance filter_countable : Countable NostrFilter.
Proof.
  refine (inj_countable' (λ f, (f_ids f, f_authors f, f_kinds f, f_since f, f_until f, f_generic_tags f))
    (λ p, let '(a, b, c, d, e, f) := p in mkFilter a b c d e f) _). by intros [].
Defined.
#[global] Instance req_filter_eq_dec : EqDecision ReqFilter.
Proof. solve_decision. Defined.
#[global] Instance req_filter_countable : Countable ReqFilter.
Proof.
  refine (inj_countable' (λ f, (rf_filter f, rf_search f, rf_limit f))
    (λ p, let '(a, b, c) := p in mkReqFilter a b c) _). by intros [].
Defined.

#[global] Instance toy_wire : WireApi N := {|
  json_parse := demo_read;
  json_print := demo_print;
  json_of_u64 := JNumber;
  event_from_value := λ v, match v with JString s => demo_read s | _ => None end;
  event_to_value := λ e, JString (demo_print e);
  filter_from_value := λ v, match v with JString s => demo_read s | _ => None end;
  filter_to_value := λ f, JString (demo_print f) |}.

#[global] Instance toy_wire_laws : WireLaws toy_wire.
Proof. split; intros x; apply demo_read_print. Qed.

End ToyWire.

Module ProtocolDemo.

Definition all_events : ReqFilter := mkReqFilter (mkFilter None None None None None []) None None.
Definition eleven : ClientMessage := CReq "sub" (replicate 11 all_events).

(** A request with eleven filters is refused. *)
Lemma client_messages_witness :
  parse_message (H:=ToyWire.toy_wire) (json_print (WireApi:=ToyWire.toy_wire) (JArray (client_array (api:=ToyWire.toy_wire) eleven))) =
    Err (InvalidMessage "REQ contains 11 filters, maximum is 10").
Proof.
  destruct (client_messages (api:=ToyWire.toy_wire) eleven) as (_ & Hr & _).
  assert (¬ within_limits eleven) as Hn by (intros (_ & _ & Hf); unfold MAX_FILTERS_PER_REQ in Hf; simpl in Hf; lia).
  destruct (Hr Hn) as (why & Hw & E). rewrite E. clear E Hr Hn. do 2 f_equal.
  unfold refused, eleven, over_limit in Hw. destruct Hw as [[Hs _]|[[Hl _]|[_ Hw]]]; [discriminate Hs| |exact Hw].
  apply Nat.ltb_lt in Hl. vm_compute in Hl. discriminate Hl.
Defined.

End ProtocolDemo.
