(* ===== verification/Connections.v ===== *)
(** * Live connections ([buzz-relay/src/state.rs], [connection.rs])

    Every socket has objects that several tasks share: two bounded channels to the
    writer, a cancellation token, a back-pressure counter, its subscription map and its
    authentication state ([Socket]).  The connection manager and the community lifecycle
    registry are concurrent maps from connection ids to entries that refer to them
    ([Pod]).  An operation on one entry is atomic; the loops over a map are written as
    the list of ids they visit, one step each, and [Lifecycle] interleaves them. *)

From stdpp Require Import base gmap strings list relations.
From Stdlib Require Import Ascii.
From S2P Require Import Prelude Nostr CanonicalJson Tenant Auth Protocol.

Inductive WsMessage :=
| Text (s : string)
| Ping (data : bytes)
| Pong (data : bytes)
| Close (frame : option (N * string)).

Inductive CommunityDisconnectReason := CommunityDeleted.

(** [CommunityDisconnectReason::close_message]: code 1008, policy. *)
Definition close_message (reason : CommunityDisconnectReason) : WsMessage :=
  match reason with CommunityDeleted => Close (Some (1008%N, "community deleted")) end.

(** [ConnectionManager::restart_close_frame]: code 1012. *)
Definition restart_close_frame : WsMessage := Close (Some (1012%N, "relay restarting")).

(** [AuthState] of [connection.rs]. *)
Inductive AuthState :=
| Pending (challenge : string)
| Authenticated (ctx : AuthContext)
| Failed.

Record Socket := mkSocket {
  sk_data : list WsMessage;
  sk_ctrl : list WsMessage;
  sk_closed : bool;
  sk_cancelled : bool;
  sk_reason : option CommunityDisconnectReason;
  sk_backpressure : N;
  sk_subscriptions : gmap string (list ReqFilter);
  sk_auth : AuthState
}.

Definition set_data d (k : Socket) : Socket :=
  mkSocket d (sk_ctrl k) (sk_closed k) (sk_cancelled k) (sk_reason k) (sk_backpressure k) (sk_subscriptions k) (sk_auth k).
Definition set_ctrl d (k : Socket) : Socket :=
  mkSocket (sk_data k) d (sk_closed k) (sk_cancelled k) (sk_reason k) (sk_backpressure k) (sk_subscriptions k) (sk_auth k).
Definition set_backpressure d (k : Socket) : Socket :=
  mkSocket (sk_data k) (sk_ctrl k) (sk_closed k) (sk_cancelled k) (sk_reason k) d (sk_subscriptions k) (sk_auth k).
Definition set_auth d (k : Socket) : Socket :=
  mkSocket (sk_data k) (sk_ctrl k) (sk_closed k) (sk_cancelled k) (sk_reason k) (sk_backpressure k) (sk_subscriptions k) d.
Definition set_subscriptions d (k : Socket) : Socket :=
  mkSocket (sk_data k) (sk_ctrl k) (sk_closed k) (sk_cancelled k) (sk_reason k) (sk_backpressure k) d (sk_auth k).
Definition set_reason d (k : Socket) : Socket :=
  mkSocket (sk_data k) (sk_ctrl k) (sk_closed k) (sk_cancelled k) d (sk_backpressure k) (sk_subscriptions k) (sk_auth k).

(** [CancellationToken::cancel]. *)
Definition cancel (k : Socket) : Socket :=
  mkSocket (sk_data k) (sk_ctrl k) (sk_closed k) true (sk_reason k) (sk_backpressure k) (sk_subscriptions k) (sk_auth k).

(** ** Channels *)

Inductive TrySend := Sent | Full | Closed.

Definition CTRL_CAPACITY : nat := 8.

Definition try_send (capacity : nat) (closed : bool) (q : list WsMessage) (m : WsMessage) :
    TrySend * list WsMessage :=
  if closed then (Closed, q)
  else if decide (length q < capacity) then (Sent, q ++ [m]) else (Full, q).

Definition ctrl_try_send (m : WsMessage) (k : Socket) : bool * Socket :=
  let '(r, q) := try_send CTRL_CAPACITY (sk_closed k) (sk_ctrl k) m in
  (match r with Sent => true | _ => false end, set_ctrl q k).

(** The counter is an [AtomicU8]: [fetch_add] wraps. *)
Definition u8_succ (n : N) : N := ((n + 1) mod 256)%N.

(** The body shared by [ConnectionState::send] and the manager's [try_send_ws_message]. *)
Definition data_try_send (capacity : nat) (grace_limit : N) (m : WsMessage) (k : Socket) : bool * Socket :=
  let '(r, q) := try_send capacity (sk_closed k) (sk_data k) m in
  match r with
  | Sent => (true, set_backpressure 0%N (set_data q k))
  | Full =>
      let count := u8_succ (sk_backpressure k) in
      let k := set_backpressure count k in
      (false, if (grace_limit <=? count)%N then cancel k else k)
  | Closed => (false, k)
  end.

(** ** The maps *)

Record ConnEntry := mkConnEntry {
  ce_community_id : CommunityId;
  ce_authenticated_pubkey : option PublicKey;
  ce_grace_limit : N
}.

Record Pod := mkPod {
  sockets : gmap ConnId Socket;
  connections : gmap ConnId ConnEntry;
  draining : bool;
  community_connections : gmap ConnId CommunityId
}.

Definition on_socket (f : Socket → Socket) (c : ConnId) (p : Pod) : Pod :=
  mkPod (alter f c (sockets p)) (connections p) (draining p) (community_connections p).
Definition set_connections m (p : Pod) : Pod :=
  mkPod (sockets p) m (draining p) (community_connections p).
Definition set_draining d (p : Pod) : Pod :=
  mkPod (sockets p) (connections p) d (community_connections p).
Definition set_registry m (p : Pod) : Pod :=
  mkPod (sockets p) (connections p) (draining p) m.

Definition is_cancelled (c : ConnId) (p : Pod) : bool :=
  match sockets p !! c with Some k => sk_cancelled k | None => false end.

(** ** [CommunityConnectionRegistry] *)

(** [CommunityConnectionControl::disconnect_community]: the reason, then the token. *)
Definition control_disconnect (k : Socket) : Socket := cancel (set_reason (Some CommunityDeleted) k).

Definition registry_register (c : ConnId) (community : CommunityId) (p : Pod) : Pod :=
  set_registry (<[c := community]> (community_connections p)) p.

(** Dropping the [CommunityConnectionGuard]. *)
Definition registry_drop (c : ConnId) (p : Pod) : Pod :=
  set_registry (delete c (community_connections p)) p.

(** One entry of the loop of [disconnect_community]. *)
Definition disconnect_community_visit (community : CommunityId) (c : ConnId) (p : Pod) : Pod :=
  match community_connections p !! c with
  | Some s => if decide (s = community) then on_socket control_disconnect c p else p
  | None => p
  end.

Definition bound_communities (p : Pod) : gset CommunityId :=
  map_img (community_connections p).

(** ** [ConnectionManager] *)

(** The insertion; the check of the drain flag is a second step. *)
Definition manager_insert (c : ConnId) (community : CommunityId) (grace : N) (p : Pod) : Pod :=
  set_connections (<[c := mkConnEntry community None grace]> (connections p)) p.

(** What a drain does to one socket: queue the close frame on the control channel,
    whether or not it fits, then cancel. *)
Definition drain_signal (k : Socket) : Socket := cancel (ctrl_try_send restart_close_frame k).2.

Definition manager_check_draining (c : ConnId) (p : Pod) : Pod :=
  if draining p then on_socket drain_signal c p else p.

Definition deregister (c : ConnId) (p : Pod) : Pod := set_connections (delete c (connections p)) p.

Definition set_authenticated_pubkey (c : ConnId) (pk : PublicKey) (p : Pod) : Pod :=
  set_connections
    (alter (λ e, mkConnEntry (ce_community_id e) (Some pk) (ce_grace_limit e)) c (connections p)) p.

Definition pubkey_for_conn (p : Pod) (c : ConnId) : option PublicKey :=
  e ← connections p !! c; ce_authenticated_pubkey e.

Definition community_for_conn (p : Pod) (c : ConnId) : option CommunityId :=
  ce_community_id <$> connections p !! c.

Definition subscriptions_for (p : Pod) (c : ConnId) : option (gmap string (list ReqFilter)) :=
  match connections p !! c with
  | Some _ => sk_subscriptions <$> sockets p !! c
  | None => None
  end.

(** One entry of the loop of [drain_all]. *)
Definition drain_visit (c : ConnId) (p : Pod) : Pod :=
  match connections p !! c with Some _ => on_socket drain_signal c p | None => p end.

(** [try_send_ws_message], the sender of fan-out. *)
Definition send_to (capacity : nat) (c : ConnId) (m : WsMessage) (p : Pod) : bool * Pod :=
  match connections p !! c, sockets p !! c with
  | Some e, Some k =>
      let '(ok, k') := data_try_send capacity (ce_grace_limit e) m k in
      (ok, on_socket (λ _, k') c p)
  | _, _ => (false, p)
  end.

Section manager.
Context {num : Type} `{WireApi num} `{!MapIter N}.

Definition entry_matches (community : CommunityId) (pk : PublicKey) (e : ConnEntry) : bool :=
  bool_decide (ce_community_id e = community) && bool_decide (ce_authenticated_pubkey e = Some pk).

Definition connection_ids_for_pubkey_in_community (community : CommunityId) (pk : PublicKey) (p : Pod) :
    list ConnId :=
  omap (λ e, if entry_matches community pk e.2 then Some e.1 else None) (hiter (connections p)).

(** One connection of the loop of [disconnect_pubkey]: whether it was closed. *)
Definition disconnect_pubkey_visit (community : CommunityId) (frame : string) (c : ConnId) (p : Pod) : bool * Pod :=
  match connections p !! c with
  | Some e =>
      if decide (ce_community_id e ≠ community) then (false, p)
      else (true, on_socket (λ k, cancel (ctrl_try_send (Text frame) k).2) c p)
  | None => (false, p)
  end.

Fixpoint disconnect_loop (community : CommunityId) (frame : string) (ids : list ConnId) (closed : N) (p : Pod) : N * Pod :=
  match ids with
  | [] => (closed, p)
  | c :: ids =>
      let '(b, p) := disconnect_pubkey_visit community frame c p in
      disconnect_loop community frame ids (if b then (closed + 1)%N else closed) p
  end.

Definition disconnect_pubkey (community : CommunityId) (pk : PublicKey) (event_id reason : string) (p : Pod) : N * Pod :=
  disconnect_loop community (msg_ok event_id false reason)
    (connection_ids_for_pubkey_in_community community pk p) 0 p.

Definition per_community_ws_connections (p : Pod) : gmap CommunityId N :=
  foldl (λ m e, <[ce_community_id e.2 := (default 0 (m !! ce_community_id e.2) + 1)%N]> m) ∅ (hiter (connections p)).

(** The distinct keys online per community. *)
Definition online_keys (p : Pod) : gmap CommunityId (gset PublicKey) :=
  foldl (λ m e, match ce_authenticated_pubkey e.2 with
                | Some pk => <[ce_community_id e.2 := {[pk]} ∪ default ∅ (m !! ce_community_id e.2)]> m
                | None => m
                end) ∅ (hiter (connections p)).
Definition per_community_users_online (p : Pod) : gmap CommunityId N :=
  (λ s, N.of_nat (size s)) <$> online_keys p.

End manager.

(** ** Slow clients *)

(** [n] sends in a row to a full buffer. *)
Fixpoint full_sends (capacity : nat) (grace : N) (m : WsMessage) (n : nat) (k : Socket) : Socket :=
  match n with
  | 0 => k
  | S n => full_sends capacity grace m n (data_try_send capacity grace m k).2
  end.

Lemma data_try_send_full capacity grace m k :
  sk_closed k = false → capacity ≤ length (sk_data k) →
  data_try_send capacity grace m k =
    (false, let k' := set_backpressure (u8_succ (sk_backpressure k)) k in
            if (grace <=? u8_succ (sk_backpressure k))%N then cancel k' else k').
Proof. intros Hc Hf. unfold data_try_send, try_send. rewrite Hc, decide_False by lia. done. Qed.

(** A send that fits resets the counter; sends to a full buffer never queue anything,
    and starting from a reset counter the client is cancelled at the [grace]-th of them
    in a row (at the first, when the limit is 0) and not before. *)
Theorem slow_client_disconnect capacity grace m n k :
  sk_closed k = false → sk_cancelled k = false → sk_backpressure k = 0%N → (grace < 256)%N → n < 256 →
  (length (sk_data k) < capacity →
     data_try_send capacity grace m k = (true, set_data (sk_data k ++ [m]) k)) ∧
  (capacity ≤ length (sk_data k) →
     sk_data (full_sends capacity grace m n k) = sk_data k ∧
     sk_cancelled (full_sends capacity grace m n k) = bool_decide (n ≠ 0 ∧ (grace ≤ N.of_nat n)%N)).
Proof.
  intros Hc Hk Hb Hg Hn. split.
  { intros Hf. unfold data_try_send, try_send. rewrite Hc, decide_True by done.
    unfold set_backpressure, set_data. simpl. by rewrite Hb. }
  intros Hf.
  assert (∀ n k, sk_closed k = false → capacity ≤ length (sk_data k) → (sk_backpressure k + N.of_nat n < 256)%N →
    sk_data (full_sends capacity grace m n k) = sk_data k ∧
    sk_cancelled (full_sends capacity grace m n k) =
      sk_cancelled k || bool_decide (n ≠ 0 ∧ (grace ≤ sk_backpressure k + N.of_nat n)%N)) as Hgen.
  { clear - Hg. induction n as [|n IH]; intros k Hc Hf Hn; cbn [full_sends].
    - split; [done|]. rewrite bool_decide_eq_false_2 by lia. by rewrite orb_false_r.
    - rewrite data_try_send_full by done. cbn [snd]. unfold u8_succ. rewrite N.mod_small by lia.
      set (k' := set_backpressure _ k).
      destruct (N.leb_spec grace (sk_backpressure k + 1)) as [Hle|Hgt].
      + destruct (IH (cancel k')) as [-> ->]; [done|done|simpl; lia|]. split; [done|].
        cbn [sk_cancelled cancel]. rewrite (bool_decide_eq_true_2 (S n ≠ 0 ∧ _)) by lia. by rewrite orb_true_r.
      + destruct (IH k') as [-> ->]; [done|done|simpl; lia|]. split; [done|]. f_equal.
        apply bool_decide_ext. cbn [k' sk_backpressure set_backpressure]. lia. }
  destruct (Hgen n k Hc Hf ltac:(lia)) as [-> ->]. split; [done|]. rewrite Hk, Hb. simpl. done.
Qed.

(** ** Disconnecting a key *)

Section disconnect.
Context {num : Type} {api : WireApi num} {MI : MapIter N}.

Lemma elem_of_connection_ids community pk p c :
  c ∈ connection_ids_for_pubkey_in_community community pk p ↔
  ∃ e, connections p !! c = Some e ∧ ce_community_id e = community ∧ ce_authenticated_pubkey e = Some pk.
Proof.
  unfold connection_ids_for_pubkey_in_community. rewrite list_elem_of_omap. split.
  - intros ([c' e] & Hin%elem_of_hiter & E). simpl in E. unfold entry_matches in E.
    repeat case_bool_decide; simpl in E; simplify_eq; eauto.
  - intros (e & Hc & He & Hp). exists (c, e). split; [by apply elem_of_hiter|]. simpl. unfold entry_matches.
    by rewrite !bool_decide_eq_true_2.
Qed.

Lemma NoDup_connection_ids community pk p : NoDup (connection_ids_for_pubkey_in_community community pk p).
Proof.
  unfold connection_ids_for_pubkey_in_community.
  assert (∀ l : list (ConnId * ConnEntry), NoDup l.*1 → NoDup (omap (λ e, if entry_matches community pk e.2 then Some e.1 else None) l)) as Hn.
  { induction l as [|[c e] l IH]; simpl; intros Hl; [constructor|]. apply NoDup_cons in Hl as [Hc Hl].
    destruct (entry_matches community pk e); [|by apply IH]. apply NoDup_cons. split; [|by apply IH].
    intros ([c' e'] & Hin & E)%list_elem_of_omap. simpl in E. destruct (entry_matches _ _ e'); [|done]. injection E as ->.
    apply Hc. simpl. apply list_elem_of_fmap. by exists (c, e'). }
  apply Hn, NoDup_hiter_fst.
Qed.

(** What happens to a socket of a disconnected key. *)
Definition banned_socket (frame : string) (k : Socket) : Socket := cancel (ctrl_try_send (Text frame) k).2.

Lemma disconnect_loop_spec community frame ids closed p :
  NoDup ids → (∀ c, c ∈ ids → ∃ e, connections p !! c = Some e ∧ ce_community_id e = community) →
  (disconnect_loop community frame ids closed p).1 = (closed + N.of_nat (length ids))%N ∧
  connections (disconnect_loop community frame ids closed p).2 = connections p ∧
  ∀ c, sockets (disconnect_loop community frame ids closed p).2 !! c =
       (if decide (c ∈ ids) then banned_socket frame <$> sockets p !! c else sockets p !! c).
Proof.
  revert closed p. induction ids as [|i ids IH]; intros closed p Hnd Hin; cbn [disconnect_loop].
  { split_and!; [simpl; lia|done|]. intros c. by rewrite decide_False by set_solver. }
  apply NoDup_cons in Hnd as [Hi Hnd]. destruct (Hin i) as (e & He & Hc); [left|].
  unfold disconnect_pubkey_visit. rewrite He, decide_False by (intros Hne; by apply Hne). cbv beta iota.
  set (p' := on_socket _ i p).
  destruct (IH (closed + 1)%N p') as (H1 & H2 & H3); [done| |].
  { intros c Hc'. destruct (Hin c) as (e' & ? & ?); [by right|]. by exists e'. }
  rewrite H1, H2. split_and!; [simpl; lia|done|]. intros c. rewrite H3. unfold p'. cbn [sockets on_socket].
  destruct (decide (c = i)) as [->|Hne].
  - rewrite decide_False by done. rewrite decide_True by set_solver. by rewrite lookup_alter_eq.
  - rewrite lookup_alter_ne by done. destruct (decide (c ∈ ids)) as [Hs|Hs].
    + by rewrite decide_True by set_solver.
    + by rewrite decide_False by set_solver.
Qed.

(** [disconnect_pubkey] cancels every connection authenticated as the key in that
    community, with the reason queued ahead when the control channel has room, touches
    no other socket -- the same key's connections to other communities in particular --
    and counts what it closed. *)
Theorem disconnect_pubkey_exact community pk event_id reason p :
  let frame := msg_ok event_id false reason in
  let r := disconnect_pubkey community pk event_id reason p in
  r.1 = N.of_nat (length (connection_ids_for_pubkey_in_community community pk p)) ∧
  connections r.2 = connections p ∧
  ∀ c k, sockets p !! c = Some k →
    sockets r.2 !! c = Some (if decide (community_for_conn p c = Some community ∧ pubkey_for_conn p c = Some pk)
                             then banned_socket frame k else k).
Proof.
  intros frame r. destruct (disconnect_loop_spec community frame
    (connection_ids_for_pubkey_in_community community pk p) 0 p) as (H1 & H2 & H3).
  { apply NoDup_connection_ids. }
  { intros c (e & ? & ? & _)%elem_of_connection_ids. eauto. }
  split_and!; [by rewrite <-(N.add_0_l (N.of_nat _))|done|]. intros c k Hk. unfold r, disconnect_pubkey.
  rewrite H3, Hk. unfold community_for_conn, pubkey_for_conn.
  assert (c ∈ connection_ids_for_pubkey_in_community community pk p ↔
    (ce_community_id <$> connections p !! c = Some community ∧
     (e ← connections p !! c; ce_authenticated_pubkey e) = Some pk)) as Hiff.
  { rewrite elem_of_connection_ids. destruct (connections p !! c) as [e|]; simpl; naive_solver. }
  destruct (decide (c ∈ _)) as [Hc|Hc]; [rewrite decide_True by tauto|rewrite decide_False by tauto]; done.
Qed.

End disconnect.

Module ConnectionsDemo.

Definition idle : Socket := mkSocket [] [] false false None 0 ∅ Failed.

(** A buffer of one frame and a limit of 3: the first send fits, two more are lost,
    the third lost one closes the connection. *)
Definition stalled : Socket := set_data [Ping []] idle.

Lemma slow_client_disconnect_witness :
  (length (sk_data stalled) < 2 → data_try_send 2 3 (Pong []) stalled = (true, set_data (sk_data stalled ++ [Pong []]) stalled)) ∧
  (1 ≤ length (sk_data stalled) →
     sk_data (full_sends 1 3 (Pong []) 3 stalled) = [Ping []] ∧ sk_cancelled (full_sends 1 3 (Pong []) 3 stalled) = true).
Proof.
  split.
  - apply (slow_client_disconnect 2 3 (Pong []) 3 stalled); [done..|lia].
  - intros H. destruct (slow_client_disconnect 1 3 (Pong []) 3 stalled) as [_ H2]; [done..|lia|].
    destruct (H2 H) as [-> ->]. by split.
Defined.

Lemma grace_limit_minus_one : sk_cancelled (full_sends 1 3 (Pong []) 2 stalled) = false.
Proof. reflexivity. Qed.

End ConnectionsDemo.
