(* ===== verification/Lifecycle.v ===== *)
(** * Connection lifecycle under archival and drain ([buzz-relay/src/state.rs])

    A socket handler registers with the community registry, asks the database whether
    the community is active, looks at its cancellation token, runs, enters the
    connection manager, looks at the drain flag, and leaves by the same objects.
    Archiving a community writes the database and then walks the registry; a periodic
    revalidation does the same walk; a graceful shutdown sets the drain flag and walks
    the manager.  None of these hold a lock across steps: [life_step] lets every handler
    and every walk take one atomic step at a time, in any order.

    The walk of a concurrent map visits at least the entries that are there when it
    starts ([dom _ ⊆ list_to_set ids]); it may visit more. *)

From stdpp Require Import base gmap strings list relations.
From S2P Require Import Prelude Nostr CanonicalJson Tenant Auth Protocol Connections.

(** Where a handler is in [run_registered_community_connection] and
    [handle_active_connection]. *)
Inductive Phase :=
| Registered (s : CommunityId)   (* the database has not answered *)
| Checked (s : CommunityId)      (* it answered active *)
| Running (s : CommunityId)      (* the token was not cancelled *)
| Inserted (s : CommunityId)     (* in the manager, drain flag not read yet *)
| Serving (s : CommunityId)
| Leaving (s : CommunityId).     (* cancelled and out of the manager, guard not dropped *)

Definition phase_community (ph : Phase) : CommunityId :=
  match ph with
  | Registered s | Checked s | Running s | Inserted s | Serving s | Leaving s => s
  end.

(** Past the database check. *)
Definition admitted (s : CommunityId) (ph : Phase) : Prop :=
  match ph with Registered _ => False | _ => phase_community ph = s end.

Definition serving (ph : Phase) : Prop := match ph with Serving _ => True | _ => False end.
Definition in_manager (ph : Phase) : Prop := match ph with Inserted _ | Serving _ => True | _ => False end.

(** A walk in progress: of [disconnect_community], with whether the community was
    archived when it started and has been since, or of [drain_all]. *)
Inductive Sweep :=
| SweepCommunity (s : CommunityId) (current : bool) (todo : list ConnId)
| SweepDrain (todo : list ConnId).

Record Life := mkLife {
  pod : Pod;
  archived : gset CommunityId;      (* in the database *)
  handlers : gmap ConnId Phase;
  sweeps : list Sweep;
  closed : gset CommunityId;        (* archived, walked since, not unarchived since *)
  drained : bool                    (* a drain's walk has ended *)
}.

Definition life_init : Life := mkLife (mkPod ∅ ∅ false ∅) ∅ ∅ [] ∅ false.

Definition set_pod p (l : Life) := mkLife p (archived l) (handlers l) (sweeps l) (closed l) (drained l).
Definition set_handlers h (l : Life) := mkLife (pod l) (archived l) h (sweeps l) (closed l) (drained l).
Definition set_sweeps x (l : Life) := mkLife (pod l) (archived l) (handlers l) x (closed l) (drained l).

(** Unarchiving a community outdates the walks that ran for it. *)
Definition outdate (s : CommunityId) (w : Sweep) : Sweep :=
  match w with
  | SweepCommunity s' current todo => if decide (s' = s) then SweepCommunity s' false todo else w
  | SweepDrain _ => w
  end.

(** The new objects of a socket. *)
Definition new_socket (challenge : string) : Socket := mkSocket [] [] false false None 0 ∅ (Pending challenge).

Section steps.
Context (grace : N).

Inductive life_step (l : Life) : Life → Prop :=
(* the handler *)
| ls_register c s challenge :
    handlers l !! c = None → sockets (pod l) !! c = None →
    life_step l (set_handlers (<[c := Registered s]> (handlers l))
      (set_pod (registry_register c s
        (mkPod (<[c := new_socket challenge]> (sockets (pod l))) (connections (pod l)) (draining (pod l))
               (community_connections (pod l)))) l))
| ls_active c s : handlers l !! c = Some (Registered s) → s ∉ archived l →
    life_step l (set_handlers (<[c := Checked s]> (handlers l)) l)
| ls_refused c s : handlers l !! c = Some (Registered s) →
    (* the database said inactive, or failed *)
    life_step l (set_handlers (delete c (handlers l)) (set_pod (registry_drop c (on_socket cancel c (pod l))) l))
| ls_token_cancelled c s : handlers l !! c = Some (Checked s) → is_cancelled c (pod l) = true →
    life_step l (set_handlers (delete c (handlers l)) (set_pod (registry_drop c (pod l)) l))
| ls_run c s : handlers l !! c = Some (Checked s) → is_cancelled c (pod l) = false →
    life_step l (set_handlers (<[c := Running s]> (handlers l)) l)
| ls_no_permit c s : handlers l !! c = Some (Running s) →
    life_step l (set_handlers (<[c := Leaving s]> (handlers l)) (set_pod (on_socket cancel c (pod l)) l))
| ls_insert c s : handlers l !! c = Some (Running s) →
    life_step l (set_handlers (<[c := Inserted s]> (handlers l)) (set_pod (manager_insert c s grace (pod l)) l))
| ls_check_draining c s : handlers l !! c = Some (Inserted s) →
    life_step l (set_handlers (<[c := Serving s]> (handlers l)) (set_pod (manager_check_draining c (pod l)) l))
| ls_leave c s : handlers l !! c = Some (Serving s) → is_cancelled c (pod l) = true →
    life_step l (set_handlers (<[c := Leaving s]> (handlers l)) (set_pod (deregister c (pod l)) l))
| ls_drop c s : handlers l !! c = Some (Leaving s) →
    life_step l (set_handlers (delete c (handlers l)) (set_pod (registry_drop c (pod l)) l))
(* the client closes, a timeout, a slow writer *)
| ls_cancel c : life_step l (set_pod (on_socket cancel c (pod l)) l)
(* the database *)
| ls_archive s : life_step l (mkLife (pod l) ({[s]} ∪ archived l) (handlers l) (sweeps l) (closed l) (drained l))
| ls_unarchive s :
    life_step l (mkLife (pod l) (archived l ∖ {[s]}) (handlers l) (map (outdate s) (sweeps l)) (closed l ∖ {[s]}) (drained l))
(* the walks *)
| ls_disconnect s ids : dom (community_connections (pod l)) ⊆ list_to_set ids →
    life_step l (set_sweeps (SweepCommunity s (bool_decide (s ∈ archived l)) ids :: sweeps l) l)
| ls_disconnect_visit s b c ids s1 s2 : sweeps l = s1 ++ SweepCommunity s b (c :: ids) :: s2 →
    life_step l (set_sweeps (s1 ++ SweepCommunity s b ids :: s2) (set_pod (disconnect_community_visit s c (pod l)) l))
| ls_disconnect_end s b s1 s2 : sweeps l = s1 ++ SweepCommunity s b [] :: s2 →
    life_step l (mkLife (pod l) (archived l) (handlers l) (s1 ++ s2) (if b then {[s]} ∪ closed l else closed l) (drained l))
| ls_drain_store : life_step l (set_pod (set_draining true (pod l)) l)
| ls_drain ids : draining (pod l) = true → dom (connections (pod l)) ⊆ list_to_set ids →
    life_step l (set_sweeps (SweepDrain ids :: sweeps l) l)
| ls_drain_visit c ids s1 s2 : sweeps l = s1 ++ SweepDrain (c :: ids) :: s2 →
    life_step l (set_sweeps (s1 ++ SweepDrain ids :: s2) (set_pod (drain_visit c (pod l)) l))
| ls_drain_end s1 s2 : sweeps l = s1 ++ SweepDrain [] :: s2 →
    life_step l (mkLife (pod l) (archived l) (handlers l) (s1 ++ s2) (closed l) true).

End steps.

(** ** Invariant *)

Definition cancelled (l : Life) (c : ConnId) : Prop := is_cancelled c (pod l) = true.

(** Every handler in such a phase is cancelled or still to be visited. *)
Definition covered (l : Life) (Q : Phase → Prop) (todo : list ConnId) : Prop :=
  ∀ c ph, handlers l !! c = Some ph → Q ph → cancelled l c ∨ c ∈ todo.

Record life_ok (l : Life) : Prop := {
  lok_socket : ∀ c ph, handlers l !! c = Some ph → is_Some (sockets (pod l) !! c);
  lok_registry : ∀ c ph, handlers l !! c = Some ph → community_connections (pod l) !! c = Some (phase_community ph);
  lok_manager : ∀ c ph, handlers l !! c = Some ph → in_manager ph → is_Some (connections (pod l) !! c);
  lok_sweep : ∀ w, w ∈ sweeps l →
    match w with
    | SweepCommunity s true todo => s ∈ archived l ∧ covered l (admitted s) todo
    | SweepCommunity _ false _ => True
    | SweepDrain todo => draining (pod l) = true ∧ covered l serving todo
    end;
  lok_closed : ∀ s, s ∈ closed l → s ∈ archived l ∧ covered l (admitted s) [];
  lok_drained : drained l = true → draining (pod l) = true ∧ covered l serving []
}.

Lemma is_cancelled_on_socket f c c' p :
  (∀ k, sk_cancelled k = true → sk_cancelled (f k) = true) →
  is_cancelled c' p = true → is_cancelled c' (on_socket f c p) = true.
Proof.
  intros Hf. unfold is_cancelled. simpl. destruct (decide (c' = c)) as [->|Hne].
  - rewrite lookup_alter_eq. destruct (sockets p !! c) as [k|]; simpl; [apply Hf|done].
  - by rewrite lookup_alter_ne.
Qed.

Lemma is_cancelled_set f c p :
  (∀ k, sk_cancelled (f k) = true) → is_Some (sockets p !! c) → is_cancelled c (on_socket f c p) = true.
Proof. intros Hf [k Hk]. unfold is_cancelled. simpl. rewrite lookup_alter_eq, Hk. apply Hf. Qed.

Lemma covered_mono l l' Q todo :
  covered l Q todo →
  (∀ c ph, handlers l' !! c = Some ph → Q ph → cancelled l' c ∨ ∃ ph0, handlers l !! c = Some ph0 ∧ Q ph0) →
  (∀ c, is_Some (handlers l' !! c) → cancelled l c → cancelled l' c) →
  covered l' Q todo.
Proof.
  intros Hc Hin Hk c ph Hp HQ. destruct (Hin c ph Hp HQ) as [|(ph0 & H0 & HQ0)]; [by left|].
  destruct (Hc c ph0 H0 HQ0); [left; eauto|by right].
Qed.

(** A step that leaves the walks alone: what it has to show of the handlers it moved. *)
Lemma life_ok_move l l' :
  life_ok l →
  (∀ c ph, handlers l' !! c = Some ph →
     is_Some (sockets (pod l') !! c) ∧ community_connections (pod l') !! c = Some (phase_community ph) ∧
     (in_manager ph → is_Some (connections (pod l') !! c)) ∧ (cancelled l c → cancelled l' c) ∧
     (∀ s, admitted s ph → cancelled l' c ∨ s ∉ archived l ∨ ∃ ph0, handlers l !! c = Some ph0 ∧ admitted s ph0) ∧
     (serving ph → cancelled l' c ∨ draining (pod l) = false ∨ ∃ ph0, handlers l !! c = Some ph0 ∧ serving ph0)) →
  (draining (pod l) = true → draining (pod l') = true) → archived l ⊆ archived l' →
  sweeps l' = sweeps l → closed l' = closed l → drained l' = drained l →
  life_ok l'.
Proof.
  intros [H1 H2 H3 H4 H5 H6] Hh Hd Ha Es Ec Ed.
  assert (∀ c, is_Some (handlers l' !! c) → cancelled l c → cancelled l' c) as Hk.
  { intros c [ph Hp]. by apply (Hh c ph). }
  assert (∀ s todo, s ∈ archived l → covered l (admitted s) todo → covered l' (admitted s) todo) as HA.
  { intros s todo Hs Hc. eapply covered_mono; [done| |done]. intros c ph Hp Hq.
    destruct (Hh c ph Hp) as (_ & _ & _ & _ & Hadm & _). destruct (Hadm s Hq) as [|[|]]; auto. done. }
  assert (∀ todo, draining (pod l) = true → covered l serving todo → covered l' serving todo) as HS.
  { intros todo Hs Hc. eapply covered_mono; [done| |done]. intros c ph Hp Hq.
    destruct (Hh c ph Hp) as (_ & _ & _ & _ & _ & Hsrv). destruct (Hsrv Hq) as [|[|]]; auto. congruence. }
  split.
  - intros c ph Hp. by apply (Hh c ph).
  - intros c ph Hp. by apply (Hh c ph).
  - intros c ph Hp. by apply (Hh c ph).
  - rewrite Es. intros w Hw. specialize (H4 w Hw). destruct w as [s [] todo|todo]; [|done|].
    + destruct H4. split; [set_solver|auto].
    + destruct H4. split; auto.
  - rewrite Ec. intros s Hs. destruct (H5 s Hs). split; [set_solver|auto].
  - rewrite Ed. intros Hs. destruct (H6 Hs). split; auto.
Qed.

(** A walk that shrank, or ended, and no handler moved. *)
Lemma covered_visit l l' Q c todo :
  covered l Q (c :: todo) → handlers l' = handlers l → (∀ c, cancelled l c → cancelled l' c) →
  (∀ ph, handlers l !! c = Some ph → Q ph → cancelled l' c) →
  covered l' Q todo.
Proof.
  intros Hc Hh Hk Hv c' ph. rewrite Hh. intros Hp HQ.
  destruct (Hc c' ph Hp HQ) as [|[->|]%elem_of_cons]; [left; auto|left; eauto|by right].
Qed.

Lemma covered_frame l l' Q todo :
  covered l Q todo → handlers l' = handlers l → (∀ c, cancelled l c → cancelled l' c) → covered l' Q todo.
Proof. intros Hc Hh Hk c' ph. rewrite Hh. intros Hp HQ. destruct (Hc c' ph Hp HQ); auto. Qed.

Lemma cancelled_control c c' p :
  is_cancelled c' p = true → is_cancelled c' (on_socket control_disconnect c p) = true.
Proof. by apply is_cancelled_on_socket. Qed.

Lemma sk_cancelled_drain k : sk_cancelled (drain_signal k) = true.
Proof. done. Qed.

Lemma cancelled_drain c c' p : is_cancelled c' p = true → is_cancelled c' (on_socket drain_signal c p) = true.
Proof. by apply is_cancelled_on_socket. Qed.

Lemma cancelled_cancel c c' p : is_cancelled c' p = true → is_cancelled c' (on_socket cancel c p) = true.
Proof. by apply is_cancelled_on_socket. Qed.

Lemma is_Some_on_socket f c c' p : is_Some (sockets p !! c') → is_Some (sockets (on_socket f c p) !! c').
Proof. intros Hs. simpl. rewrite lookup_alter_is_Some. done. Qed.

#[local] Hint Resolve cancelled_control cancelled_drain cancelled_cancel is_Some_on_socket : life.

(** The step touches the objects of one connection only. *)
Definition only (c : ConnId) (p p' : Pod) : Prop :=
  ∀ c', c' ≠ c → sockets p' !! c' = sockets p !! c' ∧
    community_connections p' !! c' = community_connections p !! c' ∧ connections p' !! c' = connections p !! c'.

Lemma only_trans c p1 p2 p3 : only c p1 p2 → only c p2 p3 → only c p1 p3.
Proof. intros H1 H2 c' Hne. destruct (H1 c' Hne) as (? & ? & ?), (H2 c' Hne) as (? & ? & ?). split_and!; congruence. Qed.

Lemma only_refl c p : only c p p.
Proof. done. Qed.

Lemma only_on_socket c f p : only c p (on_socket f c p).
Proof. intros c' Hne. simpl. by rewrite lookup_alter_ne. Qed.

Lemma only_drop c p : only c p (registry_drop c p).
Proof. intros c' Hne. simpl. by rewrite lookup_delete_ne. Qed.

Lemma only_deregister c p : only c p (deregister c p).
Proof. intros c' Hne. simpl. by rewrite lookup_delete_ne. Qed.

Lemma only_insert c s grace p : only c p (manager_insert c s grace p).
Proof. intros c' Hne. simpl. by rewrite lookup_insert_ne. Qed.

Lemma only_check c p : only c p (manager_check_draining c p).
Proof. unfold manager_check_draining. destruct (draining p); [apply only_on_socket|done]. Qed.

#[local] Hint Resolve only_refl only_on_socket only_drop only_deregister only_insert only_check : life.

(** The handler at [c] moves to [new], or ends. *)
Lemma life_ok_at c new l l' :
  life_ok l → handlers l' = partial_alter (λ _, new) c (handlers l) → only c (pod l) (pod l') →
  match new with
  | Some ph =>
      is_Some (sockets (pod l') !! c) ∧ community_connections (pod l') !! c = Some (phase_community ph) ∧
      (in_manager ph → is_Some (connections (pod l') !! c)) ∧ (cancelled l c → cancelled l' c) ∧
      (∀ s, admitted s ph → cancelled l' c ∨ s ∉ archived l ∨ ∃ ph0, handlers l !! c = Some ph0 ∧ admitted s ph0) ∧
      (serving ph → cancelled l' c ∨ draining (pod l) = false ∨ ∃ ph0, handlers l !! c = Some ph0 ∧ serving ph0)
  | None => True
  end →
  draining (pod l') = draining (pod l) → archived l' = archived l →
  sweeps l' = sweeps l → closed l' = closed l → drained l' = drained l →
  life_ok l'.
Proof.
  intros Hok Eh Ho Hn Ed Ea Es Ec Edr. apply (life_ok_move l l' Hok); [|congruence|by rewrite Ea|done..].
  intros c' ph. rewrite Eh. destruct (decide (c' = c)) as [->|Hne].
  - rewrite lookup_partial_alter_eq. intros ->. done.
  - rewrite lookup_partial_alter_ne by done. intros Hp. destruct (Ho c' Hne) as (E1 & E2 & E3).
    unfold cancelled, is_cancelled. rewrite E1, E2, E3.
    split_and!; [by eapply lok_socket|by eapply lok_registry|by eapply lok_manager|done| |]; eauto 10.
Qed.

Section preserve.
Context (grace : N).

Lemma cancelled_set f c l : (∀ k, sk_cancelled (f k) = true) → is_Some (sockets (pod l) !! c) →
  is_cancelled c (on_socket f c (pod l)) = true.
Proof. apply is_cancelled_set. Qed.

Lemma handler_step_ok l l' :
  life_ok l → life_step grace l l' → handlers l' ≠ handlers l → life_ok l'.
Proof.
  intros Hok Hs Hne. destruct Hs; simpl in Hne; try (by destruct Hne);
    pose proof (lok_socket l Hok c) as Hsk; pose proof (lok_registry l Hok c) as Hr;
    pose proof (lok_manager l Hok c) as Hm.
  - apply (life_ok_at c (Some (Registered s)) l); simpl; try done.
    + intros c' Hc. simpl. by rewrite !lookup_insert_ne.
    + rewrite !lookup_insert_eq. split_and!; [by eexists|done|done| |by intros|done]. unfold cancelled, is_cancelled. by rewrite H0.
  - apply (life_ok_at c (Some (Checked s)) l); simpl; try done.
    split_and!; [by eapply Hsk|by apply (Hr (Registered s))|done|done| |done]. intros s' ->. auto.
  - apply (life_ok_at c None l); simpl; try done. eapply only_trans; [apply only_on_socket|apply only_drop].
  - apply (life_ok_at c None l); simpl; try done. apply only_drop.
  - apply (life_ok_at c (Some (Running s)) l); simpl; try done.
    split_and!; [by eapply Hsk|by apply (Hr (Checked s))|done|done| |done]. intros s' ->. right. right. by eexists.
  - apply (life_ok_at c (Some (Leaving s)) l); simpl; try done; [apply only_on_socket|].
    split_and!; [apply is_Some_on_socket; by eapply Hsk|by apply (Hr (Running s))|done| | |done].
    + intros _. apply cancelled_set; [done|by eapply Hsk].
    + intros s' ->. left. apply cancelled_set; [done|by eapply Hsk].
  - apply (life_ok_at c (Some (Inserted s)) l); simpl; try done; [apply only_insert|].
    split_and!; [by eapply Hsk|by apply (Hr (Running s))|by rewrite lookup_insert_eq|done| |done]. intros s' ->. right. right. by eexists.
  - unfold manager_check_draining. destruct (draining (pod l)) eqn:Ed.
    + apply (life_ok_at c (Some (Serving s)) l); simpl; try done; [apply only_on_socket|].
      assert (is_cancelled c (on_socket drain_signal c (pod l)) = true) as Hc by (apply cancelled_set; [done|by eapply Hsk]).
      split_and!; [apply is_Some_on_socket; by eapply Hsk|by apply (Hr (Inserted s))|intros _; by apply (Hm (Inserted s))|done|auto..].
    + apply (life_ok_at c (Some (Serving s)) l); simpl; try done.
      split_and!; [by eapply Hsk|by apply (Hr (Inserted s))|intros _; by apply (Hm (Inserted s))|done| |auto].
      intros s' ->. right. right. by eexists.
  - apply (life_ok_at c (Some (Leaving s)) l); simpl; try done; [apply only_deregister|].
    split_and!; [by eapply Hsk|by apply (Hr (Serving s))|done|done|auto|done].
  - apply (life_ok_at c None l); simpl; try done. apply only_drop.
Qed.

(** The other steps. *)
Lemma quiet_step_ok l l' :
  life_ok l → life_step grace l l' → handlers l' = handlers l → life_ok l'.
Proof.
  intros Hok Hs Eh.
  assert (∀ p, (∀ c, is_Some (sockets (pod l) !! c) → is_Some (sockets p !! c)) →
    community_connections p = community_connections (pod l) → connections p = connections (pod l) →
    (∀ c, is_cancelled c (pod l) = true → is_cancelled c p = true) → (draining (pod l) = true → draining p = true) →
    ∀ ar, archived l ⊆ ar → life_ok (mkLife p ar (handlers l) (sweeps l) (closed l) (drained l))) as Hpod.
  { intros p H1 H2 H3 H4 H5 ar Ha. apply (life_ok_move l); simpl; try done. intros c ph Hp. unfold cancelled. simpl.
    rewrite H2, H3. split_and!; [by eapply H1, lok_socket|by eapply lok_registry|by eapply lok_manager|auto|eauto 10|eauto 10]. }
  destruct Hs; simpl in Eh;
    try (exfalso; apply (f_equal (lookup c)) in Eh; rewrite ?lookup_insert_eq, ?lookup_delete_eq in Eh; congruence).
  - apply Hpod; auto with life.
  - by apply (Hpod (pod l)); auto; set_solver.
  - split; simpl; try apply Hok.
    + intros w (w0 & -> & Hw)%list_elem_of_fmap. pose proof (lok_sweep l Hok w0 Hw) as Hok0.
      destruct w0 as [s' b todo|todo]; simpl; [|done]. destruct (decide (s' = s)) as [->|Hn]; simpl; [done|].
      destruct b; [|done]. destruct Hok0. split; [set_solver|done].
    + intros s' [Hs Hn]%elem_of_difference. destruct (lok_closed l Hok s' Hs). split; [set_solver|done].
  - split; simpl; try apply Hok. intros w [->|Hw]%elem_of_cons; [|by apply (lok_sweep l Hok)].
    case_bool_decide; [|done]. split; [done|]. intros c ph Hp Hq. right.
    apply (elem_of_list_to_set (C:=gset N)), H, elem_of_dom. exists s. rewrite (lok_registry l Hok c ph Hp). f_equal.
    by destruct ph.
  - assert (∀ c', is_cancelled c' (pod l) = true → is_cancelled c' (disconnect_community_visit s c (pod l)) = true) as Hk.
    { unfold disconnect_community_visit. repeat case_match; auto with life. }
    destruct (Hpod (disconnect_community_visit s c (pod l))) with (ar := archived l) as [K1 K2 K3 K4 K5 K6]; simpl; try done;
      [unfold disconnect_community_visit; repeat case_match; auto with life..|].
    split; simpl; try done. intros w Hw. rewrite elem_of_app, elem_of_cons in Hw.
    destruct Hw as [Hw|[->|Hw]]; [apply (K4 w); simpl; rewrite H; set_solver| |apply (K4 w); simpl; rewrite H; set_solver].
    destruct b; [|done]. destruct (lok_sweep l Hok (SweepCommunity s true (c :: ids))) as [Ha Hc]; [rewrite H; set_solver|].
    split; [done|]. apply (covered_visit l _ _ c); try done. intros ph Hp Hq. unfold cancelled. simpl.
    unfold disconnect_community_visit. rewrite (lok_registry l Hok c ph Hp), decide_True by (by destruct ph).
    apply cancelled_set; [done|by eapply lok_socket].
  - split; simpl; try apply Hok.
    + intros w Hw. apply (lok_sweep l Hok w). rewrite H. set_solver.
    + intros s' Hs. assert (s' ∈ closed l ∨ b = true ∧ s' = s) as [Hc|[-> ->]] by (destruct b; set_solver).
      * by apply (lok_closed l Hok).
      * apply (lok_sweep l Hok (SweepCommunity s true [])). rewrite H. set_solver.
  - apply Hpod; auto with life.
  - split; simpl; try apply Hok. intros w [->|Hw]%elem_of_cons; [|by apply (lok_sweep l Hok)].
    split; [done|]. intros c ph Hp Hq. right.
    apply (elem_of_list_to_set (C:=gset N)), H0, elem_of_dom. apply (lok_manager l Hok c ph Hp). by destruct ph.
  - assert (∀ c', is_cancelled c' (pod l) = true → is_cancelled c' (drain_visit c (pod l)) = true) as Hk.
    { unfold drain_visit. case_match; auto with life. }
    destruct (Hpod (drain_visit c (pod l))) with (ar := archived l) as [K1 K2 K3 K4 K5 K6]; simpl; try done;
      [unfold drain_visit; case_match; auto with life..|].
    split; simpl; try done. intros w Hw. rewrite elem_of_app, elem_of_cons in Hw.
    destruct Hw as [Hw|[->|Hw]]; [apply (K4 w); simpl; rewrite H; set_solver| |apply (K4 w); simpl; rewrite H; set_solver].
    destruct (lok_sweep l Hok (SweepDrain (c :: ids))) as [Ha Hc]; [rewrite H; set_solver|].
    split; [unfold drain_visit; case_match; done|]. apply (covered_visit l _ _ c); try done. intros ph Hp Hq. unfold cancelled. simpl.
    destruct (lok_manager l Hok c ph Hp) as [e He]; [by destruct ph|].
    unfold drain_visit. rewrite He. apply cancelled_set; [done|by eapply lok_socket].
  - split; simpl; try apply Hok.
    + intros w Hw. apply (lok_sweep l Hok w). rewrite H. set_solver.
    + intros _. apply (lok_sweep l Hok (SweepDrain [])). rewrite H. set_solver.
Qed.

End preserve.

Lemma life_ok_init : life_ok life_init.
Proof. split; simpl; try done; intros *; rewrite ?lookup_empty; set_solver. Qed.

Section guarantees.
Context (grace : N).

Lemma phase_eq_dec : EqDecision Phase.
Proof. solve_decision. Defined.
#[local] Existing Instance phase_eq_dec.

Lemma life_reachable_ok l : rtc (life_step grace) life_init l → life_ok l.
Proof.
  intros Hr. remember life_init as l0 eqn:E. assert (life_ok l0) as H0 by (subst; apply life_ok_init). clear E.
  induction Hr as [|l1 l2 l3 Hs _ IH]; [done|]. apply IH.
  destruct (decide (handlers l2 = handlers l1)); [by eapply quiet_step_ok|by eapply handler_step_ok].
Qed.

(** C32: Whatever interleaving of handlers, walks and database writes: once a walk for an
    archived community that started after the archival has ended, every handler of that
    community that passed its database check is cancelled, those that registered during
    the walk included; and once the walk of a drain has ended, so is every handler that
    is serving.  No connection outlives an archival or a shutdown. *)
Theorem no_connection_outlives l :
  rtc (life_step grace) life_init l →
  (∀ s c ph, s ∈ closed l → handlers l !! c = Some ph → admitted s ph → is_cancelled c (pod l) = true) ∧
  (∀ c ph, drained l = true → handlers l !! c = Some ph → serving ph → is_cancelled c (pod l) = true).
Proof.
  intros Hr. apply life_reachable_ok in Hr as [_ _ _ _ H5 H6]. split.
  - intros s c ph Hs Hp Hq. destruct (H5 s Hs) as [_ Hc]. by destruct (Hc c ph Hp Hq) as [|?%not_elem_of_nil].
  - intros c ph Hd Hp Hq. destruct (H6 Hd) as [_ Hc]. by destruct (Hc c ph Hp Hq) as [|?%not_elem_of_nil].
Qed.

End guarantees.

(** ** The loops, run alone *)

Section loops.
Context `{!MapIter N} {DbError : Type}.

(** [disconnect_community]: the number of sockets closed. *)
Definition disconnect_community (s : CommunityId) (p : Pod) : N * Pod :=
  foldl (λ r e, if decide (e.2 = s) then (r.1 + 1, disconnect_community_visit s e.1 r.2)%N else r)
        (0%N, p) (hiter (community_connections p)).

(** One community of [revalidate_registered_communities]. *)
Definition revalidate_one (check_active : CommunityId → result DbError bool)
    (r : (N * list (CommunityId * DbError)) * Pod) (s : CommunityId) : (N * list (CommunityId * DbError)) * Pod :=
  let '((n, failures), p) := r in
  match check_active s with
  | Ok false => let '(m, p) := disconnect_community s p in ((n + m, failures)%N, p)
  | Ok true => r
  | Err e => ((n, failures ++ [(s, e)]), p)
  end.

(** [communities] is [bound_communities] in the order the set is walked. *)
Definition revalidate_registered_communities (check_active : CommunityId → result DbError bool)
    (communities : list CommunityId) (p : Pod) : (N * list (CommunityId * DbError)) * Pod :=
  foldl (revalidate_one check_active) ((0%N, []), p) communities.

Definition drain_all (p : Pod) : N * Pod :=
  foldl (λ r e, (r.1 + 1, drain_visit e.1 r.2)%N) (0%N, set_draining true p) (hiter (connections p)).

Lemma visit_registry s c p :
  community_connections (disconnect_community_visit s c p) = community_connections p ∧
  connections (disconnect_community_visit s c p) = connections p ∧
  ∀ c', sockets (disconnect_community_visit s c p) !! c' =
    (if decide (c' = c ∧ community_connections p !! c = Some s) then control_disconnect <$> sockets p !! c'
     else sockets p !! c').
Proof.
  unfold disconnect_community_visit. destruct (community_connections p !! c) as [s'|] eqn:E.
  2: { split_and!; [done..|]. intros c'. by rewrite decide_False by naive_solver. }
  destruct (decide (s' = s)) as [->|Hn]; simpl; (split_and!; [done..|]); intros c'.
  - destruct (decide (c' = c)) as [->|Hc].
    + by rewrite lookup_alter_eq, decide_True by done.
    + by rewrite lookup_alter_ne, decide_False by naive_solver.
  - by rewrite decide_False by naive_solver.
Qed.

Lemma disconnect_community_spec s p :
  community_connections (disconnect_community s p).2 = community_connections p ∧
  connections (disconnect_community s p).2 = connections p ∧
  ∀ c, sockets (disconnect_community s p).2 !! c =
    (if decide (community_connections p !! c = Some s) then control_disconnect <$> sockets p !! c
     else sockets p !! c).
Proof.
  unfold disconnect_community.
  assert (∀ l n q, NoDup l.*1 → community_connections q = community_connections p →
    (∀ e, e ∈ l → community_connections p !! e.1 = Some e.2) →
    let q' := (foldl (λ r e, if decide (e.2 = s) then (r.1 + 1, disconnect_community_visit s e.1 r.2)%N else r) (n, q) l).2 in
    community_connections q' = community_connections p ∧ connections q' = connections q ∧
    ∀ c, sockets q' !! c = (if decide ((c, s) ∈ l) then control_disconnect <$> sockets q !! c else sockets q !! c)) as Hgen.
  { induction l as [|[i s'] l IH]; intros n q Hnd Eq Hl; cbn [foldl].
    - split_and!; [done..|]. intros c. by rewrite decide_False by set_solver.
    - apply NoDup_cons in Hnd as [Hi Hnd]. simpl in Hi.
      assert (∀ e, e ∈ l → community_connections p !! e.1 = Some e.2) as Hl' by (intros e He; apply Hl; by right).
      pose proof (Hl (i, s') ltac:(left)) as Hr. simpl in Hr. cbn [snd fst]. destruct (decide (s' = s)) as [->|Hn].
      + destruct (visit_registry s i q) as (V1 & V2 & V3).
        destruct (IH (n + 1)%N (disconnect_community_visit s i q)) as (I1 & I2 & I3); [done|congruence|done|].
        split_and!; [done|congruence|]. intros c. rewrite I3, V3. destruct (decide (c = i)) as [->|Hc].
        * rewrite decide_False by (intros Hin; apply Hi, list_elem_of_fmap; by exists (i, s)).
          rewrite decide_True by (split; [done|congruence]). by rewrite decide_True by (left).
        * rewrite (decide_False (P:=c = i ∧ _)) by naive_solver. destruct (decide ((c, s) ∈ l)) as [Hin|Hin].
          -- by rewrite decide_True by (by right).
          -- by rewrite decide_False by set_solver.
      + destruct (IH n q Hnd Eq Hl') as (I1 & I2 & I3). split_and!; [done..|]. intros c. rewrite I3.
        destruct (decide ((c, s) ∈ l)) as [Hin|Hin].
        * by rewrite decide_True by (by right).
        * by rewrite decide_False by set_solver. }
  destruct (Hgen (hiter (community_connections p)) 0%N p) as (G1 & G2 & G3); [apply NoDup_hiter_fst|done| |].
  { intros [c s'] He. by apply elem_of_hiter. }
  split_and!; [done..|]. intros c. rewrite G3. destruct (decide (community_connections p !! c = Some s)) as [E|E].
  - rewrite decide_True; [done|]. by apply elem_of_hiter.
  - rewrite decide_False; [done|]. by rewrite elem_of_hiter.
Qed.

Definition found_inactive (x : result DbError bool) : bool := match x with Ok false => true | _ => false end.

(** A revalidation closes exactly the sockets of the communities the database reports
    inactive; a failed lookup closes none. *)
Lemma revalidate_spec check communities p c k s :
  NoDup communities → sockets p !! c = Some k → community_connections p !! c = Some s →
  sockets (revalidate_registered_communities check communities p).2 !! c =
    Some (if decide (s ∈ communities ∧ found_inactive (check s) = true) then control_disconnect k else k).
Proof.
  unfold revalidate_registered_communities. generalize (0%N, @nil (CommunityId * DbError)).
  intros acc Hnd Hk Hs. revert acc p k Hk Hs. induction communities as [|s' l IH]; intros acc p k Hk Hs; cbn [foldl].
  { rewrite decide_False by set_solver. done. }
  apply NoDup_cons in Hnd as [Hn Hnd]. specialize (IH Hnd). unfold revalidate_one at 2. destruct acc as [n failures].
  assert (∀ acc, s' ≠ s ∨ found_inactive (check s') = false →
    sockets (foldl (revalidate_one check) (acc, p) l).2 !! c =
    Some (if decide (s ∈ s' :: l ∧ found_inactive (check s) = true) then control_disconnect k else k)) as Hskip.
  { intros acc Hor. rewrite (IH acc p k Hk Hs). destruct (decide (s ∈ l ∧ _)) as [Hd|Hd].
    - rewrite decide_True; [done|]. split; [right|]; tauto.
    - rewrite decide_False; [done|]. intros [[->|?]%elem_of_cons Hf]; [destruct Hor; [done|congruence]|tauto]. }
  destruct (check s') as [[]|e] eqn:Ec; [by apply Hskip; right| |by apply Hskip; right].
  destruct (disconnect_community_spec s' p) as (D1 & D2 & D3). destruct (disconnect_community s' p) as [m q]. simpl in *.
  destruct (decide (s' = s)) as [->|Hne].
  - rewrite (IH _ q (control_disconnect k)); [|by rewrite D3, Hs, decide_True, Hk|congruence].
    rewrite decide_False by tauto. rewrite decide_True; [done|]. split; [left|by rewrite Ec].
  - rewrite (IH _ q k); [|rewrite D3, Hs, decide_False; [done|congruence]|congruence].
    destruct (decide (s ∈ l ∧ _)) as [Hd|Hd].
    + rewrite decide_True; [done|]. split; [right|]; tauto.
    + rewrite decide_False; [done|]. intros [[->|?]%elem_of_cons Hf]; [done|tauto].
Qed.

End loops.

(** ** Examples *)

Module LifecycleDemo.

(** Connection 1 passes its database check before community 7 is archived, connection 2
    registers during the walk; both end up stopped. *)
Lemma archived_while_connecting :
  ∃ l, rtc (life_step 3) life_init l ∧ 7%N ∈ closed l ∧
       handlers l !! 1%N = Some (Checked 7) ∧ handlers l !! 2%N = Some (Registered 7).
Proof.
  eexists. split.
  - eapply rtc_l; [by apply (ls_register _ _ 1 7 "x")|].
    eapply rtc_l; [apply (ls_active _ _ 1 7); [reflexivity|set_solver]|].
    eapply rtc_l; [apply (ls_archive _ _ 7)|].
    eapply rtc_l; [apply (ls_disconnect _ _ 7 [1%N]); vm_compute; set_solver|].
    eapply rtc_l; [by apply (ls_register _ _ 2 7 "y")|].
    eapply rtc_l; [by apply (ls_disconnect_visit _ _ 7 true 1 [] [] [])|].
    eapply rtc_l; [by apply (ls_disconnect_end _ _ 7 true [] [])|]. apply rtc_refl.
  - split_and!; [vm_compute; set_solver|reflexivity|reflexivity].
Qed.

Lemma no_connection_outlives_witness :
  ∃ l, handlers l !! 1%N = Some (Checked 7) ∧ is_cancelled 1 (pod l) = true.
Proof.
  destruct archived_while_connecting as (l & Hr & Hc & H1 & H2). exists l. split; [exact H1|].
  by apply (proj1 (no_connection_outlives 3 l Hr) 7%N 1%N (Checked 7)).
Defined.

End LifecycleDemo.
