(* ===== verification/RateLimit.v ===== *)
(** * Rate limits and admission

    The interface and keys of [buzz-auth/src/rate_limit.rs], the Redis limiter of
    [buzz-pubsub/src/rate_limiter.rs] and the admission checks of
    [buzz-relay/src/admission.rs].  The script is one atomic step, the repair of a key
    without expiry a second command; any other clients' commands may come between. *)

From stdpp Require Import base gmap strings list sorting.
From Stdlib Require Import Ascii.
From S2P Require Import Prelude Nostr Redis RedisClock Tenant Auth.

(** ** [rate_limit.rs] *)

Record RateLimitResult := mkLimit { allowed : bool; current : N; limit : N; reset_in_secs : N }.

Definition limit_allowed (current limit reset_in_secs : N) : RateLimitResult := mkLimit true current limit reset_in_secs.
Definition limit_denied (current limit reset_in_secs : N) : RateLimitResult := mkLimit false current limit reset_in_secs.

Inductive LimitType := Messages | ApiCalls | WsEvents | IpConnections.

#[global] Instance limit_type_eq_dec : EqDecision LimitType.
Proof. solve_decision. Defined.

Definition key_suffix (t : LimitType) : string :=
  match t with Messages => "msg" | ApiCalls => "api" | WsEvents => "ws" | IpConnections => "conn" end.

Record RateLimitConfig := mkLimits {
  human_messages_per_min : N;
  human_api_calls_per_min : N;
  human_ws_events_per_sec : N;
  agent_standard_messages_per_min : N;
  agent_standard_api_calls_per_min : N;
  agent_elevated_messages_per_min : N;
  agent_platform_messages_per_min : N
}.

Definition default_config : RateLimitConfig := mkLimits 60 300 10 120 600 300 600.

Section limiter.
Context `{NostrApi} `{ClockApi}.

Definition rate_limit_key (ctx : TenantContext) (pubkey : PublicKey) (t : LimitType) : string :=
  "buzz:" +:+ uuid_to_string (community ctx) +:+ ":ratelimit:" +:+ id_to_hex pubkey +:+ ":" +:+ key_suffix t.

(** [ip] is the text of the address. *)
Definition ip_rate_limit_key (ip : string) : string := "buzz:ratelimit:ip:" +:+ ip +:+ ":conn".

(** ** [rate_limiter.rs] *)

(** [RATE_LIMIT_SCRIPT]: an error of a command ends the script. *)
Definition rate_limit_script (now : Z) (key : string) (window_secs : N) (r : credis) :
    result string (N * Z) * credis :=
  let '(c, r1) := cincr r now key in
  match c with
  | Err e => (Err e, r1)
  | Ok count =>
      let r2 := if (count =? 1)%N then cexpire r1 now key (as_i64 window_secs) else r1 in
      (Ok (count, cttl r2 now key), r2)
  end.

(** The script sent over a connection. *)
Definition invoke_script (o : outcome) (now : Z) (key : string) (window_secs : N) (r : credis) :
    result AuthError (N * Z) * credis :=
  let '(x, r') := call o (rate_limit_script now key window_secs) r in
  (match x with
   | Ok (Ok ct) => Ok ct
   | Ok (Err e) | Err e => Err (Internal ("Redis rate limit script: " +:+ e))
   end, r').

(** The time until the reset, after repairing a key that has no expiry. *)
Definition repair_ttl (o : outcome) (now : Z) (key : string) (window_secs : N) (ttl : Z) (r : credis) :
    result AuthError N * credis :=
  if (ttl <? 0)%Z then
    let '(x, r') := call o (λ r, (tt, cexpire r now key (as_i64 window_secs))) r in
    (match x with Ok _ => Ok window_secs | Err e => Err (Internal ("Redis EXPIRE repair: " +:+ e)) end, r')
  else (Ok (Z.to_N (Z.max ttl 0)), r).

Definition limit_result (count limit reset_in_secs : N) : RateLimitResult :=
  if (count <=? limit)%N then limit_allowed count limit reset_in_secs
  else limit_denied count limit reset_in_secs.

(** [pool] is the acquisition of the connection; the script runs at [now1], the repair
    at [now2], with [between] done by other clients. *)
Definition run_rate_limit (pool : result string unit) (o1 o2 : outcome) (now1 now2 : Z)
    (between : credis → credis) (key : string) (window_secs limit : N) (r : credis) :
    result AuthError RateLimitResult * credis :=
  match pool with
  | Err e => (Err (Internal ("Redis pool: " +:+ e)), r)
  | Ok _ =>
      let '(x, r1) := invoke_script o1 now1 key window_secs r in
      match x with
      | Err e => (Err e, r1)
      | Ok (count, ttl) =>
          let '(y, r2) := repair_ttl o2 now2 key window_secs ttl (between r1) in
          (let? reset_in_secs := y in Ok (limit_result count limit reset_in_secs), r2)
      end
  end.

Definition check_and_increment (pool : result string unit) (o1 o2 : outcome) (now1 now2 : Z)
    (between : credis → credis) (ctx : TenantContext) (pubkey : PublicKey) (t : LimitType)
    (window_secs limit : N) (r : credis) : result AuthError RateLimitResult * credis :=
  run_rate_limit pool o1 o2 now1 now2 between (rate_limit_key ctx pubkey t) window_secs limit r.

Definition check_ip_connection (pool : result string unit) (o1 o2 : outcome) (now1 now2 : Z)
    (between : credis → credis) (ip : string) (window_secs limit : N) (r : credis) :
    result AuthError RateLimitResult * credis :=
  run_rate_limit pool o1 o2 now1 now2 between (ip_rate_limit_key ip) window_secs limit r.

End limiter.

(** ** [admission.rs] *)

Definition WS_BURST_WINDOW_SECS : N := 5.

Inductive AdmissionError := Exceeded (reset_in_secs : N) | Unavailable.

(** [reply] is what the limiter's [check_and_increment] returned. *)
Definition check_principal (reply : result AuthError RateLimitResult) : result AdmissionError unit :=
  match reply with
  | Ok r => if allowed r then Ok tt else Err (Exceeded (reset_in_secs r))
  | Err _ => Err Unavailable
  end.

Definition ws_admission_budget (per_second_limit : N) : N * N :=
  (WS_BURST_WINDOW_SECS, N.min u64_max (per_second_limit * WS_BURST_WINDOW_SECS)).

(** ** Many clients

    A limiter call is a script step and, when the key had no expiry, a repair step.
    [pending] are the repairs of calls between the two.  Steps of other clients leave
    the limiter's keys alone.  A step is labelled with what the call asked and the count
    it was told, if its reply arrived. *)

Record Check := mkCheck { ck_time : Z; ck_key : string; ck_window : N; ck_limit : N; ck_count : option N }.

(** The call is answered "allowed". *)
Definition check_allowed (c : Check) : bool :=
  match ck_count c with Some n => (n <=? ck_limit c)%N | None => false end.

Section runs.
Context {napi : NostrApi} {capi : ClockApi}.

Definition limiter_key (key : string) : Prop :=
  (∃ ctx pubkey t, key = rate_limit_key ctx pubkey t) ∨ (∃ ip, key = ip_rate_limit_key ip).

Definition world : Type := credis * list (string * N).

Inductive limiter_step (now : Z) : world → option Check → world → Prop :=
| step_script o key w limit r pending x r' :
    invoke_script o now key w r = (x, r') →
    limiter_step now (r, pending)
      (Some (mkCheck now key w limit (match x with Ok (c, _) => Some c | Err _ => None end)))
      (r', match x with Ok (_, ttl) => if (ttl <? 0)%Z then (key, w) :: pending else pending | Err _ => pending end)
| step_repair o key w ttl r before after :
    (ttl < 0)%Z →
    limiter_step now (r, before ++ (key, w) :: after) None ((repair_ttl o now key w ttl r).2, before ++ after)
| step_other r r' pending :
    (∀ key, limiter_key key → look r' now key = look r now key) →
    limiter_step now (r, pending) None (r', pending).

(** Steps at non-decreasing times. *)
Inductive limiter_run : Z → world → list Check → Prop :=
| run_nil now s : limiter_run now s []
| run_step now now' s lab s' tr :
    (now ≤ now')%Z → limiter_step now' s lab s' → limiter_run now' s' tr →
    limiter_run now s (option_list lab ++ tr).

End runs.

(** The checks of a key that were allowed at times from [from] to before [until]. *)
Definition counted (k : string) (from until : Z) (c : Check) : bool :=
  bool_decide (ck_key c = k) && check_allowed c && (from <=? ck_time c)%Z && (ck_time c <? until)%Z.

Definition allowed_count (k : string) (from until : Z) (tr : list Check) : Z :=
  Z.of_nat (length (List.filter (counted k from until) tr)).

(** ** Windows of one key *)

Section window.
Context {napi : NostrApi} {capi : ClockApi} {CL : ClockLaws capi}.
Context (k : string) (w : N) (L : N) (Hw : (0 < w < 9223372036854775808)%N).

Definition W : Z := (1000 * Z.of_N w)%Z.

Lemma W_pos : (0 < W)%Z.
Proof using Hw. unfold W. lia. Qed.

Lemma as_i64_w : as_i64 w = Z.of_N w.
Proof using Hw. unfold as_i64. by rewrite (proj2 (N.ltb_lt _ _)) by lia. Qed.

(** No window is open, or one whose count is [n] and which closes at [t]. *)
Definition window_at (r : credis) (now : Z) (st : option (N * Z)) : Prop :=
  match st with
  | None => look r now k = None
  | Some (n, t) => look r now k = Some (num_to_string n, Some t) ∧ (1 ≤ n ≤ incr_max)%N ∧ (now ≤ t ≤ now + W)%Z
  end.

(** How many windows can start between [s] and [until]. *)
Definition starts (until s : Z) : Z := Z.max 0 ((until - s + W - 1) / W).

(** The calls still to be allowed before [until]. *)
Definition budget (until now : Z) (st : option (N * Z)) : Z :=
  match st with
  | None => Z.of_N L * starts until now
  | Some (n, t) => Z.max 0 (Z.of_N L - Z.of_N n) + Z.of_N L * starts until t
  end.

Lemma starts_mono until s s' : (s ≤ s')%Z → (starts until s' ≤ starts until s)%Z.
Proof using Hw.
  intros Hs. unfold starts. apply Z.max_le_compat_l, Z.div_le_mono; [apply W_pos|lia].
Qed.

Lemma starts_step until s : (s < until)%Z → starts until s = (1 + starts until (s + W))%Z.
Proof using Hw.
  intros Hs. pose proof W_pos. unfold starts.
  replace (until - s + W - 1)%Z with (until - (s + W) + W - 1 + 1 * W)%Z by lia.
  rewrite Z.div_add by lia.
  assert (0 ≤ (until - (s + W) + W - 1) / W)%Z; [apply Z.div_pos|]; lia.
Qed.

Lemma starts_le until s m : (0 ≤ m)%Z → (until - s ≤ m * W)%Z → (starts until s ≤ m)%Z.
Proof using Hw.
  intros Hm Hs. pose proof W_pos. unfold starts. apply Z.max_lub; [done|].
  apply Z.lt_succ_r. apply Z.div_lt_upper_bound; [done|]. lia.
Qed.

Lemma starts_nonneg until s : (0 ≤ starts until s)%Z.
Proof using. apply Z.le_max_l. Qed.

Lemma budget_nonneg until now st : (0 ≤ budget until now st)%Z.
Proof using Hw.
  destruct st as [[n t]|]; simpl; [pose proof (starts_nonneg until t)|pose proof (starts_nonneg until now)]; nia.
Qed.

(** Time passes. *)
Lemma window_pass r now now' st until :
  (now ≤ now')%Z → window_at r now st →
  ∃ st', window_at r now' st' ∧ (budget until now' st' ≤ budget until now st)%Z.
Proof using CL Hw.
  intros Hle Hst. pose proof (look_later r now now' k Hle) as Hl. destruct st as [[n t]|]; simpl in Hst.
  - destruct Hst as (E & Hn & Ht). rewrite E in Hl.
    destruct Hl as [[E' Ht']|(E' & v & t' & Ev & Ht')].
    + exists (Some (n, t)). split; [|done]. split; [done|]. split; [done|].
      specialize (Ht' _ _ eq_refl). lia.
    + exists None. split; [done|]. simplify_eq. simpl.
      pose proof (starts_mono until t' now' Ht'). nia.
  - exists None. split; [by eapply look_gone|]. simpl. pose proof (starts_mono until now now' Hle). nia.
Qed.

(** A count the limiter is told, and what is left of the budget. *)
Definition cost (x : result string (N * Z)) (lim : N) : Z :=
  match x with Ok (c, _) => if (c <=? lim)%N then 1 else 0 | Err _ => 0 end.

Lemma window_script r now st x r' :
  window_at r now st → rate_limit_script now k w r = (x, r') →
  (∀ c ttl, x = Ok (c, ttl) → 0 ≤ ttl)%Z ∧
  ∃ st', window_at r' now st' ∧
    ∀ until lim, (now < until)%Z → (lim ≤ L)%N → (cost x lim + budget until now st' ≤ budget until now st)%Z.
Proof using CL Hw.
  intros Hst. unfold rate_limit_script. destruct st as [[n t]|]; simpl in Hst.
  - destruct Hst as (E & Hn & Ht). destruct (decide (n = incr_max)) as [->|Hmax].
    + destruct (incr_full r now k _ E) as [Herr Hlook].
      destruct (cincr r now k) as [[c|e] r1] eqn:Ei; [done|]. intros [= <- <-]. split; [done|].
      exists (Some (incr_max, t)). split; [|intros; simpl; lia]. split; [|done]. simpl in Hlook. by rewrite Hlook.
    + destruct (incr_look r now k n (Some t)) as [Hok Hlook]; [by rewrite E|lia|].
      destruct (cincr r now k) as [c r1] eqn:Ei. simpl in Hok, Hlook. subst c. cbv beta iota zeta.
      rewrite (proj2 (N.eqb_neq (n + 1) 1)) by lia. intros [= <- <-].
      pose proof (Hlook k) as Hk. rewrite decide_True in Hk by done. split.
      * intros ?? [= <- <-]. pose proof (ttl_spec r1 now k) as Httl. rewrite Hk in Httl. tauto.
      * exists (Some (n + 1, t)%N). split; [split; [done|]; split; [lia|done]|].
        intros u lim Hu Hlim. simpl. destruct (N.leb_spec (n + 1) lim); lia.
  - destruct (incr_look r now k 0 None) as [Hok Hlook]; [by rewrite Hst|done|].
    destruct (cincr r now k) as [c r1] eqn:Ei. simpl in Hok, Hlook. subst c. cbv beta iota zeta.
    change (0 + 1 =? 1)%N with true. cbv beta iota. rewrite as_i64_w. intros [= <- <-].
    set (r2 := cexpire r1 now k (Z.of_N w)).
    assert (look r2 now k = Some (num_to_string (0 + 1), Some (now + W)%Z)) as Hk.
    { unfold r2. rewrite expire_look by lia. rewrite decide_True by done.
      rewrite Hlook, decide_True by done. done. }
    split.
    + intros ?? [= <- <-]. pose proof (ttl_spec r2 now k) as Httl. rewrite Hk in Httl. tauto.
    + exists (Some ((0 + 1)%N, (now + W)%Z)). pose proof W_pos. split; [split; [done|]; split; [done|lia]|].
      intros u lim Hu Hlim. simpl budget. unfold cost. rewrite (starts_step u now Hu).
      pose proof (starts_nonneg u (now + W)). destruct (N.leb_spec (0 + 1) lim); nia.
Qed.

(** Commands on another key. *)
Lemma script_frame now key w' r : key ≠ k → look (rate_limit_script now key w' r).2 now k = look r now k.
Proof using CL.
  intros Hne. unfold rate_limit_script. pose proof (incr_frame r now key k (not_eq_sym Hne)) as Hf.
  destruct (cincr r now key) as [[c|e] r1]; [|done]. simpl in *. destruct (c =? 1)%N; [|done].
  by rewrite expire_frame.
Qed.

Lemma invoke_frame o now key w' r x r' :
  key ≠ k → invoke_script o now key w' r = (x, r') → look r' now k = look r now k.
Proof using CL.
  intros Hne. unfold invoke_script. pose proof (call_state o (rate_limit_script now key w') r) as Hc.
  destruct (call o _ r) as [y r1]. intros [= _ <-]. simpl in Hc.
  destruct Hc as [-> | ->]; [done|by apply script_frame].
Qed.

Lemma repair_frame o now key w' ttl r : key ≠ k → look (repair_ttl o now key w' ttl r).2 now k = look r now k.
Proof using CL.
  intros Hne. unfold repair_ttl. destruct (ttl <? 0)%Z; [|done].
  pose proof (call_state o (λ r, (tt, cexpire r now key (as_i64 w'))) r) as Hc.
  destruct (call o _ r) as [y r1]. simpl in *. destruct Hc as [-> | ->]; [done|by apply expire_frame].
Qed.

Definition reply_of (x : result AuthError (N * Z)) : option N :=
  match x with Ok (c, _) => Some c | Err _ => None end.

(** The same command on this key. *)
Lemma invoke_window o r now st x r' :
  window_at r now st → invoke_script o now k w r = (x, r') →
  (∀ c ttl, x = Ok (c, ttl) → 0 ≤ ttl)%Z ∧
  ∃ st', window_at r' now st' ∧
    ∀ until lim, (now < until)%Z → (lim ≤ L)%N →
      ((if check_allowed (mkCheck now k w lim (reply_of x)) then 1 else 0) + budget until now st'
       ≤ budget until now st)%Z.
Proof using CL Hw.
  intros Hst. unfold invoke_script. destruct (rate_limit_script now k w r) as [y r1] eqn:Es.
  destruct (window_script r now st y r1 Hst Es) as (Httl & st' & Hst' & Hb).
  destruct o as [|e []]; simpl; rewrite ?Es; simpl.
  - destruct y as [[c ttl]|e]; intros [= <- <-]; (split; [naive_solver|]); exists st'; (split; [done|]);
      intros u lim Hu Hlim; specialize (Hb u lim Hu Hlim); exact Hb.
  - intros [= <- <-]. split; [done|]. exists st'. split; [done|]. intros u lim Hu Hlim.
    specialize (Hb u lim Hu Hlim). assert (0 ≤ cost y lim)%Z by (unfold cost; repeat case_match; lia).
    unfold check_allowed. simpl. lia.
  - intros [= <- <-]. split; [done|]. exists st. split; [done|]. intros u lim _ _. simpl. lia.
Qed.

(** Checks of this key in a run use this window and at most this limit. *)
Definition within (c : Check) : Prop := ck_key c = k → ck_window c = w ∧ (ck_limit c ≤ L)%N.

Lemma window_step now r pending st lab s' :
  limiter_key k → window_at r now st → k ∉ pending.*1 →
  limiter_step now (r, pending) lab s' → Forall within (option_list lab) →
  k ∉ s'.2.*1 ∧ ∃ st', window_at s'.1 now st' ∧
    ∀ from until, (now < until)%Z →
      (allowed_count k from until (option_list lab) + budget until now st' ≤ budget until now st)%Z.
Proof using CL Hw.
  intros Hk Hst Hp Hs Hlab. inversion Hs; subst; clear Hs.
  - simpl in Hlab. inversion_clear Hlab as [|?? Hin _]. destruct (decide (key = k)) as [->|Hne].
    + destruct (Hin eq_refl) as [Ew Hlim]. simpl in Ew, Hlim. subst w0.
      destruct (invoke_window o r now st x r' Hst ltac:(done)) as (Httl & st' & Hst' & Hb). split.
      * destruct x as [[c ttl]|e]; [|done]. specialize (Httl c ttl eq_refl). simpl.
        by rewrite (proj2 (Z.ltb_ge _ _)).
      * exists st'. split; [done|]. intros from u Hu. specialize (Hb u limit0 Hu Hlim).
        unfold allowed_count. simpl. unfold counted. fold (reply_of x).
        destruct (check_allowed _); [|simpl; rewrite andb_false_r; simpl in *; lia].
        repeat case_match; simpl; lia.
    + simpl. split.
      * destruct x as [[c ttl]|e]; [|done]. destruct (ttl <? 0)%Z; [|done]. set_solver.
      * exists st. split.
        -- destruct st as [[n t]|]; simpl in *; erewrite invoke_frame; eauto.
        -- intros from u Hu. unfold allowed_count. simpl. unfold counted. simpl.
           rewrite bool_decide_eq_false_2 by done. simpl. lia.
  - simpl. rewrite fmap_app, fmap_cons, not_elem_of_app, not_elem_of_cons in Hp. destruct Hp as (? & Hne & ?).
    split; [rewrite fmap_app, not_elem_of_app; done|]. exists st. split.
    + destruct st as [[n t]|]; simpl in *; by rewrite repair_frame.
    + intros from u Hu. unfold allowed_count. simpl. lia.
  - simpl. split; [done|]. exists st. split.
    + match goal with H : ∀ key, limiter_key key → _ |- _ => specialize (H k Hk) end.
      destruct st as [[n t]|]; simpl in *; congruence.
    + intros from u Hu. unfold allowed_count. simpl. lia.
Qed.

Lemma allowed_count_app from until tr tr' :
  allowed_count k from until (tr ++ tr') = (allowed_count k from until tr + allowed_count k from until tr')%Z.
Proof using. unfold allowed_count. by rewrite List.filter_app, length_app, Nat2Z.inj_add. Qed.

(** Nothing is counted from [until] on. *)
Lemma run_after now s tr from until :
  limiter_run now s tr → (until ≤ now)%Z → allowed_count k from until tr = 0%Z.
Proof using Hw.
  induction 1 as [now s|now now' s lab s' tr Hle Hs Hr IH]; intros Hu; [done|].
  rewrite allowed_count_app, IH by lia. destruct lab as [c|]; [|done].
  assert (ck_time c = now') as Et by (by inversion Hs). unfold allowed_count. simpl. unfold counted. rewrite Et.
  rewrite (proj2 (Z.ltb_ge now' until)) by lia. rewrite andb_false_r. done.
Qed.

(** The calls allowed before [until] stay within the budget. *)
Lemma run_budget now s tr st from until :
  limiter_run now s tr → limiter_key k → window_at s.1 now st → k ∉ s.2.*1 → Forall within tr →
  (allowed_count k from until tr ≤ budget until now st)%Z.
Proof using CL Hw.
  intros Hr Hk. revert st. induction Hr as [now s|now now' s lab s' tr Hle Hs Hr IH]; intros st Hst Hp Hin.
  { apply (budget_nonneg until now st). }
  destruct (decide (until ≤ now')%Z) as [Hu|Hu].
  { assert (limiter_run now' s (option_list lab ++ tr)) as Hr' by (by econstructor).
    rewrite (run_after _ _ _ from until Hr') by done. apply budget_nonneg. }
  rewrite Forall_app in Hin. destruct Hin as [Hlab Hin]. destruct s as [r pending]. simpl in *.
  destruct (window_pass r now now' st until Hle Hst) as (st1 & Hst1 & Hb1).
  destruct (window_step now' r pending st1 lab s' Hk Hst1 Hp Hs Hlab) as (Hp' & st2 & Hst2 & Hb2).
  specialize (Hb2 from until ltac:(lia)). specialize (IH st2 Hst2 Hp' Hin).
  rewrite allowed_count_app. lia.
Qed.

(** A window that is open, or the windows that start from now on. *)
Lemma budget_le now st r until m :
  window_at r now st → (0 ≤ m)%Z → (until - now ≤ m * W)%Z →
  (budget until now st ≤ m * Z.of_N L + Z.max 0 (Z.of_N L - 1))%Z.
Proof using Hw.
  intros Hst Hm Hu. destruct st as [[n t]|]; simpl in *.
  - pose proof (starts_le until t m Hm ltac:(lia)). nia.
  - pose proof (starts_le until now m Hm Hu). nia.
Qed.

(** In an interval of [m] window lengths: what is left of a window open at its start,
    and [m] new windows. *)
Lemma run_bound now s tr st from m :
  limiter_run now s tr → limiter_key k → window_at s.1 now st → k ∉ s.2.*1 → Forall within tr →
  (0 ≤ m)%Z → (allowed_count k from (from + m * W) tr ≤ m * Z.of_N L + Z.max 0 (Z.of_N L - 1))%Z.
Proof using CL Hw.
  intros Hr Hk Hst Hp Hin Hm. revert st Hst Hp Hin.
  induction Hr as [now s|now now' s lab s' tr Hle Hs Hr IH]; intros st Hst Hp Hin.
  { unfold allowed_count. simpl. nia. }
  destruct s as [r pending]. simpl in *.
  destruct (window_pass r now now' st (from + m * W) Hle Hst) as (st1 & Hst1 & _).
  destruct (decide (from ≤ now')%Z) as [Hf|Hf].
  - etransitivity; [|by apply (budget_le now' st1 r (from + m * W) m Hst1 Hm); lia].
    apply (run_budget now' (r, pending)); try done. by econstructor.
  - rewrite Forall_app in Hin. destruct Hin as [Hlab Hin].
    destruct (window_step now' r pending st1 lab s' Hk Hst1 Hp Hs Hlab) as (Hp' & st2 & Hst2 & _).
    rewrite allowed_count_app. specialize (IH st2 Hst2 Hp' Hin).
    assert (allowed_count k from (from + m * W) (option_list lab) = 0%Z) as ->; [|lia].
    destruct lab as [c|]; [|done].
    assert (ck_time c = now') as Et by (by inversion Hs). unfold allowed_count. simpl. unfold counted. rewrite Et.
    rewrite (proj2 (Z.leb_gt from now')) by lia. by rewrite andb_false_r.
Qed.

End window.

(** ** What the limiter guarantees *)

Section guarantees.
Context {napi : NostrApi} {capi : ClockApi} {CL : ClockLaws capi}.

(** C17: Over any interval of [m] window lengths, at most [m] times the limit and once the
    limit less one are allowed for a key -- less than twice the limit in one window
    length -- whatever the clients ask, however their commands interleave and whichever
    calls fail. *)
Theorem rate_limit_bound k w L now r pending tr from (m : nat) :
  limiter_key k → (0 < w < 9223372036854775808)%N →
  (∃ st, window_at k w r now st) → k ∉ pending.*1 →
  limiter_run now (r, pending) tr → Forall (within k w L) tr →
  (allowed_count k from (from + Z.of_nat m * W w) tr ≤ Z.of_nat m * Z.of_N L + Z.max 0 (Z.of_N L - 1))%Z.
Proof using CL.
  intros Hk Hw (st & Hst) Hp Hr Hin. apply (run_bound k w L Hw now (r, pending) tr st); try done. lia.
Qed.

(** A call of the limiter is these steps: what it answers is the check of its script
    step, and its repair runs only on a key without expiry. *)
Lemma run_rate_limit_inv pool o1 o2 now1 now2 between key w lim r res :
  (run_rate_limit pool o1 o2 now1 now2 between key w lim r).1 = Ok res →
  ∃ c ttl r1, invoke_script o1 now1 key w r = (Ok (c, ttl), r1) ∧
    allowed res = (c <=? lim)%N ∧ current res = c ∧ limit res = lim ∧
    (run_rate_limit pool o1 o2 now1 now2 between key w lim r).2 =
      (repair_ttl o2 now2 key w ttl (between r1)).2 ∧
    if (ttl <? 0)%Z then reset_in_secs res = w else reset_in_secs res = Z.to_N ttl.
Proof using.
  unfold run_rate_limit. destruct pool as [_|e]; [|done].
  destruct (invoke_script o1 now1 key w r) as [[[c ttl]|e] r1] eqn:Ei; [|done].
  unfold repair_ttl. destruct (Z.ltb_spec ttl 0) as [Hneg|Hpos].
  - destruct (call o2 _ (between r1)) as [[u|e] r2] eqn:Ec; [|done]. simpl. intros [= <-].
    exists c, ttl, r1. split; [done|]. rewrite (proj2 (Z.ltb_lt ttl 0) Hneg), Ec.
    unfold limit_result. by destruct (c <=? lim)%N.
  - simpl. intros [= <-]. exists c, ttl, r1. split; [done|]. rewrite (proj2 (Z.ltb_ge ttl 0) Hpos), Z.max_l by done.
    unfold limit_result. by destruct (c <=? lim)%N.
Qed.

(** One call on a key whose window holds [n] calls, with the replies delivered: the
    caller is told [n + 1], the limit decides, and the time to the reset is at most the
    window (and the second [TTL] rounds). *)
Theorem rate_limit_exact k w lim r now now2 between n t :
  (0 < w < 9223372036854775808)%N →
  look r now k = Some (num_to_string n, Some t) → (1 ≤ n < incr_max)%N → (now ≤ t ≤ now + W w)%Z →
  ∃ secs r', run_rate_limit (Ok tt) Delivered Delivered now now2 between k w lim r =
    (Ok (mkLimit (n + 1 <=? lim)%N (n + 1) lim secs), r') ∧ (Z.of_N secs ≤ Z.of_N w + 1)%Z ∧ r' = between (cincr r now k).2 ∧
    look (cincr r now k).2 now k = Some (num_to_string (n + 1), Some t).
Proof using CL.
  intros Hw E Hn Ht. destruct (incr_look r now k n (Some t)) as [Hok Hlook]; [by rewrite E|lia|].
  specialize (Hlook k). rewrite decide_True in Hlook by done.
  pose proof (ttl_spec (cincr r now k).2 now k) as Httl. rewrite Hlook in Httl. unfold W in Ht.
  unfold run_rate_limit, invoke_script, rate_limit_script. simpl call.
  destruct (cincr r now k) as [c r1]. simpl in Hok, Hlook, Httl |- *. subst c. cbv beta iota zeta.
  rewrite (proj2 (N.eqb_neq (n + 1) 1)) by lia. unfold repair_ttl.
  rewrite (proj2 (Z.ltb_ge _ _)) by lia. rewrite Z.max_l by lia.
  exists (Z.to_N (cttl r1 now k)), (between r1).
  split; [unfold limit_result; by destruct (n + 1 <=? lim)%N|]. split; [|done]. lia.
Qed.

(** A principal is not locked out: whatever count a key holds, even one without expiry,
    after one more answered call the key is gone once a window has passed, and the next
    call is the first of a new window. *)
Theorem limit_recovers k w lim r now now2 now3 now4 between between' n e :
  (0 < w < 9223372036854775808)%N →
  look r now k = Some (num_to_string n, e) → (n < incr_max)%N →
  (∀ t, e = Some t → t ≤ now + W w)%Z → (now ≤ now2)%Z → (now2 + W w < now3)%Z →
  (∀ r', look (between r') now2 k = look r' now2 k) →
  let r' := (run_rate_limit (Ok tt) Delivered Delivered now now2 between k w lim r).2 in
  look r' now3 k = None ∧
  ∃ secs r'', run_rate_limit (Ok tt) Delivered Delivered now3 now4 between' k w lim r' =
    (Ok (mkLimit (1 <=? lim)%N 1 lim secs), r'').
Proof using CL.
  intros Hw E Hn He H2 H3 Hb. destruct (incr_look r now k n e) as [Hok Hlook]; [by rewrite E|done|].
  specialize (Hlook k). rewrite decide_True in Hlook by done. pose proof (W_pos w Hw) as HW.
  assert (look (run_rate_limit (Ok tt) Delivered Delivered now now2 between k w lim r).2 now3 k = None) as Hnone.
  { unfold run_rate_limit, invoke_script, rate_limit_script. simpl call.
    destruct (cincr r now k) as [c r1]. simpl in Hok, Hlook |- *. subst c. cbv beta iota zeta.
    set (r2 := if (n + 1 =? 1)%N then cexpire r1 now k (as_i64 w) else r1).
    assert (∃ e', look r2 now k = Some (num_to_string (n + 1), e') ∧ ∀ t, e' = Some t → t ≤ now + W w)%Z as (e' & E2 & He').
    { unfold r2. rewrite as_i64_w by done. destruct (n + 1 =? 1)%N; [|eauto].
      exists (Some (now + 1000 * Z.of_N w)%Z). rewrite expire_look, decide_True, Hlook by (done || lia).
      split; [done|]. intros t [= <-]. unfold W. lia. }
    pose proof (ttl_spec r2 now k) as Httl. rewrite E2 in Httl. unfold repair_ttl. destruct e' as [t|].
    - rewrite (proj2 (Z.ltb_ge _ _)) by tauto. simpl. specialize (He' t eq_refl).
      apply (look_expired _ now2 now3 k t); [|lia..]. intros v e' E3. rewrite Hb in E3.
      apply (look_Some_back r2 now now2 k _ H2) in E3. rewrite E2 in E3. simplify_eq. by exists t.
    - rewrite Httl. simpl. rewrite as_i64_w by done.
      apply (look_expired _ now2 now3 k (now2 + W w)); [|lia..]. intros v e' E3.
      rewrite expire_look, decide_True in E3 by (done || lia).
      destruct (look (between r2) now2 k); [|done]. injection E3 as _ <-. eexists. split; [done|]. unfold W. lia. }
  split; [done|]. set (r' := (run_rate_limit _ _ _ _ _ _ _ _ _ r).2) in *. clearbody r'.
  destruct (incr_look r' now3 k 0 None) as [Hok' Hlook']; [by rewrite Hnone|done|].
  unfold run_rate_limit, invoke_script, rate_limit_script. simpl call.
  destruct (cincr r' now3 k) as [c r1]. simpl in Hok', Hlook' |- *. subst c. cbv beta iota zeta.
  change (0 + 1 =? 1)%N with true. cbv beta iota. unfold repair_ttl.
  pose proof (ttl_spec (cexpire r1 now3 k (as_i64 w)) now3 k) as Httl. rewrite expire_look in Httl by (rewrite as_i64_w by done; lia).
  rewrite decide_True, Hlook', decide_True in Httl by done. simpl in Httl.
  rewrite (proj2 (Z.ltb_ge _ _)) by tauto. change (0 + 1)%N with 1%N. unfold limit_result.
  destruct (1 <=? lim)%N; eexists _, _; reflexivity.
Qed.

(** Keys do not mix: two callers share a counter only if they are the same key in the
    same community asking for the same kind of operation. *)
Lemma rate_limit_key_inj {UL : UuidLaws napi} {IL : IdHexLaws napi} ctx ctx' pk pk' t t' :
  (pk < 2 ^ 256)%N → (pk' < 2 ^ 256)%N →
  rate_limit_key ctx pk t = rate_limit_key ctx' pk' t' →
  community ctx = community ctx' ∧ pk = pk' ∧ t = t'.
Proof using.
  intros Hpk Hpk' E. unfold rate_limit_key in E.
  apply (f_equal (split_on ":")) in E.
  assert (∀ c p s, str_contains ":" (key_suffix s) = false →
    split_on ":" ("buzz:" +:+ uuid_to_string c +:+ ":ratelimit:" +:+ id_to_hex p +:+ ":" +:+ key_suffix s) =
    ["buzz"; uuid_to_string c; "ratelimit"; id_to_hex p; key_suffix s]) as Hs.
  { intros c p s Hs. change ("buzz:" +:+ ?x) with ("buzz" +:+ String ":" x). rewrite split_on_app by done. f_equal.
    change (":ratelimit:" +:+ ?x) with (String ":" ("ratelimit" +:+ String ":" x)).
    rewrite split_on_app by apply uuid_no_colon. f_equal. rewrite split_on_app by done. f_equal.
    change (":" +:+ ?x) with (String ":" x). rewrite split_on_app by apply id_hex_no_colon.
    by rewrite split_on_no_sep. }
  rewrite !Hs in E by (by destruct t, t'). injection E as Ec Ep Et.
  split; [by apply uuid_to_string_inj|]. split; [by apply id_to_hex_inj|].
  by destruct t, t'.
Qed.

End guarantees.

(** ** Examples *)

Module RateLimitDemo.
Import ToyClock.

Definition ctx : TenantContext := mkTenant 7 "relay.example".
Definition key : string := rate_limit_key (H:=demo_api) ctx 5%N Messages.

(** Calls on one key with a window of one second and a limit of two. *)
Fixpoint checks (times : list Z) (r : credis (ClockApi:=toy_clock)) : list Check :=
  match times with
  | [] => []
  | t :: times =>
      let '(x, r') := invoke_script (H0:=toy_clock) Delivered t key 1 r in
      mkCheck t key 1 2 (match x with Ok (c, _) => Some c | Err _ => None end) :: checks times r'
  end.

Lemma checks_run times now r pending :
  Sorted Z.le (now :: times) → limiter_run (napi:=demo_api) now (r, pending) (checks times r).
Proof.
  revert now r pending. induction times as [|t times IH]; intros now r pending Hs; [constructor|].
  apply Sorted_inv in Hs as [Hs Ht]. apply HdRel_inv in Ht. simpl.
  destruct (invoke_script (H0:=toy_clock) Delivered t key 1 r) as [x r'] eqn:E.
  eapply (run_step now t _ (Some (mkCheck t key 1 2 _))); [done| |by apply IH]. by econstructor.
Qed.

(** A call that opens a window, two late ones in it, two in the next window. *)
Definition burst : list Check := checks [0; 950; 960; 1001; 1002; 1003]%Z ∅.

Example burst_counts : map ck_count burst = [Some 1; Some 2; Some 3; Some 1; Some 2; Some 3]%N.
Proof. vm_compute. reflexivity. Qed.

(** The bound is reached: three calls in one window length with a limit of two. *)
Example burst_reaches_bound : allowed_count key 900 1900 burst = 3%Z.
Proof. vm_compute. reflexivity. Qed.

Lemma rate_limit_bound_witness :
  (allowed_count key 900 (900 + Z.of_nat 1 * W 1) burst ≤ Z.of_nat 1 * Z.of_N 2 + Z.max 0 (Z.of_N 2 - 1))%Z.
Proof.
  apply (rate_limit_bound (napi:=demo_api) (capi:=toy_clock) key 1 2 0 ∅ []).
  - left. by exists ctx, 5%N, Messages.
  - done.
  - by exists None.
  - apply not_elem_of_nil.
  - apply checks_run. repeat constructor; vm_compute; discriminate.
  - vm_compute. repeat constructor; discriminate.
Defined.

Definition at_limit : credis (ClockApi:=toy_clock) := {[ key := ("2", Some 900%Z) ]}.

Lemma rate_limit_exact_witness :
  ∃ secs r', run_rate_limit (H0:=toy_clock) (Ok tt) Delivered Delivered 100 100 id key 1 2 at_limit =
    (Ok (mkLimit false 3 2 secs), r') ∧ (Z.of_N secs ≤ 2)%Z ∧ r' = (cincr at_limit 100 key).2 ∧
    look (cincr at_limit 100 key).2 100 key = Some (num_to_string 3, Some 900%Z).
Proof.
  apply (rate_limit_exact (capi:=toy_clock) key 1 2 at_limit 100 100 id 2 900); [done|vm_compute; done|done|done].
Defined.

(** A counter that lost its expiry. *)
Definition broken : credis (ClockApi:=toy_clock) := {[ key := ("41", None) ]}.

Lemma limit_recovers_witness :
  ∃ secs r'', run_rate_limit (H0:=toy_clock) (Ok tt) Delivered Delivered 1101 1101 id key 1 2
    (run_rate_limit (H0:=toy_clock) (Ok tt) Delivered Delivered 100 100 id key 1 2 broken).2 =
    (Ok (mkLimit true 1 2 secs), r'').
Proof.
  apply (limit_recovers (capi:=toy_clock) key 1 2 broken 100 100 1101 1101 id id 41 None); try done.
Defined.

End RateLimitDemo.
