(* ===== verification/Bridge.v ===== *)
(** * Authenticated HTTP requests

    The replay guard ([buzz-auth/src/nip98_replay.rs] and its Redis implementation in
    [buzz-pubsub/src/nip98_replay.rs]), bridge authentication
    ([buzz-relay/src/api/bridge.rs]) and the preludes of the invite and operator
    endpoints ([api/invites.rs], [api/operator.rs]).  What the endpoints need of a
    guard is the class [ReplayGuardLaws]; the Redis guard satisfies it. *)

From stdpp Require Import base gmap strings list.
From Stdlib Require Import Ascii.
From Stdlib.Strings Require Import Byte.
From S2P Require Import Prelude Text Nostr Redis RedisClock Tenant MeshWire Auth.

(** ** [nip98_replay.rs] *)

Definition DEFAULT_REPLAY_TTL_SECS : N := 120.
Definition MAX_REPLAY_TTL_SECS : N := 3600.

(** [Nip98ReplayGuard]: [try_mark_in_scope] at a time of the guard's clock.  [gd_env]
    is what a call depends on besides its arguments. *)
Class ReplayGuard := {
  guard : Type;
  gd_env : Type;
  try_mark_in_scope : gd_env → Z → string → EventId → N → guard → result AuthError bool * guard
}.

(** [marked g now scope id e]: at [now] the id is claimed, until [e] at least.  A
    claimed id is not claimed again, a claim lasts for the time to live clamped to
    [120, 3600] seconds, and claims of other ids do not end it. *)
Class ReplayGuardLaws (G : ReplayGuard) := {
  marked : guard → Z → string → EventId → Z → Prop;
  mark_once : ∀ env g now s id ttl e, marked g now s id e → (try_mark_in_scope env now s id ttl g).1 ≠ Ok true;
  mark_claims : ∀ env g now s id ttl, (try_mark_in_scope env now s id ttl g).1 = Ok true →
    marked (try_mark_in_scope env now s id ttl g).2 now s id
      (now + 1000 * Z.of_N (N.min MAX_REPLAY_TTL_SECS (N.max DEFAULT_REPLAY_TTL_SECS ttl)));
  mark_keeps : ∀ env g now s id s' id' ttl e, marked g now s id e →
    marked (try_mark_in_scope env now s' id' ttl g).2 now s id e;
  mark_lasts : ∀ g now now' s id e, marked g now s id e → (now ≤ now' < e)%Z → marked g now' s id e
}.

(** The provided method. *)
Definition try_mark `{NostrApi} `{ReplayGuard} (env : gd_env) (now : Z) (ctx : TenantContext) (id : EventId)
    (ttl_secs : N) (g : guard) : result AuthError bool * guard :=
  try_mark_in_scope env now (uuid_to_string (community ctx)) id ttl_secs g.

(** [buzz-pubsub/src/nip98_replay.rs]. *)
Section redis_guard.
Context `{NostrApi} `{ClockApi}.

Definition nip98_replay_key_for_scope (scope : string) (id : EventId) : string :=
  "buzz:" +:+ scope +:+ ":nip98:" +:+ id_to_hex id.

Definition nip98_replay_key (ctx : TenantContext) (id : EventId) : string :=
  nip98_replay_key_for_scope (uuid_to_string (community ctx)) id.

(** The acquisition of the connection and the fate of the call. *)
Definition redis_mark (env : result string unit * outcome) (now : Z) (scope : string) (id : EventId)
    (ttl_secs : N) (r : credis) : result AuthError bool * credis :=
  let ttl := N.min MAX_REPLAY_TTL_SECS (N.max DEFAULT_REPLAY_TTL_SECS ttl_secs) in
  match env.1 with
  | Err e => (Err (Internal ("Redis pool: " +:+ e)), r)
  | Ok _ =>
      let key := nip98_replay_key_for_scope scope id in
      let '(x, r') := call env.2 (λ r, set_nx_ex r now key "1" (Z.of_N ttl)) r in
      (match x with
       | Err e => Err (Internal ("Redis SET NX EX: " +:+ e))
       | Ok None => Ok false
       | Ok (Some reply) =>
           if decide (reply = "OK") then Ok true
           else Err (Internal ("unexpected SET NX EX reply: " +:+ reply))
       end, r')
  end.

#[global] Instance RedisNip98ReplayGuard : ReplayGuard := {|
  guard := credis;
  gd_env := result string unit * outcome;
  try_mark_in_scope := redis_mark
|}.

End redis_guard.

(** ** [bridge.rs] *)

(** [axum::http::StatusCode] and the body of [api_error]. *)
Record ApiError := mkApiError { status : N; error_text : string }.

Definition UNAUTHORIZED : N := 401.
Definition FORBIDDEN : N := 403.
Definition NOT_FOUND : N := 404.
Definition TOO_MANY_REQUESTS : N := 429.
Definition INTERNAL_SERVER_ERROR : N := 500.
Definition SERVICE_UNAVAILABLE : N := 503.

Definition api_error (status : N) (msg : string) : ApiError := mkApiError status msg.
Definition internal_error : ApiError := mkApiError INTERNAL_SERVER_ERROR "internal server error".

(** [base64::STANDARD.decode] and [PublicKey::from_hex]. *)
Class BridgeApi := {
  base64_decode : string → option bytes;
  public_key_from_hex : string → option PublicKey
}.

(** [HeaderMap]: the value of a header that is present and text. *)
Abbreviation HeaderMap := (string → option string) (only parsing).

Section bridge.
Context `{NostrApi} `{UrlApi} `{AuthApi} `{HexApi} `{BridgeApi} `{ReplayGuard}.

(** The event in an authorization header. *)
Definition header_event (auth_str : string) : result ApiError (string * Event) :=
  match base64_decode auth_str with
  | None => Err (api_error UNAUTHORIZED "invalid base64 in Nostr auth")
  | Some b =>
      match from_utf8 b with
      | None => Err (api_error UNAUTHORIZED "invalid UTF-8 in Nostr auth")
      | Some event_json =>
          match event_from_json event_json with
          | None => Err (api_error UNAUTHORIZED "invalid NIP-98 event JSON")
          | Some event => Ok (event_json, event)
          end
      end
  end.

Definition has_payload_tag (event : Event) : bool :=
  existsb (λ t, bool_decide (tag_kind t = "payload")) (ev_tags (ev event)).

(** The key and the id of the event; the id of a request without one is zero. *)
Definition verify_bridge_auth_with_options (now : Z) (headers : HeaderMap) (method url : string)
    (body : option bytes) (require_auth_token require_payload : bool) :
    result ApiError (PublicKey * EventId) :=
  match s ← headers "authorization"; strip_prefix "Nostr " s with
  | Some auth_str =>
      let? (event_json, event) := header_event auth_str in
      let event_id := ev_id (ev event) in
      if require_payload && negb (has_payload_tag event)
      then Err (api_error UNAUTHORIZED "NIP-98: missing payload tag")
      else
        let? pubkey := map_err (λ e, api_error UNAUTHORIZED "NIP-98")
                         (verify_nip98_event now event_json url method body) in
        Ok (pubkey, event_id)
  | None =>
      match (if require_auth_token then None else headers "x-pubkey") with
      | Some hex_val =>
          match public_key_from_hex hex_val with
          | None => Err (api_error UNAUTHORIZED "invalid X-Pubkey hex")
          | Some pubkey => Ok (pubkey, 0%N)
          end
      | None => Err (api_error UNAUTHORIZED "missing Nostr auth")
      end
  end.

Definition verify_bridge_auth (now : Z) (headers : HeaderMap) (method url : string)
    (body : option bytes) (require_auth_token : bool) : result ApiError (PublicKey * EventId) :=
  verify_bridge_auth_with_options now headers method url body require_auth_token false.

(** The answer of the guard as an HTTP response. *)
Definition replay_response (x : result AuthError bool) : result ApiError unit :=
  match x with
  | Ok true => Ok tt
  | Ok false => Err (api_error UNAUTHORIZED "NIP-98: replay detected")
  | Err _ => Err (api_error UNAUTHORIZED "NIP-98: replay check unavailable")
  end.

Definition check_nip98_replay_with_guard (env : gd_env) (now : Z) (tenant : TenantContext)
    (event_id : EventId) (g : guard) : result ApiError unit * guard :=
  if decide (event_id = 0%N) then (Ok tt, g)
  else let '(x, g') := try_mark env now tenant event_id DEFAULT_REPLAY_TTL_SECS g in
       (replay_response x, g').

(** ** The preludes *)

Definition host_header (headers : HeaderMap) : string := default "" (headers "host").

Definition bind_request {E} (resolver : string → result E (option CommunityId)) (headers : HeaderMap) :
    result ApiError TenantContext :=
  map_err (λ _, api_error NOT_FOUND "relay: no community is configured for this host")
    (bind_community resolver (host_header headers)).

(** [invites.rs], [authenticate]: verified at [now] seconds of the pod's clock, marked
    at [mark_now] of the guard's. *)
Definition authenticate {E} (resolver : string → result E (option CommunityId)) (relay_url : string)
    (now : Z) (env : gd_env) (mark_now : Z) (headers : HeaderMap) (path : string) (body : bytes) (g : guard) :
    result ApiError (TenantContext * PublicKey) * guard :=
  match bind_request resolver headers with
  | Err e => (Err e, g)
  | Ok tenant =>
      match verify_bridge_auth_with_options now headers "POST" (nip98_expected_url relay_url tenant path)
              (Some body) true true with
      | Err e => (Err e, g)
      | Ok (pubkey, event_id) =>
          let '(x, g') := check_nip98_replay_with_guard env mark_now tenant event_id g in
          (let? _ := x in Ok (tenant, pubkey), g')
      end
  end.

(** [operator.rs]. *)
Definition OPERATOR_REPLAY_SCOPE : string := "operator-management".

Definition check_operator_replay (env : gd_env) (now : Z) (event_id : EventId) (g : guard) :
    result ApiError unit * guard :=
  let '(x, g') := try_mark_in_scope env now OPERATOR_REPLAY_SCOPE event_id DEFAULT_REPLAY_TTL_SECS g in
  (replay_response x, g').

Definition path_with_query (path : string) (raw_query : option string) : string :=
  match raw_query with
  | Some q => if decide (q = "") then path else path +:+ "?" +:+ q
  | None => path
  end.

Definition authorize_operator_request (origin : option string) (operators : list string) (now : Z)
    (env : gd_env) (mark_now : Z) (headers : HeaderMap) (method path : string) (raw_query : option string)
    (body : option bytes) (g : guard) : result ApiError PublicKey * guard :=
  match origin with
  | None => (Err internal_error, g)
  | Some origin =>
      let url := origin +:+ path_with_query path raw_query in
      match verify_bridge_auth_with_options now headers method url body true (bool_decide (is_Some body)) with
      | Err e => (Err e, g)
      | Ok (pubkey, event_id) =>
          let '(x, g') := check_operator_replay env mark_now event_id g in
          (let? _ := x in
           if decide (id_to_hex pubkey ∈ operators) then Ok pubkey
           else Err (api_error FORBIDDEN "actor not authorized: not a relay operator"), g')
      end
  end.

End bridge.

(** ** The Redis guard keeps the promise *)

Section redis_laws.
Context {napi : NostrApi} {capi : ClockApi} {CL : ClockLaws capi}.

Definition redis_marked (r : credis) (now : Z) (scope : string) (id : EventId) (e : Z) : Prop :=
  ∃ v t, look r now (nip98_replay_key_for_scope scope id) = Some (v, t) ∧
         match t with Some t => (e ≤ t)%Z | None => True end.

Lemma ttl_pos ttl : (0 < Z.of_N (N.min MAX_REPLAY_TTL_SECS (N.max DEFAULT_REPLAY_TTL_SECS ttl)))%Z.
Proof using. unfold MAX_REPLAY_TTL_SECS, DEFAULT_REPLAY_TTL_SECS. lia. Qed.

(** What a call leaves, whatever became of it. *)
Lemma redis_mark_state env r now scope id ttl :
  (redis_mark env now scope id ttl r).2 = r ∨
  (redis_mark env now scope id ttl r).2 =
    (set_nx_ex r now (nip98_replay_key_for_scope scope id) "1"
       (Z.of_N (N.min MAX_REPLAY_TTL_SECS (N.max DEFAULT_REPLAY_TTL_SECS ttl)))).2.
Proof using.
  unfold redis_mark. destruct env as [[u|e] o]; simpl; [|by left].
  pose proof (call_state o (λ r, set_nx_ex r now (nip98_replay_key_for_scope scope id) "1"
    (Z.of_N (N.min MAX_REPLAY_TTL_SECS (N.max DEFAULT_REPLAY_TTL_SECS ttl)))) r) as Hc.
  destruct (call o _ r) as [x r']. exact Hc.
Qed.

Lemma redis_mark_true env r now scope id ttl :
  (redis_mark env now scope id ttl r).1 = Ok true →
  let secs := Z.of_N (N.min MAX_REPLAY_TTL_SECS (N.max DEFAULT_REPLAY_TTL_SECS ttl)) in
  set_nx_ex r now (nip98_replay_key_for_scope scope id) "1" secs =
    (Some "OK", (redis_mark env now scope id ttl r).2).
Proof using.
  unfold redis_mark. destruct env as [[u|e] o]; cbn [fst snd]; [|done].
  destruct (call o _ r) as [x r'] eqn:E. destruct x as [[s|]|e]; try done. apply call_Ok in E.
  case_decide as Hs; [by rewrite Hs in E; rewrite E|done].
Qed.

#[global] Instance redis_guard_laws : ReplayGuardLaws RedisNip98ReplayGuard.
Proof using CL.
  refine {| marked := redis_marked |}; cbn [guard gd_env try_mark_in_scope RedisNip98ReplayGuard].
  - intros env r now s id ttl e (v & t & E & _) Hx. apply redis_mark_true in Hx.
    destruct (set_nx_some r now _ "1" _ _ E (ttl_pos ttl)) as [Hn _]. by rewrite Hx in Hn.
  - intros env r now s id ttl Hx. apply redis_mark_true in Hx. cbv zeta in Hx.
    set (secs := Z.of_N _) in *.
    destruct (look r now (nip98_replay_key_for_scope s id)) as [e|] eqn:E.
    + destruct (set_nx_some r now _ "1" secs _ E (ttl_pos ttl)) as [Hn _]. by rewrite Hx in Hn.
    + destruct (set_nx_none r now _ "1" secs E (ttl_pos ttl)) as [_ Hl]. rewrite Hx in Hl.
      exists "1", (Some (now + 1000 * secs)%Z). split; [|done]. by rewrite (Hl _), decide_True.
  - intros env r now s id s' id' ttl e (v & t & E & Ht). exists v, t. split; [|done].
    destruct (redis_mark_state env r now s' id' ttl) as [-> | ->]; [done|].
    set (k' := nip98_replay_key_for_scope s' id'). set (secs := Z.of_N _).
    destruct (look r now k') as [e'|] eqn:E'.
    + destruct (set_nx_some r now k' "1" secs _ E' (ttl_pos ttl)) as [_ ->]. done.
    + destruct (set_nx_none r now k' "1" secs E' (ttl_pos ttl)) as [_ ->].
      rewrite decide_False; [done|]. intros Ek. rewrite Ek in E. congruence.
  - intros r now now' s id e (v & t & E & Ht) [Hle Hlt]. exists v, t. split; [|done].
    destruct t as [t|].
    + eapply look_persists; [done|done|lia].
    + destruct (look_later r now now' (nip98_replay_key_for_scope s id) Hle) as [[-> _]|(_ & v' & t' & E' & _)]; congruence.
Qed.

(** Two communities, or two events, have two keys. *)
Lemma nip98_replay_key_inj {UL : UuidLaws napi} {IL : IdHexLaws napi} ctx ctx' id id' :
  (id < 2 ^ 256)%N → (id' < 2 ^ 256)%N →
  nip98_replay_key ctx id = nip98_replay_key ctx' id' → community ctx = community ctx' ∧ id = id'.
Proof using.
  intros Hid Hid' E. unfold nip98_replay_key, nip98_replay_key_for_scope in E. apply (f_equal (split_on ":")) in E.
  assert (∀ c p, split_on ":" ("buzz:" +:+ uuid_to_string c +:+ ":nip98:" +:+ id_to_hex p) =
    ["buzz"; uuid_to_string c; "nip98"; id_to_hex p]) as Hs.
  { intros c p. change ("buzz:" +:+ ?x) with ("buzz" +:+ String ":" x). rewrite split_on_app by done. f_equal.
    change (":nip98:" +:+ ?x) with (String ":" ("nip98" +:+ String ":" x)).
    rewrite split_on_app by apply uuid_no_colon. f_equal. rewrite split_on_app by done. f_equal.
    by rewrite split_on_no_sep by apply id_hex_no_colon. }
  rewrite !Hs in E. injection E as Ec Ep. split; [by apply uuid_to_string_inj|by apply id_to_hex_inj].
Qed.

End redis_laws.

(** ** What the checks accept *)

Section accept.
Context {napi : NostrApi} {uapi : UrlApi} {aapi : AuthApi} {hapi : HexApi} {bapi : BridgeApi}.

(** With tokens required, an accepted request carries an event that authorises it. *)
Lemma verify_bridge_auth_inv now headers method url body require_payload pk id :
  verify_bridge_auth_with_options now headers method url body true require_payload = Ok (pk, id) →
  ∃ auth_str json event, headers "authorization" = Some ("Nostr " +:+ auth_str) ∧
    header_event auth_str = Ok (json, event) ∧ nip98_ok now event url method body ∧
    pk = ev_pubkey (ev event) ∧ id = ev_id (ev event) ∧
    (require_payload = true → has_payload_tag event = true).
Proof using.
  unfold verify_bridge_auth_with_options.
  destruct (headers "authorization") as [s|] eqn:Eh; simpl; [|done].
  destruct (strip_prefix "Nostr " s) as [a|] eqn:Es; [|done]. apply strip_prefix_Some in Es as ->.
  destruct (header_event a) as [[json event]|e] eqn:Ea; [|done].
  destruct (require_payload && negb (has_payload_tag event)) eqn:Ep; [done|].
  destruct (verify_nip98_event now json url method body) as [pk'|e] eqn:Ev; [|done]. simpl. intros [= <- <-].
  apply verify_nip98_exact in Ev as (event' & Ej & Hok & ->).
  assert (event' = event) as ->.
  { revert Ea. unfold header_event. destruct (base64_decode a) as [b|]; [|done].
    destruct (from_utf8 b) as [j|]; [|done]. destruct (event_from_json j) as [e|] eqn:E; [|done].
    intros [= <- <-]. congruence. }
  exists a, json, event. do 5 (split; [done|]). intros ->. simpl in Ep. by apply negb_false_iff in Ep.
Qed.

Context {G : ReplayGuard}.

(** The check passes exactly when the guard says the id is new; failures of the guard
    reject. *)
Lemma check_replay_spec env now tenant id g g' x :
  check_nip98_replay_with_guard env now tenant id g = (x, g') →
  x = Ok tt ↔ id = 0%N ∨ id ≠ 0%N ∧ (try_mark env now tenant id DEFAULT_REPLAY_TTL_SECS g).1 = Ok true.
Proof using.
  unfold check_nip98_replay_with_guard. case_decide as Hz; [intros [= <- <-]; naive_solver|].
  destruct (try_mark env now tenant id _ g) as [y g1]. intros [= <- <-]. simpl.
  destruct y as [[]|e]; simpl; naive_solver.
Qed.

(** What a successful [authenticate] has checked. *)
Lemma authenticate_inv {E} (resolver : string → result E (option CommunityId)) relay_url now env mark_now
    headers path body g t pk g' :
  authenticate resolver relay_url now env mark_now headers path body g = (Ok (t, pk), g') →
  bind_community resolver (host_header headers) = Ok t ∧
  ∃ auth_str json event, headers "authorization" = Some ("Nostr " +:+ auth_str) ∧
    header_event auth_str = Ok (json, event) ∧
    nip98_ok now event (nip98_expected_url relay_url t path) "POST" (Some body) ∧
    has_payload_tag event = true ∧ pk = ev_pubkey (ev event) ∧
    (ev_id (ev event) ≠ 0%N →
       (try_mark env mark_now t (ev_id (ev event)) DEFAULT_REPLAY_TTL_SECS g).1 = Ok true).
Proof using.
  unfold authenticate, bind_request. destruct (bind_community resolver _) as [t'|e] eqn:Eb; [|done]. simpl.
  destruct (verify_bridge_auth_with_options now headers _ _ _ true true) as [[pk' id]|e] eqn:Ev; [|done].
  destruct (check_nip98_replay_with_guard env mark_now t' id g) as [x g1] eqn:Ec.
  destruct x as [[]|e]; [|done]. intros [= <- <- <-]. split; [done|].
  apply verify_bridge_auth_inv in Ev as (a & json & event & Ha & Hh & Hok & -> & -> & Hp).
  exists a, json, event. do 3 (split; [done|]). split; [by apply Hp|]. split; [done|].
  intros Hz. apply check_replay_spec in Ec as [Ec _]. destruct (Ec eq_refl); tauto.
Qed.

End accept.

(** ** Requests to many pods

    Each request is verified by the clock of the pod that received it and marked at a
    time of the shared guard; requests interleave in any order.  A label records a
    request whose checks passed. *)

Record Accepted := mkAccepted {
  ac_scope : string;
  ac_id : EventId;
  ac_created_at : Z;
  ac_verified : Z;   (* seconds, the pod's clock *)
  ac_marked : Z      (* milliseconds, the guard's clock *)
}.

Section single_use.
Context {napi : NostrApi} {uapi : UrlApi} {aapi : AuthApi} {hapi : HexApi} {bapi : BridgeApi}.
Context {G : ReplayGuard} {GL : ReplayGuardLaws G}.

(** The event in the header of a request that passed verification. *)
Definition verified_event (pod_now : Z) (headers : HeaderMap) (method url : string) (body : option bytes)
    (require_payload : bool) (event : Event) : Prop :=
  (∃ auth_str json, headers "authorization" = Some ("Nostr " +:+ auth_str) ∧
     header_event auth_str = Ok (json, event)) ∧
  ∃ pk, verify_bridge_auth_with_options pod_now headers method url body true require_payload = Ok (pk, ev_id (ev event)).

Inductive replay_step (now : Z) : guard → option Accepted → guard → Prop :=
| step_tenant env pod_now headers method url body require_payload tenant event g x g' :
    verified_event pod_now headers method url body require_payload event → ev_id (ev event) ≠ 0%N →
    check_nip98_replay_with_guard env now tenant (ev_id (ev event)) g = (x, g') →
    replay_step now g
      (if is_ok x then Some (mkAccepted (uuid_to_string (community tenant)) (ev_id (ev event))
                               (ev_created_at (ev event)) pod_now now) else None) g'
| step_operator env pod_now headers method url body require_payload event g x g' :
    verified_event pod_now headers method url body require_payload event →
    check_operator_replay env now (ev_id (ev event)) g = (x, g') →
    replay_step now g
      (if is_ok x then Some (mkAccepted OPERATOR_REPLAY_SCOPE (ev_id (ev event))
                               (ev_created_at (ev event)) pod_now now) else None) g'
| step_elsewhere g g' :
    (∀ s id e, marked g now s id e → marked g' now s id e) → replay_step now g None g'.

Inductive replay_run : Z → guard → list Accepted → Prop :=
| replay_nil now g : replay_run now g []
| replay_cons now now' g lab g' tr :
    (now ≤ now')%Z → replay_step now' g lab g' → replay_run now' g' tr →
    replay_run now g (option_list lab ++ tr).

(** Passing the check claims the id for the two minutes of the default. *)
Lemma response_true x : is_ok (replay_response x) = true → x = Ok true.
Proof using. by destruct x as [[]|]. Qed.

Lemma mark_accepted env now s id g :
  is_ok (replay_response (try_mark_in_scope env now s id DEFAULT_REPLAY_TTL_SECS g).1) = true →
  marked (try_mark_in_scope env now s id DEFAULT_REPLAY_TTL_SECS g).2 now s id (now + 120000) ∧
  ∀ e, ¬ marked g now s id e.
Proof using.
  intros Hx%response_true. split; [by apply (mark_claims env g now s id DEFAULT_REPLAY_TTL_SECS)|].
  intros e Hm. by apply (mark_once env g now s id DEFAULT_REPLAY_TTL_SECS e Hm).
Qed.

(** A step is a call of the guard for some scope and id, or keeps all claims. *)
Lemma replay_step_inv now g lab g' :
  replay_step now g lab g' →
  (∀ s id e, marked g now s id e → marked g' now s id e) ∧
  ∀ a, lab = Some a → ac_marked a = now ∧
    (Z.abs (ac_verified a - ac_created_at a) ≤ 60)%Z ∧
    marked g' now (ac_scope a) (ac_id a) (now + 120000) ∧ ∀ e, ¬ marked g now (ac_scope a) (ac_id a) e.
Proof using.
  assert (∀ pod headers method url body rp event, verified_event pod headers method url body rp event →
    (Z.abs (pod - ev_created_at (ev event)) ≤ 60)%Z) as Ht.
  { intros pod headers method url body rp event [(a & json & Ha & Hh) (pk & Hv)].
    apply verify_bridge_auth_inv in Hv as (a' & json' & event' & Ha' & Hh' & Hok & _).
    assert (a' = a) as ->.
    { rewrite Ha in Ha'. injection Ha' as Ea. exact (eq_sym Ea). }
    rewrite Hh in Hh'. injection Hh' as <- <-. apply (n98_timely _ _ _ _ _ Hok). }
  intros [env pod headers method url body rp tenant event g0 x g1 Hv Hz Hc
         |env pod headers method url body rp event g0 x g1 Hv Hc|g0 g1 Hf]; [| |by split].
  - unfold check_nip98_replay_with_guard, try_mark in Hc. rewrite decide_False in Hc by done.
    destruct (try_mark_in_scope env now _ _ _ g0) as [y g2] eqn:Ey. injection Hc as <- <-. split.
    + intros s id e Hm. eapply (mark_keeps env) in Hm. rewrite Ey in Hm. exact Hm.
    + intros a Ha. destruct (is_ok (replay_response y)) eqn:Ex; [|done]. injection Ha as <-. simpl.
      split; [done|]. split; [by eapply Ht|].
      pose proof (mark_accepted env now (uuid_to_string (community tenant)) (ev_id (ev event)) g0) as Hm.
      rewrite Ey in Hm. by apply Hm.
  - unfold check_operator_replay in Hc.
    destruct (try_mark_in_scope env now _ _ _ g0) as [y g2] eqn:Ey. injection Hc as <- <-. split.
    + intros s id e Hm. eapply (mark_keeps env) in Hm. rewrite Ey in Hm. exact Hm.
    + intros a Ha. destruct (is_ok (replay_response y)) eqn:Ex; [|done]. injection Ha as <-. simpl.
      split; [done|]. split; [by eapply Ht|].
      pose proof (mark_accepted env now OPERATOR_REPLAY_SCOPE (ev_id (ev event)) g0) as Hm.
      rewrite Ey in Hm. by apply Hm.
Qed.

(** A claimed id is not accepted before the claim ends. *)
Lemma claimed_until now g tr s id e j b :
  replay_run now g tr → marked g now s id e → tr !! j = Some b →
  ac_scope b = s → ac_id b = id → (e ≤ ac_marked b)%Z.
Proof using.
  intros Hr. revert j. induction Hr as [now g|now now' g lab g' tr Hle Hs Hr IH]; intros j Hm Hj Es Ei; [done|].
  destruct (decide (e ≤ now')%Z) as [He|He].
  - assert (∀ now g tr, replay_run now g tr → ∀ j b, tr !! j = Some b → (now ≤ ac_marked b)%Z) as Hmono.
    { clear. induction 1 as [now g|now now' g lab g' tr Hle Hs Hr IH]; intros j b Hj; [done|].
      destruct lab as [a|]; [|specialize (IH _ _ Hj); lia]. destruct j as [|j]; simpl in Hj.
      - injection Hj as <-. apply replay_step_inv in Hs as [_ Ha]. destruct (Ha _ eq_refl) as [-> _]. done.
      - specialize (IH _ _ Hj). lia. }
    assert (replay_run now' g (option_list lab ++ tr)) as Hr' by (by econstructor).
    specialize (Hmono _ _ _ Hr' _ _ Hj). lia.
  - assert (marked g now' s id e) as Hm' by (eapply mark_lasts; [done|lia]).
    apply replay_step_inv in Hs as [Hk Ha]. destruct lab as [a|].
    + destruct j as [|j]; simpl in Hj; [|by eapply IH; [apply Hk|..]].
      injection Hj as ->. destruct (Ha _ eq_refl) as (_ & _ & _ & Hn). subst. by destruct (Hn e).
    + by eapply IH; [apply Hk|..].
Qed.

Lemma accepted_claims now g tr i j a b :
  replay_run now g tr → tr !! i = Some a → tr !! j = Some b → i < j →
  ac_scope a = ac_scope b → ac_id a = ac_id b → (ac_marked a + 120000 ≤ ac_marked b)%Z.
Proof using GL.
  intros Hr. revert i j. induction Hr as [now g|now now' g lab g' tr Hle Hs Hr IH]; intros i j Hi Hj Hij Es Ei; [done|].
  apply replay_step_inv in Hs as [_ Ha]. destruct lab as [c|]; [|by apply (IH i j)].
  destruct j as [|j]; [lia|]. destruct i as [|i]; simpl in *; [|apply (IH i j); [done..|lia|done|done]].
  injection Hi as ->. destruct (Ha _ eq_refl) as (-> & _ & Hm & _). by eapply claimed_until.
Qed.

(** C16: An event is accepted once per scope unless it is dated ahead of the clock: if two
    requests carrying the same event pass in one community, every pod marks within [d]
    milliseconds of the second in which it verified, and the clocks agree to that
    extent, then the first was marked while the event's time was still more than 59
    seconds (less [d]) ahead. *)
Theorem nip98_single_use now g tr i j a b d :
  replay_run now g tr → tr !! i = Some a → tr !! j = Some b → i < j →
  ac_scope a = ac_scope b → ac_id a = ac_id b →
  (ac_marked b < 1000 * (ac_verified b + 1) + d)%Z →
  (ac_marked a < 1000 * (ac_created_at b - 59) + d)%Z.
Proof using GL.
  intros Hr Hi Hj Hij Es Ei Hd. pose proof (accepted_claims _ _ _ _ _ _ _ Hr Hi Hj Hij Es Ei) as Hab.
  assert (∀ now g tr, replay_run now g tr → ∀ j b, tr !! j = Some b →
    (Z.abs (ac_verified b - ac_created_at b) ≤ 60)%Z) as Ht.
  { clear. induction 1 as [now g|now now' g lab g' tr Hle Hs Hr IH]; intros j b Hj; [done|].
    apply replay_step_inv in Hs as [_ Ha]. destruct lab as [c|]; [|by eapply IH].
    destruct j as [|j]; simpl in Hj; [|by eapply IH]. injection Hj as ->. by destruct (Ha _ eq_refl) as (_ & ? & _). }
  specialize (Ht _ _ _ Hr _ _ Hj). lia.
Qed.

End single_use.

(** ** One event, one tenant *)

Section one_tenant.
Context {napi : NostrApi} {uapi : UrlApi} {UL : UrlLaws uapi} {aapi : AuthApi} {hapi : HexApi} {bapi : BridgeApi}.
Context {G : ReplayGuard}.

(** Two requests with the same authorization header that both pass [authenticate], at
    any times, for any paths, bodies, guards and configured URLs, are requests of the
    same author to the same tenant: a header cannot be carried to another community. *)
Theorem header_good_for_one_tenant {E} (resolver : string → result E (option CommunityId))
    cfg1 cfg2 now1 now2 env1 env2 mark1 mark2 headers1 headers2 path1 path2 body1 body2 g1 g2 t1 t2 pk1 pk2 :
  headers1 "authorization" = headers2 "authorization" →
  http_path path1 → http_path path2 → plain_tenant t1 → plain_tenant t2 →
  (authenticate resolver cfg1 now1 env1 mark1 headers1 path1 body1 g1).1 = Ok (t1, pk1) →
  (authenticate resolver cfg2 now2 env2 mark2 headers2 path2 body2 g2).1 = Ok (t2, pk2) →
  t1 = t2 ∧ pk1 = pk2.
Proof using UL.
  intros Eh Hp1 Hp2 Ht1 Ht2 H1 H2.
  destruct (authenticate resolver cfg1 _ _ _ _ _ _ g1) as [x1 g1'] eqn:E1. simpl in H1. subst x1.
  destruct (authenticate resolver cfg2 _ _ _ _ _ _ g2) as [x2 g2'] eqn:E2. simpl in H2. subst x2.
  apply authenticate_inv in E1 as (Hb1 & a1 & j1 & e1 & Ha1 & Hh1 & Hok1 & _ & -> & _).
  apply authenticate_inv in E2 as (Hb2 & a2 & j2 & e2 & Ha2 & Hh2 & Hok2 & _ & -> & _).
  assert (a1 = a2) as ->.
  { rewrite Ha1, Ha2 in Eh. injection Eh as Ea. exact Ea. }
  rewrite Hh1 in Hh2. injection Hh2 as <- <-. split; [|done].
  destruct (n98_url _ _ _ _ _ Hok1) as (u & Hu & En). destruct (n98_url _ _ _ _ _ Hok2) as (u' & Hu' & En').
  rewrite Hu in Hu'. injection Hu' as <-.
  assert (host t1 = host t2) as Ehost by (apply (normalize_url_host cfg1 cfg2 t1 t2 path1 path2); congruence).
  apply bind_community_inv in Hb1 as (_ & _ & Hr1). apply bind_community_inv in Hb2 as (_ & _ & Hr2).
  destruct t1 as [c1 h1], t2 as [c2 h2]. simpl in *. subst h2. rewrite Hr1 in Hr2. by injection Hr2 as <-.
Qed.

End one_tenant.

(** ** Examples *)

Module BridgeDemo.
Import ToyUrl MeshWireDemo AuthDemo ToyClock.

#[global] Instance toy_bridge : BridgeApi := {|
  base64_decode := λ s, Some (bytes_of_str s);
  public_key_from_hex := λ s, if decide (s = "5") then Some 5%N else None
|}.

Definition headers : HeaderMap := λ h,
  if decide (h = "authorization") then Some "Nostr http_event"
  else if decide (h = "host") then Some "Relay.Example:443" else None.

Definition resolver (h : string) : result string (option CommunityId) :=
  Ok (if decide (h = "relay.example") then Some 7%N else None).

Abbreviation toy_redis_guard := (RedisNip98ReplayGuard (H:=demo_api) (H0:=toy_clock)).

Definition submit (now mark_now : Z) (body : bytes) (r : credis (ClockApi:=toy_clock)) :=
  authenticate (H:=demo_api) (H3:=toy_bridge) (H4:=toy_redis_guard)
    resolver "wss://relay.example" now (Ok tt, Delivered) mark_now headers "/events" body r.

Example accepted_once :
  (submit 1000 1000000 [] ∅).1 = Ok (tenant, 5%N) ∧
  is_ok (submit 1001 1001000 [] (submit 1000 1000000 [] ∅).2).1 = false.
Proof. vm_compute. done. Qed.

(** The payload tag of the event has no value: it satisfies the requirement of a payload
    tag and covers no body. *)
Example empty_payload_tag_covers_nothing :
  map (λ b, (submit 1000 1000000 b ∅).1) [[]; [x01]; [x02; x03]] = replicate 3 (Ok (tenant, 5%N)).
Proof. vm_compute. done. Qed.

Example lost_reply_rejects :
  (check_nip98_replay_with_guard (H:=demo_api) (H4:=toy_redis_guard) (Ok tt, Failed "timeout" true) 1000000 tenant 77 ∅).1
  = Err (api_error UNAUTHORIZED "NIP-98: replay check unavailable").
Proof. vm_compute. done. Qed.

Lemma header_good_for_one_tenant_witness : tenant = mkTenant 7 "relay.example" ∧ 5%N = 5%N.
Proof.
  apply (header_good_for_one_tenant (napi:=demo_api) (uapi:=toy_url_api) (aapi:=toy_auth) (hapi:=demo_hex)
    (bapi:=toy_bridge) (G:=toy_redis_guard) resolver "wss://relay.example" "wss://other" 1000 1010
    (Ok tt, Delivered) (Ok tt, Delivered) 1000000 1010000 headers headers "/events" "/events" [] [x01] ∅ ∅).
  - done.
  - by right.
  - by right.
  - apply tenant_plain.
  - by exists "relay.example", None.
  - vm_compute. done.
  - vm_compute. done.
Defined.

(** The event of time 1000 is used at 940 seconds and again 120.5 seconds later, when
    its marker of 120 seconds is gone: both pass the minute's tolerance. *)
Definition replayed : list Accepted :=
  [mkAccepted (uuid_to_string 7) 77 1000 940 940000; mkAccepted (uuid_to_string 7) 77 1000 1060 1060500].

Definition after_first : guard (ReplayGuard:=toy_redis_guard) :=
  (check_nip98_replay_with_guard (H:=demo_api) (H4:=toy_redis_guard) (Ok tt, Delivered) 940000 tenant 77 ∅).2.
Definition after_second : guard (ReplayGuard:=toy_redis_guard) :=
  (check_nip98_replay_with_guard (H:=demo_api) (H4:=toy_redis_guard) (Ok tt, Delivered) 1060500 tenant 77 after_first).2.

Lemma event_verified pod_now :
  is_ok (verify_bridge_auth_with_options (H:=demo_api) (H3:=toy_bridge) pod_now headers "POST"
           "https://relay.example/events" None true true) = true →
  verified_event (napi:=demo_api) (bapi:=toy_bridge) pod_now headers "POST" "https://relay.example/events" None true http_event.
Proof.
  intros Hok. split; [by exists "http_event", "http_event"|]. exists 5%N.
  destruct (verify_bridge_auth_with_options _ _ _ _ _ _ _) as [[pk id]|e] eqn:E; [|done].
  apply verify_bridge_auth_inv in E as (a & j & event & Ha & Hh & _ & -> & -> & _).
  assert (a = "http_event") as -> by (vm_compute in Ha; congruence).
  vm_compute in Hh. by injection Hh as <- <-.
Qed.

Lemma replayed_run : replay_run (napi:=demo_api) (bapi:=toy_bridge) (G:=toy_redis_guard) 0 ∅ replayed.
Proof.
  eapply (replay_cons (G:=toy_redis_guard) _ 940000 _ (Some _) after_first); [done| |
    eapply (replay_cons (G:=toy_redis_guard) _ 1060500 _ (Some _) after_second); [done| |apply replay_nil]].
  - apply (step_tenant (G:=toy_redis_guard) _ (Ok tt, Delivered) 940 headers "POST" "https://relay.example/events" None true
             tenant http_event ∅ (Ok tt) after_first); [apply event_verified; vm_compute; done|done|].
    apply pair_eq. split; [vm_compute; done|done].
  - apply (step_tenant (G:=toy_redis_guard) _ (Ok tt, Delivered) 1060 headers "POST" "https://relay.example/events" None true
             tenant http_event after_first (Ok tt) after_second); [apply event_verified; vm_compute; done|done|].
    apply pair_eq. split; [vm_compute; done|done].
Qed.

Lemma nip98_single_use_witness : (940000 < 1000 * (1000 - 59) + 0)%Z.
Proof.
  apply (nip98_single_use (napi:=demo_api) (bapi:=toy_bridge) (G:=toy_redis_guard) (GL:=redis_guard_laws)
           0 ∅ replayed 0 1 (mkAccepted (uuid_to_string 7) 77 1000 940 940000)
           (mkAccepted (uuid_to_string 7) 77 1000 1060 1060500) 0).
  - apply replayed_run.
  - done.
  - done.
  - lia.
  - done.
  - done.
  - simpl. lia.
Defined.

End BridgeDemo.
