(* ===== verification/AuditLog.v ===== *)
(** * The audit log ([buzz-audit]: [action.rs], [entry.rs], [error.rs], [hash.rs], [service.rs])

    One hash chain per community: an entry carries the hash of its predecessor and
    a SHA-256 over its own fields ([compute_hash]), [log] appends under a
    per-community advisory lock, [verify_chain] re-checks a range.  The table is a
    finite map from (community, seq) to rows; the queries are functions of it, and
    every statement can fail.  Appends from several database sessions interleave
    as steps ([sys_step]).

    SHA-256, RFC 3339 printing, what PostgreSQL stores for a timestamp and a JSONB
    value and the hash of a lock name are parameters ([AuditApi]).  Times are
    nanoseconds since the epoch, an [i64] is a [Z]. *)

From stdpp Require Import base gmap strings list relations sorting.
From Stdlib Require Import Ascii.
From Stdlib.Strings Require Import Byte.
From S2P Require Import Prelude Nostr CanonicalJson.

(** ** [action.rs] *)

Inductive AuditAction :=
| EventCreated | EventDeleted | ChannelCreated | ChannelUpdated | ChannelDeleted
| MemberAdded | MemberRemoved | AuthSuccess | AuthFailure | RateLimitExceeded | MediaUploaded.

#[global] Instance audit_action_eq_dec : EqDecision AuditAction.
Proof. solve_decision. Defined.

Definition as_str (a : AuditAction) : string :=
  match a with
  | EventCreated => "event_created"
  | EventDeleted => "event_deleted"
  | ChannelCreated => "channel_created"
  | ChannelUpdated => "channel_updated"
  | ChannelDeleted => "channel_deleted"
  | MemberAdded => "member_added"
  | MemberRemoved => "member_removed"
  | AuthSuccess => "auth_success"
  | AuthFailure => "auth_failure"
  | RateLimitExceeded => "rate_limit_exceeded"
  | MediaUploaded => "media_uploaded"
  end.

Definition ALL_ACTIONS : list AuditAction :=
  [EventCreated; EventDeleted; ChannelCreated; ChannelUpdated; ChannelDeleted; MemberAdded;
   MemberRemoved; AuthSuccess; AuthFailure; RateLimitExceeded; MediaUploaded].

Definition action_from_str (s : string) : option AuditAction :=
  List.find (λ a, bool_decide (as_str a = s)) ALL_ACTIONS.

(** ** [entry.rs] and [error.rs] *)

Record AuditEntry (num : Type) := mkEntry {
  ae_community_id : Uuid;
  ae_seq : Z;
  ae_hash : bytes;
  ae_prev_hash : option bytes;
  ae_action : AuditAction;
  ae_actor_pubkey : option bytes;
  ae_object_id : option string;
  ae_detail : Json num;
  ae_created_at : Z
}.
Arguments mkEntry {num}.
Arguments ae_community_id {num}.
Arguments ae_seq {num}.
Arguments ae_hash {num}.
Arguments ae_prev_hash {num}.
Arguments ae_action {num}.
Arguments ae_actor_pubkey {num}.
Arguments ae_object_id {num}.
Arguments ae_detail {num}.
Arguments ae_created_at {num}.

Record NewAuditEntry (num : Type) := mkNew {
  ne_community_id : CommunityId;
  ne_action : AuditAction;
  ne_actor_pubkey : option bytes;
  ne_object_id : option string;
  ne_detail : Json num
}.
Arguments mkNew {num}.
Arguments ne_community_id {num}.
Arguments ne_action {num}.
Arguments ne_actor_pubkey {num}.
Arguments ne_object_id {num}.
Arguments ne_detail {num}.

Inductive AuditError :=
| Database (e : string)
| ChainViolation (seq : Z)
| HashMismatch (seq : Z)
| UnknownAction
| Serialization (e : string).

(** ** The libraries and the database *)

Class AuditApi (num : Type) := {
  sha256 : bytes → bytes;
  to_rfc3339 : Z → string;
  pg_timestamp : Z → Z;
  pg_jsonb : Json num → result string (Json num);
  hashtextextended : string → Z
}.

(** [trunc_subsecs(6)]. *)
Definition to_storage_precision (t : Z) : Z := t - t `mod` 1000.

(** A digest has 32 bytes; a timestamp with whole microseconds is stored exactly;
    the text of a time has no lower-case letter and determines the time. *)
Class AuditLaws {num : Type} (api : AuditApi num) := {
  sha256_length : ∀ b, length (sha256 b) = 32;
  pg_timestamp_exact : ∀ t, pg_timestamp (to_storage_precision t) = to_storage_precision t;
  to_rfc3339_inj : ∀ t u, to_rfc3339 t = to_rfc3339 u → t = u;
  to_rfc3339_chars : ∀ t, str_all (λ c, negb ((97 <=? ascii_code c) && (ascii_code c <=? 122)))%N (to_rfc3339 t) = true
}.

(** ** [hash.rs] *)

Definition GENESIS_HASH : bytes := repeat x00 32.

Definition i64_max : Z := 9223372036854775807.

(** Two's complement arithmetic of an [i64]. *)
Definition wrap_i64 (z : Z) : Z := (z + 2 ^ 63) `mod` 2 ^ 64 - 2 ^ 63.

Definition i64_to_be_bytes (z : Z) : bytes := rev (le_bytes 8 (Z.to_N (z `mod` 2 ^ 64))).

Definition str_bytes (s : string) : bytes := String.list_byte_of_string s.

Definition presence (b : option bytes) : bytes :=
  match b with Some b => x01 :: b | None => [x00] end.

Section audit.
Context {num : Type} `{SerdeJson num} `{NostrApi} `{UuidBytes} `{AuditApi num}.

(** What the hasher is fed. *)
Definition preimage (entry : AuditEntry num) (detail : string) : bytes :=
  uuid_as_bytes (ae_community_id entry)
    ++ i64_to_be_bytes (ae_seq entry)
    ++ str_bytes (to_rfc3339 (to_storage_precision (ae_created_at entry)))
    ++ str_bytes (as_str (ae_action entry))
    ++ presence (ae_actor_pubkey entry)
    ++ presence (str_bytes <$> ae_object_id entry)
    ++ str_bytes detail
    ++ default GENESIS_HASH (ae_prev_hash entry).

Definition compute_hash (entry : AuditEntry num) : result AuditError bytes :=
  let? detail := map_err Serialization (canonical_json (ae_detail entry)) in
  Ok (sha256 (preimage entry detail)).

(** ** The table *)

Record Row := mkRow {
  row_hash : bytes;
  row_prev_hash : option bytes;
  row_action : string;
  row_actor_pubkey : option bytes;
  row_object_id : option string;
  row_detail : Json num;
  row_created_at : Z
}.

Abbreviation table := (gmap (N * Z) Row) (only parsing).

Definition seq_le (a b : Z * Row) : bool := (a.1 <=? b.1)%Z.

(** The rows of one community in the order of [seq]. *)
Definition chain_rows (c : CommunityId) (t : table) : list (Z * Row) :=
  sort_by seq_le
    (omap (λ e : (N * Z) * Row, if decide (e.1.1 = c) then Some (e.1.2, e.2) else None) (map_to_list t)).

Definition in_seq_range (from to : Z) (e : Z * Row) : bool := ((from <=? e.1) && (e.1 <=? to))%Z.

Definition row_to_audit_entry (c : CommunityId) (e : Z * Row) : result AuditError (AuditEntry num) :=
  let '(seq, row) := e in
  match action_from_str (row_action row) with
  | None => Err UnknownAction
  | Some action =>
      Ok (mkEntry c seq (row_hash row) (row_prev_hash row) action (row_actor_pubkey row)
            (row_object_id row) (row_detail row) (row_created_at row))
  end.

(** [INSERT]: the primary key and the unique index on (community, hash). *)
Definition insert_row (c : CommunityId) (seq : Z) (row : Row) (t : table) : result string table :=
  if decide (is_Some (t !! (c, seq))) then Err "audit_log_pkey"
  else if decide (row_hash row ∈ row_hash ∘ snd <$> chain_rows c t) then Err "idx_audit_log_hash"
  else Ok (<[(c, seq) := row]> t).

(** ** [AuditService::log] *)

(** What can fail: each statement, and the commit with or without effect. *)
Record Faults := mkFaults {
  f_acquire : result string unit;
  f_lock : result string unit;
  f_begin : result string unit;
  f_select : result string unit;
  f_insert : result string unit;
  f_commit : outcome
}.

Definition read_head (c : CommunityId) (t : table) : option (Z * bytes) :=
  (λ e, (e.1, row_hash e.2)) <$> last (chain_rows c t).

Definition log_timestamp (now : Z) : Z := to_storage_precision now.

(** The entry that follows [head]. *)
Definition next_entry (now : Z) (entry : NewAuditEntry num) (head : option (Z * bytes)) :
    result AuditError (AuditEntry num) :=
  let '(prev_seq, prev_hash) :=
    match head with Some (seq, hash) => (seq, Some hash) | None => (0%Z, None) end in
  let audit_entry hash :=
    mkEntry (ne_community_id entry) (wrap_i64 (prev_seq + 1)) hash prev_hash (ne_action entry)
      (ne_actor_pubkey entry) (ne_object_id entry) (ne_detail entry) (log_timestamp now) in
  let? hash := compute_hash (audit_entry []) in
  Ok (audit_entry hash).

(** What the columns hold. *)
Definition row_of (e : AuditEntry num) : result string Row :=
  let? detail := pg_jsonb (ae_detail e) in
  Ok (mkRow (ae_hash e) (ae_prev_hash e) (as_str (ae_action e)) (ae_actor_pubkey e) (ae_object_id e)
        detail (pg_timestamp (ae_created_at e))).

(** From the head on: build, insert, commit. *)
Definition append_entry (f : Faults) (now : Z) (entry : NewAuditEntry num) (head : option (Z * bytes))
    (t : table) : result AuditError (AuditEntry num) * table :=
  match next_entry now entry head with
  | Err e => (Err e, t)
  | Ok audit_entry =>
      match (let? _ := f_insert f in
             let? row := row_of audit_entry in
             insert_row (ae_community_id audit_entry) (ae_seq audit_entry) row t) with
      | Err e => (Err (Database e), t)
      | Ok t1 =>
          let '(committed, t') := call (f_commit f) (λ _, (tt, t1)) t in
          match committed with
          | Err e => (Err (Database e), t')
          | Ok _ => (Ok audit_entry, t')
          end
      end
  end.

Definition log_inner (f : Faults) (now : Z) (entry : NewAuditEntry num) (t : table) :
    result AuditError (AuditEntry num) * table :=
  match f_begin f, f_select f with
  | Err e, _ | _, Err e => (Err (Database e), t)
  | Ok _, Ok _ => append_entry f now entry (read_head (ne_community_id entry) t) t
  end.

(** A call with the lock granted at once. *)
Definition log (f : Faults) (now : Z) (entry : NewAuditEntry num) (t : table) :
    result AuditError (AuditEntry num) * table :=
  match f_acquire f, f_lock f with
  | Err e, _ | _, Err e => (Err (Database e), t)
  | Ok _, Ok _ => log_inner f now entry t
  end.

(** ** [verify_chain] and [get_entries] *)

Fixpoint verify_rows (c : CommunityId) (expected_prev : option bytes) (rows : list (Z * Row)) :
    result AuditError bool :=
  match rows with
  | [] => Ok true
  | row :: rows =>
      let? entry := row_to_audit_entry c row in
      if match expected_prev with
         | Some expected => bool_decide (ae_prev_hash entry ≠ Some expected)
         | None => false
         end
      then Err (ChainViolation (ae_seq entry))
      else
        let? computed := compute_hash entry in
        if decide (computed ≠ ae_hash entry) then Err (HashMismatch (ae_seq entry))
        else verify_rows c (Some (ae_hash entry)) rows
  end.

Definition verify_chain (query : result string unit) (c : CommunityId) (from to : Z) (t : table) :
    result AuditError bool :=
  let? _ := map_err Database query in
  match List.filter (in_seq_range from to) (chain_rows c t) with
  | [] => Ok false
  | rows => verify_rows c None rows
  end.

Fixpoint collect_entries (c : CommunityId) (rows : list (Z * Row)) :
    result AuditError (list (AuditEntry num)) :=
  match rows with
  | [] => Ok []
  | row :: rows =>
      let? e := row_to_audit_entry c row in
      let? es := collect_entries c rows in
      Ok (e :: es)
  end.

Definition get_entries (query : result string unit) (c : CommunityId) (from limit : Z) (t : table) :
    result AuditError (list (AuditEntry num)) :=
  let? _ := map_err Database query in
  if (limit <? 0)%Z then Err (Database "LIMIT must not be negative")
  else collect_entries c (take (Z.to_nat limit) (List.filter (λ e, (from <=? e.1)%Z) (chain_rows c t))).

(** ** Sessions

    A call of [log] as it runs in one database session, between its awaits. *)
Inductive Phase :=
| Waiting (entry : NewAuditEntry num)
| Locked (entry : NewAuditEntry num)
| HeadRead (entry : NewAuditEntry num) (head : option (Z * bytes))
| Done (c : CommunityId) (res : result AuditError (AuditEntry num)).

Record AuditSys := mkSys {
  sys_table : gmap (N * Z) Row;
  sys_locks : gmap Z N;            (* advisory lock key to the session that holds it *)
  sys_procs : gmap N Phase
}.

Definition AUDIT_LOCK_NAMESPACE : string := "buzz_audit:".

Definition lock_key (c : CommunityId) : Z :=
  hashtextextended (AUDIT_LOCK_NAMESPACE +:+ uuid_to_string c).

(** The community whose lock a phase holds. *)
Definition holding (p : Phase) : option CommunityId :=
  match p with
  | Waiting _ => None
  | Locked e | HeadRead e _ => Some (ne_community_id e)
  | Done c _ => Some c
  end.

(** JSONB keeps the value of the detail. *)
Definition storable (e : NewAuditEntry num) : Prop :=
  ∀ d, pg_jsonb (ne_detail e) = Ok d → json_equiv d (ne_detail e).

Definition set_proc (pid : N) (p : Phase) (s : AuditSys) : AuditSys :=
  mkSys (sys_table s) (sys_locks s) (<[pid := p]> (sys_procs s)).

Definition end_proc (pid : N) (s : AuditSys) : AuditSys :=
  mkSys (sys_table s) (sys_locks s) (delete pid (sys_procs s)).

Definition set_locks (l : gmap Z N) (s : AuditSys) : AuditSys := mkSys (sys_table s) l (sys_procs s).

Inductive sys_step : AuditSys → AuditSys → Prop :=
| step_start s pid e :
    sys_procs s !! pid = None → storable e → sys_step s (set_proc pid (Waiting e) s)
| step_lock s pid e :
    sys_procs s !! pid = Some (Waiting e) →
    (sys_locks s !! lock_key (ne_community_id e) = None ∨
     sys_locks s !! lock_key (ne_community_id e) = Some pid) →
    sys_step s (set_proc pid (Locked e)
                  (set_locks (<[lock_key (ne_community_id e) := pid]> (sys_locks s)) s))
| step_lock_fails s pid e :
    sys_procs s !! pid = Some (Waiting e) → sys_step s (end_proc pid s)
| step_read s pid e :
    sys_procs s !! pid = Some (Locked e) →
    sys_step s (set_proc pid (HeadRead e (read_head (ne_community_id e) (sys_table s))) s)
| step_read_fails s pid e err :
    sys_procs s !! pid = Some (Locked e) →
    sys_step s (set_proc pid (Done (ne_community_id e) (Err (Database err))) s)
| step_append s pid e head f now res t :
    sys_procs s !! pid = Some (HeadRead e head) → append_entry f now e head (sys_table s) = (res, t) →
    sys_step s (mkSys t (sys_locks s) (<[pid := Done (ne_community_id e) res]> (sys_procs s)))
| step_unlock s pid c res :
    sys_procs s !! pid = Some (Done c res) →
    sys_step s (end_proc pid (set_locks (delete (lock_key c) (sys_locks s)) s))
| step_unlock_fails s pid c res :
    sys_procs s !! pid = Some (Done c res) → sys_step s (end_proc pid s)
| step_session_ends s pid :
    sys_step s (end_proc pid (set_locks (filter (λ e, e.2 ≠ pid) (sys_locks s)) s)).

Definition sys_init : AuditSys := mkSys ∅ ∅ ∅.

(** ** The chain *)

(** Rows numbered from [n] that link to [prev] and hash to what they say. *)
Fixpoint linked (c : CommunityId) (prev : option bytes) (n : Z) (rows : list (Z * Row)) : Prop :=
  match rows with
  | [] => True
  | (seq, row) :: rows =>
      seq = n ∧ row_prev_hash row = prev ∧
      (∃ e, row_to_audit_entry c (seq, row) = Ok e ∧ compute_hash e = Ok (row_hash row)) ∧
      linked c (Some (row_hash row)) (n + 1) rows
  end.

End audit.

Section chain_lemmas.
Context {num : Type} `{SerdeJson num} `{NostrApi} `{UuidBytes} `{AuditApi num}.
Implicit Types (t : gmap (N * Z) (Row (num:=num))) (rows : list (Z * Row (num:=num))).

Lemma elem_of_chain_rows c t seq row : (seq, row) ∈ chain_rows c t ↔ t !! (c, seq) = Some row.
Proof.
  unfold chain_rows. rewrite sort_by_perm, list_elem_of_omap. split.
  - intros ([[c' s'] r'] & Hin & E). simpl in E. destruct (decide (c' = c)) as [->|]; [|done].
    simplify_eq. by apply elem_of_map_to_list in Hin.
  - intros Ht. exists ((c, seq), row). rewrite elem_of_map_to_list. simpl. by rewrite decide_True.
Qed.

Lemma chain_rows_sorted c t : StronglySorted (λ a b, seq_le a b = true) (chain_rows c t).
Proof.
  apply sort_by_sorted; unfold seq_le.
  - intros a b Hab. apply Z.leb_gt in Hab. apply Z.leb_le. lia.
  - intros a b d Hab Hbd. apply Z.leb_le in Hab, Hbd. apply Z.leb_le. lia.
Qed.

Lemma chain_rows_NoDup c t : NoDup (chain_rows c t).
Proof.
  unfold chain_rows. rewrite sort_by_perm. apply NoDup_omap_fst; [apply NoDup_fst_map_to_list|].
  intros [[c1 s1] r1] [[c2 s2] r2] e. simpl.
  destruct (decide (c1 = c)) as [->|]; [|done]. destruct (decide (c2 = c)) as [->|]; [|done].
  naive_solver.
Qed.

(** Two tables with the same rows for a community have the same chain. *)
Lemma chain_rows_ext c t t' :
  (∀ seq, t !! (c, seq) = t' !! (c, seq)) → chain_rows c t = chain_rows c t'.
Proof.
  intros Ht. apply (sorted_perm_unique _ _ _ (chain_rows_sorted c t) (chain_rows_sorted c t')).
  - apply NoDup_Permutation; [apply chain_rows_NoDup|apply chain_rows_NoDup|].
    intros [seq row]. by rewrite !elem_of_chain_rows, Ht.
  - intros [s1 r1] [s2 r2]. rewrite !elem_of_chain_rows. unfold seq_le. simpl.
    intros H1' H2' ?%Z.leb_le ?%Z.leb_le. assert (s1 = s2) as -> by lia. congruence.
Qed.

(** A row after all others goes to the end. *)
Lemma chain_rows_snoc c t seq row :
  (∀ e, e ∈ chain_rows c t → (e.1 < seq)%Z) →
  chain_rows c (<[(c, seq) := row]> t) = chain_rows c t ++ [(seq, row)].
Proof.
  intros Hlt. assert (t !! (c, seq) = None) as Hnone.
  { destruct (t !! (c, seq)) as [r|] eqn:E; [|done].
    apply elem_of_chain_rows, Hlt in E. simpl in E. lia. }
  apply (sorted_perm_unique (λ a b, seq_le a b = true)).
  - apply chain_rows_sorted.
  - apply StronglySorted_app_2; [|apply chain_rows_sorted|by repeat constructor].
    intros a b Ha ->%list_elem_of_singleton. apply Hlt in Ha. unfold seq_le. simpl. apply Z.leb_le. lia.
  - apply NoDup_Permutation; [apply chain_rows_NoDup| |].
    + apply NoDup_app. split; [apply chain_rows_NoDup|]. split; [|apply NoDup_singleton].
      intros e He ->%list_elem_of_singleton. apply Hlt in He. simpl in He. lia.
    + intros [s r]. rewrite elem_of_app, list_elem_of_singleton, !elem_of_chain_rows.
      destruct (decide (s = seq)) as [->|Hne].
      * rewrite lookup_insert_eq, Hnone. naive_solver.
      * rewrite lookup_insert_ne by congruence. naive_solver.
  - intros [s1 r1] [s2 r2]. rewrite !elem_of_chain_rows. unfold seq_le. simpl.
    intros H1' H2' ?%Z.leb_le ?%Z.leb_le. assert (s1 = s2) as -> by lia. congruence.
Qed.

(** ** Linked rows *)

Definition link_end (prev : option bytes) rows : option bytes :=
  match last rows with Some e => Some (row_hash e.2) | None => prev end.

Lemma linked_app c prev n rows rows' :
  linked c prev n (rows ++ rows') ↔
    linked c prev n rows ∧ linked c (link_end prev rows) (n + Z.of_nat (length rows)) rows'.
Proof.
  revert prev n. induction rows as [|[seq row] rows IH]; intros prev n; simpl.
  { rewrite Z.add_0_r. naive_solver. }
  rewrite IH. replace (n + 1 + Z.of_nat (length rows))%Z with (n + Z.of_nat (S (length rows)))%Z by lia.
  assert (link_end (Some (row_hash row)) rows = link_end prev ((seq, row) :: rows)) as ->.
  { unfold link_end. rewrite last_cons. by destruct (last rows). }
  naive_solver.
Qed.

Lemma linked_lookup c prev n rows i e : linked c prev n rows → rows !! i = Some e → e.1 = (n + Z.of_nat i)%Z.
Proof.
  revert prev n i. induction rows as [|[seq row] rows IH]; intros prev n i; [done|].
  intros (-> & _ & _ & Hl). destruct i as [|i]; simpl; [intros [= <-]; simpl; lia|].
  intros Hi. rewrite (IH _ _ _ Hl Hi). lia.
Qed.

Lemma linked_elem c prev n rows e :
  linked c prev n rows → e ∈ rows → (n ≤ e.1 < n + Z.of_nat (length rows))%Z.
Proof.
  intros Hl [i Hi]%list_elem_of_lookup. rewrite (linked_lookup _ _ _ _ _ _ Hl Hi).
  apply lookup_lt_Some in Hi. lia.
Qed.

Lemma action_roundtrip a : action_from_str (as_str a) = Some a.
Proof. by destruct a. Qed.

Lemma wrap_i64_id z : (- 2 ^ 63 ≤ z ≤ i64_max)%Z → wrap_i64 z = z.
Proof. unfold wrap_i64, i64_max. intros. rewrite Z.mod_small; lia. Qed.

Lemma storage_precision_idem z : to_storage_precision (to_storage_precision z) = to_storage_precision z.
Proof.
  unfold to_storage_precision. assert ((z - z `mod` 1000) `mod` 1000 = 0)%Z as ->; [|lia].
  rewrite Zminus_mod, Z.mod_mod, Z.sub_diag by done. done.
Qed.

(** The hash covers everything but the hash field, and the detail as JSON. *)
Lemma compute_hash_ext (e e' : AuditEntry num) :
  ae_community_id e = ae_community_id e' → ae_seq e = ae_seq e' → ae_prev_hash e = ae_prev_hash e' →
  ae_action e = ae_action e' → ae_actor_pubkey e = ae_actor_pubkey e' →
  ae_object_id e = ae_object_id e' → json_equiv (ae_detail e) (ae_detail e') →
  ae_created_at e = ae_created_at e' → compute_hash e = compute_hash e'.
Proof.
  intros Hc Hs Hp Ha Hk Ho Hd Ht. unfold compute_hash, preimage. rewrite Hd. by rewrite Hc, Hs, Hp, Ha, Hk, Ho, Ht.
Qed.

Context {AL : AuditLaws _}.

(** What [append_entry] does to the table. *)
Lemma append_entry_cases f now e head t res t' :
  append_entry f now e head t = (res, t') →
  (t' = t ∧ is_ok res = false) ∨
  ∃ ae row, next_entry now e head = Ok ae ∧ row_of ae = Ok row ∧
    insert_row (ae_community_id ae) (ae_seq ae) row t = Ok t' ∧ (is_ok res = true → res = Ok ae).
Proof.
  unfold append_entry. destruct (next_entry now e head) as [ae|]; [|intros [= <- <-]; by left].
  destruct (f_insert f) as [[]|]; [|intros [= <- <-]; by left].
  destruct (row_of ae) as [row|] eqn:Er; [|intros [= <- <-]; by left].
  destruct (insert_row _ _ row t) as [t1|] eqn:Ei; [|intros [= <- <-]; by left].
  destruct (f_commit f) as [|err []]; simpl; intros [= <- <-]; [right|right|by left]; exists ae, row; naive_solver.
Qed.

Lemma insert_row_Ok c seq row t t' :
  insert_row c seq row t = Ok t' → t !! (c, seq) = None ∧ t' = <[(c, seq) := row]> t.
Proof.
  unfold insert_row. destruct (decide (is_Some _)) as [|Hn]; [done|]. destruct (decide _); [done|].
  intros [= <-]. by rewrite eq_None_not_Some.
Qed.

Lemma next_entry_Ok now e head ae :
  next_entry now e head = Ok ae →
  ae_community_id ae = ne_community_id e ∧
  ae_seq ae = wrap_i64 (match head with Some (s, _) => s | None => 0 end + 1) ∧
  ae_prev_hash ae = snd <$> head ∧ ae_detail ae = ne_detail e ∧
  ae_created_at ae = to_storage_precision now ∧ compute_hash ae = Ok (ae_hash ae).
Proof.
  unfold next_entry, log_timestamp. destruct head as [[s h]|]; simpl.
  all: destruct (compute_hash _) as [x|] eqn:E; [|done]; intros [= <-]; simpl; split_and!; try done.
  all: exact E.
Qed.

(** The row written for the next entry links to the head. *)
Lemma next_row_linked now e head ae row :
  storable e → next_entry now e head = Ok ae → row_of ae = Ok row →
  linked (ae_community_id ae) (snd <$> head) (ae_seq ae) [(ae_seq ae, row)].
Proof.
  intros Hst Hn Hr. destruct (next_entry_Ok _ _ _ _ Hn) as (Hc & Hs & Hp & Hd & Ht & Hh).
  unfold row_of in Hr. destruct (pg_jsonb (ae_detail ae)) as [d|] eqn:Ed; [|done].
  injection Hr as <-. simpl. split; [done|]. split; [done|]. split; [|done].
  rewrite action_roundtrip. eexists. split; [reflexivity|]. rewrite <-Hh.
  apply compute_hash_ext; simpl; try done.
  - rewrite Hd in *. by apply Hst.
  - by rewrite Ht, pg_timestamp_exact.
Qed.

End chain_lemmas.

Section sys_lemmas.
Context {num : Type} `{SerdeJson num} `{NostrApi} `{UuidBytes} `{AuditApi num} {AL : AuditLaws _}.
Implicit Types (s : AuditSys (num:=num)).

Definition phase_entry (p : Phase (num:=num)) : option (NewAuditEntry num) :=
  match p with
  | Waiting e | Locked e | HeadRead e _ => Some e
  | Done _ _ => None
  end.

(** After [k] steps: whoever is past the lock holds it, what was read is still the
    head, and every chain is linked and not longer than [k]. *)
Record sys_inv (k : nat) s : Prop := {
  inv_lock : ∀ pid p c, sys_procs s !! pid = Some p → holding p = Some c →
               sys_locks s !! lock_key c = Some pid;
  inv_head : ∀ pid e head, sys_procs s !! pid = Some (HeadRead e head) →
               head = read_head (ne_community_id e) (sys_table s);
  inv_storable : ∀ pid p e, sys_procs s !! pid = Some p → phase_entry p = Some e → storable e;
  inv_linked : ∀ c, linked c None 1 (chain_rows c (sys_table s));
  inv_length : ∀ c, length (chain_rows c (sys_table s)) ≤ k
}.

Lemma sys_inv_init : sys_inv 0 (sys_init (num:=num)).
Proof. split; simpl; try done; intros; by rewrite lookup_empty in *. Qed.

Lemma sys_inv_weaken k s : sys_inv k s → sys_inv (S k) s.
Proof. intros [? ? ? ? Hl]. split; try done. intros c. specialize (Hl c). lia. Qed.

(** A process moves to a phase for which the lock is held and the head is right. *)
Lemma set_proc_inv k s pid p :
  sys_inv k s →
  (∀ c, holding p = Some c → sys_locks s !! lock_key c = Some pid) →
  (∀ e head, p = HeadRead e head → head = read_head (ne_community_id e) (sys_table s)) →
  (∀ e, phase_entry p = Some e → storable e) →
  sys_inv k (set_proc pid p s).
Proof.
  intros [Hl Hh Hs Hc Hn] H1' H2' H3'. split; simpl; try done.
  - intros pid' p' c. destruct (decide (pid = pid')) as [<-|].
    + rewrite lookup_insert_eq. intros [= <-]. apply H1'.
    + rewrite lookup_insert_ne by done. apply Hl.
  - intros pid' e head. destruct (decide (pid = pid')) as [<-|].
    + rewrite lookup_insert_eq. intros [= ->]. by apply H2'.
    + rewrite lookup_insert_ne by done. apply Hh.
  - intros pid' p' e. destruct (decide (pid = pid')) as [<-|].
    + rewrite lookup_insert_eq. intros [= <-]. apply H3'.
    + rewrite lookup_insert_ne by done. apply Hs.
Qed.

(** A process ends; the locks of the others stay. *)
Lemma end_proc_inv k s pid locks :
  sys_inv k s →
  (∀ key pid', pid' ≠ pid → sys_locks s !! key = Some pid' → locks !! key = Some pid') →
  sys_inv k (end_proc pid (set_locks locks s)).
Proof.
  intros [Hl Hh Hs Hc Hn] Hk. split; simpl; try done.
  - intros pid' p c [Hne Hp]%lookup_delete_Some Hc'. by eapply Hk, Hl.
  - intros pid' e head [_ Hp]%lookup_delete_Some. by eapply Hh.
  - intros pid' p e [_ Hp]%lookup_delete_Some. by eapply Hs.
Qed.

Lemma read_head_last c t :
  linked c None 1 (chain_rows c t) →
  snd <$> read_head c t = link_end None (chain_rows c t) ∧
  match read_head c t with Some (seq, _) => seq | None => 0%Z end = Z.of_nat (length (chain_rows c t)).
Proof.
  intros Hl. unfold read_head, link_end. destruct (last (chain_rows c t)) as [e|] eqn:E; simpl.
  - split; [done|]. rewrite last_lookup in E. rewrite (linked_lookup _ _ _ _ _ _ Hl E).
    apply lookup_lt_Some in E. lia.
  - split; [done|]. apply last_None in E. by rewrite E.
Qed.

(** A row appended after the head extends the chain of its community only. *)
Lemma append_chain f now e t res t' k :
  storable e → (∀ c, linked c None 1 (chain_rows c t)) →
  (length (chain_rows (ne_community_id e) t) ≤ k) → (Z.of_nat (S k) ≤ i64_max)%Z →
  append_entry f now e (read_head (ne_community_id e) t) t = (res, t') →
  (t' = t ∧ is_ok res = false) ∨
  ∃ ae row, (is_ok res = true → res = Ok ae) ∧ row_of ae = Ok row ∧
    ae_community_id ae = ne_community_id e ∧ ae_detail ae = ne_detail e ∧
    (∀ c, chain_rows c t' =
       if decide (c = ne_community_id e) then chain_rows c t ++ [(ae_seq ae, row)] else chain_rows c t) ∧
    linked (ne_community_id e) None 1 (chain_rows (ne_community_id e) t').
Proof.
  intros Hst Hlk Hlen Hk Happ. set (c := ne_community_id e) in *.
  apply append_entry_cases in Happ as [?|(ae & row & Hn & Hr & Hi & Hres)]; [by left|]. right.
  destruct (next_entry_Ok _ _ _ _ Hn) as (Hc & Hseq & _ & Hd & _).
  destruct (read_head_last c t (Hlk c)) as [Hprev Hlast].
  pose proof (next_row_linked _ _ _ _ _ Hst Hn Hr) as Hlinked.
  fold c in Hc. rewrite Hc in *. rewrite Hprev in Hlinked.
  assert (ae_seq ae = 1 + Z.of_nat (length (chain_rows c t)))%Z as Hseq'.
  { rewrite Hseq. rewrite Hlast. rewrite wrap_i64_id; [lia|]. split; [lia|]. lia. }
  apply insert_row_Ok in Hi as [Hnone ->].
  assert (chain_rows c (<[(c, ae_seq ae) := row]> t) = chain_rows c t ++ [(ae_seq ae, row)]) as Hsnoc.
  { apply chain_rows_snoc. intros x Hx. apply (linked_elem _ _ _ _ _ (Hlk c)) in Hx. lia. }
  exists ae, row. split; [done|]. split; [done|]. split; [done|]. split; [done|]. split.
  - intros c'. destruct (decide (c' = c)) as [->|Hne]; [done|].
    apply chain_rows_ext. intros seq. rewrite lookup_insert_ne by congruence. done.
  - rewrite Hsnoc. apply linked_app. split; [done|]. by rewrite <-Hseq'.
Qed.

(** A session that has read the head is alone in its community. *)
Lemma holders_unique k s pid pid' p p' c :
  sys_inv k s → sys_procs s !! pid = Some p → sys_procs s !! pid' = Some p' →
  holding p = Some c → holding p' = Some c → pid = pid'.
Proof.
  intros Hi Hp Hp' Hc Hc'. pose proof (inv_lock _ _ Hi _ _ _ Hp Hc).
  pose proof (inv_lock _ _ Hi _ _ _ Hp' Hc'). congruence.
Qed.

Lemma step_append_inv k s pid e head f now res t :
  sys_inv k s → (Z.of_nat (S k) ≤ i64_max)%Z →
  sys_procs s !! pid = Some (HeadRead e head) → append_entry f now e head (sys_table s) = (res, t) →
  sys_inv (S k) (mkSys t (sys_locks s) (<[pid := Done (ne_community_id e) res]> (sys_procs s))) ∧
  ∀ c, chain_rows c (sys_table s) `prefix_of` chain_rows c t.
Proof.
  intros Hi Hk Hp Happ. pose proof (inv_head _ _ Hi _ _ _ Hp) as ->.
  destruct (append_chain _ _ _ _ _ _ k (inv_storable _ _ Hi _ _ _ Hp eq_refl) (inv_linked _ _ Hi)
              (inv_length _ _ Hi _) Hk Happ) as [[-> _]|(ae & row & _ & _ & _ & _ & Hch & Hlk)].
  - split; [|done]. apply sys_inv_weaken, (set_proc_inv k s pid); [done| |done|done].
    intros c [= <-]. by eapply inv_lock.
  - split.
    + split; simpl.
      * intros pid' p c. destruct (decide (pid = pid')) as [<-|].
        -- rewrite lookup_insert_eq. intros [= <-] [= <-]. by eapply inv_lock.
        -- rewrite lookup_insert_ne by done. apply (inv_lock _ _ Hi).
      * intros pid' e' head'. destruct (decide (pid = pid')) as [<-|Hne]; [by rewrite lookup_insert_eq|].
        rewrite lookup_insert_ne by done. intros Hp'. rewrite (inv_head _ _ Hi _ _ _ Hp').
        unfold read_head. rewrite Hch. rewrite decide_False; [done|]. intros E.
        apply Hne. exact (holders_unique k s _ _ _ _ _ Hi Hp Hp' eq_refl (f_equal Some E)).
      * intros pid' p e'. destruct (decide (pid = pid')) as [<-|].
        -- rewrite lookup_insert_eq. by intros [= <-].
        -- rewrite lookup_insert_ne by done. apply (inv_storable _ _ Hi).
      * intros c. destruct (decide (c = ne_community_id e)) as [->|Hne]; [done|].
        rewrite Hch, decide_False by done. apply (inv_linked _ _ Hi).
      * intros c. rewrite Hch. pose proof (inv_length _ _ Hi c).
        destruct (decide _); rewrite ?length_app; simpl; lia.
    + intros c. rewrite Hch. destruct (decide _); [by apply prefix_app_r|done].
Qed.

Lemma sys_step_inv k s s' :
  sys_inv k s → sys_step s s' → (Z.of_nat (S k) ≤ i64_max)%Z →
  sys_inv (S k) s' ∧ ∀ c, chain_rows c (sys_table s) `prefix_of` chain_rows c (sys_table s').
Proof.
  intros Hi Hs Hk. destruct Hs as [s pid e Hp Hst|s pid e Hp Hfree|s pid e Hp|s pid e Hp|s pid e er Hp
    |s pid e head f now res t Hp Happ|s pid c res Hp|s pid c res Hp|s pid].
  6: { by eapply step_append_inv. }
  all: split; [|done]; apply sys_inv_weaken.
  - apply set_proc_inv; naive_solver.
  - split; simpl.
    + intros pid' p c. destruct (decide (pid = pid')) as [<-|Hne].
      * rewrite lookup_insert_eq. intros [= <-] [= <-]. by rewrite lookup_insert_eq.
      * rewrite lookup_insert_ne by done. intros Hp' Hc. pose proof (inv_lock _ _ Hi _ _ _ Hp' Hc) as Hl.
        rewrite lookup_insert_ne; [done|]. intros E. rewrite E in Hfree. naive_solver congruence.
    + intros pid' e' head. destruct (decide (pid = pid')) as [<-|]; [by rewrite lookup_insert_eq|].
      rewrite lookup_insert_ne by done. apply (inv_head _ _ Hi).
    + intros pid' p e'. destruct (decide (pid = pid')) as [<-|].
      * rewrite lookup_insert_eq. intros [= <-] [= <-]. by apply (inv_storable _ _ Hi _ _ _ Hp).
      * rewrite lookup_insert_ne by done. apply (inv_storable _ _ Hi).
    + apply (inv_linked _ _ Hi).
    + apply (inv_length _ _ Hi).
  - apply (end_proc_inv k s pid (sys_locks s)); done.
  - apply set_proc_inv; [done|intros c [= <-]; by eapply inv_lock|intros e' h E; injection E; congruence|].
    intros e' [= <-]. by eapply inv_storable.
  - apply set_proc_inv; [done|intros c [= <-]; by eapply inv_lock|done|done].
  - apply end_proc_inv; [done|]. intros key pid' Hne Hl. rewrite lookup_delete_ne; [done|].
    intros <-. rewrite (inv_lock _ _ Hi _ _ _ Hp eq_refl) in Hl. congruence.
  - apply (end_proc_inv k s pid (sys_locks s)); done.
  - apply end_proc_inv; [done|]. intros key pid' Hne Hl. by apply map_lookup_filter_Some.
Qed.

Lemma reachable_inv_from k n s s' :
  sys_inv k s → nsteps sys_step n s s' → (Z.of_nat (n + k) ≤ i64_max)%Z →
  sys_inv (n + k) s' ∧ ∀ c, chain_rows c (sys_table s) `prefix_of` chain_rows c (sys_table s').
Proof.
  intros Hi Hn. revert k Hi. induction Hn as [s|n s s1 s2 Hs _ IH]; intros k Hi Hk; [done|].
  destruct (sys_step_inv _ _ _ Hi Hs) as [Hi1 Hp1]; [lia|].
  destruct (IH (S k) Hi1) as [Hi2 Hp2]; [lia|].
  replace (S n + k) with (n + S k) by lia. split; [done|].
  intros c. etrans; [apply Hp1|apply Hp2].
Qed.

(** ** Verification of linked rows *)

Lemma verify_linked c prev n rows expected :
  linked c prev n rows → (expected = None ∨ expected = prev) → verify_rows c expected rows = Ok true.
Proof.
  revert prev n expected. induction rows as [|[seq row] rows IH]; intros prev n expected; [done|].
  intros (-> & Hprev & (e & He & Hh) & Hl) Hexp. cbn [verify_rows]. rewrite He.
  assert (ae_prev_hash e = row_prev_hash row ∧ ae_hash e = row_hash row) as [Hp' Hh'].
  { unfold row_to_audit_entry in He. destruct (action_from_str _); [|done]. by injection He as <-. }
  rewrite Hp', Hh', Hh, Hprev.
  assert (match expected with Some x => bool_decide (prev ≠ Some x) | None => false end = false) as ->.
  { destruct Hexp as [->| ->]; [done|]. destruct prev; [|done]. apply bool_decide_eq_false_2. intros Hn. by apply Hn. }
  rewrite decide_False by auto. apply (IH _ _ _ Hl). by right.
Qed.

(** The rows of a range of a linked chain are linked. *)
Lemma linked_range c prev n rows a b :
  linked c prev n rows →
  List.filter (in_seq_range a b) rows =
    take (Z.to_nat (b + 1 - Z.max a n)) (drop (Z.to_nat (a - n)) rows).
Proof.
  revert prev n. induction rows as [|[seq row] rows IH]; intros prev n; simpl.
  { by rewrite drop_nil, take_nil. }
  intros (-> & _ & _ & Hl). rewrite (IH _ _ Hl). unfold in_seq_range. simpl.
  destruct (Z.leb_spec a n); simpl.
  - replace (Z.to_nat (a - n)) with 0 by lia. replace (Z.to_nat (a - (n + 1))) with 0 by lia. simpl.
    destruct (Z.leb_spec n b).
    + replace (Z.to_nat (b + 1 - Z.max a n)) with (S (Z.to_nat (b + 1 - Z.max a (n + 1)))) by lia. done.
    + replace (Z.to_nat (b + 1 - Z.max a n)) with 0 by lia.
      replace (Z.to_nat (b + 1 - Z.max a (n + 1))) with 0 by lia. done.
  - replace (Z.to_nat (a - n)) with (S (Z.to_nat (a - (n + 1)))) by lia. simpl.
    replace (Z.max a (n + 1)) with (Z.max a n) by lia. done.
Qed.

Lemma linked_slice c prev n rows i j :
  linked c prev n rows → ∃ prev' n', linked c prev' n' (take j (drop i rows)).
Proof.
  intros Hl. rewrite <-(take_drop i rows) in Hl. apply linked_app in Hl as [_ Hl].
  rewrite <-(take_drop j (drop i rows)) in Hl. apply linked_app in Hl as [Hl _]. eauto.
Qed.

Lemma verify_chain_linked c t a b :
  linked c None 1 (chain_rows c t) →
  verify_chain (Ok tt) c a b t =
    Ok (bool_decide (Z.max a 1 ≤ Z.min b (Z.of_nat (length (chain_rows c t))))%Z).
Proof.
  intros Hl. unfold verify_chain. simpl. rewrite (linked_range _ _ _ _ _ _ Hl).
  set (rows := take _ _).
  assert (rows = [] ↔ ¬ (Z.max a 1 ≤ Z.min b (Z.of_nat (length (chain_rows c t))))%Z) as Hempty.
  { rewrite <-length_zero_iff_nil. unfold rows. rewrite length_take, length_drop. lia. }
  destruct (linked_slice _ _ _ _ (Z.to_nat (a - 1)) (Z.to_nat (b + 1 - Z.max a 1)) Hl) as (prev' & n' & Hs).
  fold rows in Hs. destruct rows as [|e rows'].
  - rewrite bool_decide_eq_false_2; [done|]. by apply Hempty.
  - rewrite bool_decide_eq_true_2; [|apply dec_stable; by intros ?%Hempty].
    change (verify_rows c None (e :: rows') = Ok true). apply (verify_linked _ _ _ _ _ Hs). by left.
Qed.

End sys_lemmas.

Section tamper_lemmas.
Context {num : Type} `{SerdeJson num} `{NostrApi} `{UuidBytes} `{AuditApi num} {AL : AuditLaws _}.
Context {UL : UuidBytesLaws _}.
Implicit Types (x y : Z * Row (num:=num)) (rows : list (Z * Row (num:=num))).

(** An [i64] (a [BIGINT] column) and its bytes. *)
Definition is_i64 (z : Z) : Prop := (- 2 ^ 63 ≤ z ≤ i64_max)%Z.

Lemma i64_bytes_length z : length (i64_to_be_bytes z) = 8.
Proof. unfold i64_to_be_bytes. by rewrite length_rev, le_bytes_length. Qed.

Lemma i64_bytes_inj z z' :
  is_i64 z → is_i64 z' → i64_to_be_bytes z = i64_to_be_bytes z' → z = z'.
Proof.
  unfold is_i64, i64_max, i64_to_be_bytes. intros Hz Hz' E%rev_inj.
  apply (f_equal le_value) in E. rewrite !le_value_bytes in E.
  assert (∀ w : Z, (Z.to_N (w `mod` 2 ^ 64) `mod` 256 ^ N.of_nat 8)%N = Z.to_N (w `mod` 2 ^ 64)) as Hm.
  { intros w. apply N.mod_small. pose proof (Z.mod_pos_bound w (2 ^ 64) ltac:(done)).
    change (256 ^ N.of_nat 8)%N with (Z.to_N (2 ^ 64)). lia. }
  rewrite !Hm in E. apply (f_equal Z.of_N) in E.
  rewrite !Z2N.id in E by (apply Z.mod_pos_bound; done).
  pose proof (Z.div_mod z (2 ^ 64) ltac:(done)). pose proof (Z.div_mod z' (2 ^ 64) ltac:(done)). lia.
Qed.

(** The bytes some row of [rows] is hashed from. *)
Definition hashed_bytes (c : CommunityId) (rows : list (Z * Row (num:=num))) (p : bytes) : Prop :=
  ∃ x e d, x ∈ rows ∧ row_to_audit_entry c x = Ok e ∧ canonical_json (ae_detail e) = Ok d ∧ p = preimage e d.

(** What SHA-256 is trusted not to allow: the two tables exhibit a collision, or
    a row of the second one that hashes to the genesis value. *)
Definition sha256_broken (c : CommunityId) (rows rows' : list (Z * Row (num:=num))) : Prop :=
  (∃ p q, hashed_bytes c rows p ∧ hashed_bytes c rows' q ∧ p ≠ q ∧ sha256 p = sha256 q) ∨
  (∃ p, hashed_bytes c rows' p ∧ sha256 p = GENESIS_HASH).

(** Two rows that were hashed from the same bytes. *)
Definition same_record (c : CommunityId) (x x' : Z * Row (num:=num)) : Prop :=
  x.1 = x'.1 ∧ row_hash x.2 = row_hash x'.2 ∧
  ∃ e e' d d', row_to_audit_entry c x = Ok e ∧ row_to_audit_entry c x' = Ok e' ∧
    canonical_json (ae_detail e) = Ok d ∧ canonical_json (ae_detail e') = Ok d' ∧
    preimage e d = preimage e' d'.

(** A row whose hash is right. *)
Definition row_hashed (c : CommunityId) (x : Z * Row (num:=num)) : Prop :=
  ∃ e, row_to_audit_entry c x = Ok e ∧ compute_hash e = Ok (row_hash x.2).

Lemma row_entry c x e :
  row_to_audit_entry c x = Ok e →
  ae_community_id e = c ∧ ae_seq e = x.1 ∧ ae_prev_hash e = row_prev_hash x.2 ∧ ae_hash e = row_hash x.2.
Proof.
  destruct x as [seq row]. unfold row_to_audit_entry. destruct (action_from_str _); [|done].
  by intros [= <-].
Qed.

Lemma row_hashed_preimage c x :
  row_hashed c x → ∃ e d, row_to_audit_entry c x = Ok e ∧ canonical_json (ae_detail e) = Ok d ∧
    row_hash x.2 = sha256 (preimage e d).
Proof.
  intros (e & He & Hh). unfold compute_hash in Hh.
  destruct (canonical_json (ae_detail e)) as [d|] eqn:Ed; [|done]. simpl in Hh.
  exists e, d. split_and!; [done|done|]. by injection Hh.
Qed.

Lemma row_hashed_length c x : row_hashed c x → length (row_hash x.2) = 32.
Proof. intros (e & d & _ & _ & ->)%row_hashed_preimage. apply sha256_length. Qed.

(** Equal hashes: the same bytes, or a collision. *)
Lemma equal_hashes c rows rows' x x' :
  x ∈ rows → x' ∈ rows' →
  row_hashed c x → row_hashed c x' → row_hash x.2 = row_hash x'.2 → is_i64 x.1 → is_i64 x'.1 →
  sha256_broken c rows rows' ∨ same_record c x x'.
Proof.
  intros Hx Hx' (e & d & He & Hd & Hh)%row_hashed_preimage (e' & d' & He' & Hd' & Hh')%row_hashed_preimage E Hi Hi'.
  destruct (decide (preimage e d = preimage e' d')) as [Ep|Hne].
  - right. split; [|split; [done|by exists e, e', d, d']].
    apply row_entry in He as (Hc & Hs & _). apply row_entry in He' as (Hc' & Hs' & _).
    unfold preimage in Ep. apply app_inj_1 in Ep as [_ Ep]; [|by rewrite !uuid_bytes_length].
    apply app_inj_1 in Ep as [Ep _]; [|by rewrite !i64_bytes_length].
    rewrite Hs, Hs' in Ep. by apply i64_bytes_inj.
  - left. left. exists (preimage e d), (preimage e' d').
    split_and!; [by exists x, e, d|by exists x', e', d'|done|congruence].
Qed.

Lemma same_record_prev c x x' h h' :
  same_record c x x' → default GENESIS_HASH (row_prev_hash x.2) = h →
  default GENESIS_HASH (row_prev_hash x'.2) = h' → length h = 32 → length h' = 32 → h = h'.
Proof.
  intros (_ & _ & e & e' & d & d' & He & He' & _ & _ & Ep) Hh Hh' Hl Hl'.
  apply row_entry in He as (_ & _ & Hp & _). apply row_entry in He' as (_ & _ & Hp' & _).
  unfold preimage in Ep. rewrite Hp, Hp', Hh, Hh', !app_assoc in Ep.
  apply app_inj_2 in Ep as [_ Ep]; [done|congruence].
Qed.

(** What verification and linking say of neighbours. *)
Definition neighbours_ok (c : CommunityId) (rows : list (Z * Row (num:=num))) : Prop :=
  (∀ i x, rows !! i = Some x → row_hashed c x) ∧
  (∀ i x y, rows !! i = Some x → rows !! S i = Some y → row_prev_hash y.2 = Some (row_hash x.2)).

Lemma verify_neighbours c expected rows :
  verify_rows c expected rows = Ok true →
  neighbours_ok c rows ∧ ∀ x h, rows !! 0 = Some x → expected = Some h → row_prev_hash x.2 = Some h.
Proof.
  revert expected. induction rows as [|row rows IH]; intros expected; [done|]. cbn [verify_rows].
  destruct (row_to_audit_entry c row) as [e|] eqn:He; [|done].
  pose proof (row_entry _ _ _ He) as (_ & _ & Hp & Hh).
  destruct (match expected with Some _ => _ | None => _ end) eqn:Ex; [done|].
  destruct (compute_hash e) as [h|] eqn:Ec; [|done]. destruct (decide (h ≠ ae_hash e)) as [|Hn]; [done|].
  apply dec_stable in Hn. subst h. intros [[Hall Hnext] Hfirst]%IH. split; [split|].
  - intros [|i] x; [|apply Hall]. intros [= <-]. exists e. split; [done|]. by rewrite Ec, Hh.
  - intros [|i] x y; [|apply Hnext]. intros [= <-] Hy. rewrite <-Hh. by apply (Hfirst y).
  - intros x h [= <-] ->. apply bool_decide_eq_false_1, dec_stable in Ex. by rewrite <-Hp.
Qed.

Lemma linked_neighbours c prev n rows :
  linked c prev n rows → neighbours_ok c rows ∧ ∀ x, rows !! 0 = Some x → row_prev_hash x.2 = prev.
Proof.
  revert prev n. induction rows as [|[seq row] rows IH]; intros prev n; [done|].
  intros (-> & Hp & Hh & [[Hall Hnext] Hfirst]%IH). split; [split|].
  - intros [|i] x; [|apply Hall]. by intros [= <-].
  - intros [|i] x y; [|apply Hnext]. intros [= <-] Hy. by apply (Hfirst y).
  - by intros x [= <-].
Qed.

(** Backwards from equal hashes, the rows agree one by one. *)
Lemma chains_agree c rows rows' n m :
  neighbours_ok c rows → (∀ x, rows !! 0 = Some x → row_prev_hash x.2 = None) → neighbours_ok c rows' →
  (∀ x, x ∈ rows → is_i64 x.1) → (∀ x, x ∈ rows' → is_i64 x.1) →
  length rows = S n → length rows' = S m →
  (∀ x x', rows !! n = Some x → rows' !! m = Some x' → row_hash x.2 = row_hash x'.2) →
  sha256_broken c rows rows' ∨ (m ≤ n ∧ ∀ j x x', j ≤ m → rows !! (n - j) = Some x → rows' !! (m - j) = Some x' → same_record c x x').
Proof.
  intros [Hh Hn] Hfirst [Hh' Hn'] Hi Hi' Hl Hl' Hlast.
  assert (∀ j, j ≤ m → sha256_broken c rows rows' ∨ (j ≤ n ∧ ∀ i x x', i ≤ j → rows !! (n - i) = Some x →
            rows' !! (m - i) = Some x' → same_record c x x')) as Hall; [|by apply Hall].
  induction j as [|j IH]; intros Hj.
  - destruct (lookup_lt_is_Some_2 rows n) as [x Hx]; [lia|].
    destruct (lookup_lt_is_Some_2 rows' m) as [x' Hx']; [lia|].
    destruct (equal_hashes c rows rows' x x') as [?|Hs]; eauto using list_elem_of_lookup_2.
    right. split; [lia|]. intros i ? ? Hi0. replace i with 0 by lia. rewrite !Nat.sub_0_r. intros; by simplify_eq.
  - destruct IH as [?|[Hjn IH]]; [lia|by left|].
    destruct (lookup_lt_is_Some_2 rows (n - j)) as [x Hx]; [lia|].
    destruct (lookup_lt_is_Some_2 rows' (m - j)) as [x' Hx']; [lia|].
    destruct (lookup_lt_is_Some_2 rows' (m - S j)) as [y' Hy']; [lia|].
    pose proof (Hn' (m - S j) y' x' Hy') as Hp'. replace (S (m - S j)) with (m - j) in Hp' by lia.
    specialize (Hp' Hx'). pose proof (row_hashed_length _ _ (Hh' _ _ Hy')) as Hlen'.
    pose proof (IH j x x' ltac:(lia) Hx Hx') as Hxx. destruct (decide (n = j)) as [->|Hne].
    + rewrite Nat.sub_diag in Hx. left. right.
      apply (same_record_prev _ _ _ GENESIS_HASH (row_hash y'.2)) in Hxx;
        [|by rewrite (Hfirst _ Hx)|by rewrite Hp'|done|done].
      destruct (row_hashed_preimage _ _ (Hh' _ _ Hy')) as (e & d & He & Hd & E).
      exists (preimage e d). split; [exists y', e, d; split_and!; eauto using list_elem_of_lookup_2|congruence].
    + destruct (lookup_lt_is_Some_2 rows (n - S j)) as [y Hy]; [lia|].
      pose proof (Hn (n - S j) y x Hy) as Hp. replace (S (n - S j)) with (n - j) in Hp by lia. specialize (Hp Hx).
      pose proof (row_hashed_length _ _ (Hh _ _ Hy)) as Hlen.
      apply (same_record_prev _ _ _ (row_hash y.2) (row_hash y'.2)) in Hxx; [|by rewrite Hp|by rewrite Hp'|done|done].
      destruct (equal_hashes c rows rows' y y') as [?|Hs]; eauto using list_elem_of_lookup_2.
      right. split; [lia|]. intros i z z' Hij Hz Hz'. destruct (decide (i = S j)) as [->|]; [by simplify_eq|].
      apply (IH i); [lia|done|done].
Qed.

(** ** Reading the preimage back *)

(** A prefix free of [P] is determined when what follows starts with [P]. *)
Lemma span_inj (P : byte → bool) (l k : bytes) a b l' k' :
  Forall (λ z, P z = false) l → Forall (λ z, P z = false) k → P a = true → P b = true →
  l ++ a :: l' = k ++ b :: k' → l = k ∧ a :: l' = b :: k'.
Proof.
  intros Hl. revert k. induction Hl as [|z l Hz _ IH]; intros k Hk Ha Hb E; destruct Hk as [|w k Hw Hk]; simpl in *.
  - done.
  - injection E as -> _. congruence.
  - injection E as <- _. congruence.
  - injection E as <- E. apply IH in E as [-> ->]; done.
Qed.

Lemma str_bytes_inj u v : str_bytes u = str_bytes v → u = v.
Proof.
  intros E%(f_equal String.string_of_list_byte). unfold str_bytes in E.
  by rewrite !String.string_of_list_byte_of_string in E.
Qed.

Lemma str_bytes_forall f u :
  str_all f u = true → Forall (λ z, f (ascii_of_byte z) = true) (str_bytes u).
Proof.
  induction u as [|a u IH]; simpl; [constructor|]. intros [Ha Hu]%andb_true_iff.
  constructor; [|by apply IH]. by rewrite ascii_of_byte_of_ascii.
Qed.

Definition is_lower (z : byte) : bool :=
  ((97 <=? ascii_code (ascii_of_byte z)) && (ascii_code (ascii_of_byte z) <=? 122))%N.
Definition is_tag (z : byte) : bool := bool_decide (z = x00) || bool_decide (z = x01).
Definition is_brace (z : byte) : bool := bool_decide (ascii_of_byte z = "{"%char).

Lemma action_bytes a :
  ∃ z l, str_bytes (as_str a) = z :: l ∧ is_lower z = true ∧
    Forall (λ z, is_tag z = false) (str_bytes (as_str a)).
Proof. destruct a; eexists _, _; (split; [reflexivity|]); (split; [reflexivity|]); repeat constructor. Qed.

Lemma as_str_inj a a' : as_str a = as_str a' → a = a'.
Proof. intros E. apply (f_equal action_from_str) in E. rewrite !action_roundtrip in E. congruence. Qed.

(** Entries as the relay writes them: a pubkey of 32 bytes, an object id without a
    brace, a detail that is an object. *)
Record well_formed (e : AuditEntry num) (d : string) : Prop := {
  wf_uuid : uuid_ok (ae_community_id e);
  wf_seq : is_i64 (ae_seq e);
  wf_actor : ∀ k, ae_actor_pubkey e = Some k → length k = 32;
  wf_object : ∀ o, ae_object_id e = Some o → str_contains "{" o = false;
  wf_detail : starts_with "{" d = true;
  wf_prev : ∀ h, ae_prev_hash e = Some h → length h = 32
}.

Lemma presence_fixed (a a' : option bytes) l l' :
  (∀ k, a = Some k → length k = 32) → (∀ k, a' = Some k → length k = 32) →
  presence a ++ l = presence a' ++ l' → a = a' ∧ l = l'.
Proof.
  intros Ha Ha' E. destruct a as [k|], a' as [k'|]; simpl in E; try done; [|by injection E as ->].
  injection E as E. apply app_inj_1 in E as [-> ->]; [done|]. by rewrite (Ha k), (Ha' k').
Qed.

Lemma no_brace_bytes o : str_contains "{" o = false → Forall (λ z, is_brace z = false) (str_bytes o).
Proof.
  induction o as [|a o IH]; simpl; [constructor|]. intros [Ha Ho]%orb_false_iff.
  constructor; [|by apply IH]. unfold is_brace. by rewrite ascii_of_byte_of_ascii.
Qed.

Lemma brace_bytes d : starts_with "{" d = true → ∃ z l, str_bytes d = z :: l ∧ is_brace z = true.
Proof. intros [u ->]%starts_with_iff. by eexists _, _. Qed.

Lemma presence_object (o o' : option string) z z' l l' :
  (∀ s, o = Some s → str_contains "{" s = false) → (∀ s, o' = Some s → str_contains "{" s = false) →
  is_brace z = true → is_brace z' = true →
  presence (str_bytes <$> o) ++ z :: l = presence (str_bytes <$> o') ++ z' :: l' →
  o = o' ∧ z :: l = z' :: l'.
Proof.
  intros Ho Ho' Hz Hz' E. destruct o as [s|], o' as [s'|]; simpl in E; try done; [|by injection E as -> ->].
  injection E as E. apply (span_inj is_brace) in E as [E1 E2]; auto using no_brace_bytes.
  split; [f_equal; by apply str_bytes_inj|done].
Qed.

Lemma time_action_inj u u' a a' (k k' : option bytes) l l' :
  str_bytes (to_rfc3339 u) ++ str_bytes (as_str a) ++ presence k ++ l =
  str_bytes (to_rfc3339 u') ++ str_bytes (as_str a') ++ presence k' ++ l' →
  u = u' ∧ a = a' ∧ presence k ++ l = presence k' ++ l'.
Proof.
  assert (∀ w, Forall (λ z, is_lower z = false) (str_bytes (to_rfc3339 w))) as Hlow.
  { intros w. eapply Forall_impl; [apply str_bytes_forall, to_rfc3339_chars|].
    intros z Hz. by apply negb_true_iff. }
  assert (∀ (k : option bytes) l, ∃ z l', presence k ++ l = z :: l' ∧ is_tag z = true) as Htag.
  { intros [b|] m; by eexists _, _. }
  intros E. destruct (action_bytes a) as (z & m & Em & Hz & Hm). destruct (action_bytes a') as (z' & m' & Em' & Hz' & Hm').
  rewrite Em, Em' in E. apply (span_inj is_lower) in E as [Et E]; [|done..].
  split; [by apply to_rfc3339_inj, str_bytes_inj|].
  change (z :: (m ++ presence k ++ l) = z' :: (m' ++ presence k' ++ l')) in E.
  assert (str_bytes (as_str a) ++ presence k ++ l = str_bytes (as_str a') ++ presence k' ++ l') as E'
    by (by rewrite Em, Em').
  destruct (Htag k l) as (w & r & Ew & Hw). destruct (Htag k' l') as (w' & r' & Ew' & Hw').
  rewrite Ew, Ew' in E' |- *.
  apply (span_inj is_tag) in E' as [Ea E']; [|done..].
  split; [by apply as_str_inj, str_bytes_inj|done].
Qed.

Lemma object_detail_inj (o o' : option string) d d' h h' :
  presence (str_bytes <$> o) ++ str_bytes d ++ h = presence (str_bytes <$> o') ++ str_bytes d' ++ h' →
  (∀ s, o = Some s → str_contains "{" s = false) → (∀ s, o' = Some s → str_contains "{" s = false) →
  starts_with "{" d = true → starts_with "{" d' = true → length h = 32 → length h' = 32 →
  o = o' ∧ d = d' ∧ h = h'.
Proof.
  intros E Ho Ho' Hd Hd' Hh Hh'. destruct (brace_bytes d Hd) as (z & l & El & Hz).
  destruct (brace_bytes d' Hd') as (z' & l' & El' & Hz'). rewrite El, El' in E.
  apply presence_object in E as [-> E]; [|done..]. split; [done|].
  change (z :: (l ++ h) = z' :: (l' ++ h')) in E.
  assert (str_bytes d ++ h = str_bytes d' ++ h') as E' by (by rewrite El, El').
  apply app_inj_2 in E' as [Ed ->]; [|congruence]. split; [by apply str_bytes_inj|done].
Qed.

(** The row with the last number of a range is its last row. *)
(** The hash binds every field.  For entries as the relay writes them -- a 32-byte
    actor key, an object id without a brace, a detail that is a JSON object, a
    32-byte previous hash -- the bytes hashed determine the community, the number,
    the stored time, the action, the actor, the object, the canonical detail and
    the previous hash. *)
Lemma preimage_determines_entry (e e' : AuditEntry num) d d' :
  well_formed e d → well_formed e' d' → preimage e d = preimage e' d' →
  ae_community_id e = ae_community_id e' ∧ ae_seq e = ae_seq e' ∧
  to_storage_precision (ae_created_at e) = to_storage_precision (ae_created_at e') ∧
  ae_action e = ae_action e' ∧ ae_actor_pubkey e = ae_actor_pubkey e' ∧
  ae_object_id e = ae_object_id e' ∧ d = d' ∧
  default GENESIS_HASH (ae_prev_hash e) = default GENESIS_HASH (ae_prev_hash e').
Proof.
  intros [Hu Hs Ha Ho Hd Hp] [Hu' Hs' Ha' Ho' Hd' Hp'] E. unfold preimage in E.
  apply app_inj_1 in E as [Ec E]; [|by rewrite !uuid_bytes_length].
  apply app_inj_1 in E as [Es E]; [|by rewrite !i64_bytes_length].
  apply (f_equal uuid_from_bytes) in Ec. rewrite !uuid_from_as in Ec by done.
  apply i64_bytes_inj in Es; [|done|done]. split; [done|]. split; [done|].
  apply time_action_inj in E as (Et & Eact & E). split; [done|]. split; [done|].
  apply presence_fixed in E as [Ek E]; [|done|done]. split; [done|].
  apply object_detail_inj in E as (Eo & Ed & Ep); [by split_and!|done..| |].
  - destruct (ae_prev_hash e); simpl; [by apply Hp|done].
  - destruct (ae_prev_hash e'); simpl; [by apply Hp'|done].
Qed.

Lemma object_loop_start first acc l d : object_loop first ("{" +:+ acc) l = Ok d → starts_with "{" d = true.
Proof.
  revert first acc. induction l as [|[k v] l IH]; intros first acc; simpl.
  - intros [= <-]. apply starts_with_iff. by exists (acc +:+ "}").
  - destruct (serde_key k) as [ks|]; [|done]. simpl. destruct v as [vs|]; [|done]. simpl. rewrite !append_assoc. apply IH.
Qed.

Lemma canonical_object (m : list (string * Json num)) d : canonical_json (JObject m) = Ok d → starts_with "{" d = true.
Proof. apply (object_loop_start _ ""). Qed.

(** A row as the service writes it: a community of 128 bits, a pubkey and a previous hash
    of 32 bytes, an object id without a brace, a detail that is an object, a time in whole
    microseconds, as the column holds it. *)
Record as_written (c : CommunityId) (x : Z * Row (num:=num)) : Prop := {
  aw_community : uuid_ok c;
  aw_seq : is_i64 x.1;
  aw_actor : ∀ k, row_actor_pubkey x.2 = Some k → length k = 32;
  aw_object : ∀ o, row_object_id x.2 = Some o → str_contains "{" o = false;
  aw_detail : ∃ m, row_detail x.2 = JObject m;
  aw_prev : ∀ h, row_prev_hash x.2 = Some h → length h = 32;
  aw_time : to_storage_precision (row_created_at x.2) = row_created_at x.2
}.

(** Rows that say the same in every column: the detail up to the order of its keys, the
    previous hash with none for the first. *)
Record same_fields (x x' : Z * Row (num:=num)) : Prop := {
  sf_seq : x.1 = x'.1;
  sf_hash : row_hash x.2 = row_hash x'.2;
  sf_prev : default GENESIS_HASH (row_prev_hash x.2) = default GENESIS_HASH (row_prev_hash x'.2);
  sf_action : row_action x.2 = row_action x'.2;
  sf_actor : row_actor_pubkey x.2 = row_actor_pubkey x'.2;
  sf_object : row_object_id x.2 = row_object_id x'.2;
  sf_detail : canonical_json (row_detail x.2) = canonical_json (row_detail x'.2);
  sf_time : row_created_at x.2 = row_created_at x'.2
}.

Lemma action_from_str_Some u a : action_from_str u = Some a → as_str a = u.
Proof. intros [_ E]%List.find_some. by apply bool_decide_eq_true in E. Qed.

Lemma row_well_formed c x e d :
  as_written c x → row_to_audit_entry c x = Ok e → canonical_json (ae_detail e) = Ok d → well_formed e d.
Proof.
  destruct x as [seq row]. intros [Hc Hs Ha Ho [m Hm] Hp _]. unfold row_to_audit_entry. destruct (action_from_str _); [|done].
  intros [= <-] Hd. simpl in *. rewrite Hm in Hd. split; simpl; try done. by eapply canonical_object.
Qed.

Lemma same_record_fields c x x' : as_written c x → as_written c x' → same_record c x x' → same_fields x x'.
Proof.
  intros Hw Hw' (Hs & Hh & e & e' & d & d' & He & He' & Hd & Hd' & Ep).
  apply preimage_determines_entry in Ep as (_ & _ & Et & Ea & Ek & Eo & Edd & Epr); [|by eapply (row_well_formed c x)|by eapply (row_well_formed c x')].
  pose proof (aw_time _ _ Hw) as Ht. pose proof (aw_time _ _ Hw') as Ht'.
  destruct x as [seq row], x' as [seq' row']. unfold row_to_audit_entry in He, He'.
  destruct (action_from_str (row_action row)) as [a|] eqn:Ha; [|done].
  destruct (action_from_str (row_action row')) as [a'|] eqn:Ha'; [|done]. injection He as <-. injection He' as <-. simpl in *.
  split; simpl; try done; try congruence.
  apply action_from_str_Some in Ha as <-. apply action_from_str_Some in Ha' as <-. by rewrite Ea.
Qed.

Lemma range_last (c : N) (t : gmap (N * Z) (Row (num:=num))) from to row :
  (from ≤ to)%Z → t !! (c, to) = Some row →
  ∃ m, length (List.filter (in_seq_range from to) (chain_rows c t)) = S m ∧
       List.filter (in_seq_range from to) (chain_rows c t) !! m = Some (to, row).
Proof.
  intros Hle Ht. set (rows := List.filter _ _).
  assert (∀ x, x ∈ rows ↔ t !! (c, x.1) = Some x.2 ∧ in_seq_range from to x = true) as Hin.
  { intros [sq r]. unfold rows. by rewrite list_elem_of_In, filter_In, <-list_elem_of_In, elem_of_chain_rows. }
  assert ((to, row) ∈ rows) as Hto.
  { apply Hin. split; [done|]. unfold in_seq_range. simpl. apply andb_true_iff. rewrite !Z.leb_le. lia. }
  destruct (last rows) as [z|] eqn:Hz; [|apply last_None in Hz; rewrite Hz in Hto; by apply not_elem_of_nil in Hto].
  assert (z = (to, row)) as ->.
  { assert (z ∈ rows) as Hzin by (by apply last_Some_elem_of).
    apply Hin in Hzin as [Hzt Hzr]. unfold in_seq_range in Hzr. apply andb_true_iff in Hzr as [_ Hzr%Z.leb_le].
    assert (to ≤ z.1)%Z as Hge.
    { apply last_Some in Hz as [l El]. rewrite El in Hto. apply elem_of_app in Hto as [Hto|Hto];
        [|apply list_elem_of_singleton in Hto; by rewrite <-Hto].
      assert (StronglySorted (λ a b, seq_le a b = true) rows) as Hs by apply StronglySorted_lfilter, chain_rows_sorted.
      rewrite El in Hs.
      pose proof (StronglySorted_app_1_elem_of _ _ _ (to, row) z Hs Hto (list_elem_of_here _ _)) as Hsz.
      by apply Z.leb_le in Hsz. }
    destruct z as [sq r]. simpl in *. assert (sq = to) as -> by lia. congruence. }
  rewrite last_lookup in Hz. exists (pred (length rows)). split; [|done].
  apply lookup_lt_Some in Hz. lia.
Qed.

End tamper_lemmas.

(** ** Properties *)

Section properties.
Context {num : Type} `{SerdeJson num} `{NostrApi} `{UuidBytes} `{AuditApi num} {AL : AuditLaws _}.

(** C13: Every audit chain is intact, however appends interleave.  After any number of
    steps of any number of sessions -- calls that wait for the lock, fail at any
    statement, lose their connection, commit without learning of it -- every
    community's rows are numbered 1, 2, 3, ..., each links to its predecessor and
    has the right hash; and verification of any range answers [true] exactly when
    the range meets the chain, never an error. *)
Theorem audit_chain_integrity n s c a b :
  nsteps sys_step n sys_init s → (Z.of_nat n ≤ i64_max)%Z →
  linked c None 1 (chain_rows c (sys_table s)) ∧
  verify_chain (Ok tt) c a b (sys_table s) =
    Ok (bool_decide (Z.max a 1 ≤ Z.min b (Z.of_nat (length (chain_rows c (sys_table s)))))%Z).
Proof.
  intros Hn Hb. destruct (reachable_inv_from 0 n _ s sys_inv_init Hn) as [Hi _]; [lia|].
  split; [apply (inv_linked _ _ Hi)|]. apply verify_chain_linked, (inv_linked _ _ Hi).
Qed.

(** The log is append-only: in any execution the rows a community has at some
    moment are a prefix of the rows it has later. *)
Theorem audit_append_only n m s s' c :
  nsteps sys_step n sys_init s → nsteps sys_step m s s' → (Z.of_nat (m + n) ≤ i64_max)%Z →
  chain_rows c (sys_table s) `prefix_of` chain_rows c (sys_table s').
Proof.
  intros Hn Hm Hb. destruct (reachable_inv_from 0 n _ s sys_inv_init Hn) as [Hi _]; [lia|].
  rewrite Nat.add_0_r in Hi. by apply (reachable_inv_from n m s s' Hi Hm).
Qed.

(** A logged entry can be read back.  When [log] returns an entry, exactly one row
    was added, at the end of that community's chain, no other chain changed, and
    [get_entries] from its number returns the entry, its detail up to the order of
    keys. *)
Theorem log_reads_back f now e t ae t' :
  storable e → (∀ c, linked c None 1 (chain_rows c t)) →
  (Z.of_nat (S (length (chain_rows (ne_community_id e) t))) ≤ i64_max)%Z →
  log f now e t = (Ok ae, t') →
  ae_seq ae = (1 + Z.of_nat (length (chain_rows (ne_community_id e) t)))%Z ∧
  (∀ c, linked c None 1 (chain_rows c t')) ∧
  (∀ c, c ≠ ne_community_id e → chain_rows c t' = chain_rows c t) ∧
  ∃ d, json_equiv d (ne_detail e) ∧
    get_entries (Ok tt) (ne_community_id e) (ae_seq ae) 1 t' =
      Ok [mkEntry (ae_community_id ae) (ae_seq ae) (ae_hash ae) (ae_prev_hash ae) (ae_action ae)
            (ae_actor_pubkey ae) (ae_object_id ae) d (ae_created_at ae)].
Proof.
  intros Hst Hlk Hlen. unfold log, log_inner.
  destruct (f_acquire f); [|done]. destruct (f_lock f); [|done].
  destruct (f_begin f); [|done]. destruct (f_select f); [|done]. intros Happ.
  pose proof (append_entry_cases _ _ _ _ _ _ _ Happ) as [[_ ?]|(ae0 & row0 & Hn & _ & _ & E)]; [done|].
  injection (E eq_refl) as <-.
  destruct (append_chain _ _ _ _ _ _ _ Hst Hlk (Nat.le_refl _) Hlen Happ)
    as [[_ ?]|(ae1 & row & E1 & Hr & Hc & Hd & Hch & Hl)]; [done|]. injection (E1 eq_refl) as <-.
  assert (ae_seq ae = 1 + Z.of_nat (length (chain_rows (ne_community_id e) t)))%Z as Hseq.
  { rewrite (Hch (ne_community_id e)), decide_True in Hl by done. apply linked_app in Hl as [_ [Hs _]]. done. }
  split; [done|]. split; [|split].
  - intros c. destruct (decide (c = ne_community_id e)) as [->|Hne]; [done|]. by rewrite Hch, decide_False.
  - intros c Hne. by rewrite Hch, decide_False.
  - unfold row_of in Hr. destruct (pg_jsonb (ae_detail ae)) as [d|] eqn:Ed; [|done]. injection Hr as <-.
    exists d. rewrite Hd in Ed. split; [by apply Hst|]. unfold get_entries. simpl.
    rewrite Hch, decide_True by done. rewrite List.filter_app. simpl. rewrite Z.leb_refl.
    assert (List.filter (λ x : Z * Row, (ae_seq ae <=? x.1)%Z) (chain_rows (ne_community_id e) t) = []) as ->.
    { apply filter_none. intros x Hx. apply Z.leb_gt. apply (linked_elem _ _ _ _ _ (Hlk _)) in Hx. lia. }
    simpl. change (Pos.to_nat 1) with 1. simpl. rewrite action_roundtrip. simpl. rewrite Hc.
    destruct (next_entry_Ok _ _ _ _ Hn) as (_ & _ & _ & _ & Ht & _). by rewrite Ht, pg_timestamp_exact.
Qed.

Context {UL : UuidBytesLaws _}.

(** C39: Tampering is evident.  Let [t] be a table the service wrote and [t'] any table
    whose row with [t]'s last number has the hash of [t]'s head, as an auditor who
    recorded the head can check.  If the verification of [t'] up to that number
    answers [true], then either a row of [t] and a verified row collide under
    SHA-256 (or a verified row hashes to the genesis value), or the rows verified are as
    many of the last rows of [t], number by number: hashed from the same bytes, and, as far
    as the rows of both tables have the form the service writes ([as_written]), the same in
    every column.  So a changed, reordered, inserted or lifted row is detected, and the only
    rows that can be missing are the oldest ones.  (Without that form bytes can move between
    the object and the detail, see [AuditLogDemo.object_detail_ambiguous].) *)
Theorem tamper_evident c t t' from n rows' :
  linked c None 1 (chain_rows c t) → length (chain_rows c t) = S n → (Z.of_nat (S n) ≤ i64_max)%Z →
  (∀ seq row, t' !! (c, seq) = Some row → is_i64 seq) →
  row_hash <$> t' !! (c, Z.of_nat (S n)) = row_hash <$> t !! (c, Z.of_nat (S n)) →
  rows' = List.filter (in_seq_range from (Z.of_nat (S n))) (chain_rows c t') →
  verify_chain (Ok tt) c from (Z.of_nat (S n)) t' = Ok true → (from ≤ Z.of_nat (S n))%Z →
  sha256_broken c (chain_rows c t) rows' ∨
  (length rows' ≤ S n ∧
   Forall2 (λ x x', same_record c x x' ∧ (as_written c x → as_written c x' → same_fields x x'))
     (drop (S n - length rows') (chain_rows c t)) rows').
Proof.
  intros Hl Hlen Hmax Hi64 Hhead -> Hv Hfrom.
  destruct (linked_neighbours _ _ _ _ Hl) as [Hnb Hfirst].
  set (rows' := List.filter _ _). unfold verify_chain in Hv. simpl in Hv. fold rows' in Hv.
  destruct (lookup_lt_is_Some_2 (chain_rows c t) n) as [[seq row] Hx]; [lia|].
  pose proof (linked_lookup _ _ _ _ _ _ Hl Hx) as Hs. simpl in Hs.
  pose proof (list_elem_of_lookup_2 _ _ _ Hx) as Ht. apply elem_of_chain_rows in Ht.
  replace seq with (Z.of_nat (S n)) in * by lia. rewrite Ht in Hhead.
  destruct (t' !! (c, Z.of_nat (S n))) as [row'|] eqn:Ht'; [|done]. injection Hhead as Hhash.
  destruct (range_last c t' from (Z.of_nat (S n)) row' Hfrom Ht') as (m & Hm & Hlast). fold rows' in Hm, Hlast.
  assert (verify_rows c None rows' = Ok true) as [Hnb' _]%verify_neighbours.
  { destruct rows'; [done|exact Hv]. }
  destruct (chains_agree c (chain_rows c t) rows' n m) as [?|[Hmn Hall]]; try done; [| | |by left|].
  - intros x Hx'. apply (linked_elem _ _ _ _ _ Hl) in Hx'. unfold is_i64. lia.
  - intros [sq r] Hr. unfold rows' in Hr. rewrite list_elem_of_In, filter_In, <-list_elem_of_In in Hr.
    destruct Hr as [Hr%elem_of_chain_rows _]. by eapply Hi64.
  - intros x x' Hx1 Hx1'. rewrite Hx in Hx1. rewrite Hlast in Hx1'. by simplify_eq/=.
  - right. rewrite Hm. split; [lia|]. apply Forall2_same_length_lookup. split.
    + rewrite length_drop. lia.
    + intros i x x'. rewrite lookup_drop. intros Hi Hi'. pose proof (lookup_lt_Some _ _ _ Hi').
      assert (same_record c x x'); [|split; [done|intros; by eapply same_record_fields]]. apply (Hall (m - i)); [lia| |].
      * replace (n - (m - i)) with (S n - S m + i) by lia. done.
      * replace (m - (m - i)) with i by lia. done.
Qed.

End properties.

(** ** Runs *)

Module AuditLogDemo.

Definition quoted (s : string) : string := String (ascii_of_N 34) (s +:+ String (ascii_of_N 34) "").

#[global] Instance demo_serde : SerdeJson N := {|
  serde_scalar := λ v,
    match v with
    | JNull => Ok "null"
    | JBool b => Ok (if b then "true" else "false")
    | JNumber n => Ok (num_to_string n)
    | JString s => Ok (quoted s)
    | _ => Err "not a scalar"
    end;
  serde_key := λ k, Ok (quoted k)
|}.

Definition demo_time (t : Z) : string :=
  if (t <? 0)%Z then "-" +:+ demo_N_string (Z.to_N (- t)) else demo_N_string (Z.to_N t).

(** A toy digest: the bytes as a number modulo a prime. *)
Definition toy_sha256 (b : bytes) : bytes := le_bytes 32 (le_value b `mod` (2 ^ 255 - 19)).

#[global] Instance demo_audit : AuditApi N := {|
  sha256 := toy_sha256;
  to_rfc3339 := demo_time;
  pg_timestamp := to_storage_precision;
  pg_jsonb := Ok;
  hashtextextended := λ s, Z.of_nat (String.length s)
|}.

Lemma demo_time_inj t u : demo_time t = demo_time u → t = u.
Proof.
  assert (∀ n u, "-" +:+ u ≠ demo_N_string n) as Hm.
  { intros n v E. pose proof (f_equal (str_contains "-") E) as E'.
    rewrite str_contains_app in E'. destruct n as [|p]; [done|]. simpl in E'.
    by rewrite demo_pos_string_bits in E'. }
  assert (∀ n n', demo_N_string n = demo_N_string n' → n = n') as Hi.
  { intros n n' E. by apply (uuid_to_string_inj (api:=demo_api)). }
  unfold demo_time. destruct (Z.ltb_spec t 0), (Z.ltb_spec u 0); intros E.
  - injection E as E. apply Hi in E. lia.
  - by apply Hm in E.
  - symmetry in E. by apply Hm in E.
  - apply Hi in E. lia.
Qed.

#[global] Instance demo_audit_laws : AuditLaws demo_audit.
Proof.
  split.
  - intros b. apply le_bytes_length.
  - intros t. apply storage_precision_idem.
  - apply demo_time_inj.
  - assert (∀ p, str_all (λ c, negb ((97 <=? ascii_code c) && (ascii_code c <=? 122)))%N (demo_pos_string p) = true) as Hp.
    { induction p as [p IH|p IH|]; simpl; [by rewrite str_all_app, IH..|done]. }
    intros t. unfold to_rfc3339, demo_audit, demo_time.
    destruct (t <? 0)%Z; [rewrite append_cons; simpl|]; destruct (Z.to_N _); simpl; try done; apply Hp.
Qed.

Definition entry1 : NewAuditEntry N :=
  mkNew 1 EventCreated (Some (repeat xab 32)) (Some "abc123") (JObject [("b", JNumber 2%N); ("a", JBool true)]).
Definition entry2 : NewAuditEntry N := mkNew 1 MemberAdded None None (JObject []).

(** Keys are sorted. *)
Example demo_canonical :
  canonical_json (ne_detail entry1) =
    Ok ("{" +:+ quoted "a" +:+ ":true," +:+ quoted "b" +:+ ":2}").
Proof. reflexivity. Qed.

Definition no_faults : Faults := mkFaults (Ok tt) (Ok tt) (Ok tt) (Ok tt) (Ok tt) Delivered.

Definition table1 : gmap (N * Z) (Row (num:=N)) := (log no_faults 5000123 entry1 ∅).2.
Definition table2 : gmap (N * Z) (Row (num:=N)) := (log no_faults 7000456 entry2 table1).2.

Example demo_verifies : verify_chain (Ok tt) 1 1 2 table2 = Ok true.
Proof. vm_compute. reflexivity. Qed.

(** The oldest rows can be dropped. *)
Example truncation_verifies : verify_chain (Ok tt) 1 1 2 (delete (1%N, 1%Z) table2) = Ok true.
Proof. vm_compute. reflexivity. Qed.

Example edit_detected :
  let edit r := mkRow (row_hash r) (row_prev_hash r) "member_removed" (row_actor_pubkey r)
                  (row_object_id r) (row_detail r) (row_created_at r) in
  verify_chain (Ok tt) 1 1 2 (alter edit (1%N, 1%Z) table2) = Err (HashMismatch 1).
Proof. vm_compute. reflexivity. Qed.

(** Object id and detail are hashed without a separator: for other shapes of the
    detail, bytes can move from one to the other. *)
Definition moved (object : string) (n : N) : AuditEntry N :=
  mkEntry 1 1 [] None EventCreated None (Some object) (JNumber n) 0.

Example object_detail_ambiguous :
  compute_hash (moved "x" 12) = compute_hash (moved "x1" 2) ∧
  preimage (moved "x" 12) "12" = preimage (moved "x1" 2) "2".
Proof. split; reflexivity. Qed.

(** A lost commit reply: the caller sees an error, the row is there. *)
Example commit_unknown :
  let '(res, t) := log (mkFaults (Ok tt) (Ok tt) (Ok tt) (Ok tt) (Ok tt) (Failed "connection reset" true))
                     5000123 entry1 ∅ in
  res = Err (Database "connection reset") ∧ length (chain_rows 1 t) = 1.
Proof. vm_compute. split; reflexivity. Qed.

Lemma entry1_storable : storable entry1.
Proof.
  intros d [= <-]. apply (je_object _ [("b", JNumber 2%N); ("a", JBool true)]); [reflexivity| |reflexivity|].
  - repeat constructor; discriminate.
  - apply (bool_decide_unpack _). vm_compute. exact I.
Qed.

(** One session appends while another waits for the lock. *)
Definition run0 : AuditSys (num:=N) := set_proc 2 (Waiting entry1) (set_proc 1 (Waiting entry1) sys_init).
Definition run1 : AuditSys (num:=N) := set_proc 1 (Locked entry1) (set_locks (<[lock_key 1 := 1%N]> ∅) run0).
Definition run2 : AuditSys (num:=N) := set_proc 1 (HeadRead entry1 (read_head 1 (sys_table run1))) run1.
Definition appended : result AuditError (AuditEntry N) * gmap (N * Z) (Row (num:=N)) :=
  append_entry no_faults 5000123 entry1 (read_head 1 (sys_table run1)) (sys_table run2).
Definition run3 : AuditSys (num:=N) :=
  mkSys appended.2 (sys_locks run2) (<[1%N := Done 1 appended.1]> (sys_procs run2)).

Lemma demo_prefix : nsteps sys_step 4 sys_init run2.
Proof.
  apply (nsteps_l _ _ _ (set_proc 1 (Waiting entry1) sys_init)); [apply step_start; [reflexivity|exact entry1_storable]|].
  apply (nsteps_l _ _ _ run0); [apply step_start; [vm_compute; reflexivity|exact entry1_storable]|].
  apply (nsteps_l _ _ _ run1); [apply step_lock; [vm_compute; reflexivity|left; vm_compute; reflexivity]|].
  apply (nsteps_l _ _ _ run2); [apply step_read; vm_compute; reflexivity|apply nsteps_O].
Qed.

Lemma demo_append : nsteps sys_step 1 run2 run3.
Proof.
  apply (nsteps_l _ _ _ run3); [|apply nsteps_O].
  apply (step_append run2 1 entry1 (read_head 1 (sys_table run1)) no_faults 5000123 appended.1 appended.2).
  - vm_compute. reflexivity.
  - apply surjective_pairing.
Qed.

Lemma demo_sys_run : nsteps sys_step 5 sys_init run3.
Proof. apply (nsteps_trans 4 1 _ run2); [exact demo_prefix|exact demo_append]. Qed.

Lemma audit_chain_integrity_witness :
  verify_chain (Ok tt) 1 0 9 (sys_table run3) =
    Ok (bool_decide (Z.max 0 1 ≤ Z.min 9 (Z.of_nat (length (chain_rows 1 (sys_table run3)))))%Z).
Proof. apply (audit_chain_integrity 5 run3 1 0 9 demo_sys_run). vm_compute. discriminate. Defined.

Lemma audit_append_only_witness :
  chain_rows 1 (sys_table run2) `prefix_of` chain_rows 1 (sys_table run3).
Proof. apply (audit_append_only 4 1 run2 run3 1 demo_prefix demo_append). vm_compute. discriminate. Defined.

Definition logged : AuditEntry N :=
  match (log no_faults 5000123 entry1 ∅).1 with Ok a => a | Err _ => moved "" 0 end.

Lemma empty_linked (c : N) : linked c None 1 (chain_rows c (∅ : gmap (N * Z) (Row (num:=N)))).
Proof. exact I. Qed.

Lemma log_reads_back_witness : ae_seq logged = 1%Z.
Proof.
  apply (log_reads_back no_faults 5000123 entry1 ∅ logged table1 entry1_storable empty_linked).
  - vm_compute. discriminate.
  - rewrite (surjective_pairing (log no_faults 5000123 entry1 ∅)). apply (f_equal2 pair); [vm_compute; reflexivity|reflexivity].
Defined.

Lemma table1_linked : linked 1 None 1 (chain_rows 1 table1).
Proof.
  assert (chain_rows 1 table1 = [(1%Z, mkRow (ae_hash logged) None "event_created" (Some (repeat xab 32))
            (Some "abc123") (ne_detail entry1) 5000000)]) as -> by (vm_compute; reflexivity).
  split; [reflexivity|]. split; [reflexivity|]. split; [|exact I].
  eexists. split; [reflexivity|]. vm_compute. reflexivity.
Qed.

(** The row the service wrote has the form. *)
Example table1_as_written : Forall (as_written 1) (chain_rows 1 table1).
Proof.
  assert (chain_rows 1 table1 = [(1%Z, mkRow (ae_hash logged) None "event_created" (Some (repeat xab 32))
            (Some "abc123") (ne_detail entry1) 5000000)]) as -> by (vm_compute; reflexivity).
  constructor; [|constructor]. split; simpl; try done; [by intros k [= <-]|by intros o [= <-]|by eexists].
Qed.

Lemma tamper_evident_witness :
  let rows := List.filter (in_seq_range 1 1) (chain_rows 1 table1) in
  sha256_broken 1 (chain_rows 1 table1) rows ∨
  (length rows ≤ 1 ∧
   Forall2 (λ x x', same_record 1 x x' ∧ (as_written 1 x → as_written 1 x' → same_fields x x'))
     (drop (1 - length rows) (chain_rows 1 table1)) rows).
Proof.
  apply (tamper_evident 1 table1 table1 1 0 (List.filter (in_seq_range 1 1) (chain_rows 1 table1)) table1_linked).
  - vm_compute. reflexivity.
  - vm_compute. discriminate.
  - intros seq row Hrow. apply elem_of_chain_rows in Hrow. apply (linked_elem _ _ _ _ _ table1_linked) in Hrow.
    assert (length (chain_rows 1 table1) = 1) as Hlen by (vm_compute; reflexivity).
    unfold is_i64, i64_max. simpl in Hrow. lia.
  - reflexivity.
  - reflexivity.
  - vm_compute. reflexivity.
  - discriminate.
Defined.

Lemma preimage_determines_entry_witness : to_storage_precision 5000123 = to_storage_precision 5000999.
Proof.
  set (e t := mkEntry 1 1 [] None EventCreated None (Some "x") (JObject [] : Json N) t).
  assert (∀ t, well_formed (e t) "{}") as Hw.
  { intros t. split; [done|split; [discriminate|discriminate]|done|by intros o [= <-]|done|done]. }
  apply (preimage_determines_entry (e 5000123%Z) (e 5000999%Z) "{}" "{}"); [apply Hw|apply Hw|reflexivity].
Defined.

End AuditLogDemo.
