(* ===== verification/GitManifest.v ===== *)
(** * Git manifests ([buzz-relay/src/api/git/manifest.rs])

    The published state of a repository: its refs, its HEAD, the packs that cover
    them and the digest of the manifest it supersedes.  A manifest is stored as
    canonical JSON under the hash of its bytes, so serialisation must not depend
    on how the manifest was built, and everything a reader will insist on must be
    checked before it is written ([validate]).  [serde_json] is a parameter.  The
    [BTreeMap] of refs is a finite map, enumerated in key order. *)

From stdpp Require Import base gmap strings list sorting.
From Stdlib Require Import Ascii.
From S2P Require Import Prelude Nostr.

Definition MANIFEST_VERSION : N := 1.
Definition MAX_MANIFEST_PACKS : nat := 128.
Definition PACK_COMPACTION_THRESHOLD : nat := MAX_MANIFEST_PACKS * 3 / 4.
Definition MAX_MANIFEST_REFS : N := 10000.

Record Manifest := mkManifest {
  m_version : N;
  m_head : string;
  m_refs : gmap string string;
  m_packs : list string;
  m_parent : option string
}.

Inductive ManifestError :=
| Serde (e : string)
| UnsupportedVersion (got expected : N)
| UnsafeRefName (name : string)
| MalformedOid (refname oid : string)
| EmptyHead
| MalformedParent (parent : string)
| TooManyPacks (got max : nat)
| TooManyRefs (got max : N)
| MalformedPackKey (key : string).

(** ** Predicates *)

Definition is_refname_char (c : ascii) : bool :=
  is_ascii_alphanumeric c || bool_decide (c = "/"%char) || bool_decide (c = "_"%char)
    || bool_decide (c = "."%char) || bool_decide (c = "-"%char).

Definition is_safe_refname (s : string) : bool :=
  if negb (starts_with "refs/" s) then false
  else if contains_str ".." s || contains_str "//" s || starts_with "/" s || ends_with "/" s then false
  else str_all is_refname_char s.

Definition is_hex_oid (s : string) : bool :=
  (bool_decide (String.length s = 40) || bool_decide (String.length s = 64))
    && str_all is_ascii_hexdigit s.

Definition is_lower_hex (c : ascii) : bool :=
  is_ascii_digit c || ((97 <=? ascii_code c) && (ascii_code c <=? 102))%N.

Definition is_manifest_digest (s : string) : bool :=
  bool_decide (String.length s = 64) && str_all is_lower_hex s.

Definition is_pack_key (s : string) : bool :=
  match strip_prefix "packs/" s with Some d => is_manifest_digest d | None => false end.

Section pointer.
Context `{NostrApi}.

Definition pointer_key (community : CommunityId) (owner repo : string) : string :=
  let repo := default repo (strip_suffix ".git" repo) in
  "repos/" +:+ uuid_to_string community +:+ "/" +:+ owner +:+ "/" +:+ repo +:+ "/pointer".

End pointer.

(** ** [validate] *)

Definition key_le {A} (a b : string * A) : bool := str_leb a.1 b.1.

(** [BTreeMap::iter]. *)
Definition ref_list (refs : gmap string string) : list (string * string) := sort_by key_le (map_to_list refs).

Fixpoint validate_refs (refs : list (string * string)) : result ManifestError unit :=
  match refs with
  | [] => Ok tt
  | (refname, oid) :: refs =>
      if negb (is_safe_refname refname) then Err (UnsafeRefName refname)
      else if negb (is_hex_oid oid) then Err (MalformedOid refname oid)
      else validate_refs refs
  end.

Fixpoint validate_packs (packs : list string) : result ManifestError unit :=
  match packs with
  | [] => Ok tt
  | pack :: packs => if negb (is_pack_key pack) then Err (MalformedPackKey pack) else validate_packs packs
  end.

Definition validate_parent (parent : option string) : result ManifestError unit :=
  match parent with
  | Some p => if negb (is_manifest_digest p) then Err (MalformedParent p) else Ok tt
  | None => Ok tt
  end.

Definition validate (m : Manifest) : result ManifestError unit :=
  if (MAX_MANIFEST_PACKS <? length (m_packs m))%nat
  then Err (TooManyPacks (length (m_packs m)) MAX_MANIFEST_PACKS)
  else if (MAX_MANIFEST_REFS <? N.of_nat (size (m_refs m)))%N
  then Err (TooManyRefs (N.of_nat (size (m_refs m))) MAX_MANIFEST_REFS)
  else if decide (m_head m = "") then Err EmptyHead
  else if negb (is_safe_refname (m_head m)) then Err (UnsafeRefName (m_head m))
  else
    let? _ := validate_refs (ref_list (m_refs m)) in
    let? _ := validate_packs (m_packs m) in
    validate_parent (m_parent m).

(** ** Canonical bytes *)

Class ManifestJson := {
  manifest_to_json : Manifest → result string bytes;
  manifest_from_json : bytes → result string Manifest
}.

(** [serde_json] reads back what it wrote, and what it writes determines the
    manifest. *)
Class ManifestJsonLaws (api : ManifestJson) := {
  manifest_json_roundtrip : ∀ m b, manifest_to_json m = Ok b → manifest_from_json b = Ok m
}.

(** [Vec::dedup]: consecutive duplicates. *)
Fixpoint dedup (l : list string) : list string :=
  match l with
  | [] => []
  | x :: l' =>
      match dedup l' with
      | (y :: _) as r => if decide (x = y) then r else x :: r
      | [] => [x]
      end
  end.

Definition sort_dedup (l : list string) : list string := dedup (sort_by str_leb l).

Section json.
Context `{ManifestJson}.

Definition canonical (m : Manifest) : Manifest :=
  mkManifest (m_version m) (m_head m) (m_refs m) (sort_dedup (m_packs m)) (m_parent m).

Definition canonical_bytes (m : Manifest) : result ManifestError bytes :=
  map_err Serde (manifest_to_json (canonical m)).

Definition from_bytes (b : bytes) : result ManifestError Manifest :=
  let? m := map_err Serde (manifest_from_json b) in
  if decide (m_version m ≠ MANIFEST_VERSION) then Err (UnsupportedVersion (m_version m) MANIFEST_VERSION)
  else Ok m.

End json.

(** ** Lemmas *)

(** What [validate] demands. *)
Record valid_manifest (m : Manifest) : Prop := {
  vm_packs : length (m_packs m) ≤ MAX_MANIFEST_PACKS;
  vm_refs : (N.of_nat (size (m_refs m)) ≤ MAX_MANIFEST_REFS)%N;
  vm_head : is_safe_refname (m_head m) = true;
  vm_ref : ∀ name oid, m_refs m !! name = Some oid → is_safe_refname name = true ∧ is_hex_oid oid = true;
  vm_pack : ∀ k, k ∈ m_packs m → is_pack_key k = true;
  vm_parent : ∀ p, m_parent m = Some p → is_manifest_digest p = true
}.

Lemma elem_of_ref_list refs name oid : (name, oid) ∈ ref_list refs ↔ refs !! name = Some oid.
Proof. unfold ref_list. by rewrite sort_by_perm, elem_of_map_to_list. Qed.

Lemma validate_refs_Ok l :
  validate_refs l = Ok tt ↔ ∀ name oid, (name, oid) ∈ l → is_safe_refname name = true ∧ is_hex_oid oid = true.
Proof.
  induction l as [|[name oid] l IH]; simpl; [split; [|done]; intros _ ? ? ?%not_elem_of_nil; done|].
  setoid_rewrite elem_of_cons. destruct (is_safe_refname name) eqn:En; simpl; [|naive_solver congruence].
  destruct (is_hex_oid oid) eqn:Eo; simpl; [|naive_solver congruence]. rewrite IH. naive_solver.
Qed.

Lemma validate_packs_Ok l : validate_packs l = Ok tt ↔ ∀ k, k ∈ l → is_pack_key k = true.
Proof.
  induction l as [|k l IH]; simpl; [split; [|done]; intros _ ? ?%not_elem_of_nil; done|].
  setoid_rewrite elem_of_cons. destruct (is_pack_key k) eqn:Ek; simpl; [|naive_solver congruence].
  rewrite IH. naive_solver.
Qed.

Lemma safe_refname_nonempty s : is_safe_refname s = true → s ≠ "".
Proof. by intros E ->. Qed.

Lemma validate_iff m : validate m = Ok tt ↔ valid_manifest m.
Proof.
  unfold validate. split.
  - destruct (Nat.ltb_spec MAX_MANIFEST_PACKS (length (m_packs m))); [done|].
    destruct (N.ltb_spec MAX_MANIFEST_REFS (N.of_nat (size (m_refs m)))); [done|].
    destruct (decide (m_head m = "")); [done|]. destruct (is_safe_refname (m_head m)) eqn:Eh; [|done]. simpl.
    destruct (validate_refs _) as [[]|] eqn:Er; [|done]. destruct (validate_packs _) as [[]|] eqn:Ep; [|done].
    unfold validate_parent. intros Hp. split; try done.
    + intros name oid Hn. apply validate_refs_Ok with (ref_list (m_refs m)); [done|]. by apply elem_of_ref_list.
    + by apply validate_packs_Ok.
    + intros p Epar. rewrite Epar in Hp. by destruct (is_manifest_digest p).
  - intros [Hp Hr Hh Href Hpack Hpar].
    destruct (Nat.ltb_spec MAX_MANIFEST_PACKS (length (m_packs m))); [lia|].
    destruct (N.ltb_spec MAX_MANIFEST_REFS (N.of_nat (size (m_refs m)))); [lia|].
    rewrite decide_False by (by apply safe_refname_nonempty). rewrite Hh. simpl.
    assert (validate_refs (ref_list (m_refs m)) = Ok tt) as ->.
    { apply validate_refs_Ok. intros name oid Hn. apply Href. by apply elem_of_ref_list. }
    assert (validate_packs (m_packs m) = Ok tt) as -> by (by apply validate_packs_Ok).
    unfold validate_parent. destruct (m_parent m) as [p|]; [|done]. by rewrite (Hpar p).
Qed.

(** ** Sorted packs without duplicates *)

Lemma elem_of_dedup x l : x ∈ dedup l ↔ x ∈ l.
Proof.
  induction l as [|a l IH]; [done|]. simpl. rewrite elem_of_cons, <-IH.
  destruct (dedup l) as [|y r]; [by rewrite elem_of_cons|].
  destruct (decide (a = y)) as [->|]; rewrite !elem_of_cons; tauto.
Qed.

Lemma dedup_strict l :
  StronglySorted (λ a b, str_leb a b = true) l → StronglySorted (λ a b, str_leb a b = true ∧ a ≠ b) (dedup l).
Proof.
  induction 1 as [|x l Hs IH Hx]; simpl; [constructor|].
  destruct (dedup l) as [|y r] eqn:E; [repeat constructor|].
  destruct (decide (x = y)) as [->|Hne]; [done|]. constructor; [done|].
  assert (∀ z, z ∈ y :: r → str_leb x z = true) as Hle.
  { intros z Hz. rewrite <-E, elem_of_dedup in Hz. rewrite Forall_forall in Hx. by apply Hx. }
  apply Forall_forall. intros z Hz. split; [by apply Hle|]. intros ->.
  apply elem_of_cons in Hz as [?|Hz]; [congruence|]. inversion_clear IH as [|? ? _ Hy].
  rewrite Forall_forall in Hy. destruct (Hy _ Hz) as [Hyz Hn]. apply Hn, str_leb_antisym; [done|].
  apply Hle. left.
Qed.

Lemma sort_dedup_strict l : StronglySorted (λ a b, str_leb a b = true ∧ a ≠ b) (sort_dedup l).
Proof. apply dedup_strict, sort_by_sorted; [apply str_leb_total|apply str_leb_trans]. Qed.

Lemma elem_of_sort_dedup x l : x ∈ sort_dedup l ↔ x ∈ l.
Proof. unfold sort_dedup. by rewrite elem_of_dedup, sort_by_perm. Qed.

Lemma strict_sorted_unique (l l' : list string) :
  StronglySorted (λ a b, str_leb a b = true ∧ a ≠ b) l →
  StronglySorted (λ a b, str_leb a b = true ∧ a ≠ b) l' → (∀ x, x ∈ l ↔ x ∈ l') → l = l'.
Proof.
  intros Hl Hl' Hel. assert (∀ k : list string, StronglySorted (λ a b, str_leb a b = true ∧ a ≠ b) k → NoDup k) as Hnd.
  { clear. induction 1 as [|x k _ IH Hx]; constructor; [|done]. intros Hin.
    rewrite Forall_forall in Hx. by destruct (Hx x Hin). }
  apply (sorted_perm_unique _ _ _ Hl Hl'); [apply NoDup_Permutation; auto|].
  intros a b _ _ [Hab Hne] [Hba _]. destruct Hne. by apply str_leb_antisym.
Qed.

Lemma sort_dedup_ext l l' : (∀ x, x ∈ l ↔ x ∈ l') → sort_dedup l = sort_dedup l'.
Proof.
  intros Hel. apply strict_sorted_unique; [apply sort_dedup_strict..|].
  intros x. by rewrite !elem_of_sort_dedup.
Qed.

Lemma sort_dedup_idem l : sort_dedup (sort_dedup l) = sort_dedup l.
Proof. apply sort_dedup_ext. intros x. apply elem_of_sort_dedup. Qed.

Lemma dedup_length l : length (dedup l) ≤ length l.
Proof.
  induction l as [|x l IH]; simpl; [lia|]. destruct (dedup l) as [|y r]; simpl in *; [lia|].
  destruct (decide (x = y)); simpl; lia.
Qed.

Lemma sort_dedup_length l : length (sort_dedup l) ≤ length l.
Proof.
  unfold sort_dedup. etrans; [apply dedup_length|]. by rewrite (Permutation_length (sort_by_perm _ _)).
Qed.

Lemma canonical_idem m : canonical (canonical m) = canonical m.
Proof. unfold canonical. simpl. by rewrite sort_dedup_idem. Qed.

Lemma canonical_valid m : valid_manifest m → valid_manifest (canonical m).
Proof.
  intros [Hp Hr Hh Href Hpack Hpar]. split; simpl; try done.
  - pose proof (sort_dedup_length (m_packs m)). lia.
  - intros k. rewrite elem_of_sort_dedup. apply Hpack.
Qed.

Section json_lemmas.
Context `{ManifestJson} {JL : ManifestJsonLaws _}.

(** Reading canonical bytes gives the canonical manifest back. *)
Lemma canonical_roundtrip m b :
  canonical_bytes m = Ok b → m_version m = MANIFEST_VERSION → from_bytes b = Ok (canonical m).
Proof.
  unfold canonical_bytes, from_bytes. intros Hb Hv. apply map_err_Ok in Hb.
  rewrite (manifest_json_roundtrip _ _ Hb). simpl. by rewrite decide_False by auto.
Qed.

End json_lemmas.
