(* ===== verification/GitStore.v ===== *)
(** * The git object store ([buzz-relay/src/api/git/store.rs])

    Packs and manifests are written create-only under the hash of their bytes; the
    pointer of a repository is a mutable object replaced by a conditional PUT.  An
    operation of the store is a tree of requests to the bucket ([io]), so that
    programs built from them can be interleaved request by request.

    The S3 service and [rust-s3] are the interface [S3Api]; [S3Laws] states the
    documented behaviour of conditional requests.  A request may fail before or
    after it took effect ([s3_wire] is whatever the network does).  Content types
    are not modelled.  The second half of the file is the reasoning principle the
    clients use: an invariant of the bucket and, for each program, a
    postcondition stable under whatever concurrent programs do ([safe]). *)

From stdpp Require Import base gmap strings list sorting.
From Stdlib Require Import Ascii.
From S2P Require Import Prelude Programs Nostr GitManifest.

(** ** Requests *)

Inductive S3Error :=
| HttpFailWithBody (code : N) (body : string)
| S3Transport (e : string).

Record ResponseData := mkResponse {
  status_code : N;
  headers : gmap string string;
  to_vec : bytes
}.

Abbreviation ETag := string (only parsing).

Inductive Precond :=
| IfNoneMatchStar
| IfMatch (etag : ETag).

Inductive s3_call :=
| GetObject (key : string)
| HeadObject (key : string)
| PutObject (key : string) (body : bytes) (precond : Precond).

(** The answer to a request; a HEAD answers with the content length and status. *)
Definition s3_reply (c : s3_call) : Type :=
  match c with
  | HeadObject _ => result S3Error (option Z * N)
  | _ => result S3Error ResponseData
  end.

Class S3Api := {
  bucket : Type;
  s3_wire : Type;
  (* every body ever stored under a key with its entity tag, oldest first *)
  s3_versions : bucket → string → list (ETag * bytes);
  s3_exec : s3_wire → bucket → ∀ c : s3_call, s3_reply c * bucket;
  (* [HeaderValue::from_str] accepts the string *)
  header_value_ok : string → bool
}.

(** [hex::encode(Sha256::digest(bytes))]. *)
Class Sha256Hex := sha256_hex : bytes → string.
Class Sha256HexLaws (api : Sha256Hex) := sha256_hex_ok : ∀ b, is_manifest_digest (sha256_hex b) = true.

(** ** Programs *)

Abbreviation io := (prog s3_call s3_reply).

Definition request (c : s3_call) : io (s3_reply c) := Act c Ret.

(** ** The store *)

Inductive CasOutcome := Won (etag : ETag) | LostRace.

Inductive StoreError :=
| NotFound (key : string)
| ObjectTooLarge (key : string) (size max : N)
| DigestMismatch (key expected actual : string)
| Backend (e : S3Error).

Definition is_success (code : N) : bool := ((200 <=? code) && (code <? 300))%N.

Definition is_status (code : N) (e : S3Error) : bool :=
  match e with HttpFailWithBody c _ => (c =? code)%N | S3Transport _ => false end.

Definition unexpected_status (code : N) : StoreError := Backend (HttpFailWithBody code "unexpected status").

(** [len() == 64] and hex digits of either case. *)
Definition is_hex64 (s : string) : bool :=
  bool_decide (String.length s = 64) && str_all is_ascii_hexdigit s.

Definition header_etag (resp : ResponseData) : option ETag :=
  match headers resp !! "etag" with Some t => Some t | None => headers resp !! "ETag" end.

Definition idx_key_for_pack_digest (pack_digest : string) : result StoreError string :=
  if negb (is_hex64 pack_digest)
  then Err (Backend (HttpFailWithBody 400 ("invalid pack digest for idx sidecar: " +:+ pack_digest)))
  else Ok ("idx/" +:+ pack_digest).

Section store.
Context `{Sha256Hex}.

Definition content_key (prefix : string) (body : bytes) : string := prefix +:+ "/" +:+ sha256_hex body.

(** A create-only PUT: an existing object counts as success. *)
Definition create_only (key : string) (r : result S3Error ResponseData) : result StoreError string :=
  match r with
  | Ok resp => if is_success (status_code resp) then Ok key else Err (unexpected_status (status_code resp))
  | Err e => if is_status 412 e then Ok key else Err (Backend e)
  end.

Definition put_immutable (prefix : string) (body : bytes) : io (result StoreError string) :=
  let key := content_key prefix body in
  r ← request (PutObject key body IfNoneMatchStar);
  Ret (create_only key r).

Definition put_pack (body : bytes) : io (result StoreError string) := put_immutable "packs" body.

Definition put_manifest (body : bytes) : io (result StoreError string) := put_immutable "manifests" body.

Definition put_idx (pack_digest : string) (idx_bytes : bytes) : io (result StoreError string) :=
  match idx_key_for_pack_digest pack_digest with
  | Err e => Ret (Err e)
  | Ok key =>
      r ← request (PutObject key idx_bytes IfNoneMatchStar);
      Ret (create_only key r)
  end.

Definition get (key : string) : io (result StoreError bytes) :=
  r ← request (GetObject key);
  Ret (match r with
       | Ok resp => Ok (to_vec resp)
       | Err e => if is_status 404 e then Err (NotFound key) else Err (Backend e)
       end).

Definition verify_digest (key expected_digest : string) (body : bytes) : result StoreError bytes :=
  if decide (sha256_hex body ≠ expected_digest)
  then Err (DigestMismatch key expected_digest (sha256_hex body))
  else Ok body.

Definition get_verified (key expected_digest : string) : io (result StoreError bytes) :=
  let! body := get key in
  Ret (verify_digest key expected_digest body).

(** [u64::try_from] of the signed content length, saturating. *)
Definition content_size (content_length : Z) : N :=
  if (content_length <? 0)%Z then u64_max else Z.to_N content_length.

Definition head_error (key : string) (e : S3Error) : StoreError :=
  if is_status 404 e then NotFound key else Backend e.

Definition get_limited (key : string) (max_bytes : N) : io (result StoreError bytes) :=
  r ← request (HeadObject key);
  match map_err (head_error key) r with
  | Err e => Ret (Err e)
  | Ok (content_length, status) =>
      if (status =? 404)%N then Ret (Err (NotFound key))
      else if negb (is_success status) then Ret (Err (unexpected_status status))
      else
        let too_large :=
          match content_length with
          | Some n => if (max_bytes <? content_size n)%N then Some (content_size n) else None
          | None => None
          end in
        match too_large with
        | Some size => Ret (Err (ObjectTooLarge key size max_bytes))
        | None =>
            let! body := get key in
            let size := N.of_nat (length body) in
            if (max_bytes <? size)%N then Ret (Err (ObjectTooLarge key size max_bytes))
            else Ret (Ok body)
        end
  end.

Definition get_verified_limited (key expected_digest : string) (max_bytes : N) : io (result StoreError bytes) :=
  let! body := get_limited key max_bytes in
  Ret (verify_digest key expected_digest body).

Definition get_idx (pack_digest : string) (max_bytes : N) : io (result StoreError (option bytes)) :=
  match idx_key_for_pack_digest pack_digest with
  | Err e => Ret (Err e)
  | Ok key =>
      r ← get_limited key max_bytes;
      Ret (match r with
           | Ok body => Ok (Some body)
           | Err (NotFound _) => Ok None
           | Err e => Err e
           end)
  end.

(** The entity tag and the body of one GET. *)
Definition get_pointer (key : string) : io (result StoreError (option (ETag * bytes))) :=
  r ← request (GetObject key);
  Ret (match r with
       | Ok resp =>
           match header_etag resp with
           | Some etag => Ok (Some (etag, to_vec resp))
           | None => Err (Backend (HttpFailWithBody 500 "GET pointer: response missing ETag"))
           end
       | Err e => if is_status 404 e then Ok None else Err (Backend e)
       end).

Definition classify_cas (r : result S3Error ResponseData) : result StoreError CasOutcome :=
  match r with
  | Ok resp =>
      if is_success (status_code resp) then
        match header_etag resp with
        | Some etag => Ok (Won etag)
        | None => Err (Backend (HttpFailWithBody (status_code resp)
                         ("CAS succeeded but response missing ETag header " +:+
                          "(backend does not satisfy ETag-token consistency)")))
        end
      else Err (unexpected_status (status_code resp))
  | Err e => if is_status 412 e then Ok LostRace else Err (Backend e)
  end.

Definition put_pointer `{S3Api} (key : string) (body : bytes) (precond : Precond) :
    io (result StoreError CasOutcome) :=
  let header_ok := match precond with IfNoneMatchStar => true | IfMatch tag => header_value_ok tag end in
  if negb header_ok then
    Ret (Err (Backend (HttpFailWithBody 400
           ("invalid etag " +:+ match precond with IfMatch tag => tag | IfNoneMatchStar => "" end))))
  else
    r ← request (PutObject key body precond);
    Ret (classify_cas r).

End store.

(** ** What the service promises *)

Definition s3_current `{S3Api} (b : bucket) (key : string) : option (ETag * bytes) := last (s3_versions b key).

Definition precond_holds `{S3Api} (b : bucket) (key : string) (p : Precond) : Prop :=
  match p with
  | IfNoneMatchStar => s3_current b key = None
  | IfMatch tag => fst <$> s3_current b key = Some tag
  end.

(** The PUT took effect: one more version of its key, nothing else changed. *)
Definition stored `{S3Api} (b b' : bucket) (key : string) (body : bytes) (tag : ETag) : Prop :=
  ∀ key', s3_versions b' key' = s3_versions b key' ++ if decide (key' = key) then [(tag, body)] else [].

Definition unchanged `{S3Api} (b b' : bucket) : Prop := ∀ key, s3_versions b' key = s3_versions b key.

Class S3Laws (api : S3Api) := {
  s3_get_effect : ∀ w b key, unchanged b (s3_exec w b (GetObject key)).2;
  s3_head_effect : ∀ w b key, unchanged b (s3_exec w b (HeadObject key)).2;
  (* failed requests are errors: an [Ok] answer carries the object *)
  s3_get_ok : ∀ w b key resp, (s3_exec w b (GetObject key)).1 = Ok resp →
    ∃ tag, s3_current b key = Some (tag, to_vec resp) ∧ ∀ h, header_etag resp = Some h → h = tag;
  s3_get_404 : ∀ w b key e, (s3_exec w b (GetObject key)).1 = Err e → is_status 404 e = true →
    s3_current b key = None;
  (* a conditional PUT takes effect only when its condition holds *)
  s3_put_effect : ∀ w b key body p, let b' := (s3_exec w b (PutObject key body p)).2 in
    unchanged b b' ∨ precond_holds b key p ∧ ∃ tag, stored b b' key body tag;
  (* success is answered only to a PUT that took effect *)
  s3_put_ok : ∀ w b key body p resp, (s3_exec w b (PutObject key body p)).1 = Ok resp →
    is_success (status_code resp) = true →
    precond_holds b key p ∧ ∃ tag, stored b (s3_exec w b (PutObject key body p)).2 key body tag ∧
      ∀ h, header_etag resp = Some h → h = tag;
  (* 412: the condition does not hold.  A retried PUT may fail on its own write. *)
  s3_put_412 : ∀ w b key body p e, (s3_exec w b (PutObject key body p)).1 = Err e → is_status 412 e = true →
    ¬ precond_holds (s3_exec w b (PutObject key body p)).2 key p;
  (* equal entity tags of one key: equal bodies *)
  s3_etag_body : ∀ b key tag x y, (tag, x) ∈ s3_versions b key → (tag, y) ∈ s3_versions b key → x = y
}.

(** ** Interleaved programs *)

(** A process that cancels a program after [n] requests. *)
Fixpoint cut {A} (n : nat) (p : io A) : io (option A) :=
  match p, n with
  | Ret a, _ => Ret (Some a)
  | Act _ _, 0 => Ret None
  | Act c k, S n => Act c (λ r, cut n (k r))
  end.

Section interleaving.
Context `{S3Api} {P R : Type} (start : P → io R) (known : bytes → Prop).

Definition known_call (c : s3_call) : Prop :=
  match c with PutObject _ body _ => known body | _ => True end.

(** Programs run side by side on one bucket.  [known] holds of the bodies
    uploaded, so that an execution can be told to be free of hash collisions. *)
Inductive pool_step : bucket * list (P * io R) → bucket * list (P * io R) → Prop :=
| pool_start b ts p : pool_step (b, ts) (b, (p, start p) :: ts)
| pool_call b ts i p c k w :
    ts !! i = Some (p, Act c k) → known_call c →
    pool_step (b, ts) ((s3_exec w b c).2, <[i := (p, k (s3_exec w b c).1)]> ts)
| pool_drop b ts i : pool_step (b, ts) (b, delete i ts).

Definition pool_reachable : bucket * list (P * io R) → bucket * list (P * io R) → Prop := rtc pool_step.

End interleaving.

Lemma bounded_cut {A} n m (p : io A) : bounded n p → bounded n (cut m p).
Proof.
  revert n m. induction p as [a|c k IH]; intros n m; [by destruct m|].
  destruct n as [|n]; [done|]. destruct m as [|m]; simpl; auto.
Qed.

Lemma only_cut {A} ok n (p : io A) : only ok p → only ok (cut n p).
Proof.
  revert n. induction p as [a|c k IH]; intros n; [by destruct n|]. intros [Hc Hk].
  destruct n; simpl; [done|]. split; [done|]. intros r. by apply IH.
Qed.

Lemma rets_cut {A} n (P : A → Prop) (Q : option A → Prop) (p : io A) :
  rets P p → (∀ a, P a → Q (Some a)) → Q None → rets Q (cut n p).
Proof.
  intros Hp HS HN. revert n. induction p as [a|c k IH]; intros n; simpl in *; [by destruct n; apply HS|].
  destruct n; simpl; auto.
Qed.

(** ** Rely-guarantee reasoning *)

Section rely.
Context {api : S3Api} {SL : S3Laws api} (Inv : bucket → Prop) (known : bytes → Prop).

(** Buckets only gain versions. *)
Definition evolves (b b' : bucket) : Prop := ∀ key, s3_versions b key `prefix_of` s3_versions b' key.

#[global] Instance evolves_preorder : PreOrder evolves.
Proof. split; [by intros ? ?|intros ? ? ? H1 H2 key; by etrans; [apply H1|apply H2]]. Qed.

(** From [b] on, whatever concurrent programs that keep the invariant do, each
    request of [p] keeps the invariant and its answer satisfies [Q]. *)
Fixpoint safe {A} (p : io A) (Q : bucket → A → Prop) (b : bucket) : Prop :=
  match p with
  | Ret a => ∀ b', evolves b b' → Inv b' → Q b' a
  | Act c k => ∀ b' w, evolves b b' → Inv b' → known_call known c →
      Inv (s3_exec w b' c).2 ∧ safe (k (s3_exec w b' c).1) Q (s3_exec w b' c).2
  end.

Lemma exec_evolves w b c : evolves b (s3_exec w b c).2.
Proof.
  intros key. destruct c as [k|k|k body p].
  - by rewrite s3_get_effect.
  - by rewrite s3_head_effect.
  - destruct (s3_put_effect w b k body p) as [->|(_ & tag & ->)]; [done|by apply prefix_app_r].
Qed.

Lemma safe_evolves {A} (p : io A) Q b b' : safe p Q b → evolves b b' → safe p Q b'.
Proof. destruct p as [a|c k]; simpl; intros Hp Hb; [intros b1 H1|intros b1 w H1]; apply Hp; by etrans. Qed.

Lemma safe_mono {A} (p : io A) (Q Q' : bucket → A → Prop) b :
  safe p Q b → (∀ b' a, evolves b b' → Inv b' → Q b' a → Q' b' a) → safe p Q' b.
Proof.
  revert b. induction p as [a|c k IH]; simpl; intros b Hp HQ; [by eauto|].
  intros b' w Hb HI Hk. destruct (Hp b' w Hb HI Hk) as [HI' Hs]. split; [done|].
  eapply IH; [done|]. intros b1 a Hb1. apply HQ. do 2 (etrans; [done|]). etrans; [apply exec_evolves|done].
Qed.

Lemma safe_bind {A B} (p : io A) (f : A → io B) Q b :
  safe p (λ b' a, safe (f a) Q b') b → safe (prog_bind f p) Q b.
Proof.
  revert b. induction p as [a|c k IH]; simpl; intros b Hp.
  - destruct (f a) as [a'|c k] eqn:E; simpl; [intros b' Hb HI|intros b' w Hb HI];
      specialize (Hp b' Hb HI); [|apply Hp; done]. by apply Hp.
  - intros b' w Hb HI Hk. destruct (Hp b' w Hb HI Hk) as [HI' Hs]. auto.
Qed.

(** What holds of every result may be added to a postcondition. *)
Lemma safe_rets {A} (p : io A) (P : A → Prop) Q b : safe p Q b → rets P p → safe p (λ b' a, Q b' a ∧ P a) b.
Proof.
  revert b. induction p as [a|c k IH]; simpl; intros b Hp HP; [by auto|].
  intros b' w Hb HI Hk. destruct (Hp b' w Hb HI Hk). auto.
Qed.

(** The early return keeps an error that the postcondition accepts. *)
Lemma safe_try {E A B} (p : io (result E A)) (f : A → io (result E B)) (Q : bucket → result E B → Prop) b :
  safe p (λ b' r, match r with Ok a => safe (f a) Q b' | Err e => ∀ b'', evolves b' b'' → Inv b'' → Q b'' (Err e) end) b →
  safe (prog_bind (λ r, match r with Ok a => f a | Err e => Ret (Err e) end) p) Q b.
Proof. intros Hp. apply safe_bind. eapply safe_mono; [exact Hp|]. by intros b' [a|e]. Qed.

Lemma safe_cut {A} n (p : io A) (Q : bucket → option A → Prop) b :
  safe p (λ b' a, Q b' (Some a)) b → (∀ b', evolves b b' → Inv b' → Q b' None) → safe (cut n p) Q b.
Proof.
  revert n b. induction p as [a|c k IH]; intros n b Hp Hn; [by destruct n|].
  destruct n as [|n]; simpl; [done|]. intros b' w Hb HI Hk. destruct (Hp b' w Hb HI Hk) as [HI' Hs].
  split; [done|]. apply IH; [done|]. intros b1 Hb1. apply Hn. do 2 (etrans; [done|]). by etrans; [apply exec_evolves|].
Qed.

(** Interleaving safe programs keeps the invariant, and every program that ended
    satisfies its postcondition. *)
Lemma pool_safe {P R} (start : P → io R) (Q : P → bucket → R → Prop) b0 b ts :
  pool_reachable start known (b0, []) (b, ts) → Inv b0 → (∀ p b, Inv b → safe (start p) (Q p) b) →
  Inv b ∧ evolves b0 b ∧ ∀ p t, (p, t) ∈ ts → safe t (Q p) b.
Proof.
  intros Hr HI Hstart.
  assert (∀ s, rtc (pool_step start known) (b0, []) s →
    Inv s.1 ∧ evolves b0 s.1 ∧ ∀ p t, (p, t) ∈ s.2 → safe t (Q p) s.1) as Hall; [|by apply (Hall (b, ts))].
  clear Hr. apply rtc_ind_r; [split; [done|]; split; [done|]; by intros p t ?%not_elem_of_nil|].
  intros s1 s2 _ Hst (HI1 & Hb1 & Hts). destruct Hst as [b1 ts1 p|b1 ts1 i p c k w Hi Hk|b1 ts1 i]; simpl in *.
  - split; [done|]. split; [done|]. intros p' t [[= -> ->]|Ht]%elem_of_cons; auto.
  - destruct (Hts p (Act c k) (list_elem_of_lookup_2 _ _ _ Hi) b1 w) as [HI2 Hs2]; [done..|].
    split; [done|]. split; [by etrans; [|apply exec_evolves]|]. intros p' t Ht.
    apply list_elem_of_lookup in Ht as [j Hj]. apply list_lookup_insert_Some in Hj as [(-> & [= <- <-] & _)|[_ Hj]]; [done|].
    apply (safe_evolves _ _ b1); [|apply exec_evolves]. by eapply Hts, list_elem_of_lookup_2.
  - split; [done|]. split; [done|]. intros p t Ht. apply Hts.
    apply list_elem_of_lookup in Ht as [j Hj]. destruct (decide (j < i)) as [Hlt|Hge].
    + rewrite list_lookup_delete_lt in Hj by done. by eapply list_elem_of_lookup_2.
    + rewrite list_lookup_delete_ge in Hj by lia. by eapply list_elem_of_lookup_2.
Qed.

End rely.
