(* ===== verification/GitPublish.v ===== *)
(** * Publishing a push ([cas_publish.rs], [hydrate.rs], [transport.rs])

    A push loads the pointer of the repository and the manifest it names, runs
    receive-pack on a workspace built from that manifest, uploads the new objects
    as a pack, composes and uploads the next manifest and replaces the pointer on
    condition that it has not moved.  There is no lock: the conditional PUT is the
    only serialisation, so the theorems are about every interleaving, request by
    request, of any number of pushes, with lost replies and cancelled programs.

    git itself is the interface [GitApi]: the output of its commands on a
    workspace, with the documented behaviour of pack-objects in [GitLaws].
    Metrics and log lines are not modelled.  The text of an error that only
    reports a failed command is that command's. *)

From stdpp Require Import base gmap strings list sorting.
From Stdlib Require Import Ascii.
From S2P Require Import Prelude Programs Text Nostr GitManifest GitStore.

(** ** git *)

(** A pack file that pack-objects wrote to disk with its index: sizes by [stat],
    contents by a later read, each of which may fail. *)
Record CompactFile := mkCompactFile {
  cf_pack_len : result string N;
  cf_idx_len : result string N;
  cf_pack : result string bytes;
  cf_idx : result string bytes
}.

Class GitApi := {
  workspace : Type;
  for_each_ref : workspace → result string bytes;
  (* [None]: HEAD is detached or missing *)
  symbolic_ref_head : workspace → result string (option bytes);
  count_objects : workspace → result string string;
  pack_objects : workspace → string → result string bytes;
  (* with [--max-pack-size] and an output directory; the packs by file name *)
  pack_objects_split : workspace → string → N → result string (list CompactFile);
  index_pack : bytes → result string bytes;
  (* the object graph, and the objects of a pack *)
  git_reach : string → string → bool;
  pack_has : bytes → string → bool
}.

Class GitLaws (api : GitApi) := {
  (* every object reachable from a tip and from no excluded tip is packed *)
  pack_objects_covers : ∀ ws stdin pack tip o,
    pack_objects ws stdin = Ok pack → tip ∈ lines stdin → git_reach tip o = true →
    (∀ excluded, "^" +:+ excluded ∈ lines stdin → git_reach excluded o = false) → pack_has pack o = true;
  pack_objects_split_covers : ∀ ws stdin max files tip o,
    pack_objects_split ws stdin max = Ok files → tip ∈ lines stdin → git_reach tip o = true →
    ∃ f, f ∈ files ∧ ∀ pack, cf_pack f = Ok pack → pack_has pack o = true;
  empty_pack : ∀ o, pack_has [] o = false
}.

(** ** Data *)

Inductive CasError :=
| Conflict (winner_manifest : Manifest) (winner_manifest_key : string)
| ManifestReadFailed (e : string)
| ManifestInvalid (e : ManifestError)
| CasBackend (e : StoreError)
| PackCapture (e : string)
| CasResourceLimit (e : string).

Record PublishLimits := mkLimits {
  parent_hydrated_bytes : N;
  max_pack_bytes : N;
  max_repo_bytes : N
}.

Record CasSuccess := mkSuccess {
  cs_manifest : Manifest;
  cs_manifest_key : string
}.

Record ParentState := mkParentState {
  if_match : option ETag;
  parent_digest : option string;
  parent : Manifest
}.

Definition fresh : ParentState :=
  mkParentState None None (mkManifest MANIFEST_VERSION "" ∅ [] None).

Definition from_loaded (etag : ETag) (digest : string) (m : Manifest) : ParentState :=
  mkParentState (Some etag) (Some digest) m.

(** What the clock and the scheduler decide: whether the compaction permit comes
    in time, and when the compaction is cancelled: at once, or after a number of requests. *)
Record PublishEnv := mkEnv {
  pe_permit : result string unit;
  pe_timeout : option nat
}.

(** ** Refs and HEAD *)

Definition MAX_REF_SNAPSHOT_BYTES : N := 4 * 1024 * 1024.

Definition ref_line (line : string) : option (string * string) :=
  '(name, oid) ← split_once " "%char line;
  if bool_decide (String.length oid = 40) && str_all is_ascii_hexdigit oid then Some (name, oid) else None.

Fixpoint collect_refs (ls : list string) (refs : gmap string string) : result CasError (gmap string string) :=
  match ls with
  | [] => Ok refs
  | line :: ls =>
      match ref_line line with
      | None => collect_refs ls refs
      | Some (name, oid) =>
          if ((MAX_MANIFEST_REFS <=? N.of_nat (size refs))%N && negb (bool_decide (is_Some (refs !! name))))
          then Err (CasResourceLimit ("workspace contains more than " +:+ num_to_string MAX_MANIFEST_REFS +:+ " refs"))
          else collect_refs ls (<[name := oid]> refs)
      end
  end.

Definition is_published_branch (refs : gmap string string) (name : string) : bool :=
  starts_with "refs/heads/" name && bool_decide (is_Some (refs !! name)).

Definition first_branch (refs : gmap string string) : option string :=
  List.find (starts_with "refs/heads/") (ref_list refs).*1.

Definition resolve_published_head (refs : gmap string string) (observed_head parent_head : string) : string :=
  if is_published_branch refs observed_head then observed_head
  else if is_published_branch refs parent_head then parent_head
  else if bool_decide (is_Some (refs !! "refs/heads/main")) then "refs/heads/main"
  else if bool_decide (is_Some (refs !! "refs/heads/master")) then "refs/heads/master"
  else match first_branch refs with
       | Some branch => branch
       | None => if decide (observed_head ≠ "") then observed_head else parent_head
       end.

Definition backend_500 (e : string) : CasError := CasBackend (Backend (HttpFailWithBody 500 e)).

Definition digest_from_pack_key (key : string) : result CasError string :=
  match strip_prefix "packs/" key with
  | Some digest =>
      if is_hex64 digest then Ok digest else Err (backend_500 ("put_pack returned non-standard key: " +:+ key))
  | None => Err (backend_500 ("put_pack returned non-standard key: " +:+ key))
  end.

Definition digest_from_manifest_key (key : string) : result CasError string :=
  match strip_prefix "manifests/" key with
  | Some digest => Ok digest
  | None => Err (backend_500 ("put_manifest returned non-standard key: " +:+ key))
  end.

(** ** Composing the next manifest *)

Definition compose_after (parent : Manifest) (parent_digest : option string) (head : string)
    (refs : gmap string string) (new_pack_key : option string) : Manifest :=
  let packs :=
    match new_pack_key with
    | Some k => if bool_decide (k ∈ m_packs parent) then m_packs parent else m_packs parent ++ [k]
    | None => m_packs parent
    end in
  mkManifest MANIFEST_VERSION head refs (sort_dedup packs) parent_digest.

Definition compose_compacted_after (parent_digest : option string) (head : string)
    (refs : gmap string string) (compacted_pack_keys : list string) : Manifest :=
  mkManifest MANIFEST_VERSION head refs (sort_dedup compacted_pack_keys) parent_digest.

Definition should_compact (parent_pack_count threshold : nat) : bool := threshold <=? parent_pack_count.

Definition compacted_pack_set_is_usable (parent_pack_count compacted_pack_count : nat) : bool :=
  (compacted_pack_count <? parent_pack_count)
  || ((MAX_MANIFEST_PACKS <=? parent_pack_count) && (compacted_pack_count <=? MAX_MANIFEST_PACKS)).

Section publish.
Context {NA : NostrApi} {S3 : S3Api} {SH : Sha256Hex} {MJ : ManifestJson} {GA : GitApi}.

Definition snapshot_workspace_state (ws : workspace) : result CasError (gmap string string * string) :=
  let? out := map_err PackCapture (for_each_ref ws) in
  let len := N.of_nat (length out) in
  if (MAX_REF_SNAPSHOT_BYTES <? len)%N
  then Err (CasResourceLimit ("ref snapshot is " +:+ num_to_string len +:+ " bytes (max "
              +:+ num_to_string MAX_REF_SNAPSHOT_BYTES +:+ ")"))
  else
    let? refs := collect_refs (lines (default "" (from_utf8 out))) ∅ in
    let? head_out := map_err PackCapture (symbolic_ref_head ws) in
    let head := match head_out with Some b => trim (from_utf8_lossy b) | None => "" end in
    Ok (refs, head).

(** ** Delta packs *)

Definition ref_values (refs : gmap string string) : list string := (ref_list refs).*2.

Definition delta_stdin (refs_before refs_after : gmap string string) : string :=
  unlines (ref_values refs_after ++ (String.append "^" <$> ref_values refs_before)).

Definition capture_pack (ws : workspace) (refs_before refs_after : gmap string string) (max_pack_bytes : N) :
    result CasError (option bytes) :=
  match ref_values refs_after with
  | [] => Ok None
  | _ =>
      let? pack := map_err PackCapture (pack_objects ws (delta_stdin refs_before refs_after)) in
      let pack_len := N.of_nat (length pack) in
      if (max_pack_bytes <? pack_len)%N
      then Err (CasResourceLimit ("pack-objects output is " +:+ num_to_string pack_len +:+ " bytes (max "
                  +:+ num_to_string max_pack_bytes +:+ ")"))
      else if (pack_len =? 0)%N then Ok None
      else Ok (Some pack)
  end.

(** Best effort: the result is only logged. *)
Definition write_idx_sidecar (pack_key : string) (pack_bytes : bytes) : io (result CasError unit) :=
  match digest_from_pack_key pack_key with
  | Err e => Ret (Err e)
  | Ok pack_digest =>
      match index_pack pack_bytes with
      | Err e => Ret (Err (PackCapture e))
      | Ok idx_bytes =>
          r ← put_idx pack_digest idx_bytes;
          Ret (let? _ := map_err CasBackend r in Ok tt)
      end
  end.

(** ** Compaction *)

Definition MAX_COMPACTION_OBJECTS : N := 1000000.
Definition MAX_COUNT_OBJECTS_OUTPUT_BYTES : N := 64 * 1024.

Definition parse_count (output name : string) : result CasError N :=
  match list_find (λ line, is_Some (strip_prefix name line)) (lines output) with
  | Some (_, line) =>
      match parse_uint u64_max (trim (default "" (strip_prefix name line))) with
      | Some n => Ok n
      | None => Err (PackCapture ("count-objects omitted " +:+ name))
      end
  | None => Err (PackCapture ("count-objects omitted " +:+ name))
  end.

Definition enforce_compaction_object_limit (ws : workspace) : result CasError unit :=
  let? output := map_err PackCapture (count_objects ws) in
  let output_len := N.of_nat (String.length output) in
  if (MAX_COUNT_OBJECTS_OUTPUT_BYTES <? output_len)%N
  then Err (CasResourceLimit ("count-objects output is " +:+ num_to_string output_len +:+ " bytes (max "
              +:+ num_to_string MAX_COUNT_OBJECTS_OUTPUT_BYTES +:+ ")"))
  else
    let? loose := parse_count output "count:" in
    let? packed := parse_count output "in-pack:" in
    let object_count := (loose + packed)%N in
    if (u64_max <? object_count)%N
    then Err (CasResourceLimit "compaction object count overflowed u64")
    else if (MAX_COMPACTION_OBJECTS <? object_count)%N
    then Err (CasResourceLimit ("repository has " +:+ num_to_string object_count +:+ " objects (compaction max "
                +:+ num_to_string MAX_COMPACTION_OBJECTS +:+ ")"))
    else Ok tt.

(** The tips, each once, in the order of the refs. *)
Definition compaction_stdin (refs_after : gmap string string) : string :=
  unlines (seen_push_all (∅ : gset string, []) (ref_values refs_after)).2.

(** The sizes of one pack and its index; the new total. *)
Definition check_compacted (limits : PublishLimits) (total : N) (f : CompactFile) : result CasError (N * N) :=
  let? pack_bytes := map_err PackCapture (cf_pack_len f) in
  if (max_pack_bytes limits <? pack_bytes)%N
  then Err (CasResourceLimit ("compacted pack is " +:+ num_to_string pack_bytes +:+ " bytes (max "
              +:+ num_to_string (max_pack_bytes limits) +:+ ")"))
  else
    let total := (total + pack_bytes)%N in
    if (u64_max <? total)%N then Err (CasResourceLimit "compacted byte count overflowed u64")
    else if (max_repo_bytes limits <? total)%N
    then Err (CasResourceLimit ("compacted repo needs " +:+ num_to_string total +:+ " bytes (max "
                +:+ num_to_string (max_repo_bytes limits) +:+ ")"))
    else
      let? idx_bytes := map_err PackCapture (cf_idx_len f) in
      if (max_pack_bytes limits <? idx_bytes)%N
      then Err (CasResourceLimit ("compacted idx is " +:+ num_to_string idx_bytes +:+ " bytes (max "
                  +:+ num_to_string (max_pack_bytes limits) +:+ ")"))
      else Ok (pack_bytes, total).

(** Each file with the size recorded for it. *)
Fixpoint check_compacted_all (limits : PublishLimits) (total : N) (files : list CompactFile) :
    result CasError (list (CompactFile * N) * N) :=
  match files with
  | [] => Ok ([], total)
  | f :: files =>
      let? (pack_bytes, total) := check_compacted limits total f in
      let? (packs, total) := check_compacted_all limits total files in
      Ok ((f, pack_bytes) :: packs, total)
  end.

Definition capture_compacted_packs (ws : workspace) (refs_after : gmap string string) (limits : PublishLimits) :
    result CasError (list (CompactFile * N) * N) :=
  if decide (refs_after = ∅) then Ok ([], 0%N)
  else
    let? _ := enforce_compaction_object_limit ws in
    let? files := map_err PackCapture (pack_objects_split ws (compaction_stdin refs_after) (max_pack_bytes limits)) in
    if (MAX_MANIFEST_PACKS <? length files)
    then Err (CasResourceLimit ("compaction produced " +:+ num_to_string (N.of_nat (length files))
                +:+ " packs (max " +:+ num_to_string (N.of_nat MAX_MANIFEST_PACKS) +:+ ")"))
    else check_compacted_all limits 0 files.

(** The keys in upload order. *)
Fixpoint upload_each (packs : list (CompactFile * N)) : io (result CasError (list string)) :=
  match packs with
  | [] => Ret (Ok [])
  | (f, pack_len) :: packs =>
      match map_err PackCapture (cf_pack f) with
      | Err e => Ret (Err e)
      | Ok pack_bytes =>
          if decide (N.of_nat (length pack_bytes) ≠ pack_len)
          then Ret (Err (PackCapture "compacted pack changed after size validation"))
          else
            r ← put_pack pack_bytes;
            match map_err CasBackend r with
            | Err e => Ret (Err e)
            | Ok pack_key =>
                match digest_from_pack_key pack_key with
                | Err e => Ret (Err e)
                | Ok pack_digest =>
                    _ ← match cf_idx f with
                        | Ok idx_bytes => _ ← put_idx pack_digest idx_bytes; Ret tt
                        | Err _ => Ret tt
                        end;
                    let! keys := upload_each packs in Ret (Ok (pack_key :: keys))
                end
            end
      end
  end.

Definition upload_compacted_packs (packs : list (CompactFile * N)) : io (result CasError (list string)) :=
  let! keys := upload_each packs in Ret (Ok (sort_dedup keys)).

Definition prepare_compaction (ws : workspace) (refs_after : gmap string string) (limits : PublishLimits)
    (packs_before : nat) : io (result CasError (list string)) :=
  match capture_compacted_packs ws refs_after limits with
  | Err e => Ret (Err e)
  | Ok (packs, _) =>
      if negb (compacted_pack_set_is_usable packs_before (length packs))
      then Ret (Err (CasResourceLimit ("compaction did not reduce pack count (before "
             +:+ num_to_string (N.of_nat packs_before) +:+ ", after " +:+ num_to_string (N.of_nat (length packs)) +:+ ")")))
      else upload_compacted_packs packs
  end.

(** [tokio::time::timeout]: [None] when the operation is cancelled. *)
Definition with_timeout {A} (t : option nat) (p : io A) : io (option A) :=
  match t with
  | Some 0 => Ret None
  | Some (S n) => cut n p
  | None => a ← p; Ret (Some a)
  end.

Definition try_compaction (env : PublishEnv) (ws : workspace) (refs_after : gmap string string) (head : string)
    (ps : ParentState) (limits : PublishLimits) : io (result CasError Manifest) :=
  match pe_permit env with
  | Err e => Ret (Err (PackCapture e))
  | Ok _ =>
      r ← with_timeout (pe_timeout env)
            (prepare_compaction ws refs_after limits (length (m_packs (parent ps))));
      Ret (match r with
           | Some (Ok pack_keys) => Ok (compose_compacted_after (parent_digest ps) head refs_after pack_keys)
           | Some (Err e) => Err e
           | None => Err (PackCapture "pack compaction operation timed out after 600 seconds")
           end)
  end.

(** ** The commit *)

(** The pack of a normal push, and the key it is uploaded under. *)
Definition upload_delta (limits : PublishLimits) (pack : bytes) : io (result CasError string) :=
  let total_bytes := (parent_hydrated_bytes limits + N.of_nat (length pack))%N in
  if (u64_max <? total_bytes)%N then Ret (Err (CasResourceLimit "repo byte count overflowed u64"))
  else if (max_repo_bytes limits <? total_bytes)%N
  then Ret (Err (CasResourceLimit ("repo would need " +:+ num_to_string total_bytes +:+ " hydrated bytes (max "
              +:+ num_to_string (max_repo_bytes limits) +:+ ")")))
  else
    r ← put_pack pack;
    match map_err CasBackend r with
    | Err e => Ret (Err e)
    | Ok pack_key => _ ← write_idx_sidecar pack_key pack; Ret (Ok pack_key)
    end.

Definition delta_manifest (ws : workspace) (refs_after : gmap string string) (head : string) (ps : ParentState)
    (limits : PublishLimits) (compaction_failure : option CasError) : io (result CasError Manifest) :=
  match capture_pack ws (m_refs (parent ps)) refs_after (max_pack_bytes limits) with
  | Err e => Ret (Err e)
  | Ok pack =>
      let packs_before := length (m_packs (parent ps)) in
      if bool_decide (is_Some pack) && (MAX_MANIFEST_PACKS <=? packs_before)
      then Ret (Err (default (CasResourceLimit ("repository already names "
                      +:+ num_to_string (N.of_nat packs_before) +:+ " packs and compaction failed")) compaction_failure))
      else
        let! new_pack_key :=
          match pack with
          | Some body => let! k := upload_delta limits body in Ret (Ok (Some k))
          | None => Ret (Ok None)
          end in
        Ret (Ok (compose_after (parent ps) (parent_digest ps) head refs_after new_pack_key))
  end.

Definition next_manifest (env : PublishEnv) (threshold : nat) (ws : workspace) (refs_after : gmap string string)
    (head : string) (ps : ParentState) (limits : PublishLimits) : io (result CasError Manifest) :=
  if should_compact (length (m_packs (parent ps))) threshold then
    r ← try_compaction env ws refs_after head ps limits;
    match r with
    | Ok m => Ret (Ok m)
    | Err e => delta_manifest ws refs_after head ps limits (Some e)
    end
  else delta_manifest ws refs_after head ps limits None.

Definition winner_read_error (e : StoreError) : CasError :=
  match e with
  | DigestMismatch key expected actual =>
      ManifestReadFailed ("winner manifest digest mismatch: digest mismatch on " +:+ key +:+ ": expected "
        +:+ expected +:+ ", got " +:+ actual)
  | NotFound key => ManifestReadFailed ("winner pointer names missing manifest: object not found: " +:+ key)
  | other => CasBackend other
  end.

Definition read_winner_after_conflict (pkey : string) : io (result CasError (Manifest * string)) :=
  r ← get_pointer pkey;
  match map_err CasBackend r with
  | Err e => Ret (Err e)
  | Ok None => Ret (Err (ManifestReadFailed "pointer vanished after LostRace (no-delete rule violated)"))
  | Ok (Some (_, body)) =>
      match from_utf8 body with
      | None => Ret (Err (ManifestReadFailed "winner pointer body not utf-8"))
      | Some text =>
          let digest := trim text in
          if negb (is_hex64 digest)
          then Ret (Err (ManifestReadFailed ("winner pointer body is not a 64-char hex digest (got "
                 +:+ num_to_string (N.of_nat (String.length digest)) +:+ " chars)")))
          else
            let manifest_key := "manifests/" +:+ digest in
            r ← get_verified manifest_key digest;
            Ret (let? body := map_err winner_read_error r in
                 let? winner := map_err (λ _, ManifestReadFailed "parse winner manifest") (from_bytes body) in
                 Ok (winner, manifest_key))
      end
  end.

(** Steps 6 and 7: the manifest, then the pointer. *)
Definition commit (pkey : string) (ps : ParentState) (m_after : Manifest) : io (result CasError CasSuccess) :=
  match map_err ManifestInvalid (validate m_after) with
  | Err e => Ret (Err e)
  | Ok _ =>
      match map_err ManifestInvalid (canonical_bytes m_after) with
      | Err e => Ret (Err e)
      | Ok manifest_bytes =>
          r ← put_manifest manifest_bytes;
          match map_err CasBackend r with
          | Err e => Ret (Err e)
          | Ok manifest_key =>
              match digest_from_manifest_key manifest_key with
              | Err e => Ret (Err e)
              | Ok manifest_digest =>
                  let precond := match if_match ps with Some e => IfMatch e | None => IfNoneMatchStar end in
                  r ← put_pointer pkey (bytes_of_str manifest_digest) precond;
                  match map_err CasBackend r with
                  | Err e => Ret (Err e)
                  | Ok (Won _) => Ret (Ok (mkSuccess m_after manifest_key))
                  | Ok LostRace =>
                      let! (winner, key) := read_winner_after_conflict pkey in
                      Ret (Err (Conflict winner key))
                  end
              end
          end
      end
  end.

Definition cas_publish_inner (env : PublishEnv) (community : CommunityId) (ws : workspace) (owner repo : string)
    (ps : ParentState) (limits : PublishLimits) (threshold : nat) : io (result CasError CasSuccess) :=
  let pkey := pointer_key community owner repo in
  match snapshot_workspace_state ws with
  | Err e => Ret (Err e)
  | Ok (refs_after, head_observed) =>
      let head := resolve_published_head refs_after head_observed (m_head (parent ps)) in
      let! m_after := next_manifest env threshold ws refs_after head ps limits in
      commit pkey ps m_after
  end.

Definition cas_publish (env : PublishEnv) (community : CommunityId) (ws : workspace) (owner repo : string)
    (ps : ParentState) (limits : PublishLimits) : io (result CasError CasSuccess) :=
  cas_publish_inner env community ws owner repo ps limits PACK_COMPACTION_THRESHOLD.

(** ** Loading the parent ([hydrate.rs]) *)

Inductive HydrateError :=
| InvalidPointer
| HydrateManifest (e : ManifestError)
| HydrateStore (e : StoreError)
| Hydrate (e : string)
| HydrateResourceLimit (e : string).

Definition MAX_MANIFEST_BYTES : N := 4 * 1024 * 1024.

Definition hydrate_read_error (key : string) (e : StoreError) : HydrateError :=
  match e with
  | ObjectTooLarge _ size max =>
      HydrateResourceLimit ("object " +:+ key +:+ " is " +:+ num_to_string size +:+ " bytes (max "
        +:+ num_to_string max +:+ ")")
  | e => HydrateStore e
  end.

Definition load_pointer (community : CommunityId) (owner repo : string) :
    io (result HydrateError (option (ETag * string * Manifest))) :=
  r ← get_pointer (pointer_key community owner repo);
  match map_err HydrateStore r with
  | Err e => Ret (Err e)
  | Ok None => Ret (Ok None)
  | Ok (Some (etag, pointer_bytes)) =>
      match from_utf8 pointer_bytes with
      | None => Ret (Err InvalidPointer)
      | Some text =>
          let digest := trim text in
          if negb (is_hex64 digest) then Ret (Err InvalidPointer)
          else
            let manifest_key := "manifests/" +:+ digest in
            r ← get_verified_limited manifest_key digest MAX_MANIFEST_BYTES;
            Ret (let? manifest_bytes := map_err (hydrate_read_error manifest_key) r in
                 let? manifest := map_err HydrateManifest (from_bytes manifest_bytes) in
                 let? _ := map_err HydrateManifest (validate manifest) in
                 Ok (Some (etag, digest, manifest)))
      end
  end.

Definition load_manifest_for_read (community : CommunityId) (owner repo : string) :
    io (result HydrateError (option Manifest)) :=
  let! loaded := load_pointer community owner repo in
  Ret (Ok (snd <$> loaded)).

(** ** A push ([transport.rs]) *)

(** What the file system and git do on behalf of one push: building the workspace
    ([materialize_manifest] or an empty repository) with the bytes it took, and
    receive-pack, which leaves a workspace to publish only when git accepted the
    push and the community still accepts writes. *)
Record Push := mkPush {
  pu_community : CommunityId;
  pu_owner : string;
  pu_repo : string;
  pu_env : PublishEnv;
  pu_max_pack_bytes : N;
  pu_max_repo_bytes : N;
  pu_init : result HydrateError unit;
  pu_materialize : Manifest → result HydrateError N;
  pu_receive : ParentState → option workspace
}.

Definition hydrate_for_write (p : Push) : io (result HydrateError (N * ParentState)) :=
  let! loaded := load_pointer (pu_community p) (pu_owner p) (pu_repo p) in
  Ret (match loaded with
       | Some (etag, digest, manifest) =>
           let? hydrated_bytes := pu_materialize p manifest in
           Ok (hydrated_bytes, from_loaded etag digest manifest)
       | None => let? _ := pu_init p in Ok (0%N, fresh)
       end).

Inductive PushOutcome :=
| HydrateFailed (e : HydrateError)
| NotAccepted
| PublishFailed (ps : ParentState) (ws : workspace) (e : CasError)
| Pushed (ps : ParentState) (ws : workspace) (s : CasSuccess).

Definition push (p : Push) : io PushOutcome :=
  r ← hydrate_for_write p;
  match r with
  | Err e => Ret (HydrateFailed e)
  | Ok (hydrated_bytes, ps) =>
      match pu_receive p ps with
      | None => Ret NotAccepted
      | Some ws =>
          r ← cas_publish (pu_env p) (pu_community p) ws (pu_owner p) (pu_repo p) ps
                (mkLimits hydrated_bytes (pu_max_pack_bytes p) (pu_max_repo_bytes p));
          Ret (match r with Ok s => Pushed ps ws s | Err e => PublishFailed ps ws e end)
      end
  end.

(** What runs against the bucket: pushes, and reads of the refs. *)
Inductive Job :=
| JPush (p : Push)
| JRead (community : CommunityId) (owner repo : string).

Inductive JobOutcome :=
| OPush (o : PushOutcome)
| ORead (r : result HydrateError (option Manifest)).

Definition run_job (j : Job) : io JobOutcome :=
  match j with
  | JPush p => o ← push p; Ret (OPush o)
  | JRead community owner repo => r ← load_manifest_for_read community owner repo; Ret (ORead r)
  end.

(** Whether the ref-state event is published after a successful push. *)
Definition manifest_changed (ps : ParentState) (s : CasSuccess) : bool :=
  match parent_digest ps, strip_prefix "manifests/" (cs_manifest_key s) with
  | Some before, Some after => bool_decide (before ≠ after)
  | _, _ => true
  end.

End publish.
