(* ===== verification/GitHistory.v ===== *)
(** * The history of a repository under concurrent pushes

    The theorems about [GitPublish]: the invariant of the bucket ([store_inv]), that
    every request of a push or a read keeps it whatever the others do, and its
    consequences for histories, successful pushes, readers and losers.  The second
    section is about the order of the requests of one publication.  [GitHistoryDemo]
    instantiates the service, the hash, the JSON codec and git and runs two
    concurrent pushes. *)

From stdpp Require Import base gmap strings list sorting.
From Stdlib Require Import Ascii.
From S2P Require Import Prelude Programs Text Nostr GitManifest GitStore GitPublish.

(** ** Refs and HEAD: lemmas *)

Lemma lower_hex_hexdigit c : is_lower_hex c = true → is_ascii_hexdigit c = true.
Proof. unfold is_lower_hex, is_ascii_hexdigit. intros [->|H]%orb_true_iff; [done|]. rewrite H. by rewrite orb_true_r. Qed.

Lemma digest_hex64 d : is_manifest_digest d = true → is_hex64 d = true.
Proof.
  unfold is_manifest_digest, is_hex64. intros [-> Hd]%andb_true_iff. simpl.
  induction d as [|c d IH]; [done|]. simpl in *. apply andb_true_iff in Hd as [Hc Hd].
  rewrite lower_hex_hexdigit by done. by apply IH.
Qed.

Lemma hexdigit_graphic c : is_ascii_hexdigit c = true → in_range 48 102 (byte_of_ascii c) = true.
Proof.
  rewrite in_range_iff. unfold is_ascii_hexdigit, is_ascii_digit, ascii_code.
  rewrite <-(ascii_of_byte_of_ascii c) at 1. destruct c as [[] [] [] [] [] [] [] []]; vm_compute; intuition discriminate.
Qed.

Lemma hex64_text d : is_hex64 d = true → from_utf8 (bytes_of_str d) = Some d ∧ trim d = d.
Proof.
  intros [_ Hd]%andb_true_iff.
  assert (∀ lo hi, (lo ≤ 48)%N → (102 ≤ hi)%N → Forall (λ b, in_range lo hi b = true) (bytes_of_str d)) as Hall.
  { intros lo hi Hlo Hhi. eapply bytes_of_str_forall; [|done]. intros c Hc%hexdigit_graphic.
    rewrite in_range_iff in *. lia. }
  split; [apply from_utf8_ascii|apply trim_graphic]; by apply Hall.
Qed.

Lemma find_None {A} (f : A → bool) l x : List.find f l = None → x ∈ l → f x = false.
Proof. intros Hf Hx. eapply List.find_none; [done|]. by apply list_elem_of_In. Qed.

Lemma elem_of_ref_names refs name : name ∈ (ref_list refs).*1 ↔ is_Some (refs !! name).
Proof.
  rewrite list_elem_of_fmap. split.
  - intros ([n oid] & -> & Hin%elem_of_ref_list). by exists oid.
  - intros [oid Hoid]. exists (name, oid). split; [done|]. by apply elem_of_ref_list.
Qed.

Lemma elem_of_ref_values refs oid : oid ∈ ref_values refs ↔ ∃ name, refs !! name = Some oid.
Proof.
  unfold ref_values. rewrite list_elem_of_fmap. split.
  - intros ([n o] & -> & Hin%elem_of_ref_list). by exists n.
  - intros [name Hn]. exists (name, oid). split; [done|]. by apply elem_of_ref_list.
Qed.

Lemma is_published_branch_iff refs name :
  is_published_branch refs name = true ↔ starts_with "refs/heads/" name = true ∧ is_Some (refs !! name).
Proof. unfold is_published_branch. by rewrite andb_true_iff, bool_decide_eq_true. Qed.

(** The published HEAD is a published branch as soon as there is one. *)
Lemma published_head_branch refs observed parent_head name :
  is_published_branch refs name = true →
  is_published_branch refs (resolve_published_head refs observed parent_head) = true.
Proof.
  intros [Hs Hn]%is_published_branch_iff. unfold resolve_published_head.
  destruct (is_published_branch refs observed) eqn:E1; [done|].
  destruct (is_published_branch refs parent_head) eqn:E2; [done|].
  destruct (bool_decide_reflect (is_Some (refs !! "refs/heads/main"))); [by apply is_published_branch_iff|].
  destruct (bool_decide_reflect (is_Some (refs !! "refs/heads/master"))); [by apply is_published_branch_iff|].
  destruct (first_branch refs) as [branch|] eqn:Ef; unfold first_branch in Ef.
  - apply List.find_some in Ef as [Hb%list_elem_of_In Hs']. apply is_published_branch_iff. split; [done|].
    by apply elem_of_ref_names.
  - apply find_None with (x := name) in Ef; [congruence|]. by apply elem_of_ref_names.
Qed.

(** ** The invariant *)

Lemma content_key_prefix `{Sha256Hex} prefix x d :
  prefix +:+ "/" +:+ d = content_key prefix x → d = sha256_hex x.
Proof.
  unfold content_key. intros E. induction prefix as [|a p IH]; simpl in E; [by injection E|].
  apply IH. by injection E.
Qed.

Section invariant.
Context {NA : NostrApi} {S3 : S3Api} {SL : S3Laws S3} {SH : Sha256Hex} {SHL : Sha256HexLaws SH}.
Context {MJ : ManifestJson} {MJL : ManifestJsonLaws MJ} {GA : GitApi} {GL : GitLaws GA}.

Definition has_object (b : bucket) (key : string) (body : bytes) : Prop := ∃ tag, (tag, body) ∈ s3_versions b key.

(** Some pack of [packs] in the bucket holds each object reachable from [oid]. *)
Definition covered (b : bucket) (packs : list string) (oid : string) : Prop :=
  ∀ o, git_reach oid o = true → ∃ key pack, key ∈ packs ∧ has_object b key pack ∧ pack_has pack o = true.

(** The manifest [m] is stored under [digest], is valid, and everything it refers
    to is in the bucket. *)
Record published (b : bucket) (digest : string) (m : Manifest) : Prop := {
  pb_bytes : ∃ body, has_object b ("manifests/" +:+ digest) body ∧ from_bytes body = Ok m;
  pb_valid : valid_manifest m;
  pb_packs : ∀ key, key ∈ m_packs m → ∃ pack, has_object b key pack;
  pb_refs : ∀ name oid, m_refs m !! name = Some oid → covered b (m_packs m) oid
}.

(** The bodies of a pointer, oldest first: each names a published manifest whose
    parent is the manifest the body before it names. *)
Fixpoint linear (b : bucket) (prev : option string) (bodies : list bytes) : Prop :=
  match bodies with
  | [] => True
  | body :: bodies =>
      ∃ digest m, body = bytes_of_str digest ∧ published b digest m ∧ m_parent m = prev ∧
        linear b (Some digest) bodies
  end.

Definition pointer_bodies (b : bucket) (pkey : string) : list bytes := (s3_versions b pkey).*2.

Definition tip (prev : option string) (bodies : list bytes) : option string :=
  match last bodies with Some body => Some (str_of_bytes body) | None => prev end.

Context (known : bytes → Prop).

Definition collision_free : Prop := ∀ x y, known x → known y → sha256_hex x = sha256_hex y → x = y.

Record store_inv (b : bucket) : Prop := {
  si_content : ∀ prefix d body, prefix ∈ ["packs"; "manifests"] → has_object b (prefix +:+ "/" +:+ d) body →
    sha256_hex body = d ∧ known body;
  si_pointer : ∀ c owner repo, linear b None (pointer_bodies b (pointer_key c owner repo))
}.

Lemma has_object_evolves b b' key body : evolves b b' → has_object b key body → has_object b' key body.
Proof. intros Hb [tag Ht]. exists tag. destruct (Hb key) as [l ->]. apply elem_of_app. by left. Qed.

Lemma covered_evolves b b' packs packs' oid :
  evolves b b' → (∀ key, key ∈ packs → key ∈ packs') → covered b packs oid → covered b' packs' oid.
Proof.
  intros Hb Hp Hc o Ho. destruct (Hc o Ho) as (key & pack & Hk & Hh & Hp').
  exists key, pack. split_and!; [auto|by eapply has_object_evolves|done].
Qed.

Lemma published_evolves b b' digest m : evolves b b' → published b digest m → published b' digest m.
Proof.
  intros Hb [(body & Ho & Hf) Hv Hp Hr]. split; [|done| |].
  - exists body. split; [by eapply has_object_evolves|done].
  - intros key [pack Hk]%Hp. exists pack. by eapply has_object_evolves.
  - intros name oid Hn. eapply covered_evolves; [done| |by eapply Hr]. auto.
Qed.

Lemma linear_evolves b b' prev bodies : evolves b b' → linear b prev bodies → linear b' prev bodies.
Proof.
  intros Hb. revert prev. induction bodies as [|body bodies IH]; intros prev; [done|].
  intros (digest & m & -> & Hp & Hm & Hl). exists digest, m. split_and!; eauto using published_evolves.
Qed.

Lemma linear_snoc b prev bodies digest m :
  linear b prev bodies → published b digest m → m_parent m = tip prev bodies →
  linear b prev (bodies ++ [bytes_of_str digest]).
Proof.
  revert prev. induction bodies as [|body bodies IH]; intros prev; simpl.
  - intros _ Hp Hm. by exists digest, m.
  - intros (d & m' & -> & Hp' & Hm' & Hl) Hp Hm. exists d, m'. split_and!; try done. apply IH; [done..|].
    rewrite Hm. unfold tip. rewrite last_cons. destruct (last bodies); [done|]. by rewrite String.string_of_list_byte_of_string.
Qed.

Lemma linear_elem b prev bodies body :
  linear b prev bodies → body ∈ bodies → ∃ digest m, body = bytes_of_str digest ∧ published b digest m.
Proof.
  revert prev. induction bodies as [|x bodies IH]; intros prev; [by intros _ ?%not_elem_of_nil|].
  intros (d & m & -> & Hp & _ & Hl) [->|Hin]%elem_of_cons; eauto.
Qed.

Lemma stored_evolves b b' key body tag : stored b b' key body tag → evolves b b'.
Proof. intros Hs k. rewrite Hs. by apply prefix_app_r. Qed.

Lemma stored_has_object b b' key body tag : stored b b' key body tag → has_object b' key body.
Proof. intros Hs. exists tag. rewrite Hs, decide_True by done. apply elem_of_app. right. apply list_elem_of_here. Qed.

Lemma stored_object b b' key body tag key' body' :
  stored b b' key body tag → has_object b' key' body' → has_object b key' body' ∨ key' = key ∧ body' = body.
Proof.
  intros Hs [t Ht]. rewrite Hs in Ht. apply elem_of_app in Ht as [Ht|Ht]; [left; by exists t|].
  destruct (decide (key' = key)); [|by apply not_elem_of_nil in Ht].
  apply list_elem_of_singleton in Ht. right. by simplify_eq.
Qed.

Lemma unchanged_inv b b' : unchanged b b' → store_inv b → store_inv b'.
Proof.
  intros Hu [Hc Hp]. split.
  - intros prefix d body Hpre [t Ht]. rewrite Hu in Ht. eapply Hc; [done|]. by exists t.
  - intros c owner repo. unfold pointer_bodies. rewrite Hu. eapply linear_evolves, Hp. intros key. by rewrite Hu.
Qed.

Lemma stored_pointer_ne b b' key body tag pkey :
  stored b b' key body tag → pkey ≠ key → linear b None (pointer_bodies b pkey) →
  linear b' None (pointer_bodies b' pkey).
Proof.
  intros Hs Hne Hl. unfold pointer_bodies. rewrite Hs, decide_False, app_nil_r by done.
  eapply linear_evolves; [by eapply stored_evolves|done].
Qed.

(** Creating a content-addressed object. *)
Lemma stored_content_inv b b' prefix body tag :
  prefix ∈ ["packs"; "manifests"] → known body → stored b b' (content_key prefix body) body tag →
  store_inv b → store_inv b'.
Proof.
  intros Hpre Hk Hs [Hc Hp]. split.
  - intros prefix' d body' Hpre' [Ho|[Hkey ->]]%(stored_object _ _ _ _ _ _ _ Hs); [by eapply Hc|].
    split; [|done]. rewrite !elem_of_cons, elem_of_nil in Hpre, Hpre'.
    destruct Hpre as [->|[->|[]]], Hpre' as [->|[->|[]]];
      first [by apply content_key_prefix in Hkey|by unfold content_key in Hkey; simpl in Hkey].
  - intros c owner repo. eapply stored_pointer_ne; [done| |apply Hp].
    rewrite !elem_of_cons, elem_of_nil in Hpre. destruct Hpre as [->|[->|[]]]; discriminate.
Qed.

(** Creating an index. *)
Lemma stored_idx_inv b b' digest body tag :
  stored b b' ("idx/" +:+ digest) body tag → store_inv b → store_inv b'.
Proof.
  intros Hs [Hc Hp]. split.
  - intros prefix d body' Hpre [Ho|[Hkey ->]]%(stored_object _ _ _ _ _ _ _ Hs); [by eapply Hc|].
    rewrite !elem_of_cons, elem_of_nil in Hpre. by destruct Hpre as [->|[->|[]]].
  - intros c owner repo. eapply stored_pointer_ne; [done|discriminate|apply Hp].
Qed.

(** Moving the pointer to a manifest whose parent is the current one. *)
Lemma stored_pointer_inv b b' c owner repo digest m tag :
  stored b b' (pointer_key c owner repo) (bytes_of_str digest) tag →
  published b digest m → m_parent m = tip None (pointer_bodies b (pointer_key c owner repo)) →
  store_inv b → store_inv b'.
Proof.
  intros Hs Hpub Hm [Hc Hp]. split.
  - intros prefix d body' Hpre [Ho|[Hkey ->]]%(stored_object _ _ _ _ _ _ _ Hs); [by eapply Hc|].
    rewrite !elem_of_cons, elem_of_nil in Hpre. by destruct Hpre as [->|[->|[]]].
  - intros c' owner' repo'. destruct (decide (pointer_key c' owner' repo' = pointer_key c owner repo)) as [->|Hne].
    + unfold pointer_bodies. rewrite Hs, decide_True, fmap_app by done.
      eapply linear_evolves; [by eapply stored_evolves|]. simpl. by apply (linear_snoc _ _ _ _ m (Hp c owner repo)).
    + by eapply stored_pointer_ne.
Qed.

(** ** The store's operations under the invariant *)

Abbreviation safe_here := (safe store_inv known) (only parsing).

Lemma exec_get_inv w b key : store_inv b → store_inv (s3_exec w b (GetObject key)).2.
Proof. apply unchanged_inv, s3_get_effect. Qed.

Lemma exec_head_inv w b key : store_inv b → store_inv (s3_exec w b (HeadObject key)).2.
Proof. apply unchanged_inv, s3_head_effect. Qed.

(** A create-only PUT of something that may be created. *)
Lemma safe_create key body (Q : bucket → result S3Error ResponseData → Prop) b :
  (∀ b1 b2 tag, store_inv b1 → known body → stored b1 b2 key body tag → store_inv b2) →
  (∀ b1 r, evolves b b1 → store_inv b1 → known body →
     (∀ e, r = Err e → is_status 412 e = false) ∨ s3_versions b1 key ≠ [] →
     (∀ resp, r = Ok resp → is_success (status_code resp) = false) ∨ has_object b1 key body → Q b1 r) →
  safe_here (request (PutObject key body IfNoneMatchStar)) Q b.
Proof.
  intros Hinv HQ b1 w Hb HI Hk. simpl in Hk. set (b2 := (s3_exec w b1 _).2).
  assert (store_inv b2) as HI2.
  { destruct (s3_put_effect w b1 key body IfNoneMatchStar) as [Hu|(_ & tag & Hs)]; [by eapply unchanged_inv|by eapply Hinv]. }
  split; [done|]. intros b3 Hb3 HI3. pose proof (exec_evolves w b1 (PutObject key body IfNoneMatchStar)) as Hb2.
  apply HQ; [by do 2 (etrans; [done|])|done|done| |].
  - destruct (s3_exec w b1 (PutObject key body IfNoneMatchStar)).1 as [resp|e] eqn:Er; [left; done|].
    destruct (is_status 412 e) eqn:Ee; [right|left; by intros ? [= <-]].
    pose proof (s3_put_412 _ _ _ _ _ _ Er Ee) as Hn. unfold precond_holds, s3_current in Hn. intros E3. apply Hn.
    destruct (Hb3 key) as [l El]. rewrite E3 in El. symmetry in El. apply app_nil in El as [El _].
    change (last (s3_versions b2 key) = None). by rewrite El.
  - destruct (s3_exec w b1 (PutObject key body IfNoneMatchStar)).1 as [resp|e] eqn:Er; [|left; done].
    destruct (is_success (status_code resp)) eqn:Es; [right|left; by intros ? [= <-]].
    destruct (s3_put_ok _ _ _ _ _ _ Er Es) as (_ & tag & Hs & _). eapply has_object_evolves; [done|].
    by eapply stored_has_object.
Qed.

Lemma safe_put_immutable prefix body b :
  collision_free → prefix ∈ ["packs"; "manifests"] →
  safe_here (put_immutable prefix body)
    (λ b' r, ∀ key, r = Ok key → key = content_key prefix body ∧ has_object b' key body) b.
Proof.
  intros Hcf Hpre. unfold put_immutable. apply safe_bind, safe_create.
  - intros b1 b2 tag HI Hk Hs. by eapply stored_content_inv.
  - intros b1 r _ HI Hk H412 Hok b2 Hb2 HI2 key Hkey. unfold create_only in Hkey.
    destruct r as [resp|e].
    + destruct Hok as [Hok|Ho]; [by rewrite (Hok resp) in Hkey|].
      destruct (is_success _); [|done]. injection Hkey as <-. split; [done|by eapply has_object_evolves].
    + destruct H412 as [H412|Hne]; [by rewrite (H412 e) in Hkey|].
      destruct (is_status 412 e); [|done]. injection Hkey as <-. split; [done|]. eapply has_object_evolves; [done|].
      destruct (s3_versions b1 (content_key prefix body)) as [|[t y] l] eqn:Ev; [done|].
      assert (has_object b1 (content_key prefix body) y) as Ho by (exists t; rewrite Ev; apply list_elem_of_here).
      destruct (si_content b1 HI prefix (sha256_hex body) y Hpre Ho) as [Hy Hky].
      by rewrite (Hcf y body Hky Hk Hy) in Ho.
Qed.

Lemma safe_put_idx digest body b : safe_here (put_idx digest body) (λ _ _, True) b.
Proof.
  unfold put_idx. unfold idx_key_for_pack_digest. destruct (is_hex64 digest); cbn [negb]; [|done].
  apply safe_bind, safe_create; [|done]. intros b1 b2 tag HI _ Hs. by eapply stored_idx_inv.
Qed.

Definition version_in (b : bucket) (key : string) (tag : ETag) (body : bytes) : Prop :=
  (tag, body) ∈ s3_versions b key.

Lemma version_in_evolves b b' key tag body : evolves b b' → version_in b key tag body → version_in b' key tag body.
Proof. unfold version_in. intros Hb Ht. destruct (Hb key) as [l ->]. apply elem_of_app. by left. Qed.

Lemma current_version b key v : s3_current b key = Some v → v ∈ s3_versions b key.
Proof. unfold s3_current. intros [l ->]%last_Some. apply elem_of_app. right. apply list_elem_of_here. Qed.

Lemma safe_request_get key (Q : bucket → result S3Error ResponseData → Prop) b :
  (∀ b1 resp tag, evolves b b1 → store_inv b1 → version_in b1 key tag (to_vec resp) →
     (∀ h, header_etag resp = Some h → h = tag) → Q b1 (Ok resp)) →
  (∀ b1 e, evolves b b1 → store_inv b1 → Q b1 (Err e)) →
  safe_here (request (GetObject key)) Q b.
Proof.
  intros Hok Herr b1 w Hb HI _. split; [by apply exec_get_inv|]. intros b2 Hb2 HI2.
  assert (evolves b b2) as Hbb2 by (do 2 (etrans; [done|]); by etrans; [apply (exec_evolves w b1 (GetObject key))|]).
  destruct (s3_exec w b1 (GetObject key)).1 as [resp|e] eqn:Er; [|by apply Herr].
  destruct (s3_get_ok _ _ _ _ Er) as (tag & Hc & Hh). apply (Hok _ _ tag); [done|done| |done].
  eapply version_in_evolves; [|by apply current_version]. etrans; [apply (exec_evolves w b1 (GetObject key))|done].
Qed.

Lemma safe_get key b :
  safe_here (get key) (λ b' r, ∀ body, r = Ok body → has_object b' key body) b.
Proof.
  unfold get. apply safe_bind, safe_request_get.
  - intros b1 resp tag _ _ Hv _ b2 Hb2 _ body [= <-]. exists tag. by eapply version_in_evolves.
  - intros b1 e _ _ b2 _ _ body. by destruct (is_status 404 e).
Qed.

Lemma verify_digest_Ok key expected body body' :
  verify_digest key expected body = Ok body' → body' = body ∧ sha256_hex body = expected.
Proof. unfold verify_digest. case_decide as E; [done|]. by intros [= <-]. Qed.

Lemma safe_get_verified key digest b :
  safe_here (get_verified key digest)
    (λ b' r, ∀ body, r = Ok body → has_object b' key body ∧ sha256_hex body = digest) b.
Proof.
  unfold get_verified. apply safe_try. eapply safe_mono; [apply safe_get|].
  intros b1 [x|e] _ _ Hx; [|done]. intros b2 Hb2 _ body [-> Hd]%verify_digest_Ok. split; [|done].
  eapply has_object_evolves; [done|]. by apply Hx.
Qed.

Lemma safe_get_limited key max b :
  safe_here (get_limited key max) (λ b' r, ∀ body, r = Ok body → has_object b' key body ∧ (N.of_nat (length body) ≤ max)%N) b.
Proof.
  unfold get_limited. apply safe_bind. intros b1 w Hb HI _. split; [by apply exec_head_inv|].
  intros b2 _ _. destruct (map_err _ _) as [[len status]|e]; [|done].
  destruct (status =? 404)%N; [done|]. destruct (is_success status); cbn [negb]; [|done].
  destruct (match len with Some _ => _ | None => _ end); [done|].
  apply safe_try. eapply safe_mono; [apply safe_get|]. intros b3 [x|e] _ _ Hx; [|done].
  destruct (N.ltb_spec max (N.of_nat (length x))); [done|]. intros b4 Hb4 _ body [= <-]. split; [|lia].
  eapply has_object_evolves; [done|]. by apply Hx.
Qed.

Lemma safe_get_verified_limited key digest max b :
  safe_here (get_verified_limited key digest max)
    (λ b' r, ∀ body, r = Ok body → has_object b' key body ∧ sha256_hex body = digest) b.
Proof.
  unfold get_verified_limited. apply safe_try. eapply safe_mono; [apply safe_get_limited|].
  intros b1 [x|e] _ _ Hx; [|done]. intros b2 Hb2 _ body [-> Hd]%verify_digest_Ok. split; [|done].
  eapply has_object_evolves; [done|]. by apply Hx.
Qed.

Lemma safe_get_pointer key b :
  safe_here (get_pointer key) (λ b' r, ∀ tag body, r = Ok (Some (tag, body)) → version_in b' key tag body) b.
Proof.
  unfold get_pointer. apply safe_bind, safe_request_get.
  - intros b1 resp tag _ _ Hv Hh b2 Hb2 _ t body. destruct (header_etag resp) as [h|]; [|done].
    intros [= <- <-]. rewrite (Hh h) by done. by eapply version_in_evolves.
  - intros b1 e _ _ b2 _ _ t body. by destruct (is_status 404 e).
Qed.

(** ** Reading the published state *)

Lemma published_digest b digest m : store_inv b → published b digest m → is_manifest_digest digest = true.
Proof.
  intros HI [(body & Ho & _) _ _ _]. destruct (si_content b HI "manifests" digest body) as [<- _]; [|done|apply sha256_hex_ok].
  apply elem_of_cons. right. apply list_elem_of_here.
Qed.

Lemma manifest_unique b digest body m :
  collision_free → store_inv b → published b digest m → has_object b ("manifests/" +:+ digest) body →
  from_bytes body = Ok m.
Proof.
  intros Hcf HI [(body' & Ho' & Hf) _ _ _] Ho.
  assert ("manifests" ∈ ["packs"; "manifests"]) as Hin by (apply elem_of_cons; right; apply list_elem_of_here).
  destruct (si_content b HI "manifests" digest body Hin Ho) as [Hd Hk].
  destruct (si_content b HI "manifests" digest body' Hin Ho') as [Hd' Hk'].
  by rewrite (Hcf body body' Hk Hk' (eq_trans Hd (eq_sym Hd'))).
Qed.

(** A version of a pointer is the text of a published digest. *)
Lemma pointer_version b c owner repo tag body :
  store_inv b → version_in b (pointer_key c owner repo) tag body →
  ∃ digest m, body = bytes_of_str digest ∧ published b digest m ∧
    from_utf8 body = Some digest ∧ trim digest = digest.
Proof.
  intros HI Hv. destruct (linear_elem _ _ _ body (si_pointer b HI c owner repo)) as (digest & m & -> & Hp).
  { unfold pointer_bodies. apply list_elem_of_fmap. by exists (tag, body). }
  exists digest, m. destruct (hex64_text digest) as [? ?]; [|done]. by eapply digest_hex64, published_digest.
Qed.

Lemma safe_load_pointer c owner repo b :
  collision_free →
  safe_here (load_pointer c owner repo)
    (λ b' r, ∀ tag digest m, r = Ok (Some (tag, digest, m)) →
       version_in b' (pointer_key c owner repo) tag (bytes_of_str digest) ∧ published b' digest m) b.
Proof.
  intros Hcf. unfold load_pointer. apply safe_bind. eapply safe_mono; [apply safe_get_pointer|].
  intros b1 [[[tag body]|]|e] _ HI1 Hr; [|done|done]. specialize (Hr tag body eq_refl). cbn [map_err].
  destruct (pointer_version _ _ _ _ _ _ HI1 Hr) as (digest & m & -> & Hp & -> & ->).
  destruct (is_hex64 digest); cbn [negb]; [|done]. apply safe_bind.
  eapply safe_mono; [apply safe_get_verified_limited|]. intros b2 [x|e] Hb2 HI2 Hx; [|done].
  destruct (Hx x eq_refl) as [Ho _]. apply (published_evolves _ _ _ _ Hb2) in Hp.
  intros b3 Hb3 HI3 tag' digest' m'. simpl. rewrite (manifest_unique _ _ _ _ Hcf HI2 Hp Ho). simpl.
  destruct (validate m); simpl; [|done]. intros [= -> -> ->]. split; [|by eapply published_evolves].
  apply (version_in_evolves b1 b3); [by trans b2|done].
Qed.

(** ** Packs cover the refs *)

Definition hex_refs (refs : gmap string string) : Prop :=
  ∀ name oid, refs !! name = Some oid → str_all is_ascii_hexdigit oid = true.

Lemma valid_hex_refs m : valid_manifest m → hex_refs (m_refs m).
Proof. intros Hv name oid Hn. destruct (vm_ref m Hv name oid Hn) as [_ H]. by apply andb_true_iff in H as [_ ?]. Qed.

Lemma collect_refs_hex ls refs refs' : collect_refs ls refs = Ok refs' → hex_refs refs → hex_refs refs'.
Proof.
  revert refs. induction ls as [|line ls IH]; intros refs; simpl; [by intros [= <-]|].
  unfold ref_line. destruct (split_once " "%char line) as [[name oid]|]; simpl; [|apply IH].
  destruct (bool_decide (String.length oid = 40) && str_all is_ascii_hexdigit oid) eqn:E; [|apply IH]. simpl.
  destruct ((MAX_MANIFEST_REFS <=? _)%N && _); [discriminate|]. intros Hc Hr. apply (IH _ Hc). intros n o.
  rewrite lookup_insert_Some. intros [[_ <-]|[_ Hn]]; [|by eapply Hr]. by apply andb_true_iff in E as [_ ?].
Qed.

Lemma snapshot_hex ws refs head : snapshot_workspace_state ws = Ok (refs, head) → hex_refs refs.
Proof.
  unfold snapshot_workspace_state. destruct (map_err _ (for_each_ref ws)) as [out|]; [|done].
  destruct (_ <? _)%N; [done|]. destruct (collect_refs _ ∅) as [r|] eqn:E; [|done].
  destruct (map_err _ (symbolic_ref_head ws)); [|done]. intros [= <- _].
  by eapply collect_refs_hex.
Qed.

Definition tip_char (c : ascii) : bool := is_ascii_hexdigit c || bool_decide (c = "^"%char).

Lemma str_all_impl (f g : ascii → bool) s : (∀ c, f c = true → g c = true) → str_all f s = true → str_all g s = true.
Proof.
  intros Hfg. induction s as [|c s IH]; simpl; [done|]. intros [Hc Hs]%andb_true_iff.
  apply andb_true_iff. auto.
Qed.

Lemma hex_tip_chars refs oid :
  hex_refs refs → oid ∈ ref_values refs → str_all tip_char oid = true ∧ str_all tip_char ("^" +:+ oid) = true.
Proof.
  intros Hh [name Hn]%elem_of_ref_values. assert (str_all tip_char oid = true) as Ho; [|done].
  eapply str_all_impl; [|by eapply Hh]. intros c Hc. unfold tip_char. by rewrite Hc.
Qed.

Lemma delta_stdin_lines before after :
  hex_refs before → hex_refs after →
  lines (delta_stdin before after) = ref_values after ++ (String.append "^" <$> ref_values before).
Proof.
  intros Hb Ha. apply lines_unlines, Forall_app. split; apply Forall_forall.
  - intros oid Hoid. apply (one_line tip_char); [done|done|by eapply hex_tip_chars].
  - intros l (oid & -> & Hoid)%list_elem_of_fmap. apply (one_line tip_char); [done|done|exact (proj2 (hex_tip_chars _ _ Hb Hoid))].
Qed.

Lemma compaction_stdin_lines after oid :
  hex_refs after → oid ∈ ref_values after → oid ∈ lines (compaction_stdin after).
Proof.
  intros Ha Hoid. unfold compaction_stdin.
  assert (∀ x, x ∈ (seen_push_all (∅ : gset string, []) (ref_values after)).2 ↔ x ∈ ref_values after) as Hel.
  { intros x. rewrite elem_of_seen_push_all by apply seen_ok_empty. simpl. split; [by intros [?%not_elem_of_nil|?]|by right]. }
  rewrite lines_unlines; [by apply Hel|]. apply Forall_forall. intros l Hl%Hel.
  apply (one_line tip_char); [done|done|by eapply hex_tip_chars].
Qed.

(** The parent's packs and a delta pack cover the new refs. *)
Lemma delta_covers ws before after pack b packs name oid key :
  hex_refs before → hex_refs after →
  pack_objects ws (delta_stdin before after) = Ok pack → (pack ≠ [] → key ∈ packs ∧ has_object b key pack) →
  (∀ n o, before !! n = Some o → covered b packs o) →
  after !! name = Some oid → covered b packs oid.
Proof.
  intros Hb Ha Hp Hkey Hparent Hn o Ho.
  destruct (existsb (λ t, git_reach t o) (ref_values before)) eqn:Ex.
  - apply existsb_elem_of in Ex as (t & [n Ht]%elem_of_ref_values & Hr). by eapply Hparent.
  - assert (pack_has pack o = true) as Hhas.
    { eapply pack_objects_covers; [done| |done|].
      - rewrite delta_stdin_lines by done. apply elem_of_app. left. apply elem_of_ref_values. eauto.
      - intros excluded. rewrite delta_stdin_lines by done. intros [Hin|Hin]%elem_of_app.
        + destruct (hex_tip_chars _ _ Ha Hin) as [_ _]. apply elem_of_ref_values in Hin as [n' Hn'].
          by pose proof (Ha _ _ Hn').
        + apply list_elem_of_fmap in Hin as (x & E & Hx). assert (excluded = x) as -> by (injection E as E; exact E). destruct (git_reach x o) eqn:Hr; [|done].
          apply not_true_iff_false in Ex. destruct Ex. apply existsb_elem_of. eauto. }
    destruct pack as [|p0 pack]; [by rewrite empty_pack in Hhas|].
    destruct Hkey as [Hk Hobj]; [done|]. by exists key, (p0 :: pack).
Qed.

(** What a push knows of the state it started from. *)
Definition parent_ok (b : bucket) (pkey : string) (ps : ParentState) : Prop :=
  match if_match ps with
  | None => ps = fresh
  | Some tag =>
      ∃ digest, parent_digest ps = Some digest ∧ version_in b pkey tag (bytes_of_str digest) ∧
        published b digest (parent ps)
  end.

Record parent_stored (b : bucket) (m : Manifest) : Prop := {
  pst_hex : hex_refs (m_refs m);
  pst_packs : ∀ key, key ∈ m_packs m → ∃ pack, has_object b key pack;
  pst_refs : ∀ name oid, m_refs m !! name = Some oid → covered b (m_packs m) oid
}.

Lemma parent_ok_evolves b b' pkey ps : evolves b b' → parent_ok b pkey ps → parent_ok b' pkey ps.
Proof.
  unfold parent_ok. intros Hb. destruct (if_match ps); [|done]. intros (d & Hd & Hv & Hp).
  exists d. eauto using version_in_evolves, published_evolves.
Qed.

Lemma parent_ok_stored b pkey ps : parent_ok b pkey ps → parent_stored b (parent ps).
Proof.
  unfold parent_ok. destruct (if_match ps) as [tag|].
  - intros (d & _ & _ & [_ Hv Hp Hr]). split; [by apply valid_hex_refs|done|done].
  - intros ->. split; simpl.
    + intros name oid. by rewrite lookup_empty.
    + by intros key ?%not_elem_of_nil.
    + intros name oid. by rewrite lookup_empty.
Qed.

Lemma parent_stored_evolves b b' m : evolves b b' → parent_stored b m → parent_stored b' m.
Proof.
  intros Hb [Hh Hp Hr]. split; [done| |].
  - intros key [pack Hk]%Hp. exists pack. by eapply has_object_evolves.
  - intros name oid Hn. eapply covered_evolves; [done| |by eapply Hr]. auto.
Qed.

(** The manifest a push is about to commit. *)
Record composed (b : bucket) (ps : ParentState) (refs : gmap string string) (head : string) (m : Manifest) : Prop := {
  co_version : m_version m = MANIFEST_VERSION;
  co_head : m_head m = head;
  co_refs : m_refs m = refs;
  co_parent : m_parent m = parent_digest ps;
  co_canonical : canonical m = m;
  co_packs : ∀ key, key ∈ m_packs m → ∃ pack, has_object b key pack;
  co_covered : ∀ name oid, refs !! name = Some oid → covered b (m_packs m) oid
}.

Lemma composed_evolves b b' ps refs head m : evolves b b' → composed b ps refs head m → composed b' ps refs head m.
Proof.
  intros Hb []. split; try done.
  - intros key [pack Hk]%co_packs0. exists pack. by eapply has_object_evolves.
  - intros name oid Hn. eapply covered_evolves; [done| |by eapply co_covered0]. auto.
Qed.

(** *** Delta packs *)

Lemma capture_pack_Ok ws before after max r :
  capture_pack ws before after max = Ok r →
  match r with
  | Some pack => pack_objects ws (delta_stdin before after) = Ok pack
  | None => ref_values after = [] ∨ pack_objects ws (delta_stdin before after) = Ok []
  end.
Proof.
  unfold capture_pack. destruct (ref_values after) as [|v vs]; [intros [= <-]; by left|].
  destruct (pack_objects ws _) as [pack|] eqn:E; [|done]. cbn [map_err]. destruct (_ <? _)%N; [done|].
  destruct (N.eqb_spec (N.of_nat (length pack)) 0) as [E0|]; intros [= <-]; [right|done].
  by destruct pack.
Qed.

Lemma safe_upload_delta limits pack b :
  collision_free →
  safe_here (upload_delta limits pack)
    (λ b' r, ∀ key, r = Ok key → has_object b' key pack) b.
Proof.
  intros Hcf. unfold upload_delta. destruct (_ <? _)%N; [done|]. destruct (_ <? _)%N; [done|].
  apply safe_bind. eapply safe_mono; [apply safe_put_immutable; [done|apply list_elem_of_here]|].
  intros b1 [key|e] _ _ Hk; [|done]. destruct (Hk key eq_refl) as [_ Ho]. cbn [map_err].
  apply safe_bind. eapply (safe_mono _ _ _ (λ _ _, True)).
  - unfold write_idx_sidecar. destruct (digest_from_pack_key key); [|done]. destruct (index_pack pack); [|done].
    apply safe_bind. eapply safe_mono; [apply safe_put_idx|]. done.
  - intros b2 r Hb2 _ _ b3 Hb3 _ key' [= <-]. apply (has_object_evolves b1 b3); [by trans b2|done].
Qed.

Lemma compose_after_packs m digest head refs k key :
  key ∈ m_packs (compose_after m digest head refs k) ↔ key ∈ m_packs m ∨ k = Some key.
Proof.
  unfold compose_after. simpl. rewrite elem_of_sort_dedup. destruct k as [k|]; [|naive_solver].
  case_bool_decide; [naive_solver|]. rewrite elem_of_app, list_elem_of_singleton. naive_solver.
Qed.

Lemma delta_composed ws b ps refs head k :
  parent_stored b (parent ps) → hex_refs refs →
  match k with
  | Some key => ∃ pack, pack_objects ws (delta_stdin (m_refs (parent ps)) refs) = Ok pack ∧ has_object b key pack
  | None => ref_values refs = [] ∨ pack_objects ws (delta_stdin (m_refs (parent ps)) refs) = Ok []
  end →
  composed b ps refs head (compose_after (parent ps) (parent_digest ps) head refs k).
Proof.
  intros [Hh Hp Hr] Hrefs Hk. split; try done.
  - unfold canonical. simpl. by rewrite sort_dedup_idem.
  - intros key [Hin|Hin]%compose_after_packs; [by apply Hp|]. subst k. destruct Hk as (pack & _ & Ho). by exists pack.
  - intros name oid Hn. set (m := compose_after _ _ _ _ _).
    assert (∀ n o, m_refs (parent ps) !! n = Some o → covered b (m_packs m) o) as Hpar.
    { intros n o Hno. eapply covered_evolves; [done| |by eapply Hr]. intros key Hkey.
      apply compose_after_packs. by left. }
    destruct k as [key|].
    + destruct Hk as (pack & Hpo & Ho). eapply delta_covers; [exact Hh|exact Hrefs|done| |exact Hpar|done].
      intros _. split; [|done]. apply compose_after_packs. by right.
    + destruct Hk as [Hnil|Hpo].
      * assert (oid ∈ ref_values refs) as Hin by (apply elem_of_ref_values; eauto).
        rewrite Hnil in Hin. by apply not_elem_of_nil in Hin.
      * by eapply (delta_covers _ _ _ _ _ _ _ _ ""); [exact Hh|exact Hrefs|done| |exact Hpar|done].
Qed.

Lemma safe_delta_manifest ws refs head ps limits failure b :
  collision_free → parent_stored b (parent ps) → hex_refs refs →
  safe_here (delta_manifest ws refs head ps limits failure)
    (λ b' r, ∀ m, r = Ok m → composed b' ps refs head m) b.
Proof.
  intros Hcf Hps Hh. unfold delta_manifest.
  destruct (capture_pack _ _ _ _) as [pack|e] eqn:Ec; [|done]. apply capture_pack_Ok in Ec.
  destruct (_ && _); [done|]. apply safe_try. destruct pack as [pack|].
  - apply safe_try. eapply safe_mono; [by apply safe_upload_delta|]. intros b1 [key|e] Hb1 _ Hk; [|done].
    specialize (Hk key eq_refl). intros b2 Hb2 _ b3 Hb3 _ m [= <-]. apply delta_composed with ws.
    + apply (parent_stored_evolves b); [by do 2 (etrans; [done|])|done].
    + done.
    + exists pack. split; [done|]. apply (has_object_evolves b1 b3); [by trans b2|done].
  - intros b1 Hb1 _ b2 Hb2 _ m [= <-]. apply delta_composed with ws; [|done..].
    apply (parent_stored_evolves b); [by trans b1|done].
Qed.

(** *** Compaction *)

(** The files of [packs] are in the bucket under the keys [keys]. *)
Definition uploaded (b : bucket) (packs : list (CompactFile * N)) (keys : list string) : Prop :=
  (∀ key, key ∈ keys → ∃ body, has_object b key body) ∧
  (∀ f n, (f, n) ∈ packs → ∃ key body, key ∈ keys ∧ cf_pack f = Ok body ∧ has_object b key body).

Lemma uploaded_evolves b b' packs keys : evolves b b' → uploaded b packs keys → uploaded b' packs keys.
Proof.
  intros Hb [Hk Hf]. split.
  - intros key [body Ho]%Hk. exists body. by eapply has_object_evolves.
  - intros f n (key & body & Hin & Hc & Ho)%Hf. exists key, body. split_and!; try done. by eapply has_object_evolves.
Qed.

Lemma uploaded_cons b f n packs key keys body :
  cf_pack f = Ok body → has_object b key body → uploaded b packs keys → uploaded b ((f, n) :: packs) (key :: keys).
Proof.
  intros Hc Ho [Hk Hf]. split.
  - intros k [->|Hin]%elem_of_cons; [by exists body|by apply Hk].
  - intros f' n' [[= -> ->]|Hin]%elem_of_cons; [exists key, body; split_and!; [apply list_elem_of_here|done|done]|].
    destruct (Hf _ _ Hin) as (k & x & Hk' & Hx & Ho'). exists k, x. split_and!; [by apply elem_of_cons; right|done|done].
Qed.

Lemma safe_upload_each packs b :
  collision_free → safe_here (upload_each packs) (λ b' r, ∀ keys, r = Ok keys → uploaded b' packs keys) b.
Proof.
  intros Hcf. revert b. induction packs as [|[f n] packs IH]; intros b; cbn [upload_each].
  - intros b1 _ _ keys [= <-]. split; [by intros ? ?%not_elem_of_nil|by intros ? ? ?%not_elem_of_nil].
  - destruct (cf_pack f) as [body|e] eqn:Ef; [|done]. cbn [map_err]. case_decide; [done|].
    apply safe_bind. eapply safe_mono; [apply safe_put_immutable; [done|apply list_elem_of_here]|].
    intros b1 [key|e] _ _ Hk; [|done]. destruct (Hk key eq_refl) as [_ Ho]. cbn [map_err].
    destruct (digest_from_pack_key key) as [digest|]; [|done].
    apply safe_bind. eapply (safe_mono _ _ _ (λ _ _, True)).
    { destruct (cf_idx f); [|done]. apply safe_bind. eapply safe_mono; [apply safe_put_idx|]. done. }
    intros b2 _ Hb2 _ _. apply safe_try. eapply safe_mono; [apply IH|].
    intros b3 [keys|e] Hb3 _ Hu; [|done]. intros b4 Hb4 _ keys' [= <-]. eapply uploaded_cons; [done| |].
    + apply (has_object_evolves b1); [by trans b2; [|trans b3]|done].
    + eapply uploaded_evolves; [done|]. by apply Hu.
Qed.

Lemma check_compacted_all_files limits total files packs total' :
  check_compacted_all limits total files = Ok (packs, total') → packs.*1 = files.
Proof.
  revert total packs. induction files as [|f files IH]; intros total packs; cbn [check_compacted_all].
  - by intros [= <- _].
  - destruct (check_compacted _ _ f) as [[n t]|]; [|done].
    destruct (check_compacted_all limits t files) as [[packs' t']|] eqn:E; [|done]. intros [= <- <-]. simpl.
    f_equal. by eapply IH.
Qed.

Lemma capture_compacted_covers ws refs limits packs total b keys name oid :
  capture_compacted_packs ws refs limits = Ok (packs, total) → hex_refs refs →
  uploaded b packs keys → refs !! name = Some oid → covered b keys oid.
Proof.
  unfold capture_compacted_packs. case_decide as E; [subst refs; intros _ _ _; by rewrite lookup_empty|].
  destruct (enforce_compaction_object_limit ws); [|done].
  destruct (pack_objects_split _ _ _) as [files|] eqn:Es; [|done]. cbn [map_err].
  destruct (_ <? _); [done|]. intros Hc%check_compacted_all_files Hh [_ Hu] Hn o Ho.
  destruct (pack_objects_split_covers _ _ _ _ oid o Es) as (f & Hf & Hhas); [|done|].
  { apply compaction_stdin_lines; [done|]. apply elem_of_ref_values. eauto. }
  rewrite <-Hc in Hf. apply list_elem_of_fmap in Hf as ([f' n] & -> & Hin).
  destruct (Hu _ _ Hin) as (key & body & Hk & Hb & Ho'). exists key, body. split_and!; [done|done|by apply Hhas].
Qed.

Lemma safe_prepare_compaction ws refs limits n b :
  collision_free → hex_refs refs →
  safe_here (prepare_compaction ws refs limits n)
    (λ b' r, ∀ keys, r = Ok keys → (∀ key, key ∈ keys → ∃ body, has_object b' key body) ∧
       ∀ name oid, refs !! name = Some oid → covered b' keys oid) b.
Proof.
  intros Hcf Hh. unfold prepare_compaction.
  destruct (capture_compacted_packs ws refs limits) as [[packs total]|e] eqn:Ec; [|done].
  destruct (compacted_pack_set_is_usable n (length packs)); cbn [negb]; [|done]. unfold upload_compacted_packs.
  apply safe_try. eapply safe_mono; [by apply safe_upload_each|]. intros b1 [keys|e] _ _ Hu; [|done].
  specialize (Hu keys eq_refl). intros b2 Hb2 _ keys' [= <-]. apply (uploaded_evolves _ _ _ _ Hb2) in Hu. split.
  - intros key. rewrite elem_of_sort_dedup. apply (proj1 Hu).
  - intros name oid Hn. apply (covered_evolves b2 b2 keys); [done| |by eapply capture_compacted_covers].
    intros key. by rewrite elem_of_sort_dedup.
Qed.

Lemma safe_try_compaction env ws refs head ps limits b :
  collision_free → hex_refs refs →
  safe_here (try_compaction env ws refs head ps limits) (λ b' r, ∀ m, r = Ok m → composed b' ps refs head m) b.
Proof.
  intros Hcf Hh. unfold try_compaction. destruct (pe_permit env) as [[]|e]; [|done]. apply safe_bind.
  eapply (safe_mono _ _ _ (λ b' r, ∀ keys, r = Some (Ok keys) →
    (∀ key, key ∈ keys → ∃ body, has_object b' key body) ∧ ∀ name oid, refs !! name = Some oid → covered b' keys oid)).
  - unfold with_timeout. destruct (pe_timeout env) as [[|n]|]; [done| |].
    + apply safe_cut; [|done]. eapply safe_mono; [by apply safe_prepare_compaction|].
      intros b1 r _ _ Hr keys [= ->]. by apply Hr.
    + apply safe_bind. eapply safe_mono; [by apply safe_prepare_compaction|].
      intros b1 r _ _ Hr b2 Hb2 _ keys [= ->]. destruct (Hr keys eq_refl) as [Hk Hc]. split.
      * intros key [body Ho]%Hk. exists body. by eapply has_object_evolves.
      * intros name oid Hn. eapply covered_evolves; [done| |by eapply Hc]. auto.
  - intros b1 [[keys|e]|] _ _ Hr; [|done|done]. destruct (Hr keys eq_refl) as [Hk Hc].
    intros b2 Hb2 _ m [= <-]. apply (composed_evolves b1); [done|]. split; try done.
    + unfold canonical, compose_compacted_after. simpl. by rewrite sort_dedup_idem.
    + intros key. simpl. rewrite elem_of_sort_dedup. apply Hk.
    + intros name oid Hn. eapply covered_evolves; [done| |by eapply Hc]. intros key. simpl. by rewrite elem_of_sort_dedup.
Qed.

Lemma safe_next_manifest env threshold ws refs head ps limits b :
  collision_free → parent_stored b (parent ps) → hex_refs refs →
  safe_here (next_manifest env threshold ws refs head ps limits)
    (λ b' r, ∀ m, r = Ok m → composed b' ps refs head m) b.
Proof.
  intros Hcf Hps Hh. unfold next_manifest. destruct (should_compact _ _); [|by apply safe_delta_manifest].
  apply safe_bind. eapply safe_mono; [by apply safe_try_compaction|]. intros b1 [m|e] Hb1 _ Hm.
  - intros b2 Hb2 _ m' [= <-]. eapply composed_evolves; [done|]. by apply Hm.
  - apply safe_delta_manifest; [done| |done]. by eapply parent_stored_evolves.
Qed.

(** ** The commit *)

(** The pointer was moved from the parent to [digest]. *)
Definition moved (b : bucket) (pkey : string) (from : option string) (digest : string) : Prop :=
  ∃ before after, pointer_bodies b pkey = before ++ bytes_of_str digest :: after ∧ tip None before = from.

Lemma moved_evolves b b' pkey from digest : evolves b b' → moved b pkey from digest → moved b' pkey from digest.
Proof.
  intros Hb (before & after & E & Ht). destruct (Hb pkey) as [l El]. exists before, (after ++ l.*2).
  split; [|done]. unfold pointer_bodies in *. by rewrite El, fmap_app, E, <-app_assoc.
Qed.

Definition commit_precond (ps : ParentState) : Precond :=
  match if_match ps with Some e => IfMatch e | None => IfNoneMatchStar end.

(** The condition of the PUT holds only while the pointer is where the push found it. *)
Lemma precond_tip b pkey ps :
  parent_ok b pkey ps → precond_holds b pkey (commit_precond ps) → tip None (pointer_bodies b pkey) = parent_digest ps.
Proof.
  unfold parent_ok, commit_precond, precond_holds, tip, pointer_bodies. rewrite fmap_last. fold (s3_current b pkey).
  destruct (if_match ps) as [tag|].
  - intros (digest & -> & Hv & _). destruct (s3_current b pkey) as [[tag' body]|] eqn:Ec; [|done]. simpl. intros [= ->].
    rewrite (s3_etag_body b pkey tag body (bytes_of_str digest)); [|by apply current_version|done].
    by rewrite String.string_of_list_byte_of_string.
  - by intros -> ->.
Qed.

Lemma stored_moved b b' pkey digest tag from :
  stored b b' pkey (bytes_of_str digest) tag → tip None (pointer_bodies b pkey) = from → moved b' pkey from digest.
Proof.
  intros Hs Ht. exists (pointer_bodies b pkey), []. split; [|done]. unfold pointer_bodies.
  by rewrite Hs, decide_True, fmap_app.
Qed.

Lemma safe_put_pointer c owner repo digest m ps b :
  let pkey := pointer_key c owner repo in
  parent_ok b pkey ps → published b digest m → m_parent m = parent_digest ps →
  safe_here (put_pointer pkey (bytes_of_str digest) (commit_precond ps))
    (λ b' r, ∀ tag, r = Ok (Won tag) → moved b' pkey (parent_digest ps) digest) b.
Proof.
  intros pkey Hps Hpub Hm. unfold put_pointer. destruct (negb _); [done|]. apply safe_bind.
  intros b1 w Hb1 HI1 _. apply (parent_ok_evolves _ _ _ _ Hb1) in Hps. apply (published_evolves _ _ _ _ Hb1) in Hpub.
  split.
  - destruct (s3_put_effect w b1 pkey (bytes_of_str digest) (commit_precond ps)) as [Hu|(Hpre & tag & Hs)];
      [by eapply unchanged_inv|]. eapply stored_pointer_inv; [exact Hs|exact Hpub| |done].
    rewrite Hm. symmetry. by apply precond_tip.
  - intros b2 Hb2 _ b3 Hb3 _ tag Hr. unfold classify_cas in Hr.
    destruct (s3_exec w b1 (PutObject pkey _ _)).1 as [resp|e] eqn:Er; [|by destruct (is_status 412 e)].
    destruct (is_success (status_code resp)) eqn:Es; [|done].
    destruct (s3_put_ok _ _ _ _ _ _ Er Es) as (Hpre & t & Hs & _).
    eapply moved_evolves; [exact Hb3|]. eapply moved_evolves; [exact Hb2|]. eapply stored_moved; [done|].
    by apply precond_tip.
Qed.

(** The manifest a lost race reports. *)
Definition pointed_at (b : bucket) (pkey : string) (m : Manifest) (key : string) : Prop :=
  ∃ digest, key = "manifests/" +:+ digest ∧ published b digest m ∧ bytes_of_str digest ∈ pointer_bodies b pkey.

Lemma pointed_at_evolves b b' pkey m key : evolves b b' → pointed_at b pkey m key → pointed_at b' pkey m key.
Proof.
  intros Hb (digest & -> & Hp & Hin). exists digest. split_and!; [done|by eapply published_evolves|].
  unfold pointer_bodies in *. destruct (Hb pkey) as [l ->]. rewrite fmap_app. apply elem_of_app. by left.
Qed.

Lemma safe_read_winner c owner repo b :
  let pkey := pointer_key c owner repo in
  collision_free →
  safe_here (read_winner_after_conflict pkey)
    (λ b' r, match r with
             | Ok (m, key) => pointed_at b' pkey m key
             | Err (Conflict _ _) => False
             | Err _ => True
             end) b.
Proof.
  intros pkey Hcf. unfold read_winner_after_conflict. apply safe_bind. eapply safe_mono; [apply safe_get_pointer|].
  intros b1 [[[tag body]|]|e] _ HI1 Hr; [|done|done]. specialize (Hr tag body eq_refl). cbn [map_err].
  destruct (pointer_version _ _ _ _ _ _ HI1 Hr) as (digest & m & -> & Hp & -> & ->).
  destruct (is_hex64 digest); cbn [negb]; [|done]. apply safe_bind.
  eapply safe_mono; [apply safe_get_verified|]. intros b2 [x|e] Hb2 HI2 Hx; [|by destruct e].
  destruct (Hx x eq_refl) as [Ho _]. apply (published_evolves _ _ _ _ Hb2) in Hp.
  intros b3 Hb3 HI3. cbn [map_err]. rewrite (manifest_unique _ _ _ _ Hcf HI2 Hp Ho). cbn [map_err].
  exists digest. split_and!; [done|by eapply published_evolves|].
  unfold pointer_bodies. apply list_elem_of_fmap. exists (tag, bytes_of_str digest). split; [done|].
  apply (version_in_evolves b1 b3); [by trans b2|done].
Qed.

Definition commit_post (pkey : string) (ps : ParentState) (m : Manifest) (b : bucket) (r : result CasError CasSuccess) : Prop :=
  match r with
  | Ok s => cs_manifest s = m ∧ ∃ digest, cs_manifest_key s = "manifests/" +:+ digest ∧
      published b digest m ∧ moved b pkey (parent_digest ps) digest
  | Err (Conflict winner key) => pointed_at b pkey winner key
  | Err _ => True
  end.

Lemma composed_published b ps refs head m body :
  composed b ps refs head m → valid_manifest m → canonical_bytes m = Ok body →
  has_object b (content_key "manifests" body) body → published b (sha256_hex body) m.
Proof.
  intros [] Hv Hb Ho. split; [|done|done|by rewrite co_refs0].
  exists body. split; [done|]. rewrite (canonical_roundtrip m body Hb co_version0). by rewrite co_canonical0.
Qed.

Lemma safe_commit c owner repo ps refs head m b :
  let pkey := pointer_key c owner repo in
  collision_free → parent_ok b pkey ps → composed b ps refs head m →
  safe_here (commit pkey ps m) (commit_post pkey ps m) b.
Proof.
  intros pkey Hcf Hps Hco. unfold commit. destruct (validate m) as [[]|e] eqn:Ev; [|done].
  apply validate_iff in Ev. cbn [map_err]. destruct (canonical_bytes m) as [body|e] eqn:Eb; [|done]. cbn [map_err].
  apply safe_bind. eapply safe_mono; [apply safe_put_immutable; [done|]; apply elem_of_cons; right; apply list_elem_of_here|].
  intros b1 [key|e] Hb1 _ Hk; [|done]. destruct (Hk key eq_refl) as [-> Ho]. cbn [map_err].
  assert (digest_from_manifest_key (content_key "manifests" body) = Ok (sha256_hex body)) as ->.
  { unfold digest_from_manifest_key. change (content_key "manifests" body) with ("manifests/" +:+ sha256_hex body).
    by rewrite strip_prefix_app. }
  apply (composed_evolves _ _ _ _ _ _ Hb1) in Hco. apply (parent_ok_evolves _ _ _ _ Hb1) in Hps.
  pose proof (composed_published _ _ _ _ _ _ Hco Ev Eb Ho) as Hpub. apply safe_bind.
  eapply safe_mono; [eapply safe_put_pointer; [exact Hps|exact Hpub|apply Hco]|].
  intros b2 [[tag|]|e] Hb2 _ Hr; [| |done].
  - specialize (Hr tag eq_refl). intros b3 Hb3 _. split; [done|]. exists (sha256_hex body). split; [done|]. split.
    + apply (published_evolves b1); [by trans b2|done].
    + by apply (moved_evolves b2).
  - apply safe_try. eapply safe_mono; [by apply safe_read_winner|]. intros b3 [[w key]|e] _ _ Hw; [|by destruct e].
    intros b4 Hb4 _. by eapply pointed_at_evolves.
Qed.

(** ** Publishing *)

Definition no_conflict {A} (r : result CasError A) : Prop :=
  match r with Err (Conflict _ _) => False | _ => True end.

Lemma snapshot_no_conflict ws : no_conflict (snapshot_workspace_state ws).
Proof.
  unfold snapshot_workspace_state. destruct (for_each_ref ws); [|done]. cbn [map_err]. destruct (_ <? _)%N; [done|].
  assert (∀ ls refs, no_conflict (collect_refs ls refs)) as Hc.
  { induction ls as [|line ls IH]; intros refs; cbn [collect_refs]; [done|].
    destruct (ref_line line) as [[name oid]|]; [|apply IH]. destruct (_ && _); [done|apply IH]. }
  pose proof (Hc (lines (default "" (from_utf8 a))) ∅) as Hcr. destruct (collect_refs _ ∅) as [refs|e]; [|done].
  by destruct (symbolic_ref_head ws).
Qed.

Lemma capture_pack_no_conflict ws before after max : no_conflict (capture_pack ws before after max).
Proof.
  unfold capture_pack. destruct (ref_values after); [done|]. destruct (pack_objects ws _); [|done]. cbn [map_err].
  destruct (_ <? _)%N; [done|]. by destruct (_ =? _)%N.
Qed.

Lemma parse_count_no_conflict output name : no_conflict (parse_count output name).
Proof.
  unfold parse_count. destruct (list_find _ _) as [[i line]|]; [|done]. by destruct (parse_uint _ _).
Qed.

Lemma enforce_no_conflict ws : no_conflict (enforce_compaction_object_limit ws).
Proof.
  unfold enforce_compaction_object_limit. destruct (count_objects ws) as [output|]; [|done]. cbn [map_err].
  destruct (_ <? _)%N; [done|].
  pose proof (parse_count_no_conflict output "count:"). destruct (parse_count output "count:"); [|done].
  pose proof (parse_count_no_conflict output "in-pack:"). destruct (parse_count output "in-pack:"); [|done].
  destruct (_ <? _)%N; [done|]. by destruct (_ <? _)%N.
Qed.

Lemma check_compacted_no_conflict limits total f : no_conflict (check_compacted limits total f).
Proof.
  unfold check_compacted. destruct (cf_pack_len f); [|done]. cbn [map_err]. destruct (_ <? _)%N; [done|].
  destruct (_ <? _)%N; [done|]. destruct (_ <? _)%N; [done|]. destruct (cf_idx_len f); [|done]. cbn [map_err].
  by destruct (_ <? _)%N.
Qed.

Lemma capture_compacted_no_conflict ws refs limits : no_conflict (capture_compacted_packs ws refs limits).
Proof.
  unfold capture_compacted_packs. case_decide; [done|].
  pose proof (enforce_no_conflict ws). destruct (enforce_compaction_object_limit ws); [|done].
  destruct (pack_objects_split _ _ _) as [files|]; [|done]. cbn [map_err]. destruct (_ <? _); [done|].
  generalize 0%N. induction files as [|f files IH]; intros total; cbn [check_compacted_all]; [done|].
  pose proof (check_compacted_no_conflict limits total f). destruct (check_compacted limits total f) as [[n t]|]; [|done].
  specialize (IH t). by destruct (check_compacted_all limits t files) as [[packs t']|].
Qed.

Lemma digest_from_pack_key_no_conflict key : no_conflict (digest_from_pack_key key).
Proof. unfold digest_from_pack_key. destruct (strip_prefix _ key); [|done]. by destruct (is_hex64 _). Qed.

Lemma upload_each_no_conflict packs : rets no_conflict (upload_each packs).
Proof.
  induction packs as [|[f n] packs IH]; cbn [upload_each]; [done|].
  destruct (cf_pack f); [|done]. cbn [map_err]. case_decide; [done|].
  eapply rets_bind; [apply rets_any|]. intros [key|e] _; [|done]. cbn [map_err].
  pose proof (digest_from_pack_key_no_conflict key). destruct (digest_from_pack_key key); [|done].
  eapply rets_bind; [apply rets_any|]. intros _ _. eapply rets_bind; [exact IH|]. by intros [keys|e] Hr.
Qed.

Lemma prepare_compaction_no_conflict ws refs limits n : rets no_conflict (prepare_compaction ws refs limits n).
Proof.
  unfold prepare_compaction. pose proof (capture_compacted_no_conflict ws refs limits).
  destruct (capture_compacted_packs ws refs limits) as [[packs total]|]; [|done].
  destruct (negb _); [done|]. eapply rets_bind; [apply upload_each_no_conflict|]. by intros [keys|e] Hr.
Qed.

Lemma try_compaction_no_conflict env ws refs head ps limits : rets no_conflict (try_compaction env ws refs head ps limits).
Proof.
  unfold try_compaction. destruct (pe_permit env); [|done].
  apply (rets_bind (λ r, ∀ a, r = Some a → no_conflict a)); [|by intros [[keys|e]|] Hr; [|apply (Hr (Err e))|]].
  unfold with_timeout. destruct (pe_timeout env) as [[|n]|]; [done| |].
  - eapply rets_cut; [apply prepare_compaction_no_conflict|by intros x Hx ? [= <-]|done].
  - eapply rets_bind; [apply prepare_compaction_no_conflict|]. by intros x Hx ? [= <-].
Qed.

Lemma delta_manifest_no_conflict ws refs head ps limits failure :
  (∀ e, failure = Some e → no_conflict (Err (A:=unit) e)) →
  rets no_conflict (delta_manifest ws refs head ps limits failure).
Proof.
  intros Hf. unfold delta_manifest. pose proof (capture_pack_no_conflict ws (m_refs (parent ps)) refs (max_pack_bytes limits)).
  destruct (capture_pack _ _ _ _) as [pack|]; [|done]. destruct (_ && _).
  { destruct failure as [e|]; [|done]. exact (Hf e eq_refl). }
  apply (rets_bind no_conflict); [|by intros [k|e]]. destruct pack as [pack|]; [|done].
  apply (rets_bind no_conflict); [|by intros [k|e]]. unfold upload_delta.
  destruct (_ <? _)%N; [done|]. destruct (_ <? _)%N; [done|]. eapply rets_bind; [apply rets_any|].
  intros [key|e] _; [|done]. eapply rets_bind; [apply rets_any|]. done.
Qed.

Lemma next_manifest_no_conflict env threshold ws refs head ps limits :
  rets no_conflict (next_manifest env threshold ws refs head ps limits).
Proof.
  unfold next_manifest. destruct (should_compact _ _); [|by apply delta_manifest_no_conflict].
  eapply rets_bind; [apply try_compaction_no_conflict|]. intros [m|e] Hr; [done|].
  apply delta_manifest_no_conflict. by intros e' [= <-].
Qed.

(** What a publication leaves: on success, exactly the workspace's refs and the
    resolved HEAD, on top of the parent it was given. *)
Definition publish_post (pkey : string) (ps : ParentState) (ws : workspace) (b : bucket) (r : result CasError CasSuccess) : Prop :=
  match r with
  | Ok s => ∃ refs observed digest, snapshot_workspace_state ws = Ok (refs, observed) ∧
      m_refs (cs_manifest s) = refs ∧
      m_head (cs_manifest s) = resolve_published_head refs observed (m_head (parent ps)) ∧
      m_parent (cs_manifest s) = parent_digest ps ∧
      cs_manifest_key s = "manifests/" +:+ digest ∧
      published b digest (cs_manifest s) ∧ moved b pkey (parent_digest ps) digest
  | Err (Conflict winner key) => pointed_at b pkey winner key
  | Err _ => True
  end.

Lemma safe_cas_publish_inner env c ws owner repo ps limits threshold b :
  let pkey := pointer_key c owner repo in
  collision_free → parent_ok b pkey ps →
  safe_here (cas_publish_inner env c ws owner repo ps limits threshold) (publish_post pkey ps ws) b.
Proof.
  intros pkey Hcf Hps. unfold cas_publish_inner. pose proof (snapshot_no_conflict ws) as Hnc.
  destruct (snapshot_workspace_state ws) as [[refs observed]|e] eqn:Es; [|by intros b1 _ _; destruct e].
  pose proof (snapshot_hex _ _ _ Es) as Hh. apply safe_try.
  eapply safe_mono; [apply safe_rets; [|apply next_manifest_no_conflict];
    apply safe_next_manifest; [done|by eapply parent_ok_stored|done]|].
  intros b1 [m|e] Hb1 _ [Hm Hn]; [|by intros b2 _ _; destruct e]. specialize (Hm m eq_refl).
  eapply safe_mono; [eapply safe_commit; [done|by eapply parent_ok_evolves|exact Hm]|].
  intros b2 [s|e] Hb2 _ Hs; [|exact Hs]. destruct Hs as (Hsm & digest & Hk & Hp & Hmv).
  exists refs, observed, digest. rewrite Hsm. destruct Hm. split_and!; done.
Qed.

Definition push_post (p : Push) (b : bucket) (o : PushOutcome) : Prop :=
  let pkey := pointer_key (pu_community p) (pu_owner p) (pu_repo p) in
  match o with
  | Pushed ps ws s => parent_ok b pkey ps ∧ pu_receive p ps = Some ws ∧ publish_post pkey ps ws b (Ok s)
  | PublishFailed ps ws e => parent_ok b pkey ps ∧ pu_receive p ps = Some ws ∧ publish_post pkey ps ws b (Err e)
  | _ => True
  end.

Lemma publish_post_evolves b b' pkey ps ws r :
  evolves b b' → publish_post pkey ps ws b r → publish_post pkey ps ws b' r.
Proof.
  intros Hb. destruct r as [s|e]; simpl.
  - intros (refs & observed & digest & Es & Hr & Hh & Hpar & Hk & Hp & Hm). exists refs, observed, digest.
    split_and!; eauto using published_evolves, moved_evolves.
  - destruct e; [|done..]. by apply pointed_at_evolves.
Qed.

Lemma safe_hydrate_for_write p b :
  collision_free →
  safe_here (hydrate_for_write p)
    (λ b' r, ∀ n ps, r = Ok (n, ps) →
       parent_ok b' (pointer_key (pu_community p) (pu_owner p) (pu_repo p)) ps) b.
Proof.
  intros Hcf. unfold hydrate_for_write. apply safe_try. eapply safe_mono; [by apply safe_load_pointer|].
  intros b1 [[[[tag digest] m]|]|e] _ _ Hl; [| |done].
  - destruct (Hl _ _ _ eq_refl) as [Hv Hp]. intros b2 Hb2 _ n ps. destruct (pu_materialize p m); [|done].
    intros [= <- <-]. exists digest. eauto using version_in_evolves, published_evolves.
  - intros b2 _ _ n ps. destruct (pu_init p); [|done]. by intros [= <- <-].
Qed.

Lemma safe_push p b : collision_free → safe_here (push p) (push_post p) b.
Proof.
  intros Hcf. unfold push. apply safe_bind. eapply safe_mono; [by apply safe_hydrate_for_write|].
  intros b1 [[n ps]|e] _ _ Hps; [|done]. specialize (Hps n ps eq_refl).
  destruct (pu_receive p ps) as [ws|] eqn:Er; [|done]. apply safe_bind.
  eapply safe_mono; [by eapply safe_cas_publish_inner|]. intros b2 r Hb2 _ Hpost b3 Hb3 _.
  apply (publish_post_evolves _ _ _ _ _ _ Hb3) in Hpost.
  assert (parent_ok b3 (pointer_key (pu_community p) (pu_owner p) (pu_repo p)) ps) as Hps3.
  { apply (parent_ok_evolves b1); [by trans b2|done]. }
  by destruct r.
Qed.

Definition empty_bucket (b : bucket) : Prop := ∀ key, s3_versions b key = [].

Lemma empty_store_inv b : empty_bucket b → store_inv b.
Proof.
  intros He. split.
  - intros prefix d body _ [tag Ht]. rewrite He in Ht. by apply not_elem_of_nil in Ht.
  - intros c owner repo. unfold pointer_bodies. by rewrite He.
Qed.

Definition read_post (pkey : string) (b : bucket) (r : result HydrateError (option Manifest)) : Prop :=
  ∀ m, r = Ok (Some m) → ∃ digest, published b digest m ∧ bytes_of_str digest ∈ pointer_bodies b pkey.

Definition job_post (j : Job) (b : bucket) (o : JobOutcome) : Prop :=
  match j, o with
  | JPush p, OPush o => push_post p b o
  | JRead c owner repo, ORead r => read_post (pointer_key c owner repo) b r
  | _, _ => False
  end.

Lemma pointer_body_evolves b b' pkey body : evolves b b' → body ∈ pointer_bodies b pkey → body ∈ pointer_bodies b' pkey.
Proof. unfold pointer_bodies. intros Hb Hin. destruct (Hb pkey) as [l ->]. rewrite fmap_app. apply elem_of_app. by left. Qed.

Lemma push_post_evolves p b b' o : evolves b b' → push_post p b o → push_post p b' o.
Proof.
  intros Hb. destruct o as [| |ps ws e|ps ws s]; [done|done| |]; intros (Hp & Hr & Hpost);
    (split; [by eapply parent_ok_evolves|split; [done|by eapply (publish_post_evolves b)]]).
Qed.

Lemma safe_job j b : collision_free → safe_here (run_job j) (job_post j) b.
Proof.
  intros Hcf. destruct j as [p|c owner repo]; apply safe_bind.
  - eapply safe_mono; [by apply safe_push|]. intros b1 o _ _ Ho b2 Hb2 _. by apply (push_post_evolves _ b1).
  - apply (safe_mono _ _ _ (read_post (pointer_key c owner repo))).
    + unfold load_manifest_for_read. apply safe_try. eapply safe_mono; [by apply safe_load_pointer|].
      intros b1 [[[[tag digest] m]|]|e] _ _ Hl; [| |done].
      * destruct (Hl _ _ _ eq_refl) as [Hv Hp]. intros b2 Hb2 _ m' [= <-]. exists digest.
        split; [by eapply published_evolves|]. apply (pointer_body_evolves b1); [done|].
        apply list_elem_of_fmap. by exists (tag, bytes_of_str digest).
      * by intros b2 _ _ m'.
    + intros b1 r _ _ Hr b2 Hb2 _ m Hm. destruct (Hr m Hm) as (digest & Hp & Hin). exists digest.
      split; [by eapply published_evolves|by eapply pointer_body_evolves].
Qed.

(** Any number of pushes and reads, from an empty bucket. *)
Lemma jobs_safe b0 b ts :
  collision_free → empty_bucket b0 → pool_reachable run_job known (b0, []) (b, ts) →
  store_inv b ∧ ∀ j o, (j, Ret o) ∈ ts → job_post j b o.
Proof.
  intros Hcf He Hr. destruct (pool_safe store_inv known run_job job_post b0 b ts Hr) as (HI & _ & Hts).
  - by apply empty_store_inv.
  - intros j b1 _. by apply safe_job.
  - split; [done|]. intros j o Hin. by apply (Hts j (Ret o) Hin b).
Qed.

(** ** Histories do not repeat *)

(** The digests a pointer has named, oldest first. *)
Definition pointer_digests (b : bucket) (pkey : string) : list string := str_of_bytes <$> pointer_bodies b pkey.

Lemma published_unique b digest m m' :
  collision_free → store_inv b → published b digest m → published b digest m' → m = m'.
Proof.
  intros Hcf HI Hp [(body & Ho & Hf) _ _ _].
  pose proof (manifest_unique _ _ _ _ Hcf HI Hp Ho). congruence.
Qed.

Lemma linear_lookup b prev bodies i body :
  linear b prev bodies → bodies !! i = Some body →
  ∃ digest m, body = bytes_of_str digest ∧ published b digest m ∧
    m_parent m = match i with 0 => prev | S j => str_of_bytes <$> bodies !! j end.
Proof.
  revert prev i. induction bodies as [|x bodies IH]; intros prev i; [by rewrite lookup_nil|].
  intros (d & m & -> & Hp & Hm & Hl). destruct i as [|i]; simpl; [intros [= <-]; by exists d, m|].
  intros Hi. destruct (IH _ _ Hl Hi) as (d' & m' & -> & Hp' & Hm'). exists d', m'. split_and!; [done|done|].
  rewrite Hm'. destruct i; [|done]. simpl. by rewrite String.string_of_list_byte_of_string.
Qed.

(** The parent of a digest is the digest before it. *)
Lemma digest_parent b c owner repo i digest :
  store_inv b → pointer_digests b (pointer_key c owner repo) !! i = Some digest →
  ∃ m, published b digest m ∧
    m_parent m = match i with 0 => None | S j => pointer_digests b (pointer_key c owner repo) !! j end.
Proof.
  intros HI Hi. unfold pointer_digests in *. apply list_lookup_fmap_Some in Hi as (body & -> & Hb).
  destruct (linear_lookup _ _ _ _ _ (si_pointer b HI c owner repo) Hb) as (d & m & -> & Hp & Hm).
  rewrite String.string_of_list_byte_of_string. exists m. split; [done|]. rewrite Hm.
  destruct i; [done|]. by rewrite list_lookup_fmap.
Qed.

Lemma digests_NoDup b c owner repo :
  collision_free → store_inv b → NoDup (pointer_digests b (pointer_key c owner repo)).
Proof.
  intros Hcf HI. set (ds := pointer_digests _ _).
  assert (∀ i j d, i < j → ds !! i = Some d → ds !! j = Some d → False) as Hne.
  { induction i as [|i IH]; intros j d Hlt Hi Hj;
      destruct (digest_parent b c owner repo _ _ HI Hi) as (m & Hp & Hm);
      destruct (digest_parent b c owner repo _ _ HI Hj) as (m' & Hp' & Hm');
      rewrite (published_unique _ _ _ _ Hcf HI Hp Hp') in Hm; rewrite Hm in Hm'; fold ds in Hm'; (destruct j as [|j]; [lia|]).
    - destruct (lookup_lt_is_Some_2 ds j) as [x Hx]; [apply lookup_lt_Some in Hj; lia|]. congruence.
    - destruct (lookup_lt_is_Some_2 ds i) as [x Hx]; [apply lookup_lt_Some in Hi; lia|].
      apply (IH j x); [lia|done|congruence]. }
  apply NoDup_alt. intros i j d Hi Hj. destruct (Nat.lt_trichotomy i j) as [?|[?|?]]; [|done|]; exfalso; eauto.
Qed.

(** C1: Concurrent pushes never fork or lose an update.  Start from an empty bucket
    and interleave, request by request, any number of pushes and reads, with
    requests that fail before or after taking effect and programs that stop at any
    point.  Provided no two uploaded bodies collide under SHA-256, the digests a
    repository's pointer has named form one line: each names a stored, valid
    manifest whose packs are stored and cover everything reachable from its refs,
    its parent is the digest named just before it, and no digest ever comes back,
    so an entity tag identifies one position of the history. *)
Theorem pushes_never_fork b0 b ts c owner repo :
  collision_free → empty_bucket b0 → pool_reachable run_job known (b0, []) (b, ts) →
  let ds := pointer_digests b (pointer_key c owner repo) in
  NoDup ds ∧
  ∀ i digest, ds !! i = Some digest →
    ∃ m, published b digest m ∧ m_parent m = match i with 0 => None | S j => ds !! j end.
Proof.
  intros Hcf He Hr ds. destruct (jobs_safe _ _ _ Hcf He Hr) as [HI _]. split; [by apply digests_NoDup|].
  intros i digest Hi. by apply digest_parent.
Qed.

(** C14: A push that reports success is in the history.  In any such execution, a push
    that ended with success has put the pointer on a manifest with exactly the
    workspace's refs, right after the manifest its workspace was built from; HEAD is
    one of the published branches as soon as there is one. *)
Theorem push_success_committed b0 b ts p ps ws s :
  collision_free → empty_bucket b0 → pool_reachable run_job known (b0, []) (b, ts) →
  (JPush p, Ret (OPush (Pushed ps ws s))) ∈ ts →
  let pkey := pointer_key (pu_community p) (pu_owner p) (pu_repo p) in
  let m := cs_manifest s in
  ∃ refs observed digest i,
    pu_receive p ps = Some ws ∧ snapshot_workspace_state ws = Ok (refs, observed) ∧
    m_refs m = refs ∧ cs_manifest_key s = "manifests/" +:+ digest ∧ published b digest m ∧
    pointer_digests b pkey !! i = Some digest ∧
    parent_digest ps = match i with 0 => None | S j => pointer_digests b pkey !! j end ∧
    (∀ d, parent_digest ps = Some d → published b d (parent ps)) ∧
    ∀ branch, is_published_branch refs branch = true → is_published_branch refs (m_head m) = true.
Proof.
  intros Hcf He Hr Hin pkey m. destruct (jobs_safe _ _ _ Hcf He Hr) as [HI Hpost].
  destruct (Hpost _ _ Hin) as (Hps & Hrec & refs & observed & digest & Es & Hrefs & Hhead & Hpar & Hk & Hp & before & after & Eb & Ht).
  exists refs, observed, digest, (length before). split_and!; try done.
  - unfold pointer_digests, pkey. rewrite Eb, fmap_app, lookup_app_r; rewrite length_fmap; [|done].
    rewrite Nat.sub_diag. simpl. by rewrite String.string_of_list_byte_of_string.
  - rewrite <-Ht. unfold tip, pointer_digests, pkey. rewrite Eb, fmap_app.
    destruct before as [|x l _] using rev_ind; [done|]. rewrite last_snoc, length_app, Nat.add_comm. simpl.
    rewrite lookup_app_l by (rewrite length_fmap, length_app; simpl; lia).
    rewrite fmap_app, lookup_app_r; rewrite length_fmap; [|done]. by rewrite Nat.sub_diag.
  - intros d Hd. unfold parent_ok in Hps. destruct (if_match ps) as [tag|].
    + destruct Hps as (d' & Hd' & _ & Hp'). congruence.
    + rewrite Hps in Hd. discriminate.
  - intros branch Hb. unfold m. rewrite Hhead. by eapply published_head_branch.
Qed.

(** What readers and losers see.  A read that returns a manifest, and a push that
    reports a conflict with a winner, name a manifest the pointer has named: valid,
    with every pack it refers to stored, and the packs cover its refs. *)
Theorem observed_state_published b0 b ts :
  collision_free → empty_bucket b0 → pool_reachable run_job known (b0, []) (b, ts) →
  (∀ c owner repo m, (JRead c owner repo, Ret (ORead (Ok (Some m)))) ∈ ts →
     ∃ digest, digest ∈ pointer_digests b (pointer_key c owner repo) ∧ published b digest m) ∧
  (∀ p ps ws winner key, (JPush p, Ret (OPush (PublishFailed ps ws (Conflict winner key)))) ∈ ts →
     ∃ digest, digest ∈ pointer_digests b (pointer_key (pu_community p) (pu_owner p) (pu_repo p)) ∧
       key = "manifests/" +:+ digest ∧ published b digest winner).
Proof.
  intros Hcf He Hr. destruct (jobs_safe _ _ _ Hcf He Hr) as [HI Hpost].
  assert (∀ pkey digest, bytes_of_str digest ∈ pointer_bodies b pkey → digest ∈ pointer_digests b pkey) as Hd.
  { intros pkey digest Hin. apply list_elem_of_fmap. exists (bytes_of_str digest).
    by rewrite String.string_of_list_byte_of_string. }
  split.
  - intros c owner repo m Hin. destruct (Hpost _ _ Hin m eq_refl) as (digest & Hp & Hb). eauto.
  - intros p ps ws winner key Hin. destruct (Hpost _ _ Hin) as (_ & _ & digest & -> & Hp & Hb). eauto.
Qed.

(** A successful push always counts as a change.  The next manifest records its
    parent's digest, so it is never the parent's bytes again: the comparison of the
    two digests after the commit finds a change even when the push changed no ref. *)
Theorem every_push_changes_manifest b0 b ts p ps ws s :
  collision_free → empty_bucket b0 → pool_reachable run_job known (b0, []) (b, ts) →
  (JPush p, Ret (OPush (Pushed ps ws s))) ∈ ts → manifest_changed ps s = true.
Proof.
  intros Hcf He Hr Hin. destruct (jobs_safe _ _ _ Hcf He Hr) as [HI Hpost].
  destruct (Hpost _ _ Hin) as (Hps & _ & refs & observed & digest & _ & _ & _ & Hpar & Hk & Hp & before & after & Eb & Ht).
  unfold manifest_changed. destruct (parent_digest ps) as [d|] eqn:Ed; [|done]. rewrite Hk, strip_prefix_app.
  apply bool_decide_eq_true. intros ->. pose proof (digests_NoDup b (pu_community p) (pu_owner p) (pu_repo p) Hcf HI) as Hnd.
  unfold pointer_digests in Hnd. rewrite Eb, fmap_app in Hnd. apply NoDup_app in Hnd as (_ & Hnd & _).
  unfold tip in Ht. destruct (last before) as [x|] eqn:El; [|done]. injection Ht as Ht. apply (Hnd digest).
  - apply list_elem_of_fmap. exists x. split; [done|]. apply last_Some in El as [l ->].
    apply elem_of_app. right. apply list_elem_of_here.
  - simpl. rewrite String.string_of_list_byte_of_string. apply list_elem_of_here.
Qed.

End invariant.

(** ** The order of the writes *)

Section order.
Context {NA : NostrApi} {S3 : S3Api} {SH : Sha256Hex} {MJ : ManifestJson} {GA : GitApi}.

Definition not_pointer (pkey : string) (call : s3_call) : Prop :=
  match call with PutObject key _ _ => key ≠ pkey | _ => True end.

(** Errors that are reported before the commit. *)
Definition pre_commit (e : CasError) : bool :=
  match e with ManifestInvalid _ | PackCapture _ | CasResourceLimit _ => true | _ => false end.

Section before_commit.
Context (c : CommunityId) (owner repo : string).

Abbreviation quiet := (only (not_pointer (pointer_key c owner repo))) (only parsing).

Lemma quiet_put_pack body : quiet (put_pack body).
Proof. by split. Qed.

Lemma quiet_put_manifest body : quiet (put_manifest body).
Proof. by split. Qed.

Lemma quiet_put_idx digest body : quiet (put_idx digest body).
Proof. unfold put_idx, idx_key_for_pack_digest. by destruct (is_hex64 digest). Qed.

Lemma quiet_get_pointer key : quiet (get_pointer key).
Proof. by split. Qed.

Lemma quiet_get_verified key digest : quiet (get_verified key digest).
Proof. split; [done|]. intros r. by destruct r as [resp|e]; [|simpl; destruct (is_status 404 e)]. Qed.

Lemma quiet_upload_each packs : quiet (upload_each packs).
Proof.
  induction packs as [|[f n] packs IH]; cbn [upload_each]; [done|]. destruct (cf_pack f); [|done]. cbn [map_err].
  case_decide; [done|]. apply only_bind; [apply quiet_put_pack|]. intros [key|e]; [|done]. cbn [map_err].
  destruct (digest_from_pack_key key); [|done]. apply only_bind.
  - destruct (cf_idx f); [|done]. apply only_bind; [apply quiet_put_idx|done].
  - intros _. apply only_bind; [done|]. by intros [keys|e].
Qed.

Lemma quiet_try_compaction env ws refs head ps limits : quiet (try_compaction env ws refs head ps limits).
Proof.
  unfold try_compaction. destruct (pe_permit env); [|done]. apply only_bind; [|done].
  set (p := prepare_compaction _ _ _ _). assert (quiet p) as Hp.
  { unfold p, prepare_compaction. destruct (capture_compacted_packs ws refs limits) as [[packs total]|]; [|done].
    destruct (negb _); [done|]. apply only_bind; [apply quiet_upload_each|]. by intros [keys|e]. }
  unfold with_timeout. destruct (pe_timeout env) as [[|n]|]; [done|by apply only_cut|by apply only_bind].
Qed.

Lemma quiet_delta_manifest ws refs head ps limits failure : quiet (delta_manifest ws refs head ps limits failure).
Proof.
  unfold delta_manifest. destruct (capture_pack _ _ _ _) as [pack|]; [|done]. destruct (_ && _); [done|].
  apply only_bind; [|by intros [k|e]]. destruct pack as [pack|]; [|done]. apply only_bind; [|by intros [k|e]].
  unfold upload_delta. destruct (_ <? _)%N; [done|]. destruct (_ <? _)%N; [done|].
  apply only_bind; [apply quiet_put_pack|]. intros [key|e]; [|done]. cbn [map_err]. apply only_bind; [|done].
  unfold write_idx_sidecar. destruct (digest_from_pack_key key); [|done]. destruct (index_pack pack); [|done].
  apply only_bind; [apply quiet_put_idx|done].
Qed.

Lemma quiet_next_manifest env threshold ws refs head ps limits :
  quiet (next_manifest env threshold ws refs head ps limits).
Proof.
  unfold next_manifest. destruct (should_compact _ _); [|apply quiet_delta_manifest].
  apply only_bind; [apply quiet_try_compaction|]. intros [m|e]; [done|apply quiet_delta_manifest].
Qed.

Lemma quiet_read_winner key : quiet (read_winner_after_conflict key).
Proof.
  apply only_bind; [apply quiet_get_pointer|]. intros [[[tag body]|]|e]; [|done|done]. cbn [map_err].
  destruct (from_utf8 body); [|done]. destruct (negb _); [done|]. apply only_bind; [apply quiet_get_verified|done].
Qed.

Lemma read_winner_errors key :
  rets (λ r, ∀ e, r = Err e → pre_commit e = false) (read_winner_after_conflict key).
Proof.
  eapply rets_bind; [apply rets_any|]. intros [[[tag body]|]|e] _; cbn [map_err]; [|by intros ? [= <-]..].
  destruct (from_utf8 body); [|by intros ? [= <-]]. destruct (negb _); [by intros ? [= <-]|].
  eapply rets_bind; [apply rets_any|]. intros [x|e] _ e'; cbn [map_err].
  - by destruct (from_bytes x); [|intros [= <-]].
  - intros [= <-]. by destruct e.
Qed.

End before_commit.

(** The pointer is written last and at most once.  Whatever the object store
    answers, a publication sends no PUT of the pointer when it ends with an invalid
    manifest, a failed pack capture or an exceeded limit; when it succeeds, its last
    two requests are the create-only PUT of the canonical manifest bytes and the
    conditional PUT of their digest under the pointer, predicated on the entity tag
    the push loaded; in every other case the pointer was written at most once. *)
Theorem pointer_written_last env c ws owner repo ps limits :
  let pkey := pointer_key c owner repo in
  logs (λ log r,
    match r with
    | Ok s => ∃ before body, log = before ++ [PutObject (cs_manifest_key s) body IfNoneMatchStar;
                                              PutObject pkey (bytes_of_str (sha256_hex body)) (commit_precond ps)] ∧
        Forall (not_pointer pkey) before ∧ canonical_bytes (cs_manifest s) = Ok body ∧
        cs_manifest_key s = "manifests/" +:+ sha256_hex body
    | Err e => Forall (not_pointer pkey) log ∨
        pre_commit e = false ∧ ∃ before call after, log = before ++ call :: after ∧
          Forall (not_pointer pkey) before ∧ Forall (not_pointer pkey) after
    end) [] (cas_publish env c ws owner repo ps limits).
Proof.
  intros pkey. unfold cas_publish, cas_publish_inner. destruct (snapshot_workspace_state ws) as [[refs observed]|e]; [|by left].
  eapply logs_bind; [apply quiet_next_manifest|apply rets_any|]. intros l0 [m|e] Hl0 _; [|by left].
  unfold commit. destruct (validate m); [|by left]. cbn [map_err].
  destruct (canonical_bytes m) as [body|e] eqn:Eb; [|by left]. cbn [map_err].
  intros r. cbn [mbind prog_mbind prog_bind request].
  destruct (create_only (content_key "manifests" body) r) as [key|e] eqn:Ek; cbn [map_err]; [|left; apply Forall_app; by split; [|constructor]].
  assert (key = "manifests/" +:+ sha256_hex body) as ->.
  { unfold create_only in Ek. destruct r as [resp|e]; [destruct (is_success _)|destruct (is_status 412 e)]; by inversion Ek. }
  change (content_key "manifests" body) with ("manifests/" +:+ sha256_hex body).
  unfold digest_from_manifest_key. rewrite strip_prefix_app. set (log1 := _ ++ [_]). fold pkey. fold (commit_precond ps).
  assert (Forall (not_pointer pkey) log1) as Hl1 by (apply Forall_app; by split; [|constructor]).
  unfold put_pointer. destruct (negb _); [by left|]. intros r'. cbn [mbind prog_mbind prog_bind request].
  destruct (classify_cas r') as [[tag|]|e]; cbn [map_err].
  - exists ([] ++ l0), body. split_and!; [|done..]. unfold log1. by rewrite <-app_assoc.
  - eapply logs_bind; [apply quiet_read_winner|apply read_winner_errors|]. intros l2 [[w k]|e] Hl2 He; right.
    + split; [done|]. exists log1, (PutObject pkey (bytes_of_str (sha256_hex body)) (commit_precond ps)), l2. split_and!; [|done..]. by rewrite <-app_assoc.
    + split; [by apply He|]. exists log1, (PutObject pkey (bytes_of_str (sha256_hex body)) (commit_precond ps)), l2. split_and!; [|done..]. by rewrite <-app_assoc.
  - right. split; [done|]. by exists log1, (PutObject pkey (bytes_of_str (sha256_hex body)) (commit_precond ps)), [].
Qed.

(** *** How many requests *)

Lemma bounded_put_immutable prefix body : bounded 1 (put_immutable prefix body).
Proof. done. Qed.

Lemma bounded_put_idx digest body : bounded 1 (put_idx digest body).
Proof. unfold put_idx, idx_key_for_pack_digest. by destruct (is_hex64 digest). Qed.

Lemma bounded_upload_each packs : bounded (2 * length packs) (upload_each packs).
Proof.
  induction packs as [|[f n] packs IH]; cbn [upload_each]; [done|]. destruct (cf_pack f); [|done]. cbn [map_err].
  case_decide; [done|]. replace (2 * length ((f, n) :: packs)) with (1 + (1 + (2 * length packs + 0))) by (simpl; lia).
  apply bounded_bind; [done|]. intros [key|e]; [|done]. cbn [map_err].
  destruct (digest_from_pack_key key); [|done]. apply bounded_bind.
  - destruct (cf_idx f); [|done]. apply (bounded_bind 1 0); [apply bounded_put_idx|done].
  - intros _. apply bounded_bind; [done|]. by intros [keys|e].
Qed.

Lemma capture_compacted_length ws refs limits packs total :
  capture_compacted_packs ws refs limits = Ok (packs, total) → length packs ≤ MAX_MANIFEST_PACKS.
Proof.
  unfold capture_compacted_packs. case_decide; [intros [= <- _]; simpl; lia|].
  destruct (enforce_compaction_object_limit ws); [|done].
  destruct (pack_objects_split _ _ _) as [files|]; [|done]. cbn [map_err].
  destruct (Nat.ltb_spec MAX_MANIFEST_PACKS (length files)); [done|]. intros Hc%check_compacted_all_files.
  rewrite <-(length_fmap fst packs), Hc. lia.
Qed.

Lemma bounded_try_compaction env ws refs head ps limits :
  bounded (2 * MAX_MANIFEST_PACKS) (try_compaction env ws refs head ps limits).
Proof.
  unfold try_compaction. destruct (pe_permit env); [|done]. rewrite <-(Nat.add_0_r (2 * MAX_MANIFEST_PACKS)).
  apply bounded_bind; [|done]. set (p := prepare_compaction _ _ _ _). assert (bounded (2 * MAX_MANIFEST_PACKS) p) as Hp.
  { unfold p, prepare_compaction. destruct (capture_compacted_packs ws refs limits) as [[packs total]|] eqn:Ec; [|done].
    apply capture_compacted_length in Ec. destruct (negb _); [done|]. rewrite <-(Nat.add_0_r (2 * MAX_MANIFEST_PACKS)).
    apply bounded_bind; [|by intros [keys|e]]. eapply bounded_mono; [|apply bounded_upload_each]. lia. }
  unfold with_timeout. destruct (pe_timeout env) as [[|n]|]; [done|by apply bounded_cut|].
  rewrite <-(Nat.add_0_r (2 * MAX_MANIFEST_PACKS)). by apply bounded_bind.
Qed.

Lemma bounded_delta_manifest ws refs head ps limits failure : bounded 2 (delta_manifest ws refs head ps limits failure).
Proof.
  unfold delta_manifest. destruct (capture_pack _ _ _ _) as [pack|]; [|done]. destruct (_ && _); [done|].
  apply (bounded_bind 2 0); [|by intros [k|e]]. destruct pack as [pack|]; [|done]. apply (bounded_bind 2 0); [|by intros [k|e]].
  unfold upload_delta. destruct (_ <? _)%N; [done|]. destruct (_ <? _)%N; [done|].
  apply (bounded_bind 1 1); [done|]. intros [key|e]; [|done]. cbn [map_err]. apply (bounded_bind 1 0); [|done].
  unfold write_idx_sidecar. destruct (digest_from_pack_key key); [|done]. destruct (index_pack pack); [|done].
  apply (bounded_bind 1 0); [apply bounded_put_idx|done].
Qed.

Lemma bounded_next_manifest env threshold ws refs head ps limits :
  bounded (2 * MAX_MANIFEST_PACKS + 2) (next_manifest env threshold ws refs head ps limits).
Proof.
  unfold next_manifest. destruct (should_compact _ _); [|eapply bounded_mono; [|apply bounded_delta_manifest]; lia].
  apply bounded_bind; [apply bounded_try_compaction|]. intros [m|e]; [done|apply bounded_delta_manifest].
Qed.

Lemma bounded_get_verified key digest : bounded 1 (get_verified key digest).
Proof. intros [resp|e]; [done|]. simpl. by destruct (is_status 404 e). Qed.

Lemma bounded_get_verified_limited key digest max : bounded 2 (get_verified_limited key digest max).
Proof.
  apply (bounded_bind 2 0); [|by intros [x|e]]. apply (bounded_bind 1 1); [done|]. intros r.
  destruct (map_err _ r) as [[len status]|]; [|done]. destruct (status =? 404)%N; [done|].
  destruct (negb _); [done|]. destruct (match len with Some _ => _ | None => _ end); [done|].
  apply (bounded_bind 1 0); [done|]. intros [x|e]; [|done]. simpl. by destruct (max <? N.of_nat (length x))%N.
Qed.

Lemma bounded_commit pkey ps m : bounded 4 (commit pkey ps m).
Proof.
  unfold commit. destruct (validate m); [|done]. cbn [map_err]. destruct (canonical_bytes m); [|done]. cbn [map_err].
  apply (bounded_bind 1 3); [done|]. intros [key|e]; [|done]. cbn [map_err].
  destruct (digest_from_manifest_key key); [|done]. apply (bounded_bind 1 2).
  - unfold put_pointer. by destruct (negb _).
  - intros [[tag|]|e]; [done| |done]. apply (bounded_bind 2 0); [|by intros [[w k]|e]].
    apply (bounded_bind 1 1); [done|]. intros [[[tag body]|]|e]; [|done|done]. cbn [map_err].
    destruct (from_utf8 body); [|done]. destruct (negb _); [done|].
    apply (bounded_bind 1 0); [apply bounded_get_verified|done].
Qed.

Lemma bounded_load_pointer c owner repo : bounded 3 (load_pointer c owner repo).
Proof.
  apply (bounded_bind 1 2); [done|]. intros [[[tag body]|]|e]; [|done|done]. cbn [map_err].
  destruct (from_utf8 body); [|done]. destruct (negb _); [done|].
  apply (bounded_bind 2 0); [apply bounded_get_verified_limited|done].
Qed.

(** The requests of one push: load, compaction, delta pack, commit. *)
Definition push_requests : nat := 3 + 2 * MAX_MANIFEST_PACKS + 2 + 4.

(** Every push ends.  Whatever the object store answers, a push ends after at most
    three requests to load the parent, two for each of at most 128 compacted packs,
    two for a delta pack, and four to commit. *)
Theorem push_ends p : logs (λ log _, length log ≤ push_requests) [] (push p).
Proof.
  apply (bounded_logs (3 + (2 * MAX_MANIFEST_PACKS + 2 + 4 + 0))); [|unfold push_requests; simpl length; lia].
  apply bounded_bind.
  - apply (bounded_bind 3 0); [apply bounded_load_pointer|]. by intros [[[[tag digest] m]|]|e].
  - intros [[n ps]|e]; [|done]. destruct (pu_receive p ps) as [ws|]; [|done]. apply bounded_bind; [|done].
    unfold cas_publish, cas_publish_inner. destruct (snapshot_workspace_state ws) as [[refs observed]|e]; [|done].
    apply bounded_bind; [apply bounded_next_manifest|]. intros [m|e]; [apply bounded_commit|done].
Qed.

End order.

(** ** A concrete store *)

Module GitHistoryDemo.

(** A bucket keeps the bodies of each key; the entity tag is the body itself. *)
Abbreviation objects := (gmap string (list bytes)) (only parsing).

Inductive Wire := Fine | ReplyLost (applied : bool).

Definition versions (b : objects) (key : string) : list (string * bytes) :=
  (λ body, (str_of_bytes body, body)) <$> default [] (b !! key).

Definition holds (b : objects) (key : string) (p : Precond) : bool :=
  match p, last (versions b key) with
  | IfNoneMatchStar, None => true
  | IfMatch tag, Some (tag', _) => bool_decide (tag' = tag)
  | _, _ => false
  end.

Definition put (b : objects) (key : string) (body : bytes) : objects := <[key := default [] (b !! key) ++ [body]]> b.

Definition response (body : bytes) : ResponseData := mkResponse 200 {["etag" := str_of_bytes body]} body.

Definition exec (w : Wire) (b : objects) (c : s3_call) : s3_reply c * objects :=
  match c with
  | GetObject key =>
      (match w, last (versions b key) with
       | Fine, Some (_, body) => Ok (response body)
       | Fine, None => Err (HttpFailWithBody 404 "NoSuchKey")
       | ReplyLost _, _ => Err (S3Transport "connection reset")
       end, b)
  | HeadObject key =>
      (match w, last (versions b key) with
       | Fine, Some (_, body) => Ok (Some (Z.of_nat (length body)), 200%N)
       | Fine, None => Err (HttpFailWithBody 404 "NoSuchKey")
       | ReplyLost _, _ => Err (S3Transport "connection reset")
       end, b)
  | PutObject key body p =>
      let ok := holds b key p in
      match w with
      | Fine => if ok then (Ok (response body), put b key body) else (Err (HttpFailWithBody 412 "PreconditionFailed"), b)
      | ReplyLost applied => (Err (S3Transport "connection reset"), if applied && ok then put b key body else b)
      end
  end.

#[global] Instance toy_s3 : S3Api := {|
  bucket := objects;
  s3_wire := Wire;
  s3_versions := versions;
  s3_exec := exec;
  header_value_ok := λ _, true
|}.

Lemma versions_put b key body key' :
  versions (put b key body) key' = versions b key' ++ if decide (key' = key) then [(str_of_bytes body, body)] else [].
Proof.
  unfold versions, put. rewrite lookup_insert. case_decide as E; [subst key'|].
  - rewrite decide_True by done. simpl. by rewrite fmap_app.
  - rewrite decide_False by congruence. by rewrite app_nil_r.
Qed.

Lemma toy_holds_iff b key p : holds b key p = true ↔ precond_holds b key p.
Proof.
  unfold holds, precond_holds, s3_current. cbn [s3_versions toy_s3].
  destruct p as [|tag], (last (versions b key)) as [[tag' body]|]; simpl; try by split.
  rewrite bool_decide_eq_true. split; [by intros ->|by intros [= ->]].
Qed.

#[global] Instance toy_s3_laws : S3Laws toy_s3.
Proof.
  split; cbn [s3_exec s3_versions toy_s3 bucket].
  - by intros w b key.
  - by intros w b key.
  - intros w b key resp. unfold s3_current. cbn [s3_versions toy_s3 exec fst].
    destruct w; [|done]. destruct (last (versions b key)) as [[tag body]|] eqn:El; [|done]. intros [= <-].
    exists tag. split; [done|]. intros h. vm_compute header_etag. intros [= <-].
    apply last_Some in El as [l El]. assert ((tag, body) ∈ versions b key) as Hin.
    { rewrite El. apply elem_of_app. right. apply list_elem_of_here. }
    unfold versions in Hin. apply list_elem_of_fmap in Hin as (x & [= -> ->] & _). done.
  - intros w b key e. unfold s3_current. cbn [s3_versions toy_s3 exec fst].
    destruct w; [|by intros [= <-]]. destruct (last (versions b key)) as [[tag body]|]; done.
  - intros w b key body p. cbn [exec]. destruct (holds b key p) eqn:Eh.
    + assert (precond_holds b key p ∧ ∃ tag, stored b (put b key body) key body tag) as Hst.
      { split; [by apply toy_holds_iff|]. exists (str_of_bytes body). intros k. apply versions_put. }
      destruct w as [|[]]; [by right|by right|by left].
    + left. by destruct w as [|[]].
  - intros w b key body p resp. cbn [exec]. destruct w; [|done]. destruct (holds b key p) eqn:Eh; [|done].
    intros [= <-] _. split; [by apply toy_holds_iff|]. exists (str_of_bytes body). split; [intros k; apply versions_put|].
    intros h. vm_compute header_etag. by intros [= <-].
  - intros w b key body p e. cbn [exec]. destruct w; [|by intros [= <-]].
    destruct (holds b key p) eqn:Eh; [done|]. intros _ _. rewrite <-toy_holds_iff. cbn [snd]. congruence.
  - intros b key tag x y. unfold versions. intros (x' & [= -> ->] & _)%list_elem_of_fmap (y' & [= E ->] & _)%list_elem_of_fmap.
    apply (f_equal bytes_of_str) in E. by rewrite !String.list_byte_of_string_of_list_byte in E.
Qed.

(** A hash of 64 hex digits. *)
#[global] Instance toy_hash : Sha256Hex := λ b, hex_digits 64 (le_value b `mod` (2 ^ 61 - 1)).

#[global] Instance toy_hash_laws : Sha256HexLaws toy_hash.
Proof.
  intros b. unfold sha256_hex, toy_hash. generalize (le_value b `mod` (2 ^ 61 - 1))%N. intros n.
  unfold is_manifest_digest. rewrite hex_digits_length, hex_digits_all by done. done.
Qed.

(** git: the packs are the lists of tips, and a tip reaches only itself. *)
Record Work := mkWork { w_refs : string; w_head : string }.

#[global] Instance toy_git : GitApi := {|
  workspace := Work;
  for_each_ref := λ ws, Ok (bytes_of_str (w_refs ws));
  symbolic_ref_head := λ ws, Ok (Some (bytes_of_str (w_head ws)));
  count_objects := λ _, Ok (unlines ["count: 3"; "in-pack: 4"]);
  pack_objects := λ _ stdin, Ok (bytes_of_str stdin);
  pack_objects_split := λ _ stdin _,
    Ok [mkCompactFile (Ok (N.of_nat (String.length stdin))) (Ok 1%N) (Ok (bytes_of_str stdin)) (Ok [])];
  index_pack := λ pack, Ok [];
  git_reach := λ tip o, bool_decide (tip = o);
  pack_has := λ pack o, bool_decide (o ∈ lines (str_of_bytes pack))
|}.

#[global] Instance toy_git_laws : GitLaws toy_git.
Proof.
  split; cbn [pack_objects pack_objects_split git_reach pack_has toy_git].
  - intros ws stdin pack tip o [= <-] Hin ->%bool_decide_eq_true _. apply bool_decide_eq_true.
    by rewrite String.string_of_list_byte_of_string.
  - intros ws stdin max files tip o [= <-] Hin ->%bool_decide_eq_true. eexists. split; [apply list_elem_of_here|].
    intros pack [= <-]. apply bool_decide_eq_true. by rewrite String.string_of_list_byte_of_string.
  - intros o. apply bool_decide_eq_false. apply not_elem_of_nil.
Qed.

(** A codec that knows the manifests of the run below. *)
Definition oid (c : ascii) : string := String.string_of_list_ascii (repeat c 40).
Definition branch_line (name : string) (c : ascii) : string := "refs/heads/" +:+ name +:+ " " +:+ oid c.

Definition pack_a : bytes := bytes_of_str (unlines [oid "a"]).
Definition pack_b : bytes := bytes_of_str (unlines [oid "b"; "^" +:+ oid "a"]).
Definition pack_c : bytes := bytes_of_str (unlines [oid "c"; "^" +:+ oid "a"]).

Definition first_manifest : Manifest :=
  mkManifest 1 "refs/heads/main" {["refs/heads/main" := oid "a"]} [content_key "packs" pack_a] None.
Definition next (c : ascii) (pack : bytes) : Manifest :=
  mkManifest 1 "refs/heads/main" {["refs/heads/main" := oid c]}
    (sort_dedup [content_key "packs" pack_a; content_key "packs" pack])
    (Some (sha256_hex [Byte.x01])).

Definition table : list Manifest := [first_manifest; next "b" pack_b; next "c" pack_c].

#[global] Instance manifest_eq_dec : EqDecision Manifest.
Proof. solve_decision. Defined.

#[global] Instance toy_json : ManifestJson := {|
  manifest_to_json := λ m,
    match list_find (λ m', m' = m) table with
    | Some (i, _) => Ok [byte_of_N (N.of_nat (S i))]
    | None => Err "unsupported"
    end;
  manifest_from_json := λ b,
    match b with
    | [x] => match table !! pred (N.to_nat (Byte.to_N x)) with Some m => Ok m | None => Err "unsupported" end
    | _ => Err "unsupported"
    end
|}.

#[global] Instance toy_json_laws : ManifestJsonLaws toy_json.
Proof.
  split. intros m b. cbn [manifest_to_json manifest_from_json toy_json].
  destruct (list_find _ table) as [[i m']|] eqn:Ef; [|done]. intros [= <-].
  apply list_find_Some in Ef as (Hi & -> & _). pose proof (lookup_lt_Some _ _ _ Hi) as Hlt. simpl in Hlt.
  assert (pred (N.to_nat (Byte.to_N (byte_of_N (N.of_nat (S i))))) = i) as ->; [|by rewrite Hi].
  rewrite byte_of_N_to_N, N.mod_small by lia. lia.
Qed.
(** Two pushes race on top of a first one; a third program reads. *)
Definition work (c : ascii) : Work := mkWork (unlines [branch_line "main" c]) "refs/heads/main".

Definition push_of (c : ascii) : Push :=
  mkPush 1 "alice" "proj.git" (mkEnv (Ok tt) None) 1000000 1000000 (Ok tt) (λ _, Ok 0%N) (λ _, Some (work c)).

Definition uploads : list bytes :=
  [pack_a; pack_b; pack_c; []; [Byte.x01]; [Byte.x02]; [Byte.x03]]
  ++ (bytes_of_str ∘ sha256_hex <$> [[Byte.x01]; [Byte.x02]; [Byte.x03]]).

Inductive Move := MStart (j : Job) | MCall (i : nat) (w : Wire) | MDrop (i : nat).

Definition move (m : Move) (st : objects * list (Job * io JobOutcome)) : option (objects * list (Job * io JobOutcome)) :=
  match m with
  | MStart j => Some (st.1, (j, run_job j) :: st.2)
  | MCall i w =>
      match st.2 !! i with
      | Some (j, Act c k) =>
          if match c with PutObject _ body _ => bool_decide (body ∈ uploads) | _ => true end
          then Some ((exec w st.1 c).2, <[i := (j, k (exec w st.1 c).1)]> st.2)
          else None
      | _ => None
      end
  | MDrop i => Some (st.1, delete i st.2)
  end.

Fixpoint moves (ms : list Move) (st : objects * list (Job * io JobOutcome)) : option (objects * list (Job * io JobOutcome)) :=
  match ms with [] => Some st | m :: ms => st' ← move m st; moves ms st' end.

Lemma moves_reachable ms st st' : moves ms st = Some st' → pool_reachable run_job (λ x, x ∈ uploads) st st'.
Proof.
  revert st. induction ms as [|m ms IH]; intros [b ts]; cbn [moves]; [intros [= <-]; constructor|].
  destruct (move m (b, ts)) as [st1|] eqn:Em; [|done]. intros Hms. eapply rtc_l; [|by apply IH].
  destruct m as [j|i w|i]; cbn [move fst snd] in Em.
  - injection Em as <-. constructor.
  - destruct (ts !! i) as [[j [a|c k]]|] eqn:Ei; [done| |done]. destruct (match c with PutObject _ _ _ => _ | _ => _ end) eqn:Ek; [|done].
    injection Em as <-. apply (@pool_call toy_s3 Job JobOutcome run_job (λ x, x ∈ uploads) b ts i j c k w Ei). destruct c; [done|done|]. by apply bool_decide_eq_true in Ek.
  - injection Em as <-. constructor.
Qed.

Lemma uploads_distinct : collision_free (λ x, x ∈ uploads).
Proof.
  assert (forallb (λ x, forallb (λ y, bool_decide (sha256_hex x = sha256_hex y → x = y)) uploads) uploads = true) as H
    by (vm_compute; reflexivity).
  rewrite forallb_forall in H. intros x y Hx Hy. rewrite list_elem_of_In in Hx, Hy. specialize (H x Hx).
  rewrite forallb_forall in H. specialize (H y Hy). by apply bool_decide_eq_true in H.
Qed.

Definition fine (i n : nat) : list Move := repeat (MCall i Fine) n.

(** The first push; then [b] loads, [c] loads, [c] commits, [b] loses; then a read. *)
Definition race : list Move :=
  MStart (JPush (push_of "a")) :: fine 0 5 ++
  [MStart (JPush (push_of "b"))] ++ fine 0 4 ++
  [MStart (JPush (push_of "c"))] ++ fine 0 7 ++ fine 1 5 ++
  [MStart (JRead 1 "alice" "proj")] ++ fine 0 3.

Definition final : objects * list (Job * io JobOutcome) := default (∅, []) (moves race (∅, [])).

Lemma race_reachable : pool_reachable run_job (λ x, x ∈ uploads) (∅, []) (final.1, final.2).
Proof.
  rewrite <-surjective_pairing. apply (moves_reachable race). unfold final.
  destruct (moves race (∅, [])) eqn:E; [done|].
  assert (bool_decide (is_Some (moves race (∅, []))) = true) as H by (vm_compute; reflexivity).
  rewrite E in H. done.
Qed.

Definition proj : string := pointer_key 1 "alice" "proj.git".

Example race_history :
  pointer_digests final.1 proj = [sha256_hex [Byte.x01]; sha256_hex [Byte.x03]].
Proof. vm_compute. reflexivity. Qed.

Definition outcomes : list (option JobOutcome) := (λ t : Job * io JobOutcome, match t.2 with Ret o => Some o | Act _ _ => None end) <$> final.2.

Definition parent_b : ParentState :=
  from_loaded (sha256_hex [Byte.x01]) (sha256_hex [Byte.x01]) first_manifest.

Example race_outcomes :
  outcomes = [Some (ORead (Ok (Some (next "c" pack_c))));
              Some (OPush (Pushed parent_b (work "c") (mkSuccess (next "c" pack_c) ("manifests/" +:+ sha256_hex [Byte.x03]))));
              Some (OPush (PublishFailed parent_b (work "b") (Conflict (next "c" pack_c) ("manifests/" +:+ sha256_hex [Byte.x03]))));
              Some (OPush (Pushed fresh (work "a") (mkSuccess first_manifest ("manifests/" +:+ sha256_hex [Byte.x01]))))].
Proof. vm_compute. reflexivity. Qed.

Lemma empty_toy : empty_bucket (∅ : objects).
Proof. intros key. unfold s3_versions. simpl. unfold versions. by rewrite lookup_empty. Qed.

Definition success_c : CasSuccess := mkSuccess (next "c" pack_c) ("manifests/" +:+ sha256_hex [Byte.x03]).

Lemma race_c : (JPush (push_of "c"), Ret (OPush (Pushed parent_b (work "c") success_c))) ∈ final.2.
Proof. apply (list_elem_of_lookup_2 _ 1). vm_compute. reflexivity. Qed.

Lemma race_read : (JRead 1 "alice" "proj", Ret (ORead (Ok (Some (next "c" pack_c))))) ∈ final.2.
Proof. apply (list_elem_of_lookup_2 _ 0). vm_compute. reflexivity. Qed.

Lemma pushes_never_fork_witness :
  NoDup (pointer_digests final.1 proj) ∧ length (pointer_digests final.1 proj) = 2.
Proof.
  split; [|vm_compute; reflexivity].
  apply (pushes_never_fork (S3:=toy_s3) (λ x, x ∈ uploads) ∅ final.1 final.2 1 "alice" "proj.git" uploads_distinct empty_toy race_reachable).
Defined.

Lemma push_success_committed_witness :
  ∃ refs observed, snapshot_workspace_state (work "c") = Ok (refs, observed) ∧ m_refs (next "c" pack_c) = refs.
Proof.
  destruct (push_success_committed (S3:=toy_s3) (λ x, x ∈ uploads) ∅ final.1 final.2 (push_of "c") parent_b (work "c") success_c
              uploads_distinct empty_toy race_reachable race_c) as (refs & observed & digest & i & _ & Hs & Hr & _).
  exists refs, observed. exact (conj Hs Hr).
Defined.

Lemma observed_state_published_witness :
  ∃ digest, digest ∈ pointer_digests final.1 (pointer_key 1 "alice" "proj") ∧ published final.1 digest (next "c" pack_c).
Proof.
  apply (proj1 (observed_state_published (S3:=toy_s3) (λ x, x ∈ uploads) ∅ final.1 final.2 uploads_distinct empty_toy race_reachable)).
  exact race_read.
Defined.

Lemma every_push_changes_manifest_witness : manifest_changed parent_b success_c = true.
Proof.
  apply (every_push_changes_manifest (S3:=toy_s3) (λ x, x ∈ uploads) ∅ final.1 final.2 (push_of "c") parent_b (work "c") success_c
           uploads_distinct empty_toy race_reachable race_c).
Defined.

(** A lost reply to the pointer PUT: the push reports a backend error, yet the
    pointer has moved. *)
Definition lost : objects * list (Job * io JobOutcome) :=
  default (∅, []) (moves (MStart (JPush (push_of "a")) :: fine 0 4 ++ [MCall 0 (ReplyLost true)]) (∅, [])).

Example failed_push_may_be_published :
  (λ t : Job * io JobOutcome, match t.2 with Ret o => Some o | Act _ _ => None end) <$> lost.2 !! 0 =
    Some (Some (OPush (PublishFailed fresh (work "a") (CasBackend (Backend (S3Transport "connection reset")))))) ∧
  pointer_digests lost.1 proj = [sha256_hex [Byte.x01]].
Proof. split; vm_compute; reflexivity. Qed.

(** Refs whose listing is not UTF-8 are dropped without an error. *)
Example non_utf8_refs_are_dropped :
  collect_refs (lines (default "" (from_utf8 (bytes_of_str (branch_line "main" "a") ++ [Byte.xff])))) ∅ = Ok ∅.
Proof. vm_compute. reflexivity. Qed.

End GitHistoryDemo.
