(* ===== verification/Filter.v ===== *)
(** * NIP-01 filter matching ([buzz-core/src/filter.rs], [event.rs])

    [StoredEvent] wraps a Nostr event with the channel the relay resolved for
    it; [filters_match] decides whether a subscription's filters select it and
    [reader_authorized_for_event] guards the kinds that are private to one
    reader. *)

From stdpp Require Import base gmap strings list.
From S2P Require Import Prelude Nostr.

(** ** Data *)

Record StoredEvent := mkStored {
  event : NostrEvent;
  received_at : Z;
  channel_id : option Uuid;
  verified : bool
}.

Definition KIND_DM_VISIBILITY : Z := 30622.
Definition KIND_AGENT_TURN_METRIC : Z := 44200.

Section filter.
Context `{NostrApi}.

(** ** Operations *)

Definition event_kind_u32 (e : NostrEvent) : Z := ev_kind e.

Definition stored_event_new (now : Z) (e : NostrEvent) (ch : option Uuid) : StoredEvent :=
  {| event := e; received_at := now; channel_id := ch; verified := false |}.

(** The closure of the generic-tag loop: some value of the filter equals the
    content of some tag of that kind. *)
Definition tag_has_match (ev : StoredEvent) (key : string) (values : list string) : bool :=
  existsb (λ filter_val,
    existsb (λ t, bool_decide (tag_kind t = key) &&
                  bool_decide (tag_content t = Some filter_val))
            (ev_tags (event ev))) values.

(** One round of the generic-tag loop: [false] is the early return. *)
Definition generic_tag_ok (ev : StoredEvent) (entry : SingleLetterTag * list string) : bool :=
  let '(tag_key, tag_values) := entry in
  let tag_key_str := slt_to_string tag_key in
  let has_match := tag_has_match ev tag_key_str tag_values in
  if negb has_match && bool_decide (tag_key_str = "h") then
    let event_has_h_tags := existsb (λ t, bool_decide (tag_kind t = "h")) (ev_tags (event ev)) in
    if negb event_has_h_tags then
      match channel_id ev with
      | Some ch_id =>
          if negb (existsb (λ v, bool_decide (v = uuid_to_string ch_id)) tag_values)
          then false else true
      | None => false
      end
    else false
  else if negb has_match then false
  else true.

Definition filter_match_one (f : NostrFilter) (ev : StoredEvent) : bool :=
  match f_kinds f with
  | Some kinds => bool_decide (ev_kind (event ev) ∈ kinds)
  | None => true
  end &&
  match f_authors f with
  | Some authors => bool_decide (ev_pubkey (event ev) ∈ authors)
  | None => true
  end &&
  match f_since f with
  | Some since => negb (ev_created_at (event ev) <? since)%Z
  | None => true
  end &&
  match f_until f with
  | Some until => negb (ev_created_at (event ev) >? until)%Z
  | None => true
  end &&
  match f_ids f with
  | Some ids => existsb (λ id, starts_with (id_to_hex id) (id_to_hex (ev_id (event ev)))) ids
  | None => true
  end &&
  forallb (generic_tag_ok ev) (f_generic_tags f).

Definition filters_match (filters : list NostrFilter) (ev : StoredEvent) : bool :=
  existsb (λ f, filter_match_one f ev) filters.

Definition reader_authorized_for_event (e : NostrEvent) (reader_pubkey_hex : string) : bool :=
  let kind := event_kind_u32 e in
  if negb (kind =? KIND_DM_VISIBILITY)%Z && negb (kind =? KIND_AGENT_TURN_METRIC)%Z then true
  else existsb (λ t, bool_decide (tag_content t = Some reader_pubkey_hex))
               (List.filter (tag_is_letter p_tag) (ev_tags e)).

(** ** Specification *)

(** Some tag of kind [key] of the event carries [v]. *)
Definition carries (ev : StoredEvent) (key v : string) : Prop :=
  ∃ t, t ∈ ev_tags (event ev) ∧ tag_kind t = key ∧ tag_content t = Some v.

(** The channel fallback of [#h]: an event with no [h] tag at all stands for
    the channel the relay resolved. *)
Definition h_fallback (ev : StoredEvent) (values : list string) : Prop :=
  (∀ t, t ∈ ev_tags (event ev) → tag_kind t ≠ "h") ∧
  ∃ ch, channel_id ev = Some ch ∧ uuid_to_string ch ∈ values.

(** NIP-01: the fields of one filter are a conjunction. *)
Definition selects (f : NostrFilter) (ev : StoredEvent) : Prop :=
  (∀ ks, f_kinds f = Some ks → ev_kind (event ev) ∈ ks) ∧
  (∀ au, f_authors f = Some au → ev_pubkey (event ev) ∈ au) ∧
  (∀ t, f_since f = Some t → (t ≤ ev_created_at (event ev))%Z) ∧
  (∀ t, f_until f = Some t → (ev_created_at (event ev) ≤ t)%Z) ∧
  (∀ ids, f_ids f = Some ids → ∃ id, id ∈ ids ∧
      starts_with (id_to_hex id) (id_to_hex (ev_id (event ev))) = true) ∧
  (∀ l vs, (l, vs) ∈ f_generic_tags f →
      (∃ v, v ∈ vs ∧ carries ev (slt_to_string l) v) ∨
      (slt_to_string l = "h" ∧ h_fallback ev vs)).

(** ** Lemmas *)

Lemma tag_has_match_iff ev key vs :
  tag_has_match ev key vs = true ↔ ∃ v, v ∈ vs ∧ carries ev key v.
Proof.
  unfold tag_has_match, carries. rewrite existsb_elem_of.
  setoid_rewrite existsb_elem_of. setoid_rewrite andb_true_iff.
  setoid_rewrite bool_decide_eq_true. naive_solver.
Qed.

Lemma no_h_tags_iff ev :
  existsb (λ t, bool_decide (tag_kind t = "h")) (ev_tags (event ev)) = false ↔
  ∀ t, t ∈ ev_tags (event ev) → tag_kind t ≠ "h".
Proof.
  rewrite <-not_true_iff_false, existsb_elem_of.
  setoid_rewrite bool_decide_eq_true. naive_solver.
Qed.

Lemma generic_tag_ok_iff ev l vs :
  generic_tag_ok ev (l, vs) = true ↔
    (∃ v, v ∈ vs ∧ carries ev (slt_to_string l) v) ∨
    (slt_to_string l = "h" ∧ h_fallback ev vs).
Proof.
  unfold generic_tag_ok, h_fallback. rewrite <-no_h_tags_iff, <-tag_has_match_iff.
  destruct (tag_has_match ev _ vs) eqn:Hm; simpl; [naive_solver|].
  case_bool_decide as Hh; [|naive_solver].
  destruct (existsb _ (ev_tags _)) eqn:Ht; simpl; [naive_solver|].
  destruct (channel_id ev) as [ch|] eqn:Hc; [|naive_solver].
  destruct (existsb _ vs) eqn:Hv; simpl.
  - apply existsb_elem_of in Hv as (v & Hv & ->%bool_decide_eq_true). naive_solver.
  - rewrite <-not_true_iff_false, existsb_elem_of in Hv.
    setoid_rewrite bool_decide_eq_true in Hv. naive_solver.
Qed.

Lemma filter_match_one_iff f ev : filter_match_one f ev = true ↔ selects f ev.
Proof.
  unfold filter_match_one, selects. rewrite !andb_true_iff, forallb_elem_of.
  assert ((∀ x, x ∈ f_generic_tags f → generic_tag_ok ev x = true) ↔
          (∀ l vs, (l, vs) ∈ f_generic_tags f →
            (∃ v, v ∈ vs ∧ carries ev (slt_to_string l) v) ∨
            (slt_to_string l = "h" ∧ h_fallback ev vs))) as ->.
  { setoid_rewrite <-generic_tag_ok_iff. split; [auto|]. intros Hg [l vs]. apply Hg. }
  destruct (f_kinds f), (f_authors f), (f_since f), (f_until f), (f_ids f);
    rewrite ?bool_decide_eq_true, ?negb_true_iff, ?Z.ltb_ge, ?Z.gtb_ltb, ?Z.ltb_ge,
      ?existsb_elem_of; naive_solver.
Qed.

Lemma filters_match_iff fs ev :
  filters_match fs ev = true ↔ ∃ f, f ∈ fs ∧ selects f ev.
Proof.
  unfold filters_match. rewrite existsb_elem_of.
  by setoid_rewrite filter_match_one_iff.
Qed.

(** ** Properties *)

(** [filters_match] is the disjunction over the filters of the conjunction
    of their constraints, the [#h] fallback to the resolved channel included. *)
Theorem filters_match_spec fs ev :
  filters_match fs ev = true ↔ ∃ f, f ∈ fs ∧ selects f ev.
Proof. apply filters_match_iff. Qed.

(** an event of a result-gated kind is readable exactly by the pubkeys its
    [p] tags name; every other kind is readable by all. *)
Theorem reader_authorized_spec {laws : NostrLaws _} e reader :
  reader_authorized_for_event e reader = true ↔
    ((ev_kind e = KIND_DM_VISIBILITY ∨ ev_kind e = KIND_AGENT_TURN_METRIC) →
     ∃ t, t ∈ ev_tags e ∧ tag_kind t = "p" ∧ tag_content t = Some reader).
Proof.
  unfold reader_authorized_for_event, event_kind_u32.
  destruct (Z.eqb_spec (ev_kind e) KIND_DM_VISIBILITY) as [Hk|Hk];
    destruct (Z.eqb_spec (ev_kind e) KIND_AGENT_TURN_METRIC) as [Hk'|Hk']; simpl;
    [..|naive_solver].
  all: rewrite existsb_elem_of; setoid_rewrite list_elem_of_In; setoid_rewrite filter_In;
    setoid_rewrite tag_is_p; setoid_rewrite bool_decide_eq_true; naive_solver.
Qed.

End filter.

(** ** Witnesses *)

Lemma reader_authorized_spec_witness :
  reader_authorized_for_event (mkEvent 1 2 100 KIND_DM_VISIBILITY [["p"; "alice"]] "") "alice" = true.
Proof.
  apply (reader_authorized_spec (mkEvent 1 2 100 KIND_DM_VISIBILITY [["p"; "alice"]] "") "alice").
  intros _. exists ["p"; "alice"]. split; [left|]. by split.
Defined.
