(* ===== verification/Subscription.v ===== *)
(** * The subscription registry ([buzz-relay/src/subscription.rs])

    The relay keeps every live subscription in [subs] and, beside it, five
    in-memory indexes that let [fan_out_scoped] visit only the candidates of
    an event.  This file models the registry operation by operation, states
    what it promises as a plain map from (connection, subscription id) to
    entry, and proves that the indexed registry implements that map. *)

From stdpp Require Import base gmap strings list.
From S2P Require Import Prelude Nostr Filter.

(** ** Data *)

Inductive SubscriptionScope :=
| Global
| Channels (channels : list Uuid).

Definition matches_channel (scope : SubscriptionScope) (ch : option Uuid) : bool :=
  match scope, ch with
  | Global, None => true
  | Channels channels, Some ch_id => bool_decide (ch_id ∈ channels)
  | _, _ => false
  end.

Definition channel_ids (scope : SubscriptionScope) : list Uuid :=
  match scope with
  | Global => []
  | Channels channels => channels
  end.

Definition is_global (scope : SubscriptionScope) : bool :=
  match scope with Global => true | Channels _ => false end.

(** Filters, server-resolved community, routing scope. *)
Abbreviation SubEntry := (list NostrFilter * CommunityId * SubscriptionScope)%type.

Record IndexKey := mkIndexKey { ik_channel_id : Uuid; ik_kind : Kind }.

Record GlobalPKindIndexKey := mkGlobalPKind {
  gp_community_id : CommunityId;
  gp_kind : Kind;
  gp_p : string
}.

#[global] Instance index_key_eq_dec : EqDecision IndexKey.
Proof. solve_decision. Defined.

#[global] Program Instance index_key_countable : Countable IndexKey :=
  inj_countable' (λ k, (ik_channel_id k, ik_kind k)) (λ p, mkIndexKey p.1 p.2) _.
Next Obligation. by intros []. Qed.

#[global] Instance global_p_kind_eq_dec : EqDecision GlobalPKindIndexKey.
Proof. solve_decision. Defined.

#[global] Program Instance global_p_kind_countable : Countable GlobalPKindIndexKey :=
  inj_countable' (λ k, (gp_community_id k, gp_kind k, gp_p k))
                 (λ p, mkGlobalPKind p.1.1 p.1.2 p.2) _.
Next Obligation. by intros []. Qed.

Record RemovedSubscription := mkRemoved {
  rm_community_id : CommunityId;
  rm_scope : SubscriptionScope
}.

Record ChannelSubscriptionUpdate := mkUpdate {
  up_sub_id : SubId;
  up_removed : bool
}.

(** The vectors of (connection, subscription id) the indexes hold. *)
Abbreviation Entries := (list (ConnId * SubId)).

(** [active_gauge] is the value of the [buzz_subscriptions_active] gauge. *)
Record SubscriptionRegistry := mkRegistry {
  subs : gmap ConnId (gmap SubId SubEntry);
  channel_kind_index : gmap (CommunityId * IndexKey) Entries;
  channel_wildcard_index : gmap (CommunityId * Uuid) Entries;
  global_kind_index : gmap (CommunityId * Kind) Entries;
  global_p_kind_index : gmap GlobalPKindIndexKey Entries;
  global_wildcard_index : gmap CommunityId Entries;
  active_gauge : Z
}.

Definition registry_new : SubscriptionRegistry :=
  mkRegistry ∅ ∅ ∅ ∅ ∅ ∅ 0.

(** Field updates. *)
Definition set_subs f (r : SubscriptionRegistry) :=
  mkRegistry (f (subs r)) (channel_kind_index r) (channel_wildcard_index r)
    (global_kind_index r) (global_p_kind_index r) (global_wildcard_index r) (active_gauge r).
Definition set_channel_kind f (r : SubscriptionRegistry) :=
  mkRegistry (subs r) (f (channel_kind_index r)) (channel_wildcard_index r)
    (global_kind_index r) (global_p_kind_index r) (global_wildcard_index r) (active_gauge r).
Definition set_channel_wildcard f (r : SubscriptionRegistry) :=
  mkRegistry (subs r) (channel_kind_index r) (f (channel_wildcard_index r))
    (global_kind_index r) (global_p_kind_index r) (global_wildcard_index r) (active_gauge r).
Definition set_global_kind f (r : SubscriptionRegistry) :=
  mkRegistry (subs r) (channel_kind_index r) (channel_wildcard_index r)
    (f (global_kind_index r)) (global_p_kind_index r) (global_wildcard_index r) (active_gauge r).
Definition set_global_p_kind f (r : SubscriptionRegistry) :=
  mkRegistry (subs r) (channel_kind_index r) (channel_wildcard_index r)
    (global_kind_index r) (f (global_p_kind_index r)) (global_wildcard_index r) (active_gauge r).
Definition set_global_wildcard f (r : SubscriptionRegistry) :=
  mkRegistry (subs r) (channel_kind_index r) (channel_wildcard_index r)
    (global_kind_index r) (global_p_kind_index r) (f (global_wildcard_index r)) (active_gauge r).
Definition add_gauge (d : Z) (r : SubscriptionRegistry) :=
  mkRegistry (subs r) (channel_kind_index r) (channel_wildcard_index r)
    (global_kind_index r) (global_p_kind_index r) (global_wildcard_index r)
    (active_gauge r + d).

(** [index.entry(k).or_default().push(e)]. *)
Definition index_push {K} `{Countable K} (k : K) (e : ConnId * SubId) (m : gmap K Entries) :
    gmap K Entries :=
  <[k := default [] (m !! k) ++ [e]]> m.

(** [if let Some(entries) = index.get_mut(k) { entries.retain(..);
    if entries.is_empty() { index.remove(k) } }]. *)
Definition index_retain {K} `{Countable K} (k : K) (e : ConnId * SubId) (m : gmap K Entries) :
    gmap K Entries :=
  match m !! k with
  | None => m
  | Some entries =>
      match filter (λ x, x ≠ e) entries with
      | [] => delete k m
      | entries' => <[k := entries']> m
      end
  end.

(** The community's entry of a vector index, [[]] when absent. *)
Definition idx {K} `{Countable K} (m : gmap K Entries) (k : K) : Entries := default [] (m !! k).

Definition lookup_sub (r : SubscriptionRegistry) (conn : ConnId) (sub : SubId) : option SubEntry :=
  subs r !! conn ≫= λ conn_subs, conn_subs !! sub.

Section subscription.
Context `{NostrApi}.
Context `{!MapIter N} `{!MapIter string} `{!MapIter (N * IndexKey)}.

(** ** Operations *)

Fixpoint extract_kinds_loop (st : gset Kind * list Kind) (filters : list NostrFilter) :
    option (list Kind) :=
  match filters with
  | [] => Some st.2
  | f :: filters' =>
      match f_kinds f with
      | Some filter_kinds => extract_kinds_loop (seen_push_all st filter_kinds) filters'
      | None => None
      end
  end.

Definition extract_kinds_from_filters (filters : list NostrFilter) : option (list Kind) :=
  extract_kinds_loop (∅, []) filters.

Fixpoint extract_global_p_loop (community : CommunityId)
    (st : gset GlobalPKindIndexKey * list GlobalPKindIndexKey) (filters : list NostrFilter) :
    option (list GlobalPKindIndexKey) :=
  match filters with
  | [] => Some st.2
  | f :: filters' =>
      match f_kinds f with
      | None => None
      | Some [] => extract_global_p_loop community st filters'
      | Some kinds =>
          match generic_tags_get p_tag (f_generic_tags f) with
          | None => None
          | Some [] => None
          | Some p_values =>
              extract_global_p_loop community
                (seen_push_all st
                   (kinds ≫= λ kind, (λ p, mkGlobalPKind community kind p) <$> p_values))
                filters'
          end
      end
  end.

Definition extract_global_p_kind_index_keys (community : CommunityId)
    (filters : list NostrFilter) : option (list GlobalPKindIndexKey) :=
  extract_global_p_loop community (∅, []) filters.

Definition event_p_tag_values (ev : StoredEvent) : list string :=
  (foldl (λ st t,
     if negb (bool_decide (tag_kind t = "p")) then st
     else match tag_content t with
          | Some value => seen_push st value
          | None => st
          end)
   (∅ : gset string, [] : list string) (ev_tags (event ev))).2.

(** The indexing half of [register_with_scope]. *)
Definition add_to_index (conn_id : ConnId) (sub_id : SubId) (filters : list NostrFilter)
    (community_id : CommunityId) (scope : SubscriptionScope) (r : SubscriptionRegistry) :
    SubscriptionRegistry :=
  let e := (conn_id, sub_id) in
  match scope with
  | Channels chs =>
      foldl (λ r ch_id,
        match extract_kinds_from_filters filters with
        | None => set_channel_wildcard (index_push (community_id, ch_id) e) r
        | Some [] => r
        | Some kinds =>
            foldl (λ r kind,
              set_channel_kind (index_push (community_id, mkIndexKey ch_id kind) e) r) r kinds
        end) r chs
  | Global =>
      match extract_global_p_kind_index_keys community_id filters with
      | Some keys => foldl (λ r key, set_global_p_kind (index_push key e) r) r keys
      | None =>
          match extract_kinds_from_filters filters with
          | None => set_global_wildcard (index_push community_id e) r
          | Some [] => r
          | Some kinds =>
              foldl (λ r kind, set_global_kind (index_push (community_id, kind) e) r) r kinds
          end
      end
  end.

Definition remove_from_index (conn_id : ConnId) (sub_id : SubId) (filters : list NostrFilter)
    (community_id : CommunityId) (scope : SubscriptionScope) (r : SubscriptionRegistry) :
    SubscriptionRegistry :=
  let e := (conn_id, sub_id) in
  match scope with
  | Channels chs =>
      foldl (λ r ch_id,
        match extract_kinds_from_filters filters with
        | None => set_channel_wildcard (index_retain (community_id, ch_id) e) r
        | Some [] => r
        | Some kinds =>
            foldl (λ r kind,
              set_channel_kind (index_retain (community_id, mkIndexKey ch_id kind) e) r) r kinds
        end) r chs
  | Global =>
      match extract_global_p_kind_index_keys community_id filters with
      | Some keys => foldl (λ r key, set_global_p_kind (index_retain key e) r) r keys
      | None =>
          match extract_kinds_from_filters filters with
          | None => set_global_wildcard (index_retain community_id e) r
          | Some [] => r
          | Some kinds =>
              foldl (λ r kind, set_global_kind (index_retain (community_id, kind) e) r) r kinds
          end
      end
  end.

Definition remove_subscription (conn_id : ConnId) (sub_id : SubId) (r : SubscriptionRegistry) :
    option RemovedSubscription * SubscriptionRegistry :=
  match subs r !! conn_id with
  | None => (None, r)
  | Some conn_subs =>
      match conn_subs !! sub_id with
      | None => (None, r)
      | Some (filters, community_id, scope) =>
          let r1 := set_subs (<[conn_id := delete sub_id conn_subs]>) r in
          let r2 := remove_from_index conn_id sub_id filters community_id scope r1 in
          (Some (mkRemoved community_id scope), add_gauge (-1) r2)
      end
  end.

Definition register_with_scope (community_id : CommunityId) (conn_id : ConnId) (sub_id : SubId)
    (filters : list NostrFilter) (scope : SubscriptionScope) (r : SubscriptionRegistry) :
    option RemovedSubscription * SubscriptionRegistry :=
  let '(removed, r1) := remove_subscription conn_id sub_id r in
  let conn_subs := default ∅ (subs r1 !! conn_id) in
  let r2 := set_subs (<[conn_id := <[sub_id := (filters, community_id, scope)]> conn_subs]>) r1 in
  let r3 := add_gauge 1 r2 in
  (removed, add_to_index conn_id sub_id filters community_id scope r3).

Definition register_scoped (community_id : CommunityId) (conn_id : ConnId) (sub_id : SubId)
    (filters : list NostrFilter) (ch : option Uuid) (r : SubscriptionRegistry) :
    option RemovedSubscription * SubscriptionRegistry :=
  let scope := match ch with Some c => Channels [c] | None => Global end in
  register_with_scope community_id conn_id sub_id filters scope r.

Definition register_channels_scoped (community_id : CommunityId) (conn_id : ConnId)
    (sub_id : SubId) (filters : list NostrFilter) (chs : list Uuid) (r : SubscriptionRegistry) :
    option RemovedSubscription * SubscriptionRegistry :=
  register_with_scope community_id conn_id sub_id filters (Channels chs) r.

Definition remove_connection (conn_id : ConnId) (r : SubscriptionRegistry) :
    list RemovedSubscription * SubscriptionRegistry :=
  match subs r !! conn_id with
  | None => ([], r)
  | Some conn_subs =>
      let r1 := set_subs (delete conn_id) r in
      let '(removed, r2) :=
        foldl (λ '(removed, r) '(sub_id, (filters, community_id, scope)),
          (removed ++ [mkRemoved community_id scope],
           remove_from_index conn_id sub_id filters community_id scope r))
        ([], r1) (hiter conn_subs) in
      (removed, add_gauge (- Z.of_nat (size conn_subs)) r2)
  end.

(** The loop of [remove_channel_subscriptions_scoped] over the collected ids:
    the first [None] is the [break], the others are the [continue]s. *)
Fixpoint remove_channel_loop (community_id : CommunityId) (conn_id : ConnId) (ch : Uuid)
    (sub_ids : list SubId) (updates : list ChannelSubscriptionUpdate)
    (r : SubscriptionRegistry) :
    list ChannelSubscriptionUpdate * SubscriptionRegistry :=
  match sub_ids with
  | [] => (updates, r)
  | sub_id :: sub_ids' =>
      match subs r !! conn_id with
      | None => (updates, r)
      | Some conn_subs =>
          match conn_subs !! sub_id with
          | Some (filters, sub_community, Channels chs) =>
              let chs' := filter (λ c, c ≠ ch) chs in
              let removed := bool_decide (chs' = []) in
              let r1 := set_subs
                (<[conn_id := <[sub_id := (filters, sub_community, Channels chs')]> conn_subs]>) r in
              let r2 := remove_from_index conn_id sub_id filters community_id (Channels [ch]) r1 in
              let r3 := if removed
                then add_gauge (-1) (set_subs (<[conn_id := delete sub_id conn_subs]>) r2)
                else r2 in
              remove_channel_loop community_id conn_id ch sub_ids'
                (updates ++ [mkUpdate sub_id removed]) r3
          | _ => remove_channel_loop community_id conn_id ch sub_ids' updates r
          end
      end
  end.

(** The ids whose entry names the community and the channel. *)
Definition channel_sub_ids (community_id : CommunityId) (conn_id : ConnId) (ch : Uuid)
    (r : SubscriptionRegistry) : list SubId :=
  match subs r !! conn_id with
  | None => []
  | Some conn_subs =>
      omap (λ '(sub_id, (_, sub_community_id, scope)),
        if bool_decide (sub_community_id = community_id) && bool_decide (ch ∈ channel_ids scope)
        then Some sub_id else None) (hiter conn_subs)
  end.

Definition remove_channel_subscriptions_scoped (community_id : CommunityId) (conn_id : ConnId)
    (ch : Uuid) (r : SubscriptionRegistry) :
    list ChannelSubscriptionUpdate * SubscriptionRegistry :=
  remove_channel_loop community_id conn_id ch (channel_sub_ids community_id conn_id ch r) [] r.

Definition channel_subscriber_conns_scoped (community_id : CommunityId) (ch : Uuid)
    (r : SubscriptionRegistry) : list ConnId :=
  let conns := foldl (λ conns '(key, entries),
      if bool_decide (key.1 = community_id) && bool_decide (ik_channel_id key.2 = ch)
      then list_to_set entries.*1 ∪ conns else conns)
    (∅ : gset ConnId) (hiter (channel_kind_index r)) in
  let conns := match channel_wildcard_index r !! (community_id, ch) with
    | Some entries => list_to_set entries.*1 ∪ conns
    | None => conns
    end in
  elements conns.

(** The accumulator of [fan_out_scoped]: the [seen] set and the results. *)
Abbreviation FanOut := (gset (ConnId * SubId) * list (ConnId * SubId))%type.

Definition push_match (r : SubscriptionRegistry) (community_id : CommunityId) (ev : StoredEvent)
    (st : FanOut) (candidate : ConnId * SubId) : FanOut :=
  match lookup_sub r candidate.1 candidate.2 with
  | Some (filters, sub_community_id, scope) =>
      if bool_decide (sub_community_id = community_id)
         && matches_channel scope (channel_id ev)
         && filters_match filters ev
      then seen_push st candidate else st
  | None => st
  end.

Definition push_matches (r : SubscriptionRegistry) (community_id : CommunityId) (ev : StoredEvent)
    (candidates : option Entries) (st : FanOut) : FanOut :=
  match candidates with
  | Some cs => foldl (push_match r community_id ev) st cs
  | None => st
  end.

Definition fan_out_scoped (r : SubscriptionRegistry) (community_id : CommunityId)
    (ev : StoredEvent) : list (ConnId * SubId) :=
  let kind := ev_kind (event ev) in
  let st := (∅, []) in
  (match channel_id ev with
   | Some ch =>
       let st := push_matches r community_id ev
         (channel_kind_index r !! (community_id, mkIndexKey ch kind)) st in
       push_matches r community_id ev (channel_wildcard_index r !! (community_id, ch)) st
   | None =>
       let st := foldl (λ st p, push_matches r community_id ev
           (global_p_kind_index r !! mkGlobalPKind community_id kind p) st)
         st (event_p_tag_values ev) in
       let st := push_matches r community_id ev
         (global_kind_index r !! (community_id, kind)) st in
       push_matches r community_id ev (global_wildcard_index r !! community_id) st
   end).2.

Definition get_filters (r : SubscriptionRegistry) (conn_id : ConnId) (sub_id : SubId) :
    option (list NostrFilter) :=
  (λ e : SubEntry, e.1.1) <$> lookup_sub r conn_id sub_id.

Definition total_subscriptions (r : SubscriptionRegistry) : nat :=
  sum_list ((λ e : _ * gmap SubId SubEntry, size e.2) <$> hiter (subs r)).

Definition total_connections (r : SubscriptionRegistry) : nat := size (subs r).

Definition per_community_subscriptions (r : SubscriptionRegistry) : gmap CommunityId Z :=
  foldl (λ counts '(_, conn_subs),
    foldl (λ counts '(_, (_, community_id, _)),
        <[community_id := (default 0 (counts !! community_id) + 1)%Z]> counts)
      counts (hiter conn_subs)) ∅ (hiter (subs r)).

(** ** Specification

    What the registry promises: a map from (connection, subscription id) to
    entry.  [abs] reads that map off the nested one. *)

Definition abs (r : SubscriptionRegistry) : gmap (ConnId * SubId) SubEntry :=
  map_uncurry (M1 := gmap ConnId) (M2 := gmap SubId) (M12 := gmap (ConnId * SubId)) (subs r).

(** An entry is selected by an event of a community. *)
Definition entry_selected (community_id : CommunityId) (ev : StoredEvent) (e : SubEntry) : Prop :=
  e.1.2 = community_id ∧ matches_channel e.2 (channel_id ev) = true ∧
  filters_match e.1.1 ev = true.

#[global] Instance entry_selected_dec community_id ev e :
  Decision (entry_selected community_id ev e).
Proof. unfold entry_selected. apply _. Defined.

(** All index keys in one type, and the vector stored under each. *)
Inductive AnyKey :=
| KChannelKind (k : CommunityId * IndexKey)
| KChannelWildcard (k : CommunityId * Uuid)
| KGlobalKind (k : CommunityId * Kind)
| KGlobalPKind (k : GlobalPKindIndexKey)
| KGlobalWildcard (k : CommunityId).

Definition raw_entries (r : SubscriptionRegistry) (key : AnyKey) : option Entries :=
  match key with
  | KChannelKind k => channel_kind_index r !! k
  | KChannelWildcard k => channel_wildcard_index r !! k
  | KGlobalKind k => global_kind_index r !! k
  | KGlobalPKind k => global_p_kind_index r !! k
  | KGlobalWildcard k => global_wildcard_index r !! k
  end.

Definition entries (r : SubscriptionRegistry) (key : AnyKey) : Entries :=
  default [] (raw_entries r key).

(** The keys a subscription is indexed under. *)
Definition keys_of (filters : list NostrFilter) (community_id : CommunityId)
    (scope : SubscriptionScope) : list AnyKey :=
  match scope with
  | Channels chs =>
      chs ≫= λ ch,
        match extract_kinds_from_filters filters with
        | None => [KChannelWildcard (community_id, ch)]
        | Some kinds => (λ k, KChannelKind (community_id, mkIndexKey ch k)) <$> kinds
        end
  | Global =>
      match extract_global_p_kind_index_keys community_id filters with
      | Some keys => KGlobalPKind <$> keys
      | None =>
          match extract_kinds_from_filters filters with
          | None => [KGlobalWildcard community_id]
          | Some kinds => (λ k, KGlobalKind (community_id, k)) <$> kinds
          end
      end
  end.

Definition entry_keys (e : SubEntry) : list AnyKey := keys_of e.1.1 e.1.2 e.2.

(** The registry invariant: the indexes hold exactly the keys of the live
    subscriptions, no key is left with an empty vector, and the gauge counts
    the live subscriptions. *)
Record registry_ok (r : SubscriptionRegistry) : Prop := {
  ok_entries : ∀ key c s, (c, s) ∈ entries r key ↔
    ∃ e, lookup_sub r c s = Some e ∧ key ∈ entry_keys e;
  ok_no_empty : ∀ key, raw_entries r key ≠ Some [];
  ok_gauge : active_gauge r = Z.of_nat (total_subscriptions r)
}.

(** The operations that change the registry, and running a sequence of them. *)
Inductive reg_op :=
| OpRegister (community_id : CommunityId) (conn_id : ConnId) (sub_id : SubId)
    (filters : list NostrFilter) (ch : option Uuid)
| OpRegisterChannels (community_id : CommunityId) (conn_id : ConnId) (sub_id : SubId)
    (filters : list NostrFilter) (chs : list Uuid)
| OpRemove (conn_id : ConnId) (sub_id : SubId)
| OpRemoveConnection (conn_id : ConnId)
| OpRemoveChannel (community_id : CommunityId) (conn_id : ConnId) (ch : Uuid).

Definition reg_exec (r : SubscriptionRegistry) (op : reg_op) : SubscriptionRegistry :=
  match op with
  | OpRegister c n s f ch => (register_scoped c n s f ch r).2
  | OpRegisterChannels c n s f chs => (register_channels_scoped c n s f chs r).2
  | OpRemove n s => (remove_subscription n s r).2
  | OpRemoveConnection n => (remove_connection n r).2
  | OpRemoveChannel c n ch => (remove_channel_subscriptions_scoped c n ch r).2
  end.

Definition reg_run (ops : list reg_op) : SubscriptionRegistry :=
  foldl reg_exec registry_new ops.

(** The same operations on the map. *)
Definition revoke_entry (community_id : CommunityId) (ch : Uuid) (e : SubEntry) : option SubEntry :=
  match e with
  | (filters, sub_community, Channels chs) =>
      if bool_decide (sub_community = community_id) && bool_decide (ch ∈ chs)
      then match filter (λ c, c ≠ ch) chs with
           | [] => None
           | chs' => Some (filters, sub_community, Channels chs')
           end
      else Some e
  | _ => Some e
  end.

Definition scope_of_channel (ch : option Uuid) : SubscriptionScope :=
  match ch with Some c => Channels [c] | None => Global end.

Definition spec_exec (m : gmap (ConnId * SubId) SubEntry) (op : reg_op) :
    gmap (ConnId * SubId) SubEntry :=
  match op with
  | OpRegister comm n s f ch => <[(n, s) := (f, comm, scope_of_channel ch)]> m
  | OpRegisterChannels comm n s f chs => <[(n, s) := (f, comm, Channels chs)]> m
  | OpRemove n s => delete (n, s) m
  | OpRemoveConnection n => filter (λ e, e.1.1 ≠ n) m
  | OpRemoveChannel comm n ch =>
      map_imap (λ k e, if decide (k.1 = n) then revoke_entry comm ch e else Some e) m
  end.

Definition spec_fan_out (m : gmap (ConnId * SubId) SubEntry) (community_id : CommunityId)
    (ev : StoredEvent) : gset (ConnId * SubId) :=
  dom (filter (λ e, entry_selected community_id ev e.2) m).

(** ** Lemmas: one index *)

Section one_index.
Context {K : Type} `{Countable K}.
Implicit Types (m : gmap K Entries) (k : K) (e x : ConnId * SubId).

Lemma elem_of_index_push m k e k' x :
  x ∈ idx (index_push k e m) k' ↔ x ∈ idx m k' ∨ (k' = k ∧ x = e).
Proof.
  unfold idx, index_push. rewrite lookup_insert. case_decide; subst; simpl; set_solver.
Qed.

Lemma elem_of_index_retain m k e k' x :
  x ∈ idx (index_retain k e m) k' ↔ x ∈ idx m k' ∧ ¬ (k' = k ∧ x = e).
Proof.
  unfold idx, index_retain. destruct (m !! k) as [l|] eqn:E.
  2: { destruct (decide (k' = k)) as [->|]; [rewrite E; set_solver|naive_solver]. }
  assert (∀ y, y ∈ filter (λ z, z ≠ e) l ↔ y ∈ l ∧ y ≠ e) as Hf
    by (intros; apply elem_of_filter_ne).
  destruct (filter (λ y, y ≠ e) l) as [|y l'].
  - rewrite lookup_delete. case_decide; subst; [rewrite E|]; set_solver.
  - rewrite lookup_insert. case_decide; subst; simpl; [|naive_solver].
    rewrite E, Hf. naive_solver.
Qed.

Lemma index_push_no_empty m k e k' :
  (∀ j, m !! j ≠ Some []) → index_push k e m !! k' ≠ Some [].
Proof.
  intros Hm. unfold index_push. rewrite lookup_insert. case_decide; [|done].
  intros [= Hnil]. by apply app_nil in Hnil as [_ ?].
Qed.

Lemma index_retain_no_empty m k e k' :
  (∀ j, m !! j ≠ Some []) → index_retain k e m !! k' ≠ Some [].
Proof.
  intros Hm. unfold index_retain. destruct (m !! k); [|done].
  case_match; [rewrite lookup_delete|rewrite lookup_insert]; by case_decide.
Qed.

End one_index.

(** ** Lemmas: all indexes *)

(** An update of the indexes leaves the subscriptions and the gauge alone. *)
Definition same_subs (r r' : SubscriptionRegistry) : Prop :=
  subs r' = subs r ∧ active_gauge r' = active_gauge r.

#[global] Instance same_subs_refl : Reflexive same_subs.
Proof. by split. Qed.

#[global] Instance same_subs_trans : Transitive same_subs.
Proof. intros ??? [] []. split; congruence. Qed.

(** The registry [r'] is [r] with [e] pushed under exactly the keys [ks]. *)
Definition pushed (e : ConnId * SubId) (ks : list AnyKey) (r r' : SubscriptionRegistry) : Prop :=
  same_subs r r' ∧
  (∀ key x, x ∈ entries r' key ↔ x ∈ entries r key ∨ (key ∈ ks ∧ x = e)) ∧
  ((∀ key, raw_entries r key ≠ Some []) → ∀ key, raw_entries r' key ≠ Some []).

(** The registry [r'] is [r] with [e] taken out under the keys [ks]. *)
Definition pulled (e : ConnId * SubId) (ks : list AnyKey) (r r' : SubscriptionRegistry) : Prop :=
  same_subs r r' ∧
  (∀ key x, x ∈ entries r' key ↔ x ∈ entries r key ∧ ¬ (key ∈ ks ∧ x = e)) ∧
  ((∀ key, raw_entries r key ≠ Some []) → ∀ key, raw_entries r' key ≠ Some []).

Lemma pushed_nil e r : pushed e [] r r.
Proof. split; [done|]. split; [set_solver|done]. Qed.

Lemma pulled_nil e r : pulled e [] r r.
Proof. split; [done|]. split; [set_solver|done]. Qed.

Lemma pushed_app e ks ks' r r' r'' :
  pushed e ks r r' → pushed e ks' r' r'' → pushed e (ks ++ ks') r r''.
Proof.
  intros (H1&H2&H3) (H4&H5&H6). split; [by etrans|]. split; [|auto].
  intros key x. rewrite H5, H2. set_solver.
Qed.

Lemma pulled_app e ks ks' r r' r'' :
  pulled e ks r r' → pulled e ks' r' r'' → pulled e (ks ++ ks') r r''.
Proof.
  intros (H1&H2&H3) (H4&H5&H6). split; [by etrans|]. split; [|auto].
  intros key x. rewrite H5, H2. set_solver.
Qed.

(** A loop that pushes (or pulls) per element does so for all of them. *)
Lemma pushed_foldl {A} (f : SubscriptionRegistry → A → SubscriptionRegistry)
    (g : A → list AnyKey) e xs r :
  (∀ r x, pushed e (g x) r (f r x)) → pushed e (xs ≫= g) r (foldl f r xs).
Proof.
  intros Hf. revert r. induction xs as [|x xs IH]; intros r; simpl; [apply pushed_nil|].
  eapply pushed_app; [apply Hf|apply IH].
Qed.

Lemma pulled_foldl {A} (f : SubscriptionRegistry → A → SubscriptionRegistry)
    (g : A → list AnyKey) e xs r :
  (∀ r x, pulled e (g x) r (f r x)) → pulled e (xs ≫= g) r (foldl f r xs).
Proof.
  intros Hf. revert r. induction xs as [|x xs IH]; intros r; simpl; [apply pulled_nil|].
  eapply pulled_app; [apply Hf|apply IH].
Qed.

(** How each of the five maps sits in the registry: its keys, its getter and
    its setter, which leaves the other four maps alone. *)
Record index_lens {K} `{Countable K} (C : K → AnyKey)
    (get : SubscriptionRegistry → gmap K Entries)
    (set : (gmap K Entries → gmap K Entries) → SubscriptionRegistry → SubscriptionRegistry) :
    Prop := {
  lens_inj : ∀ k k', C k = C k' → k = k';
  lens_case : ∀ key, (∃ k, key = C k) ∨ (∀ k, key ≠ C k);
  lens_get : ∀ r k, raw_entries r (C k) = get r !! k;
  lens_set : ∀ f r k, raw_entries (set f r) (C k) = f (get r) !! k;
  lens_other : ∀ f r key, (∀ k, key ≠ C k) → raw_entries (set f r) key = raw_entries r key;
  lens_subs : ∀ f r, same_subs r (set f r)
}.

Section lens.
Context {K : Type} `{Countable K} {C : K → AnyKey} {get set} (L : index_lens C get set).

Lemma pushed_lens e k r : pushed e [C k] r (set (index_push k e) r).
Proof.
  destruct L as [Linj Lcase Lget Lset Lother Lsubs]. split; [apply Lsubs|]. split.
  - intros key x. unfold entries. destruct (Lcase key) as [[k' ->]|Hk].
    + rewrite Lset, Lget. fold (idx (index_push k e (get r)) k') (idx (get r) k').
      rewrite elem_of_index_push, list_elem_of_singleton. naive_solver.
    + rewrite Lother by done. set_solver.
  - intros Hne key. destruct (Lcase key) as [[k' ->]|Hk]; [|by rewrite Lother].
    rewrite Lset. apply index_push_no_empty. intros j. rewrite <-Lget. apply Hne.
Qed.

Lemma pulled_lens e k r : pulled e [C k] r (set (index_retain k e) r).
Proof.
  destruct L as [Linj Lcase Lget Lset Lother Lsubs]. split; [apply Lsubs|]. split.
  - intros key x. unfold entries. destruct (Lcase key) as [[k' ->]|Hk].
    + rewrite Lset, Lget. fold (idx (index_retain k e (get r)) k') (idx (get r) k').
      rewrite elem_of_index_retain, list_elem_of_singleton. naive_solver.
    + rewrite Lother by done. set_solver.
  - intros Hne key. destruct (Lcase key) as [[k' ->]|Hk]; [|by rewrite Lother].
    rewrite Lset. apply index_retain_no_empty. intros j. rewrite <-Lget. apply Hne.
Qed.

End lens.

Ltac solve_lens :=
  split; [by intros ?? [= ->]
         |intros []; solve [left; eexists; reflexivity | right; intros; discriminate]
         |done|done|intros f r [] Hk; first [done|by destruct (Hk _ eq_refl)]|done].

Lemma channel_kind_lens : index_lens KChannelKind channel_kind_index set_channel_kind.
Proof. solve_lens. Qed.
Lemma channel_wildcard_lens :
  index_lens KChannelWildcard channel_wildcard_index set_channel_wildcard.
Proof. solve_lens. Qed.
Lemma global_kind_lens : index_lens KGlobalKind global_kind_index set_global_kind.
Proof. solve_lens. Qed.
Lemma global_p_kind_lens : index_lens KGlobalPKind global_p_kind_index set_global_p_kind.
Proof. solve_lens. Qed.
Lemma global_wildcard_lens :
  index_lens KGlobalWildcard global_wildcard_index set_global_wildcard.
Proof. solve_lens. Qed.
#[local] Hint Resolve channel_kind_lens channel_wildcard_lens global_kind_lens
  global_p_kind_lens global_wildcard_lens : buzz.
#[local] Hint Resolve pushed_nil pulled_nil : buzz.

Lemma fmap_as_bind {A B} (f : A → B) (l : list A) : f <$> l = l ≫= λ x, [f x].
Proof. induction l; simpl; by f_equal. Qed.

Lemma add_to_index_pushed c s fs comm scope r :
  pushed (c, s) (keys_of fs comm scope) r (add_to_index c s fs comm scope r).
Proof.
  unfold add_to_index, keys_of. destruct scope as [|chs].
  - destruct (extract_global_p_kind_index_keys comm fs) as [keys|].
    { rewrite fmap_as_bind. apply pushed_foldl. intros; apply (pushed_lens global_p_kind_lens). }
    destruct (extract_kinds_from_filters fs) as [[|k ks]|]; [apply pushed_nil| |].
    + rewrite fmap_as_bind. apply (pushed_foldl _ _ _ (k :: ks)).
      intros; apply (pushed_lens global_kind_lens).
    + apply (pushed_lens global_wildcard_lens).
  - apply pushed_foldl. intros r' ch.
    destruct (extract_kinds_from_filters fs) as [[|k ks]|]; [apply pushed_nil| |].
    + rewrite fmap_as_bind. apply (pushed_foldl _ _ _ (k :: ks)).
      intros; apply (pushed_lens channel_kind_lens).
    + apply (pushed_lens channel_wildcard_lens).
Qed.

Lemma remove_from_index_pulled c s fs comm scope r :
  pulled (c, s) (keys_of fs comm scope) r (remove_from_index c s fs comm scope r).
Proof.
  unfold remove_from_index, keys_of. destruct scope as [|chs].
  - destruct (extract_global_p_kind_index_keys comm fs) as [keys|].
    { rewrite fmap_as_bind. apply pulled_foldl. intros; apply (pulled_lens global_p_kind_lens). }
    destruct (extract_kinds_from_filters fs) as [[|k ks]|]; [apply pulled_nil| |].
    + rewrite fmap_as_bind. apply (pulled_foldl _ _ _ (k :: ks)).
      intros; apply (pulled_lens global_kind_lens).
    + apply (pulled_lens global_wildcard_lens).
  - apply pulled_foldl. intros r' ch.
    destruct (extract_kinds_from_filters fs) as [[|k ks]|]; [apply pulled_nil| |].
    + rewrite fmap_as_bind. apply (pulled_foldl _ _ _ (k :: ks)).
      intros; apply (pulled_lens channel_kind_lens).
    + apply (pulled_lens channel_wildcard_lens).
Qed.

(** ** Lemmas: counting subscriptions *)

Definition tot (m : gmap ConnId (gmap SubId SubEntry)) : nat :=
  sum_list_with (λ e, size e.2) (map_to_list m).

Lemma total_subscriptions_tot r : total_subscriptions r = tot (subs r).
Proof.
  unfold total_subscriptions, tot. rewrite <-(hiter_perm _ (subs r)).
  induction (hiter (subs r)); simpl; auto.
Qed.

Lemma tot_delete m k : tot (delete k m) + size (default ∅ (m !! k)) = tot m.
Proof.
  destruct (m !! k) as [v|] eqn:E.
  - unfold tot. rewrite <-(insert_delete_id m k v E) at 2.
    rewrite map_to_list_insert by apply lookup_delete_eq. simpl. lia.
  - rewrite delete_id by done. simpl. rewrite map_size_empty. lia.
Qed.

Lemma tot_insert m k v : tot (<[k := v]> m) + size (default ∅ (m !! k)) = tot m + size v.
Proof.
  rewrite <-(tot_delete m k). unfold tot.
  rewrite <-(insert_delete_eq m k v), map_to_list_insert by apply lookup_delete_eq.
  simpl. lia.
Qed.

(** ** Lemmas: how the operations move entries *)

Lemma lookup_sub_same r r' c s : same_subs r r' → lookup_sub r' c s = lookup_sub r c s.
Proof. unfold lookup_sub. by intros [-> _]. Qed.

Lemma lookup_sub_insert_conn r' r c cs c' s' :
  subs r' = <[c := cs]> (subs r) →
  lookup_sub r' c' s' = if decide (c' = c) then cs !! s' else lookup_sub r c' s'.
Proof.
  unfold lookup_sub. intros ->. rewrite lookup_insert. by repeat case_decide; subst.
Qed.

(** The indexes hold exactly the keys of the live entries. *)
Definition index_exact (r : SubscriptionRegistry) : Prop :=
  ∀ key c s, (c, s) ∈ entries r key ↔ ∃ e, lookup_sub r c s = Some e ∧ key ∈ entry_keys e.

(** Replacing the entry of one subscription by [e'] (or nothing), while the
    indexes change by the keys of that subscription alone, keeps them exact. *)
Lemma index_exact_update r r' c s e' :
  index_exact r →
  (∀ c' s', lookup_sub r' c' s' = if decide ((c', s') = (c, s)) then e' else lookup_sub r c' s') →
  (∀ key x, x ≠ (c, s) → x ∈ entries r' key ↔ x ∈ entries r key) →
  (∀ key, (c, s) ∈ entries r' key ↔ ∃ e, e' = Some e ∧ key ∈ entry_keys e) →
  index_exact r'.
Proof.
  intros Hr Hl Hother Hcs key c' s'. rewrite Hl.
  destruct (decide ((c', s') = (c, s))) as [[= -> ->]|Hne]; [apply Hcs|].
  rewrite Hother by done. apply Hr.
Qed.

Lemma keys_of_channels_elem fs comm chs key :
  key ∈ keys_of fs comm (Channels chs) ↔ ∃ ch, ch ∈ chs ∧ key ∈ keys_of fs comm (Channels [ch]).
Proof.
  unfold keys_of. rewrite list_elem_of_bind. setoid_rewrite list_elem_of_bind. set_solver.
Qed.

Lemma keys_of_channel_inj fs comm ch ch' key :
  key ∈ keys_of fs comm (Channels [ch]) → key ∈ keys_of fs comm (Channels [ch']) → ch = ch'.
Proof.
  unfold keys_of. simpl. rewrite !app_nil_r.
  destruct (extract_kinds_from_filters fs) as [ks|].
  - rewrite !list_elem_of_fmap. naive_solver.
  - rewrite !list_elem_of_singleton. naive_solver.
Qed.

Lemma keys_of_revoke fs comm chs ch key :
  key ∈ keys_of fs comm (Channels (filter (λ c, c ≠ ch) chs)) ↔
  key ∈ keys_of fs comm (Channels chs) ∧ key ∉ keys_of fs comm (Channels [ch]).
Proof.
  rewrite (keys_of_channels_elem fs comm (filter _ chs)), (keys_of_channels_elem fs comm chs).
  setoid_rewrite elem_of_filter_ne. split.
  - intros (c & [Hc Hne] & Hk). split; [eauto|]. intros Hk'.
    destruct Hne. by apply (keys_of_channel_inj fs comm c ch key).
  - intros [(c & Hc & Hk) Hn]. exists c. split; [split; [done|]|done]. by intros ->.
Qed.

(** ** The invariant is preserved *)

#[local] Arguments remove_from_index : simpl never.
#[local] Arguments add_to_index : simpl never.
#[local] Arguments revoke_entry : simpl never.

Lemma registry_ok_new : registry_ok registry_new.
Proof.
  split.
  - intros key c s. unfold lookup_sub. simpl. rewrite lookup_empty. simpl.
    unfold entries. destruct key; simpl; rewrite lookup_empty; set_solver.
  - intros []; simpl; by rewrite lookup_empty.
  - rewrite total_subscriptions_tot. done.
Qed.

Lemma remove_subscription_spec c s r :
  registry_ok r →
  registry_ok (remove_subscription c s r).2 ∧
  (∀ c' s', lookup_sub (remove_subscription c s r).2 c' s' =
     if decide ((c', s') = (c, s)) then None else lookup_sub r c' s') ∧
  (remove_subscription c s r).1 = (λ e, mkRemoved e.1.2 e.2) <$> lookup_sub r c s.
Proof.
  intros [Hidx Hne Hg]. unfold remove_subscription.
  destruct (subs r !! c) as [cs|] eqn:Ec; [destruct (cs !! s) as [[[fs comm] scope]|] eqn:Es|].
  2,3: simpl; assert (lookup_sub r c s = None) as Hn by (unfold lookup_sub; by rewrite Ec);
    rewrite Hn; split; [done|]; split; [|done]; intros c' s'; case_decide; naive_solver.
  assert (lookup_sub r c s = Some (fs, comm, scope)) as Hl by (unfold lookup_sub; by rewrite Ec).
  set (r1 := set_subs _ r).
  destruct (remove_from_index_pulled c s fs comm scope r1) as ([Hs2 Hg2] & Hent & Hemp).
  set (r2 := remove_from_index c s fs comm scope r1) in *. simpl.
  assert (∀ c' s', lookup_sub (add_gauge (-1) r2) c' s' =
      if decide ((c', s') = (c, s)) then None else lookup_sub r c' s') as Hlook.
  { intros c' s'. rewrite (lookup_sub_insert_conn _ r c (delete s cs)) by done.
    rewrite lookup_delete. destruct (decide (c' = c)) as [->|Hc].
    - unfold lookup_sub. rewrite Ec. simpl. repeat case_decide; congruence.
    - by rewrite decide_False by congruence. }
  split; [|by rewrite Hl]. split; [|by apply Hemp|].
  - eapply (index_exact_update r _ c s None); [exact Hidx|exact Hlook|..].
    + intros key x Hx. change (entries (add_gauge (-1) r2) key) with (entries r2 key).
      rewrite Hent. change (entries r1 key) with (entries r key). naive_solver.
    + intros key. change (entries (add_gauge (-1) r2) key) with (entries r2 key).
      rewrite Hent. change (entries r1 key) with (entries r key). rewrite (Hidx key c s).
      rewrite Hl. naive_solver.
  - simpl. rewrite Hg2. change (active_gauge r1) with (active_gauge r). rewrite Hg.
    rewrite !total_subscriptions_tot. simpl. rewrite Hs2. simpl.
    pose proof (tot_insert (subs r) c (delete s cs)) as Ht. rewrite Ec in Ht. simpl in Ht.
    rewrite (size_delete_Some cs s _ Es) in Ht. lia.
Qed.

Lemma register_with_scope_spec comm c s fs scope r :
  registry_ok r →
  registry_ok (register_with_scope comm c s fs scope r).2 ∧
  (∀ c' s', lookup_sub (register_with_scope comm c s fs scope r).2 c' s' =
     if decide ((c', s') = (c, s)) then Some (fs, comm, scope) else lookup_sub r c' s') ∧
  (register_with_scope comm c s fs scope r).1 =
    (λ e, mkRemoved e.1.2 e.2) <$> lookup_sub r c s.
Proof.
  intros Hok. destruct (remove_subscription_spec c s r Hok) as ([Hidx Hne Hg] & Hl1 & Hrem).
  unfold register_with_scope.
  destruct (remove_subscription c s r) as [removed r1]. simpl in *.
  set (cs := default ∅ (subs r1 !! c)). set (r2 := add_gauge 1 _).
  destruct (add_to_index_pushed c s fs comm scope r2) as ([Hs2 Hg2] & Hent & Hemp).
  set (r3 := add_to_index c s fs comm scope r2) in *.
  assert (lookup_sub r1 c s = None) as Hnone by (rewrite Hl1; by rewrite decide_True).
  assert (cs !! s = None) as Hcs.
  { unfold cs, lookup_sub in *. by destruct (subs r1 !! c). }
  assert (∀ c' s', lookup_sub r3 c' s' =
      if decide ((c', s') = (c, s)) then Some (fs, comm, scope) else lookup_sub r1 c' s') as Hlook.
  { intros c' s'.
    rewrite (lookup_sub_insert_conn r3 r1 c (<[s := (fs, comm, scope)]> cs)) by done.
    rewrite lookup_insert. destruct (decide (c' = c)) as [->|Hc].
    - unfold lookup_sub, cs. destruct (subs r1 !! c); simpl; rewrite ?lookup_empty;
        repeat case_decide; congruence.
    - by rewrite decide_False by congruence. }
  split; [split; [|by apply Hemp|]|split; [|done]].
  - apply (index_exact_update r1 _ c s (Some (fs, comm, scope))); [exact Hidx|exact Hlook|..].
    + intros key x Hx. rewrite Hent. change (entries r2 key) with (entries r1 key). naive_solver.
    + intros key. rewrite Hent. change (entries r2 key) with (entries r1 key).
      rewrite (Hidx key c s), Hnone. unfold entry_keys. naive_solver.
  - rewrite Hg2. simpl. rewrite Hg, !total_subscriptions_tot, Hs2. simpl.
    pose proof (tot_insert (subs r1) c (<[s := (fs, comm, scope)]> cs)) as Ht.
    rewrite map_size_insert_None in Ht by done. fold cs in Ht. lia.
  - intros c' s'. rewrite Hlook, Hl1. by repeat case_decide.
Qed.

(** The loop of [remove_connection]. *)
Lemma remove_all_spec c xs removed r :
  let '(removed', r') := foldl (λ '(removed, r) '(s, (fs, comm, scope)),
      (removed ++ [mkRemoved comm scope], remove_from_index c s fs comm scope r))
    (removed, r) xs in
  removed' = removed ++ ((λ x : SubId * SubEntry, mkRemoved x.2.1.2 x.2.2) <$> xs) ∧
  same_subs r r' ∧
  (∀ key x, x ∈ entries r' key ↔ x ∈ entries r key ∧
     ∀ s e, (s, e) ∈ xs → ¬ (key ∈ entry_keys e ∧ x = (c, s))) ∧
  ((∀ key, raw_entries r key ≠ Some []) → ∀ key, raw_entries r' key ≠ Some []).
Proof.
  revert removed r. induction xs as [|[s [[fs comm] scope]] xs IH]; intros removed r; simpl.
  { rewrite app_nil_r. repeat split; set_solver. }
  specialize (IH (removed ++ [mkRemoved comm scope]) (remove_from_index c s fs comm scope r)).
  destruct (foldl _ _ xs) as [removed' r'].
  destruct (remove_from_index_pulled c s fs comm scope r) as (Hs & He & Hn).
  destruct IH as (Hrem & Hs' & He' & Hn'). split; [|split; [|split]].
  - rewrite Hrem, <-app_assoc. done.
  - by etrans.
  - intros key x. rewrite He', He. setoid_rewrite elem_of_cons. unfold entry_keys.
    split; [|naive_solver]. intros [[Hx Hk] Hall]. split; [done|].
    intros s' e [[= -> ->]|Hin]; [done|]. by apply Hall.
  - auto.
Qed.

Lemma remove_connection_spec c r :
  registry_ok r →
  registry_ok (remove_connection c r).2 ∧
  (∀ c' s', lookup_sub (remove_connection c r).2 c' s' =
     if decide (c' = c) then None else lookup_sub r c' s') ∧
  (∀ rm, rm ∈ (remove_connection c r).1 ↔
     ∃ s e, lookup_sub r c s = Some e ∧ rm = mkRemoved e.1.2 e.2).
Proof.
  intros [Hidx Hne Hg]. unfold remove_connection.
  destruct (subs r !! c) as [cs|] eqn:Ec.
  2: { simpl. unfold lookup_sub. split; [done|]. split.
       - intros c' s'. case_decide; [subst; by rewrite Ec|done].
       - intros rm. rewrite Ec. set_solver. }
  set (r1 := set_subs (delete c) r).
  pose proof (remove_all_spec c (hiter cs) [] r1) as Hloop.
  destruct (foldl _ _ (hiter cs)) as [removed r2].
  destruct Hloop as (Hrem & [Hs2 Hg2] & Hent & Hemp). simpl.
  assert (∀ s, lookup_sub r c s = cs !! s) as Hcs by (intros; unfold lookup_sub; by rewrite Ec).
  assert (∀ c' s', lookup_sub r2 c' s' =
      if decide (c' = c) then None else lookup_sub r c' s') as Hlook.
  { intros c' s'. unfold lookup_sub. rewrite Hs2. simpl. rewrite lookup_delete.
    by repeat case_decide; subst. }
  split; [split; [|by apply Hemp|]|split; [done|]].
  - intros key c' s'. change (lookup_sub (add_gauge _ r2) c' s') with (lookup_sub r2 c' s').
    change (entries (add_gauge _ r2) key) with (entries r2 key).
    rewrite Hlook, Hent. change (entries r1 key) with (entries r key). rewrite (Hidx key c' s').
    setoid_rewrite elem_of_hiter. case_decide as Hc; [subst; setoid_rewrite Hcs|]; naive_solver.
  - simpl. rewrite Hg2. simpl. rewrite Hg, !total_subscriptions_tot. simpl. rewrite Hs2. simpl.
    pose proof (tot_delete (subs r) c) as Ht. rewrite Ec in Ht. simpl in Ht. lia.
  - intros rm. rewrite Hrem, app_nil_l, list_elem_of_fmap. split.
    + intros ([s e] & -> & Hin%elem_of_hiter). exists s, e. by rewrite Hcs.
    + intros (s & e & He & ->). exists (s, e). by rewrite elem_of_hiter, <-Hcs.
Qed.

(** One round of the revocation loop. *)
Definition revoke_one (comm : CommunityId) (c : ConnId) (ch : Uuid) (s : SubId)
    (fs : list NostrFilter) (chs : list Uuid) (cs : gmap SubId SubEntry)
    (r : SubscriptionRegistry) : SubscriptionRegistry :=
  let chs' := filter (λ x, x ≠ ch) chs in
  let r1 := set_subs (<[c := <[s := (fs, comm, Channels chs')]> cs]>) r in
  let r2 := remove_from_index c s fs comm (Channels [ch]) r1 in
  if bool_decide (chs' = [])
  then add_gauge (-1) (set_subs (<[c := delete s cs]>) r2) else r2.

Section revoke_one.
Context (comm : CommunityId) (c : ConnId) (ch : Uuid) (s : SubId) (fs : list NostrFilter)
        (chs : list Uuid) (cs : gmap SubId SubEntry) (r : SubscriptionRegistry).
Context (Ec : subs r !! c = Some cs) (Es : cs !! s = Some (fs, comm, Channels chs)).
Context (Hch : ch ∈ chs).

Lemma revoke_entry_Channels :
  revoke_entry comm ch (fs, comm, Channels chs) =
    if decide (filter (λ x, x ≠ ch) chs = []) then None
    else Some (fs, comm, Channels (filter (λ x, x ≠ ch) chs)).
Proof.
  unfold revoke_entry. rewrite !bool_decide_eq_true_2 by done. simpl. by case_match.
Qed.

(** The map of the connection after the round. *)
Lemma revoke_one_subs :
  subs (revoke_one comm c ch s fs chs cs r) =
    <[c := match revoke_entry comm ch (fs, comm, Channels chs) with
           | None => delete s cs
           | Some e => <[s := e]> cs
           end]> (subs r).
Proof.
  unfold revoke_one. rewrite revoke_entry_Channels.
  set (r1 := set_subs _ r).
  destruct (remove_from_index_pulled c s fs comm (Channels [ch]) r1) as ([Hs2 _] & _).
  case_bool_decide; case_decide; try done; simpl; rewrite Hs2; simpl;
    by rewrite ?insert_insert_eq.
Qed.

Lemma revoke_one_lookup c' s' :
  lookup_sub (revoke_one comm c ch s fs chs cs r) c' s' =
    if decide ((c', s') = (c, s)) then revoke_entry comm ch (fs, comm, Channels chs)
    else lookup_sub r c' s'.
Proof.
  rewrite (lookup_sub_insert_conn _ _ _ _ _ _ revoke_one_subs).
  destruct (decide (c' = c)) as [->|Hc]; [|by rewrite decide_False by congruence].
  unfold lookup_sub. rewrite Ec. simpl.
  destruct (revoke_entry _ _ _); rewrite ?lookup_insert, ?lookup_delete;
    repeat case_decide; congruence.
Qed.

Lemma revoke_one_entries key x :
  x ∈ entries (revoke_one comm c ch s fs chs cs r) key ↔
  x ∈ entries r key ∧ ¬ (key ∈ keys_of fs comm (Channels [ch]) ∧ x = (c, s)).
Proof.
  unfold revoke_one. set (r1 := set_subs _ r).
  destruct (remove_from_index_pulled c s fs comm (Channels [ch]) r1) as (_ & Hent & _).
  change (entries r key) with (entries r1 key). rewrite <-(Hent key x).
  unfold entries. by case_bool_decide; destruct key.
Qed.

Lemma revoke_one_no_empty :
  (∀ key, raw_entries r key ≠ Some []) →
  ∀ key, raw_entries (revoke_one comm c ch s fs chs cs r) key ≠ Some [].
Proof.
  intros Hne key. unfold revoke_one. set (r1 := set_subs _ r).
  destruct (remove_from_index_pulled c s fs comm (Channels [ch]) r1) as (_ & _ & Hemp).
  pose proof (Hemp Hne key). case_bool_decide; by destruct key.
Qed.

Lemma revoke_one_gauge :
  active_gauge r = Z.of_nat (total_subscriptions r) →
  active_gauge (revoke_one comm c ch s fs chs cs r) =
    Z.of_nat (total_subscriptions (revoke_one comm c ch s fs chs cs r)).
Proof.
  rewrite !total_subscriptions_tot, revoke_one_subs, revoke_entry_Channels. intros Hg.
  unfold revoke_one. set (r1 := set_subs _ r).
  destruct (remove_from_index_pulled c s fs comm (Channels [ch]) r1) as ([_ Hg2] & _).
  case_bool_decide; case_decide; try done; simpl; rewrite Hg2; simpl; rewrite Hg.
  - pose proof (tot_insert (subs r) c (delete s cs)) as Ht. rewrite Ec in Ht. simpl in Ht.
    rewrite (size_delete_Some cs s _ Es) in Ht. lia.
  - set (e := (fs, comm, Channels _)).
    pose proof (tot_insert (subs r) c (<[s := e]> cs)) as Ht.
    rewrite Ec in Ht. simpl in Ht. rewrite map_size_insert_Some in Ht by eauto. lia.
Qed.

Lemma revoke_one_ok : registry_ok r → registry_ok (revoke_one comm c ch s fs chs cs r).
Proof.
  intros [Hidx Hne Hg]. split; [|by apply revoke_one_no_empty|by apply revoke_one_gauge].
  apply (index_exact_update r _ c s (revoke_entry comm ch (fs, comm, Channels chs)));
    [exact Hidx|exact revoke_one_lookup|..].
  - intros key x Hx. rewrite revoke_one_entries. naive_solver.
  - intros key. rewrite revoke_one_entries, (Hidx key c s), revoke_entry_Channels.
    unfold lookup_sub. rewrite Ec. simpl. rewrite Es.
    pose proof (keys_of_revoke fs comm chs ch key) as Hk. unfold entry_keys.
    case_decide as Hnil; [|naive_solver].
    rewrite Hnil in Hk. change (keys_of fs comm (Channels [])) with (@nil AnyKey) in Hk.
    split; [|naive_solver]. intros [(e & [= <-] & Hkey) Hn].
    exfalso. apply (not_elem_of_nil key), Hk. tauto.
Qed.

End revoke_one.

Lemma remove_channel_loop_spec comm c ch ss ups r :
  registry_ok r → NoDup ss →
  (∀ s, s ∈ ss → ∃ fs chs, lookup_sub r c s = Some (fs, comm, Channels chs) ∧ ch ∈ chs) →
  let '(ups', r') := remove_channel_loop comm c ch ss ups r in
  registry_ok r' ∧
  (∀ c' s', lookup_sub r' c' s' =
     if decide (c' = c ∧ s' ∈ ss) then lookup_sub r c' s' ≫= revoke_entry comm ch
     else lookup_sub r c' s') ∧
  up_sub_id <$> ups' = (up_sub_id <$> ups) ++ ss.
Proof.
  revert ups r. induction ss as [|s ss IH]; intros ups r Hok Hnd Hss; simpl.
  { rewrite app_nil_r. split; [done|]. split; [|done]. intros. case_decide; set_solver. }
  destruct (Hss s) as (fs & chs & Hl & Hch); [left|].
  unfold lookup_sub in Hl. destruct (subs r !! c) as [cs|] eqn:Ec; [|done]. simpl in Hl.
  rewrite Hl. apply NoDup_cons in Hnd as [Hs Hnd].
  set (r3 := if bool_decide _ then _ else _). change r3 with (revoke_one comm c ch s fs chs cs r).
  set (up := mkUpdate _ _).
  assert (∀ s', s' ∈ ss → lookup_sub (revoke_one comm c ch s fs chs cs r) c s' =
      lookup_sub r c s') as Hother.
  { intros s' Hs'. rewrite (revoke_one_lookup comm c ch s fs chs cs r Ec Hch).
    rewrite decide_False; [done|]. intros [= ->]. done. }
  specialize (IH (ups ++ [up]) (revoke_one comm c ch s fs chs cs r)).
  destruct (remove_channel_loop _ _ _ _ _ _) as [ups' r'].
  destruct IH as (Hok' & Hl' & Hup).
  { by apply revoke_one_ok. }
  { done. }
  { intros s' Hs'. rewrite Hother by done. apply Hss. by right. }
  split; [done|]. split.
  - intros c' s'. rewrite Hl', (revoke_one_lookup comm c ch s fs chs cs r Ec Hch).
    destruct (decide ((c', s') = (c, s))) as [[= -> ->]|Hne].
    + rewrite decide_False by naive_solver. rewrite decide_True by set_solver.
      unfold lookup_sub. rewrite Ec. simpl. by rewrite Hl.
    + repeat case_decide; set_solver.
  - rewrite Hup, fmap_app, <-app_assoc. done.
Qed.

Lemma elem_of_channel_sub_ids comm c ch r s :
  s ∈ channel_sub_ids comm c ch r ↔
  ∃ fs chs, lookup_sub r c s = Some (fs, comm, Channels chs) ∧ ch ∈ chs.
Proof.
  unfold channel_sub_ids, lookup_sub. destruct (subs r !! c) as [cs|]; simpl; [|set_solver].
  rewrite list_elem_of_omap. split.
  - intros ([s' [[fs comm'] scope]] & Hin%elem_of_hiter & Hif).
    destruct (andb _ _) eqn:Hb in Hif; [|done]. breflect. simplify_eq.
    destruct scope as [|chs]; [set_solver|eauto].
  - intros (fs & chs & Hl & Hch). exists (s, (fs, comm, Channels chs)).
    rewrite elem_of_hiter. split; [done|]. by rewrite !bool_decide_eq_true_2.
Qed.

Lemma NoDup_channel_sub_ids comm c ch r : NoDup (channel_sub_ids comm c ch r).
Proof.
  unfold channel_sub_ids. destruct (subs r !! c) as [cs|]; [|by apply NoDup_nil_2].
  apply NoDup_omap_fst; [apply NoDup_hiter_fst|].
  intros [s [[??]?]] [s' [[??]?]] b. by repeat case_match; intros; simplify_eq.
Qed.

Lemma revoke_entry_id comm ch e :
  (∀ fs chs, e = (fs, comm, Channels chs) → ch ∉ chs) → revoke_entry comm ch e = Some e.
Proof.
  destruct e as [[fs comm'] [|chs]]; [done|]. intros Hn. unfold revoke_entry.
  destruct (bool_decide (comm' = comm)) eqn:E; [|done]. breflect. subst. simpl.
  rewrite bool_decide_eq_false_2 by eauto. done.
Qed.

Lemma remove_channel_spec comm c ch r :
  registry_ok r →
  registry_ok (remove_channel_subscriptions_scoped comm c ch r).2 ∧
  (∀ c' s', lookup_sub (remove_channel_subscriptions_scoped comm c ch r).2 c' s' =
     if decide (c' = c) then lookup_sub r c' s' ≫= revoke_entry comm ch else lookup_sub r c' s') ∧
  up_sub_id <$> (remove_channel_subscriptions_scoped comm c ch r).1 = channel_sub_ids comm c ch r.
Proof.
  intros Hok. unfold remove_channel_subscriptions_scoped.
  pose proof (remove_channel_loop_spec comm c ch (channel_sub_ids comm c ch r) [] r Hok
    (NoDup_channel_sub_ids _ _ _ _)) as Hloop.
  setoid_rewrite elem_of_channel_sub_ids in Hloop. specialize (Hloop ltac:(done)).
  destruct (remove_channel_loop _ _ _ _ _ _) as [ups r']. destruct Hloop as (? & Hl & ?).
  split; [done|]. split; [|done]. intros c' s'. simpl. rewrite Hl.
  destruct (decide (c' = c)) as [->|Hc]; [|by rewrite decide_False by naive_solver].
  case_decide as Hin; [done|].
  destruct (lookup_sub r c s') as [e|] eqn:E; [|done]. simpl.
  rewrite revoke_entry_id; [done|]. intros fs chs -> Hch. apply Hin. split; [done|].
  apply elem_of_channel_sub_ids. eauto.
Qed.

Lemma reg_exec_ok r op : registry_ok r → registry_ok (reg_exec r op).
Proof.
  intros Hok. destruct op; simpl.
  - unfold register_scoped. by apply register_with_scope_spec.
  - unfold register_channels_scoped. by apply register_with_scope_spec.
  - by apply remove_subscription_spec.
  - by apply remove_connection_spec.
  - by apply remove_channel_spec.
Qed.

Lemma reg_run_ok ops : registry_ok (reg_run ops).
Proof.
  unfold reg_run. generalize registry_ok_new. generalize registry_new.
  induction ops as [|op ops IH]; intros r Hr; simpl; [done|]. by apply IH, reg_exec_ok.
Qed.

Lemma abs_lookup r c s : abs r !! (c, s) = lookup_sub r c s.
Proof. unfold abs, lookup_sub. by rewrite lookup_map_uncurry. Qed.

Lemma reg_exec_refines r op : registry_ok r → abs (reg_exec r op) = spec_exec (abs r) op.
Proof.
  intros Hok. apply map_eq. intros [c s]. rewrite abs_lookup.
  destruct op as [comm n s' fs ch|comm n s' fs chs|n s'|n|comm n ch]; simpl.
  - unfold register_scoped.
    rewrite (proj1 (proj2 (register_with_scope_spec comm n s' fs _ r Hok))).
    rewrite lookup_insert, abs_lookup. by repeat case_decide.
  - unfold register_channels_scoped.
    rewrite (proj1 (proj2 (register_with_scope_spec comm n s' fs _ r Hok))).
    rewrite lookup_insert, abs_lookup. by repeat case_decide.
  - rewrite (proj1 (proj2 (remove_subscription_spec n s' r Hok))).
    rewrite lookup_delete, abs_lookup. by repeat case_decide.
  - rewrite (proj1 (proj2 (remove_connection_spec n r Hok))).
    rewrite map_lookup_filter, abs_lookup. destruct (lookup_sub r c s) as [e|]; simpl;
      repeat case_guard || case_decide; naive_solver.
  - rewrite (proj1 (proj2 (remove_channel_spec comm n ch r Hok))).
    rewrite map_lookup_imap, abs_lookup. destruct (lookup_sub r c s) as [e|]; simpl;
      by repeat case_decide.
Qed.

(** ** Lemmas: fan-out *)

(** What [push_match] requires of a candidate. *)
Definition live_match (r : SubscriptionRegistry) (comm : CommunityId) (ev : StoredEvent)
    (x : ConnId * SubId) : Prop :=
  ∃ e, lookup_sub r x.1 x.2 = Some e ∧ entry_selected comm ev e.

(** The keys [fan_out_scoped] looks up, in order. *)
Definition probe_keys (comm : CommunityId) (ev : StoredEvent) : list AnyKey :=
  let kind := ev_kind (event ev) in
  match channel_id ev with
  | Some ch => [KChannelKind (comm, mkIndexKey ch kind); KChannelWildcard (comm, ch)]
  | None => ((λ p, KGlobalPKind (mkGlobalPKind comm kind p)) <$> event_p_tag_values ev)
              ++ [KGlobalKind (comm, kind); KGlobalWildcard comm]
  end.

Lemma push_match_spec r comm ev st x :
  seen_ok st →
  seen_ok (push_match r comm ev st x) ∧
  ∀ y, y ∈ (push_match r comm ev st x).2 ↔ y ∈ st.2 ∨ (y = x ∧ live_match r comm ev x).
Proof.
  intros Hst. unfold push_match, live_match, entry_selected.
  destruct (lookup_sub r x.1 x.2) as [[[fs comm'] scope]|]; [|naive_solver].
  destruct (andb _ _) eqn:Hb; [breflect|].
  - split; [by apply seen_push_ok|]. intros y. rewrite elem_of_seen_push by done. naive_solver.
  - split; [done|]. intros y. split; [auto|]. intros [Hy|(-> & e & [= <-] & H1 & H2 & H3)]; [done|].
    simpl in *. subst. rewrite bool_decide_eq_true_2, H2, H3 in Hb; done.
Qed.

Lemma push_matches_spec r comm ev cs st :
  seen_ok st →
  seen_ok (push_matches r comm ev cs st) ∧
  ∀ y, y ∈ (push_matches r comm ev cs st).2 ↔
    y ∈ st.2 ∨ (y ∈ default [] cs ∧ live_match r comm ev y).
Proof.
  destruct cs as [cs|]; simpl; [|set_solver].
  revert st. induction cs as [|x cs IH]; intros st Hst; simpl; [set_solver|].
  destruct (push_match_spec r comm ev st x Hst) as [Hst' Hy].
  destruct (IH _ Hst') as [Hst'' Hy']. split; [done|]. intros y. rewrite Hy', Hy. set_solver.
Qed.

Lemma fan_out_as_probe r comm ev :
  fan_out_scoped r comm ev =
    (foldl (λ st key, push_matches r comm ev (raw_entries r key) st) (∅, [])
       (probe_keys comm ev)).2.
Proof.
  unfold fan_out_scoped, probe_keys. destruct (channel_id ev) as [ch|]; [done|].
  rewrite foldl_app. simpl. f_equal. f_equal. f_equal.
  generalize (∅ : gset (ConnId * SubId), [] : list (ConnId * SubId)).
  induction (event_p_tag_values ev) as [|p ps IH]; intros st; simpl; [done|apply IH].
Qed.

Lemma probe_loop_spec r comm ev keys st :
  seen_ok st →
  let st' := foldl (λ st key, push_matches r comm ev (raw_entries r key) st) st keys in
  seen_ok st' ∧ ∀ y, y ∈ st'.2 ↔
    y ∈ st.2 ∨ (live_match r comm ev y ∧ ∃ key, key ∈ keys ∧ y ∈ entries r key).
Proof.
  revert st. induction keys as [|key keys IH]; intros st Hst; simpl; [set_solver|].
  destruct (push_matches_spec r comm ev (raw_entries r key) st Hst) as [Hst' Hy].
  destruct (IH _ Hst') as [Hst'' Hy']. split; [done|]. intros y. rewrite Hy', Hy.
  fold (entries r key). set_solver.
Qed.

Lemma fan_out_elem r comm ev y :
  y ∈ fan_out_scoped r comm ev ↔
  live_match r comm ev y ∧ ∃ key, key ∈ probe_keys comm ev ∧ y ∈ entries r key.
Proof.
  rewrite fan_out_as_probe.
  destruct (probe_loop_spec r comm ev (probe_keys comm ev) (∅, []) seen_ok_empty) as [_ Hy].
  rewrite Hy. set_solver.
Qed.

Lemma fan_out_NoDup r comm ev : NoDup (fan_out_scoped r comm ev).
Proof.
  rewrite fan_out_as_probe.
  by destruct (probe_loop_spec r comm ev (probe_keys comm ev) (∅, []) seen_ok_empty) as [[? _] _].
Qed.

(** ** Lemmas: the extracted keys cover every selected entry *)

Lemma extract_kinds_loop_elem st fs ks k :
  seen_ok st → extract_kinds_loop st fs = Some ks →
  k ∈ ks ↔ k ∈ st.2 ∨ ∃ f fk, f ∈ fs ∧ f_kinds f = Some fk ∧ k ∈ fk.
Proof.
  revert st. induction fs as [|f fs IH]; intros st Hst; simpl.
  { intros [= <-]. set_solver. }
  destruct (f_kinds f) as [fk|] eqn:Ef; [|done]. intros Hl.
  rewrite (IH _ (seen_push_all_ok _ _ Hst) Hl), elem_of_seen_push_all by done.
  split; [set_solver|]. intros [?|(g & gk & [->|Hg]%elem_of_cons & Hgk & ?)]; set_solver.
Qed.

Lemma extract_kinds_elem fs ks k :
  extract_kinds_from_filters fs = Some ks →
  k ∈ ks ↔ ∃ f fk, f ∈ fs ∧ f_kinds f = Some fk ∧ k ∈ fk.
Proof.
  intros Hl. rewrite (extract_kinds_loop_elem _ _ _ _ seen_ok_empty Hl). set_solver.
Qed.

Lemma extract_kinds_all fs ks :
  extract_kinds_from_filters fs = Some ks → ∀ f, f ∈ fs → is_Some (f_kinds f).
Proof.
  unfold extract_kinds_from_filters. generalize (∅ : gset Z, [] : list Z).
  induction fs as [|g fs IH]; intros st; simpl; [set_solver|].
  destruct (f_kinds g) eqn:Eg; [|done]. intros Hl f [->|Hf]%elem_of_cons; eauto.
Qed.

Lemma extract_global_p_loop_elem comm st fs keys f fk k :
  seen_ok st → extract_global_p_loop comm st fs = Some keys →
  (∀ x, x ∈ st.2 → x ∈ keys) ∧
  (f ∈ fs → f_kinds f = Some fk → k ∈ fk →
   ∃ ps, generic_tags_get p_tag (f_generic_tags f) = Some ps ∧
     ∀ p, p ∈ ps → mkGlobalPKind comm k p ∈ keys).
Proof.
  revert st. induction fs as [|g fs IH]; intros st Hst; simpl.
  { intros [= <-]. set_solver. }
  destruct (f_kinds g) as [[|k0 ks]|] eqn:Eg; [| |done].
  - intros Hl. destruct (IH _ Hst Hl) as [Hin Hf]. split; [done|].
    intros [->|?]%elem_of_cons; [|by apply Hf]. set_solver.
  - destruct (generic_tags_get p_tag (f_generic_tags g)) as [[|p0 ps]|] eqn:Ep; [done| |done]. intros Hl.
    set (xs := (k0 :: ks) ≫= _) in Hl.
    assert (seen_ok (seen_push_all st xs)) as Hst' by by apply seen_push_all_ok.
    destruct (IH _ Hst' Hl) as [Hin Hf].
    assert (∀ x, x ∈ xs → x ∈ keys) as Hxs.
    { intros x Hx. apply Hin. apply elem_of_seen_push_all; auto. }
    split. { intros x Hx. apply Hin. apply elem_of_seen_push_all; auto. }
    intros [->|?]%elem_of_cons; [|by apply Hf]. intros Hfk Hk. simplify_eq.
    exists (p0 :: ps). split; [done|]. intros p Hp. apply Hxs, list_elem_of_bind.
    exists k. split; [|done]. by apply list_elem_of_fmap_2.
Qed.

Lemma elem_of_event_p_tag_values ev v : v ∈ event_p_tag_values ev ↔ carries ev "p" v.
Proof.
  unfold event_p_tag_values, carries.
  cut (∀ ts st, seen_ok st → v ∈ (foldl (λ st t,
     if negb (bool_decide (tag_kind t = "p")) then st
     else match tag_content t with Some value => seen_push st value | None => st end) st ts).2 ↔
     v ∈ st.2 ∨ ∃ t, t ∈ ts ∧ tag_kind t = "p" ∧ tag_content t = Some v).
  { intros Hcut. rewrite Hcut by apply seen_ok_empty. set_solver. }
  induction ts as [|t ts IH]; intros st Hst; simpl; [set_solver|].
  setoid_rewrite elem_of_cons.
  case_bool_decide as Hk; simpl; [|rewrite IH by done; naive_solver].
  destruct (tag_content t) as [w|] eqn:Ew; [|rewrite IH by done; naive_solver].
  rewrite IH, elem_of_seen_push by auto with buzz. naive_solver.
Qed.

Lemma extract_global_p_all comm fs keys :
  extract_global_p_kind_index_keys comm fs = Some keys → ∀ f, f ∈ fs → is_Some (f_kinds f).
Proof.
  unfold extract_global_p_kind_index_keys.
  generalize (∅ : gset GlobalPKindIndexKey, [] : list GlobalPKindIndexKey).
  induction fs as [|g fs IH]; intros st; simpl; [set_solver|].
  destruct (f_kinds g) as [kk|] eqn:Eg; [|done]. intros Hl f [->|Hf]%elem_of_cons; [eauto|].
  repeat case_match; naive_solver.
Qed.

Lemma kinds_of_selected fs ks f ev :
  extract_kinds_from_filters fs = Some ks → f ∈ fs → selects f ev → ev_kind (event ev) ∈ ks.
Proof.
  intros Ek Hf (Hk & _). destruct (extract_kinds_all fs ks Ek f Hf) as [fk Hfk].
  apply (extract_kinds_elem _ _ _ Ek). exists f, fk. auto.
Qed.

Lemma p_kind_of_selected {laws : NostrLaws _} comm fs keys f ev :
  extract_global_p_kind_index_keys comm fs = Some keys → f ∈ fs → selects f ev →
  ∃ v, carries ev "p" v ∧ mkGlobalPKind comm (ev_kind (event ev)) v ∈ keys.
Proof.
  intros Ep Hf (Hk & _ & _ & _ & _ & Htags).
  destruct (extract_global_p_all comm fs keys Ep f Hf) as [fk Efk].
  destruct (extract_global_p_loop_elem comm (∅, []) fs keys f fk (ev_kind (event ev))
    seen_ok_empty Ep) as [_ Hkeys].
  destruct (Hkeys Hf Efk (Hk _ Efk)) as (ps & Hps & Hin).
  destruct (Htags p_tag ps (generic_tags_get_elem _ _ _ Hps)) as [(v & Hv & Hc)|[Hh _]];
    rewrite slt_p in *; [eauto|done].
Qed.

(** Every entry an event selects is indexed under a key the event probes. *)
Lemma selected_probed {laws : NostrLaws _} comm ev e :
  entry_selected comm ev e → ∃ key, key ∈ probe_keys comm ev ∧ key ∈ entry_keys e.
Proof.
  destruct e as [[fs comm'] scope]. intros (Hcomm & Hscope & Hm). simpl in *. subst comm'.
  apply filters_match_iff in Hm as (f & Hf & Hsel).
  unfold probe_keys, entry_keys, keys_of. simpl.
  destruct scope as [|chs], (channel_id ev) as [ch|]; try done; simpl in Hscope; breflect.
  - destruct (extract_global_p_kind_index_keys comm fs) as [keys|] eqn:Ep.
    + destruct (p_kind_of_selected comm fs keys f ev Ep Hf Hsel) as (v & Hc & Hin).
      exists (KGlobalPKind (mkGlobalPKind comm (ev_kind (event ev)) v)).
      rewrite elem_of_app, !list_elem_of_fmap. split; [left|]; eexists; split; eauto.
      by apply elem_of_event_p_tag_values.
    + destruct (extract_kinds_from_filters fs) as [ks|] eqn:Ek; [|set_solver].
      exists (KGlobalKind (comm, ev_kind (event ev))). split; [set_solver|].
      apply list_elem_of_fmap. exists (ev_kind (event ev)).
      split; [done|by apply (kinds_of_selected fs ks f ev)].
  - destruct (extract_kinds_from_filters fs) as [ks|] eqn:Ek.
    + exists (KChannelKind (comm, mkIndexKey ch (ev_kind (event ev)))). split; [set_solver|].
      apply list_elem_of_bind. exists ch. split; [|done].
      apply list_elem_of_fmap. exists (ev_kind (event ev)).
      split; [done|by apply (kinds_of_selected fs ks f ev)].
    + exists (KChannelWildcard (comm, ch)). split; [set_solver|].
      apply list_elem_of_bind. exists ch. set_solver.
Qed.

Lemma live_match_spec r comm ev c s :
  live_match r comm ev (c, s) ↔ (c, s) ∈ spec_fan_out (abs r) comm ev.
Proof.
  unfold live_match, spec_fan_out. rewrite elem_of_dom. setoid_rewrite <-abs_lookup. simpl.
  split.
  - intros (e & Hl & Hs). exists e. by apply map_lookup_filter_Some.
  - intros (e & [Hl Hs]%map_lookup_filter_Some). eauto.
Qed.

(** On an exact registry, fan-out is the specification's. *)
Lemma fan_out_exact {laws : NostrLaws _} r comm ev x :
  registry_ok r → x ∈ fan_out_scoped r comm ev ↔ x ∈ spec_fan_out (abs r) comm ev.
Proof.
  intros Hok. destruct x as [c s]. rewrite fan_out_elem, <-live_match_spec.
  split; [naive_solver|]. intros (e & Hl & Hs). split; [by exists e|].
  destruct (selected_probed comm ev e Hs) as (key & Hp & Hk). exists key. split; [done|].
  apply (ok_entries r Hok). eauto.
Qed.

(** ** Lemmas: readers of the registry *)

Lemma subscriber_conns_loop comm ch (xs : list (CommunityId * IndexKey * Entries)) conns n :
  n ∈ foldl (λ conns '(key, entries),
      if bool_decide (key.1 = comm) && bool_decide (ik_channel_id key.2 = ch)
      then list_to_set entries.*1 ∪ conns else conns) (conns : gset ConnId) xs ↔
  n ∈ conns ∨ ∃ k es s, ((comm, mkIndexKey ch k), es) ∈ xs ∧ (n, s) ∈ es.
Proof.
  revert conns. induction xs as [|[[c ik] es] xs IH]; intros conns; simpl; [set_solver|].
  rewrite IH. setoid_rewrite elem_of_cons. destruct (andb _ _) eqn:Hb; breflect.
  - simpl in *. subst. destruct ik as [ch k]. simpl.
    rewrite elem_of_union, elem_of_list_to_set, list_elem_of_fmap. split.
    + intros [[([n' s] & -> & Hin)|Hc]|Hx]; [|by left|right; naive_solver].
      right. exists k, es, s. auto.
    + intros [Hc|(k' & es' & s & [[= <- <-]|Hin] & Hns)]; [auto| |right; eauto].
      left. left. by exists (n, s).
  - split; [naive_solver|]. intros [Hc|(k' & es' & s & [[= <- <- <-]|Hin] & Hns)]; [auto| |right; eauto].
    simpl in Hb. by rewrite !bool_decide_eq_true_2 in Hb.
Qed.

Lemma subscriber_conns_elem comm ch r n :
  n ∈ channel_subscriber_conns_scoped comm ch r ↔
  ∃ key s, (n, s) ∈ entries r key ∧
    (key = KChannelWildcard (comm, ch) ∨ ∃ k, key = KChannelKind (comm, mkIndexKey ch k)).
Proof.
  unfold channel_subscriber_conns_scoped. rewrite elem_of_elements.
  set (conns := foldl _ _ _).
  assert (n ∈ conns ↔ ∃ k s, (n, s) ∈ entries r (KChannelKind (comm, mkIndexKey ch k))) as Hconns.
  { unfold conns. rewrite subscriber_conns_loop. setoid_rewrite elem_of_hiter.
    unfold entries. simpl. split.
    - intros [?|(k & es & s & Hl & Hin)]; [set_solver|]. exists k, s. by rewrite Hl.
    - intros (k & s & Hin). right. destruct (channel_kind_index r !! _) as [es|] eqn:E;
        [|set_solver]. eauto. }
  transitivity ((∃ s, (n, s) ∈ entries r (KChannelWildcard (comm, ch))) ∨ n ∈ conns).
  - unfold entries. simpl. destruct (channel_wildcard_index r !! _) as [es|]; simpl; [|set_solver].
    rewrite elem_of_union, elem_of_list_to_set, list_elem_of_fmap. split.
    + intros [([n' s] & -> & Hin)|?]; eauto.
    + intros [[s Hs]|?]; [left; by exists (n, s)|auto].
  - rewrite Hconns. naive_solver.
Qed.

Lemma channel_keys_iff fs comm' scope comm ch key :
  (key = KChannelWildcard (comm, ch) ∨ ∃ k, key = KChannelKind (comm, mkIndexKey ch k)) →
  key ∈ keys_of fs comm' scope →
  comm' = comm ∧ ch ∈ channel_ids scope ∧ extract_kinds_from_filters fs ≠ Some [].
Proof.
  unfold keys_of. intros Hkey. destruct scope as [|chs]; simpl.
  - destruct (extract_global_p_kind_index_keys comm' fs), (extract_kinds_from_filters fs);
      rewrite ?list_elem_of_fmap, ?list_elem_of_singleton; naive_solver.
  - rewrite list_elem_of_bind. intros (ch' & Hin & Hch).
    destruct (extract_kinds_from_filters fs) as [[|k ks]|]; [set_solver|..].
    + apply list_elem_of_fmap in Hin as (k' & -> & _). naive_solver.
    + apply list_elem_of_singleton in Hin as ->. naive_solver.
Qed.

Lemma channel_keys_exist fs comm chs ch :
  ch ∈ chs → extract_kinds_from_filters fs ≠ Some [] →
  ∃ key, key ∈ keys_of fs comm (Channels chs) ∧
    (key = KChannelWildcard (comm, ch) ∨ ∃ k, key = KChannelKind (comm, mkIndexKey ch k)).
Proof.
  intros Hch Hk. unfold keys_of. setoid_rewrite list_elem_of_bind.
  destruct (extract_kinds_from_filters fs) as [[|k ks]|]; [done|..].
  - exists (KChannelKind (comm, mkIndexKey ch k)). split; [|eauto]. exists ch. split; [|done]. left.
  - exists (KChannelWildcard (comm, ch)). split; [|auto]. exists ch. split; [left|done].
Qed.

(** Every live subscription of every connection, as [per_community_subscriptions]
    walks them. *)
Definition all_communities (r : SubscriptionRegistry) : list CommunityId :=
  hiter (subs r) ≫= λ '(_, cs), (λ e : SubId * SubEntry, e.2.1.2) <$> hiter cs.

Lemma count_loop (xs : list (SubId * SubEntry)) (counts : gmap CommunityId Z) comm :
  default 0%Z (foldl (λ counts '(_, (_, community_id, _)),
      <[community_id := (default 0 (counts !! community_id) + 1)%Z]> counts) counts xs !! comm) =
  (default 0 (counts !! comm) +
   Z.of_nat (length (filter (λ c, c = comm) ((λ e : SubId * SubEntry, e.2.1.2) <$> xs))))%Z.
Proof.
  revert counts. induction xs as [|[s [[fs c] scope]] xs IH]; intros counts; [simpl; lia|].
  rewrite fmap_cons, filter_cons. cbn [foldl]. rewrite IH, lookup_insert.
  cbn [fst snd]. case_decide as Hc; [rewrite Hc|done].
  change (default 0%Z (Some ?z)) with z. cbn [length]. lia.
Qed.

Lemma per_community_count r comm :
  default 0%Z (per_community_subscriptions r !! comm) =
  Z.of_nat (length (filter (λ c, c = comm) (all_communities r))).
Proof.
  unfold per_community_subscriptions, all_communities.
  cut (∀ xs (counts : gmap CommunityId Z), default 0%Z (foldl (λ counts '(_, conn_subs),
      foldl (λ counts '(_, (_, community_id, _)),
        <[community_id := (default 0 (counts !! community_id) + 1)%Z]> counts)
      counts (hiter conn_subs)) counts xs !! comm) =
    (default 0 (counts !! comm) + Z.of_nat (length (filter (λ c, c = comm)
      (xs ≫= λ '((_, cs) : ConnId * gmap SubId SubEntry),
         (λ e : SubId * SubEntry, e.2.1.2) <$> hiter cs))))%Z).
  { intros Hcut. by rewrite Hcut, lookup_empty. }
  induction xs as [|[n cs] xs IH]; intros counts; [simpl; lia|].
  rewrite bind_cons, filter_app, length_app. cbn [foldl]. rewrite IH, count_loop. lia.
Qed.

(** ** Properties *)

Lemma reg_run_refines ops : abs (reg_run ops) = foldl spec_exec ∅ ops.
Proof.
  unfold reg_run. change ∅ with (abs registry_new).
  generalize registry_ok_new. generalize registry_new.
  induction ops as [|op ops IH]; intros r Hr; simpl; [done|].
  rewrite IH by by apply reg_exec_ok. by rewrite reg_exec_refines.
Qed.

Lemma matches_channel_revoke chs ch ev :
  matches_channel (Channels (filter (λ x, x ≠ ch) chs)) (channel_id ev) = true ↔
  matches_channel (Channels chs) (channel_id ev) = true ∧ channel_id ev ≠ Some ch.
Proof.
  destruct (channel_id ev) as [ch'|]; simpl; [|naive_solver].
  rewrite !bool_decide_eq_true, elem_of_filter_ne. naive_solver.
Qed.

(** Revocation removes the events of the channel, and only them, from what an
    entry selects. *)
Lemma revoke_selected comm ch ev e :
  (∃ e', revoke_entry comm ch e = Some e' ∧ entry_selected comm ev e') ↔
  entry_selected comm ev e ∧ channel_id ev ≠ Some ch.
Proof.
  destruct e as [[fs comm'] [|chs]].
  { unfold revoke_entry, entry_selected. simpl. destruct (channel_id ev); naive_solver. }
  destruct (decide (comm' = comm ∧ ch ∈ chs)) as [[-> Hch]|Hno].
  - rewrite revoke_entry_Channels by done. unfold entry_selected.
    pose proof (matches_channel_revoke chs ch ev) as Hm. cbn [fst snd].
    case_decide as Hnil; [rewrite Hnil in Hm|].
    + assert (matches_channel (Channels []) (channel_id ev) ≠ true) as Hf
        by (by destruct (channel_id ev)).
      split; [intros (? & ? & _); done|]. intros [(_ & Hs & _) Hne]. destruct Hf. tauto.
    + split; [intros (? & [= <-] & Hs); cbn [fst snd] in Hs; tauto|].
      intros [Hs Hne]. eexists. split; [done|]. cbn [fst snd]. tauto.
  - rewrite revoke_entry_id by naive_solver. split; [|naive_solver].
    intros (e & [= <-] & Hc & Hm & Hf). split; [done|]. intros Heq.
    rewrite Heq in Hm. simpl in *. breflect. naive_solver.
Qed.

(** C2: for every sequence of registry operations, fan-out of an event through
    the five indexes delivers exactly the subscriptions that a plain scan of
    the (connection, id) map kept by the same operations selects, each once. *)
Theorem fan_out_refines_scan {laws : NostrLaws _} ops comm ev :
  (∀ x, x ∈ fan_out_scoped (reg_run ops) comm ev ↔
        x ∈ spec_fan_out (foldl spec_exec ∅ ops) comm ev) ∧
  NoDup (fan_out_scoped (reg_run ops) comm ev).
Proof.
  split; [|apply fan_out_NoDup]. intros x.
  rewrite fan_out_exact by apply reg_run_ok. by rewrite reg_run_refines.
Qed.

(** after any sequence of operations the indexes hold exactly the keys of
    the live subscriptions, no index keeps an empty vector, and the
    active-subscriptions gauge equals the number of live subscriptions. *)
Theorem registry_invariant ops : registry_ok (reg_run ops).
Proof. apply reg_run_ok. Qed.

(** whatever the indexes hold, even stale candidates, everything fan-out
    delivers is a live subscription of the same community whose scope admits
    the event's channel and whose filters select the event: no delivery
    crosses a tenant or a channel boundary. *)
Theorem fan_out_never_leaks r comm ev c s :
  (c, s) ∈ fan_out_scoped r comm ev →
  ∃ filters scope, lookup_sub r c s = Some (filters, comm, scope) ∧
    matches_channel scope (channel_id ev) = true ∧ filters_match filters ev = true.
Proof.
  rewrite fan_out_elem. intros [([[fs comm'] scope] & Hl & Hc & Hs & Hf) _].
  simpl in *. subst. eauto.
Qed.

(** revoking a channel from a connection stops every delivery of that
    channel's events to it in that community and changes no delivery of any
    other event. *)
Theorem revoked_channel_not_delivered {laws : NostrLaws _} ops comm c ch ev x :
  let r := reg_run ops in
  let r' := (remove_channel_subscriptions_scoped comm c ch r).2 in
  x ∈ fan_out_scoped r' comm ev ↔
  x ∈ fan_out_scoped r comm ev ∧ ¬ (x.1 = c ∧ channel_id ev = Some ch).
Proof.
  intros r r'. pose proof (reg_run_ok ops) as Hok.
  destruct (remove_channel_spec comm c ch (reg_run ops) Hok) as (Hok' & Hl & _).
  rewrite !fan_out_exact by done. destruct x as [n s]. rewrite <-!live_match_spec. simpl.
  unfold live_match. simpl. fold r r' in Hl. rewrite Hl.
  case_decide as Hn; [|naive_solver]. rewrite Hn.
  destruct (lookup_sub r c s) as [e|]; simpl; [|naive_solver].
  rewrite revoke_selected. naive_solver.
Qed.

(** registering an id replaces the entry it had and reports that entry's
    community and scope; removing it reports the same; every other
    subscription is untouched. *)
Theorem register_replaces comm c s fs scope ops :
  let r := reg_run ops in
  let '(removed, r') := register_with_scope comm c s fs scope r in
  removed = (λ e, mkRemoved e.1.2 e.2) <$> lookup_sub r c s ∧
  lookup_sub r' c s = Some (fs, comm, scope) ∧
  (∀ c' s', (c', s') ≠ (c, s) → lookup_sub r' c' s' = lookup_sub r c' s') ∧
  lookup_sub (remove_subscription c s r').2 c s = None ∧
  (remove_subscription c s r').1 = Some (mkRemoved comm scope).
Proof.
  intros r. pose proof (register_with_scope_spec comm c s fs scope r (reg_run_ok ops)) as Hreg.
  destruct (register_with_scope comm c s fs scope r) as [removed r'].
  destruct Hreg as (Hok & Hl & Hrem). simpl in *.
  assert (lookup_sub r' c s = Some (fs, comm, scope)) as Hcs by by rewrite Hl, decide_True.
  destruct (remove_subscription_spec c s r' Hok) as (_ & Hl' & Hrem').
  split; [done|]. split; [done|]. split; [intros; rewrite Hl; by rewrite decide_False|].
  rewrite Hl', Hrem', Hcs. by rewrite decide_True.
Qed.

(** the connections reported for a channel are exactly those holding a
    subscription of the community scoped to it whose filters can match some
    kind, each once. *)
Theorem channel_subscriber_conns_spec ops comm ch n :
  let r := reg_run ops in
  (n ∈ channel_subscriber_conns_scoped comm ch r ↔
   ∃ s fs chs, lookup_sub r n s = Some (fs, comm, Channels chs) ∧ ch ∈ chs ∧
     extract_kinds_from_filters fs ≠ Some []) ∧
  NoDup (channel_subscriber_conns_scoped comm ch r).
Proof.
  intros r. split; [|apply NoDup_elements]. pose proof (ok_entries r (reg_run_ok ops)) as Hidx.
  rewrite subscriber_conns_elem. split.
  - intros (key & s & ([[fs comm'] scope] & Hl & Hk)%Hidx & Hkey).
    destruct (channel_keys_iff fs comm' scope comm ch key Hkey Hk) as (-> & Hch & Hks).
    destruct scope as [|chs]; [set_solver|]. eauto 7.
  - intros (s & fs & chs & Hl & Hch & Hks).
    destruct (channel_keys_exist fs comm chs ch Hch Hks) as (key & Hk & Hkey).
    exists key, s. split; [|done]. apply Hidx. eauto.
Qed.

End subscription.

(** ** Witnesses *)

Module SubscriptionDemo.

Definition kind9 : NostrFilter := mkFilter None None (Some [9%Z]) None None [].
Definition to_alice : NostrFilter :=
  mkFilter None None (Some [9%Z]) None None [(p_tag, ["alice"])].
Definition ev_in (ch : option N) (tags : list (list string)) : StoredEvent :=
  stored_event_new 0 (mkEvent 1 2 100 9 tags "hi") ch.
Definition demo_ops : list reg_op :=
  [OpRegister 1 5 "a" [kind9] (Some 7%N);
   OpRegister 1 6 "b" [to_alice] None;
   OpRegister 2 8 "c" [kind9] (Some 7%N);
   OpRegisterChannels 1 5 "d" [kind9] [7%N; 11%N]].

Example demo_fan_out_channel :
  fan_out_scoped (reg_run demo_ops) 1 (ev_in (Some 7%N) []) = [(5%N, "a"); (5%N, "d")].
Proof. vm_compute. reflexivity. Qed.

Example demo_fan_out_global :
  fan_out_scoped (reg_run demo_ops) 1 (ev_in None [["p"; "alice"]]) = [(6%N, "b")].
Proof. vm_compute. reflexivity. Qed.

(** A connection whose last subscription was removed still counts. *)
Example idle_connection_counted :
  let r := reg_run [OpRegister 1 5 "a" [kind9] (Some 7%N); OpRemove 5 "a"] in
  total_connections r = 1 ∧ total_subscriptions r = 0.
Proof. vm_compute. split; reflexivity. Qed.

Lemma fan_out_refines_scan_witness :
  (5%N, "d") ∈ spec_fan_out (foldl spec_exec ∅ demo_ops) 1 (ev_in (Some 7%N) []).
Proof.
  apply (fan_out_refines_scan demo_ops 1 (ev_in (Some 7%N) [])).
  rewrite demo_fan_out_channel. right. left.
Defined.

Lemma fan_out_never_leaks_witness :
  ∃ filters scope,
    lookup_sub (reg_run demo_ops) 6 "b" = Some (filters, 1%N, scope) ∧
    matches_channel scope None = true ∧
    filters_match filters (ev_in None [["p"; "alice"]]) = true.
Proof.
  apply (fan_out_never_leaks (reg_run demo_ops) 1 (ev_in None [["p"; "alice"]]) 6 "b").
  rewrite demo_fan_out_global. left.
Defined.

Lemma revoked_channel_not_delivered_witness :
  ¬ (5%N, "d") ∈ fan_out_scoped
      (remove_channel_subscriptions_scoped 1 5 7 (reg_run demo_ops)).2 1 (ev_in (Some 7%N) []).
Proof.
  intros Hin. apply (revoked_channel_not_delivered demo_ops 1 5 7 (ev_in (Some 7%N) [])) in Hin.
  destruct Hin as [_ Hn]. by apply Hn.
Defined.

End SubscriptionDemo.
