(* ===== verification/ReadGate.v ===== *)
(** * Who may read which event ([buzz-core/src/kind.rs], [buzz-relay/src/handlers/req.rs])

    Four classes of kinds are private.  The gates on a request's filters
    ([p_gated_filters_authorized], [engram_filters_authorized],
    [author_only_filters_authorized]) refuse requests that fish for them, the gate on
    each event ([event_visible_to_reader]) withholds the events themselves, and COUNT
    may skip the second one only when the filter makes it superfluous.  [may_read] says
    what the four classes are promised; the gates together imply it. *)

From stdpp Require Import base gmap strings list.
From S2P Require Import Prelude Text Nostr CanonicalJson Tenant Auth Protocol Filter.

(** ** Kinds *)

Definition KIND_EVENT_REMINDER : Z := 30300.
Definition KIND_PUSH_LEASE : Z := 30350.
Definition KIND_PRIVATE_MANAGED_AGENT : Z := 30179.
Definition KIND_AGENT_OBSERVER_FRAME : Z := 24200.
Definition KIND_MEMBER_ADDED_NOTIFICATION : Z := 44100.
Definition KIND_MEMBER_REMOVED_NOTIFICATION : Z := 44101.
Definition KIND_GIFT_WRAP : Z := 1059.
Definition KIND_PERSONA : Z := 30175.
Definition KIND_TEAM_CATALOG : Z := 30178.
Definition KIND_AGENT_ENGRAM : Z := 30174.
Definition KIND_NIP43_MEMBERSHIP_LIST : Z := 13534.

Definition AUTHOR_ONLY_KINDS : list Z := [KIND_EVENT_REMINDER; KIND_PUSH_LEASE; KIND_PRIVATE_MANAGED_AGENT].
Definition RESULT_GATED_KINDS : list Z := [KIND_DM_VISIBILITY; KIND_AGENT_TURN_METRIC].
Definition P_GATED_KINDS : list Z :=
  [KIND_AGENT_OBSERVER_FRAME; KIND_MEMBER_ADDED_NOTIFICATION; KIND_MEMBER_REMOVED_NOTIFICATION;
   KIND_GIFT_WRAP; KIND_DM_VISIBILITY; KIND_AGENT_TURN_METRIC].
Definition SHARED_GATED_KINDS : list Z := [KIND_PERSONA; KIND_TEAM_CATALOG].

Definition is_parameterized_replaceable (kind : Z) : bool := ((30000 <=? kind) && (kind <=? 39999))%Z.

Definition contains (l : list Z) (kind : Z) : bool := bool_decide (kind ∈ l).

Definition is_shared_gated_kind (kind : Z) : bool := contains SHARED_GATED_KINDS kind.

(** The loop of [event_is_shared]: [false] is the early return. *)
Fixpoint shared_loop (count : nat) (tags : list Tag) : bool :=
  match tags with
  | [] => bool_decide (count = 1)
  | parts :: tags =>
      if decide (length parts = 2 ∧ parts !! 0 = Some "shared") then
        if decide (parts !! 1 = Some "true") then shared_loop (S count) tags else false
      else if decide (parts !! 0 = Some "shared") then false
      else shared_loop count tags
  end.

Definition event_is_shared (e : NostrEvent) : bool := shared_loop 0 (ev_tags e).

Definition is_unshared_gated_event (e : NostrEvent) (requester : PublicKey) : bool :=
  if negb (is_shared_gated_kind (ev_kind e)) then false
  else if decide (ev_pubkey e = requester) then false
  else negb (event_is_shared e).

Definition is_author_only_event (e : NostrEvent) (requester : PublicKey) : bool :=
  contains AUTHOR_ONLY_KINDS (ev_kind e) && bool_decide (ev_pubkey e ≠ requester).

(** ** Gates *)

Section gates.
Context `{NostrApi}.

(** [hex::encode] of the reader's key is its [to_hex]. *)
Definition event_visible_to_reader (e : NostrEvent) (requester : PublicKey) : bool :=
  if is_author_only_event e requester then false
  else if is_unshared_gated_event e requester then false
  else if negb (reader_authorized_for_event e (id_to_hex requester)) then false
  else true.

(** [kinds.as_ref().is_none_or(|ks| ks.iter().any(|k| gated.contains(k)))]. *)
Definition kinds_can_match (gated : list Z) (f : NostrFilter) : bool :=
  match f_kinds f with
  | None => true
  | Some ks => existsb (contains gated) ks
  end.

Definition filter_can_match_author_only_kinds : NostrFilter → bool := kinds_can_match AUTHOR_ONLY_KINDS.
Definition filter_can_match_shared_gated_kinds : NostrFilter → bool := kinds_can_match SHARED_GATED_KINDS.
Definition filter_can_match_result_gated_kinds : NostrFilter → bool := kinds_can_match RESULT_GATED_KINDS.

(** [ids.is_some_and(|ids| !ids.is_empty())]. *)
Definition has_ids (f : NostrFilter) : bool :=
  match f_ids f with Some (_ :: _) => true | _ => false end.

(** [#p] is given, not empty, and every value is the reader's key; the same test in the
    two gates and in [result_gated_count_safe_for_pushdown]. *)
Definition p_tag_is_self (f : NostrFilter) (authed_pubkey_hex : string) : bool :=
  match generic_tags_get p_tag (f_generic_tags f) with
  | Some values => bool_decide (values ≠ []) && forallb (λ v, bool_decide (v = authed_pubkey_hex)) values
  | None => false
  end.

(** [authors] is given, not empty, and every one is the reader. *)
Definition author_is_self (f : NostrFilter) (authed_pubkey_hex : string) : bool :=
  match f_authors f with
  | Some authors =>
      bool_decide (authors ≠ []) && forallb (λ a, eq_ignore_ascii_case (id_to_hex a) authed_pubkey_hex) authors
  | None => false
  end.

Definition result_gated_count_safe_for_pushdown : NostrFilter → string → bool := p_tag_is_self.

Definition p_gated_filter_authorized (authed_pubkey_hex : string) (f : NostrFilter) : bool :=
  let can_match_p_gated := kinds_can_match P_GATED_KINDS f in
  if negb can_match_p_gated then true
  else
    let explicitly_no_ids_exemption :=
      match f_kinds f with
      | Some ks => existsb (λ k, (k =? KIND_DM_VISIBILITY)%Z || (k =? KIND_AGENT_TURN_METRIC)%Z) ks
      | None => false
      end in
    if negb explicitly_no_ids_exemption && has_ids f then true
    else p_tag_is_self f authed_pubkey_hex.

Definition p_gated_filters_authorized (filters : list NostrFilter) (authed_pubkey_hex : string) : bool :=
  forallb (p_gated_filter_authorized authed_pubkey_hex) filters.

Definition engram_filter_authorized (authed_pubkey_hex : string) (f : NostrFilter) : bool :=
  if has_ids f then true
  else if negb (kinds_can_match [KIND_AGENT_ENGRAM] f) then true
  else if author_is_self f authed_pubkey_hex then true
  else p_tag_is_self f authed_pubkey_hex.

Definition engram_filters_authorized (filters : list NostrFilter) (authed_pubkey_hex : string) : bool :=
  forallb (engram_filter_authorized authed_pubkey_hex) filters.

Definition author_only_filter_authorized (authed_pubkey_hex : string) (f : NostrFilter) : bool :=
  let targets_only_author_only :=
    match f_kinds f with
    | Some ks => bool_decide (ks ≠ []) && forallb (contains AUTHOR_ONLY_KINDS) ks
    | None => false
    end in
  if negb targets_only_author_only then true else author_is_self f authed_pubkey_hex.

Definition author_only_filters_authorized (filters : list NostrFilter) (authed_pubkey_hex : string) : bool :=
  forallb (author_only_filter_authorized authed_pubkey_hex) filters.

(** ** COUNT *)

(** The loop over the generic tags of [filter_fully_pushable]: one tag. *)
Definition tag_pushable (is_nip33_only : bool) (tag : SingleLetterTag * list string) : bool :=
  let key := slt_to_string tag.1 in
  if decide (key = "h") then true
  else if decide (key = "p") then negb (1 <? length tag.2)
  else if decide (key = "d") then negb (bool_decide (tag.2 ≠ []) && negb is_nip33_only)
  else if decide (key = "e") then true
  else bool_decide (tag.2 = []).

Definition is_nip33_only (f : NostrFilter) : bool :=
  match f_kinds f with
  | Some ks => bool_decide (ks ≠ []) && forallb is_parameterized_replaceable ks
  | None => false
  end.

Definition filter_fully_pushable (f : ReqFilter) : bool :=
  forallb (tag_pushable (is_nip33_only (rf_filter f))) (f_generic_tags (rf_filter f)) &&
  bool_decide (rf_search f = None).

(** The condition under which [handle_count] lets the database count. *)
Definition count_fast_path (f : ReqFilter) (authed_pubkey_hex : string) : bool :=
  let needs_author_only_filtering := filter_can_match_author_only_kinds (rf_filter f) in
  let needs_shared_gate_filtering := filter_can_match_shared_gated_kinds (rf_filter f) in
  let needs_result_gated_filtering :=
    filter_can_match_result_gated_kinds (rf_filter f) &&
    negb (result_gated_count_safe_for_pushdown (rf_filter f) authed_pubkey_hex) in
  filter_fully_pushable f
    && (negb needs_author_only_filtering || author_is_self (rf_filter f) authed_pubkey_hex)
    && negb needs_result_gated_filtering
    && negb needs_shared_gate_filtering.

End gates.

(** ** The promise *)

Section promise.
Context {api : NostrApi}.

(** The event names the reader in a [p] tag. *)
Definition names (e : NostrEvent) (reader : PublicKey) : Prop :=
  ∃ t, t ∈ ev_tags e ∧ tag_kind t = "p" ∧ tag_content t = Some (id_to_hex reader).

(** The filter asks for the event by its id. *)
Definition asked_by_id (f : NostrFilter) (e : NostrEvent) : Prop :=
  ∃ ids id, f_ids f = Some ids ∧ id ∈ ids ∧ starts_with (id_to_hex id) (id_to_hex (ev_id e)) = true.

(** What a reader may be shown of the private classes, through a filter. *)
Record may_read (f : NostrFilter) (e : NostrEvent) (reader : PublicKey) : Prop := {
  mr_author_only : ev_kind e ∈ AUTHOR_ONLY_KINDS → ev_pubkey e = reader;
  mr_shared : ev_kind e ∈ SHARED_GATED_KINDS →
    ev_pubkey e = reader ∨ List.filter (λ t, bool_decide (t !! 0 = Some "shared")) (ev_tags e) = [["shared"; "true"]];
  mr_result : ev_kind e ∈ RESULT_GATED_KINDS → names e reader;
  mr_p_gated : ev_kind e ∈ P_GATED_KINDS → names e reader ∨ asked_by_id f e;
  mr_engram : ev_kind e = KIND_AGENT_ENGRAM → ev_pubkey e = reader ∨ names e reader ∨ asked_by_id f e
}.

End promise.

(** Keys are 32 bytes and print in lower case. *)
Definition key_ok (k : N) : Prop := (k < 2 ^ 256)%N.
Definition filter_ok (f : NostrFilter) : Prop := ∀ authors, f_authors f = Some authors → Forall key_ok authors.

Class HexLowerLaws (api : NostrApi) := id_hex_lower : ∀ a, to_ascii_lowercase (id_to_hex a) = id_to_hex a.

(** ** Lemmas *)

Section lemmas.
Context {api : NostrApi} {L : NostrLaws api} {IL : IdHexLaws api} {HL : HexLowerLaws api}.

Lemma shared_loop_iff n ts :
  shared_loop n ts = true ↔
    n + length (List.filter (λ t, bool_decide (t !! 0 = Some "shared")) ts) = 1 ∧
    Forall (λ t, t = ["shared"; "true"]) (List.filter (λ t, bool_decide (t !! 0 = Some "shared")) ts).
Proof.
  revert n. induction ts as [|t ts IH]; intros n; cbn [shared_loop List.filter length].
  { rewrite bool_decide_eq_true. split; [intros ->; split; [lia|constructor]|intros [? _]; lia]. }
  destruct (decide (t !! 0 = Some "shared")) as [Ht|Ht].
  - rewrite (bool_decide_eq_true_2 (t !! 0 = _)) by done. rewrite Forall_cons. cbn [length].
    destruct (decide (length t = 2 ∧ _)) as [[Hl _]|Hn].
    + destruct t as [|a [|b [|c t]]]; try done. injection Ht as ->. simpl.
      destruct (decide (Some b = Some "true")) as [[= ->]|Hb]; [|naive_solver].
      rewrite IH. rewrite Nat.add_succ_r. naive_solver.
    + split; [done|]. intros [_ [-> _]]. destruct Hn. done.
  - rewrite (bool_decide_eq_false_2 (t !! 0 = _)) by done. rewrite decide_False by tauto. apply IH.
Qed.

Lemma event_is_shared_iff e :
  event_is_shared e = true ↔
  List.filter (λ t, bool_decide (t !! 0 = Some "shared")) (ev_tags e) = [["shared"; "true"]].
Proof.
  unfold event_is_shared. rewrite shared_loop_iff. split.
  - intros [Hn Hf]. destruct (List.filter _ _) as [|t [|t' l]]; simpl in Hn; try lia.
    apply Forall_cons in Hf as [-> _]. done.
  - intros ->. split; [done|]. by repeat constructor.
Qed.

Lemma contains_iff l k : contains l k = true ↔ k ∈ l.
Proof. apply bool_decide_eq_true. Qed.

Lemma kinds_can_match_selects gated f ev :
  selects f ev → ev_kind (event ev) ∈ gated → kinds_can_match gated f = true.
Proof.
  intros (Hk & _) Hg. unfold kinds_can_match. destruct (f_kinds f) as [ks|]; [|done].
  apply existsb_elem_of. exists (ev_kind (event ev)). rewrite contains_iff. auto.
Qed.

Lemma p_tag_is_self_selects f reader ev :
  selects f ev → p_tag_is_self f (id_to_hex reader) = true → names (event ev) reader.
Proof using L.
  intros (_ & _ & _ & _ & _ & Ht) Hp. unfold p_tag_is_self in Hp.
  destruct (generic_tags_get _ _) as [vs|] eqn:E; [|done]. apply generic_tags_get_elem in E.
  apply andb_true_iff in Hp as [_ Hall]. rewrite forallb_elem_of in Hall.
  destruct (Ht p_tag vs E) as [(v & Hv & t & Hin & Hk & Hc)|[Hh _]]; rewrite slt_p in *; [|done].
  apply Hall in Hv as ->%bool_decide_eq_true. by exists t.
Qed.

Lemma author_is_self_selects f reader ev :
  key_ok reader → filter_ok f → selects f ev →
  author_is_self f (id_to_hex reader) = true → ev_pubkey (event ev) = reader.
Proof using IL HL.
  intros Hr Hok (_ & Ha & _) Hs. unfold author_is_self in Hs. destruct (f_authors f) as [au|] eqn:E; [|done].
  apply andb_true_iff in Hs as [_ Hall]. rewrite forallb_elem_of in Hall. specialize (Ha au eq_refl).
  pose proof (proj1 (Forall_forall _ _) (Hok au E) _ Ha) as Hk.
  apply Hall in Ha. unfold eq_ignore_ascii_case in Ha. apply bool_decide_eq_true in Ha. rewrite !id_hex_lower in Ha.
  by apply id_to_hex_inj in Ha.
Qed.

Lemma has_ids_selects f ev : selects f ev → has_ids f = true → asked_by_id f (event ev).
Proof.
  intros (_ & _ & _ & _ & Hi & _). unfold has_ids. destruct (f_ids f) as [ids|] eqn:E; [|done].
  destruct (Hi ids eq_refl) as (id & Hin & Hp). intros _. by exists ids, id.
Qed.

Lemma visible_iff e reader :
  event_visible_to_reader e reader = true ↔
    (ev_kind e ∈ AUTHOR_ONLY_KINDS → ev_pubkey e = reader) ∧
    (ev_kind e ∈ SHARED_GATED_KINDS → ev_pubkey e = reader ∨ event_is_shared e = true) ∧
    (ev_kind e ∈ RESULT_GATED_KINDS → names e reader).
Proof using L.
  unfold event_visible_to_reader, is_author_only_event, is_unshared_gated_event, is_shared_gated_kind.
  assert (reader_authorized_for_event e (id_to_hex reader) = true ↔ (ev_kind e ∈ RESULT_GATED_KINDS → names e reader)) as Hr.
  { rewrite reader_authorized_spec. unfold RESULT_GATED_KINDS, names. rewrite !elem_of_cons, elem_of_nil. naive_solver. }
  rewrite <-Hr. clear Hr. destruct (contains AUTHOR_ONLY_KINDS _) eqn:Ha.
  - apply contains_iff in Ha. simpl. destruct (decide (ev_pubkey e = reader)) as [->|Hn].
    + rewrite bool_decide_eq_false_2 by auto. destruct (contains SHARED_GATED_KINDS _); simpl;
        destruct (reader_authorized_for_event _ _); naive_solver.
    + rewrite bool_decide_eq_true_2 by done. naive_solver.
  - assert (ev_kind e ∉ AUTHOR_ONLY_KINDS) as Hna by (intros ?%contains_iff; congruence). simpl.
    destruct (contains SHARED_GATED_KINDS _) eqn:Hs; simpl.
    + apply contains_iff in Hs. destruct (decide (ev_pubkey e = reader)) as [->|Hn].
      * destruct (reader_authorized_for_event _ _); naive_solver.
      * destruct (event_is_shared e), (reader_authorized_for_event _ _); naive_solver.
    + assert (ev_kind e ∉ SHARED_GATED_KINDS) as Hns by (intros ?%contains_iff; congruence).
      destruct (reader_authorized_for_event _ _); naive_solver.
Qed.

End lemmas.

(** ** Properties *)

Section properties.
Context {api : NostrApi} {L : NostrLaws api} {IL : IdHexLaws api} {HL : HexLowerLaws api}.

(** A request whose filters pass the gates is shown only what its reader may read: an
    event one of its filters selects and that passes the gate on events is its
    author's, shared, addressed to the reader, or -- for the kinds whose id is
    authorization -- asked for by id. *)
Lemma gates_keep_promise filters f reader ev :
  key_ok reader → filter_ok f → f ∈ filters →
  p_gated_filters_authorized filters (id_to_hex reader) = true →
  engram_filters_authorized filters (id_to_hex reader) = true →
  selects f ev → event_visible_to_reader (event ev) reader = true →
  may_read f (event ev) reader.
Proof using L IL HL.
  unfold p_gated_filters_authorized, engram_filters_authorized. rewrite !forallb_elem_of.
  intros Hr Hok Hf Hp He Hs (Ha & Hsh & Hres)%visible_iff. apply Hp in Hf as Hpf. apply He in Hf as Hef.
  split; [done|setoid_rewrite <-event_is_shared_iff; done|done|..].
  - intros Hk. unfold p_gated_filter_authorized in Hpf. rewrite (kinds_can_match_selects _ _ _ Hs Hk) in Hpf.
    simpl in Hpf. destruct (negb _ && has_ids f) eqn:E.
    + apply andb_true_iff in E as [_ E]. right. by eapply has_ids_selects.
    + left. by eapply p_tag_is_self_selects.
  - intros Hk. unfold engram_filter_authorized in Hef. destruct (has_ids f) eqn:E.
    { right; right. by eapply has_ids_selects. }
    rewrite (kinds_can_match_selects _ _ _ Hs) in Hef by (rewrite Hk; left). simpl in Hef.
    destruct (author_is_self _ _) eqn:Es.
    + left. by eapply author_is_self_selects.
    + right; left. by eapply p_tag_is_self_selects.
Qed.

(** Whenever COUNT leaves the counting to the database, every event its filter selects
    may be shown to the reader, so the number reveals nothing that REQ would withhold. *)
Lemma count_fast_path_sound f reader ev :
  key_ok reader → filter_ok (rf_filter f) →
  count_fast_path f (id_to_hex reader) = true →
  selects (rf_filter f) ev → event_visible_to_reader (event ev) reader = true.
Proof using L IL HL.
  intros Hr Hok Hc Hs. unfold count_fast_path in Hc. rewrite !andb_true_iff, !negb_true_iff in Hc.
  destruct Hc as [[[_ Ha] Hres] Hsh]. apply visible_iff. split_and!.
  - intros Hk. unfold filter_can_match_author_only_kinds in Ha. rewrite (kinds_can_match_selects _ _ _ Hs Hk) in Ha.
    by eapply author_is_self_selects.
  - intros Hk. unfold filter_can_match_shared_gated_kinds in Hsh. by rewrite (kinds_can_match_selects _ _ _ Hs Hk) in Hsh.
  - intros Hk. unfold filter_can_match_result_gated_kinds, result_gated_count_safe_for_pushdown in Hres.
    rewrite (kinds_can_match_selects _ _ _ Hs Hk) in Hres. simpl in Hres. apply negb_false_iff in Hres.
    by eapply p_tag_is_self_selects.
Qed.

(** A filter for author-only kinds alone that passes its gate selects nothing the gate on
    events would withhold. *)
Lemma author_only_gate_exact filters f ks reader ev :
  key_ok reader → filter_ok f → f ∈ filters → f_kinds f = Some ks → Forall (.∈ AUTHOR_ONLY_KINDS) ks →
  author_only_filters_authorized filters (id_to_hex reader) = true →
  selects f ev → event_visible_to_reader (event ev) reader = true.
Proof using L IL HL.
  unfold author_only_filters_authorized. rewrite forallb_elem_of. intros Hr Hok Hf Hks Hall Hau Hs.
  apply Hau in Hf. unfold author_only_filter_authorized in Hf. rewrite Hks in Hf.
  assert (ev_kind (event ev) ∈ ks) as Hin by (destruct Hs as [Hk _]; eauto).
  rewrite bool_decide_eq_true_2 in Hf by (by intros ->; apply not_elem_of_nil in Hin).
  rewrite (proj2 (forallb_elem_of _ _)) in Hf by (intros k ?; apply contains_iff; by eapply Forall_forall in Hall).
  simpl in Hf. assert (ev_pubkey (event ev) = reader) as Ha by by eapply author_is_self_selects.
  pose proof (proj1 (Forall_forall _ _) Hall _ Hin) as Hk. unfold AUTHOR_ONLY_KINDS in Hk. apply visible_iff.
  rewrite !elem_of_cons, elem_of_nil in Hk. split_and!; [done|by left|].
  unfold RESULT_GATED_KINDS. rewrite !elem_of_cons, elem_of_nil.
  destruct Hk as [->|[->|[->|[]]]]; intros [?|[?|[]]]; done.
Qed.

End properties.

(** ** Witnesses *)

Lemma to_ascii_lowercase_app s t : to_ascii_lowercase (s +:+ t) = to_ascii_lowercase s +:+ to_ascii_lowercase t.
Proof. induction s as [|c s IH]; [done|]. rewrite append_cons. simpl. by rewrite IH, append_cons. Qed.

#[global] Instance demo_hex_lower_laws : HexLowerLaws demo_api.
Proof.
  intros [|p]; [done|]. cbn [id_to_hex demo_api demo_N_string].
  induction p as [p IH|p IH|]; [| |done]; cbn [demo_pos_string]; by rewrite to_ascii_lowercase_app, IH.
Qed.

Module ReadGateDemo.

(** A metric of reader 5's agent 9, and the request the owner makes for it. *)
Definition metric : StoredEvent := stored_event_new 0 (mkEvent 1 9 100 KIND_AGENT_TURN_METRIC [["p"; "101"]] "") None.
Definition own_metrics : NostrFilter :=
  mkFilter None None (Some [KIND_AGENT_TURN_METRIC]) None None [(p_tag, ["101"])].

Lemma gates_keep_promise_witness : may_read own_metrics (event metric) 5.
Proof.
  apply (gates_keep_promise [own_metrics] own_metrics 5 metric); [done|by intros ?|left|reflexivity..| |reflexivity].
  apply filter_match_one_iff. reflexivity.
Defined.

Lemma count_fast_path_sound_witness : event_visible_to_reader (event metric) 5 = true.
Proof.
  apply (count_fast_path_sound (mkReqFilter own_metrics None None) 5 metric); [done|by intros ?|reflexivity|].
  apply filter_match_one_iff. reflexivity.
Defined.

(** Anyone else is refused the request and the event. *)
Lemma strangers_refused :
  p_gated_filters_authorized [own_metrics] (id_to_hex 6) = false ∧
  event_visible_to_reader (event metric) 6 = false ∧
  count_fast_path (mkReqFilter own_metrics None None) (id_to_hex 6) = false.
Proof. by vm_compute. Qed.

(** A filter that names a second kind beside an engram is held to the same rule, one
    with an id is not. *)
Lemma engram_by_id :
  engram_filters_authorized [mkFilter (Some [7%N]) None (Some [KIND_AGENT_ENGRAM]) None None []] (id_to_hex 6) = true ∧
  engram_filters_authorized [mkFilter None None (Some [KIND_AGENT_ENGRAM; 9%Z]) None None []] (id_to_hex 6) = false.
Proof. by vm_compute. Qed.

End ReadGateDemo.
