(* ===== verification/EventQuery.v ===== *)
(** * Filters as SQL ([buzz-db/src/event.rs], [lib.rs]; [handlers/req.rs])

    [filter_to_query_params] turns a filter into the columns of an [EventQuery],
    [query_events] and [count_events] turn that into a WHERE clause.  A clause is
    modelled by the predicate on rows PostgreSQL evaluates for it ([row_selected]), a
    table by the list of its rows.  The tables are written by [insert_event] and
    [insert_mentions]; [db_ok] says how their columns depend on the stored events.

    The question is whether the clause and [filters_match] agree: when they do, letting
    the database count is exact and a page holds every match; where they do not, the
    conditions of the theorems say why. *)

From stdpp Require Import base gmap strings list sorting.
From Stdlib Require Import Ascii.
From S2P Require Import Prelude Text Nostr CanonicalJson Tenant Auth Topics Protocol Filter ReadGate.

(** ** Parameters *)

(** [chrono::DateTime::from_timestamp(secs, 0)]: [None] outside its range. *)
Class ChronoApi := from_timestamp : Z → option Timestamp.
Definition MAX_CHRONO_SECS : Z := 8210266876799.
Class ChronoLaws (api : ChronoApi) :=
  from_timestamp_ok : ∀ t, (0 ≤ t ≤ MAX_CHRONO_SECS)%Z → from_timestamp t = Some t.

(** [Tag::kind] and [Tag::content] are the first two strings of the tag. *)
Class TagLaws (api : NostrApi) := {
  tag_kind_cons : ∀ k rest, tag_kind (k :: rest) = k;
  tag_content_cons : ∀ k rest, tag_content (k :: rest) = rest !! 0
}.

(** Single-letter tags print apart from each other. *)
Definition letter_ok (l : SingleLetterTag) : Prop := (65 ≤ ascii_code (character l) ≤ 90)%N.
Definition e_tag : SingleLetterTag := mkSlt "E"%char false.
Definition d_tag : SingleLetterTag := mkSlt "D"%char false.
Definition h_tag : SingleLetterTag := mkSlt "H"%char false.
Class LetterLaws (api : NostrApi) := {
  slt_inj : ∀ a b, letter_ok a → letter_ok b → slt_to_string a = slt_to_string b → a = b;
  slt_e : slt_to_string e_tag = "e";
  slt_d : slt_to_string d_tag = "d";
  slt_h : slt_to_string h_tag = "h"
}.

(** ** Tables *)

Inductive DbError :=
| InvalidData (msg : string)
| AuthEventRejected
| EphemeralEventRejected (kind : Z)
| InvalidTimestamp (secs : Z)
| SqlError.

Record Row := mkRow {
  r_community : CommunityId;
  r_event : NostrEvent;
  r_created_at : Timestamp;
  r_received_at : Z;
  r_channel : option Uuid;
  r_deleted : bool;
  r_d_tag : option string
}.

(** [event_mentions] has one row per (community, key, event). *)
Record EventDb := mkDb {
  rows : list Row;
  mentions : gset (CommunityId * string * EventId)
}.

Definition KIND_AUTH : Z := 22242.
Definition is_ephemeral (kind : Z) : bool := ((20000 <=? kind) && (kind <=? 29999))%Z.

(** The value of a tag of that name, in the two places that read tags by index. *)
Definition tag_value (name : string) (parts : Tag) : option string :=
  match parts with
  | k :: v :: _ => if decide (k = name) then Some v else None
  | _ => None
  end.

Definition extract_d_tag (e : NostrEvent) : option string :=
  if negb (is_parameterized_replaceable (ev_kind e)) then None
  else Some (default "" (head (omap (tag_value "d") (ev_tags e)))).

Definition is_hex_pubkey (pk : string) : bool :=
  bool_decide (String.length pk = 64) && str_all is_ascii_hexdigit pk.

(** [valid_pubkeys] of [insert_mentions_in_transaction]. *)
Definition mention_keys (e : NostrEvent) : list string :=
  to_ascii_lowercase <$> List.filter is_hex_pubkey (omap (tag_value "p") (ev_tags e)).

Section tables.
Context `{ChronoApi}.

(** [now] is [Utc::now()]; the insert is a no-op when the primary key is taken. *)
Definition insert_event (now : Z) (community : CommunityId) (e : NostrEvent) (channel : option Uuid)
    (db : EventDb) : result DbError (StoredEvent * bool) * EventDb :=
  if decide (ev_kind e = KIND_AUTH) then (Err AuthEventRejected, db)
  else if is_ephemeral (ev_kind e) then (Err (EphemeralEventRejected (ev_kind e)), db)
  else
    let created_at_secs := as_i64 (Z.to_N (ev_created_at e)) in
    match from_timestamp created_at_secs with
    | None => (Err (InvalidTimestamp created_at_secs), db)
    | Some created_at =>
        let taken := existsb (λ r, bool_decide (r_community r = community ∧ ev_id (r_event r) = ev_id e ∧
                                               r_created_at r = created_at)) (rows db) in
        let stored := mkStored e now channel true in
        if taken then (Ok (stored, false), db)
        else (Ok (stored, true), mkDb (rows db ++ [mkRow community e created_at now channel false (extract_d_tag e)]) (mentions db))
    end.

Definition insert_mentions (community : CommunityId) (e : NostrEvent) (db : EventDb) :
    result DbError unit * EventDb :=
  if decide (omap (tag_value "p") (ev_tags e) = []) then (Ok tt, db)
  else
    let created_at_secs := as_i64 (Z.to_N (ev_created_at e)) in
    match from_timestamp created_at_secs with
    | None => (Err (InvalidTimestamp created_at_secs), db)
    | Some _ =>
        (Ok tt, mkDb (rows db)
                  (list_to_set ((λ pk, (community, pk, ev_id e)) <$> mention_keys e) ∪ mentions db))
    end.

End tables.

(** ** Queries *)

Record EventQuery := mkQuery {
  q_community : CommunityId;
  q_channel_id : option Uuid;
  q_kinds : option (list Z);
  q_pubkey : option PublicKey;
  q_since : option Timestamp;
  q_until : option Timestamp;
  q_limit : option Z;
  q_offset : option Z;
  q_p_tag_hex : option string;
  q_d_tag : option string;
  q_d_tags : option (list string);
  q_before_id : option EventId;
  q_global_only : bool;
  q_authors : option (list PublicKey);
  q_ids : option (list EventId);
  q_e_tags : option (list string);
  q_channel_ids : option (list Uuid);
  q_channel_ids_include_global : bool;
  q_max_limit : option Z;
  q_shared_gated_reader : option PublicKey
}.

Definition DEFAULT_MAX_PAGE_LIMIT : Z := 1000.
Definition COUNT_FALLBACK_CANDIDATE_LIMIT : Z := 5000.

(** [is_some_and(|l| l.is_empty())]. *)
Definition is_empty_list {A} (o : option (list A)) : bool := match o with Some [] => true | _ => false end.

(** [tags @> pattern] on arrays of arrays of strings. *)
Definition json_contains (tags pattern : list (list string)) : bool :=
  forallb (λ p, existsb (λ t, forallb (λ x, bool_decide (x ∈ t)) p) tags) pattern.

(** [AND column IN (...)], left out when the list is absent. *)
Definition where_in {A} `{EqDecision A} (o : option (list A)) (x : A) : bool :=
  match o with Some l => bool_decide (x ∈ l) | None => true end.

(** The channel clauses. *)
Definition where_channel (q : EventQuery) (ch : option Uuid) : bool :=
  match q_channel_id q with
  | Some c => bool_decide (ch = Some c)
  | None => if q_global_only q then bool_decide (ch = None) else true
  end &&
  match q_channel_ids q with
  | Some ids => (q_channel_ids_include_global q && bool_decide (ch = None)) ||
                match ch with Some c => bool_decide (c ∈ ids) | None => false end
  | None => true
  end.

(** The clauses that constrain the event, the mentions join among them. *)
Definition where_event (m : gset (CommunityId * string * EventId)) (q : EventQuery) (r : Row) : bool :=
  let e := r_event r in
  match q_p_tag_hex q with
  | Some hex => bool_decide ((q_community q, to_ascii_lowercase hex, ev_id e) ∈ m)
  | None => true
  end &&
  where_in (q_kinds q) (ev_kind e) &&
  match q_pubkey q with Some pk => bool_decide (ev_pubkey e = pk) | None => true end &&
  where_in (q_authors q) (ev_pubkey e) &&
  where_in (q_ids q) (ev_id e) &&
  match q_e_tags q with
  | Some es => existsb (λ hex, json_contains (ev_tags e) [["e"; hex]]) es
  | None => true
  end &&
  match q_since q with Some s => (s <=? r_created_at r)%Z | None => true end &&
  match q_d_tag q, q_d_tags q with
  | Some d, _ => bool_decide (r_d_tag r = Some d)
  | None, Some ((_ :: _) as ds) => match r_d_tag r with Some d => bool_decide (d ∈ ds) | None => false end
  | None, _ => true
  end.

(** [until] with and without the cursor. *)
Definition where_until (q : EventQuery) (r : Row) : bool :=
  match q_until q, q_before_id q with
  | Some u, Some bid => (r_created_at r <? u)%Z ||
      ((r_created_at r =? u)%Z && (bid <? ev_id (r_event r))%N)
  | Some u, None => (r_created_at r <=? u)%Z
  | None, _ => true
  end.

Definition where_shared (q : EventQuery) (r : Row) : bool :=
  match q_shared_gated_reader q with
  | Some reader => negb (contains SHARED_GATED_KINDS (ev_kind (r_event r))) ||
      bool_decide (ev_pubkey (r_event r) = reader) ||
      json_contains (ev_tags (r_event r)) [["shared"; "true"]]
  | None => true
  end.

Definition where_tenant (q : EventQuery) (r : Row) : bool :=
  bool_decide (r_community r = q_community q) && negb (r_deleted r).

Definition row_selected (m : gset (CommunityId * string * EventId)) (q : EventQuery) (r : Row) : bool :=
  where_tenant q r && where_channel q (r_channel r) && where_event m q r && where_until q r && where_shared q r.

Definition row_counted (m : gset (CommunityId * string * EventId)) (q : EventQuery) (r : Row) : bool :=
  where_tenant q r && where_channel q (r_channel r) && where_event m q r &&
  match q_until q with Some u => (r_created_at r <=? u)%Z | None => true end.

(** [ORDER BY created_at DESC, id ASC]. *)
Definition row_before (a b : Row) : Prop :=
  (r_created_at b < r_created_at a)%Z ∨
  (r_created_at a = r_created_at b ∧ (ev_id (r_event a) ≤ ev_id (r_event b))%N).

#[global] Instance row_before_dec : RelDecision row_before.
Proof. intros a b. unfold row_before. apply _. Defined.

(** The event is rebuilt from the columns, as JSON: a negative time does not parse. *)
Definition row_to_stored_event (r : Row) : option StoredEvent :=
  let e := r_event r in
  if (r_created_at r <? 0)%Z then None
  else Some (mkStored (mkEvent (ev_id e) (ev_pubkey e) (r_created_at r) (ev_kind e) (ev_tags e) (ev_content e))
                      (r_received_at r) (r_channel r) true).

Definition matches_nothing (q : EventQuery) : bool :=
  is_empty_list (q_kinds q) || is_empty_list (q_authors q) || is_empty_list (q_ids q) || is_empty_list (q_e_tags q).

Definition query_events (db : EventDb) (q : EventQuery) : result DbError (list StoredEvent) :=
  if bool_decide (q_before_id q ≠ None) && bool_decide (q_until q = None) then
    Err (InvalidData "before_id requires until to be set")
  else if q_global_only q && bool_decide (q_channel_id q ≠ None) then
    Err (InvalidData "global_only and channel_id are mutually exclusive")
  else if matches_nothing q then Ok []
  else
    let clamp := default DEFAULT_MAX_PAGE_LIMIT (q_max_limit q) in
    let limit_val := Z.min (default 100%Z (q_limit q)) clamp in
    let offset_val := default 0%Z (q_offset q) in
    if ((limit_val <? 0) || (offset_val <? 0))%Z then Err SqlError (* LIMIT and OFFSET must not be negative *)
    else
      let selected := merge_sort row_before (List.filter (row_selected (mentions db) q) (rows db)) in
      Ok (omap row_to_stored_event (take (Z.to_nat limit_val) (drop (Z.to_nat offset_val) selected))).

Definition count_events (db : EventDb) (q : EventQuery) : result DbError N :=
  if matches_nothing q then Ok 0%N
  else Ok (N.of_nat (length (List.filter (row_counted (mentions db) q) (rows db)))).

(** ** From filters to queries *)

Section params.
Context `{NostrApi} `{UuidParse} `{ChronoApi}.

(** [EventQuery::for_community]. *)
Definition for_community (c : CommunityId) : EventQuery :=
  mkQuery c None None None None None None None None None None None false None None None None true None None.

(** [Some] of a list that is given and not empty. *)
Definition non_empty {A} (o : option (list A)) : option (list A) :=
  match o with Some ((_ :: _) as l) => Some l | _ => None end.

(** [Some] of the only value of a list. *)
Definition single {A} (o : option (list A)) : option A :=
  match o with Some [x] => Some x | _ => None end.

(** [Some] of a list of two or more. *)
Definition several {A} (o : option (list A)) : option (list A) :=
  match o with Some ((_ :: _ :: _) as l) => Some l | _ => None end.

(** [DateTime::from_timestamp(s.as_secs() as i64, 0)]. *)
Definition to_datetime (t : option Timestamp) : option Timestamp :=
  s ← t; from_timestamp (as_i64 (Z.to_N s)).

Definition page_limit (limit : option N) : Z :=
  match limit with
  | Some l => Z.min (as_i64 l) DEFAULT_MAX_PAGE_LIMIT
  | None => DEFAULT_MAX_PAGE_LIMIT
  end.

Definition extract_channel_id_from_filter (f : NostrFilter) : option Uuid :=
  v ← single (generic_tags_get h_tag (f_generic_tags f)); parse_uuid v.

Definition filter_to_query_params (filter : ReqFilter) (channel_id : option Uuid) (c : CommunityId) : EventQuery :=
  let f := rf_filter filter in
  let tags := f_generic_tags f in
  let d_values := if is_nip33_only f then generic_tags_get d_tag tags else None in
  mkQuery c channel_id (f_kinds f) (single (f_authors f)) (to_datetime (f_since f)) (to_datetime (f_until f))
    (Some (page_limit (rf_limit filter))) None
    (single (generic_tags_get p_tag tags))
    (single d_values) (several d_values)
    None false
    (several (f_authors f)) (non_empty (f_ids f)) (non_empty (generic_tags_get e_tag tags))
    None true None None.

Definition set_channel_ids (ids : list Uuid) (include_global : bool) (q : EventQuery) : EventQuery :=
  mkQuery (q_community q) (q_channel_id q) (q_kinds q) (q_pubkey q) (q_since q) (q_until q) (q_limit q) (q_offset q)
    (q_p_tag_hex q) (q_d_tag q) (q_d_tags q) (q_before_id q) (q_global_only q) (q_authors q) (q_ids q) (q_e_tags q)
    (Some ids) include_global (q_max_limit q) (q_shared_gated_reader q).

Definition set_shared_gated_reader (r : PublicKey) (q : EventQuery) : EventQuery :=
  mkQuery (q_community q) (q_channel_id q) (q_kinds q) (q_pubkey q) (q_since q) (q_until q) (q_limit q) (q_offset q)
    (q_p_tag_hex q) (q_d_tag q) (q_d_tags q) (q_before_id q) (q_global_only q) (q_authors q) (q_ids q) (q_e_tags q)
    (q_channel_ids q) (q_channel_ids_include_global q) (q_max_limit q) (Some r).

Definition set_limits (limit max_limit : option Z) (q : EventQuery) : EventQuery :=
  mkQuery (q_community q) (q_channel_id q) (q_kinds q) (q_pubkey q) (q_since q) (q_until q) limit (q_offset q)
    (q_p_tag_hex q) (q_d_tag q) (q_d_tags q) (q_before_id q) (q_global_only q) (q_authors q) (q_ids q) (q_e_tags q)
    (q_channel_ids q) (q_channel_ids_include_global q) max_limit (q_shared_gated_reader q).

Definition apply_count_fallback_limit (q : EventQuery) : EventQuery :=
  set_limits (Some (COUNT_FALLBACK_CANDIDATE_LIMIT + 1)%Z) (Some (COUNT_FALLBACK_CANDIDATE_LIMIT + 1)%Z) q.

Definition count_fallback_exceeded (candidate_count : nat) : bool :=
  (COUNT_FALLBACK_CANDIDATE_LIMIT <? Z.of_nat candidate_count)%Z.

Definition apply_channel_scope_to_query (q : EventQuery) (f : NostrFilter) (channel_id : option Uuid)
    (accessible_channels : list Uuid) : EventQuery :=
  match channel_id with
  | Some _ => q
  | None =>
      match generic_tags_get h_tag (f_generic_tags f) with
      | Some values =>
          set_channel_ids (List.filter (λ c, bool_decide (c ∈ accessible_channels)) (omap parse_uuid values)) false q
      | None => set_channel_ids accessible_channels (q_channel_ids_include_global q) q
      end
  end.

End params.

(** ** What the columns mean *)

(** The columns of a row and its mentions are those of its event. *)
Record row_ok (m : gset (CommunityId * string * EventId)) (r : Row) : Prop := {
  ro_d : r_d_tag r = extract_d_tag (r_event r);
  ro_time : r_created_at r = ev_created_at (r_event r);
  ro_range : (0 ≤ ev_created_at (r_event r))%Z;
  ro_mentions : ∀ pk, (r_community r, pk, ev_id (r_event r)) ∈ m ↔ pk ∈ mention_keys (r_event r)
}.

Definition db_ok (db : EventDb) : Prop := ∀ r, r ∈ rows db → row_ok (mentions db) r.

(** An id identifies its event: what a SHA-256 over the event is used for. *)
Definition ids_identify (db : EventDb) (e : NostrEvent) : Prop :=
  ∀ r, r ∈ rows db → ev_id (r_event r) = ev_id e → r_event r = e.

(** An event as it was parsed: no empty tag, 32-byte identifiers. *)
Record event_ok (e : NostrEvent) : Prop := {
  eo_tags : ∀ t, t ∈ ev_tags e → t ≠ [];
  eo_id : key_ok (ev_id e);
  eo_time : (0 ≤ ev_created_at e ≤ MAX_CHRONO_SECS)%Z
}.

(** A filter as it was parsed: one entry per letter, 32-byte identifiers; times that a
    [DateTime] can hold. *)
Record filter_wf (f : NostrFilter) : Prop := {
  fw_nodup : NoDup (f_generic_tags f).*1;
  fw_letters : ∀ l vs, (l, vs) ∈ f_generic_tags f → letter_ok l;
  fw_ids : ∀ ids, f_ids f = Some ids → Forall key_ok ids;
  fw_since : ∀ t, f_since f = Some t → (0 ≤ t ≤ MAX_CHRONO_SECS)%Z;
  fw_until : ∀ t, f_until f = Some t → (0 ≤ t ≤ MAX_CHRONO_SECS)%Z
}.

Class HexLenLaws (api : NostrApi) := id_hex_length : ∀ a, String.length (id_to_hex a) = 64.

Definition stored_of (r : Row) : StoredEvent := mkStored (r_event r) (r_received_at r) (r_channel r) true.

Section columns.
Context {napi : NostrApi} {TL : TagLaws napi} {LL : LetterLaws napi} {IL : IdHexLaws napi} {HL : HexLenLaws napi}.
Context {uapi : UuidParse} {capi : ChronoApi} {CL : ChronoLaws capi}.

Lemma as_i64_small t : (0 ≤ t ≤ MAX_CHRONO_SECS)%Z → as_i64 (Z.to_N t) = t.
Proof. unfold MAX_CHRONO_SECS, as_i64. intros H. rewrite (proj2 (N.ltb_lt _ _)) by lia. lia. Qed.

Lemma to_datetime_ok t : (∀ x, t = Some x → (0 ≤ x ≤ MAX_CHRONO_SECS)%Z) → to_datetime t = t.
Proof using CL.
  intros H. unfold to_datetime. destruct t as [x|]; simpl; [|done]. specialize (H x eq_refl).
  by rewrite as_i64_small, from_timestamp_ok.
Qed.

Lemma generic_tags_get_iff f l vs :
  NoDup (f_generic_tags f).*1 → generic_tags_get l (f_generic_tags f) = Some vs ↔ (l, vs) ∈ f_generic_tags f.
Proof.
  induction (f_generic_tags f) as [|[k v] tags IH]; simpl; intros Hn.
  { split; [done|by intros ?%not_elem_of_nil]. }
  apply NoDup_cons in Hn as [Hk Hn]. rewrite elem_of_cons. case_decide as E.
  - subst. split; [intros [= ->]; by left|]. intros [[= ->]|Hin]; [done|]. destruct Hk. apply list_elem_of_fmap. by exists (k, vs).
  - rewrite IH by done. naive_solver.
Qed.

Lemma tag_value_carries name t v : tag_value name t = Some v → tag_kind t = name ∧ tag_content t = Some v.
Proof using TL.
  destruct t as [|k [|v' t]]; simpl; [done..|]. case_decide; intros [= ->]; subst.
  by rewrite tag_kind_cons, tag_content_cons.
Qed.

Lemma carries_tag_value name t v : t ≠ [] → tag_kind t = name → tag_content t = Some v → tag_value name t = Some v.
Proof using TL.
  destruct t as [|k t]; [done|]. intros _. rewrite tag_kind_cons, tag_content_cons.
  intros -> Hv. destruct t as [|v' t]; [done|]. injection Hv as ->. simpl. by rewrite decide_True.
Qed.

(** The values an event carries under a name. *)
Definition values_of (name : string) (e : NostrEvent) : list string := omap (tag_value name) (ev_tags e).

Lemma carries_iff r name v : event_ok (r_event r) → carries (stored_of r) name v ↔ v ∈ values_of name (r_event r).
Proof using TL.
  intros Hok. unfold carries, values_of. rewrite list_elem_of_omap. simpl. split.
  - intros (t & Hin & Hk & Hc). exists t. split; [done|]. apply carries_tag_value; [by eapply eo_tags|done..].
  - intros (t & Hin & [Hk Hc]%tag_value_carries). by exists t.
Qed.

Lemma selects_value r f l vs :
  filter_wf f → event_ok (r_event r) → selects f (stored_of r) → slt_to_string l ≠ "h" →
  generic_tags_get l (f_generic_tags f) = Some vs → ∃ v, v ∈ vs ∧ v ∈ values_of (slt_to_string l) (r_event r).
Proof using TL.
  intros Hf He (_ & _ & _ & _ & _ & Ht) Hh Hg. apply generic_tags_get_elem in Hg.
  destruct (Ht _ _ Hg) as [(v & Hv & Hc)|[? _]]; [|done]. exists v. by rewrite <-carries_iff.
Qed.

Lemma json_contains_one tags a b : json_contains tags [[a; b]] = true ↔ ∃ t, t ∈ tags ∧ a ∈ t ∧ b ∈ t.
Proof.
  unfold json_contains. cbn [forallb]. rewrite andb_true_r, existsb_elem_of.
  setoid_rewrite andb_true_iff. setoid_rewrite andb_true_iff. setoid_rewrite bool_decide_eq_true. naive_solver.
Qed.

Lemma tag_value_elem name t v : tag_value name t = Some v → name ∈ t ∧ v ∈ t.
Proof. destruct t as [|k [|v' t]]; simpl; [done..|]. case_decide; intros [= ->]; subst. set_solver. Qed.

Lemma prefix_id a b : key_ok a → key_ok b → starts_with (id_to_hex a) (id_to_hex b) = true → a = b.
Proof using HL IL.
  intros Ha Hb Hp. apply starts_with_length_eq in Hp; [|by rewrite !id_hex_length]. by apply id_to_hex_inj in Hp.
Qed.

(** ** Nothing that matches is left out *)

(** A page query looks the [#p] value up among the mentions, which hold hexadecimal keys
    only, and the [#d] value in a column, which holds the first one only. *)
Record pageable (f : NostrFilter) (e : NostrEvent) : Prop := {
  pg_p : ∀ v, generic_tags_get p_tag (f_generic_tags f) = Some [v] → is_hex_pubkey v = true;
  pg_d : length (values_of "d" e) ≤ 1
}.

Lemma extract_d_tag_value e v :
  is_parameterized_replaceable (ev_kind e) = true → length (values_of "d" e) ≤ 1 → v ∈ values_of "d" e →
  extract_d_tag e = Some v.
Proof.
  intros Hk Hl Hv. unfold extract_d_tag. rewrite Hk. simpl. unfold values_of in *.
  destruct (omap _ _) as [|w [|w' l]]; simpl in *; [by apply not_elem_of_nil in Hv| |lia].
  by apply list_elem_of_singleton in Hv as ->.
Qed.

Lemma single_iff {A} (o : option (list A)) x : single o = Some x ↔ o = Some [x].
Proof. destruct o as [[|a [|b l]]|]; simpl; naive_solver. Qed.
Lemma several_Some {A} (o : option (list A)) l : several o = Some l → o = Some l.
Proof. destruct o as [[|a [|b l']]|]; simpl; congruence. Qed.
Lemma non_empty_Some {A} (o : option (list A)) l : non_empty o = Some l → o = Some l ∧ l ≠ [].
Proof. destruct o as [[|a l']|]; simpl; intros E; by simplify_eq. Qed.

Lemma selects_mention m f r v :
  filter_wf f → event_ok (r_event r) → row_ok m r → selects f (stored_of r) → slt_to_string p_tag = "p" →
  generic_tags_get p_tag (f_generic_tags f) = Some [v] → is_hex_pubkey v = true →
  (r_community r, to_ascii_lowercase v, ev_id (r_event r)) ∈ m.
Proof using TL.
  intros Hf He Hr Hs Hp Hg Hx. apply ro_mentions; [done|].
  destruct (selects_value r f p_tag [v] Hf He Hs) as (v' & ->%list_elem_of_singleton & Hin); [by rewrite Hp|done|].
  rewrite Hp in Hin. apply list_elem_of_fmap. exists v. split; [done|].
  apply list_elem_of_In, filter_In. split; [|done]. by apply list_elem_of_In.
Qed.

Lemma selects_e f r es :
  filter_wf f → event_ok (r_event r) → selects f (stored_of r) →
  generic_tags_get e_tag (f_generic_tags f) = Some es →
  existsb (λ hex, json_contains (ev_tags (r_event r)) [["e"; hex]]) es = true.
Proof using TL LL IL HL CL.
  intros Hf He Hs Hg. destruct (selects_value r f e_tag es Hf He Hs) as (v & Hv & Hin); [by rewrite slt_e|done|].
  rewrite slt_e in Hin. apply existsb_elem_of. exists v. split; [done|]. apply json_contains_one.
  apply list_elem_of_omap in Hin as (t & Ht & [? ?]%tag_value_elem). by exists t.
Qed.

Lemma selects_d f r m ds :
  filter_wf f → event_ok (r_event r) → row_ok m r → selects f (stored_of r) → pageable f (r_event r) →
  is_nip33_only f = true → generic_tags_get d_tag (f_generic_tags f) = Some ds →
  ∃ d, r_d_tag r = Some d ∧ d ∈ ds.
Proof using TL LL IL HL CL.
  intros Hf He Hr Hs Hp Hn Hg.
  destruct (selects_value r f d_tag ds Hf He Hs) as (v & Hv & Hin); [by rewrite slt_d|done|]. rewrite slt_d in Hin.
  exists v. split; [|done]. rewrite (ro_d m) by done. apply extract_d_tag_value; [|apply Hp|done].
  unfold is_nip33_only in Hn. destruct (f_kinds f) as [ks|] eqn:Ek; [|done].
  apply andb_true_iff in Hn as [_ Hall]. rewrite forallb_elem_of in Hall. apply Hall. by apply Hs.
Qed.

Lemma where_event_complete m f ch c r :
  filter_wf (rf_filter f) → event_ok (r_event r) → row_ok m r → slt_to_string p_tag = "p" → r_community r = c →
  pageable (rf_filter f) (r_event r) → selects (rf_filter f) (stored_of r) →
  where_event m (filter_to_query_params f ch c) r = true ∧ where_until (filter_to_query_params f ch c) r = true.
Proof using TL LL IL HL CL.
  intros Hf He Hr Hp Hc Hg Hs. pose proof Hs as (Hk & Ha & Hsi & Hun & Hid & _). simpl in Hk, Ha, Hsi, Hun, Hid.
  unfold where_event, where_until, filter_to_query_params. simpl. rewrite (ro_time m) by done.
  rewrite !to_datetime_ok by apply Hf. split.
  2: { destruct (f_until _) as [u|] eqn:Eu; [|done]. apply Z.leb_le. auto. }
  rewrite !andb_true_iff. split_and!.
  - destruct (single _) as [v|] eqn:E; [|done]. apply single_iff in E. apply bool_decide_eq_true. subst c.
    apply (selects_mention m (rf_filter f)); [done..|]. eapply pg_p; done.
  - unfold where_in. destruct (f_kinds _) as [ks|]; [|done]. apply bool_decide_eq_true. auto.
  - destruct (single (f_authors _)) as [v|] eqn:E; [|done]. apply single_iff in E. apply bool_decide_eq_true.
    apply Ha in E. by apply list_elem_of_singleton in E.
  - unfold where_in. destruct (several _) as [au|] eqn:E; [|done]. apply several_Some in E. apply bool_decide_eq_true. auto.
  - unfold where_in. destruct (non_empty (f_ids _)) as [ids|] eqn:E; [|done]. apply non_empty_Some in E as [E _].
    apply bool_decide_eq_true. destruct (Hid _ E) as (id & Hin & Hpre). apply prefix_id in Hpre as ->; [done| |apply He].
    by eapply Forall_forall; [eapply fw_ids|].
  - destruct (non_empty (generic_tags_get e_tag _)) as [es|] eqn:E; [|done]. apply non_empty_Some in E as [E _].
    by apply (selects_e (rf_filter f)).
  - destruct (f_since _) as [s|] eqn:Es; [|done]. apply Z.leb_le. auto.
  - destruct (is_nip33_only (rf_filter f)) eqn:En; [|done].
    destruct (generic_tags_get d_tag _) as [ds|] eqn:Ed; [|done].
    destruct (selects_d _ r m ds Hf He Hr Hs Hg En Ed) as (d & -> & Hd).
    destruct ds as [|d1 [|d2 ds]]; simpl; [done|apply list_elem_of_singleton in Hd as ->; by apply bool_decide_eq_true|].
    by apply bool_decide_eq_true.
Qed.

(** ** Nothing else is counted *)

(** Where the clause and the filter agree: no empty list in the filter (an empty list
    matches nothing, but leaves no clause), keys in lower case on both sides of [#p], a
    [d] tag on a parameterized event (an absent one is stored as the empty string), and
    no tag that holds "e" and a requested value in other places ([@>] ignores order). *)
Record countable_exactly (f : NostrFilter) (e : NostrEvent) : Prop := {
  ce_values : ∀ l vs, (l, vs) ∈ f_generic_tags f → vs ≠ [];
  ce_authors : f_authors f ≠ Some [];
  ce_ids : f_ids f ≠ Some [];
  ce_p : ∀ v, generic_tags_get p_tag (f_generic_tags f) = Some [v] → to_ascii_lowercase v = v;
  ce_p_event : ∀ v, v ∈ values_of "p" e → to_ascii_lowercase v = v;
  ce_d_event : is_parameterized_replaceable (ev_kind e) = true → values_of "d" e ≠ [];
  ce_e : ∀ vs v t, generic_tags_get e_tag (f_generic_tags f) = Some vs → v ∈ vs →
           t ∈ ev_tags e → "e" ∈ t → v ∈ t → tag_value "e" t = Some v
}.

(** What a filter by channel relies on: the requested ids in their printed form, and on a
    row either no [h] tag or one for the channel the relay resolved. *)
Record channel_exactly (f : NostrFilter) (r : Row) : Prop := {
  he_filter : ∀ vs v c, generic_tags_get h_tag (f_generic_tags f) = Some vs → v ∈ vs →
                parse_uuid v = Some c → v = uuid_to_string c;
  he_row : ∀ c, r_channel r = Some c →
             (∀ t, t ∈ ev_tags (r_event r) → tag_kind t ≠ "h") ∨ uuid_to_string c ∈ values_of "h" (r_event r)
}.

Lemma mention_value m r v :
  row_ok m r → (∀ w, w ∈ values_of "p" (r_event r) → to_ascii_lowercase w = w) → to_ascii_lowercase v = v →
  (r_community r, to_ascii_lowercase v, ev_id (r_event r)) ∈ m → v ∈ values_of "p" (r_event r).
Proof.
  intros Hr Hl Hv Hm. apply ro_mentions in Hm; [|done]. rewrite Hv in Hm.
  apply list_elem_of_fmap in Hm as (w & -> & [Hw _]%list_elem_of_In%filter_In). apply list_elem_of_In in Hw.
  by rewrite Hl.
Qed.

Lemma d_value m r d :
  row_ok m r → (is_parameterized_replaceable (ev_kind (r_event r)) = true → values_of "d" (r_event r) ≠ []) →
  r_d_tag r = Some d → d ∈ values_of "d" (r_event r).
Proof.
  intros Hr Hne Hd. rewrite (ro_d m) in Hd by done. unfold extract_d_tag in Hd.
  destruct (is_parameterized_replaceable _); [|done]. specialize (Hne eq_refl). unfold values_of in *. simpl in Hd.
  destruct (omap _ _) as [|w l]; [done|]. injection Hd as ->. left.
Qed.

Lemma letter_cases l :
  letter_ok l → slt_to_string p_tag = "p" →
  (slt_to_string l = "p" → l = p_tag) ∧ (slt_to_string l = "d" → l = d_tag) ∧ (slt_to_string l = "e" → l = e_tag).
Proof using LL.
  intros Hl Hp. split_and!; intros E; (apply slt_inj; [done|by vm_compute|]); rewrite E; [done|by rewrite slt_d|by rewrite slt_e].
Qed.

Lemma where_tag m f ch c r l vs :
  filter_wf (rf_filter f) → event_ok (r_event r) → row_ok m r → slt_to_string p_tag = "p" → r_community r = c →
  filter_fully_pushable f = true → countable_exactly (rf_filter f) (r_event r) →
  where_event m (filter_to_query_params f ch c) r = true →
  (l, vs) ∈ f_generic_tags (rf_filter f) → slt_to_string l ≠ "h" →
  ∃ v, v ∈ vs ∧ v ∈ values_of (slt_to_string l) (r_event r).
Proof using TL LL IL HL CL.
  intros Hf He Hr Hp Hc Hpush Hx Hw Hin Hh. pose proof (ce_values _ _ Hx _ _ Hin) as Hne.
  destruct (letter_cases l (fw_letters _ Hf _ _ Hin) Hp) as (Lp & Ld & Le).
  apply andb_true_iff in Hpush as [Hpush _]. rewrite forallb_elem_of in Hpush. specialize (Hpush _ Hin).
  unfold tag_pushable in Hpush. simpl in Hpush. rewrite decide_False in Hpush by done.
  unfold where_event, filter_to_query_params in Hw. simpl in Hw. rewrite !andb_true_iff in Hw.
  destruct Hw as [[[[[[[Wp _] _] _] _] We] _] Wd].
  destruct (decide (slt_to_string l = "p")) as [E|Np].
  { rewrite (Lp E) in Hin. apply (generic_tags_get_iff _ _ _ (fw_nodup _ Hf)) in Hin. rewrite Hin in Wp.
    destruct vs as [|v [|v' vs]]; [done| |done]. simpl in Wp. apply bool_decide_eq_true in Wp. subst c.
    exists v. split; [left|]. rewrite E. apply (mention_value m); [done|apply Hx|by eapply ce_p|done]. }
  destruct (decide (slt_to_string l = "d")) as [E|Nd].
  { rewrite (Ld E) in Hin. apply (generic_tags_get_iff _ _ _ (fw_nodup _ Hf)) in Hin. rewrite Hin in Wd.
    rewrite bool_decide_eq_true_2 in Hpush by done. simpl in Hpush. rewrite negb_involutive in Hpush. rewrite Hpush in Wd.
    rewrite E. destruct vs as [|v [|v' vs]]; [done|..]; simpl in Wd.
    - apply bool_decide_eq_true in Wd. exists v. split; [left|]. apply (d_value m); [done|apply Hx|done].
    - destruct (r_d_tag r) as [d|] eqn:Ed; [|done]. apply bool_decide_eq_true in Wd. exists d. split; [done|].
      apply (d_value m); [done|apply Hx|done]. }
  destruct (decide (slt_to_string l = "e")) as [E|Ne].
  { rewrite (Le E) in Hin. apply (generic_tags_get_iff _ _ _ (fw_nodup _ Hf)) in Hin. rewrite Hin in We.
    destruct vs as [|v0 vs]; [done|]. cbn [non_empty] in We. apply existsb_elem_of in We as (v & Hv & Hj).
    apply json_contains_one in Hj as (t & Ht & H1 & H2). exists v. split; [done|]. rewrite E.
    apply list_elem_of_omap. exists t. split; [done|]. by eapply ce_e. }
  by apply bool_decide_eq_true in Hpush.
Qed.

Lemma h_clause f r vs c :
  event_ok (r_event r) → channel_exactly f r → generic_tags_get h_tag (f_generic_tags f) = Some vs →
  r_channel r = Some c → c ∈ omap parse_uuid vs →
  (∃ v, v ∈ vs ∧ carries (stored_of r) "h" v) ∨ h_fallback (stored_of r) vs.
Proof using TL.
  intros He Hh Hg Hc (v & Hv & Hp)%list_elem_of_omap. pose proof (he_filter _ _ Hh _ _ _ Hg Hv Hp) as ->.
  destruct (he_row _ _ Hh _ Hc) as [Hn|Hin].
  - right. split; [done|]. by exists c.
  - left. exists (uuid_to_string c). split; [done|]. by apply carries_iff.
Qed.

Lemma where_event_sound m f ch c r :
  filter_wf (rf_filter f) → event_ok (r_event r) → row_ok m r → slt_to_string p_tag = "p" → r_community r = c →
  filter_fully_pushable f = true → countable_exactly (rf_filter f) (r_event r) → channel_exactly (rf_filter f) r →
  (∀ vs, generic_tags_get h_tag (f_generic_tags (rf_filter f)) = Some vs →
     ∃ ch, r_channel r = Some ch ∧ ch ∈ omap parse_uuid vs) →
  where_event m (filter_to_query_params f ch c) r = true →
  match f_until (rf_filter f) with Some u => (r_created_at r <=? u)%Z | None => true end = true →
  selects (rf_filter f) (stored_of r).
Proof using TL LL IL HL CL.
  intros Hf He Hr Hp Hc Hpush Hx Hh Hch Hw Hu. pose proof Hw as Hw'.
  unfold where_event, filter_to_query_params in Hw'. simpl in Hw'. rewrite !andb_true_iff, !to_datetime_ok in Hw' by apply Hf.
  destruct Hw' as [[[[[[[_ Wk] Wa] Was] Wi] _] Ws] _]. rewrite (ro_time m) in Ws, Hu by done.
  split_and!; simpl.
  - intros ks E. rewrite E in Wk. by apply bool_decide_eq_true in Wk.
  - intros [|a [|b au]] E; rewrite E in Wa, Was; simpl in Wa, Was.
    + by destruct (ce_authors _ _ Hx).
    + apply bool_decide_eq_true in Wa as ->. left.
    + by apply bool_decide_eq_true in Was.
  - intros t E. rewrite E in Ws. by apply Z.leb_le in Ws.
  - intros t E. rewrite E in Hu. by apply Z.leb_le in Hu.
  - intros [|i ids] E; [by destruct (ce_ids _ _ Hx)|]. rewrite E in Wi. cbn [non_empty where_in] in Wi. apply bool_decide_eq_true in Wi.
    exists (ev_id (r_event r)). split; [done|]. apply starts_with_iff. exists "". by rewrite str_app_nil.
  - intros l vs Hin. destruct (decide (slt_to_string l = "h")) as [E|Hn].
    + assert (l = h_tag) as -> by (apply slt_inj; [by eapply fw_letters|by vm_compute|by rewrite E, slt_h]).
      apply (generic_tags_get_iff _ _ _ (fw_nodup _ Hf)) in Hin. destruct (Hch _ Hin) as (c' & Hc' & Hin').
      rewrite E. destruct (h_clause _ r vs c' He Hh Hin Hc' Hin'); [by left|by right].
    + left. destruct (where_tag m f ch c r l vs) as (v & Hv & Hc'); [done..|]. exists v. by rewrite carries_iff.
Qed.

End columns.

(** ** Properties *)

Section properties.
Context {napi : NostrApi} {L : NostrLaws napi} {TL : TagLaws napi} {LL : LetterLaws napi}.
Context {IL : IdHexLaws napi} {HL : HexLenLaws napi}.
Context {uapi : UuidParse} {capi : ChronoApi} {CL : ChronoLaws capi}.

(** The channels a reader's request may look into: those of [#h] it may access, or
    without [#h] all it may access and the events outside channels. *)
Definition channel_allowed (f : NostrFilter) (accessible : list Uuid) (ch : option Uuid) : bool :=
  match generic_tags_get h_tag (f_generic_tags f) with
  | Some vs => match ch with Some c => bool_decide (c ∈ accessible) && bool_decide (c ∈ omap parse_uuid vs) | None => false end
  | None => match ch with Some c => bool_decide (c ∈ accessible) | None => true end
  end.

(** The query COUNT and the HTTP bridge build for a filter. *)
Definition scoped_query (f : ReqFilter) (c : CommunityId) (ch_id : option Uuid) (accessible : list Uuid) : EventQuery :=
  apply_channel_scope_to_query
    (filter_to_query_params f (extract_channel_id_from_filter (rf_filter f)) c) (rf_filter f) ch_id accessible.

(** [ch_id] is the channel the query was built with, and the reader may access it. *)
Definition scope_consistent (f : ReqFilter) (ch_id : option Uuid) (accessible : list Uuid) : Prop :=
  ch_id = None ∨ ∃ c, ch_id = Some c ∧ extract_channel_id_from_filter (rf_filter f) = Some c ∧ c ∈ accessible.

Lemma extract_channel_id_Some f c :
  extract_channel_id_from_filter f = Some c ↔
  ∃ v, generic_tags_get h_tag (f_generic_tags f) = Some [v] ∧ parse_uuid v = Some c.
Proof.
  unfold extract_channel_id_from_filter. destruct (single _) as [v|] eqn:E; simpl.
  - apply single_iff in E. rewrite E. naive_solver.
  - split; [done|]. intros (v & Hv & _). by rewrite Hv in E.
Qed.

Lemma scoped_where_channel f c ch_id accessible ch :
  scope_consistent f ch_id accessible →
  where_channel (scoped_query f c ch_id accessible) ch = channel_allowed (rf_filter f) accessible ch.
Proof.
  intros [->|(c0 & -> & E & Hacc)].
  - unfold scoped_query, apply_channel_scope_to_query, channel_allowed.
    destruct (generic_tags_get h_tag _) as [vs|] eqn:Hg.
    + unfold where_channel. simpl. destruct ch as [x|].
      2: { by rewrite andb_false_r. }
      destruct (extract_channel_id_from_filter _) as [c0|] eqn:E.
      * apply extract_channel_id_Some in E as (v & Hv & Hp). rewrite Hv in Hg. injection Hg as <-. simpl. rewrite Hp. simpl.
        destruct (decide (x = c0)) as [->|Hn].
        -- rewrite (bool_decide_eq_true_2 (Some c0 = _)) by done. simpl.
           destruct (decide (c0 ∈ accessible)) as [Ha|Ha].
           ++ rewrite (bool_decide_eq_true_2 (c0 ∈ accessible)) by done. by rewrite !bool_decide_eq_true_2 by (left).
           ++ rewrite (bool_decide_eq_false_2 (c0 ∈ accessible)) by done. done.
        -- rewrite (bool_decide_eq_false_2 (Some x = _)) by congruence. simpl.
           by rewrite (bool_decide_eq_false_2 (x ∈ [c0])), andb_false_r by (by intros ?%list_elem_of_singleton).
      * apply eq_true_iff_eq. rewrite andb_true_iff, bool_decide_eq_true, list_elem_of_In, filter_In, <-list_elem_of_In.
        rewrite andb_true_iff, !bool_decide_eq_true. tauto.
    + unfold where_channel. simpl. destruct (extract_channel_id_from_filter _) as [c0|] eqn:E.
      { apply extract_channel_id_Some in E as (v & Hv & _). congruence. }
      by destruct ch.
  - unfold scoped_query, apply_channel_scope_to_query, channel_allowed, where_channel. simpl. rewrite E.
    apply extract_channel_id_Some in E as (v & -> & Hp). simpl. rewrite Hp, andb_true_r. destruct ch as [x|]; [|done].
    destruct (decide (x = c0)) as [->|Hn].
    + rewrite !bool_decide_eq_true_2; [done|left|done|done].
    + rewrite (bool_decide_eq_false_2 (Some x = _)) by congruence. symmetry. apply andb_false_iff. right.
      apply bool_decide_eq_false_2. by intros ?%list_elem_of_singleton.
Qed.

(** The scope touches the channel columns only. *)
Lemma scope_shape q f ch_id accessible :
  apply_channel_scope_to_query q f ch_id accessible = q ∨
  ∃ ids b, apply_channel_scope_to_query q f ch_id accessible = set_channel_ids ids b q.
Proof.
  unfold apply_channel_scope_to_query. destruct ch_id; [by left|].
  destruct (generic_tags_get _ _); right; by eexists _, _.
Qed.

Lemma scope_matches_nothing f ch c ch_id accessible :
  matches_nothing (apply_channel_scope_to_query (filter_to_query_params f ch c) (rf_filter f) ch_id accessible) = true →
  f_kinds (rf_filter f) = Some [].
Proof.
  unfold matches_nothing, is_empty_list.
  destruct (scope_shape (filter_to_query_params f ch c) (rf_filter f) ch_id accessible) as [->|(ids & b & ->)]; simpl;
    destruct (f_kinds _) as [[|]|], (f_authors _) as [[|? [|]]|], (f_ids _) as [[|]|], (generic_tags_get e_tag _) as [[|]|]; done.
Qed.

(** A row is what COUNT should count: of the tenant, not deleted, in an allowed channel
    and selected by the filter. *)
Definition should_count (f : ReqFilter) (c : CommunityId) (accessible : list Uuid) (r : Row) : bool :=
  bool_decide (r_community r = c) && negb (r_deleted r) &&
  channel_allowed (rf_filter f) accessible (r_channel r) && filter_match_one (rf_filter f) (stored_of r).

Lemma row_counted_exact m f c ch_id accessible r :
  filter_wf (rf_filter f) → filter_fully_pushable f = true → scope_consistent f ch_id accessible →
  row_ok m r → event_ok (r_event r) → pageable (rf_filter f) (r_event r) →
  countable_exactly (rf_filter f) (r_event r) → channel_exactly (rf_filter f) r →
  row_counted m (scoped_query f c ch_id accessible) r = should_count f c accessible r.
Proof using L TL LL IL HL CL.
  intros Hf Hpush Hsc Hr He Hpg Hx Hh. pose proof (slt_p (api := napi)) as Hp.
  unfold row_counted, should_count. rewrite scoped_where_channel by done.
  assert (where_tenant (scoped_query f c ch_id accessible) r = bool_decide (r_community r = c) && negb (r_deleted r)) as ->.
  { unfold scoped_query. by destruct (scope_shape (filter_to_query_params f (extract_channel_id_from_filter (rf_filter f)) c)
      (rf_filter f) ch_id accessible) as [->|(ids & b & ->)]. }
  destruct (decide (r_community r = c)) as [Hc|Hn]; [|by rewrite bool_decide_eq_false_2].
  rewrite bool_decide_eq_true_2 by done. destruct (r_deleted r); [done|]. simpl.
  destruct (channel_allowed _ _ _) eqn:Hch; [|done]. simpl.
  set (params := filter_to_query_params f (extract_channel_id_from_filter (rf_filter f)) c).
  assert (where_event m (scoped_query f c ch_id accessible) r = where_event m params r ∧
          q_until (scoped_query f c ch_id accessible) = q_until params) as [-> ->].
  { unfold scoped_query. fold params. by destruct (scope_shape params (rf_filter f) ch_id accessible) as [->|(ids & b & ->)]. }
  apply eq_true_iff_eq. rewrite filter_match_one_iff, andb_true_iff. split.
  - intros [Hw Hu]. apply (where_event_sound m f (extract_channel_id_from_filter (rf_filter f)) c r); try done.
    + intros vs Hg. unfold channel_allowed in Hch. rewrite Hg in Hch. destruct (r_channel r) as [x|]; [|done].
      apply andb_true_iff in Hch as [_ Hin%bool_decide_eq_true]. by exists x.
    + unfold params, filter_to_query_params in Hu. simpl in Hu. by rewrite to_datetime_ok in Hu by apply Hf.
  - intros Hs. destruct (where_event_complete m f (extract_channel_id_from_filter (rf_filter f)) c r) as [Hw Hu]; done.
Qed.

(** The number the database answers is the number of events of the tenant, in channels
    the reader may access, that the filter selects: for the filters COUNT does not
    post-filter, over tables and filters on which SQL and NIP-01 agree. *)
Lemma count_exact db f c ch_id accessible :
  db_ok db → filter_wf (rf_filter f) → filter_fully_pushable f = true → scope_consistent f ch_id accessible →
  (∀ r, r ∈ rows db → event_ok (r_event r) ∧ pageable (rf_filter f) (r_event r) ∧
     countable_exactly (rf_filter f) (r_event r) ∧ channel_exactly (rf_filter f) r) →
  count_events db (scoped_query f c ch_id accessible) =
    Ok (N.of_nat (length (List.filter (should_count f c accessible) (rows db)))).
Proof using L TL LL IL HL CL.
  intros Hdb Hf Hpush Hsc Hrows.
  assert (List.filter (row_counted (mentions db) (scoped_query f c ch_id accessible)) (rows db) =
          List.filter (should_count f c accessible) (rows db)) as E.
  { apply filter_ext_in. intros r Hr%list_elem_of_In. destruct (Hrows r Hr) as (? & ? & ? & ?). by apply row_counted_exact; auto. }
  unfold count_events. destruct (matches_nothing _) eqn:Hm; [|by rewrite E].
  apply scope_matches_nothing in Hm as Hk.
  rewrite filter_none; [done|]. intros r _. unfold should_count, filter_match_one. rewrite Hk.
  rewrite (bool_decide_eq_false_2 (_ ∈ [])) by apply not_elem_of_nil. by rewrite !andb_false_r.
Qed.

(** *** Pages *)

#[global] Instance row_before_total : Total row_before.
Proof. intros a b. unfold row_before. lia. Qed.

#[global] Instance row_before_trans : Transitive row_before.
Proof. intros a b c. unfold row_before. lia. Qed.

(** The query REQ builds for a filter, [ch] being the filter's own channel or else the
    request's. *)
Definition page_query (f : ReqFilter) (c : CommunityId) (ch : option Uuid) (accessible : list Uuid) (reader : PublicKey) : EventQuery :=
  let params := apply_channel_scope_to_query (filter_to_query_params f ch c) (rf_filter f) ch accessible in
  if filter_can_match_shared_gated_kinds (rf_filter f) then set_shared_gated_reader reader params else params.

Definition page_channel_allowed (f : NostrFilter) (ch : option Uuid) (accessible : list Uuid) (x : option Uuid) : bool :=
  match ch with Some c => bool_decide (x = Some c) | None => channel_allowed f accessible x end.

Lemma page_where_channel f c ch accessible x :
  where_channel (apply_channel_scope_to_query (filter_to_query_params f ch c) (rf_filter f) ch accessible) x =
  page_channel_allowed (rf_filter f) ch accessible x.
Proof.
  unfold page_channel_allowed, apply_channel_scope_to_query, channel_allowed, where_channel.
  destruct ch as [c0|]; simpl; [by rewrite andb_true_r|].
  destruct (generic_tags_get h_tag _) as [vs|]; simpl; destruct x as [x|]; try done.
  apply eq_true_iff_eq. rewrite bool_decide_eq_true, list_elem_of_In, filter_In, <-list_elem_of_In.
  rewrite andb_true_iff, !bool_decide_eq_true. tauto.
Qed.

Lemma visible_where_shared q r :
  (∀ reader, q_shared_gated_reader q = Some reader → event_visible_to_reader (r_event r) reader = true) →
  where_shared q r = true.
Proof using L.
  intros Hv. unfold where_shared. destruct (q_shared_gated_reader q) as [reader|]; [|done].
  specialize (Hv reader eq_refl). apply visible_iff in Hv as (_ & Hs & _). destruct (contains _ _) eqn:Ec; [|done]. simpl.
  apply contains_iff in Ec. destruct (Hs Ec) as [->|Hsh]; [by rewrite bool_decide_eq_true_2|].
  rewrite event_is_shared_iff in Hsh. apply orb_true_iff. right. apply json_contains_one. exists ["shared"; "true"].
  split; [|split; [left|right; left]]. assert (["shared"; "true"] ∈ List.filter (λ t, bool_decide (t !! 0 = Some "shared")) (ev_tags (r_event r))) as Hin
    by (rewrite Hsh; left). by apply list_elem_of_In, filter_In in Hin as [?%list_elem_of_In _].
Qed.

Lemma row_selected_complete m f c ch accessible reader r :
  filter_wf (rf_filter f) → row_ok m r → event_ok (r_event r) → pageable (rf_filter f) (r_event r) →
  r_community r = c → r_deleted r = false → page_channel_allowed (rf_filter f) ch accessible (r_channel r) = true →
  selects (rf_filter f) (stored_of r) → event_visible_to_reader (r_event r) reader = true →
  row_selected m (page_query f c ch accessible reader) r = true.
Proof using L TL LL IL HL CL.
  intros Hf Hr He Hpg Hc Hd Hch Hs Hv.
  destruct (where_event_complete m f ch c r Hf He Hr slt_p Hc Hpg Hs) as [Hw Hu].
  unfold row_selected. rewrite <-(page_where_channel f c) in Hch.
  assert (where_shared (page_query f c ch accessible reader) r = true) as ->.
  { apply visible_where_shared. intros reader'. unfold page_query.
    destruct (scope_shape (filter_to_query_params f ch c) (rf_filter f) ch accessible) as [->|(ids & b & ->)];
      destruct (filter_can_match_shared_gated_kinds _); by intros [= <-]. }
  rewrite andb_true_r. unfold page_query, where_tenant.
  destruct (scope_shape (filter_to_query_params f ch c) (rf_filter f) ch accessible) as [E|(ids & b & E)]; rewrite E in *;
    destruct (filter_can_match_shared_gated_kinds _); rewrite !andb_true_iff; (split_and!; [|by rewrite Hd|done..]);
    by apply bool_decide_eq_true.
Qed.

Lemma row_reads_back m r : row_ok m r → row_to_stored_event r = Some (stored_of r).
Proof.
  intros Hr. unfold row_to_stored_event. rewrite (ro_time m) by done.
  rewrite (proj2 (Z.ltb_ge _ _)) by eapply ro_range, Hr. unfold stored_of. by destruct (r_event r).
Qed.

Lemma rows_read_back db (l : list Row) : db_ok db → (∀ r, r ∈ l → r ∈ rows db) → omap row_to_stored_event l = stored_of <$> l.
Proof.
  intros Hdb Hl. induction l as [|r l IH]; [done|]. csimpl. rewrite (row_reads_back (mentions db)) by (apply Hdb, Hl; left).
  by rewrite IH by (intros r' ?; apply Hl; by right).
Qed.

Lemma page_limit_clamped l : Z.min (page_limit l) DEFAULT_MAX_PAGE_LIMIT = page_limit l.
Proof. unfold page_limit. destruct l; lia. Qed.

Lemma page_query_fields f c ch accessible reader :
  let q := page_query f c ch accessible reader in
  q_before_id q = None ∧ q_global_only q = false ∧ q_limit q = Some (page_limit (rf_limit f)) ∧
  q_max_limit q = None ∧ q_offset q = None ∧
  (matches_nothing q = true → f_kinds (rf_filter f) = Some []).
Proof.
  intros q.
  assert (matches_nothing q = matches_nothing (apply_channel_scope_to_query (filter_to_query_params f ch c) (rf_filter f) ch accessible)) as ->.
  { unfold q, page_query. by destruct (filter_can_match_shared_gated_kinds _). }
  split_and!; [..|apply scope_matches_nothing].
  all: unfold q, page_query;
    destruct (scope_shape (filter_to_query_params f ch c) (rf_filter f) ch accessible) as [->|(ids & b & ->)];
    by destruct (filter_can_match_shared_gated_kinds _).
Qed.

Lemma page_answers db f c ch accessible reader :
  (0 ≤ page_limit (rf_limit f))%Z → is_ok (query_events db (page_query f c ch accessible reader)) = true.
Proof.
  intros Hl. destruct (page_query_fields f c ch accessible reader) as (H1 & H2 & H3 & H4 & H5 & _).
  unfold query_events. rewrite H1, H2, H3, H4, H5. rewrite bool_decide_eq_false_2 by (intros Hx; by apply Hx).
  cbn [from_option id andb]. rewrite page_limit_clamped. rewrite (proj2 (Z.ltb_ge _ _)) by done. simpl. by destruct (matches_nothing _).
Qed.

(** The rows of a page, in the order they are sent. *)
Lemma page_rows db f c ch accessible reader page :
  f_kinds (rf_filter f) ≠ Some [] → query_events db (page_query f c ch accessible reader) = Ok page →
  (0 ≤ page_limit (rf_limit f))%Z ∧
  page = omap row_to_stored_event (take (Z.to_nat (page_limit (rf_limit f)))
    (merge_sort row_before (List.filter (row_selected (mentions db) (page_query f c ch accessible reader)) (rows db)))).
Proof.
  intros Hk. destruct (page_query_fields f c ch accessible reader) as (H1 & H2 & H3 & H4 & H5 & H6).
  unfold query_events. set (q := page_query f c ch accessible reader) in *.
  assert (matches_nothing q = false) as -> by (apply not_true_iff_false; auto). rewrite H1, H2, H3, H4, H5.
  rewrite bool_decide_eq_false_2 by (intros Hx; by apply Hx).
  cbn [from_option id andb]. rewrite page_limit_clamped. destruct (page_limit _ <? 0)%Z eqn:El; [done|].
  apply Z.ltb_ge in El. simpl. intros [= <-]. by rewrite drop_0.
Qed.

(** A page holds every event of the tenant in the request's channels that the filter
    selects and the reader may see, unless it is full of events that come before it. *)
Lemma page_complete db f c ch accessible reader page r :
  db_ok db → filter_wf (rf_filter f) → r ∈ rows db → event_ok (r_event r) → pageable (rf_filter f) (r_event r) →
  query_events db (page_query f c ch accessible reader) = Ok page →
  r_community r = c → r_deleted r = false → page_channel_allowed (rf_filter f) ch accessible (r_channel r) = true →
  selects (rf_filter f) (stored_of r) → event_visible_to_reader (r_event r) reader = true →
  stored_of r ∈ page ∨
  ∃ full, page = stored_of <$> full ∧ Z.of_nat (length full) = page_limit (rf_limit f) ∧
    ∀ r', r' ∈ full → r' ∈ rows db ∧ row_before r' r.
Proof using L TL LL IL HL CL.
  intros Hdb Hf Hin He Hpg Hq Hc Hd Hch Hs Hv.
  pose proof (row_selected_complete (mentions db) f c ch accessible reader r Hf (Hdb r Hin) He Hpg Hc Hd Hch Hs Hv) as Hsel.
  apply page_rows in Hq as [Hn ->].
  2: { destruct Hs as [Hk _]. intros E. by apply Hk, not_elem_of_nil in E. }
  set (n := Z.to_nat _). set (sel := List.filter _ _). pose proof (merge_sort_Permutation row_before sel) as Hperm.
  assert (∀ x, x ∈ merge_sort row_before sel → x ∈ rows db) as Hrows.
  { intros x. rewrite Hperm. by intros [?%list_elem_of_In _]%list_elem_of_In%filter_In. }
  rewrite (rows_read_back db) by (try done; intros x Hx; apply Hrows; by eapply elem_of_take in Hx as (? & ?%list_elem_of_lookup_2 & _)).
  assert (r ∈ merge_sort row_before sel) as Hr by (rewrite Hperm; apply list_elem_of_In, filter_In; by rewrite <-list_elem_of_In).
  rewrite <-(take_drop n) in Hr. apply elem_of_app in Hr as [Ht|Hr]; [left; by apply list_elem_of_fmap_2|].
  right. exists (take n (merge_sort row_before sel)). split; [done|].
  split.
  - rewrite length_take. assert (n < length (merge_sort row_before sel)); [|lia].
    destruct (decide (n < length (merge_sort row_before sel))); [done|].
    rewrite drop_ge in Hr by lia. by apply not_elem_of_nil in Hr.
  - intros r' Hr'. split; [apply Hrows; by eapply elem_of_take in Hr' as (? & ?%list_elem_of_lookup_2 & _)|].
    pose proof (StronglySorted_merge_sort row_before sel) as Hss. rewrite <-(take_drop n) in Hss.
    by eapply StronglySorted_app_1_elem_of.
Qed.

(** *** Writing *)

Lemma existsb_false {A} (p : A → bool) l : existsb p l = false ↔ ∀ x, x ∈ l → p x = false.
Proof. rewrite <-not_true_iff_false, existsb_elem_of. setoid_rewrite <-not_true_iff_false. naive_solver. Qed.

(** [Db::insert_event]: the mentions follow an event that was inserted, in a statement of
    their own; when that one fails ([mentions_fail]) the event stays without them. *)
Definition store_event (mentions_fail : bool) (now : Z) (c : CommunityId) (e : NostrEvent) (ch : option Uuid)
    (db : EventDb) : result DbError (StoredEvent * bool) * EventDb :=
  let '(res, db1) := insert_event now c e ch db in
  match res with
  | Ok (_, true) => (res, if mentions_fail then db1 else (insert_mentions c e db1).2)
  | _ => (res, db1)
  end.

(** Mentions of an event nobody stored do not exist. *)
Definition mentions_ok (db : EventDb) : Prop :=
  ∀ c pk id, (c, pk, id) ∈ mentions db → ∃ r, r ∈ rows db ∧ r_community r = c ∧ ev_id (r_event r) = id.

Lemma insert_mentions_spec c e db :
  event_ok e →
  rows (insert_mentions c e db).2 = rows db ∧
  ∀ x, x ∈ mentions (insert_mentions c e db).2 ↔ x ∈ mentions db ∨ ∃ pk, x = (c, pk, ev_id e) ∧ pk ∈ mention_keys e.
Proof using CL.
  intros He. unfold insert_mentions. rewrite as_i64_small, from_timestamp_ok by apply He. case_decide as E; simpl.
  - split; [done|]. intros x. unfold mention_keys. rewrite E. simpl. split; [by left|]. intros [|(? & _ & ?%not_elem_of_nil)]; done.
  - split; [done|]. intros x. rewrite elem_of_union, elem_of_list_to_set, list_elem_of_fmap. naive_solver.
Qed.

(** Storing events whose mentions are written keeps the columns and the mentions true to
    the events. *)
Lemma store_event_ok now c e ch db :
  event_ok e → ids_identify db e → db_ok db → mentions_ok db →
  db_ok (store_event false now c e ch db).2 ∧ mentions_ok (store_event false now c e ch db).2.
Proof using CL.
  intros He Hid Hdb Hm. unfold store_event, insert_event.
  case_decide; [done|]. destruct (is_ephemeral _); [done|]. rewrite as_i64_small, from_timestamp_ok by apply He.
  destruct (existsb _ (rows db)) eqn:Hx; [done|]. rewrite existsb_false in Hx.
  set (row := mkRow c e _ now ch false _). set (db1 := mkDb _ _).
  destruct (insert_mentions_spec c e db1 He) as [Hr Hms]. cbn [snd]. unfold mentions_ok, db_ok. rewrite Hr. simpl in Hms |- *.
  assert (∀ r, r ∈ rows db → (r_community r, ev_id (r_event r)) ≠ (c, ev_id e)) as Hfresh.
  { intros r Hin [= Ec Ei]. specialize (Hx r Hin). apply bool_decide_eq_false in Hx. destruct Hx.
    rewrite (ro_time (mentions db) r) by auto. by rewrite (Hid r Hin Ei). }
  split.
  - intros r [Hin|Hin%list_elem_of_singleton]%elem_of_app.
    + destruct (Hdb r Hin) as [H1 H2 H3 H4]. split; [done..|]. intros pk. rewrite Hms, H4.
      split; [|by left]. intros [?|(pk' & [= E1 _ E3] & _)]; [done|]. destruct (Hfresh r Hin). congruence.
    + subst r. split; [done|done|apply He|]. simpl. intros pk. rewrite Hms. split; [|by right; exists pk].
      intros [Hpk|(? & [= <-] & ?)]; [|done]. apply Hm in Hpk as (r & Hin & Ec & Ei). destruct (Hfresh r Hin). congruence.
  - intros c' pk id. rewrite Hms. setoid_rewrite elem_of_app. intros [(r & ? & ? & ?)%Hm|(pk' & [= -> -> ->] & _)].
    + exists r. split; [by left|done].
    + exists row. split; [right; by apply list_elem_of_singleton|done].
Qed.

End properties.

(** ** Witnesses *)

Module EventQueryDemo.

#[local] Existing Instance hex_api_laws.
#[local] Existing Instance hex_api_id_laws.

Lemma hex_tag_laws : TagLaws hex_api.
Proof. split; [done|]. intros k [|v rest]; done. Qed.
#[local] Existing Instance hex_tag_laws.

Lemma hex_len_laws : HexLenLaws hex_api.
Proof. intros a. apply hex_digits_length. Qed.
#[local] Existing Instance hex_len_laws.

Lemma hex_letter_laws : LetterLaws hex_api.
Proof.
  split; [|reflexivity..]. intros [a ua] [b ub] Ha Hb E. unfold letter_ok in *. cbn [character] in *.
  cbn [slt_to_string hex_api] in E. unfold demo_slt_to_string in E. cbn [character uppercase] in E.
  apply (f_equal (λ s, match s with String c _ => ascii_code c | _ => 0%N end)) in E. cbv beta iota in E.
  assert (∀ c, (65 ≤ ascii_code c ≤ 90)%N → ascii_code (ascii_of_N (ascii_code c + 32)) = ascii_code c + 32)%N as Hlow.
  { intros c Hc. apply N_ascii_embedding. lia. }
  rewrite (proj2 (N.leb_le _ _) (proj1 Ha)), (proj2 (N.leb_le _ _) (proj2 Ha)) in E.
  rewrite (proj2 (N.leb_le _ _) (proj1 Hb)), (proj2 (N.leb_le _ _) (proj2 Hb)) in E. cbn [andb] in E.
  assert (ua = ub ∧ ascii_code a = ascii_code b) as [-> Hab] by (destruct ua, ub; rewrite ?Hlow in E by done; lia).
  f_equal. unfold ascii_code in Hab. by rewrite <-(ascii_N_embedding a), <-(ascii_N_embedding b), Hab.
Qed.
#[local] Existing Instance hex_letter_laws.

Definition demo_chrono : ChronoApi := λ t, if ((0 <=? t) && (t <=? MAX_CHRONO_SECS))%Z then Some t else None.
Lemma demo_chrono_laws : ChronoLaws demo_chrono.
Proof. intros t Ht. unfold from_timestamp, demo_chrono. by rewrite !(proj2 (Z.leb_le _ _)) by lia. Qed.
#[local] Existing Instance demo_chrono.
#[local] Existing Instance demo_chrono_laws.
#[local] Existing Instance TopicsDemo.demo_parse_uuid.
#[local] Existing Instance hex_api.

(** Two messages of community 1, in channels 5 and 6, and the request for channel 5. *)
Definition msg (id : EventId) (ch : string) : NostrEvent := mkEvent id 2 100 9 [["h"; ch]] "".
Definition db0 : EventDb :=
  (store_event false 0 1 (msg 8 "110") (Some 6%N) (store_event false 0 1 (msg 7 "101") (Some 5%N) (mkDb [] ∅)).2).2.
Definition in_channel (vs : list string) : ReqFilter :=
  mkReqFilter (mkFilter None None (Some [9%Z]) None None [(h_tag, vs)]) None None.

Lemma msg_ok id ch : key_ok id → event_ok (msg id ch).
Proof. intros Hk. split; [intros t ->%list_elem_of_singleton; done|done|by vm_compute]. Qed.

Lemma db0_ok : db_ok db0 ∧ mentions_ok db0.
Proof.
  assert (∀ t, event_ok t → db_ok (mkDb [] ∅) ∧ mentions_ok (mkDb [] ∅) ∧ ids_identify (mkDb [] ∅) t) as H0.
  { intros t _. split_and!; [by intros r ?%not_elem_of_nil|by intros ??? ?%not_elem_of_empty|by intros r ?%not_elem_of_nil]. }
  destruct (H0 (msg 7 "101")) as (? & ? & ?); [by apply msg_ok|].
  destruct (store_event_ok (capi := demo_chrono) 0 1 (msg 7 "101") (Some 5%N) (mkDb [] ∅)) as [Hd1 Hm1]; [by apply msg_ok|done..|].
  apply (store_event_ok (capi := demo_chrono)); [by apply msg_ok| |done..].
  intros r Hr. vm_compute in Hr. apply list_elem_of_singleton in Hr as ->. done.
Qed.

Lemma in_channel_wf vs : filter_wf (rf_filter (in_channel vs)).
Proof.
  split; [apply NoDup_singleton| |done..]. intros l vs' [= -> ->]%list_elem_of_singleton. by vm_compute.
Qed.

Lemma db0_rows r : r ∈ rows db0 → r = mkRow 1 (msg 7 "101") 100 0 (Some 5%N) false None ∨ r = mkRow 1 (msg 8 "110") 100 0 (Some 6%N) false None.
Proof. intros Hr. vm_compute in Hr. apply elem_of_cons in Hr as [->|Hr%list_elem_of_singleton]; [by left|by right]. Qed.

Lemma no_other_tags l vs : l ≠ h_tag → generic_tags_get l (f_generic_tags (rf_filter (in_channel vs))) = None.
Proof. intros Hl. simpl. by rewrite decide_False. Qed.

Lemma count_exact_witness :
  count_events db0 (scoped_query (in_channel ["101"]) 1 (Some 5%N) [5%N]) = Ok 1%N.
Proof.
  rewrite (count_exact (napi := hex_api) db0 (in_channel ["101"]) 1 (Some 5%N) [5%N]).
  - reflexivity.
  - apply db0_ok.
  - apply in_channel_wf.
  - reflexivity.
  - right. exists 5%N. split_and!; [done|reflexivity|left].
  - intros r Hr%db0_rows. assert (event_ok (r_event r)) as He by (destruct Hr as [->| ->]; by apply msg_ok).
    split; [done|]. split_and!; split.
    + intros v. by rewrite no_other_tags.
    + destruct Hr as [->| ->]; simpl; lia.
    + intros l vs [= _ ->]%list_elem_of_singleton. done.
    + done.
    + done.
    + intros v. by rewrite no_other_tags.
    + destruct Hr as [->| ->]; by intros v ?%not_elem_of_nil.
    + destruct Hr as [->| ->]; done.
    + intros vs v t. by rewrite no_other_tags.
    + intros vs v c [= <-] ->%list_elem_of_singleton [= <-]. reflexivity.
    + destruct Hr as [->| ->]; intros c [= <-]; right; left.
Defined.

(** A page of one: the message with the smaller id comes first, the other is left out
    because the page is full. *)
Definition all_messages (limit : N) : ReqFilter :=
  mkReqFilter (mkFilter None None (Some [9%Z]) None None []) None (Some limit).
Definition row8 : Row := mkRow 1 (msg 8 "110") 100 0 (Some 6%N) false None.

Lemma page_complete_witness :
  ∃ full, [stored_of (mkRow 1 (msg 7 "101") 100 0 (Some 5%N) false None)] = stored_of <$> full ∧
    Z.of_nat (length full) = 1%Z ∧ ∀ r', r' ∈ full → r' ∈ rows db0 ∧ row_before r' row8.
Proof.
  destruct (page_complete (napi := hex_api) db0 (all_messages 1) 1 None [5%N; 6%N] 3
    [stored_of (mkRow 1 (msg 7 "101") 100 0 (Some 5%N) false None)] row8) as [H|H].
  - apply db0_ok.
  - split; [apply NoDup_nil_2|by intros l vs ?%not_elem_of_nil|done..].
  - vm_compute. right. left.
  - by apply msg_ok.
  - split; [done|simpl; lia].
  - vm_compute. reflexivity.
  - done.
  - done.
  - reflexivity.
  - apply filter_match_one_iff. reflexivity.
  - reflexivity.
  - exfalso. by apply list_elem_of_singleton in H.
  - exact H.
Defined.

(** Where SQL and NIP-01 part.  No author can match an empty list; the database counts
    both messages. *)
Lemma empty_authors_counted :
  let f := mkReqFilter (mkFilter None (Some []) (Some [9%Z]) None None []) None None in
  filter_fully_pushable f = true ∧
  count_events db0 (scoped_query f 1 None [5%N; 6%N]) = Ok 2%N ∧
  List.filter (should_count f 1 [5%N; 6%N]) (rows db0) = [].
Proof. by vm_compute. Qed.

(** A time out of range of [DateTime] constrains nothing. *)
Lemma since_out_of_range_counted :
  let f := mkReqFilter (mkFilter None None (Some [9%Z]) (Some 9000000000000%Z) None []) None None in
  count_events db0 (scoped_query f 1 None [5%N; 6%N]) = Ok 2%N ∧
  List.filter (should_count f 1 [5%N; 6%N]) (rows db0) = [].
Proof. by vm_compute. Qed.

(** A parameterized event with two [d] tags is not found by the second, one without is
    counted under the empty string, and [@>] finds a value anywhere in an [e] tag. *)
Definition doc (id : EventId) (tags : list Tag) : NostrEvent := mkEvent id 2 100 30023 tags "".
Definition docs : EventDb :=
  (store_event false 0 1 (doc 8 [["e"; "a"; "b"]]) None (store_event false 0 1 (doc 7 [["d"; "x"]; ["d"; "y"]]) None (mkDb [] ∅)).2).2.
Definition by_tag (l : SingleLetterTag) (v : string) : ReqFilter :=
  mkReqFilter (mkFilter None None (Some [30023%Z]) None None [(l, [v])]) None None.

Lemma tag_clauses_differ :
  (count_events docs (scoped_query (by_tag d_tag "y") 1 None []) = Ok 0%N ∧
   length (List.filter (should_count (by_tag d_tag "y") 1 []) (rows docs)) = 1) ∧
  (query_events docs (page_query (by_tag d_tag "y") 1 None [] 3) = Ok []) ∧
  (count_events docs (scoped_query (by_tag d_tag "") 1 None []) = Ok 1%N ∧
   length (List.filter (should_count (by_tag d_tag "") 1 []) (rows docs)) = 0) ∧
  (count_events docs (scoped_query (by_tag e_tag "b") 1 None []) = Ok 1%N ∧
   length (List.filter (should_count (by_tag e_tag "b") 1 []) (rows docs)) = 0).
Proof. by vm_compute. Qed.

(** A limit of 2^63 or more is negative as an [i64]: the query fails. *)
Lemma huge_limit_fails : query_events db0 (page_query (all_messages 9223372036854775808) 1 None [5%N] 3) = Err SqlError.
Proof. reflexivity. Qed.

End EventQueryDemo.
