(* ===== verification/ReadPath.v ===== *)
(** * REQ and COUNT ([buzz-relay/src/handlers/req.rs], [count.rs])

    The two handlers from the parsed message to the frames sent: authentication and
    scope, the channels the reader may access with the repair of a stale cache, the gates
    of [ReadGate], the NIP-50 search lane, registration with the subscription registry
    and the topics of the pub/sub layer, historical delivery filter by filter, and
    counting on the fast path or through candidates.

    What the handlers ask of others -- the cache of accessible channels, membership, the
    event queries, full-text search -- are arguments, each call with its errors; the
    theorems on exact answers put [EventQuery.query_events] and [count_events] there. *)

From stdpp Require Import base gmap strings list sorting.
From Stdlib Require Import Ascii.
From S2P Require Import Prelude Text Nostr CanonicalJson Tenant Auth Topics Protocol Connections Filter Subscription ReadGate EventQuery.

(** [RelayMessage], as the handlers build them. *)
Inductive RelayMessage :=
| MEvent (sub_id : SubId) (e : NostrEvent)
| MEose (sub_id : SubId)
| MClosed (sub_id : SubId) (message : string)
| MNotice (message : string)
| MCount (sub_id : SubId) (count : N).

Definition MAX_SUBSCRIPTIONS : nat := 1024.
Definition MAX_EXPLICIT_CHANNEL_VALUES : nat := 128.
Definition SEARCH_PAGE_SIZE : N := 100.
Definition MAX_SEARCH_PAGES : nat := 10.

(** ** Channels of a request *)

Section channels.
Context `{NostrApi} `{UuidParse}.

(** One value of an [h] tag in [extract_channel_id_from_filters]: [None] is the early
    return, otherwise the id found so far and whether this filter has one. *)
Definition h_value (st : option (option Uuid * bool)) (val : string) : option (option Uuid * bool) :=
  match st, parse_uuid val with
  | None, _ => None
  | _, None => st
  | Some (found_id, _), Some id =>
      match found_id with
      | Some existing => if decide (existing ≠ id) then None else Some (Some id, true)
      | None => Some (Some id, true)
      end
  end.

Definition h_filter (found_id : option Uuid) (f : NostrFilter) : option (option Uuid) :=
  match foldl (λ st tag, if decide (slt_to_string tag.1 = "h") then foldl h_value st tag.2 else st)
              (Some (found_id, false)) (f_generic_tags f) with
  | Some (found_id, true) => Some found_id
  | _ => None
  end.

Fixpoint h_filters (found_id : option Uuid) (fs : list NostrFilter) : option Uuid :=
  match fs with
  | [] => found_id
  | f :: fs => match h_filter found_id f with Some found_id => h_filters found_id fs | None => None end
  end.

Definition extract_channel_id_from_filters (fs : list NostrFilter) : option Uuid := h_filters None fs.

(** [channel_ids.push] of the ids that parse and are not there yet. *)
Definition push_channel (ids : list Uuid) (value : string) : list Uuid :=
  match parse_uuid value with
  | Some id => if decide (id ∈ ids) then ids else ids ++ [id]
  | None => ids
  end.

Fixpoint channel_ids_loop (ids : list Uuid) (fs : list NostrFilter) : option (list Uuid) :=
  match fs with
  | [] => Some ids
  | f :: fs =>
      match generic_tags_get h_tag (f_generic_tags f) with
      | Some values => channel_ids_loop (foldl push_channel ids values) fs
      | None => None
      end
  end.

Definition extract_channel_ids_from_filters (fs : list NostrFilter) : option (list Uuid) := channel_ids_loop [] fs.

(** The sum is checked in the code; it cannot overflow for lists in memory. *)
Definition extract_channel_ids_from_filters_limited (fs : list NostrFilter) : result unit (option (list Uuid)) :=
  let value_count :=
    sum_list ((λ f, match generic_tags_get h_tag (f_generic_tags f) with Some vs => length vs | None => 0 end) <$> fs) in
  if decide (MAX_EXPLICIT_CHANNEL_VALUES < value_count) then Err tt
  else Ok (extract_channel_ids_from_filters fs).

Definition filters_are_nip43_membership_only (fs : list NostrFilter) : bool :=
  bool_decide (fs ≠ []) &&
  forallb (λ f, match f_kinds f with
                | Some ks => bool_decide (ks ≠ []) && forallb (λ k, (k =? KIND_NIP43_MEMBERSHIP_LIST)%Z) ks
                | None => false
                end) fs.

(** The token's upper bound: [is_none_or(|allowed| allowed.contains(c))]. *)
Definition token_allows (token : option (list Uuid)) (c : Uuid) : bool :=
  match token with Some allowed => bool_decide (c ∈ allowed) | None => true end.

Definition resolve_request_local_access (accessible : list Uuid) (c : Uuid) (allows : bool)
    (db_is_member : option bool) : bool * list Uuid :=
  if negb allows then (false, accessible)
  else if decide (c ∈ accessible) then (true, accessible)
  else match db_is_member with
       | Some true => (true, accessible ++ [c])
       | _ => (false, accessible)
       end.

Section repair.
Context (is_member : Uuid → result DbError bool) (token : option (list Uuid)).

(** The confirmation loop of REQ. *)
Fixpoint confirm_requested (requested accessible : list Uuid) : result DbError (list Uuid) :=
  match requested with
  | [] => Ok accessible
  | c :: requested =>
      let allows := token_allows token c in
      let? db_is_member :=
        (if negb allows || bool_decide (c ∈ accessible) then Ok None
         else match is_member c with Ok member => Ok (Some member) | Err e => Err e end) in
      confirm_requested requested (resolve_request_local_access accessible c allows db_is_member).2
  end.

(** The confirmation loop of COUNT. *)
Fixpoint count_confirm (requested accessible : list Uuid) : result DbError (list Uuid) :=
  match requested with
  | [] => Ok accessible
  | c :: requested =>
      if decide (c ∈ accessible) then count_confirm requested accessible
      else
        let allows := token_allows token c in
        let? db_is_member :=
          (if allows then match is_member c with Ok member => Ok (Some member) | Err e => Err e end else Ok None) in
        count_confirm requested (resolve_request_local_access accessible c allows db_is_member).2
  end.

End repair.

(** [ChannelScope] of the search layer, and the scope of a search without [#h]. *)
Inductive ChannelScope :=
| AnyChannel
| ChannelLessOnly
| InChannels (ids : list Uuid)
| ChannelsOrChannelLess (ids : list Uuid).

Definition build_search_channel_scope_filter (accessible : list Uuid) (include_global : bool) : option ChannelScope :=
  match accessible with
  | [] => if include_global then Some ChannelLessOnly else None
  | ids => Some (if include_global then ChannelsOrChannelLess ids else InChannels ids)
  end.

End channels.

Record SearchQuery := mkSearch {
  s_community : CommunityId;
  s_q : string;
  s_channel_scope : ChannelScope;
  s_kinds : option (list Z);
  s_authors : option (list PublicKey);
  s_since : option Z;
  s_until : option Z;
  s_page : nat;
  s_per_page : N
}.

(** The pub/sub calls of a request, in order. *)
Inductive TopicCall := Retain (t : EventTopic) | Release (t : EventTopic).

Definition scope_topics (scope : SubscriptionScope) : list EventTopic :=
  if is_global scope then [Topics.Global] else Channel <$> channel_ids scope.

(** What a connection and its pod keep of requests. *)
Record ReqState := mkReqState {
  rs_subscriptions : gmap SubId (list ReqFilter);
  rs_registry : SubscriptionRegistry;
  rs_topics : list TopicCall
}.

(** ** Delivery *)

(** The ids already delivered and the events sent, in order. *)
Abbreviation Delivery := (gset EventId * list NostrEvent)%type.

Inductive Delivered := Sent1 | Skipped | Stopped.

Section handlers.
Context `{NostrApi} `{UuidParse} `{ChronoApi}.
Context (community : CommunityId).
Context (get_accessible : result DbError (list Uuid)) (is_member : Uuid → result DbError bool).
Context (query : EventQuery → result DbError (list StoredEvent)) (count : EventQuery → result DbError N).
Context (search : SearchQuery → option (list EventId)) (get_events_by_ids : list EventId → option (list StoredEvent)).
(* the text of a database error *)
Context (show_db_error : DbError → string).
(* whether the n-th EVENT frame of the request fits the connection's buffer *)
Context (send_ok : nat → bool).

(** The checks on one stored event, the same in both lanes. *)
Definition accepts (reader : PublicKey) (accessible : list Uuid) (f : NostrFilter) (s : StoredEvent) : bool :=
  filters_match [f] s &&
  match channel_id s with Some c => bool_decide (c ∈ accessible) | None => true end &&
  event_visible_to_reader (event s) reader.

Definition deliver_one (reader : PublicKey) (accessible : list Uuid) (f : NostrFilter) (s : StoredEvent)
    (st : Delivery) : Delivered * Delivery :=
  if negb (accepts reader accessible f s) then (Skipped, st)
  else if decide (ev_id (event s) ∈ st.1) then (Skipped, st)
  else
    let seen := {[ev_id (event s)]} ∪ st.1 in
    if send_ok (length st.2) then (Sent1, (seen, st.2 ++ [event s])) else (Stopped, (seen, st.2)).

(** The loop over one page: [false] when a send failed. *)
Fixpoint deliver (reader : PublicKey) (accessible : list Uuid) (f : NostrFilter) (page : list StoredEvent)
    (st : Delivery) : bool * Delivery :=
  match page with
  | [] => (true, st)
  | s :: page =>
      let '(d, st) := deliver_one reader accessible f s st in
      match d with Stopped => (false, st) | _ => deliver reader accessible f page st end
  end.

Definition per_filter_channel (channel_id : option Uuid) (f : NostrFilter) : option Uuid :=
  match extract_channel_id_from_filter f with Some c => Some c | None => channel_id end.

(** Historical delivery: the events sent and whether EOSE follows them. *)
Fixpoint history (reader : PublicKey) (channel_id : option Uuid) (accessible : list Uuid) (fs : list ReqFilter)
    (st : Delivery) : list NostrEvent * bool :=
  match fs with
  | [] => (st.2, true)
  | f :: fs =>
      match query (page_query f community (per_filter_channel channel_id (rf_filter f)) accessible reader) with
      | Err _ => (st.2, true)
      | Ok page =>
          let '(go, st) := deliver reader accessible (rf_filter f) page st in
          if go then history reader channel_id accessible fs st else (st.2, false)
      end
  end.

(** ** Search *)

(** [event_map.get]: the last event collected under an id. *)
Definition event_map_get (events : list StoredEvent) (id : EventId) : option StoredEvent :=
  List.find (λ s, bool_decide (ev_id (event s) = id)) (rev events).

Fixpoint search_hits (reader : PublicKey) (accessible : list Uuid) (f : NostrFilter) (limit : N)
    (events : list StoredEvent) (hits : list EventId) (emitted : N) (st : Delivery) : bool * (N * Delivery) :=
  match hits with
  | [] => (true, (emitted, st))
  | id :: hits =>
      if (limit <=? emitted)%N then (true, (emitted, st))
      else
        match event_map_get events id with
        | None => search_hits reader accessible f limit events hits emitted st
        | Some s =>
            let '(d, st) := deliver_one reader accessible f s st in
            match d with
            | Stopped => (false, (emitted, st))
            | Sent1 => search_hits reader accessible f limit events hits (emitted + 1)%N st
            | Skipped => search_hits reader accessible f limit events hits emitted st
            end
        end
  end.

Fixpoint search_pages (reader : PublicKey) (accessible : list Uuid) (f : NostrFilter) (limit : N)
    (q : nat → SearchQuery) (pages : list nat) (emitted : N) (st : Delivery) : bool * Delivery :=
  match pages with
  | [] => (true, st)
  | page :: pages =>
      if (limit <=? emitted)%N then (true, st)
      else
        match search (q page) with
        | None => (true, st)
        | Some hits =>
            let exhausted := (N.of_nat (length hits) <? SEARCH_PAGE_SIZE)%N in
            let page_empty := bool_decide (hits = []) in
            match (if page_empty then Some (true, (emitted, st))
                   else match get_events_by_ids hits with
                        | None => None
                        | Some events => Some (search_hits reader accessible f limit events hits emitted st)
                        end) with
            | None => (true, st)
            | Some (false, (_, st)) => (false, st)
            | Some (true, (emitted, st)) =>
                if page_empty || exhausted then (true, st)
                else search_pages reader accessible f limit q pages emitted st
            end
        end
  end.

(** [l as u32] truncates. *)
Definition search_limit (limit : option N) : N :=
  match limit with Some l => N.min (l mod 4294967296) 1000 | None => 1000 end.

(** The scope of one filter; [None] skips the filter. *)
Definition search_scope (accessible : list Uuid) (all : ChannelScope) (f : NostrFilter) : option ChannelScope :=
  match generic_tags_get h_tag (f_generic_tags f) with
  | Some ((_ :: _) as vs) =>
      match List.filter (λ c, bool_decide (c ∈ accessible)) (omap parse_uuid vs) with
      | [] => None
      | valid => Some (InChannels valid)
      end
  | _ => Some all
  end.

Fixpoint search_filters (reader : PublicKey) (accessible : list Uuid) (all : ChannelScope) (fs : list ReqFilter)
    (st : Delivery) : bool * Delivery :=
  match fs with
  | [] => (true, st)
  | f :: fs =>
      let limit := search_limit (rf_limit f) in
      match rf_search f with
      | None | Some "" => search_filters reader accessible all fs st
      | Some text =>
          if (limit =? 0)%N then search_filters reader accessible all fs st
          else
            match search_scope accessible all (rf_filter f) with
            | None => search_filters reader accessible all fs st
            | Some scope =>
                let q page := mkSearch community text scope (non_empty (f_kinds (rf_filter f)))
                  (non_empty (f_authors (rf_filter f))) ((λ t, as_i64 (Z.to_N t)) <$> f_since (rf_filter f))
                  ((λ t, as_i64 (Z.to_N t)) <$> f_until (rf_filter f)) page SEARCH_PAGE_SIZE in
                let '(go, st) := search_pages reader accessible (rf_filter f) limit q (seq 1 MAX_SEARCH_PAGES) 0 st in
                if go then search_filters reader accessible all fs st else (false, st)
            end
      end
  end.

Definition handle_search_req (sub_id : SubId) (reader : PublicKey) (accessible : list Uuid) (include_global : bool)
    (fs : list ReqFilter) : list RelayMessage :=
  match build_search_channel_scope_filter accessible include_global with
  | None => [MEose sub_id]
  | Some all =>
      let '(go, st) := search_filters reader accessible all fs (∅, []) in
      (MEvent sub_id <$> st.2) ++ if go then [MEose sub_id] else []
  end.

(** ** REQ *)

(** The gates, on requests that are not for one channel. *)
Definition gate_refusal (fs : list NostrFilter) (reader : PublicKey) : option string :=
  let hex := id_to_hex reader in
  if negb (p_gated_filters_authorized fs hex) then Some "restricted: p-gated events require #p matching your pubkey"
  else if negb (engram_filters_authorized fs hex) then
    Some "restricted: agent-engram reads require authors=[self] or #p=[self]"
  else if negb (author_only_filters_authorized fs hex) then Some "restricted: author-only kinds require authors=[self]"
  else None.

(** Registration and the topic calls that follow it. *)
Definition register_request (conn_id : ConnId) (sub_id : SubId) (fs : list ReqFilter)
    (authorized : option (list Uuid)) (st : ReqState) : ReqState :=
  let '(replaced, reg) :=
    match authorized with
    | Some chs => register_channels_scoped community conn_id sub_id (rf_filter <$> fs) chs (rs_registry st)
    | None => register_scoped community conn_id sub_id (rf_filter <$> fs) None (rs_registry st)
    end in
  let released := match replaced with Some r => scope_topics (rm_scope r) | None => [] end in
  let retained := match authorized with Some chs => Channel <$> chs | None => [Topics.Global] end in
  mkReqState (<[sub_id := fs]> (rs_subscriptions st)) reg
    (rs_topics st ++ (Release <$> released) ++ (Retain <$> retained)).

(** The channels the reader may access, as far as the request needs them; [Err] is the
    refusal. *)
Definition request_access (token : option (list Uuid)) (fs : list NostrFilter) :
    result string (list Uuid * option (list Uuid)) :=
  match extract_channel_ids_from_filters_limited fs with
  | Err _ => Err "restricted: too many explicit channels"
  | Ok requested =>
      match (if filters_are_nip43_membership_only fs then Ok [] else get_accessible) with
      | Err _ => Err "error: database error"
      | Ok ids =>
          let accessible := List.filter (token_allows token) ids in
          match (match requested with Some cs => confirm_requested is_member token cs accessible | None => Ok accessible end) with
          | Err _ => Err "error: database error"
          | Ok accessible =>
              let authorized := List.filter (λ c, bool_decide (c ∈ accessible)) <$> requested in
              if decide (authorized = Some []) then Err "restricted: not a channel member"
              else Ok (accessible, authorized)
          end
      end
  end.

Definition handle_req (auth : AuthState) (conn_id : ConnId) (sub_id : SubId) (filters : list ReqFilter) (st : ReqState) :
    list RelayMessage * ReqState :=
  match auth with
  | Authenticated ctx =>
      if bool_decide (ac_scopes ctx ≠ []) && negb (has_scope ctx MessagesRead) then
        ([MNotice "restricted: insufficient scope"; MClosed sub_id "restricted: insufficient scope"], st)
      else if decide (rs_subscriptions st !! sub_id = None ∧ MAX_SUBSCRIPTIONS ≤ size (rs_subscriptions st)) then
        ([MClosed sub_id "error: too many subscriptions"], st)
      else
        let reader := ac_pubkey ctx in
        let token := ac_channel_ids ctx in
        let fs := rf_filter <$> filters in
        let channel_id := extract_channel_id_from_filters fs in
        match request_access token fs with
        | Err message => ([MClosed sub_id message], st)
        | Ok (accessible, authorized) =>
            match (if bool_decide (channel_id = None) then gate_refusal fs reader else None) with
            | Some message => ([MClosed sub_id message], st)
            | None =>
                if existsb (λ f, bool_decide (rf_search f ≠ None)) filters then
                  if existsb (λ f, bool_decide (rf_search f = None)) filters then
                    ([MClosed sub_id "error: mixed search and non-search filters not supported"], st)
                  else (handle_search_req sub_id reader accessible (bool_decide (token = None)) filters, st)
                else
                  let '(events, eose) := history reader channel_id accessible filters (∅, []) in
                  ((MEvent sub_id <$> events) ++ (if eose then [MEose sub_id] else []),
                   register_request conn_id sub_id filters authorized st)
            end
        end
  | _ => ([MNotice "auth-required: authenticate before subscribing"; MClosed sub_id "auth-required: not authenticated"], st)
  end.

(** ** COUNT *)

(** [build_event_query_from_filter]. *)
Definition build_event_query_from_filter (f : ReqFilter) : EventQuery :=
  filter_to_query_params f (extract_channel_id_from_filter (rf_filter f)) community.

(** The candidates of a filter the database cannot count, post-filtered. *)
Definition count_fallback (reader : PublicKey) (f : ReqFilter) (q : EventQuery) : result string N :=
  match query (apply_count_fallback_limit q) with
  | Err e => Err ("error: " +:+ show_db_error e)
  | Ok stored =>
      if count_fallback_exceeded (length stored) then Err "restricted: count filter requires narrower constraints"
      else Ok (N.of_nat (length (List.filter
                 (λ s, filters_match [rf_filter f] s && event_visible_to_reader (event s) reader) stored)))
  end.

(** Both branches of the handler from a scoped query on; [clear_limit] is the assignment
    [query.limit = None], made in one of them only. *)
Definition count_query (reader : PublicKey) (f : ReqFilter) (clear_limit : bool) (q : EventQuery) : result string N :=
  let q := if filter_can_match_shared_gated_kinds (rf_filter f) then set_shared_gated_reader reader q else q in
  if count_fast_path f (id_to_hex reader) then
    match count (if clear_limit then set_limits None (q_max_limit q) q else q) with
    | Ok n => Ok n
    | Err e => Err ("error: " +:+ show_db_error e)
    end
  else count_fallback reader f q.

(** One filter: its count and the channels as repaired so far. *)
Definition count_filter (reader : PublicKey) (token : option (list Uuid)) (f : ReqFilter) (accessible : list Uuid) :
    result string (N * list Uuid) :=
  match extract_channel_ids_from_filters [rf_filter f] with
  | Some requested =>
      match count_confirm is_member token requested accessible with
      | Err _ => Err "error: database error"
      | Ok accessible =>
          match List.filter (λ c, bool_decide (c ∈ accessible)) requested with
          | [] => Ok (0%N, accessible)
          | first :: _ =>
              let ch_id := if decide (length requested = 1) then Some first else None in
              let? n := count_query reader f false
                (apply_channel_scope_to_query (build_event_query_from_filter f) (rf_filter f) ch_id accessible) in
              Ok (n, accessible)
          end
      end
  | None =>
      let q := build_event_query_from_filter f in
      let? n := count_query reader f true (set_channel_ids accessible (q_channel_ids_include_global q) q) in
      Ok (n, accessible)
  end.

Fixpoint count_loop (reader : PublicKey) (token : option (list Uuid)) (fs : list ReqFilter) (accessible : list Uuid)
    (total : N) : result string N :=
  match fs with
  | [] => Ok total
  | f :: fs =>
      let? (n, accessible) := count_filter reader token f accessible in
      count_loop reader token fs accessible (total + n)%N
  end.

Definition count_gate_refusal (fs : list NostrFilter) (reader : PublicKey) : option string :=
  let hex := id_to_hex reader in
  if negb (p_gated_filters_authorized fs hex) then Some "restricted: p-gated kinds require #p tag matching your pubkey"
  else if negb (engram_filters_authorized fs hex) then
    Some "restricted: agent-engram reads require authors=[self] or #p=[self]"
  else if negb (author_only_filters_authorized fs hex) then Some "restricted: author-only kinds require authors=[self]"
  else None.

Definition handle_count (auth : AuthState) (sub_id : SubId) (filters : list ReqFilter) : list RelayMessage :=
  match auth with
  | Authenticated ctx =>
      let reader := ac_pubkey ctx in
      let fs := rf_filter <$> filters in
      match count_gate_refusal fs reader with
      | Some message => [MClosed sub_id message]
      | None =>
          match extract_channel_ids_from_filters_limited fs with
          | Err _ => [MClosed sub_id "restricted: too many explicit channels"]
          | Ok _ =>
              match get_accessible with
              | Err _ => [MClosed sub_id "error: database error"]
              | Ok ids =>
                  match count_loop reader (ac_channel_ids ctx) filters (List.filter (token_allows (ac_channel_ids ctx)) ids) 0 with
                  | Ok total => [MCount sub_id total]
                  | Err message => [MClosed sub_id message]
                  end
              end
          end
      end
  | _ => [MClosed sub_id "auth-required: not authenticated"]
  end.

End handlers.

(** ** Lemmas *)

Section access.
Context {napi : NostrApi} {uapi : UuidParse}.
Context (get_accessible : result DbError (list Uuid)) (is_member : Uuid → result DbError bool).
Context (token : option (list Uuid)).




(** The confirmation adds exactly the requested channels the token covers and the
    database says the reader is a member of. *)
Lemma confirm_requested_iff requested accessible accessible' :
  confirm_requested is_member token requested accessible = Ok accessible' →
  ∀ x, x ∈ accessible' ↔ x ∈ accessible ∨ (x ∈ requested ∧ token_allows token x = true ∧ is_member x = Ok true).
Proof.
  revert accessible. induction requested as [|c requested IH]; intros accessible; cbn [confirm_requested].
  { intros [= ->] x. rewrite elem_of_nil. tauto. }
  unfold resolve_request_local_access. destruct (token_allows token c) eqn:Ht; simpl.
  - case_bool_decide as Hc; [rewrite decide_True by done|]; simpl.
    + intros E x. rewrite (IH _ E x), elem_of_cons. split; [tauto|]. intros [?|([->|?] & ? & ?)]; auto.
    + destruct (is_member c) as [[]|] eqn:Em; simpl; [| |done]; rewrite decide_False by done; simpl;
        intros E x; rewrite (IH _ E x), elem_of_cons.
      * rewrite elem_of_app, list_elem_of_singleton. split; [|naive_solver]. intros [[?| ->]|?]; naive_solver.
      * split; [tauto|]. intros [?|([->|?] & ? & ?)]; [by left|congruence|by right].
  - intros E x. rewrite (IH _ E x), elem_of_cons. split; [tauto|]. intros [?|([->|?] & ? & ?)]; [by left|congruence|by right].
Qed.

Lemma count_confirm_eq requested accessible :
  count_confirm is_member token requested accessible = confirm_requested is_member token requested accessible.
Proof.
  revert accessible. induction requested as [|c requested IH]; intros accessible; cbn [count_confirm confirm_requested]; [done|].
  case_decide as Hc.
  - rewrite (bool_decide_eq_true_2 (c ∈ _)), orb_true_r by done. simpl. rewrite IH. f_equal.
    unfold resolve_request_local_access. rewrite decide_True by done. by destruct (token_allows token c).
  - rewrite (bool_decide_eq_false_2 (c ∈ _)), orb_false_r by done. destruct (token_allows token c); simpl; [|apply IH].
    destruct (is_member c); simpl; [apply IH|done].
Qed.


End access.

Section delivery.
Context {napi : NostrApi} {uapi : UuidParse} {capi : ChronoApi}.
Context (send_ok : nat → bool) (reader : PublicKey) (accessible : list Uuid).





Context (community : CommunityId) (query : EventQuery → result DbError (list StoredEvent)).


Context (search : SearchQuery → option (list EventId)) (get_events_by_ids : list EventId → option (list StoredEvent)).




End delivery.

(** ** Completeness of history *)

Section completeness.
Context {napi : NostrApi} {uapi : UuidParse} {capi : ChronoApi}.
Context (send_ok : nat → bool) (Hsend : ∀ n, send_ok n = true) (reader : PublicKey) (accessible : list Uuid).

Definition sent_ids (st : Delivery) : Prop := ∀ i, i ∈ st.1 ↔ i ∈ (ev_id <$> st.2).

Lemma deliver_one_all f s st :
  sent_ids st →
  let r := deliver_one send_ok reader accessible f s st in
  r.1 ≠ Stopped ∧ sent_ids r.2 ∧ (∀ i, i ∈ st.1 → i ∈ r.2.1) ∧
  (accepts reader accessible f s = true → ev_id (event s) ∈ r.2.1).
Proof using Hsend.
  intros Hst. unfold deliver_one. destruct (accepts _ _ _ _); simpl; [|done].
  case_decide; simpl; [done|]. rewrite Hsend. simpl. split_and!; [done| |set_solver|set_solver].
  intros i. simpl. rewrite fmap_app. change (ev_id <$> [event s]) with [ev_id (event s)]. rewrite elem_of_union, elem_of_app, elem_of_singleton, (Hst i), list_elem_of_singleton. tauto.
Qed.

Lemma deliver_all f page st :
  sent_ids st →
  let r := deliver send_ok reader accessible f page st in
  r.1 = true ∧ sent_ids r.2 ∧ (∀ i, i ∈ st.1 → i ∈ r.2.1) ∧
  ∀ s, s ∈ page → accepts reader accessible f s = true → ev_id (event s) ∈ r.2.1.
Proof using Hsend.
  revert st. induction page as [|s page IH]; intros st Hst; cbn [deliver].
  { split_and!; [done..|]. by intros s ?%not_elem_of_nil. }
  destruct (deliver_one_all f s st Hst) as (Hne & Hst' & Hmono & Hacc).
  destruct (deliver_one _ _ _ _ _ _) as [d st']. simpl in *.
  destruct (IH st' Hst') as (H1 & H2 & H3 & H4). destruct d; [| |done]; cbv zeta in *.
  all: split_and!; [done|done|by auto|]; intros s' [->|Hin]%elem_of_cons Ha; auto.
Qed.

Context (community : CommunityId) (query : EventQuery → result DbError (list StoredEvent)).

Lemma history_all channel_id fs st :
  sent_ids st →
  (∀ f, f ∈ fs → is_ok (query (page_query f community (per_filter_channel channel_id (rf_filter f)) accessible reader)) = true) →
  let r := history community query send_ok reader channel_id accessible fs st in
  r.2 = true ∧ (∀ i, i ∈ st.1 → i ∈ (ev_id <$> r.1)) ∧
  ∀ f page s, f ∈ fs → query (page_query f community (per_filter_channel channel_id (rf_filter f)) accessible reader) = Ok page →
    s ∈ page → accepts reader accessible (rf_filter f) s = true → ev_id (event s) ∈ (ev_id <$> r.1).
Proof using Hsend.
  revert st. induction fs as [|f fs IH]; intros st Hst Hq; cbn [history].
  { split_and!; [done|intros i; apply Hst|]. by intros f page s ?%not_elem_of_nil. }
  pose proof (Hq f ltac:(left)) as Hf. destruct (query (page_query f _ _ _ _)) as [page|] eqn:Ep; [|done].
  destruct (deliver_all (rf_filter f) page st Hst) as (Hgo & Hst' & Hmono & Hacc).
  destruct (deliver _ _ _ _ _ _) as [go st']. simpl in *. subst go.
  destruct (IH st' Hst') as (H1 & H2 & H3); [intros f' ?; apply Hq; by right|]. cbv zeta in *. split_and!; [done|by auto|].
  intros f' page' s [->|Hin]%elem_of_cons Ep' Hs Ha; [|by eauto].
  rewrite Ep in Ep'. injection Ep' as <-. auto.
Qed.

End completeness.

(** ** Properties *)

Section properties.
Context {napi : NostrApi} {L : NostrLaws napi} {IL : IdHexLaws napi} {HL : HexLowerLaws napi}.
Context {uapi : UuidParse} {capi : ChronoApi}.
Context (community : CommunityId).
Context (get_accessible : result DbError (list Uuid)) (is_member : Uuid → result DbError bool).
Context (query : EventQuery → result DbError (list StoredEvent)).
Context (search : SearchQuery → option (list EventId)) (get_events_by_ids : list EventId → option (list StoredEvent)).
Context (send_ok : nat → bool).

#[local] Abbreviation handle_req :=
  (handle_req community get_accessible is_member query search get_events_by_ids send_ok).

Definition is_event (m : RelayMessage) : option NostrEvent := match m with MEvent _ e => Some e | _ => None end.

Lemma omap_events sub_id (es : list NostrEvent) (b : bool) :
  omap is_event ((MEvent sub_id <$> es) ++ if b then [MEose sub_id] else []) = es.
Proof.
  rewrite omap_app. assert (omap is_event (MEvent sub_id <$> es) = es) as -> by (induction es; csimpl; by f_equal).
  destruct b; csimpl; by rewrite app_nil_r.
Qed.



Section shown.
Context {TL : TagLaws napi} {LL : LetterLaws napi} {LenL : HexLenLaws napi} {CL : ChronoLaws capi}.
Context (Hsend : ∀ n, send_ok n = true) (db : EventDb).

Lemma handle_req_accepted ctx conn_id sub_id filters st accessible authorized :
  ac_scopes ctx = [] ∨ MessagesRead ∈ ac_scopes ctx → size (rs_subscriptions st) < MAX_SUBSCRIPTIONS →
  request_access get_accessible is_member (ac_channel_ids ctx) (rf_filter <$> filters) = Ok (accessible, authorized) →
  (extract_channel_id_from_filters (rf_filter <$> filters) = None → gate_refusal (rf_filter <$> filters) (ac_pubkey ctx) = None) →
  (∀ g, g ∈ filters → rf_search g = None) →
  let h := history community (query_events db) send_ok (ac_pubkey ctx)
             (extract_channel_id_from_filters (rf_filter <$> filters)) accessible filters (∅, []) in
  (ReadPath.handle_req community get_accessible is_member (query_events db) search get_events_by_ids send_ok
     (Authenticated ctx) conn_id sub_id filters st).1 =
  (MEvent sub_id <$> h.1) ++ if h.2 then [MEose sub_id] else [].
Proof.
  intros Hscope Hsize Hacc Hgate Hfs h. unfold ReadPath.handle_req.
  assert (bool_decide (ac_scopes ctx ≠ []) && negb (has_scope ctx MessagesRead) = false) as ->.
  { destruct Hscope as [->|Hin]; [done|]. unfold has_scope. by rewrite (bool_decide_eq_true_2 (_ ∈ _)), andb_false_r. }
  rewrite decide_False by lia. rewrite Hacc.
  assert ((if bool_decide (extract_channel_id_from_filters (rf_filter <$> filters) = None)
           then gate_refusal (rf_filter <$> filters) (ac_pubkey ctx) else None) = None) as ->.
  { case_bool_decide; auto. }
  assert (existsb (λ f0, bool_decide (rf_search f0 ≠ None)) filters = false) as ->.
  { apply existsb_false. intros g Hg. apply bool_decide_eq_false_2. intros Hx. by apply Hx, Hfs. }
  unfold h. by destruct (history _ _ _ _ _ _ _ _).
Qed.

(** C27: A REQ that is accepted -- the scope allows reading, there is room for the
    subscription, the access check answers and no gate refuses -- whose filters have no
    search and no limit that is negative as an [i64], from a client to whom every message
    can be sent, over a database that answers and whose columns are those the insertion
    derives from the events ([db_ok]), ends with EOSE.  By then every stored live event of
    the tenant that a well-formed filter of it selects was sent, if its time is one the
    database holds ([event_ok]), it has at most one [d] value and a single [#p] value of the
    filter is a key ([pageable]), it lies in a channel the filter is paged for
    ([page_channel_allowed]) and the reader may access, and the reader may see it -- or the
    page the database read for that filter is full, its rows all come before that event,
    and those of them in accessible channels that the filter selects and the reader may see
    were sent. *)
Theorem req_shows_history ctx conn_id sub_id filters st accessible authorized f r :
  let handle := ReadPath.handle_req community get_accessible is_member (query_events db) search get_events_by_ids send_ok in
  let ch := per_filter_channel (extract_channel_id_from_filters (rf_filter <$> filters)) (rf_filter f) in
  let out := (handle (Authenticated ctx) conn_id sub_id filters st).1 in
  db_ok db →
  ac_scopes ctx = [] ∨ MessagesRead ∈ ac_scopes ctx → size (rs_subscriptions st) < MAX_SUBSCRIPTIONS →
  request_access get_accessible is_member (ac_channel_ids ctx) (rf_filter <$> filters) = Ok (accessible, authorized) →
  (extract_channel_id_from_filters (rf_filter <$> filters) = None → gate_refusal (rf_filter <$> filters) (ac_pubkey ctx) = None) →
  (∀ g, g ∈ filters → rf_search g = None ∧ (0 ≤ page_limit (rf_limit g))%Z) →
  f ∈ filters → filter_wf (rf_filter f) → r ∈ rows db → event_ok (r_event r) → pageable (rf_filter f) (r_event r) →
  r_community r = community → r_deleted r = false → (∀ c, r_channel r = Some c → c ∈ accessible) →
  page_channel_allowed (rf_filter f) ch accessible (r_channel r) = true →
  selects (rf_filter f) (stored_of r) → event_visible_to_reader (r_event r) (ac_pubkey ctx) = true →
  last out = Some (MEose sub_id) ∧
  (ev_id (r_event r) ∈ (ev_id <$> omap is_event out) ∨
   ∃ full, query_events db (page_query f community ch accessible (ac_pubkey ctx)) = Ok (stored_of <$> full) ∧
     Z.of_nat (length full) = page_limit (rf_limit f) ∧
     ∀ r', r' ∈ full → r' ∈ rows db ∧ row_before r' r ∧
       ((∀ c, r_channel r' = Some c → c ∈ accessible) → selects (rf_filter f) (stored_of r') →
        event_visible_to_reader (r_event r') (ac_pubkey ctx) = true → ev_id (r_event r') ∈ (ev_id <$> omap is_event out))).
Proof using L TL LL IL HL LenL CL Hsend.
  intros handle ch out Hdb Hscope Hsize Hacc Hgate Hfs Hf Hwf Hr He Hpg Hc Hd Hchan Hpc Hs Hv.
  destruct (history_all send_ok Hsend (ac_pubkey ctx) accessible community (query_events db)
    (extract_channel_id_from_filters (rf_filter <$> filters)) filters (∅, [])) as (Heose & _ & Hall).
  { intros i. simpl. set_solver. }
  { intros g Hg. apply page_answers. by apply Hfs. }
  unfold out, handle. rewrite (handle_req_accepted ctx conn_id sub_id filters st accessible authorized), Heose by (try done; intros g Hg; by apply Hfs).
  split; [apply last_snoc|]. rewrite (omap_events sub_id _ true).
  pose proof (page_answers db f community ch accessible (ac_pubkey ctx) (proj2 (Hfs f Hf))) as Hok.
  destruct (query_events db (page_query f community ch accessible (ac_pubkey ctx))) as [page|] eqn:Eq; [|done].
  assert (∀ r', stored_of r' ∈ page → (∀ c, r_channel r' = Some c → c ∈ accessible) → selects (rf_filter f) (stored_of r') →
    event_visible_to_reader (r_event r') (ac_pubkey ctx) = true →
    ev_id (r_event r') ∈ (ev_id <$> (history community (query_events db) send_ok (ac_pubkey ctx)
      (extract_channel_id_from_filters (rf_filter <$> filters)) accessible filters (∅, [])).1)) as Hsent.
  { intros r' Hin Hch' Hs' Hv'. apply (Hall f page (stored_of r')); [done|exact Eq|done|]. unfold accepts. rewrite !andb_true_iff.
    split_and!; [|..|done].
    + apply filters_match_iff. exists (rf_filter f). split; [left|done].
    + simpl. destruct (r_channel r') as [c|]; [|done]. apply bool_decide_eq_true. auto. }
  destruct (page_complete db f community ch accessible (ac_pubkey ctx) page r) as [Hin|(full & -> & Hlen & Hfull)]; [done..| |].
  - left. by apply Hsent.
  - right. exists full. split; [done|]. split; [done|]. intros r' Hr'. destruct (Hfull r' Hr') as [? ?]. split; [done|]. split; [done|].
    intros. apply Hsent; [by apply list_elem_of_fmap_2|done..].
Qed.

End shown.

End properties.

(** ** COUNT is exact *)

Section counting.
Context {napi : NostrApi} {L : NostrLaws napi} {TL : TagLaws napi} {LL : LetterLaws napi}.
Context {IL : IdHexLaws napi} {HL : HexLowerLaws napi} {LenL : HexLenLaws napi}.
Context {uapi : UuidParse} {capi : ChronoApi} {CL : ChronoLaws capi}.
Context (community : CommunityId) (db : EventDb) (Hdb : db_ok db) (reader : PublicKey) (Hreader : key_ok reader).
Context (show_db_error : DbError → string).

(** The events a COUNT of one filter is about. *)
Definition counted (f : ReqFilter) (accessible : list Uuid) (r : Row) : bool :=
  should_count f community accessible r && event_visible_to_reader (r_event r) reader.

(** What the filter and the stored events must satisfy: for every filter that a page of
    them is complete, and for those the database counts that SQL agrees with NIP-01. *)
Record countable (f : ReqFilter) : Prop := {
  ct_wf : filter_wf (rf_filter f);
  ct_ok : filter_ok (rf_filter f);
  ct_rows : ∀ r, r ∈ rows db → event_ok (r_event r) ∧ pageable (rf_filter f) (r_event r);
  ct_exact : count_fast_path f (id_to_hex reader) = true → ∀ r, r ∈ rows db →
    countable_exactly (rf_filter f) (r_event r) ∧ channel_exactly (rf_filter f) r
}.

Lemma count_fast f ch_id accessible :
  countable f → scope_consistent f ch_id accessible → count_fast_path f (id_to_hex reader) = true →
  count_events db (scoped_query f community ch_id accessible) =
    Ok (N.of_nat (length (List.filter (counted f accessible) (rows db)))).
Proof using L TL LL IL HL LenL CL Hdb Hreader.
  intros [Hwf Hok Hrows Hex] Hsc Hfast. rewrite count_exact; [|done|done| |done|].
  - assert (List.filter (should_count f community accessible) (rows db) = List.filter (counted f accessible) (rows db)) as ->; [|done].
    apply filter_ext_in. intros r Hr%list_elem_of_In. unfold counted.
    destruct (should_count f community accessible r) eqn:Hs; [|done]. symmetry.
    apply (count_fast_path_sound f reader (stored_of r)); [done..|]. unfold should_count in Hs. rewrite !andb_true_iff in Hs.
    destruct Hs as [_ Hm]. by apply filter_match_one_iff.
  - unfold count_fast_path in Hfast. rewrite !andb_true_iff in Hfast. apply Hfast.
  - intros r Hr. destruct (Hrows r Hr), (Hex Hfast r Hr). done.
Qed.

Lemma length_filter_perm {A} (p : A → bool) l k : l ≡ₚ k → length (List.filter p l) = length (List.filter p k).
Proof.
  induction 1 as [|x l k _ IH|x y l|l k m _ IH1 _ IH2]; simpl; [done| | |congruence].
  - destruct (p x); simpl; by rewrite IH.
  - by destruct (p x), (p y).
Qed.

Lemma length_filter_fmap {A B} (g : A → B) (p : B → bool) l :
  length (List.filter p (g <$> l)) = length (List.filter (λ x, p (g x)) l).
Proof. induction l as [|x l IH]; [done|]. csimpl. destruct (p (g x)); simpl; by rewrite IH. Qed.

Lemma filter_filter {A} (p q : A → bool) l : List.filter p (List.filter q l) = List.filter (λ x, q x && p x) l.
Proof. induction l as [|x l IH]; [done|]. simpl. destruct (q x); simpl; [|done]. by destruct (p x); rewrite IH. Qed.

(** The query of the fallback: the scoped one, with the reader where shared kinds can match. *)
Definition shared_query (f : ReqFilter) (q : EventQuery) : EventQuery :=
  if filter_can_match_shared_gated_kinds (rf_filter f) then set_shared_gated_reader reader q else q.

Lemma candidates_exact f ch_id accessible r :
  countable f → scope_consistent f ch_id accessible → r ∈ rows db →
  row_selected (mentions db) (apply_count_fallback_limit (shared_query f (scoped_query f community ch_id accessible))) r &&
    (filters_match [rf_filter f] (stored_of r) && event_visible_to_reader (r_event r) reader) = counted f accessible r.
Proof using L TL LL IL LenL CL Hdb.
  intros [Hwf Hok Hrows _] Hsc Hr. destruct (Hrows r Hr) as [He Hpg].
  set (base := filter_to_query_params f (extract_channel_id_from_filter (rf_filter f)) community).
  set (q := apply_count_fallback_limit _).
  assert (where_tenant q r = bool_decide (r_community r = community) && negb (r_deleted r) ∧
          where_event (mentions db) q r = where_event (mentions db) base r ∧ where_until q r = where_until base r) as (Et & Ee & Eu).
  { unfold q, shared_query, scoped_query. fold base.
    destruct (scope_shape base (rf_filter f) ch_id accessible) as [->|(ids & b & ->)];
      by destruct (filter_can_match_shared_gated_kinds _). }
  assert (where_channel q (r_channel r) = channel_allowed (rf_filter f) accessible (r_channel r)) as Ech.
  { rewrite <-(scoped_where_channel f community ch_id) by done. unfold q, shared_query. by destruct (filter_can_match_shared_gated_kinds _). }
  assert (∀ x, q_shared_gated_reader q = Some x → x = reader) as Esh.
  { intros x. unfold q, shared_query, scoped_query. fold base.
    destruct (scope_shape base (rf_filter f) ch_id accessible) as [->|(ids & b & ->)];
      destruct (filter_can_match_shared_gated_kinds _); by intros [= <-]. }
  unfold row_selected, counted, should_count. rewrite Et, Ech, Ee, Eu. unfold filters_match. cbn [existsb]. rewrite orb_false_r.
  destruct (decide (r_community r = community)) as [Hc|Hn]; [|by rewrite bool_decide_eq_false_2].
  rewrite bool_decide_eq_true_2 by done. destruct (r_deleted r); [done|]. cbn [andb negb].
  destruct (channel_allowed _ _ _); [|done]. cbn [andb].
  destruct (filter_match_one (rf_filter f) (stored_of r)) eqn:Hm; [|by rewrite andb_false_r].
  destruct (event_visible_to_reader (r_event r) reader) eqn:Hv; [|by rewrite !andb_false_r]. apply filter_match_one_iff in Hm.
  destruct (where_event_complete (mentions db) f (extract_channel_id_from_filter (rf_filter f)) community r) as [Hw Hu];
    [done|done|by apply Hdb|apply slt_p|done|done|done|].
  fold base in Hw, Hu. rewrite Hw, Hu, visible_where_shared; [done|]. by intros x ->%Esh.
Qed.

Lemma count_fallback_exact f ch_id accessible n :
  countable f → scope_consistent f ch_id accessible →
  count_fallback (query_events db) show_db_error reader f (shared_query f (scoped_query f community ch_id accessible)) = Ok n →
  n = N.of_nat (length (List.filter (counted f accessible) (rows db))).
Proof using L TL LL IL LenL CL Hdb.
  intros Hct Hsc. unfold count_fallback, query_events.
  set (q := apply_count_fallback_limit _).
  assert (q_before_id q = None ∧ q_global_only q = false ∧ q_limit q = Some 5001%Z ∧ q_max_limit q = Some 5001%Z ∧
    q_offset q = None ∧ (matches_nothing q = true → f_kinds (rf_filter f) = Some [])) as (-> & -> & -> & -> & -> & Hno).
  { split_and!; [..|intros Hm; apply (scope_matches_nothing f (extract_channel_id_from_filter (rf_filter f)) community ch_id accessible)].
    6: { rewrite <-Hm. unfold q, shared_query. by destruct (filter_can_match_shared_gated_kinds _). }
    all: unfold q, shared_query, scoped_query; destruct (scope_shape
      (filter_to_query_params f (extract_channel_id_from_filter (rf_filter f)) community) (rf_filter f) ch_id accessible)
      as [->|(ids & b & ->)]; by destruct (filter_can_match_shared_gated_kinds _). }
  rewrite bool_decide_eq_false_2 by (intros Hx; by apply Hx). cbn [andb from_option id].
  destruct (matches_nothing q).
  { simpl. intros [= <-]. rewrite filter_none; [done|]. intros r _. unfold counted, should_count, filter_match_one. rewrite (Hno eq_refl).
    rewrite (bool_decide_eq_false_2 (_ ∈ [])) by apply not_elem_of_nil. by rewrite andb_false_r. }
  rewrite Z.min_id. change (Z.to_nat 0) with 0. rewrite drop_0. cbn [Z.ltb Z.compare orb].
  set (sel := List.filter (row_selected (mentions db) q) (rows db)). pose proof (merge_sort_Permutation row_before sel) as Hp.
  assert (∀ r, r ∈ take (Z.to_nat 5001) (merge_sort row_before sel) → r ∈ rows db) as Hrows.
  { intros r (i & Hi & _)%elem_of_take. apply list_elem_of_lookup_2 in Hi. rewrite Hp in Hi.
    by apply list_elem_of_In, filter_In in Hi as [?%list_elem_of_In _]. }
  rewrite (rows_read_back db) by done. rewrite length_fmap.
  unfold count_fallback_exceeded, COUNT_FALLBACK_CANDIDATE_LIMIT.
  destruct (Z.ltb_spec 5000 (Z.of_nat (length (take (Z.to_nat 5001) (merge_sort row_before sel))))) as [|Hle]; [done|]. intros [= <-].
  rewrite take_ge by (rewrite length_take in Hle; lia). rewrite length_filter_fmap, (length_filter_perm _ _ _ Hp).
  unfold sel. rewrite filter_filter. do 2 f_equal. apply filter_ext_in. intros r Hr%list_elem_of_In.
  by rewrite <-(candidates_exact f ch_id accessible r).
Qed.

Lemma count_query_exact f ch_id accessible clear n :
  countable f → scope_consistent f ch_id accessible →
  count_query (query_events db) (count_events db) show_db_error reader f clear (scoped_query f community ch_id accessible) = Ok n →
  n = N.of_nat (length (List.filter (counted f accessible) (rows db))).
Proof using L TL LL IL HL LenL CL Hdb Hreader.
  intros Hct Hsc. unfold count_query. fold (shared_query f (scoped_query f community ch_id accessible)).
  destruct (count_fast_path f _) eqn:Hfast; [|by apply count_fallback_exact].
  assert (filter_can_match_shared_gated_kinds (rf_filter f) = false) as Hns.
  { unfold count_fast_path in Hfast. rewrite !andb_true_iff, !negb_true_iff in Hfast. apply Hfast. }
  unfold shared_query. rewrite Hns.
  assert (count_events db (if clear then set_limits None (q_max_limit (scoped_query f community ch_id accessible))
            (scoped_query f community ch_id accessible) else scoped_query f community ch_id accessible) =
          count_events db (scoped_query f community ch_id accessible)) as -> by (by destruct clear).
  rewrite (count_fast f) by done. by intros [= <-].
Qed.

Lemma elem_of_push_channels x ids vs :
  x ∈ foldl push_channel ids vs ↔ x ∈ ids ∨ x ∈ omap parse_uuid vs.
Proof.
  revert ids. induction vs as [|v vs IH]; intros ids; simpl; [rewrite elem_of_nil; tauto|]. rewrite IH. unfold push_channel.
  destruct (parse_uuid v) as [c|]; [|done]. rewrite elem_of_cons. case_decide as Hc.
  - split; [tauto|]. intros [?|[->|?]]; auto.
  - rewrite elem_of_app, list_elem_of_singleton. tauto.
Qed.

(** The filter asks for the channel by [#h]. *)
Definition requests (f : NostrFilter) (c : Uuid) : Prop :=
  ∃ vs, generic_tags_get h_tag (f_generic_tags f) = Some vs ∧ c ∈ omap parse_uuid vs.

(** A filter for one channel names it once: its values are as many as the channels it
    requests, when that is one. *)
Definition names_channel_once (f : NostrFilter) : Prop :=
  ∀ vs, generic_tags_get h_tag (f_generic_tags f) = Some vs →
    length (foldl push_channel [] vs) = 1 → ∃ v, vs = [v].

Context (is_member : Uuid → result DbError bool) (token : option (list Uuid)).

(** The channels a COUNT may look into, once the filters [seen] were read: those the
    token covers and the cache lists ([ids]), or a filter asks for and the database says
    the reader is a member of. *)
Definition reachable (ids : list Uuid) (seen : list ReqFilter) (c : Uuid) : Prop :=
  token_allows token c = true ∧
  (c ∈ ids ∨ is_member c = Ok true ∧ ∃ f, f ∈ seen ∧ requests (rf_filter f) c).

(** The events a COUNT of the filter [f] is about, [seen] being the filters up to it: a
    live row of the tenant outside channels or in a reachable one, in one that [f] asks
    for if it asks for any, selected by [f] and visible to the reader. *)
Definition counts (ids : list Uuid) (seen : list ReqFilter) (f : ReqFilter) (r : Row) : Prop :=
  r_community r = community ∧ r_deleted r = false ∧
  (∀ c, r_channel r = Some c → reachable ids seen c) ∧
  (∀ vs, generic_tags_get h_tag (f_generic_tags (rf_filter f)) = Some vs →
     ∃ c, r_channel r = Some c ∧ requests (rf_filter f) c) ∧
  selects (rf_filter f) (stored_of r) ∧ event_visible_to_reader (r_event r) reader = true.

Lemma count_filter_exact f accessible n accessible' :
  countable f → names_channel_once (rf_filter f) →
  count_filter community is_member (query_events db) (count_events db) show_db_error reader token f accessible = Ok (n, accessible') →
  n = N.of_nat (length (List.filter (counted f accessible') (rows db))) ∧
  ∀ c, c ∈ accessible' ↔ c ∈ accessible ∨ (requests (rf_filter f) c ∧ token_allows token c = true ∧ is_member c = Ok true).
Proof using L TL LL IL HL LenL CL Hdb Hreader.
  intros Hct Hone. unfold count_filter, extract_channel_ids_from_filters. cbn [channel_ids_loop].
  destruct (generic_tags_get h_tag _) as [vs|] eqn:Hg.
  - rewrite count_confirm_eq. destruct (confirm_requested _ _ _ _) as [acc|] eqn:Ec; [|done].
    assert (∀ c, c ∈ acc ↔ c ∈ accessible ∨ (requests (rf_filter f) c ∧ token_allows token c = true ∧ is_member c = Ok true)) as Hacc.
    { intros c. rewrite (confirm_requested_iff _ _ _ _ _ Ec c), elem_of_push_channels, elem_of_nil. unfold requests. rewrite Hg. naive_solver. }
    destruct (List.filter _ _) as [|first rest] eqn:Ef.
    + intros [= <- <-]. split; [|done].
      rewrite filter_none; [done|]. intros r _. unfold counted, should_count. apply andb_false_iff. left. apply andb_false_iff. left. apply andb_false_iff. right.
      unfold channel_allowed. rewrite Hg. destruct (r_channel r) as [c|]; [|done]. apply andb_false_iff.
      destruct (decide (c ∈ acc)) as [Ha|Ha]; [right|left; by apply bool_decide_eq_false_2]. apply bool_decide_eq_false_2. intros Hc.
      assert (c ∈ List.filter (λ c, bool_decide (c ∈ acc)) (foldl push_channel [] vs)) as Hx.
      { apply list_elem_of_In, filter_In. split; [|by apply bool_decide_eq_true]. apply list_elem_of_In, elem_of_push_channels. by right. }
      rewrite Ef in Hx. by apply not_elem_of_nil in Hx.
    + set (ch_id := if decide _ then _ else _).
      assert (scope_consistent f ch_id acc) as Hsc.
      { unfold ch_id. case_decide as Hlen; [|by left]. right. exists first. split; [done|].
        destruct (Hone vs Hg Hlen) as [v ->]. assert (first ∈ first :: rest) as Hfirst by left. rewrite <-Ef in Hfirst.
        apply list_elem_of_In, filter_In in Hfirst as [Hin%list_elem_of_In Ha%bool_decide_eq_true]. split; [|done].
        apply elem_of_push_channels in Hin as [?%not_elem_of_nil|Hin]; [done|]. apply extract_channel_id_Some. exists v. split; [done|].
        apply list_elem_of_omap in Hin as (v' & ->%list_elem_of_singleton & ?). done. }
      unfold build_event_query_from_filter. fold (scoped_query f community ch_id acc).
      destruct (count_query _ _ _ _ _ _ _) as [m|] eqn:Eq; [|done]. simpl. intros [= <- <-]. split; [|done].
      by eapply count_query_exact.
  - set (q := set_channel_ids _ _ _).
    assert (q = scoped_query f community None accessible) as ->.
    { unfold q, scoped_query, apply_channel_scope_to_query. by rewrite Hg. }
    destruct (count_query _ _ _ _ _ _ _) as [m|] eqn:Eq; [|done]. simpl. intros [= <- <-]. split.
    + eapply count_query_exact; [done| |exact Eq]. by left.
    + intros c. unfold requests. rewrite Hg. naive_solver.
Qed.

Lemma counted_iff ids seen f accessible r :
  (∀ c, c ∈ accessible ↔ reachable ids seen c) →
  counted f accessible r = true ↔ counts ids seen f r.
Proof.
  intros Hacc. unfold counted, should_count, counts, channel_allowed, requests.
  rewrite !andb_true_iff, bool_decide_eq_true, negb_true_iff, filter_match_one_iff.
  destruct (generic_tags_get h_tag _) as [vs|] eqn:Hg, (r_channel r) as [c|]; simpl;
    rewrite ?andb_true_iff, ?bool_decide_eq_true, ?Hacc.
  - split; [intros [[[[? ?] [? Hv]] ?] ?]|intros (? & ? & Hr & Hq & ? & ?)].
    + split_and!; [done..| | |done|done]; [by intros ? [= <-]|]. intros ? [= <-]. exists c. split; [done|]. by exists vs.
    + destruct (Hq vs eq_refl) as (? & [= <-] & ? & [= <-] & ?). specialize (Hr c eq_refl). tauto.
  - split; [intros [[[? ?] ?] ?]; done|intros (? & ? & Hr & Hq & ? & ?)]. by destruct (Hq vs eq_refl) as (? & ? & ?).
  - split; [intros [[[[? ?] ?] ?] ?]|intros (? & ? & Hr & Hq & ? & ?)].
    + split_and!; try done. by intros ? [= <-].
    + specialize (Hr c eq_refl). tauto.
  - split; [intros [[[[? ?] ?] ?] ?]|intros (? & ? & Hr & Hq & ? & ?)]; by split_and!.
Qed.

Lemma count_loop_exact ids fs : ∀ seen accessible total n,
  (∀ f, f ∈ fs → countable f ∧ names_channel_once (rf_filter f)) →
  (∀ c, c ∈ accessible ↔ reachable ids seen c) →
  count_loop community is_member (query_events db) (count_events db) show_db_error reader token fs accessible total = Ok n →
  ∃ ns, length ns = length fs ∧ n = (total + N.of_nat (sum_list ns))%N ∧
    ∀ i f k, fs !! i = Some f → ns !! i = Some k →
      ∃ hit, k = length (List.filter hit (rows db)) ∧
        ∀ r, hit r = true ↔ counts ids (seen ++ take (S i) fs) f r.
Proof using L TL LL IL HL LenL CL Hdb Hreader.
  induction fs as [|f fs IH]; intros seen accessible total n Hfs Hacc; cbn [count_loop].
  { intros [= <-]. exists []. split_and!; [done|simpl; lia|done]. }
  destruct (count_filter _ _ _ _ _ _ _ _ _) as [[m acc]|] eqn:Ef; [|done].
  destruct (Hfs f ltac:(left)) as [Hct Hone]. apply count_filter_exact in Ef as [-> Hacc']; [|done..].
  assert (∀ c, c ∈ acc ↔ reachable ids (seen ++ [f]) c) as Hseen.
  { intros c. rewrite Hacc', Hacc. unfold reachable. setoid_rewrite elem_of_app. setoid_rewrite list_elem_of_singleton.
    split; [naive_solver|]. intros (? & [?|(? & g & [?| ->] & ?)]); naive_solver. }
  intros (ns & Hlen & -> & Hns)%(IH (seen ++ [f])); [|intros f' ?; apply Hfs; by right|done].
  exists (length (List.filter (counted f acc) (rows db)) :: ns). split_and!.
  - simpl. by rewrite Hlen.
  - unfold sum_list. simpl. lia.
  - intros [|i] f' k; simpl.
    + intros [= <-] [= <-]. exists (counted f acc). split; [done|]. intros r. by apply counted_iff.
    + intros Hf Hk. destruct (Hns i f' k Hf Hk) as (hit & ? & Hhit). exists hit. split; [done|]. intros r. rewrite Hhit, <-app_assoc. done.
Qed.

End counting.

(** ** COUNT answers exactly *)

Section count_answers.
Context {napi : NostrApi} {L : NostrLaws napi} {TL : TagLaws napi} {LL : LetterLaws napi}.
Context {IL : IdHexLaws napi} {HL : HexLowerLaws napi} {LenL : HexLenLaws napi}.
Context {uapi : UuidParse} {capi : ChronoApi} {CL : ChronoLaws capi}.
Context (community : CommunityId) (get_accessible : result DbError (list Uuid)) (is_member : Uuid → result DbError bool).
Context (show_db_error : DbError → string).

(** C6: The number COUNT answers is the sum, filter by filter, of exactly the rows the
    filter is about ([counts]): live rows of the tenant that the filter selects and the
    reader may see, outside channels or in a channel within its token that the membership
    cache lists, or that one of the filters so far asked for and the database confirmed --
    all of them and no others, whether the database counted or the candidates were
    post-filtered.  (A filter that requests one channel must name it by one value, see
    [ReadPathDemo.count_escapes_channels].) *)
Theorem count_answer_exact db ctx sub_id filters n :
  db_ok db → key_ok (ac_pubkey ctx) →
  (∀ f, f ∈ filters → countable db (ac_pubkey ctx) f ∧ names_channel_once (rf_filter f)) →
  handle_count community get_accessible is_member (query_events db) (count_events db) show_db_error
    (Authenticated ctx) sub_id filters = [MCount sub_id n] →
  ∃ ids ns, get_accessible = Ok ids ∧ length ns = length filters ∧ n = N.of_nat (sum_list ns) ∧
    ∀ i f k, filters !! i = Some f → ns !! i = Some k →
      ∃ hit, k = length (List.filter hit (rows db)) ∧
        ∀ r, hit r = true ↔
          counts community (ac_pubkey ctx) is_member (ac_channel_ids ctx) ids (take (S i) filters) f r.
Proof using L TL LL IL HL LenL CL.
  intros Hdb Hk Hfs. unfold handle_count. destruct (count_gate_refusal _ _); [done|].
  destruct (extract_channel_ids_from_filters_limited _); [|done]. destruct get_accessible as [ids|] eqn:Eids; [|done].
  destruct (count_loop _ _ _ _ _ _ _ _ _ _) as [m|] eqn:Ec; [|done]. intros [= <-].
  apply (count_loop_exact community db Hdb (ac_pubkey ctx) Hk show_db_error is_member (ac_channel_ids ctx) ids filters []) in Ec
    as (ns & ? & -> & ?); [|done|].
  - exists ids, ns. done.
  - intros c. rewrite list_elem_of_In, filter_In, <-list_elem_of_In. unfold reachable. setoid_rewrite elem_of_nil. naive_solver.
Qed.

End count_answers.

(** ** Witnesses *)

Module ReadPathDemo.
Import EventQueryDemo.

#[local] Existing Instance hex_api.
#[local] Existing Instance hex_api_laws.
#[local] Existing Instance hex_api_id_laws.
#[local] Existing Instance hex_tag_laws.
#[local] Existing Instance hex_len_laws.
#[local] Existing Instance hex_letter_laws.
#[local] Existing Instance demo_chrono.
#[local] Existing Instance demo_chrono_laws.
#[local] Existing Instance TopicsDemo.demo_parse_uuid.

Lemma hex_lower_laws : HexLowerLaws hex_api.
Proof.
  intros a. cbn [id_to_hex hex_api]. generalize 64. intros k. revert a. induction k as [|k IH]; intros a; [done|].
  cbn [hex_digits to_ascii_lowercase]. rewrite IH. f_equal.
  pose proof (nibble_all (λ c, Ascii.eqb (ascii_lower c) c) (a `mod` 16) ltac:(reflexivity)) as Hn.
  apply Ascii.eqb_eq, Hn. by apply N.mod_lt.
Qed.
#[local] Existing Instance hex_lower_laws.

(** Reader 3, member of channel 5 only, and the two messages of [db0]. *)
Definition ctx3 : AuthContext := mkAuthContext 3 [] None Nip42 None.
Definition only5 : result DbError (list Uuid) := Ok [5%N].
Definition no_repair (c : Uuid) : result DbError bool := Ok false.
Definition no_search (q : SearchQuery) : option (list EventId) := None.
Definition no_ids (ids : list EventId) : option (list StoredEvent) := None.
Definition idle_state : ReqState := mkReqState ∅ registry_new [].
Definition req (fs : list ReqFilter) : list RelayMessage * ReqState :=
  handle_req 1 only5 no_repair (query_events db0) no_search no_ids (λ _, true) (Authenticated ctx3) 9 "s" fs idle_state.
Definition count (fs : list ReqFilter) : list RelayMessage :=
  handle_count 1 only5 no_repair (query_events db0) (count_events db0) (λ _, "") (Authenticated ctx3) "s" fs.



Definition row7 : Row := mkRow 1 (msg 7 "101") 100 0 (Some 5%N) false None.

Lemma req_shows_history_witness :
  last (req [all_messages 10]).1 = Some (MEose "s") ∧
  (ev_id (r_event row7) ∈ (ev_id <$> omap is_event (req [all_messages 10]).1) ∨
   ∃ full, query_events db0 (page_query (all_messages 10) 1 None [5%N] 3) = Ok (stored_of <$> full) ∧
     Z.of_nat (length full) = 10%Z ∧
     ∀ r', r' ∈ full → r' ∈ rows db0 ∧ row_before r' row7 ∧
       ((∀ c, r_channel r' = Some c → c ∈ [5%N]) → selects (rf_filter (all_messages 10)) (stored_of r') →
        event_visible_to_reader (r_event r') 3 = true → ev_id (r_event r') ∈ (ev_id <$> omap is_event (req [all_messages 10]).1))).
Proof.
  apply (req_shows_history (napi := hex_api) 1 only5 no_repair no_search no_ids (λ _, true) (λ _, eq_refl) db0 ctx3 9 "s"
    [all_messages 10] idle_state [5%N] None (all_messages 10) row7).
  - apply db0_ok.
  - by left.
  - unfold MAX_SUBSCRIPTIONS. simpl. rewrite map_size_empty. lia.
  - reflexivity.
  - intros _. reflexivity.
  - intros g ->%list_elem_of_singleton. by vm_compute.
  - left.
  - split; [apply NoDup_nil_2|by intros l vs ?%not_elem_of_nil|done..].
  - vm_compute. left.
  - by apply msg_ok.
  - split; [done|simpl; lia].
  - done.
  - done.
  - intros c [= <-]. left.
  - reflexivity.
  - apply filter_match_one_iff. reflexivity.
  - reflexivity.
Defined.

Lemma in_channel_countable v :
  v = "101" → countable db0 3 (in_channel [v]) ∧ names_channel_once (rf_filter (in_channel [v])).
Proof.
  intros ->. split; [|intros vs [= <-] _; by eexists]. split; [apply in_channel_wf|done| |].
  - intros r Hr%db0_rows. destruct Hr as [->| ->]; (split; [by apply msg_ok|split; [intros w; by rewrite no_other_tags|simpl; lia]]).
  - intros _ r Hr%db0_rows. split; split.
    + intros l vs [= _ ->]%list_elem_of_singleton. done.
    + done.
    + done.
    + intros w. by rewrite no_other_tags.
    + destruct Hr as [->| ->]; by intros w ?%not_elem_of_nil.
    + destruct Hr as [->| ->]; done.
    + intros vs w t. by rewrite no_other_tags.
    + intros vs w c [= <-] ->%list_elem_of_singleton [= <-]. reflexivity.
    + destruct Hr as [->| ->]; intros c [= <-]; right; left.
Qed.

Lemma count_answer_exact_witness :
  ∃ ids ns, only5 = Ok ids ∧ length ns = 1 ∧ 1%N = N.of_nat (sum_list ns) ∧
    ∀ i f k, [in_channel ["101"]] !! i = Some f → ns !! i = Some k →
      ∃ hit, k = length (List.filter hit (rows db0)) ∧
        ∀ r, hit r = true ↔ counts 1 3 no_repair None ids (take (S i) [in_channel ["101"]]) f r.
Proof.
  apply (count_answer_exact (napi := hex_api) 1 only5 no_repair (λ _, "") db0 ctx3 "s" [in_channel ["101"]] 1).
  - apply db0_ok.
  - done.
  - intros f ->%list_elem_of_singleton. by apply in_channel_countable.
  - vm_compute. reflexivity.
Defined.

(** A second value that is no channel makes the handler treat a two-value [#h] as one
    channel after the query was built without it: the query has no channel clause left,
    and the message of channel 6, which the reader may not access, is counted. *)
Lemma count_escapes_channels :
  count [in_channel ["101"; "x"]] = [MCount "s" 2] ∧
  length (List.filter (should_count (in_channel ["101"; "x"]) 1 [5%N]) (rows db0)) = 1 ∧
  omap is_event (req [in_channel ["101"; "x"]]).1 = [msg 7 "101"].
Proof. by vm_compute. Qed.

(** A search limit of 2^32 is 0 as a [u32]: the filter is skipped. *)
Lemma search_limit_truncates : search_limit (Some 4294967296%N) = 0%N ∧ search_limit (Some 4294967295%N) = 1000%N.
Proof. by vm_compute. Qed.

End ReadPathDemo.
