(* ===== verification/Fanout.v ===== *)
(** * Live delivery ([buzz-relay/src/handlers/event.rs], caches of [state.rs])

    A stored event reaches the connections of its own pod through
    [dispatch_persistent_event], those of the other pods through Redis and
    [fan_out_pubsub_event].  Both ask the registry for the matching subscriptions and then
    [filter_fanout_by_access], which trusts none of them: it checks again the tenant of
    the connection, the private kinds, and for a private channel the membership of every
    recipient.  What the access filter reads of the database goes through two caches. *)

From stdpp Require Import base gmap strings list.
From Stdlib Require Import Ascii.
From S2P Require Import Prelude Text Nostr CanonicalJson Tenant Auth Topics Protocol Connections Filter Subscription ReadGate EventQuery.

(** The moka caches of [AppState] a fan-out reads and fills, and the marks of events this
    pod has delivered itself. *)
Record Caches := mkCaches {
  channel_visibility_cache : gmap (CommunityId * Uuid) string;
  membership_cache : gmap (CommunityId * Uuid * PublicKey) bool;
  local_event_ids : gset (CommunityId * EventId)
}.

Definition set_visibility m (c : Caches) := mkCaches m (membership_cache c) (local_event_ids c).
Definition set_membership m (c : Caches) := mkCaches (channel_visibility_cache c) m (local_event_ids c).
Definition set_local m (c : Caches) := mkCaches (channel_visibility_cache c) (membership_cache c) m.

(** A visibility read earlier in the same request. *)
Record ThreadedChannelVisibility := mkThreaded {
  tv_community_id : CommunityId;
  tv_channel_id : Uuid;
  tv_visibility : string
}.

(** ** Frames *)

Definition dquote : string := String (ascii_of_N 34) "".

(** The subscription id is put between the quotes as it is. *)
Definition event_frame_for_sub (sub_id event_json : string) : string :=
  "[" +:+ dquote +:+ "EVENT" +:+ dquote +:+ "," +:+ dquote +:+ sub_id +:+ dquote +:+ "," +:+ event_json +:+ "]".

(** The frames are cached per subscription id and sent in order; the number dropped. *)
Definition fanout_frame_cache (sub_ids : list SubId) (event_json : string) : gmap SubId string :=
  foldl (λ frames sub_id, match frames !! sub_id with
                          | Some _ => frames
                          | None => <[sub_id := event_frame_for_sub sub_id event_json]> frames
                          end) ∅ sub_ids.

(** [None] is the panic of the [expect]. *)
Fixpoint send_fanout_frames (capacity : nat) (recipients : list (ConnId * SubId)) (frames : gmap SubId string)
    (drop_count : N) (p : Pod) : option (N * Pod) :=
  match recipients with
  | [] => Some (drop_count, p)
  | (conn_id, sub_id) :: recipients =>
      match frames !! sub_id with
      | None => None
      | Some frame =>
          let '(ok, p) := send_to capacity conn_id (Text frame) p in
          send_fanout_frames capacity recipients frames (if ok then drop_count else drop_count + 1)%N p
      end
  end.

Section fanout.
Context `{NostrApi}.
(* the database: a channel's visibility, a membership *)
Context (get_visibility : CommunityId → Uuid → result DbError string).
Context (db_is_member : CommunityId → Uuid → PublicKey → result DbError bool).

(** ** Caches *)

Definition channel_visibility_cached (community : CommunityId) (ch : Uuid) (prefetched : option string) (c : Caches) :
    result DbError string * Caches :=
  match channel_visibility_cache c !! (community, ch) with
  | Some cached => (Ok cached, c)
  | None =>
      match (match prefetched with Some row => Ok row | None => get_visibility community ch end) with
      | Err e => (Err e, c)
      | Ok visibility =>
          (Ok visibility,
           if decide (visibility = "private")
           then set_visibility (<[(community, ch) := visibility]> (channel_visibility_cache c)) c else c)
      end
  end.

Definition is_member_cached (community : CommunityId) (ch : Uuid) (pk : PublicKey) (c : Caches) :
    result DbError bool * Caches :=
  match membership_cache c !! (community, ch, pk) with
  | Some cached => (Ok cached, c)
  | None =>
      match db_is_member community ch pk with
      | Err e => (Err e, c)
      | Ok member => (Ok member, set_membership (<[(community, ch, pk) := member]> (membership_cache c)) c)
      end
  end.

(** ** The access filter *)

(** The loop over the recipients of an event of a private channel. *)
Fixpoint members_only (p : Pod) (community : CommunityId) (ch : Uuid) (matches : list (ConnId * SubId)) (c : Caches) :
    list (ConnId * SubId) * Caches :=
  match matches with
  | [] => ([], c)
  | (conn_id, sub_id) :: matches =>
      match pubkey_for_conn p conn_id with
      | None => members_only p community ch matches c
      | Some pk =>
          let '(member, c) := is_member_cached community ch pk c in
          let '(allowed, c) := members_only p community ch matches c in
          (match member with Ok true => (conn_id, sub_id) :: allowed | _ => allowed end, c)
      end
  end.

(** The recipients of the tenant that the kinds allow. *)
Definition kinds_allow (p : Pod) (e : NostrEvent) (conn_id : ConnId) : bool :=
  (if contains AUTHOR_ONLY_KINDS (event_kind_u32 e)
   then bool_decide (pubkey_for_conn p conn_id = Some (ev_pubkey e)) else true) &&
  (if is_shared_gated_kind (event_kind_u32 e) then
     match pubkey_for_conn p conn_id with
     | None => false
     | Some pk => if decide (pk = ev_pubkey e) then true else negb (is_unshared_gated_event e pk)
     end
   else true).

Definition filter_fanout_by_access (p : Pod) (community : CommunityId) (stored : StoredEvent)
    (matches : list (ConnId * SubId)) (threaded : option ThreadedChannelVisibility) (c : Caches) :
    list (ConnId * SubId) * Caches :=
  let matches := List.filter (λ m, bool_decide (community_for_conn p m.1 = Some community)) matches in
  let matches := List.filter (λ m, kinds_allow p (event stored) m.1) matches in
  match channel_id stored with
  | None => (matches, c)
  | Some ch =>
      let '(visibility, c) :=
        match threaded with
        | Some t =>
            if decide (tv_community_id t = community ∧ tv_channel_id t = ch) then (Ok (tv_visibility t), c)
            else channel_visibility_cached community ch None c
        | None => channel_visibility_cached community ch None c
        end in
      match visibility with
      | Ok v => if decide (v ≠ "private") then (matches, c) else members_only p community ch matches c
      | Err _ => ([], c)
      end
  end.

(** ** The two paths *)

(** The owner of an event of an owner-only kind, when it names one. *)
Definition private_event_owner (e : NostrEvent) : option string :=
  if bool_decide (event_kind_u32 e = KIND_DM_VISIBILITY) || bool_decide (event_kind_u32 e = KIND_AGENT_TURN_METRIC)
  then head (omap tag_content (List.filter (tag_is_letter p_tag) (ev_tags e)))
  else None.

(** The recipients of [dispatch_persistent_event_inner]. *)
Definition dispatch_recipients (p : Pod) (r : SubscriptionRegistry) (community : CommunityId) (stored : StoredEvent)
    (threaded : option ThreadedChannelVisibility) (c : Caches) : list (ConnId * SubId) * Caches :=
  let '(matches, c) := filter_fanout_by_access p community stored (fan_out_scoped r community stored) threaded c in
  (List.filter (λ m, match private_event_owner (event stored) with
                     | Some owner_hex =>
                         match pubkey_for_conn p m.1 with Some pk => bool_decide (id_to_hex pk = owner_hex) | None => false end
                     | None => true
                     end) matches, c).

(** The order of [dispatch_persistent_event_inner]: mark, publish, fan out.  [publish_ok]
    is the answer of Redis; the result is the topic published and the recipients. *)
Definition dispatch_persistent_event (publish_ok : bool) (p : Pod) (r : SubscriptionRegistry) (community : CommunityId)
    (stored : StoredEvent) (threaded : option ThreadedChannelVisibility) (c : Caches) :
    EventTopic * (list (ConnId * SubId) * Caches) :=
  let topic := match channel_id stored with Some ch => Channel ch | None => Topics.Global end in
  let mark := (community, ev_id (event stored)) in
  let c := set_local ({[mark]} ∪ local_event_ids c) c in
  let c := if publish_ok then c else set_local (local_event_ids c ∖ {[mark]}) c in
  (topic, dispatch_recipients p r community stored threaded c).

(** An event from Redis: [None] when this pod delivered it itself. *)
Definition fan_out_pubsub_event (now : Z) (p : Pod) (r : SubscriptionRegistry) (community : CommunityId)
    (topic : EventTopic) (e : NostrEvent) (c : Caches) : option (list (ConnId * SubId)) * Caches :=
  let stored := stored_event_new now e (match topic with Channel ch => Some ch | Topics.Global => None end) in
  let echo_key := (community, ev_id e) in
  if decide (echo_key ∈ local_event_ids c) then (None, set_local (local_event_ids c ∖ {[echo_key]}) c)
  else
    let '(matches, c) := filter_fanout_by_access p community stored (fan_out_scoped r community stored) None c in
    (Some matches, c).

(** The guarded send path of the handlers that store nothing. *)
Definition fan_out_event_to_local_subscribers (p : Pod) (r : SubscriptionRegistry) (community : CommunityId)
    (stored : StoredEvent) (c : Caches) : list (ConnId * SubId) * Caches :=
  filter_fanout_by_access p community stored (fan_out_scoped r community stored) None c.

(** ** Specification *)

(** What the two caches answer: an entry, else the database. *)
Definition member_answer (c : Caches) (community : CommunityId) (ch : Uuid) (pk : PublicKey) : result DbError bool :=
  match membership_cache c !! (community, ch, pk) with Some b => Ok b | None => db_is_member community ch pk end.

Definition visibility_answer (c : Caches) (community : CommunityId) (ch : Uuid) (threaded : option ThreadedChannelVisibility) :
    result DbError string :=
  match threaded with
  | Some t => if decide (tv_community_id t = community ∧ tv_channel_id t = ch) then Ok (tv_visibility t)
              else match channel_visibility_cache c !! (community, ch) with Some v => Ok v | None => get_visibility community ch end
  | None => match channel_visibility_cache c !! (community, ch) with Some v => Ok v | None => get_visibility community ch end
  end.

(** Who may receive an event live. *)
Record may_receive (p : Pod) (c : Caches) (community : CommunityId) (stored : StoredEvent)
    (threaded : option ThreadedChannelVisibility) (conn : ConnId) : Prop := {
  rc_tenant : community_for_conn p conn = Some community;
  rc_author_only : ev_kind (event stored) ∈ AUTHOR_ONLY_KINDS → pubkey_for_conn p conn = Some (ev_pubkey (event stored));
  rc_shared : ev_kind (event stored) ∈ SHARED_GATED_KINDS →
    ∃ pk, pubkey_for_conn p conn = Some pk ∧ (pk = ev_pubkey (event stored) ∨ event_is_shared (event stored) = true);
  rc_channel : ∀ ch, channel_id stored = Some ch →
    ∃ v, visibility_answer c community ch threaded = Ok v ∧
      (v = "private" → ∃ pk, pubkey_for_conn p conn = Some pk ∧ member_answer c community ch pk = Ok true)
}.

(** Only "private" is kept in the visibility cache, and what the membership cache holds
    the database has answered. *)
Definition caches_ok (c : Caches) : Prop :=
  map_Forall (λ _ v, v = "private") (channel_visibility_cache c) ∧
  map_Forall (λ k b, db_is_member k.1.1 k.1.2 k.2 = Ok b) (membership_cache c).

(** ** Lemmas *)

Lemma kinds_allow_iff p e conn :
  kinds_allow p e conn = true ↔
    (ev_kind e ∈ AUTHOR_ONLY_KINDS → pubkey_for_conn p conn = Some (ev_pubkey e)) ∧
    (ev_kind e ∈ SHARED_GATED_KINDS →
       ∃ pk, pubkey_for_conn p conn = Some pk ∧ (pk = ev_pubkey e ∨ event_is_shared e = true)).
Proof.
  unfold kinds_allow, is_unshared_gated_event, is_shared_gated_kind, event_kind_u32. rewrite andb_true_iff, <-!contains_iff.
  destruct (contains SHARED_GATED_KINDS (ev_kind e)) eqn:Hs; simpl;
    destruct (contains AUTHOR_ONLY_KINDS (ev_kind e)); rewrite ?bool_decide_eq_true;
    destruct (pubkey_for_conn p conn) as [pk|]; repeat case_decide; rewrite ?negb_involutive; naive_solver.
Qed.

Lemma is_member_cached_spec community ch pk c :
  (is_member_cached community ch pk c).1 = member_answer c community ch pk ∧
  (∀ co h k, member_answer (is_member_cached community ch pk c).2 co h k = member_answer c co h k) ∧
  (caches_ok c → caches_ok (is_member_cached community ch pk c).2).
Proof.
  unfold is_member_cached, member_answer, caches_ok. destruct (membership_cache c !! (community, ch, pk)) as [b|] eqn:Hb; [done|].
  destruct (db_is_member community ch pk) as [b|e] eqn:Hd; simpl; [|done]. split_and!; [done| |].
  - intros co h k. destruct (decide ((community, ch, pk) = (co, h, k))) as [[= <- <- <-]|Hn].
    + by rewrite lookup_insert_eq, Hb.
    + by rewrite lookup_insert_ne.
  - intros [Hv Hm]. split; [done|]. by apply map_Forall_insert_2.
Qed.

(** The loop keeps the members, whatever it caches on the way. *)
Lemma members_only_spec p community ch matches c x :
  (x ∈ (members_only p community ch matches c).1 ↔
     x ∈ matches ∧ ∃ pk, pubkey_for_conn p x.1 = Some pk ∧ member_answer c community ch pk = Ok true) ∧
  (caches_ok c → caches_ok (members_only p community ch matches c).2).
Proof.
  revert c. induction matches as [|[conn sub] ms IH]; intros c; simpl.
  { split; [|done]. split; [by intros ?%not_elem_of_nil|by intros [?%not_elem_of_nil _]]. }
  rewrite elem_of_cons. destruct (pubkey_for_conn p conn) as [pk|] eqn:Hpk.
  2: { specialize (IH c) as [IH1 IH2]. split; [|done]. rewrite IH1. split; [naive_solver|].
       intros [[->|?] Hx]; [|done]. simpl in Hx. naive_solver. }
  destruct (is_member_cached_spec community ch pk c) as (H1 & H2 & H3).
  destruct (is_member_cached community ch pk c) as [member c']. simpl in *. subst member.
  specialize (IH c') as [IH1 IH2]. setoid_rewrite H2 in IH1.
  destruct (members_only p community ch ms c') as [allowed c'']. simpl in *. split; [|by auto].
  destruct (member_answer c community ch pk) as [[|]|e] eqn:Hm; rewrite ?elem_of_cons, IH1.
  - split; [|naive_solver]. intros [->|?]; [|naive_solver]. simpl. eauto.
  - split; [naive_solver|]. intros [[->|?] (pk' & Hk & Ha)]; [|eauto]. simpl in *. congruence.
  - split; [naive_solver|]. intros [[->|?] (pk' & Hk & Ha)]; [|eauto]. simpl in *. congruence.
Qed.

Lemma visibility_cached_spec community ch c :
  (channel_visibility_cached community ch None c).1 = visibility_answer c community ch None ∧
  membership_cache (channel_visibility_cached community ch None c).2 = membership_cache c ∧
  (caches_ok c → caches_ok (channel_visibility_cached community ch None c).2).
Proof.
  unfold channel_visibility_cached, visibility_answer, caches_ok.
  destruct (channel_visibility_cache c !! (community, ch)) as [v|]; [done|].
  destruct (get_visibility community ch) as [v|e]; simpl; [|done]. case_decide; [|done].
  split_and!; [done..|]. intros [Hv Hm]. split; [|done]. by apply map_Forall_insert_2.
Qed.

Lemma filter_fanout_spec p community stored matches threaded c x :
  let r := filter_fanout_by_access p community stored matches threaded c in
  (x ∈ r.1 ↔ x ∈ matches ∧ may_receive p c community stored threaded x.1) ∧
  (caches_ok c → caches_ok r.2).
Proof.
  intros r. subst r. unfold filter_fanout_by_access.
  set (ms := List.filter _ (List.filter _ matches)).
  assert (∀ y, y ∈ ms ↔ y ∈ matches ∧ community_for_conn p y.1 = Some community ∧ kinds_allow p (event stored) y.1 = true) as Hms.
  { intros y. unfold ms. rewrite !list_elem_of_In, !filter_In, bool_decide_eq_true. tauto. }
  clearbody ms. setoid_rewrite kinds_allow_iff in Hms.
  destruct (channel_id stored) as [ch|] eqn:Hch; simpl.
  2: { split; [|done]. rewrite Hms. split; [|by intros (? & [])].
       intros (? & ? & ? & ?). split; [done|]. by split; [..|rewrite Hch]. }
  set (vr := match threaded with Some _ => _ | None => _ end).
  assert (vr.1 = visibility_answer c community ch threaded ∧ membership_cache vr.2 = membership_cache c ∧
    (caches_ok c → caches_ok vr.2)) as (Hv1 & Hv2 & Hv3).
  { unfold vr. destruct threaded as [t|]; [|apply visibility_cached_spec]. unfold visibility_answer at 1.
    case_decide; [done|]. apply visibility_cached_spec. }
  clearbody vr. destruct vr as [v c']. simpl in *. subst v.
  assert (∀ pk, member_answer c' community ch pk = member_answer c community ch pk) as Hma
    by (intros pk; unfold member_answer; by rewrite Hv2).
  destruct (visibility_answer c community ch threaded) as [v|e] eqn:Hva; simpl.
  2: { split; [|done]. split; [by intros ?%not_elem_of_nil|]. intros (_ & [_ _ _ Hc]). destruct (Hc ch Hch) as (? & ? & _). congruence. }
  case_decide as Hp.
  - split; [|done]. simpl. rewrite Hms. split; [|by intros (? & [])].
    intros (? & ? & ? & ?). split; [done|]. split; [done..|]. rewrite Hch. intros ch' [= <-]. by exists v.
  - subst v. destruct (members_only_spec p community ch ms c' x) as [Hx Hok].
    split; [|by auto]. rewrite Hx, Hms. setoid_rewrite Hma. split.
    + intros ((? & ? & ? & ?) & ?). split; [done|]. split; [done..|]. rewrite Hch. intros ch' [= <-]. eauto.
    + intros (? & [? ? ? Hc]). destruct (Hc ch Hch) as (v & Hv & Hpr).
      rewrite Hva in Hv. injection Hv as <-. by auto.
Qed.

(** Only the two paths below touch the marks. *)
Lemma is_member_cached_local community ch pk c :
  local_event_ids (is_member_cached community ch pk c).2 = local_event_ids c.
Proof. unfold is_member_cached. by destruct (_ !! _), (db_is_member community ch pk). Qed.

Lemma members_only_local p community ch matches c :
  local_event_ids (members_only p community ch matches c).2 = local_event_ids c.
Proof.
  revert c. induction matches as [|[conn sub] ms IH]; intros c; simpl; [done|].
  destruct (pubkey_for_conn p conn) as [pk|]; [|done].
  pose proof (is_member_cached_local community ch pk c) as H1. destruct (is_member_cached _ _ _ c) as [m c'].
  specialize (IH c'). destruct (members_only _ _ _ _ c') as [ms' c'']. simpl in *. congruence.
Qed.

Lemma visibility_cached_local community ch row c :
  local_event_ids (channel_visibility_cached community ch row c).2 = local_event_ids c.
Proof.
  unfold channel_visibility_cached. destruct (_ !! _); [done|].
  destruct row as [v|]; [|destruct (get_visibility community ch) as [v|]]; simpl; try case_decide; done.
Qed.

Lemma filter_fanout_local p community stored matches threaded c :
  local_event_ids (filter_fanout_by_access p community stored matches threaded c).2 = local_event_ids c.
Proof.
  unfold filter_fanout_by_access. destruct (channel_id stored) as [ch|]; [|done].
  set (vr := match threaded with Some _ => _ | None => _ end).
  assert (local_event_ids vr.2 = local_event_ids c) as Hvr.
  { unfold vr. destruct threaded; [case_decide; [done|]|]; apply visibility_cached_local. }
  clearbody vr. destruct vr as [[v|e] c']; simpl in *; [|done].
  case_decide; [done|]. by rewrite members_only_local.
Qed.

Lemma may_receive_local p m c community stored threaded conn :
  may_receive p (set_local m c) community stored threaded conn ↔ may_receive p c community stored threaded conn.
Proof. by split; intros []; split. Qed.

(** ** Properties *)

Context {laws : NostrLaws _}.

Lemma local_recipients ops publish_ok p community stored threaded c x :
  let r := dispatch_persistent_event publish_ok p (reg_run ops) community stored threaded c in
  x ∈ r.2.1 ↔
    x ∈ spec_fan_out (foldl spec_exec ∅ ops) community stored ∧
    may_receive p c community stored threaded x.1 ∧
    (∀ owner_hex, private_event_owner (event stored) = Some owner_hex →
       ∃ pk, pubkey_for_conn p x.1 = Some pk ∧ id_to_hex pk = owner_hex).
Proof using laws.
  intros r. unfold r, dispatch_persistent_event, dispatch_recipients. clear r. cbn [snd].
  set (c1 := if publish_ok then _ else _).
  assert (∃ m, c1 = set_local m c) as [m Hc1] by (unfold c1; destruct publish_ok; eexists; reflexivity).
  rewrite Hc1. clear c1 Hc1.
  pose proof (filter_fanout_spec p community stored (fan_out_scoped (reg_run ops) community stored) threaded (set_local m c) x) as [Hx _].
  destruct (filter_fanout_by_access _ _ _ _ _ _) as [ms c']. simpl in *.
  rewrite list_elem_of_In, filter_In, <-list_elem_of_In, Hx, may_receive_local, fan_out_exact, reg_run_refines by apply reg_run_ok.
  destruct (private_event_owner (event stored)) as [o|]; [|naive_solver].
  destruct (pubkey_for_conn p x.1) as [pk|]; [rewrite bool_decide_eq_true|]; naive_solver.
Qed.

(** C5: an event that this pod stores reaches exactly the live subscriptions that select it
    on the connections that may receive it: bound to the event's community, holding the
    author's key for an author-only kind, entitled to an unshared persona, a member of a
    private channel as the cache or the database answers, and, when an owner-only event
    names its owner, the owner.  A visibility that cannot be read delivers to nobody. *)
Theorem live_delivery_exact ops publish_ok p community stored threaded c x :
  let r := dispatch_persistent_event publish_ok p (reg_run ops) community stored threaded c in
  x ∈ r.2.1 ↔
    x ∈ spec_fan_out (foldl spec_exec ∅ ops) community stored ∧
    may_receive p c community stored threaded x.1 ∧
    (∀ owner_hex, private_event_owner (event stored) = Some owner_hex →
       ∃ pk, pubkey_for_conn p x.1 = Some pk ∧ id_to_hex pk = owner_hex).
Proof using laws. apply local_recipients. Qed.

(** C28: an event that another pod publishes, unless this pod published it itself, is
    delivered to exactly the live subscriptions that select it on the connections that pass
    the gates of [may_receive]: the community, the kind and sharing rules, and the
    membership of a private channel.  The fence that local delivery adds, which shows an
    event of an owner-only kind that names its owner to the owner alone, is not among them:
    of the same recipients the storing pod delivers such an event to the owner's, this pod to
    all.  What the caches hold stays true. *)
Theorem pubsub_delivery_exact ops now p community topic e c x :
  let stored := stored_event_new now e (match topic with Channel ch => Some ch | Topics.Global => None end) in
  let r := fan_out_pubsub_event now p (reg_run ops) community topic e c in
  (x ∈ default [] r.1 ↔
     (community, ev_id e) ∉ local_event_ids c ∧
     x ∈ spec_fan_out (foldl spec_exec ∅ ops) community stored ∧ may_receive p c community stored None x.1) ∧
  ((community, ev_id e) ∉ local_event_ids c → ∀ publish_ok,
     x ∈ (dispatch_persistent_event publish_ok p (reg_run ops) community stored None c).2.1 ↔
     x ∈ default [] r.1 ∧
     ∀ owner_hex, private_event_owner e = Some owner_hex → ∃ pk, pubkey_for_conn p x.1 = Some pk ∧ id_to_hex pk = owner_hex) ∧
  (caches_ok c → caches_ok r.2).
Proof using laws.
  intros stored r. assert (x ∈ default [] r.1 ↔
     (community, ev_id e) ∉ local_event_ids c ∧
     x ∈ spec_fan_out (foldl spec_exec ∅ ops) community stored ∧ may_receive p c community stored None x.1) as Hx.
  { unfold r, fan_out_pubsub_event. fold stored. clear r. case_decide as Hd; simpl; [split; [by intros ?%not_elem_of_nil|naive_solver]|].
    pose proof (filter_fanout_spec p community stored (fan_out_scoped (reg_run ops) community stored) None c x) as [Hx _].
    destruct (filter_fanout_by_access _ _ _ _ _ _) as [ms c']. simpl in *.
    rewrite Hx, fan_out_exact, reg_run_refines by apply reg_run_ok. naive_solver. }
  split; [exact Hx|]. split.
  - intros Hnew publish_ok. rewrite local_recipients, Hx. change (event stored) with e. tauto.
  - unfold r, fan_out_pubsub_event. fold stored. clear r Hx. case_decide as Hd; simpl; [done|].
    pose proof (filter_fanout_spec p community stored (fan_out_scoped (reg_run ops) community stored) None c x) as [_ Hok].
    by destruct (filter_fanout_by_access _ _ _ _ _ _) as [ms c'].
Qed.

(** an event this pod stored and published is delivered here once: its echo from Redis
    finds the mark, reaches nobody and uses the mark up; a failed publication leaves no
    mark, and the marks of other events and communities are kept. *)
Theorem echo_suppressed_once publish_ok now p r community topic stored threaded c :
  let mark := (community, ev_id (event stored)) in
  let c1 := (dispatch_persistent_event publish_ok p r community stored threaded c).2.2 in
  let echo := fan_out_pubsub_event now p r community topic (event stored) c1 in
  (publish_ok = true → echo.1 = None ∧ mark ∉ local_event_ids echo.2) ∧
  (publish_ok = false → is_Some echo.1) ∧
  ∀ other, other ≠ mark → other ∈ local_event_ids echo.2 ↔ other ∈ local_event_ids c.
Proof.
  intros mark c1 echo.
  assert (local_event_ids c1 = if publish_ok then {[mark]} ∪ local_event_ids c else local_event_ids c ∖ {[mark]}) as Hc1.
  { unfold c1, dispatch_persistent_event, dispatch_recipients. cbn [snd].
    set (c0 := if publish_ok then _ else _). pose proof (filter_fanout_local p community stored (fan_out_scoped r community stored) threaded c0) as Hl.
    destruct (filter_fanout_by_access _ _ _ _ _ c0) as [ms c2]. simpl in *. rewrite Hl. unfold c0, mark.
    destruct publish_ok; simpl; [done|]. set_solver. }
  clearbody c1. unfold echo, fan_out_pubsub_event. clear echo. fold mark. case_decide as Hd.
  - destruct publish_ok; [|set_solver]. split_and!; [|done|]; simpl; set_solver.
  - destruct publish_ok; [set_solver|]. set (st := stored_event_new _ _ _).
    pose proof (filter_fanout_local p community st (fan_out_scoped r community st) None c1) as Hl.
    destruct (filter_fanout_by_access _ _ _ _ _ c1) as [ms c2]. simpl in *. rewrite Hl, Hc1. split_and!; [done|eauto|set_solver].
Qed.

End fanout.

(** ** Witnesses *)

Module FanoutDemo.

(** Community 1: connection 5 of the author 9, connection 6 of a stranger, both
    subscribed to everything; channel 7 is private and has the member 9. *)
Definition everything : NostrFilter := mkFilter None None None None None [].
Definition demo_ops : list reg_op :=
  [OpRegister 1 5 "a" [everything] None; OpRegister 1 6 "b" [everything] None;
   OpRegister 1 5 "c" [everything] (Some 7%N); OpRegister 1 6 "d" [everything] (Some 7%N)].
Definition pod : Pod :=
  mkPod ∅ {[5%N := mkConnEntry 1 (Some 9%N) 3; 6%N := mkConnEntry 1 (Some 4%N) 3]} false ∅.
Definition no_caches : Caches := mkCaches ∅ ∅ ∅.
Definition private_7 (community : CommunityId) (ch : Uuid) : result DbError string := Ok "private".
Definition member_9 (community : CommunityId) (ch : Uuid) (pk : PublicKey) : result DbError bool := Ok (bool_decide (pk = 9%N)).
Definition posted : StoredEvent := stored_event_new 0 (mkEvent 1 9 100 9 [] "hi") (Some 7%N).
Definition dispatch (ok : bool) (s : StoredEvent) :=
  dispatch_persistent_event private_7 member_9 ok pod (reg_run demo_ops) 1 s None no_caches.
Definition from_redis (topic : EventTopic) (s : StoredEvent) (c : Caches) :=
  fan_out_pubsub_event private_7 member_9 0 pod (reg_run demo_ops) 1 topic (event s) c.

(** Only the member is sent the message; what was read stays cached. *)
Lemma posted_to_member :
  (dispatch true posted).2.1 = [(5%N, "c")] ∧ (from_redis (Channel 7%N) posted no_caches).1 = Some [(5%N, "c")] ∧
  channel_visibility_cache (dispatch true posted).2.2 !! (1%N, 7%N) = Some "private".
Proof. by vm_compute. Qed.

Lemma live_delivery_exact_witness :
  (5%N, "c") ∈ spec_fan_out (foldl spec_exec ∅ demo_ops) 1 posted ∧
  may_receive private_7 member_9 pod no_caches 1 posted None 5.
Proof.
  destruct (proj1 (live_delivery_exact private_7 member_9 demo_ops true pod 1 posted None no_caches (5%N, "c"))) as (H1 & H2 & _).
  { fold (dispatch true posted). rewrite (proj1 posted_to_member). left. }
  by split.
Defined.

Lemma pubsub_delivery_exact_witness : caches_ok member_9 (from_redis (Channel 7%N) posted no_caches).2.
Proof.
  pose proof (pubsub_delivery_exact private_7 member_9 demo_ops 0 pod 1 (Channel 7%N) (event posted) no_caches (5%N, "c")) as (_ & _ & Hok).
  apply Hok. split; apply map_Forall_empty.
Defined.

Lemma echo_suppressed_once_witness :
  (from_redis (Channel 7%N) posted (dispatch true posted).2.2).1 = None ∧
  is_Some (from_redis (Channel 7%N) posted (dispatch false posted).2.2).1.
Proof.
  pose proof (echo_suppressed_once private_7 member_9 true 0 pod (reg_run demo_ops) 1 (Channel 7%N) posted None no_caches) as (H1 & _).
  pose proof (echo_suppressed_once private_7 member_9 false 0 pod (reg_run demo_ops) 1 (Channel 7%N) posted None no_caches) as (_ & H2 & _).
  split; [apply (H1 eq_refl)|apply (H2 eq_refl)].
Defined.

(** A metric of agent 9 for the owner 5 ("101"): nobody here is the owner, so the pod that
    stores it delivers it to nobody, and any other pod to both connections.  Without a p
    tag the storing pod delivers it too. *)
Definition metric (tags : list (list string)) : StoredEvent :=
  stored_event_new 0 (mkEvent 2 9 100 KIND_AGENT_TURN_METRIC tags "") None.

Lemma owner_gate_differs :
  (dispatch true (metric [["p"; "101"]])).2.1 = [] ∧
  (from_redis Topics.Global (metric [["p"; "101"]]) no_caches).1 = Some [(5%N, "a"); (6%N, "b")] ∧
  (dispatch true (metric [])).2.1 = [(5%N, "a"); (6%N, "b")] ∧
  event_visible_to_reader (event (metric [["p"; "101"]])) 4 = false.
Proof. by vm_compute. Qed.

(** A quote in a subscription id ends the string in the frame. *)
Lemma frame_not_escaped :
  event_frame_for_sub ("s" +:+ dquote +:+ ",1") "{}" =
  "[" +:+ dquote +:+ "EVENT" +:+ dquote +:+ "," +:+ dquote +:+ "s" +:+ dquote +:+ ",1" +:+ dquote +:+ ",{}]".
Proof. reflexivity. Qed.

End FanoutDemo.
