(* ===== verification/KubeObjects.v ===== *)
(** * Kubernetes objects of an agent ([buzz-backend-kubernetes/src])

    The pure half of the Kubernetes provider: names and labels ([naming.rs]), image
    references ([image.rs]), the pod and Secret of one attempt ([pod.rs]), the
    create-intent template ([intent.rs]), the decoding of what the cluster reports
    ([observe.rs]), the table of the deploy state machine ([classify.rs]) and the plan
    of a garbage collection ([gc.rs]).  The records are the fields of the API objects
    that this code reads or writes. *)

From stdpp Require Import base gmap strings list.
From Stdlib Require Import Ascii.
From S2P Require Import Prelude Text Nostr.

(** ** API objects *)

(** Times are nanoseconds. *)
Record ObjectMeta := mkMeta {
  m_name : option string;
  m_namespace : option string;
  m_uid : option string;
  m_resource_version : option string;
  m_labels : option (gmap string string);
  m_annotations : option (gmap string string);
  m_deletion_timestamp : option Z;
  m_creation_timestamp : option Z
}.

Record Waiting := mkWaiting { w_reason : option string; w_message : option string }.
Record ExitState := mkExitState { x_exit_code : Z; x_reason : option string }.
Record ContainerState := mkContainerState {
  st_running : option unit;
  st_terminated : option ExitState;
  st_waiting : option Waiting
}.
Record ContainerStatus := mkContainerStatus { cs_name : string; cs_state : option ContainerState }.
Record PodCondition := mkPodCondition {
  pc_type : string;
  pc_status : string;
  pc_reason : option string;
  pc_message : option string
}.
Record PodStatus := mkPodStatus {
  ps_phase : option string;
  ps_container_statuses : option (list ContainerStatus);
  ps_conditions : option (list PodCondition)
}.

Record SecretEnvSource := mkSecretEnvSource { se_name : string; se_optional : option bool }.
Record Container := mkContainer {
  c_name : string;
  c_image : option string;
  c_env_from : option (list (option SecretEnvSource));
  c_requests : gmap string string;
  c_limits : gmap string string;
  c_volume_mounts : list (string * string);
  c_allow_privilege_escalation : option bool;
  c_capabilities_drop : list string
}.
Record PodSpec := mkPodSpec {
  sp_containers : list Container;
  sp_restart_policy : option string;
  sp_termination_grace_period_seconds : option Z;
  sp_automount_service_account_token : option bool;
  sp_service_account_name : option string;
  sp_run_as_non_root : option bool;
  sp_run_as_user : option Z;
  sp_run_as_group : option Z;
  sp_fs_group : option Z;
  sp_seccomp_profile : option string;
  sp_empty_dir_volumes : list string
}.
Record Pod := mkPod { p_metadata : ObjectMeta; p_spec : option PodSpec; p_status : option PodStatus }.
Record Secret := mkSecret {
  s_metadata : ObjectMeta;
  s_string_data : option (gmap string string);
  s_immutable : option bool
}.

(** ** Names *)

Definition MANAGED_BY : string := "buzz-backend-kubernetes".
Definition LABEL_MANAGED_BY : string := "app.kubernetes.io/managed-by".
Definition LABEL_BINDING_VERSION : string := "buzz.block.xyz/binding-version".
Definition BINDING_VERSION : string := "1".
Definition LABEL_AGENT_PUBKEY : string := "buzz.block.xyz/agent-pubkey".
Definition ANNOTATION_PUBKEY_FULL : string := "buzz.block.xyz/agent-pubkey-full".
Definition ANNOTATION_CREATE_INTENT : string := "buzz.block.xyz/create-intent".
Definition ANNOTATION_IMAGE : string := "buzz.block.xyz/image".

Record AgentIdentity := mkAgentIdentity { pubkey_hex : string }.

(** The key of a bech32 [nsec], or nothing. *)
Class NsecApi := nsec_pubkey : string → option PublicKey.

Definition from_nsec `{NostrApi, NsecApi} (nsec : string) : option AgentIdentity :=
  (λ pk, mkAgentIdentity (id_to_hex pk)) <$> nsec_pubkey (trim nsec).

Definition label_pubkey (i : AgentIdentity) : string := String.substring 0 32 (pubkey_hex i).
Definition pod_name (i : AgentIdentity) : string := "buzz-agent-" +:+ String.substring 0 12 (pubkey_hex i).
Definition secret_name (i : AgentIdentity) (generation : string) : string :=
  "buzz-agent-" +:+ String.substring 0 12 (pubkey_hex i) +:+ "-" +:+ generation.
Definition selector (i : AgentIdentity) : string :=
  LABEL_AGENT_PUBKEY +:+ "=" +:+ label_pubkey i +:+ "," +:+ LABEL_MANAGED_BY +:+ "=" +:+ MANAGED_BY.
Definition labels (i : AgentIdentity) : gmap string string :=
  <[LABEL_BINDING_VERSION := BINDING_VERSION]>
    (<[LABEL_MANAGED_BY := MANAGED_BY]> {[LABEL_AGENT_PUBKEY := label_pubkey i]}).

(** [format!("{n:08x}")] of a random [u32]. *)
Fixpoint hex_be (k : nat) (n : N) (acc : string) : string :=
  match k with 0 => acc | S k => hex_be k (n / 16) (String (nibble (n `mod` 16)) acc) end.
Definition new_generation (n : N) : string := hex_be 8 n "".

(** ** Image references *)

Inductive ImageError :=
| ImageRequired
| NotDigestPinned (reference : string)
| SeveralAt (reference : string)
| NotSha256 (digest : string)
| BadDigest (digest : string)
| NoRepository (reference : string).

(** [rfind(c)]: what is before and after the last occurrence. *)
Fixpoint rsplit_once (c : ascii) (s : string) : option (string * string) :=
  match s with
  | EmptyString => None
  | String a s' =>
      match rsplit_once c s' with
      | Some (p, q) => Some (String a p, q)
      | None => if decide (a = c) then Some ("", s') else None
      end
  end.

Definition is_lower_hex (c : ascii) : bool :=
  is_ascii_digit c || ((97 <=? ascii_code c) && (ascii_code c <=? 102))%N.

Definition strip_tag (name_and_tag : string) : string :=
  match rsplit_once ":" name_and_tag with
  | Some (name, tag) => if str_contains "/" tag then name_and_tag else name
  | None => name_and_tag
  end.

Definition image_parse (raw : string) : result ImageError string :=
  let reference := trim raw in
  if decide (reference = "") then Err ImageRequired
  else
    match split_on "@" reference with
    | [] | [_] => Err (NotDigestPinned reference)
    | [name_and_tag; digest] =>
        match strip_prefix "sha256:" digest with
        | None => Err (NotSha256 digest)
        | Some hex =>
            if negb (bool_decide (String.length hex = 64)) || negb (str_all is_lower_hex hex) then Err (BadDigest digest)
            else
              let name := strip_tag name_and_tag in
              if decide (name = "") then Err (NoRepository reference)
              else Ok (name +:+ "@sha256:" +:+ hex)
        end
    | _ :: _ :: _ :: _ => Err (SeveralAt reference)
    end.

(** ** Configuration *)

Record Resources := mkResources {
  cpu_request : string;
  memory_request : string;
  cpu_limit : string;
  memory_limit : string
}.
Definition default_resources : Resources := mkResources "1" "2Gi" "2" "4Gi".

Definition DEFAULT_INACTIVITY_SECONDS : N := 7200.
Definition RUN_AS_UID : Z := 10001.
Definition RUN_AS_GID : Z := 10001.
Definition WORKSPACE_PATH : string := "/home/agent".
Definition TERMINATION_GRACE_SECONDS : Z := 60.
Definition RESTART_POLICY : string := "Never".

Record ProviderConfig := mkProviderConfig {
  cfg_context : option string;
  cfg_namespace : string;
  cfg_image : string;
  cfg_resources : Resources;
  cfg_inactivity_seconds : option N;
  cfg_service_account : option string
}.

(** ** The create intent *)

Definition SECRET_PLACEHOLDER : string := "<per-attempt-secret>".
Definition TEMPLATE_VERSION : N := 1.

Record IntentTemplate := mkIntentTemplate {
  it_template_version : N;
  it_namespace : string;
  it_image : string;
  it_resources : Resources;
  it_service_account : option string;
  it_restart_policy : string;
  it_termination_grace_period_seconds : Z;
  it_env_keys : list string;
  it_env_from_secret : string;
  it_workspace_mount_path : string;
  it_run_as_user : Z;
  it_run_as_group : Z
}.

(** SHA-256 in hex of the JSON of a template. *)
Class TemplateDigest := fingerprint : IntentTemplate → string.

Definition intent_template (cfg : ProviderConfig) (env_keys : list string) : IntentTemplate :=
  mkIntentTemplate TEMPLATE_VERSION (cfg_namespace cfg) (cfg_image cfg) (cfg_resources cfg) (cfg_service_account cfg)
    RESTART_POLICY TERMINATION_GRACE_SECONDS (sort_by str_leb env_keys) SECRET_PLACEHOLDER WORKSPACE_PATH
    RUN_AS_UID RUN_AS_GID.

(** ** The objects of one attempt *)

Definition CONTAINER_NAME : string := "agent".
Definition WORKSPACE_VOLUME : string := "workspace".

Definition build_secret (i : AgentIdentity) (namespace generation : string) (env : gmap string string) : Secret :=
  mkSecret (mkMeta (Some (secret_name i generation)) (Some namespace) None None (Some (labels i))
              (Some {[ANNOTATION_PUBKEY_FULL := pubkey_hex i]}) None None)
    (Some env) (Some true).

Definition build_pod (i : AgentIdentity) (cfg : ProviderConfig) (generation fp : string) : Pod :=
  let annotations := <[ANNOTATION_IMAGE := cfg_image cfg]>
    (<[ANNOTATION_CREATE_INTENT := fp]> {[ANNOTATION_PUBKEY_FULL := pubkey_hex i]}) in
  let res := cfg_resources cfg in
  let container := mkContainer CONTAINER_NAME (Some (cfg_image cfg))
    (Some [Some (mkSecretEnvSource (secret_name i generation) (Some false))])
    (<["memory" := memory_request res]> {["cpu" := cpu_request res]})
    (<["memory" := memory_limit res]> {["cpu" := cpu_limit res]})
    [(WORKSPACE_VOLUME, WORKSPACE_PATH)] (Some false) ["ALL"] in
  mkPod (mkMeta (Some (pod_name i)) (Some (cfg_namespace cfg)) None None (Some (labels i)) (Some annotations) None None)
    (Some (mkPodSpec [container] (Some RESTART_POLICY) (Some TERMINATION_GRACE_SECONDS) (Some false)
             (cfg_service_account cfg) (Some true) (Some RUN_AS_UID) (Some RUN_AS_GID) (Some RUN_AS_GID)
             (Some "RuntimeDefault") [WORKSPACE_VOLUME]))
    None.

(** ** The deploy table *)

Record Fence := mkFence { f_uid : string; f_resource_version : string }.

Inductive PullFailure := Unauthorized | ManifestUnknown | ArchMismatch.

Inductive Startup :=
| Started
| Terminated
| NeverStartedRecoverable
| NeverStartedProvablyBroken
| NeverStartedPullFailing (failure : PullFailure).

Record VerifiedPod := mkVerifiedPod {
  vp_name : string;
  vp_fence : Fence;
  vp_deletion_marked : bool;
  vp_startup : Startup;
  vp_recorded_intent : option string
}.

Inductive Action :=
| Create
| Delete (name : string) (fence : Fence)
| AwaitDisappearance (name : string)
| NoOp (agent_id : string)
| Observe (name : string)
| Report (name : string) (failure : PullFailure).

Definition classify (observed : option VerifiedPod) (desired : string) : Action :=
  match observed with
  | None => Create
  | Some pod =>
      if vp_deletion_marked pod then AwaitDisappearance (vp_name pod)
      else
        match vp_startup pod with
        | Started => NoOp (vp_name pod)
        | Terminated => Delete (vp_name pod) (vp_fence pod)
        | NeverStartedProvablyBroken => Delete (vp_name pod) (vp_fence pod)
        | NeverStartedPullFailing failure => Report (vp_name pod) failure
        | NeverStartedRecoverable =>
            if decide (vp_recorded_intent pod = Some desired) then Observe (vp_name pod)
            else Delete (vp_name pod) (vp_fence pod)
        end
  end.

(** ** Observation *)

Inductive StartupObservation :=
| Resolved (s : Startup)
| ConfigErrorPendingSecretCheck (secret_name : string).

Definition has_marker (labels : option (gmap string string)) : bool :=
  match labels with
  | None => false
  | Some l => bool_decide (l !! LABEL_MANAGED_BY = Some MANAGED_BY) &&
              bool_decide (l !! LABEL_BINDING_VERSION = Some BINDING_VERSION)
  end.

Definition annotation_matches (annotations : option (gmap string string)) (i : AgentIdentity) : bool :=
  match annotations with
  | None => false
  | Some a => bool_decide (a !! ANNOTATION_PUBKEY_FULL = Some (pubkey_hex i))
  end.

Definition secret_is_ours (s : Secret) (i : AgentIdentity) : bool :=
  has_marker (m_labels (s_metadata s)) && annotation_matches (m_annotations (s_metadata s)) i.

Definition referenced_secret (pod : Pod) : option string :=
  spec ← p_spec pod;
  head (omap (fmap se_name) (sp_containers spec ≫= λ c, default [] (c_env_from c))).

Definition mentions (m : string) (words : list string) : bool := existsb (λ w, contains_str w m) words.

Definition classify_pull_failure (message : string) : option PullFailure :=
  let m := to_ascii_lowercase message in
  if mentions m ["401"; "unauthorized"; "403"; "denied"; "authentication required"] then Some Unauthorized
  else if mentions m ["manifest unknown"; "not found"; "manifest_unknown"; "repository does not exist"]
  then Some ManifestUnknown
  else if mentions m ["no match for platform"; "no matching manifest"] then Some ArchMismatch
  else None.

(** The state of our container, when the status reports it. *)
Definition agent_state (status : PodStatus) : option ContainerState :=
  cs ← ps_container_statuses status;
  c ← head (List.filter (λ c, bool_decide (cs_name c = CONTAINER_NAME)) cs);
  cs_state c.

Definition decode_waiting (pod : Pod) (w : Waiting) : StartupObservation :=
  let reason := default "" (w_reason w) in
  if decide (reason = "InvalidImageName") then Resolved NeverStartedProvablyBroken
  else if decide (reason = "ErrImagePull" ∨ reason = "ImagePullBackOff") then
    match classify_pull_failure (default "" (w_message w)) with
    | Some failure => Resolved (NeverStartedPullFailing failure)
    | None => Resolved NeverStartedRecoverable
    end
  else if decide (reason = "CreateContainerConfigError") then
    match referenced_secret pod with
    | Some secret => ConfigErrorPendingSecretCheck secret
    | None => Resolved NeverStartedRecoverable
    end
  else Resolved NeverStartedRecoverable.

Definition decode_phase (phase : option string) : StartupObservation :=
  if decide (phase = Some "Succeeded" ∨ phase = Some "Failed") then Resolved Terminated
  else Resolved NeverStartedRecoverable.

Definition decode_startup (pod : Pod) : StartupObservation :=
  let phase := p_status pod ≫= ps_phase in
  match p_status pod ≫= agent_state with
  | Some (mkContainerState (Some _) _ _) => Resolved Started
  | Some (mkContainerState None (Some _) _) => Resolved Terminated
  | Some (mkContainerState None None (Some w)) => decode_waiting pod w
  | Some (mkContainerState None None None) | None => decode_phase phase
  end.

(** What [condition] tells of a pod that has not started; waiting messages and the
    output of the process are not part of it. *)
Inductive Condition :=
| WaitingFor (reason : string)
| Exited (code : Z) (reason : option string)
| ConditionFalse (type_ : string) (detail : list string)
| InPhase (phase : string).

Definition condition (pod : Pod) : option Condition :=
  status ← p_status pod;
  let by_state :=
    match agent_state status with
    | Some st =>
        match st_waiting st ≫= w_reason, st_terminated st with
        | Some reason, _ => Some (WaitingFor reason)
        | None, Some x => Some (Exited (x_exit_code x) (x_reason x))
        | None, None => None
        end
    | None => None
    end in
  match by_state with
  | Some c => Some c
  | None =>
      match head (List.filter (λ c, bool_decide (pc_status c = "False")) (default [] (ps_conditions status))) with
      | Some c =>
          Some (ConditionFalse (pc_type c)
                  (List.filter (λ s, bool_decide (s ≠ "")) [default "" (pc_reason c); default "" (pc_message c)]))
      | None => InPhase <$> ps_phase status
      end
  end.

Definition verify (pod : Pod) (i : AgentIdentity) (startup : Startup) : option VerifiedPod :=
  let m := p_metadata pod in
  if negb (has_marker (m_labels m)) then None
  else if negb (annotation_matches (m_annotations m) i) then None
  else
    name ← m_name m;
    uid ← m_uid m;
    rv ← m_resource_version m;
    Some (mkVerifiedPod name (mkFence uid rv) (bool_decide (is_Some (m_deletion_timestamp m))) startup
            (a ← m_annotations m; a !! ANNOTATION_CREATE_INTENT)).

(** ** Garbage collection *)

Definition OPERATION_DEADLINE_SECS : Z := 600.
Definition ORPHAN_SECRET_MIN_AGE_SECS : Z := 2 * OPERATION_DEADLINE_SECS.

Record GcPlan := mkGcPlan { gp_pods : list string; gp_secrets : list string }.

(** [(now - created.0).num_seconds()]. *)
Definition age_seconds (now created : Z) : Z := Z.quot (now - created) 1000000000.

(** One Secret of the orphan sweep: the name to push, if any. *)
Definition sweep_secret (i : AgentIdentity) (protected planned : list string) (now : Z) (s : Secret) : option string :=
  if negb (secret_is_ours s i) then None
  else
    name ← m_name (s_metadata s);
    if decide (name ∈ protected ∨ name ∈ planned) then None
    else
      created ← m_creation_timestamp (s_metadata s);
      if (ORPHAN_SECRET_MIN_AGE_SECS <=? age_seconds now created)%Z then Some name else None.

Fixpoint sweep (i : AgentIdentity) (protected planned : list string) (now : Z) (secrets : list Secret) : list string :=
  match secrets with
  | [] => planned
  | s :: secrets =>
      sweep i protected
        (match sweep_secret i protected planned now s with Some name => planned ++ [name] | None => planned end)
        now secrets
  end.

Definition gc_plan (i : AgentIdentity) (pods : list Pod) (secrets : list Secret) (terminated : Pod → bool)
    (now : option Z) : GcPlan :=
  let ours := List.filter (λ p, bool_decide (is_Some (verify p i Started))) pods in
  let doomed_pods := List.filter terminated ours in
  let doomed_names := omap (λ p, m_name (p_metadata p)) doomed_pods in
  let protected := omap referenced_secret
    (List.filter (λ p, negb (bool_decide (default "" (m_name (p_metadata p)) ∈ doomed_names))) ours) in
  let planned := omap referenced_secret doomed_pods in
  mkGcPlan doomed_names
    (match now with Some now => sweep i protected planned now secrets | None => planned end).

(** ** Specification *)

Definition container_running (pod : Pod) : bool :=
  match p_status pod ≫= agent_state with Some st => bool_decide (is_Some (st_running st)) | None => false end.

(** Carries the marker and the full key of the agent. *)
Definition ours (i : AgentIdentity) (m : ObjectMeta) : Prop :=
  has_marker (m_labels m) = true ∧ annotation_matches (m_annotations m) i = true.

(** A Secret that is nobody's: older than two deadlines by the server's clock and not
    referenced by a pod that stays. *)
Definition orphan (i : AgentIdentity) (protected : list string) (now : Z) (s : Secret) (name : string) : Prop :=
  ours i (s_metadata s) ∧ m_name (s_metadata s) = Some name ∧ name ∉ protected ∧
  ∃ created, m_creation_timestamp (s_metadata s) = Some created ∧ (created + 1200 * 1000000000 ≤ now)%Z.

(** What the API server adds to a created object. *)
Definition admitted (uid rv : string) (created : Z) (m : ObjectMeta) : ObjectMeta :=
  mkMeta (m_name m) (m_namespace m) (Some uid) (Some rv) (m_labels m) (m_annotations m) (m_deletion_timestamp m) (Some created).

(** ** Lemmas *)

Lemma decode_started pod : decode_startup pod = Resolved Started ↔ container_running pod = true.
Proof.
  unfold decode_startup, container_running, decode_phase, decode_waiting.
  destruct (p_status pod ≫= agent_state) as [[[u|] [x|] [w|]]|]; simpl; rewrite ?bool_decide_eq_true, ?is_Some_alt;
    repeat case_decide; repeat case_match; simplify_eq; naive_solver.
Qed.

Lemma verify_Some pod i startup v :
  verify pod i startup = Some v ↔
    ours i (p_metadata pod) ∧ m_name (p_metadata pod) = Some (vp_name v) ∧
    m_uid (p_metadata pod) = Some (f_uid (vp_fence v)) ∧
    m_resource_version (p_metadata pod) = Some (f_resource_version (vp_fence v)) ∧
    vp_deletion_marked v = bool_decide (is_Some (m_deletion_timestamp (p_metadata pod))) ∧ vp_startup v = startup ∧
    vp_recorded_intent v = (a ← m_annotations (p_metadata pod); a !! ANNOTATION_CREATE_INTENT).
Proof.
  unfold verify, ours. destruct v as [n [u r] d s ri]. simpl.
  destruct (has_marker _), (annotation_matches _ _); simpl; [|naive_solver..].
  destruct (m_name _), (m_uid _), (m_resource_version _); simpl; naive_solver.
Qed.

Lemma age_iff now created :
  (ORPHAN_SECRET_MIN_AGE_SECS <=? age_seconds now created)%Z = true ↔ (created + 1200 * 1000000000 ≤ now)%Z.
Proof.
  unfold age_seconds, ORPHAN_SECRET_MIN_AGE_SECS, OPERATION_DEADLINE_SECS. rewrite Z.leb_le.
  pose proof (Z.quot_rem' (now - created) 1000000000) as Hq.
  destruct (Z_le_gt_dec 0 (now - created)) as [Hp|Hn].
  - pose proof (Z.rem_bound_pos (now - created) 1000000000 Hp ltac:(lia)). lia.
  - pose proof (Z.quot_le_upper_bound (now - created) 1000000000 0 ltac:(lia) ltac:(lia)). lia.
Qed.

Lemma sweep_secret_Some i protected planned now s n :
  sweep_secret i protected planned now s = Some n ↔ orphan i protected now s n ∧ n ∉ planned.
Proof.
  unfold sweep_secret, orphan, ours, secret_is_ours. destruct (has_marker _), (annotation_matches _ _); simpl; [|naive_solver..].
  destruct (m_name (s_metadata s)) as [name|]; simpl; [|naive_solver].
  case_decide as Hd; [naive_solver|]. destruct (m_creation_timestamp (s_metadata s)) as [c|]; simpl; [|naive_solver].
  destruct (ORPHAN_SECRET_MIN_AGE_SECS <=? age_seconds now c)%Z eqn:Ha.
  - apply age_iff in Ha. naive_solver.
  - split; [done|]. intros ((_ & _ & _ & c' & [= <-] & Hc%age_iff) & _). congruence.
Qed.

Lemma sweep_spec i protected planned now secrets n :
  n ∈ sweep i protected planned now secrets ↔ n ∈ planned ∨ ∃ s, s ∈ secrets ∧ orphan i protected now s n.
Proof.
  revert planned. induction secrets as [|s ss IH]; intros planned; simpl.
  { split; [by left|]. intros [?|(s & []%not_elem_of_nil & _)]. done. }
  rewrite IH. setoid_rewrite elem_of_cons.
  destruct (sweep_secret i protected planned now s) as [name|] eqn:Hs.
  - apply sweep_secret_Some in Hs as [Ho Hn]. rewrite elem_of_app, list_elem_of_singleton.
    assert (orphan i protected now s n → n = name) as Hu by (unfold orphan in *; naive_solver). naive_solver.
  - split; [naive_solver|]. intros [?|(s' & [->|?] & Ho)]; [by left| |eauto].
    destruct (decide (n ∈ planned)); [by left|].
    by rewrite (proj2 (sweep_secret_Some _ _ _ _ _ _) (conj Ho n0)) in Hs.
Qed.

(** What a collection may remove: terminated pods of the agent, the Secrets those
    reference, and orphans. *)
Lemma gc_plan_spec i pods secrets terminated now :
  let plan := gc_plan i pods secrets terminated now in
  let doomed p := p ∈ pods ∧ is_Some (verify p i Started) ∧ terminated p = true in
  (∀ n, n ∈ gp_pods plan ↔ ∃ p, doomed p ∧ m_name (p_metadata p) = Some n) ∧
  (∀ n, n ∈ gp_secrets plan →
     (∃ p, doomed p ∧ referenced_secret p = Some n) ∨
     ∃ s now', now = Some now' ∧ s ∈ secrets ∧ orphan i [] now' s n ∧
       ∀ p, p ∈ pods → is_Some (verify p i Started) → referenced_secret p = Some n →
         default "" (m_name (p_metadata p)) ∈ gp_pods plan).
Proof.
  intros plan doomed.
  assert (∀ p, p ∈ List.filter terminated (List.filter (λ p, bool_decide (is_Some (verify p i Started))) pods) ↔ doomed p) as Hd.
  { intros p. rewrite !list_elem_of_In, !filter_In, bool_decide_eq_true, <-list_elem_of_In. unfold doomed. tauto. }
  split; [intros n; unfold plan, gc_plan; cbn [gp_pods]; rewrite list_elem_of_omap; setoid_rewrite Hd; naive_solver|].
  intros n. unfold plan, gc_plan. cbn [gp_secrets gp_pods].
  set (doomed_pods := List.filter terminated _) in *. set (planned := omap referenced_secret doomed_pods).
  set (names := omap _ doomed_pods).
  assert (n ∈ planned → ∃ p, doomed p ∧ referenced_secret p = Some n) as Hpl.
  { unfold planned. rewrite list_elem_of_omap. setoid_rewrite Hd. naive_solver. }
  destruct now as [now|]; [|by auto]. rewrite sweep_spec. intros [?|(s & Hs & Ho & Hn & Hp & Hc)]; [by auto|].
  right. exists s, now. split; [done|]. split; [done|]. split; [by split_and!; [..|apply not_elem_of_nil|]|].
  intros p Hin Hv Hr. destruct (decide (default "" (m_name (p_metadata p)) ∈ names)) as [?|Hnot]; [done|].
  destruct Hp. apply list_elem_of_omap. exists p. split; [|done].
  rewrite !list_elem_of_In, !filter_In, <-list_elem_of_In, bool_decide_eq_true, negb_true_iff, bool_decide_eq_false. done.
Qed.

(** The objects an attempt creates are its own: recognised as the agent's, bound to each
    other, and recorded with the intent they were created for. *)
Lemma built_pod_verifies i cfg generation fp uid rv created startup spec status :
  let pod := build_pod i cfg generation fp in
  verify (KubeObjects.mkPod (admitted uid rv created (p_metadata pod)) spec status) i startup =
    Some (mkVerifiedPod (pod_name i) (mkFence uid rv) false startup (Some fp)).
Proof.
  intros pod. apply verify_Some. unfold pod, ours, has_marker, annotation_matches, labels. simpl.
  split_and!; try done; rewrite ?andb_true_iff, ?bool_decide_eq_true; [split|..];
    repeat first [rewrite lookup_insert_eq; done | rewrite lookup_insert_ne by done]; by rewrite ?lookup_singleton_eq.
Qed.

Lemma built_secret_ours i namespace generation env :
  secret_is_ours (build_secret i namespace generation env) i = true ∧
  ∀ cfg fp, referenced_secret (build_pod i cfg generation fp) =
    m_name (s_metadata (build_secret i namespace generation env)).
Proof.
  split; [|done]. unfold secret_is_ours, has_marker, annotation_matches, labels. simpl.
  rewrite !andb_true_iff, !bool_decide_eq_true.
  split_and!; repeat first [rewrite lookup_insert_eq; done | rewrite lookup_insert_ne by done]; by rewrite ?lookup_singleton_eq.
Qed.
