(* ===== verification/KubeDeploy.v ===== *)
(** * The deploy loop ([buzz-backend-kubernetes/src/reconcile.rs])

    A deploy is a program of calls to the cluster (the trait [Substrate]), and the
    theorems hold for every answer the cluster may give: other deploys, users and the
    kubelet change the objects between any two calls.  The loops run until the deadline
    of 600 seconds; they are modelled with fuel and [deploy_terminates] shows that it
    suffices when time passes. *)

From stdpp Require Import base gmap strings list.
From S2P Require Import Prelude Programs Text Nostr KubeObjects.

(** ** The substrate *)

Inductive CreateOutcome := Created | AlreadyExists.
Inductive DeleteOutcome := Accepted | NotFound | PreconditionFailed.

Inductive kcall :=
| EnsureNamespace (namespace : string)
| ListPods (selector : string)
| ListSecrets (selector : string)
| SecretExists (name : string)
| CreateSecret (s : Secret)
| CreatePod (p : Pod)
| DeletePod (name : string) (fence : Fence)
| DeleteSecret (name : string)
| GetPod (name : string)
| Sleep (duration : Z)
| Elapsed
| RandomU32.

Definition kreply (c : kcall) : Type :=
  match c with
  | EnsureNamespace _ | CreateSecret _ | DeleteSecret _ => result string unit
  | ListPods _ => result string (list Pod * option Z)
  | ListSecrets _ => result string (list Secret)
  | SecretExists _ => result string bool
  | CreatePod _ => result string CreateOutcome
  | DeletePod _ _ => result string DeleteOutcome
  | GetPod _ => result string (option Pod)
  | Sleep _ => unit
  | Elapsed => Z
  | RandomU32 => N
  end.

Abbreviation kube := (prog kcall kreply).

Definition kube_call (c : kcall) : kube (kreply c) := Act c Ret.

(** ** Errors *)

(** One constructor per message; [OutOfFuel] belongs to the model. *)
Inductive DeployError :=
| ClusterError (e : string)
| NotConfirmed (name : string) (adopted : bool) (latest : option Condition)
| DidNotStart (name : string) (failure : PullFailure) (image : string)
| DidNotStay (name : string) (latest : option Condition)
| StuckTerminating (name : string)
| NotManaged (name : string)
| WinnerBeingDeleted (name : string)
| WinnerDidNotStart (name : string) (latest : option Condition)
| OutOfFuel.

(** Nanoseconds. *)
Definition POLL_INTERVAL : Z := 2 * 1000000000.
Definition DEADLINE : Z := OPERATION_DEADLINE_SECS * 1000000000.
Definition START_NONCE_KEY : string := "BUZZ_MANAGED_AGENT_START_NONCE".

(** ** The parts of a deploy *)

Definition cluster {A} (p : kube (result string A)) : kube (result DeployError A) :=
  r ← p; Ret (map_err ClusterError r).

Definition settle (pod : Pod) : kube (result string Startup) :=
  match decode_startup pod with
  | Resolved startup => Ret (Ok startup)
  | ConfigErrorPendingSecretCheck secret =>
      let! present := kube_call (SecretExists secret) in
      Ret (Ok (if (present : bool) then NeverStartedRecoverable else NeverStartedProvablyBroken))
  end.

Section deploy.
Context `{TemplateDigest} (i : AgentIdentity) (cfg : ProviderConfig) (env : gmap string string).

Definition observe_pod : kube (result string (option VerifiedPod)) :=
  let! found := kube_call (GetPod (pod_name i)) in
  match found with
  | None => Ret (Ok None)
  | Some pod => let! startup := settle pod in Ret (Ok (verify pod i startup))
  end.

(** [None] also stands for a pod that is gone or could not be read. *)
Definition latest_condition : kube (option Condition) :=
  r ← kube_call (GetPod (pod_name i));
  Ret (match r with Ok (Some pod) => condition pod | _ => None end).

(** The names of the listed pods that are terminated. *)
Fixpoint terminated_names (pods : list Pod) : kube (result string (list string)) :=
  match pods with
  | [] => Ret (Ok [])
  | pod :: pods =>
      let! startup := settle pod in
      let! names := terminated_names pods in
      Ret (Ok (match startup, m_name (p_metadata pod) with
               | Terminated, Some name => name :: names
               | _, _ => names
               end))
  end.

Fixpoint collect_pods (names : list string) : kube (result string unit) :=
  match names with
  | [] => Ret (Ok tt)
  | name :: names =>
      let! found := kube_call (GetPod name) in
      match found with
      | None => collect_pods names
      | Some pod =>
          match m_uid (p_metadata pod), m_resource_version (p_metadata pod) with
          | Some uid, Some rv =>
              let! startup := settle pod in
              match startup with
              | Terminated => _ ← kube_call (DeletePod name (mkFence uid rv)); collect_pods names
              | _ => collect_pods names
              end
          | _, _ => collect_pods names
          end
      end
  end.

Fixpoint collect_secrets (names : list string) : kube unit :=
  match names with
  | [] => Ret tt
  | name :: names => _ ← kube_call (DeleteSecret name); collect_secrets names
  end.

Definition try_preflight_gc : kube (result string unit) :=
  let! (pods, server_now) := kube_call (ListPods (selector i)) in
  let! secrets := kube_call (ListSecrets (selector i)) in
  let! terminated := terminated_names pods in
  let plan := gc_plan i pods secrets
    (λ pod, match m_name (p_metadata pod) with Some n => bool_decide (n ∈ terminated) | None => false end) server_now in
  let! _ := collect_pods (gp_pods plan) in
  _ ← collect_secrets (gp_secrets plan);
  Ret (Ok tt).

(** Errors are logged and swallowed. *)
Definition preflight_gc : kube unit := _ ← try_preflight_gc; Ret tt.

Fixpoint await_disappearance (fuel : nat) (name : string) : kube (result DeployError unit) :=
  match fuel with
  | 0 => Ret (Err OutOfFuel)
  | S fuel =>
      t ← kube_call Elapsed;
      if (t <? DEADLINE)%Z then
        let! found := cluster (kube_call (GetPod name)) in
        match found with
        | None => Ret (Ok tt)
        | Some _ => _ ← kube_call (Sleep POLL_INTERVAL); await_disappearance fuel name
        end
      else Ret (Err (StuckTerminating name))
  end.

Definition secret_is_referenced (secret : string) : kube (result string bool) :=
  let! (pods, _) := kube_call (ListPods (selector i)) in
  Ret (Ok (bool_decide (secret ∈ omap referenced_secret pods))).

Definition drop_own_secret (secret : string) : kube unit :=
  r ← secret_is_referenced secret;
  match r with
  | Ok false => _ ← kube_call (DeleteSecret secret); Ret tt
  | _ => Ret tt
  end.

(** The wait of [adopt_winner]. *)
Fixpoint await_winner (fuel : nat) : kube (result DeployError string) :=
  match fuel with
  | 0 => Ret (Err OutOfFuel)
  | S fuel =>
      t ← kube_call Elapsed;
      if (DEADLINE <=? t)%Z then c ← latest_condition; Ret (Err (NotConfirmed (pod_name i) true c))
      else
        let! observed := cluster observe_pod in
        match observed with
        | Some pod =>
            match vp_startup pod with
            | Started => Ret (Ok (vp_name pod))
            | _ =>
                if vp_deletion_marked pod then Ret (Err (WinnerBeingDeleted (pod_name i)))
                else
                  match vp_startup pod with
                  | Terminated | NeverStartedProvablyBroken =>
                      c ← latest_condition; Ret (Err (WinnerDidNotStart (pod_name i) c))
                  | _ => _ ← kube_call (Sleep POLL_INTERVAL); await_winner fuel
                  end
            end
        | None => _ ← kube_call (Sleep POLL_INTERVAL); await_winner fuel
        end
  end.

Definition adopt_winner (fuel : nat) (own_secret : string) : kube (result DeployError string) :=
  let! found := cluster (kube_call (GetPod (pod_name i))) in
  let! managed :=
    match found with
    | None => Ret (Ok true)
    | Some pod => let! startup := cluster (settle pod) in Ret (Ok (bool_decide (is_Some (verify pod i startup))))
    end in
  _ ← drop_own_secret own_secret;
  if (managed : bool) then await_winner fuel else Ret (Err (NotManaged (pod_name i))).

Definition desired : string := fingerprint (intent_template cfg (elements (dom env))).

(** One attempt: the Secret, then the pod that references it. *)
Definition create_attempt (then_ : CreateOutcome → string → kube (result DeployError string)) :
    kube (result DeployError string) :=
  n ← kube_call RandomU32;
  let generation := new_generation n in
  let! _ := cluster (kube_call (CreateSecret
    (build_secret i (cfg_namespace cfg) generation (<[START_NONCE_KEY := generation]> env)))) in
  let! outcome := cluster (kube_call (CreatePod (build_pod i cfg generation desired))) in
  then_ outcome (secret_name i generation).

(** The row [Action::Delete]; [again] re-enters the loop. *)
Definition replace_pod (fuel : nat) (created_this_call : bool) (name : string) (fence : Fence)
    (again : kube (result DeployError string)) : kube (result DeployError string) :=
  if created_this_call then c ← latest_condition; Ret (Err (DidNotStay name c))
  else
    let! outcome := cluster (kube_call (DeletePod name fence)) in
    match outcome with
    | Accepted | NotFound => let! _ := await_disappearance fuel name in again
    | PreconditionFailed => _ ← kube_call (Sleep POLL_INTERVAL); again
    end.

Fixpoint deploy_loop (fuel : nat) (created_this_call : bool) : kube (result DeployError string) :=
  match fuel with
  | 0 => Ret (Err OutOfFuel)
  | S fuel =>
      t ← kube_call Elapsed;
      if (DEADLINE <=? t)%Z then c ← latest_condition; Ret (Err (NotConfirmed (pod_name i) false c))
      else
        let! observed := cluster observe_pod in
        match classify observed desired with
        | NoOp agent_id => Ret (Ok agent_id)
        | Observe _ => _ ← kube_call (Sleep POLL_INTERVAL); deploy_loop fuel created_this_call
        | Report name failure => Ret (Err (DidNotStart name failure (cfg_image cfg)))
        | AwaitDisappearance name =>
            let! _ := await_disappearance fuel name in deploy_loop fuel created_this_call
        | Delete name fence =>
            replace_pod fuel created_this_call name fence (deploy_loop fuel created_this_call)
        | Create =>
            create_attempt (λ outcome secret,
              match outcome with
              | Created => _ ← kube_call (Sleep POLL_INTERVAL); deploy_loop fuel true
              | AlreadyExists => adopt_winner fuel secret
              end)
        end
  end.

Definition deploy (fuel : nat) : kube (result DeployError string) :=
  let! _ := cluster (kube_call (EnsureNamespace (cfg_namespace cfg))) in
  _ ← preflight_gc;
  deploy_loop fuel false.

End deploy.

(** ** Histories *)

Inductive kevent :=
| EvNamespace (namespace : string) (r : result string unit)
| EvListPods (selector : string) (r : result string (list Pod * option Z))
| EvListSecrets (selector : string) (r : result string (list Secret))
| EvSecretExists (name : string) (r : result string bool)
| EvCreateSecret (s : Secret) (r : result string unit)
| EvCreatePod (p : Pod) (r : result string CreateOutcome)
| EvDeletePod (name : string) (fence : Fence) (r : result string DeleteOutcome)
| EvDeleteSecret (name : string) (r : result string unit)
| EvGetPod (name : string) (r : result string (option Pod))
| EvSleep (duration : Z)
| EvElapsed (t : Z)
| EvRandom (n : N).

Definition ev (c : kcall) : kreply c → kevent :=
  match c with
  | EnsureNamespace ns => EvNamespace ns
  | ListPods sel => EvListPods sel
  | ListSecrets sel => EvListSecrets sel
  | SecretExists n => EvSecretExists n
  | CreateSecret s => EvCreateSecret s
  | CreatePod p => EvCreatePod p
  | DeletePod n f => EvDeletePod n f
  | DeleteSecret n => EvDeleteSecret n
  | GetPod n => EvGetPod n
  | Sleep d => λ _, EvSleep d
  | Elapsed => EvElapsed
  | RandomU32 => EvRandom
  end.

Definition call_of (e : kevent) : kcall :=
  match e with
  | EvNamespace ns _ => EnsureNamespace ns
  | EvListPods sel _ => ListPods sel
  | EvListSecrets sel _ => ListSecrets sel
  | EvSecretExists n _ => SecretExists n
  | EvCreateSecret s _ => CreateSecret s
  | EvCreatePod p _ => CreatePod p
  | EvDeletePod n f _ => DeletePod n f
  | EvDeleteSecret n _ => DeleteSecret n
  | EvGetPod n _ => GetPod n
  | EvSleep d => Sleep d
  | EvElapsed _ => Elapsed
  | EvRandom _ => RandomU32
  end.

Lemma call_of_ev c r : call_of (ev c r) = c.
Proof. by destruct c. Qed.

Abbreviation history := (list kevent).

(** ** Specification *)

(** The cluster answers a read by name with an object of that name. *)
Definition well_named (h : history) (e : kevent) : Prop :=
  match e with EvGetPod n (Ok (Some pod)) => m_name (p_metadata pod) = Some n | _ => True end.

(** The startup state of a pod as the history settles it. *)
Inductive settled (h : history) (pod : Pod) : Startup → Prop :=
| settled_status s : decode_startup pod = Resolved s → settled h pod s
| settled_by_secret secret (present : bool) :
    decode_startup pod = ConfigErrorPendingSecretCheck secret → EvSecretExists secret (Ok present) ∈ h →
    settled h pod (if present then NeverStartedRecoverable else NeverStartedProvablyBroken).

Definition no_pod_created (h : history) : Prop := ∀ p, EvCreatePod p (Ok Created) ∉ h.

Section promise.
Context `{TemplateDigest} (i : AgentIdentity) (cfg : ProviderConfig) (env : gmap string string).

(** A listed pod of the agent with this name was terminated. *)
Definition dying (h : history) (pods : list Pod) (name : string) : Prop :=
  ∃ p, p ∈ pods ∧ m_name (p_metadata p) = Some name ∧ settled h p Terminated.

Definition listed (h : history) (pods : list Pod) (now : option Z) : Prop :=
  EvListPods (selector i) (Ok (pods, now)) ∈ h.

(** When a pod may be deleted: the fence is that of an object read before, whose agent is
    not running.  The loop deletes only what is this agent's and not already going away,
    and nothing once this call has created a pod; the collection deletes what is
    terminated and has the name of a listed pod of this agent. *)
Definition may_delete (h : history) (name : string) (fence : Fence) : Prop :=
  no_pod_created h ∧
  ∃ pod s, EvGetPod name (Ok (Some pod)) ∈ h ∧ settled h pod s ∧
    m_uid (p_metadata pod) = Some (f_uid fence) ∧ m_resource_version (p_metadata pod) = Some (f_resource_version fence) ∧
    ((ours i (p_metadata pod) ∧ m_deletion_timestamp (p_metadata pod) = None ∧
      (s = Terminated ∨ s = NeverStartedProvablyBroken ∨
       s = NeverStartedRecoverable ∧
         (a ← m_annotations (p_metadata pod); a !! ANNOTATION_CREATE_INTENT) ≠ Some (desired cfg env))) ∨
     (s = Terminated ∧ ∃ pods now p, listed h pods now ∧ p ∈ pods ∧ ours i (p_metadata p) ∧ m_name (p_metadata p) = Some name)).

(** When a Secret may be deleted: it is this attempt's and no listed pod references it,
    or it goes with a terminated pod of the agent, or it is an orphan that only
    terminated pods reference. *)
Definition gc_may_drop (h : history) (name : string) : Prop :=
  ∃ pods now, listed h pods now ∧
    ((∃ p n, p ∈ pods ∧ ours i (p_metadata p) ∧ m_name (p_metadata p) = Some n ∧ dying h pods n ∧
        referenced_secret p = Some name) ∨
     ∃ secrets s now', EvListSecrets (selector i) (Ok secrets) ∈ h ∧ s ∈ secrets ∧ now = Some now' ∧
       orphan i [] now' s name ∧
       ∀ p n, p ∈ pods → is_Some (verify p i Started) → m_name (p_metadata p) = Some n →
         referenced_secret p = Some name → dying h pods n).

Definition may_drop (h : history) (name : string) : Prop :=
  (∃ before s pods now, h = before ++ [EvListPods (selector i) (Ok (pods, now))] ∧
     EvCreateSecret s (Ok tt) ∈ before ∧ m_name (s_metadata s) = Some name ∧ name ∉ omap referenced_secret pods) ∨
  gc_may_drop h name.

(** A pod is created right after the Secret it references, both of one fresh generation. *)
Definition may_create (h : history) (pod : Pod) : Prop :=
  ∃ before n, let generation := new_generation n in
    h = before ++ [EvRandom n; EvCreateSecret (build_secret i (cfg_namespace cfg) generation
                                 (<[START_NONCE_KEY := generation]> env)) (Ok tt)] ∧
    pod = build_pod i cfg generation (desired cfg env).

Definition guarantee (h : history) (c : kcall) : Prop :=
  match c with
  | DeletePod name fence => may_delete h name fence
  | DeleteSecret name => may_drop h name
  | CreatePod pod => may_create h pod
  | _ => True
  end.

(** Success: the last thing read is the agent's own pod with its container running, and it
    is not being deleted unless another deploy created it. *)
Definition started_last (h : history) (name : string) : Prop :=
  ∃ before pod, h = before ++ [EvGetPod name (Ok (Some pod))] ∧ name = pod_name i ∧
    ours i (p_metadata pod) ∧ container_running pod = true ∧
    (m_deletion_timestamp (p_metadata pod) = None ∨ ∃ p, EvCreatePod p (Ok AlreadyExists) ∈ before).

End promise.

(** ** Lemmas *)

(** Calls that change nothing. *)
Definition reads (c : kcall) : Prop :=
  match c with CreateSecret _ | CreatePod _ | DeletePod _ _ | DeleteSecret _ => False | _ => True end.

Lemma settled_mono h h' pod s : h `prefix_of` h' → settled h pod s → settled h' pod s.
Proof. intros [es ->] [s' Hs|n b Hs Hin]; [by constructor|]. apply (settled_by_secret _ _ n); [done|]. apply elem_of_app. by left. Qed.

Lemma settled_not_running h pod s : settled h pod s → s ≠ Started → container_running pod = false.
Proof.
  intros Hs Hn. apply not_true_is_false. intros Hr%decode_started. destruct Hs as [s Hd|n b Hd _]; congruence.
Qed.

Lemma reads_created h es : Forall (λ e, reads (call_of e)) es → no_pod_created h → no_pod_created (h ++ es).
Proof.
  intros Hes Hh p [Hp|Hp]%elem_of_app; [by apply (Hh p)|]. eapply Forall_forall in Hes; [|done]. done.
Qed.

Ltac calls := cbn [mbind prog_mbind prog_bind kube_call whatever ev guarantee map_err cluster].

Section safety.
Context `{TemplateDigest} (i : AgentIdentity) (cfg : ProviderConfig) (env : gmap string string).

Abbreviation W := (whatever ev well_named (guarantee i cfg env)).

Lemma only_settle pod : only reads (settle pod).
Proof. unfold settle. destruct (decode_startup pod); [done|]. split; [done|]. intros [b|e]; done. Qed.

Lemma only_observe : only reads (observe_pod i).
Proof.
  split; [done|]. intros [[pod|]|e]; [|done..]. simpl. apply only_bind; [apply only_settle|]. by intros [s|e].
Qed.

Lemma only_latest : only reads (latest_condition i).
Proof. by split. Qed.

Lemma only_await fuel name : only reads (await_disappearance fuel name).
Proof.
  induction fuel as [|fuel IH]; [done|]. split; [done|]. intros t. simpl. destruct (t <? DEADLINE)%Z; [|done].
  split; [done|]. intros [[pod|]|e]; simpl; [|done..]. by split.
Qed.

Lemma reading {A} (p : kube A) h : only reads p → W p h (λ h' _, ∃ es, h' = h ++ es ∧ Forall (λ e, reads (call_of e)) es).
Proof. intros Hp. apply whatever_only; [apply call_of_ev|done|]. by intros h' []. Qed.

Lemma settle_spec pod h : W (settle pod) h (λ h' r, ∀ s, r = Ok s → settled h' pod s ∧ (s = Started → h' = h)).
Proof.
  unfold settle. destruct (decode_startup pod) as [s|secret] eqn:Hd; calls.
  - intros s' [= <-]. split; [by constructor|done].
  - split; [done|]. intros [b|e] _; simpl; [|done]. intros s [= <-]. split; [|by destruct b].
    apply (settled_by_secret _ _ secret); [done|]. apply elem_of_app. right. left.
Qed.

(** What an observation has read. *)
Definition observed_ok (h : history) (o : option VerifiedPod) : Prop :=
  match o with
  | None => True
  | Some v => ∃ pod, EvGetPod (pod_name i) (Ok (Some pod)) ∈ h ∧ verify pod i (vp_startup v) = Some v ∧
      vp_name v = pod_name i ∧ settled h pod (vp_startup v) ∧
      (vp_startup v = Started → ∃ before, h = before ++ [EvGetPod (pod_name i) (Ok (Some pod))])
  end.

Lemma observe_spec h :
  W (observe_pod i) h (λ h' r, (∃ es, h' = h ++ es ∧ Forall (λ e, reads (call_of e)) es) ∧ ∀ o, r = Ok o → observed_ok h' o).
Proof.
  apply whatever_and; [apply reading, only_observe|]. unfold observe_pod. calls. split; [done|].
  intros [[pod|]|e] Hn; simpl in Hn; [|by intros o [= <-]|done]. apply whatever_bind.
  eapply whatever_mono; [apply settle_spec|]. intros h' r Hp Hr. destruct r as [s|e]; calls; [|done].
  destruct (Hr s eq_refl) as [Hs Hst]. intros o [= <-]. destruct (verify pod i s) as [v|] eqn:Hv; [|done].
  apply verify_Some in Hv as Hv'. destruct Hv' as (_ & Hname & _ & _ & _ & Hsv & _). rewrite <-Hsv in *.
  exists pod. split; [|split; [done|split; [congruence|split; [done|]]]].
  - destruct Hp as [es ->]. apply elem_of_app. left. apply elem_of_app. right. left.
  - intros E. rewrite (Hst E). by eexists.
Qed.

(** ** Collection *)

Lemma terminated_names_spec pods h :
  W (terminated_names pods) h (λ h' r, (∃ es, h' = h ++ es ∧ Forall (λ e, reads (call_of e)) es) ∧
    ∀ names, r = Ok names → ∀ n, n ∈ names → dying h' pods n).
Proof.
  apply whatever_and.
  { apply reading. induction pods as [|pod pods IH]; [done|]. apply only_bind; [apply only_settle|]. intros [s|e]; [|done].
    apply only_bind; [done|]. by intros [names|e]. }
  revert h. induction pods as [|pod pods IH]; intros h; simpl.
  { by intros names [= <-] n ?%not_elem_of_nil. }
  apply whatever_bind. eapply whatever_mono; [apply settle_spec|]. intros h1 [s|e] H1 Hs; calls; [|done].
  apply whatever_bind. eapply whatever_mono; [apply IH|]. intros h2 [names|e] H2 Hnames; calls; [|done].
  destruct (Hs s eq_refl) as [Hset _]. apply (settled_mono _ h2) in Hset; [|done].
  specialize (Hnames names eq_refl). assert (∀ n, n ∈ names → dying h2 (pod :: pods) n) as Hrest.
  { intros n (p & ? & ? & ?)%Hnames. exists p. split; [by right|done]. }
  intros names' [= <-] n. destruct s; try by apply Hrest. destruct (m_name (p_metadata pod)) as [name|] eqn:En; [|by apply Hrest].
  intros [->|?]%elem_of_cons; [|by apply Hrest]. exists pod. split; [left|done].
Qed.

Lemma collect_pods_spec names h pods now :
  no_pod_created h → listed i h pods now →
  (∀ n, n ∈ names → ∃ p, p ∈ pods ∧ ours i (p_metadata p) ∧ m_name (p_metadata p) = Some n) →
  W (collect_pods names) h (λ h' _, no_pod_created h' ∧ h `prefix_of` h').
Proof.
  revert h. induction names as [|name names IH]; intros h Hc Hl Hn; simpl; [by split|].
  assert (∀ h', h `prefix_of` h' → no_pod_created h' → W (collect_pods names) h' (λ h'' _, no_pod_created h'' ∧ h `prefix_of` h'')) as Hrec.
  { intros h' [es ->] Hc'. eapply whatever_mono; [apply IH; [done| |]|].
    - apply elem_of_app. by left.
    - intros n Hin. apply Hn. by right.
    - intros h'' _ Hp [? _]. split; [done|]. etrans; [|exact Hp]. by eexists. }
  split; [done|]. intros [[pod|]|e] Hnamed; calls.
  2: { apply Hrec; [by eexists|]. by apply reads_created; [constructor|]. }
  2: { split; [by apply reads_created; [constructor|]|by eexists]. }
  set (h1 := h ++ [_]). assert (no_pod_created h1) as Hc1 by by apply reads_created; [constructor|].
  assert (h `prefix_of` h1) as Hp1 by by eexists.
  destruct (m_uid (p_metadata pod)) as [uid|] eqn:Hu; [|by apply Hrec].
  destruct (m_resource_version (p_metadata pod)) as [rv|] eqn:Hr; [|by apply Hrec].
  apply whatever_bind. eapply whatever_mono; [apply whatever_and; [apply reading, only_settle|apply settle_spec]|].
  intros h2 [s|e] Hp2 [(es & -> & Hes) Hs]; calls; [|by split; [apply reads_created|etrans]].
  assert (no_pod_created (h1 ++ es)) as Hc2 by by apply reads_created.
  destruct (Hs s eq_refl) as [Hset _].
  assert (W (collect_pods names) (h1 ++ es) (λ h'' _, no_pod_created h'' ∧ h `prefix_of` h'')) as Hgo by (apply Hrec; [by etrans|done]).
  destruct s; try exact Hgo. calls. split.
  - split; [done|]. exists pod, Terminated. split; [apply elem_of_app; left; apply elem_of_app; right; left|].
    split; [done|]. split; [done|]. split; [done|]. right. split; [done|].
    destruct (Hn name) as (p & ? & ? & ?); [left|]. exists pods, now, p. split; [|done].
    unfold listed in *. apply elem_of_app. left. apply elem_of_app. by left.
  - intros r _. apply Hrec; [do 2 (etrans; [done|]); by eexists|].
    intros p [Hin|Hin]%elem_of_app; [by apply (Hc2 p)|]. by apply list_elem_of_singleton in Hin.
Qed.

Lemma dying_mono h h' pods n : h `prefix_of` h' → dying h pods n → dying h' pods n.
Proof. intros Hp (p & ? & ? & ?). exists p. split_and!; [done..|]. by eapply settled_mono. Qed.

Lemma listed_mono h h' pods now : h `prefix_of` h' → listed i h pods now → listed i h' pods now.
Proof. intros [es ->] ?. apply elem_of_app. by left. Qed.

Lemma gc_may_drop_mono h h' n : h `prefix_of` h' → gc_may_drop i h n → gc_may_drop i h' n.
Proof.
  intros Hp (pods & now & Hl & Hd). exists pods, now. split; [by eapply listed_mono|].
  destruct Hd as [(p & m & ? & ? & ? & ? & ?)|(ss & s & t & Hs & ? & ? & ? & Hd)].
  - left. exists p, m. split_and!; [done..| |done]. by eapply dying_mono.
  - right. exists ss, s, t. split; [destruct Hp as [es ->]; apply elem_of_app; by left|]. split_and!; [done..|].
    intros p m ? ? ? ?. eapply dying_mono; [done|]. by eapply Hd.
Qed.

Lemma collect_secrets_spec names h :
  no_pod_created h → (∀ n, n ∈ names → gc_may_drop i h n) → W (collect_secrets names) h (λ h' _, no_pod_created h').
Proof.
  revert h. induction names as [|name names IH]; intros h Hc Hn; simpl; [done|].
  split; [right; apply Hn; left|]. intros r _. apply IH.
  - intros p [Hin|Hin]%elem_of_app; [by apply (Hc p)|]. by apply list_elem_of_singleton in Hin.
  - intros n Hin. eapply gc_may_drop_mono; [by eexists|]. apply Hn. by right.
Qed.

Lemma preflight_spec h : no_pod_created h → W (preflight_gc i) h (λ h' _, no_pod_created h').
Proof.
  intros Hc. unfold preflight_gc. apply whatever_bind. eapply (whatever_mono _ _ _ _ _ (λ h' _, no_pod_created h')); [|done].
  unfold try_preflight_gc. calls. split; [done|]. intros [[pods now]|e] _; calls; [|by apply reads_created; [repeat constructor|]].
  split; [done|]. intros [secrets|e] _; calls; [|by do 2 (apply reads_created; [repeat constructor|])].
  set (h1 := (h ++ _) ++ _). assert (no_pod_created h1) as Hc1 by by do 2 (apply reads_created; [repeat constructor|]).
  apply whatever_bind. eapply whatever_mono; [apply terminated_names_spec|].
  intros h2 [names|e] Hp2 [(es & -> & Hes) Hdy]; calls; [|by apply reads_created].
  specialize (Hdy names eq_refl). assert (no_pod_created (h1 ++ es)) as Hc2 by by apply reads_created.
  assert (listed i h1 pods now) as Hl1 by (apply elem_of_app; left; apply elem_of_app; right; left).
  set (term := λ pod, match m_name (p_metadata pod) with Some n => bool_decide (n ∈ names) | None => false end). pose proof (gc_plan_spec i pods secrets term now) as [Hpods Hsecrets]. set (plan := gc_plan _ _ _ _ _) in *.
  assert (∀ p, is_Some (verify p i Started) → ours i (p_metadata p) ∧ is_Some (m_name (p_metadata p))) as Hours.
  { intros p [v Hv]. apply verify_Some in Hv as (? & ? & _). eauto. }
  assert (∀ p n, term p = true → m_name (p_metadata p) = Some n → dying (h1 ++ es) pods n) as Hterm.
  { intros p n Ht En. unfold term in Ht. rewrite En in Ht. apply bool_decide_eq_true in Ht. by apply Hdy. }
  apply whatever_bind. eapply whatever_mono; [apply (collect_pods_spec _ _ pods now Hc2)|].
  - eapply listed_mono; [by eexists|done].
  - intros n (p & (Hin & Hv & _) & En)%Hpods. exists p. split; [done|]. split; [by apply Hours|done].
  - intros h3 [u|e] _ [Hc3 Hp3]; calls; [|done]. apply whatever_bind.
    eapply whatever_mono; [apply collect_secrets_spec; [done|]|by intros h4 ? _ ?].
    intros n Hn. eapply gc_may_drop_mono; [exact Hp3|]. exists pods, now. split; [eapply listed_mono; [by eexists|done]|].
    destruct (Hsecrets n Hn) as [(p & (Hin & Hv & Ht) & Hr)|(s & t & -> & Hs & Ho & Hall)].
    + left. destruct (Hours p Hv) as [Ho [m Hm]]. exists p, m. split_and!; [done..| |done]. by eapply Hterm.
    + right. exists secrets, s, t. split; [apply elem_of_app; left; apply elem_of_app; right; left|].
      split_and!; [done..|]. intros p m Hin Hv Hm Hr. specialize (Hall p Hin Hv Hr). rewrite Hm in Hall. simpl in Hall.
      apply Hpods in Hall as (q & (Hq & _ & Ht) & Hqm). by eapply Hterm.
Qed.

(** ** The loop *)

Lemma latest_error {A} h (f : option Condition → result DeployError A) (Q : history → result DeployError A → Prop) :
  (∀ h' c, Q h' (f c)) → W (c ← latest_condition i; Ret (f c)) h Q.
Proof. intros HQ. unfold latest_condition. calls. by split. Qed.

Definition success (h : history) (r : result DeployError string) : Prop :=
  ∀ name, r = Ok name → started_last i h name.

Lemma started_success h v (Hm : vp_deletion_marked v = false ∨ ∃ p, EvCreatePod p (Ok AlreadyExists) ∈ h) :
  observed_ok h (Some v) → vp_startup v = Started → success h (Ok (vp_name v)).
Proof.
  intros (pod & _ & Hv & Hn & Hset & Hlast) Hst name [= <-]. destruct (Hlast Hst) as [before ->].
  apply verify_Some in Hv as (Ho & _ & _ & _ & Hdel & _ & _). exists before, pod. rewrite Hn. split_and!; [done..| |].
  - apply decode_started. rewrite Hst in Hset. by inversion Hset as [|? []].
  - destruct Hm as [Hm|[p Hp]].
    + left. rewrite Hm in Hdel. symmetry in Hdel. apply bool_decide_eq_false in Hdel. by apply eq_None_not_Some.
    + right. exists p. apply elem_of_app in Hp as [?|Hp]; [done|]. by apply list_elem_of_singleton in Hp.
Qed.

Lemma await_winner_spec fuel h :
  (∃ p, EvCreatePod p (Ok AlreadyExists) ∈ h) → W (await_winner i fuel) h success.
Proof.
  revert h. induction fuel as [|fuel IH]; intros h Hp; cbn [await_winner]; calls; [done|]. split; [done|]. intros t _.
  destruct (DEADLINE <=? t)%Z; [by apply latest_error|]. apply whatever_bind, whatever_bind.
  eapply whatever_mono; [apply observe_spec|]. intros h' r _ [(es & -> & Hes) Hok]. calls.
  assert (∃ p, EvCreatePod p (Ok AlreadyExists) ∈ ((h ++ [EvElapsed t]) ++ es)) as Hp'.
  { destruct Hp as [p Hp]. exists p. rewrite !elem_of_app. auto. }
  assert (W (_ ← kube_call (Sleep POLL_INTERVAL); await_winner i fuel) ((h ++ [EvElapsed t]) ++ es) success) as Hgo.
  { calls. split; [done|]. intros [] _. apply IH. destruct Hp' as [p Hp']. exists p. rewrite elem_of_app. by left. }
  destruct r as [[v|]|e]; calls; [|done..]. specialize (Hok (Some v) eq_refl).
  destruct (vp_startup v) eqn:Hs; [by apply started_success; [right|done..]|..];
    destruct (vp_deletion_marked v); try done; try exact Hgo; by apply latest_error.
Qed.

Lemma adopt_spec fuel h s secret :
  (∃ p, EvCreatePod p (Ok AlreadyExists) ∈ h) → EvCreateSecret s (Ok tt) ∈ h → m_name (s_metadata s) = Some secret →
  W (adopt_winner i fuel secret) h success.
Proof.
  intros Hp Hs Hn. unfold adopt_winner. calls. split; [done|]. intros found _.
  set (h1 := h ++ _). assert (h `prefix_of` h1) as Hp1 by by eexists.
  destruct found as [found|e]; calls; [|done].
  apply whatever_bind. eapply (whatever_mono _ _ _ _ _ (λ h' _, h1 `prefix_of` h')).
  { destruct found as [pod|]; calls; [|done]. apply whatever_bind, whatever_bind.
    eapply whatever_mono; [apply reading, only_settle|]. intros h2 [st|e] Hp2 _; calls; done. }
  intros h2 [managed|e] _ Hp2; calls; [|done]. apply whatever_bind. unfold drop_own_secret, secret_is_referenced.
  assert (h `prefix_of` h2) as [es ->] by by etrans.
  assert (∀ h3, h ++ es `prefix_of` h3 → W (if managed : bool then await_winner i fuel else Ret (Err (NotManaged (pod_name i)))) h3 success) as Hend.
  { intros h3 [es' ->]. destruct managed; [|done]. apply await_winner_spec.
    destruct Hp as [p Hp]. exists p. rewrite !elem_of_app. auto. }
  calls. split; [done|]. intros [[pods now]|e] _; calls; [|apply Hend; by eexists].
  case_bool_decide as Hr; calls; [apply Hend; by eexists|].
  split; [|intros r _; apply Hend; rewrite <-app_assoc; by eexists].
  left. exists (h ++ es), s, pods, now. split; [done|]. split; [rewrite elem_of_app; by left|done].
Qed.

(** The loop is re-entered with a history that respects the flag. *)
Definition reentrant (created : bool) (again : kube (result DeployError string)) : Prop :=
  ∀ h, (created = false → no_pod_created h) → W again h success.

Lemma sleep_spec created again h :
  reentrant created again → (created = false → no_pod_created h) →
  W (_ ← kube_call (Sleep POLL_INTERVAL); again) h success.
Proof.
  intros Ha Hc. calls. split; [done|]. intros [] _. apply Ha. intros E. apply reads_created; [by repeat constructor|]. by apply Hc.
Qed.

Lemma await_spec created again fuel name h :
  reentrant created again → (created = false → no_pod_created h) →
  W (let! _ := await_disappearance fuel name in again) h success.
Proof.
  intros Ha Hc. apply whatever_bind. eapply whatever_mono; [apply reading, only_await|].
  intros h3 [u|e] _ (es & -> & Hes); [|done]. apply Ha. intros E. apply reads_created; [done|]. by apply Hc.
Qed.

Lemma replace_spec fuel created again v h :
  reentrant created again → (created = false → no_pod_created h) → observed_ok h (Some v) → vp_deletion_marked v = false →
  vp_startup v = Terminated ∨ vp_startup v = NeverStartedProvablyBroken ∨
    vp_startup v = NeverStartedRecoverable ∧ vp_recorded_intent v ≠ Some (desired cfg env) →
  W (replace_pod i fuel created (vp_name v) (vp_fence v) again) h success.
Proof.
  intros Ha Hc Hok Hdel Hwhy. unfold replace_pod. destruct created; [by apply latest_error|]. calls. split.
  - split; [by apply Hc|]. destruct Hok as (pod & Hget & Hv & Hn & Hset & _).
    apply verify_Some in Hv as (Ho & Hname & Hu & Hr & Hd & _ & Hri). exists pod, (vp_startup v).
    rewrite Hn. split_and!; [done..|]. left. split; [done|]. split; [|by rewrite <-Hri].
    rewrite Hdel in Hd. symmetry in Hd. apply bool_decide_eq_false in Hd. by apply eq_None_not_Some.
  - intros r _. set (h2 := h ++ _). assert (false = false → no_pod_created h2) as Hc2.
    { intros E p [Hin|Hin]%elem_of_app; [by apply (Hc E p)|]. by apply list_elem_of_singleton in Hin. }
    destruct r as [[]|e]; [by eapply await_spec..|by eapply sleep_spec|done].
Qed.

Lemma attempt_spec fuel again h :
  reentrant true again →
  W (create_attempt i cfg env (λ outcome secret,
       match outcome with
       | Created => _ ← kube_call (Sleep POLL_INTERVAL); again
       | AlreadyExists => adopt_winner i fuel secret
       end)) h success.
Proof.
  intros Ha. unfold create_attempt. calls. split; [done|]. intros n _. split; [done|]. intros [[]|e] _; calls; [|done].
  split; [exists h, n; simpl; by rewrite <-!app_assoc|]. intros [[|]|e] _; [by eapply sleep_spec| |done].
  eapply adopt_spec; [|rewrite !elem_of_app; left; right; left|done]. eexists. rewrite !elem_of_app. right. left.
Qed.

Lemma loop_spec fuel created : reentrant created (deploy_loop i cfg env fuel created).
Proof.
  revert created. induction fuel as [|fuel IH]; intros created h Hc; cbn [deploy_loop]; calls; [done|]. split; [done|]. intros t _.
  destruct (DEADLINE <=? t)%Z; [by apply latest_error|]. apply whatever_bind, whatever_bind.
  eapply whatever_mono; [apply observe_spec|]. intros h' r _ [(es & -> & Hes) Hok]. calls.
  destruct r as [o|e]; calls; [|done]. specialize (Hok o eq_refl). set (h1 := (h ++ [EvElapsed t]) ++ es) in *.
  assert (created = false → no_pod_created h1) as Hc1.
  { intros E. apply reads_created; [done|]. apply reads_created; [by repeat constructor|]. by apply Hc. }
  clearbody h1. unfold classify. destruct o as [v|]; [|by apply attempt_spec].
  destruct (vp_deletion_marked v) eqn:Hdel; [by eapply await_spec|].
  destruct (vp_startup v) eqn:Hs; [by apply started_success; [left|..]|..|done];
    try case_decide; first [by eapply sleep_spec | eapply replace_spec; [done..|rewrite Hs; tauto]].
Qed.

Lemma deploy_spec fuel : W (deploy i cfg env fuel) [] success.
Proof.
  unfold deploy. calls. split; [done|]. intros [[]|e] _; calls; [|done]. apply whatever_bind.
  eapply whatever_mono; [apply preflight_spec|].
  - apply (reads_created []); [by repeat constructor|]. by intros p ?%not_elem_of_nil.
  - intros h [] _ Hc. by apply loop_spec.
Qed.

End safety.

(** ** Time *)

(** The least time the clock can show: a read takes some time, a sleep its duration. *)
Definition tick (b : Z) (e : kevent) : Z :=
  match e with
  | EvElapsed t => Z.max b t
  | EvGetPod _ _ => b + 1
  | EvSleep d => b + Z.max 0 d
  | _ => b
  end.

Definition now_bound (h : history) : Z := foldl tick 0%Z h.

Definition clock_ok (h : history) (e : kevent) : Prop :=
  match e with EvElapsed t => (now_bound h ≤ t)%Z | _ => True end.

Definition is_create_secret (e : kevent) : bool := match e with EvCreateSecret _ _ => true | _ => false end.

(** The Secrets an execution has asked for. *)
Definition secrets_minted (h : history) : nat := length (List.filter is_create_secret h).

(** Less than one Secret per poll interval so far. *)
Definition budget (h : history) (c : kcall) : Prop :=
  match c with CreateSecret _ => (Z.of_nat (secrets_minted h) * POLL_INTERVAL < DEADLINE)%Z | _ => True end.

Lemma now_bound_app h es : now_bound (h ++ es) = foldl tick (now_bound h) es.
Proof. apply foldl_app. Qed.

Lemma now_bound_mono h h' : h `prefix_of` h' → (now_bound h ≤ now_bound h')%Z.
Proof.
  intros [es ->]. rewrite now_bound_app. generalize (now_bound h). intros b. revert b.
  induction es as [|e es IH]; intros b; simpl; [lia|]. specialize (IH (tick b e)). destruct e; simpl in *; lia.
Qed.

Lemma minted_app h es : secrets_minted (h ++ es) = secrets_minted h + secrets_minted es.
Proof. unfold secrets_minted. by rewrite List.filter_app, length_app. Qed.

Lemma minted_snoc h e : secrets_minted (h ++ [e]) = secrets_minted h + (if is_create_secret e then 1 else 0).
Proof. rewrite minted_app. by destruct e. Qed.

Definition not_minting (c : kcall) : Prop := match c with CreateSecret _ => False | _ => True end.

Lemma not_minted es : Forall (λ e, not_minting (call_of e)) es → secrets_minted es = 0.
Proof. induction 1 as [|e es He _ IH]; [done|]. unfold secrets_minted in *. destruct e; done. Qed.

Section time.
Context `{TemplateDigest} (i : AgentIdentity) (cfg : ProviderConfig) (env : gmap string string).

Abbreviation T := (whatever ev clock_ok budget).

(** Enough fuel for the time that is left. *)
Definition fuelled (fuel : nat) (h : history) : Prop := (0 < fuel)%nat ∧ (DEADLINE < now_bound h + Z.of_nat fuel)%Z.

(** No more than one Secret per poll interval. *)
Definition paced (h : history) : Prop := (Z.of_nat (secrets_minted h) * POLL_INTERVAL ≤ now_bound h)%Z.

Definition finished {A} (h : history) (r : result DeployError A) : Prop := r ≠ Err OutOfFuel.

Lemma fuelled_next fuel h t h' :
  fuelled (S fuel) h → (now_bound h ≤ t < DEADLINE)%Z → (now_bound h + 1 ≤ now_bound h')%Z → fuelled fuel h'.
Proof. unfold fuelled. lia. Qed.

Lemma quietly {A} (p : kube A) h : only not_minting p →
  T p h (λ h' _, h `prefix_of` h' ∧ secrets_minted h' = secrets_minted h).
Proof.
  intros Hp. eapply whatever_mono; [apply (whatever_only ev call_of); [apply call_of_ev|exact Hp|by intros ? [] ?]|].
  intros h' a Hpre (es & -> & Hes). split; [done|]. rewrite minted_app. apply not_minted in Hes. lia.
Qed.

Lemma only_weaken {A} (ok ok' : kcall → Prop) (p : kube A) : (∀ c, ok c → ok' c) → only ok p → only ok' p.
Proof. intros Hok. induction p as [a|c k IH]; simpl; [done|]. intros [? ?]. split; auto. Qed.

Lemma reads_quietly {A} (p : kube A) : only reads p → only not_minting p.
Proof. apply only_weaken. by intros [] ?. Qed.

(** An observation takes time. *)
Lemma observe_time h :
  T (observe_pod i) h (λ h' _, (now_bound h + 1 ≤ now_bound h')%Z ∧ secrets_minted h' = secrets_minted h).
Proof.
  unfold observe_pod. calls. split; [done|]. intros r _.
  assert (now_bound (h ++ [EvGetPod (pod_name i) r]) = now_bound h + 1)%Z as Hb by (by rewrite now_bound_app).
  assert (secrets_minted (h ++ [EvGetPod (pod_name i) r]) = secrets_minted h) as Hm by (rewrite minted_snoc; cbn; lia).
  destruct r as [[pod|]|e]; calls; [|lia..]. apply whatever_bind.
  eapply whatever_mono; [apply quietly, reads_quietly, only_settle|].
  intros h' [s|e] _ [Hp%now_bound_mono Hs]; calls; lia.
Qed.

Lemma latest_finished {A} h (f : option Condition → result DeployError A) :
  (∀ c, f c ≠ Err OutOfFuel) → T (c ← latest_condition i; Ret (f c)) h finished.
Proof. intros Hf. unfold latest_condition. calls. split; [done|]. intros r _. apply Hf. Qed.

Lemma await_time fuel name h :
  fuelled fuel h →
  T (await_disappearance fuel name) h (λ h' r, finished h' r ∧ h `prefix_of` h' ∧ secrets_minted h' = secrets_minted h).
Proof.
  intros Hf. apply whatever_and; [|apply quietly, reads_quietly, only_await].
  revert h Hf. induction fuel as [|fuel IH]; intros h Hf; [by destruct Hf; lia|]. cbn [await_disappearance]; calls.
  split; [done|]. intros t Ht. simpl in Ht. destruct (t <? DEADLINE)%Z eqn:Hd; [|done]. apply Z.ltb_lt in Hd.
  calls. split; [done|]. intros [[pod|]|e] _; calls; [|done..]. split; [done|]. intros [] _. apply IH.
  eapply fuelled_next; [done|done|]. rewrite !now_bound_app. cbn. lia.
Qed.

Lemma await_winner_time fuel h : fuelled fuel h → T (await_winner i fuel) h finished.
Proof.
  revert h. induction fuel as [|fuel IH]; intros h Hf; [by destruct Hf; lia|]. cbn [await_winner]; calls.
  split; [done|]. intros t Ht. simpl in Ht. destruct (DEADLINE <=? t)%Z eqn:Hd; [by apply latest_finished|]. apply Z.leb_gt in Hd.
  apply whatever_bind, whatever_bind. eapply whatever_mono; [apply observe_time|]. intros h' r _ [Hb _]. calls.
  assert (T (_ ← kube_call (Sleep POLL_INTERVAL); await_winner i fuel) h' finished) as Hgo.
  { calls. split; [done|]. intros [] _. apply IH. eapply fuelled_next; [done|done|].
    rewrite now_bound_app in *. cbn in *. lia. }
  destruct r as [[v|]|e]; calls; [|exact Hgo|done].
  destruct (vp_startup v); [done|..]; destruct (vp_deletion_marked v); try done; try exact Hgo; by apply latest_finished.
Qed.

Lemma adopt_time fuel secret h : fuelled fuel h → T (adopt_winner i fuel secret) h finished.
Proof.
  intros Hf. assert (∀ h', h `prefix_of` h' → fuelled fuel h') as Hmono.
  { intros h' Hp%now_bound_mono. unfold fuelled in *. lia. }
  unfold adopt_winner. calls. split; [done|]. intros [found|e] _; calls; [|done].
  set (h1 := h ++ _). assert (h `prefix_of` h1) as Hp1 by by eexists.
  apply whatever_bind. eapply (whatever_mono _ _ _ _ _ (λ h' r, h1 `prefix_of` h' ∧ r ≠ Err OutOfFuel)).
  { destruct found as [pod|]; calls; [|done]. apply whatever_bind, whatever_bind.
    eapply whatever_mono; [apply quietly, reads_quietly, only_settle|]. intros h2 [st|e] Hp2 _; calls; done. }
  intros h2 [managed|e] _ [Hp2 Hne]; calls; [|by intros [= ->]]. apply whatever_bind.
  eapply whatever_mono; [apply quietly|].
  - unfold drop_own_secret, secret_is_referenced. split; [done|]. intros [[pods now]|e]; [|done]. simpl. by case_bool_decide.
  - intros h3 [] Hp3 _. destruct managed; [|done]. apply await_winner_time, Hmono. do 2 (etrans; [done|]). done.
Qed.

(** The loop keeps its pace. *)
Definition on_time (fuel : nat) (again : kube (result DeployError string)) : Prop :=
  ∀ h, fuelled fuel h → paced h → T again h finished.

Lemma sleep_time fuel again h :
  on_time fuel again → fuelled fuel h → (Z.of_nat (secrets_minted h) * POLL_INTERVAL ≤ now_bound h + POLL_INTERVAL)%Z →
  T (_ ← kube_call (Sleep POLL_INTERVAL); again) h finished.
Proof.
  intros Ha Hf Hm. calls. split; [done|]. intros [] _. apply Ha.
  - unfold fuelled in *. rewrite now_bound_app. cbn. lia.
  - unfold paced. rewrite now_bound_app, minted_snoc. cbn. unfold POLL_INTERVAL in *. lia.
Qed.

Lemma await_again fuel again name h :
  on_time fuel again → fuelled fuel h → paced h → T (let! _ := await_disappearance fuel name in again) h finished.
Proof.
  intros Ha Hf Hp. apply whatever_bind. eapply whatever_mono; [by apply await_time|].
  intros h' [u|e] _ (Hfin & Hb%now_bound_mono & Hm); [|by intros [= ->]].
  apply Ha; [unfold fuelled in *|unfold paced in *; rewrite Hm]; lia.
Qed.

Lemma loop_time fuel created : on_time fuel (deploy_loop i cfg env fuel created).
Proof.
  revert created. induction fuel as [|fuel IH]; intros created h Hf Hp; [by destruct Hf; lia|]. cbn [deploy_loop]; calls.
  split; [done|]. intros t Ht. simpl in Ht. destruct (DEADLINE <=? t)%Z eqn:Hd; [by apply latest_finished|]. apply Z.leb_gt in Hd.
  apply whatever_bind, whatever_bind. eapply whatever_mono; [apply observe_time|]. intros h' r _ [Hb Hm]. calls.
  rewrite now_bound_app in Hb. rewrite minted_snoc in Hm. cbn in Hb, Hm.
  assert (fuelled fuel h') as Hf' by (eapply fuelled_next; [done|done|lia]).
  assert (paced h') as Hp' by (unfold paced in *; rewrite Hm, Nat.add_0_r; lia).
  assert (T (_ ← kube_call (Sleep POLL_INTERVAL); deploy_loop i cfg env fuel created) h' finished) as Hsleep.
  { apply (sleep_time fuel); [done|done|]. unfold paced, POLL_INTERVAL in *. lia. }
  destruct r as [o|e]; calls; [|done]. unfold classify. destruct o as [v|].
  - destruct (vp_deletion_marked v); [by eapply await_again|].
    assert (∀ n f, T (replace_pod i fuel created n f (deploy_loop i cfg env fuel created)) h' finished) as Hr.
    { intros n f. unfold replace_pod. destruct created; [by apply latest_finished|]. calls. split; [done|]. intros r _.
      set (h2 := h' ++ _). assert (now_bound h2 = now_bound h') as Hb2 by (unfold h2; by rewrite now_bound_app).
      assert (secrets_minted h2 = secrets_minted h') as Hm2 by (unfold h2; rewrite minted_snoc; cbn; lia).
      assert (fuelled fuel h2) by (unfold fuelled in *; lia). assert (paced h2) by (unfold paced in *; rewrite Hm2; lia).
      destruct r as [[]|e]; [by eapply await_again..| |done].
      eapply (sleep_time fuel); [done..|]. unfold paced, POLL_INTERVAL in *. lia. }
    destruct (vp_startup v); [done|apply Hr| |apply Hr|done]. by case_decide.
  - unfold create_attempt. calls. split; [done|]. intros n _. split.
    { cbn. rewrite minted_snoc. cbn. unfold paced, POLL_INTERVAL, DEADLINE in *. lia. }
    intros [[]|e] _; calls; [|done]. split; [done|]. intros [[|]|e] _; calls; [| |done].
    + apply (sleep_time fuel); [done| |].
      * unfold fuelled in *. rewrite !now_bound_app. cbn. lia.
      * rewrite !now_bound_app, !minted_snoc. cbn. unfold paced, POLL_INTERVAL in *. lia.
    + apply adopt_time. unfold fuelled in *. rewrite !now_bound_app. cbn. lia.
Qed.

Lemma preflight_quietly : only not_minting (preflight_gc i).
Proof.
  assert (∀ names, only not_minting (collect_pods names)) as Hpods.
  { induction names as [|name names IH]; [done|]. split; [done|]. intros [[pod|]|e]; [|done..]. simpl.
    destruct (m_uid _); [|done]. destruct (m_resource_version _); [|done].
    apply only_bind; [apply reads_quietly, only_settle|]. intros [[]|e]; try done. }
  assert (∀ names, only not_minting (collect_secrets names)) as Hsecrets by (induction names; by split).
  assert (∀ pods, only not_minting (terminated_names pods)) as Hterm.
  { induction pods as [|pod pods IH]; [done|]. apply only_bind; [apply reads_quietly, only_settle|]. intros [s|e]; [|done].
    apply only_bind; [done|]. by intros [names|e]. }
  apply only_bind; [|done]. split; [done|]. intros [[pods now]|e]; [|done]. split; [done|]. intros [secrets|e]; [|done].
  simpl. apply only_bind; [done|]. intros [names|e]; [|done]. apply only_bind; [done|]. intros [u|e]; [|done].
  by apply only_bind.
Qed.

Lemma deploy_time fuel : (DEADLINE < Z.of_nat fuel)%Z → T (deploy i cfg env fuel) [] finished.
Proof.
  intros Hfuel. unfold deploy. calls. split; [done|]. intros [[]|e] _; calls; [|done]. apply whatever_bind.
  eapply whatever_mono; [apply quietly, preflight_quietly|]. intros h [] _ [Hp%now_bound_mono Hm].
  apply loop_time; [unfold fuelled; cbn in Hp; unfold DEADLINE, OPERATION_DEADLINE_SECS in *; lia|].
  unfold paced. rewrite Hm. cbn in Hp |- *. lia.
Qed.

Lemma minted_bound es :
  (∀ before e rest, es = before ++ e :: rest → budget before (call_of e)) → secrets_minted es ≤ 300.
Proof.
  induction es as [|e es IH] using rev_ind; intros Hb; [cbn; lia|]. rewrite minted_snoc.
  destruct (is_create_secret e) eqn:He.
  - destruct e; try done. specialize (Hb es _ [] eq_refl). cbn in Hb. unfold POLL_INTERVAL, DEADLINE, OPERATION_DEADLINE_SECS in Hb. lia.
  - rewrite Nat.add_0_r. apply IH. intros before e' rest ->. apply (Hb before e' (rest ++ [e])). by rewrite <-app_assoc.
Qed.

End time.

(** ** Properties *)

Section properties.
Context `{TemplateDigest} (i : AgentIdentity) (cfg : ProviderConfig) (env : gmap string string).

Lemma deploy_guarantee fuel es r before e rest :
  exec ev (deploy i cfg env fuel) es r → relied well_named es → es = before ++ e :: rest →
  guarantee i cfg env before (call_of e).
Proof.
  intros He Hr ->. pose proof (whatever_run ev call_of call_of_ev _ _ _ _ _ _ (deploy_spec i cfg env fuel) He Hr) as [_ Hg].
  by apply (Hg before e rest).
Qed.

(** C7: whatever the cluster answers, a deploy deletes only what it may: every deletion carries
    the fence of an object read before that was terminated, provably broken or superseded,
    nothing is deleted after this call created a pod, and as long as uid and
    resource version identify an object, the pod that the fence can hit is not running. *)
Theorem deploy_never_kills_running fuel es r before name fence reply rest current :
  exec ev (deploy i cfg env fuel) es r → relied well_named es →
  es = before ++ EvDeletePod name fence reply :: rest →
  m_uid (p_metadata current) = Some (f_uid fence) →
  m_resource_version (p_metadata current) = Some (f_resource_version fence) →
  (∀ pod, EvGetPod name (Ok (Some pod)) ∈ before → m_uid (p_metadata pod) = m_uid (p_metadata current) →
     m_resource_version (p_metadata pod) = m_resource_version (p_metadata current) → pod = current) →
  may_delete i cfg env before name fence ∧ container_running current = false.
Proof.
  intros He Hr Heq Hu Hv Hid. pose proof (deploy_guarantee fuel es r before _ rest He Hr Heq) as Hm. cbn in Hm.
  split; [done|]. destruct Hm as (_ & pod & s & Hget & Hset & Hpu & Hpv & Hwhy).
  rewrite <-(Hid pod) by (done || congruence). eapply settled_not_running; [done|].
  intros ->. destruct Hwhy as [(_ & _ & [?|[?|[? _]]])|[? _]]; congruence.
Qed.

(** C25: whatever the cluster answers, a pod is created only right after the Secret of the same
    fresh generation that it references; and a Secret is deleted only when it is this
    attempt's own and no listed pod references it, when it goes with a terminated pod of
    the agent, or when the server's clock makes it an orphan older than two deadlines that
    no pod which stays references. *)
Theorem deploy_secret_hygiene fuel es r before e rest :
  exec ev (deploy i cfg env fuel) es r → relied well_named es → es = before ++ e :: rest →
  match e with
  | EvCreatePod pod _ => may_create i cfg env before pod ∧
      ∃ s, EvCreateSecret s (Ok tt) ∈ before ∧ secret_is_ours s i = true ∧ referenced_secret pod = m_name (s_metadata s)
  | EvDeleteSecret name _ => may_drop i before name
  | _ => True
  end.
Proof.
  intros He Hr Heq. pose proof (deploy_guarantee fuel es r before e rest He Hr Heq) as Hm. destruct e; try done.
  split; [done|]. destruct Hm as (h0 & n & -> & ->). eexists. split; [apply elem_of_app; right; right; left|]. split; [apply built_secret_ours|done].
Qed.

(** success means that the agent runs: the last answer of the cluster was the agent's own
    pod, with its container running, and not on its way out unless another deploy had
    created it. *)
Theorem deploy_success_means_started fuel es name :
  exec ev (deploy i cfg env fuel) es (Ok name) → relied well_named es → started_last i es name.
Proof.
  intros He Hr. pose proof (whatever_run ev call_of call_of_ev _ _ _ _ _ _ (deploy_spec i cfg env fuel) He Hr) as [Hs _].
  by apply Hs.
Qed.

(** C26: against every cluster on which time passes (a read takes some, a sleep its
    duration), a deploy ends with an answer, and mints at most 300 Secrets. *)
Theorem deploy_terminates fuel (answer : history → ∀ c, kreply c) :
  (DEADLINE < Z.of_nat fuel)%Z → (∀ h, (now_bound h ≤ answer h Elapsed)%Z) →
  let '(es, r) := run ev answer (deploy i cfg env fuel) [] in
  r ≠ Err OutOfFuel ∧ secrets_minted es ≤ 300.
Proof.
  intros Hfuel Hclock. destruct (run_exec ev answer (deploy i cfg env fuel) []) as (es & He & Hx & Ha).
  destruct (run ev answer (deploy i cfg env fuel) []) as [es' r]. simpl in *. subst es'.
  assert (relied clock_ok es) as Hr.
  { intros h e rest Heq. destruct (Ha h e rest Heq) as [c ->]. destruct c; try done. apply Hclock. }
  destruct (whatever_run ev call_of call_of_ev _ _ _ _ _ _ (deploy_time i cfg env fuel Hfuel) Hx Hr) as [Hfin Hb].
  split; [done|]. by apply minted_bound.
Qed.

End properties.

(** ** Witnesses *)

Module KubeDeployDemo.

#[local] Instance digest : TemplateDigest := λ t, it_image t.

Definition agent : AgentIdentity := mkAgentIdentity "0123456789abcdef0123456789abcdef0123456789abcdef0123456789abcdef".
Definition conf : ProviderConfig := mkProviderConfig None "agents" "img@sha256:0" default_resources None None.

(** A pod of the agent as the cluster reports it. *)
Definition reported (ours_ deleting : bool) (state : ContainerState) : Pod :=
  let built := build_pod agent conf "00000001" "old" in
  let m := admitted "uid" "rv" 0 (p_metadata built) in
  mkPod (mkMeta (m_name m) (m_namespace m) (m_uid m) (m_resource_version m) (if ours_ then m_labels m else None) (m_annotations m)
           (if deleting then Some 5%Z else None) (m_creation_timestamp m))
    (p_spec built) (Some (mkPodStatus (Some "Running") (Some [mkContainerStatus CONTAINER_NAME (Some state)]) None)).
Definition running : ContainerState := mkContainerState (Some tt) None None.
Definition exited : ContainerState := mkContainerState None (Some (mkExitState 1 None)) None.

Definition has_created (h : history) : bool := existsb (λ e, match e with EvCreatePod _ _ => true | _ => false end) h.
Definition has_deleted (h : history) : bool := existsb (λ e, match e with EvDeletePod _ _ _ => true | _ => false end) h.

(** A cluster: what it lists, the pod before and after this call's create, the outcome of
    the create; a deleted pod is gone. *)
Definition cluster_of (listing : list Pod) (first second : option Pod) (outcome : CreateOutcome)
    (h : history) (c : kcall) : kreply c :=
  match c with
  | EnsureNamespace _ | CreateSecret _ | DeleteSecret _ => Ok tt
  | ListPods _ => Ok (listing, None)
  | ListSecrets _ => Ok []
  | SecretExists _ => Ok true
  | CreatePod _ => Ok outcome
  | DeletePod _ _ => Ok Accepted
  | GetPod n =>
      Ok (if decide (n = pod_name agent) then if has_created h then second else if has_deleted h then None else first else None)
  | Sleep _ => tt
  | Elapsed => now_bound h
  | RandomU32 => 7%N
  end.

Definition demo_run (cl : history → ∀ c, kreply c) := run ev cl (deploy agent conf ∅ 20) [].

Definition named_pod (o : option Pod) : Prop := ∀ p, o = Some p → m_name (p_metadata p) = Some (pod_name agent).

Lemma cluster_well_named listing first second outcome h c :
  named_pod first → named_pod second → well_named h (ev c (cluster_of listing first second outcome h c)).
Proof.
  intros Hf Hs. destruct c as [| | | | | | | |n| | |]; try done. simpl. case_decide as Hn; [|done].
  destruct (if has_created h then second else _) as [p|] eqn:Hp; [|done]. rewrite Hn.
  destruct (has_created h); [by apply Hs|]. destruct (has_deleted h); [done|by apply Hf].
Qed.

(** The executions on such a cluster are executions. *)
Lemma cluster_exec {A} (p : kube A) listing first second outcome :
  named_pod first → named_pod second →
  let r := run ev (cluster_of listing first second outcome) p [] in exec ev p r.1 r.2 ∧ relied well_named r.1.
Proof.
  intros Hf Hs r. destruct (run_exec ev (cluster_of listing first second outcome) p []) as (es & He & Hx & Ha).
  unfold r. rewrite He. split; [exact Hx|]. intros h e rest Heq. destruct (Ha h e rest Heq) as [c ->].
  by apply cluster_well_named.
Qed.

(** A pod that exited is replaced by one that runs. *)
Definition restart := demo_run (cluster_of [] (Some (reported true false exited)) (Some (reported true false running)) Created).

Lemma restart_named st b d : named_pod (Some (reported b d st)).
Proof. by intros p [= <-]. Qed.

Lemma restart_exec : exec ev (deploy agent conf ∅ 20) restart.1 restart.2 ∧ relied well_named restart.1.
Proof. apply cluster_exec; [|apply restart_named]; apply restart_named. Qed.

Definition fence0 : Fence := mkFence "uid" "rv".

Lemma restart_ok : restart.2 = Ok (pod_name agent).
Proof. by vm_compute. Qed.

Definition restart_pod : Pod := build_pod agent conf (new_generation 7) (desired conf ∅).

Lemma restart_calls :
  restart.1 !! 5 = Some (EvDeletePod (pod_name agent) fence0 (Ok Accepted)) ∧ restart.1 !! 12 = Some (EvCreatePod restart_pod (Ok Created)).
Proof. by vm_compute. Qed.

(** The pods read. *)
Definition got (h : history) : list Pod := omap (λ e, match e with EvGetPod _ (Ok (Some p)) => Some p | _ => None end) h.

Lemma elem_of_got h n pod : EvGetPod n (Ok (Some pod)) ∈ h → pod ∈ got h.
Proof. intros Hin. apply list_elem_of_omap. by exists (EvGetPod n (Ok (Some pod))). Qed.

Lemma restart_got : got (take 5 restart.1) = [reported true false exited].
Proof. by vm_compute. Qed.

Lemma deploy_never_kills_running_witness :
  may_delete agent conf ∅ (take 5 restart.1) (pod_name agent) fence0 ∧ container_running (reported true false exited) = false.
Proof.
  destruct restart_exec as [He Hr]. pose proof (take_drop_middle _ _ _ (proj1 restart_calls)) as Heq.
  apply (deploy_never_kills_running agent conf ∅ 20 restart.1 restart.2 (take 5 restart.1) (pod_name agent) fence0 (Ok Accepted)
    (drop 6 restart.1) (reported true false exited) He Hr (eq_sym Heq) eq_refl eq_refl).
  intros pod Hin%elem_of_got _ _. rewrite restart_got in Hin. by apply list_elem_of_singleton in Hin.
Defined.

Lemma deploy_secret_hygiene_witness :
  may_create agent conf ∅ (take 12 restart.1) restart_pod ∧
  ∃ s, EvCreateSecret s (Ok tt) ∈ take 12 restart.1 ∧ secret_is_ours s agent = true ∧ referenced_secret restart_pod = m_name (s_metadata s).
Proof.
  destruct restart_exec as [He Hr]. pose proof (take_drop_middle _ _ _ (proj2 restart_calls)) as Heq.
  apply (deploy_secret_hygiene agent conf ∅ 20 restart.1 restart.2 (take 12 restart.1) (EvCreatePod restart_pod (Ok Created))
    (drop 13 restart.1) He Hr (eq_sym Heq)).
Defined.

Lemma deploy_success_means_started_witness : started_last agent restart.1 (pod_name agent).
Proof.
  apply (deploy_success_means_started agent conf ∅ 20 restart.1 (pod_name agent)); [|apply restart_exec].
  rewrite <-restart_ok. apply restart_exec.
Defined.

Lemma deploy_terminates_witness :
  let '(es, r) := run ev (cluster_of [] None None Created) (deploy agent conf ∅ (Z.to_nat (DEADLINE + 1))) [] in
  r ≠ Err OutOfFuel ∧ secrets_minted es ≤ 300.
Proof.
  apply (deploy_terminates agent conf ∅ (Z.to_nat (DEADLINE + 1)) (cluster_of [] None None Created)).
  - rewrite Z2Nat.id; [lia|]. by vm_compute.
  - intros h. apply Z.le_refl.
Defined.

(** A deploy that lost the create adopts a running pod that is already being deleted,
    which the loop would wait out. *)
Lemma adopts_dying_pod :
  (demo_run (cluster_of [] None (Some (reported true true running)) AlreadyExists)).2 = Ok (pod_name agent) ∧
  classify (verify (reported true true running) agent Started) "" = AwaitDisappearance (pod_name agent).
Proof. by vm_compute. Qed.

(** The collection lists a terminated pod of the agent, and deletes by name whatever
    terminated pod it finds there next, here one without the management marker. *)
Lemma collects_foreign_pod :
  let r := demo_run (cluster_of [reported true false exited] (Some (reported false false exited)) (Some (reported true false running)) Created) in
  omap (λ e, match e with EvDeletePod n _ _ => Some n | _ => None end) r.1 = [pod_name agent] ∧
  verify (reported false false exited) agent Terminated = None.
Proof. by vm_compute. Qed.

(** Two colons: the tag that is left is part of the name. *)
Lemma image_keeps_a_tag :
  let digest := "@sha256:0123456789abcdef0123456789abcdef0123456789abcdef0123456789abcdef" in
  image_parse ("repo:a:b" +:+ digest) = Ok ("repo:a" +:+ digest) ∧ image_parse ("repo:a" +:+ digest) = Ok ("repo" +:+ digest).
Proof. by vm_compute. Qed.

End KubeDeployDemo.
