(* ===== verification/KubeEnv.v ===== *)
(** * A deploy request ([buzz-backend-kubernetes/src/config.rs], [env.rs], [wire.rs], [main.rs])

    What the provider accepts before it contacts a cluster: the configuration, the
    environment of the agent resolved from three tiers, and the request that carries
    both.  A refused request makes no call to the cluster. *)

From stdpp Require Import base gmap strings list.
From Stdlib Require Import Ascii.
From S2P Require Import Prelude Programs Text Nostr CanonicalJson KubeObjects KubeDeploy.

(** ** Configuration *)

Inductive ConfigError :=
| ConfigNotObject
| NotAString (field : string)
| NotAnInteger (field : string)
| NamespaceRequired
| InvalidNamespace (namespace : string)
| ImageInvalid (e : ImageError)
| IndefiniteLifetime.

Section config.
Context {num : Type} (as_u64 : num → option N).

Definition optional_string (cfg : Json num) (field : string) : result ConfigError (option string) :=
  match json_field cfg field with
  | None | Some JNull => Ok None
  | Some (JString s) => Ok (if decide (trim s = "") then None else Some (trim s))
  | Some _ => Err (NotAString field)
  end.

Definition optional_u64 (cfg : Json num) (field : string) : result ConfigError (option N) :=
  match json_field cfg field with
  | None | Some JNull => Ok None
  | Some (JNumber n) => match as_u64 n with Some x => Ok (Some x) | None => Err (NotAnInteger field) end
  | Some (JString s) =>
      if decide (trim s = "") then Ok None
      else match parse_uint u64_max (trim s) with Some x => Ok (Some x) | None => Err (NotAnInteger field) end
  | Some _ => Err (NotAnInteger field)
  end.

Definition is_ascii_lowercase (c : ascii) : bool := ((97 <=? ascii_code c) && (ascii_code c <=? 122))%N.
Definition is_label_end (c : ascii) : bool := is_ascii_lowercase c || is_ascii_digit c.

Definition head_char (s : string) : option ascii := match s with EmptyString => None | String c _ => Some c end.

Fixpoint last_char (s : string) : option ascii :=
  match s with
  | EmptyString => None
  | String c s => match last_char s with Some d => Some d | None => Some c end
  end.

Definition valid_namespace (name : string) : bool :=
  bool_decide (name ≠ "") && (String.length name <=? 63) &&
  match head_char name with Some c => is_label_end c | None => false end &&
  match last_char name with Some c => is_label_end c | None => false end &&
  str_all (λ c, is_label_end c || bool_decide (c = "-"%char)) name.

Definition config_parse (cfg : Json num) : result ConfigError ProviderConfig :=
  let? _ := match cfg with JObject _ | JNull => Ok tt | _ => Err ConfigNotObject end in
  let? namespace := optional_string cfg "namespace" in
  match namespace with
  | None => Err NamespaceRequired
  | Some namespace =>
      if negb (valid_namespace namespace) then Err (InvalidNamespace namespace)
      else
        let? image := optional_string cfg "image" in
        let? image := map_err ImageInvalid (image_parse (default "" image)) in
        let d := default_resources in
        let? cpu_req := optional_string cfg "cpu_request" in
        let? mem_req := optional_string cfg "memory_request" in
        let? cpu_lim := optional_string cfg "cpu_limit" in
        let? mem_lim := optional_string cfg "memory_limit" in
        let resources := mkResources (default (cpu_request d) cpu_req) (default (memory_request d) mem_req)
                           (default (cpu_limit d) cpu_lim) (default (memory_limit d) mem_lim) in
        let? seconds := optional_u64 cfg "inactivity_seconds" in
        let? seconds := match seconds with
                        | None => Ok (Some DEFAULT_INACTIVITY_SECONDS)
                        | Some 0%N => Err IndefiniteLifetime
                        | Some n => Ok (Some n)
                        end in
        let? context := optional_string cfg "context" in
        let? account := optional_string cfg "service_account" in
        Ok (mkProviderConfig context namespace image resources seconds account)
  end.

End config.

(** ** The environment *)

Record LaunchBlock := mkLaunchBlock {
  lb_command : option string;
  lb_args : list string;
  lb_env : gmap string string;
  lb_policy_env : gmap string string;
  lb_owner_pubkey : option string
}.

Record AgentPayload := mkAgentPayload {
  ap_relay_url : string;
  ap_private_key_nsec : string;
  ap_auth_tag : option string;
  ap_respond_to : option string;
  ap_respond_to_allowlist : option (list string);
  ap_env_vars : gmap string string;
  ap_launch : option LaunchBlock
}.

Inductive EnvError :=
| NotPosixKey (key : string)
| PresenceSuppressed
| NoRelayUrl
| NoOwner
| UnknownGate (respond_to : string)
| EmptyAllowlist
| InvalidAllowlistEntry (entry : string)
| SecretTooLarge (total : nat).

Definition AUTHORITATIVE_KEYS : list string :=
  ["BUZZ_RELAY_URL"; "BUZZ_PRIVATE_KEY"; "NOSTR_PRIVATE_KEY"; "BUZZ_AUTH_TAG"; "BUZZ_ACP_AGENT_OWNER";
   "BUZZ_ACP_AGENT_COMMAND"; "BUZZ_ACP_AGENT_ARGS"; "BUZZ_ACP_RESPOND_TO"; "BUZZ_ACP_RESPOND_TO_ALLOWLIST";
   "BUZZ_ACP_MCP_COMMAND"; "BUZZ_ACP_EXIT_AFTER_INACTIVITY"; START_NONCE_KEY].
Definition FORBIDDEN_KEY : string := "BUZZ_ACP_NO_PRESENCE".
Definition MAX_SECRET_BYTES : nat := Z.to_nat 1048576.

Definition is_posix_env_key (key : string) : bool :=
  match key with
  | EmptyString => false
  | String c rest =>
      (bool_decide (c = "_"%char) || (is_ascii_alphanumeric c && negb (is_ascii_digit c))) &&
      str_all (λ c, bool_decide (c = "_"%char) || is_ascii_alphanumeric c) rest
  end.

Definition identity_component (value : string) : option string :=
  if decide (trim value = "") then None else Some (trim value).

Definition RESPOND_TO_ALLOWLIST : string := "allowlist".
Definition RESPOND_TO_MODES : list string := ["owner-only"; RESPOND_TO_ALLOWLIST; "anyone"; "nobody"].

Fixpoint check_allowlist (entries : list string) : result EnvError unit :=
  match entries with
  | [] => Ok tt
  | entry :: entries =>
      let trimmed := trim entry in
      if negb (bool_decide (String.length trimmed = 64)) || negb (str_all is_ascii_hexdigit trimmed)
      then Err (InvalidAllowlistEntry entry) else check_allowlist entries
  end.

Definition validate_respond_to_gate (respond_to : string) (allowlist : option (list string)) : result EnvError unit :=
  if decide (respond_to ∉ RESPOND_TO_MODES) then Err (UnknownGate respond_to)
  else if decide (respond_to ≠ RESPOND_TO_ALLOWLIST) then Ok tt
  else match default [] allowlist with [] => Err EmptyAllowlist | entries => check_allowlist entries end.

(** The keys of a [BTreeMap], in order, checked one by one. *)
Definition btree_keys (m : gmap string string) : list string := sort_by str_leb (elements (dom m)).

Fixpoint check_keys (keys : list string) : result EnvError unit :=
  match keys with
  | [] => Ok tt
  | key :: keys =>
      if negb (is_posix_env_key key) then Err (NotPosixKey key)
      else if eq_ignore_ascii_case key FORBIDDEN_KEY then Err PresenceSuppressed
      else check_keys keys
  end.

Definition default_launch : LaunchBlock := mkLaunchBlock None [] ∅ ∅ None.
Definition launch_of (a : AgentPayload) : LaunchBlock := default default_launch (ap_launch a).

(** Tiers 1 and 2: [extend] lets the later one win. *)
Definition lower_tiers (a : AgentPayload) : gmap string string :=
  match ap_launch a with Some l => lb_env l | None => ap_env_vars a end ∪ lb_policy_env (launch_of a).

Definition clear_keys (keys : list string) (env : gmap string string) : gmap string string :=
  foldl (λ m k, delete k m) env keys.

Definition insert_some (key : string) (value : option string) (env : gmap string string) : gmap string string :=
  match value with Some v => <[key := v]> env | None => env end.

(** [filter(|s| !s.is_empty())]. *)
Definition non_blank (o : option string) : option string :=
  match o with Some s => if decide (s = "") then None else Some s | None => None end.

Definition joined (l : list string) : option string := match l with [] => None | _ => Some (join_with "," l) end.

(** Tier 3 after the checks, in the order of the source. *)
Definition write_authoritative (a : AgentPayload) (generation : string) (inactivity_seconds : option N) (relay_url : string)
    (env : gmap string string) : gmap string string :=
  let launch := launch_of a in
  let env := <["BUZZ_RELAY_URL" := relay_url]> env in
  let env := <["BUZZ_PRIVATE_KEY" := ap_private_key_nsec a]> env in
  let env := <["NOSTR_PRIVATE_KEY" := ap_private_key_nsec a]> env in
  let env := insert_some "BUZZ_AUTH_TAG" (ap_auth_tag a ≫= identity_component) env in
  let env := insert_some "BUZZ_ACP_AGENT_OWNER" (lb_owner_pubkey launch ≫= identity_component) env in
  let env := insert_some "BUZZ_ACP_AGENT_COMMAND" (non_blank (lb_command launch)) env in
  let env := insert_some "BUZZ_ACP_AGENT_ARGS" (joined (lb_args launch)) env in
  let env := <["BUZZ_ACP_MCP_COMMAND" := "buzz-dev-mcp"]> env in
  let env := insert_some "BUZZ_ACP_RESPOND_TO" (non_blank (ap_respond_to a)) env in
  let env := insert_some "BUZZ_ACP_RESPOND_TO_ALLOWLIST" (joined (default [] (ap_respond_to_allowlist a))) env in
  let env := insert_some "BUZZ_ACP_EXIT_AFTER_INACTIVITY" (num_to_string <$> inactivity_seconds) env in
  <[START_NONCE_KEY := generation]> env.

Definition total_bytes (env : gmap string string) : nat := map_fold (λ _ v n, String.length v + n) 0 env.

Definition build_env (a : AgentPayload) (generation : string) (inactivity_seconds : option N) :
    result EnvError (gmap string string) :=
  let env := lower_tiers a in
  let? _ := check_keys (btree_keys env) in
  match identity_component (ap_relay_url a) with
  | None => Err NoRelayUrl
  | Some relay_url =>
      match ap_auth_tag a ≫= identity_component, lb_owner_pubkey (launch_of a) ≫= identity_component with
      | None, None => Err NoOwner
      | _, _ =>
          let? _ := match non_blank (ap_respond_to a) with
                    | Some gate => validate_respond_to_gate gate (ap_respond_to_allowlist a)
                    | None => Ok tt
                    end in
          let env := write_authoritative a generation inactivity_seconds relay_url (clear_keys AUTHORITATIVE_KEYS env) in
          if decide (MAX_SECRET_BYTES < total_bytes env) then Err (SecretTooLarge (total_bytes env)) else Ok env
      end
  end.

(** ** The request *)

Definition RELAY_MESH_PROVIDER : string := "relay-mesh".

Inductive AgentError :=
| BadConfig (e : ConfigError)
| BadNsec
| BadEnv (e : EnvError)
| NoClient (e : string)
| DeployFailed (e : DeployError).

Inductive RequestError :=
| NotJson (e : string)
| RelayMesh
| NotUnderstood (e : string)
| NoRuntime (e : string)
| AgentFailed (e : AgentError).

(** [wire.rs]; the self-description is the same for every request. *)
Inductive Response :=
| InfoResponse
| DeployResponse (agent_id : string)
| ErrorResponse (error : RequestError).

Section request.
Context `{NostrApi, NsecApi, TemplateDigest} {num : Type} (as_u64 : num → option N).

Record DeployRequest := mkDeployRequest { dr_agent : AgentPayload; dr_provider_config : Json num }.
Inductive Request := Info | Deploy (d : DeployRequest).

(** The JSON reader, the derived decoder of the request, the runtime and [client.rs], which
    opens the connection. *)
Context (from_str : string → result string (Json num)) (from_value : Json num → result string Request)
  (runtime : result string unit) (connect : option string → result string unit).

Definition refuse_relay_mesh (raw : Json num) : bool :=
  match json_field raw "agent" ≫= λ a, json_field a "provider" with
  | Some (JString provider) => bool_decide (trim provider = RELAY_MESH_PROVIDER)
  | _ => false
  end.

Definition deploy_agent (fuel : nat) (request : DeployRequest) : kube (result AgentError string) :=
  match config_parse as_u64 (dr_provider_config request) with
  | Err e => Ret (Err (BadConfig e))
  | Ok cfg =>
      match from_nsec (ap_private_key_nsec (dr_agent request)) with
      | None => Ret (Err BadNsec)
      | Some identity =>
          n ← kube_call RandomU32;
          match build_env (dr_agent request) (new_generation n) (cfg_inactivity_seconds cfg) with
          | Err e => Ret (Err (BadEnv e))
          | Ok env =>
              match connect (cfg_context cfg) with
              | Err e => Ret (Err (NoClient e))
              | Ok _ => r ← deploy identity cfg env fuel; Ret (map_err DeployFailed r)
              end
          end
      end
  end.

Definition respond (fuel : nat) (input : string) : kube Response :=
  match from_str input with
  | Err e => Ret (ErrorResponse (NotJson e))
  | Ok raw =>
      if refuse_relay_mesh raw then Ret (ErrorResponse RelayMesh)
      else
        match from_value raw with
        | Err e => Ret (ErrorResponse (NotUnderstood e))
        | Ok Info => Ret InfoResponse
        | Ok (Deploy request) =>
            match runtime with
            | Err e => Ret (ErrorResponse (NoRuntime e))
            | Ok _ =>
                r ← deploy_agent fuel request;
                Ret (match r with Ok agent_id => DeployResponse agent_id | Err e => ErrorResponse (AgentFailed e) end)
            end
        end
  end.

End request.

(** ** What a launch promises *)

(** What the authoritative tier holds at each of its keys. *)
Definition authoritative (a : AgentPayload) (generation : string) (inactivity_seconds : option N) : list (string * option string) :=
  let launch := launch_of a in
  [("BUZZ_RELAY_URL", Some (trim (ap_relay_url a)));
   ("BUZZ_PRIVATE_KEY", Some (ap_private_key_nsec a));
   ("NOSTR_PRIVATE_KEY", Some (ap_private_key_nsec a));
   ("BUZZ_AUTH_TAG", ap_auth_tag a ≫= identity_component);
   ("BUZZ_ACP_AGENT_OWNER", lb_owner_pubkey launch ≫= identity_component);
   ("BUZZ_ACP_AGENT_COMMAND", non_blank (lb_command launch));
   ("BUZZ_ACP_AGENT_ARGS", joined (lb_args launch));
   ("BUZZ_ACP_RESPOND_TO", non_blank (ap_respond_to a));
   ("BUZZ_ACP_RESPOND_TO_ALLOWLIST", joined (default [] (ap_respond_to_allowlist a)));
   ("BUZZ_ACP_MCP_COMMAND", Some "buzz-dev-mcp");
   ("BUZZ_ACP_EXIT_AFTER_INACTIVITY", num_to_string <$> inactivity_seconds);
   (START_NONCE_KEY, Some generation)].

(** The environment a pod gets: at the authoritative keys the request's own fields and
    nothing else, elsewhere the user's tier over the defaults, with names every cluster
    reads alike, the presence signal left on, an owner who can stop the agent, and no more
    than a Secret may hold. *)
Record launch_env (a : AgentPayload) (generation : string) (seconds : option N) (data : gmap string string) : Prop := {
  le_authoritative k v : (k, v) ∈ authoritative a generation seconds → data !! k = v;
  le_other k : k ∉ AUTHORITATIVE_KEYS → data !! k = lower_tiers a !! k;
  le_keys k : is_Some (data !! k) → is_posix_env_key k = true ∧ eq_ignore_ascii_case k FORBIDDEN_KEY = false;
  le_relay : data !! "BUZZ_RELAY_URL" ≠ Some "";
  le_owner : is_Some (data !! "BUZZ_AUTH_TAG") ∨ is_Some (data !! "BUZZ_ACP_AGENT_OWNER");
  le_gate gate : data !! "BUZZ_ACP_RESPOND_TO" = Some gate → validate_respond_to_gate gate (ap_respond_to_allowlist a) = Ok tt;
  le_size : total_bytes data ≤ MAX_SECRET_BYTES
}.

(** An image that names its content. *)
Definition digest_pinned (image : string) : Prop :=
  ∃ name hex, image = name +:+ "@sha256:" +:+ hex ∧ name ≠ "" ∧ String.length hex = 64 ∧ str_all is_lower_hex hex = true.

(** ** Lemmas *)

Lemma check_keys_Ok keys u : check_keys keys = Ok u →
  Forall (λ k, is_posix_env_key k = true ∧ eq_ignore_ascii_case k FORBIDDEN_KEY = false) keys.
Proof.
  induction keys as [|k keys IH]; cbn [check_keys]; intros Hk; constructor.
  - destruct (is_posix_env_key k); [|done]. by destruct (eq_ignore_ascii_case k FORBIDDEN_KEY).
  - apply IH. destruct (is_posix_env_key k); [|done]. by destruct (eq_ignore_ascii_case k FORBIDDEN_KEY).
Qed.

Lemma elem_of_btree_keys m k : k ∈ btree_keys m ↔ is_Some (m !! k).
Proof. unfold btree_keys. by rewrite sort_by_perm, elem_of_elements, elem_of_dom. Qed.

Lemma lookup_clear ks m k : clear_keys ks m !! k = if decide (k ∈ ks) then None else m !! k.
Proof.
  unfold clear_keys. revert m. induction ks as [|x ks IH]; intros m; cbn [foldl]; [by rewrite decide_False by apply not_elem_of_nil|].
  rewrite IH. destruct (decide (k = x)) as [->|Hne].
  - rewrite lookup_delete_eq. rewrite (decide_True (P := x ∈ x :: ks)) by left. by case_decide.
  - rewrite lookup_delete_ne by done. by do 2 case_decide; set_solver.
Qed.

Lemma lookup_some_eq k v m : m !! k = None → insert_some k v m !! k = v.
Proof. intros Hk. destruct v; simpl; [apply lookup_insert_eq|done]. Qed.

Lemma lookup_some_ne k k' v m : k' ≠ k → insert_some k v m !! k' = m !! k'.
Proof. intros Hk. destruct v; simpl; [|done]. by apply lookup_insert_ne. Qed.

(** Keys apart. *)
Ltac at_key := repeat first
  [ rewrite lookup_insert_eq | rewrite lookup_insert_ne by done
  | rewrite lookup_some_ne by done | rewrite lookup_some_eq ].

Lemma written_authoritative a g s relay m k v :
  relay = trim (ap_relay_url a) → (∀ k, k ∈ AUTHORITATIVE_KEYS → m !! k = None) →
  (k, v) ∈ authoritative a g s → write_authoritative a g s relay m !! k = v.
Proof.
  intros -> Hm Hin. unfold write_authoritative. cbv zeta.
  repeat (apply elem_of_cons in Hin as [[= -> ->]|Hin]; [at_key; try done; at_key; apply Hm; unfold AUTHORITATIVE_KEYS; set_solver|]).
  by apply elem_of_nil in Hin.
Qed.

Lemma written_other a g s relay m k : k ∉ AUTHORITATIVE_KEYS → write_authoritative a g s relay m !! k = m !! k.
Proof.
  unfold AUTHORITATIVE_KEYS. rewrite !not_elem_of_cons. intros Hk. destruct_and! Hk. unfold write_authoritative. cbv zeta.
  at_key. done.
Qed.

Lemma total_insert m k v : m !! k = None → total_bytes (<[k := v]> m) = String.length v + total_bytes m.
Proof. intros Hk. unfold total_bytes. rewrite map_fold_insert_L; [done| |done]. intros. lia. Qed.

(** Replacing a value by one of the same length. *)
Lemma total_restamp m k v v' : m !! k = Some v → String.length v' = String.length v →
  total_bytes (<[k := v']> m) = total_bytes m.
Proof.
  intros Hk Hl. rewrite <-(insert_id m k v Hk) at 2. rewrite <-(insert_delete_eq m k v), <-(insert_delete_eq m k v').
  by rewrite !total_insert, Hl by apply lookup_delete_eq.
Qed.

Lemma length_hex_be k n acc : String.length (hex_be k n acc) = k + String.length acc.
Proof. revert n acc. induction k as [|k IH]; intros n acc; [done|]. cbn [hex_be]. rewrite IH. simpl. lia. Qed.

Lemma length_generation n : String.length (new_generation n) = 8.
Proof. apply length_hex_be. Qed.

Lemma identity_component_Some v w : identity_component v = Some w → w = trim v ∧ w ≠ "".
Proof. unfold identity_component. case_decide; [done|]. by intros [= <-]. Qed.

Lemma authoritative_keys a g s : (authoritative a g s).*1 = AUTHORITATIVE_KEYS.
Proof. done. Qed.

Lemma build_env_spec a g s env : build_env a g s = Ok env → launch_env a g s env.
Proof.
  unfold build_env. cbv zeta. destruct (check_keys _) as [u|] eqn:Hk; [|done]. simpl.
  destruct (identity_component (ap_relay_url a)) as [relay|] eqn:Hr; [|done].
  apply identity_component_Some in Hr as [Hr Hne]. set (cleared := clear_keys AUTHORITATIVE_KEYS (lower_tiers a)).
  assert (∀ k v, (k, v) ∈ authoritative a g s → write_authoritative a g s relay cleared !! k = v) as Hauth.
  { intros k v. apply written_authoritative; [done|]. intros k' Hk'. unfold cleared. rewrite lookup_clear. by rewrite decide_True. }
  assert (∀ k, k ∉ AUTHORITATIVE_KEYS → write_authoritative a g s relay cleared !! k = lower_tiers a !! k) as Hother.
  { intros k Hout. rewrite written_other by done. unfold cleared. rewrite lookup_clear. by rewrite decide_False. }
  assert (∀ k, is_Some (write_authoritative a g s relay cleared !! k) → is_posix_env_key k = true ∧ eq_ignore_ascii_case k FORBIDDEN_KEY = false) as Hkeys.
  { intros k Hs. destruct (decide (k ∈ AUTHORITATIVE_KEYS)) as [Hin|Hout].
    - revert Hin. unfold AUTHORITATIVE_KEYS. rewrite !elem_of_cons, elem_of_nil. intros Hin.
      repeat destruct Hin as [->|Hin]; [by vm_compute..|done].
    - rewrite Hother in Hs by done. apply check_keys_Ok, Forall_forall with (x := k) in Hk; [done|]. by apply elem_of_btree_keys. }
  assert (∀ k v, (k, v) ∈ authoritative a g s → is_Some v → is_Some (write_authoritative a g s relay cleared !! k)) as Hsome
    by (intros k v Hin ?; by rewrite (Hauth k v Hin)).
  intros Hb. 
  assert (∃ u, (match non_blank (ap_respond_to a) with Some gate => validate_respond_to_gate gate (ap_respond_to_allowlist a) | None => Ok tt end) = Ok u ∧
    (is_Some (ap_auth_tag a ≫= identity_component) ∨ is_Some (lb_owner_pubkey (launch_of a) ≫= identity_component)) ∧
    env = write_authoritative a g s relay cleared ∧ total_bytes env ≤ MAX_SECRET_BYTES) as ([] & Hgate & Howner & -> & Hsize).
  { destruct (ap_auth_tag a ≫= identity_component), (lb_owner_pubkey (launch_of a) ≫= identity_component); try done;
      destruct (match non_blank (ap_respond_to a) with Some _ => _ | None => _ end) as [w|]; try done; simpl in Hb;
      case_decide; try done; injection Hb as <-; exists w; split_and!; eauto; lia. }
  constructor; try done.
  - rewrite (Hauth _ _ (list_elem_of_lookup_2 (authoritative a g s) 0 (_, _) eq_refl)). congruence.
  - destruct Howner as [Ho|Ho]; [left; apply (Hsome _ _ (list_elem_of_lookup_2 (authoritative a g s) 3 (_, _) eq_refl) Ho)|].
    right. apply (Hsome _ _ (list_elem_of_lookup_2 (authoritative a g s) 4 (_, _) eq_refl) Ho).
  - intros gate. rewrite (Hauth _ _ (list_elem_of_lookup_2 (authoritative a g s) 7 (_, _) eq_refl)). intros Hg. by rewrite Hg in Hgate.
Qed.

Lemma restamped a g g' s env : launch_env a g s env → String.length g' = String.length g →
  launch_env a g' s (<[START_NONCE_KEY := g']> env).
Proof.
  intros [Ha Ho Hk Hr Hw Hg Hs] Hl.
  assert (env !! START_NONCE_KEY = Some g) as Hn by apply (Ha _ _ (list_elem_of_lookup_2 (authoritative a g s) 11 (_, _) eq_refl)).
  constructor.
  - intros k v Hin. change (authoritative a g' s) with (take 11 (authoritative a g s) ++ [(START_NONCE_KEY, Some g')]) in Hin.
    apply elem_of_app in Hin as [Hin|[= -> ->]%list_elem_of_singleton]; [|apply lookup_insert_eq].
    rewrite lookup_insert_ne; [by eapply Ha, subseteq_take|]. intros <-. apply (list_elem_of_fmap_2 fst) in Hin.
    revert Hin. change (START_NONCE_KEY ∉ take 11 AUTHORITATIVE_KEYS). by apply (bool_decide_unpack _).
  - intros k Hout. rewrite lookup_insert_ne; [by auto|]. intros <-. apply Hout. by repeat constructor.
  - intros k. destruct (decide (k = START_NONCE_KEY)) as [->|Hne]; [intros _; apply Hk; by rewrite Hn|].
    rewrite lookup_insert_ne by done. apply Hk.
  - by rewrite lookup_insert_ne.
  - by rewrite !lookup_insert_ne.
  - intros gate. rewrite lookup_insert_ne by done. apply Hg.
  - by rewrite (total_restamp env START_NONCE_KEY g).
Qed.

Lemma image_parse_pinned raw image : image_parse raw = Ok image → digest_pinned image.
Proof.
  unfold image_parse. cbv zeta. case_decide; [done|]. destruct (split_on _ _) as [|nt [|digest [|??]]]; try done.
  destruct (strip_prefix "sha256:" digest) as [hex|]; [|done].
  destruct (bool_decide (String.length hex = 64)) eqn:Hl; [|done]. apply bool_decide_eq_true in Hl.
  destruct (str_all is_lower_hex hex) eqn:Hh; [|done]. simpl. case_decide; [done|]. intros [= <-]. by exists (strip_tag nt), hex.
Qed.

Lemma config_parse_Ok {num} (as_u64 : num → option N) v cfg : config_parse as_u64 v = Ok cfg →
  digest_pinned (cfg_image cfg) ∧ valid_namespace (cfg_namespace cfg) = true ∧
  ∃ n, cfg_inactivity_seconds cfg = Some n ∧ (0 < n)%N.
Proof.
  unfold config_parse. cbv zeta. intros Hc.
  repeat match type of Hc with
  | (match ?r with Ok _ => _ | Err _ => _ end) = _ => destruct r eqn:?; [|done]
  end.
  match type of Hc with (match ?o with Some _ => _ | None => _ end) = _ => destruct o as [ns|]; [|done] end.
  destruct (valid_namespace ns) eqn:Hns; [|done]. simpl in Hc.
  repeat match type of Hc with
  | (match ?r with Ok _ => _ | Err _ => _ end) = _ => destruct r eqn:?; [|done]
  end.
  injection Hc as <-. simpl. split_and!; [|done|].
  - eapply image_parse_pinned, map_err_Ok. eassumption.
  - repeat case_match; simplify_eq; eexists; split; (done || by vm_compute).
Qed.

(** ** A request from end to end *)

Section launch.
Context `{NostrApi, NsecApi, TemplateDigest} {num : Type} (as_u64 : num → option N)
  (from_str : string → result string (Json num)) (from_value : Json num → result string (@Request num))
  (runtime : result string unit) (connect : option string → result string unit).

(** A request that reaches the cluster. *)
Definition accepted (input : string) (request : @DeployRequest num) (cfg : ProviderConfig) (i : AgentIdentity) : Prop :=
  (∃ raw, from_str input = Ok raw ∧ refuse_relay_mesh raw = false ∧ from_value raw = Ok (Deploy request)) ∧
  config_parse as_u64 (dr_provider_config request) = Ok cfg ∧
  from_nsec (ap_private_key_nsec (dr_agent request)) = Some i.

Lemma exec_deploy_agent fuel request es r :
  exec ev (deploy_agent as_u64 connect fuel request) es r →
  (∀ e, e ∈ es → ∃ n, e = EvRandom n) ∨
  ∃ cfg i n env es' r', config_parse as_u64 (dr_provider_config request) = Ok cfg ∧
    from_nsec (ap_private_key_nsec (dr_agent request)) = Some i ∧
    build_env (dr_agent request) (new_generation n) (cfg_inactivity_seconds cfg) = Ok env ∧
    es = EvRandom n :: es' ∧ exec ev (deploy i cfg env fuel) es' r'.
Proof.
  unfold deploy_agent. destruct (config_parse _ _) as [cfg|]; [|intros [-> _]; left; set_solver].
  destruct (from_nsec _) as [i|]; [|intros [-> _]; left; set_solver]. intros (n & es' & -> & He). cbn [ev] in *.
  cbn -[exec deploy build_env] in He.
  destruct (build_env _ _ _) as [env|] eqn:Hb; [|destruct He as [-> _]; left; set_solver].
  destruct (connect _); [|destruct He as [-> _]; left; set_solver].
  apply exec_bind in He as (es1 & es2 & r' & -> & He & [-> _]). rewrite app_nil_r. right. by exists cfg, i, n, env, es1, r'.
Qed.

(** C24: a request reaches the cluster only if it parses, is not one for shared compute, and
    has a valid configuration and key; and then every pod created for it runs the image
    the request pins by digest, and takes its environment from the Secret created right
    before it, whose authoritative keys hold the request's own values whatever the lower
    tiers say, and whose correlator is the generation of that very attempt. *)
Theorem launched_as_requested fuel input es r before e rest :
  exec ev (respond as_u64 from_str from_value runtime connect fuel input) es r → relied well_named es →
  es = before ++ e :: rest → (∀ n, e ≠ EvRandom n) →
  ∃ request cfg i, accepted input request cfg i ∧
    digest_pinned (cfg_image cfg) ∧ valid_namespace (cfg_namespace cfg) = true ∧
    match e with
    | EvCreatePod pod _ =>
        ∃ generation data fp, last before = Some (EvCreateSecret (build_secret i (cfg_namespace cfg) generation data) (Ok tt)) ∧
          launch_env (dr_agent request) generation (cfg_inactivity_seconds cfg) data ∧
          pod = build_pod i cfg generation fp
    | _ => True
    end.
Proof.
  unfold respond. intros He Hr Heq Hrand.
  assert (e ∈ es) as Hin by (rewrite Heq; set_solver).
  assert (∀ a, exec ev (Ret a) es r → False) as Hret by (intros a [Hnil _]; rewrite Hnil in Hin; by apply elem_of_nil in Hin).
  destruct (from_str input) as [raw|] eqn:Hraw; [|by apply Hret in He].
  destruct (refuse_relay_mesh raw) eqn:Hmesh; [by apply Hret in He|].
  destruct (from_value raw) as [[|request]|] eqn:Hreq; [by apply Hret in He| |by apply Hret in He].
  destruct runtime; [|by apply Hret in He].
  apply exec_bind in He as (es1 & es2 & a0 & Hes & He & [-> _]). rewrite app_nil_r in Hes. subst es1.
  apply exec_deploy_agent in He as [Hno|(cfg & i & n & env & es' & r' & Hc & Hi & Hb & -> & He)].
  { destruct (Hno e Hin) as [n ->]. by destruct (Hrand n). }
  destruct (config_parse_Ok _ _ _ Hc) as (Himg & Hns & _).
  exists request, cfg, i. split; [split; [by exists raw|done]|]. split; [done|]. split; [done|].
  destruct e as [| | | | |pod reply| | | | | |]; try done.
  destruct before as [|e0 before]; [done|]. injection Heq as <- ->.
  assert (relied well_named (before ++ EvCreatePod pod reply :: rest)) as Hr'.
  { intros h e0 rest0 Heq. apply (Hr (EvRandom n :: h) e0 rest0). by rewrite Heq. }
  destruct (deploy_guarantee i cfg env fuel _ r' before _ rest He Hr' eq_refl) as (h0 & m & -> & ->).
  eexists _, _, _. split; [by rewrite app_comm_cons, last_app|]. split; [|done].
  eapply restamped; [by apply build_env_spec|]. by rewrite !length_generation.
Qed.

End launch.

(** ** Witnesses *)

Module KubeEnvDemo.

Definition key : string := "0123456789abcdef0123456789abcdef0123456789abcdef0123456789abcdef".

#[local] Instance demo_api : NostrApi :=
  { tag_kind := λ _, ""; tag_content := λ _, None; tag_is_letter := λ _ _, false; slt_to_string := λ _, "";
    id_to_hex := λ _, key; uuid_to_string := λ _, "" }.
#[local] Instance demo_nsec : NsecApi := λ s, if decide (s = "nsec1example") then Some 1%N else None.
#[local] Instance demo_digest : TemplateDigest := KubeDeployDemo.digest.

(** A launch block that tries to take over the identity and the correlator. *)
Definition launch : LaunchBlock :=
  mkLaunchBlock (Some "goose") ["a"; "b"]
    {["BUZZ_RELAY_URL" := "wss://attacker"; "GOOSE_MODE" := "chat"; "BUZZ_ACP_RESPOND_TO" := "anyone"]}
    {["GOOSE_MODE" := "auto"; "MODEL" := "m"; START_NONCE_KEY := "forged"]} (Some " beef ").
Definition payload : AgentPayload :=
  mkAgentPayload " wss://relay " "nsec1example" (Some "  ") None None {["IGNORED" := "x"]} (Some launch).
Definition provider_config : Json N :=
  JObject [("image", JString ("ghcr.io/x/agent:v1@sha256:" +:+ key)); ("inactivity_seconds", JString " 60 ");
           ("namespace", JString "agents")].

Definition reader (s : string) : result string (Json N) := if decide (s = "") then Err "eof" else Ok (JObject []).
Definition decoder (_ : Json N) : result string (@Request N) := Ok (Deploy (mkDeployRequest payload provider_config)).
Definition demo : kube Response := respond Some reader decoder (Ok tt) (λ _, Ok tt) 20 "{}".

Definition fresh_cluster := KubeDeployDemo.cluster_of [] None
  (Some (KubeDeployDemo.reported true false KubeDeployDemo.running)) Created.
Definition demo_run := run ev fresh_cluster demo [].

Lemma demo_exec : exec ev demo demo_run.1 demo_run.2 ∧ relied well_named demo_run.1.
Proof. apply KubeDeployDemo.cluster_exec; [done|apply KubeDeployDemo.restart_named]. Qed.

Lemma demo_ends : demo_run.2 = DeployResponse (pod_name KubeDeployDemo.agent).
Proof. by vm_compute. Qed.

Definition the_pod : Pod :=
  match demo_run.1 !! 8 with Some (EvCreatePod p _) => p | _ => mkPod (mkMeta None None None None None None None None) None None end.

Lemma demo_creates : demo_run.1 !! 8 = Some (EvCreatePod the_pod (Ok Created)).
Proof. by vm_compute. Qed.

Lemma launched_as_requested_witness :
  ∃ request cfg i, accepted Some reader decoder "{}" request cfg i ∧
    digest_pinned (cfg_image cfg) ∧ valid_namespace (cfg_namespace cfg) = true ∧
    ∃ generation data fp,
      last (take 8 demo_run.1) = Some (EvCreateSecret (build_secret i (cfg_namespace cfg) generation data) (Ok tt)) ∧
      launch_env (dr_agent request) generation (cfg_inactivity_seconds cfg) data ∧ the_pod = build_pod i cfg generation fp.
Proof.
  destruct demo_exec as [He Hr]. pose proof (take_drop_middle _ _ _ demo_creates) as Heq.
  apply (launched_as_requested Some reader decoder (Ok tt) (λ _, Ok tt) 20 "{}" demo_run.1 demo_run.2 (take 8 demo_run.1)
    (EvCreatePod the_pod (Ok Created)) (drop 9 demo_run.1) He Hr (eq_sym Heq)). done.
Defined.

(** The values of the Secret of that launch. *)
Lemma demo_secret :
  match demo_run.1 !! 7 with
  | Some (EvCreateSecret s _) =>
      match s_string_data s with
      | Some data => ((data !!.) <$> ["BUZZ_RELAY_URL"; "GOOSE_MODE"; "MODEL"; "BUZZ_ACP_RESPOND_TO"; START_NONCE_KEY; "IGNORED"])
          = [Some "wss://relay"; Some "chat"; Some "m"; None; Some "00000007"; None]
      | None => False
      end
  | _ => False
  end.
Proof. by vm_compute. Qed.

End KubeEnvDemo.
