(* ===== verification/WorkflowSchema.v ===== *)
(** * Workflow definitions and templates ([buzz-workflow/src/schema.rs], [executor.rs])

    What a workflow is, when a definition is valid, and how the templates of its actions
    are expanded.  [WorkflowRun] runs them.  The main results are that validation accepts
    exactly the definitions of a grammar of their own ([valid_def], [step_name],
    [duration_text], [cron_text]), and that a template, literals and placeholders, expands
    to what it stands for ([expands], [stands_for], [names], [filtered]): relations that
    use none of the functions of the code. *)

From stdpp Require Import base gmap strings list.
From Stdlib Require Import Ascii.
From Stdlib.Strings Require Import Byte.
From S2P Require Import Prelude Text Nostr CanonicalJson.

(** ** Errors *)

(** [error.rs]; of the messages the fixed text. *)
Inductive WorkflowError :=
| InvalidYaml (e : string)
| InvalidDefinition (why : string)
| ConditionError (why : string)
| TemplateError (why : string)
| StepTimeout (step_id : string) (timeout_secs : N)
| WebhookError (why : string)
| CapacityExceeded
| Database (e : string)
| Unauthorized (why : string)
| NotImplemented (action : string).

Definition error_code (e : WorkflowError) : string :=
  match e with
  | InvalidYaml _ => "invalid_yaml"
  | InvalidDefinition _ => "invalid_definition"
  | ConditionError _ => "condition_evaluation_failed"
  | TemplateError _ => "template_resolution_failed"
  | StepTimeout _ _ => "step_timeout"
  | WebhookError _ => "webhook_failed"
  | CapacityExceeded => "capacity_exceeded"
  | Database _ => "database_error"
  | Unauthorized _ => "owner_unauthorized"
  | NotImplemented _ => "action_not_implemented"
  end.

(** ** Definitions *)

Inductive TriggerDef :=
| MessagePosted (filter : option string)
| ReactionAdded (emoji filter : option string)
| DiffPosted (filter : option string)
| Schedule (cron interval : option string)
| Webhook.

Inductive ActionDef :=
| SendMessage (text : string) (channel : option string) (reply_in_thread : bool)
| SendDm (to text : string)
| SetChannelTopic (topic : string)
| AddReaction (emoji : string)
| CallWebhook (url : string) (method : option string) (headers : option (gmap string string)) (body : option string)
| RequestApproval (from message : string) (timeout : option string)
| Delay (duration : string).

Record Step := mkStep {
  st_id : string;
  st_name : option string;
  st_if_expr : option string;
  st_timeout_secs : option N;
  st_action : ActionDef
}.

Record WorkflowDef := mkWorkflowDef {
  wd_name : string;
  wd_description : option string;
  wd_trigger : TriggerDef;
  wd_steps : list Step;
  wd_enabled : bool
}.

Definition is_call_webhook (a : ActionDef) : bool := match a with CallWebhook _ _ _ _ => true | _ => false end.

Definition requires_elevated_authority (def : WorkflowDef) : bool :=
  existsb (λ s, is_call_webhook (st_action s)) (wd_steps def).

(** ** Durations and schedules *)

Definition checked_mul (a b : N) : option N := if (a * b <=? u64_max)%N then Some (a * b)%N else None.

Definition parse_duration_secs (raw : string) : result WorkflowError N :=
  let duration := trim raw in
  let invalid := Err (InvalidDefinition "invalid duration") in
  let scaled n k :=
    match parse_uint u64_max (trim n) with
    | None => invalid
    | Some x => match checked_mul x k with Some y => Ok y | None => Err (InvalidDefinition "duration overflow") end
    end in
  match strip_suffix "h" duration with
  | Some n => scaled n 3600%N
  | None =>
      match strip_suffix "m" duration with
      | Some n => scaled n 60%N
      | None =>
          match strip_suffix "s" duration with
          | Some n => match parse_uint u64_max (trim n) with Some x => Ok x | None => invalid end
          | None => match parse_uint u64_max duration with Some x => Ok x | None => invalid end
          end
      end
  end.

(** [split_whitespace().count()]. *)
Fixpoint skip_word (l : bytes) : bytes :=
  match l with
  | [] => []
  | _ :: r => if decide (trim_start l = l) then skip_word r else l
  end.

Fixpoint count_words (fuel : nat) (l : bytes) : nat :=
  match fuel, trim_start l with
  | S fuel, (_ :: _) as w => S (count_words fuel (skip_word w))
  | _, _ => 0
  end.

Definition normalize_cron (expr : string) : string :=
  match count_words (String.length expr) (bytes_of_str expr) with
  | 5 => "0 " +:+ expr +:+ " *"
  | 6 => expr +:+ " *"
  | _ => expr
  end.

(** The [cron] crate: a schedule, and its first instant after another, in nanoseconds. *)
Class CronApi := {
  cron_schedule : Type;
  cron_parse : string → option cron_schedule;
  cron_next : cron_schedule → Z → option Z
}.

Section validate.
Context `{CronApi}.

Definition validate_cron (expr : string) : result WorkflowError unit :=
  match cron_parse (normalize_cron expr) with
  | Some _ => Ok tt
  | None => Err (InvalidDefinition "invalid cron expression")
  end.

Definition is_id_char (c : ascii) : bool := is_ascii_alphanumeric c || bool_decide (c = "_"%char).

Definition valid_step_id (id : string) : bool :=
  bool_decide (id ≠ "") && (String.length id <=? 64) && str_all is_id_char id.

Fixpoint check_ids (seen : gset string) (steps : list Step) : result WorkflowError unit :=
  match steps with
  | [] => Ok tt
  | s :: steps =>
      if decide (trim (st_id s) = "") then Err (InvalidDefinition "step id must not be empty")
      else if negb (valid_step_id (st_id s)) then Err (InvalidDefinition "step id is invalid")
      else if decide (st_id s ∈ seen) then Err (InvalidDefinition "duplicate step id")
      else check_ids ({[st_id s]} ∪ seen) steps
  end.

Definition trigger_has_message (t : TriggerDef) : bool :=
  match t with MessagePosted _ | ReactionAdded _ _ | DiffPosted _ => true | Schedule _ _ | Webhook => false end.

Definition replies_in_thread (a : ActionDef) : bool := match a with SendMessage _ _ true => true | _ => false end.

Definition check_schedule (t : TriggerDef) : result WorkflowError unit :=
  match t with
  | Schedule cron interval =>
      match cron, interval with
      | None, None => Err (InvalidDefinition "schedule trigger requires either 'cron' or 'interval'")
      | Some _, Some _ => Err (InvalidDefinition "schedule trigger cannot specify both 'cron' and 'interval'")
      | Some expr, None => validate_cron expr
      | None, Some dur =>
          match parse_duration_secs dur with
          | Err _ => Err (InvalidDefinition "invalid interval")
          | Ok secs => if (secs <? 60)%N then Err (InvalidDefinition "interval must be at least 60s") else Ok tt
          end
      end
  | _ => Ok tt
  end.

Definition validate (def : WorkflowDef) : result WorkflowError unit :=
  if decide (trim (wd_name def) = "") then Err (InvalidDefinition "name is required and must not be empty")
  else if decide (wd_steps def = []) then Err (InvalidDefinition "at least one step is required")
  else
    let? _ := check_ids ∅ (wd_steps def) in
    if negb (trigger_has_message (wd_trigger def)) && existsb (λ s, replies_in_thread (st_action s)) (wd_steps def)
    then Err (InvalidDefinition "reply_in_thread requires a message-based trigger")
    else check_schedule (wd_trigger def).

(** [parse_yaml]: the reader and the writer are [serde]'s. *)
Definition parse_yaml (from_str : string → result string WorkflowDef) (to_string : WorkflowDef → result string string)
    (yaml : string) : result WorkflowError (WorkflowDef * string) :=
  let? def := map_err InvalidYaml (from_str yaml) in
  let? _ := validate def in
  let? json := map_err InvalidDefinition (to_string def) in
  Ok (def, json).

(** ** Validity *)

(** The texts a definition may hold, by their grammars: the name of a step, a duration,
    and a cron expression with the seconds and the year that are added to it. *)
Definition id_chars : string := "ABCDEFGHIJKLMNOPQRSTUVWXYZabcdefghijklmnopqrstuvwxyz0123456789_".

Definition step_name (id : string) : Prop :=
  1 ≤ String.length id ≤ 64 ∧
  Forall (λ c, c ∈ String.list_ascii_of_string id_chars) (String.list_ascii_of_string id).

Inductive duration_text : string → N → Prop :=
| duration_hours d n x : d = n +:+ "h" → numeral u64_max (trim n) x → (x * 3600 ≤ u64_max)%N → duration_text d (x * 3600)
| duration_minutes d n x : d = n +:+ "m" → numeral u64_max (trim n) x → (x * 60 ≤ u64_max)%N → duration_text d (x * 60)
| duration_seconds d n x : d = n +:+ "s" → numeral u64_max (trim n) x → duration_text d x
| duration_bare d x : numeral u64_max d x → duration_text d x.

Inductive cron_text (expr : string) : string → Prop :=
| cron_minutes : worded (bytes_of_str expr) 5 → cron_text expr ("0 " +:+ expr +:+ " *")
| cron_seconds : worded (bytes_of_str expr) 6 → cron_text expr (expr +:+ " *")
| cron_whole n : worded (bytes_of_str expr) n → n ≠ 5 → n ≠ 6 → cron_text expr expr.

Record valid_def (def : WorkflowDef) : Prop := {
  vd_name : trim (wd_name def) ≠ "";
  vd_steps : wd_steps def ≠ [];
  vd_ids : Forall (λ s, step_name (st_id s)) (wd_steps def);
  vd_unique : NoDup (st_id <$> wd_steps def);
  vd_reply step text channel : step ∈ wd_steps def → st_action step = SendMessage text channel true →
    wd_trigger def ≠ Webhook ∧ ∀ cron interval, wd_trigger def ≠ Schedule cron interval;
  vd_schedule cron interval : wd_trigger def = Schedule cron interval →
    (∃ expr full, cron = Some expr ∧ interval = None ∧ cron_text expr full ∧ is_Some (cron_parse full)) ∨
    (∃ dur secs, cron = None ∧ interval = Some dur ∧ duration_text (trim dur) secs ∧ (60 ≤ secs)%N)
}.

Lemma count_words_blank fuel b l : blank b → count_words fuel (b ++ l) = count_words fuel l.
Proof. intros Hb. destruct fuel as [|fuel]; [done|]. cbn [count_words]. by rewrite trim_start_blank. Qed.

Lemma not_blank_trim l : ¬ starts_blank l → trim_start l = l.
Proof. intros Hn. destruct (trim_start_cases l) as [(b & r & ? & ->)|[? _]]; [|done]. destruct Hn. by exists b, r. Qed.

Lemma skip_word_at l : l = [] ∨ starts_blank l → skip_word l = l.
Proof. intros [->|Hs]; [done|]. pose proof (starts_blank_trim l Hs). destruct l; [done|]. cbn [skip_word]. by rewrite decide_False. Qed.

Lemma skip_word_app w l :
  (∀ x y, w = x ++ y → y ≠ [] → ¬ starts_blank (y ++ l)) → l = [] ∨ starts_blank l → skip_word (w ++ l) = l.
Proof.
  intros Hw Hl. induction w as [|a w IH]; [by apply skip_word_at|]. cbn [app skip_word].
  rewrite decide_True by (apply not_blank_trim, (Hw [] (a :: w)); done).
  apply IH. intros x y -> Hy. by apply (Hw (a :: x) y).
Qed.

Lemma worded_count l n : worded l n → ∀ fuel, length l ≤ fuel → count_words fuel l = n.
Proof.
  induction 1 as [|b l n Hb _ IH|w l n Hne Hw Hl _ IH]; intros fuel Hf; [by destruct fuel|..]; rewrite length_app in Hf.
  - rewrite count_words_blank by done. apply IH. lia.
  - assert (0 < length w) by (destruct w; [done|simpl; lia]). destruct fuel as [|fuel]; [lia|]. cbn [count_words].
    rewrite not_blank_trim by (by apply (Hw [] w)). destruct (w ++ l) eqn:E; [destruct w; done|]. rewrite <-E.
    rewrite skip_word_app by done. f_equal. apply IH. lia.
Qed.

Lemma skip_word_split l : ∃ w, l = w ++ skip_word l ∧
  (∀ x y, w = x ++ y → y ≠ [] → ¬ starts_blank (y ++ skip_word l)) ∧ (skip_word l = [] ∨ starts_blank (skip_word l)).
Proof.
  induction l as [|a l (w & Hl & Hw & Hs)]; [exists []; split_and!; [done|by intros [] ? ? ?|by left]|].
  cbn [skip_word]. destruct (trim_start_cases (a :: l)) as [(b & r & Hb & E)|[E Hn]].
  - assert (starts_blank (a :: l)) as Hst by (by exists b, r). rewrite decide_False by (by apply starts_blank_trim).
    exists []. split_and!; [done|by intros [] ? ? ?|by right].
  - rewrite decide_True by done. exists (a :: w). split_and!; [by rewrite Hl at 1| |done].
    intros [|a' x] y Hx Hy; simplify_eq/=; [by rewrite <-Hl|by eapply Hw].
Qed.

Lemma worded_total l : ∃ n, worded l n.
Proof.
  induction l as [l IH] using (induction_ltof1 _ length). unfold ltof in IH.
  destruct l as [|a l]; [eexists; constructor|]. destruct (trim_start_cases (a :: l)) as [(b & r & Hb & E)|[_ Hn]].
  - destruct (IH r) as [n ?]; [|rewrite E; by exists n; constructor]. rewrite E, length_app. destruct Hb; simpl; lia.
  - destruct (skip_word_split (a :: l)) as (w & Hl & Hw & Hs). set (r := skip_word _) in *. rewrite Hl.
    assert (w ≠ []) as Hne.
    { intros ->. destruct Hs as [Hs|Hs]; [by rewrite Hs in Hl|]. simpl in Hl. by rewrite <-Hl in Hs. }
    destruct (IH r) as [n ?]; [|exists (S n); by constructor]. rewrite Hl, length_app. destruct w; [done|simpl; lia].
Qed.

Lemma normalize_cron_text expr full : normalize_cron expr = full ↔ cron_text expr full.
Proof.
  destruct (worded_total (bytes_of_str expr)) as [n Hn].
  assert (∀ m, worded (bytes_of_str expr) m → count_words (String.length expr) (bytes_of_str expr) = m) as Hc.
  { intros m Hm. apply worded_count; [done|]. by rewrite length_bytes. }
  unfold normalize_cron. split.
  - rewrite (Hc n Hn). destruct n as [|[|[|[|[|[|[|n]]]]]]]; intros <-; try (by constructor); by eapply cron_whole.
  - intros [Hm|Hm|m Hm H5 H6]; rewrite (Hc _ Hm); [done..|]. by destruct m as [|[|[|[|[|[|[|m]]]]]]].
Qed.

Lemma numeral_strip max d x c : numeral max d x → is_ascii_digit c = false → c ≠ "+"%char → strip_suffix (String c "") d = None.
Proof.
  intros (ds & Hd & _ & Hall & _) Hc Hp. destruct (strip_suffix _ d) eqn:E; [|done]. apply strip_suffix_contains in E.
  set (f c := is_ascii_digit c || bool_decide (c = "+"%char)).
  assert (str_all f ds = true) as Hf.
  { clear -Hall. induction ds as [|a ds IH]; [done|]. simpl in *. apply andb_true_iff in Hall as [Ha ?]. unfold f at 1. rewrite Ha. by apply IH. }
  assert (str_all f d = true) as Hf'.
  { destruct Hd as [->| ->]; [done|]. rewrite str_all_app, Hf. reflexivity. }
  assert (str_contains c d = false); [|congruence]. apply (str_all_contains f); [done|].
  unfold f. by rewrite Hc, bool_decide_eq_false_2.
Qed.

Lemma parse_duration_text raw secs : parse_duration_secs raw = Ok secs ↔ duration_text (trim raw) secs.
Proof.
  unfold parse_duration_secs. cbv zeta. split.
  - destruct (strip_suffix "h" (trim raw)) as [n|] eqn:Eh; [|destruct (strip_suffix "m" (trim raw)) as [n|] eqn:Em;
      [|destruct (strip_suffix "s" (trim raw)) as [n|] eqn:Es]].
    1-3: destruct (parse_uint u64_max (trim n)) as [x|] eqn:Ep; [|done]; apply parse_uint_numeral in Ep.
    + unfold checked_mul. destruct (N.leb_spec (x * 3600) u64_max); [|done]. intros [= <-].
      by apply (duration_hours _ n); [apply strip_suffix_Some|..].
    + unfold checked_mul. destruct (N.leb_spec (x * 60) u64_max); [|done]. intros [= <-].
      by apply (duration_minutes _ n); [apply strip_suffix_Some|..].
    + intros [= <-]. by apply (duration_seconds _ n); [apply strip_suffix_Some|].
    + destruct (parse_uint u64_max (trim raw)) eqn:Ep; [|done]. intros [= <-]. apply duration_bare. by apply parse_uint_numeral.
  - generalize (trim raw). intros d [? n x -> Hn Hx|? n x -> Hn Hx|? n x -> Hn|? x Hn].
    + rewrite strip_last, decide_True by done. apply parse_uint_numeral in Hn. rewrite Hn. unfold checked_mul. by rewrite (proj2 (N.leb_le _ _) Hx).
    + rewrite strip_last, decide_False by done. rewrite strip_last, decide_True by done. apply parse_uint_numeral in Hn. rewrite Hn.
      unfold checked_mul. by rewrite (proj2 (N.leb_le _ _) Hx).
    + rewrite !strip_last, !decide_False by done. rewrite decide_True by done. apply parse_uint_numeral in Hn. by rewrite Hn.
    + rewrite !(numeral_strip _ _ _ _ Hn) by done. apply parse_uint_numeral in Hn. by rewrite Hn.
Qed.

Lemma id_char_iff c : is_id_char c = true ↔ c ∈ String.list_ascii_of_string id_chars.
Proof.
  rewrite <-(bool_decide_eq_true (c ∈ _)). assert (is_id_char c = bool_decide (c ∈ String.list_ascii_of_string id_chars)) as ->; [|done].
  by destruct c as [[] [] [] [] [] [] [] []]; vm_compute.
Qed.

Lemma valid_step_name id : trim id ≠ "" ∧ valid_step_id id = true ↔ step_name id.
Proof.
  unfold valid_step_id, step_name. rewrite !andb_true_iff, bool_decide_eq_true, Nat.leb_le, str_all_forall. setoid_rewrite id_char_iff. split.
  - intros (_ & (Hne & ?) & ?). split; [|done]. destruct id; [done|]. simpl in *. lia.
  - intros ([Hl ?] & Hall). split; [|destruct id; [simpl in Hl; lia|done]]. rewrite trim_graphic; [destruct id; [simpl in Hl; lia|done]|].
    apply (bytes_of_str_forall is_id_char); [intros c; by destruct c as [[] [] [] [] [] [] [] []]; vm_compute|].
    apply str_all_forall. by setoid_rewrite id_char_iff.
Qed.

Lemma check_ids_Ok seen steps : check_ids seen steps = Ok tt ↔
  Forall (λ s, step_name (st_id s)) steps ∧ NoDup (st_id <$> steps) ∧
  ∀ s, s ∈ steps → st_id s ∉ seen.
Proof.
  revert seen. induction steps as [|s steps IH]; intros seen; cbn [check_ids].
  { split; [|done]. intros _. split; [done|]. split; [constructor|]. intros s []%elem_of_nil. }
  rewrite Forall_cons. cbn [fmap list_fmap]. rewrite NoDup_cons. case_decide as Ht.
  { split; [done|]. by intros [[[Hn _]%valid_step_name _] _]. }
  destruct (valid_step_id (st_id s)) eqn:Hv; simpl; [|by split; [|intros [[[_ ?]%valid_step_name _] _]; congruence]].
  assert (step_name (st_id s)) as Hname by (by apply valid_step_name).
  case_decide as Hs.
  { split; [done|]. intros (_ & _ & Hx). destruct (Hx s); [by left|done]. }
  rewrite IH. setoid_rewrite elem_of_cons. setoid_rewrite not_elem_of_union. setoid_rewrite not_elem_of_singleton.
  split.
  - intros (Hf & Hn & Hx). split_and!; [done..| |done|].
    + intros (s' & Heq & Hin)%list_elem_of_fmap. by destruct (Hx s' Hin) as [? _].
    + intros s' [->|Hin]; [done|]. by apply Hx.
  - intros ((_ & Hf) & (Hn & Hd) & Hx). split_and!; [done..|]. intros s' Hin. split; [|by auto].
    intros Heq. apply Hn. rewrite <-Heq. by apply list_elem_of_fmap_2.
Qed.

Lemma check_schedule_Ok t : check_schedule t = Ok tt ↔ ∀ cron interval, t = Schedule cron interval →
    (∃ expr full, cron = Some expr ∧ interval = None ∧ cron_text expr full ∧ is_Some (cron_parse full)) ∨
    (∃ dur secs, cron = None ∧ interval = Some dur ∧ duration_text (trim dur) secs ∧ (60 ≤ secs)%N).
Proof.
  destruct t as [| | |cron interval|]; [by split; [intros _ ? ? ?|]..| |by split; [intros _ ? ? ?|]].
  cbn [check_schedule]. unfold validate_cron. split.
  - intros Hok ? ? [= <- <-]. destruct cron as [expr|], interval as [dur|]; try done.
    + left. exists expr, (normalize_cron expr). split_and!; [done..|by apply normalize_cron_text|]. by destruct (cron_parse _).
    + right. exists dur. destruct (parse_duration_secs dur) as [secs|] eqn:Hd; [|done]. apply parse_duration_text in Hd.
      destruct (N.ltb_spec secs 60); [done|]. by exists secs.
  - intros Hs. destruct (Hs _ _ eq_refl) as [(expr & full & -> & -> & <-%normalize_cron_text & Hp)|(dur & secs & -> & -> & Hd & Hle)].
    + by destruct (cron_parse _); [|destruct Hp].
    + apply parse_duration_text in Hd as ->. by rewrite (proj2 (N.ltb_ge _ _) Hle).
Qed.

Lemma reply_ok def :
  negb (trigger_has_message (wd_trigger def)) && existsb (λ s, replies_in_thread (st_action s)) (wd_steps def) = false ↔
  ∀ step text channel, step ∈ wd_steps def → st_action step = SendMessage text channel true →
    wd_trigger def ≠ Webhook ∧ ∀ cron interval, wd_trigger def ≠ Schedule cron interval.
Proof.
  rewrite <-not_true_iff_false, andb_true_iff, negb_true_iff, existsb_exists. split.
  - intros Hn step text channel Hin Hact.
    assert (trigger_has_message (wd_trigger def) ≠ false) as Ht.
    { intros Ht. apply Hn. split; [done|]. exists step. split; [by apply list_elem_of_In|]. by rewrite Hact. }
    split; [intros E|intros cron interval E]; by rewrite E in Ht.
  - intros Hr (Ht & step & Hin%list_elem_of_In & Hact). destruct (st_action step) as [text channel []| | | | | |] eqn:E; try done.
    destruct (Hr step text channel Hin E) as [Hw Hs]. by destruct (wd_trigger def) as [| | |cron interval|]; [..|destruct (Hs cron interval)|].
Qed.

(** C23: a definition passes validation exactly when it has a name that is not blank and
    steps, the steps have distinct names of 1 to 64 letters, digits and underscores, a reply
    in a thread has a message to reply to, and a schedule is either a cron expression that
    parses once the seconds and the year are added (for five words and for six) or an
    interval, a decimal number of hours, minutes or seconds, of a minute or more. *)
Theorem validate_exact def : validate def = Ok tt ↔ valid_def def.
Proof.
  unfold validate. split.
  - intros Hok. case_decide as Hn; [done|]. case_decide as Hs; [done|].
    destruct (check_ids ∅ (wd_steps def)) as [[]|] eqn:Hi; [|done]. apply check_ids_Ok in Hi as (Hf & Hd & _).
    destruct (negb _ && _) eqn:Hr; [done|]. constructor; try done; [by apply reply_ok|by apply check_schedule_Ok].
  - intros [Hn Hs Hf Hd Hr Hsch]. rewrite decide_False by done. rewrite decide_False by done.
    rewrite (proj2 (check_ids_Ok ∅ (wd_steps def))) by (split_and!; [done..|set_solver]).
    rewrite (proj2 (reply_ok def)) by done. by apply check_schedule_Ok.
Qed.

End validate.

(** ** Templates *)

Record TriggerContext := mkTriggerContext {
  tc_text : string;
  tc_author : string;
  tc_channel_id : string;
  tc_timestamp : string;
  tc_emoji : string;
  tc_message_id : string;
  tc_is_reply : bool;
  tc_webhook_fields : gmap string string
}.

Definition get_field (c : TriggerContext) (name : string) : option string :=
  if decide (name = "text") then Some (tc_text c)
  else if decide (name = "author") then Some (tc_author c)
  else if decide (name = "channel_id") then Some (tc_channel_id c)
  else if decide (name = "timestamp") then Some (tc_timestamp c)
  else if decide (name = "emoji") then Some (tc_emoji c)
  else if decide (name = "message_id") then Some (tc_message_id c)
  else tc_webhook_fields c !! name.

(** [find(p)]: what is before and after the first occurrence of [p]. *)
Fixpoint split_str (p s : string) : option (string * string) :=
  match strip_prefix p s with
  | Some r => Some ("", r)
  | None =>
      match s with
      | EmptyString => None
      | String a s' => match split_str p s' with Some (l, r) => Some (String a l, r) | None => None end
      end
  end.

(** [value.chars().take(n)] of UTF-8 text. *)
Fixpoint take_chars (n : N) (l : bytes) : bytes :=
  match l with
  | [] => []
  | b :: l => if is_cont b then b :: take_chars n l else if (n =? 0)%N then [] else b :: take_chars (n - 1) l
  end.

Class TemplateApi (num : Type) := {
  (** [Value::to_string] *)
  json_text : Json num → string;
  (** [PublicKey::from_hex] and then [to_bech32] *)
  npub : string → option string
}.

Section templates.
Context {num : Type} `{TemplateApi num} (ctx : TriggerContext) (outputs : gmap string (Json num)).

Definition json_to_string (v : Json num) : string :=
  match v with
  | JString s => s
  | JBool b => if b then "true" else "false"
  | JNull => ""
  | _ => json_text v
  end.

Definition resolve_variable (path : string) : option string :=
  match strip_prefix "trigger." path with
  | Some field => get_field ctx field
  | None =>
      match strip_prefix "steps." path with
      | None => None
      | Some rest =>
          match split_once "." rest with
          | None => None
          | Some (step_id, rest) =>
              match split_once "." rest with
              | None => None
              | Some (middle, field) =>
                  if decide (middle = "output") then json_to_string <$> (outputs !! step_id ≫= λ v, json_field v field)
                  else None
              end
          end
      end
  end.

Definition apply_filter (value raw_filter : string) : result WorkflowError string :=
  let filter := trim raw_filter in
  match strip_prefix "truncate(" filter ≫= strip_suffix ")" with
  | Some inner =>
      match parse_uint u64_max (trim inner) with
      | None => Err (TemplateError "truncate() requires a number")
      | Some n => Ok (str_of_bytes (take_chars n (bytes_of_str value)))
      end
  | None =>
      if decide (filter = "npub" ∨ filter = "truncate_pubkey") then Ok (default value (npub value))
      else Err (TemplateError "unknown filter")
  end.

(** What the text between two braces becomes. *)
Definition expand (inner : string) : result WorkflowError string :=
  let expr := trim inner in
  let '(path, filter) := match split_once "|" expr with
                         | Some (p, f) => (trim p, Some (trim f))
                         | None => (trim expr, None)
                         end in
  match resolve_variable path, filter with
  | Some v, Some f => apply_filter v f
  | Some v, None => Ok v
  | None, _ => Ok ("{{" +:+ expr +:+ "}}")
  end.

Fixpoint resolve_loop (fuel : nat) (acc remaining : string) : result WorkflowError string :=
  match split_str "{{" remaining with
  | None => Ok (acc +:+ remaining)
  | Some (before, rest) =>
      match fuel with
      | 0 => Err (TemplateError "out of fuel")
      | S fuel =>
          match split_str "}}" rest with
          | None => Ok (acc +:+ before +:+ "{{" +:+ rest)
          | Some (inner, rest) =>
              let? value := expand inner in
              resolve_loop fuel (acc +:+ before +:+ value) rest
          end
      end
  end.

Definition resolve_template (template : string) : result WorkflowError string :=
  if contains_str "{{" template then resolve_loop (String.length template) "" template else Ok template.

Definition resolve_opt (o : option string) : result WorkflowError (option string) :=
  match o with Some v => let? r := resolve_template v in Ok (Some r) | None => Ok None end.

Fixpoint resolve_headers (acc : gmap string string) (h : list (string * string)) : result WorkflowError (gmap string string) :=
  match h with
  | [] => Ok acc
  | (k, v) :: h => let? r := resolve_template v in resolve_headers (<[k := r]> acc) h
  end.

Definition resolve_step_templates {siter : MapIter string} (step : Step) : result WorkflowError ActionDef :=
  match st_action step with
  | SendMessage text channel reply =>
      let? text := resolve_template text in
      let? channel := resolve_opt channel in
      Ok (SendMessage text channel reply)
  | SendDm to text =>
      let? to := resolve_template to in
      let? text := resolve_template text in
      Ok (SendDm to text)
  | SetChannelTopic topic => let? topic := resolve_template topic in Ok (SetChannelTopic topic)
  | AddReaction emoji => let? emoji := resolve_template emoji in Ok (AddReaction emoji)
  | CallWebhook url method headers body =>
      let? headers := match headers with
                      | Some h => let? out := resolve_headers ∅ (hiter h) in Ok (Some out)
                      | None => Ok None
                      end in
      let? url := resolve_template url in
      let? body := resolve_opt body in
      Ok (CallWebhook url method headers body)
  | RequestApproval from message timeout =>
      let? from := resolve_template from in
      let? message := resolve_template message in
      Ok (RequestApproval from message timeout)
  | Delay duration => Ok (Delay duration)
  end.

(** ** Expansion as one pass *)

(** A template is literals, each followed by a placeholder, and an end: a literal, or a
    literal and an opening that is never closed. *)
Inductive template_end := Closed (literal : string) | Unclosed (literal rest : string).

Definition piece_text (p : string * string) : string := p.1 +:+ "{{" +:+ p.2 +:+ "}}".
Definition end_text (e : template_end) : string := match e with Closed l => l | Unclosed l r => l +:+ "{{" +:+ r end.
Definition template_text (pieces : list (string * string)) (e : template_end) : string :=
  foldr (λ p t, piece_text p +:+ t) (end_text e) pieces.

(** The braces are where the template says: no literal has, or makes with what follows, an
    opening, and no placeholder a closing. *)
Definition braces_ok (pieces : list (string * string)) (e : template_end) : Prop :=
  Forall (λ p, contains_str "{{" (p.1 +:+ "{") = false ∧ contains_str "}}" (p.2 +:+ "}") = false) pieces ∧
  match e with
  | Closed l => contains_str "{{" l = false
  | Unclosed l r => contains_str "{{" (l +:+ "{") = false ∧ contains_str "}}" r = false
  end.

(** The text of an output: a string as it is, nothing for null, the others as JSON. *)
Inductive shows : Json num → string → Prop :=
| shows_string s : shows (JString s) s
| shows_null : shows JNull ""
| shows_true : shows (JBool true) "true"
| shows_false : shows (JBool false) "false"
| shows_number n : shows (JNumber n) (json_text (JNumber n))
| shows_array l : shows (JArray l) (json_text (JArray l))
| shows_object m : shows (JObject m) (json_text (JObject m)).

(** The values that have a name: the fields of the event, those of a webhook that no field
    of the event hides, and the fields of the outputs of earlier steps. *)
Inductive names : string → string → Prop :=
| names_text : names "trigger.text" (tc_text ctx)
| names_author : names "trigger.author" (tc_author ctx)
| names_channel_id : names "trigger.channel_id" (tc_channel_id ctx)
| names_timestamp : names "trigger.timestamp" (tc_timestamp ctx)
| names_emoji : names "trigger.emoji" (tc_emoji ctx)
| names_message_id : names "trigger.message_id" (tc_message_id ctx)
| names_webhook field v :
    field ∉ ["text"; "author"; "channel_id"; "timestamp"; "emoji"; "message_id"] →
    tc_webhook_fields ctx !! field = Some v → names ("trigger." +:+ field) v
| names_output id field m v s :
    str_contains "." id = false → outputs !! id = Some (JObject m) → json_field (JObject m) field = Some v → shows v s →
    names ("steps." +:+ id +:+ ".output." +:+ field) s.

(** The number of characters of UTF-8 text, and its first [n]. *)
Definition char_count (l : bytes) : nat := length (List.filter (λ b, negb (is_cont b)) l).

Definition first_chars (n : N) (s w : string) : Prop :=
  ∃ rest, bytes_of_str s = bytes_of_str w ++ rest ∧ (N.of_nat (char_count (bytes_of_str w)) ≤ n)%N ∧
    (rest = [] ∨ (N.of_nat (char_count (bytes_of_str w)) = n ∧ ∃ b r, rest = b :: r ∧ is_cont b = false)).

(** What a filter, without blanks around it, makes of a value. *)
Inductive filtered (value filter : string) : result WorkflowError string → Prop :=
| filtered_truncate inner n w :
    filter = "truncate(" +:+ inner +:+ ")" → numeral u64_max (trim inner) n → first_chars n value w → filtered value filter (Ok w)
| filtered_no_number inner :
    filter = "truncate(" +:+ inner +:+ ")" → (∀ n, ¬ numeral u64_max (trim inner) n) →
    filtered value filter (Err (TemplateError "truncate() requires a number"))
| filtered_npub w : filter = "npub" ∨ filter = "truncate_pubkey" → npub value = Some w → filtered value filter (Ok w)
| filtered_no_key : filter = "npub" ∨ filter = "truncate_pubkey" → npub value = None → filtered value filter (Ok value)
| filtered_unknown :
    (∀ inner, filter ≠ "truncate(" +:+ inner +:+ ")") → filter ≠ "npub" → filter ≠ "truncate_pubkey" →
    filtered value filter (Err (TemplateError "unknown filter")).

(** A placeholder's text is a path, and after the first bar a filter. *)
Definition path_and_filter (text path : string) (filter : option string) : Prop :=
  match filter with
  | None => path = text ∧ str_contains "|" text = false
  | Some f => text = path +:+ "|" +:+ f ∧ str_contains "|" path = false
  end.

(** What the text between two braces stands for: the named value, filtered, or, when
    nothing has the name, itself without the blanks around it. *)
Inductive stands_for (inner : string) : result WorkflowError string → Prop :=
| stands_for_value path v : path_and_filter (trim inner) path None → names (trim path) v → stands_for inner (Ok v)
| stands_for_filtered path f v r :
    path_and_filter (trim inner) path (Some f) → names (trim path) v → filtered v (trim f) r → stands_for inner r
| stands_for_itself path f :
    path_and_filter (trim inner) path f → (∀ v, ¬ names (trim path) v) → stands_for inner (Ok ("{{" +:+ trim inner +:+ "}}")).

(** A template stands for its literals with the placeholders replaced, or for the error of
    the first placeholder that has one. *)
Inductive expands (e : template_end) : list (string * string) → result WorkflowError string → Prop :=
| expands_end : expands e [] (Ok (end_text e))
| expands_fails literal inner err pieces :
    stands_for inner (Err err) → expands e ((literal, inner) :: pieces) (Err err)
| expands_piece literal inner v pieces r :
    stands_for inner (Ok v) → expands e pieces r →
    expands e ((literal, inner) :: pieces) (match r with Ok rest => Ok (literal +:+ v +:+ rest) | Err err => Err err end).

End templates.

(** ** Lemmas *)

Lemma split_str_None p s : split_str p s = None ↔ contains_str p s = false.
Proof.
  induction s as [|a s IH]; cbn [split_str contains_str]; unfold starts_with; destruct (strip_prefix p _); try done.
  simpl. rewrite <-IH. by destruct (split_str p s) as [[??]|].
Qed.

(** A doubled character, as the braces are. *)
Abbreviation twice c := (String c (String c EmptyString)).

Lemma strip_prefix_cons c p a s : strip_prefix (String c p) (String a s) = if decide (c = a) then strip_prefix p s else None.
Proof. done. Qed.

Lemma strip_twice c a b s : strip_prefix (twice c) (String a (String b s)) = if decide (a = c ∧ b = c) then Some s else None.
Proof.
  rewrite !strip_prefix_cons. destruct (decide (a = c ∧ b = c)) as [[-> ->]|Hne]; [by rewrite !decide_True|].
  case_decide; [|done]. case_decide; [|done]. subst. by destruct Hne.
Qed.

Lemma starts_twice c a b s : starts_with (twice c) (String a (String b s)) = true ↔ a = c ∧ b = c.
Proof. unfold starts_with. rewrite strip_twice. by case_decide. Qed.

Lemma split_twice c l r : contains_str (twice c) (l +:+ String c "") = false →
  split_str (twice c) (l +:+ twice c +:+ r) = Some (l, r).
Proof.
  induction l as [|a l IH]; intros Hc; rewrite !append_cons, ?append_empty in *; cbn [split_str contains_str] in *.
  { by rewrite strip_twice, decide_True. }
  apply orb_false_iff in Hc as [Hs Hc]. apply not_true_iff_false in Hs.
  assert (strip_prefix (twice c) (String a (l +:+ String c (String c r))) = None) as ->; [|by rewrite IH].
  destruct l as [|b l]; rewrite ?append_cons, ?append_empty in *; rewrite strip_twice, decide_False; try done;
    intros Hab; apply Hs; by apply starts_twice.
Qed.

Lemma split_twice_Some c s l r : split_str (twice c) s = Some (l, r) →
  s = l +:+ twice c +:+ r ∧ contains_str (twice c) (l +:+ String c "") = false.
Proof.
  revert l. induction s as [|a s IH]; intros l; [done|]. cbn [split_str].
  destruct (strip_prefix (twice c) (String a s)) as [r'|] eqn:Hp.
  { intros [= <- <-]. apply strip_prefix_Some in Hp as ->. split; [done|]. rewrite append_empty. cbn [contains_str]. unfold starts_with.
    rewrite strip_prefix_cons. by case_decide. }
  destruct (split_str (twice c) s) as [[l' r']|]; [|done]. intros [= <- <-].
  destruct (IH l' eq_refl) as [-> Hc]. split; [done|]. rewrite append_cons. cbn [contains_str]. apply orb_false_iff. split; [|done].
  apply not_true_iff_false. intros Hs. destruct l' as [|b l']; rewrite ?append_empty, ?append_cons in *;
    apply starts_twice in Hs; revert Hp; by rewrite strip_twice, decide_True.
Qed.

(** *** What a placeholder stands for *)

Lemma take_chars_spec n l : ∃ rest, l = take_chars n l ++ rest ∧ (N.of_nat (char_count (take_chars n l)) ≤ n)%N ∧
  (rest = [] ∨ (N.of_nat (char_count (take_chars n l)) = n ∧ ∃ b r, rest = b :: r ∧ is_cont b = false)).
Proof.
  unfold char_count. revert n. induction l as [|b l IH]; intros n; [exists []; simpl; split_and!; [done|lia|by left]|].
  simpl. destruct (is_cont b) eqn:Hb; simpl; rewrite ?Hb; simpl.
  - destruct (IH n) as (rest & Hl & ? & ?). exists rest. split; [by rewrite Hl at 1|done].
  - destruct (N.eqb_spec n 0) as [->|Hn]; simpl.
    + exists (b :: l). split_and!; [done|lia|]. right. split; [done|]. by exists b, l.
    + rewrite Hb. simpl. destruct (IH (n - 1)%N) as (rest & Hl & ? & Hr). exists rest. split; [by rewrite Hl at 1|]. split; [lia|].
      destruct Hr as [?|[? ?]]; [by left|right]. split; [lia|done].
Qed.

Lemma take_chars_unique n w rest : (N.of_nat (char_count w) ≤ n)%N →
  (rest = [] ∨ (N.of_nat (char_count w) = n ∧ ∃ b r, rest = b :: r ∧ is_cont b = false)) → take_chars n (w ++ rest) = w.
Proof.
  unfold char_count. revert n. induction w as [|b w IH]; intros n Hn Hr; simpl in *.
  - destruct Hr as [->|(<- & b & r & -> & Hb)]; [done|]. simpl. by rewrite Hb.
  - destruct (is_cont b) eqn:Hb; simpl in *; [by rewrite IH|]. destruct (N.eqb_spec n 0); [lia|]. rewrite IH; [done|lia|].
    destruct Hr as [?|[? ?]]; [by left|right]. split; [lia|done].
Qed.

Lemma first_chars_iff n s w : first_chars n s w ↔ w = str_of_bytes (take_chars n (bytes_of_str s)).
Proof.
  split.
  - intros (rest & Hs & Hn & Hr). rewrite Hs, take_chars_unique by done. symmetry. apply String.string_of_list_byte_of_string.
  - intros ->. destruct (take_chars_spec n (bytes_of_str s)) as (rest & Hs & Hn & Hr). exists rest.
    assert (∀ l, bytes_of_str (str_of_bytes l) = l) as -> by (intros; apply String.list_byte_of_string_of_list_byte). done.
Qed.

Section meaning.
Context {num : Type} `{TemplateApi num} (ctx : TriggerContext) (outputs : gmap string (Json num)).

Lemma shows_iff v s : shows v s ↔ json_to_string v = s.
Proof. split; [by intros []|intros <-]. by destruct v as [|[]| | | |]; constructor. Qed.

Lemma get_field_names field v : get_field ctx field = Some v → names ctx outputs ("trigger." +:+ field) v.
Proof.
  unfold get_field. repeat (case_decide; [subst; intros [= <-]; constructor|]). intros Hf. apply names_webhook; [|done].
  rewrite !elem_of_cons, elem_of_nil. naive_solver.
Qed.

Lemma output_names rest v :
  resolve_variable ctx outputs ("steps." +:+ rest) = Some v → names ctx outputs ("steps." +:+ rest) v.
Proof.
  unfold resolve_variable. rewrite strip_prefix_app. change (strip_prefix "trigger." ("steps." +:+ rest)) with (@None string). cbv iota.
  destruct (split_once "." rest) as [[id rest']|] eqn:E1; [|done]. apply split_once_Some in E1 as [-> Hid].
  destruct (split_once "." rest') as [[middle field]|] eqn:E2; [|done]. apply split_once_Some in E2 as [-> _].
  case_decide as Hm; [subst middle|done]. destruct (outputs !! id) as [[]|] eqn:Ho; try done. cbn [mbind option_bind].
  destruct (json_field _ field) as [x|] eqn:Hx; [|done]. intros [= <-]. by eapply names_output; [..|by apply shows_iff].
Qed.

Lemma names_iff path v : names ctx outputs path v ↔ resolve_variable ctx outputs path = Some v.
Proof.
  split.
  - intros [| | | | | |field v' Hf Hv|id field m x s Hid Ho Hx Hs]; [reflexivity..| |].
    + unfold resolve_variable. rewrite strip_prefix_app. unfold get_field. rewrite !elem_of_cons, elem_of_nil in Hf.
      by rewrite !decide_False by naive_solver.
    + unfold resolve_variable. rewrite strip_prefix_app. change (strip_prefix "trigger." ("steps." +:+ _)) with (@None string). cbv iota.
      change (id +:+ ".output." +:+ field) with (id +:+ String "." ("output" +:+ String "." field)).
      rewrite split_once_app by done. rewrite split_once_app by done. rewrite decide_True, Ho by done. cbn [mbind option_bind].
      rewrite Hx. simpl. f_equal. by apply shows_iff.
  - intros Hr. pose proof Hr as Hr'. unfold resolve_variable in Hr.
    destruct (strip_prefix "trigger." path) as [field|] eqn:Et.
    + apply strip_prefix_Some in Et as ->. by apply get_field_names.
    + destruct (strip_prefix "steps." path) as [rest|] eqn:Es; [|done]. apply strip_prefix_Some in Es as ->. by apply output_names.
Qed.

Lemma truncate_shape filter inner :
  strip_prefix "truncate(" filter ≫= strip_suffix ")" = Some inner ↔ filter = "truncate(" +:+ inner +:+ ")".
Proof.
  split.
  - destruct (strip_prefix "truncate(" filter) as [x|] eqn:E; [|done]. apply strip_prefix_Some in E as ->. simpl.
    by intros ->%strip_suffix_Some.
  - intros ->. rewrite strip_prefix_app. simpl. by apply strip_suffix_Some.
Qed.

Lemma apply_filter_iff v filter r : filtered v (trim filter) r ↔ apply_filter v filter = r.
Proof.
  unfold apply_filter. generalize (trim filter). clear filter. intros filter.
  assert (filter = "npub" ∨ filter = "truncate_pubkey" → strip_prefix "truncate(" filter ≫= strip_suffix ")" = None) as Hkey.
  { by intros [->| ->]. }
  split.
  - intros [inner n w Hf Hn%parse_uint_numeral Hw%first_chars_iff|inner Hf Hn|w Hf Hv|Hf Hv|Hf H1 H2].
    + apply truncate_shape in Hf as ->. by rewrite Hn, Hw.
    + apply truncate_shape in Hf as ->. destruct (parse_uint _ _) as [n|] eqn:E; [|done]. by apply parse_uint_numeral, Hn in E.
    + by rewrite Hkey, decide_True, Hv.
    + by rewrite Hkey, decide_True, Hv.
    + destruct (_ ≫= _) as [inner|] eqn:E; [by apply truncate_shape, Hf in E|]. rewrite decide_False by tauto. done.
  - intros <-. destruct (_ ≫= _) as [inner|] eqn:E.
    + apply truncate_shape in E. destruct (parse_uint _ _) as [n|] eqn:En.
      * by eapply filtered_truncate; [done|by apply parse_uint_numeral|by apply first_chars_iff].
      * apply (filtered_no_number _ _ inner); [done|]. intros n Hn%parse_uint_numeral. congruence.
    + case_decide as Hk.
      * destruct (npub v) eqn:Hv; simpl; [by apply filtered_npub|by apply filtered_no_key].
      * apply filtered_unknown; [|tauto..]. intros inner Hf%truncate_shape. congruence.
Qed.

(** How the code splits the text. *)
Lemma path_and_filter_iff text path f :
  path_and_filter text path f ↔
  match split_once "|" text with Some (p, x) => path = p ∧ f = Some x | None => path = text ∧ f = None end.
Proof.
  unfold path_and_filter. destruct f as [f|].
  - change ("|" +:+ f) with (String "|" f). rewrite <-split_once_Some. destruct (split_once "|" text) as [[p x]|]; naive_solver.
  - rewrite <-split_once_None. destruct (split_once "|" text) as [[p x]|]; naive_solver.
Qed.

Lemma stands_for_iff inner r : stands_for ctx outputs inner r ↔ expand ctx outputs inner = r.
Proof.
  assert (∀ path, (∀ v, ¬ names ctx outputs path v) ↔ resolve_variable ctx outputs path = None) as Hnone.
  { intros path. setoid_rewrite names_iff. destruct (resolve_variable ctx outputs path); naive_solver. }
  unfold expand. pose proof (λ path f, path_and_filter_iff (trim inner) path f) as Hp. split.
  - intros [path v Hpf%Hp Hv%names_iff|path f v r' Hpf%Hp Hv%names_iff Hf|path f Hpf%Hp Hv%Hnone];
      destruct (split_once "|" (trim inner)) as [[p x]|]; destruct Hpf as [-> Hx]; simplify_eq; rewrite Hv; try done.
    apply apply_filter_iff. by rewrite trim_trim.
  - intros <-. destruct (split_once "|" (trim inner)) as [[p x]|] eqn:E.
    + destruct (resolve_variable ctx outputs (trim p)) as [v|] eqn:Hv.
      * eapply stands_for_filtered; [by apply Hp|by apply names_iff|].
        pose proof (proj2 (apply_filter_iff v (trim x) _) eq_refl) as Hf. by rewrite trim_trim in Hf.
      * eapply stands_for_itself; [by apply Hp|by apply Hnone].
    + destruct (resolve_variable ctx outputs (trim (trim inner))) as [v|] eqn:Hv.
      * eapply stands_for_value; [by apply Hp|by apply names_iff].
      * eapply stands_for_itself; [by apply Hp|by apply Hnone].
Qed.

End meaning.

Section one_pass.
Context {num : Type} `{TemplateApi num} (ctx : TriggerContext) (outputs : gmap string (Json num)).

Lemma resolve_loop_text fuel acc pieces e r :
  String.length (template_text pieces e) ≤ fuel → braces_ok pieces e → expands ctx outputs e pieces r →
  resolve_loop ctx outputs fuel acc (template_text pieces e) = (let? rest := r in Ok (acc +:+ rest)).
Proof.
  revert fuel acc r. induction pieces as [|[l inner] pieces IH]; intros fuel acc r Hlen [Hf He] Hx.
  - inversion Hx; subst. cbn [template_text foldr] in *. destruct e as [l|l r]; cbn [end_text] in *.
    + apply split_str_None in He. destruct fuel; cbn [resolve_loop]; by rewrite He.
    + destruct He as [Hl Hr]. apply split_str_None in Hr. rewrite !length_append in Hlen. destruct fuel as [|fuel]; [simpl in Hlen; lia|].
      cbn [resolve_loop]. rewrite (split_twice "{" l r Hl). by rewrite Hr.
  - apply Forall_cons in Hf as [[Hl Hi] Hf]. cbn [fst snd] in Hl, Hi. change (template_text ((l, inner) :: pieces) e) with
      ((l +:+ "{{" +:+ inner +:+ "}}") +:+ template_text pieces e) in *.
    rewrite !append_assoc in *. rewrite !length_append in Hlen. simpl in Hlen. destruct fuel as [|fuel]; [lia|].
    cbn [resolve_loop]. rewrite (split_twice "{" l _ Hl), (split_twice "}" inner _ Hi).
    inversion Hx as [|? ? ? ? Hs|? ? v ? r' Hs Hr]; subst; apply stands_for_iff in Hs as ->; [done|].
    rewrite (IH _ _ r') by (lia || done). destruct r'; [|done]. by rewrite !append_assoc.
Qed.

Lemma expands_total e pieces : ∃ r, expands ctx outputs e pieces r.
Proof.
  induction pieces as [|[l inner] pieces [r Hr]]; [eexists; constructor|].
  destruct (expand ctx outputs inner) as [v|err] eqn:E; apply stands_for_iff in E; eexists; [by econstructor|by apply expands_fails].
Qed.

Lemma contains_open l r : contains_str "{{" (l +:+ "{{" +:+ r) = true.
Proof.
  induction l as [|a l IH]; [|rewrite append_cons; cbn [contains_str]; rewrite IH; apply orb_true_r].
  cbn [contains_str String.append]. apply orb_true_iff. left. apply starts_with_iff. by exists r.
Qed.

Lemma resolve_template_text pieces e r :
  braces_ok pieces e → expands ctx outputs e pieces r → resolve_template ctx outputs (template_text pieces e) = r.
Proof.
  intros Hok Hx. unfold resolve_template. destruct (contains_str "{{" (template_text pieces e)) eqn:Hc.
  - rewrite (resolve_loop_text _ _ _ _ r) by done. by destruct r.
  - destruct pieces as [|[l inner] pieces]; [inversion Hx; by destruct e|]. exfalso. revert Hc.
    change (template_text ((l, inner) :: pieces) e) with ((l +:+ "{{" +:+ inner +:+ "}}") +:+ template_text pieces e).
    by rewrite !append_assoc, contains_open.
Qed.

Lemma template_pieces fuel t : String.length t ≤ fuel → ∃ pieces e, braces_ok pieces e ∧ template_text pieces e = t.
Proof.
  revert t. induction fuel as [fuel IH] using lt_wf_ind. intros t Hlen.
  destruct (split_str "{{" t) as [[l rest]|] eqn:Hs.
  2: { apply split_str_None in Hs. by exists [], (Closed t). }
  apply (split_twice_Some "{") in Hs as [-> Hl]. rewrite !length_append in Hlen. simpl in Hlen.
  destruct (split_str "}}" rest) as [[inner rest']|] eqn:Hc.
  2: { apply split_str_None in Hc. by exists [], (Unclosed l rest). }
  apply (split_twice_Some "}") in Hc as [-> Hi]. rewrite !length_append in Hlen. simpl in Hlen.
  destruct (IH (String.length rest')) with (t := rest') as (pieces & e & [Hf He] & <-); [lia|done|].
  exists ((l, inner) :: pieces), e. split; [by split; [constructor|]|].
  change (template_text ((l, inner) :: pieces) e) with ((l +:+ "{{" +:+ inner +:+ "}}") +:+ template_text pieces e).
  by rewrite !append_assoc.
Qed.

(** C22: every template is literals and placeholders, and expanding it gives exactly what it
    stands for: the literals with every placeholder replaced by the value it names -- a
    field of the triggering event, else of the webhook, or of the output of an earlier
    step -- cut to the characters of [truncate], or as an [npub] when it is a key; a
    placeholder that names nothing stands for itself without the blanks around its text;
    the first unknown filter or unreadable number is the error.  Expansion ends, is one
    pass, and no value is expanded again. *)
Theorem template_expansion :
  (∀ t, ∃ pieces e, braces_ok pieces e ∧ template_text pieces e = t) ∧
  ∀ pieces e, braces_ok pieces e →
    ∀ r, resolve_template ctx outputs (template_text pieces e) = r ↔ expands ctx outputs e pieces r.
Proof.
  split; [intros t; by apply (template_pieces (String.length t))|]. intros pieces e Hok r. split; [|by apply resolve_template_text].
  intros <-. destruct (expands_total e pieces) as [r Hr]. by rewrite (resolve_template_text pieces e r).
Qed.

End one_pass.

(** ** Witnesses *)

Module WorkflowSchemaDemo.

#[local] Instance demo_templates : TemplateApi unit := { json_text := λ _, "?"; npub := λ _, None }.

Definition trigger : TriggerContext := mkTriggerContext "{{trigger.author}}" "alice" "" "" "" "" false {["id" := "7"; "text" := "spoofed"]}.
Definition outputs : gmap string (Json unit) := {["a" := JObject [("n", JString "v.w")]]}.

(** A value that looks like a placeholder is not expanded, a webhook field does not replace a
    field of the event, and filters apply to the value. *)
Lemma expansion_examples :
  resolve_template trigger outputs "<{{ trigger.text }}> {{trigger.id}}" = Ok "<{{trigger.author}}> 7" ∧
  resolve_template trigger outputs "{{steps.a.output.n | truncate(2)}}{{x}}{{" = Ok "v.{{x}}{{" ∧
  resolve_template trigger outputs "{{trigger.id | upper}}" = Err (TemplateError "unknown filter").
Proof. by vm_compute. Qed.

(** A placeholder that is not known is written back without the blanks inside it. *)
Lemma unknown_placeholder_trimmed : resolve_template trigger outputs "{{  nope }}" = Ok "{{nope}}".
Proof. by vm_compute. Qed.

End WorkflowSchemaDemo.
