(* ===== verification/WorkflowRun.v ===== *)
(** * Running a workflow ([buzz-workflow/src/executor.rs], [buzz-core/src/network.rs])

    A run is a program of calls: the database, the write fence of the community, the
    evaluator of conditions, the message sink, DNS and HTTP.  Two things can cut a step
    short, its timeout and the loss of the fence: both drop the future at an await, which
    [interruptible] makes a call of its own after every other call. *)

From stdpp Require Import base gmap strings list.
From Stdlib Require Import Ascii.
From Stdlib.Strings Require Import Byte.
From S2P Require Import Prelude Programs Text Nostr CanonicalJson MeshWire Topics WorkflowSchema.

(** ** Addresses a webhook must not reach *)

Inductive IpAddr := V4 (a b c d : N) | V6 (octets : list N).

Definition is_private_v4 (a b c d : N) : bool :=
  ((a =? 127)
   || (a =? 10) || ((a =? 172) && (16 <=? b) && (b <=? 31)) || ((a =? 192) && (b =? 168))
   || ((a =? 169) && (b =? 254))
   || (a =? 0)
   || ((a =? 255) && (b =? 255) && (c =? 255) && (d =? 255))
   || ((a =? 100) && (N.land b 0xC0 =? 64))
   || ((a =? 198) && (N.land b 0xFE =? 18)))%N.

(** The IPv4 address in the last four octets after a 96-bit prefix. *)
Definition embedded_ipv4 (octets prefix : list N) : option (N * N * N * N) :=
  match drop 12 octets with
  | [a; b; c; d] => if decide (take 12 octets = prefix) then Some (a, b, c, d) else None
  | _ => None
  end.

Definition NAT64_WELL_KNOWN_PREFIX : list N := [0x00; 0x64; 0xff; 0x9b; 0; 0; 0; 0; 0; 0; 0; 0]%N.
Definition IPV4_TRANSLATED_PREFIX : list N := [0; 0; 0; 0; 0; 0; 0; 0; 0xff; 0xff; 0; 0]%N.

(** [Ipv6Addr::to_ipv4]: compatible and mapped addresses. *)
Definition to_ipv4 (octets : list N) : option (N * N * N * N) :=
  match embedded_ipv4 octets (replicate 12 0%N) with
  | Some v4 => Some v4
  | None => embedded_ipv4 octets (replicate 10 0%N ++ [0xff; 0xff]%N)
  end.

Definition segment (octets : list N) (i : nat) : N :=
  (nth (2 * i) octets 0 * 256 + nth (2 * i + 1) octets 0)%N.

Definition is_private_ip (ip : IpAddr) : bool :=
  match ip with
  | V4 a b c d => is_private_v4 a b c d
  | V6 octets =>
      match to_ipv4 octets, embedded_ipv4 octets NAT64_WELL_KNOWN_PREFIX, embedded_ipv4 octets IPV4_TRANSLATED_PREFIX with
      | Some (a, b, c, d), _, _ => is_private_v4 a b c d
      | None, Some (a, b, c, d), _ => is_private_v4 a b c d
      | None, None, Some (a, b, c, d) => is_private_v4 a b c d
      | None, None, None =>
          let s := segment octets in
          (bool_decide (octets = replicate 15 0%N ++ [1%N])
           || bool_decide (octets = replicate 16 0%N)
           || (N.land (s 0%nat) 0xfe00 =? 0xfc00)
           || (N.land (s 0%nat) 0xffc0 =? 0xfe80)
           || (N.land (s 0%nat) 0xff00 =? 0xff00)
           || ((s 0%nat =? 0x64) && (s 1%nat =? 0xff9b) && (s 2%nat =? 1))
           || ((s 0%nat =? 0x2001) && (s 1%nat =? 0))
           || (s 0%nat =? 0x2002)
           || ((s 0%nat =? 0x2001) && (s 1%nat =? 0x0db8)))%N
      end
  end.

(** ** Records *)

Record WorkflowRecord {num : Type} := mkWorkflowRecord {
  w_id : Uuid;
  w_community_id : CommunityId;
  w_owner_pubkey : bytes;
  w_channel_id : option Uuid;
  w_definition : Json num
}.
Arguments WorkflowRecord num : clear implicits.

Inductive RunStatus := Pending | Running | WaitingApproval | Completed | Failed | Cancelled.

(** An entry of the execution trace. *)
Inductive TraceEntry {num : Type} := TraceSkipped (step_id : string) | TraceCompleted (step_id : string) (output : Json num).
Arguments TraceEntry num : clear implicits.

Inductive EvalValue {num : Type} :=
| EVString (s : string)
| EVBoolean (b : bool)
| EVInt (i : Z)
| EVFloat (f : num)
| EVTuple (l : list EvalValue)
| EVEmpty.
Arguments EvalValue num : clear implicits.

Inductive EvalReply := EvalTimedOut | EvalPanicked (e : string) | EvalDone (r : result string bool).

(** The [evalexpr] crate: a context, variables and functions added to it. *)
Class EvalApi (num : Type) := {
  eval_ctx : Type;
  eval_new : eval_ctx;
  eval_set_value : string → EvalValue num → eval_ctx → result string eval_ctx;
  eval_set_function : string → (EvalValue num → result string (EvalValue num)) → eval_ctx → result string eval_ctx;
  num_as_i64 : num → option Z;
  num_is_f64 : num → bool
}.

(** ** Calls *)

Inductive wcall {num : Type} `{EvalApi num} :=
| TryPermit
| ReleasePermit
| UpdateRun (community : CommunityId) (run : Uuid) (status : RunStatus) (step : nat) (trace : list (TraceEntry num))
    (failure : option string)
| GetRun (community : CommunityId) (run : Uuid)
| GetWorkflow (community : CommunityId) (workflow : Uuid)
| Evaluate (expr : string) (ctx : eval_ctx)
| AcquireWrite (community : CommunityId)
| VerifyWrite
| FinishWrite
| Interrupted
| SinkSend (community : CommunityId) (channel text author : string) (reply_to : option string)
| PostReaction (message_id emoji : string)
| ResolveHost (host : string) (port : N)
| HttpSend (url method : string) (headers : option (gmap string string)) (body : option string) (pinned : IpAddr)
| SleepSecs (secs : N)
| NewToken
| ListChannelWorkflows (community : CommunityId) (channel : Uuid)
| ListAllWorkflows
| GetMemberRole (community : CommunityId) (channel : Uuid) (pubkey : bytes)
| CreateRun (community : CommunityId) (workflow : Uuid) (trigger_event : option EventId) (ctx : TriggerContext)
| Spawn (community : CommunityId) (run : Uuid) (def : WorkflowDef) (ctx : TriggerContext)
| LatestFire (community : CommunityId) (workflow : Uuid)
| ClaimFire (community : CommunityId) (workflow : Uuid) (scheduled_for : Z)
| AttachRun (community : CommunityId) (workflow : Uuid) (scheduled_for : Z) (run : Uuid).
Arguments wcall num {_}.

Definition wreply {num} `{EvalApi num} (c : wcall num) : Type :=
  match c with
  | TryPermit | Interrupted => bool
  | ReleasePermit | SleepSecs _ | Spawn _ _ _ _ => unit
  | UpdateRun _ _ _ _ _ _ | AcquireWrite _ | VerifyWrite | FinishWrite | AttachRun _ _ _ _ => result string unit
  | GetRun _ _ => result string (Uuid * list (TraceEntry num))
  | GetWorkflow _ _ => result string (WorkflowRecord num)
  | Evaluate _ _ => EvalReply
  | SinkSend _ _ _ _ _ => result string string
  | PostReaction _ _ => result string (N * option string)
  | ResolveHost _ _ => result string (list IpAddr)
  | HttpSend _ _ _ _ _ => result string (N * list (result string bytes))
  | NewToken => Uuid
  | ListChannelWorkflows _ _ | ListAllWorkflows => result string (list (WorkflowRecord num))
  | GetMemberRole _ _ _ => result string (option string)
  | CreateRun _ _ _ _ => result string Uuid
  | LatestFire _ _ => result string (option Z)
  | ClaimFire _ _ _ => result string bool
  end.

Abbreviation wf num := (prog (wcall num) wreply).

(** [Url::parse] with the host and the port, [Method::from_bytes], the JSON reader and the
    numbers of a response. *)
Class WebhookApi (num : Type) := {
  webhook_url : string → result string (option string * option N);
  method_ok : string → bool;
  json_parse : string → option (Json num);
  json_num : N → num
}.

Section run.
Context {num : Type} `{EvalApi num, TemplateApi num, WebhookApi num, NostrApi, UuidParse, HexApi} {siter : MapIter string}.

Definition call (c : wcall num) : wf num (wreply c) := Act c Ret.

(** A future that can be dropped at any await. *)
Fixpoint interruptible {A} (p : wf num A) : wf num (option A) :=
  match p with
  | Ret a => Ret (Some a)
  | Act c k => Act c (λ r, Act Interrupted (λ cut : bool, if cut then Ret None else interruptible (k r)))
  end.

(** ** Conditions *)

Definition as_string (v : EvalValue num) : result string string :=
  match v with EVString s => Ok s | _ => Err "expected a string" end.

Definition str_test (f : string → string → bool) (v : EvalValue num) : result string (EvalValue num) :=
  match v with
  | EVTuple [a; b] => let? s := as_string a in let? t := as_string b in Ok (EVBoolean (f s t))
  | _ => Err "expected a tuple of length 2"
  end.

Definition eval_functions : list (string * (EvalValue num → result string (EvalValue num))) :=
  [("str_contains", str_test (λ haystack needle, contains_str needle haystack));
   ("str_starts_with", str_test (λ s prefix, starts_with prefix s));
   ("str_ends_with", str_test (λ s suffix, ends_with suffix s));
   ("str_len", λ v, let? s := as_string v in Ok (EVInt (Z.of_nat (String.length s))))].

Definition json_value_to_eval (v : Json num) : EvalValue num :=
  match v with
  | JString s => EVString s
  | JBool b => EVBoolean b
  | JNumber n =>
      match num_as_i64 n with
      | Some i => EVInt i
      | None => if num_is_f64 n then EVFloat n else EVString (json_text v)
      end
  | JNull => EVEmpty
  | _ => EVString (json_text v)
  end.

Fixpoint set_values (vs : list (string * EvalValue num)) (c : eval_ctx) : result string eval_ctx :=
  match vs with
  | [] => Ok c
  | (name, v) :: vs => let? c := eval_set_value name v c in set_values vs c
  end.

Fixpoint set_functions (fs : list (string * (EvalValue num → result string (EvalValue num)))) (c : eval_ctx) :
    result string eval_ctx :=
  match fs with
  | [] => Ok c
  | (name, f) :: fs => let? c := eval_set_function name f c in set_functions fs c
  end.

Definition webhook_variables (t : TriggerContext) : list (string * EvalValue num) :=
  omap (λ e, if starts_with "trigger_" e.1 || starts_with "steps_" e.1 then None else Some ("trigger_" +:+ e.1, EVString e.2))
    (hiter (tc_webhook_fields t)).

Definition trigger_variables (t : TriggerContext) : list (string * EvalValue num) :=
  [("trigger_text", EVString (tc_text t)); ("trigger_author", EVString (tc_author t));
   ("trigger_channel_id", EVString (tc_channel_id t)); ("trigger_timestamp", EVString (tc_timestamp t));
   ("trigger_emoji", EVString (tc_emoji t)); ("trigger_message_id", EVString (tc_message_id t));
   ("trigger_is_reply", EVBoolean (tc_is_reply t))].

Definition output_variables (outputs : gmap string (Json num)) : list (string * EvalValue num) :=
  '(step_id, output) ← hiter outputs;
  match output with
  | JObject m => (λ e, ("steps_" +:+ step_id +:+ "_output_" +:+ e.1, json_value_to_eval e.2)) <$> m
  | _ => []
  end.

Definition build_eval_context (t : TriggerContext) (outputs : gmap string (Json num)) : result WorkflowError eval_ctx :=
  map_err ConditionError
    (let? c := set_functions eval_functions eval_new in
     set_values (webhook_variables t ++ trigger_variables t ++ output_variables outputs) c).

Definition MAX_EXPR_LEN : nat := Z.to_nat 4096.

Definition evaluate_condition (expr : string) (t : TriggerContext) (outputs : gmap string (Json num)) :
    wf num (result WorkflowError bool) :=
  match build_eval_context t outputs with
  | Err e => Ret (Err e)
  | Ok c =>
      if (MAX_EXPR_LEN <? String.length expr)%nat then Ret (Err (ConditionError "condition expression exceeds limit"))
      else
        r ← call (Evaluate expr c);
        Ret (match r with
             | EvalTimedOut => Err (ConditionError "evaluation timed out")
             | EvalPanicked e => Err (ConditionError e)
             | EvalDone r => map_err ConditionError r
             end)
  end.

(** ** Actions *)

Inductive StepResult := StepCompleted (output : Json num) | StepSuspended (approval_token : string) | StepSkipped.

Definition resolve_send_message_channel (explicit : option string) (trigger_channel : string) (workflow_channel : option Uuid) :
    result WorkflowError string :=
  let explicit := match trim <$> explicit with Some "" => None | o => o end in
  match workflow_channel with
  | Some ch =>
      match explicit with
      | None => Ok (uuid_to_string ch)
      | Some x =>
          match parse_uuid x with
          | None => Err (InvalidDefinition "SendMessage: invalid channel override UUID")
          | Some u =>
              if decide (u = ch) then Ok (uuid_to_string ch)
              else Err (InvalidDefinition "SendMessage: channel override must match the workflow channel")
          end
      end
  | None =>
      match explicit with
      | Some x =>
          match parse_uuid x with
          | None => Err (InvalidDefinition "SendMessage: invalid channel override UUID")
          | Some u => Ok (uuid_to_string u)
          end
      | None =>
          if decide (trim trigger_channel = "") then Err (InvalidDefinition "SendMessage: no channel_id available")
          else Ok (trim trigger_channel)
      end
  end.

Definition check_ssrf (host : string) (port : N) : wf num (result WorkflowError IpAddr) :=
  r ← call (ResolveHost host port);
  Ret (match r with
       | Err e => Err (WebhookError e)
       | Ok [] => Err (WebhookError "DNS resolution returned no addresses")
       | Ok (ip :: ips) =>
           if existsb is_private_ip (ip :: ips) then Err (WebhookError "SSRF blocked") else Ok ip
       end).

Definition WEBHOOK_MAX_RESPONSE_BYTES : nat := Z.to_nat 1048576.

Fixpoint read_body (acc : bytes) (chunks : list (result string bytes)) : result WorkflowError bytes :=
  match chunks with
  | [] => Ok acc
  | Err e :: _ => Err (WebhookError e)
  | Ok b :: chunks =>
      let acc := acc ++ b in
      if (WEBHOOK_MAX_RESPONSE_BYTES <? length acc)%nat then Err (WebhookError "response body exceeds limit")
      else read_body acc chunks
  end.

Definition call_webhook_impl (url method : string) (headers : option (gmap string string)) (body : option string) :
    wf num (result WorkflowError (Json num)) :=
  match webhook_url url with
  | Err e => Ret (Err (WebhookError e))
  | Ok (None, _) => Ret (Err (WebhookError "URL has no host"))
  | Ok (Some host, port) =>
      let! safe_ip := check_ssrf host (default 80%N port) in
      if negb (method_ok method) then Ret (Err (WebhookError "invalid method"))
      else
        r ← call (HttpSend url method headers body safe_ip);
        Ret (let? resp := map_err WebhookError r in
             let? body := read_body [] resp.2 in
             Ok (JObject [("body", JString (from_utf8_lossy body)); ("status", JNumber (json_num resp.1))]))
  end.

Definition is_success (status : N) : bool := ((200 <=? status) && (status <? 300))%N.

Definition add_reaction_impl (message_id emoji : string) : wf num (result WorkflowError (Json num)) :=
  r ← call (PostReaction message_id emoji);
  Ret (let? resp := map_err WebhookError r in
       if negb (is_success resp.1) then Err (WebhookError "AddReaction: relay refused")
       else
         let text := default "" resp.2 in
         let body := default (JObject [("raw", JString text)]) (json_parse text) in
         Ok (JObject [("added", JBool true); ("response", body); ("status", JNumber (json_num resp.1))])).

Record Engine := mkEngine { en_has_sink : bool; en_default_timeout_secs : N }.

Definition MAX_DELAY_SECS : N := 270.

Definition send_message (en : Engine) (community : CommunityId) (run : Uuid) (t : TriggerContext)
    (text : string) (channel : option string) (reply_in_thread : bool) : wf num (result WorkflowError StepResult) :=
  r ← call (GetRun community run);
  match r with
  | Err e => Ret (Err (WebhookError e))
  | Ok (workflow_id, _) =>
      r ← call (GetWorkflow community workflow_id);
      match r with
      | Err e => Ret (Err (WebhookError e))
      | Ok workflow =>
          match resolve_send_message_channel channel (tc_channel_id t) (w_channel_id workflow) with
          | Err e => Ret (Err e)
          | Ok channel_id =>
              let owner := hex_encode (w_owner_pubkey workflow) in
              if reply_in_thread && bool_decide (tc_message_id t = "")
              then Ret (Err (InvalidDefinition "SendMessage: reply_in_thread is set but the trigger has no message_id"))
              else if negb (en_has_sink en) then Ret (Err (InvalidDefinition "action_sink not initialized"))
              else
                r ← call (SinkSend community channel_id text owner (if reply_in_thread then Some (tc_message_id t) else None));
                Ret (let? event_id := map_err WebhookError r in
                     Ok (StepCompleted (JObject [("event_id", JString event_id); ("sent", JBool true)])))
          end
      end
  end.

(** The body of [dispatch_action], inside the fence. *)
Definition perform (en : Engine) (community : CommunityId) (run : Uuid) (t : TriggerContext) (action : ActionDef) :
    wf num (result WorkflowError StepResult) :=
  match action with
  | SendMessage text channel reply_in_thread => send_message en community run t text channel reply_in_thread
  | SendDm _ _ => Ret (Err (NotImplemented "SendDm"))
  | SetChannelTopic _ => Ret (Err (NotImplemented "SetChannelTopic"))
  | AddReaction emoji =>
      if decide (tc_message_id t = "") then Ret (Err (InvalidDefinition "AddReaction: no trigger.message_id available"))
      else let! out := add_reaction_impl (tc_message_id t) emoji in Ret (Ok (StepCompleted out))
  | CallWebhook url method headers body =>
      let! out := call_webhook_impl url (default "POST" method) headers body in Ret (Ok (StepCompleted out))
  | RequestApproval _ _ _ => token ← call NewToken; Ret (Ok (StepSuspended (uuid_to_string token)))
  | Delay duration =>
      match parse_duration_secs duration with
      | Err e => Ret (Err e)
      | Ok secs =>
          if (MAX_DELAY_SECS <? secs)%N then Ret (Err (InvalidDefinition "delay exceeds maximum"))
          else _ ← call (SleepSecs secs); Ret (Ok (StepCompleted (JObject [("slept_secs", JNumber (json_num secs))])))
      end
  end.

(** [ServingWriteGuard::protect]. *)
Definition protect {A} (p : wf num A) : wf num (result string A) :=
  let! _ := call VerifyWrite in
  o ← interruptible p;
  match o with
  | None => Ret (Err "serving write lease heartbeat was lost")
  | Some a => let! _ := call VerifyWrite in Ret (Ok a)
  end.

Definition dispatch_action (en : Engine) (community : CommunityId) (run : Uuid) (t : TriggerContext) (action : ActionDef) :
    wf num (result WorkflowError StepResult) :=
  r ← call (AcquireWrite community);
  match r with
  | Err e => Ret (Err (WebhookError e))
  | Ok _ =>
      r ← call VerifyWrite;
      match r with
      | Err e => Ret (Err (WebhookError e))
      | Ok _ =>
          r ← protect (perform en community run t action);
          match r with
          | Err e => Ret (Err (WebhookError e))
          | Ok result =>
              release ← call FinishWrite;
              Ret (match result, release with
                   | Ok _, Err e => Err (WebhookError e)
                   | _, _ => result
                   end)
          end
      end
  end.

(** ** Execution *)

Record ExecutionResult := mkExecutionResult {
  er_approval_token : option string;
  er_step_index : nat;
  er_step_outputs : gmap string (Json num);
  er_trace : list (TraceEntry num)
}.
Record PartialProgress := mkPartialProgress { pp_step_index : nat; pp_trace : list (TraceEntry num) }.
Definition no_progress : PartialProgress := mkPartialProgress 0 [].

Definition condition_of (step : Step) (t : TriggerContext) (outputs : gmap string (Json num)) : wf num (result WorkflowError bool) :=
  match st_if_expr step with Some expr => evaluate_condition expr t outputs | None => Ret (Ok true) end.

(** The loop; [i] is the index of the first of [steps]. *)
Fixpoint execute_steps (en : Engine) (community : CommunityId) (run : Uuid) (t : TriggerContext) (start_index i : nat)
    (steps : list Step) (outputs : gmap string (Json num)) (trace : list (TraceEntry num)) :
    wf num (result (WorkflowError * PartialProgress) ExecutionResult) :=
  match steps with
  | [] => Ret (Ok (mkExecutionResult None i outputs trace))
  | step :: steps =>
      if (i <? start_index)%nat then execute_steps en community run t start_index (S i) steps outputs trace
      else
        let fail e := Ret (Err (e, mkPartialProgress i trace)) in
        c ← condition_of step t outputs;
        match c with
        | Err e => fail e
        | Ok false => execute_steps en community run t start_index (S i) steps outputs (trace ++ [TraceSkipped (st_id step)])
        | Ok true =>
            match resolve_step_templates t outputs step with
            | Err e => fail e
            | Ok action =>
                let timeout_secs := default (en_default_timeout_secs en) (st_timeout_secs step) in
                r ← interruptible (dispatch_action en community run t action);
                match r with
                | None => fail (StepTimeout (st_id step) timeout_secs)
                | Some (Err e) => fail e
                | Some (Ok (StepCompleted output)) =>
                    execute_steps en community run t start_index (S i) steps (<[st_id step := output]> outputs)
                      (trace ++ [TraceCompleted (st_id step) output])
                | Some (Ok (StepSuspended token)) => Ret (Ok (mkExecutionResult (Some token) i outputs trace))
                | Some (Ok StepSkipped) =>
                    execute_steps en community run t start_index (S i) steps outputs (trace ++ [TraceSkipped (st_id step)])
                end
            end
        end
  end.

(** Under a permit of the semaphore, which is given back at the end. *)
Definition with_permit {A} (p : wf num (result (WorkflowError * PartialProgress) A)) :
    wf num (result (WorkflowError * PartialProgress) A) :=
  got ← call TryPermit;
  if (got : bool) then r ← p; _ ← call ReleasePermit; Ret r else Ret (Err (CapacityExceeded, no_progress)).

Definition execute_run (en : Engine) (community : CommunityId) (run : Uuid) (def : WorkflowDef) (t : TriggerContext) :
    wf num (result (WorkflowError * PartialProgress) ExecutionResult) :=
  with_permit
    (r ← call (UpdateRun community run Running 0 [] None);
     match r with
     | Err e => Ret (Err (Database e, no_progress))
     | Ok _ => execute_steps en community run t 0 0 (wd_steps def) ∅ []
     end).

Definition execute_from_step (en : Engine) (community : CommunityId) (run : Uuid) (def : WorkflowDef) (t : TriggerContext)
    (start_index : nat) (initial : option (gmap string (Json num))) :
    wf num (result (WorkflowError * PartialProgress) ExecutionResult) :=
  with_permit
    (r ← call (GetRun community run);
     let existing := match r with Ok (_, trace) => trace | Err _ => [] end in
     r ← call (UpdateRun community run Running start_index existing None);
     match r with
     | Err e => Ret (Err (Database e, no_progress))
     | Ok _ => execute_steps en community run t start_index 0 (wd_steps def) (default ∅ initial) []
     end).

(** [lib.rs] *)
Definition finalize_run (community : CommunityId) (run : Uuid)
    (r : result (WorkflowError * PartialProgress) ExecutionResult) (existing : option (list (TraceEntry num))) : wf num unit :=
  let prefix := default [] existing in
  match r with
  | Ok er =>
      let trace := prefix ++ er_trace er in
      match er_approval_token er with
      | Some _ => _ ← call (UpdateRun community run Failed (er_step_index er) trace (Some "approval_not_supported")); Ret tt
      | None => _ ← call (UpdateRun community run Completed (er_step_index er) trace None); Ret tt
      end
  | Err (e, progress) =>
      _ ← call (UpdateRun community run Failed (pp_step_index progress) (prefix ++ pp_trace progress) (Some (error_code e))); Ret tt
  end.

(** The task that is spawned for a run. *)
Definition run_task (en : Engine) (community : CommunityId) (run : Uuid) (def : WorkflowDef) (t : TriggerContext) : wf num unit :=
  r ← execute_run en community run def t;
  finalize_run community run r None.

(** The resumption of a run, whose earlier trace is kept. *)
Definition resume_task (en : Engine) (community : CommunityId) (run : Uuid) (def : WorkflowDef) (t : TriggerContext)
    (start_index : nat) (initial : option (gmap string (Json num))) (existing : option (list (TraceEntry num))) : wf num unit :=
  r ← execute_from_step en community run def t start_index initial;
  finalize_run community run r existing.

End run.

(** ** What a run promises *)

Section promise.
Context {num : Type} `{EvalApi num, TemplateApi num, WebhookApi num, NostrApi, UuidParse, HexApi} {siter : MapIter string}.

Definition wevent : Type := {c : wcall num & wreply c}.
Definition wev (c : wcall num) (r : wreply c) : wevent := existT c r.
Definition wcall_of (e : wevent) : wcall num := projT1 e.

Definition is_interrupt (e : wevent) : bool := match wcall_of e with Interrupted => true | _ => false end.

(** A history without the moments a future could have been dropped. *)
Definition erase (h : list wevent) : list wevent := List.filter (λ e, negb (is_interrupt e)) h.

(** The write fence of a history: the community it is held for, and whether it has been
    verified since it was taken and not been found lost. *)
Definition fence_step (s : option (CommunityId * bool)) (e : wevent) : option (CommunityId * bool) :=
  let 'existT c r := e in
  match c return wreply c → option (CommunityId * bool) with
  | AcquireWrite community => λ r, if is_ok r then Some (community, false) else s
  | VerifyWrite => λ r, if is_ok r then (λ f, (f.1, true)) <$> s else None
  | FinishWrite => λ _, None
  | _ => λ _, s
  end r.
Definition fence (h : list wevent) : option (CommunityId * bool) := foldl fence_step None h.

Section guarantee.
Context (community : CommunityId) (run : Uuid) (t : TriggerContext) (steps : list Step) (resumed : bool) (start : nat)
  (prefix : list (TraceEntry num)).

(** The condition of the step came out as [b]; a step without one is always taken. *)
Definition conditioned (h : list wevent) (step : Step) (b : bool) : Prop :=
  match st_if_expr step with
  | Some expr => ∃ ctx, wev (Evaluate expr ctx) (EvalDone (Ok b)) ∈ h
  | None => b = true
  end.

(** The action was carried out and [output] reports it. *)
Definition effect_of (action : ActionDef) (output : Json num) (h : list wevent) : Prop :=
  match action with
  | SendMessage text _ _ => ∃ channel author reply_to id,
      wev (SinkSend community channel text author reply_to) (Ok id) ∈ h ∧
      output = JObject [("event_id", JString id); ("sent", JBool true)]
  | AddReaction emoji => ∃ status body response,
      wev (PostReaction (tc_message_id t) emoji) (Ok (status, body)) ∈ h ∧ is_success status = true ∧
      output = JObject [("added", JBool true); ("response", response); ("status", JNumber (json_num status))]
  | CallWebhook url method headers body => ∃ ip status chunks read,
      wev (HttpSend url (default "POST" method) headers body ip) (Ok (status, chunks)) ∈ h ∧ read_body [] chunks = Ok read ∧
      output = JObject [("body", JString (from_utf8_lossy read)); ("status", JNumber (json_num status))]
  | Delay duration => ∃ secs,
      parse_duration_secs duration = Ok secs ∧ wev (SleepSecs secs) tt ∈ h ∧
      output = JObject [("slept_secs", JNumber (json_num secs))]
  | SendDm _ _ | SetChannelTopic _ | RequestApproval _ _ _ => False
  end.

(** The entry says of the step what happened. *)
Definition justified (h : list wevent) (step : Step) (e : TraceEntry num) : Prop :=
  match e with
  | TraceSkipped id => id = st_id step ∧ conditioned h step false
  | TraceCompleted id output => id = st_id step ∧ conditioned h step true ∧
      ∃ outputs action, resolve_step_templates t outputs step = Ok action ∧ effect_of action output h
  end.

(** The trace of the steps from [start] up to [i]: an entry for each, in order. *)
Definition traced (h : list wevent) (i : nat) (trace : list (TraceEntry num)) : Prop :=
  Forall2 (justified h) (take (i - start) (drop start steps)) trace.

(** The step asks for an approval. *)
Definition asks_approval (step : Step) : Prop :=
  ∃ outputs from message timeout, resolve_step_templates t outputs step = Ok (RequestApproval from message timeout).

(** What a run may write into its row.  When it starts to run: its first step, and the
    empty trace, or for a resumed run the one it has just read (empty when the read
    failed).  When it ends: the earlier trace and that of its own steps. *)
Definition may_update (h : list wevent) (status : RunStatus) (i : nat) (trace : list (TraceEntry num)) (failure : option string) : Prop :=
  match status with
  | Running => failure = None ∧ i = start ∧
      if resumed then ∃ r, last h = Some (wev (GetRun community run) r) ∧ trace = match r with Ok (_, read) => read | Err _ => [] end
      else trace = []
  | Completed => failure = None ∧ i = length steps ∧ ∃ own, trace = prefix ++ own ∧ traced h i own
  | Failed => ∃ code own, failure = Some code ∧ trace = prefix ++ own ∧ traced h i own ∧
      (own = [] ∧ i = 0 ∨ start ≤ i < length steps) ∧
      (code = "approval_not_supported" → ∃ step, steps !! i = Some step ∧ asks_approval step)
  | _ => False
  end.

Definition guard (h : list wevent) (c : wcall num) : Prop :=
  match c with
  | SinkSend community' channel text author reply_to =>
      fence h = Some (community, true) ∧ community' = community ∧
      ∃ workflow trace w, wev (GetRun community run) (Ok (workflow, trace)) ∈ h ∧ wev (GetWorkflow community workflow) (Ok w) ∈ h ∧
        author = hex_encode (w_owner_pubkey w) ∧ (∀ ch, w_channel_id w = Some ch → channel = uuid_to_string ch)
  | HttpSend url _ _ _ ip =>
      fence h = Some (community, true) ∧
      ∃ host port addrs, webhook_url url = Ok (Some host, port) ∧ wev (ResolveHost host (default 80%N port)) (Ok addrs) ∈ h ∧
        head addrs = Some ip ∧ Forall (λ a, is_private_ip a = false) addrs
  | PostReaction message_id _ => fence h = Some (community, true) ∧ message_id = tc_message_id t ∧ message_id ≠ ""
  | SleepSecs secs => fence h = Some (community, true) ∧ (secs ≤ MAX_DELAY_SECS)%N
  | UpdateRun community' run' status i trace failure => community' = community ∧ run' = run ∧ may_update h status i trace failure
  | CreateRun _ _ _ _ | Spawn _ _ _ _ | ClaimFire _ _ _ | AttachRun _ _ _ _ => False
  | _ => True
  end.
Definition guarantee (h : list wevent) (c : wcall num) : Prop := guard (erase h) c.

(** ** Lemmas *)

Abbreviation W p h Q := (whatever wev (λ _ _, True) guarantee p h Q).

Lemma erase_snoc h e : erase (h ++ [e]) = if is_interrupt e then erase h else erase h ++ [e].
Proof. unfold erase. rewrite List.filter_app. simpl. destruct (is_interrupt e); simpl; [apply app_nil_r|done]. Qed.

Lemma fence_snoc h e : fence (h ++ [e]) = fence_step (fence h) e.
Proof. unfold fence. by rewrite foldl_app. Qed.

Lemma interruptible_spec {A} (p : wf num A) h1 h2 (Q : list wevent → A → Prop) :
  erase h1 = erase h2 → (∀ h h' a, erase h = erase h' → Q h a → Q h' a) →
  W p h1 Q → W (interruptible p) h2 (λ h o, ∀ a, o = Some a → Q h a).
Proof.
  intros He HQ. revert h1 h2 He. induction p as [a|c k IH]; intros h1 h2 He; simpl.
  - intros Ha a' [= <-]. by apply (HQ h1).
  - unfold guarantee at 1 3. rewrite He. intros [Hg Hk]. split; [done|]. intros r _. split; [done|]. intros [|] _; [done|].
    apply (IH r (h1 ++ [wev c r])); [|by apply Hk]. rewrite !erase_snoc, He. simpl. done.
Qed.

Lemma erase_prefix h h' : h `prefix_of` h' → erase h `prefix_of` erase h'.
Proof. intros [k ->]. unfold erase. rewrite List.filter_app. by eexists. Qed.

Lemma settles {A} (p : wf num A) h (Q : list wevent → A → Prop) :
  W p h (λ h a, Q (erase h) a) → W (interruptible p) h (λ h o, ∀ a, o = Some a → Q (erase h) a).
Proof. intros Hp. apply (interruptible_spec p h h (λ h a, Q (erase h) a)); [done| |done]. by intros h1 h2 a ->. Qed.

(** What an action leaves. *)
Definition performed (action : ActionDef) (h : list wevent) (r : result WorkflowError StepResult) : Prop :=
  match r with
  | Ok (StepCompleted output) => effect_of action output h
  | Ok (StepSuspended _) => ∃ from message timeout, action = RequestApproval from message timeout
  | Ok StepSkipped => False
  | Err _ => True
  end.

(** A reply that has just come is in the history. *)
Lemma just_in h c r : is_interrupt (wev c r) = false → wev c r ∈ erase (h ++ [wev c r]).
Proof. intros Hi. rewrite erase_snoc, Hi. apply elem_of_app. right. by left. Qed.

Lemma performed_mono action h h' r : h `prefix_of` h' → performed action h r → performed action h' r.
Proof.
  intros [k ->]. destruct r as [[output|token|]|e]; simpl; try done. destruct action; simpl; try done; intros Hx; naive_solver set_solver.
Qed.

Lemma send_spec en text channel reply h : fence (erase h) = Some (community, true) →
  W (send_message en community run t text channel reply) h (λ h' r, performed (SendMessage text channel reply) (erase h') r).
Proof.
  intros Hf. unfold send_message. split; [done|]. intros [[workflow trace]|] _; [|done]. split; [done|]. intros [w|] _; [|done]. cbn.
  destruct (resolve_send_message_channel channel (tc_channel_id t) (w_channel_id w)) as [ch|] eqn:Hch; [|done].
  destruct (reply && _); [done|]. destruct (en_has_sink en); [|done]. split.
  - unfold guarantee. rewrite !erase_snoc. simpl. rewrite !fence_snoc. simpl. split_and!; [done..|].
    exists workflow, trace, w. split; [set_solver|]. split; [set_solver|]. split; [done|]. intros x Hx.
    rewrite Hx in Hch. unfold resolve_send_message_channel in Hch. repeat case_match; by simplify_eq.
  - intros [id|] _; [|done]. do 4 eexists. split; [by apply just_in|done].
Qed.

Lemma webhook_spec url method headers body h : fence (erase h) = Some (community, true) →
  W (call_webhook_impl url (default "POST" method) headers body) h
    (λ h' r, ∀ output, r = Ok output → effect_of (CallWebhook url method headers body) output (erase h')).
Proof.
  intros Hf. unfold call_webhook_impl. destruct (webhook_url url) as [[[host|] port]|] eqn:Hu; try done. cbn. split; [done|].
  intros [[|ip ips]|] _; try done. simpl. destruct (is_private_ip ip || existsb is_private_ip ips) eqn:Hp; [done|].
  simpl. destruct (method_ok (default "POST" method)); [|done]. simpl. split.
  - unfold guarantee. rewrite erase_snoc. simpl. rewrite fence_snoc. split; [done|]. exists host, port, (ip :: ips).
    split; [done|]. split; [set_solver|]. split; [done|]. apply Forall_forall. intros a Ha. apply not_true_iff_false. intros Hpr.
    apply not_true_iff_false in Hp. apply Hp. change (existsb is_private_ip (ip :: ips) = true). apply existsb_exists.
    exists a. split; [by apply list_elem_of_In|done].
  - intros [[status chunks]|] _ output; simpl; [|done]. destruct (read_body [] chunks) as [read|] eqn:Hr; [|done]. intros [= <-].
    exists ip, status, chunks, read. split; [by apply just_in|done].
Qed.

Lemma perform_spec en action h : fence (erase h) = Some (community, true) →
  W (perform en community run t action) h (λ h' r, performed action (erase h') r).
Proof.
  intros Hf. destruct action as [text channel reply| | |emoji|url method headers body| |duration]; try done.
  - by apply send_spec.
  - simpl. case_decide; [done|]. cbn. split; [by split_and!|]. intros [[status body]|] _; simpl; [|done].
    destruct (is_success status) eqn:Hs; [|done]. simpl. do 3 eexists. split; [by apply just_in|done].
  - apply whatever_bind. eapply whatever_mono; [by apply webhook_spec|]. intros h' [output|e] _ Hr; [|done]. by apply Hr.
  - split; [done|]. intros token _. simpl. by do 3 eexists.
  - simpl. destruct (parse_duration_secs duration) as [secs|] eqn:Hd; [|done]. destruct (N.ltb_spec MAX_DELAY_SECS secs); [done|].
    split; [by split_and!|]. intros [] _. exists secs. split; [done|]. split; [by apply just_in|done].
Qed.

Lemma dispatch_spec en action h : W (dispatch_action en community run t action) h (λ h' r, performed action (erase h') r).
Proof.
  split; [done|]. intros [[]|] _; [|done]. cbn. split; [done|]. intros [[]|] _; [|done]. cbn. split; [done|]. intros [[]|] _; [|done].
  cbn. apply whatever_bind. eapply whatever_bind.
  eapply whatever_mono; [apply (settles _ _ (performed action)), perform_spec|].
  { rewrite !erase_snoc. simpl. by rewrite !fence_snoc. }
  intros h' [r|] _ Hr; simpl; [|done]. specialize (Hr r eq_refl).
  split; [done|]. intros [[]|] _; [|done]. simpl. split; [done|]. intros rel _.
  assert (performed action (erase ((h' ++ [wev VerifyWrite (Ok tt)]) ++ [wev FinishWrite rel])) r) as Hr'.
  { eapply performed_mono; [|exact Hr]. apply erase_prefix. rewrite <-app_assoc. by eexists. }
  by destruct r, rel.
Qed.

Lemma condition_spec step outputs h :
  W (condition_of step t outputs) h (λ h' r, ∀ b, r = Ok b → conditioned (erase h') step b).
Proof.
  unfold condition_of, conditioned. destruct (st_if_expr step) as [expr|]; [|by intros b [= <-]]. unfold evaluate_condition.
  destruct (build_eval_context t outputs) as [ctx|]; [|done]. destruct (MAX_EXPR_LEN <? String.length expr)%nat; [done|].
  split; [done|]. intros [| |[b|]] _; simpl; try done. intros b' [= <-]. exists ctx. by apply just_in.
Qed.

Lemma conditioned_mono h h' step b : h `prefix_of` h' → conditioned h step b → conditioned h' step b.
Proof. intros [k ->]. unfold conditioned. destruct (st_if_expr step); [|done]. set_solver. Qed.

Lemma justified_mono h h' step e : h `prefix_of` h' → justified h step e → justified h' step e.
Proof.
  intros Hp. destruct e as [id|id output]; simpl.
  - intros [? ?]. split; [done|]. by eapply conditioned_mono.
  - intros (? & ? & outputs & action & ? & He). split; [done|]. split; [by eapply conditioned_mono|].
    exists outputs, action. split; [done|]. by apply (performed_mono action h h' (Ok (StepCompleted output))).
Qed.

Lemma traced_mono h h' i trace : h `prefix_of` h' → traced (erase h) i trace → traced (erase h') i trace.
Proof. intros Hp Ht. eapply Forall2_impl; [exact Ht|]. intros step e. by apply justified_mono, erase_prefix. Qed.

Lemma traced_next h i step trace e :
  steps !! i = Some step → start ≤ i → traced h i trace → justified h step e → traced h (S i) (trace ++ [e]).
Proof.
  unfold traced. intros Hi Hs Ht He. replace (S i - start) with (S (i - start)) by lia.
  rewrite (take_S_r _ _ step); [by apply Forall2_app; [|constructor]|]. rewrite lookup_drop. by replace (start + (i - start)) with i by lia.
Qed.

Definition progress_ok (h : list wevent) (r : result (WorkflowError * PartialProgress) ExecutionResult) : Prop :=
  match r with
  | Ok er => traced h (er_step_index er) (er_trace er) ∧
      match er_approval_token er with
      | None => er_step_index er = length steps
      | Some _ => start ≤ er_step_index er < length steps ∧ ∃ step, steps !! er_step_index er = Some step ∧ asks_approval step
      end
  | Err (_, p) => traced h (pp_step_index p) (pp_trace p) ∧
      (pp_trace p = [] ∧ pp_step_index p = 0 ∨ start ≤ pp_step_index p < length steps)
  end.

Lemma no_progress_ok h e : progress_ok h (Err (e, no_progress)).
Proof. split; [constructor|by left]. Qed.

Lemma progress_mono h h' r : h `prefix_of` h' → progress_ok (erase h) r → progress_ok (erase h') r.
Proof.
  intros Hp. destruct r as [er|[e p]]; simpl; intros [Ht ?]; (split; [by eapply traced_mono|done]).
Qed.

Lemma execute_steps_spec en i rest outputs trace h :
  drop i steps = rest → i ≤ length steps → (i < start → trace = []) → traced (erase h) i trace →
  W (execute_steps en community run t start i rest outputs trace) h (λ h' r, progress_ok (erase h') r).
Proof.
  revert i outputs trace h. induction rest as [|step rest IH]; intros i outputs trace h Hd Hi Hlt Ht; cbn [execute_steps].
  { split; [done|]. simpl. apply (f_equal length) in Hd. rewrite length_drop in Hd. simpl in Hd. lia. }
  assert (steps !! i = Some step) as Hl by (rewrite <-(Nat.add_0_r i), <-lookup_drop, Hd; done).
  pose proof (lookup_lt_Some _ _ _ Hl) as Hlen.
  assert (drop (S i) steps = rest) as Hd' by (rewrite <-Nat.add_1_r, <-drop_drop, Hd; done).
  destruct (Nat.ltb_spec i start) as [Hs|Hs].
  { apply IH; [done|lia|by rewrite Hlt by done|]. rewrite (Hlt Hs). unfold traced. replace (S i - start) with 0 by lia. constructor. }
  assert (∀ h' e, h `prefix_of` h' → progress_ok (erase h') (Err (e, mkPartialProgress i trace))) as Hfail.
  { intros h' e Hp. split; [by eapply traced_mono|]. right. simpl. lia. }
  apply whatever_bind. eapply whatever_mono; [apply condition_spec|]. intros h1 [c|e] Hp1 Hc; [|by apply Hfail].
  specialize (Hc c eq_refl). assert (traced (erase h1) i trace) as Ht1 by (by eapply traced_mono).
  destruct c; [|apply IH; [done|lia|lia|by apply traced_next with step]].
  destruct (resolve_step_templates t outputs step) as [action|] eqn:Ha; [|by apply Hfail].
  apply whatever_bind. eapply whatever_mono; [apply (settles _ _ (performed action)), dispatch_spec|].
  intros h2 [r|] Hp2 Hr; [specialize (Hr r eq_refl)|by apply Hfail; etrans].
  assert (traced (erase h2) i trace) as Ht2 by (by eapply traced_mono).
  destruct r as [[output|token|]|e]; [| |done|by apply Hfail; etrans].
  - apply IH; [done|lia|lia|]. apply traced_next with step; [done|lia|done|]. split; [done|].
    split; [by eapply conditioned_mono, Hc; apply erase_prefix|]. by exists outputs, action.
  - split; [done|]. simpl. split; [lia|]. exists step. split; [done|]. destruct Hr as (from & message & timeout & ->).
    by exists outputs, from, message, timeout.
Qed.

Lemma with_permit_spec (p : wf num (result (WorkflowError * PartialProgress) ExecutionResult)) h :
  (∀ h, W p h (λ h' r, progress_ok (erase h') r)) → W (with_permit p) h (λ h' r, progress_ok (erase h') r).
Proof.
  intros Hp. split; [done|]. intros [|] _; cbn -[whatever progress_ok].
  - apply whatever_bind. eapply whatever_mono; [apply Hp|]. intros h' r _ Hr. split; [done|]. intros [] _.
    eapply progress_mono; [|exact Hr]. by eexists.
  - apply no_progress_ok.
Qed.

(** The end of a run: its last call records the outcome. *)
Definition recorded (h : list wevent) : Prop :=
  ∃ status i trace failure r, last h = Some (wev (UpdateRun community run status i trace failure) r) ∧
    (status = Completed ∨ status = Failed).

Lemma error_code_plain e : error_code e ≠ "approval_not_supported".
Proof. by destruct e. Qed.

Lemma finalize_spec existing r h : prefix = default [] existing → progress_ok (erase h) r →
  W (finalize_run community run r existing) h (λ h _, recorded h).
Proof.
  intros Hp Hr. unfold finalize_run. rewrite <-Hp.
  assert (∀ status i trace failure h r, status = Completed ∨ status = Failed →
    recorded (h ++ [wev (UpdateRun community run status i trace failure) r])) as Hrec.
  { intros status i trace failure h' r' Hs. do 5 eexists. split; [apply last_snoc|done]. }
  destruct r as [er|[e p]]; cbn in Hr.
  - destruct Hr as [Ht Hn]. destruct (er_approval_token er) as [token|]; (split; [|intros r _; apply Hrec; auto]).
    + split_and!; [done..|]. do 2 eexists. split_and!; [done..|right; apply Hn|]. intros _. apply Hn.
    + split_and!; [done..|]. split; [done|]. split; [by apply Hn|]. by exists (er_trace er).
  - destruct Hr as [Ht Hn]. split; [|intros r _; apply Hrec; auto]. split_and!; [done..|]. do 2 eexists. split_and!; [done..|].
    intros E. by apply error_code_plain in E.
Qed.

End guarantee.

Lemma run_task_spec en community run def t h :
  whatever wev (λ _ _, True) (guarantee community run t (wd_steps def) false 0 []) (run_task en community run def t) h
    (λ h _, recorded community run h).
Proof.
  apply whatever_bind. eapply whatever_mono.
  - apply with_permit_spec. intros h'. split; [done|]. intros [[]|] _; [|apply no_progress_ok]. cbn -[whatever execute_steps].
    apply execute_steps_spec; [done|lia|lia|constructor].
  - intros h' r _ Hr. by apply finalize_spec.
Qed.

Lemma resume_task_spec en community run def t start initial existing h :
  whatever wev (λ _ _, True) (guarantee community run t (wd_steps def) true start (default [] existing))
    (resume_task en community run def t start initial existing) h (λ h _, recorded community run h).
Proof.
  apply whatever_bind. eapply whatever_mono.
  - apply with_permit_spec. intros h'. split; [done|]. intros r _. cbn -[whatever execute_steps progress_ok]. split.
    + split_and!; [done..|]. split; [done|]. split; [done|]. exists r. split; [|by destruct r as [[]|]]. unfold guarantee. rewrite erase_snoc. apply last_snoc.
    + intros [[]|] _; [|apply no_progress_ok]. apply execute_steps_spec; [done|lia|done|constructor].
  - intros h' r _ Hr. by apply finalize_spec.
Qed.

End promise.

(** ** Theorems *)

Section properties.
Context {num : Type} `{EvalApi num, TemplateApi num, WebhookApi num, NostrApi, UuidParse, HexApi} {siter : MapIter string}.
Context (en : Engine) (community : CommunityId) (run_id : Uuid) (def : WorkflowDef) (t : TriggerContext).

(** The two ways a run is executed: from the start, and resumed at a step after the trace
    of the earlier ones. *)
Inductive task : bool → nat → list (TraceEntry num) → wf num unit → Prop :=
| fresh_task : task false 0 [] (run_task en community run_id def t)
| resumed_task start initial existing :
    task true start (default [] existing) (resume_task en community run_id def t start initial existing).

Lemma task_spec resumed start prefix p h : task resumed start prefix p →
  whatever wev (λ _ _, True) (guarantee community run_id t (wd_steps def) resumed start prefix) p h (λ h _, recorded community run_id h).
Proof. intros [|]; [apply run_task_spec|apply resume_task_spec]. Qed.

(** C9: whatever the database, the evaluator, DNS, the network and the timeouts do, a run has
    its effects only under the write fence of its own community, held and verified: a
    message goes out in that community, under the name of the owner of the workflow of this
    run, and to the channel of the workflow if it has one; a webhook is sent only to the
    address that the name resolved to, when none of its addresses is private; a reaction goes
    to the triggering message; a delay is at most 270 seconds. *)
Theorem side_effects_fenced resumed start prefix p es r before e rest :
  task resumed start prefix p → exec wev p es r → es = before ++ e :: rest →
  match wcall_of e with
  | SinkSend _ _ _ _ _ | HttpSend _ _ _ _ _ | PostReaction _ _ | SleepSecs _ =>
      guard community run_id t (wd_steps def) resumed start prefix (erase before) (wcall_of e)
  | _ => True
  end.
Proof.
  intros Hp He Heq. destruct (whatever_run wev wcall_of (λ _ _, eq_refl) _ _ p _ es r (task_spec resumed start prefix p [] Hp) He) as [_ Hg]; [done|].
  specialize (Hg _ _ _ Heq). unfold guarantee in Hg. by destruct (wcall_of e).
Qed.

(** C21: a run always ends, and its last call records its outcome.  Completed means that
    every step from the first was gone through; failed carries a code and the step it
    failed at (0 without a trace when no step was reached), and the code for approvals only
    at a step that asks for one.  The trace then written is the earlier one followed by one
    entry for each step from the start to the recorded one, in order, and each entry is
    true: a skipped step has a condition that was evaluated to false, a completed one was
    not kept back by its condition and its action was carried out with the reported
    output.  When a run starts to run it writes its first step and the empty trace, or, if
    it is resumed, the trace it has just read (an empty one when that read failed). *)
Theorem run_always_recorded resumed start prefix p (answer : list wevent → ∀ c, wreply c) :
  task resumed start prefix p →
  let es := (Programs.run wev answer p []).1 in
  recorded community run_id es ∧
  ∀ before e rest, es = before ++ e :: rest →
    match wcall_of e with
    | UpdateRun c r status i trace failure => c = community ∧ r = run_id ∧
        may_update community run_id t (wd_steps def) resumed start prefix (erase before) status i trace failure
    | _ => True
    end.
Proof.
  intros Hp es. destruct (run_exec wev answer p []) as (es' & He & Hx & _). unfold es. rewrite He. simpl.
  destruct (whatever_run wev wcall_of (λ _ _, eq_refl) _ _ p _ es' _ (task_spec resumed start prefix p [] Hp) Hx) as [Hr Hg]; [done|].
  split; [done|]. intros before e rest Heq. specialize (Hg _ _ _ Heq). unfold guarantee in Hg. by destruct (wcall_of e).
Qed.

End properties.

(** ** Witnesses *)

Module WorkflowRunDemo.

#[local] Instance demo_eval : EvalApi Z :=
  { eval_ctx := list string; eval_new := []; eval_set_value := λ n _ c, Ok (n :: c); eval_set_function := λ n _ c, Ok (n :: c);
    num_as_i64 := Some; num_is_f64 := λ _, false }.
#[local] Instance demo_templates : TemplateApi Z := { json_text := λ _, "?"; npub := λ _, None }.
#[local] Instance demo_webhook : WebhookApi Z :=
  { webhook_url := λ s, if decide (s = "") then Err "empty" else Ok (Some "host", None); method_ok := λ _, true;
    json_parse := λ _, None; json_num := Z.of_N }.
#[local] Instance demo_nostr : NostrApi :=
  { tag_kind := λ t, default "" (head t); tag_content := λ t, t !! 1; tag_is_letter := λ _ _, false; slt_to_string := λ _, "";
    id_to_hex := λ _, ""; uuid_to_string := num_to_string }.
#[local] Instance demo_uuid : UuidParse := parse_uint u64_max.
#[local] Instance demo_hex : HexApi := { hex_encode := str_of_bytes; hex_decode := λ _, None }.

Definition greet : Step := mkStep "greet" None None None (SendMessage "hi {{trigger.author}}" None true).
Definition maybe : Step := mkStep "maybe" None (Some "false") None (Delay "5m").
Definition hook : Step := mkStep "hook" None None None (CallWebhook "u" None None (Some "{{steps.greet.output.event_id}}")).
Definition def : WorkflowDef := mkWorkflowDef "w" None (MessagePosted None) [greet; maybe; hook] true.
Definition trigger : TriggerContext := mkTriggerContext "text" "alice" "7" "0" "" "m" false ∅.
Definition record : WorkflowRecord Z := mkWorkflowRecord Z 5 1 [x61] (Some 7%N) JNull.

(** A world in which everything works; the name resolves to [ip]. *)
Definition world (ip : IpAddr) (h : list wevent) (c : wcall Z) : wreply c :=
  match c with
  | TryPermit => true
  | Interrupted => false
  | ReleasePermit | SleepSecs _ | Spawn _ _ _ _ => tt
  | UpdateRun _ _ _ _ _ _ | AcquireWrite _ | VerifyWrite | FinishWrite | AttachRun _ _ _ _ => Ok tt
  | GetRun _ _ => Ok (5%N, [])
  | GetWorkflow _ _ => Ok record
  | Evaluate _ _ => EvalDone (Ok false)
  | SinkSend _ _ _ _ _ => Ok "event"
  | PostReaction _ _ => Ok (200%N, None)
  | ResolveHost _ _ => Ok [ip]
  | HttpSend _ _ _ _ _ => Ok (204%N, [Ok [x61]])
  | NewToken => 3%N
  | ListChannelWorkflows _ _ | ListAllWorkflows => Ok []
  | GetMemberRole _ _ _ => Ok None
  | CreateRun _ _ _ _ => Ok 9%N
  | LatestFire _ _ => Ok None
  | ClaimFire _ _ _ => Ok true
  end.

Definition engine : Engine := mkEngine true 300.
Definition public : IpAddr := V4 8 8 8 8.
Definition demo (ip : IpAddr) := Programs.run wev (world ip) (run_task engine 1 9 def trigger) [].

(** The effects and the outcome. *)
Definition effects (h : list wevent) : list (wcall Z) :=
  List.filter (λ c, match c with SinkSend _ _ _ _ _ | HttpSend _ _ _ _ _ | UpdateRun _ _ _ _ _ _ => true | _ => false end) (wcall_of <$> h).

Lemma demo_effects :
  effects (demo public).1 =
    [UpdateRun 1 9 Running 0 [] None;
     SinkSend 1 "7" "hi alice" "a" (Some "m");
     HttpSend "u" "POST" None (Some "event") public;
     UpdateRun 1 9 Completed 3
       [TraceCompleted "greet" (JObject [("event_id", JString "event"); ("sent", JBool true)]); TraceSkipped "maybe";
        TraceCompleted "hook" (JObject [("body", JString "a"); ("status", JNumber 204%Z)])] None].
Proof. by vm_compute. Qed.

(** An address of the host itself, written as a mapped IPv6 address. *)
Lemma demo_ssrf :
  effects (demo (V6 (replicate 10 0%N ++ [0xff; 0xff; 127; 0; 0; 1]%N))).1 =
    [UpdateRun 1 9 Running 0 [] None;
     SinkSend 1 "7" "hi alice" "a" (Some "m");
     UpdateRun 1 9 Failed 2
       [TraceCompleted "greet" (JObject [("event_id", JString "event"); ("sent", JBool true)]); TraceSkipped "maybe"]
       (Some "webhook_failed")].
Proof. by vm_compute. Qed.

Lemma run_always_recorded_witness :
  let es := (demo public).1 in
  recorded 1 9 es ∧
  ∀ before e rest, es = before ++ e :: rest →
    match wcall_of e with
    | UpdateRun c r status i trace failure => c = 1%N ∧ r = 9%N ∧ may_update 1 9 trigger (wd_steps def) false 0 [] (erase before) status i trace failure
    | _ => True
    end.
Proof. apply (run_always_recorded engine 1 9 def trigger false 0 [] (run_task engine 1 9 def trigger) (world public)). constructor. Defined.

Definition sent : wcall Z := SinkSend 1 "7" "hi alice" "a" (Some "m").

Lemma demo_sends : (demo public).1 !! 16 = Some (wev sent (Ok "event")).
Proof. by vm_compute. Qed.

Lemma demo_run_exec : exec wev (run_task engine 1 9 def trigger) (demo public).1 (demo public).2.
Proof. destruct (run_exec wev (world public) (run_task engine 1 9 def trigger) []) as (es & He & Hx & _). unfold demo. by rewrite He. Qed.

Lemma side_effects_fenced_witness : guard 1 9 trigger (wd_steps def) false 0 [] (erase (take 16 (demo public).1)) sent.
Proof.
  apply (side_effects_fenced engine 1 9 def trigger false 0 [] (run_task engine 1 9 def trigger) (demo public).1 (demo public).2
    (take 16 (demo public).1) (wev sent (Ok "event")) (drop 17 (demo public).1)); [constructor|apply demo_run_exec|].
  symmetry. apply take_drop_middle, demo_sends.
Defined.

End WorkflowRunDemo.
