(* ===== verification/WorkflowEngine.v ===== *)
(** * Starting workflows ([buzz-workflow/src/lib.rs], [buzz-core/src/nip10.rs])

    The two doors through which runs are created: the events of a channel ([on_event]) and
    the scheduler, whose ticks run on every pod against one table of claims
    ([buzz-db/src/workflow.rs]).  The results: a run is created only right after the current
    authority of the owner was read and suffices, and in every interleaving of the pods a
    schedule instant starts at most one run. *)

From stdpp Require Import base gmap strings list relations.
From Stdlib Require Import Ascii.
From Stdlib.Strings Require Import Byte.
From S2P Require Import Prelude Programs Text Nostr CanonicalJson MeshWire Topics Filter EventQuery WorkflowSchema WorkflowRun.

(** ** Thread markers *)

Record ThreadMarkers := mkThreadMarkers { tm_root : option string; tm_reply : option string }.

Definition is_event_id_hex (id : string) : bool := bool_decide (String.length id = 64) && str_all is_ascii_hexdigit id.

Definition read_marker (m : ThreadMarkers) (parts : list string) : ThreadMarkers :=
  match parts with
  | kind :: id :: _ :: marker :: _ =>
      if bool_decide (kind = "e") && is_event_id_hex id then
        if decide (marker = "root") then mkThreadMarkers (Some id) (tm_reply m)
        else if decide (marker = "reply") then mkThreadMarkers (tm_root m) (Some id)
        else m
      else m
  | _ => m
  end.

Definition parse_thread_markers (tags : list Tag) : ThreadMarkers := foldl read_marker (mkThreadMarkers None None) tags.

(** ** Triggers *)

Definition KIND_REACTION : Z := 7.
Definition KIND_STREAM_MESSAGE : Z := 9.
Definition KIND_STREAM_MESSAGE_DIFF : Z := 40008.
Definition KIND_WORKFLOW_TRIGGERED : Z := 46001.
Definition KIND_WORKFLOW_APPROVAL_DENIED : Z := 46012.

Definition is_workflow_execution_kind (kind : Z) : bool :=
  ((KIND_WORKFLOW_TRIGGERED <=? kind) && (kind <=? KIND_WORKFLOW_APPROVAL_DENIED))%Z.

Definition trigger_matches_event (trigger : TriggerDef) (kind : Z) : bool :=
  match trigger with
  | MessagePosted _ => (kind =? KIND_STREAM_MESSAGE)%Z
  | ReactionAdded _ _ => (kind =? KIND_REACTION)%Z
  | DiffPosted _ => (kind =? KIND_STREAM_MESSAGE_DIFF)%Z
  | Schedule _ _ | Webhook => false
  end.

Definition owner_authority_allows (role : option string) (needs_elevated : bool) : bool :=
  match role with
  | None => false
  | Some r => if needs_elevated then bool_decide (r = "owner" ∨ r = "admin") else true
  end.

(** Nanoseconds to seconds. *)
Definition NANOS : Z := 1000000000.
Definition timestamp_of (now : Z) : Z := now / NANOS.

(** [i64::div_euclid], and [as i64]. *)
Definition div_euclid (a b : Z) : Z := Z.sgn b * (a / Z.abs b).
Definition as_i64_secs (n : N) : Z := let z := Z.of_N n in if (z <? 2 ^ 63)%Z then z else (z - 2 ^ 64)%Z.

Section engine.
Context {num : Type} `{EvalApi num, TemplateApi num, WebhookApi num, NostrApi, UuidParse, HexApi, CronApi, ChronoApi}
  {siter : MapIter string}.
(** The derived decoder of a stored definition. *)
Context (decode_def : Json num → option WorkflowDef).

Definition event_is_reply (e : NostrEvent) : bool := bool_decide (is_Some (tm_reply (parse_thread_markers (ev_tags e)))).

Definition reaction_target (tag : Tag) : option string :=
  if decide (tag_kind tag = "e") then
    match tag_content tag with
    | Some v => if is_event_id_hex v then Some v else None
    | None => None
    end
  else None.

Definition build_trigger_context (stored : StoredEvent) : TriggerContext :=
  let e := event stored in
  let reaction := bool_decide (event_kind_u32 e = KIND_REACTION) in
  mkTriggerContext (ev_content e) (id_to_hex (ev_pubkey e)) (default "" (uuid_to_string <$> channel_id stored))
    (num_to_string (Z.to_N (ev_created_at e))) (if reaction then ev_content e else "")
    (if reaction then default (id_to_hex (ev_id e)) (head (omap reaction_target (reverse (ev_tags e)))) else id_to_hex (ev_id e))
    (event_is_reply e) ∅.

Definition trigger_filter (t : TriggerDef) : option string :=
  match t with
  | MessagePosted f | ReactionAdded _ f | DiffPosted f => f
  | Schedule _ _ | Webhook => None
  end.

Definition should_fire_workflow (def : WorkflowDef) (t : TriggerContext) : wf num bool :=
  if match wd_trigger def with ReactionAdded (Some expected) _ => bool_decide (tc_emoji t ≠ expected) | _ => false end then Ret false
  else
    match trigger_filter (wd_trigger def) with
    | None => Ret true
    | Some expr => r ← evaluate_condition expr t ∅; Ret (match r with Ok b => b | Err _ => false end)
    end.

Definition check_owner_authority (community : CommunityId) (channel : Uuid) (owner : bytes) (def : WorkflowDef) :
    wf num (result WorkflowError unit) :=
  r ← call (GetMemberRole community channel owner);
  Ret (match r with
       | Err e => Err (Unauthorized e)
       | Ok role =>
           if owner_authority_allows role (requires_elevated_authority def) then Ok tt
           else Err (Unauthorized "workflow owner lacks current channel authority")
       end).

(** ** Events *)

Fixpoint fire_workflows (community : CommunityId) (channel : Uuid) (stored : StoredEvent) (ws : list (WorkflowRecord num)) :
    wf num unit :=
  match ws with
  | [] => Ret tt
  | w :: ws =>
      let next := fire_workflows community channel stored ws in
      let t := build_trigger_context stored in
      match decode_def (w_definition w) with
      | None => next
      | Some def =>
          if negb (wd_enabled def) || negb (trigger_matches_event (wd_trigger def) (event_kind_u32 (event stored))) then next
          else
            fires ← should_fire_workflow def t;
            if negb fires then next
            else
              allowed ← check_owner_authority community channel (w_owner_pubkey w) def;
              match allowed with
              | Err _ => next
              | Ok _ =>
                  r ← call (CreateRun community (w_id w) (Some (ev_id (event stored))) t);
                  match r with
                  | Err _ => next
                  | Ok run => _ ← call (Spawn community run def t); next
                  end
              end
      end
  end.

Abbreviation workflow_cache := (gmap (CommunityId * Uuid) (list (WorkflowRecord num))).

Definition invalidate_channel_workflows (community : CommunityId) (channel : Uuid) (cache : workflow_cache) : workflow_cache :=
  delete (community, channel) cache.

Definition on_event (cache : workflow_cache) (community : CommunityId) (stored : StoredEvent) :
    wf num (result WorkflowError unit * workflow_cache) :=
  match channel_id stored with
  | None => Ret (Ok tt, cache)
  | Some channel =>
      if is_workflow_execution_kind (event_kind_u32 (event stored)) then Ret (Ok tt, cache)
      else
        match cache !! (community, channel) with
        | Some ws => _ ← fire_workflows community channel stored ws; Ret (Ok tt, cache)
        | None =>
            r ← call (ListChannelWorkflows community channel);
            match r with
            | Err e => Ret (Err (Database e), cache)
            | Ok ws => _ ← fire_workflows community channel stored ws; Ret (Ok tt, <[(community, channel) := ws]> cache)
            end
        end
  end.

(** ** The scheduler *)

Definition cron_fire_instant (expr : string) (now window_secs : Z) : option Z :=
  match cron_parse (normalize_cron expr) with
  | Some sched =>
      match cron_next sched (now - window_secs * NANOS) with
      | Some at_ => if (at_ <=? now)%Z then Some at_ else None
      | None => None
      end
  | None => None
  end.

Definition interval_fire_instant (dur : string) (now : Z) : option Z :=
  match parse_duration_secs dur with
  | Ok interval_secs =>
      if (0 <? interval_secs)%N then
        let secs := as_i64_secs interval_secs in
        (λ s, s * NANOS)%Z <$> from_timestamp (div_euclid (timestamp_of now) secs * secs)
      else None
  | Err _ => None
  end.

Definition interval_should_fire (dur : string) (last_fired : option Z) (now : Z) : bool :=
  match parse_duration_secs dur with
  | Ok interval_secs => (interval_secs <=? Z.to_N (Z.abs ((now - default now last_fired) ÷ NANOS)))%N
  | Err _ => false
  end.

Abbreviation fired_map := (gmap (CommunityId * Uuid) Z).

(** The decision, and the clock with the anchor that a cold start seeds. *)
Definition interval_prefilter_should_fire (fired : fired_map) (key : CommunityId * Uuid) (dur : string) (last : option Z)
    (now : Z) : bool * fired_map :=
  if interval_should_fire dur last now then (true, fired)
  else (false, match last with None => <[key := now]> fired | Some _ => fired end).

(** The instant this tick fires for, with whether it is an interval's. *)
Definition schedule_due (now : Z) (w : WorkflowRecord num) (trigger : TriggerDef) (fired : fired_map) :
    wf num (option (Z * bool) * fired_map) :=
  let key := (w_community_id w, w_id w) in
  match trigger with
  | Schedule (Some expr) None => Ret ((λ at_, (at_, false)) <$> cron_fire_instant expr now 60, fired)
  | Schedule None (Some dur) =>
      last ← match fired !! key with
             | Some at_ => Ret (Some at_)
             | None => r ← call (LatestFire (w_community_id w) (w_id w)); Ret (match r with Ok anchor => anchor | Err _ => None end)
             end;
      let '(fires, fired) := interval_prefilter_should_fire fired key dur last now in
      Ret (if (fires : bool) then (λ at_, (at_, true)) <$> interval_fire_instant dur now else None, fired)
  | _ => Ret (None, fired)
  end.

Definition scheduled_context (channel : Uuid) (now : Z) : TriggerContext :=
  mkTriggerContext "" "" (uuid_to_string channel) (num_to_string (Z.to_N (timestamp_of now))) "" "" false ∅.

(** One workflow in a tick. *)
Definition tick_workflow (now : Z) (w : WorkflowRecord num) (fired : fired_map) : wf num fired_map :=
  let community := w_community_id w in
  let mark (interval : bool) fired := if interval then <[(community, w_id w) := now]> fired else fired in
  match decode_def (w_definition w) with
  | None => Ret fired
  | Some def =>
      if negb (wd_enabled def) then Ret fired
      else
        match w_channel_id w with
        | None => Ret fired
        | Some channel =>
            d ← schedule_due now w (wd_trigger def) fired;
            match d with
            | (None, fired) => Ret fired
            | (Some (scheduled_for, interval), fired) =>
                allowed ← check_owner_authority community channel (w_owner_pubkey w) def;
                match allowed with
                | Err _ => Ret fired
                | Ok _ =>
                    claim ← call (ClaimFire community (w_id w) scheduled_for);
                    match claim with
                    | Err _ => Ret fired
                    | Ok false => Ret (mark interval fired)
                    | Ok true =>
                        let t := scheduled_context channel now in
                        r ← call (CreateRun community (w_id w) None t);
                        match r with
                        | Err _ => Ret fired
                        | Ok run =>
                            _ ← call (AttachRun community (w_id w) scheduled_for run);
                            _ ← call (Spawn community run def t);
                            Ret (mark interval fired)
                        end
                    end
                end
            end
        end
  end.

Fixpoint tick_workflows (now : Z) (ws : list (WorkflowRecord num)) (fired : fired_map) : wf num fired_map :=
  match ws with
  | [] => Ret fired
  | w :: ws => fired ← tick_workflow now w fired; tick_workflows now ws fired
  end.

(** One round of [run]; the anchors of workflows that are gone are dropped. *)
Definition tick (now : Z) (fired : fired_map) : wf num fired_map :=
  r ← call ListAllWorkflows;
  match r with
  | Err _ => Ret fired
  | Ok ws =>
      fired ← tick_workflows now ws fired;
      Ret (filter (λ e : (CommunityId * Uuid) * Z, e.1 ∈ (λ w, (w_community_id w, w_id w)) <$> ws) fired)
  end.

(** The rounds of a pod, at the times its clock showed. *)
Fixpoint run_loop (nows : list Z) (fired : fired_map) : wf num unit :=
  match nows with
  | [] => Ret tt
  | now :: nows => fired ← tick now fired; run_loop nows fired
  end.

End engine.

(** ** Runs started by events *)

Section events.
Context {num : Type} `{EvalApi num, TemplateApi num, WebhookApi num, NostrApi, UuidParse, HexApi, CronApi, ChronoApi}
  {siter : MapIter string} (decode_def : Json num → option WorkflowDef).
Context (cache : gmap (CommunityId * Uuid) (list (WorkflowRecord num))) (community : CommunityId) (stored : StoredEvent).

(** The workflows of the channel, as the cache or the database gave them. *)
Definition known (h : list wevent) (channel : Uuid) (ws : list (WorkflowRecord num)) : Prop :=
  cache !! (community, channel) = Some ws ∨ wev (ListChannelWorkflows community channel) (Ok ws) ∈ h.

(** A run is created right after the role of the owner was read, and for an enabled workflow
    of the channel of the event whose trigger matches it, with the signer as the author. *)
Definition event_door (h : list wevent) (c : wcall num) : Prop :=
  match c with
  | CreateRun community' workflow trigger_event t =>
      ∃ channel ws w def role before,
        channel_id stored = Some channel ∧ known before channel ws ∧ w ∈ ws ∧
        h = before ++ [wev (GetMemberRole community channel (w_owner_pubkey w)) (Ok role)] ∧
        decode_def (w_definition w) = Some def ∧ wd_enabled def = true ∧
        trigger_matches_event (wd_trigger def) (event_kind_u32 (event stored)) = true ∧
        is_workflow_execution_kind (event_kind_u32 (event stored)) = false ∧
        owner_authority_allows role (requires_elevated_authority def) = true ∧
        community' = community ∧ workflow = w_id w ∧ trigger_event = Some (ev_id (event stored)) ∧
        t = build_trigger_context stored
  | Spawn community' run def t =>
      ∃ before workflow, h = before ++ [wev (CreateRun community' workflow (Some (ev_id (event stored))) t) (Ok run)]
  | UpdateRun _ _ _ _ _ _ | AcquireWrite _ | SinkSend _ _ _ _ _ | PostReaction _ _ | HttpSend _ _ _ _ _ | SleepSecs _
  | ClaimFire _ _ _ | AttachRun _ _ _ _ => False
  | _ => True
  end.

Abbreviation W p h Q := (whatever wev (λ _ _, True) event_door p h Q).

Lemma known_mono h h' channel ws : h `prefix_of` h' → known h channel ws → known h' channel ws.
Proof. intros [es ->] [?|Hin]; [by left|]. right. set_solver. Qed.

Lemma should_fire_reads def t h : W (should_fire_workflow def t) h (λ _ _, True).
Proof.
  unfold should_fire_workflow. destruct (match wd_trigger def with ReactionAdded _ _ => _ | _ => _ end); [done|].
  destruct (trigger_filter (wd_trigger def)) as [expr|]; [|done]. unfold evaluate_condition.
  destruct (build_eval_context t ∅); [|done]. by destruct (MAX_EXPR_LEN <? String.length expr)%nat.
Qed.

Lemma fire_spec channel ws all h :
  channel_id stored = Some channel → is_workflow_execution_kind (event_kind_u32 (event stored)) = false →
  known h channel all → (∀ w, w ∈ ws → w ∈ all) →
  W (fire_workflows decode_def community channel stored ws) h (λ _ _, True).
Proof.
  intros Hch Hk. revert h. induction ws as [|w ws IH]; intros h Hknown Hin; [done|]. cbn [fire_workflows].
  assert (∀ h', h `prefix_of` h' → W (fire_workflows decode_def community channel stored ws) h' (λ _ _, True)) as Hnext.
  { intros h' Hp. apply IH; [by apply known_mono with h|]. intros w' ?. apply Hin. by right. }
  destruct (decode_def (w_definition w)) as [def|] eqn:Hd; [|by apply Hnext].
  destruct (wd_enabled def) eqn:He; [|by apply Hnext].
  destruct (trigger_matches_event _ _) eqn:Hm; [|by apply Hnext]. cbn [negb orb].
  apply whatever_bind. eapply whatever_mono; [apply should_fire_reads|]. intros h1 [|] Hp1 _; [|by apply Hnext]. cbn [negb].
  split; [done|]. intros [role|e] _; cbn -[whatever fire_workflows].
  2: { apply Hnext. by apply prefix_app_r. }
  destruct (owner_authority_allows role _) eqn:Ha; cbn -[whatever fire_workflows].
  2: { apply Hnext. by apply prefix_app_r. }
  split.
  { exists channel, all, w, def, role, h1. split_and!; try done; [by apply known_mono with h|]. apply Hin. by left. }
  intros [run|e] _; cbn -[whatever fire_workflows].
  2: { apply Hnext. by do 2 apply prefix_app_r. }
  split; [by eexists _, _|]. intros [] _. apply Hnext. by do 3 apply prefix_app_r.
Qed.

(** C20: an event starts a run of a workflow only when the workflow is an enabled one of the
    channel of the event, its trigger matches, and the role of its owner, read from the
    database right before and in the community of the event, is that of a member, and of an
    owner or admin when the workflow can call webhooks; a read that fails starts nothing, and
    events of workflow runs start nothing. *)
Theorem event_runs_authorized es r before e rest :
  exec wev (on_event decode_def cache community stored) es r → es = before ++ e :: rest → event_door before (wcall_of e).
Proof.
  intros He Heq. assert (W (on_event decode_def cache community stored) [] (λ _ _, True)) as Hs.
  { unfold on_event. destruct (channel_id stored) as [channel|] eqn:Hch; [|done].
    destruct (is_workflow_execution_kind _) eqn:Hk; [done|].
    destruct (cache !! (community, channel)) as [ws|] eqn:Hc.
    - apply whatever_bind. eapply whatever_mono; [|done]. apply fire_spec with ws; try done. by left.
    - split; [done|]. intros [ws|] _; [|done]. cbn -[whatever fire_workflows]. apply whatever_bind.
      eapply whatever_mono; [|done]. apply fire_spec with ws; try done. right. set_solver. }
  destruct (whatever_run wev wcall_of (λ _ _, eq_refl) _ _ _ _ es r Hs He) as [_ Hg]; [done|]. by apply (Hg before e rest).
Qed.

End events.

(** ** Runs started by the schedulers of all pods *)

Section schedulers.
Context {num : Type} `{EvalApi num, TemplateApi num, WebhookApi num, NostrApi, UuidParse, HexApi, CronApi, ChronoApi}
  {siter : MapIter string} (decode_def : Json num → option WorkflowDef).

Abbreviation claim_key := (CommunityId * Uuid * Z)%type.

Definition listed (h : list (wevent (num := num))) (w : WorkflowRecord num) : Prop := ∃ ws, wev ListAllWorkflows (Ok ws) ∈ h ∧ w ∈ ws.

(** A scheduled run is created right after its instant was claimed, and the claim is made
    right after the role of the owner was read. *)
Definition tick_door (h : list (wevent (num := num))) (c : wcall num) : Prop :=
  match c with
  | ClaimFire community workflow _ =>
      ∃ w def role channel before, listed before w ∧ community = w_community_id w ∧ workflow = w_id w ∧
        w_channel_id w = Some channel ∧ decode_def (w_definition w) = Some def ∧ wd_enabled def = true ∧
        owner_authority_allows role (requires_elevated_authority def) = true ∧
        h = before ++ [wev (GetMemberRole community channel (w_owner_pubkey w)) (Ok role)]
  | CreateRun community workflow trigger_event _ =>
      trigger_event = None ∧ ∃ at_ before, h = before ++ [wev (ClaimFire community workflow at_) (Ok true)]
  | UpdateRun _ _ _ _ _ _ | AcquireWrite _ | SinkSend _ _ _ _ _ | PostReaction _ _ | HttpSend _ _ _ _ _ | SleepSecs _ => False
  | _ => True
  end.

Abbreviation W p h Q := (whatever wev (λ _ _, True) tick_door p h Q).

Lemma listed_workflow_mono h h' w : h `prefix_of` h' → listed h w → listed h' w.
Proof. intros [es ->] (ws & Hin & Hw). exists ws. split; [set_solver|done]. Qed.

Lemma schedule_due_reads now w trigger fired h : W (schedule_due now w trigger fired) h (λ _ _, True).
Proof.
  destruct trigger as [| | |[expr|] [dur|]|]; try done. apply whatever_bind.
  destruct (fired !! _) as [at_|]; [simpl; by destruct (interval_prefilter_should_fire _ _ _ _ _)|].
  split; [done|]. intros r _. simpl. by destruct (interval_prefilter_should_fire _ _ _ _ _).
Qed.

Lemma tick_workflow_spec now w fired h : listed h w → W (tick_workflow decode_def now w fired) h (λ _ _, True).
Proof.
  intros Hw. unfold tick_workflow. destruct (decode_def (w_definition w)) as [def|] eqn:Hd; [|done].
  destruct (wd_enabled def) eqn:He; [|done]. destruct (w_channel_id w) as [channel|] eqn:Hc; [|done]. cbn [negb].
  apply whatever_bind. eapply whatever_mono; [apply schedule_due_reads|].
  intros h1 [[[at_ interval]|] fired1] Hp _; [|done]. split; [done|]. intros [role|] _; [|done]. cbn.
  destruct (owner_authority_allows role _) eqn:Ha; [|done]. split.
  { exists w, def, role, channel, h1. split_and!; try done. by apply listed_workflow_mono with h. }
  intros [[|]|] _; [|done..]. cbn. split; [split; [done|]; by eexists _, _|]. by intros [run|] _.
Qed.

Lemma tick_workflows_spec now ws fired h : Forall (listed h) ws → W (tick_workflows decode_def now ws fired) h (λ _ _, True).
Proof.
  revert fired h. induction ws as [|w ws IH]; intros fired h Hws; [done|]. cbn [tick_workflows].
  apply Forall_cons in Hws as [Hw Hws]. apply whatever_bind. eapply whatever_mono; [by apply tick_workflow_spec|].
  intros h' fired' Hp _. apply IH. eapply Forall_impl; [exact Hws|]. intros w' Hw'. by apply listed_workflow_mono with h.
Qed.

Lemma run_loop_spec nows fired h : W (run_loop decode_def nows fired) h (λ _ _, True).
Proof.
  revert fired h. induction nows as [|now nows IH]; intros fired h; [done|]. cbn [run_loop]. apply whatever_bind.
  apply whatever_mono with (Q := λ _ _, True); [|by intros; apply IH]. split; [done|]. intros [ws|] _; [|done]. cbn -[whatever tick_workflows].
  apply whatever_bind. eapply whatever_mono; [apply tick_workflows_spec|done].
  apply Forall_forall. intros w Hw. exists ws. split; [set_solver|done].
Qed.

(** The table [scheduled_workflow_fires]: an insertion that conflicts returns no row, as
    does one for a workflow that is gone; a call that fails may have inserted. *)
Definition claim_effect (claims : gset claim_key) (c : wcall num) : wreply c → gset claim_key → Prop :=
  match c with
  | ClaimFire community workflow at_ => λ r claims',
      let key := (community, workflow, at_) in
      match r with
      | Ok true => key ∉ claims ∧ claims' = {[key]} ∪ claims
      | Ok false => claims' = claims
      | Err _ => claims' = claims ∨ claims' = {[key]} ∪ claims
      end
  | _ => λ _ claims', claims' = claims
  end.

(** The pods, and all their calls in the order they happened. *)
Record fleet := mkFleet {
  fl_claims : gset claim_key;
  fl_pods : list (wf num unit);
  fl_log : list (nat * wevent)
}.

Inductive fleet_step : fleet → fleet → Prop :=
| pod_calls claims claims' pods log p c k r :
    pods !! p = Some (Act c k) → claim_effect claims c r claims' →
    fleet_step (mkFleet claims pods log) (mkFleet claims' (<[p := k r]> pods) (log ++ [(p, wev c r)])).

(** Every pod runs rounds at times of its own, from anchors of its own. *)
Definition started (claims : gset claim_key) (pods : list (list Z * gmap (CommunityId * Uuid) Z)) : fleet :=
  mkFleet claims ((λ q, run_loop decode_def q.1 q.2) <$> pods) [].

Definition own (p : nat) (log : list (nat * wevent (num := num))) : list wevent := omap (λ x, if decide (x.1 = p) then Some x.2 else None) log.

(** The claim that an event wins. *)
Definition won (e : wevent (num := num)) : option claim_key :=
  let 'existT c r := e in
  match c return wreply c → option claim_key with
  | ClaimFire community workflow at_ => λ r, match r with Ok true => Some (community, workflow, at_) | _ => None end
  | _ => λ _, None
  end r.

(** Position [i] of the log creates a run for a claim: the last call of its pod won it. *)
Definition fired_at (log : list (nat * wevent (num := num))) (i : nat) (key : claim_key) : Prop :=
  ∃ p r t, log !! i = Some (p, wev (CreateRun key.1.1 key.1.2 None t) r) ∧ last (own p (take i log)) ≫= won = Some key.

(** The invariant of the fleet. *)
Record fleet_ok (s : fleet) : Prop := {
  fo_pods p q : fl_pods s !! p = Some q → W q (own p (fl_log s)) (λ _ _, True);
  fo_past i p e : fl_log s !! i = Some (p, e) → tick_door (own p (take i (fl_log s))) (wcall_of e);
  fo_won i p e key : fl_log s !! i = Some (p, e) → won e = Some key → key ∈ fl_claims s;
  fo_once i j p q e f key : fl_log s !! i = Some (p, e) → fl_log s !! j = Some (q, f) → won e = Some key → won f = Some key → i = j
}.

Lemma own_snoc p log q e : own p (log ++ [(q, e)]) = if decide (q = p) then own p log ++ [e] else own p log.
Proof. unfold own. rewrite omap_app. simpl. case_decide; [done|]. apply app_nil_r. Qed.

Lemma claim_effect_grows claims c r claims' : claim_effect claims c r claims' → claims ⊆ claims'.
Proof. intros Hc. destruct c; simpl in *; try (by subst); repeat case_match; set_solver. Qed.

Lemma claim_effect_won claims c r claims' key :
  claim_effect claims c r claims' → won (wev c r) = Some key → key ∉ claims ∧ key ∈ claims'.
Proof. intros Hc Hw. destruct c; simpl in *; try done. repeat case_match; simplify_eq. destruct Hc as [Hn ->]. set_solver. Qed.

Lemma lookup_snoc_inv {A} (l : list A) x i y : (l ++ [x]) !! i = Some y → l !! i = Some y ∧ i < length l ∨ i = length l ∧ y = x.
Proof.
  intros Hl. apply lookup_app_Some in Hl as [Hl|[Hi Hl]]; [left; split; [done|by eapply lookup_lt_Some]|right].
  apply list_lookup_singleton_Some in Hl as [Hz <-]. split; [lia|done].
Qed.

Lemma fleet_step_ok s s' : fleet_ok s → fleet_step s s' → fleet_ok s'.
Proof.
  intros Hok Hst. revert Hok. destruct Hst as [claims claims' pods log p c k r Hp Hc].
  intros [Hpods Hpast Hwon Honce]. simpl in *.
  destruct (Hpods p _ Hp) as [Hdoor Hk]. constructor; simpl.
  - intros q prog Hq. rewrite own_snoc. case_decide as Hpq.
    + subst. rewrite list_lookup_insert_eq in Hq by (by eapply lookup_lt_Some). injection Hq as <-. by apply Hk.
    + rewrite list_lookup_insert_ne in Hq by done. by apply Hpods.
  - intros i q e [[Hi Hlt]|[-> [= -> ->]]]%lookup_snoc_inv.
    + rewrite take_app_le by lia. by apply (Hpast i).
    + by rewrite take_app_length.
  - intros i q e key [[Hi Hlt]|[-> [= -> ->]]]%lookup_snoc_inv Hw.
    + eapply claim_effect_grows; [done|]. by eapply Hwon.
    + by eapply claim_effect_won.
  - intros i j q q' e f key [[Hi Hlt]|[-> [= -> ->]]]%lookup_snoc_inv [[Hj Hlt']|[-> [= -> ->]]]%lookup_snoc_inv He Hf.
    + by eapply Honce.
    + destruct (claim_effect_won _ _ _ _ _ Hc Hf) as [Hn _]. by destruct Hn; eapply Hwon.
    + destruct (claim_effect_won _ _ _ _ _ Hc He) as [Hn _]. by destruct Hn; eapply Hwon.
    + done.
Qed.

Lemma last_own p l e : last (own p l) = Some e → ∃ c, l !! c = Some (p, e) ∧ ∀ j f, c < j → l !! j ≠ Some (p, f).
Proof.
  induction l as [|[q x] l IH] using rev_ind; [done|]. rewrite own_snoc. case_decide as Hq.
  - rewrite last_snoc. intros [= <-]. subst q. exists (length l). split; [by rewrite lookup_app_r, Nat.sub_diag by lia|].
    intros j f Hj Hl. apply lookup_lt_Some in Hl. rewrite length_app in Hl. simpl in Hl. lia.
  - intros (c & Hc & Hlast)%IH. exists c. split; [by apply lookup_app_l_Some|].
    intros j f Hj [[Hl _]|[_ [= ? _]]]%lookup_snoc_inv; [by eapply Hlast|done].
Qed.

(** The claim behind a run. *)
Lemma fired_claim log i key : fired_at log i key →
  ∃ p c e, c < i ∧ log !! c = Some (p, e) ∧ won e = Some key ∧ (∃ f, log !! i = Some (p, f)) ∧
    ∀ j f, c < j < i → log !! j ≠ Some (p, f).
Proof.
  intros (p & r & t & Hi & Hl). apply bind_Some in Hl as (e & Hl & Hw). apply last_own in Hl as (c & Hc & Hlast).
  apply lookup_take_Some in Hc as [Hc Hlt]. exists p, c, e. split_and!; [done..|by eexists|]. intros j f [Hj Hji] Hf.
  apply (Hlast j f); [done|]. by apply lookup_take_Some.
Qed.

Lemma fired_unique s i j key : fleet_ok s → fired_at (fl_log s) i key → fired_at (fl_log s) j key → ¬ i < j.
Proof.
  intros Hok (p & c & e & Hc & Hlc & Hw & [f Hf] & Hgap)%fired_claim (p' & c' & e' & Hc' & Hlc' & Hw' & [f' Hf'] & Hgap')%fired_claim Hij.
  pose proof (fo_once s Hok _ _ _ _ _ _ _ Hlc Hlc' Hw Hw') as <-. rewrite Hlc in Hlc'. injection Hlc' as <- <-.
  by apply (Hgap' i f).
Qed.

Lemma fleet_reachable claims pods s : rtc fleet_step (started claims pods) s → fleet_ok s.
Proof.
  intros Hs. assert (fleet_ok (started claims pods)) as Hinit.
  { constructor; simpl; try done. intros p q Hq. rewrite list_lookup_fmap in Hq. destruct (pods !! p); [|done].
    injection Hq as <-. apply run_loop_spec. }
  induction Hs as [|s1 s2 s3 Hst _ IH]; [done|]. apply IH. by eapply fleet_step_ok.
Qed.

(** C8: in every interleaving of the schedulers of any number of pods, with clocks and anchors of
    their own, and with a database that may fail before or after a claim, a scheduled run is
    created only right after its instant was claimed, which is only right after the owner's
    role was read and suffices; and no instant of a workflow is ever run twice. *)
Theorem scheduled_fire_at_most_once claims pods s :
  rtc fleet_step (started claims pods) s →
  (∀ i p e, fl_log s !! i = Some (p, e) → tick_door (own p (take i (fl_log s))) (wcall_of e)) ∧
  (∀ i p community workflow event t r, fl_log s !! i = Some (p, wev (CreateRun community workflow event t) r) →
     ∃ at_, fired_at (fl_log s) i (community, workflow, at_)) ∧
  (∀ i j key, fired_at (fl_log s) i key → fired_at (fl_log s) j key → i = j).
Proof.
  intros Hok%fleet_reachable. split; [intros i p e; apply Hok|]. split.
  - intros i p community workflow event t r Hi. destruct (fo_past s Hok _ _ _ Hi) as (-> & at_ & before & Hown).
    exists at_, p, r, t. split; [done|]. by rewrite Hown, last_snoc.
  - intros i j key Hi Hj. destruct (Nat.lt_trichotomy i j) as [Hlt|[->|Hlt]]; [|done|].
    + by destruct (fired_unique s i j key Hok Hi Hj).
    + by destruct (fired_unique s j i key Hok Hj Hi).
Qed.

End schedulers.

(** ** Witnesses *)

Module WorkflowEngineDemo.

#[local] Existing Instances WorkflowRunDemo.demo_eval WorkflowRunDemo.demo_templates WorkflowRunDemo.demo_webhook
  WorkflowRunDemo.demo_nostr WorkflowRunDemo.demo_uuid WorkflowRunDemo.demo_hex.
#[local] Instance demo_cron : CronApi :=
  { cron_schedule := unit; cron_parse := λ s, if decide (s = "") then None else Some tt; cron_next := λ _ at_, Some (at_ + NANOS)%Z }.
#[local] Instance demo_chrono : ChronoApi := Some.

(** A stored definition is its interval, or an event trigger that calls a webhook. *)
Definition decode (v : Json Z) : option WorkflowDef :=
  match v with
  | JString dur => Some (mkWorkflowDef "w" None (Schedule None (Some dur)) [WorkflowRunDemo.greet] true)
  | _ => Some WorkflowRunDemo.def
  end.

Definition hourly : WorkflowRecord Z := mkWorkflowRecord Z 5 1 [x61] (Some 7%N) (JString "1h").
Definition on_message : WorkflowRecord Z := mkWorkflowRecord Z 6 1 [x61] (Some 7%N) JNull.

Definition minutes (n : Z) : Z := n * 60 * NANOS.

(** A database with a table of claims, an owner with this role, and this last claim. *)
Definition database (role : option string) (latest : result string (option Z)) (claims : gset (N * N * Z)) (c : wcall Z) :
    wreply c * gset (N * N * Z) :=
  match c with
  | ListAllWorkflows => (Ok [hourly], claims)
  | ListChannelWorkflows _ _ => (Ok [on_message], claims)
  | GetMemberRole _ _ _ => (Ok role, claims)
  | LatestFire _ _ => (latest, claims)
  | ClaimFire community workflow at_ =>
      (Ok (bool_decide ((community, workflow, at_) ∉ claims)), {[(community, workflow, at_)]} ∪ claims)
  | c => (WorkflowRunDemo.world WorkflowRunDemo.public [] c, claims)
  end.

Definition play_step role latest (s : fleet) (p : nat) : fleet :=
  match fl_pods s !! p with
  | Some (Act c k) =>
      let a := database role latest (fl_claims s) c in
      mkFleet a.2 (<[p := k a.1]> (fl_pods s)) (fl_log s ++ [(p, wev c a.1)])
  | _ => s
  end.
Definition play role latest (s : fleet) (ps : list nat) : fleet := foldl (play_step role latest) s ps.

Lemma database_effect role latest claims c : claim_effect claims c (database role latest claims c).1 (database role latest claims c).2.
Proof. destruct c; try done. simpl. case_bool_decide; [done|]. apply (symmetry (R := (=))). set_solver. Qed.

Lemma play_reaches role latest s ps : rtc fleet_step s (play role latest s ps).
Proof.
  revert s. induction ps as [|p ps IH]; intros s; [done|]. simpl. etrans; [|apply IH]. unfold play_step.
  destruct (fl_pods s !! p) as [[|c k]|] eqn:Hp; [done| |done]. destruct s as [claims pods log]. apply rtc_once.
  apply pod_calls; [done|]. apply database_effect.
Qed.

Definition runs (s : fleet (num := Z)) : list (wcall Z) :=
  List.filter (λ c, match c with CreateRun _ _ _ _ => true | _ => false end) ((λ x, wcall_of x.2) <$> fl_log s).

(** Two pods at the same minute, both with an anchor an hour ago. *)
Definition two_pods := started decode ∅ [([minutes 61], {[(1%N, 5%N) := minutes 1]}); ([minutes 61], {[(1%N, 5%N) := minutes 1]})].
Definition together := play (Some "member") (Ok None) two_pods [0; 1; 0; 1; 0; 1; 0; 1; 0; 1; 0; 1; 0; 1].

Lemma one_run : runs together = [CreateRun 1 5 None (scheduled_context 7 (minutes 61))].
Proof. by vm_compute. Qed.

Lemma scheduled_fire_at_most_once_witness :
  length (runs together) = 1 ∧ ∀ i j key, fired_at (fl_log together) i key → fired_at (fl_log together) j key → i = j.
Proof.
  split; [by rewrite one_run|].
  apply (scheduled_fire_at_most_once decode ∅
    [([minutes 61], {[(1%N, 5%N) := minutes 1]}); ([minutes 61], {[(1%N, 5%N) := minutes 1]})] together).
  apply play_reaches.
Defined.

(** A tick of one pod. *)
Definition tick_at role latest (now : Z) fired := play role latest (started decode ∅ [([now], fired)]) (replicate 12 0).

(** Without authority no run; with it one. *)
Lemma removed_owner_runs_nothing : runs (tick_at None (Ok None) (minutes 61) {[(1%N, 5%N) := minutes 1]}) = [].
Proof. by vm_compute. Qed.

(** An hourly workflow that fired at minute 54 of its hour, for the instant of minute 0, is
    fired again 6 minutes later by a pod that was restarted in between; a pod that was not
    restarted waits out its interval. *)
Lemma restart_fires_early :
  length (runs (tick_at (Some "member") (Ok (Some (minutes 60))) (minutes 120) ∅)) = 1 ∧
  runs (tick_at (Some "member") (Ok (Some (minutes 60))) (minutes 120) {[(1%N, 5%N) := minutes 114]}) = [].
Proof. by vm_compute. Qed.

(** When the anchor cannot be read the tick is suppressed, and the next one too, although the
    interval is long over: the failed read has seeded an anchor. *)
Lemma unreadable_anchor_waits :
  runs (play (Some "member") (Err "timeout") (started decode ∅ [([minutes 300; minutes 301], ∅)]) (replicate 20 0)) = [] ∧
  length (runs (play (Some "member") (Ok (Some (minutes 60))) (started decode ∅ [([minutes 301], ∅)]) (replicate 20 0))) = 1.
Proof. by vm_compute. Qed.

Definition message : StoredEvent := mkStored (mkEvent 3 4 5 KIND_STREAM_MESSAGE [] "hi") 0 (Some 7%N) true.
Definition event_run role :=
  Programs.run wev (λ _ c, (database role (Ok None) ∅ c).1) (on_event decode ∅ 1 message) [].

(** The workflow calls a webhook: a plain member may not run it. *)
Lemma webhook_needs_admin :
  length (event_run (Some "member")).1 = 2 ∧ length (event_run (Some "admin")).1 = 4.
Proof. by vm_compute. Qed.

Lemma event_creates : (event_run (Some "admin")).1 !! 2 =
  Some (wev (CreateRun 1 6 (Some 3%N) (build_trigger_context message)) (Ok 9%N)).
Proof. by vm_compute. Qed.

Lemma event_runs_authorized_witness :
  event_door decode ∅ 1 message (take 2 (event_run (Some "admin")).1) (CreateRun 1 6 (Some 3%N) (build_trigger_context message)).
Proof.
  destruct (run_exec wev (λ _ c, (database (Some "admin") (Ok None) ∅ c).1) (on_event decode ∅ 1 message) []) as (es & He & Hx & _).
  apply (event_runs_authorized decode ∅ 1 message es (event_run (Some "admin")).2 (take 2 (event_run (Some "admin")).1)
    (wev (CreateRun 1 6 (Some 3%N) (build_trigger_context message)) (Ok 9%N)) (drop 3 (event_run (Some "admin")).1)); [exact Hx|].
  rewrite (take_drop_middle _ _ _ event_creates). unfold event_run. by rewrite He.
Defined.

End WorkflowEngineDemo.
