(* ===== verification/GitPerms.v ===== *)
(** * Git push permissions ([buzz-core/src/git_perms.rs], [channel.rs])

    A repository announcement carries [buzz-protect] tags; they are parsed to
    protection rules, the rules whose ref pattern matches a ref are united, and
    every ref update of a push is evaluated against that union and the pusher's
    channel role.  [unreachable!()] is modelled as [None]. *)

From stdpp Require Import base gmap strings list.
From Stdlib Require Import Ascii.
From S2P Require Import Prelude.

(** ** Member roles *)

Inductive MemberRole := Owner | Admin | Member | Guest | Bot.

#[global] Instance member_role_eq_dec : EqDecision MemberRole.
Proof. solve_decision. Defined.

Definition as_str (r : MemberRole) : string :=
  match r with
  | Owner => "owner" | Admin => "admin" | Member => "member" | Guest => "guest" | Bot => "bot"
  end.

Definition is_elevated (r : MemberRole) : bool :=
  match r with Owner | Admin => true | _ => false end.

Definition permission_level (r : MemberRole) : Z :=
  match r with Owner => 4 | Admin => 3 | Member => 2 | Guest => 1 | Bot => 0 end.

Definition has_at_least (r required : MemberRole) : bool :=
  (permission_level required <=? permission_level r)%Z.

(** The error is the rejected string; the source wraps it in a message. *)
Definition member_role_from_str (s : string) : result string MemberRole :=
  if decide (s = "owner") then Ok Owner
  else if decide (s = "admin") then Ok Admin
  else if decide (s = "member") then Ok Member
  else if decide (s = "guest") then Ok Guest
  else if decide (s = "bot") then Ok Bot
  else Err s.

(** ** Ref patterns *)

Definition MAX_PROTECTION_RULES : nat := 50.
Definition MAX_PATTERN_LENGTH : nat := 256.
Definition MAX_WILDCARDS_PER_PATTERN : nat := 3.

Inductive PatternSegment :=
| Literal (s : string)
| Wildcard
| RecursiveWildcard.

Record RefPattern := mkPattern { raw : string; segments : list PatternSegment }.

Inductive PatternError :=
| PatternEmpty
| TooLong
| MissingRefsPrefix
| InvalidSegment (s : string)
| TooManyWildcards.

Definition literal_char (c : ascii) : bool :=
  is_ascii_alphanumeric c || bool_decide (c = "."%char) || bool_decide (c = "_"%char)
  || bool_decide (c = "-"%char).

(** The loop over the parts: [n] is [parts.len()], [i] the index, [wc] the
    wildcard count and [segs] the segments pushed so far. *)
Fixpoint parse_parts (n i wc : nat) (segs : list PatternSegment) (parts : list string) :
    result PatternError (list PatternSegment) :=
  match parts with
  | [] => Ok segs
  | part :: parts' =>
      if decide (part = "**") then
        if decide (i ≠ n - 1) then Err (InvalidSegment "** must be the last segment")
        else if decide (MAX_WILDCARDS_PER_PATTERN < wc + 1) then Err TooManyWildcards
        else parse_parts n (i + 1) (wc + 1) (segs ++ [RecursiveWildcard]) parts'
      else if decide (part = "*") then
        if decide (MAX_WILDCARDS_PER_PATTERN < wc + 1) then Err TooManyWildcards
        else parse_parts n (i + 1) (wc + 1) (segs ++ [Wildcard]) parts'
      else if decide (part = "") then Err (InvalidSegment "")
      else if str_contains "*" part || str_contains "?" part || str_contains "[" part
              || str_contains "]" part then Err (InvalidSegment part)
      else if negb (str_all literal_char part) then Err (InvalidSegment part)
      else parse_parts n (i + 1) wc (segs ++ [Literal part]) parts'
  end.

Definition pattern_parse (pattern : string) : result PatternError RefPattern :=
  if decide (pattern = "") then Err PatternEmpty
  else if decide (MAX_PATTERN_LENGTH < String.length pattern) then Err TooLong
  else if negb (starts_with "refs/" pattern) then Err MissingRefsPrefix
  else
    let parts := split_on "/" pattern in
    let? segs := parse_parts (length parts) 0 0 [] parts in
    Ok (mkPattern pattern segs).

(** [.zip(..).all(..)] with the closure of [matches]. *)
Fixpoint segments_match (pats : list PatternSegment) (segs : list string) : option bool :=
  match pats, segs with
  | pat :: pats', seg :: segs' =>
      match pat with
      | Wildcard => segments_match pats' segs'
      | Literal lit => if decide (lit = seg) then segments_match pats' segs' else Some false
      | RecursiveWildcard => None
      end
  | _, _ => Some true
  end.

Definition pattern_matches (p : RefPattern) (ref_name : string) : option bool :=
  let ref_segments := split_on "/" ref_name in
  match last (segments p) with
  | Some RecursiveWildcard =>
      let prefix_len := length (segments p) - 1 in
      if decide (length ref_segments ≤ prefix_len) then Some false
      else segments_match (take prefix_len (segments p)) (take prefix_len ref_segments)
  | _ =>
      if decide (length ref_segments ≠ length (segments p)) then Some false
      else segments_match (segments p) ref_segments
  end.

(** ** Ref updates *)

Inductive UpdateKind := Create | FastForward | NonFastForward | Delete.

#[global] Instance update_kind_eq_dec : EqDecision UpdateKind.
Proof. solve_decision. Defined.

Definition ZERO_OID : string := "0000000000000000000000000000000000000000".

Definition classify (old_oid new_oid : string) (is_ancestor : bool) : UpdateKind :=
  if decide (old_oid = ZERO_OID) then Create
  else if decide (new_oid = ZERO_OID) then Delete
  else if is_ancestor then FastForward
  else NonFastForward.

Record RefUpdate := mkRefUpdate {
  ref_name : string;
  kind : UpdateKind;
  old_oid : string;
  new_oid : string
}.

(** ** Protection rules *)

Record ProtectionRule := mkRule {
  pattern : RefPattern;
  push_role : option MemberRole;
  no_force_push : bool;
  no_delete : bool;
  require_patch : bool
}.

Inductive RuleParseError :=
| TooFewValues
| TooManyRules
| InvalidPattern (e : PatternError)
| UnknownRule (r : string)
| InvalidRole (r : string).

(** The stricter of the role kept so far and a new one. *)
Definition stricter_role (kept : option MemberRole) (role : MemberRole) : option MemberRole :=
  Some (match kept with
        | None => role
        | Some existing =>
            if (permission_level role >? permission_level existing)%Z then role else existing
        end).

(** The rule loop, on the rule built so far and the unknown rules. *)
Fixpoint parse_rules (acc : ProtectionRule) (unknown : list string) (rule_strs : list string) :
    result RuleParseError (ProtectionRule * list string) :=
  match rule_strs with
  | [] => Ok (acc, unknown)
  | rule_str :: rest =>
      match strip_prefix "push:" rule_str with
      | Some role_str =>
          let? role := map_err (λ _, InvalidRole role_str) (member_role_from_str role_str) in
          match role with
          | Bot | Guest => Err (InvalidRole role_str)
          | _ => parse_rules
                   (mkRule (pattern acc) (stricter_role (push_role acc) role)
                      (no_force_push acc) (no_delete acc) (require_patch acc)) unknown rest
          end
      | None =>
          if decide (rule_str = "no-force-push") then
            parse_rules (mkRule (pattern acc) (push_role acc) true (no_delete acc)
              (require_patch acc)) unknown rest
          else if decide (rule_str = "no-delete") then
            parse_rules (mkRule (pattern acc) (push_role acc) (no_force_push acc) true
              (require_patch acc)) unknown rest
          else if decide (rule_str = "require-patch") then
            parse_rules (mkRule (pattern acc) (push_role acc) (no_force_push acc) (no_delete acc)
              true) unknown rest
          else parse_rules acc (unknown ++ [rule_str]) rest
      end
  end.

Definition parse_protection_tag_with_warnings (values : list string) :
    result RuleParseError (ProtectionRule * list string) :=
  match values with
  | pat_str :: ((_ :: _) as rule_strs) =>
      let? pat := map_err InvalidPattern (pattern_parse pat_str) in
      parse_rules (mkRule pat None false false false) [] rule_strs
  | _ => Err TooFewValues
  end.

Definition parse_protection_tag (values : list string) : result RuleParseError ProtectionRule :=
  let? p := parse_protection_tag_with_warnings values in Ok p.1.

Record ParsedProtection := mkParsed { rules : list ProtectionRule; unknown_rules : list string }.

Fixpoint parse_protection_loop (acc : ParsedProtection) (tags : list (list string)) :
    result RuleParseError ParsedProtection :=
  match tags with
  | [] => Ok acc
  | tag :: tags' =>
      if decide (head tag ≠ Some "buzz-protect") then parse_protection_loop acc tags'
      else if decide (MAX_PROTECTION_RULES ≤ length (rules acc)) then Err TooManyRules
      else
        let? p := parse_protection_tag_with_warnings (tail tag) in
        parse_protection_loop
          (mkParsed (rules acc ++ [p.1]) (unknown_rules acc ++ p.2)) tags'
  end.

Definition parse_protection_tags (tags : list (list string)) :
    result RuleParseError ParsedProtection :=
  parse_protection_loop (mkParsed [] []) tags.

(** ** Evaluation *)

Definition default_min_role (ref : string) (k : UpdateKind) : MemberRole :=
  let is_branch := starts_with "refs/heads/" ref in
  let is_tag := starts_with "refs/tags/" ref in
  match k with
  | Create => if is_branch || is_tag then Member else Admin
  | FastForward => if is_branch then Member else if is_tag then Admin else Admin
  | NonFastForward => Admin
  | Delete => Admin
  end.

Record EffectiveRules := mkEffective {
  eff_push_role : option MemberRole;
  eff_no_force_push : bool;
  eff_no_delete : bool;
  eff_require_patch : bool;
  has_explicit_match : bool
}.

(** One round of [EffectiveRules::for_ref]. *)
Definition for_ref_step (ref : string) (acc : EffectiveRules) (rule : ProtectionRule) :
    option EffectiveRules :=
  b ← pattern_matches (pattern rule) ref;
  Some (if negb b then acc else
    mkEffective
      (match push_role rule with
       | Some role => stricter_role (eff_push_role acc) role
       | None => eff_push_role acc
       end)
      (eff_no_force_push acc || no_force_push rule)
      (eff_no_delete acc || no_delete rule)
      (eff_require_patch acc || require_patch rule)
      true).

Fixpoint for_ref_loop (ref : string) (acc : EffectiveRules) (rs : list ProtectionRule) :
    option EffectiveRules :=
  match rs with
  | [] => Some acc
  | r :: rs' => acc' ← for_ref_step ref acc r; for_ref_loop ref acc' rs'
  end.

Definition for_ref (ref : string) (rs : list ProtectionRule) : option EffectiveRules :=
  for_ref_loop ref (mkEffective None false false false false) rs.

Record Denial := mkDenial { denied_ref : string; reason : string }.

Definition evaluate_ref_update (update : RefUpdate) (role : MemberRole)
    (rs : list ProtectionRule) : option (result Denial unit) :=
  effective ← for_ref (ref_name update) rs;
  Some (
    if negb (has_explicit_match effective) then
      let min_role := default_min_role (ref_name update) (kind update) in
      if negb (has_at_least role min_role) then
        Err (mkDenial (ref_name update)
          ("requires " +:+ as_str min_role +:+ " role (you have " +:+ as_str role
           +:+ "), using built-in defaults"))
      else Ok tt
    else if eff_require_patch effective then
      Err (mkDenial (ref_name update)
        "direct push denied: require-patch is set, submit a NIP-34 patch")
    else
      let default_role := default_min_role (ref_name update) (kind update) in
      let min_role := match eff_push_role effective with
        | Some explicit =>
            if (permission_level explicit >=? permission_level default_role)%Z
            then explicit else default_role
        | None => default_role
        end in
      if negb (has_at_least role min_role) then
        Err (mkDenial (ref_name update)
          ("requires " +:+ as_str min_role +:+ " role (you have " +:+ as_str role +:+ ")"))
      else if eff_no_force_push effective && bool_decide (kind update = NonFastForward) then
        Err (mkDenial (ref_name update)
          "non-fast-forward update denied: no-force-push is set")
      else if eff_no_delete effective && bool_decide (kind update = Delete) then
        Err (mkDenial (ref_name update) "ref deletion denied: no-delete is set")
      else Ok tt).

(** [updates.iter().filter_map(|u| evaluate_ref_update(u, ..).err()).collect()]. *)
Fixpoint push_denials (updates : list RefUpdate) (role : MemberRole)
    (rs : list ProtectionRule) : option (list Denial) :=
  match updates with
  | [] => Some []
  | u :: us =>
      r ← evaluate_ref_update u role rs;
      ds ← push_denials us role rs;
      Some (match err r with Some d => d :: ds | None => ds end)
  end.

Definition evaluate_push (updates : list RefUpdate) (role : MemberRole)
    (rs : list ProtectionRule) : option (result (list Denial) unit) :=
  denials ← push_denials updates role rs;
  Some (match denials with [] => Ok tt | _ => Err denials end).

(** ** Specification *)

(** A ref, segment by segment, against a pattern: [*] stands for one segment,
    a final [**] for one or more. *)
Inductive seg_match : list PatternSegment → list string → Prop :=
| sm_nil : seg_match [] []
| sm_lit s ps ss : seg_match ps ss → seg_match (Literal s :: ps) (s :: ss)
| sm_wild s ps ss : seg_match ps ss → seg_match (Wildcard :: ps) (s :: ss)
| sm_rec s ss : seg_match [RecursiveWildcard] (s :: ss).

(** [**] occurs last or not at all. *)
Fixpoint segs_wf (ps : list PatternSegment) : Prop :=
  match ps with
  | [] => True
  | RecursiveWildcard :: ps' => ps' = []
  | _ :: ps' => segs_wf ps'
  end.

Definition is_wildcard (p : PatternSegment) : bool :=
  match p with Literal _ => false | _ => true end.

Definition print_segment (p : PatternSegment) : string :=
  match p with Literal s => s | Wildcard => "*" | RecursiveWildcard => "**" end.

(** A literal the grammar admits. *)
Definition segment_ok (p : PatternSegment) : Prop :=
  match p with
  | Literal s => s ≠ "" ∧ str_all literal_char s = true
  | _ => True
  end.

(** What [RefPattern::parse] accepts. *)
Record pattern_ok (p : RefPattern) : Prop := {
  po_raw : raw p = join_with "/" (print_segment <$> segments p);
  po_len : String.length (raw p) ≤ MAX_PATTERN_LENGTH;
  po_refs : ∃ ps, segments p = Literal "refs" :: ps ∧ ps ≠ [];
  po_wf : segs_wf (segments p);
  po_segs : Forall segment_ok (segments p);
  po_wild : length (List.filter is_wildcard (segments p)) ≤ MAX_WILDCARDS_PER_PATTERN
}.

(** A rule that came out of the parser. *)
Definition rule_ok (r : ProtectionRule) : Prop :=
  pattern_ok (pattern r) ∧
  (∀ role, push_role r = Some role → role = Owner ∨ role = Admin ∨ role = Member).

Definition rule_matches (r : ProtectionRule) (ref : string) : Prop :=
  seg_match (segments (pattern r)) (split_on "/" ref).

(** What it takes to be allowed: the built-in minimum for the operation and,
    for every rule whose pattern matches, everything the rule demands. *)
Definition push_allowed (u : RefUpdate) (role : MemberRole) (rs : list ProtectionRule) : Prop :=
  (permission_level (default_min_role (ref_name u) (kind u)) ≤ permission_level role)%Z ∧
  ∀ r, r ∈ rs → rule_matches r (ref_name u) →
    require_patch r = false ∧
    (∀ need, push_role r = Some need → (permission_level need ≤ permission_level role)%Z) ∧
    (no_force_push r = true → kind u ≠ NonFastForward) ∧
    (no_delete r = true → kind u ≠ Delete).

(** ** Lemmas: patterns *)

Definition non_rec (p : PatternSegment) : Prop := p ≠ RecursiveWildcard.

Lemma segs_wf_cases ps :
  segs_wf ps → Forall non_rec ps ∨ ∃ pre, ps = pre ++ [RecursiveWildcard] ∧ Forall non_rec pre.
Proof.
  induction ps as [|p ps IH]; [by left|]. destruct p as [s| |]; simpl.
  - intros [Hn|(pre & -> & Hn)]%IH; [left; by constructor|right].
    exists (Literal s :: pre). split; [done|by constructor].
  - intros [Hn|(pre & -> & Hn)]%IH; [left; by constructor|right].
    exists (Wildcard :: pre). split; [done|by constructor].
  - intros ->. right. exists []. split; [done|constructor].
Qed.

Lemma seg_match_lit l ps s ss :
  seg_match (Literal l :: ps) (s :: ss) ↔ l = s ∧ seg_match ps ss.
Proof. split; [by inversion 1|]. intros [-> ?]. by constructor. Qed.

Lemma seg_match_wild ps s ss : seg_match (Wildcard :: ps) (s :: ss) ↔ seg_match ps ss.
Proof. split; [by inversion 1|by constructor]. Qed.

Lemma segments_match_spec pats segs :
  Forall non_rec pats → length pats = length segs →
  ∃ b, segments_match pats segs = Some b ∧ (b = true ↔ seg_match pats segs).
Proof.
  intros Hn. revert segs. induction Hn as [|p pats Hp Hn IH]; intros [|s segs] Hlen; try done.
  { exists true. split; [done|]. split; [constructor|done]. }
  destruct (IH segs ltac:(by simpl in *; lia)) as (b & Hb & Hiff).
  destruct p as [l| |]; simpl; [|exists b; by rewrite seg_match_wild|done].
  case_decide as Hl; [exists b|exists false]; rewrite seg_match_lit; naive_solver.
Qed.

Lemma seg_match_length pats segs :
  Forall non_rec pats → seg_match pats segs → length pats = length segs.
Proof. intros Hn Hm. induction Hm; inversion_clear Hn; simpl; auto. done. Qed.

Lemma seg_match_rec pre ss :
  Forall non_rec pre →
  seg_match (pre ++ [RecursiveWildcard]) ss ↔
  length pre < length ss ∧ seg_match pre (take (length pre) ss).
Proof.
  intros Hn. revert ss. induction Hn as [|p pre Hp Hn IH]; intros ss; simpl.
  - split.
    + intros Hm. inversion Hm; subst. split; [simpl; lia|constructor].
    + intros [Hl _]. destruct ss; [simpl in *; lia|constructor].
  - destruct ss as [|s ss]; simpl.
    + split; [by inversion 1|intros [? _]; lia].
    + destruct p as [l| |]; [| |done];
        rewrite ?seg_match_lit, ?seg_match_wild, IH, Nat.succ_lt_mono; tauto.
Qed.

Lemma last_non_rec ps : Forall non_rec ps → last ps ≠ Some RecursiveWildcard.
Proof.
  intros Hn Hl. apply last_Some in Hl as [l ->]. rewrite Forall_app in Hn.
  destruct Hn as [_ Hn]. by inversion_clear Hn.
Qed.

Lemma pattern_matches_wf p ref :
  segs_wf (segments p) →
  ∃ b, pattern_matches p ref = Some b ∧
       (b = true ↔ seg_match (segments p) (split_on "/" ref)).
Proof.
  intros Hwf. unfold pattern_matches. set (ss := split_on "/" ref).
  destruct (segs_wf_cases _ Hwf) as [Hn|(pre & -> & Hn)].
  - assert (∃ b, (if decide (length ss ≠ length (segments p)) then Some false
        else segments_match (segments p) ss) = Some b ∧
        (b = true ↔ seg_match (segments p) ss)) as Hgoal.
    { case_decide as Hlen; [|apply segments_match_spec; [done|lia]].
      exists false. split; [done|]. split; [done|]. intros Hm.
      apply seg_match_length in Hm; [lia|done]. }
    pose proof (last_non_rec _ Hn). by destruct (last (segments p)) as [[]|].
  - rewrite last_snoc, length_app, Nat.add_sub. simpl.
    rewrite take_app_length. case_decide as Hlen.
    + exists false. split; [done|]. rewrite seg_match_rec by done. split; [done|lia].
    + setoid_rewrite seg_match_rec; [|done].
      destruct (segments_match_spec pre (take (length pre) ss)) as (b & -> & Hb);
        [done|rewrite length_take; lia|].
      exists b. split; [done|]. rewrite Hb. intuition lia.
Qed.

(** ** Lemmas: parsing patterns *)

Lemma literal_not_special s c :
  str_all literal_char s = true → literal_char c = false → str_contains c s = false.
Proof. apply str_all_contains. Qed.

Lemma print_segment_no_slash p : segment_ok p → str_contains "/" (print_segment p) = false.
Proof. destruct p; simpl; [|done|done]. intros [_ ?]. by eapply literal_not_special. Qed.

Lemma parse_parts_sound n i wc segs parts out :
  parse_parts n i wc segs parts = Ok out → i + length parts = n →
  wc ≤ MAX_WILDCARDS_PER_PATTERN →
  ∃ ps, out = segs ++ ps ∧ print_segment <$> ps = parts ∧ segs_wf ps ∧
    Forall segment_ok ps ∧ wc + length (List.filter is_wildcard ps) ≤ MAX_WILDCARDS_PER_PATTERN.
Proof.
  revert i wc segs. induction parts as [|part parts IH]; intros i wc segs; simpl.
  { intros [= <-] _ Hwc. exists []. rewrite app_nil_r. simpl. split_and!; try done. lia. }
  intros Hp Hn Hwc. repeat case_decide; subst; try done.
  - apply IH in Hp as (ps & -> & Hps & _ & Hok & Hc); [|lia..].
    destruct parts as [|q parts]; [|simpl in *; lia]. destruct ps; [|done].
    exists [RecursiveWildcard]. rewrite app_nil_r. simpl in *.
    split_and!; try done; [by repeat constructor|lia].
  - apply IH in Hp as (ps & -> & Hps & Hwf & Hok & Hc); [|lia..].
    exists (Wildcard :: ps). rewrite <-app_assoc, fmap_cons, Hps. simpl.
    split_and!; try done; [by constructor|lia].
  - destruct (_ || _) eqn:Hspecial in Hp; [done|].
    destruct (str_all literal_char part) eqn:Hall; [|done]. simpl in Hp.
    apply IH in Hp as (ps & -> & Hps & Hwf & Hok & Hc); [|lia..].
    exists (Literal part :: ps). rewrite <-app_assoc, fmap_cons, Hps. simpl.
    split_and!; try done. by constructor.
Qed.

Lemma parse_parts_complete n i wc segs ps :
  i + length ps = n → segs_wf ps → Forall segment_ok ps →
  wc + length (List.filter is_wildcard ps) ≤ MAX_WILDCARDS_PER_PATTERN →
  parse_parts n i wc segs (print_segment <$> ps) = Ok (segs ++ ps).
Proof.
  revert i wc segs. induction ps as [|p ps IH]; intros i wc segs Hn Hwf Hok Hc; simpl.
  { by rewrite app_nil_r. }
  inversion_clear Hok as [|? ? Hp Hok']. destruct p as [s| |]; simpl in *.
  - destruct Hp as [Hne Hall].
    assert (∀ c, literal_char c = false → str_contains c s = false) as Hno
      by (intros; by eapply literal_not_special).
    assert (s ≠ "*" ∧ s ≠ "**") as [? ?] by (split; intros ->; by vm_compute in Hall).
    rewrite !decide_False by done. rewrite !Hno by done. rewrite Hall. simpl.
    rewrite IH by (done || lia). by rewrite <-app_assoc.
  - rewrite decide_False by lia. rewrite IH by (done || lia). by rewrite <-app_assoc.
  - subst ps. simpl in *. rewrite decide_False by lia. rewrite decide_False by lia. done.
Qed.

Lemma pattern_parse_iff s p : pattern_parse s = Ok p ↔ pattern_ok p ∧ raw p = s.
Proof.
  unfold pattern_parse. split.
  - intros Hp. repeat case_decide; try done.
    destruct (starts_with "refs/" s) eqn:Hrefs; [|done]. simpl in Hp.
    destruct (parse_parts _ _ _ _ _) as [segs|] eqn:Hparse; [|done]. simplify_eq/=.
    split; [|done]. apply parse_parts_sound in Hparse as (ps & -> & Hps & Hwf & Hok & Hc);
      [|lia|unfold MAX_WILDCARDS_PER_PATTERN; lia].
    split; simpl; try done; [by rewrite Hps, join_split|lia|].
    apply starts_with_iff in Hrefs as [r ->].
    change ("refs/" +:+ r) with ("refs" +:+ String "/" r) in Hps.
    rewrite (split_on_app "/" "refs" r eq_refl) in Hps.
    destruct ps as [|q ps]; [done|]. simpl in Hps. injection Hps as Hq Hps.
    destruct q as [l| |]; simpl in Hq; [subst l|done|done]. exists ps. split; [done|].
    intros ->. by destruct (split_on_cons "/" r) as (? & ? & E); rewrite E in Hps.
  - intros [[Hraw Hlen (ps & Hsegs & Hps) Hwf Hok Hc] <-].
    assert (raw p = "refs" +:+ String "/" (join_with "/" (print_segment <$> ps))) as Hr.
    { rewrite Hraw, Hsegs. by destruct ps. }
    rewrite decide_False by (by rewrite Hr). rewrite decide_False by lia.
    assert (starts_with "refs/" (raw p) = true) as ->.
    { apply starts_with_iff. rewrite Hr. by eexists. }
    simpl. assert (split_on "/" (raw p) = print_segment <$> segments p) as ->.
    { rewrite Hraw. apply split_join; [by rewrite Hsegs|].
      rewrite Forall_fmap. eapply Forall_impl; [exact Hok|]. apply print_segment_no_slash. }
    rewrite parse_parts_complete; [by destruct p|by rewrite length_fmap|done..].
Qed.

(** ** Lemmas: parsing rules *)

(** The roles a parsed rule may demand. *)
Definition demands_ok (o : option MemberRole) : Prop :=
  ∀ role, o = Some role → role = Owner ∨ role = Admin ∨ role = Member.

Lemma stricter_role_ok o role :
  demands_ok o → role ≠ Bot → role ≠ Guest → demands_ok (stricter_role o role).
Proof.
  unfold demands_ok, stricter_role. intros Ho H1 H2 r [= <-].
  destruct o as [e|]; [case_match; [|by apply Ho]|]; destruct role; naive_solver.
Qed.

Lemma parse_rules_sound acc unknown strs r unknown' :
  parse_rules acc unknown strs = Ok (r, unknown') → demands_ok (push_role acc) →
  pattern r = pattern acc ∧ demands_ok (push_role r).
Proof.
  revert acc unknown. induction strs as [|str strs IH]; intros acc unknown; simpl.
  { by intros [= <- _]. }
  intros Hp Hacc. destruct (strip_prefix "push:" str) as [role_str|].
  - destruct (map_err _ _) as [role|] eqn:Hr; [|done].
    destruct role; try done; apply IH in Hp; simpl in *; try done;
      by apply stricter_role_ok.
  - repeat case_decide; by apply IH in Hp.
Qed.

Lemma parse_protection_tag_sound values r unknown :
  parse_protection_tag_with_warnings values = Ok (r, unknown) → rule_ok r.
Proof.
  unfold parse_protection_tag_with_warnings.
  destruct values as [|pat [|s strs]]; [done..|].
  destruct (map_err _ _) as [p|] eqn:Hp; [|done]. apply map_err_Ok, pattern_parse_iff in Hp.
  intros Hr. apply parse_rules_sound in Hr as [Hpat Hd]; [|by intros ? [=]].
  simpl in Hpat. split; [by rewrite Hpat; destruct Hp|done].
Qed.

Lemma parse_protection_loop_sound acc tags out :
  parse_protection_loop acc tags = Ok out →
  Forall rule_ok (rules acc) → length (rules acc) ≤ MAX_PROTECTION_RULES →
  Forall rule_ok (rules out) ∧ length (rules out) ≤ MAX_PROTECTION_RULES.
Proof.
  revert acc. induction tags as [|tag tags IH]; intros acc; simpl; [by intros [= <-]|].
  intros Hp Hok Hlen. repeat case_decide; [by apply IH in Hp|done|].
  destruct (parse_protection_tag_with_warnings _) as [[r u]|] eqn:Hr; [|done].
  apply parse_protection_tag_sound in Hr. apply IH in Hp; [done|..]; simpl.
  - rewrite Forall_app, Forall_singleton. done.
  - rewrite length_app. simpl. lia.
Qed.

(** ** Lemmas: evaluation *)

(** Every demand an option carries is met by [role]. *)
Definition meets (role : MemberRole) (o : option MemberRole) : Prop :=
  ∀ need, o = Some need → (permission_level need ≤ permission_level role)%Z.

Lemma meets_stricter role o need :
  meets role (stricter_role o need) ↔
  meets role o ∧ (permission_level need ≤ permission_level role)%Z.
Proof.
  unfold meets, stricter_role. destruct o as [e|]; [|naive_solver].
  destruct (Z.gtb_spec (permission_level need) (permission_level e)).
  - split; [|naive_solver]. intros Hm. specialize (Hm _ eq_refl). naive_solver lia.
  - split; [|naive_solver]. intros Hm. specialize (Hm _ eq_refl). naive_solver lia.
Qed.

Lemma for_ref_step_spec ref acc r :
  segs_wf (segments (pattern r)) →
  ∃ e, for_ref_step ref acc r = Some e ∧
    (has_explicit_match e = true ↔ has_explicit_match acc = true ∨ rule_matches r ref) ∧
    (eff_require_patch e = true ↔ eff_require_patch acc = true ∨
       rule_matches r ref ∧ require_patch r = true) ∧
    (eff_no_force_push e = true ↔ eff_no_force_push acc = true ∨
       rule_matches r ref ∧ no_force_push r = true) ∧
    (eff_no_delete e = true ↔ eff_no_delete acc = true ∨
       rule_matches r ref ∧ no_delete r = true) ∧
    (∀ role, meets role (eff_push_role e) ↔ meets role (eff_push_role acc) ∧
       (rule_matches r ref → meets role (push_role r))).
Proof.
  intros Hwf. unfold for_ref_step, rule_matches.
  destruct (pattern_matches_wf (pattern r) ref Hwf) as (b & -> & Hb). simpl.
  destruct b; simpl; eexists; (split; [done|]); simpl; [|naive_solver].
  rewrite !orb_true_iff. split_and!; try naive_solver. intros role.
  destruct (push_role r) as [need|]; [rewrite meets_stricter|]; unfold meets; naive_solver.
Qed.

Lemma for_ref_loop_spec ref acc rs :
  Forall (λ r, segs_wf (segments (pattern r))) rs →
  ∃ e, for_ref_loop ref acc rs = Some e ∧
    (has_explicit_match e = true ↔ has_explicit_match acc = true ∨
       Exists (λ r, rule_matches r ref) rs) ∧
    (eff_require_patch e = true ↔ eff_require_patch acc = true ∨
       Exists (λ r, rule_matches r ref ∧ require_patch r = true) rs) ∧
    (eff_no_force_push e = true ↔ eff_no_force_push acc = true ∨
       Exists (λ r, rule_matches r ref ∧ no_force_push r = true) rs) ∧
    (eff_no_delete e = true ↔ eff_no_delete acc = true ∨
       Exists (λ r, rule_matches r ref ∧ no_delete r = true) rs) ∧
    (∀ role, meets role (eff_push_role e) ↔ meets role (eff_push_role acc) ∧
       Forall (λ r, rule_matches r ref → meets role (push_role r)) rs).
Proof.
  intros Hwf. revert acc. induction Hwf as [|r rs Hr Hwf IH]; intros acc; simpl.
  { exists acc. split; [done|]. setoid_rewrite Exists_nil. setoid_rewrite Forall_nil. tauto. }
  destruct (for_ref_step_spec ref acc r Hr) as (e1 & -> & H1 & H2 & H3 & H4 & H5). simpl.
  destruct (IH e1) as (e & -> & H1' & H2' & H3' & H4' & H5').
  exists e. split; [done|]. rewrite H1', H1, H2', H2, H3', H3, H4', H4, !Exists_cons.
  split_and!; [tauto..|]. intros role. rewrite H5', H5, Forall_cons. tauto.
Qed.

Lemma has_at_least_iff role need :
  has_at_least role need = true ↔ (permission_level need ≤ permission_level role)%Z.
Proof. apply Z.leb_le. Qed.

Lemma push_allowed_alt u role rs :
  push_allowed u role rs ↔
  has_at_least role (default_min_role (ref_name u) (kind u)) = true ∧
  ¬ Exists (λ r, rule_matches r (ref_name u) ∧ require_patch r = true) rs ∧
  Forall (λ r, rule_matches r (ref_name u) → meets role (push_role r)) rs ∧
  (Exists (λ r, rule_matches r (ref_name u) ∧ no_force_push r = true) rs →
     kind u ≠ NonFastForward) ∧
  (Exists (λ r, rule_matches r (ref_name u) ∧ no_delete r = true) rs → kind u ≠ Delete).
Proof.
  unfold push_allowed, meets.
  rewrite <-has_at_least_iff, !Exists_exists, Forall_forall. split.
  - intros [Hd Hall]. split_and!; [done|..].
    + intros (r & Hin & Hm & Hr). destruct (Hall r Hin Hm) as (Hf & _). congruence.
    + intros r Hin Hm. by destruct (Hall r Hin Hm) as (_ & Hn & _).
    + intros (r & Hin & Hm & Hr). destruct (Hall r Hin Hm) as (_ & _ & Hf & _). auto.
    + intros (r & Hin & Hm & Hr). destruct (Hall r Hin Hm) as (_ & _ & _ & Hf). auto.
  - intros (Hd & Hrp & Hn & Hf & Hx). split; [done|]. intros r Hin Hm. split_and!.
    + apply not_true_iff_false. intros Hr. apply Hrp. eauto.
    + by apply Hn.
    + intros Hr. apply Hf. eauto.
    + intros Hr. apply Hx. eauto.
Qed.

(** The minimum role the code computes demands both the explicit and the
    built-in role. *)
Lemma min_role_meets role o dr :
  has_at_least role (match o with
    | Some explicit =>
        if (permission_level explicit >=? permission_level dr)%Z then explicit else dr
    | None => dr
    end) = true ↔ has_at_least role dr = true ∧ meets role o.
Proof.
  unfold meets. rewrite !has_at_least_iff. destruct o as [x|]; [|naive_solver].
  destruct (Z.geb_spec (permission_level x) (permission_level dr)).
  - split; [|naive_solver]. intros. split; [lia|]. by intros ? [= <-].
  - split; [|naive_solver]. intros. split; [lia|]. intros ? [= <-]. lia.
Qed.

Lemma no_rule_matches ref rs (P : ProtectionRule → Prop) :
  ¬ Exists (λ r, rule_matches r ref) rs → ¬ Exists (λ r, rule_matches r ref ∧ P r) rs.
Proof. intros Hn Hex. apply Hn. eapply Exists_impl; [exact Hex|]. by intros r []. Qed.

Lemma evaluate_ref_update_iff u role rs :
  Forall (λ r, segs_wf (segments (pattern r))) rs →
  ∃ res, evaluate_ref_update u role rs = Some res ∧ (res = Ok tt ↔ push_allowed u role rs).
Proof.
  intros Hwf. setoid_rewrite push_allowed_alt. unfold evaluate_ref_update, for_ref.
  destruct (for_ref_loop_spec (ref_name u) (mkEffective None false false false false) rs Hwf)
    as (e & -> & Hex & Hrp & Hnf & Hnd & Hrole). specialize (Hrole role).
  set (dr := default_min_role (ref_name u) (kind u)). simpl in *.
  eexists. split; [done|].
  assert (meets role None) as Hnone by (by intros ? [=]).
  destruct (has_explicit_match e) eqn:Eex; simpl.
  2: { assert (¬ Exists (λ r, rule_matches r (ref_name u)) rs) as Hno by naive_solver.
       assert (Forall (λ r, rule_matches r (ref_name u) → meets role (push_role r)) rs).
       { apply Forall_forall. intros r Hin Hm. destruct Hno. apply Exists_exists. eauto. }
       pose proof (no_rule_matches _ _ (λ r, require_patch r = true) Hno).
       pose proof (no_rule_matches _ _ (λ r, no_force_push r = true) Hno).
       pose proof (no_rule_matches _ _ (λ r, no_delete r = true) Hno).
       destruct (has_at_least role dr); simpl; [tauto|]. split; [done|]. by intros [? _]. }
  destruct (eff_require_patch e); [split; [done|naive_solver]|].
  pose proof (min_role_meets role (eff_push_role e) dr) as Hmr. rewrite Hrole in Hmr.
  set (mr := match eff_push_role e with Some _ => _ | None => _ end) in *.
  destruct (has_at_least role mr); simpl.
  2: { split; [done|]. intros. assert (false = true) by tauto. done. }
  destruct (eff_no_force_push e), (eff_no_delete e); simpl;
    repeat case_bool_decide; try (split; [done|naive_solver]);
    (split; [intros _; split_and!; naive_solver|done]).
Qed.

(** ** Properties *)

(** [RefPattern::parse] accepts a string exactly when it is the printed
    form of a pattern of the grammar: [refs/] first, literals of the admitted
    characters, at most three wildcards, [**] last only, 256 bytes at most;
    and the segments it returns print back to the input. *)
Theorem pattern_parse_roundtrip s p :
  pattern_parse s = Ok p ↔ pattern_ok p ∧ raw p = s.
Proof. apply pattern_parse_iff. Qed.

(** matching a parsed pattern never reaches [unreachable!()], and accepts
    a ref exactly when its segments match one by one, a final [**] standing
    for one or more segments. *)
Theorem pattern_matches_spec s p ref :
  pattern_parse s = Ok p →
  ∃ b, pattern_matches p ref = Some b ∧
       (b = true ↔ seg_match (segments p) (split_on "/" ref)).
Proof. intros [Hok _]%pattern_parse_iff. by apply pattern_matches_wf, po_wf. Qed.

(** [parse_protection_tags] returns at most fifty rules, every pattern in
    the grammar and every demanded role one of owner, admin and member. *)
Theorem parse_protection_tags_sound tags out :
  parse_protection_tags tags = Ok out →
  Forall rule_ok (rules out) ∧ length (rules out) ≤ MAX_PROTECTION_RULES.
Proof.
  intros Hp. apply parse_protection_loop_sound in Hp; [done|constructor|].
  unfold MAX_PROTECTION_RULES. simpl. lia.
Qed.

Lemma rules_ok_wf rs :
  Forall rule_ok rs → Forall (λ r, segs_wf (segments (pattern r))) rs.
Proof. intros Hrs. eapply Forall_impl; [exact Hrs|]. intros r [Hp _]. by apply po_wf. Qed.

(** a ref update is allowed exactly when the pusher has the built-in
    minimum role for the operation and meets every demand of every matching
    rule, whatever the order of the rules; evaluation never panics. *)
Theorem evaluate_ref_update_spec u role rs :
  Forall rule_ok rs →
  ∃ res, evaluate_ref_update u role rs = Some res ∧ (res = Ok tt ↔ push_allowed u role rs).
Proof. intros Hrs. by apply evaluate_ref_update_iff, rules_ok_wf. Qed.

(** protection rules only ever restrict: an update allowed under some
    rules is allowed under any subset of them, in any order, and in
    particular needs the built-in minimum role. *)
Theorem rules_only_restrict u role rs rs' :
  Forall rule_ok rs' → rs ⊆ rs' →
  evaluate_ref_update u role rs' = Some (Ok tt) →
  evaluate_ref_update u role rs = Some (Ok tt).
Proof.
  intros Hrs' Hsub Heval.
  assert (Forall rule_ok rs) as Hrs.
  { rewrite Forall_forall in *. intros r Hr. by apply Hrs', Hsub. }
  destruct (evaluate_ref_update_iff u role rs' (rules_ok_wf _ Hrs')) as (res' & E' & H').
  destruct (evaluate_ref_update_iff u role rs (rules_ok_wf _ Hrs)) as (res & E & H).
  rewrite E' in Heval. simplify_eq. rewrite E. f_equal. apply H.
  destruct (proj1 H' eq_refl) as [Hd Hall]. split; [done|]. intros r Hr. by apply Hall, Hsub.
Qed.

(** a guest or a channel bot is refused every update, and a plain member
    every deletion, force push and tag overwrite. *)
Theorem low_roles_refused u role rs :
  Forall rule_ok rs →
  role = Guest ∨ role = Bot ∨
  (role = Member ∧ (kind u = Delete ∨ kind u = NonFastForward ∨
     (kind u = FastForward ∧ starts_with "refs/heads/" (ref_name u) = false))) →
  ∃ d, evaluate_ref_update u role rs = Some (Err d).
Proof.
  intros Hrs Hrole.
  destruct (evaluate_ref_update_iff u role rs (rules_ok_wf _ Hrs)) as ([[]|d] & E & H); [|eauto].
  exfalso. destruct (proj1 H eq_refl) as [Hd _]. clear H E.
  unfold default_min_role in Hd.
  destruct Hrole as [->|[->|[-> [Hk|[Hk|[Hk Hb]]]]]]; [| |rewrite Hk in Hd..].
  1,2: destruct (kind u); repeat case_match; by vm_compute in Hd.
  1,2: by vm_compute in Hd.
  rewrite Hb in Hd. case_match; by vm_compute in Hd.
Qed.

(** The denials of the refused updates, in order. *)
Lemma push_denials_spec us role rs :
  Forall (λ r, segs_wf (segments (pattern r))) rs →
  ∃ ds, push_denials us role rs = Some ds ∧
    (∀ d, d ∈ ds ↔ ∃ u, u ∈ us ∧ evaluate_ref_update u role rs = Some (Err d)) ∧
    (ds = [] ↔ ∀ u, u ∈ us → push_allowed u role rs).
Proof.
  intros Hwf. induction us as [|u us IH]; simpl.
  { exists []. split; [done|]. set_solver. }
  destruct (evaluate_ref_update_iff u role rs Hwf) as (res & E & Hiff).
  destruct IH as (ds & -> & Hds & Hnil). rewrite E. simpl. setoid_rewrite elem_of_cons.
  destruct res as [[]|d]; simpl; eexists; (split; [done|]).
  - split; [|naive_solver]. intros d. rewrite Hds. split; [naive_solver|].
    intros (v & [->|Hv] & Hev); [congruence|eauto].
  - split; [|split; [done|]]; [|intros Hall; by apply Hiff in Hall; auto].
    intros d'. rewrite elem_of_cons, Hds. split.
    + intros [->|(v & Hv & Hev)]; eauto.
    + intros (v & [->|Hv] & Hev); [left; congruence|eauto].
Qed.

(** a push is atomic: it is accepted exactly when every one of its ref
    updates is allowed, and otherwise the error lists exactly the denials of
    the refused updates. *)
Theorem evaluate_push_atomic us role rs :
  Forall rule_ok rs →
  (evaluate_push us role rs = Some (Ok tt) ∧ ∀ u, u ∈ us → push_allowed u role rs) ∨
  (∃ ds, evaluate_push us role rs = Some (Err ds) ∧ ds ≠ [] ∧
     ∀ d, d ∈ ds ↔ ∃ u, u ∈ us ∧ evaluate_ref_update u role rs = Some (Err d)).
Proof.
  intros Hrs. unfold evaluate_push.
  destruct (push_denials_spec us role rs (rules_ok_wf _ Hrs)) as (ds & -> & Hds & Hnil). simpl.
  destruct ds as [|d ds]; [left|right]; [naive_solver|]. eauto.
Qed.

(** ** Witnesses *)

Module GitPermsDemo.

Definition demo_tags : list (list string) :=
  [["name"; "repo"];
   ["buzz-protect"; "refs/heads/main"; "push:admin"; "no-force-push"; "shiny"];
   ["buzz-protect"; "refs/heads/release/**"; "require-patch"]].

Definition main_pattern : RefPattern :=
  mkPattern "refs/heads/main" [Literal "refs"; Literal "heads"; Literal "main"].
Definition release_pattern : RefPattern :=
  mkPattern "refs/heads/release/**"
    [Literal "refs"; Literal "heads"; Literal "release"; RecursiveWildcard].
Definition demo_rules : list ProtectionRule :=
  [mkRule main_pattern (Some Admin) true false false;
   mkRule release_pattern None false false true].

Example demo_parse :
  parse_protection_tags demo_tags = Ok (mkParsed demo_rules ["shiny"]).
Proof. vm_compute. reflexivity. Qed.

Lemma demo_rules_ok : Forall rule_ok demo_rules.
Proof.
  assert (Forall rule_ok demo_rules ∧ length demo_rules ≤ 50) as [? _]; [|done].
  apply (parse_protection_loop_sound (mkParsed [] []) demo_tags (mkParsed demo_rules ["shiny"]));
    [apply demo_parse|constructor|unfold MAX_PROTECTION_RULES; simpl; lia].
Qed.

Definition ff_main : RefUpdate := mkRefUpdate "refs/heads/main" FastForward "a" "b".
Definition ff_rel : RefUpdate := mkRefUpdate "refs/heads/release/1/x" FastForward "a" "b".
Definition del_dev : RefUpdate := mkRefUpdate "refs/heads/dev" Delete "a" ZERO_OID.

Lemma pattern_matches_spec_witness :
  ∃ b, pattern_matches release_pattern "refs/heads/release/1/x" = Some b ∧
    (b = true ↔ seg_match (segments release_pattern) (split_on "/" "refs/heads/release/1/x")).
Proof.
  apply (pattern_matches_spec "refs/heads/release/**" release_pattern "refs/heads/release/1/x").
  vm_compute. reflexivity.
Defined.

Lemma parse_protection_tags_sound_witness :
  Forall rule_ok demo_rules ∧ length demo_rules ≤ MAX_PROTECTION_RULES.
Proof.
  exact (parse_protection_tags_sound demo_tags (mkParsed demo_rules ["shiny"]) demo_parse).
Defined.

Lemma evaluate_ref_update_spec_witness :
  ∃ res, evaluate_ref_update ff_main Admin demo_rules = Some res ∧
    (res = Ok tt ↔ push_allowed ff_main Admin demo_rules).
Proof. apply (evaluate_ref_update_spec ff_main Admin demo_rules). exact demo_rules_ok. Defined.

Lemma rules_only_restrict_witness :
  evaluate_ref_update ff_main Admin [mkRule release_pattern None false false true] = Some (Ok tt).
Proof.
  apply (rules_only_restrict ff_main Admin _ demo_rules).
  - exact demo_rules_ok.
  - intros r Hr. apply list_elem_of_singleton in Hr as ->. right. left.
  - vm_compute. reflexivity.
Defined.

Lemma low_roles_refused_witness :
  ∃ d, evaluate_ref_update del_dev Member demo_rules = Some (Err d).
Proof.
  apply (low_roles_refused del_dev Member demo_rules); [exact demo_rules_ok|].
  right. right. split; [reflexivity|]. left. reflexivity.
Defined.

Lemma evaluate_push_atomic_witness :
  (evaluate_push [ff_main; ff_rel] Owner demo_rules = Some (Ok tt) ∧
     ∀ u, u ∈ [ff_main; ff_rel] → push_allowed u Owner demo_rules) ∨
  (∃ ds, evaluate_push [ff_main; ff_rel] Owner demo_rules = Some (Err ds) ∧ ds ≠ [] ∧
     ∀ d, d ∈ ds ↔ ∃ u, u ∈ [ff_main; ff_rel] ∧
       evaluate_ref_update u Owner demo_rules = Some (Err d)).
Proof. apply (evaluate_push_atomic [ff_main; ff_rel] Owner demo_rules). exact demo_rules_ok. Defined.

End GitPermsDemo.
