(* ===== verification/EventQueue.v ===== *)
(** * The agent event queue ([buzz-acp/src/queue.rs])

    One queue per channel, at most one batch in flight per channel, retries
    with backoff and dead-lettering, cancelled batches merged into the next
    prompt, and a side table for events a steer is delivering.  Every operation
    is a function from state to state; [Instant::now()] is the argument [now]
    (nanoseconds), a [HashMap] walk is [hiter].  Counters are [Z]: the invariant
    bounds them far below their machine width. *)

From stdpp Require Import base gmap strings list sorting.
From S2P Require Import Prelude Nostr.

(** ** Data *)

Definition MAX_PENDING_PER_CHANNEL : nat := 500.
Definition MAX_BATCH_EVENTS : nat := 50.
Definition MAX_RETRIES : Z := 10.
Definition BASE_RETRY_DELAY_SECS : Z := 5.
Definition MAX_RETRY_DELAY_SECS : Z := 300.
Definition IN_FLIGHT_DEADLINE_BUFFER_SECS : Z := 100.
Definition DEFAULT_IN_FLIGHT_DEADLINE_SECS : Z := 7300.

(** [Duration::from_secs], in nanoseconds. *)
Definition from_secs (s : Z) : Z := s * 1000000000.

Inductive DedupMode := DedupDrop | DedupQueue.

Record QueuedEvent := mkQueued {
  qe_channel_id : Uuid;
  qe_event : NostrEvent;
  qe_received_at : Z;
  qe_prompt_tag : string
}.

Record BatchEvent := mkBatchEvent {
  be_event : NostrEvent;
  be_prompt_tag : string;
  be_received_at : Z
}.

Inductive CancelReason := Interrupt | Steer.

Record FlushBatch := mkBatch {
  fb_channel_id : Uuid;
  fb_events : list BatchEvent;
  fb_cancelled_events : list BatchEvent;
  fb_cancel_reason : option CancelReason
}.

Record EventQueue := mkQueue {
  queues : gmap Uuid (list QueuedEvent);
  in_flight_channels : gset Uuid;
  in_flight_deadlines : gmap Uuid Z;
  in_flight_batch_sizes : gmap Uuid nat;
  retry_after : gmap Uuid Z;
  retry_counts : gmap Uuid Z;
  dedup_mode : DedupMode;
  cancelled_batches : gmap Uuid (list BatchEvent);
  cancel_reasons : gmap Uuid CancelReason;
  withheld_native_steer : gmap Uuid (list QueuedEvent);
  in_flight_deadline : Z
}.

(** Field updates. *)
Definition set_queues f q := mkQueue (f (queues q)) (in_flight_channels q)
  (in_flight_deadlines q) (in_flight_batch_sizes q) (retry_after q) (retry_counts q)
  (dedup_mode q) (cancelled_batches q) (cancel_reasons q) (withheld_native_steer q)
  (in_flight_deadline q).
Definition set_in_flight fc fd fs q := mkQueue (queues q) (fc (in_flight_channels q))
  (fd (in_flight_deadlines q)) (fs (in_flight_batch_sizes q)) (retry_after q) (retry_counts q)
  (dedup_mode q) (cancelled_batches q) (cancel_reasons q) (withheld_native_steer q)
  (in_flight_deadline q).
Definition set_retry fa fc q := mkQueue (queues q) (in_flight_channels q)
  (in_flight_deadlines q) (in_flight_batch_sizes q) (fa (retry_after q)) (fc (retry_counts q))
  (dedup_mode q) (cancelled_batches q) (cancel_reasons q) (withheld_native_steer q)
  (in_flight_deadline q).
Definition set_cancelled fb fr q := mkQueue (queues q) (in_flight_channels q)
  (in_flight_deadlines q) (in_flight_batch_sizes q) (retry_after q) (retry_counts q)
  (dedup_mode q) (fb (cancelled_batches q)) (fr (cancel_reasons q)) (withheld_native_steer q)
  (in_flight_deadline q).
Definition set_withheld f q := mkQueue (queues q) (in_flight_channels q)
  (in_flight_deadlines q) (in_flight_batch_sizes q) (retry_after q) (retry_counts q)
  (dedup_mode q) (cancelled_batches q) (cancel_reasons q) (f (withheld_native_steer q))
  (in_flight_deadline q).

Definition to_batch_event (qe : QueuedEvent) : BatchEvent :=
  mkBatchEvent (qe_event qe) (qe_prompt_tag qe) (qe_received_at qe).

Definition to_queued_event (ch : Uuid) (be : BatchEvent) : QueuedEvent :=
  mkQueued ch (be_event be) (be_received_at be) (be_prompt_tag be).

(** The stable [sort_by_key(|be| be.event.created_at)]. *)
Definition sort_by_created (l : list BatchEvent) : list BatchEvent :=
  sort_by (λ a b, ev_created_at (be_event a) <=? ev_created_at (be_event b))%Z l.

(** [Iterator::min_by_key]: the first of the least elements. *)
Fixpoint min_by_key {A} (key : A → Z) (best : A) (l : list A) : A :=
  match l with
  | [] => best
  | x :: l' => min_by_key key (if (key x <? key best)%Z then x else best) l'
  end.

(** [while queue.len() > MAX_PENDING_PER_CHANNEL { queue.pop_back() }]. *)
Definition trim_back (l : list QueuedEvent) : list QueuedEvent :=
  take MAX_PENDING_PER_CHANNEL l.

(** [iter().position(f)] followed by [remove(pos)]. *)
Fixpoint remove_first {A} (f : A → bool) (l : list A) : option (A * list A) :=
  match l with
  | [] => None
  | x :: l' =>
      if f x then Some (x, l')
      else match remove_first f l' with
           | Some (y, l'') => Some (y, x :: l'')
           | None => None
           end
  end.

Section queue.
Context `{NostrApi} `{!MapIter N}.

(** ** Operations *)

Definition queue_new (mode : DedupMode) : EventQueue :=
  mkQueue ∅ ∅ ∅ ∅ ∅ ∅ mode ∅ ∅ ∅ (from_secs DEFAULT_IN_FLIGHT_DEADLINE_SECS).

Definition with_in_flight_deadline (max_turn_duration_secs : Z) (q : EventQueue) : EventQueue :=
  mkQueue (queues q) (in_flight_channels q) (in_flight_deadlines q) (in_flight_batch_sizes q)
    (retry_after q) (retry_counts q) (dedup_mode q) (cancelled_batches q) (cancel_reasons q)
    (withheld_native_steer q)
    (from_secs (max_turn_duration_secs + IN_FLIGHT_DEADLINE_BUFFER_SECS)).

Definition extend_in_flight_deadline (now : Z) (ch : Uuid) (max_turn_secs : Z) (q : EventQueue) :
    EventQueue :=
  match in_flight_deadlines q !! ch with
  | Some current =>
      let extended := (now + from_secs (max_turn_secs + IN_FLIGHT_DEADLINE_BUFFER_SECS))%Z in
      if (extended >? current)%Z then set_in_flight id (<[ch := extended]>) id q else q
  | None => q
  end.

Definition push (event : QueuedEvent) (q : EventQueue) : bool * EventQueue :=
  let ch := qe_channel_id event in
  if match dedup_mode q with DedupDrop => true | DedupQueue => false end
     && bool_decide (ch ∈ in_flight_channels q)
  then (false, q)
  else
    let queue := default [] (queues q !! ch) in
    let queue := if decide (MAX_PENDING_PER_CHANNEL ≤ length queue) then tail queue else queue in
    (true, set_queues (<[ch := queue ++ [event]]>) q).

Definition recover_withheld_for_expired_channel (ch : Uuid) (q : EventQueue) : EventQueue :=
  match withheld_native_steer q !! ch with
  | None => q
  | Some entries =>
      let q1 := set_withheld (delete ch) q in
      let queue := default [] (queues q1 !! ch) in
      (* push_front over the reversed entries puts them in order at the front *)
      let queue := foldl (λ acc qe, qe :: acc) queue (reverse entries) in
      set_queues (<[ch := trim_back queue]>) q1
  end.

(** One expired channel, in [flush_next] and [has_flushable_work]. *)
Definition expire_channel (q : EventQueue) (ch : Uuid) : EventQueue :=
  let q1 := set_in_flight (.∖ {[ch]}) (delete ch) (delete ch) q in
  recover_withheld_for_expired_channel ch q1.

Definition expired_channels (now : Z) (q : EventQueue) : list Uuid :=
  (List.filter (λ d : Uuid * Z, (d.2 <=? now)%Z) (hiter (in_flight_deadlines q))).*1.

Definition expire_in_flight (now : Z) (q : EventQueue) : EventQueue :=
  foldl expire_channel q (expired_channels now q).

(** The filter of [flush_next] and [has_flushable_work]. *)
Definition flushable (now : Z) (q : EventQueue) (entry : Uuid * list QueuedEvent) : bool :=
  negb (bool_decide (entry.2 = []))
  && negb (bool_decide (entry.1 ∈ in_flight_channels q))
  && match retry_after q !! entry.1 with Some t => (t <=? now)%Z | None => true end.

(** [q.front().unwrap().received_at]; the filter excludes the empty queue. *)
Definition head_received_at (entry : Uuid * list QueuedEvent) : Z :=
  match entry.2 with qe :: _ => qe_received_at qe | [] => 0 end.

Definition cancelled_channel (q : EventQueue) : option Uuid :=
  head (List.filter (λ ch, negb (bool_decide (ch ∈ in_flight_channels q)))
         (hiter (cancelled_batches q)).*1).

Definition flush_next (now : Z) (q : EventQueue) : option FlushBatch * EventQueue :=
  let q := expire_in_flight now q in
  match List.filter (flushable now q) (hiter (queues q)) with
  | [] =>
      match cancelled_channel q with
      | Some ch =>
          let cancelled := default [] (cancelled_batches q !! ch) in
          let cancel_reason := cancel_reasons q !! ch in
          let q := set_cancelled (delete ch) (delete ch) q in
          let q := set_in_flight ({[ch]} ∪.) (<[ch := (now + in_flight_deadline q)%Z]>)
                     (<[ch := length cancelled]>) q in
          (Some (mkBatch ch cancelled [] cancel_reason), q)
      | None => (None, q)
      end
  | c :: cs =>
      let ch := (min_by_key head_received_at c cs).1 in
      let queue := default [] (queues q !! ch) in
      let drain_count := MAX_BATCH_EVENTS `min` length queue in
      let events := sort_by_created (to_batch_event <$> take drain_count queue) in
      let rest := drop drain_count queue in
      let q := set_queues (match rest with [] => delete ch | _ => <[ch := rest]> end) q in
      let q := set_in_flight ({[ch]} ∪.) (<[ch := (now + in_flight_deadline q)%Z]>)
                 (<[ch := length events]>) q in
      let cancelled_events := default [] (cancelled_batches q !! ch) in
      let cancel_reason := match cancelled_events with
        | [] => None
        | _ => cancel_reasons q !! ch
        end in
      let q := set_cancelled (delete ch) (delete ch) q in
      (Some (mkBatch ch events cancelled_events cancel_reason), q)
  end.

Definition mark_complete (now : Z) (ch : Uuid) (q : EventQueue) : EventQueue :=
  let q := set_in_flight (.∖ {[ch]}) (delete ch) (delete ch) q in
  match retry_after q !! ch with
  | Some deadline =>
      if (deadline >? now)%Z then q else set_retry (delete ch) (delete ch) q
  | None => set_retry id (delete ch) q
  end.

(** The jittered backoff of attempt [attempt], in nanoseconds.  The source
    computes [capped_secs * (0.8 + nanos / u32::MAX * 0.4)] in binary64; the
    model uses the exact rational, rounded down to a nanosecond. *)
Definition base_secs (attempt : Z) : Z :=
  (BASE_RETRY_DELAY_SECS * Z.shiftl 1 ((attempt - 1) `min` 6))%Z `min` (2 ^ 64 - 1)%Z.

Definition capped_secs (attempt : Z) : Z := base_secs attempt `min` MAX_RETRY_DELAY_SECS.

Definition retry_delay (attempt nanos : Z) : Z :=
  (from_secs (capped_secs attempt) * (8 * (2 ^ 32 - 1) + 4 * nanos) / (10 * (2 ^ 32 - 1)))%Z.

(** [push_front] of the batch's events in reverse, then the cap. *)
Definition push_front_batch (ch : Uuid) (events : list BatchEvent) (q : EventQueue) : EventQueue :=
  let queue := default [] (queues q !! ch) in
  let queue := foldl (λ acc be, to_queued_event ch be :: acc) queue (reverse events) in
  set_queues (<[ch := trim_back queue]>) q.

Definition requeue (now nanos : Z) (batch : FlushBatch) (q : EventQueue) :
    option FlushBatch * EventQueue :=
  let ch := fb_channel_id batch in
  let attempt := (default 0 (retry_counts q !! ch) + 1)%Z in
  let q := set_retry id (<[ch := attempt]>) q in
  if (attempt >? MAX_RETRIES)%Z then (Some batch, set_retry (delete ch) (delete ch) q)
  else
    let q := push_front_batch ch (fb_events batch) q in
    (None, set_retry (<[ch := (now + retry_delay attempt nanos)%Z]>) id q).

Definition requeue_preserve_timestamps (batch : FlushBatch) (q : EventQueue) : EventQueue :=
  push_front_batch (fb_channel_id batch) (fb_events batch) q.

Definition requeue_as_cancelled (batch : FlushBatch) (reason : CancelReason) (q : EventQueue) :
    EventQueue :=
  let ch := fb_channel_id batch in
  let entry := default [] (cancelled_batches q !! ch) in
  set_cancelled (<[ch := entry ++ fb_cancelled_events batch ++ fb_events batch]>)
    (<[ch := reason]>) q.

Definition has_flushable_work (now : Z) (q : EventQueue) : bool * EventQueue :=
  let q := expire_in_flight now q in
  (existsb (flushable now q) (hiter (queues q))
   || existsb (λ ch, negb (bool_decide (ch ∈ in_flight_channels q)))
        (hiter (cancelled_batches q)).*1, q).

Definition has_undispatched_work (q : EventQueue) : bool :=
  let idle ch := negb (bool_decide (ch ∈ in_flight_channels q)) in
  existsb (λ e : Uuid * list QueuedEvent, negb (bool_decide (e.2 = [])) && idle e.1)
    (hiter (queues q))
  || existsb idle (hiter (cancelled_batches q)).*1
  || existsb (λ e : Uuid * list QueuedEvent, negb (bool_decide (e.2 = [])) && idle e.1)
       (hiter (withheld_native_steer q)).

Definition pending_channels (q : EventQueue) : nat := size (queues q).

Definition drain_channel (ch : Uuid) (q : EventQueue) : list string * EventQueue :=
  let ids := match queues q !! ch with
    | Some l => (λ e, id_to_hex (ev_id (qe_event e))) <$> l
    | None => []
    end in
  (ids, set_withheld (delete ch) (set_cancelled (delete ch) (delete ch)
          (set_retry (delete ch) (delete ch) (set_queues (delete ch) q)))).

Definition is_channel_in_flight (q : EventQueue) (ch : Uuid) : bool :=
  bool_decide (ch ∈ in_flight_channels q).

Definition has_in_flight (q : EventQueue) : bool :=
  negb (bool_decide (in_flight_channels q = ∅)).

Definition has_id (event_id : string) (qe : QueuedEvent) : bool :=
  bool_decide (id_to_hex (ev_id (qe_event qe)) = event_id).

Definition mark_native_steer_pending (ch : Uuid) (event_id : string) (q : EventQueue) :
    bool * EventQueue :=
  match queues q !! ch with
  | None => (false, q)
  | Some l =>
      match remove_first (has_id event_id) l with
      | None => (false, q)
      | Some (qe, l') =>
          let q := set_queues (match l' with [] => delete ch | _ => <[ch := l']> end) q in
          let w := default [] (withheld_native_steer q !! ch) in
          (true, set_withheld (<[ch := w ++ [qe]]>) q)
      end
  end.

Definition release_native_steer (ch : Uuid) (event_id : string) (q : EventQueue) : EventQueue :=
  match withheld_native_steer q !! ch with
  | None => q
  | Some entries =>
      match remove_first (has_id event_id) entries with
      | None => q
      | Some (qe, entries') =>
          let q := set_withheld (match entries' with [] => delete ch | _ => <[ch := entries']> end) q in
          let queue := default [] (queues q !! ch) in
          set_queues (<[ch := trim_back (qe :: queue)]>) q
      end
  end.

(** [retain] on one map entry, dropping the entry when it becomes empty. *)
Definition retain_not (event_id : string) (ch : Uuid) (m : gmap Uuid (list QueuedEvent)) :
    gmap Uuid (list QueuedEvent) :=
  match m !! ch with
  | None => m
  | Some l =>
      match List.filter (λ qe, negb (has_id event_id qe)) l with
      | [] => delete ch m
      | l' => <[ch := l']> m
      end
  end.

Definition remove_event (ch : Uuid) (event_id : string) (q : EventQueue) : EventQueue :=
  set_queues (retain_not event_id ch) (set_withheld (retain_not event_id ch) q).

Definition compact_expired_state (now : Z) (q : EventQueue) : EventQueue :=
  let q := set_retry (filter (λ e, now < e.2)%Z) id q in
  set_retry id (filter (λ e : Uuid * Z,
    is_Some (retry_after q !! e.1) ∨
    default [] (queues q !! e.1) ≠ [] ∨
    e.1 ∈ in_flight_channels q)) q.

(** ** Specification *)

(** What the state keeps: the three in-flight tables cover the same channels,
    queues are capped and hold their own channel's events, withheld lists are
    not empty, retry counters stay within [MAX_RETRIES], and every cancelled
    batch has its reason. *)
Definition own_events (ch : Uuid) (l : list QueuedEvent) : Prop :=
  Forall (λ e, qe_channel_id e = ch) l.

Definition flight_ok (q : EventQueue) : Prop :=
  dom (in_flight_deadlines q) = in_flight_channels q ∧
  dom (in_flight_batch_sizes q) = in_flight_channels q.

Definition lists_ok (m : gmap Uuid (list QueuedEvent)) : Prop :=
  map_Forall (λ ch l, length l ≤ MAX_PENDING_PER_CHANNEL ∧ own_events ch l) m.

Definition withheld_ok (m : gmap Uuid (list QueuedEvent)) : Prop :=
  map_Forall (λ ch l, l ≠ [] ∧ own_events ch l) m.

Definition counts_ok (m : gmap Uuid Z) : Prop :=
  map_Forall (λ _ n, 1 ≤ n ≤ MAX_RETRIES)%Z m.

Definition cancel_ok (q : EventQueue) : Prop :=
  dom (cancelled_batches q) = dom (cancel_reasons q).

Record queue_ok (q : EventQueue) : Prop := {
  qo_flight : flight_ok q;
  qo_lists : lists_ok (queues q);
  qo_withheld : withheld_ok (withheld_native_steer q);
  qo_counts : counts_ok (retry_counts q);
  qo_cancel : cancel_ok q
}.

Inductive queue_op :=
| OPush (e : QueuedEvent)
| OFlush (now : Z)
| OComplete (now : Z) (ch : Uuid)
| ORequeue (now nanos : Z) (b : FlushBatch)
| OPreserve (b : FlushBatch)
| OCancel (b : FlushBatch) (reason : CancelReason)
| OHasWork (now : Z)
| ODrain (ch : Uuid)
| OSteer (ch : Uuid) (id : string)
| ORelease (ch : Uuid) (id : string)
| ORemove (ch : Uuid) (id : string)
| OCompact (now : Z)
| OExtend (now : Z) (ch : Uuid) (secs : Z).

Definition queue_exec (q : EventQueue) (op : queue_op) : EventQueue :=
  match op with
  | OPush e => (push e q).2
  | OFlush now => (flush_next now q).2
  | OComplete now ch => mark_complete now ch q
  | ORequeue now nanos b => (requeue now nanos b q).2
  | OPreserve b => requeue_preserve_timestamps b q
  | OCancel b reason => requeue_as_cancelled b reason q
  | OHasWork now => (has_flushable_work now q).2
  | ODrain ch => (drain_channel ch q).2
  | OSteer ch id => (mark_native_steer_pending ch id q).2
  | ORelease ch id => release_native_steer ch id q
  | ORemove ch id => remove_event ch id q
  | OCompact now => compact_expired_state now q
  | OExtend now ch secs => extend_in_flight_deadline now ch secs q
  end.

Definition queue_run (mode : DedupMode) (ops : list queue_op) : EventQueue :=
  foldl queue_exec (queue_new mode) ops.

(** A channel [flush_next] may pick from its queue. *)
Definition eligible (now : Z) (q : EventQueue) (ch : Uuid) (l : list QueuedEvent) : Prop :=
  queues q !! ch = Some l ∧ l ≠ [] ∧ ch ∉ in_flight_channels q ∧
  ∀ t, retry_after q !! ch = Some t → (t ≤ now)%Z.

(** The undelivered events the queue holds for a channel. *)
Definition pending_of (q : EventQueue) (ch : Uuid) : list NostrEvent :=
  (qe_event <$> default [] (queues q !! ch))
  ++ (be_event <$> default [] (cancelled_batches q !! ch))
  ++ (qe_event <$> default [] (withheld_native_steer q !! ch)).

(** ** Lemmas: lists *)

Lemma foldl_push_front {A B} (f : A → B) l acc :
  foldl (λ acc x, f x :: acc) acc (reverse l) = (f <$> l) ++ acc.
Proof.
  revert acc. induction l as [|x l IH] using rev_ind; intros acc; [done|].
  rewrite reverse_snoc, fmap_app, <-app_assoc. simpl. apply IH.
Qed.

Lemma trim_back_le l : length (trim_back l) ≤ MAX_PENDING_PER_CHANNEL.
Proof. unfold trim_back. rewrite length_take. lia. Qed.

Lemma trim_back_id l : length l ≤ MAX_PENDING_PER_CHANNEL → trim_back l = l.
Proof. apply take_ge. Qed.

Lemma own_events_trim ch l : own_events ch l → own_events ch (trim_back l).
Proof. apply Forall_take. Qed.

Definition created_le (a b : BatchEvent) : Prop :=
  (ev_created_at (be_event a) ≤ ev_created_at (be_event b))%Z.

Lemma sort_by_created_sorted l : StronglySorted created_le (sort_by_created l).
Proof.
  assert (StronglySorted (λ a b, (ev_created_at (be_event a) <=? ev_created_at (be_event b))%Z = true)
            (sort_by_created l)) as Hs by (apply sort_by_sorted; lia).
  induction Hs as [|b l' _ IH Hb]; constructor; [done|].
  eapply Forall_impl; [exact Hb|]. unfold created_le. simpl. lia.
Qed.

Lemma min_by_key_elem {A} (key : A → Z) best l : min_by_key key best l ∈ best :: l.
Proof.
  revert best. induction l as [|x l IH]; intros best; simpl; [left|].
  specialize (IH (if (key x <? key best)%Z then x else best)). case_match; set_solver.
Qed.

Lemma min_by_key_le {A} (key : A → Z) best l x :
  x ∈ best :: l → (key (min_by_key key best l) ≤ key x)%Z.
Proof.
  revert best x. induction l as [|y l IH]; intros best x Hx; simpl.
  { apply list_elem_of_singleton in Hx as ->. lia. }
  destruct (Z.ltb_spec (key y) (key best)).
  - apply elem_of_cons in Hx as [->|Hx]; [|by apply IH].
    transitivity (key y); [apply IH; left|lia].
  - apply elem_of_cons in Hx as [->|[->|Hx]%elem_of_cons].
    + apply IH. left.
    + transitivity (key best); [apply IH; left|lia].
    + apply IH. by right.
Qed.

Lemma remove_first_Some {A} (f : A → bool) l x l' :
  remove_first f l = Some (x, l') →
  f x = true ∧ ∃ l1 l2, l = l1 ++ x :: l2 ∧ l' = l1 ++ l2 ∧ Forall (λ y, f y = false) l1.
Proof.
  revert l'. induction l as [|y l IH]; intros l'; simpl; [done|].
  destruct (f y) eqn:Hy; [intros [= -> ->]; split; [done|]; by exists [], l'|].
  destruct (remove_first f l) as [[z l'']|]; [|done]. intros [= -> <-].
  destruct (IH l'' eq_refl) as (Hx & l1 & l2 & -> & -> & Hall). split; [done|].
  exists (y :: l1), l2. split; [done|]. split; [done|by constructor].
Qed.

Lemma remove_first_perm {A} (f : A → bool) l x l' :
  remove_first f l = Some (x, l') → l ≡ₚ x :: l'.
Proof.
  intros (_ & l1 & l2 & -> & -> & _)%remove_first_Some. symmetry. apply Permutation_middle.
Qed.

(** ** Lemmas: expiry *)

(** What the expiry of a channel leaves in its queue: the withheld events go
    back to the front, then the cap is applied. *)
Definition recovered (q : EventQueue) (ch : Uuid) : option (list QueuedEvent) :=
  match withheld_native_steer q !! ch with
  | Some es => Some (trim_back (es ++ default [] (queues q !! ch)))
  | None => queues q !! ch
  end.

(** The state after the channels of [l] have expired, field by field. *)
Record expired_from (q : EventQueue) (l : list Uuid) (q' : EventQueue) : Prop := {
  ex_channels : in_flight_channels q' = in_flight_channels q ∖ list_to_set l;
  ex_deadlines ch : in_flight_deadlines q' !! ch =
    if decide (ch ∈ l) then None else in_flight_deadlines q !! ch;
  ex_sizes ch : in_flight_batch_sizes q' !! ch =
    if decide (ch ∈ l) then None else in_flight_batch_sizes q !! ch;
  ex_queues ch : queues q' !! ch = if decide (ch ∈ l) then recovered q ch else queues q !! ch;
  ex_withheld ch : withheld_native_steer q' !! ch =
    if decide (ch ∈ l) then None else withheld_native_steer q !! ch;
  ex_retry : retry_after q' = retry_after q;
  ex_counts : retry_counts q' = retry_counts q;
  ex_cancelled : cancelled_batches q' = cancelled_batches q;
  ex_reasons : cancel_reasons q' = cancel_reasons q;
  ex_mode : dedup_mode q' = dedup_mode q;
  ex_deadline : in_flight_deadline q' = in_flight_deadline q
}.

Lemma expire_channel_queues q c ch :
  queues (expire_channel q c) !! ch = if decide (ch = c) then recovered q c else queues q !! ch.
Proof.
  unfold expire_channel, recover_withheld_for_expired_channel, recovered. simpl.
  destruct (withheld_native_steer q !! c) as [es|]; simpl; [|by case_decide; subst].
  rewrite foldl_push_front, list_fmap_id, lookup_insert.
  case_decide; case_decide; naive_solver.
Qed.

Lemma expire_channel_withheld q c ch :
  withheld_native_steer (expire_channel q c) !! ch =
    if decide (ch = c) then None else withheld_native_steer q !! ch.
Proof.
  unfold expire_channel, recover_withheld_for_expired_channel. simpl.
  destruct (withheld_native_steer q !! c) as [es|] eqn:E; simpl.
  - rewrite lookup_delete. case_decide; case_decide; naive_solver.
  - case_decide; by subst.
Qed.

(** The other fields do not depend on what was withheld. *)
Lemma expire_channel_rest q c :
  in_flight_channels (expire_channel q c) = in_flight_channels q ∖ {[c]} ∧
  in_flight_deadlines (expire_channel q c) = delete c (in_flight_deadlines q) ∧
  in_flight_batch_sizes (expire_channel q c) = delete c (in_flight_batch_sizes q) ∧
  retry_after (expire_channel q c) = retry_after q ∧
  retry_counts (expire_channel q c) = retry_counts q ∧
  cancelled_batches (expire_channel q c) = cancelled_batches q ∧
  cancel_reasons (expire_channel q c) = cancel_reasons q ∧
  dedup_mode (expire_channel q c) = dedup_mode q ∧
  in_flight_deadline (expire_channel q c) = in_flight_deadline q.
Proof.
  unfold expire_channel, recover_withheld_for_expired_channel. by case_match.
Qed.

Lemma expire_fold q l : expired_from q l (foldl expire_channel q l).
Proof.
  induction l as [|c l IH] using rev_ind; [split; try intros ch; simpl; try done; set_solver|].
  rewrite foldl_snoc. set (q1 := foldl expire_channel q l) in *. destruct IH.
  destruct (expire_channel_rest q1 c) as (E1 & E2 & E3 & E4 & E5 & E6 & E7 & E8 & E9).
  assert (∀ ch, ch ∈ l ++ [c] ↔ ch ∈ l ∨ ch = c) as Hin by set_solver.
  split; try congruence; try intros ch.
  - rewrite E1, ex_channels0, list_to_set_app_L. set_solver.
  - rewrite E2, lookup_delete, ex_deadlines0, (decide_ext _ _ _ _ (Hin ch)).
    repeat case_decide; naive_solver.
  - rewrite E3, lookup_delete, ex_sizes0, (decide_ext _ _ _ _ (Hin ch)).
    repeat case_decide; naive_solver.
  - rewrite expire_channel_queues, (decide_ext _ _ _ _ (Hin ch)). unfold recovered at 1.
    rewrite ex_withheld0, !ex_queues0. repeat case_decide; naive_solver.
  - rewrite expire_channel_withheld, ex_withheld0, (decide_ext _ _ _ _ (Hin ch)).
    repeat case_decide; naive_solver.
Qed.

Lemma expire_in_flight_from now q : expired_from q (expired_channels now q) (expire_in_flight now q).
Proof. apply expire_fold. Qed.

Lemma elem_of_expired_channels now q ch :
  ch ∈ expired_channels now q ↔ ∃ d, in_flight_deadlines q !! ch = Some d ∧ (d ≤ now)%Z.
Proof.
  unfold expired_channels. rewrite list_elem_of_fmap. split.
  - intros ([ch' d] & -> & Hin). apply list_elem_of_In, filter_In in Hin as [Hin Hd].
    apply list_elem_of_In, elem_of_hiter in Hin. exists d. split; [done|]. simpl in *. lia.
  - intros (d & Hd & Hle). exists (ch, d). split; [done|].
    apply list_elem_of_In, filter_In. split; [by apply list_elem_of_In, elem_of_hiter|]. simpl. lia.
Qed.

(** ** Lemmas: the invariant *)

Lemma lists_ok_insert m ch l :
  lists_ok m → length l ≤ MAX_PENDING_PER_CHANNEL → own_events ch l → lists_ok (<[ch := l]> m).
Proof. intros Hm Hl Ho. by apply map_Forall_insert_2. Qed.

Lemma lists_ok_delete m ch : lists_ok m → lists_ok (delete ch m).
Proof. apply map_Forall_delete. Qed.

Lemma lists_ok_lookup m ch :
  lists_ok m → length (default [] (m !! ch)) ≤ MAX_PENDING_PER_CHANNEL ∧
               own_events ch (default [] (m !! ch)).
Proof.
  intros Hm. destruct (m !! ch) as [l|] eqn:E; simpl; [by apply Hm in E|].
  split; [unfold MAX_PENDING_PER_CHANNEL; lia|constructor].
Qed.

(** Replace a channel's list, dropping the entry when it is empty. *)
Lemma lists_ok_replace m ch l :
  lists_ok m → length l ≤ MAX_PENDING_PER_CHANNEL → own_events ch l →
  lists_ok (match l with [] => delete ch | _ => <[ch := l]> end m).
Proof. intros. destruct l; [by apply lists_ok_delete|by apply lists_ok_insert]. Qed.

Lemma withheld_ok_lookup m ch : withheld_ok m → own_events ch (default [] (m !! ch)).
Proof. intros Hm. destruct (m !! ch) as [l|] eqn:E; simpl; [by apply Hm in E as []|constructor]. Qed.

Lemma own_events_app ch l l' : own_events ch (l ++ l') ↔ own_events ch l ∧ own_events ch l'.
Proof. apply Forall_app. Qed.

Lemma own_events_queued ch bs : own_events ch (to_queued_event ch <$> bs).
Proof. apply Forall_forall. intros e (b & -> & _)%list_elem_of_fmap. done. Qed.

Lemma push_front_batch_queues ch bs q :
  queues (push_front_batch ch bs q) =
  <[ch := trim_back ((to_queued_event ch <$> bs) ++ default [] (queues q !! ch))]> (queues q).
Proof. unfold push_front_batch. simpl. by rewrite foldl_push_front. Qed.

Lemma push_front_batch_lists_ok ch bs q :
  lists_ok (queues q) → lists_ok (queues (push_front_batch ch bs q)).
Proof.
  intros Hq. rewrite push_front_batch_queues. apply lists_ok_insert; [done|apply trim_back_le|].
  apply own_events_trim, own_events_app. split; [apply own_events_queued|by apply lists_ok_lookup].
Qed.

Lemma push_ok e q : queue_ok q → queue_ok (push e q).2.
Proof.
  intros [F L W C K]. unfold push. case_match; [done|]. simpl.
  destruct (lists_ok_lookup _ (qe_channel_id e) L) as [Hlen Hown].
  split; simpl; try done.
  set (ql := default [] (queues q !! qe_channel_id e)) in *. clearbody ql.
  assert (0 < MAX_PENDING_PER_CHANNEL) by (unfold MAX_PENDING_PER_CHANNEL; lia).
  apply lists_ok_insert; [done| |].
  - rewrite length_app. simpl. destruct (decide (_ ≤ length ql)); [destruct ql; simpl in *|]; lia.
  - apply own_events_app. split; [|by repeat constructor].
    destruct (decide (_ ≤ length ql)); [|done]. destruct ql; [done|by inversion Hown].
Qed.

Lemma recovered_ok q ch l :
  lists_ok (queues q) → withheld_ok (withheld_native_steer q) → recovered q ch = Some l →
  length l ≤ MAX_PENDING_PER_CHANNEL ∧ own_events ch l.
Proof.
  unfold recovered. intros L W. destruct (withheld_native_steer q !! ch) as [es|] eqn:E; [|apply L].
  intros [= <-]. split; [apply trim_back_le|]. apply own_events_trim, own_events_app.
  split; [by apply W in E as []|by apply lists_ok_lookup].
Qed.

Lemma expired_from_ok q l q' : expired_from q l q' → queue_ok q → queue_ok q'.
Proof.
  intros X [[F1 F2] L W C K]. split.
  - split; rewrite (ex_channels _ _ _ X); apply set_eq; intros ch;
      rewrite elem_of_dom, elem_of_difference, elem_of_list_to_set.
    + rewrite (ex_deadlines _ _ _ X), <-F1, elem_of_dom.
      case_decide; split; [intros [? ?]; done|naive_solver|done|naive_solver].
    + rewrite (ex_sizes _ _ _ X), <-F2, elem_of_dom.
      case_decide; split; [intros [? ?]; done|naive_solver|done|naive_solver].
  - intros ch ql. rewrite (ex_queues _ _ _ X). case_decide; [by apply recovered_ok|apply L].
  - intros ch wl. rewrite (ex_withheld _ _ _ X). case_decide; [done|apply W].
  - by rewrite (ex_counts _ _ _ X).
  - unfold cancel_ok. by rewrite (ex_cancelled _ _ _ X), (ex_reasons _ _ _ X).
Qed.

Lemma expire_in_flight_ok now q : queue_ok q → queue_ok (expire_in_flight now q).
Proof. eapply expired_from_ok, expire_in_flight_from. Qed.

Lemma flight_ok_insert q fq fb fr ch d n :
  flight_ok q →
  flight_ok (set_in_flight ({[ch]} ∪.) (<[ch := d]>) (<[ch := n]>)
               (set_cancelled fb fr (set_queues fq q))).
Proof. intros [F1 F2]. split; simpl; rewrite dom_insert_L; congruence. Qed.

Lemma flight_ok_delete q ch :
  flight_ok q → flight_ok (set_in_flight (.∖ {[ch]}) (delete ch) (delete ch) q).
Proof. intros [F1 F2]. split; simpl; rewrite dom_delete_L; congruence. Qed.

Lemma flush_next_ok now q : queue_ok q → queue_ok (flush_next now q).2.
Proof.
  intros Hq. apply (expire_in_flight_ok now) in Hq. unfold flush_next.
  set (q0 := expire_in_flight now q) in *. destruct Hq as [F L W C K]. case_match eqn:E.
  - destruct (cancelled_channel q0) as [ch|]; [|by split]. simpl.
    split; simpl; try done; [by apply (flight_ok_insert q0 id)|].
    unfold cancel_ok in *. simpl. by rewrite !dom_delete_L, K.
  - simpl. set (ch := (min_by_key _ _ _).1).
    destruct (lists_ok_lookup _ ch L) as [Hlen Hown].
    split; simpl; try done; [by apply (flight_ok_insert q0 _ id id)| |].
    + apply lists_ok_replace; [done|rewrite length_drop; lia|by apply Forall_drop].
    + unfold cancel_ok in *. simpl. by rewrite !dom_delete_L, K.
Qed.

Lemma mark_complete_ok now ch q : queue_ok q → queue_ok (mark_complete now ch q).
Proof.
  intros [F L W C K]. pose proof (flight_ok_delete q ch F) as F'. unfold mark_complete.
  assert (counts_ok (delete ch (retry_counts q))) by (by apply map_Forall_delete).
  simpl. repeat case_match; by split.
Qed.

Lemma requeue_ok now nanos b q : queue_ok q → queue_ok (requeue now nanos b q).2.
Proof.
  intros [F L W C K]. unfold requeue.
  set (attempt := (default 0 (retry_counts q !! fb_channel_id b) + 1)%Z).
  destruct (Z.gtb_spec attempt MAX_RETRIES) as [Hgt|Hle]; simpl.
  - split; simpl; try done. rewrite delete_insert_eq. by apply map_Forall_delete.
  - split; simpl; try done; [by apply push_front_batch_lists_ok|].
    apply map_Forall_insert_2; [|done]. split; [|lia]. unfold attempt.
    destruct (retry_counts q !! fb_channel_id b) eqn:E; simpl; [apply C in E|]; lia.
Qed.

Lemma requeue_preserve_ok b q : queue_ok q → queue_ok (requeue_preserve_timestamps b q).
Proof. intros [F L W C K]. split; try done. by apply push_front_batch_lists_ok. Qed.

Lemma requeue_as_cancelled_ok b r q : queue_ok q → queue_ok (requeue_as_cancelled b r q).
Proof.
  intros [F L W C K]. split; try done. unfold cancel_ok in *. simpl. by rewrite !dom_insert_L, K.
Qed.

Lemma drain_channel_ok ch q : queue_ok q → queue_ok (drain_channel ch q).2.
Proof.
  intros [F L W C K]. split; simpl; try done; try by apply map_Forall_delete.
  unfold cancel_ok in *. simpl. by rewrite !dom_delete_L, K.
Qed.

Lemma own_events_remove ch f l x l' :
  own_events ch l → remove_first f l = Some (x, l') → qe_channel_id x = ch ∧ own_events ch l'.
Proof.
  unfold own_events. intros Ho Hr%remove_first_perm. rewrite Hr in Ho. by inversion Ho.
Qed.

Lemma mark_native_steer_ok ch id q : queue_ok q → queue_ok (mark_native_steer_pending ch id q).2.
Proof.
  intros [F L W C K]. unfold mark_native_steer_pending.
  destruct (queues q !! ch) as [l|] eqn:El; [|by split].
  destruct (remove_first _ l) as [[qe l']|] eqn:Er; [|by split].
  destruct (L _ _ El) as [Hlen Hown]. destruct (own_events_remove _ _ _ _ _ Hown Er) as [Hqe Hl'].
  split; simpl; try done.
  - apply lists_ok_replace; [done| |done]. apply remove_first_perm, Permutation_length in Er.
    simpl in Er. lia.
  - apply map_Forall_insert_2; [|done]. split; [by destruct (default [] _)|].
    apply own_events_app. split; [by apply withheld_ok_lookup|by repeat constructor].
Qed.

Lemma withheld_ok_replace m ch l :
  withheld_ok m → own_events ch l → withheld_ok (match l with [] => delete ch | _ => <[ch := l]> end m).
Proof. intros. destruct l; [by apply map_Forall_delete|by apply map_Forall_insert_2]. Qed.

Lemma release_native_steer_ok ch id q : queue_ok q → queue_ok (release_native_steer ch id q).
Proof.
  intros [F L W C K]. unfold release_native_steer.
  destruct (withheld_native_steer q !! ch) as [l|] eqn:El; [|by split].
  destruct (remove_first _ l) as [[qe l']|] eqn:Er; [|by split].
  destruct (W _ _ El) as [_ Hown]. destruct (own_events_remove _ _ _ _ _ Hown Er) as [Hqe Hl'].
  split; simpl; try done; [|by apply withheld_ok_replace].
  apply lists_ok_insert; [done|apply trim_back_le|]. apply own_events_trim.
  constructor; [done|by apply lists_ok_lookup].
Qed.

Lemma own_events_filter ch f l : own_events ch l → own_events ch (List.filter f l).
Proof.
  unfold own_events. rewrite !Forall_forall. intros Ho x Hx.
  apply list_elem_of_In, filter_In in Hx as [Hx _]. by apply Ho, list_elem_of_In.
Qed.

Lemma retain_not_eq id ch m :
  retain_not id ch m =
  match m !! ch with
  | None => m
  | Some l => let l' := List.filter (λ qe, negb (has_id id qe)) l in
              match l' with [] => delete ch | _ => <[ch := l']> end m
  end.
Proof. unfold retain_not. repeat case_match; simplify_eq/=; congruence. Qed.

Lemma remove_event_ok ch id q : queue_ok q → queue_ok (remove_event ch id q).
Proof.
  intros [F L W C K]. split; try done; simpl; rewrite retain_not_eq; case_match eqn:E; try done.
  - destruct (L _ _ E). apply lists_ok_replace; [done| |by apply own_events_filter].
    etransitivity; [apply filter_length_le|done].
  - destruct (W _ _ E). apply withheld_ok_replace; [done|by apply own_events_filter].
Qed.

Lemma compact_ok now q : queue_ok q → queue_ok (compact_expired_state now q).
Proof.
  intros [F L W C K]. split; try done. simpl. intros ch n [Hn _]%map_lookup_filter_Some. by apply C in Hn.
Qed.

Lemma extend_ok now ch secs q : queue_ok q → queue_ok (extend_in_flight_deadline now ch secs q).
Proof.
  intros Hq. unfold extend_in_flight_deadline. case_match eqn:E; [|done]. case_match; [|done].
  destruct Hq as [[F1 F2] L W C K]. split; try done. split; simpl; [|done].
  rewrite dom_insert_lookup_L by eauto. done.
Qed.

Lemma has_work_ok now q : queue_ok q → queue_ok (has_flushable_work now q).2.
Proof. apply expire_in_flight_ok. Qed.

Lemma queue_exec_ok q op : queue_ok q → queue_ok (queue_exec q op).
Proof.
  destruct op; unfold queue_exec; auto using push_ok, flush_next_ok, mark_complete_ok, requeue_ok,
    requeue_preserve_ok, requeue_as_cancelled_ok, has_work_ok, drain_channel_ok,
    mark_native_steer_ok, release_native_steer_ok, remove_event_ok, compact_ok, extend_ok.
Qed.

Lemma queue_new_ok mode : queue_ok (queue_new mode).
Proof. by split. Qed.

Lemma queue_run_ok mode ops : queue_ok (queue_run mode ops).
Proof.
  unfold queue_run. induction ops as [|op ops IH] using rev_ind; [apply queue_new_ok|].
  rewrite foldl_snoc. by apply queue_exec_ok.
Qed.

(** ** Lemmas: flushing *)

(** The events of one second keep the order they were delivered in. *)
Definition at_second (t : Z) (l : list BatchEvent) : list BatchEvent :=
  List.filter (λ b, bool_decide (ev_created_at (be_event b) = t)) l.

Lemma sort_by_created_stable t l : at_second t (sort_by_created l) = at_second t l.
Proof. apply sort_by_stable. intros a b Ha Hb. breflect. lia. Qed.

Lemma flushable_eligible now q ch l :
  queues q !! ch = Some l ∧ flushable now q (ch, l) = true ↔ eligible now q ch l.
Proof.
  unfold flushable, eligible. simpl. rewrite !andb_true_iff, !negb_true_iff, !bool_decide_eq_false.
  split.
  - intros (? & (? & ?) & Hr). do 3 (split; [done|]). intros t Ht. rewrite Ht in Hr. lia.
  - intros (? & ? & ? & Hr). do 2 (split; [done|]). case_match; [|done].
    apply Z.leb_le. by apply Hr.
Qed.

Lemma elem_of_candidates now q ch l :
  (ch, l) ∈ List.filter (flushable now q) (hiter (queues q)) ↔ eligible now q ch l.
Proof.
  rewrite list_elem_of_In, filter_In, <-list_elem_of_In, elem_of_hiter. apply flushable_eligible.
Qed.

Lemma elem_of_cancelled_channels q ch :
  ch ∈ List.filter (λ ch, negb (bool_decide (ch ∈ in_flight_channels q)))
         (hiter (cancelled_batches q)).*1 ↔
  is_Some (cancelled_batches q !! ch) ∧ ch ∉ in_flight_channels q.
Proof.
  rewrite list_elem_of_In, filter_In, <-list_elem_of_In, negb_true_iff, bool_decide_eq_false.
  rewrite list_elem_of_fmap. split.
  - intros [([c l] & -> & Hin) ?]. apply elem_of_hiter in Hin. split; [by exists l|done].
  - intros [[l Hl] ?]. split; [|done]. exists (ch, l). split; [done|by apply elem_of_hiter].
Qed.

Lemma cancelled_channel_Some q ch :
  cancelled_channel q = Some ch → is_Some (cancelled_batches q !! ch) ∧ ch ∉ in_flight_channels q.
Proof.
  unfold cancelled_channel. intros Hh. apply elem_of_cancelled_channels.
  destruct (List.filter _ _); simpl in Hh; [done|]. simplify_eq. left.
Qed.

Lemma cancelled_channel_None q :
  cancelled_channel q = None →
  ∀ ch, is_Some (cancelled_batches q !! ch) → ch ∈ in_flight_channels q.
Proof.
  unfold cancelled_channel. intros Hh ch Hch. destruct (decide (ch ∈ in_flight_channels q)); [done|].
  assert (Hin := proj2 (elem_of_cancelled_channels q ch) (conj Hch n)).
  destruct (List.filter _ _); [set_solver|done].
Qed.

(** What one flush does to the state [q0] left by the expiry. *)
Inductive flush_step (now : Z) (q0 : EventQueue) : option FlushBatch → EventQueue → Prop :=
| flush_queued b q' l :
    let ch := fb_channel_id b in
    (* the chosen channel is ready, and no ready channel has an older head *)
    eligible now q0 ch l →
    (∀ ch' l', eligible now q0 ch' l' →
       (head_received_at (ch, l) ≤ head_received_at (ch', l'))%Z) →
    (* the batch is the oldest part of the queue in chronological order *)
    fb_events b ≡ₚ to_batch_event <$> take MAX_BATCH_EVENTS l →
    StronglySorted created_le (fb_events b) →
    (∀ t, at_second t (fb_events b) = at_second t (to_batch_event <$> take MAX_BATCH_EVENTS l)) →
    0 < length (fb_events b) ≤ MAX_BATCH_EVENTS →
    (* the cancelled batch of the channel is merged with its reason *)
    fb_cancelled_events b = default [] (cancelled_batches q0 !! ch) →
    fb_cancel_reason b = (if bool_decide (fb_cancelled_events b = []) then None
                          else cancel_reasons q0 !! ch) →
    default [] (queues q' !! ch) = drop MAX_BATCH_EVENTS l →
    (∀ ch', ch' ≠ ch → queues q' !! ch' = queues q0 !! ch') →
    flush_frame now q0 ch (length (fb_events b)) q' →
    flush_step now q0 (Some b) q'
| flush_cancelled b q' :
    let ch := fb_channel_id b in
    (∀ ch' l', ¬ eligible now q0 ch' l') →
    ch ∉ in_flight_channels q0 →
    cancelled_batches q0 !! ch = Some (fb_events b) →
    fb_cancelled_events b = [] →
    fb_cancel_reason b = cancel_reasons q0 !! ch →
    queues q' = queues q0 →
    flush_frame now q0 ch (length (fb_events b)) q' →
    flush_step now q0 (Some b) q'
| flush_idle :
    (∀ ch l, ¬ eligible now q0 ch l) →
    (∀ ch, is_Some (cancelled_batches q0 !! ch) → ch ∈ in_flight_channels q0) →
    flush_step now q0 None q0
(** The tables a flush of [n] events of [ch] changes besides the queue. *)
with flush_frame (now : Z) (q0 : EventQueue) : Uuid → nat → EventQueue → Prop :=
| flush_frame_intro ch n q' :
    in_flight_channels q' = {[ch]} ∪ in_flight_channels q0 →
    in_flight_deadlines q' = <[ch := (now + in_flight_deadline q0)%Z]> (in_flight_deadlines q0) →
    in_flight_batch_sizes q' = <[ch := n]> (in_flight_batch_sizes q0) →
    cancelled_batches q' = delete ch (cancelled_batches q0) →
    cancel_reasons q' = delete ch (cancel_reasons q0) →
    retry_after q' = retry_after q0 → retry_counts q' = retry_counts q0 →
    withheld_native_steer q' = withheld_native_steer q0 →
    flush_frame now q0 ch n q'.

Lemma drop_min_length {A} n (l : list A) : drop (n `min` length l) l = drop n l.
Proof.
  destruct (decide (n ≤ length l)); [by rewrite Nat.min_l|].
  rewrite Nat.min_r by lia. rewrite !drop_ge by lia. done.
Qed.

Lemma take_min_length {A} n (l : list A) : take (n `min` length l) l = take n l.
Proof.
  destruct (decide (n ≤ length l)); [by rewrite Nat.min_l|].
  rewrite Nat.min_r by lia. rewrite !take_ge by lia. done.
Qed.

Lemma flush_next_step now q :
  flush_step now (expire_in_flight now q) (flush_next now q).1 (flush_next now q).2.
Proof.
  unfold flush_next. set (q0 := expire_in_flight now q).
  pose proof (elem_of_candidates now q0) as Hc.
  destruct (List.filter _ _) as [|c cs] eqn:E.
  - assert (∀ ch l, ¬ eligible now q0 ch l) as Hno by (intros ch l Hel%Hc; set_solver).
    destruct (cancelled_channel q0) as [ch|] eqn:Ec; simpl.
    + destruct (cancelled_channel_Some _ _ Ec) as [[l Hl] Hni].
      apply flush_cancelled; simpl; try done; by rewrite Hl.
    + apply flush_idle; [done|by apply cancelled_channel_None].
  - destruct (min_by_key head_received_at c cs) as [ch l] eqn:Em.
    assert (eligible now q0 ch l) as Hel by (apply Hc; rewrite <-Em; apply min_by_key_elem).
    assert (Hl := proj1 Hel). assert (Hne := proj1 (proj2 Hel)).
    cbn [fst snd]. rewrite Hl. change (default [] (Some l)) with l.
    rewrite take_min_length, drop_min_length.
    apply (flush_queued now q0 _ _ l); simpl; try done.
    + intros ch' l' Hel'%Hc. rewrite <-Em. by apply min_by_key_le.
    + apply sort_by_perm.
    + apply sort_by_created_sorted.
    + intros t. apply sort_by_created_stable.
    + unfold sort_by_created. rewrite sort_by_perm, length_fmap, length_take.
      assert (length l ≠ 0) by (by destruct l). unfold MAX_BATCH_EVENTS. lia.
    + destruct (default [] (cancelled_batches q0 !! ch)); [done|].
      by rewrite bool_decide_eq_false_2.
    + destruct (drop MAX_BATCH_EVENTS l); [by rewrite lookup_delete_eq|by rewrite lookup_insert_eq].
    + intros ch' Hne'. destruct (drop MAX_BATCH_EVENTS l);
        [by rewrite lookup_delete_ne|by rewrite lookup_insert_ne].
Qed.

Lemma expired_channels_after now q : expired_channels now (expire_in_flight now q) = [].
Proof.
  destruct (expired_channels now (expire_in_flight now q)) as [|ch l] eqn:E; [done|].
  assert (ch ∈ expired_channels now (expire_in_flight now q)) as Hin by (rewrite E; left).
  apply elem_of_expired_channels in Hin as (d & Hd & Hle).
  rewrite (ex_deadlines _ _ _ (expire_in_flight_from now q)) in Hd.
  case_decide as Hin; [done|]. exfalso. apply Hin, elem_of_expired_channels. eauto.
Qed.

Lemma expire_in_flight_idem now q : expire_in_flight now (expire_in_flight now q) = expire_in_flight now q.
Proof. unfold expire_in_flight at 1. by rewrite expired_channels_after. Qed.

Lemma flush_next_expired now q : flush_next now (expire_in_flight now q) = flush_next now q.
Proof. unfold flush_next. by rewrite expire_in_flight_idem. Qed.

Lemma has_flushable_work_true now q :
  (has_flushable_work now q).1 = true ↔
  let q0 := expire_in_flight now q in
  (∃ ch l, eligible now q0 ch l) ∨
  (∃ ch, is_Some (cancelled_batches q0 !! ch) ∧ ch ∉ in_flight_channels q0).
Proof.
  unfold has_flushable_work. simpl. set (q0 := expire_in_flight now q).
  rewrite orb_true_iff, !existsb_elem_of. apply Morphisms_Prop.or_iff_morphism.
  - split.
    + intros ([ch l] & Hin%elem_of_hiter & Hf). exists ch, l. by apply flushable_eligible.
    + intros (ch & l & [? ?]%flushable_eligible). exists (ch, l). by rewrite elem_of_hiter.
  - apply exist_proper. intros ch. rewrite <-elem_of_cancelled_channels.
    by rewrite (list_elem_of_In (List.filter _ _)), filter_In, <-list_elem_of_In.
Qed.

Lemma flush_next_is_Some now q :
  is_Some (flush_next now q).1 ↔ (has_flushable_work now q).1 = true.
Proof.
  rewrite has_flushable_work_true. simpl. pose proof (flush_next_step now q) as Hs.
  inversion Hs as [b q' l ch Hel|b q' ch Hno Hni Hl|Hno Hc].
  - split; [|done]. intros _. left. by exists ch, l.
  - split; [|done]. intros _. right. exists ch. by rewrite Hl.
  - split; [by intros []|]. intros [(ch & l & Hel)|(ch & Hs' & Hni)]; [by apply Hno in Hel|].
    by apply Hc in Hs'.
Qed.

(** ** Lemmas: conservation *)

Lemma flush_step_pending now q0 ob q' ch :
  flush_step now q0 ob q' →
  pending_of q0 ch ≡ₚ
  match ob with
  | Some b => if decide (fb_channel_id b = ch)
              then be_event <$> fb_events b ++ fb_cancelled_events b else []
  | None => []
  end ++ pending_of q' ch.
Proof.
  intros [b q'' l ch' Hel Hmin Hp Hs Hst Hlen Hce Hcr Hq Hqn Hf
         |b q'' ch' Hno Hni Hl Hce Hcr Hq Hf|Hno Hc]; [| |done].
  all: try subst ch'; destruct Hf as [c n q2 E1 E2 E3 E4 E5 E6 E7 E8]; unfold pending_of; rewrite E4, E8.
  all: case_decide as Hch; [subst ch|].
  - rewrite lookup_delete_eq, Hq, Hce, (proj1 Hel), fmap_app, Hp. simpl.
    rewrite <-(take_drop MAX_BATCH_EVENTS l) at 1. rewrite fmap_app, <-list_fmap_compose.
    rewrite <-!app_assoc. apply Permutation_app; [done|].
    rewrite !app_assoc. apply Permutation_app_tail, Permutation_app_comm.
  - by rewrite Hqn, lookup_delete_ne by done.
  - rewrite lookup_delete_eq, Hl, Hce, Hq, app_nil_r. simpl. apply Permutation_app_swap_app.
  - by rewrite Hq, lookup_delete_ne by done.
Qed.

(** The cap cannot drop a withheld event when the queue leaves room for it. *)
Definition withheld_fits (q : EventQueue) : Prop :=
  ∀ ch es, withheld_native_steer q !! ch = Some es →
    length es + length (default [] (queues q !! ch)) ≤ MAX_PENDING_PER_CHANNEL.

Lemma expire_pending now q ch :
  withheld_fits q → pending_of (expire_in_flight now q) ch ≡ₚ pending_of q ch.
Proof.
  intros Hfit. pose proof (expire_in_flight_from now q) as X. unfold pending_of.
  rewrite (ex_queues _ _ _ X), (ex_withheld _ _ _ X), (ex_cancelled _ _ _ X).
  case_decide; [|done]. unfold recovered.
  destruct (withheld_native_steer q !! ch) as [es|] eqn:E; [|done]. simpl.
  rewrite trim_back_id by (rewrite length_app; by apply Hfit).
  rewrite fmap_app, app_nil_r, <-app_assoc, Permutation_app_comm. by rewrite <-!app_assoc.
Qed.

(** ** Lemmas: retries *)

Lemma capped_secs_eq attempt :
  (1 ≤ attempt)%Z →
  capped_secs attempt = ((BASE_RETRY_DELAY_SECS * 2 ^ (attempt - 1)) `min` MAX_RETRY_DELAY_SECS)%Z.
Proof.
  intros Ha. unfold capped_secs, base_secs, BASE_RETRY_DELAY_SECS, MAX_RETRY_DELAY_SECS.
  rewrite Z.shiftl_1_l. destruct (Z.le_gt_cases (attempt - 1) 6) as [Hle|Hgt].
  - rewrite (Z.min_l (attempt - 1) 6) by done.
    assert (2 ^ (attempt - 1) ≤ 2 ^ 6)%Z by (apply Z.pow_le_mono_r; lia). lia.
  - rewrite (Z.min_r (attempt - 1) 6) by lia.
    assert (2 ^ 7 ≤ 2 ^ (attempt - 1))%Z by (apply Z.pow_le_mono_r; lia). lia.
Qed.

Lemma capped_secs_bounds attempt : (1 ≤ attempt)%Z → (5 ≤ capped_secs attempt ≤ 300)%Z.
Proof.
  intros Ha. rewrite capped_secs_eq by done. unfold BASE_RETRY_DELAY_SECS, MAX_RETRY_DELAY_SECS.
  assert (2 ^ 0 ≤ 2 ^ (attempt - 1))%Z by (apply Z.pow_le_mono_r; lia). lia.
Qed.

(** With a subsecond clock the jitter factor stays in [0.8, 0.9). *)
Lemma retry_delay_bounds attempt nanos :
  (1 ≤ attempt → 0 ≤ nanos < 1000000000 →
   8 * from_secs (capped_secs attempt) ≤ 10 * retry_delay attempt nanos ∧
   10 * retry_delay attempt nanos < 9 * from_secs (capped_secs attempt))%Z.
Proof.
  intros Ha Hn. pose proof (capped_secs_bounds attempt Ha) as Hc.
  unfold retry_delay, from_secs. set (c := capped_secs attempt) in *. clearbody c.
  change (2 ^ 32 - 1)%Z with 4294967295%Z.
  set (x := (c * 1000000000 * (8 * 4294967295 + 4 * nanos))%Z).
  pose proof (Z.div_mod x (10 * 4294967295) ltac:(lia)) as Hd.
  pose proof (Z.mod_pos_bound x (10 * 4294967295) ltac:(lia)) as Hm.
  set (y := (x / (10 * 4294967295))%Z) in *. clearbody y. split.
  - assert (8 * (c * 1000000000) * 4294967295 ≤ x)%Z by (unfold x; nia).
    assert (c * 800000000 * (10 * 4294967295) ≤ x)%Z by lia. lia.
  - assert (x ≤ c * 1000000000 * (8 * 4294967295 + 4 * 1000000000))%Z by (unfold x; nia). lia.
Qed.

Lemma retry_delay_pos attempt nanos :
  (1 ≤ attempt → 0 ≤ nanos < 1000000000 → from_secs 4 ≤ retry_delay attempt nanos)%Z.
Proof.
  intros Ha Hn. pose proof (retry_delay_bounds attempt nanos Ha Hn).
  pose proof (capped_secs_bounds attempt Ha). unfold from_secs in *. lia.
Qed.

(** One failed prompt: the batch comes back at [f_at] and the channel is
    released at [f_done]. *)
Record failure := mkFailure { f_at : Z; f_nanos : Z; f_done : Z }.

Definition failure_ok (f : failure) : Prop :=
  (0 ≤ f_nanos f < 1000000000 ∧ f_at f ≤ f_done f < f_at f + from_secs 4)%Z.

Definition fail_once (b : FlushBatch) (f : failure) (q : EventQueue) :
    option FlushBatch * EventQueue :=
  let '(r, q) := requeue (f_at f) (f_nanos f) b q in
  (r, mark_complete (f_done f) (fb_channel_id b) q).

Fixpoint fail_times (b : FlushBatch) (fs : list failure) (q : EventQueue) :
    list (option FlushBatch) * EventQueue :=
  match fs with
  | [] => ([], q)
  | f :: fs' =>
      let '(r, q) := fail_once b f q in
      let '(rs, q) := fail_times b fs' q in (r :: rs, q)
  end.

Lemma fail_once_retry b f q n :
  failure_ok f → default 0%Z (retry_counts q !! fb_channel_id b) = n → (0 ≤ n < MAX_RETRIES)%Z →
  (fail_once b f q).1 = None ∧
  retry_counts (fail_once b f q).2 !! fb_channel_id b = Some (n + 1)%Z.
Proof.
  intros [Hn Ht] Hc Hlt. unfold fail_once, requeue. rewrite Hc.
  destruct (Z.gtb_spec (n + 1) MAX_RETRIES) as [|_]; [lia|]. simpl. split; [done|].
  unfold mark_complete. simpl. rewrite lookup_insert_eq.
  destruct (Z.gtb_spec (f_at f + retry_delay (n + 1) (f_nanos f)) (f_done f)) as [_|Hle]; simpl;
    [by rewrite lookup_insert_eq|].
  pose proof (retry_delay_pos (n + 1) (f_nanos f)). lia.
Qed.

Lemma fail_times_retry b fs q n :
  Forall failure_ok fs → default 0%Z (retry_counts q !! fb_channel_id b) = n → (0 ≤ n)%Z →
  (n + Z.of_nat (length fs) ≤ MAX_RETRIES)%Z →
  (fail_times b fs q).1 = replicate (length fs) None ∧
  default 0%Z (retry_counts (fail_times b fs q).2 !! fb_channel_id b) = (n + Z.of_nat (length fs))%Z.
Proof.
  intros Hok. revert q n. induction Hok as [|f fs Hf _ IH]; intros q n Hc H0 Hlen; simpl in *.
  { split; [done|]. lia. }
  destruct (fail_once_retry b f q n Hf Hc ltac:(lia)) as [E1 E2].
  destruct (fail_once b f q) as [r q1]. simpl in *. subst r.
  destruct (IH q1 (n + 1)%Z) as [E3 E4]; [by rewrite E2|lia|lia|].
  destruct (fail_times b fs q1) as [rs q2]. simpl in *. subst rs. split; [done|]. lia.
Qed.

Lemma fail_times_app b fs gs q :
  fail_times b (fs ++ gs) q =
  ((fail_times b fs q).1 ++ (fail_times b gs (fail_times b fs q).2).1,
   (fail_times b gs (fail_times b fs q).2).2).
Proof.
  revert q. induction fs as [|f fs IH]; intros q; simpl; [by destruct fail_times|].
  destruct (fail_once b f q) as [r q1]. rewrite IH. by destruct (fail_times b fs q1).
Qed.

Lemma fail_once_dead b f q :
  default 0%Z (retry_counts q !! fb_channel_id b) = MAX_RETRIES →
  (fail_once b f q).1 = Some b ∧
  queues (fail_once b f q).2 = queues q ∧
  retry_counts (fail_once b f q).2 !! fb_channel_id b = None ∧
  retry_after (fail_once b f q).2 !! fb_channel_id b = None.
Proof.
  intros Hc. unfold fail_once, requeue. rewrite Hc. simpl.
  unfold mark_complete. simpl. rewrite lookup_delete_eq. simpl.
  by rewrite !lookup_delete_eq.
Qed.

(** ** Lemmas: steering *)

Lemma release_restores ch id q es qe es' :
  withheld_native_steer q !! ch = Some es → remove_first (has_id id) es = Some (qe, es') →
  length (default [] (queues q !! ch)) < MAX_PENDING_PER_CHANNEL →
  queues (release_native_steer ch id q) !! ch = Some (qe :: default [] (queues q !! ch)) ∧
  default [] (withheld_native_steer (release_native_steer ch id q) !! ch) = es' ∧
  cancelled_batches (release_native_steer ch id q) = cancelled_batches q.
Proof.
  intros He Hr Hlen. unfold release_native_steer. rewrite He, Hr. simpl.
  rewrite lookup_insert_eq, trim_back_id by (simpl; lia). split; [done|]. split; [|done].
  destruct es'; [by rewrite lookup_delete_eq|by rewrite lookup_insert_eq].
Qed.

Lemma mark_steer_true ch id q q1 :
  mark_native_steer_pending ch id q = (true, q1) →
  ∃ l qe l', queues q !! ch = Some l ∧ remove_first (has_id id) l = Some (qe, l') ∧
    default [] (queues q1 !! ch) = l' ∧
    withheld_native_steer q1 !! ch = Some (default [] (withheld_native_steer q !! ch) ++ [qe]) ∧
    cancelled_batches q1 = cancelled_batches q ∧ has_id id qe = true.
Proof.
  unfold mark_native_steer_pending. destruct (queues q !! ch) as [l|] eqn:El; [|done].
  destruct (remove_first (has_id id) l) as [[qe l']|] eqn:Er; [|done]. intros [= <-].
  exists l, qe, l'. do 2 (split; [done|]). simpl. rewrite lookup_insert_eq.
  split; [destruct l'; [by rewrite lookup_delete_eq|by rewrite lookup_insert_eq]|].
  do 2 (split; [done|]). by apply remove_first_Some in Er as [].
Qed.

Lemma remove_first_exists {A} (f : A → bool) l x :
  x ∈ l → f x = true → ∃ y l', remove_first f l = Some (y, l').
Proof.
  induction 1 as [x l|x z l Hx IH]; intros Hf; simpl; [rewrite Hf; eauto|].
  destruct (f z); [eauto|]. destruct (IH Hf) as (y & l' & ->). eauto.
Qed.

(** ** Properties *)

(** in every state an operation sequence reaches, the three in-flight tables
    cover the same channels, queues are capped and hold their own channel's
    events, withheld lists are never empty, retry counters stay in
    [1, MAX_RETRIES], and a batch is held as cancelled exactly when its reason is. *)
Theorem queue_invariant mode ops : queue_ok (queue_run mode ops).
Proof. apply queue_run_ok. Qed.

(** C38: [flush_next] implements its contract on every branch: it serves the
    ready channel whose head event is oldest, with the oldest (at most 50) events
    in stable chronological order and the cancelled batch merged in; only with no
    ready channel does it re-dispatch a cancelled batch; and it returns nothing
    only when neither exists.  The channel becomes in flight with its deadline. *)
Theorem flush_next_refines now q :
  flush_step now (expire_in_flight now q) (flush_next now q).1 (flush_next now q).2.
Proof. apply flush_next_step. Qed.

(** [has_flushable_work] announces exactly the batches [flush_next] returns,
    and asking first does not change what is flushed. *)
Theorem has_flushable_work_exact now q :
  ((has_flushable_work now q).1 = true ↔ is_Some (flush_next now q).1) ∧
  flush_next now (has_flushable_work now q).2 = flush_next now q.
Proof. split; [symmetry; apply flush_next_is_Some|apply flush_next_expired]. Qed.

(** at most one batch per channel is in flight: a channel that is in flight
    is flushed again only after its deadline has passed. *)
Theorem one_batch_in_flight mode ops now b :
  let q := queue_run mode ops in
  (flush_next now q).1 = Some b →
  fb_channel_id b ∈ in_flight_channels q →
  ∃ d, in_flight_deadlines q !! fb_channel_id b = Some d ∧ (d ≤ now)%Z.
Proof.
  intros q Hb Hin. apply elem_of_expired_channels.
  assert (fb_channel_id b ∉ in_flight_channels (expire_in_flight now q)) as Hout.
  { pose proof (flush_next_step now q) as Hs. rewrite Hb in Hs.
    inversion Hs as [? ? l ch Hel|? ? ch _ Hni|]; subst; [apply Hel|apply Hni]. }
  rewrite (ex_channels _ _ _ (expire_in_flight_from now q)) in Hout.
  apply not_elem_of_difference in Hout as [|Hl]; [done|]. by apply elem_of_list_to_set in Hl.
Qed.

(** no event is lost or duplicated by a flush, expiry included: what a
    channel held is what the batch carries plus what the channel still holds
    (as long as the withheld events fit under the per-channel cap). *)
Theorem flush_conserves now q ch :
  withheld_fits q →
  pending_of q ch ≡ₚ
  match (flush_next now q).1 with
  | Some b => if decide (fb_channel_id b = ch)
              then be_event <$> fb_events b ++ fb_cancelled_events b else []
  | None => []
  end ++ pending_of (flush_next now q).2 ch.
Proof.
  intros Hfit. rewrite <-(expire_pending now q ch Hfit).
  apply (flush_step_pending now), flush_next_step.
Qed.

(** a batch that could not be dispatched goes back without loss, provided it
    merged no cancelled events and fits under the cap. *)
Theorem requeue_preserve_lossless now q b q1 ch :
  flush_next now q = (Some b, q1) →
  fb_cancelled_events b = [] →
  length (fb_events b) + length (default [] (queues q1 !! fb_channel_id b))
    ≤ MAX_PENDING_PER_CHANNEL →
  pending_of (requeue_preserve_timestamps b q1) ch ≡ₚ pending_of (expire_in_flight now q) ch.
Proof.
  intros Hf Hc Hlen. pose proof (flush_next_step now q) as Hs. rewrite Hf in Hs. simpl in Hs.
  rewrite (flush_step_pending _ _ _ _ ch Hs), Hc, app_nil_r. unfold requeue_preserve_timestamps.
  unfold pending_of. rewrite push_front_batch_queues.
  rewrite trim_back_id by (by rewrite length_app, length_fmap). simpl.
  case_decide as Hch; [subst ch; rewrite lookup_insert_eq|by rewrite lookup_insert_ne].
  simpl. rewrite fmap_app, <-list_fmap_compose. by rewrite <-!app_assoc.
Qed.

(** a batch that keeps failing is retried [MAX_RETRIES] times and then handed
    back to the caller exactly once, with the channel's backoff state cleared. *)
Theorem dead_letter_after_max_retries b fs f q :
  Forall failure_ok fs →
  length fs = Z.to_nat MAX_RETRIES →
  retry_counts q !! fb_channel_id b = None →
  let r := fail_times b (fs ++ [f]) q in
  r.1 = replicate (Z.to_nat MAX_RETRIES) None ++ [Some b] ∧
  retry_counts r.2 !! fb_channel_id b = None ∧
  retry_after r.2 !! fb_channel_id b = None.
Proof.
  intros Hok Hlen Hnone r. subst r. rewrite fail_times_app. simpl.
  destruct (fail_times_retry b fs q 0) as [E1 E2];
    [done|by rewrite Hnone|done|rewrite Hlen; done|].
  set (q1 := (fail_times b fs q).2) in *.
  destruct (fail_once_dead b f q1) as (E3 & _ & E4 & E5); [rewrite E2, Hlen; done|].
  destruct (fail_once b f q1) as [r2 q2]. simpl in *. by rewrite E1, Hlen, E3.
Qed.

(** the backoff of attempt [n] is [min (5 * 2^(n-1)) 300] seconds scaled by a
    jitter in [0.8, 0.9): it never overflows, never exceeds the cap and never
    reaches the upper part of the announced range. *)
Theorem retry_backoff_bounds attempt nanos :
  (1 ≤ attempt)%Z → (0 ≤ nanos < 1000000000)%Z →
  let target := from_secs ((5 * 2 ^ (attempt - 1)) `min` 300)%Z in
  (8 * target ≤ 10 * retry_delay attempt nanos < 9 * target)%Z.
Proof.
  intros Ha Hn target. pose proof (retry_delay_bounds attempt nanos Ha Hn) as Hb.
  rewrite capped_secs_eq in Hb by done. exact Hb.
Qed.

(** an event withheld for a steer is never lost: marking it moves it out of
    the flushable queue without changing what the channel holds, and releasing
    it puts an event with that id at the head of the queue, again without
    changing what the channel holds. *)
Theorem steer_conserves mode ops ch id q1 :
  let q := queue_run mode ops in
  mark_native_steer_pending ch id q = (true, q1) →
  let q2 := release_native_steer ch id q1 in
  pending_of q1 ch ≡ₚ pending_of q ch ∧
  pending_of q2 ch ≡ₚ pending_of q ch ∧
  ∃ qe l, queues q2 !! ch = Some (qe :: l) ∧ has_id id qe = true.
Proof.
  intros q Hm q2. destruct (mark_steer_true _ _ _ _ Hm) as (l & qe & l' & Hl & Hr & Hq1 & Hw & Hc & Hid).
  destruct (qo_lists _ (queue_run_ok mode ops) _ _ Hl) as [Hlen _].
  pose proof (remove_first_perm _ _ _ _ Hr) as Hp.
  destruct (remove_first_exists (has_id id) (default [] (withheld_native_steer q !! ch) ++ [qe]) qe)
    as (y & w' & Hy); [apply elem_of_app; right; left|done|].
  destruct (release_restores ch id q1 _ y w' Hw Hy) as (E1 & E2 & E3).
  { rewrite Hq1. apply Permutation_length in Hp. simpl in Hp. lia. }
  apply remove_first_Some in Hy as Hyid. destruct Hyid as [Hyid _]. apply remove_first_perm in Hy.
  assert (pending_of q1 ch ≡ₚ pending_of q ch) as H1.
  { unfold pending_of. rewrite Hq1, Hw, Hc, Hl. simpl. rewrite Hp, fmap_app. simpl.
    rewrite !app_assoc. by rewrite <-Permutation_cons_append. }
  split; [done|]. split; [|eauto]. rewrite <-H1. unfold pending_of, q2.
  rewrite E1, E2, E3, Hw. simpl. rewrite Hy. simpl. rewrite <-!Permutation_middle. done.
Qed.

(** compaction is invisible to dispatch: from then on exactly the same
    channels are ready. *)
Theorem compact_preserves_readiness now now' q ch l :
  (now ≤ now')%Z →
  eligible now' (compact_expired_state now q) ch l ↔ eligible now' q ch l.
Proof.
  intros Hle. unfold eligible. simpl. setoid_rewrite map_lookup_filter_Some. simpl.
  split; intros (H1 & H2 & H3 & Hr); do 3 (split; [done|]); intros t.
  - intros Ht. destruct (Z.le_gt_cases t now); [lia|]. apply Hr. split; [done|lia].
  - intros [Ht _]. by apply Hr.
Qed.

End queue.

(** ** Concrete runs *)

Module EventQueueDemo.

Definition ev (id created : Z) : NostrEvent := mkEvent (Z.to_N id) 2 created 9 [] "hi".
Definition qd (ch : N) (id created received : Z) : QueuedEvent :=
  mkQueued ch (ev id created) received "@mention".
Definition two_channels : list queue_op :=
  [OPush (qd 1 11 300 20); OPush (qd 1 12 100 21); OPush (qd 2 13 50 10)].
Definition flushed (now : Z) (ops : list queue_op) : option (N * list N * list N) :=
  (λ b, (fb_channel_id b, (λ e, ev_id (be_event e)) <$> fb_events b,
         (λ e, ev_id (be_event e)) <$> fb_cancelled_events b))
  <$> (flush_next now (queue_run DedupQueue ops)).1.

(** The channel with the oldest head goes first, then the other one with its
    replayed events in chronological order. *)
Example flush_order :
  flushed 30 two_channels = Some (2, [13], [])%N ∧
  flushed 30 (two_channels ++ [OFlush 30]) = Some (1, [12; 11], [])%N ∧
  flushed 30 (two_channels ++ [OFlush 30; OFlush 30]) = None.
Proof. vm_compute. done. Qed.

Definition batch_of (now : Z) (ops : list queue_op) : FlushBatch :=
  default (mkBatch 0 [] [] None) (flush_next now (queue_run DedupQueue ops)).1.

(** A cancelled batch merged into a flush that could not be dispatched is
    dropped when that flush is put back. *)
Definition interrupted : list queue_op :=
  [OPush (qd 1 11 100 20); OFlush 30;
   OCancel (batch_of 30 [OPush (qd 1 11 100 20)]) Interrupt; OComplete 31 1;
   OPush (qd 1 12 200 32)].

Example preserve_drops_cancelled :
  flushed 40 interrupted = Some (1, [12], [11])%N ∧
  (ev_id <$> pending_of (queue_run DedupQueue interrupted) 1) = [12; 11]%N ∧
  (ev_id <$> pending_of (queue_run DedupQueue
     (interrupted ++ [OFlush 40; OPreserve (batch_of 40 interrupted); OComplete 41 1])) 1) = [12]%N.
Proof. vm_compute. done. Qed.

Lemma one_batch_in_flight_witness :
  ∃ d, in_flight_deadlines (queue_run DedupQueue
         [OPush (qd 1 11 100 20); OFlush 30; OPush (qd 1 12 100 31)]) !! 1%N = Some d ∧
       (d ≤ from_secs 8000)%Z.
Proof.
  apply (one_batch_in_flight DedupQueue
           [OPush (qd 1 11 100 20); OFlush 30; OPush (qd 1 12 100 31)] (from_secs 8000)
           (batch_of 0 [OPush (qd 1 12 100 31)])).
  - vm_compute. reflexivity.
  - apply (bool_decide_unpack _). vm_compute. exact I.
Defined.

Lemma flush_conserves_witness :
  pending_of (queue_run DedupQueue two_channels) 1 ≡ₚ
  pending_of (flush_next 30 (queue_run DedupQueue two_channels)).2 1.
Proof.
  rewrite (flush_conserves 30 (queue_run DedupQueue two_channels) 1).
  - reflexivity.
  - intros ch es Hes. vm_compute in Hes. discriminate.
Defined.

Lemma requeue_preserve_lossless_witness :
  pending_of (requeue_preserve_timestamps (batch_of 30 two_channels)
    (flush_next 30 (queue_run DedupQueue two_channels)).2) 2 ≡ₚ
  pending_of (expire_in_flight 30 (queue_run DedupQueue two_channels)) 2.
Proof.
  apply (requeue_preserve_lossless 30).
  - vm_compute. reflexivity.
  - vm_compute. reflexivity.
  - apply Nat.leb_le. vm_compute. reflexivity.
Defined.

Definition fails : list failure :=
  (λ i : nat, mkFailure (from_secs (1000 * Z.of_nat i)) 500 (from_secs (1000 * Z.of_nat i) + 7))
  <$> seq 0 10.

Lemma dead_letter_after_max_retries_witness :
  (fail_times (batch_of 30 two_channels) (fails ++ [mkFailure 0 0 0])
     (queue_run DedupQueue two_channels)).1 =
  replicate 10 None ++ [Some (batch_of 30 two_channels)].
Proof.
  apply (dead_letter_after_max_retries (batch_of 30 two_channels) fails (mkFailure 0 0 0)
           (queue_run DedupQueue two_channels)).
  - unfold fails, failure_ok. simpl.
    repeat (apply Forall_cons; split; [simpl; unfold from_secs; lia|]). apply Forall_nil_2.
  - reflexivity.
  - vm_compute. reflexivity.
Defined.

Lemma retry_backoff_bounds_witness :
  (8 * from_secs 300 ≤ 10 * retry_delay 9 999999999 < 9 * from_secs 300)%Z.
Proof. apply (retry_backoff_bounds 9 999999999); lia. Defined.

Lemma steer_conserves_witness :
  let q := queue_run DedupQueue two_channels in
  let q1 := (mark_native_steer_pending 1 "1011" q).2 in
  pending_of (release_native_steer 1 "1011" q1) 1 ≡ₚ pending_of q 1.
Proof.
  apply (steer_conserves DedupQueue two_channels 1 "1011").
  vm_compute. reflexivity.
Defined.

Lemma compact_preserves_readiness_witness :
  eligible 30 (compact_expired_state 25 (queue_run DedupQueue two_channels)) 2 [qd 2 13 50 10].
Proof.
  apply (compact_preserves_readiness 25 30); [lia|]. split; [vm_compute; reflexivity|].
  split; [done|]. split.
  - apply (bool_decide_unpack _). vm_compute. exact I.
  - intros t Ht. vm_compute in Ht. discriminate.
Defined.

End EventQueueDemo.
