(* ===== verification/PairingCrypto.v ===== *)
(** * Pairing: messages, key derivation and the external crates
      ([buzz-core/src/pairing/{types,crypto,mod}.rs])

    The message and error types, the HKDF derivations, and the interface
    [PairingApi] to the crates the pairing code calls (keys, ECDH, HKDF, NIP-44,
    JSON, hex, event signing) with the laws the protocol relies on.  The toy
    instance at the end satisfies the laws and lets the protocol be evaluated. *)

From stdpp Require Import base gmap strings list.
From Stdlib Require Import Ascii.
From Stdlib.Strings Require Import Byte.
From S2P Require Import Prelude Nostr.

(** [str::len] as a machine integer. *)
Definition str_len (s : string) : Z := Z.of_nat (String.length s).

(** ** [types.rs] *)

Inductive PayloadType := Nsec | Bunker | Connect | Custom.

Inductive AbortReason :=
| SasMismatchReason | UserDenied | Timeout | ProtocolError | UnknownReason.

Inductive PairingMessage :=
| Offer (session_id : string) (version : N)
| SasConfirm (transcript_hash : string)
| Payload (payload_type : PayloadType) (payload : string)
| Complete (success : bool)
| AbortMsg (reason : AbortReason).

Definition default_version : N := 1.

(** ** [mod.rs]: errors *)

Inductive PairingError :=
| InvalidQr (msg : string)
| InvalidSessionId
| SasMismatch
| TranscriptMismatch
| UnexpectedMessage (expected got : string)
| SessionExpired
| Nip44Error (msg : string)
| JsonError (msg : string)
| InvalidPubkey (msg : string)
| SigningError (msg : string).

(** A signed event: [nostr::Event] with its signature. *)
Record SignedEvent := mkSigned { se_event : NostrEvent; se_sig : N }.

(** ** External crates *)

(** What building an event draws from outside: the clock, the jitter, the
    NIP-44 nonce and the signature's auxiliary randomness. *)
Record BuildEnv := mkEnv {
  env_now_secs : Z;
  env_jitter : Z;
  env_nonce : N;
  env_aux : N
}.

Class PairingApi := {
  (* nostr::Keys *)
  SecretKey : Type;
  public_key : SecretKey → PublicKey;
  pk_to_bytes : PublicKey → bytes;
  pk_to_hex : PublicKey → string;
  pk_from_hex : string → result string PublicKey;
  generate_shared_key : SecretKey → PublicKey → result string bytes;
  (* nostr::util::hkdf *)
  hkdf_extract : bytes → bytes → bytes;
  hkdf_expand : bytes → bytes → nat → bytes;
  (* nip44 *)
  nip44_encrypt : SecretKey → PublicKey → string → N → result string string;
  nip44_decrypt : SecretKey → PublicKey → string → result string string;
  (* serde_json on [PairingMessage] *)
  to_json : PairingMessage → result string string;
  from_json : string → result string PairingMessage;
  (* hex *)
  hex_encode : bytes → string;
  hex_decode : string → result string bytes;
  (* EventBuilder::sign_with_keys and Event::verify *)
  sign_with_keys : SecretKey → Kind → list Tag → string → Timestamp → N → result string SignedEvent;
  event_verify : SignedEvent → result string unit
}.

(** Documented behaviour the pairing code relies on. *)
Class PairingLaws (api : PairingApi) := {
  (* ECDH between two generated keys succeeds and is symmetric *)
  ecdh_agree : ∀ a b, ∃ k, generate_shared_key a (public_key b) = Ok k ∧
                           generate_shared_key b (public_key a) = Ok k;
  (* HKDF-Expand returns the requested number of bytes *)
  hkdf_expand_length : ∀ prk info n, length (hkdf_expand prk info n) = n;
  (* NIP-44 v2: plaintexts of 1 to 65535 bytes encrypt to 132 to 87472
     characters, and the peer decrypts what was encrypted *)
  nip44_encrypt_ok : ∀ a pk m r, (1 ≤ str_len m ≤ 65535)%Z →
    ∃ c, nip44_encrypt a pk m r = Ok c ∧ (132 ≤ str_len c ≤ 87472)%Z;
  nip44_roundtrip : ∀ a b m r c,
    nip44_encrypt a (public_key b) m r = Ok c → nip44_decrypt b (public_key a) c = Ok m;
  (* serde round trip, and a message is never the empty string *)
  json_roundtrip : ∀ m, ∃ s, to_json m = Ok s ∧ from_json s = Ok m ∧ s ≠ "";
  (* hex round trip *)
  hex_roundtrip : ∀ b, hex_decode (hex_encode b) = Ok b;
  (* signing keeps the fields, sets the author and verifies *)
  sign_ok : ∀ sk k ts c t r, ∃ e, sign_with_keys sk k ts c t r = Ok e ∧
    event_verify e = Ok tt ∧ ev_pubkey (se_event e) = public_key sk ∧
    ev_kind (se_event e) = k ∧ ev_tags (se_event e) = ts ∧ ev_content (se_event e) = c
}.

(** Event ids are hashes of the event: two signed events with the same id have
    the same content (SHA-256 collisions are not modelled). *)
Class IdBinding (api : PairingApi) :=
  sign_id_content : ∀ sk k ts c t r sk' k' ts' c' t' r' e e',
    sign_with_keys sk k ts c t r = Ok e → sign_with_keys sk' k' ts' c' t' r' = Ok e' →
    ev_id (se_event e) = ev_id (se_event e') → c = c'.

(** ** [crypto.rs] *)

Section crypto.
Context `{PairingApi}.

Definition INFO_SESSION_ID : bytes := String.list_byte_of_string "nostr-pair-session-id".
Definition INFO_SAS : bytes := String.list_byte_of_string "nostr-pair-sas-v1".
Definition INFO_TRANSCRIPT : bytes := String.list_byte_of_string "nostr-pair-transcript-v1".

Definition hkdf32 (salt ikm info : bytes) : bytes :=
  let prk := hkdf_extract salt ikm in
  let okm := hkdf_expand prk info 32 in
  take 32 okm.

Definition derive_session_id (session_secret : bytes) : bytes :=
  hkdf32 [] session_secret INFO_SESSION_ID.

(** [u32::from_be_bytes]. *)
Definition be_u32 (b : bytes) : N := foldl (λ acc x, acc * 256 + Byte.to_N x)%N 0%N b.

Definition derive_sas (ecdh_shared session_secret : bytes) : N * bytes :=
  let sas_input := hkdf32 session_secret ecdh_shared INFO_SAS in
  ((be_u32 (take 4 sas_input)) `mod` 1000000, sas_input)%N.

Definition transcript (session_id source_pubkey target_pubkey sas_input : bytes) : bytes :=
  session_id ++ source_pubkey ++ target_pubkey ++ sas_input.

Definition derive_transcript_hash
    (session_id source_pubkey target_pubkey sas_input session_secret : bytes) : bytes :=
  hkdf32 session_secret (transcript session_id source_pubkey target_pubkey sas_input)
    INFO_TRANSCRIPT.

Fixpoint zeros (n : nat) : string :=
  match n with 0 => "" | S n' => String "0" (zeros n') end.

(** [format!("{code:06}")]. *)
Definition format_sas (code : N) : string :=
  let s := num_to_string code in zeros (6 - String.length s) +:+ s.

Definition ct_eq (a b : bytes) : bool := bool_decide (a = b).

(** [<[u8; 32]>::try_from(b)]. *)
Definition try_into_32 (b : bytes) : option bytes :=
  if decide (length b = 32) then Some b else None.

(** ** Lemmas *)

Lemma hkdf32_length `{!PairingLaws _} salt ikm info : length (hkdf32 salt ikm info) = 32.
Proof. unfold hkdf32. rewrite length_take, hkdf_expand_length. done. Qed.

(** The parts of a transcript can be read back: fixed widths leave no
    ambiguity between sessions. *)
Lemma transcript_inj sid spk tpk sas sid' spk' tpk' sas' :
  length sid = 32 → length sid' = 32 → length spk = 32 → length spk' = 32 →
  length tpk = 32 → length tpk' = 32 →
  transcript sid spk tpk sas = transcript sid' spk' tpk' sas' →
  sid = sid' ∧ spk = spk' ∧ tpk = tpk' ∧ sas = sas'.
Proof.
  unfold transcript. intros H1 H2 H3 H4 H5 H6 E.
  apply app_inj_1 in E as [-> E]; [|congruence].
  apply app_inj_1 in E as [-> E]; [|congruence].
  by apply app_inj_1 in E as [-> ->]; [|congruence].
Qed.

Definition digits6 (c : N) : string :=
  String (digit (c / 10 / 10 / 10 / 10 / 10)) (String (digit (c / 10 / 10 / 10 / 10))
    (String (digit (c / 10 / 10 / 10)) (String (digit (c / 10 / 10))
      (String (digit (c / 10)) (String (digit c) EmptyString))))).

Lemma format_sas_digits c : (c < 1000000)%N → format_sas c = digits6 c.
Proof.
  intros Hc. unfold format_sas, num_to_string, digits6. cbn [dec_string].
  assert (∀ n : N, (n < 10)%N → (n / 10 = 0)%N) as Hz by (intros; by apply N.div_small).
  do 6 (let E := fresh "E" in case_match eqn:E;
    [apply N.ltb_lt in E; rewrite ?(Hz _ E), ?N.Div0.div_0_l; reflexivity|apply N.ltb_ge in E]).
  exfalso. assert (c / 10 / 10 / 10 / 10 / 10 < 10)%N; [|lia].
  repeat apply N.Div0.div_lt_upper_bound. lia.
Qed.

Lemma digit_inj a b : digit a = digit b → (a `mod` 10 = b `mod` 10)%N.
Proof.
  unfold digit. intros E%(f_equal N_of_ascii).
  pose proof (N.mod_lt a 10 ltac:(done)). pose proof (N.mod_lt b 10 ltac:(done)).
  rewrite !N_ascii_embedding in E by lia. lia.
Qed.

(** Users compare the formatted codes: equal displays mean equal codes. *)
Lemma format_sas_inj c d :
  (c < 1000000)%N → (d < 1000000)%N → format_sas c = format_sas d → c = d.
Proof.
  intros Hc Hd. rewrite !format_sas_digits by done. unfold digits6. intros E. simplify_eq.
  repeat match goal with H : digit _ = digit _ |- _ => apply digit_inj in H end.
  assert (∀ x y : N, x / 10 = y / 10 → x `mod` 10 = y `mod` 10 → x = y)%N as Hstep.
  { intros x y Hq Hr. rewrite (N.div_mod x 10), (N.div_mod y 10) by done. congruence. }
  assert (∀ x : N, x < 1000000 → x / 10 / 10 / 10 / 10 / 10 / 10 = 0)%N as Hz.
  { intros x Hx. apply N.div_small. repeat apply N.Div0.div_lt_upper_bound; lia. }
  repeat (apply Hstep; [|done]). by rewrite !Hz.
Qed.

Lemma derive_sas_lt ecdh secret : ((derive_sas ecdh secret).1 < 1000000)%N.
Proof. apply N.mod_lt. done. Qed.

End crypto.

(** ** A toy instance

    No secrecy, but every law holds: keys are numbers and their own public keys,
    the shared key is the sum, encryption prepends a fixed pad. *)

Module ToyCrypto.

(** Fixed-width hexadecimal, least significant digit first. *)
Definition hex_digit (n : N) : ascii :=
  if (n <? 10)%N then ascii_of_N (48 + n) else ascii_of_N (87 + n).

Definition hex_value (c : ascii) : option N :=
  let n := N_of_ascii c in
  if ((48 <=? n) && (n <=? 57))%N then Some (n - 48)%N
  else if ((97 <=? n) && (n <=? 102))%N then Some (n - 87)%N
  else None.

Fixpoint hex_fixed (k : nat) (n : N) : string :=
  match k with
  | 0 => ""
  | S k' => String (hex_digit (n `mod` 16)) (hex_fixed k' (n / 16))
  end.

Fixpoint hex_parse (s : string) : option N :=
  match s with
  | EmptyString => Some 0%N
  | String c s' =>
      match hex_value c, hex_parse s' with
      | Some d, Some n => Some (d + 16 * n)%N
      | _, _ => None
      end
  end.

Fixpoint bytes_to_hex (b : bytes) : string :=
  match b with
  | [] => ""
  | x :: b' =>
      String (hex_digit (Byte.to_N x / 16)) (String (hex_digit (Byte.to_N x `mod` 16))
        (bytes_to_hex b'))
  end.

Fixpoint hex_to_bytes (s : string) : option bytes :=
  match s with
  | EmptyString => Some []
  | String h (String l s') =>
      match hex_value h, hex_value l, hex_to_bytes s' with
      | Some h, Some l, Some b => (λ x, x :: b) <$> Byte.of_N (h * 16 + l)
      | _, _, _ => None
      end
  | _ => None
  end.

Definition of_option {A} (o : option A) : result string A :=
  match o with Some a => Ok a | None => Err "invalid" end.

Definition pk_bound : N := 16 ^ 64.

Definition num_bytes (n : N) : bytes :=
  match Byte.of_N (n `mod` 256) with
  | Some b => replicate 31 x00 ++ [b]
  | None => replicate 32 x00
  end.

Definition pad : string := zeros 132.

Definition encrypt (m : string) : result string string :=
  if decide (1 ≤ str_len m ≤ 65535)%Z then Ok (pad +:+ m) else Err "invalid length".

Definition type_char (t : PayloadType) : ascii :=
  match t with Nsec => "n" | Bunker => "b" | Connect => "c" | Custom => "x" end.

Definition reason_char (r : AbortReason) : ascii :=
  match r with
  | SasMismatchReason => "s" | UserDenied => "d" | Timeout => "t"
  | ProtocolError => "p" | UnknownReason => "u"
  end.

Definition msg_to_string (m : PairingMessage) : string :=
  match m with
  | Offer sid v => String "o" (zeros (N.to_nat v) +:+ String ":" sid)
  | SasConfirm h => String "s" h
  | Payload t p => String "p" (String (type_char t) p)
  | Complete b => if b then "ct" else "cf"
  | AbortMsg r => String "a" (String (reason_char r) "")
  end.

Definition parse_msg (s : string) : option PairingMessage :=
  match s with
  | String "o" r =>
      match split_once ":" r with
      | Some (v, sid) => Some (Offer sid (N.of_nat (String.length v)))
      | None => None
      end
  | String "s" h => Some (SasConfirm h)
  | String "p" (String "n" p) => Some (Payload Nsec p)
  | String "p" (String "b" p) => Some (Payload Bunker p)
  | String "p" (String "c" p) => Some (Payload Connect p)
  | String "p" (String "x" p) => Some (Payload Custom p)
  | String "c" (String "t" "") => Some (Complete true)
  | String "c" (String "f" "") => Some (Complete false)
  | String "a" (String "s" "") => Some (AbortMsg SasMismatchReason)
  | String "a" (String "d" "") => Some (AbortMsg UserDenied)
  | String "a" (String "t" "") => Some (AbortMsg Timeout)
  | String "a" (String "p" "") => Some (AbortMsg ProtocolError)
  | String "a" (String "u" "") => Some (AbortMsg UnknownReason)
  | _ => None
  end.

#[global] Instance toy_api : PairingApi := {|
  SecretKey := N;
  public_key := λ sk, (sk `mod` pk_bound)%N;
  pk_to_bytes := num_bytes;
  pk_to_hex := λ pk, hex_fixed 64 pk;
  pk_from_hex := λ s, of_option (hex_parse s);
  generate_shared_key := λ sk pk, Ok (num_bytes (sk `mod` pk_bound + pk));
  hkdf_extract := λ salt ikm, ikm ++ salt;
  hkdf_expand := λ prk info n, take n (prk ++ info ++ replicate n x00);
  nip44_encrypt := λ _ _ m _, encrypt m;
  nip44_decrypt := λ _ _ c, of_option (strip_prefix pad c);
  to_json := λ m, Ok (msg_to_string m);
  from_json := λ s, of_option (parse_msg s);
  hex_encode := bytes_to_hex;
  hex_decode := λ s, of_option (hex_to_bytes s);
  sign_with_keys := λ sk k ts c t r,
    let id := N.pos (encode c) in Ok (mkSigned (mkEvent id (sk `mod` pk_bound) t k ts c) id);
  event_verify := λ e,
    if decide (ev_id (se_event e) = se_sig e) then Ok tt else Err "bad signature"
|}.

Lemma zeros_length n : String.length (zeros n) = n.
Proof. induction n; simpl; congruence. Qed.

Lemma zeros_no_colon n : str_contains ":" (zeros n) = false.
Proof. induction n as [|n IH]; [done|]. simpl. by rewrite IH. Qed.

Lemma msg_roundtrip m : parse_msg (msg_to_string m) = Some m.
Proof.
  destruct m as [sid v|h|[]|[]|[]]; try done. simpl.
  rewrite split_once_app by apply zeros_no_colon. by rewrite zeros_length, N2Nat.id.
Qed.

Lemma hex_value_digit n : (n < 16)%N → hex_value (hex_digit n) = Some n.
Proof.
  intros Hn. destruct n as [|p]; [done|]. do 4 (destruct p as [p|p|]; [| |done]).
  all: exfalso; clear -Hn; unfold N.lt in Hn; by destruct p.
Qed.

Lemma hex_bytes_roundtrip b : hex_to_bytes (bytes_to_hex b) = Some b.
Proof.
  induction b as [|x b IH]; [done|]. simpl. rewrite IH.
  pose proof (Byte.to_N_bounded x). rewrite !hex_value_digit;
    [|by apply N.mod_lt|apply N.Div0.div_lt_upper_bound; lia].
  rewrite N.mul_comm, <-N.div_mod by done. by rewrite Byte.of_to_N.
Qed.

Lemma hex_parse_fixed k n : hex_parse (hex_fixed k n) = Some (n `mod` 16 ^ N.of_nat k)%N.
Proof.
  revert n. induction k as [|k IH]; intros n; simpl; [by rewrite N.mod_1_r|].
  rewrite hex_value_digit, IH by (apply N.mod_lt; done). f_equal.
  rewrite Nat2N.inj_succ, N.pow_succ_r', N.Div0.mod_mul_r. done.
Qed.

#[global] Instance toy_laws : PairingLaws toy_api.
Proof.
  split; simpl.
  - intros a b. eexists. split; [done|]. by rewrite N.add_comm.
  - intros prk info n. rewrite length_take, !length_app, length_replicate. lia.
  - intros _ _ m _ Hm. exists (pad +:+ m). unfold encrypt. rewrite decide_True by done.
    split; [done|]. unfold str_len in *. rewrite length_append.
    change (String.length pad) with 132. lia.
  - intros _ _ m _ c. unfold encrypt. case_decide; [|done]. intros [= <-].
    by rewrite strip_prefix_app.
  - intros m. exists (msg_to_string m). split; [done|]. rewrite msg_roundtrip.
    split; [done|]. by destruct m as [| |[]|[]|[]].
  - intros b. by rewrite hex_bytes_roundtrip.
  - intros. eexists. split; [done|]. simpl. by rewrite decide_True.
Qed.

#[global] Instance toy_binding : IdBinding toy_api.
Proof. intros sk k ts c t r sk' k' ts' c' t' r' e e'. simpl. intros. simplify_eq/=. by apply (inj encode). Qed.

End ToyCrypto.
