(* ===== verification/PairingSession.v ===== *)
(** * The pairing session state machine ([buzz-core/src/pairing/session.rs])

    One [PairingSession] per device.  Methods that take [&mut self] and return a
    [Result] are computations of the monad [M]: the session is threaded through,
    and an early return keeps what was already written to it.  [Instant::now()]
    is the argument [now] (nanoseconds). *)

From stdpp Require Import base gmap strings list.
From Stdlib Require Import Ascii.
From Stdlib.Strings Require Import Byte.
From S2P Require Import Prelude Nostr PairingCrypto.

Definition DEFAULT_TIMEOUT : Z := 120 * 1000000000.
Definition PAIRING_KIND : Z := 24134.

Inductive Role := Source | Target.

Inductive SessionState :=
| Waiting | Confirming | AwaitingConfirmation | Transferring | PayloadExchanged
| Completed | Aborted.

#[global] Instance role_eq_dec : EqDecision Role.
Proof. solve_decision. Defined.
#[global] Instance session_state_eq_dec : EqDecision SessionState.
Proof. solve_decision. Defined.

(** [{:?}] of the two enums. *)
Definition role_debug (r : Role) : string :=
  match r with Source => "Source" | Target => "Target" end.

Definition state_debug (s : SessionState) : string :=
  match s with
  | Waiting => "Waiting" | Confirming => "Confirming"
  | AwaitingConfirmation => "AwaitingConfirmation" | Transferring => "Transferring"
  | PayloadExchanged => "PayloadExchanged" | Completed => "Completed" | Aborted => "Aborted"
  end.

(** The QR payload of [qr.rs]. *)
Record QrPayload := mkQr {
  qr_source_pubkey : PublicKey;
  qr_session_secret : bytes;
  qr_relays : list string;
  qr_version : N
}.

Definition unexpected (expected : string) (got : PairingMessage) : PairingError :=
  UnexpectedMessage expected
    match got with
    | Offer _ _ => "offer"
    | SasConfirm _ => "sas-confirm"
    | Payload _ _ => "payload"
    | Complete _ => "complete"
    | AbortMsg _ => "abort"
    end.

Section session.
Context `{PairingApi}.

Record PairingSession := mkSession {
  role : Role;
  state : SessionState;
  keys : SecretKey;
  session_secret : bytes;
  relay_urls : list string;
  peer_pubkey : option PublicKey;
  session_id : bytes;
  sas_code_raw : option N;
  sas_input : option bytes;
  processed_ids : gset EventId;
  created_at : Z;
  timeout : Z
}.

Definition set_state (st : SessionState) (s : PairingSession) : PairingSession :=
  mkSession (role s) st (keys s) (session_secret s) (relay_urls s) (peer_pubkey s)
    (session_id s) (sas_code_raw s) (sas_input s) (processed_ids s) (created_at s) (timeout s).
Definition set_peer (pk : PublicKey) (s : PairingSession) : PairingSession :=
  mkSession (role s) (state s) (keys s) (session_secret s) (relay_urls s) (Some pk)
    (session_id s) (sas_code_raw s) (sas_input s) (processed_ids s) (created_at s) (timeout s).
Definition set_sas (code : N) (input : bytes) (s : PairingSession) : PairingSession :=
  mkSession (role s) (state s) (keys s) (session_secret s) (relay_urls s) (peer_pubkey s)
    (session_id s) (Some code) (Some input) (processed_ids s) (created_at s) (timeout s).
Definition add_processed (id : EventId) (s : PairingSession) : PairingSession :=
  mkSession (role s) (state s) (keys s) (session_secret s) (relay_urls s) (peer_pubkey s)
    (session_id s) (sas_code_raw s) (sas_input s) ({[id]} ∪ processed_ids s)
    (created_at s) (timeout s).

(** ** The method monad *)

Definition M (A : Type) : Type := PairingSession → result PairingError A * PairingSession.

#[global] Instance M_ret : MRet M := λ A a s, (Ok a, s).
#[global] Instance M_bind : MBind M := λ A B k m s,
  match m s with
  | (Ok a, s') => k a s'
  | (Err e, s') => (Err e, s')
  end.

Definition throw {A} (e : PairingError) : M A := λ s, (Err e, s).
Definition get : M PairingSession := λ s, (Ok s, s).
Definition modify (f : PairingSession → PairingSession) : M unit := λ s, (Ok tt, f s).
Definition lift {A} (r : result PairingError A) : M A := λ s, (r, s).
Definition ok_or {A} (o : option A) (e : PairingError) : M A :=
  match o with Some a => mret a | None => throw e end.

(** ** Guards *)

Definition is_expired (now : Z) (s : PairingSession) : bool :=
  (now - created_at s >? timeout s)%Z.

Definition check_expired (now : Z) : M unit :=
  s ← get; if is_expired now s then throw SessionExpired else mret tt.

Definition expect_state (expected : SessionState) : M unit :=
  s ← get;
  if decide (state s = expected) then mret tt
  else throw (UnexpectedMessage ("state " +:+ state_debug expected)
                ("state " +:+ state_debug (state s))).

Definition expect_role (expected : Role) : M unit :=
  s ← get;
  if decide (role s = expected) then mret tt
  else throw (UnexpectedMessage ("role " +:+ role_debug expected)
                ("role " +:+ role_debug (role s))).

Definition p_tag_matches (pk : PublicKey) (t : Tag) : bool :=
  bool_decide (t !! 0 = Some "p")
  && match t !! 1 with Some v => bool_decide (v = pk_to_hex pk) | None => false end.

Definition validate_event_basics (event : SignedEvent) : M unit :=
  s ← get;
  _ ← lift (map_err (λ e, InvalidPubkey ("event verification failed: " +:+ e))
              (event_verify event));
  let ev := se_event event in
  if decide (ev_id ev ∈ processed_ids s) then
    throw (UnexpectedMessage "new event" "duplicate event id")
  else if negb (ev_kind ev =? PAIRING_KIND)%Z then
    throw (UnexpectedMessage ("kind " +:+ num_to_string (Z.to_N PAIRING_KIND))
             ("kind " +:+ num_to_string (Z.to_N (ev_kind ev))))
  else if negb (existsb (p_tag_matches (public_key (keys s))) (ev_tags ev)) then
    throw (InvalidPubkey "event p-tag does not match our ephemeral pubkey")
  else mret tt.

Definition validate_event_from_peer (event : SignedEvent) : M unit :=
  _ ← validate_event_basics event;
  s ← get;
  match peer_pubkey s with
  | Some expected =>
      if decide (ev_pubkey (se_event event) = expected) then mret tt
      else throw (InvalidPubkey ("event from " +:+ pk_to_hex (ev_pubkey (se_event event))
                                 +:+ " but expected " +:+ pk_to_hex expected))
  | None => mret tt
  end.

Definition record_event (event : SignedEvent) : M unit :=
  modify (add_processed (ev_id (se_event event))).

(** The message of an event encrypted to [sk].  The oversize error is built
    after the plaintext was zeroized, so it reports an empty plaintext. *)
Definition decrypt_with (sk : SecretKey) (event : SignedEvent) :
    result PairingError PairingMessage :=
  let content := ev_content (se_event event) in
  let content_len := str_len content in
  if negb ((132 <=? content_len) && (content_len <=? 87472))%Z then
    Err (UnexpectedMessage "NIP-44 content (132–87472 chars)"
           (num_to_string (Z.to_N content_len) +:+ " chars"))
  else
    let? decrypted := map_err Nip44Error (nip44_decrypt sk (ev_pubkey (se_event event)) content) in
    if (str_len decrypted >? 65535)%Z then
      Err (UnexpectedMessage "plaintext ≤ 65535 bytes" "0 bytes")
    else map_err JsonError (from_json decrypted).

Definition decrypt_message (event : SignedEvent) : M PairingMessage :=
  s ← get; lift (decrypt_with (keys s) event).

(** [now.saturating_sub(jitter)] with a jitter of 0 to 30 seconds. *)
Definition jittered_timestamp (env : BuildEnv) : Z :=
  Z.max 0 (env_now_secs env - env_jitter env `mod` 31).

Definition build_with (sk : SecretKey) (peer : option PublicKey) (env : BuildEnv)
    (message : PairingMessage) : result PairingError SignedEvent :=
  match peer with
  | None => Err (InvalidPubkey "no peer pubkey set")
  | Some peer =>
      let? plaintext := map_err JsonError (to_json message) in
      let? encrypted := map_err Nip44Error (nip44_encrypt sk peer plaintext (env_nonce env)) in
      map_err SigningError
        (sign_with_keys sk PAIRING_KIND [["p"; pk_to_hex peer]] encrypted
           (jittered_timestamp env) (env_aux env))
  end.

Definition build_event (env : BuildEnv) (message : PairingMessage) : M SignedEvent :=
  s ← get; lift (build_with (keys s) (peer_pubkey s) env message).

(** ** Source *)

Definition new_source (now : Z) (sk : SecretKey) (secret : bytes) (relay_url : string) :
    PairingSession * QrPayload :=
  (mkSession Source Waiting sk secret [relay_url] None (derive_session_id secret) None None ∅
     now DEFAULT_TIMEOUT,
   mkQr (public_key sk) secret [relay_url] 1).

(** [hex::decode(h).ok().and_then(|b| <[u8; 32]>::try_from(b).ok())]. *)
Definition decode_32 (h : string) : option bytes :=
  match hex_decode h with Ok b => try_into_32 b | Err _ => None end.

Definition matches_32 (h : string) (expected : bytes) : bool :=
  match decode_32 h with Some b => ct_eq b expected | None => false end.

Definition handle_offer (now : Z) (event : SignedEvent) : M string :=
  _ ← check_expired now;
  _ ← expect_state Waiting;
  _ ← expect_role Source;
  _ ← validate_event_basics event;
  msg ← decrypt_message event;
  sv ← match msg with
       | Offer session_id version => mret (session_id, version)
       | other => throw (unexpected "offer" other)
       end;
  _ ← if decide (sv.2 = 1%N) then mret tt
      else throw (UnexpectedMessage "version 1" ("version " +:+ num_to_string sv.2));
  s ← get;
  _ ← if matches_32 sv.1 (session_id s) then mret tt else throw InvalidSessionId;
  let peer := ev_pubkey (se_event event) in
  _ ← modify (set_peer peer);
  ecdh ← lift (map_err SigningError (generate_shared_key (keys s) peer));
  let sas := derive_sas ecdh (session_secret s) in
  _ ← modify (set_sas sas.1 sas.2);
  _ ← modify (set_state Confirming);
  _ ← record_event event;
  mret (format_sas sas.1).

Definition confirm_sas (now : Z) (env : BuildEnv) : M SignedEvent :=
  _ ← check_expired now;
  _ ← expect_state Confirming;
  _ ← expect_role Source;
  s ← get;
  sas_input ← ok_or (sas_input s) SasMismatch;
  peer ← ok_or (peer_pubkey s) (InvalidPubkey "no peer");
  let transcript_hash := derive_transcript_hash (session_id s)
    (pk_to_bytes (public_key (keys s))) (pk_to_bytes peer) sas_input (session_secret s) in
  event ← build_event env (SasConfirm (hex_encode transcript_hash));
  _ ← modify (set_state Transferring);
  mret event.

(** The body shared by [handle_return_payload] (source) and [handle_payload]
    (target), which differ in the expected role only. *)
Definition receive_payload (r : Role) (now : Z) (event : SignedEvent) : M (PayloadType * string) :=
  _ ← check_expired now;
  _ ← expect_state Transferring;
  _ ← expect_role r;
  _ ← validate_event_from_peer event;
  msg ← decrypt_message event;
  match msg with
  | Payload payload_type payload =>
      _ ← modify (set_state PayloadExchanged);
      _ ← record_event event;
      mret (payload_type, payload)
  | other => throw (unexpected "payload" other)
  end.

Definition handle_return_payload : Z → SignedEvent → M (PayloadType * string) :=
  receive_payload Source.

Definition send_source_complete (now : Z) (env : BuildEnv) (success : bool) : M SignedEvent :=
  _ ← check_expired now;
  _ ← expect_state PayloadExchanged;
  _ ← expect_role Source;
  event ← build_event env (Complete success);
  _ ← modify (set_state (if success then Completed else Aborted));
  mret event.

Definition send_payload (now : Z) (env : BuildEnv) (payload_type : PayloadType)
    (payload : string) : M SignedEvent :=
  _ ← check_expired now;
  _ ← expect_state Transferring;
  _ ← expect_role Source;
  event ← build_event env (Payload payload_type payload);
  _ ← modify (set_state PayloadExchanged);
  mret event.

Definition handle_complete (now : Z) (event : SignedEvent) : M unit :=
  _ ← check_expired now;
  _ ← expect_state PayloadExchanged;
  _ ← expect_role Source;
  _ ← validate_event_from_peer event;
  msg ← decrypt_message event;
  match msg with
  | Complete true =>
      _ ← modify (set_state Completed);
      record_event event
  | Complete false =>
      _ ← modify (set_state Aborted);
      throw (UnexpectedMessage "complete(success=true)" "complete(success=false)")
  | other => throw (unexpected "complete" other)
  end.

(** ** Target *)

Definition new_target (now : Z) (sk : SecretKey) (env : BuildEnv) (qr : QrPayload) :
    result PairingError (PairingSession * SignedEvent) :=
  let sid := derive_session_id (qr_session_secret qr) in
  let? ecdh := map_err SigningError (generate_shared_key sk (qr_source_pubkey qr)) in
  let sas := derive_sas ecdh (qr_session_secret qr) in
  let session := mkSession Target Waiting sk (qr_session_secret qr) (qr_relays qr)
    (Some (qr_source_pubkey qr)) sid (Some sas.1) (Some sas.2) ∅ now DEFAULT_TIMEOUT in
  match build_event env (Offer (hex_encode sid) 1) session with
  | (Ok event, session) => Ok (set_state Confirming session, event)
  | (Err e, _) => Err e
  end.

Definition handle_sas_confirm (now : Z) (event : SignedEvent) : M string :=
  _ ← check_expired now;
  _ ← expect_state Confirming;
  _ ← expect_role Target;
  _ ← validate_event_from_peer event;
  msg ← decrypt_message event;
  received_hash ← match msg with
    | SasConfirm transcript_hash => mret transcript_hash
    | other => throw (unexpected "sas-confirm" other)
    end;
  s ← get;
  sas_input ← ok_or (sas_input s) SasMismatch;
  peer ← ok_or (peer_pubkey s) (InvalidPubkey "no peer");
  let expected_hash := derive_transcript_hash (session_id s) (pk_to_bytes peer)
    (pk_to_bytes (public_key (keys s))) sas_input (session_secret s) in
  if negb (matches_32 received_hash expected_hash) then
    _ ← modify (set_state Aborted);
    throw TranscriptMismatch
  else
    _ ← modify (set_state AwaitingConfirmation);
    _ ← record_event event;
    code ← ok_or (sas_code_raw s) SasMismatch;
    mret (format_sas code).

Definition confirm_target_sas (now : Z) : M unit :=
  _ ← check_expired now;
  _ ← expect_state AwaitingConfirmation;
  _ ← expect_role Target;
  modify (set_state Transferring).

Definition handle_payload : Z → SignedEvent → M (PayloadType * string) :=
  receive_payload Target.

Definition send_complete (now : Z) (env : BuildEnv) : M SignedEvent :=
  _ ← check_expired now;
  _ ← expect_state PayloadExchanged;
  _ ← expect_role Target;
  event ← build_event env (Complete true);
  _ ← modify (set_state Completed);
  mret event.

(** ** Either side *)

Definition terminal (st : SessionState) : bool :=
  match st with Completed | Aborted => true | _ => false end.

Definition reject_terminal : M unit :=
  s ← get;
  if terminal (state s)
  then throw (UnexpectedMessage "non-terminal state" ("state " +:+ state_debug (state s)))
  else mret tt.

Definition abort (env : BuildEnv) (reason : AbortReason) : M (option SignedEvent) :=
  _ ← reject_terminal;
  s ← get;
  match peer_pubkey s with
  | None => _ ← modify (set_state Aborted); mret None
  | Some _ =>
      event ← build_event env (AbortMsg reason);
      _ ← modify (set_state Aborted);
      mret (Some event)
  end.

Definition handle_abort (event : SignedEvent) : M AbortReason :=
  _ ← reject_terminal;
  s ← get;
  match peer_pubkey s with
  | None => throw (InvalidPubkey "cannot accept abort before peer is known")
  | Some _ =>
      _ ← validate_event_from_peer event;
      msg ← decrypt_message event;
      match msg with
      | AbortMsg reason =>
          _ ← modify (set_state Aborted);
          _ ← record_event event;
          mret reason
      | other => throw (unexpected "abort" other)
      end
  end.

Definition sas_code (s : PairingSession) : option string := format_sas <$> sas_code_raw s.


(** ** Sequences of operations *)

Inductive pair_op :=
| PHandleOffer (e : SignedEvent)
| PConfirmSas (env : BuildEnv)
| PHandleReturnPayload (e : SignedEvent)
| PSendSourceComplete (env : BuildEnv) (success : bool)
| PSendPayload (env : BuildEnv) (t : PayloadType) (p : string)
| PHandleComplete (e : SignedEvent)
| PHandleSasConfirm (e : SignedEvent)
| PConfirmTargetSas
| PHandlePayload (e : SignedEvent)
| PSendComplete (env : BuildEnv)
| PAbort (env : BuildEnv) (reason : AbortReason)
| PHandleAbort (e : SignedEvent).

Inductive pair_out :=
| OUnit
| OSas (code : string)
| OEvent (e : SignedEvent)
| OMaybeEvent (e : option SignedEvent)
| OPayload (t : PayloadType) (p : string)
| OReason (r : AbortReason).

Definition pair_exec (now : Z) (op : pair_op) : M pair_out :=
  match op with
  | PHandleOffer e => c ← handle_offer now e; mret (OSas c)
  | PConfirmSas env => ev ← confirm_sas now env; mret (OEvent ev)
  | PHandleReturnPayload e => tp ← handle_return_payload now e; mret (OPayload tp.1 tp.2)
  | PSendSourceComplete env b => ev ← send_source_complete now env b; mret (OEvent ev)
  | PSendPayload env t p => ev ← send_payload now env t p; mret (OEvent ev)
  | PHandleComplete e => _ ← handle_complete now e; mret OUnit
  | PHandleSasConfirm e => c ← handle_sas_confirm now e; mret (OSas c)
  | PConfirmTargetSas => _ ← confirm_target_sas now; mret OUnit
  | PHandlePayload e => tp ← handle_payload now e; mret (OPayload tp.1 tp.2)
  | PSendComplete env => ev ← send_complete now env; mret (OEvent ev)
  | PAbort env r => ev ← abort env r; mret (OMaybeEvent ev)
  | PHandleAbort e => r ← handle_abort e; mret (OReason r)
  end.

(** The calls made on a session with what they returned, and the session after. *)
Fixpoint pair_log (s : PairingSession) (ops : list (Z * pair_op)) :
    list (pair_op * result PairingError pair_out) :=
  match ops with
  | [] => []
  | (now, op) :: ops' =>
      (op, (pair_exec now op s).1) :: pair_log (pair_exec now op s).2 ops'
  end.

Definition pair_final (s : PairingSession) (ops : list (Z * pair_op)) : PairingSession :=
  foldl (λ s no, (pair_exec no.1 no.2 s).2) s ops.

(** ** The state machine as a step relation *)

Definition live (now : Z) (s : PairingSession) : Prop := (now - created_at s ≤ timeout s)%Z.

(** The event is well signed, new, of the pairing kind, addressed to this
    session, and decrypts to [m]. *)
Definition carries (s : PairingSession) (e : SignedEvent) (m : PairingMessage) : Prop :=
  event_verify e = Ok tt ∧ ev_id (se_event e) ∉ processed_ids s ∧
  ev_kind (se_event e) = PAIRING_KIND ∧
  existsb (p_tag_matches (public_key (keys s))) (ev_tags (se_event e)) = true ∧
  decrypt_with (keys s) e = Ok m.

Definition from_peer (s : PairingSession) (e : SignedEvent) : Prop :=
  ∀ pk, peer_pubkey s = Some pk → ev_pubkey (se_event e) = pk.

Definition built (s : PairingSession) (env : BuildEnv) (m : PairingMessage) (e : SignedEvent) :
    Prop :=
  build_with (keys s) (peer_pubkey s) env m = Ok e.

Definition accept (e : SignedEvent) (st : SessionState) (s : PairingSession) : PairingSession :=
  add_processed (ev_id (se_event e)) (set_state st s).

(** The transcript hash with the two public keys in the order source, target. *)
Definition own_transcript (s : PairingSession) (peer : PublicKey) (input : bytes) : bytes :=
  let me := pk_to_bytes (public_key (keys s)) in
  let them := pk_to_bytes peer in
  match role s with
  | Source => derive_transcript_hash (session_id s) me them input (session_secret s)
  | Target => derive_transcript_hash (session_id s) them me input (session_secret s)
  end.

Inductive ok_step (now : Z) (s : PairingSession) : pair_op → pair_out → PairingSession → Prop :=
| ok_offer e sid ecdh :
    live now s → state s = Waiting → role s = Source →
    carries s e (Offer sid 1) → matches_32 sid (session_id s) = true →
    generate_shared_key (keys s) (ev_pubkey (se_event e)) = Ok ecdh →
    let sas := derive_sas ecdh (session_secret s) in
    ok_step now s (PHandleOffer e) (OSas (format_sas sas.1))
      (accept e Confirming (set_sas sas.1 sas.2 (set_peer (ev_pubkey (se_event e)) s)))
| ok_confirm_sas env e peer input :
    live now s → state s = Confirming → role s = Source →
    peer_pubkey s = Some peer → sas_input s = Some input →
    built s env (SasConfirm (hex_encode (own_transcript s peer input))) e →
    ok_step now s (PConfirmSas env) (OEvent e) (set_state Transferring s)
| ok_return_payload e t p :
    live now s → state s = Transferring → role s = Source →
    carries s e (Payload t p) → from_peer s e →
    ok_step now s (PHandleReturnPayload e) (OPayload t p) (accept e PayloadExchanged s)
| ok_source_complete env b e :
    live now s → state s = PayloadExchanged → role s = Source →
    built s env (Complete b) e →
    ok_step now s (PSendSourceComplete env b) (OEvent e)
      (set_state (if b then Completed else Aborted) s)
| ok_send_payload env t p e :
    live now s → state s = Transferring → role s = Source →
    built s env (Payload t p) e →
    ok_step now s (PSendPayload env t p) (OEvent e) (set_state PayloadExchanged s)
| ok_complete e :
    live now s → state s = PayloadExchanged → role s = Source →
    carries s e (Complete true) → from_peer s e →
    ok_step now s (PHandleComplete e) OUnit (accept e Completed s)
| ok_sas_confirm e h peer input code :
    live now s → state s = Confirming → role s = Target →
    carries s e (SasConfirm h) → from_peer s e →
    peer_pubkey s = Some peer → sas_input s = Some input → sas_code_raw s = Some code →
    matches_32 h (own_transcript s peer input) = true →
    ok_step now s (PHandleSasConfirm e) (OSas (format_sas code)) (accept e AwaitingConfirmation s)
| ok_confirm_target :
    live now s → state s = AwaitingConfirmation → role s = Target →
    ok_step now s PConfirmTargetSas OUnit (set_state Transferring s)
| ok_payload e t p :
    live now s → state s = Transferring → role s = Target →
    carries s e (Payload t p) → from_peer s e →
    ok_step now s (PHandlePayload e) (OPayload t p) (accept e PayloadExchanged s)
| ok_send_complete env e :
    live now s → state s = PayloadExchanged → role s = Target →
    built s env (Complete true) e →
    ok_step now s (PSendComplete env) (OEvent e) (set_state Completed s)
| ok_abort_silent env r :
    terminal (state s) = false → peer_pubkey s = None →
    ok_step now s (PAbort env r) (OMaybeEvent None) (set_state Aborted s)
| ok_abort_sent env r e :
    terminal (state s) = false → is_Some (peer_pubkey s) → built s env (AbortMsg r) e →
    ok_step now s (PAbort env r) (OMaybeEvent (Some e)) (set_state Aborted s)
| ok_handle_abort e r :
    terminal (state s) = false → is_Some (peer_pubkey s) →
    carries s e (AbortMsg r) → from_peer s e →
    ok_step now s (PHandleAbort e) (OReason r) (accept e Aborted s).

(** ** Lemmas: the monad *)

Definition valid (s : PairingSession) (e : SignedEvent) : Prop :=
  event_verify e = Ok tt ∧ ev_id (se_event e) ∉ processed_ids s ∧
  ev_kind (se_event e) = PAIRING_KIND ∧
  existsb (p_tag_matches (public_key (keys s))) (ev_tags (se_event e)) = true.

Lemma bind_Ok {A B} (m : M A) (k : A → M B) s b s' :
  (m ≫= k) s = (Ok b, s') ↔ ∃ a s1, m s = (Ok a, s1) ∧ k a s1 = (Ok b, s').
Proof.
  unfold mbind, M_bind. destruct (m s) as [[a|e] s1]; [naive_solver|].
  split; [done|naive_solver].
Qed.

Lemma bind_Err {A B} (m : M A) (k : A → M B) s e s' :
  (m ≫= k) s = (Err e, s') ↔
  m s = (Err e, s') ∨ ∃ a s1, m s = (Ok a, s1) ∧ k a s1 = (Err e, s').
Proof. unfold mbind, M_bind. destruct (m s) as [[a|e'] s1]; naive_solver. Qed.

Lemma ret_run {A} (a : A) s r s' : (mret a : M A) s = (r, s') ↔ r = Ok a ∧ s' = s.
Proof. unfold mret, M_ret. naive_solver. Qed.

Lemma throw_run {A} e s (r : result PairingError A) s' : throw e s = (r, s') ↔ r = Err e ∧ s' = s.
Proof. unfold throw. naive_solver. Qed.

Lemma get_run s r s' : get s = (r, s') ↔ r = Ok s ∧ s' = s.
Proof. unfold get. naive_solver. Qed.

Lemma modify_run f s r s' : modify f s = (r, s') ↔ r = Ok tt ∧ s' = f s.
Proof. unfold modify. naive_solver. Qed.

Lemma lift_run {A} (x : result PairingError A) s r s' : lift x s = (r, s') ↔ x = r ∧ s' = s.
Proof. unfold lift. naive_solver. Qed.

Lemma ok_or_Ok {A} (o : option A) err s a s' : ok_or o err s = (Ok a, s') ↔ o = Some a ∧ s' = s.
Proof. unfold ok_or. destruct o; rewrite ?ret_run, ?throw_run; naive_solver. Qed.

Lemma ok_or_Err {A} (o : option A) err s e s' :
  ok_or o err s = (Err e, s') ↔ o = None ∧ e = err ∧ s' = s.
Proof. unfold ok_or. destruct o; rewrite ?ret_run, ?throw_run; naive_solver. Qed.

Lemma live_not_expired now s : is_expired now s = false ↔ live now s.
Proof. unfold is_expired, live. lia. Qed.

(** Each guard: it never changes the session, and this is when it passes. *)
Lemma check_expired_run now s r s' :
  check_expired now s = (r, s') → s' = s ∧ (r = Ok tt → live now s).
Proof.
  unfold check_expired, mbind, M_bind, get. rewrite <-live_not_expired.
  destruct (is_expired now s) eqn:E; [intros [= <- <-]; done|].
  by intros [-> ->]%ret_run.
Qed.

Lemma expect_state_run st s r s' :
  expect_state st s = (r, s') → s' = s ∧ (r = Ok tt → state s = st).
Proof.
  unfold expect_state, mbind, M_bind, get. case_decide; [by intros [-> ->]%ret_run|].
  intros [= <- <-]. done.
Qed.

Lemma expect_role_run ro s r s' :
  expect_role ro s = (r, s') → s' = s ∧ (r = Ok tt → role s = ro).
Proof.
  unfold expect_role, mbind, M_bind, get. case_decide; [by intros [-> ->]%ret_run|].
  intros [= <- <-]. done.
Qed.

Lemma reject_terminal_run s r s' :
  reject_terminal s = (r, s') → s' = s ∧ (r = Ok tt → terminal (state s) = false).
Proof.
  unfold reject_terminal, mbind, M_bind, get.
  case_match; [intros [= <- <-]; done|by intros [-> ->]%ret_run].
Qed.

Lemma validate_basics_run e s r s' :
  validate_event_basics e s = (r, s') → s' = s ∧ (r = Ok tt → valid s e).
Proof.
  unfold validate_event_basics, valid, mbind, M_bind, get, lift. cbn beta iota.
  destruct (event_verify e) as [[]|]; simpl; [|intros [= <- <-]; done].
  case_decide; [intros [= <- <-]; done|].
  destruct (Z.eqb_spec (ev_kind (se_event e)) PAIRING_KIND); simpl; [|intros [= <- <-]; done].
  destruct (existsb _ _); simpl; [|intros [= <- <-]; done].
  by intros [-> ->]%ret_run.
Qed.

Lemma validate_peer_run e s r s' :
  validate_event_from_peer e s = (r, s') → s' = s ∧ (r = Ok tt → valid s e ∧ from_peer s e).
Proof.
  unfold validate_event_from_peer, from_peer. unfold mbind, M_bind.
  destruct (validate_event_basics e s) as [r1 s1] eqn:E.
  apply validate_basics_run in E as [-> E].
  destruct r1 as [[]|]; [|intros [= <- <-]; done]. specialize (E eq_refl).
  unfold get. destruct (peer_pubkey s) as [pk|]; [case_decide|].
  - intros [-> ->]%ret_run. naive_solver.
  - intros [= <- <-]. done.
  - intros [-> ->]%ret_run. naive_solver.
Qed.

Lemma decrypt_message_run e s r s' :
  decrypt_message e s = (r, s') → s' = s ∧ decrypt_with (keys s) e = r.
Proof. unfold decrypt_message, mbind, M_bind, get. by intros [-> ->]%lift_run. Qed.

Lemma build_event_run env m s r s' :
  build_event env m s = (r, s') → s' = s ∧ build_with (keys s) (peer_pubkey s) env m = r.
Proof. unfold build_event, mbind, M_bind, get. by intros [-> ->]%lift_run. Qed.

Lemma carries_valid s e m : carries s e m ↔ valid s e ∧ decrypt_with (keys s) e = Ok m.
Proof. unfold carries, valid. naive_solver. Qed.

End session.

(** Runs every monadic equation of the context: binds are split, guards and
    primitives replaced by what they establish. *)
Ltac run_guard H lem :=
  let H1 := fresh "Hg" in apply lem in H; destruct H as [? H1]; subst;
  try specialize (H1 eq_refl).

Ltac mrun :=
  repeat match goal with
  | H : mbind _ _ _ = (Ok _, _) |- _ => apply bind_Ok in H; destruct H as (? & ? & ? & ?)
  | H : mret _ _ = _ |- _ => apply ret_run in H; destruct H; simplify_eq
  | H : throw _ _ = _ |- _ => apply throw_run in H; destruct H; simplify_eq
  | H : get _ = _ |- _ => apply get_run in H; destruct H; simplify_eq
  | H : modify _ _ = _ |- _ => apply modify_run in H; destruct H; simplify_eq
  | H : record_event _ _ = _ |- _ => apply modify_run in H; destruct H; simplify_eq
  | H : lift _ _ = _ |- _ => apply lift_run in H; destruct H; subst
  | H : ok_or _ _ _ = (Ok _, _) |- _ => apply ok_or_Ok in H; destruct H; subst
  | H : ok_or _ _ _ = (Err _, _) |- _ => apply ok_or_Err in H; destruct H as (? & ? & ?); subst
  | H : map_err _ _ = Ok _ |- _ => apply map_err_Ok in H
  | H : valid _ _ ∧ from_peer _ _ |- _ => destruct H
  | x : unit |- _ => destruct x
  | H : check_expired _ _ = _ |- _ => run_guard H check_expired_run
  | H : expect_state _ _ = _ |- _ => run_guard H expect_state_run
  | H : expect_role _ _ = _ |- _ => run_guard H expect_role_run
  | H : reject_terminal _ = _ |- _ => run_guard H reject_terminal_run
  | H : validate_event_basics _ _ = _ |- _ => run_guard H validate_basics_run
  | H : validate_event_from_peer _ _ = _ |- _ => run_guard H validate_peer_run
  | H : decrypt_message _ _ = _ |- _ => run_guard H decrypt_message_run
  | H : build_event _ _ _ = _ |- _ => run_guard H build_event_run
  end.

(** The same for a call that fails: the failing bind is found by cases. *)
Ltac erun :=
  repeat (mrun; simpl in *; match goal with
  | H : mbind _ _ _ = (Err _, _) |- _ =>
      apply bind_Err in H; destruct H as [H|(? & ? & ? & H)]
  | H : (match ?x with _ => _ end) _ = (_, _) |- _ => destruct x eqn:?
  end); mrun; subst.

Section steps.
Context `{PairingApi}.

Lemma receive_payload_ok ro now e s tp s' :
  receive_payload ro now e s = (Ok tp, s') →
  live now s ∧ state s = Transferring ∧ role s = ro ∧ carries s e (Payload tp.1 tp.2) ∧
  from_peer s e ∧ s' = accept e PayloadExchanged s.
Proof.
  unfold receive_payload. intros Hx. mrun. case_match; mrun. rewrite carries_valid.
  by split_and!.
Qed.

Lemma handle_offer_ok now e s c s' :
  handle_offer now e s = (Ok c, s') → ok_step now s (PHandleOffer e) (OSas c) s'.
Proof.
  unfold handle_offer. intros Hx. mrun. repeat (case_match; mrun; simpl in * ). subst.
  eapply ok_offer; try done. by apply carries_valid.
Qed.

Lemma handle_sas_confirm_ok now e s c s' :
  handle_sas_confirm now e s = (Ok c, s') → ok_step now s (PHandleSasConfirm e) (OSas c) s'.
Proof.
  unfold handle_sas_confirm. intros Hx. mrun. repeat (case_match; mrun; simpl in * ). subst.
  eapply ok_sas_confirm; try done; [by apply carries_valid|].
  unfold own_transcript. rewrite Hg1. by apply negb_false_iff.
Qed.

Lemma handle_abort_ok now e s r s' :
  handle_abort e s = (Ok r, s') → ok_step now s (PHandleAbort e) (OReason r) s'.
Proof.
  unfold handle_abort. intros Hx. mrun. repeat (case_match; mrun; simpl in * ). subst.
  apply ok_handle_abort; try done. by apply carries_valid.
Qed.

Lemma handle_complete_ok now e s s' :
  handle_complete now e s = (Ok tt, s') → ok_step now s (PHandleComplete e) OUnit s'.
Proof.
  unfold handle_complete. intros Hx. mrun. repeat (case_match; mrun; simpl in * ). subst.
  apply ok_complete; try done. by apply carries_valid.
Qed.

(** A call that returns a value is a step of the relation. *)
Lemma pair_exec_ok now op s out s' :
  pair_exec now op s = (Ok out, s') → ok_step now s op out s'.
Proof.
  destruct op; cbn [pair_exec]; intros Hx; apply bind_Ok in Hx as (a & s1 & Ha & [[= ->] ->]%ret_run).
  - by apply handle_offer_ok.
  - unfold confirm_sas in Ha. mrun. eapply ok_confirm_sas; try done.
    unfold own_transcript. by rewrite Hg1.
  - apply receive_payload_ok in Ha as (? & ? & ? & ? & ? & ->). by apply ok_return_payload.
  - unfold send_source_complete in Ha. mrun. by apply ok_source_complete.
  - unfold send_payload in Ha. mrun. by apply ok_send_payload.
  - destruct a. by apply handle_complete_ok.
  - by apply handle_sas_confirm_ok.
  - unfold confirm_target_sas in Ha. mrun. by apply ok_confirm_target.
  - apply receive_payload_ok in Ha as (? & ? & ? & ? & ? & ->). by apply ok_payload.
  - unfold send_complete in Ha. mrun. by apply ok_send_complete.
  - unfold abort in Ha. mrun. repeat (case_match; mrun; simpl in * ).
    + by apply ok_abort_sent.
    + by apply ok_abort_silent.
  - by apply handle_abort_ok.
Qed.

(** What a failing call leaves behind. *)
Inductive err_step (now : Z) (s : PairingSession) : pair_op → PairingError → PairingSession → Prop :=
| err_same op err : err_step now s op err s
| err_transcript e h peer input :
    live now s → state s = Confirming → role s = Target →
    carries s e (SasConfirm h) → from_peer s e →
    peer_pubkey s = Some peer → sas_input s = Some input →
    matches_32 h (own_transcript s peer input) = false →
    err_step now s (PHandleSasConfirm e) TranscriptMismatch (set_state Aborted s)
| err_complete e :
    live now s → state s = PayloadExchanged → role s = Source →
    carries s e (Complete false) → from_peer s e →
    err_step now s (PHandleComplete e)
      (UnexpectedMessage "complete(success=true)" "complete(success=false)") (set_state Aborted s)
| err_ecdh e sid msg :
    live now s → state s = Waiting → role s = Source →
    carries s e (Offer sid 1) → matches_32 sid (session_id s) = true →
    generate_shared_key (keys s) (ev_pubkey (se_event e)) = Err msg →
    err_step now s (PHandleOffer e) (SigningError msg) (set_peer (ev_pubkey (se_event e)) s)
| err_no_sas e :
    sas_code_raw s = None → state s = Confirming → role s = Target →
    err_step now s (PHandleSasConfirm e) SasMismatch (accept e AwaitingConfirmation s).

Lemma receive_payload_err ro now e s err s' :
  receive_payload ro now e s = (Err err, s') → s' = s.
Proof. unfold receive_payload. intros Hx. erun; done. Qed.

Lemma handle_offer_err now e s err s' :
  handle_offer now e s = (Err err, s') → err_step now s (PHandleOffer e) err s'.
Proof.
  unfold handle_offer. intros Hx. erun; try apply err_same.
  destruct (generate_shared_key _ _) eqn:E; simplify_eq/=.
  eapply err_ecdh; try done. by apply carries_valid.
Qed.

Lemma handle_sas_confirm_err now e s err s' :
  handle_sas_confirm now e s = (Err err, s') → err_step now s (PHandleSasConfirm e) err s'.
Proof.
  unfold handle_sas_confirm. intros Hx. erun; try apply err_same.
  - eapply err_transcript; try done; [by apply carries_valid|].
    unfold own_transcript. match goal with H : role _ = _ |- _ => rewrite H end. by apply negb_true_iff.
  - by apply err_no_sas.
Qed.

Lemma handle_complete_err now e s err s' :
  handle_complete now e s = (Err err, s') → err_step now s (PHandleComplete e) err s'.
Proof.
  unfold handle_complete. intros Hx. erun; try apply err_same.
  apply err_complete; try done. by apply carries_valid.
Qed.

Lemma pair_exec_err now op s err s' :
  pair_exec now op s = (Err err, s') → err_step now s op err s'.
Proof.
  destruct op; cbn [pair_exec]; intros Hx;
    apply bind_Err in Hx as [Ha|(? & ? & _ & [? _]%ret_run)]; try done.
  - by apply handle_offer_err.
  - unfold confirm_sas in Ha. erun; apply err_same.
  - apply receive_payload_err in Ha as ->. apply err_same.
  - unfold send_source_complete in Ha. erun; apply err_same.
  - unfold send_payload in Ha. erun; apply err_same.
  - by apply handle_complete_err.
  - by apply handle_sas_confirm_err.
  - unfold confirm_target_sas in Ha. erun; apply err_same.
  - apply receive_payload_err in Ha as ->. apply err_same.
  - unfold send_complete in Ha. erun; apply err_same.
  - unfold abort in Ha. erun; apply err_same.
  - unfold handle_abort in Ha. erun; apply err_same.
Qed.


(** ** Lemmas: runs *)

Inductive started : PairingSession → Prop :=
| started_source now sk secret relay : started (new_source now sk secret relay).1
| started_target now sk env qr s e : new_target now sk env qr = Ok (s, e) → started s.

Lemma pair_exec_step now op s :
  (∃ out s', pair_exec now op s = (Ok out, s') ∧ ok_step now s op out s') ∨
  (∃ err s', pair_exec now op s = (Err err, s') ∧ err_step now s op err s').
Proof.
  destruct (pair_exec now op s) as [[out|err] s'] eqn:E.
  - left. eauto using pair_exec_ok.
  - right. eauto using pair_exec_err.
Qed.

Lemma pair_log_snoc s0 ops now op :
  pair_log s0 (ops ++ [(now, op)]) =
  pair_log s0 ops ++ [(op, (pair_exec now op (pair_final s0 ops)).1)].
Proof.
  revert s0. induction ops as [|[n o] ops IH]; intros s0; simpl; [done|]. by rewrite IH.
Qed.

Lemma pair_final_snoc s0 ops now op :
  pair_final s0 (ops ++ [(now, op)]) = (pair_exec now op (pair_final s0 ops)).2.
Proof. unfold pair_final. by rewrite foldl_snoc. Qed.

Lemma pair_log_split s0 ops l1 op r l2 :
  pair_log s0 ops = l1 ++ (op, r) :: l2 →
  ∃ ops1 now, l1 = pair_log s0 ops1 ∧ r = (pair_exec now op (pair_final s0 ops1)).1.
Proof.
  revert s0 l1. induction ops as [|[n o] ops IH]; intros s0 l1; simpl; [by destruct l1|].
  destruct l1 as [|x l1]; intros [= ? E]; subst.
  - by exists [], n.
  - destruct (IH _ _ E) as (ops1 & now & -> & ->). by exists ((n, o) :: ops1), now.
Qed.

(** What never changes in a session; a target's peer and SAS do not either. *)
Definition same_session (s0 s : PairingSession) : Prop :=
  role s = role s0 ∧ keys s = keys s0 ∧ session_secret s = session_secret s0 ∧
  session_id s = session_id s0 ∧ created_at s = created_at s0 ∧ timeout s = timeout s0 ∧
  (role s0 = Target → peer_pubkey s = peer_pubkey s0 ∧ sas_input s = sas_input s0 ∧
                      sas_code_raw s = sas_code_raw s0).

Lemma exec_same_session now op s : same_session s (pair_exec now op s).2.
Proof.
  destruct (pair_exec_step now op s) as [(out & s' & -> & Hs)|(err & s' & -> & Hs)];
    destruct Hs; unfold same_session; simpl; split_and!; try done; congruence.
Qed.

Lemma same_session_trans s0 s1 s2 : same_session s0 s1 → same_session s1 s2 → same_session s0 s2.
Proof.
  intros (E1 & E2 & E3 & E4 & E5 & E6 & E7) (F1 & F2 & F3 & F4 & F5 & F6 & F7).
  split_and!; try congruence. intros Hr. destruct (E7 Hr) as (? & ? & ?).
  destruct F7 as (? & ? & ?); [congruence|]. split_and!; congruence.
Qed.

Lemma final_same_session s0 ops : same_session s0 (pair_final s0 ops).
Proof.
  induction ops as [|[now op] ops IH] using rev_ind; [done|]. rewrite pair_final_snoc.
  eapply same_session_trans; [exact IH|apply exec_same_session].
Qed.

(** What every reachable session satisfies. *)
Record session_ok (s : PairingSession) : Prop := {
  so_target : role s = Target →
    state s ≠ Waiting ∧ is_Some (peer_pubkey s) ∧ is_Some (sas_code_raw s);
  so_source : role s = Source → state s ≠ AwaitingConfirmation;
  so_peer : state s ≠ Waiting → is_Some (peer_pubkey s) ∨ terminal (state s) = true
}.

Lemma exec_session_ok now op s : session_ok s → session_ok (pair_exec now op s).2.
Proof.
  intros [T S P].
  assert (∀ st, state s = st → st ≠ Waiting → terminal st = false → is_Some (peer_pubkey s)) as P'.
  { intros st <- Hw Ht. destruct (P Hw); congruence. }
  destruct (pair_exec_step now op s) as [(out & s' & -> & Hs)|(err & s' & -> & Hs)];
    destruct Hs; split; simpl; intros Hr; try congruence; try (by destruct (T Hr));
    try (by auto); try (by left; eapply P'; eauto);
    try (destruct (T Hr) as (? & ? & ?)); split_and?; try done; try congruence.
  all: try (repeat case_match; by auto).
Qed.

Lemma started_ok s : started s → session_ok s.
Proof.
  intros [now sk secret relay|now sk env qr s' e Hn]; [by split|].
  unfold new_target in Hn. destruct (map_err _ _) as [k|]; [|done].
  destruct (build_event _ _ _) as [[ev|] s1] eqn:E; [|done]. simplify_eq.
  apply build_event_run in E as [-> _]. split; simpl; [|done|eauto]. intros _. split_and!; eauto.
Qed.

Lemma reachable_ok s0 ops : started s0 → session_ok (pair_final s0 ops).
Proof.
  intros H0%started_ok. induction ops as [|[now op] ops IH] using rev_ind; [done|].
  rewrite pair_final_snoc. by apply exec_session_ok.
Qed.

(** ** The user's confirmation *)

(** The peer's proof that opens a session: for a source, an offer with the
    session id derived from the QR secret; for a target, a confirmation from the
    peer of the QR code with the transcript hash the target computes itself. *)
Definition greets (s0 : PairingSession) (op : pair_op) : Prop :=
  match role s0, op with
  | Source, PHandleOffer e =>
      event_verify e = Ok tt ∧
      ∃ sid, decrypt_with (keys s0) e = Ok (Offer sid 1) ∧ matches_32 sid (session_id s0) = true
  | Target, PHandleSasConfirm e =>
      event_verify e = Ok tt ∧ from_peer s0 e ∧
      ∃ h peer input, decrypt_with (keys s0) e = Ok (SasConfirm h) ∧
        peer_pubkey s0 = Some peer ∧ sas_input s0 = Some input ∧
        matches_32 h (own_transcript s0 peer input) = true
  | _, _ => False
  end.

(** The user's approval of the displayed code. *)
Definition approves (r : Role) (op : pair_op) : Prop :=
  match r, op with
  | Source, PConfirmSas _ => True
  | Target, PConfirmTargetSas => True
  | _, _ => False
  end.

Definition greeted (s0 : PairingSession) (l : list (pair_op * result PairingError pair_out)) : Prop :=
  ∃ op out, (op, Ok out) ∈ l ∧ greets s0 op.

(** The proof and then the approval, both returned a value. *)
Definition confirmed (s0 : PairingSession) (l : list (pair_op * result PairingError pair_out)) :
    Prop :=
  ∃ op out op' out', [(op, Ok out); (op', Ok out')] `sublist_of` l ∧
    greets s0 op ∧ approves (role s0) op'.

Definition history (s0 : PairingSession) (l : list (pair_op * result PairingError pair_out))
    (st : SessionState) : Prop :=
  match st with
  | Waiting | Aborted => True
  | Confirming => role s0 = Source → greeted s0 l
  | AwaitingConfirmation => greeted s0 l
  | Transferring | PayloadExchanged | Completed => confirmed s0 l
  end.

Lemma greeted_snoc s0 l x : greeted s0 l → greeted s0 (l ++ [x]).
Proof. intros (op & out & Hin & Hg). exists op, out. split; [|done]. apply elem_of_app. by left. Qed.

Lemma greeted_last s0 l op out : greets s0 op → greeted s0 (l ++ [(op, Ok out)]).
Proof. intros Hg. exists op, out. split; [|done]. apply elem_of_app. right. left. Qed.

Lemma confirmed_snoc s0 l x : confirmed s0 l → confirmed s0 (l ++ [x]).
Proof.
  intros (op & out & op' & out' & Hs & Hg). exists op, out, op', out'. split; [|done].
  by apply sublist_inserts_r.
Qed.

Lemma confirmed_last s0 l op out :
  greeted s0 l → approves (role s0) op → confirmed s0 (l ++ [(op, Ok out)]).
Proof.
  intros (gop & gout & Hin & Hg) Ha. exists gop, gout, op, out. split; [|done].
  apply (sublist_app [_] l [_] [_]); [|done]. by apply singleton_sublist_l.
Qed.

Lemma history_snoc s0 l x st : history s0 l st → history s0 (l ++ [x]) st.
Proof. destruct st; simpl; auto using greeted_snoc, confirmed_snoc. Qed.


Lemma history_exec s0 l now op s :
  session_ok s → same_session s0 s → history s0 l (state s) →
  history s0 (l ++ [(op, (pair_exec now op s).1)]) (state (pair_exec now op s).2).
Proof.
  intros So (Er & Ek & Ese & Esi & _ & _ & Et) Hh.
  destruct (pair_exec_step now op s) as [(out & s' & -> & Hs)|(err & s' & -> & Hs)]; simpl.
  2:{ destruct Hs; simpl; try done; try by apply history_snoc.
      destruct (so_target _ So) as (_ & _ & []); congruence. }
  assert (∀ sid, own_transcript s sid = own_transcript s0 sid) as Eo.
  { intros sid. unfold own_transcript. by rewrite Er, Ek, Ese, Esi. }
  destruct Hs as [e sid k Hl Hst Hr Hc Hm Hk|env e peer input Hl Hst Hr| | | |
                 |e h peer input code Hl Hst Hr Hc Hf Hp Hi Hco Hm|Hl Hst Hr| | | | |];
    simpl; try done.
  all: try match goal with Hx : state ?x = _ |- _ => rewrite Hx in Hh end.
  all: try by apply confirmed_snoc.
  - intros _. apply greeted_last. unfold greets. rewrite <-Er, Hr, <-Ek, <-Esi.
    destruct Hc as (? & _ & _ & _ & ?). eauto.
  - rewrite Er in Hr. apply confirmed_last; [by apply Hh|]. by rewrite Hr.
  - case_match; [by apply confirmed_snoc|done].
  - apply greeted_last. unfold greets. rewrite <-Er, Hr, <-Ek.
    destruct Hc as (? & _ & _ & _ & ?). destruct Et as (Ep & Ei & _); [congruence|].
    split; [done|]. split; [unfold from_peer; rewrite <-Ep; exact Hf|].
    exists h, peer, input. rewrite <-Ep, <-Ei, <-Eo. done.
  - apply confirmed_last; [done|]. rewrite <-Er, Hr. done.
Qed.

Lemma history_run s0 ops : started s0 → history s0 (pair_log s0 ops) (state (pair_final s0 ops)).
Proof.
  intros Hs. induction ops as [|[now op] ops IH] using rev_ind.
  - destruct Hs as [|now sk env qr s' e Hn]; [done|]. unfold new_target in Hn.
    destruct (map_err _ _) as [k|]; [|done].
    destruct (build_event _ _ _) as [[ev|] s1] eqn:E; [|done]. simplify_eq/=.
    by apply build_event_run in E as [-> _].
  - rewrite pair_log_snoc, pair_final_snoc. apply history_exec;
      [by apply reachable_ok|apply final_same_session|done].
Qed.

(** ** Accepted events *)

(** The event a call consumes. *)
Definition op_event (op : pair_op) : option SignedEvent :=
  match op with
  | PHandleOffer e | PHandleReturnPayload e | PHandleComplete e
  | PHandleSasConfirm e | PHandlePayload e | PHandleAbort e => Some e
  | _ => None
  end.

Definition accepted (l : list (pair_op * result PairingError pair_out)) : list SignedEvent :=
  omap (λ x, match x.2 with Ok _ => op_event x.1 | Err _ => None end) l.

Record accepted_ok (s : PairingSession) (es : list SignedEvent) : Prop := {
  ao_nodup : NoDup ((λ e, ev_id (se_event e)) <$> es);
  ao_processed : Forall (λ e, ev_id (se_event e) ∈ processed_ids s) es;
  ao_peer : Forall (λ e, peer_pubkey s = Some (ev_pubkey (se_event e))) es;
  ao_waiting : state s = Waiting → es = []
}.

Lemma accepted_snoc l op r :
  accepted (l ++ [(op, r)]) =
  accepted l ++ match r with Ok _ => option_list (op_event op) | Err _ => [] end.
Proof.
  unfold accepted. rewrite omap_app. f_equal. simpl. destruct r; [|done]. by destruct (op_event op).
Qed.

Lemma accepted_ok_keep s es st : st ≠ Waiting → accepted_ok s es → accepted_ok (set_state st s) es.
Proof. intros Hst [N P R W]. by split. Qed.

Lemma accepted_ok_add s es e st s1 :
  accepted_ok s es → st ≠ Waiting → ev_id (se_event e) ∉ processed_ids s →
  processed_ids s1 = processed_ids s →
  peer_pubkey s1 = Some (ev_pubkey (se_event e)) →
  (peer_pubkey s1 = peer_pubkey s ∨ es = []) →
  accepted_ok (accept e st s1) (es ++ [e]).
Proof.
  intros [N P R W] Hst Hnew Ep Epk Hor. split; simpl.
  - rewrite fmap_app. apply NoDup_app. split; [done|]. split; [|apply NoDup_singleton].
    intros i (e' & -> & He')%list_elem_of_fmap Hi%list_elem_of_singleton.
    rewrite Forall_forall in P. apply P in He'. congruence.
  - apply Forall_app. split; [|constructor; [set_solver|constructor]].
    eapply Forall_impl; [exact P|]. intros e' He'. simpl in *. rewrite Ep. set_solver.
  - apply Forall_app. split; [|by constructor].
    destruct Hor as [->| ->]; [done|constructor].
  - done.
Qed.

Lemma accepted_exec s es now op :
  session_ok s → accepted_ok s es →
  let r := pair_exec now op s in
  accepted_ok r.2 (es ++ match r.1 with Ok _ => option_list (op_event op) | Err _ => [] end).
Proof.
  intros So A. pose proof (so_peer _ So) as Hpk. simpl.
  assert (∀ e m st, carries s e m → from_peer s e → state s ≠ Waiting →
            terminal (state s) = false → st ≠ Waiting → accepted_ok (accept e st s) (es ++ [e])) as Hadd.
  { intros e m st (_ & Hnew & _) Hf Hw Ht Hst. destruct (Hpk Hw) as [[pk Hp]|]; [|congruence].
    apply (accepted_ok_add s); auto. rewrite Hp. by rewrite (Hf _ Hp). }
  destruct (pair_exec_step now op s) as [(out & s' & -> & Hs)|(err & s' & -> & Hs)]; simpl.
  - destruct Hs; simpl; rewrite ?app_nil_r;
      try (apply accepted_ok_keep; [repeat case_match; done|done]).
    + apply (accepted_ok_add s); try done; [apply H3|]. right. by apply (ao_waiting _ _ A).
    + eapply Hadd; try done; by rewrite H1.
    + eapply Hadd; try done; by rewrite H1.
    + eapply Hadd; try done; by rewrite H1.
    + eapply Hadd; try done; by rewrite H1.
    + destruct H1 as [pk Hp]. apply (accepted_ok_add s); try done; [apply H2|..|by left].
      rewrite Hp. by rewrite (H3 _ Hp).
  - rewrite app_nil_r. destruct Hs; try done; try by apply accepted_ok_keep.
    + destruct A as [N P R W]. rewrite W in * by done. by split.
    + destruct (so_target _ So H2) as (_ & _ & []). congruence.
Qed.


Lemma accepted_run s0 ops : started s0 → accepted_ok (pair_final s0 ops) (accepted (pair_log s0 ops)).
Proof.
  intros Hs. induction ops as [|[now op] ops IH] using rev_ind.
  - split; simpl; try done; constructor.
  - rewrite pair_log_snoc, pair_final_snoc, accepted_snoc.
    apply accepted_exec; [by apply reachable_ok|done].
Qed.

(** ** Lemmas: calls that pass their guards *)

Lemma bind_pass {A B} (m : M A) (k : A → M B) s a s1 :
  m s = (Ok a, s1) → (m ≫= k) s = k a s1.
Proof. unfold mbind, M_bind. by intros ->. Qed.

Lemma check_expired_pass now s : live now s → check_expired now s = (Ok tt, s).
Proof. intros Hl%live_not_expired. unfold check_expired, mbind, M_bind, get. by rewrite Hl. Qed.

Lemma expect_state_pass st s : state s = st → expect_state st s = (Ok tt, s).
Proof. intros. unfold expect_state, mbind, M_bind, get. by rewrite decide_True. Qed.

Lemma expect_role_pass r s : role s = r → expect_role r s = (Ok tt, s).
Proof. intros. unfold expect_role, mbind, M_bind, get. by rewrite decide_True. Qed.

Lemma validate_basics_pass e s m : carries s e m → validate_event_basics e s = (Ok tt, s).
Proof.
  intros (Hv & Hn & Hk & Hp & _). unfold validate_event_basics, mbind, M_bind, get, lift.
  rewrite Hv. simpl. rewrite decide_False by done. rewrite Hk, Hp. done.
Qed.

Lemma validate_peer_pass e s m :
  carries s e m → from_peer s e → validate_event_from_peer e s = (Ok tt, s).
Proof.
  intros Hc Hf. unfold validate_event_from_peer. rewrite (bind_pass _ _ _ _ _ (validate_basics_pass _ _ _ Hc)).
  unfold mbind, M_bind, get. destruct (peer_pubkey s) eqn:E; [|done]. by rewrite decide_True by eauto.
Qed.

Lemma decrypt_pass e s m : carries s e m → decrypt_message e s = (Ok m, s).
Proof. intros (_ & _ & _ & _ & Hd). unfold decrypt_message, mbind, M_bind, get, lift. by rewrite Hd. Qed.

Lemma build_pass env m s e : built s env m e → build_event env m s = (Ok e, s).
Proof. unfold built, build_event, mbind, M_bind, get, lift. by intros ->. Qed.

(** Passes the leading guards of a call whose conditions are in the context. *)
Ltac pass_guards :=
  repeat (erewrite bind_pass by first
    [ apply check_expired_pass; eassumption
    | apply expect_state_pass; eassumption
    | apply expect_role_pass; eassumption
    | eapply validate_peer_pass; eassumption
    | eapply validate_basics_pass; eassumption
    | apply decrypt_pass; eassumption
    | apply build_pass; eassumption ]).

Lemma receive_payload_pass r now e s t p :
  live now s → state s = Transferring → role s = r → carries s e (Payload t p) → from_peer s e →
  receive_payload r now e s = (Ok (t, p), accept e PayloadExchanged s).
Proof. intros. unfold receive_payload. pass_guards. done. Qed.

Ltac munfold := unfold ok_or, mbind, M_bind, mret, M_ret, get, lift, modify; cbn beta iota.

(** Every step of the relation is a call that returns. *)
Lemma ok_step_exec now s op out s' : ok_step now s op out s' → pair_exec now op s = (Ok out, s').
Proof.
  intros Hs; destruct Hs; cbn [pair_exec]; try (erewrite bind_pass; [reflexivity|]).
  - unfold handle_offer. pass_guards. munfold. cbn [fst snd]. rewrite decide_True by done.
    cbn beta iota. rewrite H4. cbn beta iota. by rewrite H5.
  - unfold confirm_sas. pass_guards. unfold own_transcript in H5. rewrite H2 in H5.
    munfold. rewrite H4. cbn beta iota. rewrite H3. cbn beta iota.
    by rewrite (build_pass _ _ _ _ H5).
  - by erewrite bind_pass by (by apply (receive_payload_pass Source)).
  - unfold send_source_complete. by pass_guards.
  - unfold send_payload. by pass_guards.
  - unfold handle_complete. by pass_guards.
  - unfold handle_sas_confirm. pass_guards. munfold.
    rewrite H6. cbn beta iota. rewrite H5. cbn beta iota.
    unfold own_transcript in H8. rewrite H2 in H8. rewrite H8. simpl. by rewrite H7.
  - unfold confirm_target_sas. by pass_guards.
  - by erewrite bind_pass by (by apply (receive_payload_pass Target)).
  - unfold send_complete. by pass_guards.
  - unfold abort, reject_terminal. munfold. by rewrite H0, H1.
  - unfold abort, reject_terminal. munfold. rewrite H0. cbn beta iota. destruct H1 as [pk Hp].
    rewrite Hp. cbn beta iota. by rewrite (build_pass _ _ _ _ H2).
  - unfold handle_abort, reject_terminal. munfold. rewrite H0. cbn beta iota. destruct H1 as [pk Hp].
    rewrite Hp. cbn beta iota. rewrite (validate_peer_pass _ _ _ H2 H3). by rewrite (decrypt_pass _ _ _ H2).
Qed.

(** ** An honest exchange *)

(** A call on one side, its failure ending the exchange. *)
Definition call {A} (m : M A) (s : PairingSession) : result PairingError (A * PairingSession) :=
  match m s with (Ok a, s') => Ok (a, s') | (Err e, _) => Err e end.

(** Both devices follow the protocol and both users confirm: call [i] happens at
    [time i], the events are built in the environments [env i].  Returns the
    codes the two devices display, the payload the target gets and the final
    states. *)
Definition honest_run (sk tk : SecretKey) (secret : bytes) (relay : string)
    (time : nat → Z) (env : nat → BuildEnv) (ty : PayloadType) (p : string) :
    result PairingError (string * string * (PayloadType * string) * SessionState * SessionState) :=
  let '(src, qr) := new_source (time 0) sk secret relay in
  let? (tgt, offer) := new_target (time 1) tk (env 0) qr in
  let? (sas_src, src) := call (handle_offer (time 2) offer) src in
  let? (confirm, src) := call (confirm_sas (time 3) (env 1)) src in
  let? (sas_tgt, tgt) := call (handle_sas_confirm (time 4) confirm) tgt in
  let? (_, tgt) := call (confirm_target_sas (time 5)) tgt in
  let? (pev, src) := call (send_payload (time 6) (env 2) ty p) src in
  let? (got, tgt) := call (handle_payload (time 7) pev) tgt in
  let? (cev, tgt) := call (send_complete (time 8) (env 3)) tgt in
  let? (_, src) := call (handle_complete (time 9) cev) src in
  Ok (sas_src, sas_tgt, got, state src, state tgt).

(** The serialized message fits NIP-44. *)
Definition fits (m : PairingMessage) : Prop := ∀ s, to_json m = Ok s → (str_len s ≤ 65535)%Z.

Section honest.
Context `{!PairingLaws H} `{!IdBinding H}.

Lemma str_len_pos s : s ≠ "" → (1 ≤ str_len s)%Z.
Proof. unfold str_len. destruct s; simpl; [done|lia]. Qed.

(** Between two devices an event is built, and the other side can read it. *)
Lemma build_honest (sk tk : SecretKey) env m :
  fits m →
  ∃ e, build_with sk (Some (public_key tk)) env m = Ok e ∧
    ev_pubkey (se_event e) = public_key sk ∧
    ∀ r : PairingSession, keys r = tk → ev_id (se_event e) ∉ processed_ids r → carries r e m.
Proof.
  intros Hf. unfold build_with. destruct (json_roundtrip m) as (j & Hj & Hp & Hne).
  rewrite Hj. simpl. pose proof (Hf _ Hj). pose proof (str_len_pos _ Hne).
  destruct (nip44_encrypt_ok sk (public_key tk) j (env_nonce env)) as (c & Hc & Hlen); [done|].
  rewrite Hc. simpl.
  destruct (sign_ok sk PAIRING_KIND [["p"; pk_to_hex (public_key tk)]] c
              (jittered_timestamp env) (env_aux env)) as (e & He & Hv & Hpk & Hk & Ht & Hco).
  rewrite He. exists e. split; [done|]. split; [done|]. intros r Hr Hid.
  unfold carries. split_and!; try done.
  - rewrite Ht, Hr. simpl. unfold p_tag_matches. simpl. by rewrite bool_decide_eq_true_2.
  - unfold decrypt_with. rewrite Hco, Hpk, Hr.
    replace ((132 <=? str_len c) && (str_len c <=? 87472))%Z with true by lia. simpl.
    rewrite (nip44_roundtrip _ _ _ _ _ Hc). simpl.
    destruct (Z.gtb_spec (str_len j) 65535); [lia|]. by rewrite Hp.
Qed.

(** Two different messages of the same direction have different event ids. *)
Lemma build_distinct_ids (sk tk : SecretKey) env env' m m' e e' :
  build_with sk (Some (public_key tk)) env m = Ok e →
  build_with sk (Some (public_key tk)) env' m' = Ok e' →
  m ≠ m' → ev_id (se_event e) ≠ ev_id (se_event e').
Proof.
  unfold build_with. destruct (json_roundtrip m) as (j & Hj & Hp & _).
  destruct (json_roundtrip m') as (j' & Hj' & Hp' & _). rewrite Hj, Hj'. simpl.
  destruct (nip44_encrypt sk _ j _) as [c|] eqn:Hc; [|done].
  destruct (nip44_encrypt sk _ j' _) as [c'|] eqn:Hc'; [|done]. simpl.
  rewrite !map_err_Ok. intros He He' Hne Hid.
  pose proof (sign_id_content _ _ _ _ _ _ _ _ _ _ _ _ _ _ He He' Hid) as ->.
  apply nip44_roundtrip in Hc, Hc'. congruence.
Qed.

Lemma matches_hex b : length b = 32 → matches_32 (hex_encode b) b = true.
Proof.
  intros Hb. unfold matches_32, decode_32. rewrite hex_roundtrip. unfold try_into_32.
  rewrite decide_True by done. by apply bool_decide_eq_true_2.
Qed.

Lemma call_ok {A} (m : M A) s a s' : m s = (Ok a, s') → call m s = Ok (a, s').
Proof. unfold call. by intros ->. Qed.

(** A step of the relation, read as the call it stands for. *)
Lemma step_call {A} (m : M A) (f : A → pair_out) `{!Inj (=) (=) f} now s op a s' :
  (∀ s, pair_exec now op s = (x ← m; mret (f x)) s) →
  ok_step now s op (f a) s' → call m s = Ok (a, s').
Proof.
  intros Hop Hs%ok_step_exec. rewrite Hop in Hs.
  apply bind_Ok in Hs as (b & s1 & Hm & [E ->]%ret_run). injection E as E. apply (inj f) in E as ->.
  unfold call. by rewrite Hm.
Qed.

#[local] Instance OSas_inj : Inj (=) (=) OSas.
Proof. by intros ?? [=]. Qed.
#[local] Instance OEvent_inj : Inj (=) (=) OEvent.
Proof. by intros ?? [=]. Qed.
#[local] Instance OUnit_inj : Inj (=) (=) (λ _ : unit, OUnit).
Proof. by intros [] []. Qed.
#[local] Instance OPayload_inj : Inj (=) (=) (λ tp : PayloadType * string, OPayload tp.1 tp.2).
Proof. by intros [] [] [= -> ->]. Qed.

(** The target's session once the offer is out. *)
Definition target_session (now : Z) (tk : SecretKey) (qr : QrPayload) (sas : N * bytes) :
    PairingSession :=
  mkSession Target Confirming tk (qr_session_secret qr) (qr_relays qr)
    (Some (qr_source_pubkey qr)) (derive_session_id (qr_session_secret qr))
    (Some sas.1) (Some sas.2) ∅ now DEFAULT_TIMEOUT.

Lemma new_target_ok now tk env qr k e :
  generate_shared_key tk (qr_source_pubkey qr) = Ok k →
  build_with tk (Some (qr_source_pubkey qr)) env
    (Offer (hex_encode (derive_session_id (qr_session_secret qr))) 1) = Ok e →
  new_target now tk env qr =
    Ok (target_session now tk qr (derive_sas k (qr_session_secret qr)), e).
Proof.
  intros Hk He. unfold new_target. rewrite Hk. cbn [map_err].
  erewrite build_pass by exact He. done.
Qed.

Lemma from_peer_eq s e pk : peer_pubkey s = Some pk → ev_pubkey (se_event e) = pk → from_peer s e.
Proof. unfold from_peer. congruence. Qed.

(** The sessions of an honest exchange, phase by phase.  [eo], [ec], [ep] and
    [ee] are the offer, confirmation, payload and completion events. *)
Section exchange.
Context (sk tk : SecretKey) (secret : bytes) (relay : string) (time : nat → Z) (k : bytes).
Context (ty : PayloadType) (p : string) (env : nat → BuildEnv) (eo ec ep ee : SignedEvent).
Context (Ek : generate_shared_key sk (public_key tk) = Ok k).
Context (T0 : ∀ i, i ≤ 9 → (time i - time 0%nat ≤ DEFAULT_TIMEOUT)%Z).
Context (T1 : ∀ i, i ≤ 9 → (time i - time 1%nat ≤ DEFAULT_TIMEOUT)%Z).

Let qr := mkQr (public_key sk) secret [relay] 1.
Let sas := derive_sas k secret.
Let src0 := (new_source (time 0) sk secret relay).1.
Let src1 := accept eo Confirming (set_sas sas.1 sas.2 (set_peer (public_key tk) src0)).
Let src3 := set_state PayloadExchanged (set_state Transferring src1).
Let tgt0 := target_session (time 1) tk qr sas.
Let tgt1 := accept ec AwaitingConfirmation tgt0.
Let tgt2 := set_state Transferring tgt1.
Let tgt3 := accept ep PayloadExchanged tgt2.
Let h := own_transcript tgt0 (public_key sk) sas.2.

Lemma exchange_offer :
  ev_pubkey (se_event eo) = public_key tk →
  carries src0 eo (Offer (hex_encode (derive_session_id secret)) 1) →
  call (handle_offer (time 2) eo) src0 = Ok (format_sas sas.1, src1).
Proof.
  intros Po Co. apply (step_call _ OSas (time 2) _ (PHandleOffer eo)); [done|].
  replace src1 with (accept eo Confirming
    (set_sas sas.1 sas.2 (set_peer (ev_pubkey (se_event eo)) src0))) by (by rewrite Po).
  apply (ok_offer (time 2) src0 eo (hex_encode (derive_session_id secret)) k); try done.
  - apply T0. lia.
  - apply matches_hex, hkdf32_length.
  - by rewrite Po.
Qed.

Lemma exchange_confirm :
  build_with sk (Some (public_key tk)) (env 1) (SasConfirm (hex_encode h)) = Ok ec →
  call (confirm_sas (time 3) (env 1)) src1 = Ok (ec, set_state Transferring src1).
Proof.
  intros Bc. apply (step_call _ OEvent (time 3) _ (PConfirmSas (env 1))); [done|].
  apply (ok_confirm_sas _ _ _ _ (public_key tk) sas.2); try done. apply T0. lia.
Qed.

Lemma exchange_sas_confirm :
  ev_pubkey (se_event ec) = public_key sk → carries tgt0 ec (SasConfirm (hex_encode h)) →
  call (handle_sas_confirm (time 4) ec) tgt0 = Ok (format_sas sas.1, tgt1).
Proof.
  intros Pc Cc. apply (step_call _ OSas (time 4) _ (PHandleSasConfirm ec)); [done|].
  apply (ok_sas_confirm _ _ _ (hex_encode h) (public_key sk) sas.2 sas.1); try done.
  - apply T1. lia.
  - by eapply from_peer_eq.
  - apply matches_hex, hkdf32_length.
Qed.

Lemma exchange_target_confirms : call (confirm_target_sas (time 5)) tgt1 = Ok (tt, tgt2).
Proof.
  apply (step_call _ (λ _, OUnit) (time 5) _ PConfirmTargetSas); [done|].
  apply ok_confirm_target; try done. apply T1. lia.
Qed.

Lemma exchange_send :
  build_with sk (Some (public_key tk)) (env 2) (Payload ty p) = Ok ep →
  call (send_payload (time 6) (env 2) ty p) (set_state Transferring src1) = Ok (ep, src3).
Proof.
  intros Bp. apply (step_call _ OEvent (time 6) _ (PSendPayload (env 2) ty p)); [done|].
  apply ok_send_payload; try done. apply T0. lia.
Qed.

Lemma exchange_receive :
  ev_pubkey (se_event ep) = public_key sk → carries tgt2 ep (Payload ty p) →
  call (handle_payload (time 7) ep) tgt2 = Ok ((ty, p), tgt3).
Proof.
  intros Pp Cp.
  apply (step_call _ (λ tp, OPayload tp.1 tp.2) (time 7) _ (PHandlePayload ep)); [done|].
  apply ok_payload; try done; [apply T1; lia|by eapply from_peer_eq].
Qed.

Lemma exchange_complete :
  build_with tk (Some (public_key sk)) (env 3) (Complete true) = Ok ee →
  call (send_complete (time 8) (env 3)) tgt3 = Ok (ee, set_state Completed tgt3).
Proof.
  intros Be. apply (step_call _ OEvent (time 8) _ (PSendComplete (env 3))); [done|].
  apply ok_send_complete; try done. apply T1. lia.
Qed.

Lemma exchange_finish :
  ev_pubkey (se_event ee) = public_key tk → carries src3 ee (Complete true) →
  call (handle_complete (time 9) ee) src3 = Ok (tt, accept ee Completed src3).
Proof.
  intros Pe Ce. apply (step_call _ (λ _, OUnit) (time 9) _ (PHandleComplete ee)); [done|].
  apply ok_complete; try done; [apply T0; lia|by eapply from_peer_eq].
Qed.
End exchange.

(** two devices that follow the protocol within the timeout complete it: both
    display the same code, the target receives exactly the payload the source
    sent, and both sessions end in [Completed]. *)
Theorem honest_pairing_completes sk tk secret relay (time : nat → Z) env ty p :
  (∀ i, i ≤ 9 → (time i - time 0%nat ≤ DEFAULT_TIMEOUT)%Z) →
  (∀ i, i ≤ 9 → (time i - time 1%nat ≤ DEFAULT_TIMEOUT)%Z) →
  fits (Offer (hex_encode (derive_session_id secret)) 1) →
  (∀ h, length h = 32 → fits (SasConfirm (hex_encode h))) →
  fits (Payload ty p) → fits (Complete true) →
  ∃ sas, honest_run sk tk secret relay time env ty p = Ok (sas, sas, (ty, p), Completed, Completed).
Proof.
  intros T0 T1 Fo Fs Fp Fc. destruct (ecdh_agree sk tk) as (k & Ek & Ek').
  set (qr := mkQr (public_key sk) secret [relay] 1). set (sas := derive_sas k secret).
  set (h := own_transcript (target_session (time 1) tk qr sas) (public_key sk) sas.2).
  destruct (build_honest tk sk (env 0) _ Fo) as (eo & Bo & Po & Co).
  destruct (build_honest sk tk (env 1) _ (Fs h (hkdf32_length _ _ _))) as (ec & Bc & Pc & Cc).
  destruct (build_honest sk tk (env 2) _ Fp) as (ep & Bp & Pp & Cp).
  destruct (build_honest tk sk (env 3) _ Fc) as (ee & Be & Pe & Ce).
  pose proof (build_distinct_ids _ _ _ _ _ _ _ _ Bp Bc ltac:(done)).
  pose proof (build_distinct_ids _ _ _ _ _ _ _ _ Be Bo ltac:(done)).
  exists (format_sas sas.1). unfold honest_run, new_source. cbv beta iota zeta. fold qr.
  rewrite (new_target_ok _ _ _ qr k eo) by done. cbn [qr qr_session_secret]. subst qr.
  rewrite (exchange_offer sk tk secret relay time k) by (done || (apply Co; [done|set_solver])).
  rewrite (exchange_confirm sk tk secret relay time k env eo ec) by done.
  rewrite (exchange_sas_confirm sk tk secret relay time k ec) by (done || (apply Cc; [done|set_solver])).
  rewrite (exchange_target_confirms sk tk secret relay time k ec) by done.
  rewrite (exchange_send sk tk secret relay time k ty p env eo ep) by done.
  rewrite (exchange_receive sk tk secret relay time k ty p ec ep)
    by (done || (apply Cp; [done|simpl; set_solver])).
  rewrite (exchange_complete sk tk secret relay time k env ec ep ee) by done.
  rewrite (exchange_finish sk tk secret relay time k eo ee)
    by (done || (apply Ce; [done|simpl; set_solver])).
  done.
Qed.

End honest.


(** ** Properties *)

(** the methods implement the protocol's state machine: a call returns a value
    and moves the session exactly as the step relation allows, checking expiry,
    state, role, signature, freshness, kind, address, sender and message. *)
Theorem pair_exec_refines now op s out s' :
  pair_exec now op s = (Ok out, s') ↔ ok_step now s op out s'.
Proof. split; [apply pair_exec_ok|apply ok_step_exec]. Qed.

(** a finished session is final: in [Completed] or [Aborted] every call fails
    and leaves the session as it is. *)
Theorem terminal_is_final now op s :
  terminal (state s) = true → ∃ err, pair_exec now op s = (Err err, s).
Proof.
  intros Ht. destruct (pair_exec_step now op s) as [(out & s' & -> & Hs)|(err & s' & -> & Hs)].
  - exfalso. destruct Hs; try congruence;
      match goal with E : state _ = _ |- _ => by rewrite E in Ht end.
  - exists err. destruct Hs; try done;
      match goal with E : state _ = _ |- _ => by rewrite E in Ht end.
Qed.

(** C12: the secret moves only after both proofs: whenever a payload is sent or
    accepted, the peer's proof of the QR secret was accepted before (an offer with
    the session id, or a confirmation from the QR code's key with the matching
    transcript hash), and after it the user approved the displayed code. *)
Theorem secret_needs_confirmation s0 ops l1 op out l2 :
  started s0 →
  pair_log s0 ops = l1 ++ (op, Ok out) :: l2 →
  match op with
  | PSendPayload _ _ _ | PHandlePayload _ | PHandleReturnPayload _ => confirmed s0 l1
  | _ => True
  end.
Proof.
  intros Hs Hl. destruct (pair_log_split _ _ _ _ _ _ Hl) as (ops1 & now & -> & Hr).
  pose proof (history_run s0 ops1 Hs) as Hh.
  destruct (pair_exec now op (pair_final s0 ops1)) as [r s'] eqn:E. simpl in Hr. subst r.
  apply pair_exec_ok in E. destruct E; try done;
    match goal with E : state _ = _ |- _ => by rewrite E in Hh end.
Qed.

(** a session consumes each event at most once, and only from one peer: the
    events its handlers accepted have pairwise different ids and one author. *)
Theorem accepted_once_from_one_peer s0 ops :
  started s0 →
  NoDup ((λ e, ev_id (se_event e)) <$> accepted (pair_log s0 ops)) ∧
  ∃ pk, Forall (λ e, ev_pubkey (se_event e) = pk) (accepted (pair_log s0 ops)).
Proof.
  intros Hs. destruct (accepted_run s0 ops Hs) as [N P R W]. split; [done|].
  exists (default 0%N (peer_pubkey (pair_final s0 ops))).
  eapply Forall_impl; [exact R|]. simpl. intros e ->. done.
Qed.

(** a failing call leaves the session as it was, except that a transcript
    mismatch or a reported failure aborts it, and an ECDH failure on an otherwise
    valid offer leaves the offering peer recorded while still waiting. *)
Theorem failed_call_frame s0 ops now op err s' :
  started s0 →
  let s := pair_final s0 ops in
  pair_exec now op s = (Err err, s') →
  s' = s ∨
  (s' = set_state Aborted s ∧
   (err = TranscriptMismatch ∧ role s = Target ∨
    err = UnexpectedMessage "complete(success=true)" "complete(success=false)" ∧ role s = Source)) ∨
  (state s = Waiting ∧ ∃ pk msg, err = SigningError msg ∧ s' = set_peer pk s).
Proof.
  intros Hs s E. pose proof (reachable_ok s0 ops Hs) as So. fold s in So.
  apply pair_exec_err in E. destruct E; eauto 10.
  destruct (so_target _ So) as (_ & _ & []); congruence.
Qed.

(** once the session has expired every protocol step is refused and changes
    nothing; only aborting is still possible. *)
Theorem expired_refused now op s :
  ¬ live now s →
  match op with
  | PAbort _ _ | PHandleAbort _ => True
  | _ => pair_exec now op s = (Err SessionExpired, s)
  end.
Proof.
  intros Hl. assert (check_expired now s = (Err SessionExpired, s)) as E.
  { unfold check_expired, mbind, M_bind, get.
    destruct (is_expired now s) eqn:Ee; [done|]. by apply live_not_expired in Ee. }
  destruct op; try done; cbn [pair_exec];
    unfold handle_offer, confirm_sas, handle_return_payload, handle_payload, receive_payload,
      send_source_complete, send_payload, handle_complete, handle_sas_confirm,
      confirm_target_sas, send_complete;
    unfold mbind at 1 2, M_bind at 1 2; by rewrite E.
Qed.


End steps.

(** ** Concrete runs *)

Module PairingSessionDemo.
Import ToyCrypto.

Definition key (n : N) : @SecretKey toy_api := n.
Definition secret : bytes := replicate 32 x01.
Definition env (i : nat) : BuildEnv := mkEnv 1700000000 77 (N.of_nat i) (N.of_nat i).
Definition time (i : nat) : Z := Z.of_nat i.
Definition src : PairingSession := (new_source 0 (key 5) secret "wss://r").1.
Definition qr : QrPayload := (new_source 0 (key 5) secret "wss://r").2.

Definition offer : SignedEvent :=
  match new_target 1 (key 7) (env 0) qr with
  | Ok (_, e) => e
  | Err _ => mkSigned (mkEvent 0 0 0 0 [] "") 0
  end.

Definition ops : list (Z * pair_op) :=
  [(2%Z, PHandleOffer offer); (3%Z, PConfirmSas (env 1)); (4%Z, PSendPayload (env 2) Nsec "nsec1")].

Definition log := pair_log src ops.

(** The whole protocol, evaluated: equal codes and the payload delivered. *)
Example honest_evaluates :
  ∃ sas, honest_run (key 5) (key 7) secret "wss://r" time env Nsec "nsec1"
         = Ok (sas, sas, (Nsec, "nsec1"), Completed, Completed).
Proof. eexists. vm_compute. reflexivity. Qed.

(** A replayed offer is refused, whatever the state. *)
Example replay_refused :
  (pair_exec 3 (PHandleOffer offer) (pair_final src (take 1 ops))).1 =
  Err (UnexpectedMessage "state Waiting" "state Confirming").
Proof. vm_compute. reflexivity. Qed.

Lemma bytes_to_hex_length b : String.length (bytes_to_hex b) = 2 * length b.
Proof. induction b as [|x b IH]; simpl; [done|]. rewrite IH. lia. Qed.

Lemma fits_sas b : length b = 32 → fits (SasConfirm (hex_encode b)).
Proof.
  intros Hb s [= <-]. unfold str_len. simpl. rewrite bytes_to_hex_length, Hb. lia.
Qed.

Lemma fits_length m : (str_len (msg_to_string m) <=? 65535)%Z = true → fits m.
Proof. intros Hm s [= <-]. by apply Z.leb_le. Qed.

Lemma fits_offer : fits (Offer (hex_encode (derive_session_id secret)) 1).
Proof. apply fits_length. vm_compute. reflexivity. Qed.

Lemma fits_payload : fits (Payload Nsec "nsec1").
Proof. apply fits_length. vm_compute. reflexivity. Qed.

Lemma fits_complete : fits (Complete true).
Proof. apply fits_length. vm_compute. reflexivity. Qed.

Lemma time_ok j i : i ≤ 9 → (time i - time j ≤ DEFAULT_TIMEOUT)%Z.
Proof. intros Hi. unfold time, DEFAULT_TIMEOUT. lia. Qed.

Lemma honest_pairing_completes_witness :
  ∃ sas, honest_run (key 5) (key 7) secret "wss://r" time env Nsec "nsec1"
         = Ok (sas, sas, (Nsec, "nsec1"), Completed, Completed).
Proof.
  exact (honest_pairing_completes (key 5) (key 7) secret "wss://r" time env Nsec "nsec1"
           (time_ok 0) (time_ok 1) fits_offer fits_sas fits_payload fits_complete).
Defined.

Lemma terminal_is_final_witness :
  ∃ err, pair_exec 9 (PHandleOffer offer) (set_state Aborted src) = (Err err, set_state Aborted src).
Proof. apply (terminal_is_final 9 (PHandleOffer offer)). reflexivity. Defined.

Definition sent_out : pair_out :=
  match log !! 2 with Some (_, Ok o) => o | _ => OUnit end.

Lemma secret_needs_confirmation_witness : confirmed src (take 2 log).
Proof.
  apply (secret_needs_confirmation src ops (take 2 log) (PSendPayload (env 2) Nsec "nsec1") sent_out []).
  - apply started_source.
  - vm_compute. reflexivity.
Defined.

Lemma accepted_once_from_one_peer_witness :
  accepted log ≠ [] ∧ NoDup ((λ e, ev_id (se_event e)) <$> accepted log).
Proof.
  split; [vm_compute; discriminate|].
  apply (accepted_once_from_one_peer src ops). apply started_source.
Defined.

Lemma failed_call_frame_witness :
  let s' := (pair_exec 3 (PConfirmSas (env 1)) src).2 in
  s' = src ∨
  (s' = set_state Aborted src ∧
   (UnexpectedMessage "state Confirming" "state Waiting" = TranscriptMismatch ∧ role src = Target ∨
    UnexpectedMessage "state Confirming" "state Waiting" =
      UnexpectedMessage "complete(success=true)" "complete(success=false)" ∧ role src = Source)) ∨
  (state src = Waiting ∧
   ∃ pk msg, UnexpectedMessage "state Confirming" "state Waiting" = SigningError msg ∧
             s' = set_peer pk src).
Proof.
  apply (failed_call_frame src [] 3 (PConfirmSas (env 1))).
  - apply started_source.
  - reflexivity.
Defined.

Lemma expired_refused_witness :
  pair_exec (DEFAULT_TIMEOUT + 1) (PHandleOffer offer) src = (Err SessionExpired, src).
Proof.
  apply (expired_refused (DEFAULT_TIMEOUT + 1) (PHandleOffer offer)).
  unfold live. simpl. unfold DEFAULT_TIMEOUT. lia.
Defined.

End PairingSessionDemo.
