(* ===== verification/PairingQr.v ===== *)
(** * The pairing QR code ([buzz-core/src/pairing/qr.rs])

    [encode_qr] prints the [nostrpair://] URI the source displays; [decode_qr]
    parses what the target scans.  Percent-encoding, URL parsing and the [Debug]
    text of a string are the interface [QrApi]. *)

From stdpp Require Import base gmap strings list.
From Stdlib Require Import Ascii.
From Stdlib.Strings Require Import Byte.
From S2P Require Import Prelude Nostr PairingCrypto PairingSession.

(** [url::Url]: what the decoder looks at. *)
Record Url := mkUrl { url_scheme : string; url_has_host : bool }.

Class QrApi := {
  utf8_percent_encode : string → string;
  percent_decode_lossy : string → string;
  url_parse : string → result string Url;
  str_debug : string → string
}.

(** [is_lowercase_hex]. *)
Definition is_lowercase_hex (c : ascii) : bool :=
  is_ascii_digit c || ((97 <=? ascii_code c) && (ascii_code c <=? 102))%N.

(** Documented behaviour: hex and percent encoding round-trip and stay within
    their alphabets, a generated public key prints and parses as 64 hex digits. *)
Class QrLaws (api : PairingApi) (qapi : QrApi) := {
  pk_hex_roundtrip : ∀ sk, pk_from_hex (pk_to_hex (public_key sk)) = Ok (public_key sk);
  pk_hex_shape : ∀ sk, String.length (pk_to_hex (public_key sk)) = 64 ∧
                       str_all is_lowercase_hex (pk_to_hex (public_key sk)) = true;
  hex_shape : ∀ b, String.length (hex_encode b) = 2 * length b ∧
                   str_all is_lowercase_hex (hex_encode b) = true;
  qr_hex_roundtrip : ∀ b, hex_decode (hex_encode b) = Ok b;
  percent_roundtrip : ∀ s, percent_decode_lossy (utf8_percent_encode s) = s;
  percent_shape : ∀ s, str_all (λ c, is_ascii_alphanumeric c || bool_decide (c = "%"%char))
                         (utf8_percent_encode s) = true
}.

(** [str::parse::<u32>]: an optional plus sign, then one or more digits; [None]
    on any other character and on overflow. *)
Definition digit_value (c : ascii) : option N :=
  if is_ascii_digit c then Some (ascii_code c - 48)%N else None.

Fixpoint parse_digits (acc : N) (s : string) : option N :=
  match s with
  | EmptyString => Some acc
  | String c s' =>
      match digit_value c with
      | Some d =>
          let n := (acc * 10 + d)%N in
          if (n <? 2 ^ 32)%N then parse_digits n s' else None
      | None => None
      end
  end.

Definition parse_u32 (s : string) : option N :=
  match s with
  | EmptyString => None
  | String "+" EmptyString => None
  | String "+" s' => parse_digits 0 s'
  | _ => parse_digits 0 s
  end.

Section qr.
Context `{PairingApi} `{QrApi}.

Definition url_encode (s : string) : string := utf8_percent_encode s.
Definition url_decode (s : string) : string := percent_decode_lossy s.

Definition encode_qr (payload : QrPayload) : string :=
  let uri := "nostrpair://" +:+ pk_to_hex (qr_source_pubkey payload)
             +:+ "?secret=" +:+ hex_encode (qr_session_secret payload) in
  let uri := foldl (λ uri relay, uri +:+ "&relay=" +:+ url_encode relay) uri (qr_relays payload) in
  uri +:+ "&v=1".

(** The variables of the query loop. *)
Record QueryState := mkQuery {
  q_secret : option string;
  q_relays : list string;
  q_version : option N
}.

Definition query_step (st : QueryState) (pair : string) : QueryState :=
  match split_once "=" pair with
  | Some (key, value) =>
      if decide (key = "secret") then mkQuery (Some value) (q_relays st) (q_version st)
      else if decide (key = "relay") then
        mkQuery (q_secret st) (q_relays st ++ [url_decode value]) (q_version st)
      else if decide (key = "v") then mkQuery (q_secret st) (q_relays st) (parse_u32 value)
      else st
  | None => st
  end.

Fixpoint check_relays (relays : list string) : result PairingError unit :=
  match relays with
  | [] => Ok tt
  | relay :: rest =>
      let? parsed := map_err (λ e, InvalidQr ("invalid relay URL " +:+ str_debug relay +:+ ": " +:+ e))
                       (url_parse relay) in
      if decide (url_scheme parsed = "wss" ∨ url_scheme parsed = "ws") then
        if url_has_host parsed then check_relays rest
        else Err (InvalidQr ("relay URL has no host: " +:+ str_debug relay))
      else Err (InvalidQr ("relay URL must use wss:// or ws:// scheme, got "
                           +:+ str_debug (url_scheme parsed)))
  end.

Definition require (b : bool) (e : PairingError) : result PairingError unit :=
  if b then Ok tt else Err e.

Definition from_option_err {A} (o : option A) (e : PairingError) : result PairingError A :=
  match o with Some a => Ok a | None => Err e end.

Definition hex64 (s : string) : bool :=
  bool_decide (String.length s = 64) && str_all is_lowercase_hex s.

Definition decode_qr (uri : string) : result PairingError QrPayload :=
  let? _ := require (str_len uri <=? 2048)%Z
              (InvalidQr ("URI exceeds 2048-character limit ("
                 +:+ num_to_string (Z.to_N (str_len uri)) +:+ " chars)")) in
  let? rest := from_option_err (strip_prefix "nostrpair://" uri)
                 (InvalidQr "URI must start with nostrpair://") in
  let? (pubkey_hex, query) := from_option_err (split_once "?" rest)
                 (InvalidQr "missing query string (expected ?secret=…&relay=…)") in
  let? _ := require (hex64 pubkey_hex)
              (InvalidQr ("pubkey must be 64 lowercase hex chars, got " +:+ str_debug pubkey_hex)) in
  let? source_pubkey := map_err (λ e, InvalidQr ("invalid pubkey: " +:+ e)) (pk_from_hex pubkey_hex) in
  let st := foldl query_step (mkQuery None [] None) (split_on "&" query) in
  let version := default 1%N (q_version st) in
  let? _ := require (version =? 1)%N
              (InvalidQr ("unsupported protocol version " +:+ num_to_string version +:+ ", expected 1")) in
  let? secret_str := from_option_err (q_secret st) (InvalidQr "missing 'secret' query parameter") in
  let? _ := require (hex64 secret_str)
              (InvalidQr ("secret must be 64 lowercase hex chars, got " +:+ str_debug secret_str)) in
  let? secret_bytes := map_err (λ e, InvalidQr ("invalid secret hex: " +:+ e)) (hex_decode secret_str) in
  let? session_secret := from_option_err (try_into_32 secret_bytes)
                           (InvalidQr "secret must be exactly 32 bytes") in
  let? _ := require (negb (bool_decide (session_secret = replicate 32 x00)))
              (InvalidQr "session_secret must not be all zeros") in
  let? _ := require (negb (bool_decide (q_relays st = [])))
              (InvalidQr "at least one 'relay' query parameter is required") in
  let? _ := check_relays (q_relays st) in
  Ok (mkQr source_pubkey session_secret (q_relays st) version).

(** [PairingSession::qr_uri]. *)
Definition qr_uri (s : PairingSession) : option string :=
  if decide (role s = Source) then
    Some (encode_qr (mkQr (public_key (keys s)) (session_secret s) (relay_urls s) 1))
  else None.

(** ** Specification *)

(** A relay URL the decoder accepts. *)
Definition relay_ok (relay : string) : Prop :=
  ∃ u, url_parse relay = Ok u ∧ (url_scheme u = "wss" ∨ url_scheme u = "ws") ∧
       url_has_host u = true.

Record payload_ok (p : QrPayload) : Prop := {
  po_version : qr_version p = 1%N;
  po_secret : length (qr_session_secret p) = 32 ∧ qr_session_secret p ≠ replicate 32 x00;
  po_relays : qr_relays p ≠ [] ∧ Forall relay_ok (qr_relays p)
}.

(** ** Lemmas *)

Lemma check_relays_Ok relays : check_relays relays = Ok tt ↔ Forall relay_ok relays.
Proof.
  induction relays as [|r rs IH]; simpl; [done|]. rewrite Forall_cons, <-IH. unfold relay_ok.
  destruct (url_parse r) as [u|e]; simpl; [|split; [done|by intros [(? & ? & _) _]]].
  case_decide as Hs; [|split; [done|by intros [(? & [= <-] & ? & _) _]]].
  destruct (url_has_host u) eqn:E; [|split; [done|intros [(? & [= <-] & _ & ?) _]; congruence]].
  split; [|by intros [_ ?]]. intros Hrs. split; [|done]. by exists u.
Qed.

Lemma require_Ok b e : require b e = Ok tt ↔ b = true.
Proof. unfold require. by destruct b. Qed.

Lemma foldl_relays uri relays :
  foldl (λ uri relay, uri +:+ "&relay=" +:+ url_encode relay) uri relays =
  uri +:+ foldr (λ relay acc, "&relay=" +:+ url_encode relay +:+ acc) "" relays.
Proof.
  revert uri. induction relays as [|r rs IH]; intros uri; simpl.
  - induction uri as [|a u IHu]; [done|]. rewrite append_cons. by f_equal.
  - rewrite IH, !append_assoc. done.
Qed.

(** The pieces of the query [encode_qr] prints. *)
Definition query_pieces (p : QrPayload) : list string :=
  ("secret=" +:+ hex_encode (qr_session_secret p))
  :: ((λ r, "relay=" +:+ url_encode r) <$> qr_relays p) ++ ["v=1"].

Lemma encode_qr_eq p :
  encode_qr p = "nostrpair://" +:+ pk_to_hex (qr_source_pubkey p) +:+
                String "?" (join_with "&" (query_pieces p)).
Proof.
  unfold encode_qr, query_pieces. rewrite foldl_relays, !append_assoc. f_equal. f_equal.
  change ("?secret=" +:+ ?x) with (String "?" ("secret=" +:+ x)). f_equal.
  assert (∀ first rs, first +:+ foldr (λ relay acc, "&relay=" +:+ url_encode relay +:+ acc) "" rs +:+ "&v=1"
            = join_with "&" (first :: ((λ r, "relay=" +:+ url_encode r) <$> rs) ++ ["v=1"])) as Hj.
  { intros first rs. revert first. induction rs as [|r rs IH]; intros first; [done|].
    rewrite fmap_cons. simpl foldr. rewrite !append_assoc.
    change (join_with "&" (first :: ?x ++ ?y)) with (first +:+ String "&" (join_with "&" (x ++ y))).
    f_equal. simpl app. rewrite <-IH. by rewrite append_assoc. }
  rewrite <-Hj. by rewrite !append_assoc.
Qed.

Lemma query_step_secret st v :
  query_step st ("secret=" +:+ v) = mkQuery (Some v) (q_relays st) (q_version st).
Proof.
  unfold query_step. change ("secret=" +:+ v) with ("secret" +:+ String "=" v).
  by rewrite split_once_app.
Qed.

Lemma query_step_relay st v :
  query_step st ("relay=" +:+ v) = mkQuery (q_secret st) (q_relays st ++ [url_decode v]) (q_version st).
Proof.
  unfold query_step. change ("relay=" +:+ v) with ("relay" +:+ String "=" v).
  by rewrite split_once_app.
Qed.

Section roundtrip.
Context `{!QrLaws H H0}.

Lemma query_relays st rs :
  foldl query_step st ((λ r, "relay=" +:+ url_encode r) <$> rs) =
  mkQuery (q_secret st) (q_relays st ++ rs) (q_version st).
Proof.
  revert st. induction rs as [|r rs IH]; intros st; [simpl; by rewrite app_nil_r; destruct st|].
  rewrite fmap_cons. simpl foldl. rewrite query_step_relay, IH. simpl.
  unfold url_decode, url_encode. by rewrite percent_roundtrip, <-app_assoc.
Qed.

Lemma query_fold p :
  foldl query_step (mkQuery None [] None) (query_pieces p) =
  mkQuery (Some (hex_encode (qr_session_secret p))) (qr_relays p) (Some 1%N).
Proof.
  unfold query_pieces. simpl foldl. rewrite query_step_secret, foldl_app, query_relays. done.
Qed.

Lemma query_pieces_no_amp p : Forall (λ s, str_contains "&" s = false) (query_pieces p).
Proof.
  unfold query_pieces. constructor; [|apply Forall_app; split; [|by repeat constructor]].
  - rewrite str_contains_app. simpl. by apply (str_all_contains _ _ _ (proj2 (hex_shape _))).
  - apply Forall_fmap, Forall_forall. intros r _. simpl. rewrite str_contains_app. simpl.
    by apply (str_all_contains _ _ _ (percent_shape _)).
Qed.

Lemma hex64_hex b : length b = 32 → hex64 (hex_encode b) = true.
Proof.
  intros Hb. destruct (hex_shape b) as [Hl Ha]. unfold hex64. rewrite Ha.
  rewrite bool_decide_eq_true_2 by (rewrite Hl, Hb; done). done.
Qed.

(** the QR code round-trips: what the source encodes, the target decodes to
    the same payload, as long as the URI fits the 2048-character limit. *)
Theorem qr_roundtrip sk secret relays :
  let p := mkQr (public_key sk) secret relays 1 in
  payload_ok p → (str_len (encode_qr p) ≤ 2048)%Z → decode_qr (encode_qr p) = Ok p.
Proof.
  intros p [Hv [Hlen Hnz] [Hne Hrel]] Hfit. unfold decode_qr.
  rewrite (proj2 (require_Ok _ _)) by lia. rewrite encode_qr_eq, strip_prefix_app.
  cbn [from_option_err]. destruct (pk_hex_shape sk) as [Hpl Hpa].
  rewrite split_once_app by (by apply (str_all_contains _ _ _ Hpa)). cbn [from_option_err].
  replace (hex64 (pk_to_hex (qr_source_pubkey p))) with true
    by (unfold hex64; simpl; rewrite Hpa, bool_decide_eq_true_2; done).
  cbn [require]. simpl qr_source_pubkey. rewrite pk_hex_roundtrip. cbn [map_err].
  rewrite split_join by (done || apply query_pieces_no_amp). rewrite query_fold.
  cbn [q_version default from_option id q_secret q_relays require N.eqb Pos.eqb from_option_err].
  simpl qr_session_secret in *. rewrite hex64_hex by done. cbn [require].
  rewrite qr_hex_roundtrip. cbn [map_err]. unfold try_into_32. rewrite decide_True by done.
  cbn [from_option_err]. rewrite !bool_decide_eq_false_2 by done. cbn [require negb].
  by rewrite (proj2 (check_relays_Ok _)).
Qed.

End roundtrip.

(** whatever the target scans, an accepted QR code is a usable payload: the
    supported version, a 32-byte secret that is not all zeros, at least one relay,
    and every relay a WebSocket URL with a host. *)
Theorem decode_qr_sound uri p :
  decode_qr uri = Ok p → payload_ok p ∧ (str_len uri ≤ 2048)%Z.
Proof.
  unfold decode_qr. intros Hd. repeat (case_match; simplify_eq/=).
  repeat match goal with
  | E : require _ _ = Ok _ |- _ => unfold require in E; case_match; simplify_eq/=
  | E : from_option_err ?o _ = Ok _ |- _ => destruct o eqn:?; simplify_eq/=
  end.
  breflect. unfold try_into_32 in *. case_decide; simplify_eq/=.
  repeat match goal with x : unit |- _ => destruct x end.
  split; [|lia]. split; simpl; [by apply N.eqb_eq|done|].
  split; [done|]. by apply check_relays_Ok.
Qed.


End qr.

(** ** Concrete runs *)

Module PairingQrDemo.
Import ToyCrypto.

Definition pct_plain (c : ascii) : bool := is_ascii_alphanumeric c.

Fixpoint pct_encode (s : string) : string :=
  match s with
  | EmptyString => ""
  | String c s' =>
      if pct_plain c then String c (pct_encode s')
      else let n := N_of_ascii c in
           String "%" (String (hex_digit (n / 16)) (String (hex_digit (n `mod` 16)) (pct_encode s')))
  end.

Fixpoint pct_decode (s : string) : string :=
  match s with
  | EmptyString => ""
  | String c s' =>
      if decide (c = "%"%char) then
        match s' with
        | String h (String l s'') =>
            match hex_value h, hex_value l with
            | Some h, Some l => String (ascii_of_N (h * 16 + l)) (pct_decode s'')
            | _, _ => String c (pct_decode s')
            end
        | _ => String c (pct_decode s')
        end
      else String c (pct_decode s')
  end.

Definition toy_url (s : string) : result string Url :=
  match strip_prefix "wss://" s, strip_prefix "ws://" s, strip_prefix "https://" s with
  | Some r, _, _ => Ok (mkUrl "wss" (negb (bool_decide (r = ""))))
  | _, Some r, _ => Ok (mkUrl "ws" (negb (bool_decide (r = ""))))
  | _, _, Some r => Ok (mkUrl "https" (negb (bool_decide (r = ""))))
  | _, _, _ => Err "relative URL without a base"
  end.

#[global] Instance toy_qr : QrApi := {|
  utf8_percent_encode := pct_encode;
  percent_decode_lossy := pct_decode;
  url_parse := toy_url;
  str_debug := id
|}.

Lemma pct_roundtrip s : pct_decode (pct_encode s) = s.
Proof.
  induction s as [|c s IH]; [done|]. simpl pct_encode. destruct (pct_plain c) eqn:E.
  - simpl. rewrite decide_False by (intros ->; done). by rewrite IH.
  - simpl. pose proof (N_ascii_bounded c). rewrite !hex_value_digit;
      [|by apply N.mod_lt|apply N.Div0.div_lt_upper_bound; lia].
    rewrite N.mul_comm, <-N.div_mod by done. by rewrite ascii_N_embedding, IH.
Qed.

Lemma hex_digit_lower n : (n < 16)%N → is_lowercase_hex (hex_digit n) = true.
Proof.
  intros Hn. destruct n as [|q]; [done|]. do 4 (destruct q as [q|q|]; [| |done]).
  all: exfalso; clear -Hn; unfold N.lt in Hn; by destruct q.
Qed.

Lemma lower_hex_alnum c : is_lowercase_hex c = true → is_ascii_alphanumeric c = true.
Proof.
  unfold is_lowercase_hex, is_ascii_alphanumeric. destruct (is_ascii_digit c); [done|].
  rewrite !orb_true_iff, !andb_true_iff, !N.leb_le. lia.
Qed.

Lemma pct_shape s :
  str_all (λ c, is_ascii_alphanumeric c || bool_decide (c = "%"%char)) (pct_encode s) = true.
Proof.
  induction s as [|c s IH]; [done|]. simpl. destruct (pct_plain c) eqn:E; simpl; rewrite IH.
  - unfold pct_plain in E. by rewrite E.
  - pose proof (N_ascii_bounded c).
    rewrite !lower_hex_alnum by (apply hex_digit_lower; first
      [by apply N.mod_lt|apply N.Div0.div_lt_upper_bound; lia]). done.
Qed.

Lemma hex_fixed_shape k n :
  String.length (hex_fixed k n) = k ∧ str_all is_lowercase_hex (hex_fixed k n) = true.
Proof.
  revert n. induction k as [|k IH]; intros n; [done|]. simpl. destruct (IH (n / 16)%N) as [-> ->].
  by rewrite hex_digit_lower by (by apply N.mod_lt).
Qed.

Lemma bytes_hex_shape b :
  String.length (bytes_to_hex b) = 2 * length b ∧ str_all is_lowercase_hex (bytes_to_hex b) = true.
Proof.
  induction b as [|x b [IHl IHa]]; [done|]. simpl. rewrite IHl, IHa.
  pose proof (Byte.to_N_bounded x). split; [lia|].
  rewrite !hex_digit_lower; [done|by apply N.mod_lt|apply N.Div0.div_lt_upper_bound; lia].
Qed.

#[global] Instance toy_qr_laws : QrLaws toy_api toy_qr.
Proof.
  split.
  - intros sk. change (of_option (hex_parse (hex_fixed 64 (sk `mod` pk_bound))) =
                       Ok (sk `mod` pk_bound)%N).
    rewrite hex_parse_fixed. cbn [of_option].
    assert ((16 ^ N.of_nat 64)%N = pk_bound) as -> by (vm_compute; reflexivity).
    by rewrite N.Div0.mod_mod.
  - intros sk. apply hex_fixed_shape.
  - apply bytes_hex_shape.
  - intros b. cbn. by rewrite hex_bytes_roundtrip.
  - apply pct_roundtrip.
  - apply pct_shape.
Qed.

Definition key (n : N) : @SecretKey toy_api := n.
Definition secret : bytes := replicate 32 x01.
Definition relays : list string := ["wss://relay.example/a?b=c&d"; "ws://h"].
Definition payload : QrPayload := mkQr (public_key (key 5)) secret relays 1.

Definition with_version (v : string) : string :=
  "nostrpair://" +:+ pk_to_hex (public_key (key 5)) +:+ "?secret=" +:+ hex_encode secret
  +:+ "&relay=" +:+ url_encode "wss://h" +:+ "&v=" +:+ v.

(** Version 2 is refused, but a version beyond 32 bits reads as absent. *)
Example oversized_version_accepted :
  is_ok (decode_qr (with_version "2")) = false ∧
  is_ok (decode_qr (with_version "4294967298")) = true ∧
  is_ok (decode_qr (with_version "two")) = true.
Proof. vm_compute. done. Qed.

Lemma qr_roundtrip_witness : decode_qr (encode_qr payload) = Ok payload.
Proof.
  apply (qr_roundtrip (key 5) secret relays).
  - split; [reflexivity|split; [reflexivity|discriminate]|split; [discriminate|]].
    apply Forall_cons. split; [eexists; split; [reflexivity|]; split; [by left|reflexivity]|].
    apply Forall_cons. split; [eexists; split; [reflexivity|]; split; [by right|reflexivity]|].
    apply Forall_nil_2.
  - apply Z.leb_le. vm_compute. reflexivity.
Defined.

Lemma decode_qr_sound_witness : payload_ok (mkQr (public_key (key 5)) secret ["wss://h"] 1).
Proof.
  apply (decode_qr_sound (with_version "1")). vm_compute. reflexivity.
Defined.

End PairingQrDemo.
