(* ===== verification/Conformance.v ===== *)
(** * The trace conformance checker ([buzz-conformance/src])

    The schema of the traces the relay emits at its accept/reject boundary, the
    per-step transition check and the replay of a whole scenario.  The abstract
    specification is the tenant fence: one request, one community, and no row of
    another community ever returned. *)

From stdpp Require Import base gmap strings list sorting.
From Stdlib Require Import Ascii.
From S2P Require Import Prelude Nostr.

(** ** [lib.rs]: the schema *)

Abbreviation CommunityLabel := Uuid (only parsing).
Abbreviation ChannelLabel := Uuid (only parsing).

Definition SCHEMA_VERSION : N := 1.

Inductive Verdict := Allow | Deny.
Inductive SanitizedReason := Restricted | Invalid | ServerError.

Record AbstractState := mkAbstract {
  resolved_community : CommunityLabel;
  bound_host : string;
  actor : string
}.

Inductive TraceAction :=
| WriteInsert (msg_id : string) (channel : ChannelLabel) (claimed : option CommunityLabel)
| WriteInsertGlobal (msg_id : string) (claimed : option CommunityLabel)
| WriteDuplicate (msg_id : string) (channel : ChannelLabel) (claimed : option CommunityLabel)
| SanitizedError (reason : SanitizedReason)
| AuthCheck (channel : ChannelLabel) (claimed : option CommunityLabel) (verdict : Verdict)
| ReadMessageRows (channel : option ChannelLabel) (row_communities : list CommunityLabel)
| ReadByIdRows (channel : option ChannelLabel) (row_communities : list CommunityLabel)
| ReadHostFeedRows (row_communities : list CommunityLabel)
| ImplBug (bug_kind : string).

Definition action_kind (a : TraceAction) : string :=
  match a with
  | WriteInsert _ _ _ => "write_insert"
  | WriteInsertGlobal _ _ => "write_insert_global"
  | WriteDuplicate _ _ _ => "write_duplicate"
  | SanitizedError _ => "sanitized_error"
  | AuthCheck _ _ _ => "auth_check"
  | ReadMessageRows _ _ => "read_message_rows"
  | ReadByIdRows _ _ => "read_by_id_rows"
  | ReadHostFeedRows _ => "read_host_feed_rows"
  | ImplBug _ => "impl_bug"
  end.

Definition is_critical (a : TraceAction) : bool := true.

Record TraceStep := mkStep {
  schema_version : N;
  action : TraceAction;
  state_after : AbstractState
}.

Definition step_new (a : TraceAction) (st : AbstractState) : TraceStep :=
  mkStep SCHEMA_VERSION a st.

(** ** [transitions.rs] *)

Inductive TransitionError :=
| IllegalTransition (step_index : nat) (detail : string)
| StateMismatch (step_index : nat) (detail : string)
| NonInterference (step_index : nat) (detail : string)
| CoverageBreach (detail : string).

Record ModelState := mkModel {
  m_resolved_community : CommunityLabel;
  m_bound_host : string;
  m_actor : string
}.

Definition bootstrap (first : AbstractState) : ModelState :=
  mkModel (resolved_community first) (bound_host first) (actor first).

(** [{:?}] of labels, strings and string vectors. *)
Class TraceDebug := {
  label_debug : CommunityLabel → string;
  text_debug : string → string;
  texts_debug : list string → string
}.

Section checker.
Context `{TraceDebug}.

Definition check_row_labels (step_index : nat) (model : ModelState)
    (row_communities : list CommunityLabel) : result TransitionError unit :=
  match List.find (λ c, negb (bool_decide (c = m_resolved_community model))) row_communities with
  | Some foreign =>
      Err (NonInterference step_index
        ("row labeled " +:+ label_debug foreign +:+ " returned in observation scoped to "
         +:+ label_debug (m_resolved_community model)
         +:+ " — Inv_NonInterference breach (foreign row leaked through tenant fence)"))
  | None => Ok tt
  end.

Definition check_step (step_index : nat) (model : ModelState) (step : TraceStep) :
    result TransitionError unit :=
  let after := state_after step in
  if negb (bool_decide (resolved_community after = m_resolved_community model)) then
    Err (StateMismatch step_index
      ("resolved_community changed mid-request: bootstrap="
       +:+ label_debug (m_resolved_community model) +:+ ", step="
       +:+ label_debug (resolved_community after)))
  else if negb (bool_decide (bound_host after = m_bound_host model)) then
    Err (StateMismatch step_index
      ("bound_host changed mid-request: bootstrap=" +:+ text_debug (m_bound_host model)
       +:+ ", step=" +:+ text_debug (bound_host after)))
  else if negb (bool_decide (actor after = m_actor model)) then
    Err (StateMismatch step_index
      ("actor changed mid-request: bootstrap=" +:+ text_debug (m_actor model)
       +:+ ", step=" +:+ text_debug (actor after)))
  else
    match action step with
    | WriteInsert _ _ _ | WriteInsertGlobal _ _ | WriteDuplicate _ _ _ => Ok tt
    | SanitizedError reason =>
        match reason with Restricted | Invalid | ServerError => Ok tt end
    | AuthCheck _ claimed verdict =>
        match verdict, claimed with
        | Allow, Some c =>
            if negb (bool_decide (c = m_resolved_community model)) then
              Err (IllegalTransition step_index
                ("AuthCheck verdict=Allow with claimed_community=" +:+ label_debug c
                 +:+ " != resolved=" +:+ label_debug (m_resolved_community model)
                 +:+ " — M2/M8 (claim or host driving verdict) bite"))
            else Ok tt
        | _, _ => Ok tt
        end
    | ReadMessageRows _ rows | ReadByIdRows _ rows => check_row_labels step_index model rows
    | ReadHostFeedRows rows => check_row_labels step_index model rows
    | ImplBug kind =>
        Err (CoverageBreach ("ImplBug action emitted by Drop guard: kind=" +:+ text_debug kind))
    end.

Definition action_channel (a : TraceAction) : option ChannelLabel :=
  match a with
  | WriteInsert _ ch _ | WriteDuplicate _ ch _ | AuthCheck ch _ _ => Some ch
  | ReadMessageRows ch _ | ReadByIdRows ch _ => ch
  | _ => None
  end.

(** ** [checker.rs] *)

Record Scenario := mkScenario {
  trace : list TraceStep;
  required_critical_actions : gset string
}.

Definition unstructured (t : list TraceStep) : Scenario := mkScenario t ∅.

Definition require_action (k : string) (sc : Scenario) : Scenario :=
  mkScenario (trace sc) ({[k]} ∪ required_critical_actions sc).

Definition version_error (i : nat) (v : N) : TransitionError :=
  IllegalTransition i ("trace schema_version=" +:+ num_to_string v
                       +:+ " but checker schema_version=" +:+ num_to_string SCHEMA_VERSION).

(** The [for (i, step) in trace.iter().enumerate()] loop from index [i]. *)
Fixpoint check_steps (i : nat) (model : ModelState) (steps : list TraceStep) :
    result TransitionError unit :=
  match steps with
  | [] => Ok tt
  | step :: rest =>
      if negb (schema_version step =? SCHEMA_VERSION)%N
      then Err (version_error i (schema_version step))
      else let? _ := check_step i model step in check_steps (S i) model rest
  end.

(** The required kinds that were never seen, sorted. *)
Definition missing_actions (sc : Scenario) : list string :=
  let seen : gset string := list_to_set ((λ s, action_kind (action s)) <$> trace sc) in
  sort_by str_leb (elements (filter (λ k, k ∉ seen) (required_critical_actions sc))).

Definition check_trace (sc : Scenario) : result TransitionError unit :=
  match trace sc with
  | [] =>
      Err (CoverageBreach ("trace is empty — seam reached without emitting any action; "
                           +:+ "this is the no-trace coverage breach"))
  | first :: _ =>
      if negb (schema_version first =? SCHEMA_VERSION)%N
      then Err (version_error 0 (schema_version first))
      else
        let model := bootstrap (state_after first) in
        let? _ := check_steps 0 model (trace sc) in
        match missing_actions sc with
        | [] => Ok tt
        | sorted =>
            Err (CoverageBreach ("scenario required actions never emitted: " +:+ texts_debug sorted))
        end
  end.

(** ** Specification *)

(** The communities an observation reveals. *)
Definition labels (a : TraceAction) : list CommunityLabel :=
  match a with
  | ReadMessageRows _ rows | ReadByIdRows _ rows | ReadHostFeedRows rows => rows
  | AuthCheck _ (Some c) Allow => [c]
  | _ => []
  end.

(** A step of a request whose context is [m]: the schema, the same tenant, host
    and actor, no row and no granted claim of another community, and no exit
    from the seam without an action. *)
Record step_ok (m : AbstractState) (step : TraceStep) : Prop := {
  st_version : schema_version step = SCHEMA_VERSION;
  st_state : state_after step = m;
  st_labels : Forall (λ c, c = resolved_community m) (labels (action step));
  st_covered : ∀ k, action step ≠ ImplBug k
}.

Definition conforms (sc : Scenario) : Prop :=
  (∃ m, trace sc ≠ [] ∧ Forall (step_ok m) (trace sc)) ∧
  ∀ k, k ∈ required_critical_actions sc → ∃ step, step ∈ trace sc ∧ action_kind (action step) = k.

(** The step an error points at. *)
Definition error_index (e : TransitionError) : option nat :=
  match e with
  | IllegalTransition i _ | StateMismatch i _ | NonInterference i _ => Some i
  | CoverageBreach _ => None
  end.

(** ** Lemmas *)

Lemma check_row_labels_Ok i m rows :
  check_row_labels i (bootstrap m) rows = Ok tt ↔ Forall (λ c, c = resolved_community m) rows.
Proof.
  unfold check_row_labels. rewrite Forall_forall. destruct (List.find _ rows) as [c|] eqn:E.
  - apply find_some in E as [Hin Hc]. breflect. split; [done|]. intros Hall. exfalso.
    by apply Hc, Hall, list_elem_of_In.
  - split; [|done]. intros _ c Hin%list_elem_of_In. eapply find_none in E; [|exact Hin].
    simpl in E. by breflect.
Qed.

Lemma abstract_eq (a m : AbstractState) :
  a = m ↔ resolved_community a = resolved_community m ∧ bound_host a = bound_host m ∧ actor a = actor m.
Proof. destruct a, m; simpl. naive_solver. Qed.

Lemma check_step_Ok i m step :
  check_step i (bootstrap m) step = Ok tt ↔
  state_after step = m ∧ Forall (λ c, c = resolved_community m) (labels (action step)) ∧
  ∀ k, action step ≠ ImplBug k.
Proof.
  rewrite abstract_eq. unfold check_step. simpl.
  destruct (decide (resolved_community (state_after step) = resolved_community m)) as [E1|E1];
    [rewrite bool_decide_eq_true_2 by done|rewrite bool_decide_eq_false_2 by done]; simpl; [|naive_solver].
  destruct (decide (bound_host (state_after step) = bound_host m)) as [E2|E2];
    [rewrite bool_decide_eq_true_2 by done|rewrite bool_decide_eq_false_2 by done]; simpl; [|naive_solver].
  destruct (decide (actor (state_after step) = actor m)) as [E3|E3];
    [rewrite bool_decide_eq_true_2 by done|rewrite bool_decide_eq_false_2 by done]; simpl; [|naive_solver].
  assert (∀ P : Prop, P → ((resolved_community (state_after step) = resolved_community m ∧
    bound_host (state_after step) = bound_host m ∧ actor (state_after step) = actor m) ∧ P)) as Hst
    by auto.
  destruct (action step) as [| | |[]|? [c|] []|? rows|? rows|rows|k]; simpl;
    rewrite ?check_row_labels_Ok;
    try (split; [|done]; intros _; apply Hst; split; [constructor|done]).
  - destruct (decide (c = resolved_community m)).
    + rewrite bool_decide_eq_true_2 by done. split; [|done]. intros _. apply Hst. split; [by constructor|done].
    + rewrite bool_decide_eq_false_2 by done. split; [done|]. intros (_ & Hall & _).
      by inversion_clear Hall.
  - split; [|by intros (_ & ? & _)]. intros ?. by apply Hst.
  - split; [|by intros (_ & ? & _)]. intros ?. by apply Hst.
  - split; [|by intros (_ & ? & _)]. intros ?. by apply Hst.
  - split; [done|]. intros (_ & _ & Hk). by destruct (Hk k).
Qed.

Lemma check_steps_Ok i m steps :
  check_steps i (bootstrap m) steps = Ok tt ↔ Forall (step_ok m) steps.
Proof.
  revert i. induction steps as [|s steps IH]; intros i; simpl; [done|]. rewrite Forall_cons.
  assert (step_ok m s ↔ schema_version s = SCHEMA_VERSION ∧ check_step i (bootstrap m) s = Ok tt) as ->.
  { rewrite check_step_Ok. split; [intros []; done|]. intros (? & ? & ? & ?). by split. }
  destruct (N.eqb_spec (schema_version s) SCHEMA_VERSION); simpl; [|naive_solver].
  destruct (check_step i (bootstrap m) s) as [[]|]; [|naive_solver]. rewrite IH. naive_solver.
Qed.

Lemma missing_actions_nil sc :
  missing_actions sc = [] ↔
  ∀ k, k ∈ required_critical_actions sc → ∃ step, step ∈ trace sc ∧ action_kind (action step) = k.
Proof.
  unfold missing_actions. rewrite <-Permutation_nil_r. rewrite sort_by_perm, Permutation_nil_r.
  rewrite elements_empty_iff. split.
  - intros He k Hk. destruct (decide (k ∈ (list_to_set ((λ s, action_kind (action s)) <$> trace sc) : gset string)))
      as [Hin|Hin].
    + apply elem_of_list_to_set, list_elem_of_fmap in Hin as (s & -> & Hs). by exists s.
    + exfalso. apply (not_elem_of_empty (C := gset string) k). rewrite <-He.
      by apply elem_of_filter.
  - intros Hall. apply elem_of_equiv_empty. intros k [Hk Hr]%elem_of_filter. apply Hk.
    destruct (Hall _ Hr) as (s & Hs & <-). apply elem_of_list_to_set, list_elem_of_fmap. by exists s.
Qed.

Lemma check_trace_Ok sc : check_trace sc = Ok tt ↔ conforms sc.
Proof.
  unfold check_trace, conforms. destruct (trace sc) as [|first rest] eqn:E.
  { split; [done|]. by intros [(m & ? & _) _]. }
  destruct (N.eqb_spec (schema_version first) SCHEMA_VERSION) as [Hv|Hv]; simpl negb; cbv iota.
  2:{ split; [done|]. intros [(m & _ & Hall) _]. apply Forall_cons in Hall as [[] _]. done. }
  destruct (check_steps 0 (bootstrap (state_after first)) (first :: rest)) as [[]|err] eqn:Es.
  - apply check_steps_Ok in Es. pose proof (missing_actions_nil sc) as Hm. rewrite E in Hm.
    rewrite <-Hm. destruct (missing_actions sc); [|split; [done|by intros [_ ?]]].
    split; [|done]. intros _. split; [|done]. by exists (state_after first).
  - split; [done|]. intros [(m & _ & Hall) _].
    assert (state_after first = m) as <- by (by apply Forall_cons in Hall as [[] _]).
    apply (check_steps_Ok 0) in Hall. congruence.
Qed.

(** The first step that breaks a rule is the one reported. *)
Lemma check_steps_first i m steps e :
  check_steps i (bootstrap m) steps = Err e →
  ∃ pre s post, steps = pre ++ s :: post ∧ Forall (step_ok m) pre ∧ ¬ step_ok m s ∧
    (error_index e = Some (i + length pre) ∨ error_index e = None ∧ ∃ k, action s = ImplBug k).
Proof.
  revert i. induction steps as [|s steps IH]; intros i; simpl; [done|].
  destruct (N.eqb_spec (schema_version s) SCHEMA_VERSION) as [Hv|Hv]; simpl negb; cbv iota.
  2:{ intros [= <-]. exists [], s, steps. split; [done|]. split; [constructor|].
      split; [by intros []|]. left. simpl. f_equal. lia. }
  destruct (check_step i (bootstrap m) s) as [[]|err] eqn:Es.
  - intros (pre & x & post & -> & Hpre & Hx & Hi)%IH. exists (s :: pre), x, post.
    split; [done|]. split; [|split; [done|]].
    + constructor; [|done]. apply check_step_Ok in Es as (? & ? & ?). by split.
    + destruct Hi as [->|Hi]; [left; f_equal; simpl; lia|by right].
  - intros [= <-]. exists [], s, steps. split; [done|]. split; [constructor|]. split.
    + intros [_ H1 H2 H3]. assert (check_step i (bootstrap m) s = Ok tt) by (by apply check_step_Ok).
      congruence.
    + rewrite Nat.add_0_r. revert Es. unfold check_step, check_row_labels.
      repeat case_match; intros; simplify_eq/=; eauto.
Qed.

(** ** Properties *)

(** the checker decides conformance: it accepts a scenario exactly when the
    trace is not empty, every step has the schema version, the context of the
    first step and only labels of its community, no seam was left without an
    action, and every required action occurs. *)
Theorem check_trace_decides sc : check_trace sc = Ok tt ↔ conforms sc.
Proof. apply check_trace_Ok. Qed.

(** non-interference: in an accepted trace no read ever returns a row of a
    community other than the one the server resolved, and no granted
    authorization rests on a foreign claim. *)
Theorem accepted_trace_non_interference sc step c :
  check_trace sc = Ok tt → step ∈ trace sc → c ∈ labels (action step) →
  c = resolved_community (state_after step).
Proof.
  intros [(m & _ & Hall) _]%check_trace_Ok Hin Hc.
  rewrite Forall_forall in Hall. destruct (Hall _ Hin) as [_ <- Hl _].
  rewrite Forall_forall in Hl. by apply Hl.
Qed.

(** a rejection that names a step names the first bad one: every step before
    it satisfies the rules of the request and that step does not. *)
Theorem rejection_is_first_violation sc e i :
  check_trace sc = Err e → error_index e = Some i →
  ∃ m pre s post, trace sc = pre ++ s :: post ∧ length pre = i ∧
    Forall (step_ok m) pre ∧ ¬ step_ok m s.
Proof.
  unfold check_trace. destruct (trace sc) as [|first rest] eqn:E; [by intros [= <-]|].
  destruct (N.eqb_spec (schema_version first) SCHEMA_VERSION) as [Hv|Hv]; simpl negb; cbv iota.
  2:{ intros [= <-] [= <-]. exists (state_after first), [], first, rest.
      split; [done|]. split; [done|]. split; [constructor|by intros []]. }
  destruct (check_steps 0 _ (first :: rest)) as [[]|err] eqn:Es.
  - case_match; [done|]. by intros [= <-].
  - intros [= <-] Hi. destruct (check_steps_first _ _ _ _ Es) as (pre & s & post & -> & Hp & Hs & Hx).
    exists (state_after first), pre, s, post. split; [done|]. split; [|done].
    destruct Hx as [Hx|[Hx _]]; rewrite Hx in Hi; by simplify_eq.
Qed.


End checker.

(** ** Concrete runs *)

Module ConformanceDemo.

#[local] Instance demo_debug : TraceDebug := {|
  label_debug := λ c, num_to_string c;
  text_debug := id;
  texts_debug := λ l, join_with "," l
|}.

Definition ctx (c : N) : AbstractState := mkAbstract c "h_local" "a_alice".
Definition good : Scenario :=
  mkScenario
    [step_new (AuthCheck 10 (Some 1%N) Allow) (ctx 1);
     step_new (WriteInsert "m1" 10 (Some 2%N)) (ctx 1);
     step_new (ReadMessageRows (Some 10%N) [1%N; 1%N]) (ctx 1)]
    {["auth_check"; "write_insert"]}.
Definition leaking : Scenario :=
  unstructured
    [step_new (SanitizedError Invalid) (ctx 1); step_new (ReadHostFeedRows [1%N; 2%N]) (ctx 1)].

Example demo_verdicts :
  is_ok (check_trace good) = true ∧
  (err (check_trace leaking) ≫= error_index) = Some 1 ∧
  is_ok (check_trace (require_action "read_by_id_rows" good)) = false.
Proof. vm_compute. done. Qed.

Lemma accepted_trace_non_interference_witness :
  (1%N : Uuid) = resolved_community (ctx 1).
Proof.
  apply (accepted_trace_non_interference good
           (step_new (ReadMessageRows (Some 10%N) [1%N; 1%N]) (ctx 1))).
  - vm_compute. reflexivity.
  - right. right. left.
  - left.
Defined.

Definition leak_error : TransitionError :=
  match check_trace leaking with Err e => e | Ok _ => CoverageBreach "" end.

Lemma rejection_is_first_violation_witness :
  ∃ m pre s post, trace leaking = pre ++ s :: post ∧ length pre = 1 ∧
    Forall (step_ok m) pre ∧ ¬ step_ok m s.
Proof.
  apply (rejection_is_first_violation leaking leak_error).
  - vm_compute. reflexivity.
  - vm_compute. reflexivity.
Defined.

End ConformanceDemo.
