(* ===== verification/GitPolicy.v ===== *)
(** * The push policy endpoint ([buzz-relay/src/api/git/{policy,binding}.rs])

    The pre-receive hook posts the ref updates of a push; [hook_policy_check]
    decides.  The HMAC, hex and UUID crates are the interface [PolicyApi], the
    database the record [PolicyDb]; every call to it can fail. *)

From stdpp Require Import base gmap strings list.
From Stdlib Require Import Ascii.
From Stdlib.Strings Require Import Byte.
From S2P Require Import Prelude Nostr GitPerms PairingCrypto.

Definition MAX_CALLBACK_AGE_SECS : N := 30.
Definition GIT_NO_CHANNEL_BINDING_BODY : string :=
  "no_channel_binding: repository has no channel binding".

Record HookRefUpdate := mkHookRef {
  h_old_oid : string;
  h_new_oid : string;
  h_ref_name : string;
  h_is_ancestor : bool
}.

Record HookCallbackRequest := mkHookReq {
  repo_id : string;
  repo_owner : string;
  community_id : string;
  pusher_pubkey : string;
  ref_updates : list HookRefUpdate;
  timestamp : N;
  signature : string
}.

(** [DenialResponse] and [From<Denial>]. *)
Record DenialResponse := mkDenialResponse { dr_ref_name : string; dr_reason : string }.

Definition denial_response (d : Denial) : DenialResponse :=
  mkDenialResponse (denied_ref d) (reason d).

(** The responses of the endpoint: 403 with a text, 403 with the denials, 200. *)
Inductive Response :=
| Forbidden (body : string)
| ForbiddenDenials (denials : list DenialResponse)
| Allowed.

Inductive RepoBinding := NotBound | Bound (id : Uuid) | Broken.

Class PolicyApi := {
  hmac_sha256 : string → string → bytes;
  hex_to_bytes : string → option bytes;
  bytes_to_hex : bytes → string;
  uuid_parse_str : string → option Uuid;
  pubkey_to_hex : PublicKey → string
}.

(** What the proofs need of those crates: hex round-trips, and no text form of a
    UUID contains a vertical bar. *)
Class PolicyLaws (api : PolicyApi) := {
  policy_hex_roundtrip : ∀ b, hex_to_bytes (bytes_to_hex b) = Some b;
  uuid_no_bar : ∀ s u, uuid_parse_str s = Some u → str_contains "|" s = false
}.

(** The queries of the endpoint, each scoped by the community.  [get_channel]
    returns the [archived_at] column. *)
Record PolicyDb := mkDb {
  query_repo : Uuid → bytes → string → result string (list NostrEvent);
  get_channel : Uuid → Uuid → result string (option Z);
  is_agent_owner : Uuid → bytes → bytes → result string bool;
  get_member_role : Uuid → Uuid → bytes → result string (option string)
}.

(** ** Character classes *)

Definition lower_hex64 (s : string) : bool :=
  bool_decide (String.length s = 64)
  && str_all (λ c, is_ascii_hexdigit c && negb (is_ascii_uppercase c)) s.

Definition oid_ok (s : string) : bool :=
  bool_decide (String.length s = 40) && str_all is_ascii_hexdigit s.

(** [contains("..")]. *)
Fixpoint has_dotdot (s : string) : bool :=
  match s with
  | String "." ((String "." _) as s') => true
  | String _ s' => has_dotdot s'
  | EmptyString => false
  end.

Definition ref_name_ok (s : string) : bool :=
  negb (bool_decide (s = "")) && (String.length s <=? 256)%nat && starts_with "refs/" s
  && negb (has_dotdot s)
  && str_all (λ c, negb ((ascii_code c <=? 32)%N || (ascii_code c =? 127)%N)) s.

(** The validation loop over the ref updates: the first error, if any. *)
Fixpoint check_refs (rs : list HookRefUpdate) : option string :=
  match rs with
  | [] => None
  | r :: rs' =>
      if negb (oid_ok (h_old_oid r)) then Some "invalid old_oid"
      else if negb (oid_ok (h_new_oid r)) then Some "invalid new_oid"
      else if negb (ref_name_ok (h_ref_name r)) then Some "invalid ref_name"
      else check_refs rs'
  end.

Section policy.
Context `{PolicyApi}.

(** ** HMAC *)

Definition ref_payload (r : HookRefUpdate) : string :=
  h_old_oid r +:+ h_new_oid r +:+ num_to_string (N.of_nat (String.length (h_ref_name r)))
  +:+ ":" +:+ h_ref_name r +:+ (if h_is_ancestor r then "1" else "0").

Definition sort_refs (rs : list HookRefUpdate) : list HookRefUpdate :=
  sort_by (λ a b, str_leb (h_ref_name a) (h_ref_name b)) rs.

(** What the successive [mac.update] calls feed. *)
Definition canonical_payload (req : HookCallbackRequest) : string :=
  num_to_string (N.of_nat (String.length (repo_id req))) +:+ ":" +:+ repo_id req
  +:+ "|" +:+ repo_owner req +:+ "|" +:+ community_id req +:+ "|" +:+ pusher_pubkey req
  +:+ "|" +:+ foldr (λ r acc, ref_payload r +:+ acc) "" (sort_refs (ref_updates req))
  +:+ "|" +:+ num_to_string (timestamp req).

Definition compute_hmac (secret : string) (req : HookCallbackRequest) : bytes :=
  hmac_sha256 secret (canonical_payload req).

Definition verify_hmac (secret : string) (req : HookCallbackRequest) : bool :=
  let expected := compute_hmac secret req in
  match hex_to_bytes (signature req) with
  | Some provided => bool_decide (expected = provided)
  | None => false
  end.

Definition generate_hook_hmac (secret repo_id repo_owner community_id pusher_pubkey : string)
    (ref_updates : list HookRefUpdate) (timestamp : N) : string :=
  let req := mkHookReq repo_id repo_owner community_id pusher_pubkey ref_updates timestamp "" in
  bytes_to_hex (compute_hmac secret req).

(** ** [binding.rs] *)

Definition resolve_repo_binding (tags : list Tag) : RepoBinding :=
  match List.find (λ t, bool_decide (t !! 0 = Some "buzz-channel")) tags with
  | None => NotBound
  | Some first =>
      match first !! 1 with
      | Some v => match uuid_parse_str v with Some id => Bound id | None => Broken end
      | None => Broken
      end
  end.

(** ** The endpoint *)

(** Step 1: structural checks, yielding the community. *)
Definition validate_request (req : HookCallbackRequest) : result Response Uuid :=
  if bool_decide (repo_id req = "") || negb (String.length (repo_id req) <=? 64)%nat
  then Err (Forbidden "invalid repo_id")
  else if negb (lower_hex64 (repo_owner req)) then Err (Forbidden "invalid repo_owner")
  else if negb (lower_hex64 (pusher_pubkey req)) then Err (Forbidden "invalid pusher_pubkey")
  else match uuid_parse_str (community_id req) with
       | None => Err (Forbidden "invalid community_id")
       | Some community =>
           if bool_decide (ref_updates req = []) || negb (length (ref_updates req) <=? 500)%nat
           then Err (Forbidden "invalid ref_updates count")
           else match check_refs (ref_updates req) with
                | Some e => Err (Forbidden e)
                | None => Ok community
                end
       end.

(** [hex::decode(s)] with a length of 32. *)
Definition decode_key (s body : string) : result Response bytes :=
  match hex_to_bytes s with
  | Some b => if decide (length b = 32) then Ok b else Err (Forbidden body)
  | None => Err (Forbidden body)
  end.

Definition check_freshness (now : N) (req : HookCallbackRequest) : result Response unit :=
  if (MAX_CALLBACK_AGE_SECS <? now - timestamp req)%N then Err (Forbidden "callback expired")
  else if (5 <? timestamp req - now)%N then Err (Forbidden "callback timestamp invalid")
  else Ok tt.

(** Step 4: [events.pop()] takes the last row. *)
Definition find_repo (db : PolicyDb) (community : Uuid) (owner : bytes) (d_tag : string) :
    result Response NostrEvent :=
  match query_repo db community owner d_tag with
  | Ok events =>
      match last events with
      | Some event => Ok event
      | None => Err (Forbidden "repository not found")
      end
  | Err _ => Err (Forbidden "internal error")
  end.

(** Step 6: the bound channel, archived channels refused. *)
Definition channel_gate (db : PolicyDb) (community : Uuid) (repo_event : NostrEvent) :
    result Response (option Uuid) :=
  match resolve_repo_binding (ev_tags repo_event) with
  | Broken => Err (Forbidden "invalid channel binding")
  | NotBound => Ok None
  | Bound ch =>
      match get_channel db community ch with
      | Ok (Some _) => Err (Forbidden "channel is archived (read-only)")
      | Err _ => Err (Forbidden "internal error")
      | Ok None => Ok (Some ch)
      end
  end.

(** Step 7: the pusher's role. *)
Definition resolve_role (db : PolicyDb) (community : Uuid) (req : HookCallbackRequest)
    (repo_event : NostrEvent) (channel : option Uuid) (owner pusher : bytes) :
    result Response MemberRole :=
  let is_repo_owner := bool_decide (pusher_pubkey req = pubkey_to_hex (ev_pubkey repo_event)) in
  let? is_managed_agent_owner :=
    if is_repo_owner then Ok false
    else map_err (λ _, Forbidden "internal error") (is_agent_owner db community owner pusher) in
  if is_repo_owner || is_managed_agent_owner then Ok Owner
  else match channel with
       | None => Err (Forbidden GIT_NO_CHANNEL_BINDING_BODY)
       | Some ch =>
           match get_member_role db community ch pusher with
           | Ok (Some role_str) =>
               map_err (λ _, Forbidden "internal error") (member_role_from_str role_str)
           | Ok None => Err (Forbidden "not a channel member")
           | Err _ => Err (Forbidden "internal error")
           end
       end.

(** Step 8. *)
Definition git_role (role : MemberRole) : MemberRole :=
  match role with Bot => Member | other => other end.

Definition to_ref_update (r : HookRefUpdate) : RefUpdate :=
  mkRefUpdate (h_ref_name r) (classify (h_old_oid r) (h_new_oid r) (h_is_ancestor r))
    (h_old_oid r) (h_new_oid r).

(** Steps 1 to 8: the rules and the role the push is judged by, or the refusal. *)
Definition policy_inputs (secret : string) (db : PolicyDb) (now : N)
    (req : HookCallbackRequest) : result Response (list ProtectionRule * MemberRole) :=
  let? community := validate_request req in
  let? _ := if verify_hmac secret req then Ok tt
            else Err (Forbidden "signature verification failed") in
  let? _ := check_freshness now req in
  let? owner := decode_key (repo_owner req) "invalid repo owner" in
  let? repo_event := find_repo db community owner (repo_id req) in
  let? parsed := map_err (λ _, Forbidden "malformed protection rules")
                   (parse_protection_tags (ev_tags repo_event)) in
  let? channel := channel_gate db community repo_event in
  let? pusher := decode_key (pusher_pubkey req) "invalid pusher pubkey" in
  let? role := resolve_role db community req repo_event channel owner pusher in
  Ok (rules parsed, git_role role).

(** [None] stands for a panic of the rule evaluation. *)
Definition hook_policy_check (secret : string) (db : PolicyDb) (now : N)
    (req : HookCallbackRequest) : option Response :=
  match policy_inputs secret db now req with
  | Err response => Some response
  | Ok (rs, role) =>
      verdict ← evaluate_push (to_ref_update <$> ref_updates req) role rs;
      Some (match verdict with
            | Ok _ => Allowed
            | Err denials => ForbiddenDenials (denial_response <$> denials)
            end)
  end.

(** ** Specification *)

(** The structural conditions on a request. *)
Definition ref_ok (r : HookRefUpdate) : Prop :=
  oid_ok (h_old_oid r) = true ∧ oid_ok (h_new_oid r) = true ∧ ref_name_ok (h_ref_name r) = true.

Definition request_ok (req : HookCallbackRequest) (community : Uuid) : Prop :=
  repo_id req ≠ "" ∧ String.length (repo_id req) ≤ 64 ∧
  lower_hex64 (repo_owner req) = true ∧ lower_hex64 (pusher_pubkey req) = true ∧
  uuid_parse_str (community_id req) = Some community ∧
  ref_updates req ≠ [] ∧ length (ref_updates req) ≤ 500 ∧ Forall ref_ok (ref_updates req).

(** At most 30 seconds old and at most 5 seconds ahead. *)
Definition fresh (now : N) (req : HookCallbackRequest) : Prop :=
  (now ≤ timestamp req + MAX_CALLBACK_AGE_SECS)%N ∧ (timestamp req ≤ now + 5)%N.

(** How a pusher obtains a role in the repository. *)
Inductive has_role (db : PolicyDb) (community : Uuid) (req : HookCallbackRequest)
    (repo_event : NostrEvent) (channel : option Uuid) (owner pusher : bytes) : MemberRole → Prop :=
| role_of_owner :
    pusher_pubkey req = pubkey_to_hex (ev_pubkey repo_event) →
    has_role db community req repo_event channel owner pusher Owner
| role_of_agent_owner :
    pusher_pubkey req ≠ pubkey_to_hex (ev_pubkey repo_event) →
    is_agent_owner db community owner pusher = Ok true →
    has_role db community req repo_event channel owner pusher Owner
| role_of_member ch role_str role :
    pusher_pubkey req ≠ pubkey_to_hex (ev_pubkey repo_event) →
    is_agent_owner db community owner pusher = Ok false →
    channel = Some ch → get_member_role db community ch pusher = Ok (Some role_str) →
    member_role_from_str role_str = Ok role →
    has_role db community req repo_event channel owner pusher role.

(** The channel a push is gated by: none, or a bound one that is not archived. *)
Definition open_channel (db : PolicyDb) (community : Uuid) (repo_event : NostrEvent)
    (channel : option Uuid) : Prop :=
  match resolve_repo_binding (ev_tags repo_event) with
  | Broken => False
  | NotBound => channel = None
  | Bound ch => channel = Some ch ∧ get_channel db community ch = Ok None
  end.

(** Everything an accepted push rests on. *)
Definition push_authorized (secret : string) (db : PolicyDb) (now : N)
    (req : HookCallbackRequest) : Prop :=
  ∃ community owner pusher events repo_event parsed channel role,
    request_ok req community ∧ verify_hmac secret req = true ∧ fresh now req ∧
    hex_to_bytes (repo_owner req) = Some owner ∧ length owner = 32 ∧
    hex_to_bytes (pusher_pubkey req) = Some pusher ∧ length pusher = 32 ∧
    query_repo db community owner (repo_id req) = Ok events ∧ last events = Some repo_event ∧
    parse_protection_tags (ev_tags repo_event) = Ok parsed ∧
    open_channel db community repo_event channel ∧
    has_role db community req repo_event channel owner pusher role ∧
    ∀ r, r ∈ ref_updates req → push_allowed (to_ref_update r) (git_role role) (rules parsed).

(** ** Lemmas: the stages *)

Lemma check_refs_None rs : check_refs rs = None ↔ Forall ref_ok rs.
Proof.
  induction rs as [|r rs IH]; simpl; [done|]. rewrite Forall_cons, <-IH. unfold ref_ok.
  destruct (oid_ok (h_old_oid r)), (oid_ok (h_new_oid r)), (ref_name_ok (h_ref_name r));
    simpl; naive_solver.
Qed.

Lemma validate_request_Ok req community :
  validate_request req = Ok community ↔ request_ok req community.
Proof.
  unfold validate_request, request_ok.
  destruct (decide (repo_id req = "")) as [E|E];
    [rewrite bool_decide_eq_true_2 by done; naive_solver|rewrite bool_decide_eq_false_2 by done].
  destruct (Nat.leb_spec (String.length (repo_id req)) 64); simpl; [|naive_solver lia].
  destruct (lower_hex64 (repo_owner req)); simpl; [|naive_solver].
  destruct (lower_hex64 (pusher_pubkey req)); simpl; [|naive_solver].
  destruct (uuid_parse_str (community_id req)) as [c|]; [|naive_solver].
  destruct (decide (ref_updates req = [])) as [E'|E'];
    [rewrite bool_decide_eq_true_2 by done; naive_solver|rewrite bool_decide_eq_false_2 by done].
  destruct (Nat.leb_spec (length (ref_updates req)) 500); simpl; [|naive_solver lia].
  rewrite <-check_refs_None. destruct (check_refs (ref_updates req)); naive_solver.
Qed.

Lemma check_freshness_Ok now req : check_freshness now req = Ok tt ↔ fresh now req.
Proof.
  unfold check_freshness, fresh.
  destruct (N.ltb_spec MAX_CALLBACK_AGE_SECS (now - timestamp req)); [split; [done|lia]|].
  destruct (N.ltb_spec 5 (timestamp req - now)); [split; [done|lia]|]. split; [lia|done].
Qed.

Lemma decode_key_Ok s body b :
  decode_key s body = Ok b ↔ hex_to_bytes s = Some b ∧ length b = 32.
Proof. unfold decode_key. destruct (hex_to_bytes s); [|naive_solver]. case_decide; naive_solver. Qed.

Lemma find_repo_Ok db community owner d ev :
  find_repo db community owner d = Ok ev ↔
  ∃ events, query_repo db community owner d = Ok events ∧ last events = Some ev.
Proof.
  unfold find_repo. destruct (query_repo db community owner d) as [events|]; [|naive_solver].
  destruct (last events) eqn:E; naive_solver.
Qed.

Lemma channel_gate_Ok db community ev channel :
  channel_gate db community ev = Ok channel ↔ open_channel db community ev channel.
Proof.
  unfold channel_gate, open_channel. destruct (resolve_repo_binding _) as [|ch|]; [naive_solver| |done].
  destruct (get_channel db community ch) as [[]|]; naive_solver.
Qed.

Lemma resolve_role_Ok db community req ev channel owner pusher role :
  resolve_role db community req ev channel owner pusher = Ok role ↔
  has_role db community req ev channel owner pusher role.
Proof.
  unfold resolve_role.
  destruct (decide (pusher_pubkey req = pubkey_to_hex (ev_pubkey ev))) as [E|E].
  { rewrite bool_decide_eq_true_2 by done. simpl. split; [intros [= <-]; by constructor|].
    intros []; congruence. }
  rewrite bool_decide_eq_false_2 by done. simpl.
  destruct (is_agent_owner db community owner pusher) as [[]|] eqn:Ea; simpl.
  - split; [intros [= <-]; by apply role_of_agent_owner|intros []; congruence].
  - split.
    + destruct channel as [ch|]; [|done].
      destruct (get_member_role db community ch pusher) as [[s|]|] eqn:Eg; try done.
      intros Hr%map_err_Ok. by eapply role_of_member.
    + intros [|? Ht|ch s r _ _ -> Hg Hr]; [done|congruence|]. rewrite Hg, Hr. done.
  - split; [done|]. intros []; congruence.
Qed.

Lemma hook_evaluates rs role us :
  Forall (λ r, segs_wf (segments (pattern r))) rs →
  ∃ verdict, evaluate_push us role rs = Some verdict ∧
    (verdict = Ok tt ↔ ∀ u, u ∈ us → push_allowed u role rs).
Proof.
  intros Hwf. destruct (push_denials_spec us role rs Hwf) as (ds & E & _ & Hnil).
  unfold evaluate_push. rewrite E. simpl. eexists. split; [done|].
  rewrite <-Hnil. destruct ds; naive_solver.
Qed.

Lemma parsed_rules_wf tags out :
  parse_protection_tags tags = Ok out → Forall (λ r, segs_wf (segments (pattern r))) (rules out).
Proof.
  intros Hp. apply parse_protection_loop_sound in Hp as [Hok _]; [by apply rules_ok_wf|constructor|].
  unfold MAX_PROTECTION_RULES. simpl. lia.
Qed.


(** No stage refuses with a success. *)
Lemma policy_inputs_Err secret db now req r :
  policy_inputs secret db now req = Err r → ∃ body, r = Forbidden body.
Proof.
  unfold policy_inputs, validate_request, check_freshness, decode_key, find_repo, channel_gate,
    resolve_role, map_err.
  intros Hi. repeat (case_match; simplify_eq/=); eauto.
Qed.

Lemma policy_inputs_Ok secret db now req rs role :
  policy_inputs secret db now req = Ok (rs, role) ↔
  ∃ community owner pusher events repo_event parsed channel r,
    request_ok req community ∧ verify_hmac secret req = true ∧ fresh now req ∧
    hex_to_bytes (repo_owner req) = Some owner ∧ length owner = 32 ∧
    hex_to_bytes (pusher_pubkey req) = Some pusher ∧ length pusher = 32 ∧
    query_repo db community owner (repo_id req) = Ok events ∧ last events = Some repo_event ∧
    parse_protection_tags (ev_tags repo_event) = Ok parsed ∧
    open_channel db community repo_event channel ∧
    has_role db community req repo_event channel owner pusher r ∧
    rs = rules parsed ∧ role = git_role r.
Proof.
  unfold policy_inputs. split.
  - intros Hi.
    destruct (validate_request req) as [community|] eqn:E1; [|done]. apply validate_request_Ok in E1.
    destruct (verify_hmac secret req); [|done].
    destruct (check_freshness now req) as [[]|] eqn:E2; [|done]. apply check_freshness_Ok in E2.
    destruct (decode_key (repo_owner req) _) as [owner|] eqn:E3; [|done].
    apply decode_key_Ok in E3 as [E3 E3'].
    destruct (find_repo _ _ _ _) as [ev|] eqn:E4; [|done]. apply find_repo_Ok in E4 as (events & E4 & E4').
    destruct (parse_protection_tags (ev_tags ev)) as [parsed|] eqn:E5; [|done]. simpl in Hi.
    destruct (channel_gate _ _ _) as [channel|] eqn:E6; [|done]. apply channel_gate_Ok in E6.
    destruct (decode_key (pusher_pubkey req) _) as [pusher|] eqn:E7; [|done].
    apply decode_key_Ok in E7 as [E7 E7'].
    destruct (resolve_role _ _ _ _ _ _ _) as [r|] eqn:E8; [|done]. apply resolve_role_Ok in E8.
    simplify_eq. exists community, owner, pusher, events, ev, parsed, channel, r. by split_and!.
  - intros (community & owner & pusher & events & ev & parsed & channel & r & E1 & Hv & E2 & E3 & E3'
      & E7 & E7' & E4 & E4' & E5 & E6 & E8 & -> & ->).
    rewrite (proj2 (validate_request_Ok _ _) E1), Hv, (proj2 (check_freshness_Ok _ _) E2).
    rewrite (proj2 (decode_key_Ok _ _ _) (conj E3 E3')).
    rewrite (proj2 (find_repo_Ok _ _ _ _ _)) by eauto. rewrite E5. simpl.
    rewrite (proj2 (channel_gate_Ok _ _ _ _) E6), (proj2 (decode_key_Ok _ _ _) (conj E7 E7')).
    by rewrite (proj2 (resolve_role_Ok _ _ _ _ _ _ _ _) E8).
Qed.

Lemma push_authorized_alt secret db now req :
  push_authorized secret db now req ↔
  ∃ rs role, policy_inputs secret db now req = Ok (rs, role) ∧
    ∀ r, r ∈ ref_updates req → push_allowed (to_ref_update r) role rs.
Proof.
  unfold push_authorized. setoid_rewrite policy_inputs_Ok. split.
  - intros (c & o & p & es & ev & pa & ch & r & Hx). destruct_and! Hx.
    exists (rules pa), (git_role r). split; [|done].
    exists c, o, p, es, ev, pa, ch, r. by split_and!.
  - intros (rs & role & (c & o & p & es & ev & pa & ch & r & Hx) & Hall). destruct_and! Hx.
    subst rs role. exists c, o, p, es, ev, pa, ch, r. by split_and!.
Qed.

Lemma policy_inputs_wf secret db now req rs role :
  policy_inputs secret db now req = Ok (rs, role) →
  Forall (λ r, segs_wf (segments (pattern r))) rs.
Proof.
  intros (c & o & p & es & ev & pa & ch & r & Hx)%policy_inputs_Ok. destruct_and! Hx.
  subst rs. by eapply parsed_rules_wf.
Qed.

(** C15: the endpoint fails closed: it always answers, and it answers 200 exactly
    when the request is well-formed, signed and fresh, the announcement, its rules
    and its channel binding resolve without error, the channel is not archived,
    the pusher has a role, and every ref update is allowed for that role (bots
    counting as members). *)
Theorem hook_policy_fails_closed secret db now req :
  (∃ r, hook_policy_check secret db now req = Some r) ∧
  (hook_policy_check secret db now req = Some Allowed ↔ push_authorized secret db now req).
Proof.
  rewrite push_authorized_alt. unfold hook_policy_check.
  destruct (policy_inputs secret db now req) as [[rs role]|r] eqn:E.
  - destruct (hook_evaluates rs role (to_ref_update <$> ref_updates req)) as (v & -> & Hv);
      [by eapply policy_inputs_wf|].
    simpl. split; [eauto|]. setoid_rewrite list_elem_of_fmap in Hv. split.
    + intros Ha. exists rs, role. split; [done|]. intros r Hr. apply Hv; [|eauto].
      destruct v as [[]|]; [done|simplify_eq].
    + intros (rs' & role' & [= <- <-] & Hall). rewrite (proj2 Hv); [done|].
      intros u (r & -> & Hr). by apply Hall.
  - apply policy_inputs_Err in E as [body ->]. split; [eauto|]. split; [done|].
    by intros (? & ? & ? & _).
Qed.

(** ** The signed payload *)

Lemma append_inj_len (p q r r' : string) :
  String.length p = String.length q → p +:+ r = q +:+ r' → p = q ∧ r = r'.
Proof.
  revert q. induction p as [|a p IH]; intros [|b q] Hl E; [done|done|done|].
  rewrite !append_cons in E. injection E as -> E. injection Hl as Hl.
  destruct (IH q Hl E) as [-> ->]. done.
Qed.

Lemma append_sep_inj c (p q r r' : string) :
  str_contains c p = false → str_contains c q = false →
  p +:+ String c r = q +:+ String c r' → p = q ∧ r = r'.
Proof.
  intros Hp Hq E%(f_equal (split_once c)). rewrite !split_once_app in E by done. by simplify_eq.
Qed.

Lemma num_no_sep c n : is_ascii_digit c = false → str_contains c (num_to_string n) = false.
Proof. intros Hc. by apply (str_all_contains _ _ _ (num_to_string_digits n)). Qed.

(** A length-prefixed field can be read back. *)
Lemma sized_inj (p q r r' : string) :
  (N.of_nat (String.length p) < 10 ^ 20)%N → (N.of_nat (String.length q) < 10 ^ 20)%N →
  num_to_string (N.of_nat (String.length p)) +:+ ":" +:+ p +:+ r =
  num_to_string (N.of_nat (String.length q)) +:+ ":" +:+ q +:+ r' →
  p = q ∧ r = r'.
Proof.
  intros Hp Hq E. change (":" +:+ ?x) with (String ":" x) in E.
  apply append_sep_inj in E as [El E]; try by apply num_no_sep.
  apply num_to_string_inj in El; [|done..]. apply Nat2N.inj in El. by apply append_inj_len.
Qed.

Lemma oid_ok_length s : oid_ok s = true → String.length s = 40.
Proof. unfold oid_ok. intros ?. by breflect. Qed.

Lemma hex_no_bar c : is_ascii_hexdigit c = true → c ≠ "|"%char.
Proof. by intros Hc ->. Qed.

Lemma oid_ok_head s : oid_ok s = true → ∃ c s', s = String c s' ∧ c ≠ "|"%char.
Proof.
  unfold oid_ok. intros ?. breflect. destruct s as [|c s']; simpl in *; [done|]. breflect.
  exists c, s'. split; [done|]. by apply hex_no_bar.
Qed.

Lemma ref_name_short s : ref_name_ok s = true → (N.of_nat (String.length s) < 10 ^ 20)%N.
Proof.
  unfold ref_name_ok. intros ?. breflect.
  match goal with Hl : (_ <=? 256)%nat = true |- _ => apply Nat.leb_le in Hl end. lia.
Qed.

Lemma ref_payload_app r x :
  ref_payload r +:+ x =
  h_old_oid r +:+ h_new_oid r +:+ num_to_string (N.of_nat (String.length (h_ref_name r)))
  +:+ ":" +:+ h_ref_name r +:+ (if h_is_ancestor r then "1" else "0") +:+ x.
Proof. unfold ref_payload. by rewrite !append_assoc. Qed.

Lemma ref_payload_inj r r' x x' :
  ref_ok r → ref_ok r' → ref_payload r +:+ x = ref_payload r' +:+ x' → r = r' ∧ x = x'.
Proof.
  intros (O1 & N1 & R1) (O2 & N2 & R2). rewrite !ref_payload_app. intros E.
  apply append_inj_len in E as [Eo E]; [|by rewrite !oid_ok_length].
  apply append_inj_len in E as [En E]; [|by rewrite !oid_ok_length].
  apply sized_inj in E as [Er E]; [|by apply ref_name_short..].
  destruct r as [o n m b], r' as [o' n' m' b']. simpl in *. subst.
  destruct b, b'; rewrite ?append_cons in E; injection E as E; by subst.
Qed.

Lemma refs_payload_inj rs rs' t t' :
  Forall ref_ok rs → Forall ref_ok rs' →
  foldr (λ r acc, ref_payload r +:+ acc) "" rs +:+ String "|" t =
  foldr (λ r acc, ref_payload r +:+ acc) "" rs' +:+ String "|" t' →
  rs = rs' ∧ t = t'.
Proof.
  intros Hrs. revert rs'.
  assert (∀ r x, ref_ok r → ∃ c y, ref_payload r +:+ x = String c y ∧ c ≠ "|"%char) as Hhead.
  { intros r x (Ho & _ & _). rewrite ref_payload_app.
    destruct (oid_ok_head _ Ho) as (c & s & -> & Hc). rewrite append_cons. eauto. }
  induction Hrs as [|r rs Hr Hrs IH]; intros [|r' rs'] Hrs'; simpl.
  - intros E. split; [done|]. by injection E.
  - apply Forall_cons in Hrs' as [Hr' _]. rewrite append_assoc.
    destruct (Hhead r' (foldr (λ r acc, ref_payload r +:+ acc) "" rs' +:+ String "|" t') Hr')
      as (c & y & -> & Hc). intros E. by injection E.
  - rewrite append_assoc.
    destruct (Hhead r (foldr (λ r acc, ref_payload r +:+ acc) "" rs +:+ String "|" t) Hr)
      as (c & y & -> & Hc). intros E. by injection E.
  - apply Forall_cons in Hrs' as [Hr' Hrs']. rewrite !append_assoc. intros E.
    apply ref_payload_inj in E as [-> E]; [|done..]. by destruct (IH _ Hrs' E) as [-> ->].
Qed.

Lemma lower_hex64_length s : lower_hex64 s = true → String.length s = 64.
Proof. unfold lower_hex64. intros ?. by breflect. Qed.

Lemma sort_refs_ok rs : Forall ref_ok rs → Forall ref_ok (sort_refs rs).
Proof. intros Hrs. unfold sort_refs. by rewrite sort_by_perm. Qed.

(** the signed payload is unambiguous: two well-formed requests with the same
    payload name the same repository, owner, community, pusher and time, and
    carry the same ref updates up to order, so a signature authorizes one push. *)
Theorem canonical_payload_injective `{!PolicyLaws H} req req' community community' :
  request_ok req community → request_ok req' community' →
  (timestamp req < 2 ^ 64)%N → (timestamp req' < 2 ^ 64)%N →
  canonical_payload req = canonical_payload req' →
  repo_id req = repo_id req' ∧ repo_owner req = repo_owner req' ∧
  community_id req = community_id req' ∧ pusher_pubkey req = pusher_pubkey req' ∧
  timestamp req = timestamp req' ∧ ref_updates req ≡ₚ ref_updates req'.
Proof.
  intros (_ & L1 & O1 & P1 & U1 & _ & _ & R1) (_ & L2 & O2 & P2 & U2 & _ & _ & R2) T1 T2 E.
  unfold canonical_payload in E.
  apply sized_inj in E as [Eid E]; [|lia..]. change ("|" +:+ ?x) with (String "|" x) in E.
  injection E as E. apply append_inj_len in E as [Eo E]; [|by rewrite !lower_hex64_length].
  injection E as E. apply append_sep_inj in E as [Ec E]; [|by eapply uuid_no_bar..].
  apply append_inj_len in E as [Ep E]; [|by rewrite !lower_hex64_length]. injection E as E.
  apply refs_payload_inj in E as [Er Et]; [|by apply sort_refs_ok..].
  apply num_to_string_inj in Et; [|lia..]. split_and!; try done.
  rewrite <-(sort_by_perm (λ a b, str_leb (h_ref_name a) (h_ref_name b)) (ref_updates req)).
  rewrite <-(sort_by_perm (λ a b, str_leb (h_ref_name a) (h_ref_name b)) (ref_updates req')).
  unfold sort_refs in Er. by rewrite Er.
Qed.

(** the signature the relay generates for a push is the one the endpoint
    accepts, for exactly the same request. *)
Theorem generated_hmac_verifies `{!PolicyLaws H} secret rid owner community pusher refs ts :
  verify_hmac secret (mkHookReq rid owner community pusher refs ts
    (generate_hook_hmac secret rid owner community pusher refs ts)) = true.
Proof.
  unfold verify_hmac, generate_hook_hmac. simpl. rewrite policy_hex_roundtrip.
  by apply bool_decide_eq_true_2.
Qed.


End policy.

(** ** Concrete runs *)

Module GitPolicyDemo.

(** A keyed function in place of the HMAC, and the hex codec of [ToyCrypto]. *)
#[local] Instance demo_policy : PolicyApi := {|
  hmac_sha256 := λ key msg, String.list_byte_of_string (key +:+ msg);
  hex_to_bytes := ToyCrypto.hex_to_bytes;
  bytes_to_hex := ToyCrypto.bytes_to_hex;
  uuid_parse_str := λ s, if str_contains "|" s then None else ToyCrypto.hex_parse s;
  pubkey_to_hex := ToyCrypto.hex_fixed 64
|}.

#[local] Instance demo_policy_laws : PolicyLaws demo_policy.
Proof.
  split; simpl.
  - apply ToyCrypto.hex_bytes_roundtrip.
  - intros s u. by destruct (str_contains "|" s).
Qed.

Definition owner : string := ToyCrypto.hex_fixed 64 5.
Definition pusher : string := ToyCrypto.hex_fixed 64 7.
Definition oid_a : string := ToyCrypto.hex_fixed 40 10.
Definition oid_b : string := ToyCrypto.hex_fixed 40 11.
Definition push_main : list HookRefUpdate := [mkHookRef oid_a oid_b "refs/heads/main" true].

Definition request (refs : list HookRefUpdate) : HookCallbackRequest :=
  mkHookReq "repo" owner "c" pusher refs 1000
    (generate_hook_hmac "key" "repo" owner "c" pusher refs 1000).

Definition announcement : NostrEvent :=
  mkEvent 1 5 0 30617 [["d"; "repo"]; ["buzz-channel"; "a1"];
                       ["buzz-protect"; "refs/heads/main"; "no-force-push"]] "".

Definition db (role : option string) (archived : option Z) : PolicyDb :=
  mkDb (λ _ _ _, Ok [announcement]) (λ _ _, Ok archived) (λ _ _ _, Ok false)
    (λ _ _ _, Ok role).

(** A bot pushes as a member; a stranger, an archived channel, a stale callback
    and a forged signature are refused; so is a force push. *)
Example policy_verdicts :
  hook_policy_check "key" (db (Some "bot") None) 1001 (request push_main) = Some Allowed ∧
  hook_policy_check "key" (db None None) 1001 (request push_main)
    = Some (Forbidden "not a channel member") ∧
  hook_policy_check "key" (db (Some "owner") (Some 9%Z)) 1001 (request push_main)
    = Some (Forbidden "channel is archived (read-only)") ∧
  hook_policy_check "key" (db (Some "bot") None) 1031 (request push_main)
    = Some (Forbidden "callback expired") ∧
  hook_policy_check "other" (db (Some "bot") None) 1001 (request push_main)
    = Some (Forbidden "signature verification failed") ∧
  hook_policy_check "key" (db (Some "admin") None) 1001
    (request [mkHookRef oid_a oid_b "refs/heads/main" false])
    = Some (ForbiddenDenials [mkDenialResponse "refs/heads/main"
              "non-fast-forward update denied: no-force-push is set"]).
Proof. vm_compute. done. Qed.

Lemma demo_request_ok : request_ok (request push_main) 12.
Proof. apply validate_request_Ok. vm_compute. reflexivity. Qed.

Lemma canonical_payload_injective_witness :
  ref_updates (request push_main) ≡ₚ ref_updates (request push_main).
Proof.
  apply (canonical_payload_injective (request push_main) (request push_main) 12 12).
  - exact demo_request_ok.
  - exact demo_request_ok.
  - vm_compute. reflexivity.
  - vm_compute. reflexivity.
  - reflexivity.
Defined.

Lemma generated_hmac_verifies_witness : verify_hmac "key" (request push_main) = true.
Proof. apply (generated_hmac_verifies "key" "repo" owner "c" pusher push_main 1000). Defined.

End GitPolicyDemo.
