(* ===== verification/Imeta.v ===== *)
(** * Media references of events ([buzz-relay/src/handlers/imeta.rs])

    The syntactic checks of [imeta] tags and of the media named by link previews: every
    URL is a content-addressed path of the tenant's own media origin and agrees with the
    hash, type and size the tag claims.  Whether the blobs exist is asked of the media
    storage by [verify_imeta_blobs] of [IngestCalls]. *)

From stdpp Require Import base gmap strings list.
From Stdlib Require Import Ascii.
From S2P Require Import Prelude Text.

(** ** External crates *)

(** What the relay reads of a [url::Url]. *)
Record UrlParts := mkUrlParts {
  up_scheme : string;
  up_username : string;
  up_password : option string;
  up_host_str : option string;
  up_port_or_known_default : option N;
  up_path : string;
  up_query : option string;
  up_fragment : option string
}.
Class UrlPartsApi := url_parts : string → option UrlParts.

(** An [f64] is its bit pattern; [str::parse::<f64>] and the comparisons made. *)
Abbreviation F64 := N (only parsing).
Class F64Api := {
  parse_f64 : string → option F64;
  f64_zero : F64;
  f64_le : F64 → F64 → bool;
  f64_is_nan : F64 → bool;
  f64_is_infinite : F64 → bool;
  f64_off_by_a_tenth : F64 → F64 → bool;
  f64_to_string : F64 → string
}.

(** ** Characters *)

Definition is_c0_control (b : Byte.byte) : bool := in_range 0 31 b || in_range 127 127 b.

(** Some character of a UTF-8 text is a control character, other than a newline when
    these are allowed. *)
Fixpoint any_control (allow_newlines : bool) (l : bytes) : bool :=
  match l with
  | [] => false
  | a :: r =>
      (is_c0_control a && negb (allow_newlines && in_range 10 10 a))
      || match r with b :: _ => in_range 194 194 a && in_range 128 159 b | [] => false end
      || any_control allow_newlines r
  end.

Fixpoint any_whitespace (l : bytes) : bool :=
  match l with
  | [] => false
  | a :: r =>
      is_ascii_ws a
      || match r with
         | b :: r' => is_ws2 a b || match r' with c :: _ => is_ws3 a b c | [] => false end
         | [] => false
         end
      || any_whitespace r
  end.

(** [s.chars().count()]. *)
Definition chars_count (s : string) : nat := length (List.filter (λ b, negb (is_cont b)) (bytes_of_str s)).

Definition is_lower_hex (c : ascii) : bool :=
  is_ascii_digit c || ((97 <=? ascii_code c) && (ascii_code c <=? 102))%N.
Definition is_lower_alnum (c : ascii) : bool :=
  is_ascii_digit c || ((97 <=? ascii_code c) && (ascii_code c <=? 122))%N.

(** 64 lower-case hexadecimal characters; the same test throughout. *)
Definition is_sha256_hex (s : string) : bool := bool_decide (String.length s = 64) && str_all is_lower_hex s.

(** ** Paths *)

(** [api/media.rs]. *)
Definition is_safe_ext (ext : string) : bool :=
  bool_decide (ext ≠ "") && (String.length ext <=? 8) && str_all is_lower_alnum ext.

(** [url.rsplit(p).next()]: what follows the last occurrence of [p], or everything. *)
Fixpoint after_last (p s : string) : string :=
  match s with
  | "" => ""
  | String _ s' => if contains_str p s' then after_last p s' else default s (strip_prefix p s)
  end.

Definition extract_hash_from_media_url (url : string) : option string :=
  let hash := default "" (head (split_on "." (after_last "/media/" url))) in
  if is_sha256_hex hash then Some hash else None.

Definition extract_ext_from_media_url (url : string) : option string :=
  match split_on "." (after_last "/media/" url) with
  | [_; ext] => Some ext
  | _ => None
  end.

Definition is_local_media_url (url media_base_url : string) : bool :=
  let path_after_media :=
    match strip_prefix "/media/" url with
    | Some rest => Some rest
    | None => strip_prefix (trim_end_matches "/" media_base_url +:+ "/") url
    end in
  match path_after_media with
  | None => false
  | Some path =>
      if str_contains "?" path || str_contains "#" path then false
      else if str_contains "%" path then false
      else
        match split_on "." path with
        | [hash; ext] => is_sha256_hex hash && is_safe_ext ext
        | [hash; thumb; jpg] => is_sha256_hex hash && bool_decide (thumb = "thumb") && bool_decide (jpg = "jpg")
        | _ => false
        end
  end.

Definition is_well_formed_mime (mime : string) : bool :=
  match split_once "/" mime with
  | None => false
  | Some (ty, sub) =>
      bool_decide (ty ≠ "") && bool_decide (sub ≠ "") && (String.length mime <=? 255)
      && negb (any_whitespace (bytes_of_str mime) || any_control false (bytes_of_str mime))
  end.

(** [buzz-media/src/validation.rs]. *)
Definition mime_to_ext (mime : string) : string :=
  if decide (mime = "image/jpeg") then "jpg"
  else if decide (mime = "image/png") then "png"
  else if decide (mime = "image/gif") then "gif"
  else if decide (mime = "image/webp") then "webp"
  else if decide (mime = "video/mp4") then "mp4"
  else "bin".

Definition IMAGE_EXTS : list string := ["jpg"; "png"; "gif"; "webp"].

Section imeta.
Context `{UrlPartsApi} `{F64Api}.

Definition validate_local_image_media_pair (media_url sha256 media_base_url : string) : bool :=
  if decide (media_url = "" ∧ sha256 = "") then true
  else if bool_decide (media_url = "") || negb (is_sha256_hex sha256) then false
  else
    match url_parts media_url, url_parts media_base_url with
    | Some parsed, Some base =>
        if bool_decide (up_scheme parsed ≠ up_scheme base)
           || bool_decide (up_host_str parsed ≠ up_host_str base)
           || bool_decide (up_port_or_known_default parsed ≠ up_port_or_known_default base)
           || bool_decide (up_username parsed ≠ "")
           || bool_decide (up_password parsed ≠ None)
           || bool_decide (up_query parsed ≠ None)
           || bool_decide (up_fragment parsed ≠ None)
        then false
        else
          match strip_prefix "/media/" (up_path parsed) with
          | None => false
          | Some filename =>
              match split_once "." filename with
              | None => false
              | Some (path_hash, ext) =>
                  negb (str_contains "/" filename) && negb (str_contains "%" filename)
                  && bool_decide (path_hash = sha256) && bool_decide (ext ∈ IMAGE_EXTS)
              end
          end
    | _, _ => false
    end.

(** ** [imeta] tags *)

Definition SINGLETON_KEYS : list string :=
  ["url"; "m"; "x"; "size"; "dim"; "blurhash"; "thumb"; "alt"; "duration"; "bitrate"; "image"; "filename"].
Definition ALLOWED_IMETA_KEYS : list string :=
  ["url"; "m"; "x"; "size"; "dim"; "blurhash"; "alt"; "thumb"; "fallback"; "duration"; "bitrate"; "image"; "filename"].
Definition MEDIA_MIME : list string := ["image/jpeg"; "image/png"; "image/gif"; "image/webp"; "video/mp4"].

(** The key and the value of one entry of a tag. *)
Definition imeta_entry (part : string) : string * string :=
  match split_once " " part with Some kv => kv | None => (part, "") end.

(** What the loop over the entries has seen; a [has_] flag and its value are one option. *)
Record ImetaScan := mkScan {
  s_url : option string;
  s_m : option string;
  s_x : option string;
  s_size : bool;
  s_thumb : string;
  s_seen : gset string
}.

Definition imeta_value (media_base_url key value : string) (s : ImetaScan) : result string ImetaScan :=
  let seen := s_seen s in
  if decide (key = "url") then
    if negb (is_local_media_url value media_base_url) then Err "imeta url must be a local /media/ path"
    else if contains_str ".thumb." value then Err "imeta url must not be a thumbnail path; use thumb field"
    else Ok (mkScan (Some value) (s_m s) (s_x s) (s_size s) (s_thumb s) seen)
  else if decide (key = "m") then
    if negb (is_well_formed_mime value) then Err "imeta m must be a valid MIME type"
    else Ok (mkScan (s_url s) (Some value) (s_x s) (s_size s) (s_thumb s) seen)
  else if decide (key = "x") then
    if negb (is_sha256_hex value) then Err "imeta x must be a 64-char lowercase hex SHA-256"
    else Ok (mkScan (s_url s) (s_m s) (Some value) (s_size s) (s_thumb s) seen)
  else if decide (key = "size") then
    match parse_uint u64_max value with
    | None | Some 0%N => Err "imeta size must be a positive integer"
    | Some _ => Ok (mkScan (s_url s) (s_m s) (s_x s) true (s_thumb s) seen)
    end
  else if decide (key = "thumb") then
    if negb (is_local_media_url value media_base_url) || negb (ends_with ".thumb.jpg" value)
    then Err "imeta thumb must be a local .thumb.jpg path"
    else Ok (mkScan (s_url s) (s_m s) (s_x s) (s_size s) value seen)
  else if decide (key = "duration") then
    match parse_f64 value with
    | Some d => if f64_le d f64_zero || f64_is_nan d || f64_is_infinite d
                then Err "imeta duration must be a positive finite number" else Ok s
    | None => Err "imeta duration must be a valid float"
    end
  else if decide (key = "bitrate") then
    match parse_uint u64_max value with
    | None | Some 0%N => Err "imeta bitrate must be a positive integer"
    | Some _ => Ok s
    end
  else if decide (key = "image") then
    if negb (is_local_media_url value media_base_url) then Err "imeta image must be a local /media/ path"
    else if contains_str ".thumb." value then Err "imeta image must reference a standalone poster frame, not a thumbnail"
    else if decide (default "" (last (split_on "." value)) ∈ IMAGE_EXTS) then Ok s
    else Err "imeta image must reference an image file (jpg, png, gif, webp), not video"
  else if decide (key = "filename") then
    if bool_decide (value = "") || (255 <? String.length value) then Err "imeta filename must be 1–255 chars"
    else if str_contains "/" value || str_contains "\" value || any_control false (bytes_of_str value)
    then Err "imeta filename must not contain path separators or control characters"
    else Ok s
  else Ok s.

Fixpoint imeta_scan (media_base_url : string) (parts : list string) (s : ImetaScan) : result string ImetaScan :=
  match parts with
  | [] => Ok s
  | part :: parts =>
      let '(key, value) := imeta_entry part in
      if negb (bool_decide (key ∈ ALLOWED_IMETA_KEYS)) then Err ("disallowed imeta key: " +:+ key)
      else
        let s' := mkScan (s_url s) (s_m s) (s_x s) (s_size s) (s_thumb s) ({[key]} ∪ s_seen s) in
        if decide (key ∈ SINGLETON_KEYS) then
          if decide (key ∈ s_seen s) then Err ("duplicate imeta key: " +:+ key)
          else let? s := imeta_value media_base_url key value s' in imeta_scan media_base_url parts s
        else let? s := imeta_value media_base_url key value s in imeta_scan media_base_url parts s
  end.

(** The checks after the loop. *)
Definition imeta_consistent (s : ImetaScan) : result string unit :=
  match s_url s, s_m s, s_x s, s_size s with
  | Some url, Some m, Some x, true =>
      match (if decide (m = "video/mp4") then None
             else List.find (λ k, bool_decide (k ∈ s_seen s)) ["duration"; "bitrate"; "image"]) with
      | Some key => Err ("imeta " +:+ key +:+ " is only valid for video/mp4, not " +:+ m)
      | None =>
          if bool_decide (extract_hash_from_media_url url ≠ None)
             && bool_decide (extract_hash_from_media_url url ≠ Some x) then Err "imeta url hash does not match x"
          else if bool_decide (extract_ext_from_media_url url ≠ None) && bool_decide (m ∈ MEDIA_MIME)
                  && bool_decide (extract_ext_from_media_url url ≠ Some (mime_to_ext m))
          then Err "imeta url extension does not match m"
          else if bool_decide (s_thumb s ≠ "") && bool_decide (extract_hash_from_media_url (s_thumb s) ≠ None)
                  && bool_decide (extract_hash_from_media_url (s_thumb s) ≠ Some x)
          then Err "imeta thumb hash does not match x"
          else Ok tt
      end
  | _, _, _, _ => Err "imeta tag must include url, m, x, and size"
  end.

Fixpoint validate_imeta_tags (tags : list (list string)) (media_base_url : string) : result string unit :=
  match tags with
  | [] => Ok tt
  | tag :: tags =>
      if decide (head tag ≠ Some "imeta") then Err "only imeta tags allowed in media_tags"
      else
        let? s := imeta_scan media_base_url (tail tag) (mkScan None None None false "" ∅) in
        let? _ := imeta_consistent s in
        validate_imeta_tags tags media_base_url
  end.

End imeta.
