(* ===== verification/IngestRules.v ===== *)
(** * Ingest: kinds, scopes and envelope rules ([buzz-relay/src/handlers/ingest.rs])

    The parts of the write path that look at the event and the caller only: what scope a
    kind needs, which kinds are global and which need a channel, and the rules on the
    public envelope of each kind.  [Ingest] puts them together with the lookups. *)

From stdpp Require Import base gmap strings list.
From Stdlib Require Import Ascii.
From S2P Require Import Prelude Text Nostr CanonicalJson Tenant Auth Topics Filter ReadGate EventQuery Imeta.

(** ** Kinds ([buzz-core/src/kind.rs]) *)

Definition KIND_PROFILE : Z := 0.
Definition KIND_TEXT_NOTE : Z := 1.
Definition KIND_CONTACT_LIST : Z := 3.
Definition KIND_DELETION : Z := 5.
Definition KIND_REACTION : Z := 7.
Definition KIND_STREAM_MESSAGE : Z := 9.
Definition KIND_CHANNEL_METADATA : Z := 41.
Definition KIND_GIT_PATCH : Z := 1617.
Definition KIND_GIT_PULL_REQUEST : Z := 1618.
Definition KIND_GIT_PR_UPDATE : Z := 1619.
Definition KIND_GIT_ISSUE : Z := 1621.
Definition KIND_GIT_STATUS_OPEN : Z := 1630.
Definition KIND_GIT_STATUS_MERGED : Z := 1631.
Definition KIND_GIT_STATUS_CLOSED : Z := 1632.
Definition KIND_GIT_STATUS_DRAFT : Z := 1633.
Definition KIND_REPORT : Z := 1984.
Definition KIND_NIP29_PUT_USER : Z := 9000.
Definition KIND_NIP29_REMOVE_USER : Z := 9001.
Definition KIND_NIP29_EDIT_METADATA : Z := 9002.
Definition KIND_NIP29_DELETE_EVENT : Z := 9005.
Definition KIND_NIP29_CREATE_GROUP : Z := 9007.
Definition KIND_NIP29_DELETE_GROUP : Z := 9008.
Definition KIND_NIP29_JOIN_REQUEST : Z := 9021.
Definition KIND_NIP29_LEAVE_REQUEST : Z := 9022.
Definition RELAY_ADMIN_ADD_MEMBER : Z := 9030.
Definition RELAY_ADMIN_REMOVE_MEMBER : Z := 9031.
Definition RELAY_ADMIN_CHANGE_ROLE : Z := 9032.
Definition RELAY_ADMIN_SET_WORKSPACE_PROFILE : Z := 9033.
Definition KIND_IA_ARCHIVE_REQUEST : Z := 9035.
Definition KIND_IA_UNARCHIVE_REQUEST : Z := 9036.
Definition KIND_MODERATION_BAN : Z := 9040.
Definition KIND_MODERATION_UNBAN : Z := 9041.
Definition KIND_MODERATION_TIMEOUT : Z := 9042.
Definition KIND_MODERATION_UNTIMEOUT : Z := 9043.
Definition KIND_MODERATION_RESOLVE_REPORT : Z := 9044.
Definition KIND_MUTE_LIST : Z := 10000.
Definition KIND_PIN_LIST : Z := 10001.
Definition KIND_NIP65_RELAY_LIST_METADATA : Z := 10002.
Definition KIND_BOOKMARK_LIST : Z := 10003.
Definition KIND_EMOJI_LIST : Z := 10030.
Definition KIND_AGENT_PROFILE : Z := 10100.
Definition KIND_PRESENCE_UPDATE : Z := 20001.
Definition KIND_NIP43_LEAVE_REQUEST : Z := 28936.
Definition KIND_FOLLOW_SET : Z := 30000.
Definition KIND_BOOKMARK_SET : Z := 30003.
Definition KIND_LONG_FORM : Z := 30023.
Definition KIND_EMOJI_SET : Z := 30030.
Definition KIND_READ_STATE : Z := 30078.
Definition KIND_TEAM : Z := 30176.
Definition KIND_MANAGED_AGENT : Z := 30177.
Definition KIND_USER_STATUS : Z := 30315.
Definition KIND_GIT_REPO_ANNOUNCEMENT : Z := 30617.
Definition KIND_GIT_REPO_STATE : Z := 30618.
Definition KIND_WORKFLOW_DEF : Z := 30620.
Definition KIND_PROJECT : Z := 30621.
Definition KIND_THREAD_SUMMARY : Z := 39005.
Definition KIND_WINDOW_BOUNDS : Z := 39006.
Definition KIND_STREAM_MESSAGE_V2 : Z := 40002.
Definition KIND_STREAM_MESSAGE_EDIT : Z := 40003.
Definition KIND_STREAM_MESSAGE_PINNED : Z := 40004.
Definition KIND_STREAM_MESSAGE_BOOKMARKED : Z := 40005.
Definition KIND_STREAM_MESSAGE_SCHEDULED : Z := 40006.
Definition KIND_STREAM_REMINDER : Z := 40007.
Definition KIND_STREAM_MESSAGE_DIFF : Z := 40008.
Definition KIND_CANVAS : Z := 40100.
Definition KIND_CHANNEL_SUMMARY : Z := 40901.
Definition KIND_PRESENCE_SNAPSHOT : Z := 40902.
Definition KIND_DM_OPEN : Z := 41010.
Definition KIND_DM_ADD_MEMBER : Z := 41011.
Definition KIND_DM_HIDE : Z := 41012.
Definition KIND_PRODUCT_FEEDBACK : Z := 42000.
Definition KIND_FORUM_POST : Z := 45001.
Definition KIND_FORUM_VOTE : Z := 45002.
Definition KIND_FORUM_COMMENT : Z := 45003.
Definition KIND_WORKFLOW_TRIGGER : Z := 46020.
Definition KIND_APPROVAL_GRANT : Z := 46030.
Definition KIND_APPROVAL_DENY : Z := 46031.
Definition KIND_HUDDLE_STARTED : Z := 48100.
Definition KIND_HUDDLE_PARTICIPANT_JOINED : Z := 48101.
Definition KIND_HUDDLE_PARTICIPANT_LEFT : Z := 48102.
Definition KIND_HUDDLE_ENDED : Z := 48103.
Definition KIND_HUDDLE_GUIDELINES : Z := 48106.

Definition is_moderation_command_kind : Z → bool :=
  contains [KIND_MODERATION_BAN; KIND_MODERATION_UNBAN; KIND_MODERATION_TIMEOUT; KIND_MODERATION_UNTIMEOUT;
            KIND_MODERATION_RESOLVE_REPORT].

Definition is_replaceable (kind : Z) : bool :=
  contains [0; 3; KIND_CHANNEL_METADATA]%Z kind || ((10000 <=? kind) && (kind <=? 19999))%Z.

Definition is_relay_admin_kind : Z → bool :=
  contains [RELAY_ADMIN_ADD_MEMBER; RELAY_ADMIN_REMOVE_MEMBER; RELAY_ADMIN_CHANGE_ROLE; RELAY_ADMIN_SET_WORKSPACE_PROFILE].

Definition is_identity_archive_request_kind : Z → bool := contains [KIND_IA_ARCHIVE_REQUEST; KIND_IA_UNARCHIVE_REQUEST].

Definition is_command_kind : Z → bool :=
  contains [KIND_WORKFLOW_DEF; KIND_DM_OPEN; KIND_DM_ADD_MEMBER; KIND_DM_HIDE; KIND_WORKFLOW_TRIGGER; KIND_APPROVAL_GRANT;
            KIND_APPROVAL_DENY].

Definition is_relay_only_kind : Z → bool :=
  contains [KIND_NIP43_MEMBERSHIP_LIST; KIND_CHANNEL_SUMMARY; KIND_PRESENCE_SNAPSHOT; KIND_DM_VISIBILITY; KIND_THREAD_SUMMARY;
            KIND_WINDOW_BOUNDS].

(** [side_effects.rs]. *)
Definition is_admin_kind (kind : Z) : bool := ((9000 <=? kind) && (kind <=? 9022))%Z.

Definition is_side_effect_kind (kind : Z) : bool :=
  contains [0; 5; KIND_GIT_REPO_ANNOUNCEMENT; KIND_AGENT_PROFILE; 40099]%Z kind || is_admin_kind kind
  || ((41001 <=? kind) && (kind <=? 41003))%Z.

(** ** The caller *)

Inductive HttpAuthMethod := Nip98 | DevPubkey.

Inductive IngestAuth :=
| Nip42 (pubkey : PublicKey) (scopes : list Scope) (channel_ids : option (list Uuid)) (conn_id : Uuid)
| Http (pubkey : PublicKey) (scopes : list Scope) (auth_method : HttpAuthMethod).

Definition auth_pubkey (a : IngestAuth) : PublicKey := match a with Nip42 pk _ _ _ | Http pk _ _ => pk end.
Definition auth_scopes (a : IngestAuth) : list Scope := match a with Nip42 _ s _ _ | Http _ s _ => s end.
Definition auth_conn_id (a : IngestAuth) : option Uuid := match a with Nip42 _ _ _ c => Some c | Http _ _ _ => None end.
Definition auth_channel_ids (a : IngestAuth) : option (list Uuid) := match a with Nip42 _ _ ids _ => ids | _ => None end.
Definition is_http (a : IngestAuth) : bool := match a with Http _ _ _ => true | _ => false end.

Record IngestResult := mkIngestResult { ir_event_id : string; ir_accepted : bool; ir_message : string }.

Inductive IngestError := Rejected (msg : string) | AuthFailed (msg : string) | Internal (msg : string).

(** [.map_err(|e| IngestError::Rejected(format!("invalid: {e}")))]. *)
Definition invalid {A} (r : result string A) : result IngestError A := map_err (λ e, Rejected ("invalid: " +:+ e)) r.

Definition check_token_channel_access (a : IngestAuth) (ch : Uuid) : result string unit :=
  match auth_channel_ids a with
  | Some allowed => if decide (ch ∈ allowed) then Ok tt else Err "restricted: token does not have access to this channel"
  | None => Ok tt
  end.

(** ** Channels of kinds *)

Definition is_global_only_kind : Z → bool :=
  contains
    [KIND_PROFILE; KIND_TEXT_NOTE; KIND_CONTACT_LIST; KIND_LONG_FORM; KIND_USER_STATUS; KIND_READ_STATE; KIND_MUTE_LIST;
     KIND_PIN_LIST; KIND_NIP65_RELAY_LIST_METADATA; KIND_BOOKMARK_LIST; KIND_FOLLOW_SET; KIND_BOOKMARK_SET; KIND_EMOJI_SET;
     KIND_EMOJI_LIST; KIND_AGENT_ENGRAM; KIND_EVENT_REMINDER; KIND_AGENT_PROFILE; KIND_PERSONA; KIND_TEAM;
     KIND_MANAGED_AGENT; KIND_PRIVATE_MANAGED_AGENT; KIND_TEAM_CATALOG; KIND_GIT_REPO_ANNOUNCEMENT; KIND_GIT_REPO_STATE;
     KIND_GIT_PATCH; KIND_GIT_PULL_REQUEST; KIND_GIT_PR_UPDATE; KIND_GIT_ISSUE; KIND_GIT_STATUS_OPEN;
     KIND_GIT_STATUS_MERGED; KIND_GIT_STATUS_CLOSED; KIND_GIT_STATUS_DRAFT; KIND_PROJECT; KIND_MODERATION_BAN;
     KIND_MODERATION_UNBAN; KIND_MODERATION_TIMEOUT; KIND_MODERATION_UNTIMEOUT; KIND_MODERATION_RESOLVE_REPORT;
     RELAY_ADMIN_ADD_MEMBER; RELAY_ADMIN_REMOVE_MEMBER; RELAY_ADMIN_CHANGE_ROLE; RELAY_ADMIN_SET_WORKSPACE_PROFILE;
     KIND_NIP43_LEAVE_REQUEST; KIND_IA_ARCHIVE_REQUEST; KIND_IA_UNARCHIVE_REQUEST; KIND_AGENT_TURN_METRIC; KIND_PUSH_LEASE].

Definition requires_h_channel_scope : Z → bool :=
  contains
    [KIND_STREAM_MESSAGE; KIND_STREAM_MESSAGE_V2; KIND_STREAM_MESSAGE_EDIT; KIND_STREAM_MESSAGE_PINNED;
     KIND_STREAM_MESSAGE_BOOKMARKED; KIND_STREAM_MESSAGE_SCHEDULED; KIND_STREAM_REMINDER; KIND_STREAM_MESSAGE_DIFF;
     KIND_CANVAS; KIND_FORUM_POST; KIND_FORUM_VOTE; KIND_FORUM_COMMENT; KIND_NIP29_PUT_USER; KIND_NIP29_REMOVE_USER;
     KIND_NIP29_EDIT_METADATA; KIND_NIP29_DELETE_EVENT; KIND_NIP29_DELETE_GROUP; KIND_NIP29_LEAVE_REQUEST;
     KIND_HUDDLE_STARTED; KIND_HUDDLE_PARTICIPANT_JOINED; KIND_HUDDLE_PARTICIPANT_LEFT; KIND_HUDDLE_ENDED;
     KIND_HUDDLE_GUIDELINES].

(** [iter().find_map(f)]. *)
Definition find_map {A B} (f : A → option B) (l : list A) : option B := head (omap f l).

(** ** Rules on tags by position *)

(** The values of the tags of a name that have one. *)
Definition values_at (name : string) (e : NostrEvent) : list string := omap (tag_value name) (ev_tags e).

(** [{:?}] of a string and of a list of strings. *)
Class DebugApi := {
  debug_str : string → string;
  debug_strs : list string → string
}.

Definition plain_nat (n : nat) : string := num_to_string (N.of_nat n).

Section rules.
Context `{NostrApi} `{UuidParse} `{UrlPartsApi} `{DebugApi}.

Definition required_scope_for_kind (kind : Z) (e : NostrEvent) : result string Scope :=
  if contains [KIND_PROFILE] kind then Ok UsersWrite
  else if contains [KIND_TEXT_NOTE; KIND_LONG_FORM] kind then Ok MessagesWrite
  else if contains [KIND_CONTACT_LIST; KIND_READ_STATE; KIND_USER_STATUS; KIND_AGENT_ENGRAM; KIND_EVENT_REMINDER;
                    KIND_PERSONA; KIND_TEAM; KIND_MANAGED_AGENT; KIND_PRIVATE_MANAGED_AGENT; KIND_TEAM_CATALOG;
                    KIND_PUSH_LEASE] kind then Ok UsersWrite
  else if contains [KIND_AGENT_TURN_METRIC] kind then Ok MessagesWrite
  else if contains [KIND_REPORT; KIND_PRODUCT_FEEDBACK] kind then Ok MessagesWrite
  else if is_moderation_command_kind kind then Ok MessagesWrite
  else if contains [KIND_MUTE_LIST; KIND_PIN_LIST; KIND_NIP65_RELAY_LIST_METADATA; KIND_BOOKMARK_LIST; KIND_FOLLOW_SET;
                    KIND_BOOKMARK_SET; KIND_EMOJI_SET; KIND_EMOJI_LIST; KIND_AGENT_PROFILE] kind then Ok UsersWrite
  else if contains [KIND_DELETION; KIND_REACTION; KIND_GIFT_WRAP; KIND_STREAM_MESSAGE; KIND_STREAM_MESSAGE_V2;
                    KIND_NIP29_DELETE_EVENT; KIND_STREAM_MESSAGE_EDIT; KIND_STREAM_MESSAGE_PINNED;
                    KIND_STREAM_MESSAGE_BOOKMARKED; KIND_STREAM_MESSAGE_SCHEDULED; KIND_STREAM_REMINDER;
                    KIND_STREAM_MESSAGE_DIFF; KIND_FORUM_POST; KIND_FORUM_VOTE; KIND_FORUM_COMMENT] kind then Ok MessagesWrite
  else if contains [KIND_NIP29_PUT_USER; KIND_NIP29_REMOVE_USER; KIND_NIP29_DELETE_GROUP] kind then Ok AdminChannels
  else if is_relay_admin_kind kind then Ok AdminUsers
  else if contains [KIND_IA_ARCHIVE_REQUEST; KIND_IA_UNARCHIVE_REQUEST] kind then Ok UsersWrite
  else if contains [KIND_NIP29_EDIT_METADATA] kind then
    if existsb (λ t, bool_decide (tag_kind t = "archived")) (ev_tags e) then Ok AdminChannels else Ok ChannelsWrite
  else if contains [KIND_NIP29_CREATE_GROUP; KIND_CANVAS] kind then Ok ChannelsWrite
  else if contains [KIND_NIP29_JOIN_REQUEST; KIND_NIP29_LEAVE_REQUEST; KIND_NIP43_LEAVE_REQUEST] kind then Ok ChannelsRead
  else if contains [KIND_HUDDLE_STARTED; KIND_HUDDLE_PARTICIPANT_JOINED; KIND_HUDDLE_PARTICIPANT_LEFT; KIND_HUDDLE_ENDED;
                    KIND_HUDDLE_GUIDELINES] kind then Ok ChannelsWrite
  else if contains [KIND_GIT_REPO_ANNOUNCEMENT; KIND_GIT_REPO_STATE] kind then Ok ReposWrite
  else if contains [KIND_PROJECT] kind then Ok ReposWrite
  else if contains [KIND_GIT_PATCH; KIND_GIT_PULL_REQUEST; KIND_GIT_PR_UPDATE; KIND_GIT_ISSUE; KIND_GIT_STATUS_OPEN;
                    KIND_GIT_STATUS_MERGED; KIND_GIT_STATUS_CLOSED; KIND_GIT_STATUS_DRAFT] kind then Ok MessagesWrite
  else if contains [KIND_DM_OPEN; KIND_DM_ADD_MEMBER; KIND_DM_HIDE] kind then Ok MessagesWrite
  else if contains [KIND_WORKFLOW_DEF; KIND_WORKFLOW_TRIGGER] kind then Ok MessagesWrite
  else if contains [KIND_APPROVAL_GRANT; KIND_APPROVAL_DENY] kind then Ok MessagesWrite
  else Err "restricted: unknown event kind".

(** ** Tags by kind *)

Definition content_of (name : string) (t : Tag) : option string :=
  if decide (tag_kind t = name) then tag_content t else None.

Definition extract_channel_id (e : NostrEvent) : option Uuid :=
  find_map (λ t, content_of "h" t ≫= parse_uuid) (ev_tags e).

(** [nip10.rs]; the same test of a target id in the handlers. *)
Definition is_event_id_hex (id : string) : bool := bool_decide (String.length id = 64) && str_all is_ascii_hexdigit id.

Definition e_target (t : Tag) : option string :=
  v ← content_of "e" t; if is_event_id_hex v then Some v else None.

Definition first_e_target (e : NostrEvent) : option string := find_map e_target (ev_tags e).
Definition last_e_target (e : NostrEvent) : option string := find_map e_target (reverse (ev_tags e)).

Definition count_tags (name : string) (e : NostrEvent) : nat :=
  length (List.filter (λ t, bool_decide (tag_kind t = name)) (ev_tags e)).

Definition count_e_tags : NostrEvent → nat := count_tags "e".

(** ** Emoji *)

Definition MAX_CUSTOM_EMOJI_SHORTCODE_LEN : nat := 64.
Definition MAX_CUSTOM_EMOJI_REACTION_LEN : nat := MAX_CUSTOM_EMOJI_SHORTCODE_LEN + 2.

Fixpoint trim_start_matches (c : ascii) (s : string) : string :=
  match s with
  | "" => ""
  | String a s' => if decide (a = c) then trim_start_matches c s' else s
  end.

(** [buzz-sdk/src/builders.rs]; the error as it prints. *)
Definition normalize_custom_emoji_shortcode (shortcode : string) : result string string :=
  let trimmed := trim_end_matches ":" (trim_start_matches ":" (trim shortcode)) in
  if decide (trimmed = "") then Err "invalid input: emoji shortcode must not be empty"
  else if MAX_CUSTOM_EMOJI_SHORTCODE_LEN <? String.length trimmed then
    Err ("invalid input: emoji shortcode exceeds 64 bytes (got " +:+ plain_nat (String.length trimmed) +:+ ")")
  else if negb (str_all (λ c, is_ascii_alphanumeric c || bool_decide (c = "-"%char) || bool_decide (c = "_"%char)) trimmed)
  then Err "invalid input: emoji shortcode may only contain ASCII letters, digits, hyphens, and underscores"
  else Ok (to_ascii_lowercase trimmed).

Fixpoint check_emoji_tags (tags : list Tag) : result IngestError unit :=
  match tags with
  | [] => Ok tt
  | parts :: tags =>
      if decide (head parts ≠ Some "emoji") then check_emoji_tags tags
      else
        match parts !! 1 with
        | None => Err (Rejected "invalid: emoji tag must include a shortcode")
        | Some shortcode => let? _ := invalid (normalize_custom_emoji_shortcode shortcode) in check_emoji_tags tags
        end
  end.

Definition validate_custom_emoji_tags (e : NostrEvent) : result IngestError unit := check_emoji_tags (ev_tags e).

Definition validate_reaction_emoji (e : NostrEvent) (emoji : string) : result IngestError unit :=
  let emoji_char_count := chars_count emoji in
  let too_long := Rejected ("invalid: reaction emoji exceeds 64 characters (got " +:+ plain_nat emoji_char_count +:+ ")") in
  if emoji_char_count <=? 64 then Ok tt
  else
    match strip_prefix ":" emoji ≫= strip_suffix ":" with
    | None => Err too_long
    | Some shortcode =>
        let? normalized := invalid (normalize_custom_emoji_shortcode shortcode) in
        if decide (shortcode ≠ normalized) then
          Err (Rejected "invalid: long custom emoji reaction shortcode must be canonical lowercase")
        else
          let has_matching_tag :=
            existsb (λ parts, bool_decide (head parts = Some "emoji") && bool_decide (parts !! 1 = Some shortcode)) (ev_tags e) in
          if negb has_matching_tag || (MAX_CUSTOM_EMOJI_REACTION_LEN <? emoji_char_count) then Err too_long else Ok tt
    end.

(** ** Link previews *)

Definition valid_link_preview_text (value : string) (max : nat) (allow_newlines : bool) : bool :=
  (String.length value <=? max) && negb (any_control allow_newlines (bytes_of_str value)).

(** One snapshot tag of eleven strings, after the count and arity checks. *)
Definition check_snapshot (content media_base_url : string) (seen : gset string) (parts : Tag) : result string (gset string) :=
  match parts with
  | [_; _; _; canonical_url; title; site; description; image; image_hash; icon; icon_hash] =>
      match url_parts canonical_url with
      | None => Err "invalid link-preview canonical URL"
      | Some canonical =>
          if bool_decide (up_scheme canonical ≠ "https") || bool_decide (up_username canonical ≠ "")
             || bool_decide (up_password canonical ≠ None) || bool_decide (up_fragment canonical ≠ None)
             || bool_decide (canonical_url ∈ seen) || negb (contains_str canonical_url content)
          then Err "invalid link-preview canonical URL"
          else if negb (valid_link_preview_text title 300 false && valid_link_preview_text site 100 false
                        && valid_link_preview_text description 1000 true)
          then Err "invalid link-preview snapshot text"
          else if negb (validate_local_image_media_pair image image_hash media_base_url)
                  || negb (validate_local_image_media_pair icon icon_hash media_base_url)
          then Err "link-preview media must reference matching local image blobs"
          else Ok ({[canonical_url]} ∪ seen)
      end
  | _ => Err "invalid link-preview snapshot tag"
  end.

Fixpoint link_preview_loop (content media_base_url : string) (count : nat) (suppressed : bool) (seen : gset string)
    (tags : list Tag) : result string unit :=
  match tags with
  | [] => Ok tt
  | parts :: tags =>
      if decide (head parts ≠ Some "link-preview") then link_preview_loop content media_base_url count suppressed seen tags
      else
        let count := S count in
        if decide (parts = ["link-preview"; "none"]) then
          if 1 <? count then Err "link-preview suppression cannot include snapshots"
          else link_preview_loop content media_base_url count true seen tags
        else if suppressed || (8 <? count) || bool_decide (length parts ≠ 11) || bool_decide (parts !! 1 ≠ Some "snapshot")
                || bool_decide (parts !! 2 ≠ Some "1")
        then Err "invalid link-preview snapshot tag"
        else let? seen := check_snapshot content media_base_url seen parts in
             link_preview_loop content media_base_url count suppressed seen tags
  end.

Definition validate_link_preview_tags (e : NostrEvent) (media_base_url : string) : result string unit :=
  link_preview_loop (ev_content e) media_base_url 0 false ∅ (ev_tags e).

(** [api/media.rs]. *)
Definition media_base_url_for_tenant (config_relay_url tenant_host : string) : string :=
  let relay := trim_start_str config_relay_url in
  (if starts_with "wss://" relay || starts_with "https://" relay then "https" else "http") +:+ "://" +:+ tenant_host +:+ "/media".

End rules.
