(* ===== verification/IngestEnvelopes.v ===== *)
(** * Ingest: the envelopes of single kinds ([buzz-relay/src/handlers/ingest.rs])

    The relay cannot read most payloads, but a malformed envelope would replace a valid
    head in storage and then be invisible to its readers, so the public tags of a kind
    are checked before the event is stored.  The theorems give the grammar of each
    envelope and tie it to what the readers of stored events assume. *)

From stdpp Require Import base gmap strings list.
From Stdlib Require Import Ascii.
From Stdlib.Strings Require Import Byte.
From S2P Require Import Prelude Text Nostr CanonicalJson Tenant Auth Topics Filter ReadGate EventQuery Imeta IngestRules.

(** ** Diffs (kind 40008) *)

Definition is_sha_prefix (sha : string) : bool := (7 <=? String.length sha) && str_all is_ascii_hexdigit sha.

Fixpoint diff_loop (has_repo has_commit : bool) (tags : list Tag) : result string unit :=
  match tags with
  | [] =>
      if negb has_repo then Err "diff event requires a repo tag"
      else if negb has_commit then Err "diff event requires a commit tag"
      else Ok tt
  | (name :: value :: rest) :: tags =>
      if decide (name = "repo") then
        if negb (starts_with "http://" value) && negb (starts_with "https://" value) then Err "repo URL must be http or https"
        else diff_loop true has_commit tags
      else if decide (name = "commit") then
        if is_sha_prefix value then diff_loop has_repo true tags
        else Err "commit SHA must be at least 7 hex characters"
      else if decide (name = "parent-commit") then
        if is_sha_prefix value then diff_loop has_repo has_commit tags
        else Err "parent-commit SHA must be at least 7 hex characters"
      else if decide (name = "branch") then
        match rest with
        | target :: _ => if bool_decide (value = "") || bool_decide (target = "")
                         then Err "branch tag requires both source and target" else diff_loop has_repo has_commit tags
        | [] => Err "branch tag requires both source and target"
        end
      else if decide (name = "pr") then
        match parse_uint 4294967295 value with
        | None | Some 0%N => Err "pr number must be a positive integer"
        | Some _ => diff_loop has_repo has_commit tags
        end
      else diff_loop has_repo has_commit tags
  | _ :: tags => diff_loop has_repo has_commit tags
  end.

Definition MAX_DIFF_BYTES : nat := Z.to_nat 61440.

Definition validate_diff_event (e : NostrEvent) : result string unit :=
  if MAX_DIFF_BYTES <? String.length (ev_content e) then
    Err ("diff content exceeds 60KB limit (got " +:+ plain_nat (String.length (ev_content e)) +:+ " bytes)")
  else diff_loop false false (ev_tags e).

(** ** NIP-44 contents *)

Definition is_b64 (b : byte) : bool :=
  in_range 65 90 b || in_range 97 122 b || in_range 48 57 b || in_range 43 43 b || in_range 47 47 b.

Definition b64_val (b : byte) : option N :=
  let c := Byte.to_N b in
  if in_range 65 90 b then Some (c - 65)%N
  else if in_range 97 122 b then Some (c - 97 + 26)%N
  else if in_range 48 57 b then Some (c - 48 + 52)%N
  else if in_range 43 43 b then Some 62%N
  else if in_range 47 47 b then Some 63%N
  else None.

(** The loop over the bytes from index [i] of [len]: the padding characters seen. *)
Fixpoint b64_scan (len i pad_count : nat) (l : bytes) : option nat :=
  match l with
  | [] => Some pad_count
  | b :: l =>
      if is_b64 b then if 0 <? pad_count then None else b64_scan len (S i) pad_count l
      else if in_range 61 61 b then
        if i <? len - 2 then None
        else if 2 <? S pad_count then None else b64_scan len (S i) (S pad_count) l
      else None
  end.

Definition validate_engram_nip44_content (content : string) : result string unit :=
  let not_base64 := "agent-engram content is not valid base64" in
  if decide (content = "") then Err "agent-engram content must not be empty (NIP-44 ciphertext)"
  else
    let b := bytes_of_str content in
    let len := length b in
    if negb (bool_decide (len `mod` 4 = 0)) then Err (not_base64 +:+ " (length)")
    else
      match b64_scan len 0 0 b with
      | None => Err not_base64
      | Some pad_count =>
          if (len / 4) * 3 - pad_count <? 99 then Err "agent-engram content too short for NIP-44 v2"
          else
            match b !! 0 ≫= b64_val, b !! 1 ≫= b64_val with
            | Some v0, Some v1 =>
                if decide (N.lor (N.shiftl v0 2 `mod` 256) (N.shiftr v1 4) = 2)%N then Ok tt
                else Err "agent-engram content is not NIP-44 v2 (expected 0x02 version prefix)"
            | _, _ => Err not_base64
            end
      end.

(** [s.replace("agent-engram", "agent-turn-metric")] of the messages above, which start
    with it. *)
Definition rename_engram (e : string) : string :=
  match strip_prefix "agent-engram" e with Some rest => "agent-turn-metric" +:+ rest | None => e end.

(** ** Engrams (30174) and turn metrics (44200) *)

Section envelopes.
Context `{NostrApi} `{DebugApi}.

Definition one_of (label name : string) (values : list string) : result string string :=
  match values with
  | [v] => Ok v
  | _ => Err (label +:+ " event must have exactly one `" +:+ name +:+ "` tag (got " +:+ plain_nat (length values) +:+ ")")
  end.

Definition validate_engram_envelope (e : NostrEvent) : result string unit :=
  let? d := one_of "agent-engram" "d" (values_at "d" e) in
  let? p := one_of "agent-engram" "p" (values_at "p" e) in
  if negb (is_sha256_hex d) then Err "agent-engram `d` tag must be 64 lowercase hex chars"
  else if negb (is_sha256_hex p) then Err "agent-engram `p` tag must be 64 lowercase hex chars (pubkey)"
  else validate_engram_nip44_content (ev_content e).

Definition validate_agent_turn_metric_envelope (e : NostrEvent) : result string unit :=
  if decide (values_at "h" e ≠ []) then
    Err "agent-turn-metric event must not have an `h` tag (channel identity belongs inside the encrypted payload)"
  else
    let? p := one_of "agent-turn-metric" "p" (values_at "p" e) in
    if negb (is_sha256_hex p) then Err "agent-turn-metric `p` tag must be 64 lowercase hex chars"
    else
      let? agent := one_of "agent-turn-metric" "agent" (values_at "agent" e) in
      if negb (is_sha256_hex agent) then Err "agent-turn-metric `agent` tag must be 64 lowercase hex chars"
      else if decide (agent ≠ id_to_hex (ev_pubkey e)) then Err "agent-turn-metric `agent` tag must equal event pubkey"
      else map_err rename_engram (validate_engram_nip44_content (ev_content e)).

(** A literal between double quotes. *)
Definition quoted (s : string) : string := String "034"%char (s +:+ String "034"%char "").

(** ** Shared definitions: personas (30175) and team catalogs (30178) *)

Fixpoint shared_tag_loop (label : string) (shared_count : nat) (tags : list Tag) : result string unit :=
  match tags with
  | [] =>
      if 1 <? shared_count then
        Err (label +:+ " must have at most one `shared` tag (got " +:+ plain_nat shared_count +:+ ")")
      else Ok tt
  | parts :: tags =>
      if decide (head parts = Some "shared") then
        if decide (length parts ≠ 2 ∨ parts !! 1 ≠ Some "true") then
          Err (label +:+ " `shared` tag must be exactly [" +:+ quoted "shared" +:+ "," +:+ quoted "true" +:+ "] (got " +:+ debug_strs parts +:+ ")")
        else shared_tag_loop label (S shared_count) tags
      else shared_tag_loop label shared_count tags
  end.

Definition validate_shared_tag (e : NostrEvent) (label : string) : result string unit :=
  shared_tag_loop label 0 (ev_tags e).

(** A tag counts by its name alone, so that a [d] without a value counts. *)
Definition named_d (parts : Tag) : option (option string) :=
  if decide (head parts = Some "d") then Some (parts !! 1) else None.

Definition single_bounded_d_tag (e : NostrEvent) (label : string) : result string string :=
  match omap named_d (ev_tags e) with
  | [d] =>
      let d := default "" d in
      let char_count := chars_count d in
      if decide (d = "") then Err (label +:+ " `d` tag must not be empty")
      else if 64 <? char_count then
        Err (label +:+ " `d` tag too long (" +:+ plain_nat char_count +:+ " chars, max 64)")
      else if any_control false (bytes_of_str d) || any_whitespace (bytes_of_str d) then
        Err (label +:+ " `d` tag must not contain control characters or whitespace")
      else Ok d
  | d_tags => Err (label +:+ " must have exactly one `d` tag (got " +:+ plain_nat (length d_tags) +:+ ")")
  end.

Definition is_slug_char (c : ascii) : bool :=
  is_lower_alnum c || bool_decide (c = "_"%char) || bool_decide (c = "-"%char).

Definition validate_persona_envelope (e : NostrEvent) : result string unit :=
  let label := "persona event" in
  let? _ := validate_shared_tag e label in
  let? d := single_bounded_d_tag e label in
  match d with
  | String c rest =>
      if negb (is_lower_alnum c) then Err (label +:+ " `d` tag must start with a lowercase letter or digit")
      else if negb (str_all is_slug_char rest) then Err (label +:+ " `d` tag must match [a-z0-9_-] after the first character")
      else Ok tt
  | "" => Ok tt
  end.

Definition validate_team_catalog_envelope (e : NostrEvent) : result string unit :=
  let label := "team-catalog event" in
  let? _ := validate_shared_tag e label in
  let? _ := single_bounded_d_tag e label in
  Ok tt.

(** ** Projects (30621) *)

Definition PROJECT_MEMBER_CAP : nat := 64.
Definition PROJECT_NAME_MAX_LEN : nat := 256.
Definition PROJECT_DESCRIPTION_MAX_LEN : nat := Z.to_nat 2048.
Definition PROJECT_METADATA_TAG_MAX_LEN : nat := 256.
Definition PROJECT_SINGLETON_METADATA_TAGS : list string := ["name"; "description"; "buzz-channel"; "buzz-visibility"].
Definition PROJECT_MEMBER_KIND_SEGMENT : string := "30617".

Record ProjectRejection := mkRejection { rule : string; message : string }.

Definition project_rejection_text (r : ProjectRejection) : string := "[" +:+ rule r +:+ "] " +:+ message r.

(** [coordinate.splitn(3, ':')] when it has three segments. *)
Definition three_segments (s : string) : option (string * string * string) :=
  '(a, rest) ← split_once ":" s; '(b, c) ← split_once ":" rest; Some (a, b, c).

Definition parse_project_member_coordinate (coordinate : string) : result ProjectRejection unit :=
  let malformed := mkRejection "member-coordinate-malformed"
    ("project event member `a` tag must be `" +:+ PROJECT_MEMBER_KIND_SEGMENT
     +:+ ":<lowercase-64-hex-owner>:<repo-d>` (got " +:+ debug_str coordinate +:+ ")") in
  match three_segments coordinate with
  | None => Err malformed
  | Some (kind, owner, repo_d) =>
      if decide (kind ≠ PROJECT_MEMBER_KIND_SEGMENT) then Err malformed
      else if negb (is_sha256_hex owner) then Err malformed
      else if decide (repo_d = "") then Err malformed
      else Ok tt
  end.

(** The value of a tag of that name, empty when it has none. *)
Definition named_value (name : string) (parts : Tag) : option string :=
  if decide (head parts = Some name) then Some (default "" (parts !! 1)) else None.

Definition named_values (name : string) (e : NostrEvent) : list string := omap (named_value name) (ev_tags e).

Fixpoint check_member_arity (tags : list Tag) : result ProjectRejection unit :=
  match tags with
  | [] => Ok tt
  | parts :: tags =>
      if decide (head parts = Some "a" ∧ ¬ (2 ≤ length parts ≤ 3)) then
        Err (mkRejection "member-tag-arity"
          ("project event member `a` tag must have exactly 2 or 3 elements (got " +:+ plain_nat (length parts) +:+ ")"))
      else check_member_arity tags
  end.

Fixpoint check_members (seen : gset string) (members : list string) : result ProjectRejection unit :=
  match members with
  | [] => Ok tt
  | member :: members =>
      let? _ := parse_project_member_coordinate member in
      if decide (member ∈ seen) then
        Err (mkRejection "member-duplicate" ("project event has duplicate member coordinate " +:+ debug_str member))
      else check_members ({[member]} ∪ seen) members
  end.

Fixpoint check_singletons (e : NostrEvent) (names : list string) : result ProjectRejection unit :=
  match names with
  | [] => Ok tt
  | name :: names =>
      let count := length (named_values name e) in
      if 1 <? count then
        Err (mkRejection "metadata-cardinality"
          ("project event must have at most one `" +:+ name +:+ "` tag (got " +:+ plain_nat count +:+ ")"))
      else check_singletons e names
  end.

(** The last value of the tag is the one the loop keeps. *)
Definition check_length (e : NostrEvent) (name : string) (max : nat) : result ProjectRejection unit :=
  match last (named_values name e) with
  | Some value =>
      if max <? String.length value then
        Err (mkRejection "metadata-length"
          ("project event `" +:+ name +:+ "` tag too long (" +:+ plain_nat (String.length value) +:+ " bytes, max "
           +:+ plain_nat max +:+ ")"))
      else Ok tt
  | None => Ok tt
  end.

Definition validate_project_envelope (e : NostrEvent) : result ProjectRejection unit :=
  match named_values "d" e with
  | [d] =>
      if decide (d = "") then Err (mkRejection "d-empty" "project event `d` tag must not be empty")
      else
        let members := named_values "a" e in
        if PROJECT_MEMBER_CAP <? length members then
          Err (mkRejection "member-cap"
            ("project event must have at most 64 member `a` tags (got " +:+ plain_nat (length members) +:+ ")"))
        else
          let? _ := check_member_arity (ev_tags e) in
          let? _ := check_members ∅ members in
          let? _ := check_singletons e PROJECT_SINGLETON_METADATA_TAGS in
          let? _ := check_length e "name" PROJECT_NAME_MAX_LEN in
          let? _ := check_length e "description" PROJECT_DESCRIPTION_MAX_LEN in
          let? _ := check_length e "buzz-channel" PROJECT_METADATA_TAG_MAX_LEN in
          check_length e "buzz-visibility" PROJECT_METADATA_TAG_MAX_LEN
  | d_tags =>
      Err (mkRejection "d-cardinality"
        ("project event must have exactly one `d` tag (got " +:+ plain_nat (length d_tags) +:+ ")"))
  end.

End envelopes.

(** ** Reminders (30300) *)

Definition MAX_NOT_BEFORE : N := 9007199254740991.

Definition validate_not_before (tag_value : string) : result string N :=
  if bool_decide (tag_value = "") || negb (str_all is_ascii_digit tag_value) then Err "malformed not_before"
  else if leading_zero tag_value then Err "malformed not_before"
  else
    match parse_uint u64_max tag_value with
    | None => Err "malformed not_before"
    | Some value => if (MAX_NOT_BEFORE <? value)%N then Err "malformed not_before" else Ok value
    end.

Record ReminderScan := mkReminder {
  rm_not_before : option N;
  rm_expiration : option string;
  rm_d_count : N;
  rm_d_empty : bool
}.

Fixpoint reminder_loop (s : ReminderScan) (tags : list Tag) : result string ReminderScan :=
  match tags with
  | [] => Ok s
  | (name :: value :: _) :: tags =>
      if decide (name = "not_before") then
        if decide (rm_not_before s ≠ None) then Err "malformed not_before"
        else
          let? nb := validate_not_before value in
          reminder_loop (mkReminder (Some nb) (rm_expiration s) (rm_d_count s) (rm_d_empty s)) tags
      else if decide (name = "expiration") then
        reminder_loop (mkReminder (rm_not_before s) (Some value) (rm_d_count s) (rm_d_empty s)) tags
      else if decide (name = "d") then
        reminder_loop (mkReminder (rm_not_before s) (rm_expiration s) (N.min 255 (rm_d_count s + 1))
                         (rm_d_empty s || bool_decide (value = ""))) tags
      else reminder_loop s tags
  | _ :: tags => reminder_loop s tags
  end.

(** [max_delta] is the environment variable or its default, [now] the clock. *)
Definition validate_event_reminder (max_delta now : N) (e : NostrEvent) : result string unit :=
  let? s := reminder_loop (mkReminder None None 0 false) (ev_tags e) in
  if decide (rm_d_count s = 0%N) then Err "missing d tag"
  else if (1 <? rm_d_count s)%N then Err "duplicate d tag"
  else if rm_d_empty s then Err "empty d tag"
  else
    match rm_not_before s with
    | None => Ok tt
    | Some nb =>
        if ((now + max_delta) mod 2 ^ 64 <? nb)%N then Err "not_before too far in future"
        else
          match rm_expiration s ≫= parse_uint u64_max with
          | Some exp => if (exp <=? nb)%N then Err "expiration before not_before" else Ok tt
          | None => Ok tt
          end
    end.

(** ** What the readers of stored events rely on *)

(** A shared-gated event is published by one tag of exactly this shape, or not at all. *)
Definition shared_tags (e : NostrEvent) : list Tag := List.filter (λ t, bool_decide (head t = Some "shared")) (ev_tags e).

Definition shared_shape_ok (e : NostrEvent) : Prop := shared_tags e = [] ∨ shared_tags e = [["shared"; "true"]].

(** ** The grammar of a project *)

Definition member_coordinate (owner repo_d : string) : string :=
  PROJECT_MEMBER_KIND_SEGMENT +:+ ":" +:+ owner +:+ ":" +:+ repo_d.

Definition metadata_limits : list (string * nat) :=
  [("name", PROJECT_NAME_MAX_LEN); ("description", PROJECT_DESCRIPTION_MAX_LEN);
   ("buzz-channel", PROJECT_METADATA_TAG_MAX_LEN); ("buzz-visibility", PROJECT_METADATA_TAG_MAX_LEN)].

Record project_ok (e : NostrEvent) : Prop := {
  po_address : ∃ d, d ≠ "" ∧ named_values "d" e = [d];
  po_cap : length (named_values "a" e) ≤ PROJECT_MEMBER_CAP;
  po_arity : ∀ t, t ∈ ev_tags e → head t = Some "a" → 2 ≤ length t ≤ 3;
  po_members : ∀ m, m ∈ named_values "a" e → ∃ owner repo_d,
    m = member_coordinate owner repo_d ∧ is_sha256_hex owner = true ∧ repo_d ≠ "";
  po_distinct : NoDup (named_values "a" e);
  po_metadata : ∀ name max, (name, max) ∈ metadata_limits →
    length (named_values name e) ≤ 1 ∧ ∀ v, v ∈ named_values name e → String.length v ≤ max
}.

Section envelope_proofs.
Context `{NostrApi} `{DebugApi}.

Lemma let_ok {E A B} (r : result E A) (f : A → result E B) b : (let? a := r in f a) = Ok b ↔ ∃ a, r = Ok a ∧ f a = Ok b.
Proof. destruct r as [a|x]; naive_solver. Qed.

Lemma ok_unit {E} (r : result E unit) : (∃ a, r = Ok a) ↔ r = Ok tt.
Proof. split; [intros [[] ?]|]; eauto. Qed.

(** *** Shared tags *)

Lemma shared_tag_loop_ok label n tags :
  shared_tag_loop label n tags = Ok tt ↔
    Forall (λ t, t = ["shared"; "true"]) (List.filter (λ t, bool_decide (head t = Some "shared")) tags) ∧
    n + length (List.filter (λ t, bool_decide (head t = Some "shared")) tags) ≤ 1.
Proof.
  revert n. induction tags as [|t tags IH]; intros n; simpl.
  { destruct (Nat.ltb_spec 1 n); split; [done|intros [_ ?]; lia|intros _; split; [constructor|lia]|done]. }
  case_decide as Hh.
  - rewrite bool_decide_true by done. case_decide as Hs.
    + split; [done|]. intros [Hf _]. apply Forall_cons in Hf as [-> _]. simpl in Hs. naive_solver.
    + rewrite IH. simpl. assert (t = ["shared"; "true"]) as ->.
      { destruct t as [|a [|b [|c t]]]; simpl in *; try naive_solver.
        apply Decidable.not_or in Hs as [_ Hs]. destruct (decide (b = "true")) as [->|Hb]; [naive_solver|].
        destruct Hs. by intros [= ->]. }
      rewrite Forall_cons. split; [intros [? ?]; split_and!; [done..|lia]|intros [[_ ?] ?]; split; [done|lia]].
  - rewrite bool_decide_false by done. apply IH.
Qed.

Lemma validate_shared_tag_ok e label : validate_shared_tag e label = Ok tt ↔ shared_shape_ok e.
Proof.
  unfold validate_shared_tag, shared_shape_ok, shared_tags. rewrite shared_tag_loop_ok.
  destruct (List.filter _ _) as [|t [|t' l]] eqn:E; simpl.
  - split; [by left|]. intros _. split; [constructor|lia].
  - split; [intros [Hf _]; apply Forall_cons in Hf as [-> _]; by right|].
    intros [?|[= ->]]; [done|]. split; [by repeat constructor|lia].
  - split; [intros [_ ?]; lia|]. intros [?|?]; simplify_eq.
Qed.

Lemma filter_ext_bool {A} (f g : A → bool) l : (∀ x, f x = g x) → List.filter f l = List.filter g l.
Proof. intros Hfg. induction l as [|x l IH]; simpl; [done|]. by rewrite Hfg, IH. Qed.

Lemma event_is_shared_tags e : event_is_shared e = true ↔ shared_tags e = [["shared"; "true"]].
Proof.
  rewrite event_is_shared_iff. unfold shared_tags.
  rewrite (filter_ext_bool (λ t : list string, bool_decide (head t = _)) (λ t, bool_decide (t !! 0 = Some "shared"))); [done|].
  by intros [].
Qed.

Lemma shared_tags_named e t : t ∈ shared_tags e ↔ t ∈ ev_tags e ∧ head t = Some "shared".
Proof.
  unfold shared_tags. induction (ev_tags e) as [|x l IH]; simpl; [set_solver|].
  case_bool_decide; rewrite ?elem_of_cons, IH, ?elem_of_cons; naive_solver.
Qed.

(** C30: A stored head of a shared-gated kind is unambiguous: once the validator accepted
    it, the readers' gate shows it to others exactly when it carries a tag named [shared],
    and then that tag is [shared, true] and nothing else. *)
Theorem shared_heads_unambiguous e label reader :
  validate_shared_tag e label = Ok tt → contains SHARED_GATED_KINDS (ev_kind e) = true → reader ≠ ev_pubkey e →
  (is_unshared_gated_event e reader = false ↔ ∃ t, t ∈ ev_tags e ∧ head t = Some "shared") ∧
  (∀ t, t ∈ ev_tags e → head t = Some "shared" → t = ["shared"; "true"]).
Proof.
  rewrite validate_shared_tag_ok. intros Hs Hk Hr. unfold is_unshared_gated_event, is_shared_gated_kind.
  rewrite Hk, decide_False by congruence. cbn [negb]. split.
  - rewrite negb_false_iff, event_is_shared_tags.
    transitivity (∃ t, t ∈ shared_tags e); [|by setoid_rewrite shared_tags_named].
    destruct Hs as [Hs|Hs]; rewrite Hs.
    + split; [done|]. intros [t Ht]. by apply elem_of_nil in Ht.
    + split; [intros _; eexists; by left|done].
  - intros t Ht Hh. assert (t ∈ shared_tags e) as Hin by (by apply shared_tags_named).
    destruct Hs as [Hs|Hs]; rewrite Hs in Hin; [by apply elem_of_nil in Hin|by apply list_elem_of_singleton in Hin].
Qed.

(** *** Projects *)

Lemma sha256_hex_no_colon s : is_sha256_hex s = true → str_contains ":" s = false.
Proof. intros [_ Ha]%andb_true_iff. by eapply str_all_contains. Qed.

Lemma parse_project_member_coordinate_ok m :
  parse_project_member_coordinate m = Ok tt ↔
  ∃ owner repo_d, m = member_coordinate owner repo_d ∧ is_sha256_hex owner = true ∧ repo_d ≠ "".
Proof.
  unfold parse_project_member_coordinate, three_segments, member_coordinate. split.
  - destruct (split_once ":" m) as [[k rest]|] eqn:E1; [|done]. simpl.
    destruct (split_once ":" rest) as [[o r]|] eqn:E2; [|done]. simpl.
    case_decide as Hk; [done|]. destruct (is_sha256_hex o) eqn:Ho; [|done]. simpl. case_decide as Hr; [done|]. intros _.
    subst k. apply split_once_Some in E1 as [-> _], E2 as [-> _]. by exists o, r.
  - intros (owner & repo_d & -> & Ho & Hr).
    change (PROJECT_MEMBER_KIND_SEGMENT +:+ ":" +:+ owner +:+ ":" +:+ repo_d)
      with (PROJECT_MEMBER_KIND_SEGMENT +:+ String ":" (owner +:+ String ":" repo_d)).
    rewrite split_once_app by done. simpl. rewrite split_once_app by (by apply sha256_hex_no_colon). simpl.
    rewrite Ho. by rewrite decide_False.
Qed.

Lemma check_member_arity_ok tags :
  check_member_arity tags = Ok tt ↔ ∀ t, t ∈ tags → head t = Some "a" → 2 ≤ length t ≤ 3.
Proof.
  induction tags as [|t tags IH]; cbn [check_member_arity]; [set_solver|].
  case_decide as Ha.
  - split; [done|]. intros Hall. destruct Ha as [Ha Hn]. destruct Hn. apply Hall; [left|done].
  - rewrite IH. setoid_rewrite elem_of_cons. split; [|naive_solver].
    intros Hall t' [->|Ht'] Hh; [|by apply Hall]. apply dec_stable. naive_solver.
Qed.

Lemma check_members_ok seen members :
  check_members seen members = Ok tt ↔
    Forall (λ m, parse_project_member_coordinate m = Ok tt) members ∧ NoDup members ∧ (∀ m, m ∈ members → m ∉ seen).
Proof.
  revert seen. induction members as [|m members IH]; intros seen; cbn [check_members].
  { split; [|done]. intros _. split_and!; [constructor..|]. by intros m ?%elem_of_nil. }
  rewrite let_ok, Forall_cons, NoDup_cons. setoid_rewrite elem_of_cons. split.
  - intros ([] & Hp & Hc). case_decide; [done|]. apply IH in Hc as (Hf & Hn & Hs). split_and!; [done..| |done|].
    + intros Hm. apply (Hs m Hm). set_solver.
    + intros m' [->|Hm']; [done|]. specialize (Hs m' Hm'). set_solver.
  - intros ([Hp Hf] & [Hm Hn] & Hs). exists tt. split; [done|]. rewrite decide_False by (apply Hs; by left).
    apply IH. split_and!; [done..|]. intros m' Hm'. specialize (Hs m' (or_intror Hm')). set_unfold. naive_solver.
Qed.

Lemma check_singletons_ok e names : check_singletons e names = Ok tt ↔ ∀ n, n ∈ names → length (named_values n e) ≤ 1.
Proof.
  induction names as [|n names IH]; cbn [check_singletons]; [set_solver|]. setoid_rewrite elem_of_cons.
  destruct (Nat.ltb_spec 1 (length (named_values n e))) as [Hl|Hl].
  - split; [done|]. intros Hall. specialize (Hall n (or_introl eq_refl)). lia.
  - rewrite IH. naive_solver.
Qed.

Lemma check_length_ok e name max :
  length (named_values name e) ≤ 1 →
  check_length e name max = Ok tt ↔ ∀ v, v ∈ named_values name e → String.length v ≤ max.
Proof.
  unfold check_length. destruct (named_values name e) as [|v [|v' l]]; intros Hl; simpl in Hl; [|..|lia].
  - split; [|done]. by intros _ v ?%elem_of_nil.
  - simpl. setoid_rewrite list_elem_of_singleton. destruct (Nat.ltb_spec max (String.length v)).
    + split; [done|]. intros Hall. specialize (Hall v eq_refl). lia.
    + split; [|done]. by intros _ ? ->.
Qed.

Lemma metadata_ok e :
  (let? _ := check_singletons e PROJECT_SINGLETON_METADATA_TAGS in
   let? _ := check_length e "name" PROJECT_NAME_MAX_LEN in
   let? _ := check_length e "description" PROJECT_DESCRIPTION_MAX_LEN in
   let? _ := check_length e "buzz-channel" PROJECT_METADATA_TAG_MAX_LEN in
   check_length e "buzz-visibility" PROJECT_METADATA_TAG_MAX_LEN) = Ok tt ↔
  ∀ name max, (name, max) ∈ metadata_limits →
    length (named_values name e) ≤ 1 ∧ ∀ v, v ∈ named_values name e → String.length v ≤ max.
Proof.
  transitivity (Forall (λ l, length (named_values l.1 e) ≤ 1 ∧ ∀ v, v ∈ named_values l.1 e → String.length v ≤ l.2) metadata_limits);
    [|rewrite Forall_forall; split; [intros Hall name max Hin; by apply (Hall (name, max))|intros Hall [name max]; apply Hall]].
  unfold metadata_limits. rewrite !Forall_cons, Forall_nil. cbn [fst snd].
  rewrite let_ok. split.
  - intros ([] & Hs & Hl). rewrite check_singletons_ok in Hs.
    unfold PROJECT_SINGLETON_METADATA_TAGS in Hs.
    do 3 (rewrite let_ok in Hl; destruct Hl as ([] & Hx & Hl); rewrite check_length_ok in Hx by (apply Hs; set_solver);
          revert Hx).
    intros ???.
    rewrite check_length_ok in Hl by (apply Hs; set_solver). split_and!; try done; apply Hs; set_solver.
  - intros ([? ?] & [? ?] & [? ?] & [? ?] & _). exists tt. split.
    { apply check_singletons_ok. unfold PROJECT_SINGLETON_METADATA_TAGS. intros n Hn.
      repeat (apply elem_of_cons in Hn as [->|Hn]; [done|]). by apply elem_of_nil in Hn. }
    repeat (rewrite let_ok; exists tt; split; [by rewrite check_length_ok|]). by rewrite check_length_ok.
Qed.

Lemma project_envelope_sound e : validate_project_envelope e = Ok tt → project_ok e.
Proof.
  unfold validate_project_envelope.
  destruct (named_values "d" e) as [|d [|d' ds]] eqn:Ed; try done. case_decide as Hd; [done|].
  destruct (Nat.ltb_spec PROJECT_MEMBER_CAP (length (named_values "a" e))) as [|Hcap]; [done|].
  rewrite let_ok. intros ([] & Ha & Hr). rewrite let_ok in Hr. destruct Hr as ([] & Hm & Hmeta).
  rewrite metadata_ok in Hmeta. rewrite check_member_arity_ok in Ha. apply check_members_ok in Hm as (Hf & Hn & _).
  split; [eauto|done|done| |done|done].
  intros m Hin. apply parse_project_member_coordinate_ok. by eapply Forall_forall in Hf.
Qed.

(** C31: The validator of project envelopes accepts exactly the events with one non-empty
    address, at most 64 members, each a coordinate of a git repository under a public key,
    no member twice, and at most one bounded value of each metadata tag. *)
Theorem project_envelope_exact e : validate_project_envelope e = Ok tt ↔ project_ok e.
Proof.
  split; [apply project_envelope_sound|]. unfold validate_project_envelope.
  intros [(d & Hd & ->) Hcap Harity Hmem Hnd Hmeta]. rewrite decide_False by done.
  destruct (Nat.ltb_spec PROJECT_MEMBER_CAP (length (named_values "a" e))) as [|_]; [lia|].
  rewrite let_ok. exists tt. split; [by apply check_member_arity_ok|]. rewrite let_ok. exists tt.
  split; [|by apply metadata_ok]. apply check_members_ok. split_and!; [|done|set_solver].
  apply Forall_forall. intros m Hin. by apply parse_project_member_coordinate_ok, Hmem.
Qed.

End envelope_proofs.

(** *** Schedules *)

(** A reminder's schedule is accepted exactly when it is the decimal text, without
    leading zeros, of a time up to [2^53 - 1], and with that time. *)
Theorem not_before_exact s v : validate_not_before s = Ok v ↔ s = num_to_string v ∧ (v ≤ MAX_NOT_BEFORE)%N.
Proof.
  unfold validate_not_before. split.
  - case_bool_decide as Hn; [done|]. destruct (str_all is_ascii_digit s) eqn:Hd; [|done]. cbn [orb negb].
    destruct (leading_zero s) eqn:Hz; [done|]. destruct (parse_uint u64_max s) as [v'|] eqn:Hp; [|done].
    destruct (N.ltb_spec MAX_NOT_BEFORE v'); [done|]. intros [= ->]. split; [by apply parse_uint_canonical|done].
  - intros [-> Hv]. rewrite bool_decide_false by apply num_to_string_nonempty. rewrite num_to_string_digits. cbn [orb negb].
    assert (v < 10 ^ 20)%N by (eapply N.le_lt_trans; [exact Hv|done]).
    rewrite num_to_string_no_leading, parse_uint_num by (done || (etransitivity; [exact Hv|done])).
    by rewrite (proj2 (N.ltb_ge _ _)).
Qed.

(** ** Witnesses *)

Module IngestEnvelopesDemo.

#[local] Instance demo_debug : DebugApi := {| debug_str := quoted; debug_strs := foldr String.append "" |}.

Definition persona (tags : list Tag) : NostrEvent := mkEvent 1 7 100 KIND_PERSONA (["d"; "helper"] :: tags) "".

Lemma shared_heads_unambiguous_witness :
  (is_unshared_gated_event (persona [["shared"; "true"]]) 8 = false ↔
     ∃ t, t ∈ ev_tags (persona [["shared"; "true"]]) ∧ head t = Some "shared") ∧
  (∀ t, t ∈ ev_tags (persona [["shared"; "true"]]) → head t = Some "shared" → t = ["shared"; "true"]).
Proof. apply (shared_heads_unambiguous (persona [["shared"; "true"]]) "persona event" 8); by vm_compute. Defined.

(** The validator looks at tags named [shared] only, the SQL containment at any position: a
    tag that has both words elsewhere is accepted, is not shared for the gate, and is
    selected by the query. *)
Example shared_words_elsewhere :
  let e := persona [["x"; "shared"; "true"]] in
  validate_persona_envelope e = Ok tt ∧ is_unshared_gated_event e 8 = true ∧
  json_contains (ev_tags e) [["shared"; "true"]] = true.
Proof. by vm_compute. Qed.

Example persona_verdicts :
  validate_persona_envelope (persona [["shared"; "yes"]]) ≠ Ok tt ∧
  validate_persona_envelope (persona [["shared"; "true"]; ["shared"; "true"]]) ≠ Ok tt ∧
  validate_persona_envelope (mkEvent 1 7 100 KIND_PERSONA [["d"; "-helper"]] "") ≠ Ok tt.
Proof. split_and!; vm_compute; congruence. Qed.

Example not_before_verdicts :
  validate_not_before "1700000000" = Ok 1700000000%N ∧ validate_not_before "007" ≠ Ok 7%N ∧
  validate_not_before "9007199254740991" = Ok 9007199254740991%N ∧ is_ok (validate_not_before "9007199254740992") = false.
Proof. split_and!; vm_compute; congruence. Qed.

End IngestEnvelopesDemo.
