(* ===== verification/IngestCalls.v ===== *)
(** * Ingest: lookups and thread ancestry ([buzz-relay/src/handlers/ingest.rs], [buzz-core/src/nip10.rs])

    What the write path asks of the database, the caches and the handlers it hands events
    to is a call ([icall]) with a reply; the checks that need such lookups are programs of
    calls.  Handlers that are files of their own ([command_executor.rs],
    [relay_admin.rs], [side_effects.rs] and the like) are single calls.  Metrics and logs
    are left out.

    The last part compares the two ways a thread is resolved: from the tags a client sends
    and, for the replies the relay writes itself, from the parent alone. *)

From stdpp Require Import base gmap strings list.
From Stdlib Require Import Ascii.
From S2P Require Import Prelude Text Nostr CanonicalJson Tenant MeshWire Auth Topics Protocol Filter ReadGate EventQuery.
From S2P Require Import Connections Fanout Conformance Programs Imeta IngestRules IngestEnvelopes.

(** ** Data *)

(** [buzz_db::DbError]: the variants the code tells apart, and what it prints as. *)
Inductive FaultKind := ChannelNotFound | AuthRejected | OtherFault.
Record DbFault := mkFault { fault_kind : FaultKind; fault_text : string }.

(** [depth + 1] of an [i32], which wraps around. *)
Definition i32_succ (depth : Z) : Z := ((depth + 1 + 2 ^ 31) mod 2 ^ 32 - 2 ^ 31)%Z.

(** The columns of [ChannelRecord] and [ThreadMetadataRecord] that ingest reads. *)
Record ChannelRecord := mkChannelRecord {
  cr_channel_type : string;
  cr_visibility : string;
  cr_created_by : bytes;
  cr_archived_at : option Z;
  cr_ttl_seconds : option Z
}.
Record ThreadMetadataRecord := mkThreadRecord { tr_root_event_id : option bytes; tr_depth : Z }.

Record ThreadMetadataOwned := mkThreadMeta {
  tm_event_id : bytes;
  tm_event_created_at : Z;
  tm_channel_id : Uuid;
  tm_parent_event_id : bytes;
  tm_parent_event_created_at : Z;
  tm_root_event_id : bytes;
  tm_root_event_created_at : Z;
  tm_depth : Z;
  tm_broadcast : bool
}.

Record ReplyAncestry := mkAncestry {
  ra_parent_event_id : bytes;
  ra_parent_event_created_at : Z;
  ra_root_event_id : bytes;
  ra_root_event_created_at : Z;
  ra_depth : Z
}.

Record RestrictionState := mkRestriction { rs_banned : bool; rs_muted_until : option Z }.
Record BlobSidecar := mkSidecar { sc_ext : string; sc_mime_type : string; sc_size : N; sc_duration_secs : option F64 }.

Inductive ChannelVisibility := Open | Private.
Inductive ChannelType := Stream | Forum | Dm | Workflow.
Inductive RelayAdminError := Banned | AdminRejected (reason : string) | AdminInternal (reason : string).
Inductive RemoveResult := Removed | IsOwner | NotFound | RoleMismatch.
Inductive AcceptError := Validation (reason : string) | AcceptInternal (reason : string).
Inductive AcceptLeaseOutcome :=
| Accepted | StaleEvent | StaleGeneration | EndpointAlreadyLeased | LeaseQuotaExceeded | SourceEventCollision
| ConstraintViolation.
Inductive ReactionEventInsertOutcome :=
| TargetMissing | Duplicate | Inserted (stored_event : StoredEvent) (was_inserted : bool).
Inductive ReactionChannelResult :=
| ReactionChannel (ch : Uuid) | NoChannel | TargetNotFound | NoTarget | ReactionDbError (e : string).

(** ** Calls

    A time is in seconds, but for [UtcNow] and [rs_muted_until], which are compared and in
    nanoseconds. *)

Inductive icall :=
| IsServingActive (c : CommunityId)
| SpawnVerify (e : Event)
| NowSecs
| UtcNow
| ReadReminderHorizon
| HandleCommand (t : TenantContext) (e : NostrEvent) (a : IngestAuth)
| HandleFeedback (t : TenantContext) (e : NostrEvent)
| HandleReport (t : TenantContext) (e : NostrEvent)
| HandleModeration (t : TenantContext) (e : NostrEvent)
| GetRestriction (c : CommunityId) (pk : PublicKey)
| GetEventById (c : CommunityId) (id : bytes)
| GetThreadMetadata (c : CommunityId) (id : bytes)
| GetChannel (c : CommunityId) (ch : Uuid)
| VisibilityCached (c : CommunityId) (ch : Uuid) (prefetched : option string)
| IsMemberCached (c : CommunityId) (ch : Uuid) (pk : bytes)
| IsAgentOwner (c : CommunityId) (agent owner : bytes)
| HuddleLinkExists (c : CommunityId) (parent backing : Uuid) (creator : bytes)
| RecordTrace (a : TraceAction) (s : AbstractState)
| HandleRelayAdmin (t : TenantContext) (e : NostrEvent)
| RemoveRelayMember (c : CommunityId) (pubkey_hex : string)
| PublishMemberRemoved (t : TenantContext) (pubkey_hex : string)
| PublishMembershipList (t : TenantContext)
| ValidateAdmin (t : TenantContext) (kind : Z) (e : NostrEvent)
| HandleIdentityArchive (t : TenantContext) (e : NostrEvent)
| ValidateDeletion (t : TenantContext) (e : NostrEvent)
| CreateChannelWithId (c : CommunityId) (ch : Uuid) (name : string) (ty : ChannelType) (vis : ChannelVisibility)
    (about : option string) (creator : bytes) (ttl : option Z)
| AcceptPushLease (t : TenantContext) (e : NostrEvent) (now : Z)
| GetSidecar (t : TenantContext) (sha256 : string)
| HeadBlob (key : string)
| InsertReaction (c : CommunityId) (e : NostrEvent) (ch : option Uuid) (thread : option ThreadMetadataOwned)
    (target actor : bytes) (emoji : string)
| ReplaceAddressable (c : CommunityId) (e : NostrEvent) (ch : option Uuid)
| ReplaceParameterized (c : CommunityId) (e : NostrEvent) (d : string) (ch : option Uuid)
| InsertEvent (c : CommunityId) (e : NostrEvent) (ch : option Uuid) (thread : option ThreadMetadataOwned)
| SoftDeleteChannel (c : CommunityId) (ch : Uuid)
| InvalidateChannelDeleted (t : TenantContext)
| HandleSideEffects (t : TenantContext) (kind : Z) (e : NostrEvent)
| EmitThreadSummary (t : TenantContext) (ch : Uuid) (root : bytes)
| DispatchPersistent (t : TenantContext) (stored : StoredEvent) (kind : Z) (pubkey_hex : string)
    (threaded : option ThreadedChannelVisibility).

Definition ireply (c : icall) : Type :=
  match c with
  | IsServingActive _ => result DbFault bool
  | SpawnVerify _ => bool
  | NowSecs | UtcNow => Z
  | ReadReminderHorizon => option string
  | HandleCommand _ _ _ => result IngestError IngestResult
  | HandleFeedback _ _ | HandleReport _ _ | HandleModeration _ _ => result string unit
  | GetRestriction _ _ => result DbFault RestrictionState
  | GetEventById _ _ => result DbFault (option StoredEvent)
  | GetThreadMetadata _ _ => result DbFault (option ThreadMetadataRecord)
  | GetChannel _ _ => result DbFault ChannelRecord
  | VisibilityCached _ _ _ => result DbFault string
  | IsMemberCached _ _ _ | IsAgentOwner _ _ _ | HuddleLinkExists _ _ _ _ => result DbFault bool
  | RecordTrace _ _ => unit
  | HandleRelayAdmin _ _ => result RelayAdminError unit
  | RemoveRelayMember _ _ => result DbFault RemoveResult
  | PublishMemberRemoved _ _ | PublishMembershipList _ => result string unit
  | ValidateAdmin _ _ _ | HandleIdentityArchive _ _ | ValidateDeletion _ _ => result string unit
  | CreateChannelWithId _ _ _ _ _ _ _ _ => result DbFault bool
  | AcceptPushLease _ _ _ => result AcceptError AcceptLeaseOutcome
  | GetSidecar _ _ => option BlobSidecar
  | HeadBlob _ => result string bool
  | InsertReaction _ _ _ _ _ _ _ => result DbFault ReactionEventInsertOutcome
  | ReplaceAddressable _ _ _ | ReplaceParameterized _ _ _ _ | InsertEvent _ _ _ _ => result DbFault (StoredEvent * bool)
  | SoftDeleteChannel _ _ => result DbFault unit
  | InvalidateChannelDeleted _ => unit
  | HandleSideEffects _ _ _ => result string unit
  | EmitThreadSummary _ _ _ => unit
  | DispatchPersistent _ _ _ _ _ => unit
  end.

Abbreviation io := (prog icall ireply).

Definition ask (c : icall) : io (ireply c) := Act c Ret.

(** A call with its reply. *)
Definition ievent : Type := {c : icall & ireply c}.
Definition iev (c : icall) (r : ireply c) : ievent := existT c r.
Definition icall_of (e : ievent) : icall := projT1 e.

(** [PublicKey::to_bytes], [EventId::as_bytes]. *)
Class KeyBytes := { pubkey_bytes : PublicKey → bytes; event_id_bytes : EventId → bytes }.

(** ** Thread markers ([nip10.rs]) *)

Record ThreadMarkers := mkMarkers { tk_root : option string; tk_reply : option string }.

Definition resolve_markers (m : ThreadMarkers) : option (string * string) :=
  match tk_root m, tk_reply m with
  | Some root, Some reply => Some (root, reply)
  | None, Some reply => Some (reply, reply)
  | _, None => None
  end.

Definition mark_step (m : ThreadMarkers) (parts : Tag) : ThreadMarkers :=
  match parts with
  | name :: id :: _ :: marker :: _ =>
      if decide (name = "e" ∧ is_event_id_hex id = true) then
        if decide (marker = "root") then mkMarkers (Some id) (tk_reply m)
        else if decide (marker = "reply") then mkMarkers (tk_root m) (Some id)
        else m
      else m
  | _ => m
  end.

Definition parse_thread_markers (tags : list Tag) : ThreadMarkers := foldl mark_step (mkMarkers None None) tags.

Section lookups.
Context `{NostrApi} `{UuidParse} `{HexApi} `{ChronoApi} `{KeyBytes} `{F64Api}.
Context {num : Type} `{WireApi num}.

(** [DateTime::from_timestamp(created_at as i64, 0)]. *)
Definition created_time (e : NostrEvent) : option Z := from_timestamp (as_i64 (Z.to_N (ev_created_at e))).

(** [.unwrap_or_else(Utc::now)]. *)
Definition or_now (t : option Z) : io Z := match t with Some t => Ret t | None => ask NowSecs end.

(** The creation time of an event looked up by id, or [fallback]. *)
Definition created_or (c : CommunityId) (id : bytes) (fallback : Z) : io Z :=
  prog_bind (λ r, Ret (match r with Ok (Some root_ev) => default fallback (created_time (event root_ev)) | _ => fallback end))
    (ask (GetEventById c id)).

(** [hex::decode(..).ok().filter(|b| b.len() == 32)]. *)
Definition key_of_hex (hex : string) : option bytes := b ← hex_decode hex; if decide (length b = 32) then Some b else None.

Definition derive_ancestry_from_parent_tags (c : CommunityId) (parent_event : NostrEvent) (parent_bytes : bytes)
    (parent_created : Z) : io (bytes * Z * Z) :=
  let parent_root := default parent_bytes
    ('(root, _) ← resolve_markers (parse_thread_markers (ev_tags parent_event)); key_of_hex root) in
  if decide (parent_root = parent_bytes) then Ret (parent_root, parent_created, 1%Z)
  else prog_bind (λ root_created, Ret (parent_root, root_created, 2%Z)) (created_or c parent_root parent_created).

(** The checks on the parent the two resolvers share: its event, its metadata row and its
    time.  Both lookups are made before either reply is looked at. *)
Definition load_parent (c : CommunityId) (parent_bytes : bytes) (ch : Uuid)
    : io (result string (StoredEvent * Z * result DbFault (option ThreadMetadataRecord))) :=
  prog_bind (λ parent_event_result, prog_bind (λ parent_meta_result,
    match parent_event_result with
    | Err e => Ret (Err ("db error looking up parent: " +:+ fault_text e))
    | Ok None => Ret (Err "reply parent not found")
    | Ok (Some parent_event) =>
        match channel_id parent_event with
        | None => Ret (Err "parent event has no channel association")
        | Some parent_ch =>
            if decide (parent_ch ≠ ch) then Ret (Err "parent event belongs to a different channel")
            else prog_bind (λ parent_created, Ret (Ok (parent_event, parent_created, parent_meta_result)))
                   (or_now (created_time (event parent_event)))
        end
    end) (ask (GetThreadMetadata c parent_bytes))) (ask (GetEventById c parent_bytes)).

Definition meta_result {A} (r : result DbFault A) : result string A :=
  map_err (λ e, "db error looking up thread metadata: " +:+ fault_text e) r.

Definition is_broadcast (e : NostrEvent) : bool :=
  existsb (λ parts, match parts with b :: one :: _ => bool_decide (b = "broadcast" ∧ one = "1") | _ => false end) (ev_tags e).

(** The client's tags must name the root the relay knows. *)
Definition client_ancestry (c : CommunityId) (client_root_bytes parent_bytes : bytes) (parent_event : StoredEvent)
    (parent_created : Z) (parent_meta : option ThreadMetadataRecord) : io (result string (bytes * Z * Z)) :=
  match parent_meta with
  | Some meta =>
      let effective_root := default parent_bytes (tr_root_event_id meta) in
      if decide (client_root_bytes ≠ effective_root) then Ret (Err "root tag does not match thread ancestry")
      else
        prog_bind (λ root_ts,
          let depth := i32_succ (tr_depth meta) in
          if (100 <? depth)%Z then Ret (Err "thread depth limit exceeded") else Ret (Ok (effective_root, root_ts, depth)))
          (created_or c effective_root parent_created)
  | None =>
      prog_bind (λ '(parent_root, root_created, depth),
        if decide (client_root_bytes ≠ parent_root) then Ret (Err "root tag does not match thread ancestry")
        else Ret (Ok (parent_root, root_created, depth)))
        (derive_ancestry_from_parent_tags c (event parent_event) parent_bytes parent_created)
  end.

Definition resolve_nip10_thread_meta (c : CommunityId) (e : NostrEvent) (ch : Uuid) :
    io (result string (option ThreadMetadataOwned)) :=
  match resolve_markers (parse_thread_markers (ev_tags e)) with
  | None => Ret (Ok None)
  | Some (root_hex, parent_hex) =>
      match hex_decode parent_hex with
      | None => Ret (Err "invalid parent event ID hex")
      | Some parent_bytes =>
          let! (parent_event, parent_created, parent_meta_result) := load_parent c parent_bytes ch in
          match hex_decode root_hex with
          | None => Ret (Err "invalid root event ID hex")
          | Some client_root_bytes =>
              let! parent_meta := Ret (meta_result parent_meta_result) in
              let! (final_root_bytes, root_created, depth) :=
                client_ancestry c client_root_bytes parent_bytes parent_event parent_created parent_meta in
              prog_bind (λ event_created_at,
                Ret (Ok (Some (mkThreadMeta (event_id_bytes (ev_id e)) event_created_at ch parent_bytes parent_created
                                 final_root_bytes root_created depth (is_broadcast e)))))
                (or_now (created_time e))
          end
      end
  end.

Definition relay_ancestry (c : CommunityId) (parent_bytes : bytes) (parent_event : StoredEvent) (parent_created : Z)
    (parent_meta : option ThreadMetadataRecord) : io (bytes * Z * Z) :=
  match parent_meta with
  | Some meta =>
      let effective_root := default parent_bytes (tr_root_event_id meta) in
      if decide (effective_root = parent_bytes) then Ret (effective_root, parent_created, i32_succ (tr_depth meta))
      else prog_bind (λ root_ts, Ret (effective_root, root_ts, i32_succ (tr_depth meta)))
             (created_or c effective_root parent_created)
  | None => derive_ancestry_from_parent_tags c (event parent_event) parent_bytes parent_created
  end.

Definition resolve_relay_reply_thread_meta (c : CommunityId) (parent_hex : string) (ch : Uuid) :
    io (result string ReplyAncestry) :=
  match hex_decode parent_hex with
  | None => Ret (Err "invalid parent event ID hex")
  | Some parent_bytes =>
      let! (parent_event, parent_created, parent_meta_result) := load_parent c parent_bytes ch in
      let! parent_meta := Ret (meta_result parent_meta_result) in
      prog_bind (λ '(root_bytes, root_created, depth),
        if (100 <? depth)%Z then Ret (Err "thread depth limit exceeded")
        else Ret (Ok (mkAncestry parent_bytes parent_created root_bytes root_created depth)))
        (relay_ancestry c parent_bytes parent_event parent_created parent_meta)
  end.

Definition into_thread_meta (a : ReplyAncestry) (reply_event_id : bytes) (reply_created_at : Z) (ch : Uuid) :
    ThreadMetadataOwned :=
  mkThreadMeta reply_event_id reply_created_at ch (ra_parent_event_id a) (ra_parent_event_created_at a)
    (ra_root_event_id a) (ra_root_event_created_at a) (ra_depth a) false.

(** [workflow_sink.rs]: the tags of a reply the relay writes. *)
Definition ancestry_tags (a : ReplyAncestry) : list Tag :=
  let root_hex := hex_encode (ra_root_event_id a) in
  let parent_hex := hex_encode (ra_parent_event_id a) in
  if decide (root_hex = parent_hex) then [["e"; root_hex; ""; "reply"]]
  else [["e"; root_hex; ""; "root"]; ["e"; parent_hex; ""; "reply"]].

(** ** Reactions, membership and ownership *)

Definition derive_reaction_channel (c : CommunityId) (e : NostrEvent) : io ReactionChannelResult :=
  match last_e_target e with
  | None => Ret NoTarget
  | Some target_hex =>
      match hex_decode target_hex with
      | Some id_bytes =>
          if decide (length id_bytes = 32) then
            prog_bind (λ r, Ret (match r with
              | Ok (Some target) => match channel_id target with Some ch => ReactionChannel ch | None => NoChannel end
              | Ok None => TargetNotFound
              | Err e => ReactionDbError (fault_text e)
              end)) (ask (GetEventById c id_bytes))
          else Ret NoTarget
      | None => Ret NoTarget
      end
  end.

Definition check_channel_membership (t : TenantContext) (ch : Uuid) (pk : bytes) (row : option ChannelRecord) :
    io (result string unit) :=
  prog_bind (λ r,
    match r with
    | Ok true => Ret (Ok tt)
    | Err e => Ret (Err ("error: database error: " +:+ fault_text e))
    | Ok false =>
        prog_bind (λ is_open : bool, Ret (if is_open then Ok tt else Err "restricted: not a channel member"))
          (match row with
           | Some row => Ret (bool_decide (cr_visibility row = "open"))
           | None =>
               prog_bind (λ r, Ret (match r with Ok row => bool_decide (cr_visibility row = "open") | Err _ => false end))
                 (ask (GetChannel (community t) ch))
           end)
    end) (ask (IsMemberCached (community t) ch pk)).

Definition effective_message_author (e : NostrEvent) (relay_pubkey : PublicKey) : bytes :=
  if decide (ev_pubkey e = relay_pubkey) then
    match find_map (content_of "actor") (ev_tags e) ≫= key_of_hex with
    | Some b => b
    | None => default (pubkey_bytes (ev_pubkey e)) (find_map (λ t, content_of "p" t ≫= key_of_hex) (ev_tags e))
    end
  else pubkey_bytes (ev_pubkey e).

(** The channel of the target must be the one the event names. *)
Definition same_channel (named target : option Uuid) : result string unit :=
  match named, target with
  | Some a, Some b => if decide (a ≠ b) then Err "target event belongs to a different channel" else Ok tt
  | Some _, None => Err "target event has no channel"
  | None, _ => Ok tt
  end.

Definition load_target (c : CommunityId) (e : NostrEvent) (what : string) : io (result string StoredEvent) :=
  match first_e_target e with
  | None => Ret (Err ("missing e tag for " +:+ what +:+ " target"))
  | Some target_hex =>
      match hex_decode target_hex with
      | None => Ret (Err "invalid target event ID")
      | Some target_bytes =>
          prog_bind (λ r, Ret (match r with
            | Err e => Err ("db error: " +:+ fault_text e)
            | Ok None => Err (what +:+ " target event not found")
            | Ok (Some target) => Ok target
            end)) (ask (GetEventById c target_bytes))
      end
  end.

Definition validate_edit_ownership (relay_pubkey : PublicKey) (c : CommunityId) (e : NostrEvent) : io (result string unit) :=
  let! target := load_target c e "edit" in
  let! _ := Ret (same_channel (extract_channel_id e) (channel_id target)) in
  let author := effective_message_author (event target) relay_pubkey in
  let actor := pubkey_bytes (ev_pubkey e) in
  if decide (author = actor) then
    match channel_id target with
    | None => Ret (Ok tt)
    | Some ch =>
        prog_bind (λ r,
          match r with
          | Err e => Ret (Err ("db error checking membership: " +:+ fault_text e))
          | Ok true => Ret (Ok tt)
          | Ok false =>
              prog_bind (λ r, Ret (match r with
                | Ok row => if decide (cr_visibility row = "open") then Ok tt else Err "restricted: not a channel member"
                | Err _ => Err "restricted: not a channel member"
                end)) (ask (GetChannel c ch))
          end) (ask (IsMemberCached c ch actor))
    end
  else
    prog_bind (λ r, Ret (match r with
      | Err e => Err ("db error checking agent ownership: " +:+ fault_text e)
      | Ok true => Ok tt
      | Ok false => Err "must be event author to edit"
      end)) (ask (IsAgentOwner c author actor)).

Definition validate_forum_vote_target (c : CommunityId) (e : NostrEvent) : io (result string unit) :=
  let! target := load_target c e "vote" in
  if negb (contains [KIND_FORUM_POST; KIND_FORUM_COMMENT] (event_kind_u32 (event target)))
  then Ret (Err "vote target must be a forum post or comment")
  else Ret (same_channel (extract_channel_id e) (channel_id target)).

(** ** Huddles *)

Definition huddle_backing_channel_id (e : NostrEvent) : result IngestError Uuid :=
  match json_parse (ev_content e) with
  | None => Err (Rejected "invalid: Huddle event content must be a JSON object")
  | Some content =>
      match json_field content "ephemeral_channel_id" with
      | Some (JString id) =>
          match parse_uuid id with
          | Some ch => Ok ch
          | None => Err (Rejected "invalid: Huddle ephemeral_channel_id must be a UUID")
          end
      | _ => Err (Rejected "invalid: Huddle event must name an ephemeral_channel_id")
      end
  end.

Definition map_huddle_backing_channel_error (e : DbFault) : IngestError :=
  match fault_kind e with
  | ChannelNotFound => Rejected "invalid: Huddle backing channel not found"
  | _ => Internal ("error: loading Huddle backing channel: " +:+ fault_text e)
  end.

Definition expected_huddle_backing_ttl (ephemeral_ttl_override : option Z) : Z := default 3600%Z ephemeral_ttl_override.

Definition validate_huddle_lifecycle_event (relay_pubkey : PublicKey) (ttl_override : option Z) (t : TenantContext)
    (e : NostrEvent) (kind : Z) : io (result IngestError unit) :=
  if decide (kind ≠ KIND_HUDDLE_STARTED ∧ kind ≠ KIND_HUDDLE_ENDED) then Ret (Ok tt)
  else
    let! backing_channel_id := Ret (huddle_backing_channel_id e) in
    let! backing := prog_bind (λ r, Ret (map_err map_huddle_backing_channel_error r)) (ask (GetChannel (community t) backing_channel_id)) in
    let signer := pubkey_bytes (ev_pubkey e) in
    let signer_created_backing := bool_decide (cr_created_by backing = signer) in
    if decide (kind = KIND_HUDDLE_STARTED) then
      if negb signer_created_backing || bool_decide (cr_channel_type backing ≠ "stream")
         || bool_decide (cr_visibility backing ≠ "private")
         || bool_decide (cr_ttl_seconds backing ≠ Some (expected_huddle_backing_ttl ttl_override))
         || bool_decide (cr_archived_at backing ≠ None)
      then Ret (Err (Rejected "invalid: Huddle start must reference the signer's active private ephemeral stream"))
      else Ret (Ok tt)
    else if negb signer_created_backing && bool_decide (signer ≠ pubkey_bytes relay_pubkey) then
      Ret (Err (Rejected "invalid: only the Huddle creator or relay may end it"))
    else
      match extract_channel_id e with
      | None => Ret (Err (Rejected "invalid: Huddle end must name its parent channel"))
      | Some parent =>
          prog_bind (λ r, Ret (match r with
            | Err e => Err (Internal ("error: checking Huddle start linkage: " +:+ fault_text e))
            | Ok true => Ok tt
            | Ok false => Err (Rejected "invalid: Huddle end does not match a creator-signed start in this channel")
            end)) (ask (HuddleLinkExists (community t) parent backing_channel_id (cr_created_by backing)))
      end.

(** ** Blobs ([imeta.rs]) *)

(** The last value of a key, as the loop over the entries leaves it. *)
Definition entry_value (key : string) (parts : list string) : string :=
  default "" (last (omap (λ p, let '(k, v) := imeta_entry p in if decide (k = key) then Some v else None) parts)).

Definition head_blob (err : string) (missing : string) (key : string) : io (result string unit) :=
  prog_bind (λ r, Ret (match r with
    | Err e => Err (err +:+ e)
    | Ok true => Ok tt
    | Ok false => Err missing
    end)) (ask (HeadBlob key)).

Definition load_sidecar (t : TenantContext) (missing sha256 : string) : io (result string BlobSidecar) :=
  prog_bind (λ r, Ret (match r with Some s => Ok s | None => Err (missing +:+ sha256) end)) (ask (GetSidecar t sha256)).

Definition sidecar_matches (parts : list string) (s : BlobSidecar) : result string unit :=
  let m_value := entry_value "m" parts in
  let size_value := default 0%N (parse_uint u64_max (entry_value "size" parts)) in
  let duration_value := default f64_zero (parse_f64 (entry_value "duration" parts)) in
  if bool_decide (m_value ≠ "") && bool_decide (sc_mime_type s ≠ m_value) then
    Err ("imeta m (" +:+ m_value +:+ ") does not match stored MIME (" +:+ sc_mime_type s +:+ ")")
  else if (0 <? size_value)%N && bool_decide (sc_size s ≠ size_value) then
    Err ("imeta size (" +:+ num_to_string size_value +:+ ") does not match stored size (" +:+ num_to_string (sc_size s) +:+ ")")
  else
    match sc_duration_secs s with
    | Some stored_dur =>
        if negb (f64_le duration_value f64_zero) && negb (f64_is_nan duration_value)
           && f64_off_by_a_tenth duration_value stored_dur
        then Err ("imeta duration (" +:+ f64_to_string duration_value +:+ ") does not match stored duration ("
                  +:+ f64_to_string stored_dur +:+ ")")
        else Ok tt
    | None => Ok tt
    end.

Definition verify_poster (t : TenantContext) (image_value : string) : io (result string unit) :=
  match extract_hash_from_media_url image_value with
  | None => Ret (Err ("imeta image URL has no extractable hash: " +:+ image_value))
  | Some img_hash =>
      let! s := load_sidecar t "imeta image references nonexistent poster: " img_hash in
      if decide (sc_mime_type s ∈ ["image/jpeg"; "image/png"; "image/gif"; "image/webp"]) then
        match extract_ext_from_media_url image_value with
        | Some url_ext =>
            if decide (url_ext ≠ sc_ext s) then
              Ret (Err ("imeta image extension (" +:+ url_ext +:+ ") does not match stored extension (" +:+ sc_ext s +:+ ")"))
            else head_blob "storage error checking poster image: " ("imeta image references missing poster frame: " +:+ img_hash)
                   (img_hash +:+ "." +:+ sc_ext s)
        | None => head_blob "storage error checking poster image: " ("imeta image references missing poster frame: " +:+ img_hash)
                    (img_hash +:+ "." +:+ sc_ext s)
        end
      else Ret (Err ("imeta image poster MIME must be image type, got " +:+ sc_mime_type s))
  end.

Definition verify_blob (t : TenantContext) (parts : list string) : io (result string unit) :=
  let x_value := entry_value "x" parts in
  if decide (x_value = "") then Ret (Ok tt)
  else
    let! s := load_sidecar t "imeta references nonexistent blob: " x_value in
    let! _ := head_blob ("storage error checking blob " +:+ x_value +:+ ": ") ("imeta blob object missing in storage: " +:+ x_value)
                (x_value +:+ "." +:+ sc_ext s) in
    let! _ := Ret (sidecar_matches parts s) in
    let! _ := (if decide (entry_value "thumb" parts ≠ "") then
                 head_blob "storage error checking thumbnail: " ("imeta thumb references missing thumbnail: " +:+ x_value)
                   (x_value +:+ ".thumb.jpg")
               else Ret (Ok tt)) in
    if decide (entry_value "image" parts ≠ "") then verify_poster t (entry_value "image" parts) else Ret (Ok tt).

Fixpoint verify_imeta_blobs (t : TenantContext) (tags : list (list string)) : io (result string unit) :=
  match tags with
  | [] => Ret (Ok tt)
  | tag :: tags => let! _ := verify_blob t (tail tag) in verify_imeta_blobs t tags
  end.

End lookups.

(** ** The two resolvers agree *)

(** The result against a database that does not change meanwhile. *)
Fixpoint evaluate {A} (answer : ∀ c, ireply c) (p : io A) : A :=
  match p with
  | Ret a => a
  | Act c k => evaluate answer (k (answer c))
  end.

Lemma evaluate_bind {A B} answer (f : A → io B) (p : io A) :
  evaluate answer (prog_bind f p) = evaluate answer (f (evaluate answer p)).
Proof. induction p as [a|c k IH]; simpl; auto. Qed.

(** The rows a reader finds: ids are 32 bytes. *)
Record snapshot (answer : ∀ c, ireply c) (c : CommunityId) (events : bytes → option StoredEvent)
    (threads : bytes → option ThreadMetadataRecord) : Prop := {
  sn_events : ∀ id, answer (GetEventById c id) = Ok (events id);
  sn_threads : ∀ id, answer (GetThreadMetadata c id) = Ok (threads id);
  sn_id : ∀ id e, events id = Some e → length id = 32;
  sn_root : ∀ id m r, threads id = Some m → tr_root_event_id m = Some r → length r = 32
}.

(** Tags of a reply other than its thread markers. *)
Definition no_marker (t : Tag) : Prop := ∀ m, mark_step m t = m.

Section agreement.
Context `{NostrApi} `{UuidParse} `{hapi : HexApi} `{ChronoApi} `{KeyBytes} `{!HexLaws hapi}.
Context (answer : ∀ c, ireply c) (c : CommunityId) (events : bytes → option StoredEvent)
  (threads : bytes → option ThreadMetadataRecord) (Hsnap : snapshot answer c events threads).

Lemma hex_encode_id b : length b = 32 → is_event_id_hex (hex_encode b) = true.
Proof.
  intros Hb. unfold is_event_id_hex. rewrite bool_decide_true by (rewrite hex_encode_length; lia).
  cbn [andb]. eapply str_all_weaken; [|apply hex_encode_chars].
  intros [[] [] [] [] [] [] [] []]; vm_compute; done.
Qed.

Lemma markers_skip m tags : Forall no_marker tags → foldl mark_step m tags = m.
Proof. revert m. induction tags as [|t tags IH]; intros m Hf; [done|]. apply Forall_cons in Hf as [Ht Hf]. simpl. by rewrite Ht, IH. Qed.

Lemma mark_root m b : length b = 32 → mark_step m ["e"; hex_encode b; ""; "root"] = mkMarkers (Some (hex_encode b)) (tk_reply m).
Proof. intros Hb. unfold mark_step. by rewrite decide_True by (split; [done|by apply hex_encode_id]). Qed.

Lemma mark_reply m b : length b = 32 → mark_step m ["e"; hex_encode b; ""; "reply"] = mkMarkers (tk_root m) (Some (hex_encode b)).
Proof. intros Hb. unfold mark_step. by rewrite decide_True by (split; [done|by apply hex_encode_id]). Qed.

Lemma ancestry_markers a pre post :
  length (ra_root_event_id a) = 32 → length (ra_parent_event_id a) = 32 → Forall no_marker pre → Forall no_marker post →
  resolve_markers (parse_thread_markers (pre ++ ancestry_tags a ++ post)) =
    Some (hex_encode (ra_root_event_id a), hex_encode (ra_parent_event_id a)).
Proof.
  intros Hr Hp Hpre Hpost. unfold parse_thread_markers. rewrite !foldl_app, (markers_skip _ pre), markers_skip by done.
  unfold ancestry_tags. case_decide as He; cbn [foldl].
  - rewrite mark_reply by done. unfold resolve_markers. cbn. by rewrite <-He.
  - by rewrite mark_root, mark_reply.
Qed.

(** What [load_parent] finds. *)
Lemma load_parent_found id ch r :
  evaluate answer (load_parent c id ch) = Ok r →
  ∃ parent, events id = Some parent ∧ length id = 32 ∧
    r = (parent, default (answer NowSecs) (created_time (event parent)), Ok (threads id)).
Proof using Hsnap.
  unfold load_parent, ask. simpl. rewrite (sn_events _ _ _ _ Hsnap), (sn_threads _ _ _ _ Hsnap).
  destruct (events id) as [parent|] eqn:E; simpl; [|done]. destruct (channel_id parent) as [ch'|]; [|done].
  case_decide; [done|]. rewrite evaluate_bind. simpl. intros [= <-]. exists parent.
  split_and!; [done|by eapply sn_id|]. by destruct (created_time (event parent)).
Qed.

Lemma created_or_found id fallback :
  evaluate answer (created_or c id fallback) =
    match events id with Some r => default fallback (created_time (event r)) | None => fallback end.
Proof using Hsnap. unfold created_or, ask. simpl. rewrite (sn_events _ _ _ _ Hsnap). by destruct (events id). Qed.

Lemma derive_root_length parent id created root created' depth :
  length id = 32 →
  evaluate answer (derive_ancestry_from_parent_tags c parent id created) = (root, created', depth) →
  length root = 32 ∧ (depth ≤ 2)%Z.
Proof using.
  intros Hid. unfold derive_ancestry_from_parent_tags. set (r := default _ _). assert (length r = 32) as Hr.
  { unfold r. destruct (resolve_markers _) as [[root' ?]|]; simpl; [|done]. unfold key_of_hex.
    destruct (hex_decode root') as [b|]; simpl; [|done]. by case_decide. }
  case_decide; [|rewrite evaluate_bind]; simpl; intros [= <- <- <-]; (split; [done|lia]).
Qed.

(** The client's resolver accepts what the relay's computes, and with the same result. *)
Lemma client_ancestry_agrees id parent root created' depth :
  events id = Some parent → length id = 32 →
  let created := default (answer NowSecs) (created_time (event parent)) in
  evaluate answer (relay_ancestry c id parent created (threads id)) = (root, created', depth) →
  (depth ≤ 100)%Z →
  length root = 32 ∧
  evaluate answer (client_ancestry c root id parent created (threads id)) = Ok (root, created', depth).
Proof using Hsnap.
  intros He Hid created. unfold relay_ancestry, client_ancestry. destruct (threads id) as [meta|] eqn:Et.
  - set (r := default id (tr_root_event_id meta)). intros Hrel Hd.
    assert (evaluate answer (created_or c r created) = created' ∧ r = root ∧ depth = i32_succ (tr_depth meta)) as (Hc & <- & ->).
    { revert Hrel. case_decide as Hr; [|rewrite evaluate_bind; cbn [evaluate]; by intros [= <- <- <-]].
      cbn [evaluate]. intros [= <- <- <-]. split_and!; [|done..]. rewrite created_or_found, Hr, He. unfold created.
      by destruct (created_time (event parent)). }
    split.
    + unfold r. destruct (tr_root_event_id meta) as [b|] eqn:Eb; [|done]. by eapply sn_root.
    + rewrite decide_False by (intros Hn; by apply Hn). rewrite evaluate_bind, Hc.
      cbv zeta. by rewrite (proj2 (Z.ltb_ge _ _)).
  - intros Hrel Hd. destruct (derive_root_length _ _ _ _ _ _ Hid Hrel) as [Hr _]. split; [done|].
    rewrite evaluate_bind, Hrel. cbn. rewrite decide_False by (intros Hn; by apply Hn). done.
Qed.

End agreement.

(** C19: A reply the relay writes for a workflow threads like a client's: the tags built
    from the ancestry that the relay computed are resolved by the path that client events
    take to that same ancestry, whatever other tags stand around them. *)
Theorem reply_tags_resolve_alike `{NostrApi} `{hapi : HexApi} `{ChronoApi} `{KeyBytes} `{!HexLaws hapi}
    answer c events threads parent_hex ch a e pre post :
  snapshot answer c events threads →
  evaluate answer (resolve_relay_reply_thread_meta c parent_hex ch) = Ok a →
  ev_tags e = pre ++ ancestry_tags a ++ post → Forall no_marker pre → Forall no_marker post → is_broadcast e = false →
  ∃ created, (created_time e = Some created ∨ created_time e = None ∧ created = answer NowSecs) ∧
    evaluate answer (resolve_nip10_thread_meta c e ch) = Ok (Some (into_thread_meta a (event_id_bytes (ev_id e)) created ch)).
Proof.
  intros Hs Hrel Htags Hpre Hpost Hb. unfold resolve_relay_reply_thread_meta in Hrel.
  destruct (hex_decode parent_hex) as [id|] eqn:Eid; [|done]. rewrite evaluate_bind in Hrel.
  destruct (evaluate answer (load_parent c id ch)) as [r|] eqn:Eload; [|done].
  pose proof (load_parent_found _ _ _ _ Hs _ _ _ Eload) as (parent & He & Hid & ->). simpl in Hrel. rewrite evaluate_bind in Hrel.
  destruct (evaluate answer (relay_ancestry _ _ _ _ _)) as [[root created'] depth] eqn:Ea.
  destruct (Z.ltb_spec 100 depth); [done|]. simpl in Hrel. injection Hrel as <-.
  destruct (client_ancestry_agrees _ _ _ _ Hs _ _ _ _ _ He Hid Ea) as [Hroot Hcl]; [done|].
  unfold resolve_nip10_thread_meta. rewrite Htags, ancestry_markers by done. cbn [ra_parent_event_id ra_root_event_id].
  rewrite !hex_decode_encode, evaluate_bind, Eload. cbn [meta_result map_err prog_bind].
  rewrite evaluate_bind, Hcl. cbv zeta. rewrite evaluate_bind, Hb.
  exists (match created_time e with Some t => t | None => answer NowSecs end). split; [destruct (created_time e); eauto|].
  unfold into_thread_meta. cbn. by destruct (created_time e).
Qed.

(** ** Witnesses *)

Module IngestCallsDemo.
Import MeshWireDemo EventQueryDemo.
#[local] Existing Instance hex_api.
#[local] Existing Instance demo_chrono.

#[global] Instance demo_key_bytes : KeyBytes := {| pubkey_bytes := le_bytes 32; event_id_bytes := le_bytes 32 |}.

(** A service where every lookup succeeds and finds nothing. *)
Definition default_reply (c : icall) : ireply c :=
  match c with
  | IsServingActive _ => Ok true
  | SpawnVerify _ => true
  | NowSecs | UtcNow => 1000%Z
  | ReadReminderHorizon => None
  | HandleCommand _ _ _ => Err (Internal "")
  | HandleFeedback _ _ | HandleReport _ _ | HandleModeration _ _ => Ok tt
  | GetRestriction _ _ => Ok (mkRestriction false None)
  | GetEventById _ _ => Ok None
  | GetThreadMetadata _ _ => Ok None
  | GetChannel _ _ => Err (mkFault ChannelNotFound "channel not found")
  | VisibilityCached _ _ _ => Ok "open"
  | IsMemberCached _ _ _ | IsAgentOwner _ _ _ | HuddleLinkExists _ _ _ _ => Ok true
  | RecordTrace _ _ => tt
  | HandleRelayAdmin _ _ => Ok tt
  | RemoveRelayMember _ _ => Ok Removed
  | PublishMemberRemoved _ _ | PublishMembershipList _ => Ok tt
  | ValidateAdmin _ _ _ | HandleIdentityArchive _ _ | ValidateDeletion _ _ => Ok tt
  | CreateChannelWithId _ _ _ _ _ _ _ _ => Ok true
  | AcceptPushLease _ _ _ => Ok Accepted
  | GetSidecar _ _ => None
  | HeadBlob _ => Ok true
  | InsertReaction _ _ _ _ _ _ _ => Ok TargetMissing
  | ReplaceAddressable _ e ch | ReplaceParameterized _ e _ ch | InsertEvent _ e ch _ => Ok (mkStored e 1000 ch true, true)
  | SoftDeleteChannel _ _ => Ok tt
  | InvalidateChannelDeleted _ => tt
  | HandleSideEffects _ _ _ => Ok tt
  | EmitThreadSummary _ _ _ => tt
  | DispatchPersistent _ _ _ _ _ => tt
  end.

(** Channel 5 of community 1 with a root, 3, and a reply to it, 7. *)
Definition key (n : N) : bytes := le_bytes 32 n.
Definition in_channel_5 (id : EventId) (created : Z) (tags : list Tag) : StoredEvent :=
  mkStored (mkEvent id 2 created 9 tags "") created (Some 5%N) true.
Definition demo_events (id : bytes) : option StoredEvent :=
  if decide (id = key 3) then Some (in_channel_5 3 100 [])
  else if decide (id = key 7) then Some (in_channel_5 7 200 [["e"; hex_encode (key 3); ""; "reply"]]) else None.

Definition demo_answer (c : icall) : ireply c :=
  match c with
  | GetEventById _ id => Ok (demo_events id)
  | c => default_reply c
  end.

Lemma demo_snapshot : snapshot demo_answer 1 demo_events (λ _, None).
Proof. split; try done. unfold demo_events. intros id e. repeat case_decide; by intros; subst. Qed.

Definition ancestry : ReplyAncestry := mkAncestry (key 7) 200 (key 3) 100 2.
Definition reply_event : NostrEvent := mkEvent 9 4 300 9 (["h"; "101"] :: ancestry_tags ancestry ++ [["p"; "2"]]) "".

Lemma reply_tags_resolve_alike_witness :
  ∃ created, (created_time reply_event = Some created ∨ created_time reply_event = None ∧ created = demo_answer NowSecs) ∧
    evaluate demo_answer (resolve_nip10_thread_meta 1 reply_event 5) =
      Ok (Some (into_thread_meta ancestry (event_id_bytes 9) created 5)).
Proof.
  apply (reply_tags_resolve_alike demo_answer 1 demo_events (λ _, None) (hex_encode (key 7)) 5 ancestry reply_event
    [["h"; "101"]] [["p"; "2"]] demo_snapshot); try by vm_compute.
  - apply Forall_singleton. by intros [].
  - apply Forall_singleton. by intros [].
Defined.

End IngestCallsDemo.
