(* ===== verification/Ingest.v ===== *)
(** * The write path ([buzz-relay/src/handlers/ingest.rs], [conformance/mod.rs])

    [ingest_event] takes every event a client sends, over WebSocket or HTTP: it fences
    closed communities, verifies the event, checks scope, restrictions, channel and
    membership, applies the rules of the kind and stores, announces and traces it.  The
    code is one long function with early returns; here it is cut into stages, each a
    program of calls that passes a value on or leaves with the final answer.

    The theorems quantify over every reply the database and the handlers may give. *)

From stdpp Require Import base gmap strings list.
From Stdlib Require Import Ascii.
From S2P Require Import Prelude Text Nostr CanonicalJson Tenant MeshWire Auth Topics Protocol Filter ReadGate EventQuery.
From S2P Require Import Connections Fanout Conformance Programs Imeta IngestRules IngestEnvelopes IngestCalls.

(** ** Machine arithmetic

    [i64] wraps around, as in a build without overflow checks. *)

Definition wrap_i64 (z : Z) : Z := ((z + 2 ^ 63) mod 2 ^ 64 - 2 ^ 63)%Z.
Definition i64_sub (x y : Z) : Z := wrap_i64 (x - y).
Definition i64_abs (x : Z) : Z := if (x <? 0)%Z then wrap_i64 (- x) else x.

(** [(created_at as i64 - now).abs() > max]. *)
Definition drift_exceeds (created_at now max : Z) : bool := (max <? i64_abs (i64_sub (as_i64 (Z.to_N created_at)) now))%Z.

Definition MAX_TIMESTAMP_DRIFT_SECS : Z := 900.
Definition MAX_EVENT_CONTENT_BYTES : nat := Z.to_nat 262144.
Definition D_TAG_MAX_LEN : nat := Z.to_nat 1024.

(** [str::parse::<i32>]. *)
Definition parse_i32 (s : string) : option Z :=
  match s with
  | String "-" (String c s') =>
      if is_ascii_digit c then (λ n, - Z.of_N n)%Z <$> parse_uint 2147483648 (String c s') else None
  | _ => Z.of_N <$> parse_uint 2147483647 s
  end.

(** [to_string] of an [i64]. *)
Definition i64_to_string (z : Z) : string :=
  if (z <? 0)%Z then "-" +:+ num_to_string (Z.to_N (- z)) else num_to_string (Z.to_N z).

(** ** Names of channels ([buzz-core/src/channel.rs]) *)

(** [trim_start_matches(|c| c == '#' || c.is_whitespace())]. *)
Fixpoint trim_hashes (l : bytes) : bytes :=
  match l with
  | a :: r =>
      if is_ascii_ws a || in_range 35 35 a then trim_hashes r
      else match r with
           | b :: r' =>
               if is_ws2 a b then trim_hashes r'
               else match r' with
                    | c :: r'' => if is_ws3 a b c then trim_hashes r'' else l
                    | [] => l
                    end
           | [] => l
           end
  | [] => []
  end.

Definition canonical_channel_name (name : string) : string :=
  str_of_bytes (reverse (trim_start_rev (reverse (trim_hashes (bytes_of_str name))))).

Definition visibility_from_str (s : string) : option ChannelVisibility :=
  if decide (s = "open") then Some Open else if decide (s = "private") then Some Private else None.

Definition channel_type_from_str (s : string) : option ChannelType :=
  if decide (s = "stream") then Some Stream else if decide (s = "forum") then Some Forum
  else if decide (s = "dm") then Some Dm else if decide (s = "workflow") then Some Workflow else None.

(** ** Stages *)

(** What the request leaves with, and a stage that passes on or leaves. *)
Abbreviation exit := (result IngestError IngestResult).
Abbreviation stage A := (io (result exit A)).

Definition reject {A} (msg : string) : result exit A := Err (Err (Rejected msg)).
Definition refuse {A} (msg : string) : result exit A := Err (Err (AuthFailed msg)).
Definition crash {A} (msg : string) : result exit A := Err (Err (Internal msg)).
Definition leave_on {A} (r : result IngestError A) : result exit A := map_err Err r.

Record IngestConfig := mkIngestConfig {
  cf_relay_url : string;
  cf_relay_pubkey : PublicKey;
  cf_ephemeral_ttl_override : option Z;
  cf_require_relay_membership : bool
}.

(** [EventId::new(...).to_hex()] in the message of a failed verification. *)
Class EventIdHash := computed_id_hex : Event → string.

Section pipeline.
Context `{NostrApi} `{UuidParse} `{HexApi} `{ChronoApi} `{KeyBytes} `{F64Api} `{UrlPartsApi} `{DebugApi} `{AuthApi} `{EventIdHash}.
Context {num : Type} `{WireApi num}.
Context (cfg : IngestConfig) (t : TenantContext) (se : Event) (a : IngestAuth).

Abbreviation e := (ev se).
Abbreviation kind := (event_kind_u32 (ev se)).
Definition event_id_hex : string := id_to_hex (ev_id e).
Definition is_gift_wrap : bool := bool_decide (kind = KIND_GIFT_WRAP).

Definition accepted (message : string) : exit := Ok (mkIngestResult event_id_hex true message).
Definition turned_down (message : string) : exit := Ok (mkIngestResult event_id_hex false message).

(** *** Traces ([conformance/mod.rs]) *)

Definition actor_label (pk : PublicKey) : string := String.substring 0 16 (id_to_hex pk).
Definition msg_id_label (id : EventId) : string := hex_encode (take 8 (event_id_bytes id)).

Definition state_for_request : AbstractState := mkAbstract (community t) (host t) (actor_label (auth_pubkey a)).

Definition claimed_community_from_event : option CommunityLabel :=
  match List.find (λ parts, bool_decide (head parts = Some "h")) (ev_tags e) with
  | Some parts => parts !! 1 ≫= parse_uuid
  | None => None
  end.

Definition emit (action : TraceAction) : io unit := ask (RecordTrace action state_for_request).

Definition sanitized_reason_for (err : IngestError) : SanitizedReason :=
  match err with Rejected _ => Invalid | AuthFailed _ => Restricted | Internal _ => ServerError end.

Definition write_action (ch : option Uuid) (was_inserted : bool) : TraceAction :=
  let msg_id := msg_id_label (ev_id e) in
  let claimed := claimed_community_from_event in
  match ch, was_inserted with
  | Some ch, true => WriteInsert msg_id ch claimed
  | Some ch, false => WriteDuplicate msg_id ch claimed
  | None, _ => WriteInsertGlobal msg_id claimed
  end.

(** *** Fence, verification, scope *)

Definition map_serving_fence_state (active : result DbFault bool) : result IngestError unit :=
  match active with
  | Ok true => Ok tt
  | Ok false => Err (Rejected "restricted: community writes are fenced")
  | Err error => Err (Internal ("error: checking community write fence: " +:+ fault_text error))
  end.

(** [verify_event]'s error as it prints. *)
Definition verification_error : string :=
  if negb (verify_id se) then "invalid event id: computed " +:+ computed_id_hex se +:+ ", got " +:+ event_id_hex
  else "invalid schnorr signature".

(** The checks that need no lookup, after the clock was read. *)
Definition check_envelope (now : Z) : result exit unit :=
  if drift_exceeds (ev_created_at e) now MAX_TIMESTAMP_DRIFT_SECS then
    reject "invalid: event timestamp too far from server time"
  else if MAX_EVENT_CONTENT_BYTES <? String.length (ev_content e) then
    reject ("invalid: content exceeds maximum size of 262144 bytes (got " +:+ plain_nat (String.length (ev_content e)) +:+ ")")
  else if bool_decide (ev_pubkey e ≠ auth_pubkey a) && negb is_gift_wrap then
    refuse "invalid: event pubkey does not match authenticated identity"
  else
    match required_scope_for_kind kind e with
    | Err msg => reject msg
    | Ok required =>
        if is_relay_admin_kind kind && bool_decide (auth_channel_ids a ≠ None) then
          refuse "restricted: relay admin commands require a global token, not a channel-scoped token"
        else if bool_decide (kind = KIND_NIP43_LEAVE_REQUEST) && bool_decide (auth_channel_ids a ≠ None) then
          refuse "restricted: leave requests require a global token"
        else if decide (required ∈ auth_scopes a) then Ok tt
        else refuse ("restricted: insufficient scope (need " +:+ scope_as_str required +:+ ")")
    end.

(** The kinds no client may submit. *)
Definition check_kind : result exit unit :=
  if decide (kind = KIND_AUTH) then reject "invalid: AUTH events cannot be submitted"
  else if contains [KIND_MEMBER_ADDED_NOTIFICATION; KIND_MEMBER_REMOVED_NOTIFICATION] kind then
    reject "invalid: membership notifications are relay-signed only"
  else if is_http a && contains [KIND_GIFT_WRAP; KIND_PRESENCE_UPDATE] kind then
    reject ("invalid: kind " +:+ num_to_string (Z.to_N kind) +:+ " is only accepted via WebSocket")
  else if is_relay_only_kind kind then reject "restricted: relay-only kind"
  else Ok tt.

(** The time read is also the one the push lease is accepted at. *)
Definition preflight : stage Z :=
  let! _ := prog_bind (λ r, Ret (leave_on (map_serving_fence_state r))) (ask (IsServingActive (community t))) in
  let! _ := Ret check_kind in
  let! _ := prog_bind (λ completed : bool, Ret (
      if negb completed then crash "error: internal verification error"
      else if verify_event se then Ok tt else reject ("invalid: " +:+ verification_error))) (ask (SpawnVerify se)) in
  prog_bind (λ now, Ret (let? _ := check_envelope now in Ok now)) (ask NowSecs).

(** *** Events that are not stored *)

(** A handler of its own takes the event and the request ends. *)
Definition handled (c : icall) (reply : ireply c → result string unit) (after : io unit) : stage unit :=
  prog_bind (λ r, match reply r with
    | Err msg => Ret (reject msg)
    | Ok _ => prog_bind (λ _, Ret (Err (accepted ""))) after
    end) (ask c).

Definition route : stage unit :=
  if is_command_kind kind then prog_bind (λ r, Ret (Err r)) (ask (HandleCommand t e a))
  else if decide (kind = KIND_PRODUCT_FEEDBACK) then
    handled (HandleFeedback t e) (λ r, r) (emit (WriteInsertGlobal (msg_id_label (ev_id e)) claimed_community_from_event))
  else if decide (kind = KIND_REPORT) then handled (HandleReport t e) (λ r, r) (Ret tt)
  else if is_moderation_command_kind kind then handled (HandleModeration t e) (λ r, r) (Ret tt)
  else Ret (Ok tt).

(** *** Restrictions *)

Definition restriction_gate : stage unit :=
  if negb (is_moderation_command_kind kind) && negb (is_relay_admin_kind kind) then
    prog_bind (λ r, match r with
      | Err e => Ret (crash ("error: internal error checking restriction state: " +:+ fault_text e))
      | Ok r =>
          if rs_banned r then Ret (refuse "blocked: you are banned from this community")
          else
            match rs_muted_until r with
            | None => Ret (Ok tt)
            | Some until =>
                prog_bind (λ now, Ret (
                  if (now <? until)%Z then
                    refuse ("restricted: you are timed out until " +:+ i64_to_string (until / 10 ^ 9))
                  else Ok tt)) (ask UtcNow)
            end
      end) (ask (GetRestriction (community t) (auth_pubkey a)))
  else Ret (Ok tt).

(** *** The channel of the event *)

Definition event_channel : stage (option Uuid) :=
  if decide (kind = KIND_REACTION) then
    prog_bind (λ r, Ret (match r with
      | ReactionChannel ch => Ok (Some ch)
      | NoChannel => Ok None
      | TargetNotFound => reject "invalid: reaction target event not found"
      | NoTarget => reject "invalid: reaction must reference a target event via e tag"
      | ReactionDbError e => crash ("error: internal error looking up reaction target: " +:+ e)
      end)) (derive_reaction_channel (community t) e)
  else if is_gift_wrap then Ret (Ok None)
  else if decide (kind = KIND_DELETION) then
    match first_e_target e with
    | None => Ret (Ok None)
    | Some hex =>
        match hex_decode hex with
        | None => Ret (reject "invalid: malformed deletion target id")
        | Some target_bytes =>
            prog_bind (λ r, Ret (match r with
              | Ok (Some target) => Ok (channel_id target)
              | Ok None => Ok None
              | Err e => crash ("error: looking up deletion target: " +:+ fault_text e)
              end)) (ask (GetEventById (community t) target_bytes))
        end
    end
  else Ret (Ok (extract_channel_id e)).

Definition scope_channel (ch : option Uuid) : result exit (option Uuid) :=
  let ch := if is_global_only_kind kind then None else ch in
  if requires_h_channel_scope kind && bool_decide (ch = None) then
    reject "invalid: channel-scoped events must include an h tag"
  else
    match ch with
    | Some c => let? _ := map_err (λ msg, Err (AuthFailed msg)) (check_token_channel_access a c) in Ok ch
    | None => if decide (auth_channel_ids a ≠ None) then
                refuse "restricted: channel-scoped tokens cannot publish global events" else Ok None
    end.

Definition resolve_channel : stage (option Uuid) := let! ch := event_channel in Ret (scope_channel ch).

(** The row read once, and the visibility the fan-out will use. *)
Definition channel_row (ch : option Uuid) : io (option ChannelRecord) :=
  match ch with
  | Some c => prog_bind (λ r, Ret (match r with Ok row => Some row | Err _ => None end)) (ask (GetChannel (community t) c))
  | None => Ret None
  end.

Definition threaded_visibility (ch : option Uuid) (row : option ChannelRecord) : io (option ThreadedChannelVisibility) :=
  match ch, row with
  | Some c, Some row =>
      prog_bind (λ r, Ret (match r with Ok v => Some (mkThreaded (community t) c v) | Err _ => None end))
        (ask (VisibilityCached (community t) c (Some (cr_visibility row))))
  | _, _ => Ret None
  end.

Definition skip_membership : bool :=
  contains [KIND_NIP29_JOIN_REQUEST; KIND_NIP29_CREATE_GROUP; KIND_STREAM_MESSAGE_EDIT; KIND_NIP29_EDIT_METADATA;
            KIND_NIP29_DELETE_EVENT; KIND_NIP29_DELETE_GROUP] kind.

Definition membership_gate (ch : option Uuid) (row : option ChannelRecord) : stage unit :=
  match ch with
  | Some c =>
      if skip_membership then Ret (Ok tt)
      else
        prog_bind (λ auth_result,
          prog_bind (λ _, Ret (leave_on (map_err Rejected auth_result)))
            (emit (AuthCheck c claimed_community_from_event (if is_ok auth_result then Allow else Deny))))
          (check_channel_membership t c (pubkey_bytes (auth_pubkey a)) row)
  | None => Ret (Ok tt)
  end.

(** *** Relay membership *)

Definition map_relay_admin_error (err : RelayAdminError) : IngestError :=
  match err with
  | Banned => AuthFailed "blocked: you are banned from this community"
  | AdminRejected reason => Rejected ("invalid: " +:+ reason)
  | AdminInternal reason => Internal ("error: " +:+ reason)
  end.

Definition relay_admin : stage unit :=
  if is_relay_admin_kind kind then
    prog_bind (λ r, Ret (match r with Err err => Err (Err (map_relay_admin_error err)) | Ok _ => Err (accepted "") end))
      (ask (HandleRelayAdmin t e))
  else Ret (Ok tt).

Definition check_leave (now : Z) : result exit unit :=
  if drift_exceeds (ev_created_at e) now 120 then
    reject ("invalid: leave request timestamp out of range (delta="
            +:+ i64_to_string (i64_sub (as_i64 (Z.to_N (ev_created_at e))) now) +:+ "s, max ±120s)")
  else if existsb (λ parts, bool_decide (head parts = Some "-")) (ev_tags e) then Ok tt
  else reject ("invalid: leave request must include NIP-70 protected event tag [" +:+ quoted "-" +:+ "]").

Definition leave_request : stage unit :=
  if decide (kind = KIND_NIP43_LEAVE_REQUEST) then
    if negb (cf_require_relay_membership cfg) then Ret (reject "invalid: relay membership is not enabled")
    else
      let! _ := prog_bind (λ now, Ret (check_leave now)) (ask NowSecs) in
      let sender_hex := id_to_hex (ev_pubkey e) in
      prog_bind (λ r, match r with
        | Err e => Ret (crash ("database error: " +:+ fault_text e))
        | Ok NotFound => Ret (reject "invalid: you are not a relay member")
        | Ok IsOwner => Ret (reject "invalid: relay owner cannot leave")
        | Ok RoleMismatch => Ret (crash "unexpected RoleMismatch from remove_relay_member")
        | Ok Removed =>
            prog_bind (λ _, prog_bind (λ _, Ret (Err (accepted "info: you have left this relay"))) (ask (PublishMembershipList t)))
              (ask (PublishMemberRemoved t sender_hex))
        end) (ask (RemoveRelayMember (community t) sender_hex))
  else Ret (Ok tt).

(** *** Rules of the kind *)

(** A check that runs for some kinds only. *)
Definition when (b : bool) (p : io (result IngestError unit)) : stage unit :=
  if b then prog_bind (λ r, Ret (leave_on r)) p else Ret (Ok tt).

Definition is_kind (k : Z) : bool := bool_decide (kind = k).

Definition invalid_io {A} (p : io (result string A)) : io (result IngestError A) := prog_bind (λ r, Ret (invalid r)) p.

Definition is_unarchive : bool :=
  is_kind KIND_NIP29_EDIT_METADATA &&
  existsb (λ parts, match parts with k :: v :: _ => bool_decide (k = "archived" ∧ v = "false") | _ => false end) (ev_tags e).

Definition check_archived (ch : option Uuid) (row : option ChannelRecord) : result exit unit :=
  match ch, row with
  | Some _, Some row =>
      if negb is_unarchive && bool_decide (cr_archived_at row ≠ None) then reject "invalid: channel is archived" else Ok tt
  | _, _ => Ok tt
  end.

Definition check_deletion_targets : result exit unit :=
  if contains [KIND_NIP29_DELETE_EVENT; KIND_DELETION] kind then
    let e_count := count_e_tags e in
    let a_count := count_tags "a" e in
    if decide (e_count + a_count ≠ 1) then
      reject ("invalid: deletion events must reference exactly one target via e or a tag (got e=" +:+ plain_nat e_count
              +:+ ", a=" +:+ plain_nat a_count +:+ ")")
    else Ok tt
  else Ok tt.

(** The owner a turn metric names must own the agent that signed it; [None] is the panic
    of an [expect]. *)
Definition metric_owner : option bytes := head (values_at "p" e) ≫= hex_decode.

Definition check_metric_owner : io (result IngestError unit) :=
  let! _ := Ret (invalid (validate_agent_turn_metric_envelope e)) in
  match metric_owner with
  | None => Ret (Err (Internal "panic"))
  | Some owner =>
      prog_bind (λ r, Ret (match r with
        | Err e => Err (Internal ("error: db error checking agent-turn-metric ownership: " +:+ fault_text e))
        | Ok true => Ok tt
        | Ok false => Err (AuthFailed "restricted: agent-turn-metric `p` tag must be the registered owner of this agent")
        end)) (ask (IsAgentOwner (community t) (pubkey_bytes (ev_pubkey e)) owner))
  end.

(** The environment variable and the clock are read ahead of the rule that may need them. *)
Definition check_reminder : io (result IngestError unit) :=
  prog_bind (λ horizon, prog_bind (λ now,
    Ret (invalid (validate_event_reminder (default 31536000%N (horizon ≫= parse_uint u64_max)) (Z.to_N now) e)))
    (ask NowSecs)) (ask ReadReminderHorizon).

Definition rules (ch : option Uuid) (row : option ChannelRecord) : stage unit :=
  let! _ := when true (validate_huddle_lifecycle_event (cf_relay_pubkey cfg) (cf_ephemeral_ttl_override cfg) t e kind) in
  let! _ := when (is_admin_kind kind) (invalid_io (ask (ValidateAdmin t kind e))) in
  let! _ := when (is_identity_archive_request_kind kind) (invalid_io (ask (HandleIdentityArchive t e))) in
  let! _ := when (is_kind KIND_DELETION) (invalid_io (ask (ValidateDeletion t e))) in
  let! _ := Ret (check_archived ch row) in
  let! _ := Ret check_deletion_targets in
  let! _ := when (is_kind KIND_STREAM_MESSAGE_EDIT) (invalid_io (validate_edit_ownership (cf_relay_pubkey cfg) (community t) e)) in
  let! _ := when (is_kind KIND_FORUM_VOTE) (invalid_io (validate_forum_vote_target (community t) e)) in
  let! _ := when (is_kind KIND_STREAM_MESSAGE_DIFF) (Ret (invalid (validate_diff_event e))) in
  let! _ := when (is_kind KIND_AGENT_ENGRAM) (Ret (invalid (validate_engram_envelope e))) in
  let! _ := when (is_kind KIND_AGENT_TURN_METRIC) check_metric_owner in
  let! _ := when (is_kind KIND_EVENT_REMINDER) check_reminder in
  let! _ := when (is_kind KIND_PERSONA) (Ret (invalid (validate_persona_envelope e))) in
  let! _ := when (is_kind KIND_TEAM_CATALOG) (Ret (invalid (validate_team_catalog_envelope e))) in
  when (is_kind KIND_PROJECT) (Ret (invalid (map_err project_rejection_text (validate_project_envelope e)))).

(** *** Channels created on the way *)

Definition first_content (name : string) : option string := find_map (content_of name) (ev_tags e).

Definition resolve_ttl : option Z :=
  match find_map (λ t, content_of "ttl" t ≫= parse_i32) (ev_tags e), cf_ephemeral_ttl_override cfg with
  | Some _, Some ovr => Some ovr
  | ttl, _ => ttl
  end.

(** The channel created before the event is stored, when it was. *)
Definition create_group (ch : option Uuid) : stage (option Uuid) :=
  if is_kind KIND_NIP29_CREATE_GROUP then
    let create_name := first_content "name" in
    if match create_name with Some n => bool_decide (trim (canonical_channel_name n) = "") | None => true end then
      Ret (reject "invalid: channel name is required")
    else
      let visibility_str := default "open" (first_content "visibility") in
      let channel_type_str := default "stream" (first_content "channel_type") in
      match visibility_from_str visibility_str, channel_type_from_str channel_type_str with
      | None, _ => Ret (reject ("invalid visibility: " +:+ visibility_str))
      | _, None => Ret (reject ("invalid channel_type: " +:+ channel_type_str))
      | Some visibility, Some channel_type =>
          match ch with
          | None => Ret (Ok None)
          | Some client_uuid =>
              prog_bind (λ r, Ret (match r with
                | Err e => crash ("error: " +:+ fault_text e)
                | Ok false => Err (turned_down "duplicate: channel already exists")
                | Ok true => Ok (Some client_uuid)
                end))
                (ask (CreateChannelWithId (community t) client_uuid (canonical_channel_name (default "" create_name)) channel_type
                        visibility (first_content "about") (pubkey_bytes (ev_pubkey e)) resolve_ttl))
          end
      end
  else Ret (Ok None).

Definition check_join (ch : option Uuid) (row : option ChannelRecord) : result exit unit :=
  if is_kind KIND_NIP29_JOIN_REQUEST then
    match ch with
    | None => reject "invalid: join request must include an h tag"
    | Some _ =>
        match row with
        | Some row => if decide (cr_visibility row = "private") then reject "restricted: channel is private" else Ok tt
        | None => reject "invalid: channel not found"
        end
    end
  else Ok tt.

(** *** Push leases *)

Definition map_push_accept_error (err : AcceptError) : IngestError :=
  match err with Validation reason => Rejected ("invalid: " +:+ reason) | AcceptInternal reason => Internal reason end.

Definition lease_refusal (o : AcceptLeaseOutcome) : option string :=
  match o with
  | Accepted => None
  | StaleEvent => Some "invalid: stale replacement"
  | StaleGeneration => Some "invalid: stale generation"
  | EndpointAlreadyLeased => Some "invalid: endpoint already leased"
  | LeaseQuotaExceeded => Some "invalid: lease quota exceeded"
  | SourceEventCollision => Some "invalid: source event collision"
  | ConstraintViolation => Some "invalid: lease constraint violation"
  end.

Definition push_lease (now : Z) : stage unit :=
  if is_kind KIND_PUSH_LEASE then
    prog_bind (λ r, match r with
      | Err err => Ret (Err (Err (map_push_accept_error err)))
      | Ok outcome =>
          match lease_refusal outcome with
          | Some msg => Ret (reject msg)
          | None => prog_bind (λ _, Ret (Err (accepted "")))
                      (emit (WriteInsertGlobal (msg_id_label (ev_id e)) claimed_community_from_event))
          end
      end) (ask (AcceptPushLease t e now))
  else Ret (Ok tt).

(** *** Media, threads and contents *)

Definition imeta_tags : list Tag := List.filter (λ t, bool_decide (tag_kind t = "imeta")) (ev_tags e).

Definition media_rules : stage unit :=
  let base := media_base_url_for_tenant (cf_relay_url cfg) (host t) in
  let! _ := when (is_kind KIND_STREAM_MESSAGE) (Ret (invalid (validate_link_preview_tags e base))) in
  if decide (imeta_tags = []) then Ret (Ok tt)
  else
    let! _ := Ret (leave_on (invalid (validate_imeta_tags imeta_tags base))) in
    prog_bind (λ r, Ret (leave_on (invalid r))) (verify_imeta_blobs t imeta_tags).

Definition thread_stage (ch : option Uuid) : stage (option ThreadMetadataOwned) :=
  match ch with
  | Some c => if requires_h_channel_scope kind then
                prog_bind (λ r, Ret (leave_on (invalid r))) (resolve_nip10_thread_meta (community t) e c)
              else Ret (Ok None)
  | None => Ret (Ok None)
  end.

Definition check_content : result exit unit :=
  if is_kind KIND_PROFILE && bool_decide (json_parse (ev_content e) = None) then
    reject "invalid: kind:0 content must be valid JSON"
  else if contains [KIND_EMOJI_SET; KIND_EMOJI_LIST] kind then leave_on (validate_custom_emoji_tags e)
  else Ok tt.

(** *** Storing *)

Definition publish (stored : StoredEvent) (ch : option Uuid) (was_inserted : bool) (threaded : option ThreadedChannelVisibility) :
    io exit :=
  prog_bind (λ _, prog_bind (λ _, Ret (accepted ""))
    (ask (DispatchPersistent t stored kind (id_to_hex (auth_pubkey a)) threaded)))
    (emit (write_action ch was_inserted)).

Definition store_reaction (ch : option Uuid) (thread : option ThreadMetadataOwned) (threaded : option ThreadedChannelVisibility) :
    stage IngestResult :=
  match last_e_target e with
  | None => Ret (reject "invalid: reaction must reference a target event via e tag")
  | Some target_hex =>
      match hex_decode target_hex with
      | None => Ret (reject "invalid: malformed reaction target id")
      | Some target_id =>
          let actor := effective_message_author e (cf_relay_pubkey cfg) in
          let emoji := if decide (ev_content e = "") then "+" else ev_content e in
          let! _ := Ret (leave_on (validate_reaction_emoji e emoji)) in
          prog_bind (λ r, match r with
            | Err e => Ret (crash ("error: " +:+ fault_text e))
            | Ok TargetMissing => Ret (reject "invalid: reaction target event not found")
            | Ok Duplicate => Ret (Err (turned_down "duplicate: reaction already exists"))
            | Ok (Inserted stored was_inserted) => prog_bind (λ r, Ret (Err r)) (publish stored ch was_inserted threaded)
            end) (ask (InsertReaction (community t) e ch thread target_id actor emoji))
      end
  end.

(** Deletes the channel created for an event that could not be stored. *)
Definition compensate (created : option Uuid) : io unit :=
  match created with
  | Some ch => prog_bind (λ _, ask (InvalidateChannelDeleted t)) (ask (SoftDeleteChannel (community t) ch))
  | None => Ret tt
  end.

Definition store_event (ch : option Uuid) (thread : option ThreadMetadataOwned) (created : option Uuid) : stage (StoredEvent * bool) :=
  let internal (r : result DbFault (StoredEvent * bool)) : result exit (StoredEvent * bool) :=
    map_err (λ e, Err (Internal ("error: " +:+ fault_text e))) r in
  if is_replaceable kind then prog_bind (λ r, Ret (internal r)) (ask (ReplaceAddressable (community t) e ch))
  else if is_parameterized_replaceable kind then
    let d_tag := default "" (extract_d_tag e) in
    if D_TAG_MAX_LEN <? String.length d_tag then
      Ret (reject ("invalid: d tag too long (" +:+ plain_nat (String.length d_tag) +:+ " bytes, max 1024)"))
    else prog_bind (λ r, Ret (internal r)) (ask (ReplaceParameterized (community t) e d_tag ch))
  else
    prog_bind (λ r, match r with
      | Ok result => Ret (Ok result)
      | Err err =>
          prog_bind (λ _, Ret (match fault_kind err with
            | AuthRejected => reject "invalid: AUTH events cannot be stored"
            | _ => crash ("error: database error: " +:+ fault_text err)
            end)) (compensate created)
      end) (ask (InsertEvent (community t) e ch thread)).

Definition after_store (stored : StoredEvent) (ch : option Uuid) (thread : option ThreadMetadataOwned)
    (threaded : option ThreadedChannelVisibility) : io exit :=
  prog_bind (λ _, prog_bind (λ _, publish stored ch true threaded)
    (match thread with Some meta => ask (EmitThreadSummary t (tm_channel_id meta) (tm_root_event_id meta)) | None => Ret tt end))
    (if is_side_effect_kind kind then prog_bind (λ _, Ret tt) (ask (HandleSideEffects t kind e)) else Ret tt).

Definition store (ch : option Uuid) (thread : option ThreadMetadataOwned) (threaded : option ThreadedChannelVisibility)
    (created : option Uuid) : stage IngestResult :=
  if is_kind KIND_REACTION then store_reaction ch thread threaded
  else
    let! (stored, was_inserted) := store_event ch thread created in
    if negb was_inserted then Ret (Err (accepted "duplicate:"))
    else prog_bind (λ r, Ret (Err r)) (after_store stored ch thread threaded).

(** *** The whole path *)

Definition admit_event (now : Z) (ch : option Uuid) : stage IngestResult :=
  prog_bind (λ row, prog_bind (λ threaded,
    let! _ := membership_gate ch row in
    let! _ := relay_admin in
    let! _ := leave_request in
    let! _ := rules ch row in
    let! created := create_group ch in
    let! _ := Ret (check_join ch row) in
    let! _ := push_lease now in
    let! _ := media_rules in
    let! thread := thread_stage ch in
    let! _ := Ret check_content in
    store ch thread threaded created)
    (threaded_visibility ch row)) (channel_row ch).

Definition ingest_event_inner : io exit :=
  prog_bind (λ r, Ret (match r with Ok x => Ok x | Err out => out end))
    (let! now := preflight in
     let! _ := route in
     let! _ := restriction_gate in
     let! ch := resolve_channel in
     admit_event now ch).

(** *** The guard on traces *)

Definition is_trace (c : icall) : bool := match c with RecordTrace _ _ => true | _ => false end.

(** The counting tracer: [p] with the number of records it made. *)
Fixpoint counted {A} (n : nat) (p : io A) : io (A * nat) :=
  match p with
  | Ret a => Ret (a, n)
  | Act c k => Act c (λ r, counted (if is_trace c then S n else n) (k r))
  end.

(** [EmitGuard]: a request that recorded nothing is recorded as a bug when it ends. *)
Definition guarded {A} (bug : string) (p : io A) : io A :=
  prog_bind (λ '(x, n), if decide (n = 0) then prog_bind (λ _, Ret x) (emit (ImplBug bug)) else Ret x) (counted 0 p).

Definition ingest_event : io exit :=
  guarded "ingest_event_exited_without_trace"
    (prog_bind (λ result, match result with
       | Err err => prog_bind (λ _, Ret result) (emit (SanitizedError (sanitized_reason_for err)))
       | Ok _ => Ret result
       end) ingest_event_inner).

(** ** Specification

    [h] is the calls made and the replies seen before a call. *)

Definition answered (h : list ievent) (c : icall) (r : ireply c) : Prop := iev c r ∈ h.

(** The caller may write: the community serves, the event is what its author signed, now,
    and the author is the caller, with the scope the kind needs. *)
Record authentic (h : list ievent) : Prop := {
  au_active : answered h (IsServingActive (community t)) (Ok true);
  au_kind : check_kind = Ok tt;
  au_verified : answered h (SpawnVerify se) true ∧ verify_id se = true ∧ verify_signature se = true;
  au_fresh : ∃ now, answered h NowSecs now ∧ drift_exceeds (ev_created_at e) now MAX_TIMESTAMP_DRIFT_SECS = false;
  au_size : String.length (ev_content e) ≤ MAX_EVENT_CONTENT_BYTES;
  au_author : ev_pubkey e = auth_pubkey a ∨ kind = KIND_GIFT_WRAP;
  au_scope : ∃ s, required_scope_for_kind kind e = Ok s ∧ s ∈ auth_scopes a;
  au_global : is_relay_admin_kind kind = true ∨ kind = KIND_NIP43_LEAVE_REQUEST → auth_channel_ids a = None
}.

(** Neither banned nor timed out; the kinds exempted check bans in their handlers. *)
Definition unrestricted (h : list ievent) : Prop :=
  is_moderation_command_kind kind = true ∨ is_relay_admin_kind kind = true ∨
  ∃ r, answered h (GetRestriction (community t) (auth_pubkey a)) (Ok r) ∧ rs_banned r = false ∧
    ∀ until, rs_muted_until r = Some until → ∃ now, answered h UtcNow now ∧ (until ≤ now)%Z.

(** Where the channel of the event comes from. *)
Definition channel_named (h : list ievent) (ch : option Uuid) : Prop :=
  if is_global_only_kind kind then ch = None
  else if decide (kind = KIND_REACTION) then
    ∃ id target, answered h (GetEventById (community t) id) (Ok (Some target)) ∧ ch = channel_id target
  else if is_gift_wrap then ch = None
  else if decide (kind = KIND_DELETION) then
    ch = None ∨ ∃ id target, answered h (GetEventById (community t) id) (Ok (Some target)) ∧ ch = channel_id target
  else ch = extract_channel_id e.

Definition may_post (h : list ievent) (c : Uuid) : Prop :=
  skip_membership = true ∨
  answered h (IsMemberCached (community t) c (pubkey_bytes (auth_pubkey a))) (Ok true) ∨
  ∃ row, answered h (GetChannel (community t) c) (Ok row) ∧ cr_visibility row = "open".

Record channel_ok (h : list ievent) (ch : option Uuid) : Prop := {
  co_named : channel_named h ch;
  co_scoped : requires_h_channel_scope kind = true → ch ≠ None;
  co_token : ∀ ids, auth_channel_ids a = Some ids → ∃ c, ch = Some c ∧ c ∈ ids;
}.

Definition row_read (h : list ievent) (ch : option Uuid) (row : option ChannelRecord) : Prop :=
  ∀ c, ch = Some c → ∃ reply, answered h (GetChannel (community t) c) reply ∧
    row = match reply with Ok row => Some row | Err _ => None end.

(** Everything up to the membership gate. *)
Record cleared (h : list ievent) (ch : option Uuid) : Prop := {
  cl_authentic : authentic h;
  cl_unrestricted : unrestricted h;
  cl_channel : channel_ok h ch;
  cl_member : ∀ c, ch = Some c → may_post h c
}.

(** The rules that look at the event only. *)
Definition envelope_ok : Prop :=
  (kind = KIND_STREAM_MESSAGE_DIFF → validate_diff_event e = Ok tt) ∧
  (kind = KIND_AGENT_ENGRAM → validate_engram_envelope e = Ok tt) ∧
  (kind = KIND_PERSONA → validate_persona_envelope e = Ok tt) ∧
  (kind = KIND_TEAM_CATALOG → validate_team_catalog_envelope e = Ok tt) ∧
  (kind = KIND_PROJECT → project_ok e).

(** An edit is by the author of the message, still a member, or by the owner of its agent. *)
Definition may_edit (h : list ievent) : Prop :=
  let actor := pubkey_bytes (ev_pubkey e) in
  ∃ id target, answered h (GetEventById (community t) id) (Ok (Some target)) ∧
    let author := effective_message_author (event target) (cf_relay_pubkey cfg) in
    (author = actor ∧ ∀ c, channel_id target = Some c →
       answered h (IsMemberCached (community t) c actor) (Ok true) ∨
       ∃ row, answered h (GetChannel (community t) c) (Ok row) ∧ cr_visibility row = "open") ∨
    answered h (IsAgentOwner (community t) author actor) (Ok true).

(** The rules that ask: the admin's permission, the deletion's targets, the author of the
    message edited, the owner a metric names. *)
Record vetted (h : list ievent) : Prop := {
  ve_admin : is_admin_kind kind = true → answered h (ValidateAdmin t kind e) (Ok tt);
  ve_deletion : kind = KIND_DELETION → answered h (ValidateDeletion t e) (Ok tt);
  ve_edit : kind = KIND_STREAM_MESSAGE_EDIT → may_edit h;
  ve_metric : kind = KIND_AGENT_TURN_METRIC →
    ∃ owner, metric_owner = Some owner ∧ answered h (IsAgentOwner (community t) (pubkey_bytes (ev_pubkey e)) owner) (Ok true)
}.

(** Everything an event must have passed to be stored in [ch]. *)
Definition admitted (h : list ievent) (ch : option Uuid) : Prop :=
  cleared h ch ∧ envelope_ok ∧ vetted h ∧
  ∃ row, row_read h ch row ∧
    (∀ c r, ch = Some c → row = Some r → cr_archived_at r = None ∨ is_unarchive = true).

(** The event was stored, as [stored], in [ch]. *)
Definition stored_as (h : list ievent) (ch : option Uuid) (stored : StoredEvent) : Prop :=
  answered h (ReplaceAddressable (community t) e ch) (Ok (stored, true)) ∨
  (∃ d, answered h (ReplaceParameterized (community t) e d ch) (Ok (stored, true))) ∨
  (∃ thread, answered h (InsertEvent (community t) e ch thread) (Ok (stored, true))) ∨
  ∃ thread target actor emoji w,
    answered h (InsertReaction (community t) e ch thread target actor emoji) (Ok (Inserted stored w)).

(** What a record of the trace says happened. *)
Definition record_true (h : list ievent) (action : TraceAction) : Prop :=
  match action with
  | WriteInsert _ c _ | WriteDuplicate _ c _ => ∃ stored, stored_as h (Some c) stored
  | WriteInsertGlobal _ _ =>
      (∃ stored, stored_as h None stored) ∨ answered h (HandleFeedback t e) (Ok tt) ∨
      ∃ now, answered h (AcceptPushLease t e now) (Ok Accepted)
  | AuthCheck c _ Allow => may_post h c
  | _ => True
  end.

(** What must hold before each call that has an effect. *)
Definition call_guard (h : list ievent) (c : icall) : Prop :=
  match c with
  | HandleCommand t' e' a' => t' = t ∧ e' = e ∧ a' = a ∧ authentic h
  | HandleFeedback t' e' | HandleReport t' e' | HandleModeration t' e' => t' = t ∧ e' = e ∧ authentic h
  | HandleRelayAdmin t' e' => t' = t ∧ e' = e ∧ authentic h ∧ auth_channel_ids a = None
  | RemoveRelayMember c pk =>
      c = community t ∧ pk = id_to_hex (auth_pubkey a) ∧ authentic h ∧ unrestricted h ∧ auth_channel_ids a = None
  | HandleIdentityArchive t' e' => t' = t ∧ e' = e ∧ cleared h None
  | CreateChannelWithId c ch _ _ _ _ creator _ =>
      c = community t ∧ creator = pubkey_bytes (auth_pubkey a) ∧ admitted h (Some ch)
  | AcceptPushLease t' e' _ => t' = t ∧ e' = e ∧ admitted h None
  | InsertReaction c e' ch _ _ _ _ | ReplaceAddressable c e' ch | ReplaceParameterized c e' _ ch | InsertEvent c e' ch _ =>
      c = community t ∧ e' = e ∧ admitted h ch
  | HandleSideEffects t' _ e' => t' = t ∧ e' = e ∧ ∃ ch stored, stored_as h ch stored
  | EmitThreadSummary t' _ _ => t' = t ∧ ∃ ch stored, stored_as h ch stored
  | DispatchPersistent t' stored _ _ _ => t' = t ∧ ∃ ch, stored_as h ch stored
  | RecordTrace action state => state = state_for_request ∧ record_true h action
  | _ => True
  end.

(** Stores that the database accepted. *)
Definition stored_event (x : ievent) : bool :=
  match x with
  | existT (InsertReaction _ _ _ _ _ _ _) (Ok (Inserted _ _)) => true
  | existT (ReplaceAddressable _ _ _) (Ok _) | existT (ReplaceParameterized _ _ _ _) (Ok _)
  | existT (InsertEvent _ _ _ _) (Ok _) => true
  | existT (AcceptPushLease _ _ _) (Ok Accepted) => true
  | _ => false
  end.

(** Changes a service reports as made, and the calls made for their effect alone. *)
Definition changes (x : ievent) : bool :=
  match x with
  | existT (HandleCommand _ _ _) (Ok _) | existT (HandleFeedback _ _) (Ok _) | existT (HandleReport _ _) (Ok _)
  | existT (HandleModeration _ _) (Ok _) | existT (HandleRelayAdmin _ _) (Ok _) | existT (HandleIdentityArchive _ _) (Ok _)
  | existT (RemoveRelayMember _ _) (Ok Removed) | existT (CreateChannelWithId _ _ _ _ _ _ _ _) (Ok true)
  | existT (PublishMemberRemoved _ _) _ | existT (PublishMembershipList _) _ | existT (SoftDeleteChannel _ _) _
  | existT (InvalidateChannelDeleted _) _ | existT (HandleSideEffects _ _ _) _ | existT (EmitThreadSummary _ _ _) _
  | existT (DispatchPersistent _ _ _ _ _) _ => true
  | x => stored_event x
  end.

(** The channel a call created in the tenant's community. *)
Definition creates (x : ievent) : option Uuid :=
  match x with
  | existT (CreateChannelWithId c ch _ _ _ _ _ _) (Ok true) => if decide (c = community t) then Some ch else None
  | _ => None
  end.

(** The calls that ask the database to take the event. *)
Definition asks_store (c : icall) : bool :=
  match c with
  | InsertReaction _ _ _ _ _ _ _ | ReplaceAddressable _ _ _ | ReplaceParameterized _ _ _ _ | InsertEvent _ _ _ _ => true
  | _ => false
  end.

Definition reports_bug (x : ievent) : bool := match icall_of x with RecordTrace (ImplBug _) _ => true | _ => false end.

(** What a refused request may have changed: the identity it archived, the channel it
    created, and the deletion of that channel again. *)
Definition left_behind (h : list ievent) (x : ievent) : Prop :=
  (icall_of x = HandleIdentityArchive t e ∧ is_identity_archive_request_kind kind = true) ∨
  (∃ ch, creates x = Some ch ∧ kind = KIND_NIP29_CREATE_GROUP) ∨
  (∃ y ch, y ∈ h ∧ creates y = Some ch ∧
     (icall_of x = SoftDeleteChannel (community t) ch ∨ icall_of x = InvalidateChannelDeleted t)).

(** A history a request may leave behind when it is refused: nothing is stored, no
    changes are left but those, and a channel it created is deleted again unless the
    database was never asked to take the event. *)
Record refusal (h : list ievent) : Prop := {
  rf_stored : Forall (λ x, stored_event x = false) h;
  rf_bugs : Forall (λ x, reports_bug x = false) h;
  rf_left : ∀ x, x ∈ h → changes x = true → left_behind h x;
  rf_undone : ∀ x ch, x ∈ h → creates x = Some ch →
    Forall (λ y, asks_store (icall_of y) = false) h ∨ SoftDeleteChannel (community t) ch ∈ icall_of <$> h
}.

(** What an accepted answer may stand for: a handler did the work, the caller left, or the
    database took the event, new or known. *)
Definition work_done (x : ievent) : bool :=
  match x with
  | existT (HandleCommand _ _ _) (Ok res) => ir_accepted res
  | existT (HandleFeedback _ _) (Ok _) | existT (HandleReport _ _) (Ok _) | existT (HandleModeration _ _) (Ok _)
  | existT (HandleRelayAdmin _ _) (Ok _) | existT (RemoveRelayMember _ _) (Ok Removed) => true
  | x => stored_event x
  end.

(** ** Proofs *)

Abbreviation W p h Q := (whatever iev (λ _ _, True) call_guard p h Q).

Lemma answered_mono h h' c r : h `prefix_of` h' → answered h c r → answered h' c r.
Proof. intros [k ->] Hin. apply elem_of_app. by left. Qed.

Lemma answered_last h c r : answered (h ++ [iev c r]) c r.
Proof. apply elem_of_app. right. by left. Qed.

Lemma authentic_mono h h' : h `prefix_of` h' → authentic h → authentic h'.
Proof.
  intros Hp [? ? [? ?] (now & ? & ?) ? ? ? ?]. split; try done; try by eapply answered_mono.
  - split; [by eapply answered_mono|done].
  - exists now. split; [by eapply answered_mono|done].
Qed.

Lemma unrestricted_mono h h' : h `prefix_of` h' → unrestricted h → unrestricted h'.
Proof.
  intros Hp [?|[?|(r & Hr & Hb & Hm)]]; [by left|right; by left|]. right; right. exists r.
  split_and!; [by eapply answered_mono|done|]. intros u Hu. destruct (Hm u Hu) as (now & ? & ?).
  exists now. split; [by eapply answered_mono|done].
Qed.

Lemma channel_ok_mono h h' ch : h `prefix_of` h' → channel_ok h ch → channel_ok h' ch.
Proof.
  intros Hp [Hn ? ?]. split; [|done..]. revert Hn. unfold channel_named.
  destruct (is_global_only_kind _); [done|]. case_decide; [|destruct is_gift_wrap; [done|case_decide; [|done]]].
  - intros (id & target & ? & ?). exists id, target. split; [by eapply answered_mono|done].
  - intros [?|(id & target & ? & ?)]; [by left|]. right. exists id, target. split; [by eapply answered_mono|done].
Qed.

Lemma may_post_mono h h' c : h `prefix_of` h' → may_post h c → may_post h' c.
Proof.
  intros Hp [?|[?|(row & ? & ?)]]; [by left|right; left; by eapply answered_mono|].
  right; right. exists row. split; [by eapply answered_mono|done].
Qed.

Lemma row_read_mono h h' ch row : h `prefix_of` h' → row_read h ch row → row_read h' ch row.
Proof. intros Hp Hr c Hc. destruct (Hr c Hc) as (reply & ? & ?). exists reply. split; [by eapply answered_mono|done]. Qed.

Lemma cleared_mono h h' ch : h `prefix_of` h' → cleared h ch → cleared h' ch.
Proof.
  intros Hp [? ? ? Hm]. split; [by eapply authentic_mono|by eapply unrestricted_mono|by eapply channel_ok_mono|].
  intros c Hc. by eapply may_post_mono, Hm.
Qed.

Lemma may_edit_mono h h' : h `prefix_of` h' → may_edit h → may_edit h'.
Proof.
  intros Hp (id & target & Ht & Hw). exists id, target. split; [by eapply answered_mono|].
  destruct Hw as [[Ha Hm]|Ho]; [left|right; by eapply answered_mono]. split; [done|]. intros c Hc.
  destruct (Hm c Hc) as [?|(row & ? & ?)]; [left; by eapply answered_mono|right; exists row].
  split; [by eapply answered_mono|done].
Qed.

Lemma vetted_mono h h' : h `prefix_of` h' → vetted h → vetted h'.
Proof.
  intros Hp [Ha Hd He Hm]. split; intros Hk.
  - by eapply answered_mono, Ha.
  - by eapply answered_mono, Hd.
  - by eapply may_edit_mono, He.
  - destruct (Hm Hk) as (owner & ? & ?). exists owner. split; [done|by eapply answered_mono].
Qed.

Lemma admitted_mono h h' ch : h `prefix_of` h' → admitted h ch → admitted h' ch.
Proof.
  intros Hp (Hc & He & Hv & row & Hr & Ha). split; [by eapply cleared_mono|]. split; [done|].
  split; [by eapply vetted_mono|]. exists row.
  split; [by eapply row_read_mono|done].
Qed.

Lemma stored_as_mono h h' ch s : h `prefix_of` h' → stored_as h ch s → stored_as h' ch s.
Proof.
  intros Hp [?|[(d & ?)|[(th & ?)|(th & tg & ac & em & w & ?)]]]; [left|right; left; exists d|right; right; left; exists th|
    right; right; right; exists th, tg, ac, em, w]; by eapply answered_mono.
Qed.

(** A program whose calls are admissible wherever [P] holds keeps [P], and what it may
    return is known. *)
Lemma W_calls {A} (ok : icall → Prop) (P : list ievent → Prop) (S : A → Prop) (p : io A) h :
  (∀ h h', h `prefix_of` h' → P h → P h') → (∀ h c, P h → ok c → call_guard h c) →
  only ok p → rets S p → P h → W p h (λ h' x, P h' ∧ S x).
Proof.
  intros Hm Hg. revert h. induction p as [x|c k IH]; intros h Ho Hs HP; simpl in *; [done|].
  destruct Ho as [Hc Hk]. split; [by apply Hg|]. intros r _. apply IH; [done..|]. eapply Hm; [|exact HP]. by eexists.
Qed.

Lemma W_ret {A} (x : A) h (Q : list ievent → A → Prop) : Q h x → W (Ret x) h Q.
Proof. done. Qed.

(** A call and what is done with its reply. *)
Lemma W_ask {B} c (f : ireply c → io B) h (Q : list ievent → B → Prop) :
  call_guard h c → (∀ r, W (f r) (h ++ [iev c r]) Q) → W (prog_bind f (ask c)) h Q.
Proof. intros Hg Hf. apply whatever_bind. split; [done|]. intros r _. apply Hf. Qed.

(** Leaving a stage early, or going on. *)
Lemma W_let {A B} (p : stage A) (k : A → stage B) h (Q : list ievent → result exit B → Prop) :
  W p h (λ h' r, match r with Ok x => W (k x) h' Q | Err out => Q h' (Err out) end) →
  W (let! x := p in k x) h Q.
Proof. intros Hp. apply whatever_bind. eapply whatever_mono; [exact Hp|]. by intros h' [x|out] _. Qed.

Lemma rets_let {A} (P : Prop) (p : stage A) (k : A → stage unit) :
  (∀ x, rets (λ r, r = Ok tt → P) (k x)) → rets (λ r, r = Ok tt → P) (let! x := p in k x).
Proof. intros Hk. eapply rets_bind; [apply rets_any|]. by intros [x|out] _; [apply Hk|]. Qed.

Lemma rets_mono {A} (S S' : A → Prop) (p : io A) : rets S p → (∀ x, S x → S' x) → rets S' p.
Proof. intros Hp HS. induction p as [x|c k IH]; simpl in *; auto. Qed.

Lemma rets_when (P : Prop) b r (k : stage unit) :
  ((b = true → r = Ok tt) → rets (λ r, r = Ok tt → P) k) → rets (λ r, r = Ok tt → P) (let! _ := when b (Ret r) in k).
Proof. intros Hk. unfold when. destruct b; simpl; [|by apply Hk]. destruct r as [[]|err]; simpl; [by apply Hk|done]. Qed.

Lemma invalid_ok {A} (r : result string A) x : invalid r = Ok x → r = Ok x.
Proof. by destruct r; simpl; intros [=->]. Qed.

(** What is known of the replies, apart from the calls. *)
Abbreviation V p h Q := (whatever iev (λ _ _, True) (λ _ _, True) p h Q).

Lemma W_and_V {A} (p : io A) h (Q Q' : list ievent → A → Prop) : W p h Q → V p h Q' → W p h (λ h' x, Q h' x ∧ Q' h' x).
Proof. revert h. induction p as [x|c k IH]; intros h; simpl; [done|]. intros [? ?] [_ ?]. split; auto. Qed.

Lemma V_any {A} (p : io A) h : V p h (λ _ _, True).
Proof. revert h. induction p as [x|c k IH]; intros h; simpl; auto. Qed.

Lemma V_rets {A} (S : A → Prop) (p : io A) h : rets S p → V p h (λ _ x, S x).
Proof. revert h. induction p as [x|c k IH]; intros h; simpl; auto. Qed.

Lemma V_ask {B} c (f : ireply c → io B) h (Q : list ievent → B → Prop) :
  (∀ r, V (f r) (h ++ [iev c r]) Q) → V (prog_bind f (ask c)) h Q.
Proof. intros Hf. split; [done|]. intros r _. apply Hf. Qed.

(** A sequence of gates: one passed over, and the one that establishes [X]. *)
Lemma V_skip {A B} (X : list ievent → Prop) (p : io (result A B)) (k : B → io (result A unit)) h :
  (∀ h' x, V (k x) h' (λ h'' r, r = Ok tt → X h'')) → V (let! x := p in k x) h (λ h' r, r = Ok tt → X h').
Proof.
  intros Hk. apply whatever_bind. eapply whatever_mono; [apply V_any|]. intros h' [x|out] _ _; [apply Hk|done].
Qed.

Lemma V_here {A B} (X : list ievent → Prop) (p : io (result A B)) (k : B → io (result A unit)) h :
  (∀ h h', h `prefix_of` h' → X h → X h') →
  V p h (λ h' r, ∀ x, r = Ok x → X h') → V (let! x := p in k x) h (λ h' r, r = Ok tt → X h').
Proof.
  intros Hm Hp. apply whatever_bind. eapply whatever_mono; [exact Hp|]. intros h' [x|out] _ HX; [|done].
  eapply whatever_mono; [apply V_any|]. intros h'' r Hpp _ _. by eapply Hm, HX.
Qed.

(** The gate is open for other kinds. *)
Lemma V_when (b : bool) (X : list ievent → Prop) p h :
  (b = true → V p h (λ h' r, r = Ok tt → X h')) → V (when b p) h (λ h' r, ∀ x, r = Ok x → b = true → X h').
Proof.
  intros Hp. unfold when. destruct b; [|by intros ? _]. apply whatever_bind. eapply whatever_mono; [by apply Hp|].
  intros h' [[]|] _ HX; [|done]. intros _ _ _. by apply HX.
Qed.

(** *** The gates *)

Lemma check_envelope_ok now h :
  check_envelope now = Ok tt → answered h NowSecs now → answered h (IsServingActive (community t)) (Ok true) →
  answered h (SpawnVerify se) true → verify_event se = true → check_kind = Ok tt → authentic h.
Proof.
  unfold check_envelope. intros Hc Hn Ha Hs Hv Hk. destruct (drift_exceeds _ _ _) eqn:Ed; [done|].
  destruct (Nat.ltb_spec MAX_EVENT_CONTENT_BYTES (String.length (ev_content e))); [done|].
  destruct (bool_decide (ev_pubkey e ≠ auth_pubkey a) && negb is_gift_wrap) eqn:Ea; [done|].
  destruct (required_scope_for_kind kind e) as [s|] eqn:Es; [|done].
  destruct (is_relay_admin_kind kind && bool_decide (auth_channel_ids a ≠ None)) eqn:E1; [done|].
  destruct (bool_decide (kind = KIND_NIP43_LEAVE_REQUEST) && bool_decide (auth_channel_ids a ≠ None)) eqn:E2; [done|].
  case_decide; [|done]. unfold verify_event in Hv. apply andb_true_iff in Hv as [? ?]. split; try done.
  - exists now. done.
  - apply andb_false_iff in Ea as [Ea|Ea]; [left; apply bool_decide_eq_false in Ea; by apply dec_stable|right].
    apply negb_false_iff, bool_decide_eq_true in Ea. done.
  - by exists s.
  - intros Hor. destruct (auth_channel_ids a) eqn:Ei; [|done]. exfalso. cbn in E1, E2. rewrite andb_true_r in E1, E2.
    destruct Hor as [Hr|Hr]; [by rewrite Hr in E1|]. by rewrite bool_decide_true in E2.
Qed.

Lemma ingest_preflight_spec h : W preflight h (λ h' r, ∀ now, r = Ok now → authentic h').
Proof.
  unfold preflight. apply W_let, W_ask; [done|]. intros [[]|err]; apply W_ret; [|done..].
  apply W_let, W_ret. destruct check_kind as [[]|] eqn:Ek; [|done].
  apply W_let, W_ask; [done|]. intros [|]; apply W_ret; [|done]. cbn [negb]. destruct (verify_event se) eqn:Ev; [|done].
  apply W_ask; [done|]. intros now. apply W_ret. intros now'.
  destruct (check_envelope now) as [[]|] eqn:Ee; [|done]. intros _.
  apply (check_envelope_ok now); try done; rewrite <-!app_assoc; apply elem_of_app; right; simpl; set_solver.
Qed.

Lemma emit_spec action h (Q : list ievent → unit → Prop) :
  record_true h action → Q (h ++ [iev (RecordTrace action state_for_request) tt]) tt → W (emit action) h Q.
Proof. intros Hr HQ. split; [done|]. by intros [] _. Qed.

Lemma route_spec h : authentic h → W route h (λ h' _, authentic h').
Proof.
  intros Ha. unfold route.
  assert (∀ c r, authentic (h ++ [iev c r])) as Hm by (intros c r; eapply authentic_mono; [by eexists|done]).
  destruct (is_command_kind kind); [apply W_ask; [done|]; intros r; by apply W_ret|].
  case_decide; [|case_decide; [|destruct (is_moderation_command_kind kind); [|by apply W_ret]]].
  all: unfold handled; apply W_ask; [done|]; intros [[]|err]; [|by apply W_ret].
  2,3: by apply whatever_bind, W_ret, W_ret.
  apply whatever_bind, emit_spec, W_ret; [right; left; apply answered_last|]. eapply authentic_mono; [by eexists|apply Hm].
Qed.

Lemma restriction_gate_spec h : authentic h → W restriction_gate h (λ h' r, r = Ok tt → authentic h' ∧ unrestricted h').
Proof.
  intros Ha. unfold restriction_gate. destruct (is_moderation_command_kind kind) eqn:Em; cbn [negb andb].
  { apply W_ret. split; [done|by left]. }
  destruct (is_relay_admin_kind kind) eqn:Er; cbn [negb].
  { apply W_ret. split; [done|by right; left]. }
  apply W_ask; [done|]. intros [r|err]; [|by apply W_ret].
  destruct (rs_banned r) eqn:Eb; [by apply W_ret|]. destruct (rs_muted_until r) as [u|] eqn:Eu.
  - apply W_ask; [done|]. intros now. apply W_ret. destruct (Z.ltb_spec now u); [done|]. intros _.
    split; [eapply authentic_mono; [|done]; rewrite <-app_assoc; by eexists|]. right; right. exists r.
    split_and!; [eapply answered_mono; [by eexists|apply answered_last]|done|].
    intros u' Hu. rewrite Eu in Hu. injection Hu as <-. exists now. split; [apply answered_last|done].
  - apply W_ret. intros _. split; [eapply authentic_mono; [by eexists|done]|]. right; right. exists r.
    split_and!; [apply answered_last|done|]. intros u' Hu. by rewrite Eu in Hu.
Qed.

(** *** The channel *)

Lemma event_channel_spec h :
  W event_channel h (λ h' r, h `prefix_of` h' ∧ ∀ ch, r = Ok ch → is_global_only_kind kind = true ∨ channel_named h' ch).
Proof.
  unfold event_channel, channel_named. destruct (is_global_only_kind kind) eqn:Eg.
  { eapply whatever_mono; [|intros h' r Hp _; split; [exact Hp|intros ch _; by left]].
    apply (W_calls (λ c, match c with GetEventById _ _ => True | _ => False end) (λ _, True) (λ _, True)); try done.
    - by intros ? [].
    - case_decide; [apply only_bind; [|done]|destruct is_gift_wrap; [done|case_decide; [|done]]].
      + unfold derive_reaction_channel. destruct (last_e_target e); [|done]. destruct (hex_decode _); [|done].
        case_decide; [|done]. by split.
      + destruct (first_e_target e); [|done]. destruct (hex_decode _); [|done]. by split.
    - apply rets_any. }
  case_decide; [|destruct is_gift_wrap; [|case_decide]].
  - unfold derive_reaction_channel. destruct (last_e_target e) as [hex|]; [|by apply W_ret].
    destruct (hex_decode hex) as [id|]; [|by apply W_ret]. case_decide; [|by apply W_ret].
    apply whatever_bind, W_ask; [done|]. intros [[s|]|err]; apply W_ret, W_ret; (split; [by eexists|]); try done.
    intros ch. destruct (channel_id s) eqn:Ec; intros [= <-]; right; exists id, s; (split; [apply answered_last|done]).
  - apply W_ret. split; [done|]. intros ch [= <-]. by right.
  - destruct (first_e_target e) as [hex|]; [|apply W_ret; split; [done|]; intros ch [= <-]; by right; left].
    destruct (hex_decode hex) as [id|]; [|by apply W_ret].
    apply W_ask; [done|]. intros [[s|]|err]; apply W_ret; (split; [by eexists|]); try done.
    + intros ch [= <-]. right; right. exists id, s. split; [apply answered_last|done].
    + intros ch [= <-]. right. by left.
  - apply W_ret. split; [done|]. intros ch [= <-]. by right.
Qed.

Lemma scope_channel_ok h ch ch' :
  is_global_only_kind kind = true ∨ channel_named h ch → scope_channel ch = Ok ch' → channel_ok h ch'.
Proof.
  unfold scope_channel. intros Hn. destruct (requires_h_channel_scope kind && _) eqn:Er; [done|].
  assert (channel_named h (if is_global_only_kind kind then None else ch)) as Hn'.
  { unfold channel_named in *. destruct (is_global_only_kind kind); [done|]. by destruct Hn. }
  set (c := if is_global_only_kind kind then None else ch) in *. clearbody c. clear Hn.
  assert (requires_h_channel_scope kind = true → c ≠ None) as Hs.
  { intros Hr. rewrite Hr in Er. by apply bool_decide_eq_false in Er. }
  destruct c as [c|].
  - unfold check_token_channel_access. destruct (auth_channel_ids a) as [allowed|] eqn:Ei; [case_decide; [|done]|];
      intros [= <-]; (split; [done..|]); rewrite Ei; intros ids [= <-]. by exists c.
  - case_decide as Hi; [done|]. intros [= <-]. split; [done..|]. intros ids Hids. by rewrite Hids in Hi.
Qed.

Lemma resolve_channel_spec h :
  W resolve_channel h (λ h' r, h `prefix_of` h' ∧ ∀ ch, r = Ok ch → channel_ok h' ch).
Proof.
  unfold resolve_channel. apply W_let. eapply whatever_mono; [apply event_channel_spec|].
  intros h' [ch|out] _ [Hp Hch]; [|done]. apply W_ret. split; [done|]. intros ch'.
  by apply scope_channel_ok, Hch.
Qed.

Lemma channel_row_spec ch h : W (channel_row ch) h (λ h' row, h `prefix_of` h' ∧ row_read h' ch row).
Proof.
  unfold channel_row. destruct ch as [c|]; [|by apply W_ret]. apply W_ask; [done|].
  intros r. apply W_ret. split; [by eexists|]. intros c' [= <-]. exists r.
  split; [apply answered_last|done].
Qed.

Lemma threaded_spec ch row h : W (threaded_visibility ch row) h (λ h' _, h `prefix_of` h').
Proof.
  unfold threaded_visibility. destruct ch as [c|]; [destruct row as [row|]|]; [|by apply W_ret..].
  apply W_ask; [done|]. intros r. apply W_ret. by eexists.
Qed.

Lemma membership_spec c row h :
  (∀ r, row = Some r → answered h (GetChannel (community t) c) (Ok r)) →
  W (check_channel_membership t c (pubkey_bytes (auth_pubkey a)) row) h
    (λ h' r, h `prefix_of` h' ∧ (r = Ok tt → may_post h' c)).
Proof.
  intros Hrow. unfold check_channel_membership. apply W_ask; [done|]. intros [[|]|err].
  - apply W_ret. split; [by eexists|]. intros _. right; left. apply answered_last.
  - destruct row as [r|].
    + apply whatever_bind, W_ret, W_ret. split; [by eexists|]. case_bool_decide; [|done]. intros _. right; right.
      exists r. split; [|done]. eapply answered_mono; [by eexists|by apply Hrow].
    + apply whatever_bind, W_ask; [done|]. intros [r|err]; apply W_ret, W_ret; (split; [rewrite <-app_assoc; by eexists|]); [|done].
      case_bool_decide; [|done]. intros _. right; right. exists r. split; [apply answered_last|done].
  - apply W_ret. split; [by eexists|done].
Qed.

Lemma membership_gate_spec ch row h :
  row_read h ch row →
  W (membership_gate ch row) h (λ h' r, h `prefix_of` h' ∧ (r = Ok tt → ∀ c, ch = Some c → may_post h' c)).
Proof.
  intros Hr. unfold membership_gate. destruct ch as [c|]; [|by apply W_ret].
  destruct skip_membership eqn:Es; [apply W_ret; split; [done|]; intros _ c' _; by left|].
  apply whatever_bind. eapply whatever_mono; [apply membership_spec|].
  - intros r ->. destruct (Hr c eq_refl) as ([r'|err] & Ha & E); by simplify_eq.
  - intros h' r _ [Hp Hm]. apply whatever_bind, emit_spec, W_ret.
    { destruct r as [[]|]; simpl; [by apply Hm|done]. }
    split; [etrans; [exact Hp|by eexists]|].
    intros E c' [= <-]. eapply may_post_mono; [by eexists|]. apply Hm. by destruct r as [[]|].
Qed.

Lemma relay_admin_spec h :
  authentic h → W relay_admin h (λ h' r, h `prefix_of` h' ∧ (r = Ok tt → is_relay_admin_kind kind = false)).
Proof.
  intros Ha. unfold relay_admin. destruct (is_relay_admin_kind kind) eqn:Ek; [|by apply W_ret].
  apply W_ask; [split_and!; try done; apply Ha; by left|]. intros [[]|err]; apply W_ret; (split; [by eexists|done]).
Qed.

Lemma own_key h : authentic h → kind ≠ KIND_GIFT_WRAP → ev_pubkey e = auth_pubkey a.
Proof. intros Ha Hk. by destruct (au_author h Ha). Qed.

Lemma leave_request_spec h :
  authentic h → unrestricted h → W leave_request h (λ h' r, h `prefix_of` h').
Proof.
  intros Ha Hu. unfold leave_request. case_decide as Hk; [|by apply W_ret].
  destruct (negb _); [by apply W_ret|]. apply W_let, W_ask; [done|]. intros now. apply W_ret.
  destruct (check_leave now) as [[]|]; [|by eexists].
  assert (∀ c r, h `prefix_of` h ++ [iev c r]) as Hp by (intros c r; by eexists).
  apply W_ask.
  { split_and!; [done|f_equal; apply (own_key h Ha); rewrite Hk; discriminate|by eapply authentic_mono, Ha|
      by eapply unrestricted_mono, Hu|].
    apply Ha. by right. }
  intros [[]|err]; try (apply W_ret; rewrite <-app_assoc; by eexists).
  apply W_ask; [done|]. intros r1. apply W_ask; [done|]. intros r2. apply W_ret. rewrite <-!app_assoc. by eexists.
Qed.

(** *** The rules *)

(** Calls that need nothing to be known, and the one the rules make that does. *)
Definition plain (c : icall) : Prop :=
  match c with
  | HandleCommand _ _ _ | HandleFeedback _ _ | HandleReport _ _ | HandleModeration _ _ | HandleRelayAdmin _ _
  | RemoveRelayMember _ _ | HandleIdentityArchive _ _ | CreateChannelWithId _ _ _ _ _ _ _ _ | AcceptPushLease _ _ _
  | InsertReaction _ _ _ _ _ _ _ | ReplaceAddressable _ _ _ | ReplaceParameterized _ _ _ _ | InsertEvent _ _ _ _
  | HandleSideEffects _ _ _ | EmitThreadSummary _ _ _ | DispatchPersistent _ _ _ _ _ => False
  | PublishMemberRemoved _ _ | PublishMembershipList _ | SoftDeleteChannel _ _ | InvalidateChannelDeleted _ => False
  | RecordTrace _ _ => False
  | _ => True
  end.

Definition calm (c : icall) : Prop :=
  plain c ∨ c = HandleIdentityArchive t e ∧ is_identity_archive_request_kind kind = true.

Lemma plain_guard h c : plain c → call_guard h c.
Proof. by destruct c. Qed.

Lemma global_sub l k : contains l k = true → forallb is_global_only_kind l = true → is_global_only_kind k = true.
Proof. intros Hk%contains_iff Hl. rewrite forallb_elem_of in Hl. by apply Hl. Qed.

Lemma global_no_channel h ch : is_global_only_kind kind = true → channel_ok h ch → ch = None.
Proof. intros Hg [Hn _ _]. unfold channel_named in Hn. by rewrite Hg in Hn. Qed.

Lemma calm_guard h ch c : cleared h ch → calm c → call_guard h c.
Proof.
  intros Hc [Hp|[-> Hk]]; [by apply plain_guard|]. split_and!; [done..|].
  assert (is_global_only_kind kind = true) as Hg by (by apply (global_sub _ _ Hk)).
  by rewrite (global_no_channel h ch Hg (cl_channel _ _ Hc)) in Hc.
Qed.

Ltac only_calls := repeat first
  [ exact I | by left | apply only_bind; [|intros ?] | progress (cbn [prog_mbind only ask]) | split; [|intros ?]
  | match goal with |- only _ (match ?x with _ => _ end) => destruct x | |- only _ (if ?x then _ else _) => destruct x end ].

Lemma only_when ok b p : only ok p → only ok (when b p).
Proof. intros Hp. unfold when. destruct b; [|done]. by apply only_bind. Qed.

Lemma only_invalid ok {A} (p : io (result string A)) : only ok p → only ok (invalid_io p).
Proof. intros Hp. by apply only_bind. Qed.

Lemma only_gate ok b (p : io (result IngestError unit)) (k : stage unit) : only ok p → only ok k → only ok (let! _ := when b p in k).
Proof. intros Hp Hk. apply only_bind; [by apply only_when|]. by intros [[]|?]. Qed.

Lemma only_checked ok (r : result exit unit) (k : stage unit) : only ok k → only ok (let! _ := Ret r in k).
Proof. intros Hk. by destruct r as [[]|?]. Qed.

Lemma only_ask (ok : icall → Prop) c : ok c → only ok (ask c).
Proof. by split. Qed.

Lemma huddle_calm relay ttl : only calm (validate_huddle_lifecycle_event relay ttl t e kind).
Proof. unfold validate_huddle_lifecycle_event. only_calls. Qed.

Lemma target_calm c what : only calm (load_target c e what).
Proof. unfold load_target. only_calls. Qed.

Lemma edit_calm relay c : only calm (validate_edit_ownership relay c e).
Proof. unfold validate_edit_ownership. apply only_bind; [apply target_calm|intros ?]. only_calls. Qed.

Lemma vote_calm c : only calm (validate_forum_vote_target c e).
Proof. unfold validate_forum_vote_target. apply only_bind; [apply target_calm|intros ?]. only_calls. Qed.

Lemma metric_calm : only calm check_metric_owner.
Proof. unfold check_metric_owner. only_calls. Qed.

Lemma rules_calm ch row : only calm (rules ch row).
Proof.
  unfold rules. apply only_gate; [apply huddle_calm|].
  apply only_gate; [by apply only_invalid, only_ask; left|].
  apply only_bind.
  { unfold when. destruct (is_identity_archive_request_kind kind) eqn:Ei; [|done]. apply only_bind; [|done].
    apply only_invalid, only_ask. by right. }
  intros [[]|?]; [|done]. apply only_gate; [by apply only_invalid, only_ask; left|]. do 2 apply only_checked.
  apply only_gate; [by apply only_invalid, edit_calm|]. apply only_gate; [by apply only_invalid, vote_calm|].
  do 2 (apply only_gate; [exact I|]). apply only_gate; [apply metric_calm|].
  apply only_gate; [unfold check_reminder; only_calls|]. do 2 (apply only_gate; [exact I|]). by apply only_when.
Qed.

Definition not_archived (ch : option Uuid) (row : option ChannelRecord) : Prop :=
  ∀ c r, ch = Some c → row = Some r → cr_archived_at r = None ∨ is_unarchive = true.

Lemma check_archived_ok ch row : check_archived ch row = Ok tt → not_archived ch row.
Proof.
  unfold check_archived. intros Hc c r -> ->. destruct is_unarchive; [by right|]. cbn [negb andb] in Hc.
  case_bool_decide; [done|]. by left.
Qed.

Lemma is_kind_true k : is_kind k = true ↔ kind = k.
Proof. apply bool_decide_eq_true. Qed.

Lemma rules_rets ch row : rets (λ r, r = Ok tt → not_archived ch row ∧ envelope_ok) (rules ch row).
Proof.
  unfold rules. do 4 (apply rets_let; intros _).
  destruct (check_archived ch row) as [[]|] eqn:Ea; [|done]. apply rets_let; intros _.
  do 3 (apply rets_let; intros _). apply rets_when; intros Hdiff. apply rets_when; intros Hengram.
  do 2 (apply rets_let; intros _). apply rets_when; intros Hpersona. apply rets_when; intros Hteam.
  assert (∀ r, leave_on (invalid r) = Ok tt → r = Ok tt) as Hleave by (by intros [[]|]).
  assert (rets (λ r, r = Ok tt → is_kind KIND_PROJECT = true → project_ok e)
    (when (is_kind KIND_PROJECT) (Ret (invalid (map_err project_rejection_text (validate_project_envelope e)))))) as Hproject.
  { unfold when. destruct (is_kind KIND_PROJECT); [|done]. simpl. intros Hv%Hleave _. apply project_envelope_sound.
    by destruct (validate_project_envelope e) as [[]|]. }
  eapply rets_mono; [exact Hproject|]. intros r Hp Hr. specialize (Hp Hr).
  split; [by apply check_archived_ok|]. unfold envelope_ok. rewrite <-!is_kind_true.
  split_and!; intros Hk; try (eapply invalid_ok; auto); by apply Hp.
Qed.

(** *** The rules that ask *)

Lemma load_target_spec c what h :
  V (load_target c e what) h (λ h' r, ∀ target, r = Ok target → ∃ id, answered h' (GetEventById c id) (Ok (Some target))).
Proof.
  unfold load_target. destruct (first_e_target e) as [hex|]; [|done]. destruct (hex_decode hex) as [id|]; [|done].
  apply V_ask. intros [[target|]|err]; simpl; try done. intros ? [= <-]. exists id. apply answered_last.
Qed.

Lemma edit_ownership_spec h :
  V (validate_edit_ownership (cf_relay_pubkey cfg) (community t) e) h (λ h' r, r = Ok tt → may_edit h').
Proof.
  unfold validate_edit_ownership. apply whatever_bind. eapply whatever_mono; [apply load_target_spec|].
  intros h1 [target|] _ Ht; [|done]. destruct (Ht _ eq_refl) as [id Hid]. apply whatever_bind. simpl.
  destruct (same_channel _ _) as [[]|]; [|done].
  assert (∀ h', h1 `prefix_of` h' → answered h' (GetEventById (community t) id) (Ok (Some target))) as Hid'.
  { intros h' Hp. by eapply answered_mono. }
  assert (∀ c r, h1 `prefix_of` h1 ++ [iev c r]) as Hone by (intros; by eexists).
  case_decide as Ha.
  - destruct (channel_id target) as [c|] eqn:Ec.
    + apply V_ask. intros [[|]|err]; try done.
      * intros _. exists id, target. split; [by apply Hid'|]. left. split; [done|]. rewrite Ec. intros c' [= <-]. left. apply answered_last.
      * apply V_ask. intros [row|]; simpl; [|done]. case_decide; [|done]. intros _. exists id, target.
        split; [apply Hid'; rewrite <-app_assoc; by eexists|]. left. split; [done|]. rewrite Ec. intros c' [= <-]. right.
        exists row. split; [apply answered_last|done].
    + intros _. exists id, target. split; [done|]. left. by rewrite Ec.
  - apply V_ask. intros [[|]|err]; simpl; try done. intros _. exists id, target. split; [by apply Hid'|]. right.
    apply answered_last.
Qed.

Lemma metric_owner_spec h :
  V check_metric_owner h (λ h' r, r = Ok tt → ∃ owner, metric_owner = Some owner ∧
    answered h' (IsAgentOwner (community t) (pubkey_bytes (ev_pubkey e)) owner) (Ok true)).
Proof.
  unfold check_metric_owner. apply whatever_bind. simpl. destruct (invalid _) as [[]|]; [|done].
  destruct metric_owner as [owner|]; [|done]. apply V_ask. intros [[|]|]; simpl; try done. intros _. exists owner.
  split; [done|apply answered_last].
Qed.

Lemma rules_vetted ch row h : V (rules ch row) h (λ h' r, r = Ok tt → vetted h').
Proof.
  assert (∀ c : icall, ∀ h h', h `prefix_of` h' → ∀ r, answered h c r → answered h' c r) as Hans.
  { intros c h1 h2 Hp r. by apply answered_mono. }
  assert (V (rules ch row) h (λ h' r, r = Ok tt → is_admin_kind kind = true → answered h' (ValidateAdmin t kind e) (Ok tt))) as Hadmin.
  { unfold rules. apply V_skip; intros h1 _. apply V_here; [by eauto|]. apply V_when. intros _.
    apply whatever_bind. split; [done|]. intros [[]|] _; simpl; [|done]. intros _. apply answered_last. }
  assert (V (rules ch row) h (λ h' r, r = Ok tt → is_kind KIND_DELETION = true → answered h' (ValidateDeletion t e) (Ok tt))) as Hdeletion.
  { unfold rules. do 3 (apply V_skip; intros ? _). apply V_here; [by eauto|]. apply V_when. intros _.
    apply whatever_bind. split; [done|]. intros [[]|] _; simpl; [|done]. intros _. apply answered_last. }
  assert (V (rules ch row) h (λ h' r, r = Ok tt → is_kind KIND_STREAM_MESSAGE_EDIT = true → may_edit h')) as Hedit.
  { unfold rules. do 6 (apply V_skip; intros ? _). apply V_here; [intros; eapply may_edit_mono; eauto|]. apply V_when. intros _.
    apply whatever_bind. eapply whatever_mono; [apply edit_ownership_spec|]. intros hn [[]|] _ Hr; [|done]. intros _. by apply Hr. }
  assert (V (rules ch row) h (λ h' r, r = Ok tt → is_kind KIND_AGENT_TURN_METRIC = true → ∃ owner, metric_owner = Some owner ∧
    answered h' (IsAgentOwner (community t) (pubkey_bytes (ev_pubkey e)) owner) (Ok true))) as Hmetric.
  { unfold rules. do 10 (apply V_skip; intros ? _). apply V_here; [|apply V_when; intros _; apply metric_owner_spec].
    intros h1 h2 Hp Hx Hk. destruct (Hx Hk) as (owner & ? & ?). exists owner. split; [done|by eapply answered_mono]. }
  eapply whatever_mono; [exact (whatever_and _ _ _ _ _ _ _ (whatever_and _ _ _ _ _ _ _ Hadmin Hdeletion) (whatever_and _ _ _ _ _ _ _ Hedit Hmetric))|].
  intros h' r _ [[Ha Hd] [He Hm]] Hr. split; rewrite <-?is_kind_true; auto.
Qed.

Lemma create_group_spec ch h : admitted h ch → W (create_group ch) h (λ h' _, h `prefix_of` h').
Proof.
  intros Ha. unfold create_group. destruct (is_kind KIND_NIP29_CREATE_GROUP) eqn:Ek; [|by apply W_ret].
  cbv zeta. destruct (match first_content "name" with Some _ => _ | None => _ end); [by apply W_ret|].
  destruct (visibility_from_str _) as [vis|]; [destruct (channel_type_from_str _) as [ty|]|]; [|by apply W_ret..].
  destruct ch as [c|]; [|by apply W_ret]. apply W_ask.
  { split_and!; [done| |done]. f_equal. apply (own_key h); [apply Ha|]. apply is_kind_true in Ek. rewrite Ek. discriminate. }
  intros [[]|err]; apply W_ret; by eexists.
Qed.

Lemma push_lease_spec ch now h : admitted h ch → W (push_lease now) h (λ h' _, h `prefix_of` h').
Proof.
  intros Ha. unfold push_lease. destruct (is_kind KIND_PUSH_LEASE) eqn:Ek; [|by apply W_ret]. apply W_ask.
  { split_and!; [done..|]. assert (is_global_only_kind kind = true) as Hg.
    { apply is_kind_true in Ek. rewrite Ek. by vm_compute. }
    by rewrite (global_no_channel h ch Hg (cl_channel _ _ (proj1 Ha))) in Ha. }
  intros [o|err]; [|apply W_ret; by eexists]. destruct (lease_refusal o) eqn:Eo; [apply W_ret; by eexists|].
  apply whatever_bind, emit_spec, W_ret.
  { right; right. exists now. assert (o = Accepted) as -> by (by destruct o). apply answered_last. }
  rewrite <-app_assoc. by eexists.
Qed.

Lemma blobs_plain tags : only plain (verify_imeta_blobs t tags).
Proof.
  assert (∀ x y z, only plain (head_blob x y z)) as Hh by (intros; by apply only_bind; [apply only_ask|]).
  assert (∀ x y, only plain (load_sidecar t x y)) as Hs by (intros; by apply only_bind; [apply only_ask|]).
  assert (∀ v, only plain (verify_poster t v)) as Hp.
  { intros v. unfold verify_poster. destruct (extract_hash_from_media_url v); [|done]. apply only_bind; [apply Hs|].
    intros [?|]; [|done]. case_decide; [|done]. destruct (extract_ext_from_media_url v); [case_decide; [done|]|]; apply Hh. }
  induction tags as [|tag tags IH]; [done|]. cbn [verify_imeta_blobs]. apply only_bind; [|by intros [[]|]].
  unfold verify_blob. case_decide; [done|]. apply only_bind; [apply Hs|]. intros [s|]; [|done].
  apply only_bind; [apply Hh|]. intros [[]|]; [|done]. apply only_bind; [done|]. intros [[]|]; [|done].
  apply only_bind; [case_decide; [apply Hh|done]|]. intros [[]|]; [|done]. case_decide; [apply Hp|done].
Qed.

Lemma media_plain : only plain media_rules.
Proof.
  unfold media_rules. cbv zeta. apply only_gate; [exact I|]. case_decide; [done|]. apply only_checked.
  apply only_bind; [apply blobs_plain|done].
Qed.

Lemma created_plain c id fallback : only plain (created_or c id fallback).
Proof. by apply only_bind; [apply only_ask|]. Qed.

Lemma or_now_plain o : only plain (or_now o).
Proof. unfold or_now. by destruct o; [|apply only_ask]. Qed.

Lemma derive_plain c parent id created : only plain (derive_ancestry_from_parent_tags c parent id created).
Proof. unfold derive_ancestry_from_parent_tags. cbv zeta. case_decide; [done|]. apply only_bind; [apply created_plain|done]. Qed.

Lemma thread_plain c ch : only plain (resolve_nip10_thread_meta c e ch).
Proof.
  unfold resolve_nip10_thread_meta. destruct (resolve_markers _) as [[root_hex parent_hex]|]; [|done].
  destruct (hex_decode parent_hex) as [id|]; [|done]. apply only_bind.
  { unfold load_parent. apply only_bind; [by apply only_ask|]. intros r. apply only_bind; [by apply only_ask|]. intros r'.
    destruct r as [[s|]|]; try done. destruct (channel_id s); [|done]. case_decide; [done|].
    apply only_bind; [apply or_now_plain|done]. }
  intros [[[s created] meta]|]; [|done]. destruct (hex_decode root_hex); [|done]. apply only_bind; [done|].
  intros [m|]; [|done]. apply only_bind.
  - unfold client_ancestry. destruct m as [m|].
    + cbv zeta. case_decide; [done|]. apply only_bind; [apply created_plain|]. intros ?. by destruct (100 <? _)%Z.
    + apply only_bind; [apply derive_plain|]. intros [[root created'] depth]. by case_decide.
  - intros [[[root created'] depth]|]; [|done]. apply only_bind; [apply or_now_plain|done].
Qed.

Lemma thread_stage_plain ch : only plain (thread_stage ch).
Proof.
  unfold thread_stage. destruct ch; [|done]. destruct (requires_h_channel_scope kind); [|done].
  apply only_bind; [apply thread_plain|done].
Qed.

(** *** Storing *)

Lemma publish_spec stored ch w threaded h : stored_as h ch stored → W (publish stored ch w threaded) h (λ _ _, True).
Proof.
  intros Hs. unfold publish. apply whatever_bind, emit_spec, W_ask; [| |intros r; by apply W_ret].
  { unfold write_action. destruct ch as [c|]; [destruct w; by exists stored|]. left. by exists stored. }
  split; [done|]. exists ch. eapply stored_as_mono; [by eexists|done].
Qed.

Lemma after_store_spec stored ch thread threaded h :
  stored_as h ch stored → W (after_store stored ch thread threaded) h (λ _ _, True).
Proof.
  intros Hs. unfold after_store. apply whatever_bind.
  assert (W (if is_side_effect_kind kind then prog_bind (λ _, Ret tt) (ask (HandleSideEffects t kind e)) else Ret tt) h
            (λ h' _, stored_as h' ch stored)) as H1st.
  { destruct (is_side_effect_kind kind); [|by apply W_ret]. apply W_ask; [split_and!; [done..|by exists ch, stored]|].
    intros r. apply W_ret. eapply stored_as_mono; [by eexists|done]. }
  eapply whatever_mono; [exact H1st|]. intros h1 [] _ Hs1. apply whatever_bind.
  destruct thread as [meta|]; [|apply W_ret; by apply publish_spec].
  split; [split; [done|]; by exists ch, stored|]. intros r _. apply publish_spec. eapply stored_as_mono; [by eexists|done].
Qed.

Lemma compensate_unguarded created : only (λ c, ∀ h, call_guard h c) (compensate created).
Proof. unfold compensate. destruct created; [|done]. split; [done|]. by intros r. Qed.

Lemma store_event_spec ch thread created h :
  admitted h ch →
  W (store_event ch thread created) h (λ h' r, ∀ stored, r = Ok (stored, true) → stored_as h' ch stored).
Proof.
  intros Ha. unfold store_event. cbv zeta. destruct (is_replaceable kind).
  { apply W_ask; [done|]. intros [[s w]|]; apply W_ret; [|done]. intros s' [= -> ->]. left. apply answered_last. }
  destruct (is_parameterized_replaceable kind).
  { destruct (_ <? _); [by apply W_ret|]. apply W_ask; [done|]. intros [[s w]|]; apply W_ret; [|done].
    intros s' [= -> ->]. right; left. eexists. apply answered_last. }
  apply W_ask; [done|]. intros [[s w]|err].
  - apply W_ret. intros s' [= -> ->]. right; right; left. eexists. apply answered_last.
  - apply whatever_bind. eapply whatever_mono.
    + apply (W_calls (λ c, ∀ h, call_guard h c) (λ _, True) (λ _, True)); [done|intros h' c _ Hc; apply Hc|apply compensate_unguarded|apply rets_any|done].
    + intros h' _ _ _. apply W_ret. by destruct (fault_kind err).
Qed.

Lemma store_spec ch thread threaded created h :
  admitted h ch → W (store ch thread threaded created) h (λ _ _, True).
Proof.
  intros Ha. unfold store. destruct (is_kind KIND_REACTION).
  - unfold store_reaction. destruct (last_e_target e) as [hex|]; [|by apply W_ret].
    destruct (hex_decode hex) as [id|]; [|by apply W_ret]. apply W_let, W_ret.
    destruct (leave_on _) as [[]|]; [|done]. apply W_ask; [done|]. intros [[| |s w]|err]; try by apply W_ret.
    apply whatever_bind. eapply whatever_mono; [apply publish_spec|done].
    right; right; right. do 5 eexists. apply answered_last.
  - apply W_let. eapply whatever_mono; [by apply store_event_spec|]. intros h' [[s [|]]|out] _ Hs; [|by apply W_ret|done].
    apply whatever_bind. eapply whatever_mono; [apply after_store_spec; by apply Hs|done].
Qed.

(** *** The whole path *)

(** After the membership gate every stage keeps what was established. *)
Lemma rules_spec ch row h :
  cleared h ch → row_read h ch row → W (rules ch row) h (λ h' r, r = Ok tt → admitted h' ch).
Proof.
  intros Hcl Hrow. eapply whatever_mono; [apply W_and_V; [apply W_and_V; [|apply V_rets, rules_rets]|apply rules_vetted]|].
  - apply (W_calls calm (λ h, cleared h ch ∧ row_read h ch row) (λ _, True)); [| |apply rules_calm|apply rets_any|done].
    + intros h' h'' Hpp [??]. split; [by eapply cleared_mono|by eapply row_read_mono].
    + intros h' c [? _]. by apply calm_guard with ch.
  - intros h' r _ [[[[Hc Hrow'] _] Hr] Hv] E. destruct (Hr E) as [Harch Henv]. split; [done|]. split; [done|].
    split; [by apply Hv|]. by exists row.
Qed.

Lemma admitted_rest now ch row threaded h :
  cleared h ch → row_read h ch row →
  W (let! _ := relay_admin in
     let! _ := leave_request in
     let! _ := rules ch row in
     let! created := create_group ch in
     let! _ := Ret (check_join ch row) in
     let! _ := push_lease now in
     let! _ := media_rules in
     let! thread := thread_stage ch in
     let! _ := Ret check_content in
     store ch thread threaded created) h (λ _ _, True).
Proof.
  intros Hcl Hrow. apply W_let. eapply whatever_mono; [apply relay_admin_spec, Hcl|]. intros h4 [[]|out] Hp4 _; [|done].
  apply W_let. eapply whatever_mono; [apply leave_request_spec|].
  { eapply authentic_mono; [exact Hp4|apply Hcl]. }
  { eapply unrestricted_mono; [exact Hp4|apply Hcl]. }
  intros h5 [[]|out] Hp5 _; [|done]. apply W_let.
  assert (h `prefix_of` h5) as Hp by (by etrans).
  eapply whatever_mono; [apply rules_spec; [by eapply cleared_mono|by eapply row_read_mono]|].
  intros h6 [[]|out] _ Hrules; [|done]. assert (admitted h6 ch) as Hadm by (by apply Hrules).
  assert (∀ A (p : stage A) h', only plain p → h6 `prefix_of` h' → W p h' (λ h'' _, admitted h'' ch ∧ True)) as Hplain.
  { intros A p h' Ho Hpp. apply (W_calls plain (λ h, admitted h ch) (λ _, True)); [|intros; by apply plain_guard|done|apply rets_any|].
    - intros. by eapply admitted_mono.
    - by eapply admitted_mono. }
  apply W_let. eapply whatever_mono; [by apply create_group_spec|]. intros h7 [created|out] Hp7 _; [|done].
  apply W_let, W_ret. destruct (check_join ch row) as [[]|]; [|done].
  apply W_let. eapply whatever_mono; [apply push_lease_spec with ch; by eapply admitted_mono|]. intros h8 [[]|out] Hp8 _; [|done].
  apply W_let. eapply whatever_mono; [apply Hplain; [apply media_plain|by etrans]|]. intros h9 [[]|out] Hp9 _; [|done].
  apply W_let. eapply whatever_mono; [apply Hplain; [apply thread_stage_plain|]|].
  { etrans; [exact Hp7|]. by etrans. }
  intros h10 [thread|out] _ [Ha10 _]; [|done]. apply W_let, W_ret.
  destruct check_content as [[]|]; [|done]. by apply store_spec.
Qed.

Lemma admission_path_spec now ch h :
  authentic h → unrestricted h → channel_ok h ch → W (admit_event now ch) h (λ _ _, True).
Proof.
  intros Ha Hu Hc. unfold admit_event. apply whatever_bind. eapply whatever_mono; [apply channel_row_spec|].
  intros h1 row _ [Hp1 Hrow]. apply whatever_bind. eapply whatever_mono; [apply threaded_spec|].
  intros h2 threaded Hp2 _. apply W_let.
  assert (h `prefix_of` h2) as Hp by (by etrans). eapply whatever_mono; [apply membership_gate_spec; by eapply row_read_mono, Hrow|].
  intros h3 [[]|out] Hp3 [_ Hm]; [|done]. assert (h `prefix_of` h3) by (by etrans).
  apply admitted_rest; [|by eapply row_read_mono; [|eapply row_read_mono; [exact Hp2|]]].
  split; [by eapply authentic_mono|by eapply unrestricted_mono|by eapply channel_ok_mono|auto].
Qed.

Lemma inner_spec h : W ingest_event_inner h (λ _ _, True).
Proof.
  unfold ingest_event_inner. apply whatever_bind.
  apply (whatever_mono _ _ _ _ _ (λ _ _, True)); [|intros h' r _ _; by apply W_ret].
  apply W_let. eapply whatever_mono; [apply ingest_preflight_spec|]. intros h1 [now|out] _ Ha; [|done].
  apply W_let. eapply whatever_mono; [by eapply route_spec, Ha|]. intros h2 [[]|out] _ Ha2; [|done].
  apply W_let. eapply whatever_mono; [by apply restriction_gate_spec|]. intros h3 [[]|out] _ Hr; [|done].
  destruct (Hr eq_refl) as [Ha3 Hu3]. apply W_let. eapply whatever_mono; [apply resolve_channel_spec|].
  intros h4 [ch|out] _ [Hp Hc]; [|done]. apply admission_path_spec; [by eapply authentic_mono|by eapply unrestricted_mono|by apply Hc].
Qed.

Lemma counted_spec {A} n (p : io A) h (Q : list ievent → A → Prop) :
  W p h Q → W (counted n p) h (λ h' x, Q h' x.1).
Proof.
  revert n h. induction p as [x|c k IH]; intros n h; simpl; [done|]. intros [Hg Hk]. split; [done|].
  intros r Hr. by apply IH, Hk.
Qed.

Lemma guarded_spec {A} bug (p : io A) h : W p h (λ _ _, True) → W (guarded bug p) h (λ _ _, True).
Proof.
  intros Hp. unfold guarded. apply whatever_bind. eapply whatever_mono; [by apply counted_spec|].
  intros h' [x n] _ _. case_decide; [|by apply W_ret]. apply whatever_bind, emit_spec; [done|]. by apply W_ret.
Qed.

Lemma ingest_spec : W ingest_event [] (λ _ _, True).
Proof.
  unfold ingest_event. apply guarded_spec, whatever_bind. eapply whatever_mono; [apply inner_spec|].
  intros h' [x|err] _ _; [by apply W_ret|]. apply whatever_bind, emit_spec; [done|]. by apply W_ret.
Qed.

(** *** What a refused event leaves behind *)

(** Before the store: no bug is reported, the database is asked to take nothing, and the
    only change besides an identity archival is the creation of [created]. *)
Definition okay (created : option Uuid) (x : ievent) : Prop :=
  reports_bug x = false ∧ asks_store (icall_of x) = false ∧ (∀ ch, creates x = Some ch → created = Some ch) ∧
  (changes x = true →
     (icall_of x = HandleIdentityArchive t e ∧ is_identity_archive_request_kind kind = true) ∨ is_Some (creates x)).

Record pending (created : option Uuid) (h : list ievent) : Prop := {
  pn_calls : Forall (okay created) h;
  pn_created : ∀ ch, created = Some ch → kind = KIND_NIP29_CREATE_GROUP ∧ ∃ y, y ∈ h ∧ creates y = Some ch
}.

(** Calls that leave a history as it was, whatever they are answered, and stages that
    only a refusal may leave with an error. *)
Definition quiet (c : icall) : Prop := ∀ r, okay None (iev c r).

Definition unanswered {A} (r : result exit A) : Prop := match r with Err (Ok _) => False | _ => True end.

Definition keeps {A} (created : option Uuid) (h : list ievent) (r : result exit A) : Prop :=
  match r with Ok _ => pending created h | Err (Err _) => refusal h | Err (Ok _) => True end.

Definition safe {A} (created : option Uuid) (p : stage A) : Prop := ∀ h, pending created h → V p h (keeps created).

Lemma okay_stored created x : okay created x → stored_event x = false.
Proof. intros (_ & Ha & _ & Hc). destruct x as [[] r]; try done. by destruct r as [[]|]; simpl in *; try (destruct (Hc eq_refl) as [[? _]|[? ?]]). Qed.

Lemma okay_weaken created x : okay None x → okay created x.
Proof. intros (? & ? & Hn & ?). split_and!; try done. intros ch Hch. by apply Hn in Hch. Qed.

Lemma pending_snoc created h x : pending created h → okay None x → pending created (h ++ [x]).
Proof.
  intros [Hc Hw] Hx. split.
  - apply Forall_app. split; [done|]. by apply Forall_singleton, okay_weaken.
  - intros ch (? & y & ? & ?)%Hw. split; [done|]. exists y. split; [apply elem_of_app; by left|done].
Qed.

Lemma pending_left created h x : pending created h → x ∈ h → changes x = true → ∀ h', h `prefix_of` h' → left_behind h' x.
Proof.
  intros [Hc Hw] Hx Hch h' Hp. rewrite Forall_forall in Hc. destruct (Hc x Hx) as (_ & _ & Hcr & Hl).
  destruct (Hl Hch) as [?|[ch E]]; [by left|right; left]. exists ch. split; [done|]. by apply (Hw ch), Hcr.
Qed.

Lemma pending_refusal created h : pending created h → refusal h.
Proof.
  intros Hp. pose proof (pn_calls _ _ Hp) as Hc. split.
  - eapply Forall_impl; [exact Hc|]. intros x. apply okay_stored.
  - eapply Forall_impl; [exact Hc|]. by intros x (? & _).
  - intros x Hx Hch. by apply (pending_left _ _ _ Hp Hx Hch).
  - intros x ch _ _. left. eapply Forall_impl; [exact Hc|]. by intros y (_ & ? & _).
Qed.

Lemma unchanged_facts x : changes x = false → stored_event x = false ∧ creates x = None.
Proof. destruct x as [[] r]; try done; simpl; destruct r as [[]|]; done. Qed.

(** A store that failed with no channel created leaves nothing behind. *)
Lemma refusal_store h x : pending None h → changes x = false → reports_bug x = false → refusal (h ++ [x]).
Proof.
  intros Hp Hun Hb. destruct (unchanged_facts _ Hun) as [Hs Hcr]. destruct (pending_refusal _ _ Hp) as [Rs Rb Rl _].
  assert (∀ y, y ∈ h ++ [x] → y ∈ h ∨ y = x) as Hin by (by intros y [?| ->%list_elem_of_singleton]%elem_of_app; auto).
  split; try (apply Forall_app; split; [done|by apply Forall_singleton]).
  - intros y [Hy| ->]%Hin Hy'; [|congruence]. apply (pending_left _ _ _ Hp Hy Hy'). by eexists.
  - intros y ch [Hy| ->]%Hin E; [|congruence]. pose proof (pn_calls _ _ Hp) as Hc. rewrite Forall_forall in Hc.
    destruct (Hc y Hy) as (_ & _ & Hn & _). by apply Hn in E.
Qed.

(** A store that failed after a creation is made up for. *)
Lemma refusal_undone h x ch r1 r2 :
  pending (Some ch) h → changes x = false → reports_bug x = false →
  refusal (h ++ [x; iev (SoftDeleteChannel (community t) ch) r1; iev (InvalidateChannelDeleted t) r2]).
Proof.
  intros Hp Hun Hb. destruct (unchanged_facts _ Hun) as [Hs Hcr]. destruct (pending_refusal _ _ Hp) as [Rs Rb Rl _].
  destruct (pn_created _ _ Hp ch eq_refl) as (_ & y & Hy & Ey).
  set (h' := h ++ _). assert (h `prefix_of` h') as Hpre by (by eexists).
  assert (∀ z, icall_of z = SoftDeleteChannel (community t) ch ∨ icall_of z = InvalidateChannelDeleted t → left_behind h' z) as Hz.
  { intros z Hz. right; right. exists y, ch. split; [|done]. apply elem_of_app. by left. }
  split; try (apply Forall_app; split; [done|by repeat constructor]).
  - intros z Hin Hch. apply elem_of_app in Hin as [Hin|Hin]; [by apply (pending_left _ _ _ Hp Hin Hch)|].
    rewrite !elem_of_cons, elem_of_nil in Hin. destruct Hin as [->|[->|[->|[]]]]; [|by apply Hz; auto..].
    congruence.
  - intros z ch' Hin E. right.
    assert (ch' = ch) as ->.
    { apply elem_of_app in Hin as [Hin|Hin].
      - pose proof (pn_calls _ _ Hp) as Hc. rewrite Forall_forall in Hc. destruct (Hc z Hin) as (_ & _ & Hn & _).
        apply Hn in E. congruence.
      - rewrite !elem_of_cons, elem_of_nil in Hin. destruct Hin as [->|[->|[->|[]]]]; [congruence|done..]. }
    unfold h'. rewrite fmap_app. apply elem_of_app. right. right. left.
Qed.

Lemma V_quiet {A} (p : io A) created h : only quiet p → pending created h → V p h (λ h' _, pending created h').
Proof.
  revert h. induction p as [x|c k IH]; intros h Ho Hh; simpl in *; [done|]. destruct Ho as [Hc Hk]. split; [done|].
  intros r _. apply IH; [done|]. by apply pending_snoc.
Qed.

Lemma safe_quiet {A} created (p : stage A) : only quiet p → safe created p.
Proof.
  intros Ho h Hh. eapply whatever_mono; [by apply V_quiet|]. intros h' [x|[out|err]] _ Hp; simpl; [done..|].
  by eapply pending_refusal.
Qed.

Lemma safe_after {A B} created (p : io A) (f : A → stage B) : only quiet p → (∀ x, safe created (f x)) → safe created (prog_bind f p).
Proof. intros Hp Hf h Hh. apply whatever_bind. eapply whatever_mono; [by apply V_quiet|]. intros h' x _ Hh'. by apply Hf. Qed.

Lemma safe_let {A B} created (p : stage A) (k : A → stage B) : safe created p → (∀ x, safe created (k x)) → safe created (let! x := p in k x).
Proof.
  intros Hp Hk h Hh. apply whatever_bind. eapply whatever_mono; [by apply Hp|]. intros h' [x|[out|err]] _ Hc; simpl; [by apply Hk|done..].
Qed.

Lemma safe_ret {A} created (r : result exit A) : safe created (Ret r).
Proof. by apply safe_quiet. Qed.

Lemma V_answers {A} (p : stage A) h (Q : list ievent → result exit A → Prop) :
  rets (λ x, ¬ unanswered x) p → (∀ h' out, Q h' (Err (Ok out))) → V p h Q.
Proof.
  intros Hp HQ. revert h. induction p as [x|c k IH]; intros h; simpl in *.
  - destruct x as [x|[out|err]]; [by destruct Hp|apply HQ|by destruct Hp].
  - split; [done|]. intros r _. by apply IH.
Qed.

(** A call that changes something: what follows a change must answer. *)
Lemma safe_change {A} created c (f : ireply c → stage A) :
  (∀ r, (okay None (iev c r) ∧ safe created (f r)) ∨ rets (λ x, ¬ unanswered x) (f r)) → safe created (prog_bind f (ask c)).
Proof.
  intros Hf h Hh. split; [done|]. intros r _. destruct (Hf r) as [[Hc Hs]|Hr].
  - by apply Hs, pending_snoc.
  - by apply V_answers.
Qed.

Lemma okay_still x : reports_bug x = false → asks_store (icall_of x) = false → changes x = false → okay None x.
Proof. intros ?? Hc. destruct (unchanged_facts x Hc) as [_ E]. split_and!; [done..|by rewrite E|congruence]. Qed.

Lemma only_mono {A} (ok ok' : icall → Prop) (p : io A) : (∀ c, ok c → ok' c) → only ok p → only ok' p.
Proof. intros Hm. induction p as [x|c k IH]; simpl; [done|]. intros [? ?]. split; auto. Qed.

Lemma plain_quiet {A} (p : io A) : only plain p → only quiet p.
Proof. apply only_mono. intros c Hc r. apply okay_still; destruct c; try done; by destruct r. Qed.

Lemma calm_quiet {A} (p : io A) : only calm p → only quiet p.
Proof.
  apply only_mono. intros c [Hc|[-> Hk]] r.
  - apply okay_still; destruct c; try done; by destruct r.
  - split_and!; try done. by left.
Qed.

Lemma ask_quiet c : quiet c → only quiet (ask c).
Proof. by split. Qed.

(** [c] is quiet: none of its replies is a change. *)
Ltac quietly := first [apply ask_quiet|idtac]; let r := fresh in intros r; apply okay_still; [done|done|by destruct r].

Lemma emit_quiet action : (∀ k, action ≠ ImplBug k) → only quiet (emit action).
Proof. intros Ha. apply ask_quiet. intros r. apply okay_still; [|done|done]. destruct action; try done. by destruct (Ha bug_kind). Qed.

Lemma preflight_quiet : only quiet preflight.
Proof.
  unfold preflight. apply only_bind; [apply only_bind; [quietly|done]|]. intros [[]|]; [|done].
  apply only_bind; [done|]. intros [[]|]; [|done]. apply only_bind; [apply only_bind; [quietly|done]|].
  intros [[]|]; [|done]. apply only_bind; [quietly|done].
Qed.

Lemma route_safe : safe None route.
Proof.
  assert (∀ c reply after, (∀ r, is_ok (reply r) = true ∨ okay None (iev c r)) → safe None (handled c reply after)) as Hh.
  { intros c reply after Hc. apply safe_change. intros r. destruct (reply r) eqn:Er.
    - right. eapply rets_bind; [apply rets_any|]. by intros [] _ ?.
    - destruct (Hc r) as [E|Hok]; [by rewrite Er in E|left]. split; [done|apply safe_ret]. }
  unfold route. destruct (is_command_kind kind).
  { apply safe_change. intros [res|err]; [right; by intros ?|left]. split; [by apply okay_still|apply safe_ret]. }
  repeat case_match; try apply safe_ret; apply Hh; (intros [?|?]; [by left|right; by apply okay_still]).
Qed.

Lemma restriction_quiet : only quiet restriction_gate.
Proof.
  unfold restriction_gate. destruct (_ && _); [|done]. apply only_bind; [quietly|]. intros [r|]; [|done].
  destruct (rs_banned r); [done|]. destruct (rs_muted_until r); [|done]. apply only_bind; [quietly|done].
Qed.

Lemma resolve_quiet : only quiet resolve_channel.
Proof.
  unfold resolve_channel. apply only_bind; [|by intros [?|]]. unfold event_channel. case_decide.
  - apply only_bind; [|done]. unfold derive_reaction_channel. destruct (last_e_target e); [|done].
    destruct (hex_decode _); [|done]. case_decide; [|done]. apply only_bind; [quietly|done].
  - destruct is_gift_wrap; [done|]. case_decide; [|done]. destruct (first_e_target e); [|done].
    destruct (hex_decode _); [|done]. apply only_bind; [quietly|done].
Qed.

Lemma membership_quiet ch row : only quiet (membership_gate ch row).
Proof.
  unfold membership_gate. destruct ch as [c|]; [|done]. destruct skip_membership; [done|].
  apply only_bind; [|intros r; apply only_bind; [by apply emit_quiet|done]].
  unfold check_channel_membership. apply only_bind; [quietly|]. intros [[|]|]; [done| |done].
  apply only_bind; [|done]. destruct row; [done|]. apply only_bind; [quietly|done].
Qed.

Lemma relay_admin_safe : safe None relay_admin.
Proof.
  unfold relay_admin. destruct (is_relay_admin_kind kind); [|apply safe_ret]. apply safe_change.
  intros [[]|err]; [right; by intros ?|left]. split; [by apply okay_still|apply safe_ret].
Qed.

Lemma leave_safe : safe None leave_request.
Proof.
  unfold leave_request. case_decide; [|apply safe_ret]. destruct (negb _); [apply safe_ret|].
  apply safe_let; [apply safe_quiet, only_bind; [quietly|done]|]. intros [].
  apply safe_change. intros [[]|err]; try (left; split; [by apply okay_still|apply safe_ret]).
  right. simpl. by intros _ _ ?.
Qed.

Lemma push_safe created now : safe created (push_lease now).
Proof.
  unfold push_lease. destruct (is_kind _); [|apply safe_ret]. apply safe_change. intros [o|err].
  - destruct o; try (left; split; [by apply okay_still|apply safe_ret]). right. simpl. by intros _ ?.
  - left. split; [by apply okay_still|apply safe_ret].
Qed.

(** The creation is the only change a stage before the store may pass on. *)
Lemma create_keeps ch h : pending None h → V (create_group ch) h (λ h' r,
  match r with Ok created => pending created h' | Err (Err _) => refusal h' | Err (Ok _) => True end).
Proof.
  intros Hh. pose proof (pending_refusal _ _ Hh) as Hr. unfold create_group. destruct (is_kind _) eqn:Hk; [|done]. cbv zeta.
  apply is_kind_true in Hk. destruct (match first_content "name" with Some _ => _ | None => _ end); [done|].
  destruct (visibility_from_str _) as [vis|]; [destruct (channel_type_from_str _) as [ty|]|]; [|done..].
  destruct ch as [c|]; [|done]. apply V_ask. intros [[]|err]; simpl; [|done|].
  - set (x := iev _ _). assert (creates x = Some c) as Ex by (simpl; by rewrite decide_True). split.
    + apply Forall_app. split; [eapply Forall_impl; [apply Hh|apply okay_weaken]|]. apply Forall_singleton.
      split_and!; [done|done|by intros ? <-|]. right. by exists c.
    + intros ? [= <-]. split; [done|]. exists x. split; [|done]. apply elem_of_app. right. by left.
  - eapply pending_refusal, pending_snoc; [exact Hh|]. by apply okay_still.
Qed.

Lemma publish_answers stored ch w threaded : rets (λ r : result exit IngestResult, ¬ unanswered r)
  (prog_bind (λ r, Ret (Err r)) (publish stored ch w threaded)).
Proof. simpl. by intros _ _ ?. Qed.

Lemma after_store_answers stored ch thread threaded : rets (λ r : result exit IngestResult, ¬ unanswered r)
  (prog_bind (λ r, Ret (Err r)) (after_store stored ch thread threaded)).
Proof.
  apply rets_bind with (P := λ r, ∃ x, r = Ok x); [|by intros r [x ->] ?].
  unfold after_store. eapply rets_bind; [apply rets_any|]. intros _ _. eapply rets_bind; [apply rets_any|]. intros _ _.
  simpl. intros _ _. by eexists.
Qed.

(** How the last stage ends. *)
Definition ends {A} (h : list ievent) (r : result exit A) : Prop := unanswered r → refusal h.

Lemma ends_ret {A} created h (r : result exit A) : pending created h → V (Ret r) h ends.
Proof. intros Hp _. by eapply pending_refusal. Qed.

Lemma ends_answers {A} (p : stage A) h : rets (λ x, ¬ unanswered x) p → V p h ends.
Proof. intros Hp. apply V_answers; [done|]. by intros h' out []. Qed.

Lemma reaction_ends ch thread threaded h : pending None h → V (store_reaction ch thread threaded) h ends.
Proof.
  intros Hp. unfold store_reaction. destruct (last_e_target e) as [hex|]; [|by apply ends_ret with None].
  destruct (hex_decode hex); [|by apply ends_ret with None]. cbv zeta.
  destruct (leave_on _) as [[]|]; [|by apply ends_ret with None]. apply V_ask.
  intros [[| |s w]|err]; try (apply ends_answers, publish_answers); intros _; by apply refusal_store.
Qed.

Lemma store_event_keeps ch thread created h : pending created h →
  V (store_event ch thread created) h (λ h' r, match r with Err (Err _) => refusal h' | Err (Ok _) => False | Ok _ => True end).
Proof.
  intros Hp. assert (kind ≠ KIND_NIP29_CREATE_GROUP → pending None h) as Hn.
  { intros Hk. destruct created as [c|]; [|done]. by destruct (pn_created _ _ Hp c eq_refl). }
  unfold store_event. cbv zeta. destruct (is_replaceable kind) eqn:Hr; [|destruct (is_parameterized_replaceable kind) eqn:Hpr].
  - apply V_ask. intros [[s w]|err]; [done|]. apply refusal_store; [|done..]. apply Hn. intros E. by rewrite E in Hr.
  - destruct (_ <? _); [by eapply pending_refusal|]. apply V_ask. intros [[s w]|err]; [done|].
    apply refusal_store; [|done..]. apply Hn. intros E. by rewrite E in Hpr.
  - apply V_ask. intros [[s w]|err]; [done|]. destruct created as [c|].
    + split; [done|]. intros r1 _. split; [done|]. intros r2 _. rewrite <-!app_assoc. simpl.
      destruct (fault_kind err); by apply refusal_undone.
    + simpl. destruct (fault_kind err); by apply refusal_store.
Qed.

Lemma store_ends ch thread threaded created h : pending created h → V (store ch thread threaded created) h ends.
Proof.
  intros Hp. unfold store. destruct (is_kind KIND_REACTION) eqn:Hk.
  - apply is_kind_true in Hk. destruct created as [c|]; [|by apply reaction_ends].
    destruct (pn_created _ _ Hp c eq_refl) as [E _]. by rewrite Hk in E.
  - apply whatever_bind. eapply whatever_mono; [by apply store_event_keeps|].
    intros h' [[s [|]]|[out|err]] _ Hr; simpl; [apply ends_answers, after_store_answers|by intros []|done|by intros _].
Qed.

Lemma keeps_then {A B} created (p : stage A) (k : A → stage B) h :
  safe created p → pending created h → (∀ x h', pending created h' → V (k x) h' ends) → V (let! x := p in k x) h ends.
Proof.
  intros Hp Hh Hk. apply whatever_bind. eapply whatever_mono; [by apply Hp|].
  intros h' [x|[out|err]] _ Hr; simpl; [by apply Hk|by intros []|by intros _].
Qed.

Lemma inner_ends : V ingest_event_inner [] (λ h' r, ∀ err, r = Err err → refusal h').
Proof.
  apply whatever_bind. eapply whatever_mono with (Q := ends).
  2: { intros h' [x|[x|err]] _ Hc; simpl; [done..|]. intros _ _. by apply Hc. }
  assert (pending None []) as Hh by (by split; [constructor|]). revert Hh. generalize (@nil ievent). intros h Hh.
  apply (keeps_then None); [apply safe_quiet, preflight_quiet|done|intros now h1 Hp1].
  apply (keeps_then None); [apply route_safe|done|intros [] h2 Hp2].
  apply (keeps_then None); [apply safe_quiet, restriction_quiet|done|intros [] h3 Hp3].
  apply (keeps_then None); [apply safe_quiet, resolve_quiet|done|intros ch h4 Hp4].
  unfold admit_event. apply whatever_bind. eapply whatever_mono; [apply V_quiet; [|exact Hp4]|].
  { destruct ch; [|done]. apply only_bind; [quietly|done]. }
  intros h5 row _ Hp5. apply whatever_bind. eapply whatever_mono; [apply V_quiet; [|exact Hp5]|].
  { unfold threaded_visibility. destruct ch as [c|]; [destruct row as [r|]; [|done]|done]. apply only_bind; [quietly|done]. }
  intros h6 threaded _ Hp6.
  apply (keeps_then None); [apply safe_quiet, membership_quiet|done|intros [] h7 Hp7].
  apply (keeps_then None); [apply relay_admin_safe|done|intros [] h8 Hp8].
  apply (keeps_then None); [apply leave_safe|done|intros [] h9 Hp9].
  apply (keeps_then None); [apply safe_quiet, calm_quiet, rules_calm|done|intros [] h10 Hp10].
  apply whatever_bind. eapply whatever_mono; [by apply create_keeps|].
  intros h11 [created|[out|err]] _ Hp11; [cbv beta iota|by intros []|by intros _].
  apply (keeps_then created); [apply safe_ret|done|intros [] h12 Hp12].
  apply (keeps_then created); [apply push_safe|done|intros [] h13 Hp13].
  apply (keeps_then created); [apply safe_quiet, plain_quiet, media_plain|done|intros [] h14 Hp14].
  apply (keeps_then created); [apply safe_quiet, plain_quiet, thread_stage_plain|done|intros thread h15 Hp15].
  apply (keeps_then created); [apply safe_ret|done|intros [] h16 Hp16]. by apply store_ends.
Qed.

(** *** What an accepted event stands for *)

Definition done_in (h : list ievent) : Prop := ∃ x, x ∈ h ∧ work_done x = true.

(** A stage leaves with an accepted answer only when work was done; the last one goes
    nowhere else. *)
Definition leaves_done {A} (last : bool) (h : list ievent) (r : result exit A) : Prop :=
  match r with
  | Ok _ => last = true → done_in h
  | Err (Ok res) => ir_accepted res = true → done_in h
  | Err (Err _) => True
  end.

Definition settles {A} (last : bool) (p : stage A) : Prop := ∀ h, V p h (leaves_done last).

Lemma done_mono h h' : h `prefix_of` h' → done_in h → done_in h'.
Proof. intros [k ->] (x & ? & ?). exists x. split; [apply elem_of_app; by left|done]. Qed.

Lemma V_done {A} (p : stage A) last h : done_in h → V p h (leaves_done last).
Proof.
  intros Hd. eapply whatever_mono; [apply V_any|]. intros h' r Hp _. apply (done_mono _ _ Hp) in Hd. destruct r as [?|[?|?]]; simpl; auto.
Qed.

Lemma settles_bind {A B} last (p : io A) (f : A → stage B) : (∀ x, settles last (f x)) → settles last (prog_bind f p).
Proof. intros Hf h. apply whatever_bind. eapply whatever_mono; [apply V_any|]. intros h' x _ _. apply Hf. Qed.

Lemma settles_let {A B} last (p : stage A) (k : A → stage B) :
  settles false p → (∀ x, settles last (k x)) → settles last (let! x := p in k x).
Proof.
  intros Hp Hk h. apply whatever_bind. eapply whatever_mono; [apply Hp|]. intros h' [x|[res|err]] _ Hl; simpl; [apply Hk|exact Hl|done].
Qed.

Lemma settles_ask {B} last c (f : ireply c → stage B) :
  (∀ r, work_done (iev c r) = true ∨ settles last (f r)) → settles last (prog_bind f (ask c)).
Proof.
  intros Hf h. apply V_ask. intros r. destruct (Hf r) as [Hw|Hs]; [|apply Hs].
  apply V_done. exists (iev c r). split; [apply answered_last|exact Hw].
Qed.

Lemma settles_leave {A} (r : result IngestError A) : settles false (Ret (leave_on r)).
Proof. intros h. by destruct r. Qed.

Lemma settles_when b p : settles false (when b p).
Proof. unfold when. destruct b; [|done]. apply settles_bind. intros r. apply settles_leave. Qed.

(** Checks that answer nothing themselves. *)
Lemma settles_check {A} last (r : result exit A) :
  match r with Ok _ => last = false | Err (Ok res) => ir_accepted res = false | Err (Err _) => True end → settles last (Ret r).
Proof. intros Hr h. destruct r as [x|[res|err]]; simpl in *; [by subst|congruence|done]. Qed.

Ltac verdicts := repeat match goal with |- settles _ (Ret (match ?x with _ => _ end)) => destruct x end; try (by apply settles_check).

Lemma preflight_settles : settles false preflight.
Proof.
  unfold preflight. apply settles_let; [apply settles_bind; intros r; apply settles_leave|]. intros _.
  apply settles_let; [unfold check_kind; verdicts|]. intros _.
  apply settles_let; [apply settles_bind; intros []; verdicts|]. intros _.
  apply settles_bind. intros now. destruct (check_envelope now) as [[]|out] eqn:Ec; apply settles_check; [done|]. revert Ec.
  unfold check_envelope. by repeat case_match; intros [= <-].
Qed.

Lemma route_settles : settles false route.
Proof.
  assert (∀ c reply after, (∀ r, is_ok (reply r) = true → work_done (iev c r) = true) → settles false (handled c reply after)) as Hh.
  { intros c reply after Hr. apply settles_ask. intros r. specialize (Hr r).
    destruct (reply r); [left; by apply Hr|right]. by apply settles_check. }
  unfold route. destruct (is_command_kind kind).
  { apply settles_ask. intros [res|err]; [|right; by apply settles_check]. simpl.
    destruct (ir_accepted res) eqn:Ea; [by left|right; by apply settles_check]. }
  repeat case_match; try (apply Hh; by intros [?|?]). by apply settles_check.
Qed.

Lemma restriction_settles : settles false restriction_gate.
Proof.
  unfold restriction_gate. destruct (_ && _); [|by apply settles_check]. apply settles_bind. intros [r|err]; [|by apply settles_check].
  destruct (rs_banned r); [by apply settles_check|]. destruct (rs_muted_until r); [|by apply settles_check].
  apply settles_bind. intros now. verdicts.
Qed.

Lemma resolve_settles : settles false resolve_channel.
Proof.
  unfold resolve_channel. apply settles_let.
  - unfold event_channel. repeat case_match; try (by apply settles_check); apply settles_bind; intros r; verdicts.
  - intros ch. unfold scope_channel. cbv zeta. destruct (_ && _); [by apply settles_check|].
    destruct (if is_global_only_kind kind then None else ch) as [c|]; [|verdicts].
    by destruct (check_token_channel_access a c); apply settles_check.
Qed.

Lemma membership_settles ch row : settles false (membership_gate ch row).
Proof.
  unfold membership_gate. destruct ch; [|by apply settles_check]. destruct skip_membership; [by apply settles_check|].
  do 2 (apply settles_bind; intros ?). apply settles_leave.
Qed.

Lemma relay_admin_settles : settles false relay_admin.
Proof.
  unfold relay_admin. destruct (is_relay_admin_kind kind); [|by apply settles_check]. apply settles_ask.
  intros [[]|err]; [by left|right; by apply settles_check].
Qed.

Lemma leave_settles : settles false leave_request.
Proof.
  unfold leave_request. case_decide; [|by apply settles_check]. destruct (negb _); [by apply settles_check|].
  apply settles_let; [apply settles_bind; intros now; unfold check_leave; verdicts|]. intros _.
  apply settles_ask. intros [[]|err]; [by left|right; by apply settles_check..].
Qed.

Lemma rules_settles ch row : settles false (rules ch row).
Proof.
  unfold rules. do 4 (apply settles_let; [apply settles_when|intros _]).
  apply settles_let; [unfold check_archived; verdicts|intros _].
  apply settles_let; [unfold check_deletion_targets; cbv zeta; verdicts|intros _].
  do 8 (apply settles_let; [apply settles_when|intros _]). apply settles_when.
Qed.

Lemma create_settles ch : settles false (create_group ch).
Proof.
  unfold create_group. destruct (is_kind _); [|by apply settles_check]. cbv zeta.
  destruct (match first_content "name" with Some _ => _ | None => _ end); [by apply settles_check|].
  repeat case_match; try (by apply settles_check). apply settles_bind. intros [[]|err]; by apply settles_check.
Qed.

Lemma push_settles now : settles false (push_lease now).
Proof.
  unfold push_lease. destruct (is_kind _); [|by apply settles_check]. apply settles_ask. intros [[]|err]; try (right; by apply settles_check).
  by left.
Qed.

Lemma media_settles : settles false media_rules.
Proof.
  unfold media_rules. cbv zeta. apply settles_let; [apply settles_when|intros _]. case_decide; [by apply settles_check|].
  apply settles_let; [apply settles_leave|intros _]. apply settles_bind. intros r. apply settles_leave.
Qed.

Lemma thread_settles ch : settles false (thread_stage ch).
Proof.
  unfold thread_stage. repeat case_match; try (by apply settles_check). apply settles_bind. intros r. apply settles_leave.
Qed.

(** Once the work is done, any answer is right. *)
Lemma settles_then {A B} last (p : stage A) (k : A → stage B) : settles true p → settles last (let! x := p in k x).
Proof.
  intros Hp h. apply whatever_bind. eapply whatever_mono; [apply Hp|]. intros h' [x|[res|err]] _ Hl; simpl; [|exact Hl|done].
  by apply V_done, Hl.
Qed.

Lemma store_event_settles ch thread created : settles true (store_event ch thread created).
Proof.
  unfold store_event. cbv zeta. destruct (is_replaceable kind); [|destruct (is_parameterized_replaceable kind); [destruct (_ <? _)|]].
  - apply settles_ask. intros [?|?]; [by left|right; by apply settles_check].
  - by apply settles_check.
  - apply settles_ask. intros [?|?]; [by left|right; by apply settles_check].
  - apply settles_ask. intros [?|err]; [by left|right]. apply settles_bind. intros _. verdicts.
Qed.

Lemma store_settles ch thread threaded created : settles true (store ch thread threaded created).
Proof.
  unfold store. destruct (is_kind KIND_REACTION); [|apply settles_then, store_event_settles].
  unfold store_reaction. destruct (last_e_target e) as [hex|]; [|by apply settles_check]. destruct (hex_decode hex); [|by apply settles_check].
  cbv zeta. apply settles_let; [apply settles_leave|intros _]. apply settles_ask.
  intros [[]|err]; [right; by apply settles_check|right; by apply settles_check|by left|right; by apply settles_check].
Qed.

Lemma inner_settles : V ingest_event_inner [] (λ h' r, ∀ res, r = Ok res → ir_accepted res = true → done_in h').
Proof.
  apply whatever_bind. eapply whatever_mono with (Q := leaves_done true).
  2: { intros h' [x|[x|err]] _ Hl; simpl in *; intros res [= <-]; auto. }
  generalize (@nil ievent). change (∀ h, V ?p h (leaves_done true)) with (settles true p).
  apply settles_let; [apply preflight_settles|intros now]. apply settles_let; [apply route_settles|intros _].
  apply settles_let; [apply restriction_settles|intros _]. apply settles_let; [apply resolve_settles|intros ch].
  unfold admit_event. do 2 (apply settles_bind; intros ?). apply settles_let; [apply membership_settles|intros _].
  apply settles_let; [apply relay_admin_settles|intros _]. apply settles_let; [apply leave_settles|intros _].
  apply settles_let; [apply rules_settles|intros _]. apply settles_let; [apply create_settles|intros created].
  apply settles_let; [apply settles_check; unfold check_join; by repeat case_match|intros _].
  apply settles_let; [apply push_settles|intros _]. apply settles_let; [apply media_settles|intros _].
  apply settles_let; [apply thread_settles|intros thread].
  apply settles_let; [unfold check_content; verdicts; apply settles_leave|intros _]. apply store_settles.
Qed.

(** *** Executions *)

Lemma exec_counted {A} n (p : io A) es x m :
  exec iev (counted n p) es (x, m) → exec iev p es x ∧ m = n + length (List.filter (λ e, is_trace (icall_of e)) es).
Proof.
  revert n es. induction p as [y|c k IH]; intros n es; simpl.
  - intros [-> [= -> ->]]. split; [done|]. simpl. lia.
  - intros (r & es' & -> & [Hx ->]%IH). split; [by eexists _, _|]. simpl. destruct (is_trace c); simpl; lia.
Qed.

(** A request that leaves with an error ends with the record of the error. *)
Lemma refused_exec es err :
  exec iev ingest_event es (Err err) → ∃ before,
    es = before ++ [iev (RecordTrace (SanitizedError (sanitized_reason_for err)) state_for_request) tt] ∧
    exec iev ingest_event_inner before (Err err).
Proof.
  unfold ingest_event, guarded. intros (es1 & es2 & [x n] & -> & Hc & Hg)%exec_bind.
  apply exec_counted in Hc as [Hx Hn]. apply exec_bind in Hx as (before & es3 & res & -> & Hi & Hr).
  case_decide as Hz; simpl in Hg.
  - destruct Hg as (r & es' & -> & -> & ->). destruct res as [y|err']; simpl in Hr; [by destruct Hr|].
    destruct Hr as (r' & es' & -> & -> & _). rewrite Hn, List.filter_app, length_app in Hz. simpl in Hz. lia.
  - destruct Hg as [-> ->]. rewrite app_nil_r. destruct res as [y|err']; simpl in Hr; [by destruct Hr|].
    destruct Hr as (r' & es' & -> & -> & [= ->]). exists before. destruct r'. by split.
Qed.

(** A request that leaves with an answer got it from the pipeline. *)
Lemma answered_exec es res :
  exec iev ingest_event es (Ok res) → ∃ before rest, es = before ++ rest ∧ exec iev ingest_event_inner before (Ok res).
Proof.
  unfold ingest_event, guarded. intros (es1 & es2 & [x n] & -> & Hc & Hg)%exec_bind.
  assert (x = Ok res) as -> by (case_decide; simpl in Hg; [by destruct Hg as (?&?&?&?&?)|by destruct Hg]).
  apply exec_counted in Hc as [Hx _]. apply exec_bind in Hx as (before & es3 & r & -> & Hi & Hr).
  exists before, (es3 ++ es2). split; [by rewrite app_assoc|]. destruct r as [y|err]; simpl in Hr; [by destruct Hr as [_ [= ->]]|].
  by destruct Hr as (?&?&?&?&?).
Qed.

(** C4: Whatever the replies, every effect of [ingest_event] is admissible when it
    happens.  An event reaches the tables only in a community that serves, with a verified
    id and signature, a timestamp within the drift, from the caller or gift-wrapped, with
    the scope its kind needs, from someone neither banned nor timed out, in the channel
    the event names and the token allows, by a member or in an open channel, or, for the
    kinds with an authority of their own, with its permission, and not in a channel whose
    row was read as archived.  Only an event that was stored is announced, threaded, given
    side effects or recorded as written, and a verdict is recorded as [Allow] only for
    someone who may post. *)
Theorem stored_only_if_admitted es res :
  exec iev ingest_event es res → ∀ before x rest, es = before ++ x :: rest → call_guard before (icall_of x).
Proof.
  intros Hx. destruct (whatever_run iev icall_of (λ _ _, eq_refl) _ _ _ _ _ _ ingest_spec Hx) as [_ Hg]; [done|exact Hg].
Qed.

(** C18: A request that leaves with an error has stored no event and no lease and reports
    no forgotten exit, and its last record is the error it leaves with.  Of all changes a
    service reports as made, it may have left only an identity it archived (for the two
    kinds that ask for it) and, for a request to create a channel, the channel; such a
    channel was deleted again when the database was asked to take the event and failed,
    and stays only if a later check refused the event before that
    ([IngestDemo.orphaned_channel]).  No command, report, moderation or membership change
    was made, nothing was announced, and no side effect was started. *)
Theorem refused_not_stored es err :
  exec iev ingest_event es (Err err) →
  Forall (λ x, stored_event x = false) es ∧
  (∀ x, x ∈ es → changes x = true → left_behind es x) ∧
  (∀ x ch, x ∈ es → creates x = Some ch →
     Forall (λ y, asks_store (icall_of y) = false) es ∨ SoftDeleteChannel (community t) ch ∈ icall_of <$> es) ∧
  (∃ before, es = before ++ [iev (RecordTrace (SanitizedError (sanitized_reason_for err)) state_for_request) tt]) ∧
  ∀ bug st, Forall (λ x, icall_of x ≠ RecordTrace (ImplBug bug) st) es.
Proof.
  intros (before & -> & Hi)%refused_exec.
  destruct (whatever_exec iev icall_of (λ _ _, eq_refl) _ _ _ _ _ _ _ inner_ends Hi) as [Hc _]; [done|].
  destruct (Hc err eq_refl) as [Rs Rb Rl Ru]. set (last := iev _ _). split_and!.
  - apply Forall_app. split; [exact Rs|by repeat constructor].
  - intros x [Hx| ->%list_elem_of_singleton]%elem_of_app Hch; [|done]. destruct (Rl x Hx Hch) as [?|[?|(y & ch & ? & ?)]].
    + by left.
    + by right; left.
    + right; right. exists y, ch. split; [|done]. apply elem_of_app. by left.
  - intros x ch [Hx| ->%list_elem_of_singleton]%elem_of_app E; [|done]. destruct (Ru x ch Hx E) as [?|Hin]; [left|right].
    + apply Forall_app. split; [done|by repeat constructor].
    + rewrite fmap_app. apply elem_of_app. by left.
  - by exists before.
  - intros bug st. apply Forall_app. split; [|by repeat constructor]. eapply Forall_impl; [exact Rb|].
    intros x Hb E. unfold reports_bug in Hb. by rewrite E in Hb.
Qed.

(** C29: An answer that says accepted was worked for: a handler took the event, the caller
    left the relay, a lease was taken or the database accepted the event, possibly as one
    it had.  No early exit answers so. *)
Theorem accepted_was_done es res :
  exec iev ingest_event es (Ok res) → ir_accepted res = true → ∃ x, x ∈ es ∧ work_done x = true.
Proof.
  intros (before & rest & -> & Hi)%answered_exec Ha.
  destruct (whatever_exec iev icall_of (λ _ _, eq_refl) _ _ _ _ _ _ _ inner_settles Hi) as [Hd _]; [done|].
  destruct (Hd res eq_refl Ha) as (x & Hx & Hw). exists x. split; [|done]. apply elem_of_app. by left.
Qed.

End pipeline.

(** ** Witnesses *)

Module IngestDemo.
Import MeshWireDemo EventQueryDemo IngestCallsDemo.
#[local] Existing Instances hex_api demo_chrono TopicsDemo.demo_parse_uuid AuthDemo.toy_auth ToyWire.toy_wire.
#[local] Existing Instance IngestEnvelopesDemo.demo_debug.

#[local] Instance demo_url_parts : UrlPartsApi := λ _, None.
#[local] Instance demo_event_id : EventIdHash := λ se, id_to_hex (ev_id (ev se)).
#[local] Instance demo_f64 : F64Api := {|
  parse_f64 := parse_uint u64_max; f64_zero := 0%N; f64_le := N.leb; f64_is_nan := λ _, false;
  f64_is_infinite := λ _, false; f64_off_by_a_tenth := λ a b, bool_decide (a ≠ b); f64_to_string := num_to_string |}.

Definition config : IngestConfig := mkIngestConfig "wss://relay.example" 99 None true.
Definition tenant : TenantContext := mkTenant 1 "relay.example".
Definition caller : IngestAuth := Nip42 2 [MessagesWrite; ChannelsWrite; UsersWrite] None 4.
Definition signed (kind : Z) (tags : list Tag) (content : string) : Event :=
  mkSignedEvent (mkEvent 9 2 1000 kind tags content) "sig".

Definition path (se : Event) : io exit := ingest_event config tenant se caller.

(** Channel 5 is open; [banned] is the caller's state. *)
Definition service (banned : bool) (c : icall) : ireply c :=
  match c with
  | GetChannel _ _ => Ok (mkChannelRecord "stream" "open" (key 2) None None)
  | GetRestriction _ _ => Ok (mkRestriction banned None)
  | c => default_reply c
  end.

Definition history (banned : bool) (se : Event) : list ievent * exit := run iev (λ _ c, service banned c) (path se) [].

Lemma ingest_history_exec banned se : exec iev (path se) (history banned se).1 (history banned se).2.
Proof. destruct (run_exec iev (λ _ c, service banned c) (path se) []) as (es & He & Hx & _). unfold history. by rewrite He. Qed.

Definition message : Event := signed KIND_STREAM_MESSAGE [["h"; "101"]] "hello".

Definition stores (es : list ievent) : nat := length (List.filter stored_event es).

Example message_stored : (history false message).2 = Ok (mkIngestResult (id_to_hex 9) true "") ∧ stores (history false message).1 = 1.
Proof. by vm_compute. Qed.

Lemma stored_only_if_admitted_witness :
  Forall (λ n, ∀ x, (history false message).1 !! n = Some x →
    call_guard config tenant message caller (take n (history false message).1) (icall_of x)) (seq 0 12) ∧
  stores (history false message).1 = 1.
Proof.
  split; [|by vm_compute]. apply Forall_forall. intros n _ x Hx.
  eapply stored_only_if_admitted with (rest := drop (S n) (history false message).1); [apply ingest_history_exec|].
  symmetry. by apply take_drop_middle.
Defined.

Definition bad_group : Event := signed KIND_NIP29_CREATE_GROUP [["h"; "101"]; ["name"; "general"]; ["imeta"]] "".

Lemma refused_not_stored_witness :
  is_ok (history false bad_group).2 = false ∧
  ∀ x, x ∈ (history false bad_group).1 → changes x = true → left_behind tenant bad_group (history false bad_group).1 x.
Proof.
  assert (∃ err, (history false bad_group).2 = Err err) as [err E] by (eexists; by vm_compute).
  split; [by rewrite E|]. pose proof (ingest_history_exec false bad_group) as Hx. rewrite E in Hx.
  by apply refused_not_stored in Hx as (_ & Hl & _).
Defined.

Lemma accepted_was_done_witness : ∃ x, x ∈ (history false message).1 ∧ work_done x = true.
Proof.
  eapply accepted_was_done with (res := mkIngestResult (id_to_hex 9) true ""); [|done].
  replace (Ok (mkIngestResult (id_to_hex 9) true "") : exit) with (history false message).2 by (by vm_compute). apply ingest_history_exec.
Defined.

(** *** Edges *)

(** A channel is created before the event is checked to its end: an [imeta] tag that is
    refused leaves the new channel behind. *)
Example orphaned_channel :
  let '(es, res) := history false bad_group in
  is_ok res = false ∧
  existsb (λ x, match x with existT (CreateChannelWithId _ _ _ _ _ _ _ _) (Ok true) => true | _ => false end) es = true ∧
  existsb (λ x, match icall_of x with SoftDeleteChannel _ _ => true | _ => false end) es = false.
Proof. by vm_compute. Qed.

(** The distance of a timestamp to the clock wraps around. *)
Example drift_wraps : drift_exceeds (2 ^ 63 + 1000) 1000 MAX_TIMESTAMP_DRIFT_SECS = false.
Proof. by vm_compute. Qed.

(** A report that is accepted records nothing, and the guard takes it for a bug. *)
Example report_reads_as_bug :
  let '(es, res) := history false (signed KIND_REPORT [] "") in
  is_ok res = true ∧ existsb reports_bug es = true.
Proof. by vm_compute. Qed.

(** A second delivery is answered as accepted. *)
Example duplicate_is_accepted :
  (run iev (λ _ c, match c with InsertEvent _ e ch _ => Ok (mkStored e 1000 ch true, false) | c => service false c end) (path message) []).2
    = Ok (mkIngestResult (id_to_hex 9) true "duplicate:").
Proof. by vm_compute. Qed.

End IngestDemo.
